(* ===== verification/_CoqProject ===== *)
-Q . S2P
Prelude.v
IntMath.v
AddrRange.v
AddrRangeMap.v
MemCmd.v
Packet.v
PacketProofs.v
SnoopFilter.v
SnoopFilterProofs.v
EventQueue.v
EventQueueProofs.v
BPredTables.v
IndirectPred.v
BPredIface.v
DirectionPreds.v
TournamentPred.v
BPredUnit.v
BPredUnitProofs.v
CacheBlk.v
CacheTags.v
CacheTagsProofs.v
Drain.v
CacheQueue.v
Mshr.v
MshrProofs.v
WriteQueue.v
PacketQueue.v
PacketQueueProofs.v
AbstractMem.v
AbstractMemProofs.v
Clocked.v
XBarDecode.v
XBarLayer.v
XBarLayerProofs.v
Bridge.v
BridgeProofs.v
PageTable.v
PageTableProofs.v
StackDist.v
StackDistProofs.v
StackDistSpec.v
O3Regs.v
O3Rename.v
O3RenameProofs.v
O3RenameSpec.v
O3Thread.v
O3Rob.v
O3RobProofs.v
Fplib.v
FplibOps.v
FplibApi.v
FplibConv.v
FplibRound.v
FplibArith.v
FplibMul.v
FplibFma.v
FplibDiv.v
FplibSqrt.v
FplibConvProofs.v
FplibIntProofs.v
FplibProofs.v
