(* ===== verification/Prelude.v ===== *)
(** * A verification of the core of gem5

    gem5 is a discrete-event simulator of computer systems.  Everything that happens is an
    event of a queue; simulated components exchange packets through ports; caches keep
    blocks in tag stores and outstanding misses in MSHRs; snoop filters and address maps
    decide where a packet goes; CPU models predict branches, rename registers and retire
    instructions in order; ARM instructions compute in a software floating-point library.  This
    development models those parts of the C++ sources (under [src/gem5/src/]) as Rocq functions and proves what makes
    them correct.

    ** Conventions

    - A C++ object that is shared or mutated through pointers lives in an explicit heap (a
      [gmap] from addresses) and operations return the changed heap; other objects are records
      and operations return the changed record.
    - [assert], [panic], [fatal] and undefined behaviour are values of the type [res] below, so
      a theorem that an operation returns [Ok] says that no assertion fails, no null pointer is
      followed and no array is read out of range.
    - Unsigned machine integers are [Z] with their wrap-around written out ([wrap], [u32],
      [u64]); statistics counters and ticks that never wrap in the source's own terms are
      plain [Z].
    - Virtual functions, the text printed for an object, random numbers and uninitialised
      memory are parameters of the definitions that use them.

    ** Files, and the sources they model

    - [Prelude] (this file): failures, machine integers, vectors, list lemmas, tactics and
      hint databases.
    - [IntMath]: [base/bitfield.hh] (Module [Bitfield]), [base/intmath.hh] (Module [IntMath]) and the
      port constant of [base/types.hh] (Module [Types]).
    - [AddrRange], [AddrRangeMap]: [base/addr_range.hh] and [base/addr_range_map.hh], the
      interleaved address ranges and the map memory decoding uses.
    - [MemCmd]: [base/flags.hh], the command table of [mem/packet] (Module [MemCmd]) and
      [mem/request.hh] (Module [Request]).
    - [Packet], [PacketProofs]: [mem/packet.hh] and [.cc]; Module [Host] is the byte memory
      payload pointers point into, [SenderStates] the stack of sender states.
    - [SnoopFilter], [SnoopFilterProofs]: [mem/snoop_filter.hh] and [.cc].
    - [EventQueue], [EventQueueProofs]: [sim/eventq.hh], [.cc] and [sim/eventq_impl.hh]; the queue
      is the linked list of bins of the source, on a heap of events.
    - [BPredTables], [IndirectPred], [BPredIface], [DirectionPreds], [TournamentPred], [BPredUnit],
      [BPredUnitProofs]: [cpu/pred/]: saturating counters, return address stack and BTB; the
      indirect predictor; the interface of direction predictors (classes [BPredOps] and
      [BPredLaws]); local, bi-mode and tournament predictors as instances of it; the branch
      prediction unit, proved against the interface.
    - [CacheBlk]: [mem/cache/blk.hh], block state and load locks.
    - [CacheTags], [CacheTagsProofs]: [mem/cache/tags/]: cache sets, the set-associative tag store,
      its LRU and random replacement.
    - [Drain]: [sim/drain.hh] and [.cc], with the loop of [drain()] in [python/m5/simulate.py].
    - [CacheQueue]: [mem/cache/queue.hh] and [queue_entry.hh]; the class [QueueEntry] is the
      interface between the queue template and its two kinds of entries.
    - [Mshr], [MshrProofs]: [mem/cache/mshr.hh], [mshr.cc], [mshr_queue.hh] and [mshr_queue.cc].
    - [WriteQueue]: [mem/cache/write_queue_entry.*] and [write_queue.*].
    - [PacketQueue], [PacketQueueProofs]: [mem/packet_queue.hh] and [.cc], the send queues of
      ports.
    - [AbstractMem], [AbstractMemProofs]: [mem/abstract_mem.hh] and [.cc], the backing store with
      its load locks.
    - [StackDist], [StackDistProofs], [StackDistSpec]: [mem/stack_dist_calc.*].
    - [Clocked]: [sim/clocked_object.hh], class [Clocked].
    - [XBarDecode]; [XBarLayer], [XBarLayerProofs]: [mem/xbar.hh] and [.cc], the address decoding and
      the layers of crossbars.
    - [Bridge], [BridgeProofs]: [mem/bridge.hh] and [.cc].
    - [PageTable], [PageTableProofs]: [mem/page_table.hh] and [.cc], over the entry types of Alpha, x86,
      MIPS and Power; the class [TlbEntry] is the interface between them.
    - [O3Regs], [O3Rename], [O3RenameProofs], [O3RenameSpec]: the out-of-order CPU's physical
      registers, free list, rename maps and scoreboard ([cpu/o3/free_list.*], [rename_map.*],
      [regfile.*], [scoreboard.*]), and the rename stage ([cpu/o3/rename*]) with its history
      buffer.
    - [O3Thread]: what [removeThread] of [cpu/o3/cpu.cc] does to the registers of a halted thread.
    - [O3Rob], [O3RobProofs]: [cpu/o3/rob.hh] and [rob_impl.hh], the reorder buffer.
    - [Fplib], [FplibOps], [FplibApi], [FplibConv]: [arch/arm/insts/fplib.hh] and [.cc]: unpacking,
      rounding and packing; the operations on each width; the functions the instructions call;
      conversions.  [FplibRound] states the IEEE 754 rounding they are measured against;
      [FplibArith], [FplibMul], [FplibFma], [FplibDiv], [FplibSqrt], [FplibConvProofs],
      [FplibIntProofs] and [FplibProofs] hold the proofs.

    ** What the theorems show

    - Event queue: [schedule], [deschedule] and [reschedule] implement insertion into and removal
      from a list sorted by time and priority (last in, first out within equal keys, as the
      source documents), [serviceOne] runs the first of them, and [serviceEvents] runs
      exactly the events that are due, in that order (for events that do not schedule others).  The refinement relates the linked bins to a flat list.
    - Branch prediction: squashing undoes every speculative update of direction predictor,
      return stack and indirect history (for any predictor that satisfies the interface's laws,
      which the three predictors are shown to do); a corrected branch leaves the actual direction in
      the history and its target in the BTB or in the target cache of the indirect predictor;
      committing retires the history in order; the return stack refines a
      bounded stack.
    - Packets: functional accesses never invent data, writes reach exactly the bytes they
      cover, responses keep what they must keep, and match their requests.
    - Snoop filter: requests and holders of every line are tracked through lookups, retries,
      snoops and responses; a holder is forgotten only when the operation itself is its eviction, an
      invalidating snoop or an unshared response.
    - Addresses: ranges and maps decode consistently; a set of interleaved ranges merges
      into one; an inserted range is found and nothing else changes.
    - Caches: what is filled is found; the LRU order is kept, which protects a block for as many
      uses as there are other ways; random replacement ends within a turn; store conditionals
      succeed exactly when their load lock is intact.
    - MSHRs: a snoop is ordered before or after the outstanding request and handled
      accordingly, no upgrade survives an invalidation ordered before it, requests are served in
      arrival order, the recursive clearing of [downstreamPending] terminates, and the queues'
      lists stay consistent.
    - Draining: the manager's counter is exact; a drain completes in any order of signals, in the
      first round in which no object asks for time, however many rounds that takes; and an object
      created in the middle of a drain breaks it.
    - Packet queues: a packet is placed by its time, behind the first one even if it is due earlier
      ([early_packet_waits]) and, where asked, behind those to its address; none is sent before its
      time, no assertion fails, a queue that is not empty has a send or a retry coming, and a peer that takes every packet receives them in the order
      of the queue until it is drained.
    - Memory: what is written is read back, a swap is atomic, and the list of locked addresses
      refines a map of load locks.
    - Stack distances: the tree of partial sums returns what the list of addresses ordered by
      last use gives, for every sequence of accesses if verification is off, and for those without
      pure removals if it is on; a removal under verification makes the next access panic, which
      is shown as well.
    - Clocks, crossbars and bridges: clock edges are computed right; every address goes to the
      port that has its range; a layer serves waiting ports in order and forgets none; a bridge
      passes packets on once each and in order, never out of room, and owes a retry to every sender
      it refused until it sends it, whatever its peers do within the protocol of ports.
    - Page tables: a table translates as the regions mapped, moved and unmapped say, its cache
      unseen, except after a move onto a mapped page, for which the failure is shown.
    - Rename: until a context is halted, every physical register is at any time in exactly one
      place (mapped, free or held by the history); a squash restores the maps; each destination
      of an instruction becomes one write in flight and its sources read the last write in program
      order, so the stage implements the architectural registers.  Removing a halted thread breaks
      this: registers are freed twice, or while they are still mapped.
    - Reorder buffer: its counters and lists agree, instructions retire in order, the head is the
      oldest instruction except where an older one has entered a thread that had none, and a squash
      completes and marks exactly the younger instructions.
    - Floating point: addition, multiplication, fused multiply-add, division, square root,
      conversions between formats, to and from fixed point and to integral values return the
      correctly rounded result of the exact operation, in every rounding mode the function admits
      (narrowing conversions assert that it is not "ties away"), with flush-to-zero and the
      alternative half-precision format off, and the flags with it; comparisons and minimum/maximum order the values they encode.

    Each property of importance is followed by a lemma named [.._witness] that applies it at a
    concrete input.

    ** Bounds and fuel

    Loops over linked structures carry fuel.  The walks over bins in [EventQueue] are bounded by
    the number of events of the heap, the walk over sender states by the number of objects
    ([S (size h)]), the search of [RandomRepl] by the associativity, the clearing of
    [downstreamPending] by the number of MSHRs ([clear_fuel]), and [isPrime] by its argument.
    [serviceEvents] takes its fuel from the caller, since servicing an event may schedule
    others; [serviceEvents_correct] gives the fuel that is enough when it does not.  The theorems state results
    with [Ok], or that [OutOfFuel] is not returned, so the bounds are proved sufficient.

    ** What is not modelled

    The cache controller, the forwarding of crossbars, DRAM controllers and Ruby; the stages of the
    out-of-order CPU other than rename and the reorder buffer, [insertThread], which nothing calls,
    and the other CPU models; the
    instruction sets, whose decoders are generated (apart from the ARM floating-point library);
    devices, the GPU model, statistics output, checkpoint files, the Python binding, host
    services and vendored code.  The event-driven controllers are left out because they compose
    most of the parts above with timing configured from outside.  Of the modelled parts, tracing,
    registration of statistics and printed text are left out, as they do not influence the
    state.  Of the floating-point library, the reciprocal and square-root estimates, the step
    functions and flush-to-zero are modelled, but no accuracy theorem is stated for them. *)

From stdpp Require Import base tactics numbers list gmap strings.
From stdpp Require Export base tactics numbers list gmap.
From Stdlib Require Export ZArith Lia.

Open Scope Z_scope.

(** ** Failures

    gem5 stops the process on [assert], [panic] and [fatal]; dereferencing a null
    pointer or reading past an array is undefined behaviour.  Every partial operation
    of the model returns a value of [res], so that each of these outcomes is a
    value a theorem can speak about.  [OutOfFuel] is the model's own outcome: a
    loop of the source that is bounded by fuel here ran out of it.  It is never a
    behaviour of the program, and each theorem about such a loop proves it away. *)

Inductive failure :=
  | AssertFailed
  | Panicked
  | Fatal
  | BadPointer
  | OutOfFuel.

Inductive res (A : Type) :=
  | Ok (a : A)
  | Fail (e : failure).
Arguments Ok {A} a.
Arguments Fail {A} e.

#[export] Instance failure_eq_dec : EqDecision failure.
Proof. solve_decision. Defined.

#[export] Instance res_ret : MRet res := fun A a => Ok a.

#[export] Instance res_bind : MBind res :=
  fun A B f m => match m with Ok a => f a | Fail e => Fail e end.

#[export] Instance res_fmap : FMap res :=
  fun A B f m => match m with Ok a => Ok (f a) | Fail e => Fail e end.

(** The [assert(b)] of the source. *)
Definition assert_ (b : bool) : res unit := if b then Ok tt else Fail AssertFailed.

(** A pointer that must be valid. *)
Definition deref {A} (o : option A) : res A :=
  match o with Some a => Ok a | None => Fail BadPointer end.

Definition is_ok {A} (r : res A) : bool :=
  match r with Ok _ => true | Fail _ => false end.

Definition is_Ok {A} (r : res A) : Prop := ∃ a, r = Ok a.

Lemma bind_ok {A B} (m : res A) (f : A → res B) (b : B) :
  (m ≫= f) = Ok b ↔ ∃ a, m = Ok a ∧ f a = Ok b.
Proof. destruct m as [a|e]; simpl; naive_solver. Qed.

Lemma assert_ok b u : assert_ b = Ok u ↔ b = true.
Proof. destruct b, u; naive_solver. Qed.

Lemma bind_assert {A} (b : bool) (f : unit → res A) :
  b = true → (assert_ b ≫= f) = f tt.
Proof. by intros ->. Qed.

Lemma deref_ok {A} (o : option A) a : deref o = Ok a ↔ o = Some a.
Proof. destruct o; naive_solver. Qed.

Create Rewrite HintDb res.
#[export] Hint Rewrite @bind_ok @assert_ok @deref_ok : res.

(** Invert a hypothesis that a monadic computation returned [Ok]. *)
Ltac inv_res H :=
  repeat first
    [ progress autorewrite with res in H
    | progress (unfold mret, res_ret in H)
    | match type of H with
      | ∃ _, _ => let x := fresh "x" in let Hx := fresh "Hx" in
                  destruct H as (x & Hx & H)
      | _ ∧ _ => let Hx := fresh "Hx" in destruct H as [Hx H]
      | Ok _ = Ok _ => injection H as H
      | Fail _ = Ok _ => discriminate H
      end ].

(** ** Machine integers

    A [w]-bit unsigned value is a [Z] in [[0, 2^w)]; the operations that can leave
    the range are followed by [wrap w], C++'s reduction modulo [2^w]. *)

Definition wrap (w x : Z) : Z := x mod 2 ^ w.
Definition bnot (w x : Z) : Z := wrap w (Z.lnot x).
Definition in_width (w x : Z) : Prop := 0 ≤ x < 2 ^ w.

Abbreviation u8 := (wrap 8).
Abbreviation u32 := (wrap 32).
Abbreviation u64 := (wrap 64).

Lemma pow2_pos w : 0 ≤ w → 0 < 2 ^ w.
Proof. intros; apply Z.pow_pos_nonneg; lia. Qed.

Lemma wrap_range w x : 0 ≤ w → in_width w (wrap w x).
Proof. intros. apply Z.mod_pos_bound, pow2_pos; lia. Qed.

Lemma wrap_small w x : in_width w x → wrap w x = x.
Proof. apply Z.mod_small. Qed.

Lemma wrap_land w x : 0 ≤ w → wrap w x = Z.land x (Z.ones w).
Proof. intros. by rewrite Z.land_ones. Qed.

Lemma testbit_wrap w x i :
  0 ≤ w → 0 ≤ i → Z.testbit (wrap w x) i = Z.testbit x i && (i <? w).
Proof.
  intros Hw Hi. rewrite wrap_land by done. rewrite Z.land_spec. f_equal.
  destruct (Z.ltb_spec i w).
  - apply Z.ones_spec_low; lia.
  - apply Z.ones_spec_high; lia.
Qed.

Lemma testbit_bnot w x i :
  0 ≤ w → 0 ≤ i → Z.testbit (bnot w x) i = negb (Z.testbit x i) && (i <? w).
Proof. intros. unfold bnot. rewrite testbit_wrap, Z.lnot_spec by lia. done. Qed.

Lemma testbit_out w x i : in_width w x → w ≤ i → Z.testbit x i = false.
Proof.
  intros Hx Hi. destruct (Z.ltb_spec w 0).
  { destruct Hx as [H0 H1]. rewrite Z.pow_neg_r in H1 by lia. lia. }
  rewrite <- (wrap_small w x Hx), testbit_wrap by lia.
  destruct (Z.ltb_spec i w); [lia|]. by rewrite andb_false_r.
Qed.

Lemma in_width_land_l w x y : 0 ≤ w → in_width w x → 0 ≤ y → in_width w (Z.land x y).
Proof.
  intros Hw Hx Hy. assert (wrap w (Z.land x y) = Z.land x y) as <-; [|by apply wrap_range].
  apply Z.bits_inj_iff'. intros i Hi. rewrite testbit_wrap, !Z.land_spec by lia.
  destruct (Z.ltb_spec i w); [by rewrite andb_true_r|].
  by rewrite (testbit_out w x i).
Qed.

Lemma in_width_lxor w x y : 0 ≤ w → in_width w x → in_width w y → in_width w (Z.lxor x y).
Proof.
  intros Hw Hx Hy. assert (wrap w (Z.lxor x y) = Z.lxor x y) as <-; [|by apply wrap_range].
  apply Z.bits_inj_iff'. intros i Hi. rewrite testbit_wrap, !Z.lxor_spec by lia.
  destruct (Z.ltb_spec i w); [by rewrite andb_true_r|].
  by rewrite (testbit_out w x i), (testbit_out w y i).
Qed.

Lemma in_width_lor w x y : 0 ≤ w → in_width w x → in_width w y → in_width w (Z.lor x y).
Proof.
  intros Hw Hx Hy. assert (wrap w (Z.lor x y) = Z.lor x y) as <-; [|by apply wrap_range].
  apply Z.bits_inj_iff'. intros i Hi. rewrite testbit_wrap, !Z.lor_spec by lia.
  destruct (Z.ltb_spec i w); [by rewrite andb_true_r|].
  by rewrite (testbit_out w x i), (testbit_out w y i).
Qed.

Lemma in_width_shiftr w x s : 0 ≤ s → in_width w x → in_width w (Z.shiftr x s).
Proof.
  intros Hs [H0 H1]. split; [by apply Z.shiftr_nonneg|].
  rewrite Z.shiftr_div_pow2 by lia. apply Z.le_lt_trans with x; [|done].
  apply Z.div_le_upper_bound; [apply pow2_pos; lia|].
  assert (1 ≤ 2 ^ s) by (pose proof (pow2_pos s); lia). nia.
Qed.

Create HintDb gem5.
#[export] Hint Resolve wrap_range in_width_lxor in_width_lor in_width_shiftr : gem5.

(** Bit-level equality: turn an equation between integers into one per bit. *)
Create Rewrite HintDb testbit.
#[export] Hint Rewrite Z.land_spec Z.lor_spec Z.lxor_spec : testbit.
#[export] Hint Rewrite Z.shiftr_spec Z.shiftl_spec Z.lnot_spec using lia : testbit.
#[export] Hint Rewrite testbit_wrap testbit_bnot using lia : testbit.
#[export] Hint Rewrite Z.testbit_ones_nonneg using lia : testbit.

Ltac bits_eq := apply Z.bits_inj_iff'; intros ?i ?Hi; autorewrite with testbit.

(** ** Lists *)

Lemma filter_all {A} (P : A → Prop) `{!∀ x, Decision (P x)} (l : list A) :
  (∀ x, x ∈ l → P x) → filter P l = l.
Proof.
  induction l as [|x l IH]; intros Hl; [done|].
  rewrite filter_cons_True by (apply Hl; left). f_equal. apply IH. intros. apply Hl. by right.
Qed.

Lemma filter_none {A} (P : A → Prop) `{!∀ x, Decision (P x)} (l : list A) :
  (∀ x, x ∈ l → ¬ P x) → filter P l = [].
Proof.
  induction l as [|x l IH]; intros Hl; [done|].
  rewrite filter_cons_False by (apply Hl; left). apply IH. intros. apply Hl. by right.
Qed.

(** ** Vectors

    [v[i]] on a [std::vector] with an unsigned index: out of range it is undefined
    behaviour, [Fail BadPointer] here. *)

Definition vread {A} (v : list A) (i : Z) : res A :=
  if 0 <=? i then deref (v !! Z.to_nat i) else Fail BadPointer.

Definition vwrite {A} (v : list A) (i : Z) (x : A) : res (list A) :=
  if (0 <=? i) && (i <? Z.of_nat (length v)) then Ok (<[Z.to_nat i := x]> v)
  else Fail BadPointer.

(** [v.size()] *)
Definition vsize {A} (v : list A) : Z := Z.of_nat (length v).

Lemma vread_ok {A} (v : list A) i :
  0 ≤ i < vsize v → ∃ x, vread v i = Ok x ∧ v !! Z.to_nat i = Some x.
Proof.
  unfold vread, vsize. intros Hi. destruct (Z.leb_spec 0 i); [|lia].
  destruct (lookup_lt_is_Some_2 v (Z.to_nat i)) as [x Hx]; [lia|].
  exists x. by rewrite Hx.
Qed.

Lemma vread_inv {A} (v : list A) i x :
  vread v i = Ok x → 0 ≤ i < vsize v ∧ v !! Z.to_nat i = Some x.
Proof.
  unfold vread, vsize. destruct (Z.leb_spec 0 i) as [H0|H0]; [|done].
  rewrite deref_ok. intros Hx. pose proof (lookup_lt_Some _ _ _ Hx). split; [lia|done].
Qed.

Lemma vwrite_ok {A} (v : list A) i x :
  0 ≤ i < vsize v → vwrite v i x = Ok (<[Z.to_nat i := x]> v).
Proof.
  unfold vwrite, vsize. intros Hi.
  destruct (Z.leb_spec 0 i), (Z.ltb_spec i (Z.of_nat (length v))); done || lia.
Qed.

Lemma vwrite_inv {A} (v : list A) i x v' :
  vwrite v i x = Ok v' → 0 ≤ i < vsize v ∧ v' = <[Z.to_nat i := x]> v.
Proof.
  unfold vwrite, vsize.
  destruct (Z.leb_spec 0 i), (Z.ltb_spec i (Z.of_nat (length v))); naive_solver.
Qed.

Lemma vsize_insert {A} (v : list A) i x : vsize (<[i := x]> v) = vsize v.
Proof. unfold vsize. by rewrite length_insert. Qed.

Lemma vsize_replicate {A} (n : Z) (x : A) : 0 ≤ n → vsize (replicate (Z.to_nat n) x) = n.
Proof. intros. unfold vsize. rewrite length_replicate. lia. Qed.

Lemma vread_insert {A} (v : list A) i x :
  0 ≤ i < vsize v → vread (<[Z.to_nat i := x]> v) i = Ok x.
Proof.
  unfold vread, vsize. intros Hi. destruct (Z.leb_spec 0 i); [|lia].
  rewrite list_lookup_insert_eq by lia. done.
Qed.

Lemma vread_insert_ne {A} (v : list A) i j x :
  0 ≤ i → i ≠ j → vread (<[Z.to_nat i := x]> v) j = vread v j.
Proof.
  unfold vread. intros Hi Hij. destruct (Z.leb_spec 0 j); [|done].
  rewrite list_lookup_insert_ne; [done|lia].
Qed.

#[export] Hint Rewrite @vsize_insert : res.

(** Masking with [2^k - 1] is a remainder, so it stays below a power of two. *)
Lemma land_pred_pow2 k x : 0 ≤ k → Z.land x (2 ^ k - 1) = x mod 2 ^ k.
Proof. intros. rewrite <- Z.land_ones by done. by rewrite Z.ones_equiv, Z.sub_1_r. Qed.

Lemma land_pred_pow2_range k x : 0 ≤ k → 0 ≤ Z.land x (2 ^ k - 1) < 2 ^ k.
Proof. intros. rewrite land_pred_pow2 by done. apply Z.mod_pos_bound, pow2_pos; lia. Qed.

Lemma land_u32 x y : 0 ≤ x → in_width 32 y → in_width 32 (Z.land x y).
Proof. intros. rewrite Z.land_comm. by apply in_width_land_l. Qed.

(** [for (i = 0; i < n; ++i) v[i] = f(v[i])] *)
Definition vfor {A} (n : Z) (f : A → A) (v : list A) : res (list A) :=
  if n <=? vsize v then Ok (imap (λ i x, if Z.of_nat i <? n then f x else x) v)
  else Fail BadPointer.

Lemma vfor_all {A} n (f : A → A) (v : list A) : n = vsize v → vfor n f v = Ok (f <$> v).
Proof.
  unfold vfor. intros ->. destruct (Z.leb_spec (vsize v) (vsize v)); [|lia]. f_equal.
  apply list_eq. intros i. rewrite list_lookup_imap, list_lookup_fmap.
  destruct (v !! i) as [x|] eqn:Hx; [|done]. simpl.
  apply lookup_lt_Some in Hx. unfold vsize.
  destruct (Z.ltb_spec (Z.of_nat i) (Z.of_nat (length v))); [done|lia].
Qed.

(** Split a conjunction and close the parts that are at hand or arithmetic. *)
Ltac splits := split_and!; try done; try lia.
