(* ===== verification/IntMath.v ===== *)
(** * Integer and bit-field helpers (base/types.hh, base/intmath.hh, base/bitfield.hh)

    The template functions of the two headers at an unsigned type of [w] bits, and
    the fixed-width ones at their own width.  The theorems relate the shift-and-mask
    code to the arithmetic it stands for: logarithms, powers of two, rounding to an
    alignment, and extraction and insertion of bit fields.  [Types] has the port
    identifier constant that the snoop filter and the crossbars share. *)

From S2P Require Import Prelude.

Module Types.

(** [InvalidPortID] of [base/types.hh], of the signed 16-bit type [PortID]. *)
Definition InvalidPortID : Z := -1.

End Types.

Module Bitfield.

(** [mask(nbits)]: [nbits] ones, right justified ([1ULL << nbits] wraps at 64 bits). *)
Definition mask (nbits : Z) : Z :=
  if nbits =? 64 then u64 (-1) else u64 (u64 (Z.shiftl 1 nbits) - 1).

Definition bits (val first last : Z) : Z :=
  let nbits := first - last + 1 in
  Z.land (Z.shiftr val last) (mask nbits).

Definition bit (val b : Z) : Z := bits val b b.

Definition mbits (val first last : Z) : Z :=
  Z.land val (Z.land (mask (first + 1)) (bnot 64 (mask last))).

Definition mask2 (first last : Z) : Z := mbits (u64 (-1)) first last.

Definition sext (N val : Z) : Z :=
  let sign_bit := bits val (N - 1) (N - 1) in
  if negb (sign_bit =? 0) then Z.lor val (bnot 64 (mask N)) else val.

Definition insertBits (val first last bit_val : Z) : Z :=
  let t_bit_val := bit_val in
  let bmask := u64 (Z.shiftl (mask (first - last + 1)) last) in
  Z.lor (Z.land (u64 (Z.shiftl t_bit_val last)) bmask) (Z.land val (bnot 64 bmask)).

Definition insertBit (val b bit_val : Z) : Z := insertBits val b b bit_val.

Definition replaceBits (val first last bit_val : Z) : Z :=
  insertBits val first last bit_val.

(** One narrowing step of [findMsbSet]: [if (bits(val,hi,lo)) { msb += n; val >>= n; }]. *)
Definition msb_step (hi lo n : Z) '((msb, val) : Z * Z) : Z * Z :=
  if negb (bits val hi lo =? 0) then (msb + n, Z.shiftr val n) else (msb, val).

Definition findMsbSet (val : Z) : Z :=
  if val =? 0 then 0 else
  let s := msb_step 63 32 32 (0, val) in
  let s := msb_step 31 16 16 s in
  let s := msb_step 15 8 8 s in
  let s := msb_step 7 4 4 s in
  let s := msb_step 3 2 2 s in
  let '(msb, val) := s in
  if negb (bits val 1 1 =? 0) then msb + 1 else msb.

(** One narrowing step of [findLsbSet]: [if (!bits(val,n-1,0)) { lsb += n; val >>= n; }]. *)
Definition lsb_step (n : Z) '((lsb, val) : Z * Z) : Z * Z :=
  if bits val (n - 1) 0 =? 0 then (lsb + n, Z.shiftr val n) else (lsb, val).

Definition findLsbSet (val : Z) : Z :=
  if val =? 0 then 64 else
  let s := lsb_step 32 (0, val) in
  let s := lsb_step 16 s in
  let s := lsb_step 8 s in
  let s := lsb_step 4 s in
  let s := lsb_step 2 s in
  let '(lsb, val) := s in
  if bits val 0 0 =? 0 then lsb + 1 else lsb.

Definition isPow2 (w v : Z) : bool := Z.land v (wrap w (v - 1)) =? 0.

(** The portable branch of [popCount] (the [#else] of the builtin). *)
Definition popCount (val : Z) : Z :=
  let m1 := 0x5555555555555555 in
  let m2 := 0x3333333333333333 in
  let m4 := 0x0f0f0f0f0f0f0f0f in
  let sum := 0x0101010101010101 in
  let val := u64 (val - Z.land (Z.shiftr val 1) m1) in
  let val := u64 (Z.land val m2 + Z.land (Z.shiftr val 2) m2) in
  let val := Z.land (u64 (val + Z.shiftr val 4)) m4 in
  Z.shiftr (u64 (val * sum)) 56.

(** ** Lemmas *)

Lemma mask_ones n : 0 ≤ n ≤ 64 → mask n = Z.ones n.
Proof.
  intros Hn. unfold mask. destruct (Z.eqb_spec n 64) as [->|Hne]; [done|].
  assert (2 ^ n ≤ 2 ^ 63) by (apply Z.pow_le_mono_r; lia).
  rewrite Z.ones_equiv, Z.shiftl_1_l.
  rewrite (wrap_small 64 (2 ^ n)) by (unfold in_width; lia).
  rewrite wrap_small; unfold in_width; lia.
Qed.

Lemma bits_div_mod v first last :
  0 ≤ last ≤ first → first < 64 →
  bits v first last = (v / 2 ^ last) mod 2 ^ (first - last + 1).
Proof.
  intros. unfold bits. rewrite mask_ones by lia.
  by rewrite Z.land_ones, Z.shiftr_div_pow2 by lia.
Qed.

Lemma testbit_bits v first last i :
  0 ≤ last ≤ first → first < 64 → 0 ≤ i →
  Z.testbit (bits v first last) i = Z.testbit v (i + last) && (i <? first - last + 1).
Proof.
  intros. unfold bits. rewrite mask_ones by lia. autorewrite with testbit. f_equal.
Qed.

Lemma bits_range v first last :
  0 ≤ last ≤ first → first < 64 → in_width (first - last + 1) (bits v first last).
Proof. intros. rewrite bits_div_mod by lia. apply wrap_range. lia. Qed.

(** When the bits above [hi] are clear, the test of a narrowing step is a comparison. *)
Lemma bits_eqb_0 v hi lo :
  0 ≤ lo ≤ hi → hi < 64 → in_width (hi + 1) v → (bits v hi lo =? 0) = (v <? 2 ^ lo).
Proof.
  intros Hlo Hhi [H0 H1]. rewrite bits_div_mod by lia.
  pose proof (pow2_pos lo ltac:(lia)) as Hp.
  rewrite Z.mod_small.
  - apply Bool.eq_iff_eq_true. rewrite Z.eqb_eq, Z.ltb_lt.
    rewrite Z.div_small_iff by lia. intuition lia.
  - split; [apply Z.div_pos; lia|]. apply Z.div_lt_upper_bound; [lia|].
    rewrite <- Z.pow_add_r by lia. by replace (lo + (hi - lo + 1)) with (hi + 1) by lia.
Qed.

(** One step keeps [msb + log2 val] and halves the width of [val]. *)
Lemma msb_step_log2 hi n msb v :
  hi = 2 * n - 1 → 0 < n → 2 * n ≤ 64 → 0 < v → in_width (2 * n) v →
  ∃ msb' v', msb_step hi n n (msb, v) = (msb', v') ∧
    0 < v' ∧ in_width n v' ∧ msb' + Z.log2 v' = msb + Z.log2 v.
Proof.
  intros -> Hn Hw Hv Hv'. unfold msb_step.
  rewrite bits_eqb_0 by (first [lia | by replace (2 * n - 1 + 1) with (2 * n) by lia]).
  destruct (Z.ltb_spec v (2 ^ n)); simpl.
  - eexists _, _. split_and!; [done| done | split; lia | done].
  - assert (in_width n (Z.shiftr v n)) as Hr.
    { destruct Hv' as [H0 H1]. split; [apply Z.shiftr_nonneg; lia|].
      rewrite Z.shiftr_div_pow2 by lia. apply Z.div_lt_upper_bound; [lia|].
      rewrite <- Z.pow_add_r by lia. by replace (n + n) with (2 * n) by lia. }
    assert (0 < Z.shiftr v n).
    { rewrite Z.shiftr_div_pow2 by lia. apply Z.div_str_pos. lia. }
    eexists _, _. split_and!; [done| done | done |].
    rewrite Z.log2_shiftr by lia. assert (n ≤ Z.log2 v).
    { apply Z.log2_le_pow2; lia. } lia.
Qed.

Lemma findMsbSet_log2_pos v : 0 < v → in_width 64 v → findMsbSet v = Z.log2 v.
Proof.
  intros Hv Hw. unfold findMsbSet. destruct (Z.eqb_spec v 0); [lia|].
  destruct (msb_step_log2 63 32 0 v) as (m1 & v1 & -> & ? & ? & E1); [lia..|done|].
  destruct (msb_step_log2 31 16 m1 v1) as (m2 & v2 & -> & ? & ? & E2); [lia..|done|].
  destruct (msb_step_log2 15 8 m2 v2) as (m3 & v3 & -> & ? & ? & E3); [lia..|done|].
  destruct (msb_step_log2 7 4 m3 v3) as (m4 & v4 & -> & ? & ? & E4); [lia..|done|].
  destruct (msb_step_log2 3 2 m4 v4) as (m5 & v5 & -> & ? & [? Hv5] & E5); [lia..|done|].
  assert (v5 = 1 ∨ v5 = 2 ∨ v5 = 3) as Hc by (change (2 ^ 2) with 4 in Hv5; lia).
  assert (bits v5 1 1 = Z.log2 v5) as -> by (destruct Hc as [->|[->| ->]]; done).
  assert (Z.log2 v5 = 0 ∨ Z.log2 v5 = 1) as [E|E] by (destruct Hc as [->|[->| ->]]; eauto).
  all: rewrite E in *; simpl; lia.
Qed.

(** The least set bit: every lower bit is clear. *)
Definition lsb_of (v k : Z) : Prop :=
  0 ≤ k ∧ Z.testbit v k = true ∧ ∀ j, 0 ≤ j < k → Z.testbit v j = false.

Lemma bits_low_eq_0 v n :
  0 < n ≤ 64 → bits v (n - 1) 0 = 0 ↔ ∀ j, 0 ≤ j < n → Z.testbit v j = false.
Proof.
  intros Hn. split.
  - intros H0 j Hj. assert (Z.testbit (bits v (n - 1) 0) j = false) as E by (by rewrite H0, Z.bits_0).
    rewrite testbit_bits, Z.add_0_r in E by lia.
    destruct (Z.ltb_spec j (n - 1 - 0 + 1)); [by rewrite andb_true_r in E|lia].
  - intros Hb. apply Z.bits_inj_iff'. intros i Hi.
    rewrite testbit_bits, Z.add_0_r, Z.bits_0 by lia.
    destruct (Z.ltb_spec i (n - 1 - 0 + 1)); [|by rewrite andb_false_r].
    rewrite Hb by lia. done.
Qed.

(** One step keeps the position of the least set bit and confines it below [n]. *)
Lemma lsb_step_spec n lsb v k :
  0 < n ≤ 32 → lsb_of v k → k < 2 * n →
  ∃ lsb' v' k', lsb_step n (lsb, v) = (lsb', v') ∧ lsb_of v' k' ∧ k' < n ∧
    lsb' + k' = lsb + k.
Proof.
  intros Hn (H0 & Hk & Hlow) Hlt. unfold lsb_step.
  destruct (Z.eqb_spec (bits v (n - 1) 0) 0) as [E|E].
  - rewrite bits_low_eq_0 in E by lia.
    assert (n ≤ k). { destruct (Z.lt_ge_cases k n); [|lia]. rewrite E in Hk by lia. done. }
    eexists _, _, (k - n). split_and!; [done| | lia | lia].
    split_and!; [lia| |].
    + rewrite Z.shiftr_spec by lia. by replace (k - n + n) with k by lia.
    + intros j Hj. rewrite Z.shiftr_spec by lia. apply Hlow. lia.
  - eexists _, _, k. split_and!; [done|by split_and!| |lia].
    destruct (Z.lt_ge_cases k n); [lia|]. destruct E. apply bits_low_eq_0; [lia|].
    intros j Hj. apply Hlow. lia.
Qed.

Lemma findLsbSet_spec v k : lsb_of v k → k < 64 → findLsbSet v = k.
Proof.
  intros Hk Hlt. unfold findLsbSet. destruct (Z.eqb_spec v 0) as [->|_].
  { destruct Hk as (_ & Hk & _). by rewrite Z.bits_0 in Hk. }
  destruct (lsb_step_spec 32 0 v k) as (m1 & v1 & k1 & -> & ? & ? & E1); [lia|done|lia|].
  destruct (lsb_step_spec 16 m1 v1 k1) as (m2 & v2 & k2 & -> & ? & ? & E2); [lia|done|lia|].
  destruct (lsb_step_spec 8 m2 v2 k2) as (m3 & v3 & k3 & -> & ? & ? & E3); [lia|done|lia|].
  destruct (lsb_step_spec 4 m3 v3 k3) as (m4 & v4 & k4 & -> & ? & ? & E4); [lia|done|lia|].
  destruct (lsb_step_spec 2 m4 v4 k4) as (m5 & v5 & k5 & -> & (? & Hk5 & Hl5) & ? & E5); [lia|done|lia|].
  change (bits v5 0 0) with (bits v5 (1 - 1) 0).
  destruct (Z.eqb_spec (bits v5 (1 - 1) 0) 0) as [E|E].
  - rewrite bits_low_eq_0 in E by lia.
    destruct (decide (k5 = 0)) as [->|]; [rewrite E in Hk5 by lia; done|lia].
  - destruct (decide (k5 = 0)) as [->|]; [lia|]. destruct E. apply bits_low_eq_0; [lia|].
    intros j Hj. apply Hl5. lia.
Qed.

(** ** Insertion, extraction and sign extension *)

Lemma testbit_insertBits v first last x i :
  0 ≤ last ≤ first → first < 64 → 0 ≤ i →
  Z.testbit (insertBits v first last x) i =
    if bool_decide (last ≤ i ≤ first) then Z.testbit x (i - last)
    else Z.testbit v i && (i <? 64).
Proof.
  intros H1 H2 Hi. unfold insertBits. rewrite mask_ones by lia.
  autorewrite with testbit.
  case_bool_decide as Hin.
  - rewrite !Z.testbit_ones_nonneg by lia.
    destruct (Z.ltb_spec i 64), (Z.ltb_spec (i - last) (first - last + 1)); try lia.
    by rewrite !andb_true_r, andb_false_r, orb_false_r.
  - destruct (Z.lt_ge_cases i last).
    + rewrite !(Z.testbit_neg_r _ (i - last)) by lia. by rewrite andb_false_r.
    + rewrite !Z.testbit_ones_nonneg by lia.
      destruct (Z.ltb_spec (i - last) (first - last + 1)); [lia|].
      by rewrite !andb_false_r.
Qed.

(** [sext] as two's complement: the 64-bit pattern of the signed value of the low [N] bits. *)
Definition signed_value (w v : Z) : Z := if v <? 2 ^ (w - 1) then v else v - 2 ^ w.

Lemma sign_bit_neq_0 N v :
  0 < N ≤ 64 → in_width N v → negb (bits v (N - 1) (N - 1) =? 0) = negb (v <? 2 ^ (N - 1)).
Proof.
  intros HN Hv. rewrite bits_eqb_0 by (first [lia | by replace (N - 1 + 1) with N by lia]). done.
Qed.

Lemma lor_disjoint_add a b : Z.land a b = 0 → Z.lor a b = a + b.
Proof. intros H. rewrite Z.add_nocarry_lxor by done. symmetry. by apply Z.lxor_lor. Qed.

(** ** Digits: a number as fields of [k] bits *)

Lemma land_split k a b x y :
  0 ≤ k → in_width k a → in_width k b →
  Z.land (a + 2 ^ k * x) (b + 2 ^ k * y) = Z.land a b + 2 ^ k * Z.land x y.
Proof.
  intros Hk Ha Hb.
  assert (∀ c z, in_width k c → c + 2 ^ k * z = Z.lor c (Z.shiftl z k)) as Hlor.
  { intros c z Hc. rewrite Z.shiftl_mul_pow2, Z.mul_comm by lia.
    rewrite lor_disjoint_add; [lia|].
    bits_eq. rewrite Z.bits_0. destruct (Z.lt_ge_cases i k).
    - rewrite Z.mul_pow2_bits_low by lia. by rewrite andb_false_r.
    - by rewrite (testbit_out k c). }
  rewrite !Hlor by (first [done | by apply in_width_land_l; [lia|done|apply Hb]]).
  bits_eq. destruct (Z.lt_ge_cases i k).
  - rewrite !(Z.testbit_neg_r _ (i - k)) by lia. by rewrite !orb_false_r.
  - rewrite (testbit_out k a), (testbit_out k b) by done. done.
Qed.

(** Little-endian packing of bytes. *)
Fixpoint pack (bs : list Z) : Z :=
  match bs with [] => 0 | b :: bs => b + 256 * pack bs end.

Lemma pack_nonneg bs : Forall (in_width 8) bs → 0 ≤ pack bs.
Proof. induction 1 as [|b bs [H0 _] _ IH]; simpl; lia. Qed.

Lemma pack_land_shift s m bs :
  0 ≤ s < 8 → in_width (8 - s) m → Forall (in_width 8) bs →
  Z.land (Z.shiftr (pack bs) s) (pack (replicate (length bs) m)) =
    pack ((λ b, Z.land (Z.shiftr b s) m) <$> bs).
Proof.
  intros Hs Hm. assert (in_width 8 m) as Hm8.
  { destruct Hm. split; [done|]. apply Z.lt_le_trans with (2 ^ (8 - s)); [done|].
    apply Z.pow_le_mono_r; lia. }
  induction 1 as [|b bs Hb Hbs IH]; [apply Z.land_0_r|].
  rewrite fmap_cons. cbn [pack replicate length]. rewrite <- IH.
  set (M := pack (replicate _ m)). set (P := pack bs).
  assert (Z.shiftr (b + 256 * P) s =
          (Z.shiftr b s + 2 ^ (8 - s) * (P mod 2 ^ s)) + 2 ^ 8 * Z.shiftr P s) as ->.
  { rewrite !Z.shiftr_div_pow2 by lia.
    assert (256 = 2 ^ (8 - s) * 2 ^ s) as E by (rewrite <- Z.pow_add_r by lia; by replace (8 - s + s) with 8 by lia).
    pose proof (pow2_pos s ltac:(lia)).
    replace (b + 256 * P) with (b + (2 ^ (8 - s) * P) * 2 ^ s) by (rewrite E; ring).
    rewrite Z.div_add by lia. rewrite (Z.div_mod P (2 ^ s)) at 1 by lia.
    change (2 ^ 8) with 256. rewrite E. ring. }
  assert (in_width (8 - s) (Z.shiftr b s)) as Hbs'.
  { destruct Hb. split; [apply Z.shiftr_nonneg; lia|]. rewrite Z.shiftr_div_pow2 by lia.
    apply Z.div_lt_upper_bound; [apply pow2_pos; lia|].
    rewrite <- Z.pow_add_r by lia. by replace (s + (8 - s)) with 8 by lia. }
  change 256 with (2 ^ 8). rewrite land_split; [|lia| |done].
  - f_equal. rewrite <- (Z.add_0_r m) at 1. rewrite <- (Z.mul_0_r (2 ^ (8 - s))).
    rewrite land_split by (done || lia). by rewrite Z.land_0_r, Z.mul_0_r, Z.add_0_r.
  - pose proof (Z.mod_pos_bound P (2 ^ s) (pow2_pos s ltac:(lia))).
    assert (2 ^ 8 = 2 ^ (8 - s) * 2 ^ s) as E by (rewrite <- Z.pow_add_r by lia; f_equal; lia).
    destruct Hbs'. unfold in_width. rewrite E. nia.
Qed.

Lemma pack_add (f g : Z → Z) bs : pack (f <$> bs) + pack (g <$> bs) = pack ((λ b, f b + g b) <$> bs).
Proof. induction bs as [|b bs IH]; [done|]. rewrite !fmap_cons. cbn [pack]. lia. Qed.

Lemma pack_sub (f g : Z → Z) bs : pack (f <$> bs) - pack (g <$> bs) = pack ((λ b, f b - g b) <$> bs).
Proof. induction bs as [|b bs IH]; [done|]. rewrite !fmap_cons. cbn [pack]. lia. Qed.

Lemma pack_range bs : Forall (in_width 8) bs → in_width (8 * Z.of_nat (length bs)) (pack bs).
Proof.
  induction 1 as [|b bs [H0 H1] _ [IH0 IH1]]; [done|]. cbn [pack length].
  replace (8 * Z.of_nat (S (length bs))) with (8 + 8 * Z.of_nat (length bs)) by lia.
  unfold in_width. rewrite Z.pow_add_r by lia. change (2 ^ 8) with 256 in *. lia.
Qed.

(** Adding the high nibble of every byte to its low one, in place. *)
Lemma pack_nibble_sum bs :
  Forall (λ b, 0 ≤ b ∧ b mod 16 ≤ 7 ∧ b / 16 ≤ 7) bs →
  0 ≤ pack bs ∧ pack bs mod 16 ≤ 7 ∧
  Z.land (pack bs + Z.shiftr (pack bs) 4) (pack (replicate (length bs) 0x0f)) =
    pack ((λ b, b mod 16 + b / 16) <$> bs).
Proof.
  induction 1 as [|b bs (Hb0 & Hl & Hh) _ (IH0 & IHm & IH)]; [done|].
  rewrite fmap_cons. cbn [pack replicate length]. rewrite <- IH. clear IH.
  set (M := pack (replicate _ _)). set (P := pack bs) in *.
  split_and!; [lia | change 256 with (16 * 16); rewrite <- Z.mul_assoc, Z.mul_comm, Z.mod_add; lia |].
  rewrite !Z.shiftr_div_pow2 by lia. change (2 ^ 4) with 16.
  replace ((b + 256 * P) / 16) with (b / 16 + 16 * P)
    by (replace (b + 256 * P) with (b + (16 * P) * 16) by lia; rewrite Z.div_add; lia).
  replace (b + 256 * P + (b / 16 + 16 * P)) with
    (b mod 16 + b / 16 + 2 ^ 4 * (b / 16 + P mod 16) + 2 ^ 8 * (P + P / 16))
    by (pose proof (Z.div_mod b 16 ltac:(lia)); pose proof (Z.div_mod P 16 ltac:(lia)); lia).
  pose proof (Z.mod_pos_bound b 16 ltac:(lia)). pose proof (Z.mod_pos_bound P 16 ltac:(lia)).
  pose proof (Z.div_pos b 16 Hb0 ltac:(lia)).
  change 256 with (2 ^ 8).
  rewrite land_split; [|lia|unfold in_width; change (2 ^ 8) with 256; lia|done].
  f_equal. change 15 with (15 + 2 ^ 4 * 0).
  rewrite land_split; [|lia|unfold in_width; change (2 ^ 4) with 16; lia|done].
  rewrite Z.land_0_r. change 15 with (Z.ones 4). rewrite Z.land_ones by lia.
  rewrite Z.mod_small; change (2 ^ 4) with 16; lia.
Qed.

(** The number of set bits among the [n] lowest: the reference for [popCount]. *)
Fixpoint count_ones (n : nat) (v : Z) : Z :=
  match n with O => 0 | S n => v mod 2 + count_ones n (v / 2) end.

Fixpoint bytes (n : nat) (v : Z) : list Z :=
  match n with O => [] | S n => v mod 256 :: bytes n (v / 256) end.

Lemma pack_bytes n v : in_width (8 * Z.of_nat n) v → pack (bytes n v) = v.
Proof.
  revert v. induction n as [|n IH]; intros v [H0 H1]; cbn [bytes pack].
  { change (2 ^ (8 * Z.of_nat 0)) with 1 in H1. lia. }
  rewrite IH.
  - pose proof (Z.div_mod v 256 ltac:(lia)). lia.
  - replace (8 * Z.of_nat (S n)) with (8 + 8 * Z.of_nat n) in H1 by lia. rewrite Z.pow_add_r in H1 by lia.
    split; [apply Z.div_pos; lia|]. apply Z.div_lt_upper_bound; [lia|]. done.
Qed.

Lemma bytes_in_width n v : Forall (in_width 8) (bytes n v).
Proof.
  revert v. induction n as [|n IH]; intros v; constructor; [|apply IH].
  apply Z.mod_pos_bound. lia.
Qed.

Lemma length_bytes n v : length (bytes n v) = n.
Proof. revert v. induction n; simpl; auto. Qed.

Lemma count_ones_add n m v :
  count_ones (n + m) v = count_ones n v + count_ones m (v / 2 ^ Z.of_nat n).
Proof.
  revert v. induction n as [|n IH]; intros v; cbn [count_ones Nat.add].
  { by rewrite Z.div_1_r. }
  rewrite IH, Z.div_div by (try apply pow2_pos; lia).
  replace (2 ^ Z.of_nat (S n)) with (2 * 2 ^ Z.of_nat n)
    by (rewrite Nat2Z.inj_succ, Z.pow_succ_r; lia). lia.
Qed.

Lemma count_ones_mod n v : count_ones n (v mod 2 ^ Z.of_nat n) = count_ones n v.
Proof.
  revert v. induction n as [|n IH]; intros v; cbn [count_ones]; [done|].
  rewrite Nat2Z.inj_succ, Z.pow_succ_r by lia.
  pose proof (pow2_pos (Z.of_nat n) ltac:(lia)). rewrite Z.rem_mul_r by lia.
  rewrite (Z.mul_comm 2), Z.mod_add, Z.mod_mod by lia.
  rewrite Z.div_add, Z.div_small, Z.add_0_l by (try apply Z.mod_pos_bound; lia).
  by rewrite IH.
Qed.

Lemma count_ones_bytes n v :
  count_ones (8 * n) v = foldr Z.add 0 (count_ones 8 <$> bytes n v).
Proof.
  revert v. induction n as [|n IH]; intros v; [done|].
  replace (8 * S n)%nat with (8 + 8 * n)%nat by lia. rewrite count_ones_add, IH.
  cbn [bytes]. rewrite fmap_cons. cbn [foldr]. f_equal.
  symmetry. apply (count_ones_mod 8).
Qed.

(** The three in-place steps of [popCount] on one byte. *)
Definition pc1 (b : Z) : Z := b - Z.land (Z.shiftr b 1) 0x55.
Definition pc2 (b : Z) : Z := Z.land (Z.shiftr b 0) 0x33 + Z.land (Z.shiftr b 2) 0x33.
Definition pc3 (b : Z) : Z := b mod 16 + b / 16.

(** Checked on each of the 256 bytes. *)
Lemma pc_byte b :
  in_width 8 b →
  (in_width 8 (pc1 b) ∧ in_width 8 (pc2 (pc1 b))) ∧
  (0 ≤ pc2 (pc1 b) ∧ pc2 (pc1 b) mod 16 ≤ 7 ∧ pc2 (pc1 b) / 16 ≤ 7) ∧
  0 ≤ pc3 (pc2 (pc1 b)) ≤ 8 ∧ pc3 (pc2 (pc1 b)) = count_ones 8 b.
Proof.
  unfold in_width. change (2 ^ 8) with 256. intros Hb.
  set (chk := λ b, bool_decide
    ((0 ≤ pc1 b < 256 ∧ 0 ≤ pc2 (pc1 b) < 256) ∧
     (0 ≤ pc2 (pc1 b) ∧ pc2 (pc1 b) mod 16 ≤ 7 ∧ pc2 (pc1 b) / 16 ≤ 7) ∧
     0 ≤ pc3 (pc2 (pc1 b)) ≤ 8 ∧ pc3 (pc2 (pc1 b)) = count_ones 8 b)).
  assert (forallb chk (seqZ 0 256) = true) as Hall by (vm_compute; reflexivity).
  rewrite forallb_forall in Hall. specialize (Hall b).
  apply bool_decide_eq_true in Hall; [done|].
  apply list_elem_of_In, elem_of_seqZ. lia.
Qed.

Lemma pack_byte_sum cs :
  length cs = 8%nat → Forall (λ c, 0 ≤ c ≤ 8) cs →
  Z.shiftr (u64 (pack cs * 0x0101010101010101)) 56 = foldr Z.add 0 cs.
Proof.
  intros Hlen Hcs.
  destruct cs as [|c0 [|c1 [|c2 [|c3 [|c4 [|c5 [|c6 [|c7 [|]]]]]]]]]; try discriminate Hlen.
  rewrite !Forall_cons in Hcs. cbn [pack foldr].
  rewrite Z.shiftr_div_pow2 by lia. unfold wrap.
  set (lo := 256 ^ 0 * (c0) + 256 ^ 1 * (c0 + c1) + 256 ^ 2 * (c0 + c1 + c2) + 256 ^ 3 * (c0 + c1 + c2 + c3) + 256 ^ 4 * (c0 + c1 + c2 + c3 + c4) + 256 ^ 5 * (c0 + c1 + c2 + c3 + c4 + c5) + 256 ^ 6 * (c0 + c1 + c2 + c3 + c4 + c5 + c6)).
  set (hi := 256 ^ 0 * (c1 + c2 + c3 + c4 + c5 + c6 + c7) + 256 ^ 1 * (c2 + c3 + c4 + c5 + c6 + c7) + 256 ^ 2 * (c3 + c4 + c5 + c6 + c7) + 256 ^ 3 * (c4 + c5 + c6 + c7) + 256 ^ 4 * (c5 + c6 + c7) + 256 ^ 5 * (c6 + c7) + 256 ^ 6 * (c7)).
  set (s := c0 + (c1 + (c2 + (c3 + (c4 + (c5 + (c6 + (c7 + 0)))))))).
  match goal with |- (?p mod _) / _ = _ => replace p with (lo + s * 2 ^ 56 + hi * 2 ^ 64) end.
  2: { unfold lo, hi, s. ring. }
  assert (0 ≤ lo < 2 ^ 56) by (unfold lo; change (2 ^ 56) with 72057594037927936; lia).
  assert (0 ≤ s < 256) by (unfold s; lia).
  rewrite Z.mod_add by lia. rewrite Z.mod_small.
  - rewrite Z.div_add by lia. rewrite Z.div_small by lia. lia.
  - change (2 ^ 64) with (256 * 2 ^ 56). lia.
Qed.

Section popCount_bytes.
Context (bs : list Z) (Hlen : length bs = 8%nat) (Hbs : Forall (in_width 8) bs).

Lemma fmap_in_width (f : Z → Z) :
  (∀ b, in_width 8 b → in_width 8 (f b)) → Forall (in_width 8) (f <$> bs).
Proof. intros Hf. apply Forall_fmap. exact (Forall_impl _ _ _ Hbs Hf). Qed.

Lemma fmap_wrap (f : Z → Z) :
  (∀ b, in_width 8 b → in_width 8 (f b)) → u64 (pack (f <$> bs)) = pack (f <$> bs).
Proof.
  intros Hf. apply wrap_small.
  replace 64 with (8 * Z.of_nat (length (f <$> bs))) by (rewrite length_fmap, Hlen; done).
  by apply pack_range, fmap_in_width.
Qed.

Lemma fmap_land (s m : Z) (f : Z → Z) :
  0 ≤ s < 8 → in_width (8 - s) m → (∀ b, in_width 8 b → in_width 8 (f b)) →
  Z.land (Z.shiftr (pack (f <$> bs)) s) (pack (replicate 8 m)) =
    pack ((λ b, Z.land (Z.shiftr (f b) s) m) <$> bs).
Proof.
  intros Hs Hm Hf. rewrite <- Hlen, <- (length_fmap f bs), pack_land_shift; try done.
  - by rewrite <- list_fmap_compose.
  - by apply fmap_in_width.
Qed.

Lemma popCount_step1 :
  u64 (pack bs - Z.land (Z.shiftr (pack bs) 1) 0x5555555555555555) = pack (pc1 <$> bs).
Proof.
  rewrite <- (list_fmap_id bs) at 1 2. change 0x5555555555555555 with (pack (replicate 8 0x55)).
  rewrite fmap_land by (done || lia). rewrite pack_sub. apply fmap_wrap.
  intros b Hb. apply (pc_byte b Hb).
Qed.

Lemma popCount_step2 :
  let v := pack (pc1 <$> bs) in
  u64 (Z.land v 0x3333333333333333 + Z.land (Z.shiftr v 2) 0x3333333333333333) =
    pack ((λ b, pc2 (pc1 b)) <$> bs).
Proof.
  intros v. rewrite <- (Z.shiftr_0_r v) at 1.
  change 0x3333333333333333 with (pack (replicate 8 0x33)). unfold v.
  rewrite !fmap_land by (first [done | lia | intros b Hb; apply (pc_byte b Hb)]).
  rewrite pack_add. apply fmap_wrap. intros b Hb. apply (pc_byte b Hb).
Qed.

Lemma popCount_step3 :
  let v := pack ((λ b, pc2 (pc1 b)) <$> bs) in
  Z.land (u64 (v + Z.shiftr v 4)) 0x0f0f0f0f0f0f0f0f = pack ((λ b, pc3 (pc2 (pc1 b))) <$> bs).
Proof.
  intros v. destruct (pack_nibble_sum ((λ b, pc2 (pc1 b)) <$> bs)) as (_ & _ & Hc).
  { apply Forall_fmap. refine (Forall_impl _ _ _ Hbs _). intros b Hb. apply (pc_byte b Hb). }
  rewrite <- list_fmap_compose, length_fmap, Hlen in Hc.
  change 0x0f0f0f0f0f0f0f0f with (pack (replicate 8 0x0f)).
  etransitivity; [|exact Hc]. fold v. apply Z.bits_inj_iff'. intros i Hi.
  rewrite !Z.land_spec, testbit_wrap by lia.
  destruct (Z.ltb_spec i 64); [by rewrite andb_true_r|].
  rewrite (testbit_out 64 (pack (replicate 8 15))); [by rewrite !andb_false_r| |lia].
  vm_compute; split; congruence.
Qed.

(** [popCount]'s portable branch adds up the set bits of the eight bytes. *)
Lemma popCount_bytes : popCount (pack bs) = foldr Z.add 0 (count_ones 8 <$> bs).
Proof.
  unfold popCount. rewrite popCount_step1, popCount_step2, popCount_step3, pack_byte_sum.
  - f_equal. apply list_fmap_ext. intros i b Hb%list_elem_of_lookup_2.
    rewrite Forall_forall in Hbs. apply (pc_byte b (Hbs b Hb)).
  - by rewrite length_fmap.
  - apply Forall_fmap. refine (Forall_impl _ _ _ Hbs _). intros b Hb. apply (pc_byte b Hb).
Qed.
End popCount_bytes.

End Bitfield.

Module IntMath.
Import Bitfield.

Definition leastSigBit (w n : Z) : Z := Z.land n (bnot w (wrap w (n - 1))).

Definition isPowerOf2 (w n : Z) : bool := negb (n =? 0) && (leastSigBit w n =? n).

(** [power(n, e)]: [e - 1] 64-bit multiplications. *)
Definition power (n e : Z) : Z :=
  if e =? 0 then 1 else Nat.iter (Z.to_nat (e - 1)) (λ result, u64 (result * n)) n.

(** One step of [floorLog2]: [if (x & m) { y += n; x >>= n; }]. *)
Definition log2_step (m n : Z) '((y, x) : Z * Z) : Z * Z :=
  if negb (Z.land x m =? 0) then (y + n, Z.shiftr x n) else (y, x).

(** [floorLog2(unsigned)]. *)
Definition floorLog2_u (x : Z) : res Z :=
  assert_ (0 <? x) ≫= λ _,
  let s := log2_step 0xffff0000 16 (0, x) in
  let s := log2_step 0x0000ff00 8 s in
  let s := log2_step 0x000000f0 4 s in
  let s := log2_step 0x0000000c 2 s in
  let '(y, x) := s in
  Ok (if negb (Z.land x 0x00000002 =? 0) then y + 1 else y).

(** [floorLog2(unsigned long)] (LP64) and [floorLog2(unsigned long long)]. *)
Definition floorLog2_ull (x : Z) : res Z :=
  assert_ (0 <? x) ≫= λ _,
  let s := log2_step 0xffffffff00000000 32 (0, x) in
  let s := log2_step 0x00000000ffff0000 16 s in
  let s := log2_step 0x000000000000ff00 8 s in
  let s := log2_step 0x00000000000000f0 4 s in
  let s := log2_step 0x000000000000000c 2 s in
  let '(y, x) := s in
  Ok (if negb (Z.land x 0x0000000000000002 =? 0) then y + 1 else y).

(** [ceilLog2], [floorPow2] and [ceilPow2] at [uint64_t]. *)
Definition ceilLog2 (n : Z) : res Z :=
  if n =? 1 then Ok 0 else (λ l, l + 1) <$> floorLog2_ull (u64 (n - 1)).

Definition floorPow2 (n : Z) : res Z := (λ l, u64 (Z.shiftl 1 l)) <$> floorLog2_ull n.

Definition ceilPow2 (n : Z) : res Z := (λ l, u64 (Z.shiftl 1 l)) <$> ceilLog2 n.

Definition divCeil (w a b : Z) : Z := wrap w (wrap w (a + b) - 1) / b.

Definition roundUp (w val align : Z) : Z :=
  let mask := wrap w (align - 1) in
  Z.land (wrap w (val + mask)) (bnot w mask).

Definition roundDown (w val align : Z) : Z :=
  let mask := wrap w (align - 1) in
  Z.land val (bnot w mask).

(** [isPrime]: the loop tests [i] and [i + 2] for [i = 5, 11, 17, ...]. *)
Fixpoint isPrime_loop (fuel : nat) (n i : Z) : res bool :=
  match fuel with
  | O => Fail OutOfFuel
  | S fuel =>
      if i * i <=? n then
        if (n mod i =? 0) || (n mod (i + 2) =? 0) then Ok false
        else isPrime_loop fuel n (i + 6)
      else Ok true
  end.

Definition isPrime (n : Z) : res bool :=
  if (n =? 2) || (n =? 3) then Ok true else isPrime_loop (S (Z.to_nat n)) n 5.

(** ** Lemmas *)

Lemma log2_step_msb hi m n y x :
  m = Z.shiftl (Z.ones n) n → hi = 2 * n - 1 → 0 < n → 2 * n ≤ 64 →
  in_width (2 * n) x → log2_step m n (y, x) = msb_step hi n n (y, x).
Proof.
  intros -> -> Hn Hw Hx. unfold log2_step, msb_step.
  replace (Z.land x (Z.shiftl (Z.ones n) n) =? 0) with (bits x (2 * n - 1) n =? 0); [done|].
  apply Bool.eq_iff_eq_true. rewrite !Z.eqb_eq.
  assert (Z.land x (Z.shiftl (Z.ones n) n) = Z.shiftl (bits x (2 * n - 1) n) n) as ->.
  { bits_eq. destruct (Z.lt_ge_cases i n).
    - rewrite !(Z.testbit_neg_r _ (i - n)) by lia. apply andb_false_r.
    - rewrite testbit_bits, Z.testbit_ones_nonneg by lia.
      by replace (i - n + n) with i by lia; replace (2 * n - 1 - n + 1) with n by lia. }
  rewrite Z.shiftl_eq_0_iff by lia. done.
Qed.

(** Both [floorLog2] bodies run the narrowing steps of [findMsbSet]. *)
Lemma floorLog2_ull_msb x : 0 < x → in_width 64 x → floorLog2_ull x = Ok (findMsbSet x).
Proof.
  intros Hx Hw. unfold floorLog2_ull, findMsbSet. rewrite bind_assert by (by apply Z.ltb_lt).
  destruct (Z.eqb_spec x 0); [lia|].
  rewrite (log2_step_msb 63) by (done || lia).
  destruct (msb_step_log2 63 32 0 x) as (m1 & v1 & -> & ? & ? & _); [lia..|done|].
  rewrite (log2_step_msb 31) by (done || lia).
  destruct (msb_step_log2 31 16 m1 v1) as (m2 & v2 & -> & ? & ? & _); [lia..|done|].
  rewrite (log2_step_msb 15) by (done || lia).
  destruct (msb_step_log2 15 8 m2 v2) as (m3 & v3 & -> & ? & ? & _); [lia..|done|].
  rewrite (log2_step_msb 7) by (done || lia).
  destruct (msb_step_log2 7 4 m3 v3) as (m4 & v4 & -> & ? & ? & _); [lia..|done|].
  rewrite (log2_step_msb 3) by (done || lia).
  destruct (msb_step_log2 3 2 m4 v4) as (m5 & v5 & -> & ? & [? Hv5] & _); [lia..|done|].
  assert (v5 = 1 ∨ v5 = 2 ∨ v5 = 3) as [->|[->| ->]] by (change (2 ^ 2) with 4 in Hv5; lia); done.
Qed.

Lemma floorLog2_u_ull x : 0 < x → in_width 32 x → floorLog2_u x = floorLog2_ull x.
Proof.
  intros Hx [H0 H1]. unfold floorLog2_u, floorLog2_ull.
  assert (in_width (2 * 32) x) as Hw by (split; [lia|]; change (2 ^ (2 * 32)) with (2 ^ 32 * 2 ^ 32); lia).
  rewrite (log2_step_msb 63 0xffffffff00000000 32 0 x) by (done || lia).
  unfold msb_step. rewrite bits_eqb_0 by (done || lia).
  destruct (Z.ltb_spec x (2 ^ 32)); [done|lia].
Qed.

Lemma floorLog2_log2 x : 0 < x → in_width 64 x → floorLog2_ull x = Ok (Z.log2 x).
Proof. intros. by rewrite floorLog2_ull_msb, findMsbSet_log2_pos. Qed.

Lemma ceilLog2_log2_up x : 0 < x → in_width 64 x → ceilLog2 x = Ok (Z.log2_up x).
Proof.
  intros Hx [H0 H1]. unfold ceilLog2. destruct (Z.eqb_spec x 1) as [->|Hne]; [done|].
  rewrite (wrap_small 64 (x - 1)) by (unfold in_width; lia).
  rewrite floorLog2_log2 by (unfold in_width; lia). simpl. f_equal.
  rewrite Z.log2_up_eqn by lia. by replace (Z.pred x) with (x - 1) by lia.
Qed.

Lemma bnot_ones w n x : 0 ≤ n ≤ w → in_width w x → Z.land x (bnot w (Z.ones n)) = 2 ^ n * (x / 2 ^ n).
Proof.
  intros Hn Hx. rewrite Z.mul_comm, <- Z.shiftr_div_pow2, <- Z.shiftl_mul_pow2 by lia.
  bits_eq. destruct (Z.lt_ge_cases i n).
  - rewrite (Z.testbit_neg_r _ (i - n)) by lia.
    destruct (Z.ltb_spec i n); [|lia]. by rewrite andb_false_r.
  - rewrite Z.shiftr_spec by lia. replace (i - n + n) with i by lia.
    destruct (Z.ltb_spec i n); [lia|]. destruct (Z.ltb_spec i w); [by rewrite andb_true_r|].
    by rewrite (testbit_out w x).
Qed.

Lemma align_mask w k : 0 ≤ k < w → wrap w (2 ^ k - 1) = Z.ones k.
Proof.
  intros Hk. rewrite Z.ones_equiv. apply wrap_small. pose proof (pow2_pos k ltac:(lia)).
  assert (2 ^ k < 2 ^ w) by (apply Z.pow_lt_mono_r; lia). unfold in_width. lia.
Qed.

Lemma roundDown_div w v k : 0 ≤ k < w → in_width w v → roundDown w v (2 ^ k) = 2 ^ k * (v / 2 ^ k).
Proof. intros Hk Hv. unfold roundDown. by rewrite align_mask, bnot_ones by (done || lia). Qed.

Lemma roundUp_div w v k :
  0 ≤ k < w → 0 ≤ v → v + 2 ^ k - 1 < 2 ^ w →
  roundUp w v (2 ^ k) = 2 ^ k * ((v + 2 ^ k - 1) / 2 ^ k).
Proof.
  intros Hk Hv Ho. unfold roundUp. rewrite align_mask by lia. pose proof (pow2_pos k ltac:(lia)).
  rewrite Z.ones_equiv at 1. rewrite (wrap_small w (v + _)) by (unfold in_width; lia).
  rewrite bnot_ones by (first [lia | unfold in_width; lia]).
  by replace (v + Z.pred (2 ^ k)) with (v + 2 ^ k - 1) by lia.
Qed.

Lemma leastSigBit_pow2 w k : 0 ≤ k < w → leastSigBit w (2 ^ k) = 2 ^ k.
Proof.
  intros Hk. unfold leastSigBit. assert (2 ^ k < 2 ^ w) by (apply Z.pow_lt_mono_r; lia).
  pose proof (pow2_pos k ltac:(lia)).
  rewrite align_mask, bnot_ones, Z.div_same by (first [lia | unfold in_width; lia]). lia.
Qed.

(** The value [leastSigBit] computes: the power of two of the least set bit. *)
Lemma leastSigBit_lsb w n k :
  in_width w n → lsb_of n k → leastSigBit w n = 2 ^ k.
Proof.
  intros Hn (Hk0 & Hk & Hlow).
  assert (k < w) by (destruct (Z.lt_ge_cases k w); [done|]; by rewrite (testbit_out w n k) in Hk).
  set (q := n / 2 ^ k). pose proof (pow2_pos k ltac:(lia)) as Hp.
  assert (n mod 2 ^ k = 0) as Hm.
  { apply Z.bits_inj_iff'. intros i Hi. rewrite Z.bits_0.
    change (n mod 2 ^ k) with (wrap k n). rewrite testbit_wrap by lia.
    destruct (Z.ltb_spec i k); [|apply andb_false_r]. rewrite Hlow by lia. done. }
  assert (n = 2 ^ k * q) as Hq by (pose proof (Z.div_mod n (2 ^ k)); lia).
  assert (Z.odd q = true) as Hodd.
  { unfold q. rewrite <- Z.shiftr_div_pow2, <- Z.bit0_odd, Z.shiftr_spec by lia. done. }
  assert (n - 1 = Z.ones k + 2 ^ k * (q - 1)) as Hn1 by (rewrite Z.ones_equiv; nia).
  assert (n ≠ 0) by (intros ->; by rewrite Z.bits_0 in Hk).
  assert (in_width w (n - 1)) by (destruct Hn; unfold in_width; lia).
  assert ((n - 1) / 2 ^ k = q - 1) as Hdiv.
  { rewrite Hn1, (Z.mul_comm (2 ^ k)), Z.div_add, Z.div_small by (rewrite ?Z.ones_equiv; lia). lia. }
  unfold leastSigBit. rewrite wrap_small by done.
  bits_eq. rewrite Z.pow2_bits_eqb by lia.
  destruct (Z.lt_trichotomy i k) as [Hi'|[->|Hi']].
  - rewrite Hlow by lia. destruct (Z.eqb_spec k i); [lia|done].
  - rewrite Hk, Z.eqb_refl. destruct (Z.ltb_spec k w); [|lia].
    assert (Z.testbit (n - 1) k = false) as ->; [|done].
    rewrite <- (Z.add_0_l k) at 1. rewrite <- Z.shiftr_spec, Z.shiftr_div_pow2, Hdiv by lia.
    rewrite Z.bit0_odd, Z.odd_sub, Hodd. done.
  - destruct (Z.eqb_spec k i); [lia|].
    assert (Z.testbit (n - 1) i = Z.testbit n i) as ->; [|by destruct (Z.testbit n i)].
    replace i with (i - k - 1 + 1 + k) by lia.
    rewrite <- !(Z.shiftr_spec _ k), !Z.shiftr_div_pow2, Hdiv by lia. fold q.
    rewrite <- !(Z.shiftr_spec _ 1), !Z.shiftr_div_pow2 by lia. f_equal.
    apply Z.odd_spec in Hodd as [z ->].
    change (2 ^ 1) with 2. replace (2 * z + 1 - 1) with (z * 2) by lia.
    replace (2 * z + 1) with (1 + z * 2) by lia. rewrite Z.div_mul, Z.div_add by lia. done.
Qed.

Lemma lsb_exists n : 0 < n → ∃ k, lsb_of n k.
Proof.
  destruct n as [|p|]; try lia. intros _. induction p as [p _|p [k (H0 & Hk & Hl)]|].
  - exists 0. split_and!; [done..|lia].
  - exists (Z.succ k). change (Z.pos p~0) with (2 * Z.pos p). split_and!; [lia| |].
    + by rewrite Z.double_bits_succ.
    + intros j Hj. destruct (decide (j = 0)) as [->|]; [apply Z.testbit_even_0|].
      replace j with (Z.succ (j - 1)) by lia. rewrite Z.double_bits_succ. apply Hl. lia.
  - exists 0. split_and!; [done..|lia].
Qed.

Lemma power_wrap n e : in_width 32 n → 0 ≤ e → power n e = u64 (n ^ e).
Proof.
  intros Hn He. unfold power. destruct (Z.eqb_spec e 0) as [->|]; [done|].
  replace (n ^ e) with (n ^ Z.of_nat (S (Z.to_nat (e - 1)))) by (f_equal; lia).
  induction (Z.to_nat (e - 1)) as [|k IH].
  - rewrite Z.pow_1_r. symmetry. apply wrap_small. unfold in_width in *. simpl.
    assert (2 ^ 32 < 2 ^ 64) by (apply Z.pow_lt_mono_r; lia). lia.
  - rewrite Nat.iter_succ, IH. unfold wrap.
    rewrite Z.mul_mod_idemp_l by lia. f_equal.
    rewrite (Nat2Z.inj_succ (S k)), Z.pow_succ_r by lia. ring.
Qed.

(** ** Main theorems *)

(** [floorLog2] (at 32 and at 64 bits) and [ceilLog2] return the floor and the ceiling
    of the base-two logarithm of every positive argument of their width, and
    [floorLog2(0)] stops on its assertion. *)
Theorem floorLog2_ceilLog2_correct x :
  0 < x < 2 ^ 64 →
  floorLog2_ull x = Ok (Z.log2 x) ∧ (x < 2 ^ 32 → floorLog2_u x = Ok (Z.log2 x)) ∧
  ceilLog2 x = Ok (Z.log2_up x) ∧ floorLog2_ull 0 = Fail AssertFailed.
Proof.
  intros Hx. assert (in_width 64 x) by (unfold in_width; lia).
  rewrite floorLog2_log2, ceilLog2_log2_up by (done || lia). split_and!; [done| |done..].
  intros Hx'. rewrite floorLog2_u_ull by (unfold in_width; lia). apply floorLog2_log2; [lia|done].
Qed.

Lemma floorLog2_ceilLog2_correct_witness :
  floorLog2_ull 100 = Ok 6 ∧ ceilLog2 100 = Ok 7.
Proof.
  destruct (floorLog2_ceilLog2_correct 100 ltac:(lia)) as (H1 & _ & H2 & _).
  split; [exact H1|exact H2].
Defined.

(** [findMsbSet] and [findLsbSet] return the positions of the most and of the least
    significant set bit of every non-zero 64-bit value. *)
Theorem find_set_bits_correct v :
  0 < v < 2 ^ 64 →
  Z.testbit v (findMsbSet v) = true ∧ (∀ j, findMsbSet v < j → Z.testbit v j = false) ∧
  Z.testbit v (findLsbSet v) = true ∧ (∀ j, j < findLsbSet v → Z.testbit v j = false).
Proof.
  intros Hv. assert (in_width 64 v) as Hw by (unfold in_width; lia).
  rewrite findMsbSet_log2_pos by (done || lia).
  destruct (lsb_exists v) as [k Hk]; [lia|].
  assert (k < 64).
  { destruct (Z.lt_ge_cases k 64); [done|]. destruct Hk as (_ & Hk & _).
    by rewrite (testbit_out 64 v) in Hk. }
  rewrite (findLsbSet_spec v k) by done. destruct Hk as (? & Hk & Hl). split_and!.
  - apply Z.bit_log2. lia.
  - intros j Hj. apply Z.bits_above_log2; lia.
  - done.
  - intros j Hj. destruct (Z.lt_ge_cases j 0); [by apply Z.testbit_neg_r|apply Hl; lia].
Qed.

Lemma find_set_bits_correct_witness :
  Z.testbit 40 (findMsbSet 40) = true ∧ findMsbSet 40 = 5 ∧ findLsbSet 40 = 3.
Proof. split; [apply (find_set_bits_correct 40); lia|done]. Defined.

(** [insertBits] writes exactly the field: [bits] reads the inserted value back
    (truncated to the field's width), and every bit outside the field is unchanged. *)
Theorem insertBits_bits_roundtrip v first last x :
  0 ≤ last ≤ first → first < 64 → in_width 64 v →
  bits (insertBits v first last x) first last = wrap (first - last + 1) x ∧
  ∀ i, 0 ≤ i → ¬ (last ≤ i ≤ first) →
    Z.testbit (insertBits v first last x) i = Z.testbit v i.
Proof.
  intros H1 H2 Hv. split.
  - bits_eq. rewrite testbit_bits, testbit_insertBits by lia.
    destruct (Z.ltb_spec i (first - last + 1)); [|by rewrite !andb_false_r].
    rewrite bool_decide_true by lia. by replace (i + last - last) with i by lia.
  - intros i Hi Hout. rewrite testbit_insertBits, bool_decide_false by lia.
    destruct (Z.ltb_spec i 64); [by rewrite andb_true_r|]. by rewrite (testbit_out 64 v).
Qed.

Lemma insertBits_bits_roundtrip_witness :
  bits (insertBits 0xffff 11 4 0x123) 11 4 = 0x23 ∧ insertBits 0xffff 11 4 0x123 = 0xf23f.
Proof.
  split; [|done]. destruct (insertBits_bits_roundtrip 0xffff 11 4 0x123) as [H _].
  - lia.
  - lia.
  - vm_compute; split; congruence.
  - rewrite H. done.
Defined.

(** The portable [popCount] (parallel bit counting with a multiplication) computes
    the number of set bits of every 64-bit value. *)
Theorem popCount_correct v : in_width 64 v → popCount v = count_ones 64 v.
Proof.
  intros Hv. rewrite <- (pack_bytes 8 v Hv) at 1.
  rewrite popCount_bytes by (apply length_bytes || apply bytes_in_width).
  symmetry. apply (count_ones_bytes 8 v).
Qed.

Lemma popCount_correct_witness : popCount 0xff00ff0000000001 = 17.
Proof. rewrite (popCount_correct 0xff00ff0000000001); [done|vm_compute; split; congruence]. Defined.

(** Rounding to a power-of-two alignment at any unsigned width.  [roundDown] is the
    greatest multiple not above the value; [roundUp] is the least multiple not below it
    when that multiple's computation fits the width, and wraps to 0 otherwise. *)
Theorem round_correct w v k :
  0 ≤ k < w → in_width w v →
  ((2 ^ k | roundDown w v (2 ^ k)) ∧ roundDown w v (2 ^ k) ≤ v < roundDown w v (2 ^ k) + 2 ^ k) ∧
  (v + 2 ^ k - 1 < 2 ^ w →
     (2 ^ k | roundUp w v (2 ^ k)) ∧ v ≤ roundUp w v (2 ^ k) < v + 2 ^ k) ∧
  (2 ^ w ≤ v + 2 ^ k - 1 → roundUp w v (2 ^ k) = 0).
Proof.
  intros Hk Hv. pose proof (pow2_pos k ltac:(lia)) as Hp. split_and!.
  - rewrite roundDown_div by done. apply Z.divide_factor_l.
  - rewrite roundDown_div by done. apply Z.mul_div_le. lia.
  - rewrite roundDown_div by done. pose proof (Z.mul_succ_div_gt v (2 ^ k)). lia.
  - intros Ho. destruct Hv. rewrite roundUp_div by lia. split; [apply Z.divide_factor_l|].
    pose proof (Z.mul_div_le (v + 2 ^ k - 1) (2 ^ k)).
    pose proof (Z.mul_succ_div_gt (v + 2 ^ k - 1) (2 ^ k)). lia.
  - intros Ho. unfold roundUp. rewrite align_mask by lia. rewrite Z.ones_equiv at 1.
    destruct Hv. assert (2 ^ k < 2 ^ w) by (apply Z.pow_lt_mono_r; lia).
    assert (wrap w (v + Z.pred (2 ^ k)) = v + 2 ^ k - 1 - 2 ^ w) as ->.
    { unfold wrap. replace (v + Z.pred (2 ^ k)) with (v + 2 ^ k - 1 - 2 ^ w + 1 * 2 ^ w) by lia.
      rewrite Z.mod_add, Z.mod_small; lia. }
    rewrite bnot_ones by (first [lia | unfold in_width; lia]). rewrite Z.div_small; lia.
Qed.

Lemma round_correct_witness : roundDown 64 1000 (2 ^ 6) ≤ 1000 < roundDown 64 1000 (2 ^ 6) + 64.
Proof.
  refine (proj2 (proj1 (round_correct 64 1000 6 _ _))); [lia|vm_compute; split; congruence].
Defined.

(** [isPowerOf2] decides being a power of two at any width; [power] is the 64-bit power. *)
Lemma isPowerOf2_correct w n :
  0 ≤ w → in_width w n → isPowerOf2 w n = true ↔ ∃ k, 0 ≤ k < w ∧ n = 2 ^ k.
Proof.
  intros Hw Hn. unfold isPowerOf2. split.
  - intros [H0 H1]%andb_prop. rewrite Z.eqb_eq in H1. apply negb_true_iff, Z.eqb_neq in H0.
    destruct (lsb_exists n) as [k Hk]; [destruct Hn; lia|].
    rewrite (leastSigBit_lsb w n k) in H1 by done. exists k. split; [|done].
    destruct Hk as (? & Hk & _). split; [done|].
    destruct (Z.lt_ge_cases k w); [done|]. by rewrite (testbit_out w n) in Hk.
  - intros (k & Hk & ->). pose proof (pow2_pos k ltac:(lia)).
    rewrite leastSigBit_pow2, Z.eqb_refl by done. destruct (Z.eqb_spec (2 ^ k) 0); [lia|done].
Qed.

(** [isPrime] never tests divisibility by 2 or 3: it accepts 4, 9 and 36. *)
Lemma isPrime_accepts_composites :
  isPrime 4 = Ok true ∧ isPrime 9 = Ok true ∧ isPrime 36 = Ok true ∧ isPrime 35 = Ok false.
Proof. vm_compute. done. Qed.

End IntMath.
