(* ===== verification/AddrRange.v ===== *)
(** * Address ranges and the address map (base/addr_range.hh, base/addr_range_map.hh)

    [AddrRange] is an inclusive range of addresses, optionally one stripe of an
    interleaved group: an address belongs to the stripe when a slice of its bits, possibly
    XOR-hashed with another slice, equals [intlvMatch].  [AddrRangeMap] decodes addresses
    with an ordered map from ranges to values; [std::map] is the list of its entries in the
    order of [operator<], which is what [upper_bound] and the iterators observe. *)

From stdpp Require Import sorting.
From S2P Require Import Prelude IntMath.

Module AddrRange.
Import Bitfield.

Record AddrRange := mkAddrRange {
  _start : Z;
  _end : Z;
  intlvHighBit : Z;
  xorHighBit : Z;
  intlvBits : Z;
  intlvMatch : Z }.

#[export] Instance AddrRange_eq_dec : EqDecision AddrRange.
Proof. solve_decision. Defined.

Definition defaultRange : AddrRange := mkAddrRange 1 0 0 0 0 0.

Definition newRange (s e : Z) : AddrRange := mkAddrRange s e 0 0 0 0.

(** The interleaving constructor and its checks on the hash. *)
Definition newIntlvRange (s e high xor_high bits_ match_ : Z) : res AddrRange :=
  if negb (bits_ =? 0) && negb (xor_high =? 0) then
    if xor_high =? high then Fail Fatal
    else if high <? xor_high then
      if xor_high - high <? bits_ then Fail Fatal
      else Ok (mkAddrRange s e high xor_high bits_ match_)
    else if high - xor_high <? bits_ then Fail Fatal
    else Ok (mkAddrRange s e high xor_high bits_ match_)
  else Ok (mkAddrRange s e high xor_high bits_ match_).

Definition interleaved (r : AddrRange) : bool := negb (intlvBits r =? 0).
Definition hashed (r : AddrRange) : bool := interleaved r && negb (xorHighBit r =? 0).
Definition granularity (r : AddrRange) : Z :=
  u64 (Z.shiftl 1 (intlvHighBit r - intlvBits r + 1)).
Definition stripes (r : AddrRange) : Z := u32 (Z.shiftl 1 (intlvBits r)).
Definition size_ (r : AddrRange) : Z :=
  Z.shiftr (u64 (u64 (_end r - _start r) + 1)) (intlvBits r).
Definition valid (r : AddrRange) : bool := _start r <=? _end r.

Definition mergesWith (t r : AddrRange) : bool :=
  (_start r =? _start t) && (_end r =? _end t) && (intlvHighBit r =? intlvHighBit t) &&
  (xorHighBit r =? xorHighBit t) && (intlvBits r =? intlvBits t).

Definition contains (t : AddrRange) (a : Z) : bool :=
  let in_range := (_start t <=? a) && (a <=? _end t) in
  if negb (interleaved t) then in_range
  else if in_range then
    if negb (hashed t) then
      bits a (intlvHighBit t) (intlvHighBit t - intlvBits t + 1) =? intlvMatch t
    else
      Z.lxor (bits a (intlvHighBit t) (intlvHighBit t - intlvBits t + 1))
             (bits a (xorHighBit t) (xorHighBit t - intlvBits t + 1)) =? intlvMatch t
  else false.

Definition intersects (t r : AddrRange) : res bool :=
  if (_end r <? _start t) || (_end t <? _start r) then Ok false
  else if negb (interleaved t) && negb (interleaved r) then Ok true
  else if size_ r =? 1 then Ok (contains t (_start r))
  else if mergesWith t r then Ok (intlvMatch t =? intlvMatch r)
  else Fail Panicked.

Definition isSubset (t r : AddrRange) : res bool :=
  if interleaved t then Fail Panicked
  else Ok ((_start r <=? _start t) && (_end t <=? _end r)).

Definition range_lt (t r : AddrRange) : bool :=
  if negb (_start t =? _start r) then _start t <? _start r
  else intlvMatch t <? intlvMatch r.

Definition range_eq (t r : AddrRange) : bool :=
  if negb (_start t =? _start r) then false
  else if negb (_end t =? _end r) then false
  else if negb (intlvBits t =? intlvBits r) then false
  else if negb (intlvBits t =? 0) then
    if negb (intlvHighBit t =? intlvHighBit r) then false
    else if negb (intlvMatch t =? intlvMatch r) then false else true
  else true.

Definition RangeEx (s e : Z) : AddrRange := newRange s (u64 (e - 1)).
Definition RangeIn (s e : Z) : AddrRange := newRange s e.
Definition RangeSize (s size : Z) : AddrRange := newRange s (u64 (u64 (s + size) - 1)).

(** Merging a collection of stripes: the loop checks every range against the first one and
    the expected match value, an 8-bit counter. *)
Fixpoint mergeRanges_loop (first : AddrRange) (match_ : Z) (rs : list AddrRange) : res unit :=
  match rs with
  | [] => Ok tt
  | r :: rs =>
      if negb (mergesWith first r) then Fail Fatal
      else if negb (intlvMatch r =? match_) then Fail Fatal
      else mergeRanges_loop first (u8 (match_ + 1)) rs
  end.

Definition mergeRanges (ranges : list AddrRange) : res AddrRange :=
  match ranges with
  | [] => Ok defaultRange
  | f :: _ =>
      let this := mkAddrRange (_start f) (_end f) (intlvHighBit f) (xorHighBit f) (intlvBits f) 0 in
      if negb (Z.of_nat (length ranges) =? u64 (Z.shiftl 1 (intlvBits f))) then Fail Fatal
      else
        _ ← mergeRanges_loop this 0 ranges;
        Ok (mkAddrRange (_start f) (_end f) 0 0 0 0)
  end.

(** ** Well-formed ranges: 64-bit addresses and slices inside the address *)

Record wf (r : AddrRange) : Prop := {
  wf_start : in_width 64 (_start r);
  wf_end : in_width 64 (_end r);
  wf_bits : 0 ≤ intlvBits r ≤ 8;
  wf_high : intlvBits r - 1 ≤ intlvHighBit r < 64;
  wf_xor : 0 ≤ xorHighBit r < 64;
  wf_xor_low : xorHighBit r ≠ 0 → intlvBits r - 1 ≤ xorHighBit r;
  wf_match : 0 ≤ intlvMatch r < 256 }.

(** The stripe index that [contains] compares with [intlvMatch]. *)
Definition stripe_of (r : AddrRange) (a : Z) : Z :=
  if negb (hashed r) then bits a (intlvHighBit r) (intlvHighBit r - intlvBits r + 1)
  else Z.lxor (bits a (intlvHighBit r) (intlvHighBit r - intlvBits r + 1))
              (bits a (xorHighBit r) (xorHighBit r - intlvBits r + 1)).

Lemma contains_stripe r a :
  contains r a = (_start r <=? a) && (a <=? _end r) &&
    (negb (interleaved r) || (stripe_of r a =? intlvMatch r)).
Proof.
  unfold contains, stripe_of. destruct (interleaved r); simpl.
  - destruct ((_start r <=? a) && (a <=? _end r)); [|done]. by destruct (hashed r).
  - by rewrite andb_true_r.
Qed.

Lemma stripe_of_range r a : wf r → interleaved r = true → in_width (intlvBits r) (stripe_of r a).
Proof.
  intros [] Hi. unfold interleaved in Hi. apply negb_true_iff, Z.eqb_neq in Hi.
  assert (∀ high, intlvBits r - 1 ≤ high < 64 → in_width (intlvBits r) (bits a high (high - intlvBits r + 1))) as Hb.
  { intros high Hh. replace (intlvBits r) with (high - (high - intlvBits r + 1) + 1) at 1 by lia.
    apply bits_range; lia. }
  unfold stripe_of. destruct (hashed r) eqn:Eh; simpl; [|by apply Hb].
  apply andb_prop in Eh as [_ Ex%negb_true_iff%Z.eqb_neq].
  apply in_width_lxor; [lia|apply Hb; lia|apply Hb; lia].
Qed.

Lemma mergesWith_stripe t r a : mergesWith t r = true → stripe_of t a = stripe_of r a.
Proof.
  unfold mergesWith. rewrite !andb_true_iff, !Z.eqb_eq. intros ((((_ & _) & E1) & E2) & E3).
  unfold stripe_of, hashed, interleaved. by rewrite E1, E2, E3.
Qed.

Lemma mergesWith_spec t r :
  mergesWith t r = true ↔
  _start r = _start t ∧ _end r = _end t ∧ intlvHighBit r = intlvHighBit t ∧
  xorHighBit r = xorHighBit t ∧ intlvBits r = intlvBits t.
Proof. unfold mergesWith. rewrite !andb_true_iff, !Z.eqb_eq. tauto. Qed.

(** Two stripes of the same group are disjoint unless they are the same stripe. *)
Lemma stripes_disjoint t r a :
  mergesWith t r = true → interleaved t = true → contains t a = true → contains r a = true →
  intlvMatch t = intlvMatch r.
Proof.
  intros Hm Hi. pose proof (mergesWith_stripe t r a Hm) as Hs.
  apply mergesWith_spec in Hm as (E1 & E2 & E3 & E4 & E5).
  assert (interleaved r = true) as Hi' by (unfold interleaved in *; by rewrite E5).
  rewrite !contains_stripe, Hi, Hi'. simpl. rewrite !andb_true_iff, !Z.eqb_eq. rewrite Hs.
  intros [_ <-] [_ <-]. done.
Qed.

Lemma mergeRanges_loop_spec first m rs :
  mergeRanges_loop first m rs = Ok tt → (m + Z.of_nat (length rs) ≤ 256) → 0 ≤ m →
  ∀ i r, rs !! i = Some r → mergesWith first r = true ∧ intlvMatch r = m + Z.of_nat i.
Proof.
  revert m. induction rs as [|r rs IH]; intros m Hl Hlen Hm i r' Hi; [done|].
  simpl in Hl, Hlen. destruct (mergesWith first r) eqn:Em; [|done].
  destruct (Z.eqb_spec (intlvMatch r) m) as [E|]; [|done]. simpl in Hl.
  destruct i as [|i]; cbn in Hi; [injection Hi as <-; split; [done|lia]|].
  assert (u8 (m + 1) = m + 1) as Ew.
  { apply wrap_small. unfold in_width. change (2 ^ 8) with 256. apply lookup_lt_Some in Hi. lia. }
  rewrite Ew in Hl. destruct (IH (m + 1) Hl ltac:(lia) ltac:(lia) i r' Hi) as [? ->]. split; [done|lia].
Qed.

Lemma mergeRanges_ok f rs m :
  wf f → mergeRanges (f :: rs) = Ok m →
  Z.of_nat (length (f :: rs)) = 2 ^ intlvBits f ∧ m = newRange (_start f) (_end f) ∧
  ∀ i r, (f :: rs) !! i = Some r → mergesWith f r = true ∧ intlvMatch r = Z.of_nat i.
Proof.
  intros Hwf Hm. unfold mergeRanges in Hm. pose proof (wf_bits _ Hwf) as Hb.
  rewrite Z.shiftl_1_l in Hm.
  assert (2 ^ intlvBits f ≤ 2 ^ 8) as Hp by (apply Z.pow_le_mono_r; lia).
  pose proof (pow2_pos (intlvBits f) ltac:(lia)).
  rewrite wrap_small in Hm by (unfold in_width; lia).
  destruct (Z.eqb_spec (Z.of_nat (length (f :: rs))) (2 ^ intlvBits f)) as [El|]; [|done].
  cbn [negb] in Hm. apply bind_ok in Hm as ([] & Hl & Hm). injection Hm as <-.
  set (this := mkAddrRange _ _ _ _ _ _) in Hl.
  split_and!; [done|done|]. intros i r Hi.
  destruct (mergeRanges_loop_spec this 0 (f :: rs) Hl ltac:(change (2 ^ 8) with 256 in Hp; lia) ltac:(lia) i r Hi)
    as [Hm ?]. split; [|done].
  apply mergesWith_spec. apply mergesWith_spec in Hm. exact Hm.
Qed.

(** ** Main theorems *)

(** Interleaving partitions the address space.  When a list of stripes merges (the
    constructor's checks pass), the merged range contains an address exactly when one of the
    stripes does, and then exactly one of them does. *)
Theorem mergeRanges_partition f rs m a :
  wf f → mergeRanges (f :: rs) = Ok m →
  (contains m a = true ↔ ∃ i r, (f :: rs) !! i = Some r ∧ contains r a = true) ∧
  ∀ i j r r', (f :: rs) !! i = Some r → (f :: rs) !! j = Some r' →
    contains r a = true → contains r' a = true → i = j.
Proof.
  intros Hwf Hm. destruct (mergeRanges_ok f rs m Hwf Hm) as (Hlen & -> & Hall). clear Hm.
  assert (∀ i r, (f :: rs) !! i = Some r → contains r a =
    ((_start f <=? a) && (a <=? _end f) && (negb (interleaved f) || (stripe_of f a =? Z.of_nat i)))) as Hc.
  { intros i r Hi. destruct (Hall i r Hi) as [Hm Ei]. rewrite contains_stripe, Ei, <- (mergesWith_stripe f r a Hm).
    apply mergesWith_spec in Hm as (-> & -> & _ & _ & E). unfold interleaved. by rewrite E. }
  split.
  - rewrite contains_stripe. cbn. rewrite andb_true_r. split.
    + intros Hin. destruct (interleaved f) eqn:Hi.
      * pose proof (stripe_of_range f a Hwf Hi) as [H0 H1].
        assert (Z.to_nat (stripe_of f a) < length (f :: rs))%nat as Hlt by lia.
        apply lookup_lt_is_Some in Hlt as [r Hr]. exists (Z.to_nat (stripe_of f a)), r. split; [done|].
        rewrite (Hc _ _ Hr), Hin. simpl. apply Z.eqb_eq. lia.
      * exists 0%nat, f. split; [done|]. by rewrite (Hc 0%nat f), Hin.
    + intros (i & r & Hi & Hcr). rewrite (Hc i r Hi) in Hcr. by apply andb_prop in Hcr as [? _].
  - intros i j r r' Hi Hj. rewrite (Hc i r Hi), (Hc j r' Hj). destruct (interleaved f) eqn:Ef; simpl.
    + rewrite !andb_true_iff, !Z.eqb_eq. intros [_ E1] [_ E2]. lia.
    + intros _ _. unfold interleaved in Ef. apply negb_false_iff, Z.eqb_eq in Ef. rewrite Ef in Hlen.
      apply lookup_lt_Some in Hi, Hj. change (2 ^ 0) with 1 in Hlen. lia.
Qed.

Definition demo_stripe (m : Z) : AddrRange := mkAddrRange 0x1000 0x1fff 7 12 2 m.

Lemma demo_stripe_wf : wf (demo_stripe 0).
Proof. by split; vm_compute; (split || intros); congruence. Qed.

Lemma mergeRanges_partition_witness :
  contains (newRange 0x1000 0x1fff) 0x1abc = true ↔
  ∃ i r, (demo_stripe 0 :: (demo_stripe <$> [1; 2; 3])) !! i = Some r ∧ contains r 0x1abc = true.
Proof.
  apply (mergeRanges_partition (demo_stripe 0) (demo_stripe <$> [1; 2; 3])
    (newRange 0x1000 0x1fff) 0x1abc demo_stripe_wf). vm_compute. reflexivity.
Defined.

Lemma size_one r : wf r → valid r = true → interleaved r = false → size_ r = 1 → _end r = _start r.
Proof.
  intros [[? ?] [? ?] ? ? ? ? ?] Hv Hi Hs. unfold valid in Hv. apply Z.leb_le in Hv.
  unfold interleaved in Hi. apply negb_false_iff, Z.eqb_eq in Hi.
  unfold size_ in Hs. rewrite Hi, Z.shiftr_0_r in Hs.
  rewrite (wrap_small 64 (_end r - _start r)) in Hs by (unfold in_width; lia).
  destruct (Z.eq_dec (_end r - _start r + 1) (2 ^ 64)) as [E|].
  - rewrite E in Hs. done.
  - rewrite wrap_small in Hs by (unfold in_width; lia). lia.
Qed.

(** [intersects] is exact where it decides: [false] means the two ranges share no
    address, and [true] against a range that is not interleaved means they share one.  The
    second range must not be a stripe whose nominal size is 1, whose first address
    [intersects] would test even when it is not in the stripe. *)
Theorem intersects_correct t r :
  wf t → wf r → valid t = true → valid r = true → (size_ r = 1 → interleaved r = false) →
  (intersects t r = Ok false → ∀ a, contains t a = true → contains r a = true → False) ∧
  (intersects t r = Ok true → interleaved r = false → ∃ a, contains t a = true ∧ contains r a = true).
Proof.
  intros Ht Hr Hvt Hvr Hsz. unfold intersects.
  destruct (Z.ltb_spec (_end r) (_start t)), (Z.ltb_spec (_end t) (_start r)); simpl.
  1-3: split; [|done]; intros _ a; rewrite !contains_stripe, !andb_true_iff, !Z.leb_le; lia.
  destruct (interleaved t) eqn:Hit, (interleaved r) eqn:Hir; simpl.
  4: { split; [done|]. intros _ _. exists (Z.max (_start t) (_start r)).
       unfold valid in *. rewrite !contains_stripe, Hit, Hir. simpl. rewrite !andb_true_iff, !Z.leb_le in *. lia. }
  all: destruct (Z.eqb_spec (size_ r) 1) as [E1|E1].
  1, 5: by specialize (Hsz E1).
  2: { pose proof (size_one r Hr Hvr Hir E1) as Ee. split.
       - intros [= Hc] a Ha1 Ha2. rewrite (contains_stripe r a), Hir, !andb_true_iff, !Z.leb_le in Ha2.
         assert (a = _start r) as -> by lia. congruence.
       - intros [= Hc] _. exists (_start r). split; [done|]. rewrite contains_stripe, Hir. simpl.
         rewrite !andb_true_iff, !Z.leb_le. lia. }
  all: destruct (mergesWith t r) eqn:Hm; [|done].
  2, 3: apply mergesWith_spec in Hm as (_ & _ & _ & _ & E); unfold interleaved in *; congruence.
  split; [|done]. intros [= Hc%Z.eqb_neq] a Ha1 Ha2. apply Hc. by apply (stripes_disjoint t r a).
Qed.

Lemma intersects_correct_witness :
  ∃ a, contains (newRange 0x1000 0x1fff) a = true ∧ contains (newRange 0x1800 0x27ff) a = true.
Proof.
  refine (proj2 (intersects_correct (newRange 0x1000 0x1fff) (newRange 0x1800 0x27ff) _ _ _ _ _) _ _); try done.
  all: split; vm_compute; (split || intros); congruence.
Defined.

(** The excluded case: a stripe of nominal size 1 that shares address 1 with [1, 1] is
    reported as disjoint from it. *)
Lemma intersects_size_one_stripe :
  let t := newRange 1 1 in let r := mkAddrRange 0 1 0 0 1 1 in
  intersects t r = Ok false ∧ contains t 1 = true ∧ contains r 1 = true.
Proof. vm_compute. done. Qed.

End AddrRange.
