(* ===== verification/AddrRangeMap.v ===== *)
(** * The address decoder (base/addr_range_map.hh)

    [std::map<AddrRange, V>] is the list of its entries in the order of
    [AddrRange::operator<]: [begin()] is its head, [upper_bound(r)] the first entry that
    [r] precedes, and [--i] steps to the entry before.  An iterator that the functions
    return is the entry it points to, [None] for [end()]. *)

From stdpp Require Import sorting.
From S2P Require Import Prelude IntMath AddrRange.

Module AddrRangeMap.
Import AddrRange.

Section AddrRangeMap.
Context {V : Type}.
Abbreviation entry := (AddrRange * V)%type.
Abbreviation RangeMap := (list entry).

(** The entries before [upper_bound(r)], and those from it on. *)
Fixpoint split_upper (tree : RangeMap) (r : AddrRange) : RangeMap * RangeMap :=
  match tree with
  | [] => ([], [])
  | e :: tree' =>
      if range_lt r e.1 then ([], tree)
      else let s := split_upper tree' r in (e :: s.1, s.2)
  end.

(** The backwards walk over an interleaved chunk: [i] is the current entry and [before] the
    entries before it, nearest first. *)
Fixpoint step_back (r orig_range : AddrRange) (i : entry) (before : RangeMap) : res (option entry) :=
  match before with
  | [] => b ← intersects i.1 r; Ok (if b : bool then Some i else None)
  | p :: before' =>
      if mergesWith i.1 orig_range then
        b ← intersects p.1 r;
        if b : bool then Ok (Some p) else step_back r orig_range p before'
      else b ← intersects i.1 r; Ok (if b : bool then Some i else None)
  end.

Definition find (tree : RangeMap) (r : AddrRange) : res (option entry) :=
  match tree with
  | [] => Ok None
  | first :: _ =>
      match reverse (split_upper tree r).1 with
      | [] => b ← intersects first.1 r; Ok (if b : bool then Some first else None)
      | i :: before =>
          b ← intersects i.1 r;
          if b : bool then Ok (Some i)
          else if interleaved i.1 then step_back r i.1 i before
          else Ok None
      end
  end.

Definition find_addr (tree : RangeMap) (a : Z) : res (option entry) := find tree (RangeSize a 1).

Definition intersect (tree : RangeMap) (r : AddrRange) : res bool :=
  o ← find tree r; Ok (match o with Some _ => true | None => false end).

(** [std::map::insert]: in order, and without effect when an equivalent key is present. *)
Fixpoint map_insert (tree : RangeMap) (r : AddrRange) (d : V) : RangeMap :=
  match tree with
  | [] => [(r, d)]
  | e :: tree' =>
      if range_lt e.1 r then e :: map_insert tree' r d
      else if range_lt r e.1 then (r, d) :: tree
      else tree
  end.

(** [insert] returns the tree and whether the returned iterator is not [end()]. *)
Definition insert (tree : RangeMap) (r : AddrRange) (d : V) : res (RangeMap * bool) :=
  b ← intersect tree r;
  if b : bool then Ok (tree, false) else Ok (map_insert tree r d, true).

(** [erase] of the entry at a position, and of everything. *)
Definition erase (tree : RangeMap) (p : nat) : RangeMap := take p tree ++ drop (S p) tree.
Definition clear (tree : RangeMap) : RangeMap := [].
Definition size (tree : RangeMap) : nat := length tree.
Definition empty (tree : RangeMap) : bool := bool_decide (length tree = 0%nat).

(** ** The invariant: disjoint ranges in order

    Two entries are apart, or they are different stripes of one interleaved chunk. *)
Definition same_chunk (x y : AddrRange) : Prop :=
  mergesWith x y = true ∧ interleaved x = true ∧ intlvMatch x < intlvMatch y.
Definition before_range (x y : AddrRange) : Prop := same_chunk x y ∨ _end x < _start y.

(** A range whose first address lies in stripe 0, the only one [upper_bound] can point at. *)
Record good (r : AddrRange) : Prop := {
  good_wf : wf r;
  good_valid : valid r = true;
  good_plain : interleaved r = false → intlvMatch r = 0;
  good_align : interleaved r = true → stripe_of r (_start r) = 0 }.

Record tree_ok (tree : RangeMap) : Prop := {
  tree_good : Forall (λ e, good e.1) tree;
  tree_order : StronglySorted (λ x y, before_range x.1 y.1) tree }.

Lemma split_upper_app tree r : (split_upper tree r).1 ++ (split_upper tree r).2 = tree.
Proof.
  induction tree as [|e tree IH]; [done|]. simpl. destruct (range_lt r e.1); [done|]. simpl. by rewrite IH.
Qed.

Lemma split_upper_le tree r : Forall (λ e, range_lt r e.1 = false) (split_upper tree r).1.
Proof.
  induction tree as [|e tree IH]; [constructor|]. simpl.
  destruct (range_lt r e.1) eqn:E; [constructor|]. by constructor.
Qed.

Lemma split_upper_head tree r :
  match (split_upper tree r).2 with [] => True | e :: _ => range_lt r e.1 = true end.
Proof.
  induction tree as [|e tree IH]; [done|]. simpl. destruct (range_lt r e.1) eqn:E; done.
Qed.

Lemma intersects_addr t a :
  in_width 64 a → intersects t (RangeSize a 1) = Ok (contains t a).
Proof.
  intros Ha. unfold RangeSize, newRange.
  assert (u64 (u64 (a + 1) - 1) = a) as ->.
  { unfold wrap. rewrite Zminus_mod_idemp_l. replace (a + 1 - 1) with a by lia. by apply wrap_small. }
  unfold intersects. cbn [_start _end]. rewrite contains_stripe.
  destruct (Z.ltb_spec a (_start t)), (Z.ltb_spec (_end t) a); simpl.
  1-3: destruct (Z.leb_spec (_start t) a), (Z.leb_spec a (_end t)); try lia; done.
  destruct (Z.leb_spec (_start t) a), (Z.leb_spec a (_end t)); try lia.
  destruct (interleaved t) eqn:Hi; [|done]. cbn [negb andb].
  assert (size_ (mkAddrRange a a 0 0 0 0) = 1) as ->.
  { unfold size_. cbn. rewrite Z.sub_diag. done. }
  done.
Qed.

(** An entry that the key of [a] precedes does not contain [a]. *)
Lemma upper_not_contains e a :
  good e → range_lt (RangeSize a 1) e = true → contains e a = false.
Proof.
  intros [Hwf Hv Hp Hal] Hlt. rewrite contains_stripe. unfold range_lt in Hlt. cbn in Hlt.
  destruct (Z.eqb_spec a (_start e)) as [->|Hne]; simpl in Hlt.
  - apply Z.ltb_lt in Hlt. destruct (interleaved e).
    + rewrite Hal by done. destruct (Z.eqb_spec 0 (intlvMatch e)); [lia|]. by rewrite andb_false_r.
    + specialize (Hp eq_refl). lia.
  - apply Z.ltb_lt in Hlt. destruct (Z.leb_spec (_start e) a); [lia|done].
Qed.

Lemma not_upper_start e a : range_lt (RangeSize a 1) e = false → _start e ≤ a.
Proof.
  unfold range_lt. cbn. destruct (Z.eqb_spec a (_start e)); simpl; [lia|]. rewrite Z.ltb_ge. lia.
Qed.

(** An earlier entry that reaches [a] is in the chunk of a later entry starting at or
    before [a]. *)
Lemma reaches_same_chunk x y a :
  before_range x y → contains x a = true → _start y ≤ a → same_chunk x y.
Proof.
  intros [Hs|Hlt]; [done|]. rewrite contains_stripe, !andb_true_iff, !Z.leb_le. lia.
Qed.

Lemma step_back_spec a orig i before :
  in_width 64 a →
  StronglySorted (λ x y, before_range y.1 x.1) (i :: before) →
  Forall (λ e, _start e.1 ≤ a ∧ valid e.1 = true) (i :: before) → _start orig ≤ a →
  (i.1 = orig ∨ before_range i.1 orig) → contains i.1 a = false → interleaved orig = true →
  ∃ o, step_back (RangeSize a 1) orig i before = Ok o ∧
    match o with
    | Some e => e ∈ before ∧ contains e.1 a = true
    | None => ∀ e, e ∈ before → contains e.1 a = false
    end.
Proof.
  intros Ha. revert i. induction before as [|p before IH]; intros i Hs Hst Ho Hio Hni Hint.
  { simpl. rewrite intersects_addr, Hni by done. simpl. eexists. split; [done|]. set_solver. }
  inversion_clear Hs as [|? ? Hss Hall]. rewrite Forall_forall in Hall.
  cbn [step_back]. destruct (mergesWith i.1 orig) eqn:Hm.
  - rewrite intersects_addr by done. simpl. destruct (contains p.1 a) eqn:Hp.
    { eexists. split; [done|]. split; [left|done]. }
    destruct (IH p) as (o & Heq & Hspec); [done|by inversion Hst|done| |done|done|].
    + right. destruct (Hall p ltac:(left)) as [(Hm1 & Hi1 & Hlt1)|Hlt1].
      * left. destruct Hio as [<-|[(Hm2 & Hi2 & Hlt2)|Hlt2]]; [done| |].
        -- split_and!; [|done|lia]. rewrite mergesWith_spec in Hm1, Hm2 |- *.
           destruct Hm1 as (? & ? & ? & ? & ?), Hm2 as (? & ? & ? & ? & ?). split_and!; congruence.
        -- rewrite mergesWith_spec in Hm. rewrite Forall_forall in Hst.
           destruct (Hst i ltac:(left)) as [_ Hv%Z.leb_le]. lia.
      * right. rewrite mergesWith_spec in Hm. destruct Hm as (-> & _). done.
    + exists o. split; [done|]. destruct o as [e|]; [set_solver|]. intros e [->|He]%elem_of_cons; auto.
  - rewrite intersects_addr, Hni by done. simpl. eexists. split; [done|].
    intros e He. destruct (contains e.1 a) eqn:Hc; [|done]. exfalso.
    specialize (Hall e He). simpl in Hall.
    assert (_start i.1 ≤ a) as Hia by (by inversion_clear Hst as [|? ? [? _] _]).
    destruct (reaches_same_chunk _ _ _ Hall Hc Hia) as (Hme & _ & _).
    rewrite contains_stripe, !andb_true_iff, !Z.leb_le in Hc.
    apply mergesWith_spec in Hme as (_ & Ee & _).
    destruct Hio as [<-|[(Hm2 & _)|Hlt]].
    + assert (mergesWith i.1 i.1 = true) by (by apply mergesWith_spec). congruence.
    + congruence.
    + lia.
Qed.

Lemma before_range_upper k x y :
  valid x = true → before_range x y → range_lt k x = true → range_lt k y = true.
Proof.
  unfold valid, range_lt. intros Hv%Z.leb_le [(Hm & _ & Hlt)|Hlt] Hk.
  - apply mergesWith_spec in Hm as (E & _). rewrite E.
    destruct (Z.eqb_spec (_start k) (_start x)); simpl in *; [|done]. apply Z.ltb_lt in Hk. apply Z.ltb_lt. lia.
  - destruct (Z.eqb_spec (_start k) (_start x)), (Z.eqb_spec (_start k) (_start y)); simpl in *;
      rewrite ?Z.ltb_lt in *; lia.
Qed.

Lemma tree_ok_app l1 l2 : tree_ok (l1 ++ l2) → tree_ok l1 ∧ tree_ok l2 ∧
  ∀ x y, x ∈ l1 → y ∈ l2 → before_range x.1 y.1.
Proof.
  intros [Hg Ho]. apply Forall_app in Hg as [Hg1 Hg2]. apply StronglySorted_app in Ho as (Hx & Ho1 & Ho2).
  split_and!; [by split..|done].
Qed.

(** Every entry from [upper_bound] on is after the key. *)
Lemma split_upper_gt tree r e :
  tree_ok tree → e ∈ (split_upper tree r).2 → range_lt r e.1 = true.
Proof.
  intros Hok. pose proof (split_upper_head tree r) as Hh. rewrite <- (split_upper_app tree r) in Hok.
  apply tree_ok_app in Hok as (_ & [Hg Ho] & _).
  destruct (split_upper tree r).2 as [|x l]; [set_solver|].
  intros [->|Hin]%elem_of_cons; [done|].
  inversion_clear Ho as [|? ? _ Hall]. inversion_clear Hg as [|? ? Hgx _].
  rewrite Forall_forall in Hall. eapply before_range_upper; [by apply Hgx|by apply Hall|done].
Qed.

Lemma StronglySorted_reverse {A} (R : A → A → Prop) (l : list A) :
  StronglySorted R l → StronglySorted (λ x y, R y x) (reverse l).
Proof.
  induction 1 as [|x l Hs IH Hall]; [constructor|]. rewrite reverse_cons. apply StronglySorted_app.
  split_and!; [|done|by repeat constructor].
  intros y z Hy Hz. apply list_elem_of_singleton in Hz as ->. rewrite Forall_forall in Hall.
  apply Hall. by rewrite elem_of_reverse in Hy.
Qed.

(** Decoding an address, with what it finds or does not find. *)
Lemma find_addr_spec tree a :
  tree_ok tree → in_width 64 a →
  ∃ o, find_addr tree a = Ok o ∧
    match o with
    | Some e => e ∈ tree ∧ contains e.1 a = true
    | None => ∀ e, e ∈ tree → contains e.1 a = false
    end.
Proof.
  intros Hok Ha. set (k := RangeSize a 1).
  assert (∀ e, e ∈ (split_upper tree k).2 → contains e.1 a = false) as Hgt.
  { intros e He. apply upper_not_contains; [|by eapply split_upper_gt].
    destruct Hok as [Hg _]. rewrite Forall_forall in Hg. apply (Hg e).
    rewrite <- (split_upper_app tree k). apply elem_of_app. by right. }
  pose proof (split_upper_app tree k) as Happ. pose proof (split_upper_le tree k) as Hle.
  unfold find_addr, find. fold k. destruct tree as [|first tree]; [by exists None|].
  set (le := (split_upper (first :: tree) k).1) in *. set (gt := (split_upper (first :: tree) k).2) in *.
  assert (∀ e, e ∈ first :: tree ↔ e ∈ reverse le ∨ e ∈ gt) as Hmem.
  { intros e. rewrite <- Happ, elem_of_app, elem_of_reverse. done. }
  rewrite <- Happ in Hok. apply tree_ok_app in Hok as ([Hg Ho] & _ & _).
  apply StronglySorted_reverse in Ho. rewrite <- Forall_reverse in Hle. rewrite <- Forall_reverse in Hg.
  destruct (reverse le) as [|i before] eqn:Erev.
  - rewrite (intersects_addr first.1 a Ha : intersects first.1 k = _). rewrite (Hgt first) by set_solver. simpl.
    eexists. split; [done|]. intros e He. apply Hgt. apply Hmem in He. set_solver.
  - rewrite (intersects_addr i.1 a Ha : intersects i.1 k = _). simpl. destruct (contains i.1 a) eqn:Hi.
    { eexists. split; [done|]. split; [apply Hmem; left; left|done]. }
    assert (Forall (λ e, _start e.1 ≤ a ∧ valid e.1 = true) (i :: before)) as Hstart.
    { apply Forall_forall. intros e He. rewrite Forall_forall in Hle, Hg.
      split; [apply not_upper_start; by apply Hle|by apply Hg]. }
    destruct (interleaved i.1) eqn:Hint.
    + destruct (step_back_spec a i.1 i before Ha Ho Hstart) as (o & Heq & Hspec);
        [by inversion_clear Hstart as [|? ? [? _] _]|by left|done|done|].
      exists o. split; [done|]. destruct o as [e|]; [split; [apply Hmem; left; right|]; apply Hspec|].
      intros e [[->|He]%elem_of_cons|He]%Hmem; [done|by apply Hspec|by apply Hgt].
    + eexists. split; [done|]. intros e [[->|He]%elem_of_cons|He]%Hmem; [done| |by apply Hgt].
      inversion_clear Ho as [|? ? _ Hall]. rewrite Forall_forall in Hall.
      destruct (contains e.1 a) eqn:Hc; [|done]. exfalso.
      destruct (reaches_same_chunk _ _ a (Hall e He) Hc) as (Hm & Hie & _);
        [by inversion_clear Hstart as [|? ? [? _] _]|].
      apply mergesWith_spec in Hm as (_ & _ & _ & _ & Eb). unfold interleaved in *. congruence.
Qed.

(** ** Insertion *)

(** Two ranges that may live in one map: in one order or the other. *)
Definition apart (x y : AddrRange) : Prop := before_range x y ∨ before_range y x.

Lemma before_range_lt x y : valid x = true → before_range x y → range_lt x y = true ∧ range_lt y x = false.
Proof.
  unfold valid, range_lt. intros Hv%Z.leb_le [(Hm & _ & Hlt)|Hlt].
  - apply mergesWith_spec in Hm as (-> & _). rewrite Z.eqb_refl. simpl.
    split; [apply Z.ltb_lt|apply Z.ltb_ge]; lia.
  - destruct (Z.eqb_spec (_start x) (_start y)), (Z.eqb_spec (_start y) (_start x)); simpl; lia.
Qed.

Lemma before_not_contains x y a :
  before_range x y → contains x a = true → contains y a = true → False.
Proof.
  intros [(Hm & Hi & Hlt)|Hlt] Hx Hy.
  - pose proof (stripes_disjoint x y a Hm Hi Hx Hy). lia.
  - rewrite contains_stripe, !andb_true_iff, !Z.leb_le in Hx, Hy. lia.
Qed.

Lemma apart_intersects x r :
  good x → good r → apart x r → (interleaved r = true → size_ r ≠ 1) → intersects x r = Ok false.
Proof.
  intros Hgx Hgr Hap Hsz.
  assert (mergesWith x r = true ∧ interleaved x = true ∧ intlvMatch x ≠ intlvMatch r ∨
          (_end r < _start x ∨ _end x < _start r)) as [(Hm & Hi & Hne)|Hd].
  { destruct Hap as [[(?&?&?)|?]|[(Hm&Hi&?)|?]]; [left; split_and!; [done..|lia]|by auto| |by auto].
    left. apply mergesWith_spec in Hm as (?&?&?&?&E). split_and!; [by apply mergesWith_spec| |lia].
    unfold interleaved in *. congruence. }
  - unfold intersects. pose proof Hm as Hm'. apply mergesWith_spec in Hm' as (E1&E2&_&_&E).
    assert (interleaved r = true) as Hir by (unfold interleaved in *; congruence).
    destruct ((_end r <? _start x) || (_end x <? _start r)); [done|]. rewrite Hi. cbn [negb andb].
    destruct (Z.eqb_spec (size_ r) 1); [by destruct (Hsz Hir)|]. rewrite Hm.
    by destruct (Z.eqb_spec (intlvMatch x) (intlvMatch r)).
  - unfold intersects. assert ((_end r <? _start x) || (_end x <? _start r) = true) as ->; [|done].
    apply orb_true_iff. rewrite !Z.ltb_lt. lia.
Qed.

Lemma step_back_none r orig i before :
  (∀ e, e ∈ i :: before → intersects e.1 r = Ok false) → step_back r orig i before = Ok None.
Proof.
  revert i. induction before as [|p before IH]; intros i Hall; simpl.
  - by rewrite Hall by left.
  - rewrite (Hall i), (Hall p) by (repeat constructor). simpl.
    destruct (mergesWith i.1 orig); [|done]. apply IH. intros e He. apply Hall. set_solver.
Qed.

Lemma find_none tree r :
  (∀ e, e ∈ tree → intersects e.1 r = Ok false) → find tree r = Ok None.
Proof.
  intros Hall. pose proof (split_upper_app tree r) as Happ. unfold find. destruct tree as [|first tree]; [done|].
  destruct (reverse (split_upper (first :: tree) r).1) as [|i before] eqn:Erev.
  - by rewrite Hall by left.
  - assert (∀ e, e ∈ i :: before → intersects e.1 r = Ok false) as Hall'.
    { intros e He. apply Hall. rewrite <- Happ, elem_of_app, <- elem_of_reverse, Erev. by left. }
    rewrite (Hall' i) by left. simpl. destruct (interleaved i.1); [|done]. by apply step_back_none.
Qed.

Lemma elem_of_map_insert tree r d e :
  e ∈ map_insert tree r d → e = (r, d) ∨ e ∈ tree.
Proof.
  induction tree as [|x tree IH]; simpl; [set_solver|].
  destruct (range_lt x.1 r); [set_solver|]. destruct (range_lt r x.1); set_solver.
Qed.

Lemma map_insert_ok tree r d :
  tree_ok tree → good r → (∀ e, e ∈ tree → apart e.1 r) →
  tree_ok (map_insert tree r d) ∧ (r, d) ∈ map_insert tree r d.
Proof.
  intros [Hg Ho] Hr. induction Ho as [|x tree Ho IH Hall]; intros Hap; simpl.
  { split; [split; [by apply Forall_singleton|repeat constructor]|left]. }
  inversion_clear Hg as [|? ? Hgx Hgt].
  destruct (Hap x ltac:(left)) as [Hb|Hb].
  - destruct (before_range_lt _ _ (good_valid _ Hgx) Hb) as [-> _].
    destruct (IH Hgt) as [[Hg' Ho'] Hin]; [intros; apply Hap; by right|].
    split; [|by right]. split; [by constructor|]. constructor; [done|].
    apply Forall_forall. intros e [->|He]%elem_of_map_insert; [done|]. rewrite Forall_forall in Hall. by apply Hall.
  - destruct (before_range_lt _ _ (good_valid _ Hr) Hb) as [-> ->].
    split; [|left]. split; [by repeat (constructor; [done|])|]. constructor; [by constructor|].
    constructor; [done|]. apply Forall_forall. intros e He. rewrite Forall_forall in Hall. simpl.
    destruct (Hap e ltac:(by right)) as [Hbe|]; [|done]. exfalso.
    pose proof (Hall e He) as Hxe.
    destruct (before_range_lt _ _ (good_valid _ Hgx) Hxe) as [E1 _].
    assert (good e.1) as Hge by (rewrite Forall_forall in Hgt; by apply Hgt).
    destruct (before_range_lt _ _ (good_valid _ Hge) Hbe) as [_ E2].
    assert (range_lt r e.1 = true) as E3.
    { eapply before_range_upper; [by apply Hgx|done|]. by apply before_range_lt; [apply Hr|]. }
    congruence.
Qed.

End AddrRangeMap.

(** ** Main theorems *)

(** Address decoding.  In a map of disjoint ranges (interleaved chunks included, each
    starting in its stripe 0) the lookup of any address never panics, returns an entry that
    contains the address if there is one, and reports the end of the map only when no entry
    contains it. *)
Theorem find_addr_correct {V} (tree : list (AddrRange * V)) a :
  tree_ok tree → in_width 64 a →
  match find_addr tree a with
  | Ok (Some e) => e ∈ tree ∧ contains e.1 a = true
  | Ok None => ∀ e, e ∈ tree → contains e.1 a = false
  | Fail _ => False
  end.
Proof. intros Hok Ha. destruct (find_addr_spec tree a Hok Ha) as ([e|] & -> & H); done. Qed.

(** Inserting a range apart from every range in the map succeeds, keeps the map
    well formed, and every address of the range then decodes to the inserted value. *)
Theorem insert_find_roundtrip {V} (tree : list (AddrRange * V)) r d :
  tree_ok tree → good r → (∀ e, e ∈ tree → apart e.1 r) → (interleaved r = true → size_ r ≠ 1) →
  ∃ tree', insert tree r d = Ok (tree', true) ∧ tree_ok tree' ∧
    ∀ a, in_width 64 a → contains r a = true → find_addr tree' a = Ok (Some (r, d)).
Proof.
  intros Hok Hr Hap Hsz. destruct (map_insert_ok tree r d Hok Hr Hap) as [Hok' Hin].
  exists (map_insert tree r d). split_and!; [|done|].
  - unfold insert, intersect. rewrite find_none; [done|]. intros e He.
    apply apart_intersects; [|done|by apply Hap|done]. destruct Hok as [Hg _].
    rewrite Forall_forall in Hg. by apply Hg.
  - intros a Ha Hc. destruct (find_addr_spec _ a Hok' Ha) as (o & -> & Hspec).
    destruct o as [e|]; [|specialize (Hspec _ Hin); simpl in Hspec; congruence]. destruct Hspec as [He Hce].
    apply elem_of_map_insert in He as [->|He]; [done|]. exfalso.
    destruct (Hap e He) as [Hb|Hb]; [by apply (before_not_contains _ _ a Hb)|by apply (before_not_contains _ _ a Hb)].
Qed.

Definition demo_tree : list (AddrRange * nat) := [(newRange 10 20, 1%nat); (newRange 30 40, 2%nat)].

Lemma good_newRange s e : 0 ≤ s ≤ e → e < 2 ^ 64 → good (newRange s e).
Proof.
  intros Hs He. split; [|by apply Z.leb_le; simpl; lia|done|done].
  split; simpl; unfold in_width; lia.
Qed.

Lemma demo_tree_ok : tree_ok demo_tree.
Proof.
  split.
  - apply Forall_cons_2; [apply good_newRange; lia|]. apply Forall_singleton. apply good_newRange; lia.
  - constructor; [repeat constructor|]. apply Forall_singleton. right. simpl. lia.
Qed.

Lemma find_addr_correct_witness :
  find_addr demo_tree 35 = Ok (Some (newRange 30 40, 2%nat)) ∧ contains (newRange 30 40) 35 = true.
Proof.
  assert (find_addr demo_tree 35 = Ok (Some (newRange 30 40, 2%nat))) as E by (vm_compute; reflexivity).
  pose proof (find_addr_correct demo_tree 35 demo_tree_ok ltac:(vm_compute; split; congruence)) as Hf.
  rewrite E in Hf. split; [exact E|exact (proj2 Hf)].
Defined.

Lemma insert_find_roundtrip_witness :
  ∃ tree', insert demo_tree (newRange 22 25) 3%nat = Ok (tree', true) ∧
    find_addr tree' 24 = Ok (Some (newRange 22 25, 3%nat)).
Proof.
  destruct (insert_find_roundtrip demo_tree (newRange 22 25) 3%nat) as (t & Hi & _ & Hf).
  - exact demo_tree_ok.
  - apply good_newRange; lia.
  - intros e [->|[->|[]%not_elem_of_nil]%elem_of_cons]%elem_of_cons; [left|right]; right; simpl; lia.
  - done.
  - exists t. split; [exact Hi|]. apply Hf; [vm_compute; split; congruence|done].
Defined.

(** The overlap check misses the entry at [upper_bound]: the range [22, 35] is accepted
    although it overlaps [30, 40], and address 32 is then in two ranges. *)
Lemma insert_accepts_overlap :
  insert demo_tree (newRange 22 35) 3%nat =
    Ok ([(newRange 10 20, 1%nat); (newRange 22 35, 3%nat); (newRange 30 40, 2%nat)], true) ∧
  contains (newRange 22 35) 32 = true ∧ contains (newRange 30 40) 32 = true.
Proof. vm_compute. done. Qed.

End AddrRangeMap.
