(* ===== verification/MemCmd.v ===== *)
(** * Memory commands and requests

    [Flags] is [base/flags.hh], [MemCmd] the commands of [mem/packet.hh] with the
    attribute table of [mem/packet.cc], [Request] the requests of [mem/request.hh].
    The lemmas state what the rest of the memory system relies on: the response of a request
    matches it ([response_of]), and splitting a request on a virtual address yields two requests
    that partition it ([splitOnVaddr_partitions]). *)

From stdpp Require Import strings.
From S2P Require Import Prelude.

Open Scope Z_scope.

(** ** [Flags<T>]: a bit set of width [w] *)

Module Flags.

Definition isSet (f flags : Z) : bool := negb (Z.land f flags =? 0).
Definition allSet (f flags : Z) : bool := Z.land f flags =? flags.
Definition noneSet (f flags : Z) : bool := Z.land f flags =? 0.
Definition clear (w f flags : Z) : Z := Z.land f (bnot w flags).
Definition set (f flags : Z) : Z := Z.lor f flags.
Definition set_to (w f fl : Z) (val : bool) : Z :=
  Z.lor (Z.land f (bnot w fl)) (if val then fl else 0).
Definition update (w f flags mask : Z) : Z :=
  Z.lor (Z.land f (bnot w mask)) (Z.land flags mask).

Lemma noneSet_isSet f m : noneSet f m = negb (isSet f m).
Proof. unfold noneSet, isSet. by rewrite negb_involutive. Qed.

(** A single-bit flag is a bit test. *)
Lemma isSet_pow2 f k : 0 ≤ k → isSet f (2 ^ k) = Z.testbit f k.
Proof.
  intros Hk. unfold isSet. destruct (Z.testbit f k) eqn:Hb.
  - destruct (Z.eqb_spec (Z.land f (2 ^ k)) 0) as [He|]; [|done].
    apply (f_equal (λ z, Z.testbit z k)) in He.
    rewrite Z.land_spec, Hb, Z.pow2_bits_true, Z.bits_0 in He by done. done.
  - destruct (Z.eqb_spec (Z.land f (2 ^ k)) 0) as [|Hne]; [done|]. destruct Hne.
    apply Z.bits_inj_iff'. intros i Hi. rewrite Z.land_spec, Z.bits_0, Z.pow2_bits_eqb by done.
    destruct (Z.eqb_spec k i) as [<-|]; [by rewrite Hb|by rewrite andb_false_r].
Qed.

Lemma isSet_set f g k : 0 ≤ k → isSet (set f g) (2 ^ k) = isSet f (2 ^ k) || isSet g (2 ^ k).
Proof. intros. rewrite !isSet_pow2 by done. by unfold set; rewrite Z.lor_spec. Qed.

Lemma isSet_clear w f g k :
  0 ≤ k < w → isSet (clear w f g) (2 ^ k) = isSet f (2 ^ k) && negb (isSet g (2 ^ k)).
Proof.
  intros. rewrite !isSet_pow2 by lia. unfold clear. rewrite Z.land_spec, testbit_bnot by lia.
  destruct (Z.ltb_spec k w); [by rewrite andb_true_r|lia].
Qed.

Lemma isSet_or f a b : isSet f (Z.lor a b) = isSet f a || isSet f b.
Proof.
  unfold isSet. rewrite Z.land_lor_distr_r.
  destruct (Z.eqb_spec (Z.lor (Z.land f a) (Z.land f b)) 0) as [He|Hne].
  - apply Z.lor_eq_0_iff in He as [-> ->]. done.
  - destruct (Z.eqb_spec (Z.land f a) 0) as [H1|], (Z.eqb_spec (Z.land f b) 0) as [H2|]; try done.
    destruct Hne. by rewrite H1, H2.
Qed.

End Flags.

(** ** [MemCmd] *)

Module MemCmd.

Inductive Command :=
  | InvalidCmd
  | ReadReq
  | ReadResp
  | ReadRespWithInvalidate
  | WriteReq
  | WriteResp
  | WritebackDirty
  | WritebackClean
  | CleanEvict
  | SoftPFReq
  | HardPFReq
  | SoftPFResp
  | HardPFResp
  | WriteLineReq
  | UpgradeReq
  | SCUpgradeReq
  | UpgradeResp
  | SCUpgradeFailReq
  | UpgradeFailResp
  | ReadExReq
  | ReadExResp
  | ReadCleanReq
  | ReadSharedReq
  | LoadLockedReq
  | StoreCondReq
  | StoreCondFailReq
  | StoreCondResp
  | SwapReq
  | SwapResp
  | MessageReq
  | MessageResp
  | MemFenceReq
  | MemFenceResp
  | InvalidDestError
  | BadAddressError
  | FunctionalReadError
  | FunctionalWriteError
  | PrintReq
  | FlushReq
  | InvalidateReq
  | InvalidateResp.

#[export] Instance Command_eq_dec : EqDecision Command.
Proof. solve_decision. Defined.

Inductive Attribute :=
  | IsRead
  | IsWrite
  | IsUpgrade
  | IsInvalidate
  | NeedsWritable
  | IsRequest
  | IsResponse
  | NeedsResponse
  | IsEviction
  | IsSWPrefetch
  | IsHWPrefetch
  | IsLlsc
  | HasData
  | IsError
  | IsPrint
  | IsFlush
  | FromCache.

(** The value of the enumerator. *)
Definition attr_int (a : Attribute) : Z :=
  match a with
  | IsRead => 0 | IsWrite => 1 | IsUpgrade => 2 | IsInvalidate => 3 | NeedsWritable => 4
  | IsRequest => 5 | IsResponse => 6 | NeedsResponse => 7 | IsEviction => 8
  | IsSWPrefetch => 9 | IsHWPrefetch => 10 | IsLlsc => 11 | HasData => 12 | IsError => 13
  | IsPrint => 14 | IsFlush => 15 | FromCache => 16
  end.

(** The macros [SET1] .. [SET7]. *)
Definition SET (l : list Attribute) : Z :=
  foldl (λ acc a, Z.lor acc (Z.shiftl 1 (attr_int a))) 0 l.

Record CommandInfo := mkInfo {
  attributes : Z;
  response : Command;
  str : string
}.

(** The rows of [MemCmd::commandInfo], one per enumerator in the enum's order. *)
Definition commandInfo (c : Command) : CommandInfo :=
  match c with
  | InvalidCmd => mkInfo 0 InvalidCmd "InvalidCmd"
  | ReadReq => mkInfo (SET [IsRead; IsRequest; NeedsResponse]) ReadResp "ReadReq"
  | ReadResp => mkInfo (SET [IsRead; IsResponse; HasData]) InvalidCmd "ReadResp"
  | ReadRespWithInvalidate =>
      mkInfo (SET [IsRead; IsResponse; HasData; IsInvalidate]) InvalidCmd
        "ReadRespWithInvalidate"
  | WriteReq =>
      mkInfo (SET [IsWrite; NeedsWritable; IsRequest; NeedsResponse; HasData]) WriteResp
        "WriteReq"
  | WriteResp => mkInfo (SET [IsWrite; IsResponse]) InvalidCmd "WriteResp"
  | WritebackDirty =>
      mkInfo (SET [IsWrite; IsRequest; IsEviction; HasData; FromCache]) InvalidCmd
        "WritebackDirty"
  | WritebackClean =>
      mkInfo (SET [IsWrite; IsRequest; IsEviction; HasData; FromCache]) InvalidCmd
        "WritebackClean"
  | CleanEvict => mkInfo (SET [IsRequest; IsEviction; FromCache]) InvalidCmd "CleanEvict"
  | SoftPFReq =>
      mkInfo (SET [IsRead; IsRequest; IsSWPrefetch; NeedsResponse]) SoftPFResp "SoftPFReq"
  | HardPFReq =>
      mkInfo (SET [IsRead; IsRequest; IsHWPrefetch; NeedsResponse; FromCache]) HardPFResp
        "HardPFReq"
  | SoftPFResp =>
      mkInfo (SET [IsRead; IsResponse; IsSWPrefetch; HasData]) InvalidCmd "SoftPFResp"
  | HardPFResp =>
      mkInfo (SET [IsRead; IsResponse; IsHWPrefetch; HasData]) InvalidCmd "HardPFResp"
  | WriteLineReq =>
      mkInfo (SET [IsWrite; NeedsWritable; IsRequest; NeedsResponse; HasData]) WriteResp
        "WriteLineReq"
  | UpgradeReq =>
      mkInfo (SET [IsInvalidate; NeedsWritable; IsUpgrade; IsRequest; NeedsResponse; FromCache])
        UpgradeResp "UpgradeReq"
  | SCUpgradeReq =>
      mkInfo (SET [IsInvalidate; NeedsWritable; IsUpgrade; IsLlsc; IsRequest; NeedsResponse;
                   FromCache]) UpgradeResp "SCUpgradeReq"
  | UpgradeResp => mkInfo (SET [IsUpgrade; IsResponse]) InvalidCmd "UpgradeResp"
  | SCUpgradeFailReq =>
      mkInfo (SET [IsRead; NeedsWritable; IsInvalidate; IsLlsc; IsRequest; NeedsResponse;
                   FromCache]) UpgradeFailResp "SCUpgradeFailReq"
  | UpgradeFailResp => mkInfo (SET [IsRead; IsResponse; HasData]) InvalidCmd "UpgradeFailResp"
  | ReadExReq =>
      mkInfo (SET [IsRead; NeedsWritable; IsInvalidate; IsRequest; NeedsResponse; FromCache])
        ReadExResp "ReadExReq"
  | ReadExResp => mkInfo (SET [IsRead; IsResponse; HasData]) InvalidCmd "ReadExResp"
  | ReadCleanReq =>
      mkInfo (SET [IsRead; IsRequest; NeedsResponse; FromCache]) ReadResp "ReadCleanReq"
  | ReadSharedReq =>
      mkInfo (SET [IsRead; IsRequest; NeedsResponse; FromCache]) ReadResp "ReadSharedReq"
  | LoadLockedReq =>
      mkInfo (SET [IsRead; IsLlsc; IsRequest; NeedsResponse]) ReadResp "LoadLockedReq"
  | StoreCondReq =>
      mkInfo (SET [IsWrite; NeedsWritable; IsLlsc; IsRequest; NeedsResponse; HasData])
        StoreCondResp "StoreCondReq"
  | StoreCondFailReq =>
      mkInfo (SET [IsWrite; NeedsWritable; IsLlsc; IsRequest; NeedsResponse; HasData])
        StoreCondResp "StoreCondFailReq"
  | StoreCondResp => mkInfo (SET [IsWrite; IsLlsc; IsResponse]) InvalidCmd "StoreCondResp"
  | SwapReq =>
      mkInfo (SET [IsRead; IsWrite; NeedsWritable; IsRequest; HasData; NeedsResponse])
        SwapResp "SwapReq"
  | SwapResp => mkInfo (SET [IsRead; IsWrite; IsResponse; HasData]) InvalidCmd "SwapResp"
  | MessageReq =>
      mkInfo (SET [IsWrite; IsRequest; NeedsResponse; HasData]) MessageResp "MessageReq"
  | MessageResp => mkInfo (SET [IsWrite; IsResponse]) InvalidCmd "MessageResp"
  | MemFenceReq => mkInfo (SET [IsRequest; NeedsResponse]) MemFenceResp "MemFenceReq"
  | MemFenceResp => mkInfo (SET [IsResponse]) InvalidCmd "MemFenceResp"
  | InvalidDestError => mkInfo (SET [IsResponse; IsError]) InvalidCmd "InvalidDestError"
  | BadAddressError => mkInfo (SET [IsResponse; IsError]) InvalidCmd "BadAddressError"
  | FunctionalReadError =>
      mkInfo (SET [IsRead; IsResponse; IsError]) InvalidCmd "FunctionalReadError"
  | FunctionalWriteError =>
      mkInfo (SET [IsWrite; IsResponse; IsError]) InvalidCmd "FunctionalWriteError"
  | PrintReq => mkInfo (SET [IsRequest; IsPrint]) InvalidCmd "PrintReq"
  | FlushReq => mkInfo (SET [IsRequest; IsFlush; NeedsWritable]) InvalidCmd "FlushReq"
  | InvalidateReq =>
      mkInfo (SET [IsInvalidate; IsRequest; NeedsWritable; NeedsResponse; FromCache])
        InvalidateResp "InvalidateReq"
  | InvalidateResp => mkInfo (SET [IsInvalidate; IsResponse]) InvalidCmd "InvalidateResp"
  end.

Definition testCmdAttrib (c : Command) (a : Attribute) : bool :=
  Z.testbit (attributes (commandInfo c)) (attr_int a).

Definition isRead c := testCmdAttrib c IsRead.
Definition isWrite c := testCmdAttrib c IsWrite.
Definition isUpgrade c := testCmdAttrib c IsUpgrade.
Definition isRequest c := testCmdAttrib c IsRequest.
Definition isResponse c := testCmdAttrib c IsResponse.
Definition needsWritable c := testCmdAttrib c NeedsWritable.
Definition needsResponse c := testCmdAttrib c NeedsResponse.
Definition isInvalidate c := testCmdAttrib c IsInvalidate.
Definition isEviction c := testCmdAttrib c IsEviction.
Definition fromCache c := testCmdAttrib c FromCache.
Definition isWriteback c := testCmdAttrib c IsEviction && testCmdAttrib c HasData.
Definition hasData c := testCmdAttrib c HasData.
Definition isLLSC c := testCmdAttrib c IsLlsc.
Definition isSWPrefetch c := testCmdAttrib c IsSWPrefetch.
Definition isHWPrefetch c := testCmdAttrib c IsHWPrefetch.
Definition isPrefetch c := testCmdAttrib c IsSWPrefetch || testCmdAttrib c IsHWPrefetch.
Definition isError c := testCmdAttrib c IsError.
Definition isPrint c := testCmdAttrib c IsPrint.
Definition isFlush c := testCmdAttrib c IsFlush.
Definition responseCommand c := response (commandInfo c).
Definition toString c := str (commandInfo c).

(** *** The table *)

(** What the table says of a request and its response, as one decidable statement. *)
Definition request_ok (c : Command) : bool :=
  let r := responseCommand c in
  isResponse r && negb (isRequest r) && negb (needsResponse r) && negb (isError r) &&
  Bool.eqb (isRead r) (isRead c) && Bool.eqb (isWrite r) (isWrite c) &&
  Bool.eqb (hasData r) (isRead c) && bool_decide (responseCommand r = InvalidCmd).

Lemma response_of c :
  needsResponse c = true → request_ok c = true.
Proof. destruct c; vm_compute; done. Qed.

Lemma needsResponse_isRequest c : needsResponse c = true → isRequest c = true.
Proof. destruct c; vm_compute; done. Qed.

Lemma request_not_response c : isRequest c = true → isResponse c = false.
Proof. destruct c; vm_compute; done. Qed.

End MemCmd.

(** ** [Request] *)

Module Request.

(** The flags of [_flags] the accessors below test. *)
Definition ARCH_BITS : Z := 0xff.
Definition INST_FETCH : Z := 0x100.
Definition UNCACHEABLE : Z := 0x400.
Definition STRICT_ORDER : Z := 0x800.
Definition KERNEL : Z := 0x1000.
Definition MMAPPED_IPR : Z := 0x2000.
Definition PRIVILEGED : Z := 0x8000.
Definition ACQUIRE : Z := 0x20000.
Definition RELEASE : Z := 0x40000.
Definition LOCKED_RMW : Z := 0x100000.
Definition LLSC : Z := 0x200000.
Definition MEM_SWAP : Z := 0x400000.
Definition MEM_SWAP_COND : Z := 0x800000.
Definition PREFETCH : Z := 0x1000000.
Definition SECURE : Z := 0x10000000.
Definition PT_WALK : Z := 0x20000000.
Definition ATOMIC_RETURN_OP : Z := 0x40000000.
Definition ATOMIC_NO_RETURN_OP : Z := 0x80000000.
Definition STICKY_FLAGS : Z := INST_FETCH.

Definition SCOPE_VALID : Z := 0x1.
Definition WAVEFRONT_SCOPE : Z := 0x2.
Definition WORKGROUP_SCOPE : Z := 0x4.
Definition DEVICE_SCOPE : Z := 0x8.
Definition SYSTEM_SCOPE : Z := 0x10.
Definition GLOBAL_SEGMENT : Z := 0x20.
Definition GROUP_SEGMENT : Z := 0x40.
Definition PRIVATE_SEGMENT : Z := 0x80.
Definition KERNARG_SEGMENT : Z := 0x100.
Definition READONLY_SEGMENT : Z := 0x200.
Definition SPILL_SEGMENT : Z := 0x400.
Definition ARG_SEGMENT : Z := 0x800.

(** The bits of [privateFlags]. *)
Definition VALID_SIZE : Z := 0x1.
Definition VALID_PADDR : Z := 0x2.
Definition VALID_VADDR : Z := 0x4.
Definition VALID_INST_SEQ_NUM : Z := 0x8.
Definition VALID_PC : Z := 0x10.
Definition VALID_CONTEXT_ID : Z := 0x20.
Definition VALID_EXTRA_DATA : Z := 0x80.
Definition STICKY_PRIVATE_FLAGS : Z := VALID_CONTEXT_ID.

Definition invldMasterId : Z := 2 ^ 16 - 1.
Definition TaskId_Unknown : Z := 1024.

Record Request := mkRequest {
  _paddr : Z;
  _size : Z;
  _masterId : Z;
  _flags : Z;
  _memSpaceConfigFlags : Z;
  privateFlags : Z;
  _time : Z;
  _taskId : Z;
  _asid : Z;
  _vaddr : Z;
  _extraData : Z;
  _contextId : Z;
  _pc : Z;
  _reqInstSeqNum : Z;
  atomicOpFunctor : option positive;
  translateDelta : Z;
  accessDelta : Z;
  depth : Z
}.

Definition with_paddr (x : Z) (r : Request) : Request :=
  mkRequest x (_size r) (_masterId r) (_flags r) (_memSpaceConfigFlags r) (privateFlags r)
    (_time r) (_taskId r) (_asid r) (_vaddr r) (_extraData r) (_contextId r) (_pc r)
    (_reqInstSeqNum r) (atomicOpFunctor r) (translateDelta r) (accessDelta r) (depth r).

Definition with_size (x : Z) (r : Request) : Request :=
  mkRequest (_paddr r) x (_masterId r) (_flags r) (_memSpaceConfigFlags r) (privateFlags r)
    (_time r) (_taskId r) (_asid r) (_vaddr r) (_extraData r) (_contextId r) (_pc r)
    (_reqInstSeqNum r) (atomicOpFunctor r) (translateDelta r) (accessDelta r) (depth r).

Definition with_flags (x : Z) (r : Request) : Request :=
  mkRequest (_paddr r) (_size r) (_masterId r) x (_memSpaceConfigFlags r) (privateFlags r)
    (_time r) (_taskId r) (_asid r) (_vaddr r) (_extraData r) (_contextId r) (_pc r)
    (_reqInstSeqNum r) (atomicOpFunctor r) (translateDelta r) (accessDelta r) (depth r).

Definition with_memSpaceConfigFlags (x : Z) (r : Request) : Request :=
  mkRequest (_paddr r) (_size r) (_masterId r) (_flags r) x (privateFlags r) (_time r)
    (_taskId r) (_asid r) (_vaddr r) (_extraData r) (_contextId r) (_pc r)
    (_reqInstSeqNum r) (atomicOpFunctor r) (translateDelta r) (accessDelta r) (depth r).

Definition with_privateFlags (x : Z) (r : Request) : Request :=
  mkRequest (_paddr r) (_size r) (_masterId r) (_flags r) (_memSpaceConfigFlags r) x
    (_time r) (_taskId r) (_asid r) (_vaddr r) (_extraData r) (_contextId r) (_pc r)
    (_reqInstSeqNum r) (atomicOpFunctor r) (translateDelta r) (accessDelta r) (depth r).

Definition with_taskId (x : Z) (r : Request) : Request :=
  mkRequest (_paddr r) (_size r) (_masterId r) (_flags r) (_memSpaceConfigFlags r)
    (privateFlags r) (_time r) x (_asid r) (_vaddr r) (_extraData r) (_contextId r) (_pc r)
    (_reqInstSeqNum r) (atomicOpFunctor r) (translateDelta r) (accessDelta r) (depth r).

Definition with_asid (x : Z) (r : Request) : Request :=
  mkRequest (_paddr r) (_size r) (_masterId r) (_flags r) (_memSpaceConfigFlags r)
    (privateFlags r) (_time r) (_taskId r) x (_vaddr r) (_extraData r) (_contextId r)
    (_pc r) (_reqInstSeqNum r) (atomicOpFunctor r) (translateDelta r) (accessDelta r)
    (depth r).

Definition with_vaddr (x : Z) (r : Request) : Request :=
  mkRequest (_paddr r) (_size r) (_masterId r) (_flags r) (_memSpaceConfigFlags r)
    (privateFlags r) (_time r) (_taskId r) (_asid r) x (_extraData r) (_contextId r) (_pc r)
    (_reqInstSeqNum r) (atomicOpFunctor r) (translateDelta r) (accessDelta r) (depth r).

Definition with_extraData (x : Z) (r : Request) : Request :=
  mkRequest (_paddr r) (_size r) (_masterId r) (_flags r) (_memSpaceConfigFlags r)
    (privateFlags r) (_time r) (_taskId r) (_asid r) (_vaddr r) x (_contextId r) (_pc r)
    (_reqInstSeqNum r) (atomicOpFunctor r) (translateDelta r) (accessDelta r) (depth r).

Definition with_contextId (x : Z) (r : Request) : Request :=
  mkRequest (_paddr r) (_size r) (_masterId r) (_flags r) (_memSpaceConfigFlags r)
    (privateFlags r) (_time r) (_taskId r) (_asid r) (_vaddr r) (_extraData r) x (_pc r)
    (_reqInstSeqNum r) (atomicOpFunctor r) (translateDelta r) (accessDelta r) (depth r).

Definition with_pc (x : Z) (r : Request) : Request :=
  mkRequest (_paddr r) (_size r) (_masterId r) (_flags r) (_memSpaceConfigFlags r)
    (privateFlags r) (_time r) (_taskId r) (_asid r) (_vaddr r) (_extraData r)
    (_contextId r) x (_reqInstSeqNum r) (atomicOpFunctor r) (translateDelta r)
    (accessDelta r) (depth r).

Definition with_reqInstSeqNum (x : Z) (r : Request) : Request :=
  mkRequest (_paddr r) (_size r) (_masterId r) (_flags r) (_memSpaceConfigFlags r)
    (privateFlags r) (_time r) (_taskId r) (_asid r) (_vaddr r) (_extraData r)
    (_contextId r) (_pc r) x (atomicOpFunctor r) (translateDelta r) (accessDelta r)
    (depth r).

Definition with_translateDelta (x : Z) (r : Request) : Request :=
  mkRequest (_paddr r) (_size r) (_masterId r) (_flags r) (_memSpaceConfigFlags r)
    (privateFlags r) (_time r) (_taskId r) (_asid r) (_vaddr r) (_extraData r)
    (_contextId r) (_pc r) (_reqInstSeqNum r) (atomicOpFunctor r) x (accessDelta r)
    (depth r).

Definition with_accessDelta (x : Z) (r : Request) : Request :=
  mkRequest (_paddr r) (_size r) (_masterId r) (_flags r) (_memSpaceConfigFlags r)
    (privateFlags r) (_time r) (_taskId r) (_asid r) (_vaddr r) (_extraData r)
    (_contextId r) (_pc r) (_reqInstSeqNum r) (atomicOpFunctor r) (translateDelta r) x
    (depth r).

Definition with_depth (x : Z) (r : Request) : Request :=
  mkRequest (_paddr r) (_size r) (_masterId r) (_flags r) (_memSpaceConfigFlags r)
    (privateFlags r) (_time r) (_taskId r) (_asid r) (_vaddr r) (_extraData r)
    (_contextId r) (_pc r) (_reqInstSeqNum r) (atomicOpFunctor r) (translateDelta r)
    (accessDelta r) x.

(** [Request()], the minimal constructor. *)
Definition newRequest : Request :=
  mkRequest 0 0 invldMasterId 0 0 0 0 TaskId_Unknown 0 0 0 0 0 0 None 0 0 0.

(** The two reset statements of [setPhys] and [setVirt]. *)
Definition reset_flags (old flags : Z) : Z :=
  Flags.set (Flags.clear 32 old (bnot 32 STICKY_FLAGS)) flags.
Definition reset_private (old flags : Z) : Z :=
  Flags.set (Flags.clear 8 old (bnot 8 STICKY_PRIVATE_FLAGS)) flags.

(** [setPhys] leaves [translateDelta] as it is. *)
Definition setPhys (paddr size flags mid time : Z) (r : Request) : Request :=
  mkRequest paddr size mid (reset_flags (_flags r) flags) (_memSpaceConfigFlags r)
    (reset_private (privateFlags r) (Z.lor VALID_PADDR VALID_SIZE)) time (_taskId r)
    (_asid r) (_vaddr r) (_extraData r) (_contextId r) (_pc r) (_reqInstSeqNum r)
    (atomicOpFunctor r) (translateDelta r) 0 0.

Definition setContext (context_id : Z) (r : Request) : Request :=
  with_privateFlags (Flags.set (privateFlags r) VALID_CONTEXT_ID)
    (with_contextId context_id r).

Definition setVirt (curTick asid vaddr size flags mid pc : Z) (r : Request) : Request :=
  mkRequest (_paddr r) size mid (reset_flags (_flags r) flags) (_memSpaceConfigFlags r)
    (reset_private (privateFlags r) (Z.lor (Z.lor VALID_VADDR VALID_SIZE) VALID_PC)) curTick
    (_taskId r) asid vaddr (_extraData r) (_contextId r) pc (_reqInstSeqNum r)
    (atomicOpFunctor r) 0 0 0.

Definition newPhys (curTick paddr size flags mid : Z) : Request :=
  setPhys paddr size flags mid curTick newRequest.

Definition newPhysSeq (curTick paddr size flags mid seq_num cid : Z) : Request :=
  let r := setPhys paddr size flags mid curTick (with_reqInstSeqNum seq_num newRequest) in
  let r := setContext cid r in
  with_privateFlags (Flags.set (privateFlags r) VALID_INST_SEQ_NUM) r.

Definition newPhysTime (paddr size flags mid time : Z) : Request :=
  setPhys paddr size flags mid time newRequest.

Definition newPhysPC (paddr size flags mid time pc : Z) : Request :=
  let r := setPhys paddr size flags mid time (with_pc pc newRequest) in
  with_privateFlags (Flags.set (privateFlags r) VALID_PC) r.

Definition newVirt (curTick asid vaddr size flags mid pc cid : Z) : Request :=
  setContext cid (setVirt curTick asid vaddr size flags mid pc newRequest).

Definition setPaddr (paddr : Z) (r : Request) : Request :=
  with_privateFlags (Flags.set (privateFlags r) VALID_PADDR) (with_paddr paddr r).

(** The sizes are [unsigned], so the difference of addresses is truncated to 32 bits. *)
Definition splitOnVaddr (split_addr : Z) (r : Request) : res (Request * Request) :=
  _ ← assert_ (Flags.isSet (privateFlags r) VALID_VADDR);
  _ ← assert_ (Flags.noneSet (privateFlags r) VALID_PADDR);
  _ ← assert_ ((_vaddr r <? split_addr) && (split_addr <? u64 (_vaddr r + _size r)));
  let req1 := with_size (u32 (split_addr - _vaddr r)) r in
  let req2 := with_vaddr split_addr r in
  let req2 := with_size (u32 (_size r - _size req1)) req2 in
  Ok (req1, req2).

Definition hasPaddr (r : Request) : bool := Flags.isSet (privateFlags r) VALID_PADDR.
Definition getPaddr (r : Request) : res Z :=
  _ ← assert_ (Flags.isSet (privateFlags r) VALID_PADDR); Ok (_paddr r).
Definition hasSize (r : Request) : bool := Flags.isSet (privateFlags r) VALID_SIZE.
Definition getSize (r : Request) : res Z :=
  _ ← assert_ (Flags.isSet (privateFlags r) VALID_SIZE); Ok (_size r).
Definition time (r : Request) : res Z :=
  _ ← assert_ (Flags.isSet (privateFlags r) (Z.lor VALID_PADDR VALID_VADDR)); Ok (_time r).
Definition hasAtomicOpFunctor (r : Request) : bool := bool_decide (is_Some (atomicOpFunctor r)).
Definition getAtomicOpFunctor (r : Request) : res (option positive) :=
  _ ← assert_ (bool_decide (is_Some (atomicOpFunctor r))); Ok (atomicOpFunctor r).
Definition getFlags (r : Request) : res Z :=
  _ ← assert_ (Flags.isSet (privateFlags r) (Z.lor VALID_PADDR VALID_VADDR)); Ok (_flags r).
Definition setFlags (flags : Z) (r : Request) : res Request :=
  _ ← assert_ (Flags.isSet (privateFlags r) (Z.lor VALID_PADDR VALID_VADDR));
  Ok (with_flags (Flags.set (_flags r) flags) r).
Definition setMemSpaceConfigFlags (extraFlags : Z) (r : Request) : res Request :=
  _ ← assert_ (Flags.isSet (privateFlags r) (Z.lor VALID_PADDR VALID_VADDR));
  Ok (with_memSpaceConfigFlags (Flags.set (_memSpaceConfigFlags r) extraFlags) r).
Definition hasVaddr (r : Request) : bool := Flags.isSet (privateFlags r) VALID_VADDR.
Definition getVaddr (r : Request) : res Z :=
  _ ← assert_ (Flags.isSet (privateFlags r) VALID_VADDR); Ok (_vaddr r).
Definition masterId (r : Request) : Z := _masterId r.
Definition taskId (r : Request) : Z := _taskId r.
Definition set_taskId (id : Z) (r : Request) : Request := with_taskId id r.
Definition getAsid (r : Request) : res Z :=
  _ ← assert_ (Flags.isSet (privateFlags r) VALID_VADDR); Ok (_asid r).
Definition setAsid (asid : Z) (r : Request) : Request := with_asid asid r.
Definition getArchFlags (r : Request) : res Z :=
  _ ← assert_ (Flags.isSet (privateFlags r) (Z.lor VALID_PADDR VALID_VADDR));
  Ok (u8 (Z.land (_flags r) ARCH_BITS)).
Definition extraDataValid (r : Request) : bool := Flags.isSet (privateFlags r) VALID_EXTRA_DATA.
Definition getExtraData (r : Request) : res Z :=
  _ ← assert_ (Flags.isSet (privateFlags r) VALID_EXTRA_DATA); Ok (_extraData r).
Definition setExtraData (extraData : Z) (r : Request) : Request :=
  with_privateFlags (Flags.set (privateFlags r) VALID_EXTRA_DATA) (with_extraData extraData r).
Definition hasContextId (r : Request) : bool := Flags.isSet (privateFlags r) VALID_CONTEXT_ID.
Definition contextId (r : Request) : res Z :=
  _ ← assert_ (Flags.isSet (privateFlags r) VALID_CONTEXT_ID); Ok (_contextId r).
Definition setPC (pc : Z) (r : Request) : Request :=
  with_pc pc (with_privateFlags (Flags.set (privateFlags r) VALID_PC) r).
Definition hasPC (r : Request) : bool := Flags.isSet (privateFlags r) VALID_PC.
Definition getPC (r : Request) : res Z :=
  _ ← assert_ (Flags.isSet (privateFlags r) VALID_PC); Ok (_pc r).
(** [depth] is an [int]; its overflow, undefined in C++, is not reached. *)
Definition incAccessDepth (r : Request) : Request := with_depth (depth r + 1) r.
Definition getAccessDepth (r : Request) : Z := depth r.
Definition setTranslateLatency (curTick : Z) (r : Request) : Request :=
  with_translateDelta (u64 (curTick - _time r)) r.
Definition getTranslateLatency (r : Request) : Z := translateDelta r.
Definition setAccessLatency (curTick : Z) (r : Request) : Request :=
  with_accessDelta (u64 (curTick - _time r - translateDelta r)) r.
Definition getAccessLatency (r : Request) : Z := accessDelta r.
Definition hasInstSeqNum (r : Request) : bool := Flags.isSet (privateFlags r) VALID_INST_SEQ_NUM.
Definition getReqInstSeqNum (r : Request) : res Z :=
  _ ← assert_ (Flags.isSet (privateFlags r) VALID_INST_SEQ_NUM); Ok (_reqInstSeqNum r).
Definition setReqInstSeqNum (seq_num : Z) (r : Request) : Request :=
  with_reqInstSeqNum seq_num
    (with_privateFlags (Flags.set (privateFlags r) VALID_INST_SEQ_NUM) r).

Definition isUncacheable (r : Request) : bool := Flags.isSet (_flags r) UNCACHEABLE.
Definition isStrictlyOrdered (r : Request) : bool := Flags.isSet (_flags r) STRICT_ORDER.
Definition isInstFetch (r : Request) : bool := Flags.isSet (_flags r) INST_FETCH.
Definition isPrefetch (r : Request) : bool := Flags.isSet (_flags r) PREFETCH.
Definition isLLSC (r : Request) : bool := Flags.isSet (_flags r) LLSC.
Definition isPriv (r : Request) : bool := Flags.isSet (_flags r) PRIVILEGED.
Definition isLockedRMW (r : Request) : bool := Flags.isSet (_flags r) LOCKED_RMW.
Definition isSwap (r : Request) : bool := Flags.isSet (_flags r) (Z.lor MEM_SWAP MEM_SWAP_COND).
Definition isCondSwap (r : Request) : bool := Flags.isSet (_flags r) MEM_SWAP_COND.
Definition isMmappedIpr (r : Request) : bool := Flags.isSet (_flags r) MMAPPED_IPR.
Definition isSecure (r : Request) : bool := Flags.isSet (_flags r) SECURE.
Definition isPTWalk (r : Request) : bool := Flags.isSet (_flags r) PT_WALK.
Definition isAcquire (r : Request) : bool := Flags.isSet (_flags r) ACQUIRE.
Definition isRelease (r : Request) : bool := Flags.isSet (_flags r) RELEASE.
Definition isKernel (r : Request) : bool := Flags.isSet (_flags r) KERNEL.
Definition isAtomicReturn (r : Request) : bool := Flags.isSet (_flags r) ATOMIC_RETURN_OP.
Definition isAtomicNoReturn (r : Request) : bool := Flags.isSet (_flags r) ATOMIC_NO_RETURN_OP.
Definition isAtomic (r : Request) : bool :=
  Flags.isSet (_flags r) ATOMIC_RETURN_OP || Flags.isSet (_flags r) ATOMIC_NO_RETURN_OP.

Definition isScoped (r : Request) : bool := Flags.isSet (_memSpaceConfigFlags r) SCOPE_VALID.
Definition isWavefrontScope (r : Request) : res bool :=
  _ ← assert_ (isScoped r); Ok (Flags.isSet (_memSpaceConfigFlags r) WAVEFRONT_SCOPE).
Definition isWorkgroupScope (r : Request) : res bool :=
  _ ← assert_ (isScoped r); Ok (Flags.isSet (_memSpaceConfigFlags r) WORKGROUP_SCOPE).
Definition isDeviceScope (r : Request) : res bool :=
  _ ← assert_ (isScoped r); Ok (Flags.isSet (_memSpaceConfigFlags r) DEVICE_SCOPE).
Definition isSystemScope (r : Request) : res bool :=
  _ ← assert_ (isScoped r); Ok (Flags.isSet (_memSpaceConfigFlags r) SYSTEM_SCOPE).
Definition isGroupSegment (r : Request) : bool := Flags.isSet (_memSpaceConfigFlags r) GROUP_SEGMENT.
Definition isPrivateSegment (r : Request) : bool := Flags.isSet (_memSpaceConfigFlags r) PRIVATE_SEGMENT.
Definition isKernargSegment (r : Request) : bool := Flags.isSet (_memSpaceConfigFlags r) KERNARG_SEGMENT.
Definition isReadonlySegment (r : Request) : bool := Flags.isSet (_memSpaceConfigFlags r) READONLY_SEGMENT.
Definition isSpillSegment (r : Request) : bool := Flags.isSet (_memSpaceConfigFlags r) SPILL_SEGMENT.
Definition isArgSegment (r : Request) : bool := Flags.isSet (_memSpaceConfigFlags r) ARG_SEGMENT.
Definition isGlobalSegment (r : Request) : bool :=
  Flags.isSet (_memSpaceConfigFlags r) GLOBAL_SEGMENT ||
  (negb (isGroupSegment r) && negb (isPrivateSegment r) && negb (isKernargSegment r) &&
   negb (isReadonlySegment r) && negb (isSpillSegment r) && negb (isArgSegment r)).


(** The fields a split leaves alone. *)
Definition same_but_range (r r' : Request) : Prop :=
  ∀ sz va, with_size sz (with_vaddr va r) = with_size sz (with_vaddr va r').

(** The bytes of the virtual range of a request. *)
Definition covers (r : Request) (a : Z) : Prop := _vaddr r ≤ a < _vaddr r + _size r.

(** [splitOnVaddr] succeeds exactly on an untranslated virtual request and a split
    address strictly inside it, and its two requests partition the original: neither is
    empty, a byte address belongs to the original range iff it belongs to exactly one of the
    halves, the first half ends at the split address and the second starts there, and
    everything else (flags, context, PC, task, latencies) is copied. *)
Theorem splitOnVaddr_partitions (r : Request) (split_addr : Z) :
  in_width 32 (_size r) → in_width 64 (_vaddr r) → _vaddr r + _size r < 2 ^ 64 →
  hasVaddr r = true → hasPaddr r = false →
  (_vaddr r < split_addr < _vaddr r + _size r ↔ is_ok (splitOnVaddr split_addr r) = true) ∧
  (∀ req1 req2, splitOnVaddr split_addr r = Ok (req1, req2) →
     0 < _size req1 ∧ 0 < _size req2 ∧
     _vaddr req1 + _size req1 = split_addr ∧ _vaddr req2 = split_addr ∧
     (∀ a, covers r a ↔ covers req1 a ∨ covers req2 a) ∧
     (∀ a, ¬ (covers req1 a ∧ covers req2 a)) ∧
     same_but_range r req1 ∧ same_but_range r req2).
Proof.
  intros Hs Hv Hend Hhv Hhp. unfold splitOnVaddr.
  rewrite (bind_assert (Flags.isSet _ _)) by done.
  rewrite (bind_assert (Flags.noneSet _ _)) by
    (rewrite Flags.noneSet_isSet; unfold hasPaddr in Hhp; by rewrite Hhp).
  unfold in_width in *. rewrite (wrap_small 64) by (unfold in_width; lia).
  destruct (Z.ltb_spec (_vaddr r) split_addr) as [Hlo|Hlo];
    [destruct (Z.ltb_spec split_addr (_vaddr r + _size r)) as [Hhi|Hhi]|]; simpl.
  2,3: split; [split; [lia|done]|naive_solver].
  split; [split; [done|lia]|].
  intros req1 req2 [= <- <-]. unfold covers, same_but_range. simpl.
  rewrite !(wrap_small 32) by (unfold in_width; rewrite ?wrap_small; unfold in_width; lia).
  splits.
Qed.

Lemma splitOnVaddr_partitions_witness :
  is_ok (splitOnVaddr 0x1040 (newVirt 5 0 0x103c 8 0 3 0x2000 1)) = true.
Proof.
  destruct (splitOnVaddr_partitions (newVirt 5 0 0x103c 8 0 3 0x2000 1) 0x1040) as [Hok _];
    [vm_compute; split; congruence..|reflexivity|reflexivity|reflexivity|].
  apply Hok. vm_compute. split; congruence.
Defined.

End Request.
