(* ===== verification/PacketProofs.v ===== *)
(** * Packets: proofs

    The theorems about [Packet]: functional accesses, responses, payload copies and the
    sender-state stack. *)

From stdpp Require Import strings.
From S2P Require Import Prelude MemCmd Packet.

Open Scope Z_scope.

Module PacketProofs.
Import Host SenderStates Packet.
#[local] Existing Instance MemCmd.Command_eq_dec.

(** ** The loops over [bytesValid] *)

Lemma all_valid_spec n i bv all :
  0 ≤ i → i + Z.of_nat n ≤ vsize bv →
  ∃ b, all_valid n i bv all = Ok b ∧
    (b = true ↔ all = true ∧ ∀ j, i ≤ j < i + Z.of_nat n → bv !! Z.to_nat j = Some true).
Proof.
  revert i all. induction n as [|n IH]; intros i all Hi Hn.
  { exists all. split; [done|]. split; [|naive_solver]. intros ->. split; [done|]. lia. }
  destruct all; simpl; [|exists false; naive_solver].
  destruct (vread_ok bv i) as (x & Hx & Hbx); [lia|]. rewrite Hx. cbn [mbind res_bind].
  destruct (IH (i + 1) x) as (b & Hb & Hiff); [lia..|].
  exists b. split; [done|]. rewrite Hiff. split.
  - intros [-> Hj]. split; [done|]. intros j Hji. destruct (decide (j = i)) as [->|]; [done|].
    apply Hj. lia.
  - intros [_ Hj]. split.
    + assert (bv !! Z.to_nat i = Some true) as Ht by (apply Hj; lia). congruence.
    + intros j Hji. apply Hj. lia.
Qed.

Lemma mark_valid_spec n i bv :
  0 ≤ i → i + Z.of_nat n ≤ vsize bv →
  ∃ bv', mark_valid n i bv = Ok bv' ∧ vsize bv' = vsize bv ∧
    ∀ j, 0 ≤ j → bv' !! Z.to_nat j =
      if (i <=? j) && (j <? i + Z.of_nat n) then Some true else bv !! Z.to_nat j.
Proof.
  revert i bv. induction n as [|n IH]; intros i bv Hi Hn.
  { exists bv. split; [done|]. split; [done|]. intros j Hj.
    destruct (Z.leb_spec i j), (Z.ltb_spec j (i + Z.of_nat 0)); done || lia. }
  cbn [mark_valid]. rewrite vwrite_ok by lia. cbn [mbind res_bind].
  destruct (IH (i + 1) (<[Z.to_nat i := true]> bv)) as (bv' & Hm & Hs & Hj);
    [lia|rewrite vsize_insert; lia|].
  exists bv'. split; [done|]. split; [by rewrite Hs, vsize_insert|].
  intros j Hj0. rewrite Hj by done.
  destruct (decide (j = i)) as [->|Hne].
  - destruct (Z.leb_spec (i + 1) i), (Z.leb_spec i i), (Z.ltb_spec i (i + Z.of_nat (S n))); try lia.
    simpl. apply list_lookup_insert_eq. unfold vsize in Hn. lia.
  - rewrite list_lookup_insert_ne by lia.
    destruct (Z.leb_spec (i + 1) j), (Z.leb_spec i j), (Z.ltb_spec j (i + 1 + Z.of_nat n)),
      (Z.ltb_spec j (i + Z.of_nat (S n))); done || lia.
Qed.

(** ** Functional reads *)

(** A value [checkFunctional] is called with: an in-flight packet or a cache block. *)
Record value := mkValue { v_addr : Z; v_secure : bool; v_size : Z; v_data : ptr }.

Definition range_ok (a n : Z) : Prop := 0 < n < 2 ^ 31 ∧ 0 ≤ a ∧ a + n ≤ 2 ^ 64.

(** A packet [checkFunctional] may be called on: it has an address, a size and a payload
    array of that size, and the tracking vector is empty or of that size. *)
Record functional_packet (h : mem) (p : Packet) : Prop := {
  fp_addr : Flags.isSet (flags p) VALID_ADDR = true;
  fp_size : Flags.isSet (flags p) VALID_SIZE = true;
  fp_data : Flags.isSet (flags p) DATA_FLAGS = true;
  fp_print : isPrint p = false;
  fp_range : range_ok (addr p) (size p);
  fp_mem : valid h (data p) (size p);
  fp_valid : bytesValid p = [] ∨ vsize (bytesValid p) = size p
}.

(** A value that may be offered to the packet: readable memory of the given size, not the
    packet's own payload. *)
Record functional_value (h : mem) (p : Packet) (v : value) : Prop := {
  fv_range : range_ok (v_addr v) (v_size v);
  fv_mem : valid h (v_data v) (v_size v);
  fv_sep : separate (data p) (v_data v)
}.

(** The address ranges meet, in the same memory space. *)
Definition intersects (p : Packet) (v : value) : bool :=
  Bool.eqb (v_secure v) (_isSecure p) &&
  (addr p <? v_addr v + v_size v) && (v_addr v <? addr p + size p).

Definition check print (v : value) := checkFunctional print (v_addr v) (v_secure v) (v_size v) (v_data v).

(** The part of the packet, as offsets, that one call copies. *)
Definition copied (p : Packet) (v : value) : Z * Z :=
  if (v_addr v <=? addr p) && (addr p + size p <=? v_addr v + v_size v) then (0, size p)
  else if v_addr v <? addr p then (0, v_addr v + v_size v - 1 - addr p)
  else if addr p + size p <? v_addr v + v_size v then (v_addr v - addr p, size p - 1)
  else (v_addr v - addr p, v_addr v - addr p + v_size v).

Definition contained (p : Packet) (v : value) : bool :=
  (v_addr v <=? addr p) && (addr p + size p <=? v_addr v + v_size v).

(** The tracking vector a call starts from. *)
Definition tracked (p : Packet) : list bool :=
  match bytesValid p with [] => replicate (Z.to_nat (size p)) false | _ => bytesValid p end.

Lemma to_int_small x : - 2 ^ 31 ≤ x < 2 ^ 31 → to_int x = x.
Proof. intros. unfold to_int. rewrite wrap_small; unfold in_width; lia. Qed.

Lemma tracked_size h p : functional_packet h p → vsize (tracked p) = size p.
Proof.
  intros Hp. unfold tracked. destruct (fp_valid h p Hp) as [->|Hs].
  - apply vsize_replicate. destruct (fp_range h p Hp). lia.
  - destruct (bytesValid p); [|done]. rewrite <- Hs. done.
Qed.

(** A call that finds no intersection does nothing. *)
Lemma check_miss print h ss p v :
  functional_packet h p → functional_value h p v → intersects p v = false →
  check print v h ss p = Ok (false, h, ss, p).
Proof.
  intros Hp Hv. unfold intersects, check, checkFunctional, getAddr, getSize.
  rewrite (fp_addr h p Hp), (fp_size h p Hp). cbn [mbind res_bind assert_].
  destruct (fp_range h p Hp) as (Hn & Ha & Hna), (fv_range h p v Hv) as (Hs & Hva & Hvs).
  rewrite !(wrap_small 64) by (unfold in_width; lia).
  destruct (Bool.eqb _ _); [|done]. cbn [negb orb andb].
  destruct (Z.ltb_spec (addr p) (v_addr v + v_size v)), (Z.ltb_spec (v_addr v) (addr p + size p));
    cbn [andb]; try done; intros _;
    destruct (Z.ltb_spec (v_addr v + v_size v - 1) (addr p)),
      (Z.ltb_spec (addr p + size p - 1) (v_addr v)); done || lia.
Qed.

Lemma data_not_null h p v : functional_value h p v → bool_decide (v_data v = None) = false.
Proof.
  intros Hv. apply bool_decide_eq_false_2. destruct (fv_mem h p v Hv) as (b & o & l & -> & _). done.
Qed.

(** The beginning of a call on a packet that intersects the value. *)
Lemma check_hit print h ss p v :
  functional_packet h p → functional_value h p v → intersects p v = true →
  check print v h ss p =
    let fs := addr p in let fe := addr p + size p - 1 in
    let vs := v_addr v in let ve := v_addr v + v_size v - 1 in
    if isRead p then
      if contained p v then
        h ← memcpy (data p) (padd (v_data v) (fs - vs)) (size p) h;
        Ok (true, h, ss, match bytesValid p with
                         | [] => with_bytesValid (replicate (Z.to_nat (size p)) true) p
                         | _ => p end)
      else
        '(func_offset, val_offset, overlap_size) ← partial_overlap fs fe vs ve (v_size v);
        '(r, h, p) ← read_partial func_offset val_offset overlap_size (v_data v) h p;
        Ok (r, h, ss, p)
    else if isWrite p then
      if vs <=? fs then
        h ← memcpy (padd (v_data v) (fs - vs)) (data p) (Z.min fe ve - fs + 1) h;
        Ok (false, h, ss, p)
      else
        h ← memcpy (v_data v) (padd (data p) (vs - fs)) (Z.min fe ve - vs + 1) h;
        Ok (false, h, ss, p)
    else Fail Panicked.
Proof.
  intros Hp Hv Hi. unfold check, checkFunctional, getAddr, getSize, getPtr, getConstPtr.
  rewrite (fp_addr h p Hp), (fp_size h p Hp), (fp_data h p Hp). cbn [mbind res_bind assert_].
  destruct (fp_range h p Hp) as (Hn & Ha & Hna), (fv_range h p v Hv) as (Hs & Hva & Hvs).
  unfold intersects in Hi. rewrite !andb_true_iff, !Z.ltb_lt in Hi. destruct Hi as [[-> Hlt1] Hlt2].
  rewrite (fp_print h p Hp), (data_not_null h p v Hv).
  rewrite !(wrap_small 64) by (unfold in_width; lia).
  rewrite to_int_small by lia. cbn [negb orb].
  destruct (Z.ltb_spec (v_addr v + v_size v - 1) (addr p)); [lia|].
  destruct (Z.ltb_spec (addr p + size p - 1) (v_addr v)); [lia|]. cbn [orb].
  unfold contained. cbv zeta.
  replace (addr p + size p - 1 <=? v_addr v + v_size v - 1)
    with (addr p + size p <=? v_addr v + v_size v)
    by (destruct (Z.leb_spec (addr p + size p) (v_addr v + v_size v)),
          (Z.leb_spec (addr p + size p - 1) (v_addr v + v_size v - 1)); done || lia).
  destruct (isRead p); [done|]. destruct (isWrite p); [|done].
  destruct (Z.leb_spec 0 (addr p - v_addr v)), (Z.leb_spec (v_addr v) (addr p)); try lia; [done|].
  do 3 f_equal. lia.
Qed.

(** [partial_overlap] computes the bounds of [copied]. *)
Lemma partial_overlap_copied h p v :
  functional_packet h p → functional_value h p v → intersects p v = true →
  contained p v = false →
  partial_overlap (addr p) (addr p + size p - 1) (v_addr v) (v_addr v + v_size v - 1) (v_size v) =
    Ok ((copied p v).1, (copied p v).1 + addr p - v_addr v, (copied p v).2 - (copied p v).1).
Proof.
  intros Hp Hv Hi Hc.
  destruct (fp_range h p Hp) as (Hn & Ha & Hna), (fv_range h p v Hv) as (Hs & Hva & Hvs).
  unfold intersects in Hi. rewrite !andb_true_iff, !Z.ltb_lt in Hi. destruct Hi as [[_ Hlt1] Hlt2].
  unfold partial_overlap, copied. fold (contained p v). rewrite Hc.
  unfold contained in Hc.
  destruct (Z.leb_spec (v_addr v) (addr p)), (Z.leb_spec (addr p + size p) (v_addr v + v_size v));
    try done; clear Hc;
    destruct (Z.ltb_spec (v_addr v) (addr p)),
      (Z.leb_spec (v_addr v + v_size v - 1) (addr p + size p - 1)),
      (Z.leb_spec (addr p) (v_addr v)), (Z.ltb_spec (addr p + size p - 1) (v_addr v + v_size v - 1)),
      (Z.ltb_spec (addr p + size p) (v_addr v + v_size v)); try lia; cbn [andb fst snd];
    (apply (f_equal Ok), f_equal2; [apply f_equal2|]; rewrite ?to_int_small by lia; lia).
Qed.

(** The bounds of [copied] lie inside both arrays. *)
Lemma copied_bounds h p v lo hi :
  functional_packet h p → functional_value h p v → intersects p v = true →
  copied p v = (lo, hi) →
  0 ≤ lo ≤ hi ∧ hi ≤ size p ∧ v_addr v ≤ addr p + lo ∧ addr p + hi ≤ v_addr v + v_size v.
Proof.
  intros Hp Hv Hi. unfold copied, intersects in *.
  rewrite !andb_true_iff, !Z.ltb_lt in Hi. destruct Hi as [[_ Hlt1] Hlt2].
  destruct (fp_range h p Hp) as (Hn & Ha & Hna), (fv_range h p v Hv) as (Hs & Hva & Hvs).
  destruct (Z.leb_spec (v_addr v) (addr p)), (Z.leb_spec (addr p + size p) (v_addr v + v_size v));
    cbn [andb]; try (intros [= <- <-]; lia);
    destruct (Z.ltb_spec (v_addr v) (addr p)),
      (Z.ltb_spec (addr p + size p) (v_addr v + v_size v)); intros [= <- <-]; lia.
Qed.

(** The outcome of a read: the packet keeps everything but its tracking vector. *)
Record read_outcome (h : mem) (p : Packet) (v : value) (r : bool) (h' : mem) (bv : list bool) : Prop := {
  ro_in : ∀ i, (copied p v).1 ≤ i < (copied p v).2 →
    byte_at h' (data p) i = byte_at h (v_data v) (addr p + i - v_addr v);
  ro_out : ∀ i, ¬ ((copied p v).1 ≤ i < (copied p v).2) →
    byte_at h' (data p) i = byte_at h (data p) i;
  ro_frame : ∀ q i, separate (data p) q → byte_at h' q i = byte_at h q i;
  ro_valid : ∀ q k, valid h q k → valid h' q k;
  ro_size : vsize bv = size p;
  ro_bv : contained p v = false → ∀ j, 0 ≤ j → bv !! Z.to_nat j =
    if ((copied p v).1 <=? j) && (j <? (copied p v).2) then Some true else tracked p !! Z.to_nat j;
  ro_done : contained p v = false →
    (r = true ↔ ∀ j, 0 ≤ j < size p → bv !! Z.to_nat j = Some true);
  ro_full : contained p v = true → r = true
}.

Lemma check_read print h ss p v :
  functional_packet h p → functional_value h p v → intersects p v = true → isRead p = true →
  ∃ r h' bv, check print v h ss p = Ok (r, h', ss, with_bytesValid bv p) ∧
    read_outcome h p v r h' bv.
Proof.
  intros Hp Hv Hi Hr. rewrite check_hit by done. cbv zeta. rewrite Hr.
  destruct (copied p v) as [lo hi] eqn:Hlh.
  pose proof (copied_bounds h p v lo hi Hp Hv Hi Hlh) as (Hlo & Hhi & Hvl & Hvh).
  pose proof (fp_mem h p Hp) as Hmp. pose proof (fv_mem h p v Hv) as Hmv.
  destruct (contained p v) eqn:Hc.
  - assert (lo = 0 ∧ hi = size p) as [-> ->].
    { unfold copied in Hlh. fold (contained p v) in Hlh. rewrite Hc in Hlh. by simplify_eq. }
    destruct (memcpy_spec h (data p) (padd (v_data v) (addr p - v_addr v)) (size p))
      as (h' & -> & Hin & Hout & Hfr & Hval); [done|apply (valid_padd _ _ (v_size v)); done || lia| |].
    { rewrite <- (padd_0 (data p)). apply separate_padd, (fv_sep h p v Hv). }
    cbn [mbind res_bind].
    exists true, h', (match bytesValid p with [] => replicate (Z.to_nat (size p)) true | bv => bv end).
    split; [destruct p as [? ? ? ? ? ? ? []]; done|].
    constructor; rewrite ?Hlh, ?Hc; cbn [fst snd]; try done.
    + intros i Hi'. rewrite Hin by done. rewrite byte_at_padd. f_equal. lia.
    + destruct (fp_valid h p Hp) as [->|Hs]; [apply vsize_replicate; lia|].
      destruct (bytesValid p); [|done]. rewrite <- Hs. done.
  - rewrite (partial_overlap_copied h) by done. rewrite Hlh. cbn [mbind res_bind fst snd].
    unfold read_partial, getPtr, getSize.
    rewrite (fp_data h p Hp), (fp_size h p Hp). cbn [mbind res_bind assert_].
    destruct (memcpy_spec h (padd (data p) lo) (padd (v_data v) (lo + addr p - v_addr v)) (hi - lo))
      as (h' & -> & Hin & Hout & Hfr & Hval);
      [apply (valid_padd _ _ (size p)); done || lia|apply (valid_padd _ _ (v_size v)); done || lia
      |apply separate_padd, (fv_sep h p v Hv)|].
    cbn [mbind res_bind]. fold (tracked p). pose proof (tracked_size h p Hp) as Hts.
    destruct (all_valid_spec (Z.to_nat lo) 0 (tracked p) true) as (b1 & -> & Hb1); [lia..|].
    cbn [mbind res_bind].
    destruct (mark_valid_spec (Z.to_nat (hi - lo)) lo (tracked p)) as (bv & -> & Hbs & Hbv); [lia..|].
    cbn [mbind res_bind]. rewrite Z.max_r by lia.
    destruct (all_valid_spec (Z.to_nat (size p - (lo + (hi - lo)))) (lo + (hi - lo)) bv b1)
      as (r & -> & Hr2); [lia..|]. cbn [mbind res_bind].
    rewrite !Z2Nat.id in * by lia.
    exists r, h', bv. split; [done|]. constructor; rewrite ?Hlh, ?Hc; cbn [fst snd]; try done.
    + intros i Hi'. replace i with (lo + (i - lo)) at 1 by lia. rewrite <- byte_at_padd.
      rewrite Hin by lia. rewrite byte_at_padd. f_equal. lia.
    + intros i Hi'. replace i with (lo + (i - lo)) by lia. rewrite <- !byte_at_padd.
      apply Hout. lia.
    + intros q i Hq. apply Hfr. rewrite <- (padd_0 q). by apply separate_padd.
    + lia.
    + intros _ j Hj. rewrite Hbv by done. by replace (lo + (hi - lo)) with hi by lia.
    + intros _. rewrite Hr2, Hb1. replace (lo + (hi - lo)) with hi in * by lia. split.
      * intros [[_ Hl] Hh] j Hj. rewrite Hbv by lia.
        destruct (Z.leb_spec lo j), (Z.ltb_spec j hi); cbn [andb]; try done; try lia.
        -- specialize (Hh j). rewrite Hbv in Hh by lia.
           destruct (Z.leb_spec lo j), (Z.ltb_spec j hi); try lia. apply Hh. lia.
        -- apply Hl. lia.
      * intros Hall. split; [|intros j Hj; apply Hall; lia]. split; [done|]. intros j Hj.
        specialize (Hall j). rewrite Hbv in Hall by lia.
        destruct (Z.leb_spec lo j), (Z.ltb_spec j hi); try lia; apply Hall; lia.
Qed.

(** A functional access visits the components on its way and stops at the first call that
    satisfies it. *)
Fixpoint check_values print (vs : list value) (h : mem) (ss : heap) (p : Packet) :
    res (bool * mem * heap * Packet) :=
  match vs with
  | [] => Ok (false, h, ss, p)
  | v :: vs =>
      '(r, h, ss, p) ← check print v h ss p;
      if r : bool then Ok (true, h, ss, p) else check_values print vs h ss p
  end.

(** The value agrees with the memory image [M] where it is relevant for [p]. *)
Definition agrees (M : Z → Z) (h : mem) (p : Packet) (v : value) : Prop :=
  v_secure v = _isSecure p →
  ∀ k, 0 ≤ k < v_size v → byte_at h (v_data v) k = Some (M (v_addr v + k)).

(** Every byte marked as found holds the byte of the image. *)
Definition found_ok (M : Z → Z) (h : mem) (p : Packet) : Prop :=
  ∀ i, 0 ≤ i → bytesValid p !! Z.to_nat i = Some true →
    byte_at h (data p) i = Some (M (addr p + i)).

(** One call keeps what the next one needs. *)
Lemma functional_packet_step h h' p v r bv :
  functional_packet h p → read_outcome h p v r h' bv → functional_packet h' (with_bytesValid bv p).
Proof.
  intros [] Ho. constructor; try done; cbn.
  - by eapply ro_valid.
  - right. by eapply ro_size.
Qed.

Lemma functional_value_step h h' p v w r bv :
  functional_value h p w → read_outcome h p v r h' bv →
  functional_value h' (with_bytesValid bv p) w.
Proof. intros [] Ho. constructor; try done. by eapply ro_valid. Qed.

Lemma agrees_step M h h' p v w r bv :
  functional_value h p w → read_outcome h p v r h' bv → agrees M h p w →
  agrees M h' (with_bytesValid bv p) w.
Proof.
  intros [_ _ Hsep] Ho Ha Hs k Hk. rewrite (ro_frame _ _ _ _ _ _ Ho) by done. by apply Ha.
Qed.

Lemma copied_agrees M h h' p v r bv i :
  functional_packet h p → functional_value h p v → intersects p v = true →
  read_outcome h p v r h' bv → agrees M h p v →
  (copied p v).1 ≤ i < (copied p v).2 → byte_at h' (data p) i = Some (M (addr p + i)).
Proof.
  intros Hp Hv Hi Ho Ha Hr. rewrite (ro_in _ _ _ _ _ _ Ho) by done.
  destruct (copied p v) as [lo hi] eqn:Hlh. cbn [fst snd] in Hr.
  pose proof (copied_bounds h p v lo hi Hp Hv Hi Hlh) as (Hlo & Hhi & Hvl & Hvh).
  unfold intersects in Hi. rewrite !andb_true_iff in Hi. destruct Hi as [[Hs _] _].
  rewrite Ha by first [by apply Bool.eqb_prop | lia]. f_equal. f_equal. lia.
Qed.

Lemma found_ok_step M h h' p v r bv :
  functional_packet h p → functional_value h p v → intersects p v = true →
  read_outcome h p v r h' bv → agrees M h p v → contained p v = false →
  found_ok M h p → found_ok M h' (with_bytesValid bv p).
Proof.
  intros Hp Hv Hi Ho Ha Hc Hf i Hi0. cbn. rewrite (ro_bv _ _ _ _ _ _ Ho Hc) by done.
  destruct (Z.leb_spec (copied p v).1 i) as [Hl|Hl];
    [destruct (Z.ltb_spec i (copied p v).2) as [Hh|Hh]|]; cbn [andb].
  { intros _. by eapply copied_agrees. }
  all: intros Ht; rewrite (ro_out _ _ _ _ _ _ Ho) by lia; apply Hf; [done|].
  all: unfold tracked in Ht; destruct (bytesValid p); [|done].
  all: apply lookup_replicate in Ht as [? _]; done.
Qed.

(** C13: a functional read never returns wrong data.  Offer a read packet any sequence of
    values (in-flight packets, cache blocks, memories), of any position and size, each of
    which agrees with a memory image [M] if it is in the packet's memory space: no call
    fails, and when one of them reports the read as satisfied, every byte of the payload is
    the image's byte of its address.  Whether or not it is satisfied, the bytes marked in
    [bytesValid] are right, and nothing but the payload is written. *)
Theorem functional_read_sound (print : Z → string → string) (M : Z → Z) (vs : list value)
    (h : mem) (ss : heap) (p : Packet) :
  functional_packet h p → isRead p = true →
  Forall (functional_value h p) vs → Forall (agrees M h p) vs → found_ok M h p →
  ∃ r h' p', check_values print vs h ss p = Ok (r, h', ss, p') ∧
    (r = true → ∀ i, 0 ≤ i < size p → byte_at h' (data p) i = Some (M (addr p + i))) ∧
    (r = false → found_ok M h' p') ∧
    (∀ q i, separate (data p) q → byte_at h' q i = byte_at h q i) ∧
    p' = with_bytesValid (bytesValid p') p.
Proof.
  revert h p. induction vs as [|v vs IH]; intros h p Hp Hr Hvs Hag Hf.
  { exists false, h, p. splits. by destruct p. }
  apply Forall_cons in Hvs as [Hv Hvs], Hag as [Ha Hag]. cbn [check_values].
  destruct (intersects p v) eqn:Hi.
  2: { rewrite check_miss by done. cbn [mbind res_bind]. by apply IH. }
  destruct (check_read print h ss p v Hp Hv Hi Hr) as (r & h' & bv & -> & Ho).
  cbn [mbind res_bind]. destruct r.
  - exists true, h', (with_bytesValid bv p). split_and!; try done; [|by eapply ro_frame].
    intros _ i Hisz. destruct (contained p v) eqn:Hc.
    + eapply (copied_agrees M h h' p v); try done.
      unfold copied. fold (contained p v). by rewrite Hc.
    + eapply (found_ok_step M h h' p v); try done; [lia|].
      by apply (proj1 (ro_done _ _ _ _ _ _ Ho Hc)).
  - assert (contained p v = false) as Hc.
    { destruct (contained p v) eqn:Hc; [|done]. by pose proof (ro_full _ _ _ _ _ _ Ho Hc). }
    destruct (IH h' (with_bytesValid bv p)) as (r & h2 & p2 & -> & Ht & Hff & Hfr & Hp2).
    + by eapply functional_packet_step.
    + done.
    + eapply Forall_impl; [apply Hvs|]. intros w Hw. by eapply functional_value_step.
    + apply Forall_forall. intros w Hw. rewrite Forall_forall in Hvs, Hag.
      eapply agrees_step; try done; [by apply Hvs|by apply Hag].
    + by eapply found_ok_step.
    + exists r, h2, p2. split_and!; try done.
      intros q i Hq. rewrite Hfr by done. by eapply ro_frame.
Qed.

(** A functional write updates exactly the bytes of the value that the packet covers:
    each takes the packet's byte of the same address, the others and all other memory are
    unchanged, and the access goes on ([false]). *)
Theorem functional_write_updates (print : Z → string → string) (v : value)
    (h : mem) (ss : heap) (p : Packet) :
  functional_packet h p → functional_value h p v →
  isRead p = false → isWrite p = true → v_secure v = _isSecure p →
  ∃ h', check print v h ss p = Ok (false, h', ss, p) ∧
    (∀ j, 0 ≤ j < v_size v → byte_at h' (v_data v) j =
       if (addr p <=? v_addr v + j) && (v_addr v + j <? addr p + size p)
       then byte_at h (data p) (v_addr v + j - addr p)
       else byte_at h (v_data v) j) ∧
    (∀ q i, separate (v_data v) q → byte_at h' q i = byte_at h q i).
Proof.
  intros Hp Hv Hr Hw Hs.
  destruct (fp_range h p Hp) as (Hn & Ha & Hna), (fv_range h p v Hv) as (Hsz & Hva & Hvs).
  pose proof (fp_mem h p Hp) as Hmp. pose proof (fv_mem h p v Hv) as Hmv.
  pose proof (separate_sym _ _ (fv_sep h p v Hv)) as Hsep.
  destruct (intersects p v) eqn:Hi.
  2: { rewrite check_miss by done. exists h. split; [done|]. split; [|done]. intros j Hj.
       unfold intersects in Hi. rewrite Hs, Bool.eqb_reflx in Hi. cbn [andb] in Hi.
       apply andb_false_iff in Hi. rewrite !Z.ltb_ge in Hi.
       destruct (Z.leb_spec (addr p) (v_addr v + j)), (Z.ltb_spec (v_addr v + j) (addr p + size p));
         cbn [andb]; try done. lia. }
  rewrite check_hit by done. cbv zeta. rewrite Hr, Hw.
  unfold intersects in Hi. rewrite !andb_true_iff, !Z.ltb_lt in Hi. destruct Hi as [[_ Hlt1] Hlt2].
  destruct (Z.leb_spec (v_addr v) (addr p)) as [Hle|Hle].
  - destruct (memcpy_spec h (padd (v_data v) (addr p - v_addr v)) (data p)
      (Z.min (addr p + size p - 1) (v_addr v + v_size v - 1) - addr p + 1))
      as (h' & -> & Hin & Hout & Hfr & _);
      [apply (valid_padd _ _ (v_size v)); done || lia
      |rewrite <- (padd_0 (data p)); apply (valid_padd _ _ (size p)); done || lia
      |rewrite <- (padd_0 (data p)); by apply separate_padd|].
    cbn [mbind res_bind]. exists h'. split; [done|]. split.
    + intros j Hj. replace j with (addr p - v_addr v + (j - (addr p - v_addr v))) at 1 by lia.
      rewrite <- byte_at_padd.
      destruct (Z.leb_spec (addr p) (v_addr v + j)), (Z.ltb_spec (v_addr v + j) (addr p + size p));
        cbn [andb]; (rewrite Hin by lia; f_equal; lia) ||
        (rewrite Hout by lia; rewrite byte_at_padd; f_equal; lia).
    + intros q i Hq. apply Hfr. rewrite <- (padd_0 q). by apply separate_padd.
  - destruct (memcpy_spec h (v_data v) (padd (data p) (v_addr v - addr p))
      (Z.min (addr p + size p - 1) (v_addr v + v_size v - 1) - v_addr v + 1))
      as (h' & -> & Hin & Hout & Hfr & _);
      [rewrite <- (padd_0 (v_data v)); apply (valid_padd _ _ (v_size v)); done || lia
      |apply (valid_padd _ _ (size p)); done || lia
      |rewrite <- (padd_0 (v_data v)); by apply separate_padd|].
    cbn [mbind res_bind]. exists h'. split; [done|]. split; [|done].
    intros j Hj.
    destruct (Z.leb_spec (addr p) (v_addr v + j)), (Z.ltb_spec (v_addr v + j) (addr p + size p));
      cbn [andb]; try lia;
      (rewrite Hin by lia; rewrite byte_at_padd; f_equal; lia) || (rewrite Hout by lia; done).
Qed.

(** A value that overlaps only one end of a functional read supplies one byte
    less than it has: the last overlapping byte is neither copied nor marked, because the
    overlap sizes are computed from inclusive end addresses.  A read whose bytes are not
    tracked yet is therefore not satisfied by it, and two values that meet inside the read
    and cover all of it leave a hole. *)
Theorem functional_read_skips_last_byte (print : Z → string → string) (v : value)
    (h : mem) (ss : heap) (p : Packet) (last : Z) :
  functional_packet h p → functional_value h p v → isRead p = true →
  v_secure v = _isSecure p →
  (v_addr v < addr p ∧ last = v_addr v + v_size v - 1 ∧ addr p ≤ last < addr p + size p - 1 ∨
   addr p < v_addr v < addr p + size p ∧ last = addr p + size p - 1 ∧
   addr p + size p < v_addr v + v_size v) →
  ∃ r h' bv, check print v h ss p = Ok (r, h', ss, with_bytesValid bv p) ∧
    byte_at h' (data p) (last - addr p) = byte_at h (data p) (last - addr p) ∧
    bv !! Z.to_nat (last - addr p) = tracked p !! Z.to_nat (last - addr p) ∧
    (bytesValid p = [] → r = false ∧ bv !! Z.to_nat (last - addr p) = Some false).
Proof.
  intros Hp Hv Hr Hs Hlast.
  destruct (fp_range h p Hp) as (Hn & Ha & Hna), (fv_range h p v Hv) as (Hsz & Hva & Hvs).
  assert (intersects p v = true) as Hi.
  { unfold intersects. rewrite Hs, Bool.eqb_reflx, !andb_true_iff, !Z.ltb_lt. lia. }
  assert (contained p v = false) as Hc.
  { unfold contained. apply andb_false_iff. rewrite !Z.leb_gt. lia. }
  assert (¬ ((copied p v).1 ≤ last - addr p < (copied p v).2)) as Hnot.
  { unfold copied. fold (contained p v). rewrite Hc.
    destruct (Z.ltb_spec (v_addr v) (addr p)); [cbn; lia|].
    destruct (Z.ltb_spec (addr p + size p) (v_addr v + v_size v)); cbn; lia. }
  destruct (check_read print h ss p v Hp Hv Hi Hr) as (r & h' & bv & Heq & Ho).
  exists r, h', bv. split; [done|]. split; [by apply (ro_out _ _ _ _ _ _ Ho)|].
  assert (bv !! Z.to_nat (last - addr p) = tracked p !! Z.to_nat (last - addr p)) as Hbv.
  { rewrite (ro_bv _ _ _ _ _ _ Ho Hc) by lia.
    destruct (Z.leb_spec (copied p v).1 (last - addr p)),
      (Z.ltb_spec (last - addr p) (copied p v).2); cbn [andb]; done || lia. }
  split; [done|]. intros He. rewrite Hbv. unfold tracked. rewrite He.
  rewrite lookup_replicate_2 by lia. split; [|done].
  destruct r; [|done]. exfalso.
  pose proof (proj1 (ro_done _ _ _ _ _ _ Ho Hc) eq_refl (last - addr p)) as Hd.
  rewrite Hbv in Hd. unfold tracked in Hd. rewrite He, lookup_replicate_2 in Hd by lia.
  discriminate Hd. lia.
Qed.

(** ** Responses *)

(** [makeResponse] turns every request that needs a response into the response the
    command table names, and asserts on any other packet.  The response is no request, needs
    no response and is no error, so it cannot be turned into a response again; it has the
    request's direction and carries data iff the request reads.  It is never an express
    snoop, and all that the requester relies on is kept: address, size, payload, request,
    sender state and the coherence flags. *)
Theorem makeResponse_correct (p : Packet) :
  (needsResponse p = false → makeResponse p = Fail AssertFailed) ∧
  (needsResponse p = true → ∃ p', makeResponse p = Ok p' ∧
     isResponse p' = true ∧ isRequest p' = false ∧ isError p' = false ∧
     makeResponse p' = Fail AssertFailed ∧
     isRead p' = isRead p ∧ isWrite p' = isWrite p ∧ hasData p' = isRead p ∧
     isExpressSnoop p' = false ∧ hasSharers p' = hasSharers p ∧
     cacheResponding p' = cacheResponding p ∧
     responderHadWritable p' = responderHadWritable p ∧
     getAddr p' = getAddr p ∧ getSize p' = getSize p ∧ getPtr p' = getPtr p ∧
     p' = with_flags (flags p') (with_cmd (MemCmd.responseCommand (cmd p)) p)).
Proof.
  split; [intros Hn; unfold makeResponse; by rewrite Hn|]. intros Hn. unfold makeResponse.
  rewrite bind_assert by done. rewrite bind_assert by (by apply MemCmd.needsResponse_isRequest).
  eexists. split; [done|]. unfold needsResponse in Hn.
  pose proof (MemCmd.response_of _ Hn) as Hr. unfold MemCmd.request_ok in Hr.
  rewrite !andb_true_iff, !negb_true_iff, !Bool.eqb_true_iff in Hr.
  destruct Hr as [[[[[[[H1 H2] H3] H4] H5] H6] H7] _].
  assert (∀ k, 0 ≤ k < 32 → k ≠ 1 →
    Flags.isSet (Flags.clear 32 (flags p) EXPRESS_SNOOP) (2 ^ k) = Flags.isSet (flags p) (2 ^ k)) as Hk.
  { intros k Hk Hk1. rewrite Flags.isSet_clear by done.
    assert (Flags.isSet EXPRESS_SNOOP (2 ^ k) = false) as ->; [|by rewrite andb_true_r].
    rewrite Flags.isSet_pow2 by lia. change EXPRESS_SNOOP with (2 ^ 1).
    apply Z.pow2_bits_false. lia. }
  unfold isResponse, isRequest, isError, isRead, isWrite, hasData, isExpressSnoop, hasSharers,
    cacheResponding, responderHadWritable, getAddr, getSize, getPtr, needsResponse.
  cbn [cmd flags addr size data with_flags with_cmd]. rewrite H3. split_and!; try done.
  - change (Flags.isSet (Flags.clear 32 (flags p) EXPRESS_SNOOP) (2 ^ 1) = false).
    rewrite Flags.isSet_clear by lia. by rewrite andb_false_r.
  - apply (Hk 0); lia.
  - apply (Hk 3); lia.
  - apply (Hk 2); lia.
  - change VALID_ADDR with (2 ^ 8). by rewrite Hk by lia.
  - change VALID_SIZE with (2 ^ 9). by rewrite Hk by lia.
  - change DATA_FLAGS with (Z.lor (2 ^ 12) (2 ^ 13)). rewrite !Flags.isSet_or.
    by rewrite (Hk 12), (Hk 13) by lia.
Qed.

(** ** Payload copies *)

Definition payload_ok (h : mem) (p : Packet) : Prop :=
  Flags.isSet (flags p) VALID_ADDR = true ∧ Flags.isSet (flags p) VALID_SIZE = true ∧
  Flags.isSet (flags p) DATA_FLAGS = true ∧ 0 ≤ addr p ∧ valid h (data p) (size p).

Lemma getOffset_mod p k :
  Flags.isSet (flags p) VALID_ADDR = true → 0 ≤ k ≤ 31 → getOffset (2 ^ k) p = Ok (addr p mod 2 ^ k).
Proof.
  intros Ha Hk. unfold getOffset, getAddr. rewrite Ha. cbn [mbind res_bind assert_].
  assert (2 ^ k ≤ 2 ^ 31) by (apply Z.pow_le_mono_r; lia). pose proof (pow2_pos k).
  rewrite (wrap_small 32) by (unfold in_width; lia). by rewrite land_pred_pow2 by lia.
Qed.

(** Data written to a block with [writeDataToBlock] and fetched with
    [setDataFromBlock] by a packet for the same address and size arrives unchanged, and the
    write changes exactly the bytes of the block that the packet addresses. *)
Theorem block_data_roundtrip (k : Z) (blk : ptr) (h : mem) (p p2 : Packet) :
  0 ≤ k ≤ 31 → payload_ok h p → payload_ok h p2 → addr p2 = addr p → size p2 = size p →
  valid h blk (2 ^ k) → addr p mod 2 ^ k + size p ≤ 2 ^ k →
  separate (data p) blk → separate (data p2) blk →
  ∃ h1 h2, writeDataToBlock blk (2 ^ k) h p = Ok h1 ∧ setDataFromBlock blk (2 ^ k) h1 p2 = Ok h2 ∧
    (∀ i, 0 ≤ i < size p → byte_at h2 (data p2) i = byte_at h (data p) i) ∧
    (∀ j, ¬ (addr p mod 2 ^ k ≤ j < addr p mod 2 ^ k + size p) → byte_at h1 blk j = byte_at h blk j) ∧
    (∀ q j, separate blk q → byte_at h1 q j = byte_at h q j).
Proof.
  intros Hk (Hva & Hvs & Hd & Ha & Hm) (Hva2 & Hvs2 & Hd2 & Ha2 & Hm2) Hae Hse Hb Hfit Hs1 Hs2.
  assert (0 ≤ size p) by (by destruct Hm as (? & ? & ? & _ & _ & _ & ? & _)).
  pose proof (Z.mod_pos_bound (addr p) (2 ^ k) (pow2_pos k ltac:(lia))).
  unfold writeDataToBlock, setDataFromBlock. rewrite !getOffset_mod, Hae by done.
  cbn [mbind res_bind]. set (off := addr p mod 2 ^ k) in *.
  unfold writeData, setData, getConstPtr, getPtr, getSize. rewrite Hd, Hvs, Hd2, Hvs2, Hse.
  cbn [mbind res_bind assert_].
  destruct (memcpy_spec h (padd blk off) (data p) (size p)) as (h1 & -> & Hin & Hout & Hfr & Hval);
    [by apply (valid_padd _ _ (2 ^ k)); lia || done|done
    |rewrite <- (padd_0 (data p)); by apply separate_padd, separate_sym|].
  assert (padd blk off ≠ data p2) as Hne.
  { destruct Hb as (b & o & l & Hb & _), Hm2 as (b2 & o2 & l2 & Hm2 & _). rewrite Hb, Hm2.
    simpl. intros [= He _]. by destruct (Hs2 _ _ _ _ Hm2 Hb). }
  rewrite bool_decide_eq_false_2 by done. cbn [negb orb mbind res_bind assert_].
  rewrite Hse in Hm2. exists h1.
  destruct (memcpy_spec h1 (data p2) (padd blk off) (size p)) as (h2 & -> & Hin2 & _ & _ & _);
    [by apply Hval|apply Hval; by apply (valid_padd _ _ (2 ^ k)); lia || done
    |rewrite <- (padd_0 (data p2)); by apply separate_padd|].
  exists h2. split; [done|]. split; [done|]. split_and!.
  - intros i Hi. rewrite Hin2, Hin by done. done.
  - intros j Hj. replace j with (off + (j - off)) by lia. rewrite <- !byte_at_padd. apply Hout. lia.
  - intros q j Hq. apply Hfr. rewrite <- (padd_0 q). by apply separate_padd.
Qed.

(** ** The sender-state stack *)

(** The topmost state of the class [cast] selects. *)
Fixpoint topmost (cast : dyn → bool) (l : list (positive * dyn)) : option positive :=
  match l with
  | [] => None
  | (a, d) :: l => if cast d then Some a else topmost cast l
  end.

Lemma find_state_spec fuel cast h p l :
  stack_at h p l → (length l < fuel)%nat → find_state fuel cast h p = Ok (topmost cast l).
Proof.
  revert fuel p. induction l as [|[a d] l IH]; intros fuel p; simpl.
  { intros -> Hf. by destruct fuel. }
  intros (-> & _ & q & Ha & Hq) Hf. destruct fuel as [|fuel]; [lia|]. simpl. rewrite Ha. simpl.
  destruct (cast d); [done|]. apply IH; [done|lia].
Qed.

(** The sender states of a packet form a stack.  Pushing a state that is not on it
    makes it the top and leaves the rest in place; popping it gives it back and restores the
    packet and the stack beneath; [findNextSenderState] finds the topmost state of the
    wanted class, or null, within as many steps as there are states. *)
Theorem senderState_stack (h : heap) (p : Packet) (l : list (positive * dyn))
    (a : positive) (x : SenderState) (cast : dyn → bool) :
  stack_at h (senderState p) l → h !! a = Some x → a ∉ l.*1 →
  ∃ h1 p1 h2, pushSenderState h (Some a) p = Ok (h1, p1) ∧
    stack_at h1 (senderState p1) ((a, object x) :: l) ∧
    popSenderState h1 p1 = Ok (h2, p, Some a) ∧ stack_at h2 (senderState p) l ∧
    findNextSenderState cast h1 p1 = Ok (topmost cast ((a, object x) :: l)).
Proof.
  intros Hst Ha Hn. unfold pushSenderState. rewrite bool_decide_eq_true_2 by done.
  cbn [assert_ deref mbind res_bind]. rewrite Ha. cbn [deref mbind res_bind].
  eexists _, _, _. split; [done|].
  assert (stack_at (<[a := mkSender (senderState p) (object x)]> h) (Some a) ((a, object x) :: l)) as H1.
  { simpl. split_and!; [done..|]. exists (senderState p). rewrite lookup_insert_eq.
    split; [done|]. by apply stack_at_insert. }
  split; [done|]. split_and!.
  - unfold popSenderState. simpl. rewrite lookup_insert_eq. simpl. by destruct p.
  - rewrite insert_insert_eq. by apply stack_at_insert.
  - unfold findNextSenderState. cbn [senderState with_senderState].
    apply find_state_spec; [done|]. pose proof (stack_at_size _ _ _ H1). lia.
Qed.

(** ** Witnesses: a four-byte access at [0x1000] and two values that meet inside it *)

Definition ex_mem : mem :=
  <[1%positive := [0; 0; 0; 0]]> (<[2%positive := [7; 8; 10; 11; 12; 13; 14; 15]]>
  (<[3%positive := [10; 11; 12; 13]]> ∅)).

Definition ex_req : Request.Request := Request.newPhys 0 0x1000 4 0 1.

Definition ex_packet (c : MemCmd.Command) (d : ptr) : Packet :=
  mkPacket 0x1300 c ex_req d 0x1000 false 4 [] 0 0 0 None.

(** A block of eight bytes from [0xffe] on, and its first four. *)
Definition ex_block : value := mkValue 0xffe false 8 (Some (2%positive, 0)).
Definition ex_half : value := mkValue 0xffe false 4 (Some (2%positive, 0)).

Definition ex_print (v : Z) (s : string) : string := s.

Lemma ex_packet_ok c : MemCmd.isPrint c = false → functional_packet ex_mem (ex_packet c (Some (1%positive, 0))).
Proof.
  intros Hc. constructor; [done..| | |by left].
  - unfold range_ok. cbn. lia.
  - exists 1%positive, 0, [0; 0; 0; 0]. splits.
Qed.

Lemma ex_value_ok c v :
  v = ex_block ∨ v = ex_half → functional_value ex_mem (ex_packet c (Some (1%positive, 0))) v.
Proof.
  intros [-> | ->]; constructor.
  1, 4: unfold range_ok; cbn; lia.
  1, 3: exists 2%positive, 0, [7; 8; 10; 11; 12; 13; 14; 15]; splits.
  all: intros b o b' o' [= <- <-] [= <- <-]; done.
Qed.

(** The image the block holds. *)
Definition ex_image (a : Z) : Z := nth (Z.to_nat (a - 0xffe)) [7; 8; 10; 11; 12; 13; 14; 15] 0.

Lemma ex_agrees c d v : v = ex_block ∨ v = ex_half → agrees ex_image ex_mem (ex_packet c d) v.
Proof.
  intros Hv _ k Hk.
  assert (k = 0 ∨ k = 1 ∨ k = 2 ∨ k = 3 ∨ k = 4 ∨ k = 5 ∨ k = 6 ∨ k = 7) as Hcases
    by (destruct Hv as [-> | ->]; cbn in Hk; lia).
  destruct Hv as [-> | ->]; repeat (destruct Hcases as [->|Hcases]; [reflexivity|]);
    subst; reflexivity.
Qed.

Lemma functional_read_sound_witness :
  ∃ h' p', check_values ex_print [ex_half; ex_block] ex_mem ∅
    (ex_packet MemCmd.ReadReq (Some (1%positive, 0))) = Ok (true, h', ∅, p') ∧
  byte_at h' (Some (1%positive, 0)) 3 = Some (ex_image 0x1003).
Proof.
  destruct (functional_read_sound ex_print ex_image [ex_half; ex_block] ex_mem ∅
    (ex_packet MemCmd.ReadReq (Some (1%positive, 0)))) as (r & h' & p' & Heq & Ht & _).
  - by apply ex_packet_ok.
  - reflexivity.
  - apply Forall_cons_2; [|apply Forall_cons_2; [|constructor]]; apply ex_value_ok; auto.
  - apply Forall_cons_2; [|apply Forall_cons_2; [|constructor]]; apply ex_agrees; auto.
  - intros i _ Hi. cbn in Hi. discriminate Hi.
  - assert (r = true) as ->.
    { vm_compute in Heq. by injection Heq as <- _ _. }
    exists h', p'. split; [exact Heq|]. apply (Ht eq_refl 3). cbn. lia.
Defined.

Lemma functional_write_updates_witness :
  ∃ h', check ex_print ex_half ex_mem ∅ (ex_packet MemCmd.WriteReq (Some (1%positive, 0))) =
    Ok (false, h', ∅, ex_packet MemCmd.WriteReq (Some (1%positive, 0))) ∧
    byte_at h' (Some (2%positive, 0)) 3 = Some 0 ∧ byte_at h' (Some (2%positive, 0)) 1 = Some 8.
Proof.
  destruct (functional_write_updates ex_print ex_half ex_mem ∅
    (ex_packet MemCmd.WriteReq (Some (1%positive, 0)))) as (h' & Heq & Hj & _).
  - by apply ex_packet_ok.
  - by apply ex_value_ok; right.
  - reflexivity.
  - reflexivity.
  - reflexivity.
  - exists h'. split; [exact Heq|]. split.
    + etrans; [apply (Hj 3); cbn; lia|reflexivity].
    + etrans; [apply (Hj 1); cbn; lia|reflexivity].
Defined.

Lemma functional_read_skips_last_byte_witness :
  ∃ h' bv, check ex_print ex_half ex_mem ∅ (ex_packet MemCmd.ReadReq (Some (1%positive, 0))) =
    Ok (false, h', ∅, with_bytesValid bv (ex_packet MemCmd.ReadReq (Some (1%positive, 0)))) ∧
    bv !! 1%nat = Some false.
Proof.
  destruct (functional_read_skips_last_byte ex_print ex_half ex_mem ∅
    (ex_packet MemCmd.ReadReq (Some (1%positive, 0))) 0x1001) as (r & h' & bv & Heq & _ & _ & Hn).
  - by apply ex_packet_ok.
  - by apply ex_value_ok; right.
  - reflexivity.
  - reflexivity.
  - left. cbn. lia.
  - destruct (Hn eq_refl) as [-> Hbv]. exists h', bv. split; [exact Heq|exact Hbv].
Defined.

Lemma makeResponse_correct_witness :
  ∃ p', makeResponse (ex_packet MemCmd.SwapReq None) = Ok p' ∧ hasData p' = true.
Proof.
  destruct (proj2 (makeResponse_correct (ex_packet MemCmd.SwapReq None)) eq_refl)
    as (p' & Heq & _ & _ & _ & _ & _ & _ & Hd & _).
  exists p'. split; [exact Heq|]. rewrite Hd. reflexivity.
Defined.

Lemma block_data_roundtrip_witness :
  ∃ h1 h2, writeDataToBlock (Some (2%positive, 0)) 8 ex_mem
      (ex_packet MemCmd.WriteReq (Some (3%positive, 0))) = Ok h1 ∧
    setDataFromBlock (Some (2%positive, 0)) 8 h1
      (ex_packet MemCmd.ReadReq (Some (1%positive, 0))) = Ok h2 ∧
    byte_at h2 (Some (1%positive, 0)) 2 = Some 12.
Proof.
  destruct (block_data_roundtrip 3 (Some (2%positive, 0)) ex_mem
    (ex_packet MemCmd.WriteReq (Some (3%positive, 0)))
    (ex_packet MemCmd.ReadReq (Some (1%positive, 0)))) as (h1 & h2 & Hw & Hr & Hi & _).
  - lia.
  - split_and!; try reflexivity; [cbn; lia|]. exists 3%positive, 0, [10; 11; 12; 13]. splits.
  - split_and!; try reflexivity; [cbn; lia|]. exists 1%positive, 0, [0; 0; 0; 0]. splits.
  - reflexivity.
  - reflexivity.
  - exists 2%positive, 0, [7; 8; 10; 11; 12; 13; 14; 15]. splits.
  - vm_compute. congruence.
  - intros b o b' o' [= <- <-] [= <- <-]. done.
  - intros b o b' o' [= <- <-] [= <- <-]. done.
  - exists h1, h2. split; [exact Hw|]. split; [exact Hr|].
    etrans; [apply (Hi 2); cbn; lia|reflexivity].
Defined.

Definition ex_states : heap :=
  <[1%positive := mkSender None (Other 7)]> (<[2%positive := mkSender None (Other 9)]> ∅).

Lemma senderState_stack_witness :
  ∃ h1 p1, pushSenderState ex_states (Some 2%positive)
      (with_senderState (Some 1%positive) (ex_packet MemCmd.ReadReq None)) = Ok (h1, p1) ∧
    findNextSenderState (λ d, match d with Other 7 => true | _ => false end) h1 p1
      = Ok (Some 1%positive).
Proof.
  destruct (senderState_stack ex_states
    (with_senderState (Some 1%positive) (ex_packet MemCmd.ReadReq None))
    [(1%positive, Other 7)] 2%positive (mkSender None (Other 9))
    (λ d, match d with Other 7 => true | _ => false end))
    as (h1 & p1 & h2 & Hp & _ & _ & _ & Hf).
  - split; [reflexivity|]. split; [by apply not_elem_of_nil|]. exists None. split; reflexivity.
  - reflexivity.
  - cbn. by apply not_elem_of_cons; split; [|apply not_elem_of_nil].
  - exists h1, p1. split; [exact Hp|]. rewrite Hf. reflexivity.
Defined.

End PacketProofs.
