(* ===== verification/SnoopFilter.v ===== *)
(** * The snoop filter

    [SnoopFilter] of [mem/snoop_filter.hh] and [mem/snoop_filter.cc]: the table that
    tells a coherent crossbar which of its ports have, or have asked for, a cache line.
    The file holds the definitions; [SnoopFilterProofs] has the theorems. *)

From S2P Require Import Prelude IntMath MemCmd Packet.

Open Scope Z_scope.

Module SnoopFilter.
Import Types Packet.

(** What the filter sees of a slave port: its identifier and whether its peer snoops. *)
Record SlavePort := mkPort { getId : Z; isSnooping : bool }.

#[export] Instance SlavePort_eq_dec : EqDecision SlavePort.
Proof. solve_decision. Defined.

Record SnoopItem := mkItem { requested : Z; holder : Z }.

#[export] Instance SnoopItem_eq_dec : EqDecision SnoopItem.
Proof. solve_decision. Defined.

(** An iterator of [cachedLocations] kept between calls.  Erasing the element it
    designates invalidates it. *)
Inductive iterator := End | At (line : Z) | Dangling.

Definition LineSecure : Z := 0x01.

Record Stats := mkStats {
  totRequests : Z; hitSingleRequests : Z; hitMultiRequests : Z;
  totSnoops : Z; hitSingleSnoops : Z; hitMultiSnoops : Z
}.

Record SnoopFilter := mkSF {
  cachedLocations : gmap Z SnoopItem;
  reqLookupResult : iterator;
  retryItem : SnoopItem;
  slavePorts : list SlavePort;
  localSlavePortIds : list Z;
  linesize : Z;
  lookupLatency : Z;
  maxEntryCount : Z;
  stats : Stats
}.

Definition with_cache (c : gmap Z SnoopItem) (sf : SnoopFilter) : SnoopFilter :=
  mkSF c (reqLookupResult sf) (retryItem sf) (slavePorts sf) (localSlavePortIds sf)
    (linesize sf) (lookupLatency sf) (maxEntryCount sf) (stats sf).
Definition with_lookup (it : iterator) (sf : SnoopFilter) : SnoopFilter :=
  mkSF (cachedLocations sf) it (retryItem sf) (slavePorts sf) (localSlavePortIds sf)
    (linesize sf) (lookupLatency sf) (maxEntryCount sf) (stats sf).
Definition with_retry (r : SnoopItem) (sf : SnoopFilter) : SnoopFilter :=
  mkSF (cachedLocations sf) (reqLookupResult sf) r (slavePorts sf) (localSlavePortIds sf)
    (linesize sf) (lookupLatency sf) (maxEntryCount sf) (stats sf).
Definition with_stats (s : Stats) (sf : SnoopFilter) : SnoopFilter :=
  mkSF (cachedLocations sf) (reqLookupResult sf) (retryItem sf) (slavePorts sf)
    (localSlavePortIds sf) (linesize sf) (lookupLatency sf) (maxEntryCount sf) s.

Definition newSnoopFilter (cacheLineSize lookup_latency max_capacity : Z) : SnoopFilter :=
  mkSF ∅ End (mkItem 0 0) [] [] cacheLineSize lookup_latency (max_capacity / cacheLineSize)
    (mkStats 0 0 0 0 0 0).

(** The loop of [setSlavePorts]: the tracked ports, their local identifiers and the next
    one. *)
Fixpoint track_ports (ps : list SlavePort) (tracked : list SlavePort) (ids : list Z) (id : Z) :
    res (list SlavePort * list Z * Z) :=
  match ps with
  | [] => Ok (tracked, ids, id)
  | p :: ps =>
      if isSnooping p then
        ids ← vwrite ids (getId p) id;
        track_ports ps (tracked ++ [p]) ids (id + 1)
      else track_ports ps tracked ids id
  end.

(** [v.resize(n, x)] *)
Definition resize {A} (v : list A) (n : nat) (x : A) : list A :=
  take n v ++ replicate (n - length v) x.

Definition setSlavePorts (slave_ports : list SlavePort) (sf : SnoopFilter) : res SnoopFilter :=
  let ids := resize (localSlavePortIds sf) (length slave_ports) InvalidPortID in
  '(tracked, ids, id) ← track_ports slave_ports (slavePorts sf) ids 0;
  if 64 <? id then Fail Fatal
  else Ok (mkSF (cachedLocations sf) (reqLookupResult sf) (retryItem sf) tracked ids
             (linesize sf) (lookupLatency sf) (maxEntryCount sf) (stats sf)).

(** [1 << n] on a [uint64_t]; a shift by a negative amount or by 64 or more is
    undefined. *)
Definition shl1 (n : Z) : res Z :=
  if (0 <=? n) && (n <? 64) then Ok (Z.shiftl 1 n) else Fail BadPointer.

Definition portToMask (sf : SnoopFilter) (port : SlavePort) : res Z :=
  _ ← assert_ (negb (getId port =? InvalidPortID));
  if negb (isSnooping port) then Ok 0
  else id ← vread (localSlavePortIds sf) (getId port); shl1 id.

(** The loop of [maskToPortList] over the ports [ps]. *)
Fixpoint select_ports (sf : SnoopFilter) (port_mask : Z) (ps : list SlavePort) :
    res (list SlavePort) :=
  match ps with
  | [] => Ok []
  | p :: ps =>
      m ← portToMask sf p;
      rest ← select_ports sf port_mask ps;
      Ok (if negb (Z.land port_mask m =? 0) then p :: rest else rest)
  end.

Definition maskToPortList (sf : SnoopFilter) (port_mask : Z) : res (list SlavePort) :=
  select_ports sf port_mask (slavePorts sf).

Definition snoopAll (sf : SnoopFilter) (latency : Z) : list SlavePort * Z := (slavePorts sf, latency).
Definition snoopSelected (slave_ports : list SlavePort) (latency : Z) : list SlavePort * Z :=
  (slave_ports, latency).
Definition snoopDown (latency : Z) : list SlavePort * Z := ([], latency).

(** [cpkt->getBlockAddr(linesize)], with the secure bit. *)
Definition line_addr (sf : SnoopFilter) (cpkt : Packet) : res Z :=
  a ← getBlockAddr (linesize sf) cpkt;
  s ← isSecure cpkt;
  Ok (if s : bool then Z.lor a LineSecure else a).

(** [cachedLocations.erase(sf_it)] *)
Definition erase (line : Z) (sf : SnoopFilter) : SnoopFilter :=
  let it := match reqLookupResult sf with
            | At l => if decide (l = line) then Dangling else At l
            | it => it
            end in
  with_lookup it (with_cache (delete line (cachedLocations sf)) sf).

Definition eraseIfNullEntry (line : Z) (sf : SnoopFilter) : res SnoopFilter :=
  sf_item ← deref (cachedLocations sf !! line);
  Ok (if Z.lor (requested sf_item) (holder sf_item) =? 0 then erase line sf else sf).

Definition set_item (line : Z) (it : SnoopItem) (sf : SnoopFilter) : SnoopFilter :=
  with_cache (<[line := it]> (cachedLocations sf)) sf.

Definition count_request (is_hit : bool) (interested : Z) (s : Stats) : Stats :=
  let s := mkStats (totRequests s + 1) (hitSingleRequests s) (hitMultiRequests s)
             (totSnoops s) (hitSingleSnoops s) (hitMultiSnoops s) in
  if is_hit then
    if Bitfield.isPow2 64 interested
    then mkStats (totRequests s) (hitSingleRequests s + 1) (hitMultiRequests s)
           (totSnoops s) (hitSingleSnoops s) (hitMultiSnoops s)
    else mkStats (totRequests s) (hitSingleRequests s) (hitMultiRequests s + 1)
           (totSnoops s) (hitSingleSnoops s) (hitMultiSnoops s)
  else s.

Definition count_snoop (interested : Z) (s : Stats) : Stats :=
  let s := mkStats (totRequests s) (hitSingleRequests s) (hitMultiRequests s)
             (totSnoops s + 1) (hitSingleSnoops s) (hitMultiSnoops s) in
  if Bitfield.isPow2 64 interested
  then mkStats (totRequests s) (hitSingleRequests s) (hitMultiRequests s)
         (totSnoops s) (hitSingleSnoops s + 1) (hitMultiSnoops s)
  else mkStats (totRequests s) (hitSingleRequests s) (hitMultiRequests s)
         (totSnoops s) (hitSingleSnoops s) (hitMultiSnoops s + 1).

(** [panic_if(b, ...)] *)
Definition panic_if (b : bool) : res unit := if b then Fail Panicked else Ok tt.

(** The change [lookupRequest] makes to the entry of an allocating request. *)
Definition request_item (cpkt : Packet) (req_port : Z) (sf_item : SnoopItem) : res SnoopItem :=
  if needsResponse cpkt then
    if negb (cacheResponding cpkt) then
      _ ← panic_if (negb (Z.land (requested sf_item) req_port =? 0));
      Ok (mkItem (Z.lor (requested sf_item) req_port) (holder sf_item))
    else
      _ ← panic_if (Z.land (holder sf_item) req_port =? 0);
      Ok sf_item
  else
    _ ← assert_ (isEviction cpkt);
    _ ← panic_if (Z.land (holder sf_item) req_port =? 0);
    Ok (if negb (isBlockCached cpkt)
        then mkItem (requested sf_item) (Z.land (holder sf_item) (bnot 64 req_port))
        else sf_item).

Definition lookupRequest (cpkt : Packet) (slave_port : SlavePort) (sf : SnoopFilter) :
    res (SnoopFilter * (list SlavePort * Z)) :=
  let allocate := negb (Request.isUncacheable (req cpkt)) && isSnooping slave_port &&
                  fromCache cpkt in
  line ← line_addr sf cpkt;
  req_port ← portToMask sf slave_port;
  let is_hit := bool_decide (is_Some (cachedLocations sf !! line)) in
  let sf := with_lookup (if is_hit then At line else End) sf in
  if negb is_hit && negb allocate then Ok (sf, snoopDown (lookupLatency sf))
  else
    let sf := if negb is_hit then with_lookup (At line) (set_item line (mkItem 0 0) sf) else sf in
    sf_item ← deref (cachedLocations sf !! line);
    let interested := Z.lor (holder sf_item) (requested sf_item) in
    let sf := with_retry sf_item sf in
    let sf := with_stats (count_request is_hit interested (stats sf)) sf in
    if negb allocate then
      ports ← maskToPortList sf (Z.land interested (bnot 64 req_port));
      Ok (sf, snoopSelected ports (lookupLatency sf))
    else
      item ← request_item cpkt req_port sf_item;
      let sf := set_item line item sf in
      ports ← maskToPortList sf (Z.land interested (bnot 64 req_port));
      Ok (sf, snoopSelected ports (lookupLatency sf)).

Definition finishRequest (will_retry : bool) (addr : Z) (is_secure : bool) (sf : SnoopFilter) :
    res SnoopFilter :=
  match reqLookupResult sf with
  | End => Ok sf
  | Dangling => Fail BadPointer
  | At first =>
      let line := Z.land addr (bnot 64 (u32 (linesize sf - 1))) in
      let line := if is_secure then Z.lor line LineSecure else line in
      _ ← assert_ (first =? line);
      let sf := if will_retry then set_item first (retryItem sf) sf else sf in
      eraseIfNullEntry first sf
  end.

Definition lookupSnoop (cpkt : Packet) (sf : SnoopFilter) : res (SnoopFilter * (list SlavePort * Z)) :=
  _ ← assert_ (isRequest cpkt);
  line ← line_addr sf cpkt;
  let is_hit := bool_decide (is_Some (cachedLocations sf !! line)) in
  _ ← panic_if (negb is_hit && (maxEntryCount sf <=? Z.of_nat (base.size (cachedLocations sf))));
  if negb is_hit then Ok (sf, snoopDown (lookupLatency sf))
  else
    sf_item ← deref (cachedLocations sf !! line);
    let interested := Z.lor (holder sf_item) (requested sf_item) in
    let sf := with_stats (count_snoop interested (stats sf)) sf in
    ok ← (if isWriteback cpkt || Request.isUncacheable (req cpkt) then Ok true
          else w ← needsWritable cpkt; Ok (Bool.eqb (isInvalidate cpkt) w));
    _ ← assert_ ok;
    let sf := if isInvalidate cpkt && (requested sf_item =? 0)
              then set_item line (mkItem (requested sf_item) 0) sf else sf in
    sf ← eraseIfNullEntry line sf;
    ports ← maskToPortList sf interested;
    Ok (sf, snoopSelected ports (lookupLatency sf)).

Definition updateSnoopResponse (cpkt : Packet) (rsp_port req_port : SlavePort) (sf : SnoopFilter) :
    res SnoopFilter :=
  _ ← assert_ (isResponse cpkt);
  _ ← assert_ (cacheResponding cpkt);
  if Request.isUncacheable (req cpkt) || negb (isSnooping req_port) then Ok sf
  else
    line ← line_addr sf cpkt;
    rsp_mask ← portToMask sf rsp_port;
    req_mask ← portToMask sf req_port;
    let sf_item := default (mkItem 0 0) (cachedLocations sf !! line) in
    _ ← panic_if (Z.land (holder sf_item) rsp_mask =? 0);
    _ ← panic_if (Z.land (requested sf_item) req_mask =? 0);
    let h := if negb (hasSharers cpkt) then 0 else holder sf_item in
    _ ← assert_ (negb (isWriteback cpkt));
    let h := Z.lor h req_mask in
    let r := Z.land (requested sf_item) (bnot 64 req_mask) in
    _ ← assert_ (negb (Z.lor r h =? 0));
    Ok (set_item line (mkItem r h) sf).

Definition updateSnoopForward (cpkt : Packet) (rsp_port : SlavePort) (sf : SnoopFilter) :
    res SnoopFilter :=
  _ ← assert_ (isResponse cpkt);
  _ ← assert_ (cacheResponding cpkt);
  line ← line_addr sf cpkt;
  match cachedLocations sf !! line with
  | None => Ok sf
  | Some sf_item =>
      let sf := if negb (hasSharers cpkt)
                then set_item line (mkItem (requested sf_item) 0) sf else sf in
      eraseIfNullEntry line sf
  end.

Definition updateResponse (cpkt : Packet) (slave_port : SlavePort) (sf : SnoopFilter) :
    res SnoopFilter :=
  _ ← assert_ (isResponse cpkt);
  if Request.isUncacheable (req cpkt) || negb (isSnooping slave_port) then Ok sf
  else
    line ← line_addr sf cpkt;
    match cachedLocations sf !! line with
    | None => Ok sf
    | Some sf_item =>
        slave_mask ← portToMask sf slave_port;
        _ ← panic_if (Z.land (requested sf_item) slave_mask =? 0);
        let h := if negb (hasSharers cpkt) then 0 else holder sf_item in
        let h := Z.lor h slave_mask in
        let r := Z.land (requested sf_item) (bnot 64 slave_mask) in
        _ ← assert_ (negb (Z.lor h r =? 0));
        Ok (set_item line (mkItem r h) sf)
    end.

End SnoopFilter.
