(* ===== verification/SnoopFilterProofs.v ===== *)
(** * The snoop filter: proofs

    The masks are read as sets of ports: [requests sf l i] and [holds sf l i] say that
    port number [i] has a request in flight for line [l] or has the line.  The theorems
    give each operation's effect on these two relations, show that a retried request leaves
    no trace, establish the invariant of every state the crossbar can reach, and say which operation
    may drop which holder. *)

From S2P Require Import Prelude IntMath MemCmd Packet SnoopFilter.

Open Scope Z_scope.

Module SnoopFilterProofs.
Import Types Packet SnoopFilter.
#[local] Existing Instances SlavePort_eq_dec SnoopItem_eq_dec.

(** ** Ports and masks *)

(** What [setSlavePorts] establishes: at most 64 ports, each with its index as local id. *)
Definition ports_ok (sf : SnoopFilter) : Prop :=
  (length (slavePorts sf) ≤ 64)%nat ∧
  ∀ i p, slavePorts sf !! i = Some p →
    isSnooping p = true ∧ 0 ≤ getId p ∧
    localSlavePortIds sf !! Z.to_nat (getId p) = Some (Z.of_nat i).

(** The number of a port of the crossbar; a port that does not snoop has none. *)
Definition numbered (sf : SnoopFilter) (p : SlavePort) (oi : option nat) : Prop :=
  match oi with
  | Some i => slavePorts sf !! i = Some p
  | None => isSnooping p = false ∧ getId p ≠ InvalidPortID
  end.

Definition mask_of (oi : option nat) : Z :=
  match oi with Some i => 2 ^ Z.of_nat i | None => 0 end.

Lemma testbit_mask_of oi (i : nat) : Z.testbit (mask_of oi) (Z.of_nat i) = bool_decide (oi = Some i).
Proof.
  destruct oi as [j|]; cbn [mask_of]; [|by rewrite Z.bits_0].
  rewrite Z.pow2_bits_eqb by lia.
  destruct (Z.eqb_spec (Z.of_nat j) (Z.of_nat i)); case_bool_decide; simplify_eq; done || lia.
Qed.

Lemma numbered_lt sf p i : ports_ok sf → numbered sf p (Some i) → (i < 64)%nat.
Proof. intros [Hn _] Hi. apply lookup_lt_Some in Hi. lia. Qed.

Lemma mask_of_width n oi :
  (∀ i, oi = Some i → (i < n)%nat) → in_width (Z.of_nat n) (mask_of oi).
Proof.
  intros Hi. pose proof (pow2_pos (Z.of_nat n)). unfold in_width.
  destruct oi as [i|]; cbn [mask_of]; [|lia]. specialize (Hi i eq_refl).
  pose proof (pow2_pos (Z.of_nat i)). split; [lia|]. apply Z.pow_lt_mono_r; lia.
Qed.

(** [portToMask] is one-hot. *)
Lemma portToMask_numbered sf p oi :
  ports_ok sf → numbered sf p oi → portToMask sf p = Ok (mask_of oi).
Proof.
  intros Hok Hn. unfold portToMask. destruct oi as [i|]; cbn [numbered mask_of] in *.
  - pose proof (numbered_lt sf p i Hok Hn) as Hlt. destruct Hok as [_ Hok].
    destruct (Hok i p Hn) as (Hs & H0 & Hid). rewrite Hs.
    destruct (Z.eqb_spec (getId p) InvalidPortID) as [He|]; [unfold InvalidPortID in He; lia|].
    cbn [negb assert_ mbind res_bind]. unfold vread.
    destruct (Z.leb_spec 0 (getId p)); [|lia]. rewrite Hid. cbn [deref mbind res_bind].
    unfold shl1. destruct (Z.leb_spec 0 (Z.of_nat i)), (Z.ltb_spec (Z.of_nat i) 64); try lia.
    cbn [andb]. by rewrite Z.shiftl_1_l.
  - destruct Hn as [Hs Hid]. rewrite Hs.
    destruct (Z.eqb_spec (getId p) InvalidPortID); [done|]. done.
Qed.

Lemma select_ports_spec sf m ps :
  (∀ p, p ∈ ps → ∃ i, slavePorts sf !! i = Some p) → ports_ok sf →
  ∃ l, select_ports sf m ps = Ok l ∧
    ∀ q, q ∈ l ↔ q ∈ ps ∧ ∃ i, slavePorts sf !! i = Some q ∧ Z.testbit m (Z.of_nat i) = true.
Proof.
  intros Hps Hok. induction ps as [|p ps IH].
  { exists []. split; [done|]. intros q. rewrite elem_of_nil. naive_solver. }
  destruct IH as (l & Hl & Hq); [intros q Hq; apply Hps; by right|].
  destruct (Hps p) as [i Hi]; [by left|]. cbn [select_ports].
  rewrite (portToMask_numbered sf p (Some i)) by done. cbn [mbind res_bind mask_of].
  rewrite Hl. cbn [mbind res_bind]. fold (Flags.isSet m (2 ^ Z.of_nat i)).
  rewrite Flags.isSet_pow2 by lia. eexists. split; [done|]. intros q.
  assert (∀ j, slavePorts sf !! j = Some p → j = i) as Huniq.
  { intros j Hj. destruct Hok as [_ Hok].
    destruct (Hok i p Hi) as (_ & _ & H1), (Hok j p Hj) as (_ & _ & H2).
    rewrite H1 in H2. injection H2. lia. }
  destruct (Z.testbit m (Z.of_nat i)) eqn:Hb.
  - rewrite !elem_of_cons, Hq. split; [|naive_solver].
    intros [->|[Hin Hex]]; [|naive_solver]. split; [by left|]. by exists i.
  - rewrite elem_of_cons, Hq. split; [naive_solver|].
    intros [[->|Hin] (j & Hj & Hbj)]; [|naive_solver]. rewrite (Huniq j Hj) in Hbj. congruence.
Qed.

Lemma maskToPortList_spec sf m :
  ports_ok sf →
  ∃ l, maskToPortList sf m = Ok l ∧
    ∀ q, q ∈ l ↔ ∃ i, slavePorts sf !! i = Some q ∧ Z.testbit m (Z.of_nat i) = true.
Proof.
  intros Hok. destruct (select_ports_spec sf m (slavePorts sf)) as (l & Hl & Hq); [|done|].
  { intros p Hp. by apply list_elem_of_lookup in Hp. }
  exists l. split; [done|]. intros q. rewrite Hq. split; [naive_solver|].
  intros (i & Hi & Hb). split; [|by exists i]. by eapply list_elem_of_lookup_2.
Qed.

(** The ports of the filter do not change after [setSlavePorts]. *)
Definition same_ports (sf sf' : SnoopFilter) : Prop :=
  slavePorts sf' = slavePorts sf ∧ localSlavePortIds sf' = localSlavePortIds sf ∧
  linesize sf' = linesize sf ∧ lookupLatency sf' = lookupLatency sf ∧
  maxEntryCount sf' = maxEntryCount sf.

Lemma same_ports_ok sf sf' : same_ports sf sf' → ports_ok sf → ports_ok sf'.
Proof. unfold same_ports, ports_ok. intros (-> & -> & _). done. Qed.

(** ** The two relations *)

Definition item (sf : SnoopFilter) (l : Z) : SnoopItem :=
  default (mkItem 0 0) (cachedLocations sf !! l).

Definition requests (sf : SnoopFilter) (l : Z) (i : nat) : bool :=
  Z.testbit (requested (item sf l)) (Z.of_nat i).
Definition holds (sf : SnoopFilter) (l : Z) (i : nat) : bool :=
  Z.testbit (holder (item sf l)) (Z.of_nat i).

(** Masks mention only the filter's ports. *)
Definition item_ok (sf : SnoopFilter) (it : SnoopItem) : Prop :=
  let n := Z.of_nat (length (slavePorts sf)) in
  in_width n (requested it) ∧ in_width n (holder it).

Definition wf (sf : SnoopFilter) : Prop :=
  ports_ok sf ∧ ∀ l it, cachedLocations sf !! l = Some it → item_ok sf it.

(** Only the entry of the request being looked up may be null. *)
Definition null_free (sf : SnoopFilter) : Prop :=
  ∀ l it, cachedLocations sf !! l = Some it →
    Z.lor (requested it) (holder it) = 0 → reqLookupResult sf = At l.

Lemma in_width_0 n : 0 ≤ n → in_width n 0.
Proof. intros. pose proof (pow2_pos n). unfold in_width. lia. Qed.

Lemma item_ok_wf sf l : wf sf → item_ok sf (item sf l).
Proof.
  intros [_ Hw]. unfold item. destruct (cachedLocations sf !! l) as [it|] eqn:Hl; [by eapply Hw|].
  split; apply in_width_0; lia.
Qed.

Lemma item_set l it sf l' :
  item (set_item l it sf) l' = if decide (l = l') then it else item sf l'.
Proof.
  unfold item, set_item. cbn. destruct (decide (l = l')) as [<-|].
  - by rewrite lookup_insert_eq.
  - by rewrite lookup_insert_ne.
Qed.

Lemma wf_set_item l it sf : wf sf → item_ok sf it → wf (set_item l it sf).
Proof.
  intros [Hp Hw] Hit. split; [done|]. intros l' it'. cbn. rewrite lookup_insert_Some.
  intros [[-> ->]|[_ Hl']]; [done|]. by eapply Hw.
Qed.

(** Erasing null entries is invisible to the relations. *)
Lemma eraseIfNullEntry_spec l it sf :
  cachedLocations sf !! l = Some it →
  ∃ sf', eraseIfNullEntry l sf = Ok sf' ∧ same_ports sf sf' ∧ (∀ l', item sf' l' = item sf l') ∧
    (wf sf → wf sf') ∧
    (∀ l' it', cachedLocations sf' !! l' = Some it' → cachedLocations sf !! l' = Some it') ∧
    (∀ l', l' ≠ l → cachedLocations sf' !! l' = cachedLocations sf !! l') ∧
    (∀ it', cachedLocations sf' !! l = Some it' → it' = it ∧ Z.lor (requested it) (holder it) ≠ 0) ∧
    (∀ l', reqLookupResult sf = At l' → l' ≠ l → reqLookupResult sf' = At l') ∧
    (cachedLocations sf' =
       if Z.lor (requested it) (holder it) =? 0 then delete l (cachedLocations sf)
       else cachedLocations sf).
Proof.
  intros Hl. unfold eraseIfNullEntry. rewrite Hl. cbn [deref mbind res_bind].
  eexists. split; [done|].
  destruct (Z.eqb_spec (Z.lor (requested it) (holder it)) 0) as [Hz|Hz].
  2: { split_and!; try done. intros it' Hit'. split; congruence. }
  unfold erase. cbn. split_and!; [done|..].
  - intros l'. unfold item. cbn. destruct (decide (l = l')) as [<-|].
    + rewrite lookup_delete_eq, Hl. cbn. apply Z.lor_eq_0_iff in Hz as [H1 H2].
      destruct it; cbn in *; by subst.
    + by rewrite lookup_delete_ne.
  - intros [Hp Hw]. split; [done|]. intros l' it'. cbn. rewrite lookup_delete_Some.
    intros [_ Hl']. by eapply Hw.
  - intros l' it'. rewrite lookup_delete_Some. naive_solver.
  - intros l' Hne. by rewrite lookup_delete_ne.
  - intros it'. by rewrite lookup_delete_eq.
  - intros l' -> Hne. by rewrite decide_False.
  - done.
Qed.

(** ** Requests *)

(** The request is tracked: it comes from a cache on a snooping port. *)
Definition allocates (cpkt : Packet) (p : SlavePort) : bool :=
  negb (Request.isUncacheable (req cpkt)) && isSnooping p && fromCache cpkt.

(** The request announces a response to come, or that the port gives the line up. *)
Definition adds (cpkt : Packet) : bool := needsResponse cpkt && negb (cacheResponding cpkt).
Definition gives_up (cpkt : Packet) : bool := negb (needsResponse cpkt) && negb (isBlockCached cpkt).

(** What the filter expects of a tracked request of port [i]: one request per port and
    line, an answer promised by a cache above only where the line is held, and evictions
    only of lines that are held. *)
Definition legal (cpkt : Packet) (requests_it holds_it : bool) : bool :=
  if needsResponse cpkt then
    if cacheResponding cpkt then holds_it else negb requests_it
  else isEviction cpkt && holds_it.

Lemma land_mask_eqb m (i : nat) : (Z.land m (mask_of (Some i)) =? 0) = negb (Z.testbit m (Z.of_nat i)).
Proof.
  cbn [mask_of]. rewrite <- (Flags.isSet_pow2 m (Z.of_nat i)) by lia. unfold Flags.isSet.
  by rewrite negb_involutive.
Qed.

Lemma testbit_add_port m i (j : nat) :
  Z.testbit (Z.lor m (mask_of i)) (Z.of_nat j) = Z.testbit m (Z.of_nat j) || bool_decide (i = Some j).
Proof. by rewrite Z.lor_spec, testbit_mask_of. Qed.

Lemma testbit_del_port n m i (j : nat) :
  (n ≤ 64)%nat → in_width (Z.of_nat n) m →
  Z.testbit (Z.land m (bnot 64 (mask_of i))) (Z.of_nat j) =
    Z.testbit m (Z.of_nat j) && negb (bool_decide (i = Some j)).
Proof.
  intros Hn Hm. rewrite Z.land_spec, testbit_bnot, testbit_mask_of by lia.
  destruct (Z.ltb_spec (Z.of_nat j) 64); [by rewrite andb_true_r|].
  rewrite (testbit_out (Z.of_nat n) m) by (done || lia). done.
Qed.

Lemma width_add_port (n : nat) m i :
  in_width (Z.of_nat n) m → (∀ j, i = Some j → (j < n)%nat) →
  in_width (Z.of_nat n) (Z.lor m (mask_of i)).
Proof. intros. apply in_width_lor; [lia|done|by apply mask_of_width]. Qed.

Lemma width_del_port (n : nat) m k : in_width (Z.of_nat n) m → in_width (Z.of_nat n) (Z.land m (bnot 64 k)).
Proof. intros. apply in_width_land_l; [lia|done|]. apply (wrap_range 64); lia. Qed.

#[local] Hint Resolve width_add_port width_del_port in_width_0 : gem5.

Lemma request_item_spec sf cpkt i it :
  (i < length (slavePorts sf) ≤ 64)%nat → item_ok sf it →
  let bit m := Z.testbit m (Z.of_nat i) in
  if legal cpkt (bit (requested it)) (bit (holder it)) then
    ∃ it', request_item cpkt (mask_of (Some i)) it = Ok it' ∧ item_ok sf it' ∧
      (∀ j : nat, Z.testbit (requested it') (Z.of_nat j) =
         Z.testbit (requested it) (Z.of_nat j) || (adds cpkt && bool_decide (i = j))) ∧
      (∀ j : nat, Z.testbit (holder it') (Z.of_nat j) =
         Z.testbit (holder it) (Z.of_nat j) && negb (gives_up cpkt && bool_decide (i = j)))
  else ∃ e, request_item cpkt (mask_of (Some i)) it = Fail e.
Proof.
  intros Hi [Hr Hh]. cbv zeta. unfold legal, request_item, adds, gives_up.
  rewrite !land_mask_eqb, negb_involutive.
  assert (∀ j, bool_decide (Some i = Some j) = bool_decide (i = j)) as Heq
    by (intros j; do 2 case_bool_decide; simplify_eq; done).
  destruct (needsResponse cpkt), (cacheResponding cpkt); cbn [negb andb].
  1, 3, 4: destruct (Z.testbit (holder it) (Z.of_nat i)) eqn:Hb; cbn [negb panic_if andb].
  all: try (destruct (isEviction cpkt)); try (by eexists).
  all: try (destruct (isBlockCached cpkt)); try (destruct (Z.testbit (requested it) (Z.of_nat i)) eqn:Hq);
    cbn [negb panic_if assert_ mbind res_bind andb]; try (by eexists).
  all: eexists; (split; [done|]); split;
    [split; cbn [requested holder]; try done; try (by apply width_del_port); try (apply width_add_port; [done|intros ? [= <-]; lia])|].
  all: cbn [requested holder]; split; intros j; rewrite ?orb_false_r, ?andb_true_r; try done.
  all: rewrite ?testbit_add_port, ?(testbit_del_port (length (slavePorts sf))), ?Heq by (done || lia); done.
Qed.

(** The new entry of a request. *)
Definition request_update (cpkt : Packet) (alloc : bool) (oi : option nat) (it it' : SnoopItem) : Prop :=
  (∀ j : nat, Z.testbit (requested it') (Z.of_nat j) =
     Z.testbit (requested it) (Z.of_nat j) || (alloc && adds cpkt && bool_decide (oi = Some j))) ∧
  (∀ j : nat, Z.testbit (holder it') (Z.of_nat j) =
     Z.testbit (holder it) (Z.of_nat j) && negb (alloc && gives_up cpkt && bool_decide (oi = Some j))).

(** The outcome of a lookup that does not fail. *)
Record lookup_outcome (cpkt : Packet) (alloc : bool) (oi : option nat) (line : Z)
    (sf sf' : SnoopFilter) (ports : list SlavePort) : Prop := {
  lo_wf : wf sf';
  lo_same : same_ports sf sf';
  lo_ports : ∀ q, q ∈ ports ↔ ∃ i, slavePorts sf !! i = Some q ∧ oi ≠ Some i ∧
    requests sf line i || holds sf line i = true;
  lo_item : request_update cpkt alloc oi (item sf line) (item sf' line);
  lo_other : ∀ l, l ≠ line → cachedLocations sf' !! l = cachedLocations sf !! l;
  lo_lookup :
    (reqLookupResult sf' = At line ∧ retryItem sf' = item sf line ∧
       is_Some (cachedLocations sf' !! line)) ∨
    (reqLookupResult sf' = End ∧ cachedLocations sf' = cachedLocations sf ∧
       cachedLocations sf !! line = None)
}.

Lemma interested_ports sf (ports : list SlavePort) line oi :
  wf sf →
  (∀ q, q ∈ ports ↔ ∃ i, slavePorts sf !! i = Some q ∧
     Z.testbit (Z.land (Z.lor (holder (item sf line)) (requested (item sf line)))
       (bnot 64 (mask_of oi))) (Z.of_nat i) = true) →
  ∀ q, q ∈ ports ↔ ∃ i, slavePorts sf !! i = Some q ∧ oi ≠ Some i ∧
    requests sf line i || holds sf line i = true.
Proof.
  intros Hwf Hp q. destruct (item_ok_wf sf line Hwf) as [Hr Hh]. rewrite Hp.
  assert (Hn : (length (slavePorts sf) ≤ 64)%nat) by apply Hwf.
  split; intros (i & Hi & Hb); exists i.
  - rewrite (testbit_del_port (length (slavePorts sf))), Z.lor_spec, andb_true_iff, negb_true_iff,
      bool_decide_eq_false in Hb by (try apply in_width_lor; done || lia).
    unfold requests, holds. rewrite orb_comm. naive_solver.
  - split; [done|].
    rewrite (testbit_del_port (length (slavePorts sf))), Z.lor_spec, andb_true_iff, negb_true_iff,
      bool_decide_eq_false by (try apply in_width_lor; done || lia).
    unfold requests, holds in Hb. rewrite orb_comm. naive_solver.
Qed.

(** The entry the lookup works on, whether it was there or is created. *)
Lemma lookup_entry sf line :
  let sf1 := if negb (bool_decide (is_Some (cachedLocations sf !! line)))
             then with_lookup (At line) (set_item line (mkItem 0 0) (with_lookup End sf))
             else with_lookup (At line) sf in
  wf sf → cachedLocations sf1 !! line = Some (item sf line) ∧ wf sf1 ∧ same_ports sf sf1 ∧
    reqLookupResult sf1 = At line ∧ stats sf1 = stats sf ∧ lookupLatency sf1 = lookupLatency sf ∧
    (∀ l, l ≠ line → cachedLocations sf1 !! l = cachedLocations sf !! l) ∧ item sf1 line = item sf line.
Proof.
  cbv zeta. intros Hwf. unfold item. destruct (cachedLocations sf !! line) as [it|] eqn:Hl.
  - rewrite bool_decide_eq_true_2 by done. cbn. rewrite Hl. split_and!; done.
  - rewrite bool_decide_eq_false_2 by (by intros [? ?]). cbn. rewrite lookup_insert_eq. split_and!; try done.
    + apply (wf_set_item line (mkItem 0 0) sf Hwf). split; apply in_width_0; lia.
    + intros l Hne. by rewrite lookup_insert_ne.
Qed.

Lemma lookupRequest_ok sf cpkt p oi line :
  wf sf → numbered sf p oi → line_addr sf cpkt = Ok line →
  (∀ i, allocates cpkt p = true → oi = Some i →
     legal cpkt (requests sf line i) (holds sf line i) = true) →
  ∃ sf' ports, lookupRequest cpkt p sf = Ok (sf', (ports, lookupLatency sf)) ∧
    lookup_outcome cpkt (allocates cpkt p) oi line sf sf' ports.
Proof.
  intros Hwf Hn Hline Hlegal. assert (Hports : ports_ok sf) by apply Hwf.
  unfold lookupRequest. rewrite Hline. cbn [mbind res_bind].
  rewrite (portToMask_numbered sf p oi) by done. cbn [mbind res_bind].
  fold (allocates cpkt p). set (hit := bool_decide (is_Some (cachedLocations sf !! line))).
  destruct (negb hit && negb (allocates cpkt p)) eqn:Hdown.
  { apply andb_true_iff in Hdown as [Hhit Ha]. apply negb_true_iff in Hhit, Ha.
    rewrite Hhit, Ha. eexists _, _. split; [done|].
    assert (Hnone : cachedLocations sf !! line = None).
    { unfold hit in Hhit. apply bool_decide_eq_false in Hhit. by apply eq_None_not_Some. }
    constructor; try done.
    - intros q. split; [intros []%elem_of_nil|]. intros (i & _ & _ & Hb).
      unfold requests, holds, item in Hb. rewrite Hnone in Hb. cbn in Hb. by rewrite Z.bits_0 in Hb.
    - split; intros j; cbn [andb]; rewrite ?orb_false_r, ?andb_true_r; done.
    - right. done. }
  pose proof (lookup_entry sf line Hwf) as (Hent & Hwf1 & Hsame & Hat & Hst & Hlat & Hoth & Hit).
  fold hit in Hent, Hwf1, Hsame, Hat, Hst, Hlat, Hoth, Hit.
  replace (if negb hit then
             with_lookup (At line) (set_item line (mkItem 0 0) (with_lookup (if hit then At line else End) sf))
           else with_lookup (if hit then At line else End) sf)
    with (if negb hit then with_lookup (At line) (set_item line (mkItem 0 0) (with_lookup End sf))
          else with_lookup (At line) sf) by (by destruct hit).
  set (sf1 := if negb hit then _ else _) in *. rewrite Hent. cbn [deref mbind res_bind].
  set (sf2 := with_stats _ (with_retry (item sf line) sf1)).
  destruct Hsame as (Hsp & Hids & Hls & Hlt & Hmx).
  assert (Hsp' : ports_ok sf1) by (by apply (same_ports_ok sf)).
  destruct (allocates cpkt p) eqn:Hal; cbn [negb].
  - destruct oi as [i|]; [|exfalso; unfold allocates in Hal; destruct Hn as [Hs _];
      rewrite Hs, andb_false_r in Hal; done].
    assert (Hlen : (i < length (slavePorts sf) ≤ 64)%nat)
      by (split; [by eapply lookup_lt_Some|apply Hports]).
    pose proof (request_item_spec sf cpkt i (item sf line) Hlen (item_ok_wf sf line Hwf)) as Hri.
    cbv beta zeta in Hri. fold (requests sf line i) (holds sf line i) in Hri.
    rewrite (Hlegal i) in Hri by done.
    destruct Hri as (it' & Hri & Hok' & Hr' & Hh'). rewrite Hri. cbn [mbind res_bind].
    destruct (maskToPortList_spec (set_item line it' sf2)
      (Z.land (Z.lor (holder (item sf line)) (requested (item sf line)))
         (bnot 64 (mask_of (Some i))))) as (ports & Hpl & Hq); [done|].
    rewrite Hpl. cbn [mbind res_bind]. exists (set_item line it' sf2), ports.
    split; [by rewrite <- Hlat|]. constructor.
    + apply wf_set_item; [done|]. unfold item_ok in *. cbn. by rewrite Hsp.
    + done.
    + apply interested_ports; [done|]. intros q. rewrite Hq. cbn. by rewrite Hsp.
    + rewrite item_set, decide_True by done. split; intros j; cbn [andb]; [rewrite Hr'|rewrite Hh'];
        (destruct (decide (i = j)); [rewrite !bool_decide_eq_true_2 by congruence
                                    |rewrite !bool_decide_eq_false_2 by congruence]); done.
    + intros l Hne. cbn. rewrite lookup_insert_ne by done. by apply Hoth.
    + left. cbn. split; [done|]. split; [done|]. by rewrite lookup_insert_eq.
  - destruct (maskToPortList_spec sf2
      (Z.land (Z.lor (holder (item sf line)) (requested (item sf line)))
         (bnot 64 (mask_of oi)))) as (ports & Hpl & Hq); [done|].
    rewrite Hpl. cbn [mbind res_bind]. exists sf2, ports.
    split; [by rewrite <- Hlat|]. constructor; try done.
    + apply interested_ports; [done|]. intros q. rewrite Hq. cbn. by rewrite Hsp.
    + assert (item sf2 line = item sf line) as -> by done.
      split; intros j; cbn [andb]; rewrite ?orb_false_r, ?andb_true_r; done.
    + left. cbn. split; [done|]. split; [done|]. by rewrite Hent.
Qed.

(** An illegal request stops the simulation. *)
Lemma lookupRequest_illegal sf cpkt p i line :
  wf sf → numbered sf p (Some i) → line_addr sf cpkt = Ok line → allocates cpkt p = true →
  legal cpkt (requests sf line i) (holds sf line i) = false →
  ∃ e, lookupRequest cpkt p sf = Fail e.
Proof.
  intros Hwf Hn Hline Hal Hlegal. assert (Hports : ports_ok sf) by apply Hwf.
  unfold lookupRequest. rewrite Hline. cbn [mbind res_bind].
  rewrite (portToMask_numbered sf p (Some i)) by done. cbn [mbind res_bind].
  fold (allocates cpkt p). rewrite Hal, andb_false_r. cbn [negb].
  set (hit := bool_decide (is_Some (cachedLocations sf !! line))).
  pose proof (lookup_entry sf line Hwf) as (Hent & _). fold hit in Hent.
  replace (if negb hit then
             with_lookup (At line) (set_item line (mkItem 0 0) (with_lookup (if hit then At line else End) sf))
           else with_lookup (if hit then At line else End) sf)
    with (if negb hit then with_lookup (At line) (set_item line (mkItem 0 0) (with_lookup End sf))
          else with_lookup (At line) sf) by (by destruct hit).
  rewrite Hent. cbn [deref mbind res_bind].
  assert (Hlen : (i < length (slavePorts sf) ≤ 64)%nat)
    by (split; [by eapply lookup_lt_Some|apply Hports]).
  pose proof (request_item_spec sf cpkt i (item sf line) Hlen (item_ok_wf sf line Hwf)) as Hri.
  cbv beta zeta in Hri. fold (requests sf line i) (holds sf line i) in Hri.
  rewrite Hlegal in Hri. destruct Hri as [e ->]. by exists e.
Qed.

(** No entry is null. *)
Definition no_null (sf : SnoopFilter) : Prop :=
  ∀ l it, cachedLocations sf !! l = Some it → Z.lor (requested it) (holder it) ≠ 0.

Lemma line_addr_inv sf cpkt line :
  line_addr sf cpkt = Ok line →
  Flags.isSet (flags cpkt) VALID_ADDR = true ∧
  line = let l := Z.land (addr cpkt) (bnot 64 (u32 (linesize sf - 1))) in
         if _isSecure cpkt then Z.lor l LineSecure else l.
Proof.
  unfold line_addr, getBlockAddr, getAddr, isSecure.
  destruct (Flags.isSet (flags cpkt) VALID_ADDR); cbn [assert_ mbind res_bind]; [|done].
  intros [= <-]. done.
Qed.

(** [finishRequest] right after the lookup of the same packet. *)
Lemma finishRequest_after_lookup sf cpkt alloc oi line sf1 ports will_retry :
  wf sf → no_null sf → line_addr sf cpkt = Ok line → lookup_outcome cpkt alloc oi line sf sf1 ports →
  ∃ sf2, finishRequest will_retry (addr cpkt) (_isSecure cpkt) sf1 = Ok sf2 ∧
    wf sf2 ∧ same_ports sf sf2 ∧ no_null sf2 ∧
    (will_retry = true → cachedLocations sf2 = cachedLocations sf) ∧
    (will_retry = false → ∀ l, item sf2 l = item sf1 l).
Proof.
  intros Hwf Hnn Hline Ho. apply line_addr_inv in Hline as [_ Hline].
  cbv zeta in Hline.
  destruct (lo_same _ _ _ _ _ _ _ Ho) as (Hsp & Hids & Hls & Hlt & Hmx).
  pose proof (lo_wf _ _ _ _ _ _ _ Ho) as Hwf1. unfold finishRequest.
  destruct (lo_lookup _ _ _ _ _ _ _ Ho) as [(Hat & Hret & [it1 Hit1])|(Hend & Hc & _)].
  2: { rewrite Hend. exists sf1. split_and!; try done. by unfold no_null; rewrite Hc. }
  cbv zeta. rewrite Hat, Hls, <- Hline, Z.eqb_refl. cbn [assert_ mbind res_bind].
  set (sfr := if will_retry then _ else sf1).
  set (itr := if will_retry then retryItem sf1 else it1).
  assert (Hr : cachedLocations sfr !! line = Some itr).
  { unfold sfr, itr. destruct will_retry; [apply lookup_insert_eq|done]. }
  assert (Hwfr : wf sfr).
  { unfold sfr. destruct will_retry; [|done]. apply wf_set_item; [done|]. rewrite Hret.
    pose proof (item_ok_wf sf line Hwf). unfold item_ok in *. by rewrite Hsp. }
  destruct (eraseIfNullEntry_spec line itr sfr Hr)
    as (sf2 & -> & (Hsp2 & Hids2 & Hls2 & Hlt2 & Hmx2) & Hitems & Hw2 & Hsub & Hoth & Hself & _ & Hcl).
  exists sf2. split; [done|]. split_and!.
  - by apply Hw2.
  - unfold same_ports. rewrite Hsp2, Hids2, Hls2, Hlt2, Hmx2. by unfold sfr; destruct will_retry.
  - intros l it Hl. destruct (decide (l = line)) as [->|Hne].
    + destruct (Hself it Hl) as [-> ?]. done.
    + apply Hsub in Hl. unfold sfr in Hl. destruct will_retry; cbn in Hl;
        rewrite ?lookup_insert_ne in Hl by done;
        rewrite (lo_other _ _ _ _ _ _ _ Ho) in Hl by done; by eapply Hnn.
  - intros ->. unfold sfr, itr in *. rewrite Hcl, Hret.
    unfold set_item. cbn [cachedLocations with_cache].
    apply map_eq. intros l. unfold item.
    destruct (cachedLocations sf !! line) as [it|] eqn:Hl; cbn [default from_option id].
    + destruct (Z.eqb_spec (Z.lor (requested it) (holder it)) 0); [by destruct (Hnn line it Hl)|].
      destruct (decide (l = line)) as [->|Hne]; [by rewrite lookup_insert_eq|].
      rewrite lookup_insert_ne by done. by apply (lo_other _ _ _ _ _ _ _ Ho).
    + cbn [requested holder]. change (Z.lor 0 0 =? 0) with true. cbv iota.
      destruct (decide (l = line)) as [->|Hne]; [by rewrite lookup_delete_eq|].
      rewrite lookup_delete_ne, lookup_insert_ne by done. by apply (lo_other _ _ _ _ _ _ _ Ho).
  - intros ->. apply Hitems.
Qed.

(** ** Responses and snoops *)

(** A response hands the line to port [i]: its request is done, and the other holders stay
    only if the response says the line is shared. *)
Definition filled (cpkt : Packet) (i : nat) (line : Z) (sf sf' : SnoopFilter) : Prop :=
  ∀ l j,
    requests sf' l j = requests sf l j && negb (bool_decide (l = line ∧ i = j)) ∧
    holds sf' l j =
      if decide (l = line) then hasSharers cpkt && holds sf l j || bool_decide (i = j)
      else holds sf l j.

Lemma fill_item sf cpkt i line :
  wf sf → (i < length (slavePorts sf))%nat →
  let it := item sf line in
  let h := Z.lor (if negb (hasSharers cpkt) then 0 else holder it) (mask_of (Some i)) in
  let r := Z.land (requested it) (bnot 64 (mask_of (Some i))) in
  item_ok sf (mkItem r h) ∧ Z.testbit h (Z.of_nat i) = true ∧
  filled cpkt i line sf (set_item line (mkItem r h) sf).
Proof.
  intros Hwf Hi. cbv zeta. destruct (item_ok_wf sf line Hwf) as [Hr Hh].
  assert (Hn : (length (slavePorts sf) ≤ 64)%nat) by apply Hwf.
  split; [|split].
  - split; cbn [requested holder]; [by apply width_del_port|].
    apply width_add_port; [|by intros ? [= <-]]. destruct (hasSharers cpkt); [done|apply in_width_0; lia].
  - rewrite testbit_add_port, bool_decide_eq_true_2 by done. by rewrite orb_true_r.
  - intros l j. unfold requests, holds. rewrite !item_set.
    destruct (decide (line = l)) as [<-|Hne]; cbn [requested holder].
    + rewrite (testbit_del_port (length (slavePorts sf))), testbit_add_port by done.
      rewrite decide_True by done. split.
      * f_equal. f_equal. by do 2 case_bool_decide; naive_solver.
      * f_equal; [destruct (hasSharers cpkt); cbn [negb andb]; [done|apply Z.bits_0]|].
        by do 2 case_bool_decide; naive_solver.
    + rewrite decide_False by done. rewrite bool_decide_eq_false_2 by naive_solver.
      by rewrite andb_true_r.
Qed.

Lemma nonzero_bit a b k : Z.testbit a k = true → Z.lor a b ≠ 0.
Proof. intros Ha [-> _]%Z.lor_eq_0_iff. by rewrite Z.bits_0 in Ha. Qed.

Lemma no_null_set_item l it sf :
  no_null sf → Z.lor (requested it) (holder it) ≠ 0 → no_null (set_item l it sf).
Proof.
  intros Hn Hit l' it'. cbn. rewrite lookup_insert_Some. intros [[_ <-]|[_ Hl]]; [done|by eapply Hn].
Qed.

Lemma updateResponse_ok sf cpkt p i line :
  wf sf → numbered sf p (Some i) → line_addr sf cpkt = Ok line →
  isResponse cpkt = true → Request.isUncacheable (req cpkt) = false →
  requests sf line i = true →
  ∃ sf', updateResponse cpkt p sf = Ok sf' ∧ filled cpkt i line sf sf' ∧
    wf sf' ∧ same_ports sf sf' ∧ (no_null sf → no_null sf').
Proof.
  intros Hwf Hn Hline Hresp Hunc Hreq. unfold updateResponse.
  assert (isSnooping p = true) as Hs by (by eapply Hwf).
  rewrite Hresp, Hunc, Hs, Hline. cbn [assert_ mbind res_bind orb negb].
  destruct (cachedLocations sf !! line) as [it|] eqn:Hl.
  2: { unfold requests, item in Hreq. rewrite Hl in Hreq. cbn in Hreq. by rewrite Z.bits_0 in Hreq. }
  assert (it = item sf line) as -> by (unfold item; by rewrite Hl).
  rewrite (portToMask_numbered sf p (Some i)) by (done || apply Hwf). cbn [mbind res_bind].
  rewrite land_mask_eqb. fold (requests sf line i). rewrite Hreq. cbn [negb panic_if mbind res_bind].
  destruct (fill_item sf cpkt i line Hwf) as (Hok & Hb & Hf); [by eapply lookup_lt_Some|].
  cbv zeta in Hok, Hb, Hf.
  match goal with |- context [assert_ (negb (?x =? 0))] => destruct (Z.eqb_spec x 0) as [Hz|_] end.
  { by destruct (nonzero_bit _ _ _ Hb Hz). }
  cbn [negb assert_ mbind res_bind]. eexists. split; [done|]. split; [done|].
  split; [by apply wf_set_item|]. split; [done|]. intros Hnn.
  apply no_null_set_item; [done|]. cbn [requested holder]. rewrite Z.lor_comm. by eapply nonzero_bit.
Qed.

Lemma updateSnoopResponse_ok sf cpkt rp p ri i line :
  wf sf → numbered sf p (Some i) → numbered sf rp (Some ri) → line_addr sf cpkt = Ok line →
  isResponse cpkt = true → cacheResponding cpkt = true → isWriteback cpkt = false →
  Request.isUncacheable (req cpkt) = false →
  requests sf line i = true → holds sf line ri = true →
  ∃ sf', updateSnoopResponse cpkt rp p sf = Ok sf' ∧ filled cpkt i line sf sf' ∧
    wf sf' ∧ same_ports sf sf' ∧ (no_null sf → no_null sf').
Proof.
  intros Hwf Hn Hrn Hline Hresp Hcr Hwb Hunc Hreq Hhold. unfold updateSnoopResponse.
  assert (isSnooping p = true) as Hs by (by eapply Hwf).
  rewrite Hresp, Hcr, Hunc, Hs, Hline. cbn [assert_ mbind res_bind orb negb].
  rewrite (portToMask_numbered sf rp (Some ri)), (portToMask_numbered sf p (Some i))
    by (done || apply Hwf). cbn [mbind res_bind]. fold (item sf line).
  rewrite !land_mask_eqb. fold (requests sf line i) (holds sf line ri). rewrite Hreq, Hhold, Hwb.
  cbn [negb panic_if mbind res_bind assert_].
  destruct (fill_item sf cpkt i line Hwf) as (Hok & Hb & Hf); [by eapply lookup_lt_Some|].
  cbv zeta in Hok, Hb, Hf.
  match goal with |- context [assert_ (negb (?x =? 0))] => destruct (Z.eqb_spec x 0) as [Hz|_] end.
  { rewrite Z.lor_comm in Hz. by destruct (nonzero_bit _ _ _ Hb Hz). }
  cbn [negb assert_ mbind res_bind]. eexists. split; [done|]. split; [done|].
  split; [by apply wf_set_item|]. split; [done|]. intros Hnn.
  apply no_null_set_item; [done|]. cbn [requested holder]. rewrite Z.lor_comm. by eapply nonzero_bit.
Qed.

(** Clearing the holders of a line (by a snoop that invalidates it, or an unshared
    response) and dropping the entry if it became null. *)
Lemma clear_holders sf line it (clear : bool) :
  wf sf → cachedLocations sf !! line = Some it →
  ∃ sf', eraseIfNullEntry line
      (if clear then set_item line (mkItem (requested it) 0) sf else sf) = Ok sf' ∧
    wf sf' ∧ same_ports sf sf' ∧ (no_null sf → no_null sf') ∧
    (∀ l j, requests sf' l j = requests sf l j ∧
            holds sf' l j = holds sf l j && negb (clear && bool_decide (l = line))).
Proof.
  intros Hwf Hl. set (sf1 := if clear then _ else sf).
  set (it1 := if clear then mkItem (requested it) 0 else it).
  assert (Hl1 : cachedLocations sf1 !! line = Some it1)
    by (unfold sf1, it1; destruct clear; [apply lookup_insert_eq|done]).
  assert (Hwf1 : wf sf1).
  { unfold sf1. destruct clear; [|done]. apply wf_set_item; [done|].
    destruct Hwf as [_ Hw]. destruct (Hw line it Hl) as [Hr _].
    split; cbn [requested holder]; [done|apply in_width_0; lia]. }
  destruct (eraseIfNullEntry_spec line it1 sf1 Hl1)
    as (sf' & -> & Hsame & Hitems & Hw' & Hsub & _ & Hself & _ & _).
  exists sf'. split; [done|]. split; [by apply Hw'|].
  split; [by unfold sf1 in Hsame; destruct clear|]. split.
  - intros Hnn l it' Hl'. destruct (decide (l = line)) as [->|Hne].
    + destruct (Hself it' Hl') as [-> ?]. done.
    + apply Hsub in Hl'. unfold sf1 in Hl'. destruct clear; cbn in Hl';
        rewrite ?lookup_insert_ne in Hl' by done; by eapply Hnn.
  - intros l j. unfold requests, holds. rewrite !Hitems. unfold sf1.
    destruct clear; cbn [andb negb]; [|by rewrite andb_true_r].
    rewrite item_set. destruct (decide (line = l)) as [<-|Hne].
    + rewrite bool_decide_eq_true_2 by done. cbn [requested holder negb].
      rewrite Z.bits_0, andb_false_r. unfold item. by rewrite Hl.
    + rewrite bool_decide_eq_false_2 by done. by rewrite andb_true_r.
Qed.

Lemma updateSnoopForward_ok sf cpkt rp line :
  wf sf → line_addr sf cpkt = Ok line → isResponse cpkt = true → cacheResponding cpkt = true →
  ∃ sf', updateSnoopForward cpkt rp sf = Ok sf' ∧
    wf sf' ∧ same_ports sf sf' ∧ (no_null sf → no_null sf') ∧
    (∀ l j, requests sf' l j = requests sf l j ∧
            holds sf' l j = holds sf l j && negb (negb (hasSharers cpkt) && bool_decide (l = line))).
Proof.
  intros Hwf Hline Hresp Hcr. unfold updateSnoopForward. rewrite Hresp, Hcr, Hline.
  cbn [assert_ mbind res_bind].
  destruct (cachedLocations sf !! line) as [it|] eqn:Hl; [by apply clear_holders|].
  exists sf. split_and!; try done. intros l j. split; [done|].
  destruct (decide (l = line)) as [->|Hne].
  - unfold holds, item. rewrite Hl. cbn. by rewrite Z.bits_0.
  - rewrite (bool_decide_eq_false_2 (l = line)) by done. by rewrite andb_false_r, andb_true_r.
Qed.

(** The snoop's command is one the filter understands. *)
Definition snoop_ok (cpkt : Packet) : bool :=
  isRequest cpkt && (isWriteback cpkt || Request.isUncacheable (req cpkt) ||
    Bool.eqb (isInvalidate cpkt) (MemCmd.needsWritable (cmd cpkt))).

(** No request is in flight for the line. *)
Definition quiet (sf : SnoopFilter) (line : Z) : bool := requested (item sf line) =? 0.

Lemma lookupSnoop_ok sf cpkt line :
  wf sf → line_addr sf cpkt = Ok line → snoop_ok cpkt = true →
  (cachedLocations sf !! line = None →
     Z.of_nat (base.size (cachedLocations sf)) < maxEntryCount sf) →
  ∃ sf' ports, lookupSnoop cpkt sf = Ok (sf', (ports, lookupLatency sf)) ∧
    wf sf' ∧ same_ports sf sf' ∧ (no_null sf → no_null sf') ∧
    (∀ q, q ∈ ports ↔ ∃ i, slavePorts sf !! i = Some q ∧
       requests sf line i || holds sf line i = true) ∧
    (∀ l j, requests sf' l j = requests sf l j ∧
            holds sf' l j = holds sf l j &&
              negb (isInvalidate cpkt && quiet sf line && bool_decide (l = line))).
Proof.
  intros Hwf Hline Hsn Hcap. unfold snoop_ok in Hsn. apply andb_true_iff in Hsn as [Hreq Hsn].
  unfold lookupSnoop. rewrite Hreq, Hline. cbn [assert_ mbind res_bind].
  destruct (cachedLocations sf !! line) as [it|] eqn:Hl.
  2: { rewrite bool_decide_eq_false_2 by (by intros [? ?]). cbn [negb andb].
       specialize (Hcap eq_refl).
       destruct (Z.leb_spec (maxEntryCount sf) (Z.of_nat (base.size (cachedLocations sf)))); [lia|].
       cbn [panic_if mbind res_bind]. eexists _, _. split; [done|].
       split_and!; try done.
       - intros q. split; [intros []%elem_of_nil|]. intros (i & _ & Hb).
         unfold requests, holds, item in Hb. rewrite Hl in Hb. cbn in Hb. by rewrite Z.bits_0 in Hb.
       - intros l j. split; [done|]. destruct (decide (l = line)) as [->|Hne].
         + unfold holds, item. rewrite Hl. cbn. by rewrite Z.bits_0.
         + rewrite (bool_decide_eq_false_2 (l = line)) by done. by rewrite andb_false_r, andb_true_r. }
  rewrite bool_decide_eq_true_2 by done. cbn [negb andb panic_if mbind res_bind deref].
  set (sf1 := with_stats _ sf).
  assert ((if isWriteback cpkt || Request.isUncacheable (req cpkt) then Ok true
     else w ← needsWritable cpkt; Ok (Bool.eqb (isInvalidate cpkt) w)) = Ok true) as ->.
  { unfold needsWritable. rewrite Hreq. cbn [assert_ mbind res_bind].
    destruct (isWriteback cpkt || Request.isUncacheable (req cpkt)); [done|]. cbn [orb] in Hsn. by rewrite Hsn. }
  cbn [mbind res_bind assert_].
  destruct (clear_holders sf1 line it (isInvalidate cpkt && (requested it =? 0)))
    as (sf' & -> & Hwf' & Hsame & Hnn & Hrel); [done|done|].
  cbn [mbind res_bind].
  destruct (maskToPortList_spec sf' (Z.lor (holder it) (requested it))) as (ports & -> & Hq); [apply Hwf'|].
  cbn [mbind res_bind]. eexists _, ports.
  assert (lookupLatency sf' = lookupLatency sf) as -> by apply Hsame. split; [done|].
  split_and!; try done.
  - intros q. rewrite Hq. destruct Hsame as (-> & _). unfold requests, holds, item. rewrite Hl.
    cbn [default from_option id]. setoid_rewrite Z.lor_spec. setoid_rewrite orb_comm at 1. done.
  - intros l j. destruct (Hrel l j) as [-> ->]. split; [done|]. unfold quiet, item. by rewrite Hl.
Qed.

(** ** The invariant of reachable states *)

Definition tracked_ok (tracked : list SlavePort) (ids : list Z) : Prop :=
  ∀ i p, tracked !! i = Some p →
    isSnooping p = true ∧ 0 ≤ getId p ∧ ids !! Z.to_nat (getId p) = Some (Z.of_nat i).

Lemma track_ports_spec ps tracked ids :
  NoDup (getId <$> ps) → (∀ p, p ∈ ps → 0 ≤ getId p < vsize ids) →
  (∀ p q, p ∈ tracked → q ∈ ps → getId p ≠ getId q) → tracked_ok tracked ids →
  ∃ ids', track_ports ps tracked ids (Z.of_nat (length tracked)) =
      Ok (tracked ++ filter (λ p, isSnooping p = true) ps, ids',
          Z.of_nat (length (tracked ++ filter (λ p, isSnooping p = true) ps))) ∧
    tracked_ok (tracked ++ filter (λ p, isSnooping p = true) ps) ids'.
Proof.
  revert tracked ids. induction ps as [|p ps IH]; intros tracked ids Hnd Hids Hdis Hok.
  { exists ids. cbn. rewrite app_nil_r. done. }
  rewrite fmap_cons in Hnd. apply NoDup_cons in Hnd as [Hnot Hnd]. cbn [track_ports].
  destruct (isSnooping p) eqn:Hs.
  - rewrite filter_cons_True by done.
    assert (0 ≤ getId p < vsize ids) as Hp by (apply Hids; left).
    rewrite vwrite_ok by done. cbn [mbind res_bind].
    destruct (IH (tracked ++ [p]) (<[Z.to_nat (getId p) := Z.of_nat (length tracked)]> ids))
      as (ids' & Hrun & Hok'); try done.
    + intros q Hq. rewrite vsize_insert. apply Hids. by right.
    + intros q q' Hq Hq'. apply elem_of_app in Hq as [Hq|Hq].
      * apply Hdis; [done|by right].
      * apply list_elem_of_singleton in Hq as ->. intros He. apply Hnot. rewrite He.
        by apply list_elem_of_fmap_2.
    + intros i q Hi. apply lookup_app_Some in Hi as [Hi|[Hlen Hi]].
      * destruct (Hok i q Hi) as (Hsq & H0 & Hq). split_and!; try done.
        rewrite list_lookup_insert_ne; [done|]. intros He.
        apply (Hdis q p); [by eapply list_elem_of_lookup_2|left|lia].
      * apply list_lookup_singleton_Some in Hi as [Hi ->]. split_and!; [done|lia|].
        rewrite list_lookup_insert_eq by (unfold vsize in Hp; lia). f_equal. lia.
    + exists ids'. rewrite <- app_assoc in Hrun, Hok'. cbn [app] in Hrun, Hok'. split; [|done].
      rewrite <- Hrun. f_equal. rewrite length_app. cbn. lia.
  - rewrite filter_cons_False by congruence. apply IH; try done.
    + intros q Hq. apply Hids. by right.
    + intros q q' Hq Hq'. apply Hdis; [done|by right].
Qed.

(** The ports of a crossbar are numbered from 0. *)
Definition crossbar_ports (ps : list SlavePort) : Prop :=
  ∀ k p, ps !! k = Some p → getId p = Z.of_nat k.

Lemma crossbar_track ps ids :
  crossbar_ports ps → length ids = length ps →
  ∃ ids', track_ports ps [] ids 0 =
      Ok (filter (λ p, isSnooping p = true) ps, ids',
          Z.of_nat (length (filter (λ p, isSnooping p = true) ps))) ∧
    tracked_ok (filter (λ p, isSnooping p = true) ps) ids'.
Proof.
  intros Hps Hids. apply (track_ports_spec ps [] ids).
  - apply NoDup_alt. intros i j x Hi Hj. rewrite list_lookup_fmap in Hi, Hj.
    destruct (ps !! i) as [p|] eqn:Hp; [|done]. destruct (ps !! j) as [q|] eqn:Hq; [|done].
    cbn in Hi, Hj. apply Hps in Hp, Hq. simplify_eq. lia.
  - intros p Hp. apply list_elem_of_lookup in Hp as [k Hk]. rewrite (Hps k p Hk).
    apply lookup_lt_Some in Hk. unfold vsize. lia.
  - intros p q Hp. by apply elem_of_nil in Hp.
  - intros i p Hi. by rewrite lookup_nil in Hi.
Qed.

Lemma setSlavePorts_ok ps cls lat cap :
  crossbar_ports ps → (length (filter (λ p, isSnooping p = true) ps) ≤ 64)%nat →
  ∃ sf, setSlavePorts ps (newSnoopFilter cls lat cap) = Ok sf ∧ wf sf ∧ no_null sf ∧
    slavePorts sf = filter (λ p, isSnooping p = true) ps.
Proof.
  intros Hps Hlen. unfold setSlavePorts. cbn [localSlavePortIds slavePorts newSnoopFilter].
  set (ids := resize [] (length ps) InvalidPortID).
  destruct (crossbar_track ps ids Hps) as (ids' & -> & Hok).
  { unfold ids, resize. rewrite take_nil. cbn. rewrite length_replicate. lia. }
  cbn [mbind res_bind].
  destruct (Z.ltb_spec 64 (Z.of_nat (length (filter (λ p, isSnooping p = true) ps)))); [lia|].
  eexists. split; [done|]. split; [|split; [|done]].
  - split; [split; done|]. intros l it Hl. cbn in Hl. by rewrite lookup_empty in Hl.
  - intros l it Hl. cbn in Hl. by rewrite lookup_empty in Hl.
Qed.

(** A request as the crossbar performs it: look up, then finish with the verdict of the
    downstream port. *)
Definition request (cpkt : Packet) (p : SlavePort) (will_retry : bool) (sf : SnoopFilter) :
    res (SnoopFilter * (list SlavePort * Z)) :=
  '(sf, ports) ← lookupRequest cpkt p sf;
  a ← getAddr cpkt;
  s ← isSecure cpkt;
  sf ← finishRequest will_retry a s sf;
  Ok (sf, ports).

(** The operations a crossbar performs on its filter. *)
Inductive Op :=
  | OpRequest (cpkt : Packet) (p : SlavePort) (will_retry : bool)
  | OpSnoop (cpkt : Packet)
  | OpSnoopResponse (cpkt : Packet) (rsp_port req_port : SlavePort)
  | OpSnoopForward (cpkt : Packet) (rsp_port : SlavePort)
  | OpResponse (cpkt : Packet) (p : SlavePort).

(** What an operation does to the filter, with the ports of the crossbar. *)
Inductive step (sf : SnoopFilter) : Op → SnoopFilter → Prop :=
  | step_request cpkt p oi will_retry sf' r :
      numbered sf p oi → request cpkt p will_retry sf = Ok (sf', r) →
      step sf (OpRequest cpkt p will_retry) sf'
  | step_snoop cpkt sf' r :
      lookupSnoop cpkt sf = Ok (sf', r) → step sf (OpSnoop cpkt) sf'
  | step_snoopResponse cpkt rp ri p oi sf' :
      numbered sf p oi → numbered sf rp ri →
      updateSnoopResponse cpkt rp p sf = Ok sf' → step sf (OpSnoopResponse cpkt rp p) sf'
  | step_snoopForward cpkt rp sf' :
      updateSnoopForward cpkt rp sf = Ok sf' → step sf (OpSnoopForward cpkt rp) sf'
  | step_response cpkt p oi sf' :
      numbered sf p oi → updateResponse cpkt p sf = Ok sf' → step sf (OpResponse cpkt p) sf'.

Inductive reachable : SnoopFilter → Prop :=
  | reach_init ps cls lat cap sf :
      crossbar_ports ps → setSlavePorts ps (newSnoopFilter cls lat cap) = Ok sf → reachable sf
  | reach_step sf o sf' : reachable sf → step sf o sf' → reachable sf'.

(** Successful operations had what they need. *)
Lemma request_inv sf cpkt p oi will_retry sf' r :
  wf sf → no_null sf → numbered sf p oi → request cpkt p will_retry sf = Ok (sf', r) →
  ∃ line sf1 ports, line_addr sf cpkt = Ok line ∧ r = (ports, lookupLatency sf) ∧
    (∀ i, allocates cpkt p = true → oi = Some i →
       legal cpkt (requests sf line i) (holds sf line i) = true) ∧
    lookup_outcome cpkt (allocates cpkt p) oi line sf sf1 ports ∧
    wf sf' ∧ same_ports sf sf' ∧ no_null sf' ∧
    (will_retry = true → cachedLocations sf' = cachedLocations sf) ∧
    (will_retry = false → ∀ l, item sf' l = item sf1 l).
Proof.
  intros Hwf Hnn Hn. unfold request. destruct (line_addr sf cpkt) as [line|e] eqn:Hline.
  2: { unfold lookupRequest. by rewrite Hline. }
  assert ((∀ i, allocates cpkt p = true → oi = Some i →
      legal cpkt (requests sf line i) (holds sf line i) = true) ∨
    ∃ e, lookupRequest cpkt p sf = Fail e) as [Hlegal|[e ->]]; [|  |done].
  { destruct oi as [i|]; [|by left].
    destruct (allocates cpkt p) eqn:Hal; [|by left].
    destruct (legal cpkt (requests sf line i) (holds sf line i)) eqn:Hl.
    - left. by intros ? _ [= <-].
    - right. by eapply lookupRequest_illegal. }
  destruct (lookupRequest_ok sf cpkt p oi line Hwf Hn Hline Hlegal) as (sf1 & ports & -> & Ho).
  cbn [mbind res_bind]. unfold getAddr, isSecure.
  destruct (line_addr_inv _ _ _ Hline) as [Hv _]. rewrite Hv. cbn [assert_ mbind res_bind].
  destruct (finishRequest_after_lookup sf cpkt _ oi line sf1 ports will_retry Hwf Hnn Hline Ho)
    as (sf2 & -> & Hwf2 & Hsame2 & Hnn2 & Hret & Hcom).
  cbn [mbind res_bind]. intros [= <- <-]. by exists line, sf1, ports.
Qed.

(** What one step does to the relations, for the operation that made it. *)
Lemma lookupSnoop_inv sf cpkt sf' r :
  wf sf → lookupSnoop cpkt sf = Ok (sf', r) →
  ∃ line, line_addr sf cpkt = Ok line ∧ wf sf' ∧ same_ports sf sf' ∧ (no_null sf → no_null sf') ∧
    (∀ l j, requests sf' l j = requests sf l j ∧
            holds sf' l j = holds sf l j &&
              negb (isInvalidate cpkt && quiet sf line && bool_decide (l = line))).
Proof.
  intros Hwf Hrun. destruct (line_addr sf cpkt) as [line|e] eqn:Hline.
  2: { unfold lookupSnoop in Hrun. rewrite Hline in Hrun. by destruct (isRequest cpkt). }
  exists line. split; [done|].
  destruct (decide (cachedLocations sf !! line = None ∧
    maxEntryCount sf ≤ Z.of_nat (base.size (cachedLocations sf)))) as [[Hl Hc]|Hcap].
  { exfalso. unfold lookupSnoop in Hrun. rewrite Hline in Hrun. cbn [mbind res_bind] in Hrun. rewrite Hl in Hrun.
    destruct (isRequest cpkt); [|done]. cbn [assert_ mbind res_bind] in Hrun.
    rewrite bool_decide_eq_false_2 in Hrun by (by intros [? ?]). cbn [negb andb] in Hrun.
    by destruct (Z.leb_spec (maxEntryCount sf) (Z.of_nat (base.size (cachedLocations sf)))); [|lia]. }
  destruct (cachedLocations sf !! line) as [it|] eqn:Hl.
  - assert (snoop_ok cpkt = true) as Hsn.
    { unfold lookupSnoop in Hrun. rewrite Hline in Hrun. cbn [mbind res_bind] in Hrun. rewrite Hl in Hrun. unfold snoop_ok.
      destruct (isRequest cpkt) eqn:Hr; [|done]. cbn [assert_ mbind res_bind] in Hrun.
      rewrite bool_decide_eq_true_2 in Hrun by done.
      cbn [negb andb panic_if mbind res_bind deref] in Hrun. unfold needsWritable in Hrun.
      rewrite Hr in Hrun. cbn [assert_ mbind res_bind] in Hrun. cbn [andb].
      destruct (isWriteback cpkt || Request.isUncacheable (req cpkt)); [done|].
      cbn [orb mbind res_bind] in Hrun |- *. by destruct (Bool.eqb _ _). }
    destruct (lookupSnoop_ok sf cpkt line Hwf Hline Hsn) as (sf2 & ports & Hrun2 & ? & ? & ? & _ & ?).
    { by rewrite Hl. }
    rewrite Hrun in Hrun2. simplify_eq. done.
  - unfold lookupSnoop in Hrun. rewrite Hline in Hrun. cbn [mbind res_bind] in Hrun. rewrite Hl in Hrun.
    destruct (isRequest cpkt); [|done]. cbn [assert_ mbind res_bind] in Hrun.
    rewrite bool_decide_eq_false_2 in Hrun by (by intros [? ?]). cbn [negb andb] in Hrun.
    destruct (Z.leb_spec (maxEntryCount sf) (Z.of_nat (base.size (cachedLocations sf)))); [done|].
    cbn [panic_if mbind res_bind] in Hrun. simplify_eq. split_and!; try done. intros l j.
    split; [done|]. destruct (decide (l = line)) as [->|Hne].
    + unfold holds, item. rewrite Hl. cbn. by rewrite Z.bits_0.
    + rewrite (bool_decide_eq_false_2 (l = line)) by done. by rewrite andb_false_r, andb_true_r.
Qed.

Lemma updateResponse_inv sf cpkt p oi sf' :
  wf sf → numbered sf p oi → updateResponse cpkt p sf = Ok sf' →
  sf' = sf ∨ ∃ i line, oi = Some i ∧ line_addr sf cpkt = Ok line ∧ isResponse cpkt = true ∧
    requests sf line i = true ∧
    filled cpkt i line sf sf' ∧ wf sf' ∧ same_ports sf sf' ∧ (no_null sf → no_null sf').
Proof.
  intros Hwf Hn Hrun. pose proof Hrun as Hrun'. unfold updateResponse in Hrun.
  destruct (isResponse cpkt) eqn:Hr; [|done].
  destruct (Request.isUncacheable (req cpkt)) eqn:Hu; cbn [assert_ mbind res_bind orb] in Hrun;
    [left; congruence|].
  destruct (isSnooping p) eqn:Hs; cbn [negb] in Hrun; [|left; congruence].
  destruct (line_addr sf cpkt) as [line|e] eqn:Hline; [|done]. cbn [mbind res_bind] in Hrun.
  destruct (cachedLocations sf !! line) as [it|] eqn:Hl; [|left; congruence].
  destruct oi as [i|]; [|destruct Hn; congruence].
  rewrite (portToMask_numbered sf p (Some i)) in Hrun by (done || apply Hwf).
  cbn [mbind res_bind] in Hrun. rewrite land_mask_eqb in Hrun.
  assert (it = item sf line) as -> by (unfold item; by rewrite Hl).
  fold (requests sf line i) in Hrun. destruct (requests sf line i) eqn:Hreq; [|done].
  right. exists i, line. destruct (updateResponse_ok sf cpkt p i line) as (sf2 & Hrun2 & ?); try done.
  rewrite Hrun' in Hrun2. simplify_eq. naive_solver.
Qed.

Lemma updateSnoopResponse_inv sf cpkt rp ri p oi sf' :
  wf sf → numbered sf p oi → numbered sf rp ri → updateSnoopResponse cpkt rp p sf = Ok sf' →
  sf' = sf ∨ ∃ i line, oi = Some i ∧ line_addr sf cpkt = Ok line ∧ isResponse cpkt = true ∧
    requests sf line i = true ∧
    filled cpkt i line sf sf' ∧ wf sf' ∧ same_ports sf sf' ∧ (no_null sf → no_null sf').
Proof.
  intros Hwf Hn Hrn Hrun. pose proof Hrun as Hrun'. unfold updateSnoopResponse in Hrun.
  destruct (isResponse cpkt) eqn:Hr; [|done]. cbn [assert_ mbind res_bind] in Hrun.
  destruct (cacheResponding cpkt) eqn:Hc; [|done].
  destruct (Request.isUncacheable (req cpkt)) eqn:Hu; cbn [assert_ mbind res_bind orb] in Hrun;
    [left; congruence|].
  destruct (isSnooping p) eqn:Hs; cbn [negb] in Hrun; [|left; congruence].
  destruct (line_addr sf cpkt) as [line|e] eqn:Hline; [|done]. cbn [mbind res_bind] in Hrun.
  destruct oi as [i|]; [|destruct Hn; congruence].
  rewrite (portToMask_numbered sf rp ri), (portToMask_numbered sf p (Some i)) in Hrun
    by (done || apply Hwf).
  cbn [mbind res_bind] in Hrun. fold (item sf line) in Hrun.
  destruct ri as [ri|]; [|cbn [mask_of] in Hrun; by rewrite Z.land_0_r in Hrun].
  rewrite !land_mask_eqb in Hrun. fold (requests sf line i) (holds sf line ri) in Hrun.
  destruct (holds sf line ri) eqn:Hh; [|done]. cbn [negb panic_if mbind res_bind] in Hrun.
  destruct (requests sf line i) eqn:Hreq; [|done]. cbn [negb panic_if mbind res_bind] in Hrun.
  destruct (isWriteback cpkt) eqn:Hwb; [done|].
  right. exists i, line.
  destruct (updateSnoopResponse_ok sf cpkt rp p ri i line) as (sf2 & Hrun2 & ?); try done.
  rewrite Hrun' in Hrun2. simplify_eq. naive_solver.
Qed.

Lemma updateSnoopForward_inv sf cpkt rp sf' :
  wf sf → updateSnoopForward cpkt rp sf = Ok sf' →
  ∃ line, line_addr sf cpkt = Ok line ∧ isResponse cpkt = true ∧
    wf sf' ∧ same_ports sf sf' ∧ (no_null sf → no_null sf') ∧
    (∀ l j, requests sf' l j = requests sf l j ∧
            holds sf' l j = holds sf l j && negb (negb (hasSharers cpkt) && bool_decide (l = line))).
Proof.
  intros Hwf Hrun. pose proof Hrun as Hrun'. unfold updateSnoopForward in Hrun.
  destruct (isResponse cpkt) eqn:Hr; [|done]. destruct (cacheResponding cpkt) eqn:Hc; [|done].
  destruct (line_addr sf cpkt) as [line|e] eqn:Hline; [|done]. exists line.
  destruct (updateSnoopForward_ok sf cpkt rp line) as (sf2 & Hrun2 & ?); try done.
  rewrite Hrun' in Hrun2. simplify_eq. naive_solver.
Qed.

(** ** The theorems *)

(** A lookup forwards a request to exactly the other ports that have the line or have
    asked for it, never back to the requester, and records the request: a tracked
    request that will be answered from below becomes an outstanding request of its port, an
    eviction removes its port from the holders unless a cache above still has the block,
    and nothing else changes, in this line or in any other.  A tracked request the protocol
    does not allow (a second request for the line, a promised answer or an eviction from a
    port that does not have it) stops the simulation. *)
Theorem lookupRequest_tracks (sf : SnoopFilter) (cpkt : Packet) (p : SlavePort)
    (oi : option nat) (line : Z) :
  wf sf → numbered sf p oi → line_addr sf cpkt = Ok line →
  match oi with
  | Some i => if allocates cpkt p && negb (legal cpkt (requests sf line i) (holds sf line i))
              then ∃ e, lookupRequest cpkt p sf = Fail e else True
  | None => True
  end ∧
  ((∀ i, allocates cpkt p = true → oi = Some i →
     legal cpkt (requests sf line i) (holds sf line i) = true) →
   ∃ sf' ports, lookupRequest cpkt p sf = Ok (sf', (ports, lookupLatency sf)) ∧ wf sf' ∧
     (∀ q, q ∈ ports ↔ ∃ i, slavePorts sf !! i = Some q ∧ oi ≠ Some i ∧
        requests sf line i || holds sf line i = true) ∧
     (∀ l j, requests sf' l j = requests sf l j ||
        (allocates cpkt p && adds cpkt && bool_decide (l = line ∧ oi = Some j))) ∧
     (∀ l j, holds sf' l j = holds sf l j &&
        negb (allocates cpkt p && gives_up cpkt && bool_decide (l = line ∧ oi = Some j)))).
Proof.
  intros Hwf Hn Hline. split.
  - destruct oi as [i|]; [|done]. destruct (allocates cpkt p) eqn:Hal; [|done].
    destruct (legal cpkt (requests sf line i) (holds sf line i)) eqn:Hl; [done|].
    by eapply lookupRequest_illegal.
  - intros Hlegal. destruct (lookupRequest_ok sf cpkt p oi line Hwf Hn Hline Hlegal)
      as (sf' & ports & Hrun & Ho).
    exists sf', ports. split; [done|]. split; [by eapply lo_wf|]. split; [by eapply lo_ports|].
    destruct (lo_item _ _ _ _ _ _ _ Ho) as [Hr Hh].
    split; intros l j; (destruct (decide (l = line)) as [->|Hne];
      [|rewrite (bool_decide_eq_false_2 (l = line ∧ _)) by naive_solver;
        unfold requests, holds, item; rewrite (lo_other _ _ _ _ _ _ _ Ho) by done;
        by rewrite ?andb_false_r, ?orb_false_r, ?andb_true_r]).
    + unfold requests. rewrite Hr. do 2 f_equal. by do 2 case_bool_decide; naive_solver.
    + unfold holds. rewrite Hh. do 3 f_equal. by do 2 case_bool_decide; naive_solver.
Qed.

(** A request that has to be retried leaves no trace: looking it up and finishing it
    with [will_retry] succeeds whenever the lookup does, and the table is what it was
    before, including entries the lookup had created. *)
Theorem retry_leaves_no_trace (sf : SnoopFilter) (cpkt : Packet) (p : SlavePort) (oi : option nat) :
  wf sf → no_null sf → numbered sf p oi →
  is_ok (lookupRequest cpkt p sf) = true →
  ∃ sf' r, request cpkt p true sf = Ok (sf', r) ∧ cachedLocations sf' = cachedLocations sf.
Proof.
  intros Hwf Hnn Hn Hok.
  assert (is_ok (request cpkt p true sf) = true) as Hreq.
  { destruct (line_addr sf cpkt) as [line|e] eqn:Hline.
    2: { unfold lookupRequest in Hok. by rewrite Hline in Hok. }
    assert (∀ i, allocates cpkt p = true → oi = Some i →
      legal cpkt (requests sf line i) (holds sf line i) = true) as Hlegal.
    { intros i Hal ->. destruct (legal _ _ _) eqn:Hl; [done|].
      destruct (lookupRequest_illegal sf cpkt p i line) as [e He]; try done. by rewrite He in Hok. }
    destruct (lookupRequest_ok sf cpkt p oi line Hwf Hn Hline Hlegal) as (sf1 & ports & Hrun & Ho).
    unfold request. rewrite Hrun. cbn [mbind res_bind]. unfold getAddr, isSecure.
    destruct (line_addr_inv _ _ _ Hline) as [Hv _]. rewrite Hv. cbn [assert_ mbind res_bind].
    by destruct (finishRequest_after_lookup sf cpkt _ oi line sf1 ports true Hwf Hnn Hline Ho)
      as (sf2 & -> & _). }
  destruct (request cpkt p true sf) as [[sf' r]|e] eqn:Hrun; [|done]. exists sf', r. split; [done|].
  destruct (request_inv sf cpkt p oi true sf' r Hwf Hnn Hn Hrun)
    as (? & ? & ? & _ & _ & _ & _ & _ & _ & _ & Hret & _). by apply Hret.
Qed.

(** A response from below hands the line to its requester: the port's outstanding
    request is over and it is a holder; the other holders remain exactly if the response
    says the line is shared; other lines are unchanged.  A response for a line that is
    tracked but that this port did not ask for stops the simulation. *)
Theorem updateResponse_fills (sf : SnoopFilter) (cpkt : Packet) (p : SlavePort) (i : nat) (line : Z) :
  wf sf → numbered sf p (Some i) → line_addr sf cpkt = Ok line →
  isResponse cpkt = true → Request.isUncacheable (req cpkt) = false →
  if requests sf line i then
    ∃ sf', updateResponse cpkt p sf = Ok sf' ∧ filled cpkt i line sf sf' ∧ wf sf'
  else if bool_decide (is_Some (cachedLocations sf !! line))
  then updateResponse cpkt p sf = Fail Panicked
  else updateResponse cpkt p sf = Ok sf.
Proof.
  intros Hwf Hn Hline Hresp Hunc. destruct (requests sf line i) eqn:Hreq.
  - destruct (updateResponse_ok sf cpkt p i line) as (sf' & ? & ? & ? & _); try done. by exists sf'.
  - unfold updateResponse. assert (isSnooping p = true) as Hs by (by eapply Hwf).
    rewrite Hresp, Hunc, Hs, Hline. cbn [assert_ mbind res_bind orb negb].
    destruct (cachedLocations sf !! line) as [it|] eqn:Hl; [|by rewrite bool_decide_eq_false_2 by (by intros [? ?])].
    rewrite bool_decide_eq_true_2 by done.
    rewrite (portToMask_numbered sf p (Some i)) by (done || apply Hwf). cbn [mbind res_bind].
    rewrite land_mask_eqb. assert (it = item sf line) as -> by (unfold item; by rewrite Hl).
    fold (requests sf line i). by rewrite Hreq.
Qed.

(** A snoop from below is forwarded to exactly the ports that have the line or have
    asked for it.  It removes the holders only if it invalidates the line and no request for
    it is in flight, and never touches outstanding requests or other lines. *)
Theorem lookupSnoop_forwards (sf : SnoopFilter) (cpkt : Packet) (line : Z) :
  wf sf → no_null sf → line_addr sf cpkt = Ok line → snoop_ok cpkt = true →
  (cachedLocations sf !! line = None →
     Z.of_nat (base.size (cachedLocations sf)) < maxEntryCount sf) →
  ∃ sf' ports, lookupSnoop cpkt sf = Ok (sf', (ports, lookupLatency sf)) ∧
    (∀ q, q ∈ ports ↔ ∃ i, slavePorts sf !! i = Some q ∧
       requests sf line i || holds sf line i = true) ∧
    (∀ l j, requests sf' l j = requests sf l j) ∧
    (∀ l j, holds sf' l j = holds sf l j &&
       negb (isInvalidate cpkt && quiet sf line && bool_decide (l = line))) ∧
    wf sf' ∧ no_null sf'.
Proof.
  intros Hwf Hnn Hline Hsn Hcap.
  destruct (lookupSnoop_ok sf cpkt line Hwf Hline Hsn Hcap) as (sf' & ports & Hrun & Hwf' & _ & Hn & Hp & Hr).
  exists sf', ports. split_and!; try done; [| |by apply Hn]; intros l j; by destruct (Hr l j).
Qed.

Lemma step_invariant sf o sf' : wf sf ∧ no_null sf → step sf o sf' → wf sf' ∧ no_null sf'.
Proof.
  intros [Hwf Hnn] Hstep. destruct Hstep as
    [cpkt p oi rt sf' r Hn Hrun|cpkt sf' r Hrun|cpkt rp ri p oi sf' Hn Hrn Hrun|cpkt rp sf' Hrun|cpkt p oi sf' Hn Hrun].
  - destruct (request_inv sf cpkt p oi rt sf' r Hwf Hnn Hn Hrun)
      as (? & ? & ? & _ & _ & _ & _ & ? & _ & ? & _). done.
  - destruct (lookupSnoop_inv sf cpkt sf' r Hwf Hrun) as (? & _ & ? & _ & ? & _). auto.
  - destruct (updateSnoopResponse_inv sf cpkt rp ri p oi sf' Hwf Hn Hrn Hrun)
      as [->|(? & ? & _ & _ & _ & _ & _ & ? & _ & ?)]; auto.
  - destruct (updateSnoopForward_inv sf cpkt rp sf' Hwf Hrun) as (? & _ & _ & ? & _ & ? & _). auto.
  - destruct (updateResponse_inv sf cpkt p oi sf' Hwf Hn Hrun)
      as [->|(? & ? & _ & _ & _ & _ & _ & ? & _ & ?)]; auto.
Qed.

Lemma reachable_invariant sf : reachable sf → wf sf ∧ no_null sf.
Proof.
  induction 1 as [ps cls lat cap sf Hps Hset|sf o sf' _ IH Hstep]; [|by eapply step_invariant].
  destruct (decide (length (filter (λ p, isSnooping p = true) ps) ≤ 64)%nat) as [Hle|Hgt].
  - destruct (setSlavePorts_ok ps cls lat cap Hps Hle) as (sf2 & Hset2 & ? & ? & _).
    rewrite Hset in Hset2. by simplify_eq.
  - exfalso. revert Hset. unfold setSlavePorts. cbn [localSlavePortIds slavePorts newSnoopFilter].
    set (ids := resize [] (length ps) InvalidPortID).
    destruct (crossbar_track ps ids Hps) as (ids' & -> & _).
    { unfold ids, resize. rewrite take_nil. cbn. rewrite length_replicate. lia. }
    cbn [mbind res_bind].
    by destruct (Z.ltb_spec 64 (Z.of_nat (length (filter (λ p, isSnooping p = true) ps)))); [|lia].
Qed.

Lemma nonzero_has_bit (n : nat) m :
  in_width (Z.of_nat n) m → m ≠ 0 → ∃ j : nat, (j < n)%nat ∧ Z.testbit m (Z.of_nat j) = true.
Proof.
  intros [H0 Hn] Hne. exists (Z.to_nat (Z.log2 m)). pose proof (Z.log2_nonneg m).
  rewrite Z2Nat.id by done. split; [|apply Z.bit_log2; lia].
  assert (Z.log2 m < Z.of_nat n) by (apply Z.log2_lt_pow2; lia). lia.
Qed.

(** In every state a crossbar can bring its filter to, every tracked line has an
    outstanding request or a holder, every bit of a mask stands for one of the crossbar's
    snooping ports, and the masks of different ports differ. *)
Theorem snoopFilter_invariant (sf : SnoopFilter) :
  reachable sf →
  (∀ l it, cachedLocations sf !! l = Some it →
     ∃ i p, slavePorts sf !! i = Some p ∧ requests sf l i || holds sf l i = true) ∧
  (∀ l (j : nat), requests sf l j || holds sf l j = true → is_Some (slavePorts sf !! j)) ∧
  (∀ i p, slavePorts sf !! i = Some p → portToMask sf p = Ok (2 ^ Z.of_nat i)).
Proof.
  intros Hr. apply reachable_invariant in Hr as [Hwf Hnn]. split_and!.
  - intros l it Hl. pose proof (Hnn l it Hl) as Hne.
    assert (item sf l = it) as Hit by (unfold item; by rewrite Hl).
    destruct (item_ok_wf sf l Hwf) as [Hrw Hhw]. rewrite Hit in Hrw, Hhw.
    assert (in_width (Z.of_nat (length (slavePorts sf))) (Z.lor (requested it) (holder it))) as Hw
      by (apply in_width_lor; done || lia).
    destruct (nonzero_has_bit _ _ Hw Hne) as (j & Hj & Hb).
    destruct (lookup_lt_is_Some_2 (slavePorts sf) j Hj) as [p Hp]. exists j, p. split; [done|].
    unfold requests, holds. rewrite Hit. by rewrite Z.lor_spec in Hb.
  - intros l j Hb. apply lookup_lt_is_Some_2. destruct (item_ok_wf sf l Hwf) as [Hrw Hhw].
    destruct (decide (j < length (slavePorts sf))%nat) as [|Hge]; [done|].
    unfold requests, holds in Hb. by rewrite !(testbit_out (Z.of_nat (length (slavePorts sf)))) in Hb
      by (done || lia).
  - intros i p Hp. apply (portToMask_numbered sf p (Some i)); [apply Hwf|done].
Qed.

(** The operation itself releases port [i]'s hold on line [l]: it is an eviction of the line by
    that port, with no copy left above it and not to be retried; an invalidating snoop of the line
    while nobody has asked for it; or a response that carries the line without sharers. *)
Definition released (sf : SnoopFilter) (o : Op) (l : Z) (i : nat) : Prop :=
  match o with
  | OpRequest cpkt p will_retry =>
      will_retry = false ∧ numbered sf p (Some i) ∧ line_addr sf cpkt = Ok l ∧ isEviction cpkt = true ∧ isBlockCached cpkt = false
  | OpSnoop cpkt => line_addr sf cpkt = Ok l ∧ isInvalidate cpkt = true ∧ quiet sf l = true
  | OpSnoopResponse cpkt _ _ | OpSnoopForward cpkt _ | OpResponse cpkt _ =>
      line_addr sf cpkt = Ok l ∧ isResponse cpkt = true ∧ hasSharers cpkt = false
  end.

Lemma request_keeps sf cpkt p oi rt sf' r l i :
  wf sf → no_null sf → numbered sf p oi → request cpkt p rt sf = Ok (sf', r) →
  (requests sf l i = true → requests sf' l i = true) ∧
  (holds sf l i = true → holds sf' l i = true ∨ released sf (OpRequest cpkt p rt) l i).
Proof.
  intros Hwf Hnn Hn Hrun.
  destruct (request_inv sf cpkt p oi rt sf' r Hwf Hnn Hn Hrun)
    as (line & sf1 & ports & Hline & _ & Hlegal & Ho & _ & _ & _ & Hret & Hcom).
  destruct rt.
  { unfold requests, holds, item. rewrite Hret by done. auto. }
  unfold requests, holds. rewrite Hcom by done.
  destruct (decide (l = line)) as [->|Hne].
  2: { unfold item. rewrite (lo_other _ _ _ _ _ _ _ Ho) by done. auto. }
  destruct (lo_item _ _ _ _ _ _ _ Ho) as [Hr Hh]. rewrite Hr, Hh. split; [by intros ->|].
  intros ->. destruct (allocates cpkt p) eqn:Hal, (gives_up cpkt) eqn:Hg; auto.
  case_bool_decide as Hoi; [|auto]. right. specialize (Hlegal i eq_refl Hoi). subst oi.
  unfold gives_up, legal in Hg, Hlegal. apply andb_true_iff in Hg as [Hnr Hbc].
  apply negb_true_iff in Hnr, Hbc. rewrite Hnr in Hlegal. apply andb_true_iff in Hlegal as [He _].
  by split_and!.
Qed.

Lemma filled_keeps sf sf' cpkt k line l i :
  line_addr sf cpkt = Ok line → isResponse cpkt = true → filled cpkt k line sf sf' →
  (requests sf l i = true → requests sf' l i = true ∨ holds sf' l i = true) ∧
  (holds sf l i = true → holds sf' l i = true ∨
     line_addr sf cpkt = Ok l ∧ isResponse cpkt = true ∧ hasSharers cpkt = false).
Proof.
  intros Hline Hresp Hf. destruct (Hf l i) as [-> ->]. split.
  - intros ->. case_bool_decide as Hb; [|auto]. right. destruct Hb as [-> ->].
    rewrite decide_True, bool_decide_eq_true_2 by done. by rewrite orb_true_r.
  - intros Hh. destruct (decide (l = line)) as [->|]; [|auto]. rewrite Hh.
    destruct (hasSharers cpkt) eqn:Hs; [auto|]. by right.
Qed.

(** C9: the filter never forgets a port that may have a line.  Whatever operation the
    crossbar performs in a reachable state, an outstanding request stays until its port
    becomes a holder, and a holder stays unless the operation itself is an eviction of the
    line by that port (with no copy left above it, and not to be retried), a snoop that
    invalidates the line while no request for it is outstanding, or a response that passes
    the line on without sharers. *)
Theorem filter_never_forgets (sf sf' : SnoopFilter) (o : Op) (l : Z) (i : nat) :
  reachable sf → step sf o sf' →
  (requests sf l i = true → requests sf' l i = true ∨ holds sf' l i = true) ∧
  (holds sf l i = true → holds sf' l i = true ∨ released sf o l i).
Proof.
  intros Hr Hstep. apply reachable_invariant in Hr as [Hwf Hnn]. destruct Hstep as
    [cpkt p oi rt sf' r Hn Hrun|cpkt sf' r Hrun|cpkt rp ri p oi sf' Hn Hrn Hrun|cpkt rp sf' Hrun|cpkt p oi sf' Hn Hrun].
  - destruct (request_keeps sf cpkt p oi rt sf' r l i) as [H1 H2]; auto.
  - destruct (lookupSnoop_inv sf cpkt sf' r Hwf Hrun) as (line & Hline & _ & _ & _ & Hrel).
    destruct (Hrel l i) as [-> ->]. split; [auto|]. intros ->.
    destruct (isInvalidate cpkt) eqn:Hi, (quiet sf line) eqn:Hq; auto.
    case_bool_decide as Hl; [|auto]. subst l. by right.
  - destruct (updateSnoopResponse_inv sf cpkt rp ri p oi sf' Hwf Hn Hrn Hrun)
      as [->|(k & line & _ & Hline & Hresp & _ & Hf & _)]; [auto|by eapply filled_keeps].
  - destruct (updateSnoopForward_inv sf cpkt rp sf' Hwf Hrun) as (line & Hline & Hresp & _ & _ & _ & Hrel).
    destruct (Hrel l i) as [-> ->]. split; [auto|]. intros ->.
    destruct (hasSharers cpkt) eqn:Hs; auto.
    case_bool_decide as Hl; [|auto]. subst l. by right.
  - destruct (updateResponse_inv sf cpkt p oi sf' Hwf Hn Hrun)
      as [->|(k & line & _ & Hline & Hresp & _ & Hf & _)]; [auto|by eapply filled_keeps].
Qed.

(** ** Witnesses: two caches on a crossbar, reading the line at [0x1000] *)

Definition ex_ports : list SlavePort := [mkPort 0 true; mkPort 1 false; mkPort 2 true].

Definition ex_filter : SnoopFilter :=
  mkSF ∅ End (mkItem 0 0) [mkPort 0 true; mkPort 2 true] [0; -1; 1] 64 1 1024 (mkStats 0 0 0 0 0 0).

Definition ex_pkt (c : MemCmd.Command) (f : Z) : Packet :=
  mkPacket (Z.lor 0x300 f) c (Request.newPhys 0 0x1000 64 0 1) None 0x1000 false 64 [] 0 0 0 None.

(** Port 0 has the line, port 2 has asked for it. *)
Definition ex_busy : SnoopFilter := set_item 0x1000 (mkItem 2 1) ex_filter.

Lemma ex_crossbar : crossbar_ports ex_ports.
Proof.
  intros k p Hk. unfold ex_ports in Hk.
  destruct k as [|[|[|k]]]; cbn in Hk; [by injection Hk as <-..|done].
Qed.

Lemma ex_init : setSlavePorts ex_ports (newSnoopFilter 64 1 65536) = Ok ex_filter.
Proof. reflexivity. Qed.

Lemma ex_reachable : reachable ex_filter.
Proof. eapply reach_init; [apply ex_crossbar|apply ex_init]. Qed.

Lemma ex_busy_ok : wf ex_busy ∧ no_null ex_busy.
Proof.
  destruct (reachable_invariant ex_filter ex_reachable) as [Hwf Hnn]. split.
  - apply wf_set_item; [done|]. split; cbn; unfold in_width; lia.
  - by apply no_null_set_item.
Qed.

Lemma lookupRequest_tracks_witness :
  ∃ sf' ports, lookupRequest (ex_pkt MemCmd.CleanEvict 0) (mkPort 0 true) ex_busy =
      Ok (sf', (ports, 1)) ∧ holds sf' 0x1000 0 = false ∧ mkPort 2 true ∈ ports.
Proof.
  destruct (lookupRequest_tracks ex_busy (ex_pkt MemCmd.CleanEvict 0) (mkPort 0 true) (Some 0%nat) 0x1000)
    as [_ Hok]; [apply ex_busy_ok|reflexivity|reflexivity|].
  destruct Hok as (sf' & ports & Hrun & _ & Hp & _ & Hh).
  - intros i _ [= <-]. reflexivity.
  - exists sf', ports. split; [exact Hrun|]. split; [by rewrite Hh|].
    apply Hp. exists 1%nat. split; [reflexivity|]. split; [congruence|reflexivity].
Defined.

Lemma retry_leaves_no_trace_witness :
  ∃ sf' r, request (ex_pkt MemCmd.ReadSharedReq 0) (mkPort 0 true) true ex_filter = Ok (sf', r) ∧
    cachedLocations sf' = cachedLocations ex_filter.
Proof.
  destruct (reachable_invariant ex_filter ex_reachable) as [Hwf Hnn].
  apply (retry_leaves_no_trace ex_filter (ex_pkt MemCmd.ReadSharedReq 0) (mkPort 0 true) (Some 0%nat));
    [done|done|reflexivity|reflexivity].
Defined.

Lemma updateResponse_fills_witness :
  ∃ sf', updateResponse (ex_pkt MemCmd.ReadResp 0) (mkPort 2 true) ex_busy = Ok sf' ∧
    holds sf' 0x1000 1 = true ∧ holds sf' 0x1000 0 = false.
Proof.
  destruct (updateResponse_fills ex_busy (ex_pkt MemCmd.ReadResp 0) (mkPort 2 true) 1 0x1000)
    as (sf' & Hrun & Hf & _); [apply ex_busy_ok|reflexivity..|].
  exists sf'. split; [exact Hrun|]. split.
  - destruct (Hf 0x1000 1%nat) as [_ ->]. reflexivity.
  - destruct (Hf 0x1000 0%nat) as [_ ->]. reflexivity.
Defined.

Lemma lookupSnoop_forwards_witness :
  ∃ sf' ports, lookupSnoop (ex_pkt MemCmd.ReadExReq 0) ex_busy = Ok (sf', (ports, 1)) ∧
    mkPort 0 true ∈ ports ∧ holds sf' 0x1000 0 = true.
Proof.
  destruct (lookupSnoop_forwards ex_busy (ex_pkt MemCmd.ReadExReq 0) 0x1000)
    as (sf' & ports & Hrun & Hp & _ & Hh & _);
    [apply ex_busy_ok|apply ex_busy_ok|reflexivity|reflexivity|discriminate|].
  exists sf', ports. split; [exact Hrun|]. split; [|by rewrite Hh].
  apply Hp. exists 0%nat. split; reflexivity.
Defined.

(** Port 0 asks for the line and the request goes down. *)
Definition ex_asked : SnoopFilter :=
  match request (ex_pkt MemCmd.ReadSharedReq 0) (mkPort 0 true) false ex_filter with
  | Ok (sf, _) => sf
  | Fail _ => ex_filter
  end.

Lemma ex_asked_step : step ex_filter (OpRequest (ex_pkt MemCmd.ReadSharedReq 0) (mkPort 0 true) false) ex_asked.
Proof.
  eapply (step_request _ (ex_pkt MemCmd.ReadSharedReq 0) (mkPort 0 true) (Some 0%nat) false);
    reflexivity.
Qed.

Lemma snoopFilter_invariant_witness :
  ∃ i p, slavePorts ex_asked !! i = Some p ∧ requests ex_asked 0x1000 i || holds ex_asked 0x1000 i = true.
Proof.
  destruct (snoopFilter_invariant ex_asked) as [Hall _].
  - eapply reach_step; [apply ex_reachable|apply ex_asked_step].
  - eapply Hall. reflexivity.
Defined.

Definition ex_answered : SnoopFilter :=
  match updateResponse (ex_pkt MemCmd.ReadResp 0) (mkPort 0 true) ex_asked with
  | Ok sf => sf
  | Fail _ => ex_asked
  end.

Lemma filter_never_forgets_witness :
  requests ex_answered 0x1000 0 = true ∨ holds ex_answered 0x1000 0 = true.
Proof.
  apply (filter_never_forgets ex_asked ex_answered (OpResponse (ex_pkt MemCmd.ReadResp 0) (mkPort 0 true)) 0x1000 0).
  - eapply reach_step; [apply ex_reachable|apply ex_asked_step].
  - eapply (step_response _ (ex_pkt MemCmd.ReadResp 0) (mkPort 0 true) (Some 0%nat)); reflexivity.
  - reflexivity.
Defined.

End SnoopFilterProofs.
