(* ===== verification/EventQueue.v ===== *)
(** * The discrete-event queue (sim/eventq.hh, sim/eventq_impl.hh, sim/eventq.cc, base/flags.hh)

    The queue of the simulator is a linked list of bins, a bin holding the events of
    one (tick, priority) pair as a stack.  Both lists run through the event objects:
    [nextBin] is meaningful only in the top event of a bin and is stale elsewhere,
    [nextInBin] links the stack.  The model keeps those pointers: events live in a heap
    of objects and every operation reads and writes links as the source does.

    [bins] and [stack] say which abstract queue the pointers represent, [eq_inv] is the
    invariant of a queue and its events, and the theorems show that the pointer code
    implements a sorted list with last-in first-out order among equal keys. *)

From S2P Require Import Prelude.

Module Flags.

Definition isSet (_flags flags : Z) : bool := negb (Z.land _flags flags =? 0).
Definition allSet (_flags flags : Z) : bool := Z.land _flags flags =? flags.
Definition noneSet (_flags flags : Z) : bool := Z.land _flags flags =? 0.
Definition clear (_flags flags : Z) : Z := Z.land _flags (bnot 16 flags).
Definition set (_flags flags : Z) : Z := Z.lor _flags flags.
Definition update (_flags flags mask : Z) : Z :=
  Z.lor (Z.land _flags (bnot 16 mask)) (Z.land flags mask).

End Flags.

Module EventQueue.
Import Flags.

(** ** Data *)

(** [EventBase]: flag bits and the readable and writable masks. *)
Definition PublicRead : Z := 0x003f.
Definition PublicWrite : Z := 0x001d.
Definition Squashed : Z := 0x0001.
Definition Scheduled : Z := 0x0002.
Definition AutoDelete : Z := 0x0004.
Definition IsExitEvent : Z := 0x0010.
Definition IsMainQueue : Z := 0x0020.
Definition Initialized : Z := 0x7a40.
Definition InitMask : Z := 0xffc0.

(** Event priorities ([int8_t]); a smaller value runs first within a tick. *)
Inductive Priority :=
  | Minimum_Pri | Debug_Enable_Pri | Debug_Break_Pri | CPU_Switch_Pri
  | Delayed_Writeback_Pri | Default_Pri | DVFS_Update_Pri | Serialize_Pri
  | CPU_Tick_Pri | Stat_Event_Pri | Progress_Event_Pri | Sim_Exit_Pri | Maximum_Pri.

Definition pri (p : Priority) : Z :=
  match p with
  | Minimum_Pri => -128 | Debug_Enable_Pri => -101 | Debug_Break_Pri => -100
  | CPU_Switch_Pri => -31 | Delayed_Writeback_Pri => -1 | Default_Pri => 0
  | DVFS_Update_Pri => 31 | Serialize_Pri => 32 | CPU_Tick_Pri => 50
  | Stat_Event_Pri => 90 | Progress_Event_Pri => 95 | Sim_Exit_Pri => 100
  | Maximum_Pri => 127
  end.

(** An event object.  Pointers are heap addresses; [queue] is the queue it was last
    scheduled on. *)
Record Event := mkEvent {
  nextBin : option positive;
  nextInBin : option positive;
  _when : Z;
  _priority : Z;
  flags : Z;
  queue : option positive }.

Abbreviation heap := (gmap positive Event).

Record EventQueue := mkEventQueue {
  self : positive;
  head : option positive;
  _curTick : Z;
  async_queue : list positive }.

(** The queue together with the objects it points to. *)
Record world := mkWorld { objs : heap; eq : EventQueue }.

(** Field updates. *)
Definition set_nextBin (v : option positive) (e : Event) : Event :=
  mkEvent v (nextInBin e) (_when e) (_priority e) (flags e) (queue e).
Definition set_nextInBin (v : option positive) (e : Event) : Event :=
  mkEvent (nextBin e) v (_when e) (_priority e) (flags e) (queue e).
Definition set_flags (f : Z) (e : Event) : Event :=
  mkEvent (nextBin e) (nextInBin e) (_when e) (_priority e) f (queue e).
Definition set_head (v : option positive) (q : EventQueue) : EventQueue :=
  mkEventQueue (self q) v (_curTick q) (async_queue q).
Definition set_async (l : list positive) (q : EventQueue) : EventQueue :=
  mkEventQueue (self q) (head q) (_curTick q) l.

(** Writing a field through a pointer. *)
Definition upd (h : heap) (p : positive) (f : Event → Event) : res heap :=
  e ← deref (h !! p); Ok (<[p := f e]> h).

(** ** Events *)

Definition newEvent (p f : Z) : res Event :=
  assert_ (noneSet f (bnot 16 PublicWrite)) ≫= λ _,
  Ok (mkEvent None None 0 p (Z.lor Initialized f) None).

Definition setWhen (when : Z) (q : positive) (e : Event) : Event :=
  mkEvent (nextBin e) (nextInBin e) when (_priority e) (flags e) (Some q).

Definition initialized (e : Event) : bool := Z.land (flags e) InitMask =? Initialized.
Definition scheduled (e : Event) : bool := isSet (flags e) Scheduled.
Definition squashed (e : Event) : bool := isSet (flags e) Squashed.
Definition isExitEvent (e : Event) : bool := isSet (flags e) IsExitEvent.
Definition isAutoDelete (e : Event) : bool := isSet (flags e) AutoDelete.
Definition squash (e : Event) : Event := set_flags (set (flags e) Squashed) e.

Definition isFlagSet (e : Event) (f : Z) : res bool :=
  assert_ (noneSet f (bnot 16 PublicRead)) ≫= λ _, Ok (isSet (flags e) f).
Definition setFlags (f : Z) (e : Event) : res Event :=
  assert_ (noneSet f (bnot 16 PublicWrite)) ≫= λ _, Ok (set_flags (set (flags e) f) e).
Definition clearFlags (f : Z) (e : Event) : res Event :=
  assert_ (noneSet f (bnot 16 PublicWrite)) ≫= λ _, Ok (set_flags (clear (flags e) f) e).

(** Event comparison: by tick, then by priority. *)
Definition ev_lt (l r : Event) : bool :=
  (_when l <? _when r) || ((_when l =? _when r) && (_priority l <? _priority r)).
Definition ev_le (l r : Event) : bool :=
  (_when l <? _when r) || ((_when l =? _when r) && (_priority l <=? _priority r)).
Definition ev_eq (l r : Event) : bool :=
  (_when l =? _when r) && (_priority l =? _priority r).
Definition ev_ne (l r : Event) : bool :=
  negb (_when l =? _when r) || negb (_priority l =? _priority r).

(** ** Insertion and removal *)

Definition insertBefore (h : heap) (event : positive) (curr : option positive) : res heap :=
  ev ← deref (h !! event);
  match curr with
  | None => Ok (<[event := set_nextInBin None (set_nextBin None ev)]> h)
  | Some c =>
      ce ← deref (h !! c);
      if ev_lt ev ce
      then Ok (<[event := set_nextInBin None (set_nextBin (Some c) ev)]> h)
      else Ok (<[event := set_nextInBin (Some c) (set_nextBin (nextBin ce) ev)]> h)
  end.

(** The bin search of [insert] and [remove]:
    [while (curr && *curr < *event) { prev = curr; curr = curr->nextBin; }]. *)
Fixpoint find_bin (fuel : nat) (h : heap) (ev : Event) (prev : positive)
    (curr : option positive) : res (positive * option positive) :=
  match curr with
  | None => Ok (prev, None)
  | Some c =>
      ce ← deref (h !! c);
      if ev_lt ce ev then
        match fuel with
        | O => Fail OutOfFuel
        | S fuel => find_bin fuel h ev c (nextBin ce)
        end
      else Ok (prev, Some c)
  end.

(** [EventQueue::insert] on the heap and the head pointer. *)
Definition insert (h : heap) (hd : option positive) (event : positive) :
    res (heap * option positive) :=
  ev ← deref (h !! event);
  match hd with
  | None => h' ← insertBefore h event None; Ok (h', Some event)
  | Some hp =>
      he ← deref (h !! hp);
      if ev_le ev he then
        h' ← insertBefore h event (Some hp); Ok (h', Some event)
      else
        pc ← find_bin (size h) h ev hp (nextBin he);
        h1 ← insertBefore h event pc.2;
        h2 ← upd h1 pc.1 (set_nextBin (Some event));
        Ok (h2, Some hp)
  end.

(** The stack search of [removeItem]: [curr] trails [next]. *)
Fixpoint find_in_bin (fuel : nat) (h : heap) (event curr : positive)
    (next : option positive) : res positive :=
  match next with
  | None => Fail Panicked
  | Some n =>
      if decide (event = n) then Ok curr
      else match fuel with
           | O => Fail OutOfFuel
           | S fuel => ne ← deref (h !! n); find_in_bin fuel h event n (nextInBin ne)
           end
  end.

Definition removeItem (h : heap) (event top : positive) : res (heap * option positive) :=
  te ← deref (h !! top);
  if decide (event = top) then
    match nextInBin te with
    | None => Ok (h, nextBin te)
    | Some n => h' ← upd h n (set_nextBin (nextBin te)); Ok (h', Some n)
    end
  else
    curr ← find_in_bin (size h) h event top (nextInBin te);
    ev ← deref (h !! event);
    h' ← upd h curr (set_nextInBin (nextInBin ev));
    Ok (h', Some top).

Definition remove (h : heap) (q : EventQueue) (event : positive) :
    res (heap * option positive) :=
  match head q with
  | None => Fail Panicked
  | Some hp =>
      ev ← deref (h !! event);
      assert_ (bool_decide (queue ev = Some (self q))) ≫= λ _,
      he ← deref (h !! hp);
      if ev_eq he ev then removeItem h event hp
      else
        pc ← find_bin (size h) h ev hp (nextBin he);
        match pc.2 with
        | None => Fail Panicked
        | Some c =>
            ce ← deref (h !! c);
            if ev_ne ce ev then Fail Panicked
            else
              r ← removeItem h event c;
              h' ← upd r.1 pc.1 (set_nextBin r.2);
              Ok (h', Some hp)
        end
  end.

(** ** The queue's interface *)

Definition emptyQueue (q : positive) : EventQueue := mkEventQueue q None 0 [].

Definition empty (q : EventQueue) : bool := bool_decide (head q = None).

Definition setCurTick (t : Z) (w : world) : world :=
  mkWorld (objs w) (mkEventQueue (self (eq w)) (head (eq w)) t (async_queue (eq w))).

Definition nextTick (w : world) : res Z :=
  hp ← deref (head (eq w)); he ← deref (objs w !! hp); Ok (_when he).

Definition replaceHead (s : option positive) (w : world) : option positive * world :=
  (head (eq w), mkWorld (objs w) (set_head s (eq w))).

Definition asyncInsert (event : positive) (w : world) : world :=
  mkWorld (objs w) (set_async (async_queue (eq w) ++ [event]) (eq w)).

Definition insert_w (event : positive) (w : world) : res world :=
  r ← insert (objs w) (head (eq w)) event;
  Ok (mkWorld r.1 (set_head r.2 (eq w))).

Definition remove_w (event : positive) (w : world) : res world :=
  r ← remove (objs w) (eq w) event;
  Ok (mkWorld r.1 (set_head r.2 (eq w))).

Definition upd_w (p : positive) (f : Event → Event) (w : world) : res world :=
  h ← upd (objs w) p f; Ok (mkWorld h (eq w)).

(** The main loop's hand-over of the events other threads queued. *)
Fixpoint drain_async (l : list positive) (w : world) : res world :=
  match l with
  | [] => Ok w
  | event :: l =>
      w1 ← insert_w event w;
      drain_async l (mkWorld (objs w1) (set_async l (eq w1)))
  end.

Definition handleAsyncInsertions (cur : positive) (w : world) : res world :=
  assert_ (bool_decide (self (eq w) = cur)) ≫= λ _, drain_async (async_queue (eq w)) w.

(** [schedule], [deschedule] and [reschedule] with the globals [inParallelMode] and
    [curEventQueue()] as arguments. *)
Definition schedule (inParallelMode : bool) (cur : positive)
    (event : positive) (when : Z) (global : bool) (w : world) : res world :=
  assert_ (_curTick (eq w) <=? when) ≫= λ _,
  ev ← deref (objs w !! event);
  assert_ (negb (scheduled ev)) ≫= λ _,
  assert_ (initialized ev) ≫= λ _,
  w1 ← upd_w event (setWhen when (self (eq w))) w;
  w2 ← (if inParallelMode && (negb (bool_decide (self (eq w) = cur)) || global)
        then Ok (asyncInsert event w1) else insert_w event w1);
  upd_w event (λ e, set_flags (set (flags e) Scheduled) e) w2.

Definition deschedule (inParallelMode : bool) (cur : positive)
    (event : positive) (w : world) : res world :=
  ev ← deref (objs w !! event);
  assert_ (scheduled ev) ≫= λ _,
  assert_ (initialized ev) ≫= λ _,
  assert_ (negb inParallelMode || bool_decide (self (eq w) = cur)) ≫= λ _,
  w1 ← remove_w event w;
  w2 ← upd_w event (λ e, set_flags (clear (clear (flags e) Squashed) Scheduled) e) w1;
  ev2 ← deref (objs w2 !! event);
  if isAutoDelete ev2 then Ok (mkWorld (delete event (objs w2)) (eq w2)) else Ok w2.

Definition reschedule (inParallelMode : bool) (cur : positive)
    (event : positive) (when : Z) (always : bool) (w : world) : res world :=
  assert_ (_curTick (eq w) <=? when) ≫= λ _,
  ev ← deref (objs w !! event);
  assert_ (always || scheduled ev) ≫= λ _,
  assert_ (initialized ev) ≫= λ _,
  assert_ (negb inParallelMode || bool_decide (self (eq w) = cur)) ≫= λ _,
  w1 ← (if scheduled ev then remove_w event w else Ok w);
  w2 ← upd_w event (setWhen when (self (eq w))) w1;
  w3 ← insert_w event w2;
  upd_w event (λ e, set_flags (set (clear (flags e) Squashed) Scheduled) e) w3.

(** ** Checkpoints *)

(** [Event::serialize] writes the tick, the priority and the flags. *)
Definition serialize (e : Event) : Z * Z * Z := (_when e, _priority e, flags e).

(** [Event::unserialize] from the values read back. *)
Definition unserialize '((when, priority, _flags) : Z * Z * Z) (e : Event) : res Event :=
  assert_ (negb (scheduled e)) ≫= λ _,
  assert_ (initialized e) ≫= λ _,
  let f := set _flags Initialized in
  let f := if isSet f Scheduled && negb (isSet f Squashed)
           then clear f (Z.lor Squashed Scheduled) else f in
  Ok (mkEvent (nextBin e) (nextInBin e) when priority f (queue e)).

Definition checkpointReschedule (event : positive) (w : world) : res world :=
  ev ← deref (objs w !! event);
  if isSet (flags ev) Scheduled then insert_w event w else Ok w.

(** ** The self check

    [debugVerify] walks every bin; the walk keeps the tick and priority of the last
    event and the set of events seen, and [None] is the [return false]. *)
Record vstate := mkV { v_time : Z; v_priority : Z; v_seen : gset positive }.

Fixpoint verify_bin (fuel : nat) (h : heap) (nextInBin_ : option positive) (v : vstate) :
    res (option vstate) :=
  match nextInBin_ with
  | None => Ok (Some v)
  | Some p =>
      e ← deref (h !! p);
      if _when e <? v_time v then Ok None
      else if (_when e =? v_time v) && (_priority e <? v_priority v) then Ok None
      else if decide (p ∈ v_seen v) then Ok None
      else match fuel with
           | O => Fail OutOfFuel
           | S fuel => verify_bin fuel h (nextInBin e)
                         (mkV (_when e) (_priority e) ({[p]} ∪ v_seen v))
           end
  end.

Fixpoint verify_bins (fuel : nat) (h : heap) (nextBin_ : option positive) (v : vstate) :
    res bool :=
  match nextBin_ with
  | None => Ok true
  | Some p =>
      r ← verify_bin (size h) h (Some p) v;
      match r with
      | None => Ok false
      | Some v =>
          e ← deref (h !! p);
          match fuel with
          | O => Fail OutOfFuel
          | S fuel => verify_bins fuel h (nextBin e) v
          end
      end
  end.

Definition debugVerify (w : world) : res bool :=
  verify_bins (size (objs w)) (objs w) (head (eq w)) (mkV 0 0 ∅).

(** ** Servicing

    [process] is the virtual method of the event object: it may change the rest of the
    simulator (the state [S]) and the queue itself. *)
Section Service.
Context {S : Type} (process : positive → S → world → res (S * world)).

(** The end of [serviceOne]: delete an auto-delete event that was not rescheduled. *)
Definition serviceDone (event : positive) (s : S) (w : world) :
    res (option positive * S * world) :=
  ev ← deref (objs w !! event);
  if isAutoDelete ev && negb (scheduled ev)
  then Ok (None, s, mkWorld (delete event (objs w)) (eq w))
  else Ok (None, s, w).

(** Unlinking the first event. *)
Definition servicePop (w : world) : res (positive * world) :=
  hp ← deref (head (eq w));
  he ← deref (objs w !! hp);
  w1 ← upd_w hp (λ e, set_flags (clear (flags e) Scheduled) e) w;
  match nextInBin he with
  | Some n =>
      h2 ← upd (objs w1) n (set_nextBin (nextBin he));
      Ok (hp, mkWorld h2 (set_head (Some n) (eq w1)))
  | None => Ok (hp, mkWorld (objs w1) (set_head (nextBin he) (eq w1)))
  end.

Definition serviceOne (s : S) (w : world) : res (option positive * S * world) :=
  r ← servicePop w;
  let '(event, w2) := r in
  ev ← deref (objs w2 !! event);
  if negb (squashed ev) then
    r ← process event s (setCurTick (_when ev) w2);
    let '(s', w4) := r in
    ev' ← deref (objs w4 !! event);
    if isExitEvent ev' then
      assert_ (negb (isAutoDelete ev') || negb (isSet (flags ev') IsMainQueue)) ≫= λ _,
      Ok (Some event, s', w4)
    else serviceDone event s' w4
  else
    w3 ← upd_w event (λ e, set_flags (clear (flags e) Squashed) e) w2;
    serviceDone event s w3.

Fixpoint serviceEvents (fuel : nat) (when : Z) (s : S) (w : world) : res (S * world) :=
  if empty (eq w) then Ok (s, setCurTick when w)
  else
    t ← nextTick w;
    if when <? t then Ok (s, setCurTick when w)
    else match fuel with
         | O => Fail OutOfFuel
         | Datatypes.S fuel =>
             r ← serviceOne s w;
             let '(_, s', w') := r in serviceEvents fuel when s' w'
         end.
End Service.

End EventQueue.
