(* ===== verification/EventQueueProofs.v ===== *)
(** * Correctness of the event queue

    The abstract queue is an agenda: the list of (key, event) pairs in the order they will
    be serviced.  [bins] relates it to the pointers; the theorems are at the end. *)

From stdpp Require Import sorting.
From S2P Require Import Prelude EventQueue.

Module EventQueueProofs.
Import Flags EventQueue.

(** ** Keys and agendas *)

Definition key : Type := Z * Z.
Definition key_of (e : Event) : key := (_when e, _priority e).
Definition klt (a b : key) : Prop := a.1 < b.1 ∨ (a.1 = b.1 ∧ a.2 < b.2).

#[export] Instance klt_dec : RelDecision klt.
Proof. intros a b. unfold klt. apply _. Defined.

#[export] Instance klt_trans : Transitive klt.
Proof. intros [] [] []; unfold klt; simpl; lia. Qed.

Lemma klt_irrefl k : ¬ klt k k.
Proof. destruct k; unfold klt; simpl; lia. Qed.

Lemma klt_total a b : klt a b ∨ a = b ∨ klt b a.
Proof.
  destruct a as [a1 a2], b as [b1 b2]; unfold klt; simpl.
  destruct (Z.lt_trichotomy a1 b1) as [|[->|]], (Z.lt_trichotomy a2 b2) as [|[->|]]; auto with lia.
Qed.

Lemma ev_lt_klt l r : ev_lt l r = bool_decide (klt (key_of l) (key_of r)).
Proof.
  apply Bool.eq_iff_eq_true. unfold ev_lt, klt, key_of. rewrite bool_decide_eq_true. simpl.
  rewrite orb_true_iff, andb_true_iff, Z.ltb_lt, Z.eqb_eq, Z.ltb_lt. done.
Qed.

Lemma ev_le_klt l r : ev_le l r = negb (bool_decide (klt (key_of r) (key_of l))).
Proof.
  apply Bool.eq_iff_eq_true. unfold ev_le, klt, key_of.
  rewrite negb_true_iff, bool_decide_eq_false. simpl.
  rewrite orb_true_iff, andb_true_iff, Z.ltb_lt, Z.eqb_eq, Z.leb_le. lia.
Qed.

Lemma ev_eq_key l r : ev_eq l r = bool_decide (key_of l = key_of r).
Proof.
  apply Bool.eq_iff_eq_true. unfold ev_eq, key_of. rewrite bool_decide_eq_true, andb_true_iff.
  rewrite !Z.eqb_eq. split; [intros [-> ->]; done|intros [= -> ->]; done].
Qed.

Lemma ev_ne_key l r : ev_ne l r = negb (ev_eq l r).
Proof. unfold ev_ne, ev_eq. by rewrite negb_andb. Qed.

(** The agenda: insertion goes before the first entry that is not earlier, so that among
    equal keys the last event in is the first out. *)
Abbreviation agenda := (list (key * positive)).

Fixpoint agenda_insert (k : key) (p : positive) (l : agenda) : agenda :=
  match l with
  | [] => [(k, p)]
  | (k', p') :: r => if decide (klt k' k) then (k', p') :: agenda_insert k p r else (k, p) :: l
  end.

Definition agenda_remove (p : positive) (l : agenda) : agenda := filter (λ x, x.2 ≠ p) l.

Definition agenda_sorted (l : agenda) : Prop := StronglySorted (λ x y, ¬ klt y.1 x.1) l.

Lemma agenda_insert_perm k p l : agenda_insert k p l ≡ₚ (k, p) :: l.
Proof.
  induction l as [|[k' p'] l IH]; simpl; [done|]. case_decide; [|done].
  rewrite IH. apply Permutation_swap.
Qed.

Lemma agenda_insert_app k p l1 l2 :
  Forall (λ x, klt x.1 k) l1 → agenda_insert k p (l1 ++ l2) = l1 ++ agenda_insert k p l2.
Proof.
  induction 1 as [|[k' p'] l1 Hk _ IH]; simpl in *; [done|]. rewrite decide_True by done.
  by rewrite IH.
Qed.

(** ** Bins: what the pointers represent *)

Abbreviation binlist := (list (key * list positive)).

Definition flat (bss : binlist) : agenda := bss ≫= λ b, (b.1,.) <$> b.2.
Definition members (bss : binlist) : list positive := bss ≫= snd.
#[global] Arguments flat : simpl never.
#[global] Arguments members : simpl never.

Inductive stack (h : heap) (k : key) : option positive → list positive → Prop :=
  | stack_nil : stack h k None []
  | stack_cons x e ps :
      h !! x = Some e → key_of e = k → stack h k (nextInBin e) ps →
      stack h k (Some x) (x :: ps).

Inductive bins (h : heap) : option positive → binlist → Prop :=
  | bins_nil : bins h None []
  | bins_cons x e k ps bss :
      h !! x = Some e → key_of e = k → stack h k (nextInBin e) ps → bins h (nextBin e) bss →
      bins h (Some x) ((k, x :: ps) :: bss).

Definition bins_sorted (bss : binlist) : Prop := StronglySorted klt bss.*1.

(** Insertion at the level of bins. *)
Fixpoint bins_insert (k : key) (p : positive) (bss : binlist) : binlist :=
  match bss with
  | [] => [(k, [p])]
  | (k', b) :: r =>
      if decide (klt k' k) then (k', b) :: bins_insert k p r
      else if decide (k = k') then (k, p :: b) :: r else (k, [p]) :: bss
  end.

Lemma flat_cons k b bss : flat ((k, b) :: bss) = ((k,.) <$> b) ++ flat bss.
Proof. done. Qed.

Lemma members_cons k b bss : members ((k, b) :: bss) = b ++ members bss.
Proof. done. Qed.

Lemma flat_members bss : (flat bss).*2 = members bss.
Proof.
  induction bss as [|[k b] bss IH]; [done|].
  rewrite flat_cons, members_cons, fmap_app, IH. f_equal.
  rewrite <- list_fmap_compose. apply list_fmap_id.
Qed.

Lemma flat_bins_insert k p bss :
  Forall (λ b, b.2 ≠ []) bss →
  flat (bins_insert k p bss) = agenda_insert k p (flat bss).
Proof.
  induction 1 as [|[k' b] bss Hb _ IH]; [done|]. simpl in Hb. cbn [bins_insert].
  destruct (decide (klt k' k)) as [Hlt|Hge].
  - rewrite !flat_cons, IH, agenda_insert_app; [done|].
    apply Forall_fmap, Forall_forall. done.
  - destruct b as [|x b]; [done|]. rewrite (flat_cons k' (x :: b)). cbn.
    rewrite (decide_False (P := klt k' k)) by done.
    destruct (decide (k = k')) as [->|]; by rewrite ?flat_cons.
Qed.

Lemma bins_nonempty h hd bss : bins h hd bss → Forall (λ b, b.2 ≠ []) bss.
Proof. induction 1; constructor; done. Qed.

Lemma members_bins_insert k p bss : members (bins_insert k p bss) ≡ₚ p :: members bss.
Proof.
  induction bss as [|[k' b] bss IH]; [done|]. cbn [bins_insert].
  repeat case_decide; rewrite ?members_cons; [|done..].
  rewrite IH. by rewrite <- Permutation_middle.
Qed.

Lemma bins_insert_keys k p bss :
  Forall (λ k', k' = k ∨ k' ∈ bss.*1) (bins_insert k p bss).*1.
Proof.
  induction bss as [|[k' b] bss IH]; cbn [bins_insert]; [by repeat constructor; left|].
  repeat case_decide; subst; rewrite ?fmap_cons.
  - constructor; [right; constructor|]. eapply Forall_impl; [exact IH|].
    intros ? [?|?]; [by left|right; by constructor].
  - constructor; [by left|]. apply Forall_forall. intros. right. by constructor.
  - constructor; [by left|]. apply Forall_forall. intros. by right.
Qed.

Lemma bins_sorted_insert k p bss : bins_sorted bss → bins_sorted (bins_insert k p bss).
Proof.
  unfold bins_sorted. induction bss as [|[k' b] bss IH]; cbn [bins_insert]; [by repeat constructor|].
  intros Hs. rewrite fmap_cons in Hs. simpl in Hs. inversion_clear Hs as [|? ? Hss Hall].
  repeat case_decide; subst; rewrite ?fmap_cons; simpl.
  - constructor; [by apply IH|]. eapply Forall_impl; [apply bins_insert_keys|].
    intros k1 [->|Hin]; [done|]. rewrite Forall_forall in Hall. by apply Hall.
  - by constructor.
  - assert (klt k k') by (destruct (klt_total k k') as [|[|]]; done).
    constructor; [by constructor|]. constructor; [done|].
    eapply Forall_impl; [exact Hall|]. intros k1 ?. simpl. by trans k'.
Qed.

(** ** Framing *)

(** Two heaps agree on what the stack structure reads of an event... *)
Definition same_in (h h' : heap) (x : positive) : Prop :=
  ∀ e, h !! x = Some e → ∃ e', h' !! x = Some e' ∧ key_of e' = key_of e ∧ nextInBin e' = nextInBin e.

(** ... and on all of its links. *)
Definition same_links (h h' : heap) (x : positive) : Prop :=
  ∀ e, h !! x = Some e →
    ∃ e', h' !! x = Some e' ∧ key_of e' = key_of e ∧ nextInBin e' = nextInBin e ∧ nextBin e' = nextBin e.

Lemma same_links_in h h' x : same_links h h' x → same_in h h' x.
Proof. intros Hs e He. destruct (Hs e He) as (? & ? & ? & ? & ?); eauto. Qed.

Lemma same_links_eq (h h' : heap) x : h' !! x = h !! x → same_links h h' x.
Proof. intros E e He. rewrite E. eauto. Qed.

Lemma stack_frame h h' k p ps :
  stack h k p ps → (∀ x, x ∈ ps → same_in h h' x) → stack h' k p ps.
Proof.
  induction 1 as [|x e ps Hx Hk Hs IH]; intros Hsame; [constructor|].
  destruct (Hsame x ltac:(constructor) e Hx) as (e' & ? & ? & Hn).
  econstructor; [done|congruence|]. rewrite Hn. apply IH. intros. apply Hsame. by constructor.
Qed.

Lemma bins_frame h h' p bss :
  bins h p bss → (∀ x, x ∈ members bss → same_links h h' x) → bins h' p bss.
Proof.
  induction 1 as [|x e k ps bss Hx Hk Hs Hb IH]; intros Hsame; [constructor|].
  rewrite members_cons in Hsame.
  destruct (Hsame x ltac:(set_solver) e Hx) as (e' & ? & ? & Hn & Hnb).
  econstructor; [done|congruence| |].
  - rewrite Hn. eapply stack_frame; [done|]. intros. apply same_links_in, Hsame. set_solver.
  - rewrite Hnb. apply IH. intros. apply Hsame. set_solver.
Qed.

Lemma stack_alloc h k p ps x : stack h k p ps → x ∈ ps → ∃ e, h !! x = Some e ∧ key_of e = k.
Proof. induction 1; set_solver. Qed.

Lemma bins_alloc h p bss x :
  bins h p bss → x ∈ members bss → ∃ e, h !! x = Some e ∧ (key_of e, x) ∈ flat bss.
Proof.
  induction 1 as [|y e k ps bss Hy Hk Hs Hb IH]; [set_solver|].
  rewrite members_cons, elem_of_app, flat_cons. setoid_rewrite elem_of_app.
  intros [[->|Hin]%elem_of_cons|Hin].
  - exists e. split; [done|]. left. subst. set_solver.
  - destruct (stack_alloc _ _ _ _ _ Hs Hin) as (e' & ? & Hk'). exists e'. split; [done|].
    left. apply list_elem_of_fmap. exists x. rewrite Hk'. split; [done|set_solver].
  - destruct (IH Hin) as (e' & ? & ?). eauto.
Qed.

(** The number of bins is bounded by the number of objects. *)
Lemma bins_length h p bss : bins h p bss → NoDup (members bss) → (length bss ≤ size h)%nat.
Proof.
  intros Hb Hnd. trans (length (members bss)).
  - apply bins_nonempty in Hb. clear Hnd. induction Hb as [|[k b] bss Hne _ IH]; [done|].
    rewrite members_cons, length_app. simpl in *. destruct b; simpl; [done|lia].
  - rewrite <- (size_list_to_set (C := gset positive)) by done.
    rewrite <- (size_dom (D := gset positive)). apply subseteq_size.
    intros x Hx%elem_of_list_to_set. apply elem_of_dom.
    destruct (bins_alloc _ _ _ _ Hb Hx) as (e & ? & _). by exists e.
Qed.

(** ** Relinking: heaps that differ in links only *)

Definition unlink (e : Event) : Event :=
  mkEvent None None (_when e) (_priority e) (flags e) (queue e).

Definition links_only (h h' : heap) : Prop := unlink <$> h = unlink <$> h'.

#[export] Instance links_only_equiv : Equivalence links_only.
Proof. split; unfold links_only; congruence. Qed.

Lemma links_only_insert (h : heap) p e e' :
  h !! p = Some e → unlink e' = unlink e → links_only h (<[p := e']> h).
Proof.
  intros Hp Hu. unfold links_only. rewrite fmap_insert, Hu, insert_id; [done|].
  by rewrite lookup_fmap, Hp.
Qed.

Lemma links_only_lookup h h' x e :
  links_only h h' → h !! x = Some e → ∃ e', h' !! x = Some e' ∧ unlink e' = unlink e.
Proof.
  intros Hl Hx. assert ((unlink <$> h') !! x = Some (unlink e)) as Hx'.
  { rewrite <- Hl. by rewrite lookup_fmap, Hx. }
  rewrite lookup_fmap in Hx'. destruct (h' !! x) as [e'|]; [|done].
  apply (inj Some) in Hx'. eauto.
Qed.

Lemma unlink_key e e' : unlink e' = unlink e → key_of e' = key_of e.
Proof. intros [= ? ? ? ?]. unfold key_of. congruence. Qed.

Lemma links_only_size (h h' : heap) : links_only h h' → size h = size h'.
Proof. intros Hl. rewrite <- (map_size_fmap unlink h), Hl. apply map_size_fmap. Qed.

Lemma upd_spec (h : heap) p f e : h !! p = Some e → upd h p f = Ok (<[p := f e]> h).
Proof. intros Hp. unfold upd. by rewrite Hp. Qed.

(** ** Insertion *)

(** The tail of the queue does not start before the key [k]. *)
Definition not_before (bss : binlist) (k : key) : Prop :=
  match bss with [] => True | (k', _) :: _ => ¬ klt k' k end.

Lemma insertBefore_spec h p ev c bss :
  h !! p = Some ev → bins h c bss → p ∉ members bss → not_before bss (key_of ev) →
  ∃ e1, insertBefore h p c = Ok (<[p := e1]> h) ∧ unlink e1 = unlink ev ∧
    bins (<[p := e1]> h) (Some p) (bins_insert (key_of ev) p bss).
Proof.
  intros Hp Hb Hni Hnb. unfold insertBefore. rewrite Hp. simpl.
  destruct Hb as [|x e k ps bss Hx Hk Hs Hb].
  { eexists. split_and!; [done..|]. eapply bins_cons; [apply lookup_insert_eq|done|constructor..]. }
  rewrite Hx. simpl. rewrite ev_lt_klt, Hk.
  rewrite members_cons in Hni. simpl in Hnb. cbn [bins_insert].
  rewrite (decide_False (P := klt k (key_of ev))) by done.
  assert (∀ e1 y, y ∈ (x :: ps) ++ members bss → same_links h (<[p:=e1]> h) y) as Hfr.
  { intros e1 y Hy. apply same_links_eq, lookup_insert_ne. set_solver. }
  case_bool_decide as Hlt.
  - eexists. split_and!; [done..|]. rewrite decide_False.
    + eapply bins_cons; [apply lookup_insert_eq|done|constructor|]. simpl.
      apply (bins_frame h); [by econstructor|]. intros y Hy. apply Hfr. by rewrite members_cons in Hy.
    + intros E. rewrite E in Hlt. by apply klt_irrefl in Hlt.
  - eexists. split_and!; [done..|].
    rewrite decide_True by (destruct (klt_total (key_of ev) k) as [|[|]]; done).
    assert (key_of ev = k) as Ek by (destruct (klt_total (key_of ev) k) as [|[|]]; done).
    eapply bins_cons; [apply lookup_insert_eq|done| |]; simpl.
    + apply (stack_frame h).
      * rewrite Ek. by econstructor.
      * intros y Hy. apply same_links_in, Hfr. set_solver.
    + apply (bins_frame h); [done|]. intros y Hy. apply Hfr. set_solver.
Qed.

(** What a completed insertion after [prev] leaves behind: [prev] leads to the new bins,
    and only links of [prev], of [p] and of the bins behind [prev] have changed. *)
Definition linked_after (h h2 : heap) (p : positive) (k : key) (prev : positive)
    (bss : binlist) : Prop :=
  links_only h h2 ∧
  (∀ x, x ≠ p → x ∉ prev :: members bss → h2 !! x = h !! x) ∧
  (∀ x, x ≠ p → same_in h h2 x) ∧
  ∃ ep', h2 !! prev = Some ep' ∧ bins h2 (nextBin ep') (bins_insert k p bss).

Lemma insert_here_spec h p ev prev ep bss :
  h !! p = Some ev → h !! prev = Some ep → bins h (nextBin ep) bss →
  not_before bss (key_of ev) → p ≠ prev → p ∉ members bss → prev ∉ members bss →
  ∃ h1 h2, insertBefore h p (nextBin ep) = Ok h1 ∧ upd h1 prev (set_nextBin (Some p)) = Ok h2 ∧
    linked_after h h2 p (key_of ev) prev bss.
Proof.
  intros Hp Hprev Hb Hnb Hne Hni Hnp.
  destruct (insertBefore_spec h p ev _ bss Hp Hb Hni Hnb) as (e1 & -> & Hu & Hb1).
  eexists _, _. split; [done|].
  split; [apply upd_spec; by rewrite lookup_insert_ne|]. split_and!.
  - trans (<[p := e1]> h); [by eapply links_only_insert|].
    eapply links_only_insert; [by rewrite lookup_insert_ne|done].
  - intros x Hx Hx'. rewrite !lookup_insert_ne; set_solver.
  - intros x Hx e He. destruct (decide (x = prev)) as [->|].
    + rewrite lookup_insert_eq. eexists. split; [done|]. by simplify_eq.
    + rewrite !lookup_insert_ne by done. eauto.
  - eexists. split; [apply lookup_insert_eq|]. simpl.
    apply (bins_frame (<[p := e1]> h)); [done|]. intros x Hx.
    apply same_links_eq, lookup_insert_ne. intros ->.
    rewrite members_bins_insert in Hx. set_solver.
Qed.

Lemma insert_loop_spec h p ev bss :
  h !! p = Some ev → p ∉ members bss → NoDup (members bss) →
  ∀ fuel prev ep,
  h !! prev = Some ep → bins h (nextBin ep) bss →
  p ≠ prev → prev ∉ members bss → (length bss ≤ fuel)%nat →
  ∃ pv c h1 h2,
    find_bin fuel h ev prev (nextBin ep) = Ok (pv, c) ∧ insertBefore h p c = Ok h1 ∧
    upd h1 pv (set_nextBin (Some p)) = Ok h2 ∧ linked_after h h2 p (key_of ev) prev bss.
Proof.
  intros Hp. induction bss as [|[k b] bss IH]; intros Hni Hnd fuel prev ep Hprev Hb Hne Hnp Hf.
  { destruct (insert_here_spec h p ev prev ep []) as (h1 & h2 & ? & ? & ?); [done..|].
    exists prev, (nextBin ep), h1, h2. inversion Hb as [E|]. rewrite <- E in *. by destruct fuel. }
  inversion Hb as [|x ex k' ps bss' Hx Hk Hs Hb' Ehd]; subst.
  destruct (decide (klt (key_of ex) (key_of ev))) as [Hlt|Hge].
  - rewrite members_cons in Hni, Hnp, Hnd. apply NoDup_app in Hnd as (Hndb & Hdisj & Hnd).
    destruct fuel as [|fuel]; simpl in Hf; [lia|].
    destruct (IH ltac:(set_solver) Hnd fuel x ex Hx Hb') as
      (pv & c & h1 & h2 & Hfb & Hib & Hup & Hlo & Hout & Hin & ex' & Hx2 & Hb2);
      [set_solver..|lia|].
    exists pv, c, h1, h2. cbn [find_bin]. rewrite Hx. simpl.
    rewrite ev_lt_klt, bool_decide_true by done.
    unfold linked_after. split_and!; try done.
    + intros y Hy Hy'. rewrite members_cons in Hy'. apply Hout; set_solver.
    + exists ep. rewrite Hout by set_solver. split; [done|]. rewrite <- Ehd. cbn [bins_insert].
      rewrite decide_True by done.
      destruct (Hin x ltac:(set_solver) ex Hx) as (ex2 & Hex2 & Hk2 & Hn2).
      assert (ex2 = ex') as -> by congruence.
      econstructor; [done|congruence| |done].
      rewrite Hn2. eapply stack_frame; [done|]. intros y Hy. apply Hin. set_solver.
  - destruct (insert_here_spec h p ev prev ep ((key_of ex, x :: ps) :: bss))
      as (h1 & h2 & ? & ? & ?); [done..|].
    exists prev, (Some x), h1, h2. rewrite <- Ehd in *.
    destruct fuel; cbn [find_bin]; rewrite Hx; simpl; rewrite ev_lt_klt, bool_decide_false by done; done.
Qed.

(** [insert] implements the insertion into the agenda. *)
Lemma insert_refines h hd p ev bss :
  bins h hd bss → NoDup (members bss) → h !! p = Some ev → p ∉ members bss →
  ∃ h' hd', insert h hd p = Ok (h', hd') ∧ links_only h h' ∧
    bins h' hd' (bins_insert (key_of ev) p bss).
Proof.
  intros Hb Hnd Hp Hni. unfold insert. rewrite Hp. simpl.
  destruct Hb as [|x e k ps bss Hx Hk Hs Hb].
  { destruct (insertBefore_spec h p ev None []) as (e1 & -> & Hu & Hb1); [done|constructor|done..|].
    eexists _, _. split; [done|]. split; [by eapply links_only_insert|done]. }
  assert (bins h (Some x) ((k, x :: ps) :: bss)) as Hball by (by econstructor).
  assert (length ((k, x :: ps) :: bss) ≤ size h)%nat as Hlen by (by eapply bins_length).
  rewrite Hx. simpl. rewrite ev_le_klt, Hk. case_bool_decide as Hlt; simpl.
  - rewrite members_cons in Hni, Hnd. apply NoDup_app in Hnd as (Hndb & Hdisj & Hnd).
    destruct (insert_loop_spec h p ev bss Hp ltac:(set_solver) Hnd (size h) x e Hx Hb) as
      (pv & c & h1 & h2 & -> & Hib & Hup & Hlo & Hout & Hin & ex' & Hx2 & Hb2);
      [set_solver..|simpl in Hlen; lia|].
    simpl. rewrite Hib. simpl. rewrite Hup. simpl. eexists _, _. split_and!; [done..|].
    rewrite decide_True by done.
    destruct (Hin x ltac:(set_solver) e Hx) as (ex2 & Hex2 & Hk2 & Hn2).
    assert (ex2 = ex') as -> by congruence.
    econstructor; [done|congruence| |done].
    rewrite Hn2. eapply stack_frame; [done|]. intros y Hy. apply Hin. set_solver.
  - destruct (insertBefore_spec h p ev (Some x) ((k, x :: ps) :: bss)) as (e1 & -> & Hu & Hb1); [done..|].
    eexists _, _. split; [done|]. split; [by eapply links_only_insert|done].
Qed.

(** ** Removal *)

Definition drop_from (p : positive) (b : list positive) : list positive := filter (.≠ p) b.

Definition rebin (k : key) (b : list positive) (bss : binlist) : binlist :=
  match b with [] => bss | _ => (k, b) :: bss end.

Fixpoint bins_remove (p : positive) (bss : binlist) : binlist :=
  match bss with
  | [] => []
  | (k, b) :: r => if decide (p ∈ b) then rebin k (drop_from p b) r else (k, b) :: bins_remove p r
  end.

Lemma flat_rebin k b bss : flat (rebin k b bss) = ((k,.) <$> b) ++ flat bss.
Proof. by destruct b. Qed.

Lemma members_rebin k b bss : members (rebin k b bss) = b ++ members bss.
Proof. by destruct b. Qed.

Lemma agenda_remove_app p l1 l2 :
  agenda_remove p (l1 ++ l2) = agenda_remove p l1 ++ agenda_remove p l2.
Proof. apply filter_app. Qed.

Lemma agenda_remove_bin p k b : agenda_remove p ((k,.) <$> b) = (k,.) <$> drop_from p b.
Proof.
  induction b as [|x b IH]; [done|]. rewrite fmap_cons. unfold agenda_remove, drop_from in *.
  rewrite !filter_cons. simpl. case_decide; [by rewrite fmap_cons, IH|done].
Qed.

Lemma agenda_remove_id p l : p ∉ l.*2 → agenda_remove p l = l.
Proof.
  induction l as [|[k x] l IH]; [done|]. intros Hp. unfold agenda_remove in *.
  rewrite filter_cons_True; [|simpl; set_solver]. rewrite IH; set_solver.
Qed.

Lemma flat_bins_remove p bss :
  NoDup (members bss) → flat (bins_remove p bss) = agenda_remove p (flat bss).
Proof.
  induction bss as [|[k b] bss IH]; [done|]. rewrite members_cons, NoDup_app.
  intros (Hb & Hd & Hnd). cbn [bins_remove]. rewrite (flat_cons k b), agenda_remove_app, agenda_remove_bin.
  case_decide as Hin.
  - rewrite flat_rebin. f_equal. rewrite agenda_remove_id; [done|]. rewrite flat_members. set_solver.
  - rewrite flat_cons, IH by done. do 2 f_equal. unfold drop_from.
    symmetry. apply filter_all. intros x Hx. set_solver.
Qed.

Lemma bins_remove_keys p bss k : k ∈ (bins_remove p bss).*1 → k ∈ bss.*1.
Proof.
  induction bss as [|[k' b] bss IH]; [done|]. cbn [bins_remove].
  case_decide; [|set_solver]. destruct (drop_from p b); set_solver.
Qed.

Lemma bins_sorted_remove p bss : bins_sorted bss → bins_sorted (bins_remove p bss).
Proof.
  unfold bins_sorted. induction bss as [|[k b] bss IH]; [done|]. cbn [bins_remove].
  rewrite fmap_cons. intros Hs. inversion_clear Hs as [|? ? Hss Hall].
  case_decide.
  - destruct (drop_from p b); [done|]. by constructor.
  - rewrite fmap_cons. constructor; [by apply IH|]. rewrite Forall_forall in Hall |- *.
    intros k' Hk'. by apply Hall, (bins_remove_keys p).
Qed.

Lemma stack_length h k p ps : stack h k p ps → NoDup ps → (length ps ≤ size h)%nat.
Proof.
  intros Hs Hnd. rewrite <- (size_list_to_set (C := gset positive)) by done.
  rewrite <- (size_dom (D := gset positive)). apply subseteq_size.
  intros x Hx%elem_of_list_to_set. apply elem_of_dom.
  destruct (stack_alloc _ _ _ _ _ Hs Hx) as (e & ? & _). by exists e.
Qed.

(** The stack search finds the predecessor; bypassing [p] there removes it. *)
Lemma unstack_spec h k p ev ps :
  h !! p = Some ev → ∀ fuel curr ec,
  h !! curr = Some ec → stack h k (nextInBin ec) ps → p ∈ ps → NoDup (curr :: ps) →
  (length ps ≤ fuel)%nat →
  ∃ c h' ec', find_in_bin fuel h p curr (nextInBin ec) = Ok c ∧
    upd h c (set_nextInBin (nextInBin ev)) = Ok h' ∧ links_only h h' ∧
    (∀ x, x ∉ curr :: ps → h' !! x = h !! x) ∧
    (∀ x, nextBin <$> h' !! x = nextBin <$> h !! x) ∧
    h' !! curr = Some ec' ∧ stack h' k (nextInBin ec') (drop_from p ps).
Proof.
  intros Hp. induction ps as [|y ps IH]; intros fuel curr ec Hc Hs Hin Hnd Hf; [set_solver|].
  inversion Hs as [|? ey ? Hy Hk Hs' Ehd]; subst. apply NoDup_cons in Hnd as [Hcn Hnd].
  destruct (decide (p = y)) as [->|Hne].
  - exists curr, (<[curr := set_nextInBin (nextInBin ev) ec]> h), (set_nextInBin (nextInBin ev) ec).
    assert (ey = ev) as -> by congruence.
    split_and!.
    + destruct fuel; simpl; by rewrite decide_True.
    + by apply upd_spec.
    + by eapply links_only_insert.
    + intros x Hx. apply lookup_insert_ne. set_solver.
    + intros x. rewrite lookup_insert. case_decide; [subst; by rewrite Hc|done].
    + apply lookup_insert_eq.
    + simpl. unfold drop_from. rewrite filter_cons_False by naive_solver.
      apply NoDup_cons in Hnd as [Hyn Hnd].
      rewrite filter_all by (intros x Hx ->; done).
      eapply stack_frame; [done|]. intros x Hx. apply same_links_in, same_links_eq, lookup_insert_ne. set_solver.
  - destruct fuel as [|fuel]; simpl in Hf; [lia|].
    destruct (IH fuel y ey Hy Hs' ltac:(set_solver) Hnd ltac:(lia)) as
      (c & h' & ey' & Hf' & Hu & Hlo & Hout & Hnb & Hy' & Hst).
    exists c, h', ec. cbn [find_in_bin]. rewrite decide_False by done. rewrite Hy. simpl.
    assert (h' !! curr = h !! curr) as Hcc by (by apply Hout).
    split_and!; [done..| | |by rewrite Hcc|].
    + intros x Hx. apply Hout. set_solver.
    + done.
    + rewrite <- Ehd. unfold drop_from. rewrite filter_cons_True by done.
      destruct (links_only_lookup _ _ _ _ Hlo Hy) as (e2 & ? & Hu2).
      assert (e2 = ey') as -> by congruence.
      econstructor; [done| |done]. by apply unlink_key.
Qed.

(** [removeItem] on the first bin of a queue. *)
Lemma removeItem_spec h top p k b bss :
  bins h (Some top) ((k, b) :: bss) → p ∈ b → NoDup (members ((k, b) :: bss)) →
  ∃ h' hd', removeItem h p top = Ok (h', hd') ∧ links_only h h' ∧
    (∀ x, x ∉ b → h' !! x = h !! x) ∧ bins h' hd' (rebin k (drop_from p b) bss).
Proof.
  intros Hb Hin Hnd. inversion Hb as [|? te ? ps ? Ht Hk Hs Hb']; subst.
  rewrite members_cons, NoDup_app in Hnd. destruct Hnd as (Hndb & Hdisj & Hnd).
  pose proof Hndb as Hndb2. apply NoDup_cons in Hndb2 as [Htn Hndps].
  unfold removeItem. rewrite Ht. simpl. unfold drop_from.
  destruct (decide (p = top)) as [->|Hne].
  - rewrite filter_cons_False by naive_solver. rewrite filter_all by (intros x Hx ->; done).
    inversion Hs as [E|n en ps' Hn Hkn Hsn E]; subst.
    { eexists _, _. split_and!; done. }
    eexists _, _. rewrite (upd_spec _ _ _ en) by done. split; [done|]. split_and!.
    + by eapply links_only_insert.
    + intros x Hx. apply lookup_insert_ne. set_solver.
    + simpl. apply NoDup_cons in Hndps as [Hnn Hndps].
      eapply bins_cons; [apply lookup_insert_eq|done| |]; simpl.
      * eapply stack_frame; [done|]. intros x Hx.
        apply same_links_in, same_links_eq, lookup_insert_ne. set_solver.
      * eapply bins_frame; [done|]. intros x Hx. apply same_links_eq, lookup_insert_ne. set_solver.
  - assert (p ∈ ps) as Hps by set_solver.
    destruct (stack_alloc _ _ _ _ _ Hs Hps) as (ev & Hp & _).
    pose proof (stack_length _ _ _ _ Hs Hndps) as Hlen.
    destruct (unstack_spec h (key_of te) p ev ps Hp (size h) top te Ht Hs Hps Hndb Hlen) as
      (c & h' & te' & -> & Hu & Hlo & Hout & Hnb & Ht' & Hst).
    simpl. rewrite Hp. simpl. rewrite Hu. simpl. eexists _, _. split; [done|].
    split_and!; [done..|]. rewrite filter_cons_True by done. simpl.
    destruct (links_only_lookup _ _ _ _ Hlo Ht) as (e2 & ? & Hu2).
    assert (e2 = te') as -> by congruence.
    assert (nextBin te' = nextBin te) as Enb.
    { specialize (Hnb top). rewrite Ht, Ht' in Hnb. by simplify_eq/=. }
    econstructor; [done|by apply unlink_key|done|]. rewrite Enb.
    eapply bins_frame; [done|]. intros x Hx. apply same_links_eq, Hout. set_solver.
Qed.

Lemma flat_key k x bss : (k, x) ∈ flat bss → k ∈ bss.*1.
Proof.
  induction bss as [|[k' b] bss IH]; [set_solver|]. rewrite flat_cons, elem_of_app, fmap_cons.
  intros [(y & Hy & _)%list_elem_of_fmap|Hin]; simplify_eq/=; set_solver.
Qed.

(** In a sorted queue, events behind the first bin have a strictly greater key. *)
Lemma key_behind h hd k b bss p ev :
  bins h hd bss → bins_sorted ((k, b) :: bss) → p ∈ members bss → h !! p = Some ev →
  klt k (key_of ev).
Proof.
  intros Hb Hs Hin Hp. destruct (bins_alloc _ _ _ _ Hb Hin) as (e & ? & Hk%flat_key). simplify_eq.
  unfold bins_sorted in Hs. rewrite fmap_cons in Hs. inversion_clear Hs as [|? ? _ Hall].
  rewrite Forall_forall in Hall. by apply Hall.
Qed.

(** What a completed removal behind [prev] leaves behind. *)
Definition unlinked_after (h h2 : heap) (p prev : positive) (bss : binlist) : Prop :=
  links_only h h2 ∧
  (∀ x, x ∉ prev :: members bss → h2 !! x = h !! x) ∧
  (∀ x, x ∉ members bss → same_in h h2 x) ∧
  ∃ ep', h2 !! prev = Some ep' ∧ bins h2 (nextBin ep') (bins_remove p bss).

Lemma remove_loop_spec h p ev bss :
  h !! p = Some ev → p ∈ members bss → NoDup (members bss) → bins_sorted bss →
  ∀ fuel prev ep,
  h !! prev = Some ep → bins h (nextBin ep) bss → prev ∉ members bss → (length bss ≤ fuel)%nat →
  ∃ pv c ce h1 nb h2,
    find_bin fuel h ev prev (nextBin ep) = Ok (pv, Some c) ∧ h !! c = Some ce ∧
    key_of ce = key_of ev ∧ removeItem h p c = Ok (h1, nb) ∧
    upd h1 pv (set_nextBin nb) = Ok h2 ∧ unlinked_after h h2 p prev bss.
Proof.
  intros Hp. induction bss as [|[k b] bss IH]; intros Hin Hnd Hsort fuel prev ep Hprev Hb Hnp Hf; [set_solver|].
  inversion Hb as [|x ex k' ps bss' Hx Hk Hs Hb' Ehd]; subst. unfold unlinked_after. cbn [bins_remove].
  destruct (decide (p ∈ x :: ps)) as [Hpb|Hpb].
  - assert (key_of ev = key_of ex) as Ekey.
    { apply elem_of_cons in Hpb as [->|Hps]; [congruence|].
      destruct (stack_alloc _ _ _ _ _ Hs Hps) as (? & ? & ?). congruence. }
    destruct (removeItem_spec h x p (key_of ex) (x :: ps) bss) as
      (h1 & nb & Hr & Hlo & Hout & Hb1); [by econstructor|done..|].
    rewrite members_cons in Hnp.
    exists prev, x, ex, h1, nb, (<[prev := set_nextBin nb ep]> h1).
    assert (h1 !! prev = Some ep) as Hp1 by (rewrite Hout; set_solver).
    split_and!; try done.
    + destruct fuel; cbn [find_bin]; rewrite Hx; simpl; rewrite ev_lt_klt, bool_decide_false;
        rewrite ?Ekey; auto using klt_irrefl.
    + by apply upd_spec.
    + trans h1; [done|]. by eapply links_only_insert.
    + intros y Hy. rewrite members_cons in Hy. rewrite lookup_insert_ne by set_solver.
      apply Hout. set_solver.
    + intros y Hy e He. rewrite members_cons in Hy.
      destruct (decide (y = prev)) as [->|]; [rewrite lookup_insert_eq|].
      * eexists. split; [done|]. by simplify_eq.
      * rewrite lookup_insert_ne, Hout by set_solver. eauto.
    + eexists. split; [apply lookup_insert_eq|]. simpl. eapply bins_frame; [done|].
      intros y Hy. apply same_links_eq, lookup_insert_ne. intros ->. clear -Hy Hnp.
      rewrite members_rebin, elem_of_app in Hy. unfold drop_from in Hy.
      rewrite list_elem_of_filter in Hy. set_solver.
  - rewrite members_cons in Hin, Hnp, Hnd. apply NoDup_app in Hnd as (Hndb & Hdisj & Hnd).
    assert (p ∈ members bss) as Hin' by set_solver.
    pose proof (key_behind _ _ _ _ _ _ _ Hb' Hsort Hin' Hp) as Hlt.
    destruct fuel as [|fuel]; simpl in Hf; [lia|].
    unfold bins_sorted in Hsort. rewrite fmap_cons in Hsort. inversion_clear Hsort as [|? ? Hss _].
    destruct (IH Hin' Hnd Hss fuel x ex Hx Hb') as
      (pv & c & ce & h1 & nb & h2 & Hfb & Hc & Hkc & Hr & Hup & Hlo & Hout & Hsame & ex' & Hx2 & Hb2);
      [set_solver|lia|].
    exists pv, c, ce, h1, nb, h2. cbn [find_bin]. rewrite Hx. simpl.
    rewrite ev_lt_klt, bool_decide_true by done. split_and!; try done.
    + intros y Hy. rewrite members_cons in Hy. apply Hout. set_solver.
    + intros y Hy. rewrite members_cons in Hy. apply Hsame. set_solver.
    + exists ep. rewrite Hout by set_solver. split; [done|]. rewrite <- Ehd.
      destruct (Hsame x ltac:(set_solver) ex Hx) as (ex2 & Hex2 & Hk2 & Hn2).
      assert (ex2 = ex') as -> by congruence.
      econstructor; [done|congruence| |done].
      rewrite Hn2. eapply stack_frame; [done|]. intros y Hy. apply Hsame. set_solver.
Qed.

(** [remove] of a queued event implements the removal from the agenda. *)
Lemma remove_refines h q p ev bss :
  bins h (head q) bss → bins_sorted bss → NoDup (members bss) →
  h !! p = Some ev → queue ev = Some (self q) → p ∈ members bss →
  ∃ h' hd', remove h q p = Ok (h', hd') ∧ links_only h h' ∧ bins h' hd' (bins_remove p bss).
Proof.
  intros Hb Hsort Hnd Hp Hq Hin. unfold remove.
  destruct Hb as [|x e k ps bss Hx Hk Hs Hb]; [set_solver|].
  assert (bins h (Some x) ((k, x :: ps) :: bss)) as Hball by (by econstructor).
  pose proof (bins_length _ _ _ Hball Hnd) as Hlen. simpl in Hlen.
  rewrite Hp. simpl. rewrite bool_decide_true by done. simpl. rewrite Hx. simpl.
  rewrite ev_eq_key, Hk. cbn [bins_remove]. destruct (decide (p ∈ x :: ps)) as [Hpb|Hpb].
  - rewrite bool_decide_true.
    2: { apply elem_of_cons in Hpb as [->|Hps]; [congruence|].
         destruct (stack_alloc _ _ _ _ _ Hs Hps) as (? & ? & ?). congruence. }
    destruct (removeItem_spec h x p k (x :: ps) bss) as (h1 & nb & Hr & Hlo & Hout & Hb1); [done..|].
    eauto.
  - assert (p ∈ members bss) as Hin' by (rewrite members_cons in Hin; set_solver).
    pose proof (key_behind _ _ _ _ _ _ _ Hb Hsort Hin' Hp) as Hlt.
    rewrite bool_decide_false by (intros ->; by apply klt_irrefl in Hlt).
    rewrite members_cons in Hnd. apply NoDup_app in Hnd as (Hndb & Hdisj & Hnd).
    unfold bins_sorted in Hsort. rewrite fmap_cons in Hsort. inversion_clear Hsort as [|? ? Hss _].
    destruct (remove_loop_spec h p ev bss Hp Hin' Hnd Hss (size h) x e Hx Hb) as
      (pv & c & ce & h1 & nb & h2 & -> & Hc & Hkc & Hr & Hup & Hlo & Hout & Hsame & ex' & Hx2 & Hb2);
      [set_solver|lia|].
    simpl. rewrite Hc. simpl. rewrite ev_ne_key, ev_eq_key, bool_decide_true by done. simpl.
    rewrite Hr. simpl. rewrite Hup. simpl. eexists _, _. split_and!; [done..|].
    destruct (Hsame x ltac:(set_solver) e Hx) as (ex2 & Hex2 & Hk2 & Hn2).
    assert (ex2 = ex') as -> by congruence.
    econstructor; [done|congruence| |done].
    rewrite Hn2. eapply stack_frame; [done|]. intros y Hy. apply Hsame. set_solver.
Qed.

(** ** Flags *)

Lemma isSet_clear_same f m : Z.land (bnot 16 m) m = 0 → isSet (clear f m) m = false.
Proof. intros E. unfold isSet, clear. by rewrite <- Z.land_assoc, E, Z.land_0_r. Qed.

Lemma isSet_clear_other f m m' : Z.land (bnot 16 m) m' = m' → isSet (clear f m) m' = isSet f m'.
Proof. intros E. unfold isSet, clear. by rewrite <- Z.land_assoc, E. Qed.

Lemma isSet_set_same f m : m ≠ 0 → isSet (set f m) m = true.
Proof.
  intros Hm. unfold isSet, set. rewrite Z.land_lor_distr_l, Z.land_diag.
  apply negb_true_iff, Z.eqb_neq. intros [_ E]%Z.lor_eq_0_iff. done.
Qed.

Lemma isSet_set_other f m m' : Z.land m m' = 0 → isSet (set f m) m' = isSet f m'.
Proof. intros E. unfold isSet, set. by rewrite Z.land_lor_distr_l, E, Z.lor_0_r. Qed.

Lemma init_clear f m : Z.land (bnot 16 m) InitMask = InitMask →
  Z.land (clear f m) InitMask = Z.land f InitMask.
Proof. intros E. unfold clear. by rewrite <- Z.land_assoc, E. Qed.

Lemma init_set f m : Z.land m InitMask = 0 → Z.land (set f m) InitMask = Z.land f InitMask.
Proof. intros E. unfold set. by rewrite Z.land_lor_distr_l, E, Z.lor_0_r. Qed.

(** ** The invariant *)

(** The pointers at [hd] represent the agenda [l]. *)
Definition represents (h : heap) (hd : option positive) (l : agenda) : Prop :=
  ∃ bss, bins h hd bss ∧ bins_sorted bss ∧ flat bss = l.

(** The events the queue knows about: those linked in, and those other threads queued. *)
Definition pending (q : EventQueue) (l : agenda) : list positive := l.*2 ++ async_queue q.

Record eq_inv (w : world) (l : agenda) : Prop := {
  inv_rep : represents (objs w) (head (eq w)) l;
  inv_nodup : NoDup (pending (eq w) l);
  inv_sched x e : objs w !! x = Some e → queue e = Some (self (eq w)) →
    scheduled e = bool_decide (x ∈ pending (eq w) l);
  inv_alloc x : x ∈ pending (eq w) l → ∃ e, objs w !! x = Some e ∧ queue e = Some (self (eq w));
  inv_now k x : (k, x) ∈ l → _curTick (eq w) ≤ k.1 }.

Lemma represents_frame h h' hd l :
  represents h hd l → (∀ x, x ∈ l.*2 → same_links h h' x) → represents h' hd l.
Proof.
  intros (bss & Hb & Hs & <-) Hsame. rewrite flat_members in Hsame.
  exists bss. eauto using bins_frame.
Qed.

Lemma bins_flat_key h hd bss k x :
  bins h hd bss → (k, x) ∈ flat bss → ∃ e, h !! x = Some e ∧ key_of e = k.
Proof.
  induction 1 as [|y e k' ps bss Hy Hk Hs Hb IH]; [set_solver|].
  rewrite flat_cons, elem_of_app. intros [(z & ? & Hz)%list_elem_of_fmap|Hin]; [|auto].
  simplify_eq. apply elem_of_cons in Hz as [->|Hz]; [eauto|]. by eapply stack_alloc.
Qed.

Lemma represents_key h hd l k x :
  represents h hd l → (k, x) ∈ l → ∃ e, h !! x = Some e ∧ key_of e = k.
Proof. intros (bss & Hb & _ & <-). by apply bins_flat_key with hd. Qed.

Lemma insert_w_refines w l p ev :
  represents (objs w) (head (eq w)) l → NoDup l.*2 → objs w !! p = Some ev → p ∉ l.*2 →
  ∃ w' hd', insert_w p w = Ok w' ∧ eq w' = set_head hd' (eq w) ∧ links_only (objs w) (objs w') ∧
    represents (objs w') hd' (agenda_insert (key_of ev) p l).
Proof.
  intros (bss & Hb & Hs & <-) Hnd Hp Hni. rewrite flat_members in Hnd, Hni.
  destruct (insert_refines _ _ p ev bss Hb Hnd Hp Hni) as (h' & hd' & Hi & Hlo & Hb').
  unfold insert_w. rewrite Hi. simpl. eexists _, hd'. split_and!; [done..|].
  eexists. split_and!; [exact Hb'|by apply bins_sorted_insert|].
  apply flat_bins_insert. by eapply bins_nonempty.
Qed.

Lemma remove_w_refines w l p ev :
  represents (objs w) (head (eq w)) l → NoDup l.*2 → objs w !! p = Some ev →
  queue ev = Some (self (eq w)) → p ∈ l.*2 →
  ∃ w' hd', remove_w p w = Ok w' ∧ eq w' = set_head hd' (eq w) ∧ links_only (objs w) (objs w') ∧
    represents (objs w') hd' (agenda_remove p l).
Proof.
  intros (bss & Hb & Hs & <-) Hnd Hp Hq Hin. rewrite flat_members in Hnd, Hin.
  destruct (remove_refines _ _ p ev bss Hb Hs Hnd Hp Hq Hin) as (h' & hd' & Hi & Hlo & Hb').
  unfold remove_w. rewrite Hi. simpl. eexists _, hd'. split_and!; [done..|].
  eexists. split_and!; [exact Hb'|by apply bins_sorted_remove|by apply flat_bins_remove].
Qed.

(** Rebuilding the invariant after an operation on one event [p]: the other events keep
    everything but their links. *)
Lemma eq_inv_rebuild w w' l l' p :
  eq_inv w l →
  self (eq w') = self (eq w) →
  (∀ x, x ≠ p → unlink <$> objs w' !! x = unlink <$> objs w !! x) →
  (∀ x, x ≠ p → x ∈ pending (eq w') l' ↔ x ∈ pending (eq w) l) →
  represents (objs w') (head (eq w')) l' → NoDup (pending (eq w') l') →
  (∀ e, objs w' !! p = Some e → queue e = Some (self (eq w)) →
     scheduled e = bool_decide (p ∈ pending (eq w') l')) →
  (p ∈ pending (eq w') l' → ∃ e, objs w' !! p = Some e ∧ queue e = Some (self (eq w))) →
  (∀ k x, (k, x) ∈ l' → _curTick (eq w') ≤ k.1) →
  eq_inv w' l'.
Proof.
  intros Hinv Hself Hobj Hmem Hrep Hnd Hps Hpa Hnow. split; [done|done| | |done].
  - intros x e He Hq. rewrite Hself in Hq. destruct (decide (x = p)) as [->|Hne]; [by apply Hps|].
    specialize (Hobj x Hne). rewrite He in Hobj.
    destruct (objs w !! x) as [e0|] eqn:E0; [|done]. apply (inj Some) in Hobj.
    injection Hobj as ? ? Hf Hqe.
    rewrite (bool_decide_ext _ _ (Hmem x Hne)), <- (inv_sched _ _ Hinv x e0 E0) by congruence.
    unfold scheduled. congruence.
  - intros x Hx. rewrite Hself. destruct (decide (x = p)) as [->|Hne]; [by apply Hpa|].
    apply Hmem in Hx; [|done]. destruct (inv_alloc _ _ Hinv x Hx) as (e0 & E0 & Hq).
    specialize (Hobj x Hne). rewrite E0 in Hobj. destruct (objs w' !! x) as [e|]; [|done].
    apply (inj Some) in Hobj. injection Hobj as ? ? Hf Hqe. exists e. split; [done|congruence].
Qed.

Lemma upd_w_spec w p f e :
  objs w !! p = Some e → upd_w p f w = Ok (mkWorld (<[p := f e]> (objs w)) (eq w)).
Proof. intros Hp. unfold upd_w. by rewrite (upd_spec _ _ _ e). Qed.

Lemma links_only_fmap h h' x : links_only h h' → unlink <$> h' !! x = unlink <$> h !! x.
Proof. intros Hl. rewrite <- !lookup_fmap. by rewrite Hl. Qed.

(** Rewriting the flags of an event keeps every link. *)
Lemma same_links_set_flags h p e f x :
  h !! p = Some e → same_links h (<[p := set_flags f e]> h) x.
Proof.
  intros Hp e' He'. rewrite lookup_insert. case_decide; [|eauto]. simplify_eq. eauto.
Qed.

Lemma pending_perm q l l' : l ≡ₚ l' → pending q l ≡ₚ pending q l'.
Proof. intros Hl. unfold pending. by rewrite Hl. Qed.

Lemma elem_of_agenda_remove p l x : x ∈ (agenda_remove p l).*2 ↔ x ≠ p ∧ x ∈ l.*2.
Proof.
  unfold agenda_remove. rewrite !list_elem_of_fmap. setoid_rewrite list_elem_of_filter.
  split; [intros ([k y] & -> & Hy)|intros [Hne ([k y] & -> & Hy)]]; simpl in *.
  - split; [apply Hy|]. exists (k, y). split; [done|apply Hy].
  - by exists (k, y).
Qed.

Lemma NoDup_agenda_remove p l (as_ : list positive) :
  NoDup (l.*2 ++ as_) → NoDup ((agenda_remove p l).*2 ++ as_).
Proof.
  intros (Hl & Hd & Ha)%NoDup_app. apply NoDup_app. split_and!; [|intros x Hx%elem_of_agenda_remove; set_solver|done].
  clear Hd Ha. induction l as [|[k y] l IH]; [constructor|].
  rewrite fmap_cons in Hl. apply NoDup_cons in Hl as [Hy Hl].
  unfold agenda_remove in *. rewrite filter_cons. case_decide; [|auto].
  rewrite fmap_cons. constructor; [|auto]. fold (agenda_remove p l).
  rewrite elem_of_agenda_remove. naive_solver.
Qed.

(** An event that is not pending: allocated but not scheduled, or scheduled elsewhere. *)
Lemma not_pending w l p ev :
  eq_inv w l → objs w !! p = Some ev → scheduled ev = false → p ∉ pending (eq w) l.
Proof.
  intros Hinv Hp Hs Hin. destruct (inv_alloc _ _ Hinv p Hin) as (e & He & Hq).
  assert (e = ev) as -> by congruence.
  rewrite (inv_sched _ _ Hinv p ev Hp Hq), bool_decide_true in Hs by done. done.
Qed.

(** The common core of [schedule] and [reschedule]: stamp the tick, insert, set the flags. *)
Lemma stamp_insert_spec w l p ev when (fl : Z → Z) :
  represents (objs w) (head (eq w)) l → NoDup l.*2 → objs w !! p = Some ev → p ∉ l.*2 →
  ∃ w2 w3 hd' e3,
    insert_w p (mkWorld (<[p := setWhen when (self (eq w)) ev]> (objs w)) (eq w)) = Ok w2 ∧
    upd_w p (λ e, set_flags (fl (flags e)) e) w2 = Ok w3 ∧
    eq w3 = set_head hd' (eq w) ∧
    represents (objs w3) hd' (agenda_insert (when, _priority ev) p l) ∧
    objs w3 !! p = Some e3 ∧ flags e3 = fl (flags ev) ∧ queue e3 = Some (self (eq w)) ∧
    ∀ x, x ≠ p → unlink <$> objs w3 !! x = unlink <$> objs w !! x.
Proof.
  intros Hrep Hnd Hp Hni. set (ev1 := setWhen when (self (eq w)) ev).
  set (w1 := mkWorld (<[p := ev1]> (objs w)) (eq w)).
  destruct (insert_w_refines w1 l p ev1) as (w2 & hd' & Hi & Heq & Hlo & Hrep2).
  - simpl. eapply represents_frame; [done|]. intros x Hx. apply same_links_eq.
    apply lookup_insert_ne. set_solver.
  - done.
  - apply lookup_insert_eq.
  - done.
  - destruct (links_only_lookup _ _ p ev1 Hlo) as (e2 & He2 & Hu2); [apply lookup_insert_eq|].
    exists w2. eexists _, hd', _. split; [done|]. split; [by apply upd_w_spec|]. simpl.
    rewrite lookup_insert_eq. injection Hu2 as ? ? Hf Hq. split_and!; [by rewrite Heq| |done|..].
    + eapply represents_frame; [done|]. intros x Hx. by apply same_links_set_flags.
    + simpl. by rewrite Hf.
    + simpl. by rewrite Hq.
    + intros x Hx. rewrite lookup_insert_ne by done. rewrite (links_only_fmap _ _ x Hlo). simpl.
      by rewrite lookup_insert_ne.
Qed.

(** ** Servicing *)

Lemma flat_sorted bss : bins_sorted bss → agenda_sorted (flat bss).
Proof.
  unfold bins_sorted, agenda_sorted. induction bss as [|[k b] bss IH]; [constructor|].
  rewrite fmap_cons, flat_cons. intros Hs. inversion_clear Hs as [|? ? Hss Hall]. specialize (IH Hss).
  induction b as [|x b IHb]; [done|]. rewrite fmap_cons. simpl. constructor; [done|].
  apply Forall_app. split.
  - apply Forall_fmap, Forall_forall. intros y _. simpl. apply klt_irrefl.
  - apply Forall_forall. intros [k' y] Hy%flat_key. simpl. rewrite Forall_forall in Hall.
    specialize (Hall k' Hy). simpl in Hall. intros Hlt. apply (klt_irrefl k). by trans k'.
Qed.

Lemma represents_sorted h hd l : represents h hd l → agenda_sorted l.
Proof. intros (bss & _ & Hs & <-). by apply flat_sorted. Qed.

Lemma represents_tick_le h hd k p l k' x :
  represents h hd ((k, p) :: l) → (k', x) ∈ l → k.1 ≤ k'.1.
Proof.
  intros Hr%represents_sorted Hin. inversion_clear Hr as [|? ? _ Hall].
  rewrite Forall_forall in Hall. specialize (Hall _ Hin). unfold klt in Hall. simpl in Hall. lia.
Qed.

(** Popping the head is removing the top of the first bin. *)
Lemma servicePop_removeItem w hp he :
  head (eq w) = Some hp → objs w !! hp = Some he →
  servicePop w =
    r ← removeItem (<[hp := set_flags (clear (flags he) Scheduled) he]> (objs w)) hp hp;
    Ok (hp, mkWorld r.1 (set_head r.2 (eq w))).
Proof.
  intros Hh Hhe. unfold servicePop, removeItem. rewrite Hh. simpl. rewrite Hhe. simpl.
  rewrite (upd_w_spec _ _ _ he) by done. rewrite lookup_insert_eq. simpl. rewrite decide_True by done.
  destruct (nextInBin he) as [n|]; [|done]. by destruct (upd _ n _).
Qed.

Lemma servicePop_spec w k p l :
  eq_inv w ((k, p) :: l) →
  ∃ w2 ev ev2, servicePop w = Ok (p, w2) ∧ eq_inv w2 l ∧
    objs w !! p = Some ev ∧ objs w2 !! p = Some ev2 ∧ key_of ev2 = k ∧
    flags ev2 = clear (flags ev) Scheduled ∧
    (∀ x, x ≠ p → unlink <$> objs w2 !! x = unlink <$> objs w !! x) ∧
    ∃ hd, eq w2 = set_head hd (eq w).
Proof.
  intros Hinv. pose proof (inv_nodup _ _ Hinv) as Hnd. unfold pending in Hnd.
  assert (∃ ev, objs w !! p = Some ev ∧ queue ev = Some (self (eq w))) as (ev & Hp & Hq).
  { apply (inv_alloc _ _ Hinv). unfold pending. left. }
  assert (represents (<[p := set_flags (clear (flags ev) Scheduled) ev]> (objs w)) (head (eq w)) ((k, p) :: l))
    as (bss & Hb & Hs & Hfl).
  { eapply represents_frame; [apply Hinv|]. intros x _. by apply same_links_set_flags. }
  set (h1 := <[p := _]> (objs w)) in *.
  inversion Hb as [E1 E2|x e k' ps bss' Hx Hk Hst Hb' E1 E2]; subst bss; [done|].
  rewrite flat_cons in Hfl. injection Hfl as Hk' -> Hl. 
  assert (NoDup (p :: l.*2)) as Hndl by (by apply NoDup_app in Hnd as [? _]).
  assert (l.*2 = ps ++ members bss') as Hlm.
  { rewrite <- Hl, fmap_app, flat_members, <- list_fmap_compose. f_equal. apply list_fmap_id. }
  destruct (removeItem_spec h1 p p k' (p :: ps) bss') as (h2 & nb & Hr & Hlo & Hout & Hb2);
    [by rewrite E1|left|rewrite members_cons; simpl; by rewrite <- Hlm|].
  rewrite (servicePop_removeItem w p ev) by done. fold h1. rewrite Hr. simpl.
  destruct (links_only_lookup _ _ p (set_flags (clear (flags ev) Scheduled) ev) Hlo) as (ev2 & Hp2 & Hu2);
    [apply lookup_insert_eq|].
  apply NoDup_cons in Hndl as [Hpl Hndl].
  assert (∀ x, x ≠ p → unlink <$> h2 !! x = unlink <$> objs w !! x) as Hoth.
  { intros x Hne. rewrite (links_only_fmap h1 h2) by done. unfold h1. by rewrite lookup_insert_ne. }
  assert (p ∉ l.*2 ++ async_queue (eq w)) as Hpn.
  { simpl in Hnd. by apply NoDup_cons in Hnd as [? _]. }
  exists (mkWorld h2 (set_head nb (eq w))), ev, ev2. split_and!; [done| |done|done|..].
  - apply (eq_inv_rebuild w _ ((k, p) :: l) l p); simpl; try done.
    + intros x Hne. unfold pending. simpl. rewrite elem_of_cons. naive_solver.
    + exists (rebin k' (drop_from p (p :: ps)) bss'). split; [done|].
      unfold drop_from. rewrite filter_cons_False by naive_solver.
      rewrite filter_all by (intros x Hx' ->; apply Hpl; rewrite Hlm; apply elem_of_app; by left). split.
      * destruct ps; [|done]. unfold bins_sorted in *. by inversion Hs.
      * rewrite flat_rebin. done.
    + unfold pending. simpl. simpl in Hnd. by apply NoDup_cons in Hnd as [_ ?].
    + intros e2 He2 _. assert (e2 = ev2) as -> by congruence.
      rewrite bool_decide_false by done. unfold scheduled.
      injection Hu2 as _ _ -> _. simpl. by apply isSet_clear_same.
    + intros k2 x Hk2. apply (inv_now _ _ Hinv k2 x). by right.
  - apply unlink_key in Hu2. rewrite Hu2.
    assert (e = set_flags (clear (flags ev) Scheduled) ev) as Ee
      by (unfold h1 in Hx; rewrite lookup_insert_eq in Hx; congruence).
    rewrite <- Ee. congruence.
  - by injection Hu2 as _ _ -> _.
  - done.
  - eauto.
Qed.

(** An exit event must not be both auto-delete and on the main queue. *)
Definition exit_ok (e : Event) : bool :=
  negb (isExitEvent e) || negb (isAutoDelete e) || negb (isSet (flags e) IsMainQueue).

(** What the queue needs of an event's [process] method: run on a consistent queue, it
    returns, leaves the queue consistent, does not move the clock and does not free the
    event it was called on. *)
Class EventHandler {S : Type} (process : positive → S → world → res (S * world)) : Prop := {
  process_ok p s w l ev :
    eq_inv w l → objs w !! p = Some ev → exit_ok ev = true →
    ∃ s' w' l' ev', process p s w = Ok (s', w') ∧ eq_inv w' l' ∧ objs w' !! p = Some ev' ∧
      exit_ok ev' = true ∧ _curTick (eq w') = _curTick (eq w) }.

(** A handler that leaves the queue alone. *)
Definition passive {S} (f : positive → S → S) : positive → S → world → res (S * world) :=
  λ p s w, Ok (f p s, w).

#[export] Instance passive_handler {S} (f : positive → S → S) : EventHandler (passive f).
Proof. split. intros p s w l ev ? ? ?. by exists (f p s), w, l, ev. Qed.

Lemma setCurTick_inv t w l :
  eq_inv w l → (∀ k x, (k, x) ∈ l → t ≤ k.1) → eq_inv (setCurTick t w) l.
Proof. intros [] Hn. by split. Qed.

(** The auto-delete at the end of [serviceOne]. *)
Lemma serviceDone_spec {S} p (s : S) w ev :
  objs w !! p = Some ev →
  ∃ w', serviceDone p s w = Ok (None, s, w') ∧ (∀ l, eq_inv w l → eq_inv w' l) ∧ eq w' = eq w ∧
    ∀ x, x ≠ p → objs w' !! x = objs w !! x.
Proof.
  intros Hp. unfold serviceDone. rewrite Hp. simpl.
  destruct (isAutoDelete ev && negb (scheduled ev)) eqn:Ed; [|by exists w].
  apply andb_prop in Ed as [_ Hns%negb_true_iff].
  eexists. split; [done|]. split_and!; [|done|by intros x Hx; simpl; rewrite lookup_delete_ne].
  intros l Hinv. pose proof (not_pending w l p ev Hinv Hp Hns) as Hnp.
  apply (eq_inv_rebuild w _ l l p); simpl; try done.
  - intros x Hx. by rewrite lookup_delete_ne.
  - eapply represents_frame; [apply Hinv|]. intros x Hx. apply same_links_eq, lookup_delete_ne.
    intros ->. apply Hnp. unfold pending. apply elem_of_app. by left.
  - apply Hinv.
  - intros e. by rewrite lookup_delete_eq.
  - apply Hinv.
Qed.

Lemma flags_exit_ok e e' : flags e' = clear (flags e) Scheduled → exit_ok e' = exit_ok e.
Proof. intros E. unfold exit_ok, isExitEvent, isAutoDelete. by rewrite E, !isSet_clear_other. Qed.

Lemma flags_squashed e e' : flags e' = clear (flags e) Scheduled → squashed e' = squashed e.
Proof. intros E. unfold squashed. by rewrite E, isSet_clear_other. Qed.

(** The two branches of [serviceOne]: a squashed event is only unlinked... *)
Lemma serviceOne_squashed {S} (process : positive → S → world → res (S * world)) s w k p l ev :
  eq_inv w ((k, p) :: l) → objs w !! p = Some ev → squashed ev = true →
  ∃ w' hd, serviceOne process s w = Ok (None, s, w') ∧ eq_inv w' l ∧
    eq w' = set_head hd (eq w) ∧ (∀ x, x ≠ p → unlink <$> objs w' !! x = unlink <$> objs w !! x).
Proof.
  intros Hinv Hp Hsq. destruct (servicePop_spec w k p l Hinv) as
    (w2 & ev0 & ev2 & Hpop & Hinv2 & Hp0 & Hp2 & Hk2 & Hf2 & Hoth & hd & Heq).
  assert (ev0 = ev) as -> by congruence.
  unfold serviceOne. rewrite Hpop. simpl. rewrite Hp2. simpl.
  rewrite (flags_squashed ev ev2 Hf2), Hsq. simpl. rewrite (upd_w_spec _ _ _ ev2) by done. simpl.
  set (w3 := mkWorld (<[p := set_flags (clear (flags ev2) Squashed) ev2]> (objs w2)) (eq w2)).
  assert (p ∉ pending (eq w2) l) as Hnp.
  { apply (not_pending w2 l p ev2 Hinv2 Hp2). unfold scheduled. rewrite Hf2. by apply isSet_clear_same. }
  assert (eq_inv w3 l) as Hinv3.
  { apply (eq_inv_rebuild w2 _ l l p); simpl; try done.
    - intros x Hx. by rewrite lookup_insert_ne.
    - eapply represents_frame; [apply Hinv2|]. intros x _. by apply same_links_set_flags.
    - apply Hinv2.
    - intros e. rewrite lookup_insert_eq. intros [= <-] _. rewrite bool_decide_false by done.
      unfold scheduled. simpl. rewrite isSet_clear_other, Hf2 by done. by apply isSet_clear_same.
    - apply Hinv2. }
  destruct (serviceDone_spec p s w3 (set_flags (clear (flags ev2) Squashed) ev2)) as
    (w' & Hd & Hinv' & Heq' & Hx'); [apply lookup_insert_eq|].
  exists w', hd. rewrite Hd. split_and!; [done|by apply Hinv'|by rewrite Heq'|].
  intros x Hx. rewrite Hx', <- Hoth by done. simpl. by rewrite lookup_insert_ne.
Qed.

(** ... and any other event is processed at its own tick. *)
Lemma serviceOne_process {S} (process : positive → S → world → res (S * world))
    `{!EventHandler process} s w k p l ev :
  eq_inv w ((k, p) :: l) → objs w !! p = Some ev → squashed ev = false → exit_ok ev = true →
  ∃ w2 s' w4 l' r w', eq_inv (setCurTick k.1 w2) l ∧
    (∀ x, x ≠ p → unlink <$> objs w2 !! x = unlink <$> objs w !! x) ∧
    process p s (setCurTick k.1 w2) = Ok (s', w4) ∧
    serviceOne process s w = Ok (r, s', w') ∧ eq_inv w' l' ∧ _curTick (eq w') = k.1 ∧
    (∀ l4, eq_inv w4 l4 → eq_inv w' l4) ∧ (∀ x, x ≠ p → objs w' !! x = objs w4 !! x).
Proof.
  intros Hinv Hp Hsq Hex. destruct (servicePop_spec w k p l Hinv) as
    (w2 & ev0 & ev2 & Hpop & Hinv2 & Hp0 & Hp2 & Hk2 & Hf2 & Hoth & hd & Heq).
  assert (ev0 = ev) as -> by congruence.
  assert (eq_inv (setCurTick k.1 w2) l) as Hinv3.
  { apply setCurTick_inv; [done|]. intros k' x Hk'.
    eapply represents_tick_le; [apply Hinv|done]. }
  destruct (process_ok p s (setCurTick k.1 w2) l ev2) as (s' & w4 & l' & ev' & Hpr & Hinv4 & Hp4 & Hex4 & Ht);
    [done|done|by rewrite (flags_exit_ok ev)|].
  exists w2, s', w4, l'. unfold serviceOne. rewrite Hpop. simpl. rewrite Hp2. simpl.
  rewrite (flags_squashed ev ev2 Hf2), Hsq. simpl.
  assert (_when ev2 = k.1) as -> by (by rewrite <- Hk2).
  rewrite Hpr. simpl. rewrite Hp4. simpl. unfold exit_ok in Hex4. destruct (isExitEvent ev').
  - simpl in Hex4. rewrite bind_assert by done. exists (Some p), w4. split_and!; done.
  - destruct (serviceDone_spec p s' w4 ev' Hp4) as (w' & Hd & Hinv' & Heq' & Hx').
    exists None, w'. rewrite Hd. split_and!; try done; [by apply Hinv'|by rewrite Heq'].
Qed.

(** The reference for [serviceEvents] with passive handlers: run through the agenda. *)
Fixpoint run_agenda {S} (f : positive → S → S) (sq : positive → bool) (when : Z)
    (l : agenda) (s : S) : S * agenda :=
  match l with
  | [] => (s, [])
  | (k, p) :: r =>
      if when <? k.1 then (s, l) else run_agenda f sq when r (if sq p then s else f p s)
  end.

(** Whether the event object at [p] is squashed. *)
Definition is_squashed (h : heap) (p : positive) : bool :=
  match h !! p with Some e => squashed e | None => false end.

Lemma is_squashed_unlink (h h' : heap) x :
  unlink <$> h' !! x = unlink <$> h !! x → is_squashed h' x = is_squashed h x.
Proof.
  unfold is_squashed, squashed. destruct (h !! x), (h' !! x); try done.
  intros [= ? ? -> ?]. done.
Qed.

Lemma run_agenda_ext {S} (f : positive → S → S) sq sq' when l s :
  (∀ x, x ∈ l.*2 → sq' x = sq x) → run_agenda f sq' when l s = run_agenda f sq when l s.
Proof.
  revert s. induction l as [|[k p] l IH]; intros s Heq; [done|]. simpl.
  rewrite (Heq p) by left. rewrite IH; [done|]. intros x Hx. apply Heq. by right.
Qed.

Lemma empty_agenda h q l : represents h (head q) l → empty q = bool_decide (l = []).
Proof.
  intros (bss & Hb & _ & <-). unfold empty. apply bool_decide_ext.
  inversion Hb; subst; split; intros; done.
Qed.

Lemma nextTick_spec w k p l : eq_inv w ((k, p) :: l) → nextTick w = Ok k.1.
Proof.
  intros Hinv. destruct (inv_rep _ _ Hinv) as (bss & Hb & Hs & Hfl). unfold nextTick.
  inversion Hb as [|x e k' ps bss' Hx Hk Hst Hb' E1]; subst; [done|].
  rewrite flat_cons in Hfl. injection Hfl as <- <- _. simpl. rewrite Hx. done.
Qed.

(** ** The self check *)

Lemma verify_bin_spec h k ps : ∀ fuel nx v,
  stack h k nx ps → NoDup ps → (∀ x, x ∈ ps → x ∉ v_seen v) →
  ¬ klt k (v_time v, v_priority v) → (length ps ≤ fuel)%nat →
  verify_bin fuel h nx v = Ok (Some (match ps with
    | [] => v | _ => mkV k.1 k.2 (list_to_set (reverse ps) ∪ v_seen v) end)).
Proof.
  assert (∀ ps fuel nx v, stack h k nx ps → NoDup ps → (∀ x, x ∈ ps → x ∉ v_seen v) →
    ¬ klt k (v_time v, v_priority v) → (length ps ≤ fuel)%nat →
    ∃ v', verify_bin fuel h nx v = Ok (Some v') ∧
      v_seen v' = list_to_set (reverse ps) ∪ v_seen v ∧
      (v_time v', v_priority v') = match ps with [] => (v_time v, v_priority v) | _ => k end) as Hmain.
  { clear ps. induction ps as [|x ps IH]; intros fuel nx v Hs Hnd Hns Hk Hf.
    { inversion Hs. exists v. destruct fuel; split_and!; try done; simpl; set_solver. }
    inversion Hs as [|? e ? Hx Hke Hs']; subst. apply NoDup_cons in Hnd as [Hxn Hnd].
    destruct fuel as [|fuel]; simpl in Hf; [lia|]. cbn [verify_bin]. rewrite Hx. simpl.
    unfold klt in Hk. simpl in Hk.
    destruct (Z.ltb_spec (_when e) (v_time v)); [lia|].
    destruct (Z.eqb_spec (_when e) (v_time v)), (Z.ltb_spec (_priority e) (v_priority v)); try lia; simpl.
    all: rewrite decide_False by (apply Hns; left).
    all: destruct (IH fuel (nextInBin e) (mkV (_when e) (_priority e) ({[x]} ∪ v_seen v)) Hs' Hnd) as
      (v' & -> & Hsn & Hkv); simpl; [set_solver|apply klt_irrefl|lia|].
    all: exists v'; split_and!; [done| |by destruct ps].
    all: rewrite Hsn, reverse_cons, list_to_set_app_L; simpl; set_solver. }
  intros fuel nx v Hs Hnd Hns Hk Hf. destruct (Hmain ps fuel nx v) as ([t pr sn] & -> & Hsn & Hkv); [done..|].
  destruct ps as [|x ps]; simpl in *.
  - destruct v as [t' pr' sn']. simpl in *. simplify_eq. by rewrite (left_id_L ∅ (∪)).
  - destruct k. simplify_eq/=. done.
Qed.

Lemma verify_bins_spec h bss : ∀ fuel nx v,
  bins h nx bss → NoDup (members bss) → bins_sorted bss →
  (∀ x, x ∈ members bss → x ∉ v_seen v) →
  match bss with [] => True | (k, _) :: _ => ¬ klt k (v_time v, v_priority v) end →
  (length bss ≤ fuel)%nat → verify_bins fuel h nx v = Ok true.
Proof.
  induction bss as [|[k b] bss IH]; intros fuel nx v Hb Hnd Hsort Hns Hk Hf.
  { inversion Hb. by destruct fuel. }
  pose proof Hb as Hb0. inversion Hb as [|x e ? ps ? Hx Hke Hs Hb']; subst.
  destruct fuel as [|fuel]; simpl in Hf; [lia|]. cbn [verify_bins].
  rewrite members_cons in Hnd, Hns. apply NoDup_app in Hnd as (Hndb & Hdisj & Hnd).
  assert (stack h (key_of e) (Some x) (x :: ps)) as Hst by (by econstructor).
  rewrite (verify_bin_spec h (key_of e) (x :: ps)); [|done|done| |done|by eapply stack_length].
  2: { intros y Hy. apply Hns. apply elem_of_app. by left. }
  cbn [mbind res_bind]. rewrite Hx. cbn [deref mbind res_bind].
  unfold bins_sorted in Hsort. rewrite fmap_cons in Hsort. inversion_clear Hsort as [|? ? Hss Hall].
  apply IH; [done|done|done| | |lia].
  - cbn [v_seen]. intros y Hy. rewrite not_elem_of_union, elem_of_list_to_set, elem_of_reverse.
    split; [|apply Hns, elem_of_app; by right]. intros Hy'. by apply (Hdisj y).
  - destruct bss as [|[k' b'] bss]; [done|]. rewrite fmap_cons in Hall. inversion_clear Hall as [|? ? Hlt _].
    cbn in *. intros Hlt'. apply (klt_irrefl (key_of e)). by trans k'.
Qed.

(** [schedule], with what it does to the event itself. *)
Lemma schedule_spec par cur p when glob w l ev :
  eq_inv w l → objs w !! p = Some ev → scheduled ev = false → initialized ev = true →
  _curTick (eq w) ≤ when →
  ∃ w' , schedule par cur p when glob w = Ok w' ∧
    if par && (negb (bool_decide (self (eq w) = cur)) || glob)
    then eq_inv w' l ∧ async_queue (eq w') = async_queue (eq w) ++ [p]
    else eq_inv w' (agenda_insert (when, _priority ev) p l) ∧
         async_queue (eq w') = async_queue (eq w) ∧ _curTick (eq w') = _curTick (eq w) ∧
         ∃ e', objs w' !! p = Some e' ∧ flags e' = set (flags ev) Scheduled.
Proof.
  intros Hinv Hp Hs Hi Hw. pose proof (not_pending w l p ev Hinv Hp Hs) as Hnp.
  unfold schedule. rewrite bind_assert by (by apply Z.leb_le). rewrite Hp. simpl.
  rewrite Hs, Hi. simpl. rewrite (upd_w_spec _ _ _ ev) by done. simpl.
  pose proof (inv_nodup _ _ Hinv) as Hnd. unfold pending in Hnp, Hnd.
  set (w1 := mkWorld _ _). destruct (par && _).
  - cbn [mbind res_bind]. rewrite (upd_w_spec _ _ _ (setWhen when (self (eq w)) ev)) by apply lookup_insert_eq.
    eexists. split; [done|]. split; [|done].
    apply (eq_inv_rebuild w _ l l p); simpl; unfold pending; simpl; try done.
    + intros x Hx. by rewrite !lookup_insert_ne.
    + intros x Hx. set_solver.
    + eapply represents_frame; [apply Hinv|]. intros x Hx. apply same_links_eq.
      rewrite !lookup_insert_ne; set_solver.
    + rewrite app_assoc. apply NoDup_app. split_and!; [done|set_solver|apply NoDup_singleton].
    + intros e. rewrite lookup_insert_eq. intros [= <-] _. rewrite bool_decide_true by set_solver.
      unfold scheduled. simpl. by apply isSet_set_same.
    + intros _. rewrite lookup_insert_eq. eauto.
    + intros k x Hk. by apply (inv_now _ _ Hinv k x).
  - destruct (stamp_insert_spec w l p ev when (λ f, set f Scheduled)) as
      (w2 & w3 & hd' & e3 & Hi2 & Hu3 & Heq & Hrep & He3 & Hf3 & Hq3 & Hoth);
      [apply Hinv|by apply NoDup_app in Hnd as [? _]|done|set_solver|].
    unfold w1. rewrite Hi2. simpl. rewrite Hu3. exists w3. split; [done|].
    rewrite Heq. split; [|by eauto].
    pose proof (agenda_insert_perm (when, _priority ev) p l) as Hperm.
    apply (eq_inv_rebuild w _ l _ p); rewrite ?Heq; simpl; try done.
    + intros x Hx. unfold pending. rewrite Hperm. simpl. set_solver.
    + unfold pending. rewrite Hperm. simpl. by constructor.
    + intros e He _. assert (e = e3) as -> by congruence. unfold scheduled. rewrite Hf3.
      rewrite isSet_set_same by done. rewrite bool_decide_true; [done|].
      unfold pending. rewrite Hperm. set_solver.
    + eauto.
    + intros k x. rewrite Hperm. intros [[= -> ->]|Hk]%elem_of_cons; [done|].
      by apply (inv_now _ _ Hinv k x).
Qed.

(** [reschedule], likewise. *)
Lemma reschedule_spec par cur p when always w l ev :
  eq_inv w l → objs w !! p = Some ev → p ∈ l.*2 → initialized ev = true →
  (par = true → self (eq w) = cur) → _curTick (eq w) ≤ when →
  ∃ w' e', reschedule par cur p when always w = Ok w' ∧
    eq_inv w' (agenda_insert (when, _priority ev) p (agenda_remove p l)) ∧
    objs w' !! p = Some e' ∧ scheduled e' = true ∧ squashed e' = false ∧
    _curTick (eq w') = _curTick (eq w) ∧ flags e' = set (clear (flags ev) Squashed) Scheduled.
Proof.
  intros Hinv Hp Hin Hi Hcur Hw. pose proof (inv_nodup _ _ Hinv) as Hnd. unfold pending in Hnd.
  assert (p ∈ pending (eq w) l) as Hpend by (unfold pending; set_solver).
  destruct (inv_alloc _ _ Hinv p Hpend) as (? & ? & Hq). simplify_eq.
  assert (p ∉ async_queue (eq w)) as Hna by (apply NoDup_app in Hnd as (_ & Hd & _); set_solver).
  unfold reschedule. rewrite bind_assert by (by apply Z.leb_le). rewrite Hp. simpl.
  rewrite (inv_sched _ _ Hinv p ev Hp Hq), (bool_decide_true (p ∈ _)), Hi, orb_true_r by done. simpl.
  rewrite bind_assert by (destruct par; simpl; [by apply bool_decide_eq_true, Hcur|done]).
  destruct (remove_w_refines w l p ev) as (w1 & hd1 & Hr & Heq1 & Hlo & Hrep);
    [apply Hinv|by apply NoDup_app in Hnd as [? _]|done..|].
  rewrite Hr. cbn [mbind res_bind].
  destruct (links_only_lookup _ _ p ev Hlo Hp) as (e1 & He1 & Hu1).
  injection Hu1 as _ Hpr1 Hf1 Hq1. rewrite (upd_w_spec _ _ _ e1) by done. cbn [mbind res_bind].
  assert (self (eq w) = self (eq w1)) as -> by (by rewrite Heq1).
  assert (NoDup ((agenda_remove p l).*2 ++ async_queue (eq w))) as Hnd1 by (by apply NoDup_agenda_remove).
  assert (p ∉ (agenda_remove p l).*2) as Hpr by (rewrite elem_of_agenda_remove; naive_solver).
  destruct (stamp_insert_spec w1 (agenda_remove p l) p e1 when (λ f, set (clear f Squashed) Scheduled)) as
    (w2 & w3 & hd' & e3 & Hi2 & Hu3 & Heq & Hrep3 & He3 & Hf3 & Hq3 & Hoth);
    [by rewrite Heq1|by apply NoDup_app in Hnd1 as [? _]|done..|].
  rewrite Hi2. simpl. rewrite Hu3. exists w3, e3. rewrite <- Hpr1.
  split; [done|].
  assert (scheduled e3 = true) as Hs3 by (unfold scheduled; rewrite Hf3; by apply isSet_set_same).
  split; [|split_and!; [done|done|unfold squashed; rewrite Hf3, isSet_set_other by done; by apply isSet_clear_same|by rewrite Heq, Heq1|by rewrite Hf3, Hf1]].
  pose proof (agenda_insert_perm (when, _priority e1) p (agenda_remove p l)) as Hperm.
  apply (eq_inv_rebuild w _ l _ p); rewrite ?Heq, ?Heq1; simpl; try done.
  - intros x Hx. rewrite Hoth by done. by apply links_only_fmap.
  - intros x Hx. unfold pending. rewrite Hperm. simpl. rewrite elem_of_cons, !elem_of_app, elem_of_agenda_remove.
    naive_solver.
  - unfold pending. rewrite Hperm. simpl. constructor; [set_solver|done].
  - intros e He _. assert (e = e3) as -> by congruence. rewrite Hs3, bool_decide_true; [done|].
    unfold pending. rewrite Hperm. set_solver.
  - intros _. exists e3. by rewrite Hq3, Heq1.
  - intros k x. rewrite Hperm. intros [[= -> ->]|[_ Hk]%list_elem_of_filter]%elem_of_cons; [done|].
    by apply (inv_now _ _ Hinv k x).
Qed.

(** ** Main theorems *)

(** C1: [schedule] of an allocated, initialised, unscheduled event at a tick that is not in
    the past succeeds and keeps the queue's invariant.  From the queue's own thread (or in
    serial mode) the event takes its place in the agenda, ordered by (tick, priority) and
    before every event of the same key; from another thread, or as a global event in parallel
    mode, it is appended to the asynchronous list and the agenda is unchanged. *)
Theorem schedule_correct par cur p when glob w l ev :
  eq_inv w l → objs w !! p = Some ev → scheduled ev = false → initialized ev = true →
  _curTick (eq w) ≤ when →
  ∃ w' , schedule par cur p when glob w = Ok w' ∧
    if par && (negb (bool_decide (self (eq w) = cur)) || glob)
    then eq_inv w' l ∧ async_queue (eq w') = async_queue (eq w) ++ [p]
    else eq_inv w' (agenda_insert (when, _priority ev) p l) ∧
         async_queue (eq w') = async_queue (eq w).
Proof.
  intros Hinv Hp Hs Hi Hw.
  destruct (schedule_spec par cur p when glob w l ev) as (w' & Hok & Hres); [done..|].
  exists w'. split; [done|]. by destruct (par && _); [|destruct Hres as (? & ? & _)].
Qed.

(** [schedule] refuses, on an assertion and without touching the queue, an event in the
    past, an event that is already scheduled, and an event whose initialisation marker is
    not set. *)
Theorem schedule_asserts par cur p when glob w ev :
  objs w !! p = Some ev →
  when < _curTick (eq w) ∨ scheduled ev = true ∨ initialized ev = false →
  schedule par cur p when glob w = Fail AssertFailed.
Proof.
  intros Hp Hbad. unfold schedule. destruct (Z.leb_spec (_curTick (eq w)) when); [|done].
  simpl. rewrite Hp. simpl. destruct (scheduled ev); [done|]. simpl.
  destruct (initialized ev); [|done]. destruct Hbad as [|[|]]; [lia|done..].
Qed.

(** C8: [deschedule] of an event linked into the queue succeeds, removes exactly that event
    from the agenda and leaves the order of the others unchanged; the event is then
    unscheduled and unsquashed, and deleted if it is an auto-delete event. *)
Theorem deschedule_correct par cur p w l ev :
  eq_inv w l → objs w !! p = Some ev → p ∈ l.*2 → initialized ev = true →
  (par = true → self (eq w) = cur) →
  ∃ w', deschedule par cur p w = Ok w' ∧ eq_inv w' (agenda_remove p l) ∧
    match objs w' !! p with
    | None => isAutoDelete ev = true
    | Some e' => isAutoDelete ev = false ∧ scheduled e' = false ∧ squashed e' = false
    end.
Proof.
  intros Hinv Hp Hin Hi Hcur. pose proof (inv_nodup _ _ Hinv) as Hnd. unfold pending in Hnd.
  assert (p ∈ pending (eq w) l) as Hpend by (unfold pending; set_solver).
  destruct (inv_alloc _ _ Hinv p Hpend) as (? & ? & Hq). simplify_eq.
  assert (p ∉ async_queue (eq w)) as Hna by (apply NoDup_app in Hnd as (_ & Hd & _); set_solver).
  unfold deschedule. rewrite Hp. simpl.
  rewrite (inv_sched _ _ Hinv p ev Hp Hq), (bool_decide_true (p ∈ _)), Hi by done. simpl.
  rewrite bind_assert by (destruct par; simpl; [by apply bool_decide_eq_true, Hcur|done]).
  destruct (remove_w_refines w l p ev) as (w1 & hd' & Hr & Heq & Hlo & Hrep);
    [apply Hinv|by apply NoDup_app in Hnd as [? _]|done..|].
  rewrite Hr. simpl.
  destruct (links_only_lookup _ _ p ev Hlo Hp) as (e1 & He1 & Hu1).
  injection Hu1 as _ _ Hf1 Hq1. rewrite (upd_w_spec _ _ _ e1) by done. simpl.
  rewrite lookup_insert_eq. simpl.
  set (e2 := set_flags _ e1).
  assert (isAutoDelete e2 = isAutoDelete ev) as ->.
  { unfold isAutoDelete, e2. simpl. rewrite Hf1, !isSet_clear_other by done. done. }
  assert (scheduled e2 = false) as Hs2 by (by apply isSet_clear_same).
  assert (squashed e2 = false) as Hq2.
  { unfold squashed, e2. simpl. rewrite isSet_clear_other by done. by apply isSet_clear_same. }
  assert (p ∉ (agenda_remove p l).*2) as Hpr by (rewrite elem_of_agenda_remove; naive_solver).
  assert (∀ w3, eq w3 = eq w1 → (∀ x, x ≠ p → objs w3 !! x = objs w1 !! x) →
          (∀ e, objs w3 !! p = Some e → e = e2) → eq_inv w3 (agenda_remove p l)) as Hfin.
  { intros w3 E3 Ho3 Hp3. apply (eq_inv_rebuild w _ l _ p); rewrite ?E3, ?Heq; simpl; try done.
    - intros x Hx. rewrite Ho3 by done. by apply links_only_fmap.
    - intros x Hx. unfold pending. simpl. rewrite !elem_of_app, elem_of_agenda_remove. naive_solver.
    - eapply represents_frame; [exact Hrep|]. intros x [Hx _]%elem_of_agenda_remove.
      apply same_links_eq. by rewrite Ho3.
    - unfold pending. simpl. by apply NoDup_agenda_remove.
    - intros e He _. rewrite (Hp3 e He), Hs2, bool_decide_false; [done|]. unfold pending. simpl. set_solver.
    - unfold pending. simpl. set_solver.
    - intros k x [_ Hk]%list_elem_of_filter. by apply (inv_now _ _ Hinv k x). }
  destruct (isAutoDelete ev); (eexists; split; [done|]; split; [apply Hfin; simpl|]); try done.
  - intros x Hx. by rewrite lookup_delete_ne, lookup_insert_ne.
  - intros e. by rewrite lookup_delete_eq.
  - simpl. by rewrite lookup_delete_eq.
  - intros x Hx. by rewrite lookup_insert_ne.
  - intros e. rewrite lookup_insert_eq. by intros [=].
  - simpl. by rewrite lookup_insert_eq.
Qed.

(** [reschedule] moves a linked event to its new place: the agenda loses the old entry
    and gains one at the new tick, whatever the old position was; the event ends scheduled
    and unsquashed. *)
Theorem reschedule_correct par cur p when always w l ev :
  eq_inv w l → objs w !! p = Some ev → p ∈ l.*2 → initialized ev = true →
  (par = true → self (eq w) = cur) → _curTick (eq w) ≤ when →
  ∃ w' e', reschedule par cur p when always w = Ok w' ∧
    eq_inv w' (agenda_insert (when, _priority ev) p (agenda_remove p l)) ∧
    objs w' !! p = Some e' ∧ scheduled e' = true ∧ squashed e' = false.
Proof.
  intros Hinv Hp Hin Hi Hcur Hw.
  destruct (reschedule_spec par cur p when always w l ev) as (w' & e' & ? & ? & ? & ? & ? & _); [done..|].
  by exists w', e'.
Qed.

(** C14: [serviceOne] on a consistent non-empty queue runs the event with the least
    (tick, priority): it never fails, time does not go backwards, the clock is the event's
    tick when its handler ran, and a squashed event is dropped without running its handler
    and without moving the clock.  The handler is any one that keeps the queue consistent. *)
Theorem serviceOne_correct {S} (process : positive → S → world → res (S * world))
    `{!EventHandler process} s w k p l ev :
  eq_inv w ((k, p) :: l) → objs w !! p = Some ev → exit_ok ev = true →
  (∀ k' x, (k', x) ∈ l → ¬ klt k' k) ∧
  ∃ r s' w' l', serviceOne process s w = Ok (r, s', w') ∧ eq_inv w' l' ∧
    _curTick (eq w) ≤ _curTick (eq w') ∧
    if squashed ev then s' = s ∧ l' = l ∧ r = None ∧ _curTick (eq w') = _curTick (eq w)
    else _curTick (eq w') = k.1 ∧
         ∃ w0 w1, eq_inv w0 l ∧ _curTick (eq w0) = k.1 ∧ process p s w0 = Ok (s', w1).
Proof.
  intros Hinv Hp Hex. split.
  { intros k' x Hin. pose proof (represents_sorted _ _ _ (inv_rep _ _ Hinv)) as Hs.
    inversion_clear Hs as [|? ? _ Hall]. rewrite Forall_forall in Hall. by apply (Hall (k', x)). }
  assert (_curTick (eq w) ≤ k.1) as Hle by (apply (inv_now _ _ Hinv k p); left).
  destruct (squashed ev) eqn:Hsq.
  - destruct (serviceOne_squashed process s w k p l ev) as (w' & hd & Hs & Hinv' & Heq & _); [done..|].
    exists None, s, w', l. rewrite Heq. split_and!; done.
  - destruct (serviceOne_process process s w k p l ev) as
      (w2 & s' & w4 & l' & r & w' & Hinv2 & _ & Hpr & Hs & Hinv' & Ht & _); [done..|].
    exists r, s', w', l'. rewrite Ht. split_and!; [done|done|done|done|].
    exists (setCurTick k.1 w2), w4. done.
Qed.

(** C12: [serviceEvents(when)] terminates after at most one iteration per queued event when
    the handlers do not schedule, runs exactly the unsquashed events up to [when], in agenda
    order (run_agenda), leaves the later ones queued, and sets the clock to [when]. *)
Theorem serviceEvents_correct {S} (f : positive → S → S) l : ∀ fuel when s w,
  eq_inv w l → (∀ x e, x ∈ l.*2 → objs w !! x = Some e → exit_ok e = true) →
  (length l ≤ fuel)%nat →
  ∃ w', serviceEvents (passive f) fuel when s w =
          Ok ((run_agenda f (is_squashed (objs w)) when l s).1, w') ∧
    eq_inv w' (run_agenda f (is_squashed (objs w)) when l s).2 ∧ _curTick (eq w') = when.
Proof.
  induction l as [|[k p] l IH]; intros fuel when s w Hinv Hex Hf.
  { exists (setCurTick when w). split_and!; [|apply setCurTick_inv; [done|set_solver]|done].
    destruct fuel; simpl; rewrite (empty_agenda _ _ _ (inv_rep _ _ Hinv)); done. }
  destruct fuel as [|fuel]; simpl in Hf; [lia|]. cbn [serviceEvents].
  rewrite (empty_agenda _ _ _ (inv_rep _ _ Hinv)), bool_decide_false by done.
  rewrite (nextTick_spec w k p l Hinv). cbn [mbind res_bind run_agenda].
  destruct (Z.ltb_spec when k.1).
  { exists (setCurTick when w). split_and!; [done| |done]. apply setCurTick_inv; [done|].
    intros k' x [[= -> ->]|Hin]%elem_of_cons; [lia|].
    pose proof (represents_tick_le _ _ k p l k' x (inv_rep _ _ Hinv) Hin). lia. }
  destruct (inv_alloc _ _ Hinv p ltac:(left)) as (ev & Hp & _).
  assert (p ∉ l.*2) as Hpl.
  { pose proof (inv_nodup _ _ Hinv) as Hnd. unfold pending in Hnd. simpl in Hnd.
    apply NoDup_cons in Hnd as [Hpn _]. set_solver. }
  assert (∃ r w', serviceOne (passive f) s w = Ok (r, (if squashed ev then s else f p s), w') ∧
    eq_inv w' l ∧ ∀ x, x ∈ l.*2 → unlink <$> objs w' !! x = unlink <$> objs w !! x)
    as (r & w' & -> & Hinv' & Hoth).
  { destruct (squashed ev) eqn:Hsq.
    - destruct (serviceOne_squashed (passive f) s w k p l ev) as (w' & hd & Hs & Hinv' & Heq & Hoth); [done..|].
      exists None, w'. split_and!; [done..|]. intros x Hx. apply Hoth. set_solver.
    - destruct (serviceOne_process (passive f) s w k p l ev) as
        (w2 & s' & w4 & l' & r & w' & Hinv2 & Ho2 & Hpr & Hs & Hinv' & Ht & Heq4 & Hx4);
        [done..|apply (Hex p ev); [left|done]|].
      unfold passive in Hpr. injection Hpr as <- <-. exists r, w'. split_and!; [done| |].
      + by apply Heq4.
      + intros x Hx. rewrite Hx4 by set_solver. simpl. apply Ho2. set_solver. }
  cbn [mbind res_bind].
  destruct (IH fuel when (if squashed ev then s else f p s) w' Hinv') as (w'' & Hse & Hinv'' & Ht); [|lia|].
  { intros x e Hx He. specialize (Hoth x Hx). rewrite He in Hoth.
    destruct (objs w !! x) as [e0|] eqn:E0; [|done]. apply (inj Some) in Hoth.
    injection Hoth as _ _ Hfl _. rewrite <- (Hex x e0); [|by right|done].
    unfold exit_ok, isExitEvent, isAutoDelete. by rewrite Hfl. }
  assert (is_squashed (objs w) p = squashed ev) as -> by (unfold is_squashed; by rewrite Hp).
  rewrite (run_agenda_ext f (is_squashed (objs w)) (is_squashed (objs w'))) in Hse, Hinv''
    by (intros x Hx; by apply is_squashed_unlink, Hoth).
  eauto.
Qed.

(** The queue's self check accepts every consistent queue, with one exception that is
    its own: a queue whose first event is at tick 0 with a negative priority is reported
    as inverted, because the walk starts from tick 0 and priority 0. *)
Theorem debugVerify_correct w l :
  eq_inv w l → (∀ k x, (k, x) ∈ l → 0 ≤ k.1) →
  debugVerify w = Ok (match l with (k, _) :: _ => negb ((k.1 =? 0) && (k.2 <? 0)) | [] => true end).
Proof.
  intros Hinv Hpos. destruct (inv_rep _ _ Hinv) as (bss & Hb & Hs & Hfl).
  pose proof (inv_nodup _ _ Hinv) as Hnd. unfold pending in Hnd. apply NoDup_app in Hnd as (Hnd & _ & _).
  subst l. rewrite flat_members in Hnd. unfold debugVerify.
  pose proof (bins_length _ _ _ Hb Hnd) as Hlen.
  inversion Hb as [E1 E2|x e k ps bss' Hx Hk Hst Hb' E1 E2]; subst bss.
  { rewrite <- E1 in *. by apply (verify_bins_spec _ []). }
  assert (0 ≤ k.1) as Hk0 by (apply (Hpos k x); rewrite flat_cons; left).
  rewrite flat_cons. simpl. destruct ((k.1 =? 0) && (k.2 <? 0)) eqn:Ebad; simpl.
  - apply andb_prop in Ebad as [?%Z.eqb_eq ?%Z.ltb_lt]. rewrite <- Hk in *. unfold key_of in *. simpl in *.
    destruct (size (objs w)) as [|n] eqn:En; [simpl in Hlen; lia|].
    cbn [verify_bins]. rewrite En. cbn [verify_bin]. rewrite Hx. simpl.
    destruct (Z.ltb_spec (_when e) 0); [done|]. destruct (Z.eqb_spec (_when e) 0); [|lia].
    destruct (Z.ltb_spec (_priority e) 0); [done|lia].
  - rewrite E1. apply (verify_bins_spec _ _ _ _ _ Hb); [done|done|set_solver| |done].
    unfold klt. simpl. destruct (Z.eqb_spec k.1 0), (Z.ltb_spec k.2 0); try done; lia.
Qed.

(** Checkpointing. For an event restored with [unserialize] from what [serialize] wrote,
    [checkpointReschedule] puts it back on the queue exactly when it was both scheduled and
    squashed: a scheduled, unsquashed event loses its [Scheduled] flag on the way and is not
    requeued. *)
Theorem checkpointReschedule_restores w p e e0 :
  objs w !! p = Some e0 → scheduled e0 = false → initialized e0 = true →
  ∃ e', unserialize (serialize e) e0 = Ok e' ∧ key_of e' = key_of e ∧
    scheduled e' = scheduled e && squashed e ∧
    let w' := mkWorld (<[p := e']> (objs w)) (eq w) in
    checkpointReschedule p w' = if scheduled e && squashed e then insert_w p w' else Ok w'.
Proof.
  intros Hp Hs Hi. unfold unserialize. simpl. rewrite Hs, Hi. cbn [negb].
  rewrite !bind_assert by done. eexists. split; [done|]. split; [done|].
  assert (isSet (set (flags e) Initialized) Scheduled = scheduled e) as E1 by (by apply isSet_set_other).
  assert (isSet (set (flags e) Initialized) Squashed = squashed e) as E2 by (by apply isSet_set_other).
  unfold checkpointReschedule. simpl. rewrite lookup_insert_eq. simpl. rewrite E1, E2.
  unfold scheduled at 1. cbn [flags].
  destruct (scheduled e) eqn:E3, (squashed e) eqn:E4; simpl.
  all: rewrite ?E1.
  - done.
  - unfold isSet, clear. rewrite <- !Z.land_assoc. change (Z.land (bnot 16 _) Scheduled) with 0.
    rewrite Z.land_0_r. done.
  - done.
  - done.
Qed.

(** ** Witnesses: a queue with two events *)

Definition demo_ev (nb : option positive) (when prio : Z) (fl : Z) : Event :=
  mkEvent nb None when prio (Z.lor Initialized fl) (Some 1%positive).

Definition demo : world :=
  mkWorld (<[2%positive := demo_ev (Some 3%positive) 5 0 Scheduled]>
          (<[3%positive := demo_ev None 9 0 (Z.lor Scheduled AutoDelete)]>
          (<[4%positive := demo_ev None 0 0 0]> ∅)))
    (mkEventQueue 1 (Some 2%positive) 4 []).

Definition demo_agenda : agenda := [((5, 0), 2%positive); ((9, 0), 3%positive)].

Lemma demo_inv : eq_inv demo demo_agenda.
Proof.
  assert (∀ x e, objs demo !! x = Some e →
    (x = 2 ∧ e = demo_ev (Some 3) 5 0 Scheduled)%positive ∨
    (x = 3 ∧ e = demo_ev None 9 0 (Z.lor Scheduled AutoDelete))%positive ∨
    (x = 4 ∧ e = demo_ev None 0 0 0)%positive) as Hcase.
  { intros x e. simpl. rewrite !lookup_insert. repeat case_decide; subst; intros [=]; subst; auto. }
  split.
  - exists [((5, 0), [2%positive]); ((9, 0), [3%positive])]. split_and!; [|repeat constructor|done].
    eapply bins_cons; [done|done|constructor|]. eapply bins_cons; [done|done|constructor..].
  - apply (bool_decide_unpack _). vm_compute. done.
  - intros x e [[-> ->]|[[-> ->]|[-> ->]]]%Hcase _; vm_compute; done.
  - intros x [->|[->|[]%not_elem_of_nil]%elem_of_cons]%elem_of_cons; eexists; split; vm_compute; done.
  - intros k x [[= -> ->]|[[= -> ->]|[]%not_elem_of_nil]%elem_of_cons]%elem_of_cons; simpl; lia.
Qed.

Lemma schedule_correct_witness :
  ∃ w', schedule false 1 4 5 false demo = Ok w' ∧
    eq_inv w' [((5, 0), 4%positive); ((5, 0), 2%positive); ((9, 0), 3%positive)].
Proof.
  destruct (schedule_correct false 1 4 5 false demo demo_agenda (demo_ev None 0 0 0)) as (w' & ? & Hw & _);
    [exact demo_inv|done|done|done|simpl; lia|]. eauto.
Defined.

Lemma schedule_asserts_witness : schedule false 1 4 3 false demo = Fail AssertFailed.
Proof. apply (schedule_asserts false 1 4 3 false demo (demo_ev None 0 0 0)); [done|left; simpl; lia]. Defined.

Lemma deschedule_correct_witness :
  ∃ w', deschedule false 1 3 demo = Ok w' ∧ eq_inv w' [((5, 0), 2%positive)].
Proof.
  destruct (deschedule_correct false 1 3 demo demo_agenda (demo_ev None 9 0 (Z.lor Scheduled AutoDelete)))
    as (w' & ? & Hw & _); [exact demo_inv|done|right; left|done|done|]. eauto.
Defined.

Lemma reschedule_correct_witness :
  ∃ w' e', reschedule false 1 2 20 false demo = Ok w' ∧
    eq_inv w' [((9, 0), 3%positive); ((20, 0), 2%positive)] ∧ objs w' !! 2%positive = Some e'.
Proof.
  destruct (reschedule_correct false 1 2 20 false demo demo_agenda (demo_ev (Some 3%positive) 5 0 Scheduled))
    as (w' & e' & ? & Hw & ? & _); [exact demo_inv|done|left|done|done|simpl; lia|]. eauto.
Defined.

Lemma serviceOne_correct_witness :
  ∃ r s' w' l', serviceOne (passive (λ p (s : list positive), p :: s)) [] demo = Ok (r, s', w') ∧
    eq_inv w' l' ∧ _curTick (eq w') = 5.
Proof.
  destruct (serviceOne_correct (passive (λ p (s : list positive), p :: s)) [] demo (5, 0) 2%positive
    [((9, 0), 3%positive)] (demo_ev (Some 3%positive) 5 0 Scheduled)) as (_ & r & s' & w' & l' & Hs & Hi & _ & Ht & _);
    [exact demo_inv|done|done|].
  exists r, s', w', l'. split_and!; [exact Hs|exact Hi|exact Ht].
Defined.

Lemma serviceEvents_correct_witness :
  ∃ w', serviceEvents (passive (λ p (s : list positive), p :: s)) 2 7 [] demo = Ok ([2%positive], w') ∧
    eq_inv w' [((9, 0), 3%positive)] ∧ _curTick (eq w') = 7.
Proof.
  destruct (serviceEvents_correct (λ p (s : list positive), p :: s) demo_agenda 2 7 [] demo)
    as (w' & Hs & Hi & Ht); [exact demo_inv| |done|].
  - intros x e [->|[->|[]%not_elem_of_nil]%elem_of_cons]%elem_of_cons; intros [= <-]; done.
  - exists w'. split_and!; [exact Hs|exact Hi|exact Ht].
Defined.

Lemma debugVerify_correct_witness : debugVerify demo = Ok true.
Proof.
  rewrite (debugVerify_correct demo demo_agenda); [done|exact demo_inv|].
  intros k x [[= -> ->]|[[= -> ->]|[]%not_elem_of_nil]%elem_of_cons]%elem_of_cons; simpl; lia.
Defined.

Lemma checkpointReschedule_restores_witness :
  let e := demo_ev None 9 0 Scheduled in
  ∃ e', unserialize (serialize e) (demo_ev None 0 0 0) = Ok e' ∧ scheduled e' = false ∧
    checkpointReschedule 4 (mkWorld (<[4%positive := e']> (objs demo)) (eq demo)) =
      Ok (mkWorld (<[4%positive := e']> (objs demo)) (eq demo)).
Proof.
  destruct (checkpointReschedule_restores demo 4 (demo_ev None 9 0 Scheduled) (demo_ev None 0 0 0))
    as (e' & Hu & _ & Hs & Hc); [done..|]. exists e'. split_and!; [exact Hu|exact Hs|exact Hc].
Defined.

End EventQueueProofs.
