(* ===== verification/BPredTables.v ===== *)
(** * Branch prediction tables: saturating counters, return address stack, BTB

    Models [cpu/pred/sat_counter.hh], [cpu/pred/ras.hh] and [ras.cc],
    [cpu/pred/btb.hh] and [btb.cc], and [cpu/pred/indirect.hh] and [indirect.cc].
    The program counter type and the functions on it come from the ISA the simulator is
    built for; they are the class [ISA], with Alpha's as an instance. *)

From S2P Require Import Prelude.
From S2P Require Import IntMath.
Import IntMath.

(** ** The ISA's interface to the branch predictors *)
Module Isa.

(** The queries a predictor makes of a [StaticInst]. *)
Record StaticInst (PC : Type) := mkInst {
  isUncondCtrl : bool;
  isReturn : bool;
  isCall : bool;
  isDirectCtrl : bool;
  branchTarget : PC → PC
}.
Arguments mkInst {PC}.
Arguments isUncondCtrl {PC}.
Arguments isReturn {PC}.
Arguments isCall {PC}.
Arguments isDirectCtrl {PC}.
Arguments branchTarget {PC}.

Class ISA (PC : Type) := {
  set : Z → PC;
  instAddr : PC → Z;
  buildRetPC : PC → PC → PC;
  advancePC : PC → StaticInst PC → PC
}.

(** [GenericISA::SimplePCState<MachInst>], which Alpha uses with 4-byte instructions. *)
Record SimplePCState := mkPC { _pc : Z; _npc : Z }.

Definition sizeof_MachInst : Z := 4.

Definition simple_set (val : Z) : SimplePCState := mkPC val (u64 (val + sizeof_MachInst)).

Definition branching (s : SimplePCState) : bool :=
  negb (_npc s =? u64 (_pc s + sizeof_MachInst)).

Definition advance (s : SimplePCState) : SimplePCState :=
  mkPC (_npc s) (u64 (_npc s + sizeof_MachInst)).

Definition alpha_buildRetPC (curPC callPC : SimplePCState) : SimplePCState := advance callPC.

Definition alpha_advancePC (pc : SimplePCState) (inst : StaticInst SimplePCState) : SimplePCState :=
  advance pc.

#[export] Instance alpha_isa : ISA SimplePCState := {|
  set := simple_set;
  instAddr := _pc;
  buildRetPC := alpha_buildRetPC;
  advancePC := alpha_advancePC
|}.

#[export] Instance simple_pc_eq_dec : EqDecision SimplePCState.
Proof. solve_decision. Defined.

End Isa.

(** ** [SatCounter] *)
Module SatCounter.

Record SatCounter := mkCtr { initialVal : Z; maxVal : Z; counter : Z }.

(** The default constructor leaves [maxVal] to [setBits], which every user calls. *)
Definition default_ctr : SatCounter := mkCtr 0 0 0.

Definition max_of_bits (bits : Z) : Z := u8 (Z.shiftl 1 bits - 1).

Definition newBits (bits : Z) : SatCounter := mkCtr 0 (max_of_bits bits) 0.

Definition newInit (bits initial_val : Z) : res SatCounter :=
  if max_of_bits bits <? initial_val then Fail Fatal
  else Ok (mkCtr initial_val (max_of_bits bits) initial_val).

Definition setBits (bits : Z) (c : SatCounter) : SatCounter :=
  mkCtr (initialVal c) (max_of_bits bits) (counter c).

Definition reset (c : SatCounter) : SatCounter :=
  mkCtr (initialVal c) (maxVal c) (initialVal c).

Definition increment (c : SatCounter) : SatCounter :=
  if counter c <? maxVal c then mkCtr (initialVal c) (maxVal c) (u8 (counter c + 1)) else c.

Definition decrement (c : SatCounter) : SatCounter :=
  if 0 <? counter c then mkCtr (initialVal c) (maxVal c) (u8 (counter c - 1)) else c.

Definition read (c : SatCounter) : Z := counter c.

(** A counter of [bits] bits within its range. *)
Definition wf (bits : Z) (c : SatCounter) : Prop :=
  maxVal c = 2 ^ bits - 1 ∧ 0 ≤ initialVal c ≤ maxVal c ∧ 0 ≤ counter c ≤ maxVal c.

Lemma max_of_bits_pow2 bits : 0 ≤ bits ≤ 8 → max_of_bits bits = 2 ^ bits - 1.
Proof.
  intros Hb. unfold max_of_bits. rewrite Z.shiftl_1_l. apply wrap_small.
  pose proof (pow2_pos bits ltac:(lia)). split; [lia|].
  assert (2 ^ bits ≤ 2 ^ 8) by (apply Z.pow_le_mono_r; lia). lia.
Qed.

Lemma wf_setBits_default bits : 0 ≤ bits ≤ 8 → wf bits (setBits bits default_ctr).
Proof.
  intros Hb. unfold wf. simpl. rewrite max_of_bits_pow2 by done.
  pose proof (pow2_pos bits ltac:(lia)). lia.
Qed.

Lemma wf_max_u8 bits c : 0 ≤ bits ≤ 8 → wf bits c → maxVal c < 2 ^ 8.
Proof.
  intros Hb [-> _]. assert (2 ^ bits ≤ 2 ^ 8) by (apply Z.pow_le_mono_r; lia). lia.
Qed.

(** One training step: [increment] when the branch is taken, [decrement] otherwise. *)
Definition train (taken : bool) (c : SatCounter) : SatCounter :=
  if taken then increment c else decrement c.

Lemma counter_train bits taken c :
  0 ≤ bits ≤ 8 → wf bits c →
  counter (train taken c) =
    if taken then counter c `min` (maxVal c - 1) + 1 else counter c `max` 1 - 1.
Proof.
  intros Hb Hc. pose proof (wf_max_u8 bits c Hb Hc). destruct Hc as (_ & _ & Hc).
  unfold train, increment, decrement. destruct taken.
  - destruct (Z.ltb_spec (counter c) (maxVal c)); simpl; [|lia].
    rewrite wrap_small; [lia|split; lia].
  - destruct (Z.ltb_spec 0 (counter c)); simpl; [|lia].
    rewrite wrap_small; [lia|split; lia].
Qed.

Lemma maxVal_train taken c : maxVal (train taken c) = maxVal c.
Proof. unfold train, increment, decrement. destruct taken; by case_match. Qed.

Lemma initialVal_train taken c : initialVal (train taken c) = initialVal c.
Proof. unfold train, increment, decrement. destruct taken; by case_match. Qed.

Lemma wf_train bits taken c : 0 ≤ bits ≤ 8 → wf bits c → wf bits (train taken c).
Proof.
  intros Hb Hc. pose proof (counter_train bits taken c Hb Hc) as Ht.
  destruct Hc as (Hm & Hi & Hc). unfold wf.
  rewrite Ht, maxVal_train, initialVal_train. destruct taken; lia.
Qed.

(** Training in one direction for [2^bits - 1] branches reaches that direction's end
    of the range and stays there. *)
Lemma counter_train_same bits taken n c :
  0 ≤ bits ≤ 8 → wf bits c →
  let c' := Nat.iter n (train taken) c in
  wf bits c' ∧ initialVal c' = initialVal c ∧
  counter c' = if taken then (counter c + Z.of_nat n) `min` maxVal c
               else (counter c - Z.of_nat n) `max` 0.
Proof.
  intros Hb Hc. induction n as [|n (Hw & Hi & Hn)]; simpl Nat.iter.
  { split_and!; [done..|]. destruct Hc as (? & ? & ?), taken; lia. }
  split_and!; [by apply wf_train|by rewrite initialVal_train|].
  rewrite (counter_train bits) by done.
  replace (maxVal (Nat.iter n (train taken) c)) with (maxVal c)
    by (destruct Hw as [-> _], Hc as [-> _]; done).
  rewrite Hn. destruct Hc as (_ & _ & ?), taken; lia.
Qed.

(** A saturating counter of up to 8 bits never leaves its range: any sequence of
    increments and decrements keeps it between 0 and [2^bits - 1], each step moves it by
    one unless it is at that end, and [2^bits - 1] steps in one direction saturate it
    whatever its value was. *)
Theorem satCounter_saturates bits c (steps : list bool) :
  0 ≤ bits ≤ 8 → wf bits c →
  let c' := foldl (λ c t, train t c) c steps in
  0 ≤ read c' ≤ 2 ^ bits - 1 ∧
  read (increment c') = (read c' + 1) `min` (2 ^ bits - 1) ∧
  read (decrement c') = (read c' - 1) `max` 0 ∧
  (∀ n, 2 ^ bits - 1 ≤ Z.of_nat n →
    read (Nat.iter n increment c') = 2 ^ bits - 1 ∧ read (Nat.iter n decrement c') = 0) ∧
  read (reset c') = initialVal c.
Proof.
  intros Hb Hc c'.
  assert (wf bits c' ∧ initialVal c' = initialVal c) as [Hw Hi].
  { subst c'. clear -Hb Hc. revert c Hc. induction steps as [|t l IH]; intros c Hc; [done|].
    simpl. destruct (IH (train t c)) as [? ->]; [by apply wf_train|].
    split; [done|]. apply initialVal_train. }
  pose proof (λ n, counter_train_same bits true n c' Hb Hw) as Ht.
  pose proof (λ n, counter_train_same bits false n c' Hb Hw) as Hf.
  pose proof Hw as (Hm & _ & Hr). rewrite <- Hm. unfold read.
  split; [done|].
  destruct (Ht 1%nat) as (_ & _ & Ht1). destruct (Hf 1%nat) as (_ & _ & Hf1).
  split; [exact Ht1|]. split; [exact Hf1|]. split; [|done].
  intros n Hn. destruct (Ht n) as (_ & _ & Htn). destruct (Hf n) as (_ & _ & Hfn).
  change (Nat.iter n (train true) c') with (Nat.iter n increment c') in Htn.
  change (Nat.iter n (train false) c') with (Nat.iter n decrement c') in Hfn. lia.
Qed.

Lemma satCounter_saturates_witness :
  read (Nat.iter 3 increment (foldl (λ c t, train t c) (newBits 2) [true; false; false])) = 3.
Proof.
  destruct (satCounter_saturates 2 (newBits 2) [true; false; false]) as (_ & _ & _ & H & _).
  - lia.
  - vm_compute. repeat split; discriminate.
  - apply (H 3%nat). vm_compute. discriminate.
Defined.

End SatCounter.

(** ** [ReturnAddrStack] *)
Module RAS.
Import Isa.

Section ras.
Context {PC : Type} `{!ISA PC}.

Record ReturnAddrStack := mkRAS {
  addrStack : list PC;
  numEntries : Z;
  usedEntries : Z;
  tos : Z
}.

Definition with_tos (t : Z) (r : ReturnAddrStack) : ReturnAddrStack :=
  mkRAS (addrStack r) (numEntries r) (usedEntries r) t.

Definition with_used (u : Z) (r : ReturnAddrStack) : ReturnAddrStack :=
  mkRAS (addrStack r) (numEntries r) u (tos r).

Definition with_stack (s : list PC) (r : ReturnAddrStack) : ReturnAddrStack :=
  mkRAS s (numEntries r) (usedEntries r) (tos r).

Definition reset (r : ReturnAddrStack) : res ReturnAddrStack :=
  s ← vfor (numEntries r) (λ _, set 0) (addrStack r);
  Ok (mkRAS s (numEntries r) 0 0).

(** [init] of a fresh object: [resize] fills the vector with default program counters,
    which [reset] overwrites. *)
Definition init (n : Z) : res ReturnAddrStack :=
  reset (mkRAS (replicate (Z.to_nat n) (set 0)) n 0 0).

Definition top (r : ReturnAddrStack) : res PC := vread (addrStack r) (tos r).

Definition topIdx (r : ReturnAddrStack) : Z := tos r.

Definition incrTos (r : ReturnAddrStack) : ReturnAddrStack :=
  let t := u32 (tos r + 1) in
  with_tos (if t =? numEntries r then 0 else t) r.

Definition decrTos (r : ReturnAddrStack) : ReturnAddrStack :=
  with_tos (if tos r =? 0 then u32 (numEntries r - 1) else tos r - 1) r.

Definition push (return_addr : PC) (r : ReturnAddrStack) : res ReturnAddrStack :=
  let r := incrTos r in
  s ← vwrite (addrStack r) (tos r) return_addr;
  let r := with_stack s r in
  Ok (if usedEntries r =? numEntries r then r else with_used (u32 (usedEntries r + 1)) r).

Definition pop (r : ReturnAddrStack) : ReturnAddrStack :=
  let r := if 0 <? usedEntries r then with_used (usedEntries r - 1) r else r in
  decrTos r.

Definition restore (top_entry_idx : Z) (restored : PC) (r : ReturnAddrStack)
  : res ReturnAddrStack :=
  let r := with_tos top_entry_idx r in
  s ← vwrite (addrStack r) (tos r) restored;
  Ok (with_stack s r).

Definition empty (r : ReturnAddrStack) : bool := usedEntries r =? 0.

Definition full (r : ReturnAddrStack) : bool := usedEntries r =? numEntries r.

#[export] Instance pc_inhabited : Inhabited PC := populate (set 0).

(** The stack of [n] entries, all indices within it. *)
Definition wf (n : Z) (r : ReturnAddrStack) : Prop :=
  numEntries r = n ∧ 0 < n < 2 ^ 32 ∧ vsize (addrStack r) = n ∧
  0 ≤ usedEntries r ≤ n ∧ 0 ≤ tos r < n.

(** What the circular buffer stands for: the addresses of the used entries, newest first. *)
Definition contents (r : ReturnAddrStack) : list PC :=
  (λ k, addrStack r !!! Z.to_nat ((tos r - k) mod numEntries r)) <$> seqZ 0 (usedEntries r).

Lemma tos_incr n r : wf n r → tos (incrTos r) = (tos r + 1) mod n.
Proof.
  intros (Hn & Hb & _ & _ & Ht). unfold incrTos. simpl. rewrite Hn.
  rewrite wrap_small by (split; lia). destruct (Z.eqb_spec (tos r + 1) n) as [->|].
  - symmetry. apply Z.mod_same. lia.
  - symmetry. apply Z.mod_small. lia.
Qed.

Lemma tos_decr n r : wf n r → tos (decrTos r) = (tos r - 1) mod n.
Proof.
  intros (Hn & Hb & _ & _ & Ht). unfold decrTos. simpl. rewrite Hn.
  destruct (Z.eqb_spec (tos r) 0) as [->|].
  - rewrite wrap_small by (split; lia). apply (Z.mod_unique _ _ (-1)); lia.
  - symmetry. apply Z.mod_small. lia.
Qed.

Lemma init_ok n :
  0 < n < 2 ^ 32 → ∃ r, init n = Ok r ∧ wf n r ∧ contents r = [] ∧ tos r = 0.
Proof.
  intros Hn. unfold init, reset. simpl.
  rewrite vfor_all by (rewrite vsize_replicate; lia). simpl.
  eexists. split; [done|]. split_and!; try done; simpl; try lia.
  unfold wf. simpl. split_and!; try lia.
  unfold vsize. rewrite length_fmap, length_replicate. lia.
Qed.

Lemma top_ok n r : wf n r → top r = Ok (addrStack r !!! Z.to_nat (tos r)).
Proof.
  intros (? & ? & Hs & _ & Ht). destruct (vread_ok (addrStack r) (tos r)) as (x & Hx & Hl); [lia|].
  unfold top. rewrite Hx. f_equal. symmetry. by apply list_lookup_total_correct.
Qed.

Lemma push_ok n a r :
  wf n r → ∃ r', push a r = Ok r' ∧ wf n r' ∧ tos r' = (tos r + 1) mod n ∧
    addrStack r' = <[Z.to_nat ((tos r + 1) mod n) := a]> (addrStack r) ∧
    usedEntries r' = (usedEntries r + 1) `min` n.
Proof.
  intros Hw. pose proof (tos_incr n r Hw) as Ht. destruct Hw as (Hn & Hb & Hs & Hu & Htos).
  pose proof (Z.mod_pos_bound (tos r + 1) n ltac:(lia)).
  unfold push. rewrite Ht, vwrite_ok by (change (addrStack (incrTos r)) with (addrStack r); lia).
  cbn [mbind res_bind].
  eexists. split; [done|].
  change (usedEntries (with_stack _ (incrTos r))) with (usedEntries r).
  change (numEntries (with_stack _ (incrTos r))) with (numEntries r). rewrite Hn.
  destruct (Z.eqb_spec (usedEntries r) n) as [He|He].
  - unfold wf. cbn -[incrTos insert]. rewrite vsize_insert, Ht.
    change (usedEntries (incrTos r)) with (usedEntries r).
    split_and!; done || lia.
  - unfold wf. cbn -[incrTos insert]. rewrite vsize_insert, Ht.
    change (usedEntries (incrTos r)) with (usedEntries r).
    rewrite wrap_small by (split; lia). split_and!; done || lia.
Qed.

Lemma pop_ok n r :
  wf n r → wf n (pop r) ∧ tos (pop r) = (tos r - 1) mod n ∧ addrStack (pop r) = addrStack r ∧
    usedEntries (pop r) = (usedEntries r - 1) `max` 0.
Proof.
  intros Hw.
  assert (∀ u, tos (decrTos (with_used u r)) = (tos r - 1) mod n) as Hd
    by (intros u; apply (tos_decr n r Hw)).
  pose proof (tos_decr n r Hw) as Hd0.
  destruct Hw as (Hn & Hb & Hs & Hu & Ht).
  pose proof (Z.mod_pos_bound (tos r - 1) n ltac:(lia)).
  unfold pop, wf. destruct (Z.ltb_spec 0 (usedEntries r)).
  - rewrite Hd. cbn -[decrTos]. split_and!; cbn; lia || done.
  - rewrite Hd0. split_and!; cbn; lia || done.
Qed.

Lemma restore_ok n i a r :
  wf n r → 0 ≤ i < n → ∃ r', restore i a r = Ok r' ∧ wf n r' ∧ tos r' = i ∧
    addrStack r' = <[Z.to_nat i := a]> (addrStack r) ∧ usedEntries r' = usedEntries r.
Proof.
  intros (Hn & Hb & Hs & Hu & Ht) Hi. unfold restore.
  rewrite vwrite_ok by (simpl; lia). eexists. split; [done|].
  unfold wf. simpl. rewrite vsize_insert. split_and!; done || lia.
Qed.

Lemma length_contents r : length (contents r) = Z.to_nat (usedEntries r).
Proof. unfold contents. by rewrite length_fmap, length_seqZ. Qed.

Lemma lookup_contents r k :
  (k < Z.to_nat (usedEntries r))%nat →
  contents r !! k = Some (addrStack r !!! Z.to_nat ((tos r - Z.of_nat k) mod numEntries r)).
Proof.
  intros Hk. unfold contents. rewrite list_lookup_fmap, lookup_seqZ_lt by lia.
  simpl. by rewrite Z.add_0_l.
Qed.

Lemma contents_push n a r r' :
  wf n r → push a r = Ok r' → contents r' = take (Z.to_nat n) (a :: contents r).
Proof.
  intros Hw Hp. destruct (push_ok n a r Hw) as (r1 & Hp1 & Hw1 & Ht & Hs & Hu).
  assert (r1 = r') as -> by congruence.
  pose proof Hw as (Hn & Hb & Hl & Hur & Htr). pose proof Hw1 as (Hn1 & _).
  apply (list_eq_same_length _ _ (length (contents r'))); [|done|].
  { rewrite length_take, length_cons, !length_contents. lia. }
  intros k x y Hk. rewrite length_contents in Hk. rewrite lookup_contents by lia.
  rewrite lookup_take_lt by lia. rewrite Hs, Ht, Hn1. destruct k as [|k].
  - rewrite Z.sub_0_r, Z.mod_mod by lia. intros [= <-] [= <-].
    rewrite list_lookup_total_insert_eq; [done|]. unfold vsize in Hl.
    pose proof (Z.mod_pos_bound (tos r + 1) n ltac:(lia)). lia.
  - simpl. rewrite lookup_contents by lia. intros [= <-] [= <-]. rewrite Hn.
    rewrite Zminus_mod_idemp_l.
    replace (tos r + 1 - Z.of_nat (S k)) with (tos r - Z.of_nat k) by lia.
    rewrite list_lookup_total_insert_ne; [done|].
    intros Heq. apply Z2Nat.inj in Heq; [|apply Z.mod_pos_bound; lia..].
    assert ((tos r + 1 - (tos r - Z.of_nat k)) mod n = 0) as Hz.
    { rewrite Zminus_mod, Heq, Z.sub_diag. by apply Zmod_0_l. }
    rewrite Z.mod_small in Hz by lia. lia.
Qed.

Lemma contents_pop n r : wf n r → contents (pop r) = tail (contents r).
Proof.
  intros Hw. destruct (pop_ok n r Hw) as (Hw1 & Ht & Hs & Hu).
  pose proof Hw as (Hn & Hb & Hl & Hur & Htr). pose proof Hw1 as (Hn1 & _).
  apply (list_eq_same_length _ _ (length (contents (pop r)))); [|done|].
  { destruct (contents r) eqn:E; pose proof (length_contents r) as E2; rewrite E in E2; rewrite length_contents; simpl in *; lia. }
  intros k x y Hk. rewrite length_contents in Hk. rewrite lookup_contents by lia.
  rewrite lookup_tail, lookup_contents by lia. rewrite Hs, Ht, Hn1, Hn, Zminus_mod_idemp_l.
  intros [= <-] [= <-]. do 3 f_equal. lia.
Qed.

Lemma top_contents n r a l : wf n r → contents r = a :: l → top r = Ok a.
Proof.
  intros Hw Hc. rewrite (top_ok n) by done. f_equal.
  assert (0 < usedEntries r). { pose proof (length_contents r) as He. rewrite Hc in He. simpl in He. lia. }
  pose proof (lookup_contents r 0 ltac:(lia)) as H0. rewrite Hc in H0. injection H0 as ->.
  destruct Hw as (-> & _ & _ & _ & ?). by rewrite Z.sub_0_r, Z.mod_small by lia.
Qed.

(** The circular buffer of the return address stack implements a bounded stack:
    [push] puts the address on top and, when the stack is full, drops the oldest one;
    [pop] removes the top; [top] reads it; [empty] and [full] tell its length; and every
    operation keeps the indices inside the buffer and succeeds. *)
Theorem ras_refines_bounded_stack n r a :
  wf n r →
  (∃ r', push a r = Ok r' ∧ wf n r' ∧ contents r' = take (Z.to_nat n) (a :: contents r) ∧
    top r' = Ok a ∧ (full r = false → contents (pop r') = contents r ∧ tos (pop r') = tos r)) ∧
  wf n (pop r) ∧ contents (pop r) = tail (contents r) ∧
  (∀ b l, contents r = b :: l → top r = Ok b) ∧
  (empty r = true ↔ contents r = []) ∧ (full r = true ↔ Z.of_nat (length (contents r)) = n).
Proof.
  intros Hw. pose proof Hw as (Hn & Hb & Hl & Hu & Ht). split; [|split_and!].
  - destruct (push_ok n a r Hw) as (r' & Hp & Hw' & Ht' & _ & Hu'). exists r'.
    pose proof (contents_push n a r r' Hw Hp) as Hc.
    split_and!; [done..| |].
    + apply (top_contents n r' a (take (pred (Z.to_nat n)) (contents r))); [done|]. rewrite Hc.
      by destruct (Z.to_nat n) eqn:E; [lia|].
    + unfold full. rewrite Z.eqb_neq. intros Hf. split.
      * rewrite (contents_pop n) by done. rewrite Hc.
        destruct (Z.to_nat n) eqn:E; [lia|]. simpl. apply take_ge. rewrite length_contents. lia.
      * destruct (pop_ok n r' Hw') as (_ & -> & _). rewrite Ht', Zminus_mod_idemp_l.
        rewrite Z.add_simpl_r. by apply Z.mod_small.
  - by apply (pop_ok n).
  - by apply (contents_pop n).
  - intros b l. by apply (top_contents n).
  - unfold empty. rewrite Z.eqb_eq, <- length_zero_iff_nil, length_contents. lia.
  - unfold full. rewrite Z.eqb_eq, length_contents. lia.
Qed.

End ras.
Arguments ReturnAddrStack : clear implicits.

Definition ras_example : ReturnAddrStack SimplePCState :=
  mkRAS [mkPC 8 12; mkPC 0 4; mkPC 4 8] 3 2 0.

Lemma ras_refines_bounded_stack_witness :
  ∃ r', push (mkPC 16 20) ras_example = Ok r' ∧
    contents r' = [mkPC 16 20; mkPC 8 12; mkPC 4 8].
Proof.
  destruct (ras_refines_bounded_stack 3 ras_example (mkPC 16 20)) as [(r' & Hp & _ & Hc & _) _].
  - vm_compute. repeat split; discriminate.
  - exists r'. split; [exact Hp|]. rewrite Hc. vm_compute. reflexivity.
Defined.

End RAS.

(** ** [DefaultBTB] *)
Module BTB.
Import Isa.

Section btb.
Context {PC : Type} `{!ISA PC}.

Record BTBEntry := mkEntry { tag : Z; target : PC; tid : Z; e_valid : bool }.

(** The constructor leaves [tid] unset; it is read only in a valid entry. *)
Definition newEntry : BTBEntry := mkEntry 0 (set 0) 0 false.

Definition invalidate (e : BTBEntry) : BTBEntry := mkEntry (tag e) (target e) (tid e) false.

Record DefaultBTB := mkBTB {
  btb : list BTBEntry;
  numEntries : Z;
  idxMask : Z;
  tagBits : Z;
  tagMask : Z;
  instShiftAmt : Z;
  tagShiftAmt : Z;
  log2NumThreads : Z
}.

Definition with_btb (l : list BTBEntry) (b : DefaultBTB) : DefaultBTB :=
  mkBTB l (numEntries b) (idxMask b) (tagBits b) (tagMask b) (instShiftAmt b) (tagShiftAmt b)
    (log2NumThreads b).

Definition newBTB (n tag_bits shift threads : Z) : res DefaultBTB :=
  lt ← floorLog2_u threads;
  if negb (isPowerOf2 32 n) then Fail Fatal
  else
    l ← vfor n invalidate (replicate (Z.to_nat n) newEntry);
    ln ← floorLog2_u n;
    Ok (mkBTB l n (u32 (n - 1)) tag_bits (u32 (Z.shiftl 1 tag_bits - 1)) shift
         (u32 (shift + ln)) lt).

Definition reset (b : DefaultBTB) : res DefaultBTB :=
  l ← vfor (numEntries b) invalidate (btb b);
  Ok (with_btb l b).

Definition getIndex (b : DefaultBTB) (instPC t : Z) : Z :=
  u32 (Z.land
    (Z.lxor (Z.shiftr instPC (instShiftAmt b))
       (u64 (Z.shiftl t (u32 (tagShiftAmt b - instShiftAmt b - log2NumThreads b)))))
    (idxMask b)).

Definition getTag (b : DefaultBTB) (instPC : Z) : Z :=
  Z.land (Z.shiftr instPC (tagShiftAmt b)) (tagMask b).

Definition hit (b : DefaultBTB) (e : BTBEntry) (instPC t : Z) : bool :=
  e_valid e && (getTag b instPC =? tag e) && (tid e =? t).

Definition valid (b : DefaultBTB) (instPC t : Z) : res bool :=
  let btb_idx := getIndex b instPC t in
  assert_ (btb_idx <? numEntries b) ;;
  e ← vread (btb b) btb_idx;
  Ok (hit b e instPC t).

Definition lookup (b : DefaultBTB) (instPC t : Z) : res PC :=
  let btb_idx := getIndex b instPC t in
  assert_ (btb_idx <? numEntries b) ;;
  e ← vread (btb b) btb_idx;
  Ok (if hit b e instPC t then target e else set 0).

Definition update (b : DefaultBTB) (instPC : Z) (tgt : PC) (t : Z) : res DefaultBTB :=
  let btb_idx := getIndex b instPC t in
  assert_ (btb_idx <? numEntries b) ;;
  l ← vwrite (btb b) btb_idx (mkEntry (getTag b instPC) tgt t true);
  Ok (with_btb l b).

Definition wf (b : DefaultBTB) : Prop :=
  (∃ k, 0 ≤ k < 32 ∧ numEntries b = 2 ^ k) ∧ idxMask b = numEntries b - 1 ∧
  vsize (btb b) = numEntries b.

Lemma getIndex_range b pc t : wf b → 0 ≤ getIndex b pc t < numEntries b.
Proof.
  intros ((k & Hk & Hn) & Hm & _). unfold getIndex. rewrite Hm, Hn.
  match goal with |- context [Z.land ?x _] => pose proof (land_pred_pow2_range k x ltac:(lia)) end.
  assert (2 ^ k < 2 ^ 32) by (apply Z.pow_lt_mono_r; lia).
  rewrite wrap_small by (split; lia). done.
Qed.

Lemma newBTB_ok n tag_bits shift threads :
  in_width 32 n → in_width 32 threads → 0 < threads →
  match newBTB n tag_bits shift threads with
  | Ok b => wf b ∧ numEntries b = n ∧ Forall (λ e, e_valid e = false) (btb b)
  | Fail e => e = Fatal ∧ isPowerOf2 32 n = false
  end.
Proof.
  intros Hn Hth Hpos. unfold newBTB.
  assert (∀ x, in_width 32 x → in_width 64 x) as H64.
  { intros x Hx. unfold in_width in *. assert (2 ^ 32 < 2 ^ 64) by (apply Z.pow_lt_mono_r; lia). lia. }
  rewrite (floorLog2_u_ull threads), (floorLog2_log2 threads) by (done || by apply H64). cbn [mbind res_bind].
  destruct (isPowerOf2 32 n) eqn:Hp; cbn [negb]; [|done].
  pose proof Hp as (k & Hk & Hnk)%(isPowerOf2_correct 32 n); [|lia|done].
  pose proof (pow2_pos k ltac:(lia)).
  rewrite vfor_all by (rewrite vsize_replicate; lia). cbn [mbind res_bind].
  rewrite (floorLog2_u_ull n), (floorLog2_log2 n) by (done || lia || by apply H64). cbn [mbind res_bind].
  split_and!; [|done|].
  - split_and!; cbn [numEntries idxMask btb]; [by exists k| |].
    + destruct Hn. rewrite wrap_small by (split; lia). done.
    + unfold vsize. rewrite length_fmap, length_replicate. lia.
  - cbn [btb]. apply Forall_fmap, Forall_true. done.
Qed.

Lemma btb_read b pc t :
  wf b → ∃ e, btb b !! Z.to_nat (getIndex b pc t) = Some e ∧
    valid b pc t = Ok (hit b e pc t) ∧
    lookup b pc t = Ok (if hit b e pc t then target e else set 0).
Proof.
  intros Hw. pose proof (getIndex_range b pc t Hw) as Hi. pose proof Hw as (_ & _ & Hs).
  destruct (vread_ok (btb b) (getIndex b pc t)) as (e & He & Hl); [lia|].
  exists e. unfold valid, lookup.
  rewrite !bind_assert by (apply Z.ltb_lt; lia). rewrite He. done.
Qed.

Lemma btb_update_ok b pc tgt t :
  wf b → let e := mkEntry (getTag b pc) tgt t true in
  update b pc tgt t = Ok (with_btb (<[Z.to_nat (getIndex b pc t) := e]> (btb b)) b) ∧
  wf (with_btb (<[Z.to_nat (getIndex b pc t) := e]> (btb b)) b).
Proof.
  intros Hw. pose proof (getIndex_range b pc t Hw). pose proof Hw as (Hp & Hm & Hs).
  unfold update. rewrite bind_assert by (apply Z.ltb_lt; lia).
  rewrite vwrite_ok by lia. split; [done|]. split_and!; [done|done|].
  cbn [btb numEntries with_btb]. by rewrite vsize_insert.
Qed.

(** The BTB remembers the last target: for a table made by the constructor's checks,
    every index is inside the table, so no assertion fails; after [update] the branch is
    [valid] and [lookup] returns the new target; a branch of another set keeps what it
    had; and a branch of the same set and another tag or thread no longer hits. *)
Theorem btb_update_lookup b pc tgt t pc' t' :
  wf b →
  ∃ b', update b pc tgt t = Ok b' ∧ wf b' ∧
    valid b' pc t = Ok true ∧ lookup b' pc t = Ok tgt ∧
    (getIndex b pc' t' ≠ getIndex b pc t →
      valid b' pc' t' = valid b pc' t' ∧ lookup b' pc' t' = lookup b pc' t') ∧
    (getIndex b pc' t' = getIndex b pc t → (getTag b pc' ≠ getTag b pc ∨ t' ≠ t) →
      valid b' pc' t' = Ok false ∧ lookup b' pc' t' = Ok (set 0)).
Proof.
  intros Hw. destruct (btb_update_ok b pc tgt t Hw) as [Hu Hw'].
  pose proof (getIndex_range b pc t Hw) as Hi. pose proof Hw as (_ & _ & Hs). unfold vsize in Hs.
  eexists. split; [exact Hu|]. split; [done|].
  set (e := mkEntry (getTag b pc) tgt t true) in *.
  set (b' := with_btb (<[Z.to_nat (getIndex b pc t) := e]> (btb b)) b) in *.
  assert (∀ p q, getIndex b' p q = getIndex b p q) as HI by done.
  destruct (btb_read b' pc t Hw') as (e1 & He1 & Hv1 & Hl1).
  destruct (btb_read b' pc' t' Hw') as (e2 & He2 & Hv2 & Hl2).
  destruct (btb_read b pc' t' Hw) as (e3 & He3 & Hv3 & Hl3).
  rewrite Hv1, Hl1, Hv2, Hl2, Hv3, Hl3. rewrite HI in *.
  cbn [b' btb with_btb] in He1, He2. rewrite list_lookup_insert_eq in He1 by lia.
  injection He1 as <-.
  assert (hit b' e pc t = true) as ->. { unfold hit. cbn. by rewrite !Z.eqb_refl. }
  split_and!; [done..| |].
  - intros Hne. pose proof (getIndex_range b pc' t' Hw).
    rewrite list_lookup_insert_ne in He2 by lia. assert (e2 = e3) as -> by congruence. done.
  - intros Heq Hd. rewrite Heq, list_lookup_insert_eq in He2 by lia. injection He2 as <-.
    assert (hit b' e pc' t' = false) as ->; [|done].
    unfold hit. cbn [e e_valid tag tid b' with_btb].
    change (getTag b' pc') with (getTag b pc').
    destruct Hd as [Hd%Z.eqb_neq|Hd]; [by rewrite Hd|].
    assert ((t =? t') = false) as -> by (apply Z.eqb_neq; congruence). apply andb_false_r.
Qed.

End btb.
Arguments BTBEntry : clear implicits.
Arguments DefaultBTB : clear implicits.

Lemma btb_update_lookup_witness :
  ∃ b b' : DefaultBTB SimplePCState, newBTB 16 16 2 2 = Ok b ∧
    update b 0x1000 (mkPC 0x2000 0x2004) 1 = Ok b' ∧
    valid b 0x1000 1 = Ok false ∧ lookup b' 0x1000 1 = Ok (mkPC 0x2000 0x2004).
Proof.
  eexists. destruct (btb_update_lookup
    (with_btb (replicate 16 newEntry) (mkBTB [] 16 15 16 65535 2 6 1))
    0x1000 (mkPC 0x2000 0x2004) 1 0 0) as (b' & Hu & _ & _ & Hl & _).
  - split; [|split; vm_compute; reflexivity]. exists 4. vm_compute. repeat split; discriminate.
  - exists b'. split; [vm_compute; reflexivity|]. split; [exact Hu|].
    split; [vm_compute; reflexivity|exact Hl].
Defined.

End BTB.
