(* ===== verification/IndirectPred.v ===== *)
(** * The indirect branch target predictor

    Models [cpu/pred/indirect.hh] and [indirect.cc].  [rand()], the C library's source
    of the replacement way, is an argument of [recordTarget]. *)

From S2P Require Import Prelude.
From S2P Require Import IntMath.
From S2P Require Import BPredTables.
Import IntMath.

Module Indirect.
Import Isa.

Section indirect.
Context {PC : Type} `{!ISA PC}.

Record IPredEntry := mkIEntry { tag : Z; target : PC }.

Definition newIEntry : IPredEntry := mkIEntry 0 (set 0).

Record HistoryEntry := mkHist { pcAddr : Z; targetAddr : Z; seqNum : Z }.

(** [pathHist] is a deque, oldest first. *)
Record ThreadInfo := mkThread { pathHist : list HistoryEntry; headHistEntry : Z }.

Record IndirectPredictor := mkIPred {
  hashGHR : bool;
  hashTargets : bool;
  numSets : Z;
  numWays : Z;
  tagBits : Z;
  pathLength : Z;
  instShift : Z;
  targetCache : list (list IPredEntry);
  threadInfo : list ThreadInfo
}.

Definition with_threads (l : list ThreadInfo) (p : IndirectPredictor) : IndirectPredictor :=
  mkIPred (hashGHR p) (hashTargets p) (numSets p) (numWays p) (tagBits p) (pathLength p)
    (instShift p) (targetCache p) l.

Definition with_cache (c : list (list IPredEntry)) (p : IndirectPredictor) : IndirectPredictor :=
  mkIPred (hashGHR p) (hashTargets p) (numSets p) (numWays p) (tagBits p) (pathLength p)
    (instShift p) c (threadInfo p).

Definition newIndirect (hash_ghr hash_targets : bool)
    (num_sets num_ways tag_bits path_len inst_shift num_threads : Z) : res IndirectPredictor :=
  if negb (isPowerOf2 32 num_sets) then Fail Panicked
  else Ok (mkIPred hash_ghr hash_targets num_sets num_ways tag_bits path_len inst_shift
    (replicate (Z.to_nat num_sets) (replicate (Z.to_nat num_ways) newIEntry))
    (replicate (Z.to_nat num_threads) (mkThread [] 0))).

(** The loop over the path history, newest entry first; [p] counts the entries used. *)
Fixpoint hash_path (len shift hash_shift : Z) (newest_first : list HistoryEntry) (p hash : Z) : Z :=
  match newest_first with
  | h :: l =>
      if p <? len
      then hash_path len shift hash_shift l (p + 1)
             (Z.lxor hash (Z.shiftr (targetAddr h) (u32 (shift + p * hash_shift))))
      else hash
  | [] => hash
  end.

Definition getSetIndex (q : IndirectPredictor) (br_addr ghr tid : Z) : res Z :=
  t_info ← vread (threadInfo q) tid;
  let hash := Z.shiftr br_addr (instShift q) in
  let hash := if hashGHR q then Z.lxor hash ghr else hash in
  hash ←
    (if hashTargets q then
       l ← floorLog2_u (numSets q);
       (* the division by a zero path length is undefined *)
       if pathLength q =? 0 then Fail BadPointer
       else Ok (hash_path (pathLength q) (instShift q) (l / pathLength q)
                  (rev (pathHist t_info)) 0 hash)
     else Ok hash);
  Ok (Z.land hash (u32 (numSets q - 1))).

Definition getTag (q : IndirectPredictor) (br_addr : Z) : Z :=
  Z.land (Z.shiftr br_addr (instShift q)) (Z.shiftl 1 (tagBits q) - 1).

(** The search for a way with the tag, first way first. *)
Fixpoint find_way (t : Z) (iset : list IPredEntry) : option (nat * IPredEntry) :=
  match iset with
  | [] => None
  | way :: l =>
      if tag way =? t then Some (0%nat, way)
      else match find_way t l with
           | Some (i, w) => Some (S i, w)
           | None => None
           end
  end.

(** [lookup] returns the target it writes through its reference argument, if it hits. *)
Definition lookup (q : IndirectPredictor) (br_addr ghr tid : Z) : res (option PC) :=
  set_index ← getSetIndex q br_addr ghr tid;
  let t := getTag q br_addr in
  assert_ (set_index <? numSets q) ;;
  iset ← vread (targetCache q) set_index;
  Ok (match find_way t iset with
      | Some (_, way) => Some (target way)
      | None => None
      end).

Definition recordIndirect (q : IndirectPredictor) (br_addr tgt_addr seq_num tid : Z)
  : res IndirectPredictor :=
  t ← vread (threadInfo q) tid;
  l ← vwrite (threadInfo q) tid
    (mkThread (pathHist t ++ [mkHist br_addr tgt_addr seq_num]) (headHistEntry t));
  Ok (with_threads l q).

Definition commit_thread (len seq_num : Z) (t : ThreadInfo) : ThreadInfo :=
  if bool_decide (pathHist t = []) then t
  else if headHistEntry t <? vsize (pathHist t) then
    match pathHist t !! Z.to_nat (headHistEntry t) with
    | Some h =>
        if seqNum h <=? seq_num then
          if len <=? headHistEntry t then mkThread (tail (pathHist t)) (headHistEntry t)
          else mkThread (pathHist t) (u32 (headHistEntry t + 1))
        else t
    | None => t
    end
  else t.

Definition commit (q : IndirectPredictor) (seq_num tid : Z) : res IndirectPredictor :=
  t ← vread (threadInfo q) tid;
  l ← vwrite (threadInfo q) tid (commit_thread (pathLength q) seq_num t);
  Ok (with_threads l q).

(** The prefix before the first entry younger than [seq_num]; the rest is erased. *)
Fixpoint squash_hist (seq_num : Z) (l : list HistoryEntry) : list HistoryEntry :=
  match l with
  | [] => []
  | h :: l => if seq_num <? seqNum h then [] else h :: squash_hist seq_num l
  end.

Definition squash (q : IndirectPredictor) (seq_num tid : Z) : res IndirectPredictor :=
  t ← vread (threadInfo q) tid;
  l ← vwrite (threadInfo q) tid (mkThread (squash_hist seq_num (pathHist t)) (headHistEntry t));
  Ok (with_threads l q).

Definition set_hist (q : IndirectPredictor) (tid : Z) (h : list HistoryEntry)
  : res IndirectPredictor :=
  t ← vread (threadInfo q) tid;
  l ← vwrite (threadInfo q) tid (mkThread h (headHistEntry t));
  Ok (with_threads l q).

(** The target is recorded in the set computed without the branch's own history entry;
    [rnd] is the value of [rand()]. *)
Definition recordTarget (q : IndirectPredictor) (seq_num ghr : Z) (tgt : PC) (tid rnd : Z)
  : res IndirectPredictor :=
  t_info ← vread (threadInfo q) tid;
  hist_entry ← deref (last (pathHist t_info));
  let older := take (length (pathHist t_info) - 1) (pathHist t_info) in
  q ← set_hist q tid older;
  set_index ← getSetIndex q (pcAddr hist_entry) ghr tid;
  let t := getTag q (pcAddr hist_entry) in
  q ← set_hist q tid (older ++ [mkHist (pcAddr hist_entry) (instAddr tgt) (seqNum hist_entry)]);
  assert_ (set_index <? numSets q) ;;
  iset ← vread (targetCache q) set_index;
  iset ←
    match find_way t iset with
    | Some (i, _) => Ok (<[i := mkIEntry t tgt]> iset)
    | None =>
        (* [rand() % numWays] is undefined for zero ways *)
        if numWays q =? 0 then Fail BadPointer
        else vwrite iset (rnd mod numWays q) (mkIEntry t tgt)
    end;
  c ← vwrite (targetCache q) set_index iset;
  Ok (with_cache c q).

Definition wf (threads : Z) (q : IndirectPredictor) : Prop :=
  (∃ k, 0 ≤ k < 32 ∧ numSets q = 2 ^ k) ∧ 0 < numWays q < 2 ^ 32 ∧ 0 < pathLength q ∧
  vsize (targetCache q) = numSets q ∧
  Forall (λ s, vsize s = numWays q) (targetCache q) ∧
  vsize (threadInfo q) = threads.

(** The path history of a thread. *)
Definition path (q : IndirectPredictor) (tid : Z) : list HistoryEntry :=
  match threadInfo q !! Z.to_nat tid with Some t => pathHist t | None => [] end.

Lemma path_vread q tid t : vread (threadInfo q) tid = Ok t → path q tid = pathHist t.
Proof. intros [_ H]%vread_inv. unfold path. by rewrite H. Qed.

(** Replacing one thread's record. *)
Lemma write_thread threads q tid t :
  wf threads q → 0 ≤ tid < threads →
  ∃ l, vwrite (threadInfo q) tid t = Ok l ∧ wf threads (with_threads l q) ∧
    path (with_threads l q) tid = pathHist t ∧
    vread l tid = Ok t ∧
    ∀ tid', 0 ≤ tid' → tid' ≠ tid → path (with_threads l q) tid' = path q tid'.
Proof.
  intros (Hp & Hw & Hl & Hc & Hf & Ht) Htid. rewrite vwrite_ok by lia.
  eexists. split; [done|]. split_and!.
  - unfold wf. cbn [threadInfo with_threads numSets numWays pathLength targetCache].
    rewrite vsize_insert. split_and!; done || lia.
  - unfold path. cbn [threadInfo with_threads]. rewrite list_lookup_insert_eq; [done|]. unfold vsize in Ht. lia.
  - apply vread_insert. lia.
  - intros tid' H0 Hne. unfold path. cbn [threadInfo with_threads]. rewrite list_lookup_insert_ne; [done|lia].
Qed.

Lemma set_hist_ok threads q tid h :
  wf threads q → 0 ≤ tid < threads →
  ∃ q', set_hist q tid h = Ok q' ∧ wf threads q' ∧ path q' tid = h ∧
    (∀ tid', 0 ≤ tid' → tid' ≠ tid → path q' tid' = path q tid') ∧
    ∃ l, q' = with_threads l q.
Proof.
  intros Hw Ht. pose proof Hw as (_ & _ & _ & _ & _ & Hl).
  destruct (vread_ok (threadInfo q) tid) as (t & Hr & _); [lia|].
  destruct (write_thread threads q tid (mkThread h (headHistEntry t)) Hw Ht)
    as (l & Hwr & Hw' & Hp & _ & Ho).
  exists (with_threads l q). unfold set_hist. rewrite Hr. cbn [mbind res_bind]. rewrite Hwr.
  split_and!; try done. by exists l.
Qed.

Lemma squash_set_hist q seq tid : squash q seq tid = set_hist q tid (squash_hist seq (path q tid)).
Proof.
  unfold squash, set_hist. destruct (vread (threadInfo q) tid) as [t|] eqn:Hr; [|done].
  by rewrite (path_vread _ _ _ Hr).
Qed.

Lemma recordIndirect_set_hist q pc tgt seq tid :
  recordIndirect q pc tgt seq tid = set_hist q tid (path q tid ++ [mkHist pc tgt seq]).
Proof.
  unfold recordIndirect, set_hist. destruct (vread (threadInfo q) tid) as [t|] eqn:Hr; [|done].
  by rewrite (path_vread _ _ _ Hr).
Qed.

(** The set index depends only on the configuration and the thread's path history. *)
Lemma getSetIndex_ok threads q pc ghr tid :
  wf threads q → 0 ≤ tid < threads →
  ∃ i, 0 ≤ i < numSets q ∧ ∀ c l,
    path (with_threads l q) tid = path q tid → vsize l = threads →
    getSetIndex (with_cache c (with_threads l q)) pc ghr tid = Ok i.
Proof.
  intros (Hp & Hw & Hpl & Hc & Hf & Ht) Htid. pose proof Hp as (k & Hk & Hn).
  pose proof (pow2_pos k ltac:(lia)).
  assert (2 ^ k < 2 ^ 32) by (apply Z.pow_lt_mono_r; lia).
  assert (2 ^ 32 < 2 ^ 64) by (apply Z.pow_lt_mono_r; lia).
  exists (Z.land
    (if hashTargets q
     then hash_path (pathLength q) (instShift q) (Z.log2 (numSets q) / pathLength q)
            (rev (path q tid)) 0
            (if hashGHR q then Z.lxor (Z.shiftr pc (instShift q)) ghr else Z.shiftr pc (instShift q))
     else if hashGHR q then Z.lxor (Z.shiftr pc (instShift q)) ghr else Z.shiftr pc (instShift q))
    (numSets q - 1)).
  split. { rewrite Hn. apply land_pred_pow2_range. lia. }
  intros c l Hpath Hlen. unfold getSetIndex.
  cbn [threadInfo with_cache with_threads instShift hashGHR hashTargets numSets pathLength].
  destruct (vread_ok l tid) as (t & Hr & Hlk); [lia|]. rewrite Hr. cbn [mbind res_bind].
  unfold path at 1 in Hpath. cbn in Hpath. rewrite Hlk in Hpath. rewrite <- Hpath.
  rewrite (wrap_small 32 (numSets q - 1)) by (split; lia).
  destruct (hashTargets q); [|done].
  rewrite floorLog2_u_ull, floorLog2_log2 by (unfold in_width; lia). cbn [mbind res_bind].
  destruct (Z.eqb_spec (pathLength q) 0); [lia|done].
Qed.

Lemma lookup_total threads q pc ghr tid :
  wf threads q → 0 ≤ tid < threads → ∃ o, lookup q pc ghr tid = Ok o.
Proof.
  intros Hw Ht. pose proof Hw as (_ & _ & _ & Hc & _ & Hl).
  destruct (getSetIndex_ok threads q pc ghr tid Hw Ht) as (i & Hi & Hg).
  specialize (Hg (targetCache q) (threadInfo q)).
  replace (with_cache (targetCache q) (with_threads (threadInfo q) q)) with q in Hg by by destruct q.
  unfold lookup. rewrite Hg by (done || by destruct q). cbn [mbind res_bind].
  rewrite bind_assert by (apply Z.ltb_lt; lia).
  destruct (vread_ok (targetCache q) i) as (s & -> & _); [lia|]. by eexists.
Qed.

(** [commit] drops at most the oldest entry, and only one that is no younger than [seq]. *)
Lemma commit_ok threads q seq tid :
  wf threads q → 0 ≤ tid < threads →
  (∀ i j a b, path q tid !! i = Some a → path q tid !! j = Some b → (i < j)%nat →
    seqNum a < seqNum b) →
  ∃ q', commit q seq tid = Ok q' ∧ wf threads q' ∧
    (path q' tid = path q tid ∨ ∃ e, path q tid = e :: path q' tid ∧ seqNum e ≤ seq) ∧
    ∀ tid', 0 ≤ tid' → tid' ≠ tid → path q' tid' = path q tid'.
Proof.
  intros Hw Ht Hsort. pose proof Hw as (_ & _ & Hpl & _ & _ & Hl).
  destruct (vread_ok (threadInfo q) tid) as (t & Hr & _); [lia|].
  destruct (write_thread threads q tid (commit_thread (pathLength q) seq t) Hw Ht)
    as (l & Hwr & Hw' & Hp & _ & Ho).
  exists (with_threads l q). unfold commit. rewrite Hr. cbn [mbind res_bind]. rewrite Hwr.
  split_and!; try done. rewrite Hp. rewrite (path_vread _ _ _ Hr) in *. clear -Hpl Hsort.
  unfold commit_thread. destruct (bool_decide_reflect (pathHist t = [])); [by left|].
  destruct (headHistEntry t <? vsize (pathHist t)); [|by left].
  destruct (pathHist t !! Z.to_nat (headHistEntry t)) as [h|] eqn:Hh; [|by left].
  destruct (Z.leb_spec (seqNum h) seq); [|by left].
  destruct (Z.leb_spec (pathLength q) (headHistEntry t)); [|by left].
  right. destruct (pathHist t) as [|e l']; [done|]. exists e. split; [done|].
  assert (seqNum e < seqNum h); [|lia].
  apply (Hsort 0%nat (Z.to_nat (headHistEntry t))); [done|done|lia].
Qed.

Lemma find_way_spec t iset :
  match find_way t iset with
  | Some (i, w) => iset !! i = Some w ∧ tag w = t ∧
      ∀ w', tag w' = t → find_way t (<[i := w']> iset) = Some (i, w')
  | None => ∀ i w', (i < length iset)%nat → tag w' = t →
      ∃ j, find_way t (<[i := w']> iset) = Some (j, w')
  end.
Proof.
  induction iset as [|w l IH]; simpl; [intros; lia|].
  destruct (Z.eqb_spec (tag w) t) as [He|He].
  - split_and!; [done..|]. intros w' Hw'. simpl. by rewrite (proj2 (Z.eqb_eq _ _) Hw').
  - destruct (find_way t l) as [[i w1]|].
    + destruct IH as (Hi & Ht & Hu). split_and!; [done..|]. intros w' Hw'. simpl.
      destruct (Z.eqb_spec (tag w) t); [done|]. by rewrite Hu.
    + intros [|i] w' Hi Hw'; simpl.
      * rewrite (proj2 (Z.eqb_eq _ _) Hw'). by eexists.
      * destruct (Z.eqb_spec (tag w) t); [done|].
        destruct (IH i w') as (j & ->); [lia|done|]. by eexists.
Qed.

Lemma squash_hist_app seq l h :
  Forall (λ e, seqNum e ≤ seq) l → seq < seqNum h → squash_hist seq (l ++ [h]) = l.
Proof.
  intros Hl Hh. induction Hl as [|e l He _ IH]; simpl.
  - by destruct (Z.ltb_spec seq (seqNum h)); [|lia].
  - destruct (Z.ltb_spec seq (seqNum e)); [lia|]. by rewrite IH.
Qed.

Lemma forall_insert_vsize {A} (v : list (list A)) i s n :
  Forall (λ s, vsize s = n) v → vsize s = n → Forall (λ s, vsize s = n) (<[i := s]> v).
Proof. intros. by apply Forall_insert. Qed.

(** The write of the way: whichever way is chosen, the tag is then found with its target. *)
Lemma choose_way iset t tgt ways rnd :
  0 < ways → vsize iset = ways →
  ∃ iset' i,
    match find_way t iset with
    | Some (i, _) => Ok (<[i := mkIEntry t tgt]> iset)
    | None => if ways =? 0 then Fail BadPointer else vwrite iset (rnd mod ways) (mkIEntry t tgt)
    end = Ok iset' ∧ vsize iset' = ways ∧ find_way t iset' = Some (i, mkIEntry t tgt).
Proof.
  intros Hw Hs. pose proof (find_way_spec t iset) as Hf.
  destruct (find_way t iset) as [[i w]|].
  - destruct Hf as (_ & _ & Hf). eexists _, i. split; [done|]. rewrite vsize_insert.
    split; [done|]. by apply Hf.
  - destruct (Z.eqb_spec ways 0); [lia|].
    pose proof (Z.mod_pos_bound rnd ways Hw). rewrite vwrite_ok by lia.
    destruct (Hf (Z.to_nat (rnd mod ways)) (mkIEntry t tgt)) as (j & Hj);
      [unfold vsize in Hs; lia|done|].
    eexists _, j. split; [done|]. by rewrite vsize_insert.
Qed.

Lemma recordTarget_ok threads q seq ghr tgt tid rnd older h :
  wf threads q → 0 ≤ tid < threads → path q tid = older ++ [h] →
  ∃ q', recordTarget q seq ghr tgt tid rnd = Ok q' ∧ wf threads q' ∧
    path q' tid = older ++ [mkHist (pcAddr h) (instAddr tgt) (seqNum h)] ∧
    (∀ tid', 0 ≤ tid' → tid' ≠ tid → path q' tid' = path q tid') ∧
    (∀ l, path (with_threads l q') tid = older → vsize l = threads →
      lookup (with_threads l q') (pcAddr h) ghr tid = Ok (Some tgt)).
Proof.
  intros Hw Ht Hp. pose proof Hw as (_ & _ & _ & _ & _ & Hl).
  destruct (vread_ok (threadInfo q) tid) as (t & Hr & _); [lia|].
  rewrite (path_vread _ _ _ Hr) in Hp. unfold recordTarget. rewrite Hr. cbn [mbind res_bind].
  rewrite Hp, last_snoc. cbn [deref mbind res_bind].
  replace (take _ (older ++ [h])) with older
    by (rewrite length_app; simpl; rewrite Nat.add_sub; by rewrite take_app_length).
  destruct (set_hist_ok threads q tid older Hw Ht) as (q1 & -> & Hw1 & Hp1 & Ho1 & l1 & ->).
  cbn [mbind res_bind].
  destruct (getSetIndex_ok threads _ (pcAddr h) ghr tid Hw1 Ht) as (i & Hi & Hgi).
  pose proof Hw1 as (_ & _ & _ & _ & _ & Hl1).
  assert (getSetIndex (with_threads l1 q) (pcAddr h) ghr tid = Ok i) as ->
    by exact (Hgi (targetCache q) l1 eq_refl Hl1).
  cbn [mbind res_bind].
  destruct (set_hist_ok threads _ tid (older ++ [mkHist (pcAddr h) (instAddr tgt) (seqNum h)]) Hw1 Ht)
    as (q2 & -> & Hw2 & Hp2 & Ho2 & l2 & ->).
  cbn [mbind res_bind with_threads numSets targetCache numWays].
  change (getTag (with_threads l1 q) (pcAddr h)) with (getTag q (pcAddr h)).
  rewrite bind_assert by (apply Z.ltb_lt; cbn in Hi; lia).
  pose proof Hw2 as (Hk & Hways & Hpl & Hc & Hf & Hl2). cbn in Hc, Hways, Hf, Hi.
  destruct (vread_ok (targetCache q) i) as (iset & -> & Hset); [lia|]. cbn [mbind res_bind].
  destruct (choose_way iset (getTag q (pcAddr h)) tgt (numWays q) rnd) as (iset' & j & Hch & Hs' & Hfw);
    [lia|by eapply Forall_lookup_1 in Hf|].
  rewrite Hch. cbn [mbind res_bind].
  rewrite vwrite_ok by lia. cbn [mbind res_bind].
  eexists. split; [done|]. split_and!; [|exact Hp2| |].
  - unfold wf. cbn [with_cache with_threads numSets numWays pathLength targetCache threadInfo].
    rewrite vsize_insert. split_and!; try done; try lia. by apply forall_insert_vsize.
  - intros tid' H0 Hne. transitivity (path (with_threads l1 q) tid'); [by apply Ho2|by apply Ho1].
  - intros l Hpl' Hsl. unfold lookup.
    pose proof (Hgi (<[Z.to_nat i:=iset']> (targetCache q)) l) as Hg.
    rewrite Hp1 in Hg. specialize (Hg Hpl' Hsl). 
    match goal with |- context [getSetIndex ?x _ _ _] =>
      assert (getSetIndex x (pcAddr h) ghr tid = Ok i) as -> by exact Hg end.
    cbn [mbind res_bind numSets targetCache with_cache with_threads].
    rewrite bind_assert by (apply Z.ltb_lt; lia). rewrite vread_insert by lia.
    cbn [mbind res_bind].
    match goal with |- context [getTag ?x ?y] => change (getTag x y) with (getTag q y) end.
    by rewrite Hfw.
Qed.

(** The indirect predictor learns: after a branch is recorded in the path history,
    its actual target recorded, and the history squashed back to what it was before the
    branch, a lookup of the branch with the same global history hits and returns that
    target, whatever way [rand()] chose; every step succeeds and every index stays in
    range. *)
Theorem indirect_learns threads q tid pc guess sn sn' ghr tgt rnd :
  wf threads q → 0 ≤ tid < threads →
  Forall (λ e, seqNum e ≤ sn') (path q tid) → sn' < sn →
  ∃ q1 q2 q3,
    recordIndirect q pc guess sn tid = Ok q1 ∧
    recordTarget q1 sn ghr tgt tid rnd = Ok q2 ∧
    squash q2 sn' tid = Ok q3 ∧ wf threads q3 ∧ path q3 tid = path q tid ∧
    lookup q3 pc ghr tid = Ok (Some tgt).
Proof.
  intros Hw Ht Hs Hsn. rewrite recordIndirect_set_hist.
  destruct (set_hist_ok threads q tid (path q tid ++ [mkHist pc guess sn]) Hw Ht)
    as (q1 & -> & Hw1 & Hp1 & _ & _).
  destruct (recordTarget_ok threads q1 sn ghr tgt tid rnd (path q tid) (mkHist pc guess sn) Hw1 Ht Hp1)
    as (q2 & Hq2 & Hw2 & Hp2 & _ & Hlk).
  exists q1, q2. rewrite squash_set_hist, Hp2, squash_hist_app by done.
  destruct (set_hist_ok threads q2 tid (path q tid) Hw2 Ht) as (q3 & Hq3 & Hw3 & Hp3 & _ & l & ->).
  exists (with_threads l q2). split_and!; try done. apply Hlk; [exact Hp3|].
  by destruct Hw3 as (_ & _ & _ & _ & _ & H3).
Qed.

End indirect.
Arguments IPredEntry : clear implicits.
Arguments IndirectPredictor : clear implicits.

Definition ipred_example : IndirectPredictor SimplePCState :=
  mkIPred true true 4 2 16 3 2 (replicate 4 (replicate 2 newIEntry)) (replicate 2 (mkThread [] 0)).

Lemma indirect_learns_witness :
  newIndirect true true 4 2 16 3 2 2 = Ok ipred_example ∧
  lookup ipred_example 0x1000 5 1 = Ok None ∧
  ∃ q1 q2 q3, recordIndirect ipred_example 0x1000 0 7 1 = Ok q1 ∧
    recordTarget q1 7 5 (mkPC 0x2000 0x2004) 1 3 = Ok q2 ∧ squash q2 6 1 = Ok q3 ∧
    lookup q3 0x1000 5 1 = Ok (Some (mkPC 0x2000 0x2004)).
Proof.
  split; [vm_compute; reflexivity|]. split; [vm_compute; reflexivity|].
  destruct (indirect_learns 2 ipred_example 1 0x1000 0 7 6 5 (mkPC 0x2000 0x2004) 3)
    as (q1 & q2 & q3 & H1 & H2 & H3 & _ & _ & H4).
  - split_and!; try (vm_compute; reflexivity).
    + exists 2. split; [lia|reflexivity].
    + apply Forall_replicate. reflexivity.
  - lia.
  - constructor.
  - lia.
  - exists q1, q2, q3. exact (conj H1 (conj H2 (conj H3 H4))).
Defined.

End Indirect.
