(* ===== verification/BPredIface.v ===== *)
(** * What a direction predictor promises to [BPredUnit]

    [BPredUnit] ([cpu/pred/bpred_unit.hh]) declares the direction predictor's operations
    as pure virtual methods; [LocalBP], [BiModeBP] and [TournamentBP] implement them.  The
    operations are the class [BPredOps]; what [BPredUnit] relies on, that the global history
    a branch saw is saved with the branch and can be brought back, is the class
    [BPredLaws].  The [BPHistory] objects that the predictors allocate with [new] and hand
    out as [void *] live in a heap of the predictor's state. *)

From S2P Require Import Prelude.

(** ** A heap of history objects *)
Module Heap.

Definition ptr : Type := option nat.

Record heap (H : Type) := mkHeap { cells : gmap nat H; fresh_ptr : nat }.
Arguments mkHeap {H}.
Arguments cells {H}.
Arguments fresh_ptr {H}.

Section heap.
Context {H : Type}.

Definition empty_heap : heap H := mkHeap ∅ 0.

(** [new BPHistory] with the fields of [x]. *)
Definition new (x : H) (h : heap H) : heap H * ptr :=
  (mkHeap (<[fresh_ptr h := x]> (cells h)) (S (fresh_ptr h)), Some (fresh_ptr h)).

Definition load (p : ptr) (h : heap H) : res H := deref (p ≫= λ a, cells h !! a).

(** [delete p]: nothing for the null pointer, undefined for a pointer not allocated. *)
Definition free (p : ptr) (h : heap H) : res (heap H) :=
  match p with
  | None => Ok h
  | Some a =>
      match cells h !! a with
      | Some _ => Ok (mkHeap (delete a (cells h)) (fresh_ptr h))
      | None => Fail BadPointer
      end
  end.

(** Nothing is allocated at or above the next address, and every object satisfies [P]. *)
Definition heap_wf (P : H → Prop) (h : heap H) : Prop :=
  ∀ a x, cells h !! a = Some x → (a < fresh_ptr h)%nat ∧ P x.

(** The object behind a pointer, through a projection. *)
Definition peek {A} (f : H → A) (h : heap H) (p : ptr) : option A :=
  f <$> (p ≫= λ a, cells h !! a).

Lemma heap_wf_empty P : heap_wf P empty_heap.
Proof. intros a x Ha. cbn in Ha. by rewrite lookup_empty in Ha. Qed.

Lemma heap_wf_new P x h : heap_wf P h → P x → heap_wf P (new x h).1.
Proof.
  intros Hh Hx a y. cbn. intros [[<- <-]|[Hne Ha]]%lookup_insert_Some; [split; [lia|done]|].
  destruct (Hh a y Ha). split; [lia|done].
Qed.

Lemma peek_new {A} (f : H → A) P x h p :
  heap_wf P h →
  peek f (new x h).1 (new x h).2 = Some (f x) ∧ peek f h (new x h).2 = None ∧
  (p ≠ (new x h).2 → peek f (new x h).1 p = peek f h p) ∧
  (is_Some (peek f h p) → peek f (new x h).1 p = peek f h p).
Proof.
  intros Hh.
  assert (cells h !! fresh_ptr h = None) as Hfresh.
  { destruct (cells h !! fresh_ptr h) eqn:He; [|done]. destruct (Hh _ _ He). lia. }
  unfold peek. cbn. rewrite Hfresh. split_and!.
  - by rewrite lookup_insert_eq.
  - done.
  - intros Hne. destruct p as [a|]; [|done]. cbn.
    rewrite lookup_insert_ne; [done|]. congruence.
  - intros [y Hy]. destruct p as [a|]; [|done]. cbn in *.
    rewrite lookup_insert_ne; [done|]. intros <-. by rewrite Hfresh in Hy.
Qed.

Lemma load_peek {A} (f : H → A) h p g :
  peek f h p = Some g → ∃ x, load p h = Ok x ∧ f x = g ∧ is_Some p.
Proof.
  unfold peek, load. destruct p as [a|]; [|done]. cbn.
  destruct (cells h !! a); [|done]. intros [= <-]. by eexists.
Qed.

Lemma load_wf P h p x : heap_wf P h → load p h = Ok x → P x.
Proof.
  unfold load. rewrite deref_ok. destruct p as [a|]; [|done]. intros Hh Ha. by destruct (Hh a x Ha).
Qed.

Lemma free_ok {A} (f : H → A) P h p g :
  heap_wf P h → peek f h p = Some g →
  ∃ h', free p h = Ok h' ∧ heap_wf P h' ∧ peek f h' p = None ∧
    ∀ q, q ≠ p ∨ q = None → peek f h' q = peek f h q.
Proof.
  unfold peek, free. intros Hh. destruct p as [a|]; [|done]. cbn.
  destruct (cells h !! a) eqn:Ha; [|done]. intros _. eexists. split; [done|]. split_and!.
  - intros b y Hb. cbn in *. apply lookup_delete_Some in Hb as [_ Hb]. by apply Hh.
  - cbn. by rewrite lookup_delete_eq.
  - intros [b|] Hne; [|done]. cbn. rewrite lookup_delete_ne; [done|naive_solver].
Qed.

End heap.

End Heap.

(** ** The interface *)
Module BPred.
Import Heap.

(** A direction predictor's virtual methods.  A reference argument [void * &bp_history]
    that a method assigns is a result. *)
Class BPredOps (S : Type) := {
  uncondBranch : S → Z → Z → res (S * ptr);
  lookup : S → Z → Z → res (S * bool * ptr);
  btbUpdate : S → Z → Z → ptr → res S;
  update : S → Z → Z → bool → ptr → bool → res S;
  retireSquashed : S → Z → ptr → res S;
  squash : S → Z → ptr → res S;
  getGHR : S → Z → ptr → res Z
}.

(** Shifting a branch outcome into a 32-bit history register masked by [m]. *)
Definition push_ghr (m g : Z) (taken : bool) : Z :=
  Z.land (Z.lor (u32 (Z.shiftl g 1)) (Z.b2z taken)) m.

(** Clearing the youngest outcome, as [btbUpdate] does, replaces taken by not taken. *)
Lemma push_ghr_clear m g :
  in_width 32 m →
  Z.land (push_ghr m g true) (Z.land m (bnot 64 1)) = push_ghr m g false.
Proof.
  intros Hm. unfold push_ghr. bits_eq.
  change (Z.b2z true) with 1. change (Z.b2z false) with 0. rewrite Z.bits_0.
  destruct (Z.eqb_spec i 0) as [->|Hne].
  - simpl. by rewrite !andb_false_r.
  - replace (Z.testbit 1 i) with false by (symmetry; apply Z.bits_above_log2; simpl; lia).
    destruct (Z.testbit m i) eqn:Hmi; [|by rewrite !andb_false_r].
    assert (i < 64). { destruct (Z.lt_ge_cases i 64); [done|].
      rewrite (testbit_out 32 m i Hm ltac:(lia)) in Hmi. done. }
    destruct (Z.ltb_spec i 64); [|lia]. simpl. by rewrite !andb_true_r, orb_false_r.
Qed.

(** The promises.  [ghr s tid] is the thread's current global history, [saved s p] the
    history stored in the object [p], [hist_mask s] the register's mask (0 for a predictor
    without a global history), and [bp_wf n] the invariant for [n] threads. *)
Class BPredLaws (S : Type) `{!BPredOps S} := {
  bp_wf : Z → S → Prop;
  ghr : S → Z → Z;
  hist_mask : S → Z;
  saved : S → ptr → option Z;

  frame n s s' tid := bp_wf n s' ∧ hist_mask s' = hist_mask s ∧
    (∀ j, 0 ≤ j → j ≠ tid → ghr s' j = ghr s j);
  allocated s s' p := (p = None ∨ saved s p = None) ∧
    (∀ q, is_Some (saved s q) → saved s' q = saved s q);
  released s s' p := ∀ q, q ≠ p ∨ q = None → saved s' q = saved s q;

  lookup_law n s tid pc : bp_wf n s → 0 ≤ tid < n →
    ∃ s' t p, lookup s tid pc = Ok (s', t, p) ∧ frame n s s' tid ∧ allocated s s' p ∧
      saved s' p = Some (ghr s tid) ∧ ghr s' tid = push_ghr (hist_mask s) (ghr s tid) t;
  uncondBranch_law n s tid pc : bp_wf n s → 0 ≤ tid < n →
    ∃ s' p, uncondBranch s tid pc = Ok (s', p) ∧ frame n s s' tid ∧ allocated s s' p ∧
      saved s' p = Some (ghr s tid) ∧ ghr s' tid = push_ghr (hist_mask s) (ghr s tid) true;
  btbUpdate_law n s tid pc p g : bp_wf n s → 0 ≤ tid < n →
    ghr s tid = push_ghr (hist_mask s) g true →
    ∃ s', btbUpdate s tid pc p = Ok s' ∧ frame n s s' tid ∧
      ghr s' tid = push_ghr (hist_mask s) g false ∧ (∀ q, saved s' q = saved s q);
  update_law n s tid pc taken p g squashed : bp_wf n s → 0 ≤ tid < n → saved s p = Some g →
    ∃ s', update s tid pc taken p squashed = Ok s' ∧ frame n s s' tid ∧
      if squashed then ghr s' tid = push_ghr (hist_mask s) g taken ∧ (∀ q, saved s' q = saved s q)
      else ghr s' tid = ghr s tid ∧ released s s' p;
  retireSquashed_law n s tid p g : bp_wf n s → 0 ≤ tid < n → saved s p = Some g →
    ∃ s', retireSquashed s tid p = Ok s' ∧ frame n s s' tid ∧ ghr s' tid = ghr s tid ∧
      released s s' p;
  squash_law n s tid p g : bp_wf n s → 0 ≤ tid < n → saved s p = Some g →
    ∃ s', squash s tid p = Ok s' ∧ frame n s s' tid ∧ ghr s' tid = g ∧ released s s' p;
  getGHR_law n s tid p g : bp_wf n s → saved s p = Some g → getGHR s tid p = Ok g
}.

End BPred.

(** ** Updating one element of a table *)
Definition vmodify {A} (f : A → A) (v : list A) (i : Z) : res (list A) :=
  x ← vread v i; vwrite v i (f x).

Lemma vmodify_ok {A} (f : A → A) (v : list A) i :
  0 ≤ i < vsize v → vmodify f v i = Ok (alter f (Z.to_nat i) v).
Proof.
  intros Hi. unfold vmodify. destruct (vread_ok v i Hi) as (x & -> & Hx). cbn [mbind res_bind].
  rewrite vwrite_ok by done. f_equal.
  apply list_eq. intros j. destruct (decide (j = Z.to_nat i)) as [->|Hne].
  - rewrite list_lookup_alter_eq, Hx, list_lookup_insert_eq; [done|]. unfold vsize in Hi. lia.
  - by rewrite list_lookup_alter_ne, list_lookup_insert_ne.
Qed.

Lemma vsize_alter {A} (f : A → A) (v : list A) i : vsize (alter f i v) = vsize v.
Proof. unfold vsize. by rewrite length_alter. Qed.
