(* ===== verification/DirectionPreds.v ===== *)
(** * The direction predictors: [LocalBP], [BiModeBP]

    Models [cpu/pred/2bit_local.cc] and [cpu/pred/bi_mode.cc] with their headers, and
    proves the promises of [BPred.BPredLaws] for both.  [instShiftAmt], a member of the base
    class, is a field of each state. *)

From S2P Require Import Prelude.
From S2P Require Import IntMath.
From S2P Require Import BPredTables.
From S2P Require Import BPredIface.
Import IntMath.

(** ** Facts shared by the predictors *)

(** Two [sizes of table] facts for a size that passed the constructor's test. *)
Definition table_size (n : Z) : Prop := ∃ k, 0 ≤ k < 32 ∧ n = 2 ^ k.

Lemma table_size_isPowerOf2 n : in_width 32 n → isPowerOf2 32 n = true → table_size n.
Proof. intros Hn (k & Hk & ->)%isPowerOf2_correct; [|lia|done]. by exists k. Qed.

Lemma table_size_pos n : table_size n → 0 < n < 2 ^ 32.
Proof.
  intros (k & Hk & ->). split; [apply pow2_pos; lia|]. apply Z.pow_lt_mono_r; lia.
Qed.

Lemma table_index n x : table_size n → 0 ≤ u32 (Z.land x (n - 1)) < n.
Proof.
  intros Hn. pose proof (table_size_pos n Hn). destruct Hn as (k & Hk & ->).
  pose proof (land_pred_pow2_range k x ltac:(lia)).
  rewrite wrap_small by (split; lia). done.
Qed.

(** The mask computed from the rounded-up logarithm is the size less one. *)
Lemma table_mask n l :
  table_size n → ceilLog2 n = Ok l → 0 ≤ l < 32 ∧ u32 (Bitfield.mask l) = n - 1.
Proof.
  intros Hn Hl. pose proof (table_size_pos n Hn). destruct Hn as (k & Hk & ->).
  rewrite ceilLog2_log2_up in Hl; [|lia|].
  2:{ assert (2 ^ 32 < 2 ^ 64) by (apply Z.pow_lt_mono_r; lia). split; lia. }
  rewrite Z.log2_up_pow2 in Hl by lia. injection Hl as <-. split; [done|].
  rewrite Bitfield.mask_ones by lia. rewrite Z.ones_equiv, <- Z.sub_1_r.
  apply wrap_small. split; lia.
Qed.

(** A table of fresh counters: [resize] and the [setBits] loop of the constructors. *)
Definition new_counters (n bits : Z) : res (list SatCounter.SatCounter) :=
  vfor n (SatCounter.setBits bits) (replicate (Z.to_nat n) SatCounter.default_ctr).

Definition counters_wf (n bits : Z) (l : list SatCounter.SatCounter) : Prop :=
  vsize l = n ∧ Forall (SatCounter.wf bits) l.

Lemma new_counters_ok n bits :
  0 ≤ n → 0 ≤ bits ≤ 8 → ∃ l, new_counters n bits = Ok l ∧ counters_wf n bits l.
Proof.
  intros Hn Hb. unfold new_counters. rewrite vfor_all by (rewrite vsize_replicate; lia).
  eexists. split; [done|]. split.
  - unfold vsize. rewrite length_fmap, length_replicate. lia.
  - apply Forall_fmap, Forall_replicate. by apply SatCounter.wf_setBits_default.
Qed.

Lemma train_counters_ok n bits (taken : bool) l i :
  0 ≤ bits ≤ 8 → counters_wf n bits l → 0 ≤ i < n →
  ∃ l', vmodify (SatCounter.train taken) l i = Ok l' ∧ counters_wf n bits l' ∧
    l' = alter (SatCounter.train taken) (Z.to_nat i) l.
Proof.
  intros Hb [Hs Hf] Hi. rewrite vmodify_ok by lia. eexists. split; [done|]. split; [|done].
  split; [by rewrite vsize_alter|]. apply Forall_alter; [done|].
  intros x _ Hx. by apply SatCounter.wf_train.
Qed.

(** The prediction [counter > threshold] with the threshold [2^(bits-1) - 1] is the
    counter's most significant bit. *)
Definition threshold (bits : Z) : Z := u32 (u64 (Z.shiftl 1 (bits - 1)) - 1).

Lemma threshold_pow2 bits : 1 ≤ bits ≤ 8 → threshold bits = 2 ^ (bits - 1) - 1.
Proof.
  intros Hb. unfold threshold. rewrite Z.shiftl_1_l.
  pose proof (pow2_pos (bits - 1) ltac:(lia)).
  assert (2 ^ (bits - 1) ≤ 2 ^ 7) by (apply Z.pow_le_mono_r; lia).
  rewrite (wrap_small 64) by (split; lia). apply wrap_small. split; lia.
Qed.

Lemma threshold_msb bits c :
  1 ≤ bits ≤ 8 → SatCounter.wf bits c →
  (threshold bits <? SatCounter.read c) = Z.testbit (SatCounter.read c) (bits - 1).
Proof.
  intros Hb (Hm & _ & Hc). rewrite threshold_pow2 by done. unfold SatCounter.read.
  pose proof (pow2_pos (bits - 1) ltac:(lia)).
  assert (2 ^ bits = 2 * 2 ^ (bits - 1)) as E by (rewrite <- Z.pow_succ_r by lia; f_equal; lia).
  rewrite Z.testbit_eqb by lia.
  destruct (Z.ltb_spec (2 ^ (bits - 1) - 1) (SatCounter.counter c)).
  - replace (SatCounter.counter c / 2 ^ (bits - 1)) with 1 by (apply (Z.div_unique _ _ _ (SatCounter.counter c - 2 ^ (bits - 1))); lia).
    done.
  - rewrite Z.div_small by lia. done.
Qed.

(** The training step of the update methods. *)
Lemma train_if (taken : bool) v i :
  (if taken then vmodify SatCounter.increment v i else vmodify SatCounter.decrement v i) =
  vmodify (SatCounter.train taken) v i.
Proof. by destruct taken. Qed.

Lemma push_ghr_if m g (taken : bool) :
  Z.land (if taken then Z.lor (u32 (Z.shiftl g 1)) 1 else u32 (Z.shiftl g 1)) m =
  BPred.push_ghr m g taken.
Proof. unfold BPred.push_ghr. destruct taken; [done|]. by rewrite Z.lor_0_r. Qed.

(** A per-thread register. *)
Definition reg_at (l : list Z) (tid : Z) : Z := default 0 (l !! Z.to_nat tid).

Lemma reg_read l tid : 0 ≤ tid < vsize l → vread l tid = Ok (reg_at l tid).
Proof.
  intros Ht. destruct (vread_ok l tid Ht) as (x & -> & Hx). unfold reg_at. by rewrite Hx.
Qed.

Lemma reg_write l tid g :
  0 ≤ tid < vsize l → reg_at (<[Z.to_nat tid := g]> l) tid = g ∧
  ∀ j, 0 ≤ j → j ≠ tid → reg_at (<[Z.to_nat tid := g]> l) j = reg_at l j.
Proof.
  intros Ht. unfold reg_at, vsize in *. split.
  - rewrite list_lookup_insert_eq by lia. done.
  - intros j Hj Hne. rewrite list_lookup_insert_ne by lia. done.
Qed.

(** ** [LocalBP] *)
Module LocalBP.
Import Heap.

Record LocalBP := mkLocal {
  instShiftAmt : Z;
  localCtrs : list SatCounter.SatCounter;
  localPredictorSize : Z;
  localPredictorSets : Z;
  localCtrBits : Z;
  indexMask : Z
}.

Definition with_ctrs (l : list SatCounter.SatCounter) (s : LocalBP) : LocalBP :=
  mkLocal (instShiftAmt s) l (localPredictorSize s) (localPredictorSets s) (localCtrBits s)
    (indexMask s).

Definition newLocal (shift size ctr_bits : Z) : res LocalBP :=
  if negb (isPowerOf2 32 size) then Fail Fatal
  else
    let sets := size / ctr_bits in
    if negb (isPowerOf2 32 sets) then Fail Fatal
    else
      l ← new_counters sets ctr_bits;
      Ok (mkLocal shift l size sets ctr_bits (u32 (sets - 1))).

Definition reset (s : LocalBP) : res LocalBP :=
  l ← vfor (localPredictorSets s) SatCounter.reset (localCtrs s);
  Ok (with_ctrs l s).

(** The most significant bit of the counter. *)
Definition getPrediction (s : LocalBP) (count : Z) : bool :=
  negb (Z.shiftr count (localCtrBits s - 1) =? 0).

Definition getLocalIndex (s : LocalBP) (branch_addr : Z) : Z :=
  u32 (Z.land (Z.shiftr branch_addr (instShiftAmt s)) (indexMask s)).

Definition lookup (s : LocalBP) (tid branch_addr : Z) : res (LocalBP * bool * ptr) :=
  let local_predictor_idx := getLocalIndex s branch_addr in
  c ← vread (localCtrs s) local_predictor_idx;
  let counter_val := SatCounter.read c in
  Ok (s, getPrediction s counter_val, None).

Definition update (s : LocalBP) (tid branch_addr : Z) (taken : bool) (bp_history : ptr)
    (squashed : bool) : res LocalBP :=
  assert_ (bool_decide (bp_history = None)) ;;
  let local_predictor_idx := getLocalIndex s branch_addr in
  l ← (if taken then vmodify SatCounter.increment (localCtrs s) local_predictor_idx
       else vmodify SatCounter.decrement (localCtrs s) local_predictor_idx);
  Ok (with_ctrs l s).

Definition uncondBranch (s : LocalBP) (tid pc : Z) : res (LocalBP * ptr) := Ok (s, None).

Definition btbUpdate (s : LocalBP) (tid branch_addr : Z) (bp_history : ptr) : res LocalBP := Ok s.

Definition retireSquashed (s : LocalBP) (tid : Z) (bp_history : ptr) : res LocalBP :=
  assert_ (bool_decide (bp_history = None)) ;; Ok s.

Definition squash (s : LocalBP) (tid : Z) (bp_history : ptr) : res LocalBP :=
  assert_ (bool_decide (bp_history = None)) ;; Ok s.

(** The base class's [getGHR]. *)
Definition getGHR (s : LocalBP) (tid : Z) (bp_history : ptr) : res Z := Ok 0.

#[export] Instance local_ops : BPred.BPredOps LocalBP := {|
  BPred.uncondBranch := uncondBranch;
  BPred.lookup := lookup;
  BPred.btbUpdate := btbUpdate;
  BPred.update := update;
  BPred.retireSquashed := retireSquashed;
  BPred.squash := squash;
  BPred.getGHR := getGHR
|}.

Definition wf (n : Z) (s : LocalBP) : Prop :=
  0 ≤ n ∧ table_size (localPredictorSets s) ∧ 1 ≤ localCtrBits s ≤ 8 ∧
  indexMask s = localPredictorSets s - 1 ∧
  counters_wf (localPredictorSets s) (localCtrBits s) (localCtrs s).

Lemma update_train s tid pc taken :
  update s tid pc taken None true = update s tid pc taken None false ∧
  update s tid pc taken None false =
    (l ← vmodify (SatCounter.train taken) (localCtrs s) (getLocalIndex s pc); Ok (with_ctrs l s)).
Proof. by destruct taken. Qed.

Lemma index_ok n s pc : wf n s → 0 ≤ getLocalIndex s pc < localPredictorSets s.
Proof. intros (_ & Hs & _ & Hm & _). unfold getLocalIndex. rewrite Hm. by apply table_index. Qed.

Lemma local_update_ok n s tid pc taken squashed :
  wf n s → update s tid pc taken None squashed =
    Ok (with_ctrs (alter (SatCounter.train taken) (Z.to_nat (getLocalIndex s pc)) (localCtrs s)) s) ∧
  wf n (with_ctrs (alter (SatCounter.train taken) (Z.to_nat (getLocalIndex s pc)) (localCtrs s)) s).
Proof.
  intros Hw. pose proof (index_ok n s pc Hw) as Hi.
  pose proof Hw as (Hn & Hs & Hb & Hm & Hc).
  destruct (train_counters_ok _ (localCtrBits s) taken _ _ ltac:(lia) Hc Hi) as (l' & Hl & Hw' & ->).
  destruct (update_train s tid pc taken) as [E1 E2].
  assert (update s tid pc taken None squashed = update s tid pc taken None false) as ->
    by by destruct squashed.
  rewrite E2, Hl. split; [done|]. unfold wf. cbn. splits.
Qed.

#[export] Instance local_laws : BPred.BPredLaws LocalBP.
Proof.
  refine {| BPred.bp_wf := wf; BPred.ghr := λ _ _, 0; BPred.hist_mask := λ _, 0;
            BPred.saved := λ _ p, match p with None => Some 0 | Some _ => None end |}.
  - intros n s tid pc Hw Ht. pose proof (index_ok n s pc Hw) as Hi.
    destruct Hw as (Hn & Hs & Hb & Hm & [Hc Hf]).
    destruct (vread_ok (localCtrs s) (getLocalIndex s pc)) as (c & Hr & _); [lia|].
    eexists _, _, _. cbn. unfold lookup. rewrite Hr. split; [done|].
    split_and!; try done; [by left|]. unfold BPred.push_ghr. by rewrite Z.land_0_r.
  - intros n s tid pc Hw Ht. eexists _, _. split; [done|]. split_and!; try done. by left.
  - intros n s tid pc p g Hw Ht _. eexists. split; [done|]. split_and!; try done.
    unfold BPred.push_ghr. by rewrite Z.land_0_r.
  - intros n s tid pc taken [p|] g squashed Hw Ht Hp; [done|].
    destruct (local_update_ok n s tid pc taken squashed Hw) as [Hu Hw'].
    eexists. split; [exact Hu|]. split; [done|].
    destruct squashed; [|done]. split; [|done]. unfold BPred.push_ghr. by rewrite Z.land_0_r.
  - intros n s tid [p|] g Hw Ht Hp; [done|]. eexists. by split.
  - intros n s tid [p|] g Hw Ht Hp; [done|]. injection Hp as <-. eexists. by split.
  - intros n s tid [p|] g Hw Hp; [done|]. by injection Hp as <-.
Defined.

(** [wf] holds of what the constructor builds. *)
Lemma newLocal_ok n shift size ctr_bits :
  0 ≤ n → in_width 32 size → 1 ≤ ctr_bits ≤ 8 →
  match newLocal shift size ctr_bits with
  | Ok s => wf n s ∧ localPredictorSets s = size / ctr_bits
  | Fail e => e = Fatal ∧ (isPowerOf2 32 size = false ∨ isPowerOf2 32 (size / ctr_bits) = false)
  end.
Proof.
  intros Hn Hs Hb. unfold newLocal.
  destruct (isPowerOf2 32 size); [|cbn; split; [done|by auto]]. cbn [negb].
  destruct (isPowerOf2 32 (size / ctr_bits)) eqn:Hp; [|cbn; split; [done|by auto]]. cbn [negb].
  assert (in_width 32 (size / ctr_bits)) as Hd.
  { destruct Hs. split; [apply Z.div_pos; lia|]. apply Z.div_lt_upper_bound; nia. }
  pose proof (table_size_isPowerOf2 _ Hd Hp) as Ht. pose proof (table_size_pos _ Ht).
  destruct (new_counters_ok (size / ctr_bits) ctr_bits) as (l & -> & Hl); [lia..|].
  cbn [mbind res_bind]. split; [|done].
  unfold wf. cbn. splits. apply wrap_small. split; lia.
Qed.

(** The prediction for a branch. *)
Definition prediction (s : LocalBP) (pc : Z) : option bool :=
  (λ c, Z.testbit (SatCounter.read c) (localCtrBits s - 1)) <$>
    localCtrs s !! Z.to_nat (getLocalIndex s pc).

Lemma getPrediction_msb s c :
  1 ≤ localCtrBits s ≤ 8 → SatCounter.wf (localCtrBits s) c →
  getPrediction s (SatCounter.read c) = Z.testbit (SatCounter.read c) (localCtrBits s - 1).
Proof.
  intros Hb Hc. rewrite <- threshold_msb, threshold_pow2 by done. destruct Hc as (Hm & _ & Hc).
  unfold getPrediction, SatCounter.read. rewrite Z.shiftr_div_pow2 by lia.
  pose proof (pow2_pos (localCtrBits s - 1) ltac:(lia)).
  destruct (Z.ltb_spec (2 ^ (localCtrBits s - 1) - 1) (SatCounter.counter c)).
  - destruct (Z.eqb_spec (SatCounter.counter c / 2 ^ (localCtrBits s - 1)) 0) as [E|]; [|done].
    apply Z.div_small_iff in E; lia.
  - rewrite Z.div_small by lia. done.
Qed.

Definition train_n (k : nat) (tid pc : Z) (taken : bool) (s : LocalBP) : res LocalBP :=
  Nat.iter k (λ r, s ← r; update s tid pc taken None false) (Ok s).

Lemma train_n_ok k n s tid pc taken :
  wf n s → ∃ s', train_n k tid pc taken s = Ok s' ∧ wf n s' ∧
    s' = with_ctrs (alter (Nat.iter k (SatCounter.train taken)) (Z.to_nat (getLocalIndex s pc))
                      (localCtrs s)) s.
Proof.
  intros Hw. induction k as [|k (s' & Hk & Hw' & He)].
  - exists s. split_and!; [done..|]. destruct s. unfold with_ctrs. cbn. f_equal.
    symmetry. by apply list_alter_id.
  - change (train_n (S k) tid pc taken s)
      with (s1 ← train_n k tid pc taken s; update s1 tid pc taken None false).
    rewrite Hk. cbn [mbind res_bind].
    destruct (local_update_ok n s' tid pc taken false Hw') as [-> Hw2].
    eexists. split_and!; [done..|]. rewrite He. unfold with_ctrs. cbn. f_equal.
    etransitivity; [apply (list_alter_alter_eq _ _ _ (Z.to_nat (getLocalIndex s pc)))|]. done.
Qed.

(** The local predictor predicts with the most significant bit of the branch's
    counter, changes nothing on a lookup, and learns: after [2^bits - 1] outcomes in one
    direction a branch is predicted in that direction, and the prediction of a branch
    with another index is unchanged.  None of this can fail. *)
Theorem localBP_learns n s tid pc (taken : bool) (k : nat) pc' :
  wf n s → 2 ^ localCtrBits s - 1 ≤ Z.of_nat k →
  (∃ t, lookup s tid pc = Ok (s, t, None) ∧ prediction s pc = Some t) ∧
  ∃ s', train_n k tid pc taken s = Ok s' ∧ wf n s' ∧
    lookup s' tid pc = Ok (s', taken, None) ∧
    (getLocalIndex s pc' ≠ getLocalIndex s pc → prediction s' pc' = prediction s pc').
Proof.
  intros Hw Hk.
  assert (∀ s tid pc, wf n s →
    ∃ c, localCtrs s !! Z.to_nat (getLocalIndex s pc) = Some c ∧ SatCounter.wf (localCtrBits s) c ∧
      lookup s tid pc = Ok (s, Z.testbit (SatCounter.read c) (localCtrBits s - 1), None)) as Hlk.
  { intros s1 tid1 pc1 Hw1. pose proof (index_ok n s1 pc1 Hw1) as Hi.
    destruct Hw1 as (_ & _ & Hb & _ & [Hc Hf]).
    destruct (vread_ok (localCtrs s1) (getLocalIndex s1 pc1)) as (c & Hr & Hl); [lia|].
    pose proof (Forall_lookup_1 _ _ _ _ Hf Hl) as Hwc.
    exists c. split_and!; [done..|]. unfold lookup. rewrite Hr. cbn [mbind res_bind].
    by rewrite getPrediction_msb. }
  destruct (Hlk s tid pc Hw) as (c & Hc & Hwc & Hl). split.
  { eexists. split; [exact Hl|]. unfold prediction. by rewrite Hc. }
  destruct (train_n_ok k n s tid pc taken Hw) as (s' & Hs' & Hw' & He).
  exists s'. split_and!; [done..| |].
  - destruct (Hlk s' tid pc Hw') as (c' & Hc' & Hwc' & ->). do 3 f_equal.
    pose proof Hw as (_ & _ & Hb & _).
    rewrite He in Hc', Hwc' |- *. cbn [with_ctrs localCtrs localCtrBits] in Hc', Hwc' |- *.
    change (getLocalIndex (with_ctrs _ s) pc) with (getLocalIndex s pc) in Hc'.
    rewrite list_lookup_alter_eq, Hc in Hc'. injection Hc' as <-.
    destruct (SatCounter.counter_train_same (localCtrBits s) taken k c ltac:(lia) Hwc)
      as (Hwk & _ & Hck).
    rewrite <- threshold_msb, threshold_pow2 by done. unfold SatCounter.read. rewrite Hck.
    destruct Hwc as (Hm & _ & Hr). pose proof (pow2_pos (localCtrBits s - 1) ltac:(lia)).
    assert (2 ^ localCtrBits s = 2 * 2 ^ (localCtrBits s - 1))
      by (rewrite <- Z.pow_succ_r by lia; f_equal; lia).
    destruct taken; [apply Z.ltb_lt|apply Z.ltb_ge]; lia.
  - intros Hne. rewrite He. unfold prediction. cbn [with_ctrs localCtrs localCtrBits].
    change (getLocalIndex (with_ctrs _ s) pc') with (getLocalIndex s pc').
    pose proof (index_ok n s pc Hw). pose proof (index_ok n s pc' Hw).
    rewrite list_lookup_alter_ne by lia. done.
Qed.

Lemma localBP_learns_witness :
  ∃ s s', newLocal 2 16 2 = Ok s ∧ train_n 3 0 0x1000 true s = Ok s' ∧
    lookup s 0 0x1000 = Ok (s, false, None) ∧ lookup s' 0 0x1000 = Ok (s', true, None).
Proof.
  eexists. destruct (localBP_learns 1
    (mkLocal 2 (replicate 8 (SatCounter.mkCtr 0 3 0)) 16 8 2 7) 0 0x1000 true 3 0)
    as (_ & s' & Ht & _ & Hl & _).
  - split_and!; try (vm_compute; first [reflexivity|discriminate]).
    + exists 3. vm_compute. repeat split; discriminate.
    + split; [vm_compute; reflexivity|]. apply Forall_replicate. vm_compute. repeat split; discriminate.
  - vm_compute. discriminate.
  - exists s'. split; [vm_compute; reflexivity|]. split; [exact Ht|].
    split; [vm_compute; reflexivity|exact Hl].
Defined.

End LocalBP.

(** ** [BiModeBP] *)
Module BiModeBP.
Import Heap.

Record BPHistory := mkBPHistory {
  h_globalHistoryReg : Z;
  takenUsed : bool;
  takenPred : bool;
  notTakenPred : bool;
  finalPred : bool
}.

Record BiModeBP := mkBiMode {
  instShiftAmt : Z;
  choiceCounters : list SatCounter.SatCounter;
  takenCounters : list SatCounter.SatCounter;
  notTakenCounters : list SatCounter.SatCounter;
  globalHistoryReg : list Z;
  globalHistoryBits : Z;
  historyRegisterMask : Z;
  choicePredictorSize : Z;
  choiceCtrBits : Z;
  choiceHistoryMask : Z;
  globalPredictorSize : Z;
  globalCtrBits : Z;
  globalHistoryMask : Z;
  choiceThreshold : Z;
  takenThreshold : Z;
  notTakenThreshold : Z;
  histories : heap BPHistory
}.

Definition with_dyn (choice taken not_taken : list SatCounter.SatCounter) (reg : list Z)
    (h : heap BPHistory) (s : BiModeBP) : BiModeBP :=
  mkBiMode (instShiftAmt s) choice taken not_taken reg (globalHistoryBits s)
    (historyRegisterMask s) (choicePredictorSize s) (choiceCtrBits s) (choiceHistoryMask s)
    (globalPredictorSize s) (globalCtrBits s) (globalHistoryMask s) (choiceThreshold s)
    (takenThreshold s) (notTakenThreshold s) h.

Definition with_reg (reg : list Z) (s : BiModeBP) : BiModeBP :=
  with_dyn (choiceCounters s) (takenCounters s) (notTakenCounters s) reg (histories s) s.

Definition with_heap (h : heap BPHistory) (s : BiModeBP) : BiModeBP :=
  with_dyn (choiceCounters s) (takenCounters s) (notTakenCounters s) (globalHistoryReg s) h s.

Definition newBiMode (shift threads global_size global_bits choice_size choice_bits : Z)
  : res BiModeBP :=
  ghb ← ceilLog2 global_size;
  if negb (isPowerOf2 32 choice_size) then Fail Fatal
  else if negb (isPowerOf2 32 global_size) then Fail Fatal
  else
    choice ← new_counters choice_size choice_bits;
    taken ← new_counters global_size global_bits;
    not_taken ← new_counters global_size global_bits;
    Ok (mkBiMode shift choice taken not_taken (replicate (Z.to_nat threads) 0) ghb
          (u32 (Bitfield.mask ghb)) choice_size choice_bits (u32 (choice_size - 1))
          global_size global_bits (u32 (global_size - 1))
          (threshold choice_bits) (threshold choice_bits) (threshold choice_bits)
          empty_heap).

Definition updateGlobalHistReg (s : BiModeBP) (tid : Z) (taken : bool) : res BiModeBP :=
  g ← vread (globalHistoryReg s) tid;
  let g := if taken then Z.lor (u32 (Z.shiftl g 1)) 1 else u32 (Z.shiftl g 1) in
  reg ← vwrite (globalHistoryReg s) tid (Z.land g (historyRegisterMask s));
  Ok (with_reg reg s).

Definition uncondBranch (s : BiModeBP) (tid pc : Z) : res (BiModeBP * ptr) :=
  g ← vread (globalHistoryReg s) tid;
  let '(h, bpHistory) := new (mkBPHistory g true true true true) (histories s) in
  s ← updateGlobalHistReg (with_heap h s) tid true;
  Ok (s, bpHistory).

Definition squash (s : BiModeBP) (tid : Z) (bpHistory : ptr) : res BiModeBP :=
  history ← load bpHistory (histories s);
  reg ← vwrite (globalHistoryReg s) tid (h_globalHistoryReg history);
  h ← free bpHistory (histories s);
  Ok (with_heap h (with_reg reg s)).

Definition choiceIdx (s : BiModeBP) (branchAddr : Z) : Z :=
  u32 (Z.land (Z.shiftr branchAddr (instShiftAmt s)) (choiceHistoryMask s)).

Definition globalIdx (s : BiModeBP) (branchAddr g : Z) : Z :=
  u32 (Z.land (Z.lxor (Z.shiftr branchAddr (instShiftAmt s)) g) (globalHistoryMask s)).

Definition lookup (s : BiModeBP) (tid branchAddr : Z) : res (BiModeBP * bool * ptr) :=
  let choiceHistoryIdx := choiceIdx s branchAddr in
  g ← vread (globalHistoryReg s) tid;
  let globalHistoryIdx := globalIdx s branchAddr g in
  assert_ (choiceHistoryIdx <? choicePredictorSize s) ;;
  assert_ (globalHistoryIdx <? globalPredictorSize s) ;;
  c ← vread (choiceCounters s) choiceHistoryIdx;
  let choicePrediction := choiceThreshold s <? SatCounter.read c in
  t ← vread (takenCounters s) globalHistoryIdx;
  let takenGHBPrediction := takenThreshold s <? SatCounter.read t in
  nt ← vread (notTakenCounters s) globalHistoryIdx;
  let notTakenGHBPrediction := notTakenThreshold s <? SatCounter.read nt in
  let finalPrediction := if choicePrediction then takenGHBPrediction else notTakenGHBPrediction in
  let '(h, bpHistory) :=
    new (mkBPHistory g choicePrediction takenGHBPrediction notTakenGHBPrediction finalPrediction)
      (histories s) in
  s ← updateGlobalHistReg (with_heap h s) tid finalPrediction;
  Ok (s, finalPrediction, bpHistory).

Definition btbUpdate (s : BiModeBP) (tid branchAddr : Z) (bpHistory : ptr) : res BiModeBP :=
  g ← vread (globalHistoryReg s) tid;
  reg ← vwrite (globalHistoryReg s) tid (Z.land g (Z.land (historyRegisterMask s) (bnot 64 1)));
  Ok (with_reg reg s).

Definition update (s : BiModeBP) (tid branchAddr : Z) (taken : bool) (bpHistory : ptr)
    (squashed : bool) : res BiModeBP :=
  if bool_decide (bpHistory = None) then Ok s
  else
    history ← load bpHistory (histories s);
    let choiceHistoryIdx := choiceIdx s branchAddr in
    let globalHistoryIdx := globalIdx s branchAddr (h_globalHistoryReg history) in
    assert_ (choiceHistoryIdx <? choicePredictorSize s) ;;
    assert_ (globalHistoryIdx <? globalPredictorSize s) ;;
    '(tk, ntk) ←
      (if takenUsed history then
         tk ← (if taken then vmodify SatCounter.increment (takenCounters s) globalHistoryIdx
               else vmodify SatCounter.decrement (takenCounters s) globalHistoryIdx);
         Ok (tk, notTakenCounters s)
       else
         ntk ← (if taken then vmodify SatCounter.increment (notTakenCounters s) globalHistoryIdx
                else vmodify SatCounter.decrement (notTakenCounters s) globalHistoryIdx);
         Ok (takenCounters s, ntk));
    ch ←
      (if eqb (finalPred history) taken then
         if eqb (finalPred history) (takenUsed history) then
           if taken then vmodify SatCounter.increment (choiceCounters s) choiceHistoryIdx
           else vmodify SatCounter.decrement (choiceCounters s) choiceHistoryIdx
         else Ok (choiceCounters s)
       else
         if taken then vmodify SatCounter.increment (choiceCounters s) choiceHistoryIdx
         else vmodify SatCounter.decrement (choiceCounters s) choiceHistoryIdx);
    let s := with_dyn ch tk ntk (globalHistoryReg s) (histories s) s in
    if squashed then
      let g := h_globalHistoryReg history in
      let g := if taken then Z.lor (u32 (Z.shiftl g 1)) 1 else u32 (Z.shiftl g 1) in
      reg ← vwrite (globalHistoryReg s) tid (Z.land g (historyRegisterMask s));
      Ok (with_reg reg s)
    else
      h ← free bpHistory (histories s);
      Ok (with_heap h s).

Definition retireSquashed (s : BiModeBP) (tid : Z) (bp_history : ptr) : res BiModeBP :=
  h ← free bp_history (histories s);
  Ok (with_heap h s).

Definition getGHR (s : BiModeBP) (tid : Z) (bp_history : ptr) : res Z :=
  history ← load bp_history (histories s);
  Ok (h_globalHistoryReg history).

#[export] Instance bimode_ops : BPred.BPredOps BiModeBP := {|
  BPred.uncondBranch := uncondBranch;
  BPred.lookup := lookup;
  BPred.btbUpdate := btbUpdate;
  BPred.update := update;
  BPred.retireSquashed := retireSquashed;
  BPred.squash := squash;
  BPred.getGHR := getGHR
|}.

(** The invariant for [n] threads: the tables have the sizes their masks index, the
    counters are in range, and each thread has a history register. *)
Definition wf (n : Z) (s : BiModeBP) : Prop :=
  table_size (choicePredictorSize s) ∧ table_size (globalPredictorSize s) ∧
  1 ≤ choiceCtrBits s ≤ 8 ∧ 1 ≤ globalCtrBits s ≤ 8 ∧
  choiceHistoryMask s = choicePredictorSize s - 1 ∧
  globalHistoryMask s = globalPredictorSize s - 1 ∧
  in_width 32 (historyRegisterMask s) ∧
  counters_wf (choicePredictorSize s) (choiceCtrBits s) (choiceCounters s) ∧
  counters_wf (globalPredictorSize s) (globalCtrBits s) (takenCounters s) ∧
  counters_wf (globalPredictorSize s) (globalCtrBits s) (notTakenCounters s) ∧
  vsize (globalHistoryReg s) = n ∧ heap_wf (λ _, True) (histories s).

Definition saved (s : BiModeBP) (p : ptr) : option Z := peek h_globalHistoryReg (histories s) p.

Lemma newBiMode_ok shift threads global_size global_bits choice_size choice_bits :
  0 ≤ threads → in_width 32 global_size → in_width 32 choice_size → 0 < global_size →
  1 ≤ global_bits ≤ 8 → 1 ≤ choice_bits ≤ 8 →
  match newBiMode shift threads global_size global_bits choice_size choice_bits with
  | Ok s => wf threads s ∧ historyRegisterMask s = global_size - 1
  | Fail e => e = Fatal ∧ (isPowerOf2 32 choice_size = false ∨ isPowerOf2 32 global_size = false)
  end.
Proof.
  intros Ht Hg Hc Hpos Hgb Hcb. unfold newBiMode.
  assert (∃ l, ceilLog2 global_size = Ok l) as (l & Hl).
  { rewrite ceilLog2_log2_up; [by eexists|done|]. unfold in_width in *.
    assert (2 ^ 32 < 2 ^ 64) by (apply Z.pow_lt_mono_r; lia). lia. }
  rewrite Hl. cbn [mbind res_bind].
  destruct (isPowerOf2 32 choice_size) eqn:Hpc; [|cbn; split; [done|by auto]]. cbn [negb].
  destruct (isPowerOf2 32 global_size) eqn:Hpg; [|cbn; split; [done|by auto]]. cbn [negb].
  pose proof (table_size_isPowerOf2 _ Hg Hpg) as Hgs. pose proof (table_size_pos _ Hgs).
  pose proof (table_size_isPowerOf2 _ Hc Hpc) as Hcs. pose proof (table_size_pos _ Hcs).
  destruct (table_mask _ _ Hgs Hl) as [_ Hm].
  destruct (new_counters_ok choice_size choice_bits) as (lc & -> & Hlc); [lia..|].
  destruct (new_counters_ok global_size global_bits) as (lg & -> & Hlg); [lia..|].
  cbn [mbind res_bind]. split; [|exact Hm]. unfold wf. cbn -[empty_heap]. rewrite Hm. splits.
  - apply wrap_small. split; lia.
  - apply wrap_small. split; lia.
  - split; lia.
  - by apply vsize_replicate.
Qed.

Section laws.
Context (n : Z) (s : BiModeBP) (tid : Z) (Hw : wf n s) (Ht : 0 ≤ tid < n).

Lemma choiceIdx_ok pc : 0 ≤ choiceIdx s pc < choicePredictorSize s.
Proof. destruct Hw as (Hc & _ & _ & _ & Hm & _). unfold choiceIdx. rewrite Hm. by apply table_index. Qed.

Lemma globalIdx_ok pc g : 0 ≤ globalIdx s pc g < globalPredictorSize s.
Proof.
  destruct Hw as (_ & Hc & _ & _ & _ & Hm & _). unfold globalIdx. rewrite Hm. by apply table_index.
Qed.

Lemma wf_with_reg j g : wf n (with_reg (<[j := g]> (globalHistoryReg s)) s).
Proof.
  destruct Hw as (? & ? & ? & ? & ? & ? & ? & ? & ? & ? & ? & ?).
  unfold wf. cbn -[insert]. rewrite vsize_insert. splits.
Qed.

Lemma wf_with_heap h : heap_wf (λ _, True) h → wf n (with_heap h s).
Proof.
  destruct Hw as (? & ? & ? & ? & ? & ? & ? & ? & ? & ? & ? & ?).
  intros. unfold wf. cbn. splits.
Qed.

(** The three counters a lookup reads. *)
Lemma bimode_counters_read pc g :
  ∃ c t nt,
    vread (choiceCounters s) (choiceIdx s pc) = Ok c ∧ SatCounter.wf (choiceCtrBits s) c ∧
    vread (takenCounters s) (globalIdx s pc g) = Ok t ∧ SatCounter.wf (globalCtrBits s) t ∧
    vread (notTakenCounters s) (globalIdx s pc g) = Ok nt ∧ SatCounter.wf (globalCtrBits s) nt.
Proof.
  pose proof (choiceIdx_ok pc). pose proof (globalIdx_ok pc g).
  destruct Hw as (_ & _ & _ & _ & _ & _ & _ & [Hs1 Hf1] & [Hs2 Hf2] & [Hs3 Hf3] & _).
  destruct (vread_ok (choiceCounters s) (choiceIdx s pc)) as (c & Hc & Hlc); [lia|].
  destruct (vread_ok (takenCounters s) (globalIdx s pc g)) as (t & Htk & Hlt); [lia|].
  destruct (vread_ok (notTakenCounters s) (globalIdx s pc g)) as (nt & Hnt & Hln); [lia|].
  pose proof (Forall_lookup_1 _ _ _ _ Hf1 Hlc). pose proof (Forall_lookup_1 _ _ _ _ Hf2 Hlt).
  pose proof (Forall_lookup_1 _ _ _ _ Hf3 Hln). by exists c, t, nt.
Qed.

Lemma updateGlobalHistReg_ok t :
  let g := reg_at (globalHistoryReg s) tid in
  updateGlobalHistReg s tid t =
    Ok (with_reg (<[Z.to_nat tid := BPred.push_ghr (historyRegisterMask s) g t]> (globalHistoryReg s)) s).
Proof.
  intros g. pose proof Hw as (_ & _ & _ & _ & _ & _ & _ & _ & _ & _ & Hn & _).
  unfold updateGlobalHistReg. rewrite reg_read by lia. cbn [mbind res_bind].
  rewrite push_ghr_if, vwrite_ok by lia. done.
Qed.

End laws.

(** What [lookup] returns and stores. *)
Definition lookup_history (s : BiModeBP) (pc g : Z) : option BPHistory :=
  c ← choiceCounters s !! Z.to_nat (choiceIdx s pc);
  t ← takenCounters s !! Z.to_nat (globalIdx s pc g);
  nt ← notTakenCounters s !! Z.to_nat (globalIdx s pc g);
  let cp := choiceThreshold s <? SatCounter.read c in
  let tp := takenThreshold s <? SatCounter.read t in
  let np := notTakenThreshold s <? SatCounter.read nt in
  Some (mkBPHistory g cp tp np (if cp then tp else np)).

Lemma bimode_lookup_ok n s tid pc :
  wf n s → 0 ≤ tid < n →
  let g := reg_at (globalHistoryReg s) tid in
  ∃ x, lookup_history s pc g = Some x ∧ h_globalHistoryReg x = g ∧
    let s' := with_reg (<[Z.to_nat tid := BPred.push_ghr (historyRegisterMask s) g (finalPred x)]>
                          (globalHistoryReg s)) (with_heap (new x (histories s)).1 s) in
    lookup s tid pc = Ok (s', finalPred x, (new x (histories s)).2) ∧ wf n s'.
Proof.
  intros Hw Ht g. pose proof (choiceIdx_ok n s Hw pc). pose proof (globalIdx_ok n s Hw pc g).
  destruct (bimode_counters_read n s Hw pc g) as (c & t & nt & Hc & _ & Htk & _ & Hnt & _).
  pose proof (proj2 (vread_inv _ _ _ Hc)) as Hc'.
  pose proof (proj2 (vread_inv _ _ _ Htk)) as Htk'.
  pose proof (proj2 (vread_inv _ _ _ Hnt)) as Hnt'.
  unfold lookup_history. rewrite Hc', Htk', Hnt'. eexists. split; [done|]. split; [done|].
  pose proof Hw as (_ & _ & _ & _ & _ & _ & _ & _ & _ & _ & Hn & Hh).
  assert (∀ x, wf n (with_heap (new x (histories s)).1 s)) as Hwh.
  { intros x. apply wf_with_heap; [done|]. by apply heap_wf_new. }
  split; [|exact (wf_with_reg n _ (Hwh _) _ _)].
  unfold lookup. rewrite reg_read by lia. cbn [mbind res_bind]. fold g.
  rewrite !bind_assert by (apply Z.ltb_lt; lia).
  rewrite Hc, Htk, Hnt. cbn [mbind res_bind]. unfold new at 1.
  match goal with |- context [mkHeap (<[_ := ?x]> _) _] => specialize (Hwh x) end.
  rewrite (updateGlobalHistReg_ok n _ tid Hwh) by lia. done.
Qed.

(** The counters after [update], from the stored history [x]. *)
Definition trained (s : BiModeBP) (pc : Z) (taken : bool) (x : BPHistory) : BiModeBP :=
  let gi := Z.to_nat (globalIdx s pc (h_globalHistoryReg x)) in
  with_dyn
    (if eqb (finalPred x) taken && negb (eqb (finalPred x) (takenUsed x)) then choiceCounters s
     else alter (SatCounter.train taken) (Z.to_nat (choiceIdx s pc)) (choiceCounters s))
    (if takenUsed x then alter (SatCounter.train taken) gi (takenCounters s) else takenCounters s)
    (if takenUsed x then notTakenCounters s
     else alter (SatCounter.train taken) gi (notTakenCounters s))
    (globalHistoryReg s) (histories s) s.

Lemma bimode_wf_trained n s pc taken x : wf n s → wf n (trained s pc taken x).
Proof.
  intros Hw. pose proof (choiceIdx_ok n s Hw pc) as Hci.
  pose proof (globalIdx_ok n s Hw pc (h_globalHistoryReg x)) as Hgi.
  destruct Hw as (? & ? & ? & ? & ? & ? & ? & Hc & Htk & Hnt & ? & ?).
  destruct (train_counters_ok _ (choiceCtrBits s) taken _ _ ltac:(lia) Hc Hci) as (? & _ & ? & ->).
  destruct (train_counters_ok _ (globalCtrBits s) taken _ _ ltac:(lia) Htk Hgi) as (? & _ & ? & ->).
  destruct (train_counters_ok _ (globalCtrBits s) taken _ _ ltac:(lia) Hnt Hgi) as (? & _ & ? & ->).
  unfold wf, trained. cbn -[alter]. splits; by case_match.
Qed.

Lemma bimode_update_ok n s tid pc taken p squashed x :
  wf n s → 0 ≤ tid < n → load p (histories s) = Ok x →
  update s tid pc taken p squashed =
    let s' := trained s pc taken x in
    if squashed then
      Ok (with_reg (<[Z.to_nat tid :=
        BPred.push_ghr (historyRegisterMask s) (h_globalHistoryReg x) taken]> (globalHistoryReg s)) s')
    else h ← free p (histories s); Ok (with_heap h s').
Proof.
  intros Hw Ht Hl. pose proof (choiceIdx_ok n s Hw pc) as Hci.
  pose proof (globalIdx_ok n s Hw pc (h_globalHistoryReg x)) as Hgi.
  destruct Hw as (? & ? & ? & ? & ? & ? & ? & [Hc _] & [Htk _] & [Hnt _] & Hn & ?).
  unfold update. rewrite bool_decide_false by (intros ->; done). rewrite Hl. cbn [mbind res_bind].
  rewrite !bind_assert by (apply Z.ltb_lt; lia).
  rewrite !train_if, !vmodify_ok by lia. rewrite <- push_ghr_if. unfold trained.
  destruct (takenUsed x), (eqb (finalPred x) taken) eqn:E1, (finalPred x), squashed;
    cbn -[alter Z.land wrap insert vwrite]; try done; by rewrite vwrite_ok by lia.
Qed.

Lemma bimode_uncondBranch_ok n s tid pc :
  wf n s → 0 ≤ tid < n →
  let g := reg_at (globalHistoryReg s) tid in
  let x := mkBPHistory g true true true true in
  let s' := with_reg (<[Z.to_nat tid := BPred.push_ghr (historyRegisterMask s) g true]>
                        (globalHistoryReg s)) (with_heap (new x (histories s)).1 s) in
  uncondBranch s tid pc = Ok (s', (new x (histories s)).2) ∧ wf n s'.
Proof.
  intros Hw Ht g x s'. pose proof Hw as (_ & _ & _ & _ & _ & _ & _ & _ & _ & _ & Hn & Hh).
  assert (wf n (with_heap (new x (histories s)).1 s)) as Hwh.
  { apply wf_with_heap; [done|]. by apply heap_wf_new. }
  split; [|exact (wf_with_reg n _ Hwh _ _)].
  unfold uncondBranch. rewrite reg_read by lia. cbn [mbind res_bind]. fold g x. unfold new at 1.
  change (mkHeap _ _) with (new x (histories s)).1.
  rewrite (updateGlobalHistReg_ok n _ tid Hwh) by lia. done.
Qed.

(** The frame a history record's allocation and a register write leave. *)
Lemma new_frame n s tid x g :
  wf n s → 0 ≤ tid < n →
  let s' := with_reg (<[Z.to_nat tid := g]> (globalHistoryReg s)) (with_heap (new x (histories s)).1 s) in
  let p := (new x (histories s)).2 in
  saved s' p = Some (h_globalHistoryReg x) ∧ saved s p = None ∧
  (∀ q, is_Some (saved s q) → saved s' q = saved s q) ∧
  reg_at (globalHistoryReg s') tid = g ∧
  ∀ j, 0 ≤ j → j ≠ tid → reg_at (globalHistoryReg s') j = reg_at (globalHistoryReg s) j.
Proof.
  intros Hw Ht s' p. pose proof Hw as (_ & _ & _ & _ & _ & _ & _ & _ & _ & _ & Hn & Hh).
  destruct (reg_write (globalHistoryReg s) tid g ltac:(lia)) as [H1 H2].
  destruct (peek_new h_globalHistoryReg _ x _ None Hh) as (H3 & H4 & _).
  split_and!; try done. intros q. by destruct (peek_new h_globalHistoryReg _ x _ q Hh) as (_ & _ & _ & H5).
Qed.

#[export] Instance bimode_laws : BPred.BPredLaws BiModeBP.
Proof.
  refine {| BPred.bp_wf := wf; BPred.ghr := λ s, reg_at (globalHistoryReg s);
            BPred.hist_mask := historyRegisterMask; BPred.saved := saved |}.
  - intros n s tid pc Hw Ht.
    destruct (bimode_lookup_ok n s tid pc Hw Ht) as (x & _ & Hg & Hl & Hw').
    destruct (new_frame n s tid x (BPred.push_ghr (historyRegisterMask s)
      (reg_at (globalHistoryReg s) tid) (finalPred x)) Hw Ht) as (H1 & H2 & H3 & H4 & H5).
    eexists _, _, _. split; [exact Hl|]. rewrite Hg in H1. split_and!; try done. by right.
  - intros n s tid pc Hw Ht.
    destruct (bimode_uncondBranch_ok n s tid pc Hw Ht) as (Hl & Hw').
    destruct (new_frame n s tid (mkBPHistory (reg_at (globalHistoryReg s) tid) true true true true)
      (BPred.push_ghr (historyRegisterMask s) (reg_at (globalHistoryReg s) tid) true) Hw Ht)
      as (H1 & H2 & H3 & H4 & H5).
    eexists _, _. split; [exact Hl|]. split_and!; try done. by right.
  - intros n s tid pc p g Hw Ht Hg.
    pose proof Hw as (_ & _ & _ & _ & _ & _ & Hm & _ & _ & _ & Hn & Hh).
    cbn. unfold btbUpdate. rewrite reg_read by lia. cbn [mbind res_bind].
    rewrite Hg, BPred.push_ghr_clear, vwrite_ok by (done || lia).
    match goal with |- context [<[_ := ?g']> _] =>
      destruct (reg_write (globalHistoryReg s) tid g' ltac:(lia)) as [H1 H2] end.
    eexists. split; [done|]. split_and!; try done. by apply wf_with_reg.
  - intros n s tid pc taken p g squashed Hw Ht Hp.
    pose proof Hw as (_ & _ & _ & _ & _ & _ & Hm & _ & _ & _ & Hn & Hh).
    destruct (load_peek _ _ _ _ Hp) as (x & Hx & Hg & _).
    pose proof (bimode_wf_trained n s pc taken x Hw) as Hw'. cbn.
    rewrite (bimode_update_ok n s tid pc taken p squashed x Hw Ht Hx). destruct squashed.
    + rewrite Hg. match goal with |- context [<[_ := ?g']> _] =>
        destruct (reg_write (globalHistoryReg s) tid g' ltac:(lia)) as [H1 H2] end.
      eexists. split; [done|]. split_and!; try done. exact (wf_with_reg n _ Hw' _ _).
    + destruct (free_ok _ _ _ _ _ Hh Hp) as (h & Hf & Hwh & _ & Hq). rewrite Hf.
      eexists. split; [done|]. split_and!; try done. by apply wf_with_heap.
  - intros n s tid p g Hw Ht Hp.
    pose proof Hw as (_ & _ & _ & _ & _ & _ & Hm & _ & _ & _ & Hn & Hh).
    destruct (free_ok _ _ _ _ _ Hh Hp) as (h & Hf & Hwh & _ & Hq).
    cbn. unfold retireSquashed. rewrite Hf. eexists. split; [done|].
    split_and!; try done. by apply wf_with_heap.
  - intros n s tid p g Hw Ht Hp.
    pose proof Hw as (_ & _ & _ & _ & _ & _ & Hm & _ & _ & _ & Hn & Hh).
    destruct (load_peek _ _ _ _ Hp) as (x & Hx & Hg & _).
    destruct (free_ok _ _ _ _ _ Hh Hp) as (h & Hf & Hwh & _ & Hq).
    destruct (reg_write (globalHistoryReg s) tid g ltac:(lia)) as [H1 H2].
    cbn. unfold squash. rewrite Hx. cbn [mbind res_bind]. rewrite vwrite_ok, Hf, Hg by lia.
    eexists. split; [done|].
    split_and!; try done. apply wf_with_heap; [by apply wf_with_reg|done].
  - intros n s tid p g Hw Hp. destruct (load_peek _ _ _ _ Hp) as (x & Hx & Hg & _).
    cbn. unfold getGHR. rewrite Hx. cbn. by rewrite Hg.
Defined.

(** The thresholds as the constructor sets them: all three from the choice counters' width. *)
Definition thresholds_set (s : BiModeBP) : Prop :=
  choiceThreshold s = threshold (choiceCtrBits s) ∧
  takenThreshold s = threshold (choiceCtrBits s) ∧
  notTakenThreshold s = threshold (choiceCtrBits s).

Lemma newBiMode_thresholds shift threads global_size global_bits choice_size choice_bits s :
  newBiMode shift threads global_size global_bits choice_size choice_bits = Ok s → thresholds_set s.
Proof.
  unfold newBiMode. intros H. apply bind_ok in H as (l & _ & H). repeat case_match; try done.
  inv_res H. by subst.
Qed.

(** Bi-mode prediction and training, with choice and direction counters of the same
    width: the most significant bit of the branch's choice counter selects the taken or
    the not-taken table, whose counter's most significant bit is the prediction.  When the
    branch commits, only the selected direction counter is trained with the outcome, the
    choice counter is trained unless it disagreed with the outcome while the prediction
    was right, and the history record is freed. *)
Theorem bimode_predicts_and_trains n s tid pc (taken : bool) :
  wf n s → thresholds_set s → choiceCtrBits s = globalCtrBits s → 0 ≤ tid < n →
  let msb c := Z.testbit (SatCounter.read c) (choiceCtrBits s - 1) in
  let ci := Z.to_nat (choiceIdx s pc) in
  let gi := Z.to_nat (globalIdx s pc (reg_at (globalHistoryReg s) tid)) in
  ∃ c t nt s1 p s2,
    choiceCounters s !! ci = Some c ∧ takenCounters s !! gi = Some t ∧
    notTakenCounters s !! gi = Some nt ∧
    let pred := if msb c then msb t else msb nt in
    lookup s tid pc = Ok (s1, pred, p) ∧
    update s1 tid pc taken p false = Ok s2 ∧ wf n s2 ∧ saved s2 p = None ∧
    takenCounters s2 = (if msb c then alter (SatCounter.train taken) gi (takenCounters s)
                        else takenCounters s) ∧
    notTakenCounters s2 = (if msb c then notTakenCounters s
                           else alter (SatCounter.train taken) gi (notTakenCounters s)) ∧
    choiceCounters s2 = (if eqb pred taken && negb (eqb (msb c) taken) then choiceCounters s
                         else alter (SatCounter.train taken) ci (choiceCounters s)).
Proof.
  intros Hw (Ht1 & Ht2 & Ht3) Hbits Ht msb ci gi. pose proof Hw as (_ & _ & Hcb & _).
  destruct (bimode_counters_read n s Hw pc (reg_at (globalHistoryReg s) tid))
    as (c & t & nt & Hc & Hwc & Htk & Hwt & Hnt & Hwn).
  apply vread_inv in Hc as [_ Hc]. apply vread_inv in Htk as [_ Htk]. apply vread_inv in Hnt as [_ Hnt].
  destruct (bimode_lookup_ok n s tid pc Hw Ht) as (x & Hx & Hg & Hl & Hw1).
  unfold lookup_history in Hx. rewrite Hc, Htk, Hnt in Hx. cbn in Hx. injection Hx as Hx.
  rewrite Ht1, Ht2, Ht3, (threshold_msb _ c), (threshold_msb _ t), (threshold_msb _ nt) in Hx
    by (done || congruence).
  fold (msb c) (msb t) (msb nt) in Hx.
  set (p := (new x (histories s)).2) in *.
  match type of Hl with _ = Ok (?s1, _, _) => set (s1' := s1) in * end.
  pose proof Hw1 as (_ & _ & _ & _ & _ & _ & _ & _ & _ & _ & _ & Hh1).
  assert (saved s1' p = Some (h_globalHistoryReg x)) as Hp.
  { pose proof Hw as (_ & _ & _ & _ & _ & _ & _ & _ & _ & _ & _ & Hh).
    by destruct (peek_new h_globalHistoryReg _ x _ None Hh). }
  destruct (free_ok _ _ _ _ _ Hh1 Hp) as (h & Hf & Hwh & Hpn & _).
  assert (load p (histories s1') = Ok x) as Hld. { unfold load. cbn. by rewrite lookup_insert_eq. }
  pose proof (bimode_update_ok n s1' tid pc taken p false x Hw1 Ht Hld) as Hu. rewrite Hf in Hu.
  exists c, t, nt, s1', p. eexists. split_and!; [done..|]. cbv zeta.
  split_and!; [|exact Hu| | | | |].
  - rewrite Hl. by rewrite <- Hx.
  - apply wf_with_heap; [by apply bimode_wf_trained|done].
  - exact Hpn.
  - cbn -[alter]. rewrite <- Hx. cbn -[alter]. done.
  - cbn -[alter]. rewrite <- Hx. cbn -[alter]. done.
  - cbn -[alter]. rewrite <- Hx. cbn -[alter].
    destruct (msb c), (msb t), (msb nt), taken; done.
Qed.

Definition bimode_example : BiModeBP :=
  mkBiMode 2 (replicate 4 (SatCounter.mkCtr 0 3 2)) (replicate 8 (SatCounter.mkCtr 0 3 1))
    (replicate 8 (SatCounter.mkCtr 0 3 0)) [0] 3 7 4 2 3 8 2 7 1 1 1 empty_heap.

Lemma bimode_example_wf : wf 1 bimode_example.
Proof.
  assert (∀ n c, SatCounter.wf 2 c → counters_wf (Z.of_nat n) 2 (replicate n c)) as Hr.
  { intros n c Hc. split; [|by apply Forall_replicate]. unfold vsize. by rewrite length_replicate. }
  unfold wf. splits; try (vm_compute; reflexivity); try (vm_compute; discriminate).
  - by exists 2.
  - by exists 3.
  - apply (Hr 4%nat). vm_compute. repeat split; discriminate.
  - apply (Hr 8%nat). vm_compute. repeat split; discriminate.
  - apply (Hr 8%nat). vm_compute. repeat split; discriminate.
Qed.

Lemma bimode_predicts_and_trains_witness :
  ∃ s1 p s2, lookup bimode_example 0 0x1000 = Ok (s1, false, p) ∧
    update s1 0 0x1000 true p false = Ok s2 ∧ saved s2 p = None ∧
    notTakenCounters s2 = notTakenCounters bimode_example.
Proof.
  destruct (bimode_predicts_and_trains 1 bimode_example 0 0x1000 true)
    as (c & t & nt & s1 & p & s2 & Hc & Ht & Hnt & Hl & Hu & _ & Hs & _ & Hn & _).
  - apply bimode_example_wf.
  - vm_compute. repeat split; reflexivity.
  - reflexivity.
  - lia.
  - exists s1, p, s2.
    assert (SatCounter.mkCtr 0 3 2 = c) as <- by (vm_compute in Hc; congruence).
    assert (SatCounter.mkCtr 0 3 1 = t) as <- by (vm_compute in Ht; congruence).
    split; [exact Hl|]. split; [exact Hu|]. split; [exact Hs|exact Hn].
Defined.

(** The constructor takes the thresholds of the direction counters from the width of
    the choice counters, so a bi-mode predictor whose direction counters are narrower
    than its choice counters predicts every branch not taken, however it was trained. *)
Theorem bimode_narrow_direction_never_taken n s tid pc :
  wf n s → thresholds_set s → globalCtrBits s < choiceCtrBits s → 0 ≤ tid < n →
  ∃ s' p, lookup s tid pc = Ok (s', false, p).
Proof.
  intros Hw (_ & Ht2 & Ht3) Hbits Ht. pose proof Hw as (_ & _ & Hcb & Hgb & _).
  destruct (bimode_counters_read n s Hw pc (reg_at (globalHistoryReg s) tid))
    as (c & t & nt & Hc & _ & Htk & Hwt & Hnt & Hwn).
  apply vread_inv in Hc as [_ Hc]. apply vread_inv in Htk as [_ Htk]. apply vread_inv in Hnt as [_ Hnt].
  destruct (bimode_lookup_ok n s tid pc Hw Ht) as (x & Hx & _ & Hl & _).
  assert (∀ d, SatCounter.wf (globalCtrBits s) d →
    (threshold (choiceCtrBits s) <? SatCounter.read d) = false) as Hlow.
  { intros d (Hm & _ & Hd). rewrite threshold_pow2 by done. apply Z.ltb_ge. unfold SatCounter.read.
    assert (2 ^ globalCtrBits s ≤ 2 ^ (choiceCtrBits s - 1)) by (apply Z.pow_le_mono_r; lia). lia. }
  unfold lookup_history in Hx. rewrite Hc, Htk, Hnt in Hx. cbn in Hx. injection Hx as Hx.
  rewrite Ht2, Ht3, (Hlow t Hwt), (Hlow nt Hwn) in Hx.
  assert (finalPred x = false) as Hfin by (rewrite <- Hx; cbn; by case_match).
  rewrite Hfin in Hl. eexists _, _. exact Hl.
Qed.

Definition bimode_narrow_example : BiModeBP :=
  mkBiMode 2 (replicate 4 (SatCounter.mkCtr 0 7 7)) (replicate 8 (SatCounter.mkCtr 0 3 3))
    (replicate 8 (SatCounter.mkCtr 0 3 3)) [0] 3 7 4 3 3 8 2 7 3 3 3 empty_heap.

Lemma bimode_narrow_direction_never_taken_witness :
  ∃ s' p, lookup bimode_narrow_example 0 0x1000 = Ok (s', false, p).
Proof.
  apply (bimode_narrow_direction_never_taken 1).
  - unfold wf. splits; try (vm_compute; reflexivity); try (vm_compute; discriminate).
    + by exists 2.
    + by exists 3.
    + split; [vm_compute; reflexivity|]. apply Forall_replicate. vm_compute. repeat split; discriminate.
    + split; [vm_compute; reflexivity|]. apply Forall_replicate. vm_compute. repeat split; discriminate.
    + split; [vm_compute; reflexivity|]. apply Forall_replicate. vm_compute. repeat split; discriminate.
  - vm_compute. repeat split; reflexivity.
  - vm_compute. reflexivity.
  - lia.
Defined.

End BiModeBP.
