(* ===== verification/TournamentPred.v ===== *)
(** * The tournament predictor

    Models [cpu/pred/tournament.hh] and [tournament.cc]: a local predictor indexed by a
    per-branch history, a global predictor indexed by the global history, and a choice
    predictor that selects one of the two; proves the promises of [BPred.BPredLaws]. *)

From S2P Require Import Prelude.
From S2P Require Import IntMath.
From S2P Require Import BPredTables.
From S2P Require Import BPredIface.
From S2P Require Import DirectionPreds.
Import IntMath.

Module TournamentBP.
Import Heap.

Record BPHistory := mkBPHistory {
  h_globalHistory : Z;
  localHistoryIdx : Z;
  localHistory : Z;
  localPredTaken : bool;
  globalPredTaken : bool;
  globalUsed : bool
}.

(** [static const int invalidPredictorIndex = -1], compared and stored as [unsigned]. *)
Definition invalidPredictorIndex : Z := u32 (-1).

Record TournamentBP := mkTournament {
  instShiftAmt : Z;
  localCtrs : list SatCounter.SatCounter;
  localPredictorSize : Z;
  localPredictorMask : Z;
  localCtrBits : Z;
  localHistoryTable : list Z;
  localHistoryTableSize : Z;
  localHistoryBits : Z;
  globalCtrs : list SatCounter.SatCounter;
  globalPredictorSize : Z;
  globalCtrBits : Z;
  globalHistory : list Z;
  globalHistoryBits : Z;
  globalHistoryMask : Z;
  choiceHistoryMask : Z;
  historyRegisterMask : Z;
  choiceCtrs : list SatCounter.SatCounter;
  choicePredictorSize : Z;
  choiceCtrBits : Z;
  localThreshold : Z;
  globalThreshold : Z;
  choiceThreshold : Z;
  histories : heap BPHistory
}.

Definition with_dyn (lc : list SatCounter.SatCounter) (lh : list Z)
    (gc : list SatCounter.SatCounter) (gh : list Z) (cc : list SatCounter.SatCounter)
    (h : heap BPHistory) (s : TournamentBP) : TournamentBP :=
  mkTournament (instShiftAmt s) lc (localPredictorSize s) (localPredictorMask s)
    (localCtrBits s) lh (localHistoryTableSize s) (localHistoryBits s) gc
    (globalPredictorSize s) (globalCtrBits s) gh (globalHistoryBits s) (globalHistoryMask s)
    (choiceHistoryMask s) (historyRegisterMask s) cc (choicePredictorSize s) (choiceCtrBits s)
    (localThreshold s) (globalThreshold s) (choiceThreshold s) h.

Definition with_globalHistory (gh : list Z) (s : TournamentBP) : TournamentBP :=
  with_dyn (localCtrs s) (localHistoryTable s) (globalCtrs s) gh (choiceCtrs s) (histories s) s.

Definition with_localTable (lh : list Z) (s : TournamentBP) : TournamentBP :=
  with_dyn (localCtrs s) lh (globalCtrs s) (globalHistory s) (choiceCtrs s) (histories s) s.

Definition with_ctrs (lc gc cc : list SatCounter.SatCounter) (s : TournamentBP) : TournamentBP :=
  with_dyn lc (localHistoryTable s) gc (globalHistory s) cc (histories s) s.

Definition with_heap (h : heap BPHistory) (s : TournamentBP) : TournamentBP :=
  with_dyn (localCtrs s) (localHistoryTable s) (globalCtrs s) (globalHistory s) (choiceCtrs s) h s.

Definition newTournament (shift threads local_size local_bits table_sz global_size global_bits
    choice_size choice_bits : Z) : res TournamentBP :=
  lhb ← ceilLog2 local_size;
  lg ← ceilLog2 global_size;
  lc ← ceilLog2 choice_size;
  let ghb := if lc <? lg then lg else lc in
  if negb (isPowerOf2 32 local_size) then Fail Fatal
  else if negb (isPowerOf2 32 global_size) then Fail Fatal
  else
    local_ctrs ← new_counters local_size local_bits;
    if negb (isPowerOf2 32 table_sz) then Fail Fatal
    else
      table ← vfor table_sz (λ _, 0) (replicate (Z.to_nat table_sz) 0);
      global_ctrs ← new_counters global_size global_bits;
      let global_mask := u32 (global_size - 1) in
      if negb (isPowerOf2 32 choice_size) then Fail Fatal
      else
        let choice_mask := u32 (choice_size - 1) in
        choice_ctrs ← new_counters choice_size choice_bits;
        let reg_mask := u32 (Bitfield.mask ghb) in
        if reg_mask <? global_mask then Fail Fatal
        else if reg_mask <? choice_mask then Fail Fatal
        else Ok (mkTournament shift local_ctrs local_size (u32 (Bitfield.mask lhb)) local_bits
                   table table_sz lhb global_ctrs global_size global_bits
                   (replicate (Z.to_nat threads) 0) ghb global_mask choice_mask reg_mask
                   choice_ctrs choice_size choice_bits
                   (threshold local_bits) (threshold global_bits) (threshold choice_bits)
                   empty_heap).

Definition calcLocHistIdx (s : TournamentBP) (branch_addr : Z) : Z :=
  u32 (Z.land (Z.shiftr branch_addr (instShiftAmt s)) (u32 (localHistoryTableSize s - 1))).

Definition updateGlobalHistTaken (s : TournamentBP) (tid : Z) : res TournamentBP :=
  g ← vread (globalHistory s) tid;
  let g := Z.lor (u32 (Z.shiftl g 1)) 1 in
  gh ← vwrite (globalHistory s) tid (Z.land g (historyRegisterMask s));
  Ok (with_globalHistory gh s).

Definition updateGlobalHistNotTaken (s : TournamentBP) (tid : Z) : res TournamentBP :=
  g ← vread (globalHistory s) tid;
  let g := u32 (Z.shiftl g 1) in
  gh ← vwrite (globalHistory s) tid (Z.land g (historyRegisterMask s));
  Ok (with_globalHistory gh s).

Definition updateLocalHistTaken (s : TournamentBP) (local_history_idx : Z) : res TournamentBP :=
  l ← vread (localHistoryTable s) local_history_idx;
  lh ← vwrite (localHistoryTable s) local_history_idx (Z.lor (u32 (Z.shiftl l 1)) 1);
  Ok (with_localTable lh s).

Definition updateLocalHistNotTaken (s : TournamentBP) (local_history_idx : Z) : res TournamentBP :=
  l ← vread (localHistoryTable s) local_history_idx;
  lh ← vwrite (localHistoryTable s) local_history_idx (u32 (Z.shiftl l 1));
  Ok (with_localTable lh s).

Definition btbUpdate (s : TournamentBP) (tid branch_addr : Z) (bp_history : ptr)
  : res TournamentBP :=
  let local_history_idx := calcLocHistIdx s branch_addr in
  g ← vread (globalHistory s) tid;
  gh ← vwrite (globalHistory s) tid (Z.land g (Z.land (historyRegisterMask s) (bnot 64 1)));
  l ← vread (localHistoryTable s) local_history_idx;
  lh ← vwrite (localHistoryTable s) local_history_idx
         (Z.land l (Z.land (localPredictorMask s) (bnot 64 1)));
  Ok (with_localTable lh (with_globalHistory gh s)).

Definition lookup (s : TournamentBP) (tid branch_addr : Z) : res (TournamentBP * bool * ptr) :=
  let local_history_idx := calcLocHistIdx s branch_addr in
  l ← vread (localHistoryTable s) local_history_idx;
  let local_predictor_idx := Z.land l (localPredictorMask s) in
  lc ← vread (localCtrs s) local_predictor_idx;
  let local_prediction := localThreshold s <? SatCounter.read lc in
  g ← vread (globalHistory s) tid;
  gc ← vread (globalCtrs s) (Z.land g (globalHistoryMask s));
  let global_prediction := globalThreshold s <? SatCounter.read gc in
  cc ← vread (choiceCtrs s) (Z.land g (choiceHistoryMask s));
  let choice_prediction := choiceThreshold s <? SatCounter.read cc in
  let '(h, bp_history) :=
    new (mkBPHistory g local_history_idx local_predictor_idx local_prediction global_prediction
           choice_prediction) (histories s) in
  let s := with_heap h s in
  assert_ (local_history_idx <? localHistoryTableSize s) ;;
  if choice_prediction then
    if global_prediction then
      s ← updateGlobalHistTaken s tid;
      s ← updateLocalHistTaken s local_history_idx;
      Ok (s, true, bp_history)
    else
      s ← updateGlobalHistNotTaken s tid;
      s ← updateLocalHistNotTaken s local_history_idx;
      Ok (s, false, bp_history)
  else
    if local_prediction then
      s ← updateGlobalHistTaken s tid;
      s ← updateLocalHistTaken s local_history_idx;
      Ok (s, true, bp_history)
    else
      s ← updateGlobalHistNotTaken s tid;
      s ← updateLocalHistNotTaken s local_history_idx;
      Ok (s, false, bp_history).

Definition uncondBranch (s : TournamentBP) (tid pc : Z) : res (TournamentBP * ptr) :=
  g ← vread (globalHistory s) tid;
  let '(h, bp_history) :=
    new (mkBPHistory g invalidPredictorIndex invalidPredictorIndex true true true) (histories s) in
  s ← updateGlobalHistTaken (with_heap h s) tid;
  Ok (s, bp_history).

(** The counters of [update]: the choice counter learns which predictor was right when
    they differed, then both predictors' counters learn the outcome. *)
Definition update_counters (s : TournamentBP) (taken : bool) (history : BPHistory)
    (old_local_pred_index : Z) (old_local_pred_valid : bool) : res TournamentBP :=
  choice ←
    (if negb (eqb (localPredTaken history) (globalPredTaken history)) then
       let choice_predictor_idx := Z.land (h_globalHistory history) (choiceHistoryMask s) in
       if eqb (localPredTaken history) taken then
         vmodify SatCounter.decrement (choiceCtrs s) choice_predictor_idx
       else if eqb (globalPredTaken history) taken then
         vmodify SatCounter.increment (choiceCtrs s) choice_predictor_idx
       else Ok (choiceCtrs s)
     else Ok (choiceCtrs s));
  let global_predictor_idx := Z.land (h_globalHistory history) (globalHistoryMask s) in
  if taken then
    global ← vmodify SatCounter.increment (globalCtrs s) global_predictor_idx;
    local ← (if old_local_pred_valid
             then vmodify SatCounter.increment (localCtrs s) old_local_pred_index
             else Ok (localCtrs s));
    Ok (with_ctrs local global choice s)
  else
    global ← vmodify SatCounter.decrement (globalCtrs s) global_predictor_idx;
    local ← (if old_local_pred_valid
             then vmodify SatCounter.decrement (localCtrs s) old_local_pred_index
             else Ok (localCtrs s));
    Ok (with_ctrs local global choice s).

Definition update (s : TournamentBP) (tid branch_addr : Z) (taken : bool) (bp_history : ptr)
    (squashed : bool) : res TournamentBP :=
  let local_history_idx := calcLocHistIdx s branch_addr in
  local_predictor_hist ← vread (localHistoryTable s) local_history_idx;
  s ←
    (if bool_decide (bp_history = None) then Ok s
     else
       history ← load bp_history (histories s);
       let old_local_pred_index := Z.land (localHistory history) (localPredictorMask s) in
       let old_local_pred_valid := negb (localHistory history =? invalidPredictorIndex) in
       assert_ (old_local_pred_index <? localPredictorSize s) ;;
       let historyPred :=
         if globalUsed history then globalPredTaken history else localPredTaken history in
       s ← (if negb (eqb historyPred taken) || negb squashed
            then update_counters s taken history old_local_pred_index old_local_pred_valid
            else Ok s);
       if squashed then
         if taken then
           let g := Z.lor (u32 (Z.shiftl (h_globalHistory history) 1)) 1 in
           gh ← vwrite (globalHistory s) tid (Z.land g (historyRegisterMask s));
           let s := with_globalHistory gh s in
           if old_local_pred_valid then
             lh ← vwrite (localHistoryTable s) local_history_idx
                    (Z.lor (u32 (Z.shiftl (localHistory history) 1)) 1);
             Ok (with_localTable lh s)
           else Ok s
         else
           let g := u32 (Z.shiftl (h_globalHistory history) 1) in
           gh ← vwrite (globalHistory s) tid (Z.land g (historyRegisterMask s));
           let s := with_globalHistory gh s in
           if old_local_pred_valid then
             lh ← vwrite (localHistoryTable s) local_history_idx
                    (u32 (Z.shiftl (localHistory history) 1));
             Ok (with_localTable lh s)
           else Ok s
       else
         h ← free bp_history (histories s);
         Ok (with_heap h s));
  assert_ (local_history_idx <? localHistoryTableSize s) ;;
  Ok s.

Definition retireSquashed (s : TournamentBP) (tid : Z) (bp_history : ptr) : res TournamentBP :=
  h ← free bp_history (histories s);
  Ok (with_heap h s).

Definition squash (s : TournamentBP) (tid : Z) (bp_history : ptr) : res TournamentBP :=
  history ← load bp_history (histories s);
  gh ← vwrite (globalHistory s) tid (h_globalHistory history);
  let s := with_globalHistory gh s in
  s ←
    (if negb (localHistoryIdx history =? invalidPredictorIndex) then
       lh ← vwrite (localHistoryTable s) (localHistoryIdx history) (localHistory history);
       Ok (with_localTable lh s)
     else Ok s);
  h ← free bp_history (histories s);
  Ok (with_heap h s).

Definition getGHR (s : TournamentBP) (tid : Z) (bp_history : ptr) : res Z :=
  history ← load bp_history (histories s);
  Ok (h_globalHistory history).

#[export] Instance tournament_ops : BPred.BPredOps TournamentBP := {|
  BPred.uncondBranch := uncondBranch;
  BPred.lookup := lookup;
  BPred.btbUpdate := btbUpdate;
  BPred.update := update;
  BPred.retireSquashed := retireSquashed;
  BPred.squash := squash;
  BPred.getGHR := getGHR
|}.

(** ** The invariant *)

(** A record's local history index is the marker of an unconditional branch or is inside
    the local history table. *)
Definition hist_ok (table_sz : Z) (x : BPHistory) : Prop :=
  localHistoryIdx x = invalidPredictorIndex ∨ 0 ≤ localHistoryIdx x < table_sz.

Record wf (n : Z) (s : TournamentBP) : Prop := {
  wf_local_size : table_size (localPredictorSize s);
  wf_table_size : table_size (localHistoryTableSize s);
  wf_global_size : table_size (globalPredictorSize s);
  wf_choice_size : table_size (choicePredictorSize s);
  wf_bits : 1 ≤ localCtrBits s ≤ 8 ∧ 1 ≤ globalCtrBits s ≤ 8 ∧ 1 ≤ choiceCtrBits s ≤ 8;
  wf_local_mask : localPredictorMask s = localPredictorSize s - 1;
  wf_global_mask : globalHistoryMask s = globalPredictorSize s - 1;
  wf_choice_mask : choiceHistoryMask s = choicePredictorSize s - 1;
  wf_reg_mask : in_width 32 (historyRegisterMask s);
  wf_local : counters_wf (localPredictorSize s) (localCtrBits s) (localCtrs s);
  wf_global : counters_wf (globalPredictorSize s) (globalCtrBits s) (globalCtrs s);
  wf_choice : counters_wf (choicePredictorSize s) (choiceCtrBits s) (choiceCtrs s);
  wf_table : vsize (localHistoryTable s) = localHistoryTableSize s;
  wf_threads : vsize (globalHistory s) = n;
  wf_heap : heap_wf (hist_ok (localHistoryTableSize s)) (histories s)
}.

(** Only the tables, registers and records change after construction. *)
Lemma wf_dyn n s lc lh gc gh cc h :
  wf n s →
  counters_wf (localPredictorSize s) (localCtrBits s) lc →
  counters_wf (globalPredictorSize s) (globalCtrBits s) gc →
  counters_wf (choicePredictorSize s) (choiceCtrBits s) cc →
  vsize lh = localHistoryTableSize s → vsize gh = n →
  heap_wf (hist_ok (localHistoryTableSize s)) h →
  wf n (with_dyn lc lh gc gh cc h s).
Proof. intros [] ? ? ? ? ? ?. by constructor. Qed.

Lemma table_land n x : table_size n → 0 ≤ Z.land x (n - 1) < n.
Proof. intros (k & Hk & ->). apply land_pred_pow2_range. lia. Qed.

Lemma locHistIdx_ok n s pc : wf n s → 0 ≤ calcLocHistIdx s pc < localHistoryTableSize s.
Proof.
  intros Hw. pose proof (wf_table_size n s Hw) as Hs. pose proof (table_size_pos _ Hs).
  unfold calcLocHistIdx. rewrite (wrap_small 32 (localHistoryTableSize s - 1)) by (split; lia).
  by apply table_index.
Qed.

Lemma locHistIdx_valid n s pc : wf n s → calcLocHistIdx s pc ≠ invalidPredictorIndex.
Proof.
  intros Hw. pose proof (locHistIdx_ok n s pc Hw).
  pose proof (wf_table_size n s Hw) as (k & Hk & Hs).
  assert (2 ^ k ≤ 2 ^ 31) by (apply Z.pow_le_mono_r; lia).
  change invalidPredictorIndex with (2 ^ 32 - 1). lia.
Qed.

Lemma u32_mask l : 0 ≤ l < 32 → u32 (Bitfield.mask l) = 2 ^ l - 1.
Proof.
  intros Hl. rewrite Bitfield.mask_ones by lia. rewrite Z.ones_equiv, <- Z.sub_1_r.
  pose proof (pow2_pos l ltac:(lia)). assert (2 ^ l < 2 ^ 32) by (apply Z.pow_lt_mono_r; lia).
  apply wrap_small. split; lia.
Qed.

Lemma newTournament_ok shift threads local_size local_bits table_sz global_size global_bits
    choice_size choice_bits :
  0 ≤ threads → Forall (λ x, in_width 32 x ∧ 0 < x) [local_size; table_sz; global_size; choice_size] →
  1 ≤ local_bits ≤ 8 → 1 ≤ global_bits ≤ 8 → 1 ≤ choice_bits ≤ 8 →
  match newTournament shift threads local_size local_bits table_sz global_size global_bits
    choice_size choice_bits with
  | Ok s => wf threads s
  | Fail e => e = Fatal ∧ forallb (isPowerOf2 32) [local_size; table_sz; global_size; choice_size] = false
  end.
Proof.
  intros Ht Hsz Hlb Hgb Hcb. rewrite !Forall_cons, Forall_nil in Hsz.
  destruct Hsz as ([Hl Hl0] & [Htb Htb0] & [Hg Hg0] & [Hc Hc0] & _).
  assert (∀ x, in_width 32 x → 0 < x → ∃ l, ceilLog2 x = Ok l) as Hlog.
  { intros x Hx H0. rewrite ceilLog2_log2_up; [by eexists|done|]. unfold in_width in *.
    assert (2 ^ 32 < 2 ^ 64) by (apply Z.pow_lt_mono_r; lia). lia. }
  destruct (Hlog local_size) as (ll & Hll); [done..|].
  destruct (Hlog global_size) as (lg & Hlg); [done..|].
  destruct (Hlog choice_size) as (lc & Hlc); [done..|].
  unfold newTournament. rewrite Hll, Hlg, Hlc. cbn [mbind res_bind forallb].
  destruct (isPowerOf2 32 local_size) eqn:El; cbn [negb]; [|done].
  destruct (isPowerOf2 32 global_size) eqn:Eg; cbn [negb]; [|cbn; by rewrite !andb_false_r].
  pose proof (table_size_isPowerOf2 _ Hl El) as Hls.
  pose proof (table_size_isPowerOf2 _ Hg Eg) as Hgs.
  destruct (new_counters_ok local_size local_bits) as (cl & -> & Hcl); [lia..|]. cbn [mbind res_bind].
  destruct (isPowerOf2 32 table_sz) eqn:Et; cbn [negb]; [|done].
  pose proof (table_size_isPowerOf2 _ Htb Et) as Hts.
  rewrite vfor_all by (rewrite vsize_replicate; lia). cbn [mbind res_bind].
  destruct (new_counters_ok global_size global_bits) as (cg & -> & Hcg); [lia..|]. cbn [mbind res_bind].
  destruct (isPowerOf2 32 choice_size) eqn:Ec; cbn [negb]; [|done].
  pose proof (table_size_isPowerOf2 _ Hc Ec) as Hcs.
  destruct (new_counters_ok choice_size choice_bits) as (cc & -> & Hcc); [lia..|]. cbn [mbind res_bind].
  destruct (table_mask _ _ Hls Hll) as [_ Hml].
  destruct (table_mask _ _ Hgs Hlg) as [Hlg' Hmg]. destruct (table_mask _ _ Hcs Hlc) as [Hlc' Hmc].
  pose proof (table_size_pos _ Hgs). pose proof (table_size_pos _ Hcs).
  rewrite (wrap_small 32 (global_size - 1)), (wrap_small 32 (choice_size - 1)) by (split; lia).
  set (g := if lc <? lg then lg else lc).
  assert (global_size - 1 ≤ u32 (Bitfield.mask g) ∧ choice_size - 1 ≤ u32 (Bitfield.mask g)) as [H1 H2].
  { rewrite <- Hmg, <- Hmc, !u32_mask by (subst g; destruct (lc <? lg); lia). subst g.
    pose proof (Z.pow_le_mono_r 2 lc lg). pose proof (Z.pow_le_mono_r 2 lg lc).
    destruct (Z.ltb_spec lc lg); lia. }
  destruct (Z.ltb_spec (u32 (Bitfield.mask g)) (global_size - 1)); [lia|].
  destruct (Z.ltb_spec (u32 (Bitfield.mask g)) (choice_size - 1)); [lia|].
  constructor; cbn -[empty_heap]; try done.
  - by apply wrap_range.
  - unfold vsize. rewrite length_fmap, length_replicate. lia.
  - by apply vsize_replicate.
Qed.

(** ** The operations on a well-formed state *)

(** Shifting an outcome into a local history, which is not masked. *)
Definition local_shift (l : Z) (taken : bool) : Z := Z.lor (u32 (Z.shiftl l 1)) (Z.b2z taken).

Definition saved (s : TournamentBP) (p : ptr) : option Z := peek h_globalHistory (histories s) p.

Definition local_at (s : TournamentBP) (pc : Z) : Z :=
  reg_at (localHistoryTable s) (calcLocHistIdx s pc).

(** The record a lookup stores. *)
Definition lookup_record (s : TournamentBP) (tid pc : Z) : option BPHistory :=
  let g := reg_at (globalHistory s) tid in
  let l := Z.land (local_at s pc) (localPredictorMask s) in
  lc ← localCtrs s !! Z.to_nat l;
  gc ← globalCtrs s !! Z.to_nat (Z.land g (globalHistoryMask s));
  cc ← choiceCtrs s !! Z.to_nat (Z.land g (choiceHistoryMask s));
  Some (mkBPHistory g (calcLocHistIdx s pc) l (localThreshold s <? SatCounter.read lc)
          (globalThreshold s <? SatCounter.read gc) (choiceThreshold s <? SatCounter.read cc)).

Definition final_pred (x : BPHistory) : bool :=
  if globalUsed x then globalPredTaken x else localPredTaken x.

(** The state after a prediction [t] with record [x]. *)
Definition predicted (s : TournamentBP) (tid pc : Z) (x : BPHistory) (t : bool) : TournamentBP :=
  with_dyn (localCtrs s)
    (<[Z.to_nat (calcLocHistIdx s pc) := local_shift (local_at s pc) t]> (localHistoryTable s))
    (globalCtrs s)
    (<[Z.to_nat tid := BPred.push_ghr (historyRegisterMask s) (reg_at (globalHistory s) tid) t]>
       (globalHistory s))
    (choiceCtrs s) (new x (histories s)).1 s.

Lemma updateGlobalHist_ok n s tid (t : bool) :
  wf n s → 0 ≤ tid < n →
  (if t then updateGlobalHistTaken s tid else updateGlobalHistNotTaken s tid) =
  Ok (with_globalHistory
        (<[Z.to_nat tid := BPred.push_ghr (historyRegisterMask s) (reg_at (globalHistory s) tid) t]>
           (globalHistory s)) s).
Proof.
  intros Hw Ht. pose proof (wf_threads n s Hw) as Hn.
  unfold updateGlobalHistTaken, updateGlobalHistNotTaken.
  rewrite <- push_ghr_if, reg_read by lia. cbn [mbind res_bind].
  destruct t; by rewrite vwrite_ok by lia.
Qed.

Lemma updateLocalHist_ok s i (t : bool) :
  0 ≤ i < vsize (localHistoryTable s) →
  (if t then updateLocalHistTaken s i else updateLocalHistNotTaken s i) =
  Ok (with_localTable
        (<[Z.to_nat i := local_shift (reg_at (localHistoryTable s) i) t]> (localHistoryTable s)) s).
Proof.
  intros Hi. unfold updateLocalHistTaken, updateLocalHistNotTaken, local_shift.
  rewrite reg_read by lia. cbn [mbind res_bind].
  destruct t; rewrite vwrite_ok by lia; [done|]. by rewrite Z.lor_0_r.
Qed.

Lemma wf_predicted n s tid pc x t :
  wf n s → hist_ok (localHistoryTableSize s) x → wf n (predicted s tid pc x t).
Proof.
  intros Hw Hx. apply wf_dyn; try apply Hw; rewrite ?vsize_insert; try apply Hw.
  apply heap_wf_new; [apply Hw|done].
Qed.

Lemma tournament_counters_read n s tid pc :
  wf n s → ∃ lc gc cc,
    let g := reg_at (globalHistory s) tid in
    vread (localCtrs s) (Z.land (local_at s pc) (localPredictorMask s)) = Ok lc ∧
    SatCounter.wf (localCtrBits s) lc ∧
    vread (globalCtrs s) (Z.land g (globalHistoryMask s)) = Ok gc ∧
    SatCounter.wf (globalCtrBits s) gc ∧
    vread (choiceCtrs s) (Z.land g (choiceHistoryMask s)) = Ok cc ∧
    SatCounter.wf (choiceCtrBits s) cc.
Proof.
  intros Hw. destruct (wf_local n s Hw) as [Hs1 Hf1], (wf_global n s Hw) as [Hs2 Hf2],
    (wf_choice n s Hw) as [Hs3 Hf3].
  rewrite (wf_local_mask n s Hw), (wf_global_mask n s Hw), (wf_choice_mask n s Hw).
  pose proof (table_land _ (local_at s pc) (wf_local_size n s Hw)).
  pose proof (table_land _ (reg_at (globalHistory s) tid) (wf_global_size n s Hw)).
  pose proof (table_land _ (reg_at (globalHistory s) tid) (wf_choice_size n s Hw)).
  destruct (vread_ok (localCtrs s) (Z.land (local_at s pc) (localPredictorSize s - 1)))
    as (lc & Hl1 & Hl2); [lia|].
  destruct (vread_ok (globalCtrs s) (Z.land (reg_at (globalHistory s) tid) (globalPredictorSize s - 1)))
    as (gc & Hg1 & Hg2); [lia|].
  destruct (vread_ok (choiceCtrs s) (Z.land (reg_at (globalHistory s) tid) (choicePredictorSize s - 1)))
    as (cc & Hc1 & Hc2); [lia|].
  pose proof (Forall_lookup_1 _ _ _ _ Hf1 Hl2). pose proof (Forall_lookup_1 _ _ _ _ Hf2 Hg2).
  pose proof (Forall_lookup_1 _ _ _ _ Hf3 Hc2). by exists lc, gc, cc.
Qed.

Lemma tournament_lookup_ok n s tid pc :
  wf n s → 0 ≤ tid < n →
  ∃ x, lookup_record s tid pc = Some x ∧ h_globalHistory x = reg_at (globalHistory s) tid ∧
    lookup s tid pc = Ok (predicted s tid pc x (final_pred x), final_pred x, (new x (histories s)).2) ∧
    wf n (predicted s tid pc x (final_pred x)).
Proof.
  intros Hw Ht. pose proof (locHistIdx_ok n s pc Hw) as Hi.
  pose proof (wf_table n s Hw) as Htb. pose proof (wf_threads n s Hw) as Hn.
  destruct (tournament_counters_read n s tid pc Hw) as (lc & gc & cc & Hl & _ & Hg & _ & Hc & _).
  pose proof (proj2 (vread_inv _ _ _ Hl)) as Hl'. pose proof (proj2 (vread_inv _ _ _ Hg)) as Hg'.
  pose proof (proj2 (vread_inv _ _ _ Hc)) as Hc'.
  unfold lookup_record. rewrite Hl', Hg', Hc'. eexists. split; [done|]. split; [done|].
  split; [|apply wf_predicted; [done|by right]].
  unfold lookup. rewrite (reg_read (localHistoryTable s)) by lia. cbn [mbind res_bind].
  fold (local_at s pc). rewrite Hl. cbn [mbind res_bind].
  rewrite (reg_read (globalHistory s)) by lia. cbn [mbind res_bind]. rewrite Hg, Hc. cbn [mbind res_bind].
  set (x := mkBPHistory _ _ _ _ _ _). unfold new at 1.
  change (mkHeap _ _) with (new x (histories s)).1. set (s1 := with_heap _ s).
  change (localHistoryTableSize s1) with (localHistoryTableSize s).
  rewrite bind_assert by (apply Z.ltb_lt; lia).
  assert (wf n s1) as Hw1.
  { apply wf_dyn; try apply Hw. apply heap_wf_new; [apply Hw|by right]. }
  pose proof (updateGlobalHist_ok n s1 tid) as HG.
  pose proof (λ t, updateLocalHist_ok (with_globalHistory
        (<[Z.to_nat tid := BPred.push_ghr (historyRegisterMask s1) (reg_at (globalHistory s1) tid) t]>
           (globalHistory s1)) s1) (calcLocHistIdx s pc) t) as HL.
  cbn [with_globalHistory with_dyn localHistoryTable] in HL.
  change (localHistoryTable s1) with (localHistoryTable s) in HL. rewrite Htb in HL.
  unfold final_pred, x. cbn [globalUsed globalPredTaken localPredTaken].
  destruct (choiceThreshold s <? SatCounter.read cc), (globalThreshold s <? SatCounter.read gc),
    (localThreshold s <? SatCounter.read lc);
  first [ rewrite (HG true Hw1 Ht : updateGlobalHistTaken s1 tid = _); cbn [mbind res_bind];
          rewrite (HL true Hi : updateLocalHistTaken _ _ = _); reflexivity
        | rewrite (HG false Hw1 Ht : updateGlobalHistNotTaken s1 tid = _); cbn [mbind res_bind];
          rewrite (HL false Hi : updateLocalHistNotTaken _ _ = _); reflexivity ].
Qed.

(** A record of a conditional branch, as opposed to an unconditional one. *)
Definition conditional (x : BPHistory) : bool := negb (localHistory x =? invalidPredictorIndex).

(** The counters trained with the outcome [taken] of the branch recorded in [x]. *)
Definition trained (s : TournamentBP) (taken : bool) (x : BPHistory) : TournamentBP :=
  with_ctrs
    (if conditional x
     then alter (SatCounter.train taken)
            (Z.to_nat (Z.land (localHistory x) (localPredictorMask s))) (localCtrs s)
     else localCtrs s)
    (alter (SatCounter.train taken)
       (Z.to_nat (Z.land (h_globalHistory x) (globalHistoryMask s))) (globalCtrs s))
    (if eqb (localPredTaken x) (globalPredTaken x) then choiceCtrs s
     else alter (SatCounter.train (eqb (globalPredTaken x) taken))
            (Z.to_nat (Z.land (h_globalHistory x) (choiceHistoryMask s))) (choiceCtrs s))
    s.

(** The histories corrected for a mispredicted branch. *)
Definition corrected (s : TournamentBP) (tid pc : Z) (taken : bool) (x : BPHistory) : TournamentBP :=
  with_dyn (localCtrs s)
    (if conditional x
     then <[Z.to_nat (calcLocHistIdx s pc) := local_shift (localHistory x) taken]> (localHistoryTable s)
     else localHistoryTable s)
    (globalCtrs s)
    (<[Z.to_nat tid := BPred.push_ghr (historyRegisterMask s) (h_globalHistory x) taken]>
       (globalHistory s))
    (choiceCtrs s) (histories s) s.

Lemma table_indices n s x :
  wf n s →
  0 ≤ Z.land (localHistory x) (localPredictorMask s) < vsize (localCtrs s) ∧
  0 ≤ Z.land (h_globalHistory x) (globalHistoryMask s) < vsize (globalCtrs s) ∧
  0 ≤ Z.land (h_globalHistory x) (choiceHistoryMask s) < vsize (choiceCtrs s) ∧
  vsize (localCtrs s) = localPredictorSize s.
Proof.
  intros Hw. destruct (wf_local n s Hw) as [-> _], (wf_global n s Hw) as [-> _],
    (wf_choice n s Hw) as [-> _].
  rewrite (wf_local_mask n s Hw), (wf_global_mask n s Hw), (wf_choice_mask n s Hw).
  split_and!; try done; apply table_land, Hw.
Qed.

Lemma update_counters_ok n s taken x :
  wf n s →
  update_counters s taken x (Z.land (localHistory x) (localPredictorMask s)) (conditional x) =
  Ok (trained s taken x).
Proof.
  intros Hw. destruct (table_indices n s x Hw) as (Hl & Hg & Hc & _).
  unfold update_counters, trained. rewrite !vmodify_ok by done.
  destruct (localPredTaken x), (globalPredTaken x), taken, (conditional x); reflexivity.
Qed.

Lemma counters_wf_train n bits taken l i :
  0 ≤ bits ≤ 8 → counters_wf n bits l → counters_wf n bits (alter (SatCounter.train taken) i l).
Proof.
  intros Hb [Hs Hf]. split; [by rewrite vsize_alter|]. apply Forall_alter; [done|].
  intros y _ Hy. by apply SatCounter.wf_train.
Qed.

Lemma tournament_wf_trained n s taken x : wf n s → wf n (trained s taken x).
Proof.
  intros Hw. destruct (wf_bits n s Hw) as (? & ? & ?).
  apply wf_dyn; try apply Hw.
  - destruct (conditional x); [|apply Hw]. apply counters_wf_train; [lia|apply Hw].
  - apply counters_wf_train; [lia|apply Hw].
  - destruct (eqb _ _); [apply Hw|]. apply counters_wf_train; [lia|apply Hw].
Qed.

Lemma wf_corrected n s tid pc taken x : wf n s → wf n (corrected s tid pc taken x).
Proof.
  intros Hw. apply wf_dyn; try apply Hw.
  - destruct (conditional x); rewrite ?vsize_insert; apply Hw.
  - rewrite vsize_insert. apply Hw.
Qed.

Lemma tournament_update_ok n s tid pc taken p squashed x :
  wf n s → 0 ≤ tid < n → load p (histories s) = Ok x →
  update s tid pc taken p squashed =
    let s1 := if negb (eqb (final_pred x) taken) || negb squashed then trained s taken x else s in
    if squashed then Ok (corrected s1 tid pc taken x)
    else h ← free p (histories s); Ok (with_heap h s1).
Proof.
  intros Hw Ht Hl. pose proof (locHistIdx_ok n s pc Hw) as Hi.
  pose proof (wf_table n s Hw) as Htb. pose proof (wf_threads n s Hw) as Hn.
  destruct (table_indices n s x Hw) as (Hlx & _ & _ & Hls).
  unfold update. rewrite reg_read by lia. cbn [mbind res_bind].
  rewrite bool_decide_false by (intros ->; done). rewrite Hl. cbn [mbind res_bind].
  rewrite bind_assert by (apply Z.ltb_lt; lia).
  fold (conditional x) (final_pred x). rewrite (update_counters_ok n s taken x Hw).
  assert ((calcLocHistIdx s pc <? localHistoryTableSize s) = true) as Hb by (apply Z.ltb_lt; lia).
  unfold corrected, local_shift. rewrite <- !push_ghr_if.
  destruct (negb (eqb (final_pred x) taken) || negb squashed), squashed, taken, (conditional x) eqn:Hcx;
    cbn -[insert alter wrap Z.land Z.lor vwrite free assert_ Z.shiftl Z.ltb];
    rewrite ?vwrite_ok by lia;
    cbn -[insert alter wrap Z.land Z.lor vwrite free assert_ Z.shiftl Z.ltb];
    rewrite ?vwrite_ok by lia;
    cbn -[insert alter wrap Z.land Z.lor vwrite free assert_ Z.shiftl Z.ltb];
    rewrite ?Z.lor_0_r, ?Hb; try done.
  all: destruct (free p (histories s)); [|done]; cbn -[Z.ltb]; by rewrite Hb.
Qed.

(** The record and state of an unconditional branch. *)
Definition uncond_record (s : TournamentBP) (tid : Z) : BPHistory :=
  mkBPHistory (reg_at (globalHistory s) tid) invalidPredictorIndex invalidPredictorIndex true true true.

Lemma tournament_uncondBranch_ok n s tid pc :
  wf n s → 0 ≤ tid < n →
  let x := uncond_record s tid in
  let s' := with_dyn (localCtrs s) (localHistoryTable s) (globalCtrs s)
    (<[Z.to_nat tid := BPred.push_ghr (historyRegisterMask s) (reg_at (globalHistory s) tid) true]>
       (globalHistory s))
    (choiceCtrs s) (new x (histories s)).1 s in
  uncondBranch s tid pc = Ok (s', (new x (histories s)).2) ∧ wf n s'.
Proof.
  intros Hw Ht x s'. pose proof (wf_threads n s Hw) as Hn.
  assert (heap_wf (hist_ok (localHistoryTableSize s)) (new x (histories s)).1) as Hh
    by (apply heap_wf_new; [apply Hw|by left]).
  split; [|apply wf_dyn; try apply Hw; [by rewrite vsize_insert|done]].
  unfold uncondBranch. rewrite reg_read by lia. cbn [mbind res_bind].
  fold (uncond_record s tid) x. unfold new at 1. change (mkHeap _ _) with (new x (histories s)).1.
  assert (wf n (with_heap (new x (histories s)).1 s)) as Hw1 by (apply wf_dyn; try apply Hw; done).
  rewrite (updateGlobalHist_ok n _ tid true Hw1 Ht : updateGlobalHistTaken _ tid = _). done.
Qed.

(** The state [squash] leaves, from the record [x]. *)
Definition restored (s : TournamentBP) (tid : Z) (x : BPHistory) (h : heap BPHistory) : TournamentBP :=
  with_dyn (localCtrs s)
    (if localHistoryIdx x =? invalidPredictorIndex then localHistoryTable s
     else <[Z.to_nat (localHistoryIdx x) := localHistory x]> (localHistoryTable s))
    (globalCtrs s) (<[Z.to_nat tid := h_globalHistory x]> (globalHistory s)) (choiceCtrs s) h s.

Lemma tournament_squash_ok n s tid p x g :
  wf n s → 0 ≤ tid < n → load p (histories s) = Ok x → saved s p = Some g →
  ∃ h, free p (histories s) = Ok h ∧ squash s tid p = Ok (restored s tid x h) ∧
    wf n (restored s tid x h) ∧ saved (restored s tid x h) p = None ∧
    ∀ q, q ≠ p ∨ q = None → saved (restored s tid x h) q = saved s q.
Proof.
  intros Hw Ht Hl Hp. pose proof (wf_threads n s Hw) as Hn. pose proof (wf_table n s Hw) as Htb.
  pose proof (load_wf _ _ _ _ (wf_heap n s Hw) Hl) as Hx.
  destruct (free_ok _ _ _ _ _ (wf_heap n s Hw) Hp) as (h & Hf & Hwh & Hpn & Hq).
  exists h. split; [done|]. split; [|split_and!; try done].
  - unfold squash, restored. rewrite Hl. cbn [mbind res_bind]. rewrite vwrite_ok by lia.
    cbn [mbind res_bind with_globalHistory with_dyn localHistoryTable histories].
    destruct (Z.eqb_spec (localHistoryIdx x) invalidPredictorIndex) as [He|He]; cbn [negb].
    + cbn -[free insert]. by rewrite Hf.
    + destruct Hx as [Hx|Hx]; [done|]. rewrite vwrite_ok by lia.
      cbn -[free insert]. by rewrite Hf.
  - apply wf_dyn; try apply Hw; rewrite ?vsize_insert; try apply Hw; try done.
    case_match; rewrite ?vsize_insert; apply Hw.
Qed.

#[export] Instance tournament_laws : BPred.BPredLaws TournamentBP.
Proof.
  refine {| BPred.bp_wf := wf; BPred.ghr := λ s, reg_at (globalHistory s);
            BPred.hist_mask := historyRegisterMask; BPred.saved := saved |}.
  - intros n s tid pc Hw Ht. destruct (tournament_lookup_ok n s tid pc Hw Ht) as (x & _ & Hg & Hl & Hw').
    pose proof (wf_threads n s Hw) as Hn.
    destruct (reg_write (globalHistory s) tid (BPred.push_ghr (historyRegisterMask s)
      (reg_at (globalHistory s) tid) (final_pred x)) ltac:(lia)) as [H1 H2].
    destruct (peek_new h_globalHistory _ x _ None (wf_heap n s Hw)) as (H3 & H4 & _).
    eexists _, _, _. split; [exact Hl|]. split_and!; try done; [by right| |by rewrite <- Hg].
    intros q. by destruct (peek_new h_globalHistory _ x _ q (wf_heap n s Hw)) as (_ & _ & _ & H5).
  - intros n s tid pc Hw Ht. destruct (tournament_uncondBranch_ok n s tid pc Hw Ht) as (Hl & Hw').
    pose proof (wf_threads n s Hw) as Hn. set (x := uncond_record s tid) in *.
    destruct (reg_write (globalHistory s) tid (BPred.push_ghr (historyRegisterMask s)
      (reg_at (globalHistory s) tid) true) ltac:(lia)) as [H1 H2].
    destruct (peek_new h_globalHistory _ x _ None (wf_heap n s Hw)) as (H3 & H4 & _).
    eexists _, _. split; [exact Hl|]. split_and!; try done; [by right|].
    intros q. by destruct (peek_new h_globalHistory _ x _ q (wf_heap n s Hw)) as (_ & _ & _ & H5).
  - intros n s tid pc p g Hw Ht Hg. pose proof (wf_threads n s Hw) as Hn.
    pose proof (wf_table n s Hw) as Htb. pose proof (locHistIdx_ok n s pc Hw).
    cbn. unfold btbUpdate. rewrite (reg_read (globalHistory s)) by lia. cbn [mbind res_bind].
    rewrite Hg, BPred.push_ghr_clear, vwrite_ok by (apply Hw || lia). cbn [mbind res_bind].
    rewrite reg_read by lia. cbn [mbind res_bind]. rewrite vwrite_ok by lia.
    match goal with |- context [with_globalHistory (<[_ := ?g']> _)] =>
      destruct (reg_write (globalHistory s) tid g' ltac:(lia)) as [H1 H2] end.
    eexists. split; [done|]. split_and!; try done.
    apply (wf_dyn n s); try apply Hw; cbn -[insert]; rewrite vsize_insert; apply Hw.
  - intros n s tid pc taken p g squashed Hw Ht Hp. pose proof (wf_threads n s Hw) as Hn.
    destruct (load_peek _ _ _ _ Hp) as (x & Hx & Hg & _). cbn.
    rewrite (tournament_update_ok n s tid pc taken p squashed x Hw Ht Hx).
    set (s1 := if negb (eqb (final_pred x) taken) || negb squashed then trained s taken x else s).
    assert (wf n s1) as Hw1 by (subst s1; case_match; [by apply tournament_wf_trained|done]).
    assert (globalHistory s1 = globalHistory s ∧ histories s1 = histories s ∧
      historyRegisterMask s1 = historyRegisterMask s) as (E1 & E2 & E3) by (subst s1; by case_match).
    destruct squashed; cbv zeta.
    + destruct (reg_write (globalHistory s) tid
        (BPred.push_ghr (historyRegisterMask s) g taken) ltac:(lia)) as [H1 H2].
      eexists. split; [done|]. unfold BPred.frame. cbn -[insert]. unfold saved. cbn -[insert].
      rewrite E1, E2, E3, Hg. split_and!; try done. by apply wf_corrected.
    + destruct (free_ok _ _ _ _ _ (wf_heap n s Hw) Hp) as (h & Hf & Hwh & _ & Hq). rewrite Hf.
      eexists. split; [done|]. unfold BPred.frame. cbn. rewrite E1, E3.
      split_and!; try done. apply wf_dyn; try apply Hw1.
      replace (localHistoryTableSize s1) with (localHistoryTableSize s); [done|].
      subst s1. by case_match.
  - intros n s tid p g Hw Ht Hp.
    destruct (free_ok _ _ _ _ _ (wf_heap n s Hw) Hp) as (h & Hf & Hwh & _ & Hq).
    cbn. unfold retireSquashed. rewrite Hf. eexists. split; [done|].
    split_and!; try done. apply wf_dyn; try apply Hw; done.
  - intros n s tid p g Hw Ht Hp. pose proof (wf_threads n s Hw) as Hn.
    destruct (load_peek _ _ _ _ Hp) as (x & Hx & Hg & _).
    destruct (tournament_squash_ok n s tid p x g Hw Ht Hx Hp) as (h & _ & Hs & Hw' & _ & Hq).
    destruct (reg_write (globalHistory s) tid g ltac:(lia)) as [H1 H2].
    eexists. split; [exact Hs|]. unfold BPred.frame. cbn -[insert]. rewrite Hg.
    split_and!; try done.
  - intros n s tid p g Hw Hp. destruct (load_peek _ _ _ _ Hp) as (x & Hx & Hg & _).
    cbn. unfold getGHR. rewrite Hx. cbn. by rewrite Hg.
Defined.

(** The thresholds as the constructor sets them. *)
Definition thresholds_set (s : TournamentBP) : Prop :=
  localThreshold s = threshold (localCtrBits s) ∧ globalThreshold s = threshold (globalCtrBits s) ∧
  choiceThreshold s = threshold (choiceCtrBits s).

(** Tournament prediction: the most significant bit of the choice counter of the
    global history selects the global or the local predictor, whose counter's most
    significant bit is the prediction.  The lookup shifts the prediction into the global
    and the local history and touches no counter.  When the branch commits, both
    predictors' counters learn the outcome, the choice counter moves towards the predictor
    that was right exactly when the two disagreed, and the record is freed. *)
Theorem tournament_predicts_and_trains n s tid pc (taken : bool) :
  wf n s → thresholds_set s → 0 ≤ tid < n →
  let msb bits c := Z.testbit (SatCounter.read c) (bits - 1) in
  let g := reg_at (globalHistory s) tid in
  let li := Z.to_nat (Z.land (local_at s pc) (localPredictorMask s)) in
  let gi := Z.to_nat (Z.land g (globalHistoryMask s)) in
  let ci := Z.to_nat (Z.land g (choiceHistoryMask s)) in
  ∃ lc gc cc s1 p s2,
    localCtrs s !! li = Some lc ∧ globalCtrs s !! gi = Some gc ∧ choiceCtrs s !! ci = Some cc ∧
    let lp := msb (localCtrBits s) lc in
    let gp := msb (globalCtrBits s) gc in
    let pred := if msb (choiceCtrBits s) cc then gp else lp in
    lookup s tid pc = Ok (s1, pred, p) ∧
    localCtrs s1 = localCtrs s ∧ globalCtrs s1 = globalCtrs s ∧ choiceCtrs s1 = choiceCtrs s ∧
    reg_at (globalHistory s1) tid = BPred.push_ghr (historyRegisterMask s) g pred ∧
    local_at s1 pc = local_shift (local_at s pc) pred ∧
    update s1 tid pc taken p false = Ok s2 ∧ wf n s2 ∧ saved s2 p = None ∧
    localCtrs s2 = alter (SatCounter.train taken) li (localCtrs s) ∧
    globalCtrs s2 = alter (SatCounter.train taken) gi (globalCtrs s) ∧
    choiceCtrs s2 = (if eqb lp gp then choiceCtrs s
                     else alter (SatCounter.train (eqb gp taken)) ci (choiceCtrs s)).
Proof.
  intros Hw (Ht1 & Ht2 & Ht3) Ht msb g li gi ci. destruct (wf_bits n s Hw) as (Hlb & Hgb & Hcb).
  pose proof (wf_threads n s Hw) as Hn. pose proof (wf_table n s Hw) as Htb.
  pose proof (locHistIdx_ok n s pc Hw) as Hi.
  destruct (tournament_counters_read n s tid pc Hw) as (lc & gc & cc & Hlc & Hwl & Hgc & Hwg & Hcc & Hwc).
  apply vread_inv in Hlc as [_ Hlc]. apply vread_inv in Hgc as [_ Hgc]. apply vread_inv in Hcc as [_ Hcc].
  destruct (tournament_lookup_ok n s tid pc Hw Ht) as (x & Hx & Hg & Hl & Hw1).
  unfold lookup_record in Hx. rewrite Hlc, Hgc, Hcc in Hx. cbn in Hx. injection Hx as Hx.
  rewrite Ht1, Ht2, Ht3, (threshold_msb _ lc), (threshold_msb _ gc), (threshold_msb _ cc) in Hx by done.
  set (p := (new x (histories s)).2) in *. set (s1 := predicted s tid pc x (final_pred x)) in *.
  assert (load p (histories s1) = Ok x) as Hld. { unfold load. cbn. by rewrite lookup_insert_eq. }
  assert (saved s1 p = Some (h_globalHistory x)) as Hp.
  { by destruct (peek_new h_globalHistory _ x _ None (wf_heap n s Hw)). }
  destruct (free_ok _ _ _ _ _ (wf_heap n s1 Hw1) Hp) as (h & Hf & Hwh & Hpn & _).
  pose proof (tournament_update_ok n s1 tid pc taken p false x Hw1 Ht Hld) as Hu.
  rewrite Hf, orb_true_r in Hu. cbv zeta in Hu. cbn [mbind res_bind] in Hu.
  assert (conditional x = true) as Hcond.
  { rewrite <- Hx. unfold conditional. cbn. apply negb_true_iff, Z.eqb_neq.
    pose proof (table_land _ (local_at s pc) (wf_local_size n s Hw)) as Hll.
    rewrite <- (wf_local_mask n s Hw) in Hll. destruct (wf_local_size n s Hw) as (k & Hk & Hs).
    assert (2 ^ k ≤ 2 ^ 31) by (apply Z.pow_le_mono_r; lia).
    change invalidPredictorIndex with (2 ^ 32 - 1). lia. }
  assert (final_pred x = if msb (choiceCtrBits s) cc then msb (globalCtrBits s) gc
                         else msb (localCtrBits s) lc) as Hfin by by rewrite <- Hx.
  exists lc, gc, cc, s1, p. eexists. split_and!; [done..|]. cbv zeta. rewrite <- Hfin.
  destruct (reg_write (globalHistory s) tid (BPred.push_ghr (historyRegisterMask s) g (final_pred x))
    ltac:(lia)) as [HG _].
  destruct (reg_write (localHistoryTable s) (calcLocHistIdx s pc)
    (local_shift (local_at s pc) (final_pred x)) ltac:(lia)) as [HL _].
  split_and!; [done..|exact Hu| |exact Hpn| | |].
  - apply (wf_dyn n (trained s1 taken x)); try apply (tournament_wf_trained n s1 taken x Hw1). done.
  - cbn -[alter]. rewrite Hcond, <- Hx. cbn -[alter]. unfold li. do 2 f_equal.
    rewrite <- Z.land_assoc, Z.land_diag. done.
  - cbn -[alter]. rewrite <- Hx. done.
  - cbn -[alter]. rewrite <- Hx. done.
Qed.

Definition tournament_example : TournamentBP :=
  mkTournament 2 (replicate 8 (SatCounter.mkCtr 0 3 2)) 8 7 2 (replicate 4 5) 4 3
    (replicate 16 (SatCounter.mkCtr 0 3 1)) 16 2 [9; 3] 4 15 7 15
    (replicate 8 (SatCounter.mkCtr 0 3 1)) 8 2 1 1 1 empty_heap.

Lemma tournament_example_wf : wf 2 tournament_example.
Proof.
  assert (∀ k, 0 ≤ k < 32 → table_size (2 ^ k)) as Hp by (intros k Hk; by exists k).
  constructor; try (vm_compute; reflexivity); try (vm_compute; repeat split; discriminate).
  - by apply (Hp 3).
  - by apply (Hp 2).
  - by apply (Hp 4).
  - by apply (Hp 3).
  - split; [done|]. apply Forall_replicate. vm_compute. repeat split; discriminate.
  - split; [done|]. apply Forall_replicate. vm_compute. repeat split; discriminate.
  - split; [done|]. apply Forall_replicate. vm_compute. repeat split; discriminate.
Qed.

Lemma tournament_predicts_and_trains_witness :
  ∃ s1 p s2, lookup tournament_example 1 0x1000 = Ok (s1, true, p) ∧
    update s1 1 0x1000 false p false = Ok s2 ∧ saved s2 p = None.
Proof.
  destruct (tournament_predicts_and_trains 2 tournament_example 1 0x1000 false)
    as (lc & gc & cc & s1 & p & s2 & Hlc & Hgc & Hcc & Hl & _ & _ & _ & _ & _ & Hu & _ & Hs & _).
  - apply tournament_example_wf.
  - vm_compute. repeat split; reflexivity.
  - lia.
  - exists s1, p, s2.
    assert (SatCounter.mkCtr 0 3 2 = lc) as <- by (vm_compute in Hlc; congruence).
    assert (SatCounter.mkCtr 0 3 1 = gc) as <- by (vm_compute in Hgc; congruence).
    assert (SatCounter.mkCtr 0 3 1 = cc) as <- by (vm_compute in Hcc; congruence).
    split; [exact Hl|]. split; [exact Hu|exact Hs].
Defined.

(** Two states that predict every branch of every thread alike. *)
Definition same_predictions (n : Z) (s s' : TournamentBP) : Prop :=
  ∀ tid pc, 0 ≤ tid < n → lookup_record s' tid pc = lookup_record s tid pc.

Lemma restored_same_predictions n s tid x h t :
  wf n s → 0 ≤ tid < n → h_globalHistory x = reg_at (globalHistory s) tid →
  localHistoryIdx x = invalidPredictorIndex ∨
    (∃ pc, localHistoryIdx x = calcLocHistIdx s pc ∧
           localHistory x = Z.land (local_at s pc) (localPredictorMask s)) →
  ∀ s1 lt, localHistoryTable s1 = lt → localCtrs s1 = localCtrs s → globalCtrs s1 = globalCtrs s →
    choiceCtrs s1 = choiceCtrs s → globalHistory s1 = <[Z.to_nat tid := t]> (globalHistory s) →
    s1 = with_dyn (localCtrs s1) lt (globalCtrs s1) (globalHistory s1) (choiceCtrs s1) (histories s1) s →
    (if localHistoryIdx x =? invalidPredictorIndex then lt = localHistoryTable s
     else ∃ l, lt = <[Z.to_nat (localHistoryIdx x) := l]> (localHistoryTable s)) →
    same_predictions n s (restored s1 tid x h).
Proof.
  intros Hw Ht Hg Hx s1 lt Hlt Hlc Hgc Hcc Hgh Hs1 Hif tid' pc' Ht'.
  pose proof (wf_threads n s Hw) as Hn. pose proof (wf_table n s Hw) as Htb.
  unfold lookup_record, local_at. rewrite Hs1. cbn -[insert Z.land].
  rewrite Hlc, Hgc, Hcc, Hgh, list_insert_insert_eq.
  assert (reg_at (<[Z.to_nat tid := h_globalHistory x]> (globalHistory s)) tid' =
          reg_at (globalHistory s) tid') as ->.
  { destruct (reg_write (globalHistory s) tid (h_globalHistory x) ltac:(lia)) as [H1 H2].
    destruct (decide (tid' = tid)) as [->|]; [congruence|]. apply H2; lia. }
  match goal with |- context [calcLocHistIdx ?z pc'] =>
    lazymatch z with s => fail | _ => change (calcLocHistIdx z pc') with (calcLocHistIdx s pc') end end.
  match goal with |- context [Z.land (reg_at ?t ?i) ?m] =>
    assert (Z.land (reg_at t i) m = Z.land (reg_at (localHistoryTable s) i) m) as -> end; [|done].
  revert Hif. destruct (Z.eqb_spec (localHistoryIdx x) invalidPredictorIndex) as [He|He]; intros Hif;
    [by rewrite Hif|].
  destruct Hx as [Hx|(pc & Hi & Hl)]; [done|]. destruct Hif as (l & ->).
  rewrite list_insert_insert_eq, Hi, Hl. pose proof (locHistIdx_ok n s pc Hw).
  destruct (reg_write (localHistoryTable s) (calcLocHistIdx s pc)
    (Z.land (local_at s pc) (localPredictorMask s)) ltac:(lia)) as [H1 H2].
  destruct (decide (calcLocHistIdx s pc' = calcLocHistIdx s pc)) as [->|Hne].
  - rewrite H1, <- Z.land_assoc, Z.land_diag. done.
  - pose proof (locHistIdx_ok n s pc' Hw). rewrite H2; done || lia.
Qed.

(** Squashing a branch undoes its prediction: after [lookup] (or [uncondBranch]) and
    [squash] of the record it returned, the thread's global history is what it was, no
    counter has changed, the record is freed with every other record kept, and every
    branch of every thread is predicted as before.  (The local history comes back masked
    to the bits the local predictor reads.) *)
Theorem tournament_squash_undoes n s tid pc :
  wf n s → 0 ≤ tid < n →
  (∃ s1 t p s2, lookup s tid pc = Ok (s1, t, p) ∧ squash s1 tid p = Ok s2 ∧ wf n s2 ∧
    same_predictions n s s2 ∧ reg_at (globalHistory s2) tid = reg_at (globalHistory s) tid ∧
    local_at s2 pc = Z.land (local_at s pc) (localPredictorMask s) ∧
    ∀ q, saved s2 q = saved s q) ∧
  (∃ s1 p s2, uncondBranch s tid pc = Ok (s1, p) ∧ squash s1 tid p = Ok s2 ∧ wf n s2 ∧
    same_predictions n s s2 ∧ reg_at (globalHistory s2) tid = reg_at (globalHistory s) tid ∧
    localHistoryTable s2 = localHistoryTable s ∧ ∀ q, saved s2 q = saved s q).
Proof.
  intros Hw Ht. pose proof (wf_threads n s Hw) as Hn. pose proof (wf_table n s Hw) as Htb.
  assert (∀ x s1 p h, p = (new x (histories s)).2 → histories s1 = (new x (histories s)).1 →
    saved (restored s1 tid x h) p = None →
    (∀ q, q ≠ p ∨ q = None → saved (restored s1 tid x h) q = saved s1 q) →
    ∀ q, saved (restored s1 tid x h) q = saved s q) as Hsv.
  { intros x s1 p h -> Hh Hpn Hq q.
    destruct (peek_new h_globalHistory _ x _ q (wf_heap n s Hw)) as (_ & H0 & H1 & _).
    destruct (decide (q = (new x (histories s)).2)) as [->|Hne]; [by rewrite Hpn|].
    rewrite Hq by by left. unfold saved. rewrite Hh. by apply H1. }
  split.
  - destruct (tournament_lookup_ok n s tid pc Hw Ht) as (x & Hx & Hg & Hl & Hw1).
    assert (localHistoryIdx x = calcLocHistIdx s pc ∧
            localHistory x = Z.land (local_at s pc) (localPredictorMask s)) as [Hxi Hxl].
    { unfold lookup_record in Hx. clear -Hx. cbn -[Z.land] in Hx.
      repeat match type of Hx with context [?l !! ?i] => destruct (l !! i); [|done]; cbn -[Z.land] in Hx end.
      by injection Hx as <-. }
    set (s1 := predicted s tid pc x (final_pred x)) in *. set (p := (new x (histories s)).2) in *.
    assert (load p (histories s1) = Ok x) as Hld. { unfold load. cbn. by rewrite lookup_insert_eq. }
    assert (saved s1 p = Some (h_globalHistory x)) as Hp.
    { by destruct (peek_new h_globalHistory _ x _ None (wf_heap n s Hw)). }
    destruct (tournament_squash_ok n s1 tid p x _ Hw1 Ht Hld Hp) as (h & _ & Hs & Hw2 & Hpn & Hq).
    exists s1, (final_pred x), p, (restored s1 tid x h). split_and!; try done.
    + eapply (restored_same_predictions n s tid x h _ Hw Ht Hg); try done; [by right; exists pc|].
      rewrite Hxi. destruct (Z.eqb_spec (calcLocHistIdx s pc) invalidPredictorIndex).
      { by destruct (locHistIdx_valid n s pc Hw). } by eexists.
    + cbn -[insert]. rewrite list_insert_insert_eq, Hg. refine (proj1 (reg_write _ _ _ _)). lia.
    + unfold local_at at 1. cbn -[insert Z.land]. rewrite Hxi.
      destruct (Z.eqb_spec (calcLocHistIdx s pc) invalidPredictorIndex).
      { by destruct (locHistIdx_valid n s pc Hw). }
      pose proof (locHistIdx_ok n s pc Hw).
      rewrite list_insert_insert_eq, Hxl.
      change (calcLocHistIdx (restored s1 tid x h) pc) with (calcLocHistIdx s pc).
      refine (proj1 (reg_write _ _ _ _)). lia.
    + by apply (Hsv x s1 p h).
  - destruct (tournament_uncondBranch_ok n s tid pc Hw Ht) as (Hl & Hw1).
    set (x := uncond_record s tid) in *. set (p := (new x (histories s)).2) in *.
    match type of Hl with _ = Ok (?t, _) => set (s1 := t) in * end.
    assert (load p (histories s1) = Ok x) as Hld. { unfold load. cbn. by rewrite lookup_insert_eq. }
    assert (saved s1 p = Some (h_globalHistory x)) as Hp.
    { by destruct (peek_new h_globalHistory _ x _ None (wf_heap n s Hw)). }
    destruct (tournament_squash_ok n s1 tid p x _ Hw1 Ht Hld Hp) as (h & _ & Hs & Hw2 & Hpn & Hq).
    exists s1, p, (restored s1 tid x h). split_and!; try done.
    + eapply (restored_same_predictions n s tid x h _ Hw Ht); try done. by left.
    + cbn -[insert]. rewrite list_insert_insert_eq. refine (proj1 (reg_write _ _ _ _)). lia.
    + by apply (Hsv x s1 p h).
Qed.

Lemma tournament_squash_undoes_witness :
  ∃ s1 t p s2, lookup tournament_example 1 0x1000 = Ok (s1, t, p) ∧ squash s1 1 p = Ok s2 ∧
    same_predictions 2 tournament_example s2 ∧ reg_at (globalHistory s2) 1 = 3.
Proof.
  destruct (tournament_squash_undoes 2 tournament_example 1 0x1000)
    as [(s1 & t & p & s2 & Hl & Hs & _ & Hsp & Hg & _) _].
  - apply tournament_example_wf.
  - lia.
  - exists s1, t, p, s2. exact (conj Hl (conj Hs (conj Hsp Hg))).
Defined.

End TournamentBP.
