(* ===== verification/BPredUnit.v ===== *)
(** * The branch prediction unit

    Models [cpu/pred/bpred_unit.hh] and [bpred_unit.cc]: the unit that combines a direction
    predictor (any instance of [BPred.BPredOps]), the BTB, a return address stack per thread
    and the indirect predictor, and that keeps for each thread the history of the branches
    in flight, so that a squash can undo them.  The counters of the statistics and the
    probe notifications are a log of events. *)

From S2P Require Import Prelude.
From S2P Require Import BPredTables.
From S2P Require Import IndirectPred.
From S2P Require Import BPredIface.

Module BPredUnit.
Import Isa.

(** [++stat] and [probe->notify(1)], in order, newest first. *)
Inductive StatEvent :=
  | lookups | condPredicted | condIncorrect | BTBLookups | BTBHits | usedRAS_stat
  | RASIncorrect | indirectLookups | indirectHits | indirectMisses | indirectMispredicted
  | ppBranches | ppMisses.

Section unit.
Context {PC : Type} `{!ISA PC} {S : Type} `{!BPred.BPredOps S}.

Record PredictorHistory := mkRecord {
  seqNum : Z;
  pc : Z;
  bpHistory : Heap.ptr;
  RASTarget : PC;
  RASIndex : Z;
  tid : Z;
  predTaken : bool;
  usedRAS : bool;
  pushedRAS : bool;
  wasCall : bool;
  wasReturn : bool;
  wasSquashed : bool;
  wasIndirect : bool
}.

Definition newRecord (seq_num instPC : Z) (pred_taken : bool) (bp_history : Heap.ptr) (t : Z)
  : PredictorHistory :=
  mkRecord seq_num instPC bp_history (set 0) 0 t pred_taken false false false false false false.

Definition with_return (r : PredictorHistory) : PredictorHistory :=
  mkRecord (seqNum r) (pc r) (bpHistory r) (RASTarget r) (RASIndex r) (tid r) (predTaken r)
    (usedRAS r) (pushedRAS r) (wasCall r) true (wasSquashed r) (wasIndirect r).

Definition with_used (idx : Z) (target : PC) (r : PredictorHistory) : PredictorHistory :=
  mkRecord (seqNum r) (pc r) (bpHistory r) target idx (tid r) (predTaken r)
    true (pushedRAS r) (wasCall r) (wasReturn r) (wasSquashed r) (wasIndirect r).

Definition set_usedRAS (b : bool) (r : PredictorHistory) : PredictorHistory :=
  mkRecord (seqNum r) (pc r) (bpHistory r) (RASTarget r) (RASIndex r) (tid r) (predTaken r)
    b (pushedRAS r) (wasCall r) (wasReturn r) (wasSquashed r) (wasIndirect r).

Definition set_pushed (b : bool) (r : PredictorHistory) : PredictorHistory :=
  mkRecord (seqNum r) (pc r) (bpHistory r) (RASTarget r) (RASIndex r) (tid r) (predTaken r)
    (usedRAS r) b (wasCall r) (wasReturn r) (wasSquashed r) (wasIndirect r).

Definition with_call (r : PredictorHistory) : PredictorHistory :=
  mkRecord (seqNum r) (pc r) (bpHistory r) (RASTarget r) (RASIndex r) (tid r) (predTaken r)
    (usedRAS r) true true (wasReturn r) (wasSquashed r) (wasIndirect r).

Definition with_indirect (r : PredictorHistory) : PredictorHistory :=
  mkRecord (seqNum r) (pc r) (bpHistory r) (RASTarget r) (RASIndex r) (tid r) (predTaken r)
    (usedRAS r) (pushedRAS r) (wasCall r) (wasReturn r) (wasSquashed r) true.

Definition with_squashed (r : PredictorHistory) : PredictorHistory :=
  mkRecord (seqNum r) (pc r) (bpHistory r) (RASTarget r) (RASIndex r) (tid r) (predTaken r)
    (usedRAS r) (pushedRAS r) (wasCall r) (wasReturn r) true (wasIndirect r).

(** Each thread's [predHist] is a deque, front (youngest) first. *)
Record BPredUnit := mkUnit {
  bp : S;
  predHist : list (list PredictorHistory);
  BTB : BTB.DefaultBTB PC;
  RAS : list (RAS.ReturnAddrStack PC);
  useIndirect : bool;
  iPred : Indirect.IndirectPredictor PC;
  stats : list StatEvent
}.

Definition with_bp (x : S) (u : BPredUnit) : BPredUnit :=
  mkUnit x (predHist u) (BTB u) (RAS u) (useIndirect u) (iPred u) (stats u).

Definition with_predHist (x : list (list PredictorHistory)) (u : BPredUnit) : BPredUnit :=
  mkUnit (bp u) x (BTB u) (RAS u) (useIndirect u) (iPred u) (stats u).

Definition with_BTB (x : BTB.DefaultBTB PC) (u : BPredUnit) : BPredUnit :=
  mkUnit (bp u) (predHist u) x (RAS u) (useIndirect u) (iPred u) (stats u).

Definition with_RAS (x : list (RAS.ReturnAddrStack PC)) (u : BPredUnit) : BPredUnit :=
  mkUnit (bp u) (predHist u) (BTB u) x (useIndirect u) (iPred u) (stats u).

Definition with_iPred (x : Indirect.IndirectPredictor PC) (u : BPredUnit) : BPredUnit :=
  mkUnit (bp u) (predHist u) (BTB u) (RAS u) (useIndirect u) x (stats u).

Definition count (e : StatEvent) (u : BPredUnit) : BPredUnit :=
  mkUnit (bp u) (predHist u) (BTB u) (RAS u) (useIndirect u) (iPred u) (e :: stats u).

(** The direction predictor [x] is built by the derived class's constructor. *)
Definition newUnit (x : S) (numThreads BTBEntries BTBTagSize instShiftAmt RASSize : Z)
    (use_indirect hashGHR hashTargets : bool) (sets ways tagSize pathLength : Z) : res BPredUnit :=
  btb ← BTB.newBTB BTBEntries BTBTagSize instShiftAmt numThreads;
  ip ← Indirect.newIndirect hashGHR hashTargets sets ways tagSize pathLength instShiftAmt numThreads;
  r ← RAS.init RASSize;
  Ok (mkUnit x (replicate (Z.to_nat numThreads) []) btb (replicate (Z.to_nat numThreads) r)
        use_indirect ip []).

Definition drainSanityCheck (u : BPredUnit) : res unit :=
  assert_ (forallb (λ ph, bool_decide (length ph = 0%nat)) (predHist u)).

(** [RAS[tid]] replaced by [f] of it. *)
Definition on_RAS (t : Z) (f : RAS.ReturnAddrStack PC → res (RAS.ReturnAddrStack PC))
    (u : BPredUnit) : res BPredUnit :=
  r ← vread (RAS u) t;
  r ← f r;
  l ← vwrite (RAS u) t r;
  Ok (with_RAS l u).

(** [predHist[tid].push_front(r)] *)
Definition push_front (t : Z) (r : PredictorHistory) (u : BPredUnit) : res BPredUnit :=
  h ← vread (predHist u) t;
  l ← vwrite (predHist u) t (r :: h);
  Ok (with_predHist l u).

(** The direction of a branch: the unconditional ones are taken. *)
Definition predict_direction (inst : StaticInst PC) (addr t : Z) (u : BPredUnit)
  : res (BPredUnit * bool * Heap.ptr) :=
  if isUncondCtrl inst then
    '(x, p) ← BPred.uncondBranch (bp u) t addr;
    Ok (with_bp x u, true, p)
  else
    '(x, taken, p) ← BPred.lookup (bp u) t addr;
    Ok (with_bp x (count condPredicted u), taken, p).

(** Without a target, a conditional call takes back its push and a branch that is
    neither a call nor a return tells the direction predictor. *)
Definition undo_call (inst : StaticInst PC) (t : Z) (r : PredictorHistory) (u : BPredUnit)
  : res (BPredUnit * PredictorHistory) :=
  if isCall inst && negb (isUncondCtrl inst) then
    u ← on_RAS t (λ x, Ok (RAS.pop x)) u;
    Ok (u, set_pushed false r)
  else Ok (u, r).

Definition predict_target (inst : StaticInst PC) (seq_num : Z) (p : PC) (t : Z)
    (bp_history : Heap.ptr) (r : PredictorHistory) (u : BPredUnit)
  : res (BPredUnit * PredictorHistory * PC * bool) :=
  if isReturn inst then
    let u := count usedRAS_stat u in
    let r := with_return r in
    ras ← vread (RAS u) t;
    rasTop ← RAS.top ras;
    let target := buildRetPC p rasTop in
    let r := with_used (RAS.topIdx ras) rasTop r in
    u ← on_RAS t (λ x, Ok (RAS.pop x)) u;
    Ok (u, r, target, true)
  else
    let u := count BTBLookups u in
    '(u, r) ←
      (if isCall inst then
         u ← on_RAS t (RAS.push p) u;
         Ok (u, with_call r)
       else Ok (u, r));
    if isDirectCtrl inst || negb (useIndirect u) then
      v ← BTB.valid (BTB u) (instAddr p) t;
      if (v : bool) then
        target ← BTB.lookup (BTB u) (instAddr p) t;
        Ok (count BTBHits u, r, target, true)
      else
        '(u, r) ←
          (if negb (isCall inst) && negb (isReturn inst) then
             x ← BPred.btbUpdate (bp u) t (instAddr p) bp_history;
             Ok (with_bp x u, r)
           else undo_call inst t r u);
        Ok (u, r, advancePC p inst, false)
    else
      let r := with_indirect r in
      let u := count indirectLookups u in
      ghr ← BPred.getGHR (bp u) t bp_history;
      hit ← Indirect.lookup (iPred u) (instAddr p) ghr t;
      '(u, r, target, taken) ←
        match hit with
        | Some target => Ok (count indirectHits u, r, target, true)
        | None =>
            let u := count indirectMisses u in
            '(u, r) ←
              (if negb (isCall inst) && negb (isReturn inst) then Ok (u, r)
               else undo_call inst t r u);
            Ok (u, r, advancePC p inst, false)
        end;
      ip ← Indirect.recordIndirect (iPred u) (instAddr p) (instAddr target) seq_num t;
      Ok (with_iPred ip u, r, target, taken).

(** [predict] returns the prediction and the new value of its [pc] argument. *)
Definition predict (inst : StaticInst PC) (seq_num : Z) (p : PC) (t : Z) (u : BPredUnit)
  : res (BPredUnit * PC * bool) :=
  let u := count ppBranches (count lookups u) in
  '(u, pred_taken, bp_history) ← predict_direction inst (instAddr p) t u;
  let r := newRecord seq_num (instAddr p) pred_taken bp_history t in
  '(u, r, target, pred_taken) ←
    (if pred_taken then predict_target inst seq_num p t bp_history r u
     else
       let r := if isReturn inst then with_return r else r in
       Ok (u, r, advancePC p inst, false));
  u ← push_front t r u;
  Ok (u, target, pred_taken).

(** The conversion of an [int] to [ThreadID], a 16-bit signed integer. *)
Definition to_ThreadID (x : Z) : Z := (x + 2 ^ 15) mod 2 ^ 16 - 2 ^ 15.

Definition predictInOrder (inst : StaticInst PC) (seq_num asid : Z) (instPC predPC : PC) (t : Z)
    (u : BPredUnit) : res (BPredUnit * PC * bool) :=
  let u := count ppBranches (count lookups u) in
  '(u, pred_taken, bp_history) ←
    (if isUncondCtrl inst then
       '(x, p) ← BPred.uncondBranch (bp u) t (instAddr instPC);
       ras ← vread (RAS u) t;
       Ok (with_bp x u, negb (isReturn inst && RAS.empty ras), p)
     else
       '(x, taken, p) ← BPred.lookup (bp u) t (instAddr predPC);
       Ok (with_bp x (count condPredicted u), taken, p));
  let r := newRecord seq_num (instAddr predPC) pred_taken bp_history t in
  '(u, r, target) ←
    (if pred_taken then
       if isReturn inst then
         let u := count usedRAS_stat u in
         ras ← vread (RAS u) t;
         rasTop ← RAS.top ras;
         let r := with_used (RAS.topIdx ras) rasTop r in
         assert_ (RASIndex r <? 16) ;;
         u ← on_RAS t (λ x, Ok (RAS.pop x)) u;
         Ok (u, r, Some (buildRetPC instPC rasTop))
       else
         let u := count BTBLookups u in
         '(u, r) ←
           (if isCall inst then
              u ← on_RAS t (RAS.push instPC) u;
              Ok (u, with_call r)
            else Ok (u, r));
         if isCall inst && isUncondCtrl inst && isDirectCtrl inst then
           Ok (u, r, Some (branchTarget inst instPC))
         else
           v ← BTB.valid (BTB u) (instAddr predPC) (to_ThreadID asid);
           if (v : bool) then
             target ← BTB.lookup (BTB u) (instAddr predPC) (to_ThreadID asid);
             Ok (count BTBHits u, r, Some target)
           else Ok (u, r, None)
     else Ok (u, r, None));
  u ← push_front t r u;
  Ok (u, match target with Some x => x | None => predPC end,
      match target with Some _ => true | None => false end).

(** The loop of [update] over the records, oldest first; the younger ones remain. *)
Fixpoint update_loop (done_sn t : Z) (oldest_first : list PredictorHistory) (x : S)
  : res (S * list PredictorHistory) :=
  match oldest_first with
  | [] => Ok (x, [])
  | r :: l =>
      if seqNum r <=? done_sn then
        x ← (if wasSquashed r then BPred.retireSquashed x t (bpHistory r)
             else BPred.update x t (pc r) (predTaken r) (bpHistory r) false);
        update_loop done_sn t l x
      else Ok (x, r :: l)
  end.

Definition update (done_sn t : Z) (u : BPredUnit) : res BPredUnit :=
  ip ← Indirect.commit (iPred u) done_sn t;
  h ← vread (predHist u) t;
  '(x, rest) ← update_loop done_sn t (rev h) (bp u);
  l ← vwrite (predHist u) t (rev rest);
  Ok (with_predHist l (with_bp x (with_iPred ip u))).

(** The RAS repair for a squashed record. *)
Definition squash_RAS (t : Z) (r : PredictorHistory) (u : BPredUnit) : res BPredUnit :=
  if usedRAS r then on_RAS t (RAS.restore (RASIndex r) (RASTarget r)) u
  else if wasCall r && pushedRAS r then on_RAS t (λ x, Ok (RAS.pop x)) u
  else Ok u.

(** The loop of [squash] over the records, youngest first. *)
Fixpoint squash_loop (squashed_sn t : Z) (hist : list PredictorHistory) (u : BPredUnit)
  : res (BPredUnit * list PredictorHistory) :=
  match hist with
  | [] => Ok (u, [])
  | r :: l =>
      if squashed_sn <? seqNum r then
        u ← squash_RAS t r u;
        x ← BPred.squash (bp u) t (bpHistory r);
        squash_loop squashed_sn t l (with_bp x u)
      else Ok (u, r :: l)
  end.

Definition squash (squashed_sn t : Z) (u : BPredUnit) : res BPredUnit :=
  ip ← Indirect.squash (iPred u) squashed_sn t;
  let u := with_iPred ip u in
  h ← vread (predHist u) t;
  '(u, rest) ← squash_loop squashed_sn t h u;
  l ← vwrite (predHist u) t rest;
  Ok (with_predHist l u).

(** [squash] with the branch's actual target and direction; [rnd] is the value of [rand()]
    in the indirect predictor's replacement. *)
Definition squash_corrected (squashed_sn : Z) (corrTarget : PC) (actually_taken : bool) (t rnd : Z)
    (u : BPredUnit) : res BPredUnit :=
  let u := count ppMisses (count condIncorrect u) in
  u ← squash squashed_sn t u;
  h ← vread (predHist u) t;
  match h with
  | [] => Ok u
  | r :: older =>
      assert_ (seqNum r =? squashed_sn) ;;
      let u := if usedRAS r then count RASIncorrect u else u in
      ghr ← BPred.getGHR (bp u) t (bpHistory r);
      x ← BPred.update (bp u) t (pc r) actually_taken (bpHistory r) true;
      let u := with_bp x u in
      let r := with_squashed r in
      '(u, r) ←
        (if actually_taken then
           '(u, r) ←
             (if wasReturn r && negb (usedRAS r) then
                u ← on_RAS t (λ x, Ok (RAS.pop x)) u;
                Ok (u, set_usedRAS true r)
              else Ok (u, r));
           if wasIndirect r then
             let u := count indirectMispredicted u in
             ip ← Indirect.recordTarget (iPred u) (seqNum r) ghr corrTarget t rnd;
             Ok (with_iPred ip u, r)
           else
             b ← BTB.update (BTB u) (pc r) corrTarget t;
             Ok (with_BTB b u, r)
         else
           if usedRAS r then
             u ← on_RAS t (RAS.restore (RASIndex r) (RASTarget r)) u;
             Ok (u, set_usedRAS false r)
           else if wasCall r && pushedRAS r then
             u ← on_RAS t (λ x, Ok (RAS.pop x)) u;
             Ok (u, set_pushed false r)
           else Ok (u, r));
      l ← vwrite (predHist u) t (r :: older);
      Ok (with_predHist l u)
  end.

(** [BTBValid], [BTBLookup] and [BTBUpdate]: the BTB as thread 0. *)
Definition BTBValid (u : BPredUnit) (instPC : Z) : res bool := BTB.valid (BTB u) instPC 0.

Definition BTBLookup (u : BPredUnit) (instPC : Z) : res PC := BTB.lookup (BTB u) instPC 0.

Definition BTBUpdate (instPC : Z) (target : PC) (u : BPredUnit) : res BPredUnit :=
  b ← BTB.update (BTB u) instPC target 0;
  Ok (with_BTB b u).

End unit.
Arguments PredictorHistory : clear implicits.
Arguments BPredUnit : clear implicits.

End BPredUnit.
