(* ===== verification/BPredUnitProofs.v ===== *)
(** * Correctness of the branch prediction unit

    Theorems about [BPredUnit.BPredUnit] for every direction predictor that keeps the promises of
    [BPred.BPredLaws], every ISA, and any number of threads: predictions never fail, a
    squash undoes them, and a correction or a commit does what the unit says. *)

From Stdlib Require Import Sorted.
From S2P Require Import Prelude.
From S2P Require Import BPredTables.
From S2P Require Import IndirectPred.
From S2P Require Import BPredIface.
From S2P Require Import DirectionPreds.
From S2P Require Import TournamentPred.
From S2P Require Import BPredUnit.

Module BPredUnitProofs.
Import Isa BPredUnit.

Lemma elem_of_rev {A} (x : A) (l : list A) : x ∈ rev l ↔ x ∈ l.
Proof. rewrite !list_elem_of_In. symmetry. apply in_rev. Qed.

Section proofs.
Context {PC : Type} `{!ISA PC} {S : Type} `{!BPred.BPredOps S, !BPred.BPredLaws S}.
Context (n rn : Z).
Implicit Types (u : BPredUnit PC S) (r : PredictorHistory PC).

(** ** The invariant *)

Definition hist u (t : Z) : list (PredictorHistory PC) := default [] (predHist u !! Z.to_nat t).

Definition tos_at (l : list (RAS.ReturnAddrStack PC)) (t : Z) : Z :=
  default 0 (RAS.tos <$> l !! Z.to_nat t).

Definition ras_ok (l : list (RAS.ReturnAddrStack PC)) : Prop :=
  vsize l = n ∧ Forall (RAS.wf rn) l.

(** The history objects of the records [rs] are allocated, and no two records share one. *)
Definition Live (x : S) (rs : list (PredictorHistory PC)) : Prop :=
  NoDup (omap bpHistory rs) ∧ Forall (λ r, is_Some (BPred.saved x (bpHistory r))) rs.

(** A branch as its record and as its entry of the path history know it. *)
Definition branch_key r : Z * Z := (seqNum r, pc r).
Definition path_key (e : Indirect.HistoryEntry) : Z * Z := (Indirect.seqNum e, Indirect.pcAddr e).

(** One thread's records: youngest first, each indirect branch in the path history. *)
Definition thread_ok (h : list (PredictorHistory PC)) (p : list Indirect.HistoryEntry) : Prop :=
  StronglySorted (λ a b, seqNum b < seqNum a) h ∧
  StronglySorted (λ a b, Indirect.seqNum a < Indirect.seqNum b) p ∧
  (∀ r, r ∈ h → wasIndirect r = true → ∃ e, e ∈ p ∧ path_key e = branch_key r) ∧
  (∀ r, r ∈ h → 0 ≤ RASIndex r < rn).

Record wf u : Prop := {
  wf_bp : BPred.bp_wf n (bp u);
  wf_hist : vsize (predHist u) = n;
  wf_RAS : ras_ok (RAS u);
  wf_BTB : BTB.wf (BTB u);
  wf_iPred : Indirect.wf n (iPred u);
  wf_live : Live (bp u) (concat (predHist u));
  wf_threads : ∀ t, 0 ≤ t < n → thread_ok (hist u t) (Indirect.path (iPred u) t)
}.

(** ** Live records *)

Lemma Live_perm x rs rs' : rs ≡ₚ rs' → Live x rs → Live x rs'.
Proof.
  intros Hp [Hn Hf]. split; [by rewrite <- Hp|]. by rewrite <- Hp.
Qed.

Lemma Live_same x x' rs :
  (∀ q, is_Some (BPred.saved x q) → is_Some (BPred.saved x' q)) → Live x rs → Live x' rs.
Proof. intros Hs [Hn Hf]. split; [done|]. eapply Forall_impl; [exact Hf|]. naive_solver. Qed.

Lemma Live_alloc x x' rs r :
  Live x rs → BPred.allocated x x' (bpHistory r) → is_Some (BPred.saved x' (bpHistory r)) →
  Live x' (r :: rs).
Proof.
  intros [Hn Hf] [Hfresh Hold] Hr. split.
  - cbn. destruct (bpHistory r) as [a|] eqn:Ha; [|done]. apply NoDup_cons. split; [|done].
    rewrite list_elem_of_omap. intros (r' & Hin & Hr').
    rewrite Forall_forall in Hf. destruct (Hf r' Hin) as [g Hg]. rewrite Hr' in Hg.
    destruct Hfresh; congruence.
  - constructor; [done|]. eapply Forall_impl; [exact Hf|]. intros r' Hr'. cbn in *.
    by rewrite Hold.
Qed.

Lemma Live_release x x' rs r :
  Live x (r :: rs) → BPred.released x x' (bpHistory r) → Live x' rs.
Proof.
  intros [Hn Hf] Hrel. rewrite Forall_cons in Hf. destruct Hf as [_ Hf]. split.
  - cbn in Hn. destruct (bpHistory r); [by apply NoDup_cons in Hn as [_ Hn]|done].
  - rewrite Forall_forall in *. intros r' Hin. rewrite Hrel; [by apply Hf|].
    destruct (bpHistory r') as [a|] eqn:Ha; [left|by right]. intros E. cbn in Hn.
    rewrite <- E in Hn. apply NoDup_cons in Hn as [Hn _]. apply Hn, list_elem_of_omap. by exists r'.
Qed.

(** The records of a thread among those of all threads. *)
Lemma concat_thread u t (h' : list (PredictorHistory PC)) :
  vsize (predHist u) = n → 0 ≤ t < n →
  let rest := concat (delete (Z.to_nat t) (predHist u)) in
  predHist u !! Z.to_nat t = Some (hist u t) ∧
  concat (predHist u) ≡ₚ hist u t ++ rest ∧
  concat (<[Z.to_nat t := h']> (predHist u)) ≡ₚ h' ++ rest.
Proof.
  intros Hs Ht rest.
  destruct (lookup_lt_is_Some_2 (predHist u) (Z.to_nat t)) as [h Hh]; [unfold vsize in Hs; lia|].
  unfold hist. rewrite Hh. cbn [default from_option id]. subst rest.
  rewrite delete_take_drop, concat_app.
  split; [done|]. split.
  - rewrite <- (take_drop_middle _ _ _ Hh) at 1. rewrite concat_app. cbn. solve_Permutation.
  - rewrite insert_take_drop by (unfold vsize in Hs; lia). rewrite concat_app. cbn. solve_Permutation.
Qed.

(** ** The return address stacks *)

(** An operation on one thread's stack that moves the top index by [g]. *)
Lemma on_RAS_ok u t f g :
  ras_ok (RAS u) → 0 ≤ t < n →
  (∀ x, RAS.wf rn x → ∃ x', f x = Ok x' ∧ RAS.wf rn x' ∧ RAS.tos x' = g (RAS.tos x)) →
  ∃ l, on_RAS t f u = Ok (with_RAS l u) ∧ ras_ok l ∧
    tos_at l t = g (tos_at (RAS u) t) ∧
    ∀ j, 0 ≤ j → j ≠ t → tos_at l j = tos_at (RAS u) j.
Proof.
  intros [Hs Hf] Ht Hop. destruct (vread_ok (RAS u) t) as (x & Hr & Hl); [lia|].
  destruct (Hop x (Forall_lookup_1 _ _ _ _ Hf Hl)) as (x' & Hx' & Hw' & Htos).
  unfold on_RAS. rewrite Hr. cbn [mbind res_bind]. rewrite Hx'. cbn [mbind res_bind].
  rewrite vwrite_ok by lia. eexists. split; [done|]. split; [|split].
  - split; [by rewrite vsize_insert|]. by apply Forall_insert.
  - unfold tos_at. rewrite Hl, list_lookup_insert_eq by (unfold vsize in Hs; lia). done.
  - intros j Hj Hne. unfold tos_at. rewrite list_lookup_insert_ne by lia. done.
Qed.

Lemma tos_range l t : ras_ok l → 0 ≤ t < n → 0 ≤ tos_at l t < rn.
Proof.
  intros [Hs Hf] Ht. destruct (lookup_lt_is_Some_2 l (Z.to_nat t)) as [x Hx]; [unfold vsize in Hs; lia|].
  unfold tos_at. rewrite Hx. cbn. by destruct (Forall_lookup_1 _ _ _ _ Hf Hx) as (_ & _ & _ & _ & ?).
Qed.

Definition on_pop_ok u t Hr Ht :=
  on_RAS_ok u t (λ x, Ok (RAS.pop x)) (λ k, (k - 1) mod rn) Hr Ht
    (λ x Hx, ex_intro _ (RAS.pop x) (conj eq_refl
      (let H := RAS.pop_ok rn x Hx in conj (proj1 H) (proj1 (proj2 H))))).

Lemma on_push_ok u t a :
  ras_ok (RAS u) → 0 ≤ t < n →
  ∃ l, on_RAS t (RAS.push a) u = Ok (with_RAS l u) ∧ ras_ok l ∧
    tos_at l t = (tos_at (RAS u) t + 1) mod rn ∧
    ∀ j, 0 ≤ j → j ≠ t → tos_at l j = tos_at (RAS u) j.
Proof.
  intros Hr Ht. apply (on_RAS_ok u t _ (λ k, (k + 1) mod rn)); [done..|].
  intros x Hx. destruct (RAS.push_ok rn a x Hx) as (x' & ? & ? & ? & _). by exists x'.
Qed.

Lemma on_restore_ok u t i a :
  ras_ok (RAS u) → 0 ≤ t < n → 0 ≤ i < rn →
  ∃ l, on_RAS t (RAS.restore i a) u = Ok (with_RAS l u) ∧ ras_ok l ∧ tos_at l t = i ∧
    ∀ j, 0 ≤ j → j ≠ t → tos_at l j = tos_at (RAS u) j.
Proof.
  intros Hr Ht Hi. apply (on_RAS_ok u t _ (λ _, i)); [done..|].
  intros x Hx. destruct (RAS.restore_ok rn i a x Hx Hi) as (x' & ? & ? & ? & _). by exists x'.
Qed.

(** ** Unwinding records *)

(** The top index after the repair for a squashed record. *)
Definition undo_tos r (k : Z) : Z :=
  if usedRAS r then RASIndex r
  else if wasCall r && pushedRAS r then (k - 1) mod rn else k.

(** The global history and top index after squashing the records [l], youngest first. *)
Fixpoint unwind (sv : Heap.ptr → option Z) (l : list (PredictorHistory PC)) (g k : Z)
  : option (Z * Z) :=
  match l with
  | [] => Some (g, k)
  | r :: l => g' ← sv (bpHistory r); unwind sv l g' (undo_tos r k)
  end.

Lemma unwind_ext sv sv' l g k :
  (∀ r, r ∈ l → sv (bpHistory r) = sv' (bpHistory r)) → unwind sv l g k = unwind sv' l g k.
Proof.
  revert g k. induction l as [|r l IH]; intros g k Hsv; [done|]. cbn.
  rewrite Hsv by left. destruct (sv' (bpHistory r)); [|done]. cbn. apply IH. intros. apply Hsv. by right.
Qed.

Lemma squash_RAS_ok u t r :
  ras_ok (RAS u) → 0 ≤ t < n → 0 ≤ RASIndex r < rn →
  ∃ l, squash_RAS t r u = Ok (with_RAS l u) ∧ ras_ok l ∧
    tos_at l t = undo_tos r (tos_at (RAS u) t) ∧
    ∀ j, 0 ≤ j → j ≠ t → tos_at l j = tos_at (RAS u) j.
Proof.
  intros Hr Ht Hi. unfold squash_RAS, undo_tos. destruct (usedRAS r).
  - apply on_restore_ok; auto.
  - destruct (wasCall r && pushedRAS r); [by apply on_pop_ok|].
    exists (RAS u). split; [by destruct u|]. done.
Qed.

(** What the squash loop leaves: everything but the direction predictor and the stacks. *)
Definition same_frame u u' : Prop :=
  predHist u' = predHist u ∧ BTB u' = BTB u ∧ iPred u' = iPred u ∧
  useIndirect u' = useIndirect u ∧ stats u' = stats u.

Lemma squash_loop_ok sn t l older rest u :
  0 ≤ t < n → BPred.bp_wf n (bp u) → ras_ok (RAS u) →
  Live (bp u) ((l ++ older) ++ rest) →
  (∀ r, r ∈ l → sn < seqNum r ∧ 0 ≤ RASIndex r < rn) →
  (∀ r, head older = Some r → seqNum r ≤ sn) →
  ∃ u', squash_loop sn t (l ++ older) u = Ok (u', older) ∧ same_frame u u' ∧
    BPred.bp_wf n (bp u') ∧ ras_ok (RAS u') ∧ Live (bp u') (older ++ rest) ∧
    unwind (BPred.saved (bp u)) l (BPred.ghr (bp u) t) (tos_at (RAS u) t) =
      Some (BPred.ghr (bp u') t, tos_at (RAS u') t) ∧
    BPred.hist_mask (bp u') = BPred.hist_mask (bp u) ∧
    (∀ r, r ∈ older ++ rest → BPred.saved (bp u') (bpHistory r) = BPred.saved (bp u) (bpHistory r)) ∧
    (∀ j, 0 ≤ j → j ≠ t → BPred.ghr (bp u') j = BPred.ghr (bp u) j ∧
                           tos_at (RAS u') j = tos_at (RAS u) j).
Proof.
  intros Ht. revert u. induction l as [|r l IH]; intros u Hw Hr Hlive Hl Hold.
  - exists u. split; [|done]. destruct older as [|r0 older]; [done|]. cbn.
    specialize (Hold r0 eq_refl). by destruct (Z.ltb_spec sn (seqNum r0)); [lia|].
  - cbn [app squash_loop]. destruct (Hl r) as [Hsn Hidx]; [left|].
    destruct (Z.ltb_spec sn (seqNum r)); [|lia].
    destruct (squash_RAS_ok u t r Hr Ht Hidx) as (ras & -> & Hras & Htos & Hoth).
    cbn [mbind res_bind with_RAS bp].
    pose proof Hlive as [_ Hf]. cbn in Hf. apply Forall_cons in Hf as [[g Hg] _].
    destruct (BPred.squash_law n (bp u) t (bpHistory r) g Hw Ht Hg)
      as (x' & -> & (Hw' & Hm & Hghr) & Hg' & Hrel). cbn [mbind res_bind].
    pose proof (Live_release _ _ _ _ Hlive Hrel) as Hlive'.
    assert (∀ r', r' ∈ (l ++ older) ++ rest →
      BPred.saved x' (bpHistory r') = BPred.saved (bp u) (bpHistory r')) as Hsv.
    { intros r' Hin. apply Hrel. destruct Hlive as [Hn _]. cbn in Hn.
      destruct (bpHistory r') as [a|] eqn:Ha; [left|by right]. intros E. rewrite <- E in Hn.
      apply NoDup_cons in Hn as [Hn _]. apply Hn, list_elem_of_omap. by exists r'. }
    destruct (IH (with_bp x' (with_RAS ras u)))
      as (u' & Hu' & (F1 & F2 & F3 & F4 & F5) & Hwb & Hrb & Hlb & Hun & Hm' & Hs' & Ho');
      [done..|intros r' Hr'; apply Hl; by right|done|].
    exists u'. split; [exact Hu'|]. cbn in *. split_and!; try done.
    + rewrite Hg. cbn. rewrite <- Hun, Hg', Htos. apply unwind_ext. intros r' Hin.
      symmetry. apply Hsv. set_solver.
    + by rewrite Hm'.
    + intros r' Hin. rewrite Hs' by done. apply Hsv. set_solver.
    + intros j Hj Hne. destruct (Ho' j Hj Hne) as [-> ->]. auto.
Qed.

(** ** [squash] *)

Lemma squash_hist_sorted sn l :
  StronglySorted (λ a b, Indirect.seqNum a < Indirect.seqNum b) l →
  StronglySorted (λ a b, Indirect.seqNum a < Indirect.seqNum b) (Indirect.squash_hist sn l) ∧
  ∀ e, e ∈ Indirect.squash_hist sn l ↔ e ∈ l ∧ Indirect.seqNum e ≤ sn.
Proof.
  induction 1 as [|e l Hs (IH1 & IH2) Hf]; cbn; [split; [constructor|set_solver]|].
  destruct (Z.ltb_spec sn (Indirect.seqNum e)).
  - split; [constructor|]. intros e'. split; [set_solver|]. intros [Hin Hle].
    rewrite Forall_forall in Hf. apply elem_of_cons in Hin as [->|Hin]; [lia|].
    specialize (Hf e' Hin). cbn in Hf. lia.
  - split.
    + constructor; [done|]. rewrite Forall_forall in *. intros e' [Hin _]%IH2. by apply Hf.
    + intros e'. rewrite !elem_of_cons, IH2. naive_solver lia.
Qed.

Lemma sorted_split sn h :
  StronglySorted (λ a b : PredictorHistory PC, seqNum b < seqNum a) h →
  ∃ l older, h = l ++ older ∧ (∀ r, r ∈ l → sn < seqNum r) ∧ (∀ r, r ∈ older → seqNum r ≤ sn) ∧
    StronglySorted (λ a b, seqNum b < seqNum a) older.
Proof.
  induction 1 as [|r h Hs (l & older & -> & H1 & H2 & H3) Hf].
  { exists [], []. split_and!; [done|set_solver..|constructor]. }
  destruct (Z.lt_ge_cases sn (seqNum r)) as [Hlt|Hge].
  - exists (r :: l), older. split_and!; try done. intros r'. rewrite elem_of_cons. naive_solver.
  - exists [], (r :: l ++ older). split_and!; [done|set_solver| |by constructor].
    intros r'. rewrite elem_of_cons. intros [->|Hin]; [done|].
    rewrite Forall_forall in Hf. specialize (Hf r' Hin). cbn in Hf. lia.
Qed.

Lemma hist_insert u t h x : 
  vsize (predHist u) = n → 0 ≤ t < n →
  let u' := with_predHist (<[Z.to_nat t := h]> (predHist u)) x in
  hist u' t = h ∧ ∀ j, 0 ≤ j → j ≠ t → hist u' j = hist u j.
Proof.
  intros Hs Ht. unfold hist. cbn -[insert]. split.
  - rewrite list_lookup_insert_eq by (unfold vsize in Hs; lia). done.
  - intros j Hj Hne. rewrite list_lookup_insert_ne by lia. done.
Qed.

(** The facts about a squash back to [sn]: the records [l] are undone, [older] kept. *)
Record squashed_to (sn t : Z) u (l older : list (PredictorHistory PC)) u' : Prop := {
  sq_wf : wf u';
  sq_hist : hist u' t = older;
  sq_path : Indirect.path (iPred u') t = Indirect.squash_hist sn (Indirect.path (iPred u) t);
  sq_unwind : unwind (BPred.saved (bp u)) l (BPred.ghr (bp u) t) (tos_at (RAS u) t) =
    Some (BPred.ghr (bp u') t, tos_at (RAS u') t);
  sq_BTB : BTB u' = BTB u;
  sq_mask : BPred.hist_mask (bp u') = BPred.hist_mask (bp u);
  sq_saved : ∀ r, r ∈ concat (predHist u') →
    BPred.saved (bp u') (bpHistory r) = BPred.saved (bp u) (bpHistory r);
  sq_other : ∀ j, 0 ≤ j → j ≠ t → hist u' j = hist u j ∧ BPred.ghr (bp u') j = BPred.ghr (bp u) j ∧
    tos_at (RAS u') j = tos_at (RAS u) j ∧ Indirect.path (iPred u') j = Indirect.path (iPred u) j;
  sq_config : useIndirect u' = useIndirect u ∧ stats u' = stats u
}.

Lemma unit_squash_ok sn t u l older :
  wf u → 0 ≤ t < n → hist u t = l ++ older →
  (∀ r, r ∈ l → sn < seqNum r) → (∀ r, r ∈ older → seqNum r ≤ sn) →
  StronglySorted (λ a b, seqNum b < seqNum a) older →
  ∃ u', squash sn t u = Ok u' ∧ squashed_to sn t u l older u'.
Proof.
  intros Hw Ht Hh Hl Hold Hso. pose proof (wf_hist u Hw) as Hs.
  destruct (wf_threads u Hw t Ht) as (Hs1 & Hs2 & Hind & Hidx).
  destruct (concat_thread u t older Hs Ht) as (Hlk & Hc1 & Hc2).
  set (rest := concat (delete (Z.to_nat t) (predHist u))) in *.
  unfold squash. rewrite Indirect.squash_set_hist.
  destruct (Indirect.set_hist_ok n (iPred u) t
    (Indirect.squash_hist sn (Indirect.path (iPred u) t)) (wf_iPred u Hw) Ht)
    as (ip & -> & Hwip & Hp & Hpo & _). cbn [mbind res_bind with_iPred predHist].
  assert (vread (predHist u) t = Ok (hist u t)) as ->.
  { destruct (vread_ok (predHist u) t) as (h0 & -> & Hh0); [lia|]. congruence. }
  cbn [mbind res_bind]. rewrite Hh.
  destruct (squash_loop_ok sn t l older rest (with_iPred ip u) Ht (wf_bp u Hw) (wf_RAS u Hw))
    as (u' & -> & (F1 & F2 & F3 & F4 & F5) & Hwb & Hrb & Hlb & Hun & Hm & Hsv & Ho).
  { cbn. eapply Live_perm; [|apply (wf_live u Hw)]. by rewrite Hc1, Hh. }
  { intros r Hin. split; [by apply Hl|]. apply Hidx. rewrite Hh. set_solver. }
  { intros r Hr. apply Hold. destruct older; [done|]. injection Hr as ->. left. }
  cbn [mbind res_bind]. cbn in F1, F2, F3, F4, F5. rewrite F1, vwrite_ok by lia.
  eexists. split; [done|].
  destruct (hist_insert u t older u' Hs Ht) as [Hi1 Hi2].
  constructor; cbn [with_predHist bp BTB RAS iPred predHist useIndirect stats]; try done.
  - constructor; cbn -[insert]; rewrite ?F2, ?F3; try done; try apply Hw.
    + by rewrite vsize_insert.
    + eapply Live_perm; [|exact Hlb]. by rewrite Hc2.
    + intros j Hj. destruct (decide (j = t)) as [->|Hne].
      * rewrite Hi1, Hp. destruct (squash_hist_sorted sn _ Hs2) as [Hq1 Hq2].
        split_and!; [done|done| |].
        -- intros r Hin Hi. destruct (Hind r) as (e & He & Hes); [rewrite Hh; set_solver|done|].
           exists e. rewrite Hq2. specialize (Hold r Hin). pose proof (f_equal fst Hes) as Hsq. cbn in Hsq. split; [split; [done|lia]|done].
        -- intros r Hin. apply Hidx. rewrite Hh. set_solver.
      * rewrite Hi2, Hpo by lia. by apply (wf_threads u Hw).
  - by rewrite F3.
  - intros r Hin. apply Hsv. rewrite <- Hc2. exact Hin.
  - intros j Hj Hne. destruct (Ho j Hj Hne). rewrite F3. auto.
Qed.

(** ** [predict] *)

(** The direction step allocates a history object and shifts the direction in. *)
Lemma predict_direction_ok inst a t u :
  BPred.bp_wf n (bp u) → 0 ≤ t < n →
  ∃ x taken p st,
    predict_direction inst a t u =
      Ok (mkUnit x (predHist u) (BTB u) (RAS u) (useIndirect u) (iPred u) st, taken, p) ∧
    BPred.frame n (bp u) x t ∧ BPred.allocated (bp u) x p ∧
    BPred.saved x p = Some (BPred.ghr (bp u) t) ∧
    BPred.ghr x t = BPred.push_ghr (BPred.hist_mask (bp u)) (BPred.ghr (bp u) t) taken ∧
    (isUncondCtrl inst = true → taken = true).
Proof.
  intros Hw Ht. unfold predict_direction. destruct (isUncondCtrl inst).
  - destruct (BPred.uncondBranch_law n (bp u) t a Hw Ht) as (x & p & -> & ?).
    eexists _, _, _, _. split; [done|]. naive_solver.
  - destruct (BPred.lookup_law n (bp u) t a Hw Ht) as (x & k & p & -> & ?).
    eexists _, _, _, _. split; [done|]. naive_solver.
Qed.

(** The top index of thread [t] in [ras'] is undone by the record [r] to that of [ras]. *)
Definition ras_undone (t : Z) r (ras ras' : list (RAS.ReturnAddrStack PC)) : Prop :=
  ras_ok ras' ∧ undo_tos r (tos_at ras' t) = tos_at ras t ∧
  (∀ j, 0 ≤ j → j ≠ t → tos_at ras' j = tos_at ras j) ∧
  0 ≤ RASIndex r < rn.

(** The fields of a record that the target prediction leaves alone. *)
Definition same_record r r' : Prop :=
  seqNum r' = seqNum r ∧ bpHistory r' = bpHistory r ∧ predTaken r' = predTaken r ∧
  pc r' = pc r ∧ wasSquashed r' = wasSquashed r.

Definition fresh_record r : Prop :=
  usedRAS r = false ∧ pushedRAS r = false ∧ wasCall r = false ∧ wasIndirect r = false ∧
  RASIndex r = 0.

Lemma undo_call_ok inst t r u ras :
  0 ≤ t < n → ras_ok (RAS u) → ras_undone t r ras (RAS u) →
  usedRAS r = false → wasCall r = isCall inst → pushedRAS r = isCall inst →
  ∃ ras' r', undo_call inst t r u = Ok (with_RAS ras' u, r') ∧ ras_undone t r' ras ras' ∧
    same_record r r' ∧ wasIndirect r' = wasIndirect r.
Proof.
  intros Ht Hr (_ & Hu & Ho & Hi) Hur Hwc Hpr. unfold undo_call.
  destruct (isCall inst && negb (isUncondCtrl inst)) eqn:Hc.
  - apply andb_prop in Hc as [Hc _].
    destruct (on_pop_ok u t Hr Ht) as (l & -> & Hl & Htos & Hoth). cbn [mbind res_bind].
    eexists _, _. split; [done|]. split_and!; [|done..].
    split_and!; [done| |intros j Hj Hne; by rewrite Hoth, Ho|apply Hi|apply Hi].
    rewrite <- Hu. unfold undo_tos. cbn. rewrite Hur, Hwc, Hpr, Hc. cbn. by rewrite Htos.
  - exists (RAS u), r. split; [by destruct u|]. by split_and!.
Qed.

(** What the target prediction changes. *)
Record target_ok (t : Z) u r u' r' : Prop := {
  to_hist : predHist u' = predHist u;
  to_BTB : BTB u' = BTB u;
  to_bp : BPred.frame n (bp u) (bp u') t;
  to_saved : ∀ q, BPred.saved (bp u') q = BPred.saved (bp u) q;
  to_RAS : ras_undone t r' (RAS u) (RAS u');
  to_rec : same_record r r';
  to_iPred : Indirect.wf n (iPred u');
  to_path : if wasIndirect r'
            then ∃ e, Indirect.path (iPred u') t = Indirect.path (iPred u) t ++ [e] ∧
                      path_key e = branch_key r'
            else Indirect.path (iPred u') t = Indirect.path (iPred u) t;
  to_other : ∀ j, 0 ≤ j → j ≠ t → Indirect.path (iPred u') j = Indirect.path (iPred u) j;
  to_config : useIndirect u' = useIndirect u
}.

Lemma predict_target_ok inst p t bph r u g :
  0 ≤ t < n → BPred.bp_wf n (bp u) → ras_ok (RAS u) → BTB.wf (BTB u) → Indirect.wf n (iPred u) →
  BPred.saved (bp u) bph = Some g →
  BPred.ghr (bp u) t = BPred.push_ghr (BPred.hist_mask (bp u)) g true →
  fresh_record r → pc r = instAddr p →
  ∃ u' r' target taken, predict_target inst (seqNum r) p t bph r u = Ok (u', r', target, taken) ∧
    target_ok t u r u' r' ∧
    (taken = false → isCall inst = false → isReturn inst = false →
      isDirectCtrl inst || negb (useIndirect u) = true →
      BPred.ghr (bp u') t = BPred.push_ghr (BPred.hist_mask (bp u)) g false).
Proof.
  intros Ht Hb Hr Hbtb Hip Hsv Hg (Hf1 & Hf2 & Hf3 & Hf4 & Hf5) Hpc.
  assert (BPred.frame n (bp u) (bp u) t) as Hfr by done.
  pose proof (tos_range (RAS u) t Hr Ht) as Htr.
  unfold predict_target. destruct (isReturn inst) eqn:Hret.
  { pose proof Hr as [Hs Hall]. cbn [count RAS].
    destruct (vread_ok (RAS u) t) as (ras & Hrd & Hlk); [lia|]. rewrite Hrd. cbn [mbind res_bind].
    pose proof (Forall_lookup_1 _ _ _ _ Hall Hlk) as Hwr.
    rewrite (RAS.top_ok rn ras Hwr). cbn [mbind res_bind].
    destruct (on_pop_ok (count usedRAS_stat u) t Hr Ht) as (l & -> & Hl & _ & Hoth).
    cbn [mbind res_bind]. eexists _, _, _, _. split; [done|]. split; [|done].
    constructor; cbn; rewrite ?Hf4; try done. split_and!; try done.
    - unfold tos_at, RAS.topIdx. by rewrite Hlk.
    - unfold RAS.topIdx. destruct Hwr as (_ & _ & _ & _ & ?). cbn. lia.
    - unfold RAS.topIdx. destruct Hwr as (_ & _ & _ & _ & ?). cbn. lia. }
  assert (∃ u1 r1, (if isCall inst
     then u ← on_RAS t (RAS.push p) (count BTBLookups u); Ok (u, with_call r)
     else Ok (count BTBLookups u, r)) = Ok (u1, r1) ∧
     (bp u1 = bp u ∧ predHist u1 = predHist u ∧ BTB u1 = BTB u ∧ iPred u1 = iPred u ∧
      useIndirect u1 = useIndirect u) ∧ ras_undone t r1 (RAS u) (RAS u1) ∧
     same_record r r1 ∧ usedRAS r1 = false ∧ wasCall r1 = isCall inst ∧
     pushedRAS r1 = isCall inst ∧ wasIndirect r1 = false) as
    (u1 & r1 & -> & (E1 & E2 & E3 & E4 & E5) & Hras1 & Hsame & Hn1 & Hn2 & Hn3 & Hn4).
  { destruct (isCall inst).
    - destruct (on_push_ok (count BTBLookups u) t p Hr Ht) as (l & -> & Hl & Htos & Hoth).
      eexists _, _. split; [done|]. split_and!; try done. split_and!; try done.
      + unfold undo_tos. cbn. rewrite Hf1, Htos, Zminus_mod_idemp_l, Z.add_simpl_r. cbn.
        by rewrite Z.mod_small.
      + cbn. lia.
      + cbn. lia.
    - eexists _, _. split; [done|]. split_and!; try done. split_and!; try done.
      + unfold undo_tos. by rewrite Hf1, Hf3.
      + lia.
      + lia. }
  cbn [mbind res_bind]. rewrite E3, E5. pose proof Hras1 as (Hrok1 & _).
  destruct (isDirectCtrl inst || negb (useIndirect u)) eqn:Hdir.
  - destruct (BTB.btb_read (BTB u) (instAddr p) t Hbtb) as (e & _ & -> & ->). cbn [mbind res_bind].
    destruct (BTB.hit (BTB u) e (instAddr p) t).
    { eexists _, _, _, _. split; [done|]. split; [|done].
      constructor; cbn; rewrite ?Hn4, ?E1, ?E2, ?E3, ?E4, ?E5; done. }
    cbn [negb]. rewrite andb_true_r. destruct (isCall inst) eqn:Hcall; cbn [negb].
    + destruct (undo_call_ok inst t r1 u1 (RAS u) Ht Hrok1 Hras1 Hn1)
        as (ras' & r' & -> & Hun & Hsr & Hwi); [congruence..|].
      cbn [mbind res_bind]. eexists _, _, _, _. split; [done|]. split; [|done].
      constructor; cbn; rewrite ?Hwi, ?Hn4, ?E1, ?E2, ?E3, ?E4, ?E5; try done.
      unfold same_record in *. intuition congruence.
    + rewrite E1. destruct (BPred.btbUpdate_law n (bp u) t (instAddr p) bph g Hb Ht Hg)
        as (x & -> & Hfx & Hgx & Hsx). cbn [mbind res_bind].
      eexists _, _, _, _. split; [done|]. split; [|done].
      constructor; cbn; rewrite ?Hn4, ?E1, ?E2, ?E3, ?E4, ?E5; done.
  - cbn [count bp iPred]. rewrite E1, E4.
    rewrite (BPred.getGHR_law n (bp u) t bph g Hb Hsv). cbn [mbind res_bind].
    destruct (Indirect.lookup_total n (iPred u) (instAddr p) g t Hip Ht) as (o & ->).
    cbn [mbind res_bind].
    match goal with |- context [?m ≫= _] =>
      assert (∃ u2 r2 target taken, m = Ok (u2, r2, target, taken) ∧
        (bp u2 = bp u ∧ predHist u2 = predHist u ∧ BTB u2 = BTB u ∧ iPred u2 = iPred u ∧
         useIndirect u2 = useIndirect u) ∧
        ras_undone t r2 (RAS u) (RAS u2) ∧ same_record r r2 ∧ wasIndirect r2 = true)
      as (u2 & r2 & target & taken & -> & (G1 & G2 & G3 & G4 & G5) & Hun2 & Hs2 & Hi2) end.
    { destruct o as [target|].
      { by eexists _, _, _, _. }
      cbn [negb]. rewrite andb_true_r. destruct (isCall inst) eqn:Hcall; cbn [negb].
      - destruct (undo_call_ok inst t (with_indirect r1) (count indirectMisses (count indirectLookups u1))
          (RAS u) Ht Hrok1 Hras1 Hn1) as (ras' & r' & -> & Hun & Hsr & Hwi); [cbn; congruence..|].
        cbn [mbind res_bind]. eexists _, _, _, _. split; [done|]. split_and!; try done.
        unfold same_record in *. cbn in Hsr. intuition congruence.
      - by eexists _, _, _, _. }
    cbn [mbind res_bind]. rewrite G4, Indirect.recordIndirect_set_hist.
    destruct (Indirect.set_hist_ok n (iPred u) t
      (Indirect.path (iPred u) t ++ [Indirect.mkHist (instAddr p) (instAddr target) (seqNum r)]) Hip Ht)
      as (ip & -> & Hwip & Hp & Hpo & _). cbn [mbind res_bind].
    eexists _, _, _, _. split; [done|]. split; [|done].
    constructor; cbn; rewrite ?Hi2, ?G1, ?G2, ?G3, ?G5; try done.
    eexists. split; [done|]. unfold path_key, branch_key. cbn. destruct Hs2 as (-> & _ & _ & -> & _). by rewrite Hpc.
Qed.

(** The sequence number [sn] is younger than every branch the unit knows of in thread [t]. *)
Definition younger u (t sn : Z) : Prop :=
  (∀ r, r ∈ hist u t → seqNum r < sn) ∧
  (∀ e, e ∈ Indirect.path (iPred u) t → Indirect.seqNum e < sn).

(** What one prediction does to the unit: it puts a record [r] in front. *)
Record predicted_to (t sn : Z) u r u' : Prop := {
  pr_wf : wf u';
  pr_hist : hist u' t = r :: hist u t;
  pr_seq : seqNum r = sn;
  pr_saved : BPred.saved (bp u') (bpHistory r) = Some (BPred.ghr (bp u) t);
  pr_kept : ∀ q, is_Some (BPred.saved (bp u) q) → BPred.saved (bp u') q = BPred.saved (bp u) q;
  pr_tos : undo_tos r (tos_at (RAS u') t) = tos_at (RAS u) t;
  pr_path : ∃ e, Indirect.path (iPred u') t = Indirect.path (iPred u) t ++ e ∧
    Forall (λ x, Indirect.seqNum x = sn) e;
  pr_BTB : BTB u' = BTB u;
  pr_mask : BPred.hist_mask (bp u') = BPred.hist_mask (bp u);
  pr_other : ∀ j, 0 ≤ j → j ≠ t → hist u' j = hist u j ∧ BPred.ghr (bp u') j = BPred.ghr (bp u) j ∧
    tos_at (RAS u') j = tos_at (RAS u) j ∧ Indirect.path (iPred u') j = Indirect.path (iPred u) j;
  pr_config : useIndirect u' = useIndirect u
}.

(** Putting a record in front of thread [t], given what the target step left. *)
Lemma push_record_ok t sn u u2 r2 :
  wf u → 0 ≤ t < n → younger u t sn →
  BPred.bp_wf n (bp u2) → predHist u2 = predHist u → BTB u2 = BTB u → Indirect.wf n (iPred u2) →
  ras_undone t r2 (RAS u) (RAS u2) → seqNum r2 = sn →
  Live (bp u2) (r2 :: concat (predHist u)) →
  (if wasIndirect r2
   then ∃ e, Indirect.path (iPred u2) t = Indirect.path (iPred u) t ++ [e] ∧ path_key e = branch_key r2
   else Indirect.path (iPred u2) t = Indirect.path (iPred u) t) →
  (∀ j, 0 ≤ j → j ≠ t → Indirect.path (iPred u2) j = Indirect.path (iPred u) j) →
  ∃ u', push_front t r2 u2 = Ok u' ∧ wf u' ∧ hist u' t = r2 :: hist u t ∧
    (∀ j, 0 ≤ j → j ≠ t → hist u' j = hist u j) ∧
    u' = with_predHist (predHist u') u2.
Proof.
  intros Hw Ht (Hy1 & Hy2) Hbp Hh Hbtb Hip (Hro & _ & _ & Hri) Hseq Hlive Hpath Hpo.
  pose proof (wf_hist u Hw) as Hs. destruct (concat_thread u t (r2 :: hist u t) Hs Ht) as (Hlk & Hc1 & Hc2).
  unfold push_front. rewrite Hh.
  assert (vread (predHist u) t = Ok (hist u t)) as ->.
  { destruct (vread_ok (predHist u) t) as (h0 & -> & Hh0); [lia|]. congruence. }
  cbn [mbind res_bind]. rewrite vwrite_ok by lia. eexists. split; [done|].
  destruct (hist_insert u t (r2 :: hist u t) u2 Hs Ht) as [Hi1 Hi2].
  split_and!; [|done..]. constructor; cbn -[insert]; rewrite ?Hbtb; try done; try apply Hw.
  - by rewrite vsize_insert.
  - eapply Live_perm; [|exact Hlive]. by rewrite Hc2, Hc1.
  - intros j Hj. destruct (decide (j = t)) as [->|Hne].
    + rewrite Hi1. destruct (wf_threads u Hw t Ht) as (T1 & T2 & T3 & T4). split_and!.
      * constructor; [done|]. apply Forall_forall. intros r' Hin. rewrite Hseq. by apply Hy1.
      * destruct (wasIndirect r2); [|by rewrite Hpath]. destruct Hpath as (e & -> & He).
        rewrite <- Hseq in Hy2. clear -T2 Hy2 He. induction T2 as [|a l Hl IH Ha]; cbn.
        { repeat constructor. }
        constructor; [apply IH; set_solver|]. apply Forall_app. split; [done|].
        apply Forall_singleton. injection He as He _. rewrite He. apply Hy2. left.
      * intros r' [->|Hin]%elem_of_cons Hi.
        -- rewrite Hi in Hpath. destruct Hpath as (e & -> & He). exists e. split; [set_solver|done].
        -- destruct (T3 r' Hin Hi) as (e & He & Hes). exists e. split; [|done].
           destruct (wasIndirect r2); [|by rewrite Hpath]. destruct Hpath as (? & -> & _). set_solver.
      * intros r' [->|Hin]%elem_of_cons; [done|by apply T4].
    + rewrite Hi2, Hpo by lia. by apply (wf_threads u Hw).
Qed.

Lemma predict_ok inst sn p t u :
  wf u → 0 ≤ t < n → younger u t sn →
  ∃ u' pc' taken r, predict inst sn p t u = Ok (u', pc', taken) ∧ predicted_to t sn u r u' ∧
    (taken = false → predTaken r = true → isCall inst = false → isReturn inst = false →
     isDirectCtrl inst || negb (useIndirect u) = true →
     BPred.ghr (bp u') t = BPred.push_ghr (BPred.hist_mask (bp u)) (BPred.ghr (bp u) t) false) ∧
    (taken = true → predTaken r = true) ∧
    (predTaken r = false →
     BPred.ghr (bp u') t = BPred.push_ghr (BPred.hist_mask (bp u)) (BPred.ghr (bp u) t) false).
Proof.
  intros Hw Ht Hy. unfold predict. pose proof (tos_range (RAS u) t (wf_RAS u Hw) Ht) as Htr.
  destruct (predict_direction_ok inst (instAddr p) t (count ppBranches (count lookups u)) (wf_bp u Hw) Ht)
    as (x & dir & ptr & st & -> & Hfr & Hal & Hsv & Hg & _).
  cbn [mbind res_bind count predHist BTB RAS useIndirect iPred bp] in Hfr, Hal, Hsv, Hg |- *.
  set (u1 := mkUnit x (predHist u) (BTB u) (RAS u) (useIndirect u) (iPred u) st).
  set (r := newRecord sn (instAddr p) dir ptr t).
  pose proof Hfr as (Hbx & Hmx & Hgx).
  assert (∃ u2 r2 target taken,
    (if dir then predict_target inst sn p t ptr r u1
     else Ok (u1, (if isReturn inst then with_return r else r), advancePC p inst, false)) =
      Ok (u2, r2, target, taken) ∧ target_ok t u1 r u2 r2 ∧
    (taken = false → dir = true → isCall inst = false → isReturn inst = false →
      isDirectCtrl inst || negb (useIndirect u) = true →
      BPred.ghr (bp u2) t = BPred.push_ghr (BPred.hist_mask (bp u)) (BPred.ghr (bp u) t) false) ∧
    (taken = true → dir = true) ∧ (dir = false → BPred.ghr (bp u2) t = BPred.ghr x t))
    as (u2 & r2 & target & taken & -> & Hto & Htk & Htd & Hdf).
  { destruct dir.
    - destruct (predict_target_ok inst p t ptr r u1 (BPred.ghr (bp u) t) Ht) as
        (u2 & r2 & target & taken & Heq & Hto & Htk); try done; try apply Hw.
      { cbn. by rewrite Hmx. }
      exists u2, r2, target, taken. split; [exact Heq|]. split; [done|]. split; [|done].
      intros ? _ ? ? ?. rewrite Htk by done. cbn. by rewrite Hmx.
    - eexists _, _, _, _. split; [done|]. split; [|done].
      constructor; cbn; destruct (isReturn inst); try done; try apply Hw;
        (split_and!; [apply Hw|done|done|cbn; lia..]). }
  cbn [mbind res_bind].
  destruct (to_rec _ _ _ _ _ Hto) as (R1 & R2 & R3 & R4 & R5).
  pose proof (to_bp _ _ _ _ _ Hto) as (Hb2 & Hm2 & Hg2).
  destruct (push_record_ok t sn u u2 r2 Hw Ht Hy) as (u' & -> & Hw' & Hh' & Ho' & Hu'); try done;
    try apply (to_hist _ _ _ _ _ Hto); try apply (to_BTB _ _ _ _ _ Hto);
    try apply (to_RAS _ _ _ _ _ Hto); try apply (to_iPred _ _ _ _ _ Hto);
    try apply (to_path _ _ _ _ _ Hto); try apply (to_other _ _ _ _ _ Hto).
  { eapply (Live_same x); [intros q Hq; by rewrite (to_saved _ _ _ _ _ Hto)|].
    apply (Live_alloc (bp u)); [apply Hw|by rewrite R2|rewrite R2; by eexists]. }
  cbn [mbind res_bind]. eexists _, _, _, r2. split; [done|].
  rewrite Hu' in *. cbn [with_predHist bp BTB RAS iPred useIndirect] in *.
  split; [|split_and!].
  - constructor; cbn [with_predHist bp BTB RAS iPred useIndirect]; try done.
    + by rewrite (to_saved _ _ _ _ _ Hto), R2.
    + intros q Hq. rewrite (to_saved _ _ _ _ _ Hto). by apply Hal.
    + apply (to_RAS _ _ _ _ _ Hto).
    + pose proof (to_path _ _ _ _ _ Hto) as Hpt. destruct (wasIndirect r2).
      * destruct Hpt as (e & He & Hes). exists [e]. split; [done|]. apply Forall_singleton. injection Hes as -> _. exact R1.
      * exists []. split; [by rewrite app_nil_r|constructor].
    + apply (to_BTB _ _ _ _ _ Hto).
    + rewrite Hm2. exact Hmx.
    + intros j Hj Hne. split; [by apply Ho'|]. split; [rewrite Hg2 by done; by apply Hgx|].
      split; [by apply (to_RAS _ _ _ _ _ Hto)|by apply (to_other _ _ _ _ _ Hto)].
    + apply (to_config _ _ _ _ _ Hto).
  - intros H1 H2. apply Htk; [done|]. by rewrite R3 in H2.
  - rewrite R3. exact Htd.
  - rewrite R3. cbn. intros ->. rewrite Hdf by done. exact Hg.
Qed.

(** ** A run of predictions and its squash *)

Fixpoint predicts (l : list (StaticInst PC * Z * PC)) (t : Z) u : res (BPredUnit PC S) :=
  match l with
  | [] => Ok u
  | (inst, sn, p) :: l => '(u, _, _) ← predict inst sn p t u; predicts l t u
  end.

(** [u] is ahead of [u0] by predictions younger than [sn0], which unwind to [u0]. *)
Record ahead (t sn0 : Z) u0 (l : list (PredictorHistory PC)) u : Prop := {
  ah_wf : wf u;
  ah_hist : hist u t = l ++ hist u0 t;
  ah_young : ∀ r, r ∈ l → sn0 < seqNum r;
  ah_unwind : unwind (BPred.saved (bp u)) l (BPred.ghr (bp u) t) (tos_at (RAS u) t) =
    Some (BPred.ghr (bp u0) t, tos_at (RAS u0) t);
  ah_path : ∃ e, Indirect.path (iPred u) t = Indirect.path (iPred u0) t ++ e ∧
    Forall (λ x, sn0 < Indirect.seqNum x) e;
  ah_BTB : BTB u = BTB u0;
  ah_other : ∀ j, 0 ≤ j → j ≠ t → hist u j = hist u0 j ∧ BPred.ghr (bp u) j = BPred.ghr (bp u0) j ∧
    tos_at (RAS u) j = tos_at (RAS u0) j ∧ Indirect.path (iPred u) j = Indirect.path (iPred u0) j
}.

Lemma live_thread u t r : wf u → 0 ≤ t < n → r ∈ hist u t → is_Some (BPred.saved (bp u) (bpHistory r)).
Proof.
  intros Hw Ht Hin. destruct (concat_thread u t [] (wf_hist u Hw) Ht) as (_ & Hc & _).
  destruct (wf_live u Hw) as [_ Hf]. rewrite Forall_forall in Hf. apply Hf. rewrite Hc. set_solver.
Qed.

Lemma ahead_predict t sn0 u0 l u r u' sn :
  0 ≤ t < n → sn0 < sn → ahead t sn0 u0 l u → predicted_to t sn u r u' →
  ahead t sn0 u0 (r :: l) u'.
Proof.
  intros Ht Hsn Ha Hp. constructor.
  - apply Hp.
  - rewrite (pr_hist _ _ _ _ _ Hp), (ah_hist _ _ _ _ _ Ha). done.
  - intros r' [->|Hin]%elem_of_cons; [by rewrite (pr_seq _ _ _ _ _ Hp)|by apply Ha].
  - cbn. rewrite (pr_saved _ _ _ _ _ Hp). cbn. rewrite (pr_tos _ _ _ _ _ Hp), <- (ah_unwind _ _ _ _ _ Ha).
    apply unwind_ext. intros r' Hin. apply (pr_kept _ _ _ _ _ Hp).
    apply (live_thread u t); [apply Ha|done|]. rewrite (ah_hist _ _ _ _ _ Ha). set_solver.
  - destruct (ah_path _ _ _ _ _ Ha) as (e & Epath & He). destruct (pr_path _ _ _ _ _ Hp) as (e' & -> & He').
    rewrite Epath. exists (e ++ e'). split; [by rewrite app_assoc|]. apply Forall_app. split; [done|].
    eapply Forall_impl; [exact He'|]. cbn. intros; lia.
  - rewrite (pr_BTB _ _ _ _ _ Hp). apply Ha.
  - intros j Hj Hne. destruct (pr_other _ _ _ _ _ Hp j Hj Hne) as (-> & -> & -> & ->).
    by apply Ha.
Qed.

Lemma predicts_ahead t sn0 u0 (l : list (StaticInst PC * Z * PC)) done_l u :
  0 ≤ t < n → ahead t sn0 u0 done_l u →
  StronglySorted (λ a b, a.1.2 < b.1.2) l →
  Forall (λ x, sn0 < x.1.2 ∧ younger u t x.1.2) l →
  ∃ u' rs, predicts l t u = Ok u' ∧ length rs = (length l + length done_l)%nat ∧
    ahead t sn0 u0 rs u'.
Proof.
  intros Ht. revert done_l u. induction l as [|[[inst sn] p] l IH]; intros dl u Ha Hso Hf.
  { by exists u, dl. }
  apply StronglySorted_inv in Hso as [Hso Hlt]. apply Forall_cons in Hf as [[Hsn Hy] Hf]. cbn in *.
  destruct (predict_ok inst sn p t u (ah_wf _ _ _ _ _ Ha) Ht Hy) as (u1 & pc' & tk & r & -> & Hp & _).
  cbn [mbind res_bind].
  destruct (IH (r :: dl) u1) as (u' & rs & Hu' & Hlen & Ha').
  - by eapply ahead_predict.
  - done.
  - rewrite Forall_forall in *. intros x Hin. specialize (Hf x Hin) as [Hx [Hy1 Hy2]].
    specialize (Hlt x Hin). split; [done|]. split.
    + intros r'. rewrite (pr_hist _ _ _ _ _ Hp). intros [->|Hr']%elem_of_cons; [|by apply Hy1].
      rewrite (pr_seq _ _ _ _ _ Hp). done.
    + destruct (pr_path _ _ _ _ _ Hp) as (e & -> & He). intros a [Ha1|Ha1]%elem_of_app; [by apply Hy2|].
      rewrite Forall_forall in He. by rewrite (He a Ha1).
  - exists u', rs. split; [done|]. split; [cbn in Hlen; lia|done].
Qed.

Lemma squash_hist_keep sn (l e : list Indirect.HistoryEntry) :
  Forall (λ x, Indirect.seqNum x ≤ sn) l → Forall (λ x, sn < Indirect.seqNum x) e →
  Indirect.squash_hist sn (l ++ e) = l.
Proof.
  intros Hl He. induction Hl as [|a l Ha _ IH]; cbn.
  - destruct He as [|b e Hb _]; [done|]. cbn. by destruct (Z.ltb_spec sn (Indirect.seqNum b)); [|lia].
  - destruct (Z.ltb_spec sn (Indirect.seqNum a)); [lia|]. by rewrite IH.
Qed.

(** C2: A squash undoes any run of predictions.  From a well-formed unit, for any
    direction predictor keeping its promises, predicting any number of branches of a
    thread (calls, returns, direct and indirect branches, hit or miss) succeeds, and
    squashing them brings back the thread's global history, the top of its return address
    stack, its in-flight branches and its indirect path history; the BTB and every other
    thread are untouched throughout. *)
Theorem squash_undoes_predictions (l : list (StaticInst PC * Z * PC)) t sn u :
  wf u → 0 ≤ t < n →
  (∀ r, r ∈ hist u t → seqNum r ≤ sn) →
  (∀ e, e ∈ Indirect.path (iPred u) t → Indirect.seqNum e ≤ sn) →
  StronglySorted (λ a b, a.1.2 < b.1.2) l → Forall (λ x, sn < x.1.2) l →
  ∃ u1 u2, predicts l t u = Ok u1 ∧
    length (hist u1 t) = (length l + length (hist u t))%nat ∧
    squash sn t u1 = Ok u2 ∧ wf u2 ∧
    BPred.ghr (bp u2) t = BPred.ghr (bp u) t ∧ tos_at (RAS u2) t = tos_at (RAS u) t ∧
    hist u2 t = hist u t ∧ Indirect.path (iPred u2) t = Indirect.path (iPred u) t ∧
    BTB u2 = BTB u ∧
    (∀ j, 0 ≤ j → j ≠ t → hist u2 j = hist u j ∧ BPred.ghr (bp u2) j = BPred.ghr (bp u) j ∧
      tos_at (RAS u2) j = tos_at (RAS u) j ∧ Indirect.path (iPred u2) j = Indirect.path (iPred u) j).
Proof.
  intros Hw Ht Hh Hp Hso Hf.
  destruct (predicts_ahead t sn u l [] u Ht) as (u1 & rs & Hu1 & Hlen & Ha).
  - constructor; try done; [set_solver|]. exists []. by rewrite app_nil_r.
  - done.
  - rewrite Forall_forall in *. intros x Hin. specialize (Hf x Hin). split; [done|].
    split; [intros r Hr; specialize (Hh r Hr); lia|intros e He; specialize (Hp e He); lia].
  - destruct (wf_threads u Hw t Ht) as (Hsort & _).
    destruct (unit_squash_ok sn t u1 rs (hist u t) (ah_wf _ _ _ _ _ Ha) Ht (ah_hist _ _ _ _ _ Ha)
      (ah_young _ _ _ _ _ Ha) Hh Hsort) as (u2 & Hu2 & Hsq).
    exists u1, u2. pose proof (sq_unwind _ _ _ _ _ _ Hsq) as Hun.
    rewrite (ah_unwind _ _ _ _ _ Ha) in Hun. injection Hun as Hg Htos.
    split_and!; try done; try apply Hsq.
    + rewrite (ah_hist _ _ _ _ _ Ha), length_app. cbn in Hlen. lia.
    + rewrite (sq_path _ _ _ _ _ _ Hsq). destruct (ah_path _ _ _ _ _ Ha) as (e & -> & He).
      apply squash_hist_keep; [by apply Forall_forall|done].
    + rewrite (sq_BTB _ _ _ _ _ _ Hsq). apply Ha.
    + intros j Hj Hne. destruct (sq_other _ _ _ _ _ _ Hsq j Hj Hne) as (-> & -> & -> & ->). by apply Ha.
Qed.

(** ** The constructor *)

Lemma newUnit_ok (x : S) BTBEntries BTBTagSize shift use_ind hg ht sets ways tagSize pathLength :
  BPred.bp_wf n x →
  0 < n < 2 ^ 32 → 0 < rn < 2 ^ 32 → in_width 32 BTBEntries → in_width 32 sets →
  IntMath.IntMath.isPowerOf2 32 BTBEntries = true → IntMath.IntMath.isPowerOf2 32 sets = true →
  0 < ways < 2 ^ 32 → 0 < pathLength →
  ∃ u, newUnit x n BTBEntries BTBTagSize shift rn use_ind hg ht sets ways tagSize pathLength = Ok u ∧
    wf u ∧ bp u = x ∧ (∀ t, hist u t = []) ∧ (∀ t, Indirect.path (iPred u) t = []).
Proof.
  intros Hx Hn Hr HB Hs HBp Hsp Hways Hpl. unfold newUnit.
  pose proof (BTB.newBTB_ok (PC:=PC) BTBEntries BTBTagSize shift n HB ltac:(split; lia) ltac:(lia)) as Hb.
  destruct (BTB.newBTB BTBEntries BTBTagSize shift n) as [b|e]; [|destruct Hb; congruence].
  destruct Hb as [Hb _]. cbn [mbind res_bind]. unfold Indirect.newIndirect. rewrite Hsp. cbn [negb mbind res_bind].
  destruct (RAS.init_ok (PC:=PC) rn Hr) as (ras & -> & Hras & _). cbn [mbind res_bind].
  eexists. split; [done|].
  assert (∀ t : Z, default [] (replicate (Z.to_nat n) ([] : list (PredictorHistory PC)) !! Z.to_nat t) = []) as Hnil.
  { intros t. destruct (replicate _ _ !! _) as [h|] eqn:E; [|done]. by apply lookup_replicate in E as [-> _]. }
  assert (∀ t, Indirect.path (Indirect.mkIPred hg ht sets ways tagSize pathLength shift
    (replicate (Z.to_nat sets) (replicate (Z.to_nat ways) Indirect.newIEntry))
    (replicate (Z.to_nat n) (Indirect.mkThread [] 0))) t = []) as Hpath.
  { intros t. unfold Indirect.path. cbn. destruct (replicate _ _ !! _) as [h|] eqn:E; [|done].
    by apply lookup_replicate in E as [-> _]. }
  split_and!; try done. constructor; try done.
  - cbn. apply vsize_replicate. lia.
  - cbn. split; [apply vsize_replicate; lia|]. by apply Forall_replicate.
  - cbn. split_and!; cbn; try lia.
    + apply IntMath.IntMath.isPowerOf2_correct in Hsp; [done|lia|done].
    + apply vsize_replicate. destruct Hs; lia.
    + apply Forall_replicate, vsize_replicate. lia.
    + apply vsize_replicate. lia.
  - cbn. assert (concat (replicate (Z.to_nat n) ([] : list (PredictorHistory PC))) = []) as ->.
    { clear. induction (Z.to_nat n); done. }
    split; constructor.
  - intros t Ht. unfold hist. cbn [predHist iPred]. rewrite Hnil, Hpath.
    split_and!; try constructor; set_solver.
Qed.

(** ** [update]: commit *)

Lemma update_loop_ok done_sn t younger_l committed rest x :
  0 ≤ t < n → BPred.bp_wf n x →
  Live x ((committed ++ younger_l) ++ rest) →
  (∀ r, r ∈ committed → seqNum r ≤ done_sn) → (∀ r, r ∈ younger_l → done_sn < seqNum r) →
  ∃ x', update_loop done_sn t (committed ++ younger_l) x = Ok (x', younger_l) ∧
    BPred.bp_wf n x' ∧ BPred.hist_mask x' = BPred.hist_mask x ∧
    Live x' (younger_l ++ rest) ∧
    (∀ r, r ∈ younger_l ++ rest → BPred.saved x' (bpHistory r) = BPred.saved x (bpHistory r)) ∧
    (∀ j, 0 ≤ j → BPred.ghr x' j = BPred.ghr x j).
Proof.
  intros Ht. revert x. induction committed as [|r l IH]; intros x Hw Hlive Hc Hy.
  - exists x. split; [|done]. destruct younger_l as [|r0 l0]; [done|]. cbn.
    specialize (Hy r0 ltac:(left)). by destruct (Z.leb_spec (seqNum r0) done_sn); [lia|].
  - cbn [app update_loop]. specialize (Hc r ltac:(left)) as Hr.
    destruct (Z.leb_spec (seqNum r) done_sn); [|lia].
    pose proof Hlive as [Hnd Hf]. cbn in Hf. apply Forall_cons in Hf as [[g Hg] _].
    assert (∃ x1, (if wasSquashed r then BPred.retireSquashed x t (bpHistory r)
       else BPred.update x t (pc r) (predTaken r) (bpHistory r) false) = Ok x1 ∧
       BPred.frame n x x1 t ∧ BPred.ghr x1 t = BPred.ghr x t ∧ BPred.released x x1 (bpHistory r))
      as (x1 & -> & (Hw1 & Hm1 & Hg1) & Hgt & Hrel).
    { destruct (wasSquashed r).
      - by apply (BPred.retireSquashed_law n x t (bpHistory r) g).
      - destruct (BPred.update_law n x t (pc r) (predTaken r) (bpHistory r) g false Hw Ht Hg)
          as (x1 & ? & ? & ? & ?). by exists x1. }
    cbn [mbind res_bind]. pose proof (Live_release _ _ _ _ Hlive Hrel) as Hlive1.
    destruct (IH x1) as (x' & Hu & Hw' & Hm' & Hl' & Hs' & Hg'); [done|exact Hlive1|set_solver|done|].
    exists x'. split_and!; try done; [by rewrite Hm'| |].
    + intros r' Hin. rewrite Hs' by done. apply Hrel. cbn in Hnd.
      destruct (bpHistory r') as [a|] eqn:Ha; [left|by right]. intros E. rewrite <- E in Hnd.
      apply NoDup_cons in Hnd as [Hnd _]. apply Hnd, list_elem_of_omap. exists r'. set_solver.
    + intros j Hj. rewrite Hg' by done. destruct (decide (j = t)) as [->|]; [done|by apply Hg1].
Qed.

Lemma sorted_lookup (l : list Indirect.HistoryEntry) :
  StronglySorted (λ a b, Indirect.seqNum a < Indirect.seqNum b) l →
  ∀ i j a b, l !! i = Some a → l !! j = Some b → (i < j)%nat → Indirect.seqNum a < Indirect.seqNum b.
Proof.
  induction 1 as [|x l Hs IH Hf]; intros [|i] [|j] a b Ha Hb Hij; try done; try lia.
  - injection Ha as <-. cbn in Hb. by apply (Forall_lookup_1 _ _ _ _ Hf Hb).
  - cbn in *. apply (IH i j); [done|done|lia].
Qed.

(** Committing up to [done_sn] retires exactly the branches up to it: the unit's
    records of the thread that remain are those younger than [done_sn], in order; each
    retired record's history object is released (the invariant keeps one live object per
    record); the global histories, the return address stacks, the BTB and the other
    threads are unchanged; and the call never fails. *)
Theorem commit_retires u done_sn t :
  wf u → 0 ≤ t < n →
  ∃ u', update done_sn t u = Ok u' ∧ wf u' ∧
    hist u' t = filter (λ r, done_sn < seqNum r) (hist u t) ∧
    (∀ j, 0 ≤ j → BPred.ghr (bp u') j = BPred.ghr (bp u) j) ∧
    RAS u' = RAS u ∧ BTB u' = BTB u ∧
    (∀ r, r ∈ hist u' t → BPred.saved (bp u') (bpHistory r) = BPred.saved (bp u) (bpHistory r)) ∧
    (∀ j, 0 ≤ j → j ≠ t → hist u' j = hist u j ∧
      Indirect.path (iPred u') j = Indirect.path (iPred u) j).
Proof.
  intros Hw Ht. pose proof (wf_hist u Hw) as Hs.
  destruct (wf_threads u Hw t Ht) as (Hs1 & Hs2 & Hind & Hidx).
  destruct (sorted_split done_sn _ Hs1) as (yng & old & Hsplit & Hyng & Hold & _).
  destruct (concat_thread u t yng Hs Ht) as (Hlk & Hc1 & Hc2).
  set (rest := concat (delete (Z.to_nat t) (predHist u))) in *.
  destruct (Indirect.commit_ok n (iPred u) done_sn t (wf_iPred u Hw) Ht (sorted_lookup _ Hs2))
    as (ip & Hcm & Hwip & Hpath & Hpo).
  unfold update. rewrite Hcm. cbn [mbind res_bind].
  assert (vread (predHist u) t = Ok (hist u t)) as ->.
  { destruct (vread_ok (predHist u) t) as (h0 & -> & Hh0); [lia|]. congruence. }
  cbn [mbind res_bind]. rewrite Hsplit, rev_app_distr.
  destruct (update_loop_ok done_sn t (rev yng) (rev old) rest (bp u) Ht (wf_bp u Hw))
    as (x' & -> & Hw' & Hm' & Hl' & Hsv & Hg').
  { eapply Live_perm; [|apply (wf_live u Hw)]. rewrite Hc1, Hsplit.
    rewrite <- !(Permutation_rev yng), <- (Permutation_rev old). solve_Permutation. }
  { intros r Hin. apply Hold. by apply elem_of_rev. }
  { intros r Hin. apply Hyng. by apply elem_of_rev. }
  cbn [mbind res_bind]. rewrite vwrite_ok, rev_involutive by lia. eexists. split; [done|].
  destruct (hist_insert u t yng (with_bp x' (with_iPred ip u)) Hs Ht) as [Hi1 Hi2].
  assert (Live x' (yng ++ rest)) as Hl2.
  { eapply Live_perm; [|exact Hl']. by rewrite <- (Permutation_rev yng). }
  assert (Indirect.path ip t = Indirect.path (iPred u) t ∨
    ∃ e, Indirect.path (iPred u) t = e :: Indirect.path ip t ∧ Indirect.seqNum e ≤ done_sn) as Hp2 by done.
  split_and!; cbn [with_predHist with_bp with_iPred bp BTB RAS iPred]; try done.
  - constructor; cbn -[insert]; try done; try apply Hw.
    + by rewrite vsize_insert.
    + eapply Live_perm; [|exact Hl2]. by rewrite Hc2.
    + intros j Hj. destruct (decide (j = t)) as [->|Hne].
      * rewrite Hi1. split_and!.
        -- rewrite Hsplit in Hs1. clear -Hs1. induction yng as [|a l IH]; [constructor|].
           cbn in Hs1. apply StronglySorted_inv in Hs1 as [Hs1 Ha]. constructor; [by apply IH|].
           by apply Forall_app in Ha as [Ha _].
        -- destruct Hp2 as [->|(e & E & _)]; [done|]. rewrite E in Hs2. by apply StronglySorted_inv in Hs2 as [Hs2 _].
        -- intros r Hin Hi. destruct (Hind r) as (e & He & Hes); [rewrite Hsplit; set_solver|done|].
           destruct Hp2 as [->|(e0 & E & Hle)]; [by exists e|]. exists e. split; [|done].
           rewrite E in He. apply elem_of_cons in He as [->|He]; [|done].
           specialize (Hyng r Hin). injection Hes as Hes _. lia.
        -- intros r Hin. apply Hidx. rewrite Hsplit. set_solver.
      * rewrite Hi2, Hpo by lia. by apply (wf_threads u Hw).
  - rewrite Hi1, filter_app, (filter_none _ old), app_nil_r, filter_all; [done|..].
    + done.
    + intros r Hin. specialize (Hold r Hin). lia.
  - intros r Hin. rewrite Hi1 in Hin. apply Hsv. apply elem_of_app. left.
    by apply elem_of_rev.
  - intros j Hj Hne. split; [by apply Hi2|by apply Hpo].
Qed.

(** ** [squash] with a correction *)

Lemma sorted_same_seq (l l' : list Indirect.HistoryEntry) :
  Indirect.seqNum <$> l = Indirect.seqNum <$> l' →
  StronglySorted (λ a b, Indirect.seqNum a < Indirect.seqNum b) l →
  StronglySorted (λ a b, Indirect.seqNum a < Indirect.seqNum b) l'.
Proof.
  revert l'. induction l as [|a l IH]; intros [|b l'] E Hs; try done.
  cbn in E. injection E as Ea El. apply StronglySorted_inv in Hs as [Hs Ha].
  constructor; [by apply IH|]. rewrite <- Ea. clear -El Ha.
  assert (∀ m : list Indirect.HistoryEntry, Forall (λ x, Indirect.seqNum a < Indirect.seqNum x) m ↔
    Forall (λ z, Indirect.seqNum a < z) (Indirect.seqNum <$> m)) as Hm by (intros m; by rewrite Forall_fmap).
  apply Hm. rewrite <- El. by apply Hm.
Qed.

(** Replacing the front record by one for the same branch. *)
Lemma replace_front_ok t u u4 r r' older :
  wf u → 0 ≤ t < n → hist u t = r :: older →
  BPred.bp_wf n (bp u4) → (∀ q, BPred.saved (bp u4) q = BPred.saved (bp u) q) →
  predHist u4 = predHist u → BTB.wf (BTB u4) → ras_ok (RAS u4) → Indirect.wf n (iPred u4) →
  path_key <$> Indirect.path (iPred u4) t = path_key <$> Indirect.path (iPred u) t →
  (∀ j, 0 ≤ j → j ≠ t → Indirect.path (iPred u4) j = Indirect.path (iPred u) j) →
  bpHistory r' = bpHistory r → seqNum r' = seqNum r → RASIndex r' = RASIndex r →
  wasIndirect r' = wasIndirect r → pc r' = pc r →
  ∃ l, vwrite (predHist u4) t (r' :: older) = Ok l ∧ wf (with_predHist l u4) ∧
    hist (with_predHist l u4) t = r' :: older ∧
    ∀ j, 0 ≤ j → j ≠ t → hist (with_predHist l u4) j = hist u j.
Proof.
  intros Hw Ht Hh Hb Hsv Hph Hbtb Hr Hip Hseq Hpo Hp1 Hp2 Hp3 Hp4 Hp5.
  pose proof (wf_hist u Hw) as Hs. rewrite Hph, vwrite_ok by lia.
  destruct (concat_thread u t (r' :: older) Hs Ht) as (Hlk & Hc1 & Hc2).
  destruct (hist_insert u t (r' :: older) u4 Hs Ht) as [Hi1 Hi2].
  destruct (wf_threads u Hw t Ht) as (T1 & T2 & T3 & T4).
  eexists. split; [done|]. split_and!; [|done..]. constructor; cbn -[insert]; try done.
  - by rewrite vsize_insert.
  - eapply (Live_same (bp u)); [intros q; by rewrite Hsv|].
    eapply Live_perm; [symmetry; exact Hc2|].
    pose proof (wf_live u Hw) as Hlive. eapply Live_perm in Hlive; [|exact Hc1].
    rewrite Hh in Hlive. destruct Hlive as [L1 L2]. split.
    + cbn in L1 |- *. by rewrite Hp1.
    + cbn in L2 |- *. apply Forall_cons in L2 as [L2 L3]. constructor; [by rewrite Hp1|done].
  - intros j Hj. destruct (decide (j = t)) as [->|Hne].
    + rewrite Hi1. rewrite Hh in T1, T3, T4. split_and!.
      * apply StronglySorted_inv in T1 as [T1 T1']. constructor; [done|]. by rewrite Hp2.
      * eapply sorted_same_seq; [|exact T2]. apply (f_equal (fmap fst)) in Hseq. by rewrite <- !list_fmap_compose in Hseq.
      * intros r0 Hin Hi.
        assert (∃ e, e ∈ Indirect.path (iPred u) t ∧ path_key e = branch_key r0) as (e & He & Hes).
        { apply elem_of_cons in Hin as [->|Hin]; [|apply T3; [by right|done]].
          unfold branch_key. rewrite Hp2, Hp5. apply (T3 r); [left|by rewrite <- Hp4]. }
        assert (path_key e ∈ path_key <$> Indirect.path (iPred u4) t) as Hin4.
        { rewrite Hseq. by apply list_elem_of_fmap_2. }
        apply list_elem_of_fmap in Hin4 as (e' & E' & He'). exists e'. split; [done|]. congruence.
      * intros r0 [->|Hin]%elem_of_cons; [rewrite Hp3; apply T4; left|apply T4; by right].
    + rewrite Hi2, Hpo by lia. by apply (wf_threads u Hw).
Qed.

(** The repair of the stack and the record of the front branch found not taken. *)
Lemma not_taken_RAS u t r :
  ras_ok (RAS u) → 0 ≤ t < n → 0 ≤ RASIndex r < rn →
  ∃ l r', (if usedRAS r
     then u ← on_RAS t (RAS.restore (RASIndex r) (RASTarget r)) u; Ok (u, set_usedRAS false r)
     else if wasCall r && pushedRAS r
     then u ← on_RAS t (λ x, Ok (RAS.pop x)) u; Ok (u, set_pushed false r)
     else Ok (u, r)) = Ok (with_RAS l u, r') ∧ ras_ok l ∧
    tos_at l t = undo_tos r (tos_at (RAS u) t) ∧ bpHistory r' = bpHistory r ∧
    seqNum r' = seqNum r ∧ RASIndex r' = RASIndex r ∧ wasIndirect r' = wasIndirect r ∧
    wasSquashed r' = wasSquashed r ∧ pc r' = pc r.
Proof.
  intros Hr Ht Hi. unfold undo_tos. destruct (usedRAS r).
  - destruct (on_restore_ok u t (RASIndex r) (RASTarget r) Hr Ht Hi) as (l & -> & ? & ? & _).
    by exists l, (set_usedRAS false r).
  - destruct (wasCall r && pushedRAS r).
    + destruct (on_pop_ok u t Hr Ht) as (l & -> & ? & ? & _). by exists l, (set_pushed false r).
    + exists (RAS u), r. split; [by destruct u|]. done.
Qed.

Lemma unwind_snoc sv l r g k g' k' s :
  unwind sv l g k = Some (g', k') → sv (bpHistory r) = Some s →
  unwind sv (l ++ [r]) g k = Some (s, undo_tos r k').
Proof.
  revert g k. induction l as [|r0 l IH]; intros g k Hu Hs; cbn in *.
  - rewrite Hs. cbn. by injection Hu as <- <-.
  - destruct (sv (bpHistory r0)); [|done]. cbn in *. by apply IH.
Qed.

(** The indirect predictor has learned that branch [pc] with number [sn], which saw the global
    history [g], goes to [tgt]: the last entry of the thread's path history is that branch with its
    target, and when the path is taken back to what it was before the branch, the branch is looked
    up with the target. *)
Definition indirect_trained (ip : Indirect.IndirectPredictor PC) (t pc sn g : Z) (tgt : PC) : Prop :=
  ∃ older ip', Indirect.path ip t = older ++ [Indirect.mkHist pc (instAddr tgt) sn] ∧
    Indirect.squash ip (sn - 1) t = Ok ip' ∧ Indirect.path ip' t = older ∧ Indirect.lookup ip' pc g t = Ok (Some tgt).

(** The last entry of a sorted path with an entry that none exceeds. *)
Lemma last_entry (l : list Indirect.HistoryEntry) e0 e sn :
  StronglySorted (λ a b, Indirect.seqNum a < Indirect.seqNum b) (l ++ [e0]) → (∀ x, x ∈ l ++ [e0] → Indirect.seqNum x ≤ sn) →
  e ∈ l ++ [e0] → Indirect.seqNum e = sn → e = e0 ∧ Forall (λ x, Indirect.seqNum x ≤ sn - 1) l.
Proof.
  intros Hs Hle He Hsn. assert (Forall (λ x, Indirect.seqNum x < Indirect.seqNum e0) l) as Hlt.
  { clear -Hs. induction l as [|x l IH]; [constructor|]. cbn in Hs. apply StronglySorted_inv in Hs as [Hs Hf].
    constructor; [|by apply IH]. apply Forall_app in Hf as [_ Hf]. by inversion Hf. }
  assert (Indirect.seqNum e0 ≤ sn) by (apply Hle; set_solver). split; [|eapply Forall_impl; [exact Hlt|]; cbn; lia].
  apply elem_of_app in He as [He|He]; [|by apply list_elem_of_singleton in He]. rewrite Forall_forall in Hlt. specialize (Hlt e He). cbn in Hlt. lia.
Qed.

Lemma squash_corrected_ok u sn tgt (taken : bool) t rnd l r older g :
  wf u → 0 ≤ t < n → hist u t = l ++ r :: older →
  (∀ r', r' ∈ l → sn < seqNum r') → seqNum r = sn →
  BPred.saved (bp u) (bpHistory r) = Some g →
  ∃ u' r', squash_corrected sn tgt taken t rnd u = Ok u' ∧ wf u' ∧
    hist u' t = r' :: older ∧ seqNum r' = sn ∧ wasSquashed r' = true ∧
    bpHistory r' = bpHistory r ∧
    BPred.ghr (bp u') t = BPred.push_ghr (BPred.hist_mask (bp u)) g taken ∧
    (taken = true → wasIndirect r = false → BTB.lookup (BTB u') (pc r) t = Ok tgt) ∧
    (taken = true → wasIndirect r = true → indirect_trained (iPred u') t (pc r) sn g tgt) ∧
    (taken = false → unwind (BPred.saved (bp u)) (l ++ [r]) (BPred.ghr (bp u) t) (tos_at (RAS u) t) =
      Some (g, tos_at (RAS u') t)) ∧
    (taken = true → wasReturn r = true → usedRAS r = false →
      usedRAS r' = true ∧ RASIndex r' = RASIndex r).
Proof.
  intros Hw Ht Hh Hl Hsn Hg.
  destruct (wf_threads u Hw t Ht) as (T1 & T2 & T3 & T4).
  assert (StronglySorted (λ a b, seqNum b < seqNum a) (r :: older)) as Hso.
  { rewrite Hh in T1. clear -T1. induction l as [|a l IH]; [done|].
    apply IH. by apply StronglySorted_inv in T1 as [T1 _]. }
  assert (∀ r', r' ∈ r :: older → seqNum r' ≤ sn) as Hold.
  { apply StronglySorted_inv in Hso as [_ Hf]. rewrite Forall_forall in Hf.
    intros r' [->|Hin]%elem_of_cons; [lia|]. specialize (Hf r' Hin). cbn in Hf. lia. }
  unfold squash_corrected. set (u0 := count ppMisses (count condIncorrect u)).
  assert (wf u0) as Hw0 by (by destruct Hw).
  destruct (unit_squash_ok sn t u0 l (r :: older) Hw0 Ht Hh Hl Hold Hso) as (u2 & -> & Hsq).
  cbn [mbind res_bind]. pose proof (sq_wf _ _ _ _ _ _ Hsq) as Hw2.
  pose proof (sq_hist _ _ _ _ _ _ Hsq) as Hh2. pose proof (wf_hist u2 Hw2) as Hs2.
  destruct (concat_thread u2 t [] Hs2 Ht) as (Hlk2 & Hc2 & _).
  assert (vread (predHist u2) t = Ok (r :: older)) as ->.
  { destruct (vread_ok (predHist u2) t) as (h0 & -> & Hh0); [lia|]. congruence. }
  cbn [mbind res_bind]. rewrite bind_assert by (apply Z.eqb_eq; lia).
  assert (BPred.saved (bp u2) (bpHistory r) = Some g) as Hg2.
  { rewrite (sq_saved _ _ _ _ _ _ Hsq); [done|]. rewrite Hc2, Hh2. set_solver. }
  set (u3 := if usedRAS r then count RASIncorrect u2 else u2).
  assert (bp u3 = bp u2 ∧ predHist u3 = predHist u2 ∧ RAS u3 = RAS u2 ∧ BTB u3 = BTB u2 ∧
    iPred u3 = iPred u2) as (E1 & E2 & E3 & E4 & E5) by (subst u3; by destruct (usedRAS r)).
  rewrite E1, (BPred.getGHR_law n (bp u2) t _ g (wf_bp u2 Hw2) Hg2). cbn [mbind res_bind].
  destruct (BPred.update_law n (bp u2) t (pc r) taken (bpHistory r) g true (wf_bp u2 Hw2) Ht Hg2)
    as (x & -> & (Hbx & Hmx & _) & Hgx & Hsx). cbn [mbind res_bind].
  rewrite (sq_mask _ _ _ _ _ _ Hsq) in Hgx.
  assert (0 ≤ RASIndex r < rn) as Hri. { apply T4. rewrite Hh. set_solver. }
  pose proof (wf_RAS u2 Hw2) as Hr2. rewrite <- E3 in Hr2.
  assert (ras_ok (RAS (with_bp x u3))) as Hr3 by done.
  pose proof (sq_unwind _ _ _ _ _ _ Hsq) as Hun.
  destruct taken.
  - (* taken *)
    assert (∃ ras r1, (if wasReturn (with_squashed r) && negb (usedRAS (with_squashed r))
      then u ← on_RAS t (λ x, Ok (RAS.pop x)) (with_bp x u3); Ok (u, set_usedRAS true (with_squashed r))
      else Ok (with_bp x u3, with_squashed r)) = Ok (with_RAS ras (with_bp x u3), r1) ∧ ras_ok ras ∧
      bpHistory r1 = bpHistory r ∧ seqNum r1 = seqNum r ∧ RASIndex r1 = RASIndex r ∧
      wasIndirect r1 = wasIndirect r ∧ wasSquashed r1 = true ∧ pc r1 = pc r ∧
      (wasReturn r = true → usedRAS r = false → usedRAS r1 = true))
      as (ras & r1 & -> & Hras & P1 & P2 & P3 & P4 & P5 & P6 & P7).
    { cbn [wasReturn usedRAS with_squashed]. destruct (wasReturn r && negb (usedRAS r)) eqn:Hret.
      - destruct (on_pop_ok (with_bp x u3) t Hr3 Ht) as (ras & -> & ? & _). by eexists _, _.
      - exists (RAS u3), (with_squashed r). split; [by destruct u3|]. split_and!; try done.
        intros Hx1 Hx2. by rewrite Hx1, Hx2 in Hret. }
    cbn [mbind res_bind]. rewrite P4. destruct (wasIndirect r) eqn:Hwi.
    + destruct (T3 r) as (e & He & Hes); [rewrite Hh; set_solver|done|].
      pose proof (sq_path _ _ _ _ _ _ Hsq) as Hp2.
      change (iPred u0) with (iPred u) in Hp2.
      injection Hes as Hes1 Hes2. assert (e ∈ Indirect.path (iPred u2) t) as He2.
      { rewrite Hp2. apply (squash_hist_sorted sn _ T2). split; [done|lia]. }
      destruct (Indirect.path (iPred u2) t) as [|e0 l0 _] eqn:Epath using rev_ind; [set_solver|].
      cbn [count with_RAS with_bp iPred]. rewrite E5.
      destruct (Indirect.recordTarget_ok n (iPred u2) (seqNum r1) g tgt t rnd l0 e0
        (wf_iPred u2 Hw2) Ht Epath) as (ip & -> & Hwip & Hpip & Hpo & Hlk).
      assert (indirect_trained ip t (pc r) (seqNum r) g tgt) as Htr.
      { destruct (squash_hist_sorted sn _ T2) as [Hso2 Hin2]. rewrite <- Hp2 in Hso2, Hin2.
        destruct (last_entry l0 e0 e sn Hso2) as [-> Hl0]; [intros y Hy; by apply Hin2|done|congruence|].
        rewrite Hes1, Hes2 in *. rewrite <- Hsn in Hl0.
        destruct (Indirect.set_hist_ok n ip t l0 Hwip Ht) as (ip' & Hip' & Hwip' & Hpip' & _ & lt & ->).
        exists l0, (Indirect.with_threads lt ip). split; [done|]. rewrite Indirect.squash_set_hist, Hpip, Indirect.squash_hist_app by (done || cbn; lia).
        split; [done|]. split; [done|]. apply Hlk; [done|]. by destruct Hwip' as (_ & _ & _ & _ & _ & ?). }
      cbn [mbind res_bind].
      destruct (replace_front_ok t u2 (with_iPred ip (count indirectMispredicted
        (with_RAS ras (with_bp x u3)))) r r1 older Hw2 Ht Hh2) as (lw & Hlw & Hww & Hhw & _);
        cbn; rewrite ?E2, ?E4; try done; try apply Hw2; try congruence.
      { rewrite Hpip, Epath, !fmap_app. done. }
      cbn [with_iPred predHist count with_RAS with_bp] in Hlw. rewrite E2 in Hlw. rewrite Hlw. cbn [mbind res_bind]. eexists _, r1. split; [done|].
      split_and!; try done; try congruence.
      * intros _ _. cbn [iPred with_predHist with_iPred]. by rewrite <- Hsn.
      * intros _ Hx1 Hx2. split; [by apply P7|done].
    + destruct (BTB.btb_update_ok (BTB u2) (pc r) tgt t (wf_BTB u2 Hw2)) as [Hbu Hbw].
      cbn [with_RAS with_bp BTB]. rewrite E4, P6, Hbu. cbn [mbind res_bind].
      match goal with |- context [with_BTB ?b _] => set (b' := b) in * end.
      destruct (replace_front_ok t u2 (with_BTB b' (with_RAS ras (with_bp x u3))) r r1 older Hw2 Ht Hh2)
        as (lw & Hlw & Hww & Hhw & _); cbn -[b']; rewrite ?E2, ?E5; try done; try apply Hw2; try congruence.
      cbn [with_BTB predHist with_RAS with_bp] in Hlw. rewrite E2 in Hlw. rewrite Hlw. cbn [mbind res_bind]. eexists _, r1. split; [done|].
      split_and!; try done; try congruence;
        [|intros _ Hx1 Hx2; split; [by apply P7|done]].
      intros _ _. cbn -[b']. destruct (BTB.btb_read b' (pc r) t Hbw) as (e & He & _ & ->).
      pose proof (BTB.getIndex_range (BTB u2) (pc r) t (wf_BTB u2 Hw2)) as Hgi.
      pose proof (wf_BTB u2 Hw2) as (_ & _ & Hbs). unfold vsize in Hbs.
      change (BTB.getIndex b' (pc r) t) with (BTB.getIndex (BTB u2) (pc r) t) in He.
      subst b'. cbn -[insert] in He. rewrite list_lookup_insert_eq in He by lia. injection He as <-.
      unfold BTB.hit. cbn. change (BTB.getTag (BTB.with_btb _ _) (pc r)) with (BTB.getTag (BTB u2) (pc r)).
      by rewrite !Z.eqb_refl.
  - (* not taken *)
    destruct (not_taken_RAS (with_bp x u3) t (with_squashed r) Hr3 Ht Hri)
      as (ras & r1 & -> & Hras & Htos & P1 & P2 & P3 & P4 & P5 & P6).
    cbn [mbind res_bind].
    destruct (replace_front_ok t u2 (with_RAS ras (with_bp x u3)) r r1 older Hw2 Ht Hh2)
      as (lw & Hlw & Hww & Hhw & _); cbn; rewrite ?E2, ?E4, ?E5; try done; try apply Hw2.
    cbn [with_RAS predHist with_bp] in Hlw. rewrite E2 in Hlw. rewrite Hlw. cbn [mbind res_bind]. eexists _, r1. split; [done|].
    split_and!; try done; try congruence.
    { by rewrite P2. }
    intros _. cbn. rewrite Htos. cbn. rewrite E3.
    change (undo_tos (with_squashed r)) with (undo_tos r).
    eapply unwind_snoc; [exact Hun|done].
Qed.

(** C16: Correcting a mispredicted branch: squashing back to a branch still in flight with
    its actual outcome never fails and keeps the invariant; the younger branches are gone
    and the branch's record stays, marked squashed; the global history is the one the
    branch saw with the actual direction shifted in; a taken branch's target is then in
    the BTB, or for an indirect branch in its path-history entry and in the target cache, where
    a lookup with the histories the branch saw finds it; a branch found not taken has its use
    of the return address stack undone. *)
Theorem squash_corrects u sn tgt (taken : bool) t rnd l r older g :
  wf u → 0 ≤ t < n → hist u t = l ++ r :: older →
  (∀ r', r' ∈ l → sn < seqNum r') → seqNum r = sn →
  BPred.saved (bp u) (bpHistory r) = Some g →
  ∃ u' r', squash_corrected sn tgt taken t rnd u = Ok u' ∧ wf u' ∧
    hist u' t = r' :: older ∧ seqNum r' = sn ∧ wasSquashed r' = true ∧
    bpHistory r' = bpHistory r ∧
    BPred.ghr (bp u') t = BPred.push_ghr (BPred.hist_mask (bp u)) g taken ∧
    (taken = true → wasIndirect r = false → BTB.lookup (BTB u') (pc r) t = Ok tgt) ∧
    (taken = true → wasIndirect r = true → indirect_trained (iPred u') t (pc r) sn g tgt) ∧
    (taken = false → unwind (BPred.saved (bp u)) (l ++ [r]) (BPred.ghr (bp u) t) (tos_at (RAS u) t) =
      Some (g, tos_at (RAS u') t)).
Proof.
  intros Hw Ht Hh Hl Hsn Hg.
  destruct (squash_corrected_ok u sn tgt taken t rnd l r older g Hw Ht Hh Hl Hsn Hg)
    as (u' & r' & ? & ? & ? & ? & ? & ? & ? & ? & ? & ? & _).
  by exists u', r'.
Qed.

(** A branch whose direction is predicted taken but which misses in the BTB is
    predicted not taken, and the global history is told so, but its record keeps the
    prediction taken that was made first: when the branch commits as predicted, not taken,
    the direction predictor is trained with the outcome taken. *)
Theorem btb_miss_trains_taken inst sn p t u x ptr :
  wf u → 0 ≤ t < n → younger u t sn →
  isUncondCtrl inst = false → isReturn inst = false → isCall inst = false → isDirectCtrl inst = true →
  BPred.lookup (bp u) t (instAddr p) = Ok (x, true, ptr) →
  BTB.valid (BTB u) (instAddr p) t = Ok false →
  ∃ u' r, predict inst sn p t u = Ok (u', advancePC p inst, false) ∧ hist u' t = r :: hist u t ∧
    BPred.ghr (bp u') t = BPred.push_ghr (BPred.hist_mask (bp u)) (BPred.ghr (bp u) t) false ∧
    predTaken r = true ∧
    update_loop sn t [r] (bp u') =
      (x' ← BPred.update (bp u') t (instAddr p) true (bpHistory r) false; Ok (x', [])).
Proof.
  intros Hw Ht Hy Hun Hret Hcall Hdir Hlk Hval.
  destruct (BPred.lookup_law n (bp u) t (instAddr p) (wf_bp u Hw) Ht)
    as (x1 & t1 & p1 & Hl & (Hbx & Hmx & _) & _ & _ & Hg).
  rewrite Hlk in Hl. injection Hl as <- <- <-.
  pose proof (wf_hist u Hw) as Hs. destruct (concat_thread u t [] Hs Ht) as (Hh & _ & _).
  rewrite <- Hmx in Hg.
  destruct (BPred.btbUpdate_law n x t (instAddr p) ptr (BPred.ghr (bp u) t) Hbx Ht Hg)
    as (x2 & Hbtb & _ & Hg2 & _).
  unfold predict, predict_direction. rewrite Hun. cbn [count bp]. rewrite Hlk. cbn [mbind res_bind].
  unfold predict_target. rewrite Hret, Hcall, Hdir. cbn [mbind res_bind orb with_bp count BTB negb andb].
  rewrite Hval. cbn [mbind res_bind bp with_bp count]. rewrite Hbtb. cbn [mbind res_bind].
  unfold push_front. cbn [with_bp count predHist].
  assert (vread (predHist u) t = Ok (hist u t)) as ->.
  { destruct (vread_ok (predHist u) t) as (h0 & -> & Hh0); [lia|]. congruence. }
  cbn [mbind res_bind]. rewrite vwrite_ok by lia. cbn [mbind res_bind].
  eexists _, (newRecord sn (instAddr p) true ptr t). split; [done|]. split_and!.
  - unfold hist at 1. cbn -[insert]. rewrite list_lookup_insert_eq by (unfold vsize in Hs; lia). done.
  - cbn. by rewrite Hg2, Hmx.
  - done.
  - cbn. by rewrite Z.leb_refl.
Qed.

(** A return that was predicted not taken and turns out taken pops the return address
    stack late, and its record is marked as having used the stack without the index and
    target it popped.  When an older branch later squashes it, the stack is "restored" to
    entry 0, wherever its top was. *)
Theorem late_return_squash_resets_top u sn sn' tgt t rnd r older :
  wf u → 0 ≤ t < n → hist u t = r :: older → seqNum r = sn → sn' < sn →
  (∀ r', r' ∈ older → seqNum r' ≤ sn') →
  wasReturn r = true → usedRAS r = false → RASIndex r = 0 →
  ∃ u1 u2, squash_corrected sn tgt true t rnd u = Ok u1 ∧ squash sn' t u1 = Ok u2 ∧
    hist u2 t = older ∧ tos_at (RAS u2) t = 0.
Proof.
  intros Hw Ht Hh Hsn Hlt Hold Hret Hused Hidx.
  assert (is_Some (BPred.saved (bp u) (bpHistory r))) as [g Hg].
  { apply (live_thread u t); [done..|]. rewrite Hh. left. }
  destruct (squash_corrected_ok u sn tgt true t rnd [] r older g Hw Ht Hh)
    as (u1 & r' & Hu1 & Hw1 & Hh1 & Hs1 & _ & _ & _ & _ & _ & _ & Hlast); [set_solver|done|done|].
  destruct (Hlast eq_refl Hret Hused) as [Hu' Hi'].
  destruct (wf_threads u1 Hw1 t Ht) as (T1 & _).
  rewrite Hh1 in T1. apply StronglySorted_inv in T1 as [T1 _].
  destruct (unit_squash_ok sn' t u1 [r'] older Hw1 Ht Hh1) as (u2 & Hu2 & Hsq); [|done|done|].
  { intros r0 ->%list_elem_of_singleton. lia. }
  exists u1, u2. split_and!; [done|done|apply Hsq|].
  pose proof (sq_unwind _ _ _ _ _ _ Hsq) as Hun. cbn in Hun.
  destruct (BPred.saved (bp u1) (bpHistory r')); [|done]. cbn in Hun. injection Hun as _ <-.
  unfold undo_tos. rewrite Hu'. congruence.
Qed.

End proofs.
(** ** Concrete units: Alpha, two threads, stacks of four entries *)

#[local] Existing Instances TournamentBP.tournament_ops TournamentBP.tournament_laws
  LocalBP.local_ops LocalBP.local_laws.

Definition i_call : StaticInst SimplePCState := mkInst true false true true id.
Definition i_ret : StaticInst SimplePCState := mkInst true true false false id.
Definition i_cond : StaticInst SimplePCState := mkInst false false false true id.
Definition i_indirect : StaticInst SimplePCState := mkInst true false false false id.
Definition i_cond_ret : StaticInst SimplePCState := mkInst false true false false id.

Definition tournament_unit : res (BPredUnit SimplePCState TournamentBP.TournamentBP) :=
  newUnit TournamentBP.tournament_example 2 16 16 2 4 true true true 4 2 16 3.

Definition local_example : LocalBP.LocalBP :=
  LocalBP.mkLocal 2 (replicate 8 (SatCounter.mkCtr 0 3 0)) 16 8 2 7.

Definition local_unit : res (BPredUnit SimplePCState LocalBP.LocalBP) :=
  newUnit local_example 2 16 16 2 4 true true true 4 2 16 3.

Lemma tournament_unit_ok :
  ∃ u, tournament_unit = Ok u ∧ wf 2 4 u ∧ (∀ t, hist u t = []) ∧
    (∀ t, Indirect.path (iPred u) t = []).
Proof.
  destruct (newUnit_ok (PC:=SimplePCState) 2 4 TournamentBP.tournament_example 16 16 2 true true true 4 2 16 3)
    as (u & Hu & Hw & _ & Hh & Hp);
    [apply TournamentBP.tournament_example_wf|lia|lia|split; lia|split; lia|vm_compute; reflexivity..|lia|lia|].
  by exists u.
Qed.

Lemma local_unit_ok :
  ∃ u, local_unit = Ok u ∧ wf 2 4 u ∧ (∀ t, hist u t = []) ∧
    (∀ t, Indirect.path (iPred u) t = []).
Proof.
  destruct (newUnit_ok (PC:=SimplePCState) 2 4 local_example 16 16 2 true true true 4 2 16 3)
    as (u & Hu & Hw & _ & Hh & Hp);
    [|lia|lia|split; lia|split; lia|vm_compute; reflexivity..|lia|lia|].
  - split_and!; try (vm_compute; first [reflexivity|discriminate]).
    + by exists 3.
    + split; [vm_compute; reflexivity|]. apply Forall_replicate. vm_compute. repeat split; discriminate.
  - by exists u.
Qed.

(** A run of predictions from a fresh unit, for the examples below. *)
Lemma run_ok {S} `{!BPred.BPredOps S, !BPred.BPredLaws S} (u : BPredUnit SimplePCState S)
    (l : list (StaticInst SimplePCState * Z * SimplePCState)) t :
  wf 2 4 u → (∀ t, hist u t = []) → (∀ t, Indirect.path (iPred u) t = []) → 0 ≤ t < 2 →
  StronglySorted (λ a b, a.1.2 < b.1.2) l → Forall (λ x, 0 < x.1.2) l →
  ∃ u', predicts l t u = Ok u' ∧ wf 2 4 u'.
Proof.
  intros Hw Hh Hp Ht Hso Hf.
  destruct (predicts_ahead 2 4 t 0 u l [] u Ht) as (u' & rs & Hu' & _ & Ha).
  - constructor; try done; [set_solver|]. exists []. by rewrite app_nil_r.
  - done.
  - eapply Forall_impl; [exact Hf|]. intros x Hx. split; [done|]. unfold younger. rewrite Hh, Hp. set_solver.
  - exists u'. split; [done|]. apply Ha.
Qed.

Lemma squash_undoes_predictions_witness :
  ∃ u u1 u2, tournament_unit = Ok u ∧
    predicts [(i_call, 5, simple_set 0x1000); (i_cond, 6, simple_set 0x2000);
              (i_ret, 7, simple_set 0x2010); (i_indirect, 9, simple_set 0x1004)] 1 u = Ok u1 ∧
    squash 4 1 u1 = Ok u2 ∧ tos_at (RAS u2) 1 = 0 ∧ hist u2 1 = [] ∧
    TournamentBP.saved (bp u2) (Some 0%nat) = None.
Proof.
  destruct tournament_unit_ok as (u & Hu & Hw & Hh & Hp).
  destruct (squash_undoes_predictions 2 4
    [(i_call, 5, simple_set 0x1000); (i_cond, 6, simple_set 0x2000);
     (i_ret, 7, simple_set 0x2010); (i_indirect, 9, simple_set 0x1004)] 1 4 u)
    as (u1 & u2 & H1 & _ & H2 & _ & _ & Ht & Hh2 & _).
  - exact Hw.
  - lia.
  - rewrite Hh. intros r []%elem_of_nil.
  - rewrite Hp. intros r []%elem_of_nil.
  - repeat (constructor; cbn; try lia).
  - repeat (constructor; cbn; try lia).
  - exists u, u1, u2. split; [exact Hu|]. split; [exact H1|]. split; [exact H2|].
    rewrite Ht, Hh2, Hh. vm_compute in Hu. injection Hu as <-.
    split; [vm_compute; reflexivity|]. split; [reflexivity|].
    vm_compute in H1. injection H1 as <-. vm_compute in H2. injection H2 as <-. vm_compute. reflexivity.
Defined.

Lemma commit_retires_witness :
  ∃ u u1 u2, tournament_unit = Ok u ∧
    predicts [(i_call, 5, simple_set 0x1000); (i_cond, 6, simple_set 0x2000)] 1 u = Ok u1 ∧
    update 5 1 u1 = Ok u2 ∧ seqNum <$> hist u2 1 = [6].
Proof.
  destruct tournament_unit_ok as (u & Hu & Hw & Hh & Hp).
  destruct (run_ok u [(i_call, 5, simple_set 0x1000); (i_cond, 6, simple_set 0x2000)] 1 Hw Hh Hp)
    as (u1 & H1 & Hw1); [lia|repeat (constructor; cbn; try lia)..|].
  destruct (commit_retires 2 4 u1 5 1 Hw1) as (u2 & H2 & _ & Hh2 & _); [lia|].
  exists u, u1, u2. split; [exact Hu|]. split; [exact H1|]. split; [exact H2|]. rewrite Hh2.
  vm_compute in Hu. injection Hu as <-. vm_compute in H1. injection H1 as <-. vm_compute. reflexivity.
Defined.

Definition record_at {S} `{!BPred.BPredOps S} (u : BPredUnit SimplePCState S) (t : Z) (i : nat)
  : PredictorHistory SimplePCState :=
  default (newRecord 0 0 false None 0) (hist u t !! i).

Lemma squash_corrects_witness :
  ∃ u u1 u2, tournament_unit = Ok u ∧
    predicts [(i_cond, 5, simple_set 0x1000); (i_call, 6, simple_set 0x2000)] 1 u = Ok u1 ∧
    squash_corrected 5 (simple_set 0x3000) true 1 0 u1 = Ok u2 ∧
    BTB.lookup (BTB u2) 0x1000 1 = Ok (simple_set 0x3000).
Proof.
  destruct tournament_unit_ok as (u & Hu & Hw & Hh & Hp).
  destruct (run_ok u [(i_cond, 5, simple_set 0x1000); (i_call, 6, simple_set 0x2000)] 1 Hw Hh Hp)
    as (u1 & H1 & Hw1); [lia|repeat (constructor; cbn; try lia)..|].
  destruct (squash_corrects 2 4 u1 5 (simple_set 0x3000) true 1 0
    (take 1 (hist u1 1)) (record_at u1 1 1) [] 3 Hw1)
    as (u2 & r' & H2 & _ & _ & _ & _ & _ & _ & Hb & _).
  - lia.
  - vm_compute in Hu. injection Hu as <-. vm_compute in H1. injection H1 as <-. vm_compute. reflexivity.
  - vm_compute in Hu. injection Hu as <-. vm_compute in H1. injection H1 as <-.
    intros r' ->%list_elem_of_singleton. vm_compute. reflexivity.
  - vm_compute in Hu. injection Hu as <-. vm_compute in H1. injection H1 as <-. vm_compute. reflexivity.
  - vm_compute in Hu. injection Hu as <-. vm_compute in H1. injection H1 as <-. vm_compute. reflexivity.
  - exists u, u1, u2. split; [exact Hu|]. split; [exact H1|]. split; [exact H2|].
    vm_compute in Hu. injection Hu as <-. vm_compute in H1. injection H1 as <-.
    apply Hb; reflexivity.
Defined.

Lemma btb_miss_trains_taken_witness :
  ∃ u u' r, tournament_unit = Ok u ∧
    predict i_cond 5 (simple_set 0x1000) 1 u = Ok (u', simple_set 0x1004, false) ∧
    hist u' 1 = [r] ∧ predTaken r = true.
Proof.
  destruct tournament_unit_ok as (u & Hu & Hw & Hh & Hp).
  assert (∃ x ptr, TournamentBP.lookup TournamentBP.tournament_example 1 0x1000 = Ok (x, true, ptr))
    as (x & ptr & Hx) by (eexists _, _; vm_compute; reflexivity).
  destruct (btb_miss_trains_taken 2 4 i_cond 5 (simple_set 0x1000) 1 u x ptr Hw)
    as (u' & r & H1 & H2 & _ & H3 & _).
  - lia.
  - split; [rewrite Hh|rewrite Hp]; intros ? []%elem_of_nil.
  - reflexivity.
  - reflexivity.
  - reflexivity.
  - reflexivity.
  - vm_compute in Hu. injection Hu as <-. exact Hx.
  - vm_compute in Hu. injection Hu as <-. vm_compute. reflexivity.
  - exists u, u', r. split; [exact Hu|]. split; [exact H1|]. split; [|exact H3].
    rewrite H2, Hh. reflexivity.
Defined.

Lemma late_return_squash_resets_top_witness :
  ∃ u u0 u1 u2, local_unit = Ok u ∧
    predicts [(i_call, 3, simple_set 0x1000); (i_cond_ret, 5, simple_set 0x2000)] 1 u = Ok u0 ∧
    tos_at (RAS u0) 1 = 1 ∧ squash_corrected 5 (simple_set 0x1004) true 1 0 u0 = Ok u1 ∧
    squash 4 1 u1 = Ok u2 ∧ seqNum <$> hist u2 1 = [3] ∧ tos_at (RAS u2) 1 = 0.
Proof.
  destruct local_unit_ok as (u & Hu & Hw & Hh & Hp).
  destruct (run_ok u [(i_call, 3, simple_set 0x1000); (i_cond_ret, 5, simple_set 0x2000)] 1 Hw Hh Hp)
    as (u0 & H0 & Hw0); [lia|repeat (constructor; cbn; try lia)..|].
  destruct (late_return_squash_resets_top 2 4 u0 5 4 (simple_set 0x1004) 1 0 (record_at u0 1 0)
    (drop 1 (hist u0 1)) Hw0) as (u1 & u2 & H1 & H2 & Hh2 & Ht);
    [lia|..|exists u, u0, u1, u2; split_and!; [done|done| |done|done|rewrite Hh2|done]];
    try lia; vm_compute in Hu; injection Hu as <-; vm_compute in H0; injection H0 as <-;
    try (vm_compute; reflexivity).
  intros r' ->%list_elem_of_singleton. vm_compute. discriminate.
Defined.

End BPredUnitProofs.
