(* ===== verification/CacheBlk.v ===== *)
(** * Cache blocks and load-locked / store-conditional

    [CacheBlk] is the block of [mem/cache/blk.hh]: status bits, bookkeeping fields and
    the list of load locks.  [sc_succeeds_iff] states the contract of LL/SC over any
    sequence of accesses to a block; [moesi_states] relates the status bits to the coherence
    states the code prints. *)

From S2P Require Import Prelude MemCmd Packet.

Open Scope Z_scope.

Module CacheBlk.
Import Packet.

Definition BlkValid : Z := 0x01.
Definition BlkWritable : Z := 0x02.
Definition BlkReadable : Z := 0x04.
Definition BlkDirty : Z := 0x08.
Definition BlkHWPrefetched : Z := 0x20.
Definition BlkSecure : Z := 0x40.

Record Lock := mkLock { contextId : Z; lowAddr : Z; highAddr : Z }.

#[export] Instance Lock_eq_dec : EqDecision Lock.
Proof. solve_decision. Defined.

Record CacheBlk := mkBlk {
  task_id : Z;
  asid : Z;
  tag : Z;
  data : Host.ptr;
  size : Z;
  status : Z;
  whenReady : Z;
  set : Z;
  way : Z;
  isTouched : bool;
  refCount : Z;
  srcMasterId : Z;
  tickInserted : Z;
  lockList : list Lock
}.

(** [CacheBlk()] *)
Definition newBlk : CacheBlk :=
  mkBlk Request.TaskId_Unknown (-1) 0 None 0 0 0 (-1) (-1) false 0 Request.invldMasterId 0 [].

Definition with_locks (l : list Lock) (b : CacheBlk) : CacheBlk :=
  mkBlk (task_id b) (asid b) (tag b) (data b) (size b) (status b) (whenReady b) (set b) (way b)
    (isTouched b) (refCount b) (srcMasterId b) (tickInserted b) l.
Definition with_status (s : Z) (b : CacheBlk) : CacheBlk :=
  mkBlk (task_id b) (asid b) (tag b) (data b) (size b) s (whenReady b) (set b) (way b)
    (isTouched b) (refCount b) (srcMasterId b) (tickInserted b) (lockList b).
Definition with_refCount (n : Z) (b : CacheBlk) : CacheBlk :=
  mkBlk (task_id b) (asid b) (tag b) (data b) (size b) (status b) (whenReady b) (set b) (way b)
    (isTouched b) n (srcMasterId b) (tickInserted b) (lockList b).
Definition with_isTouched (t : bool) (b : CacheBlk) : CacheBlk :=
  mkBlk (task_id b) (asid b) (tag b) (data b) (size b) (status b) (whenReady b) (set b) (way b)
    t (refCount b) (srcMasterId b) (tickInserted b) (lockList b).
Definition with_tag (t : Z) (b : CacheBlk) : CacheBlk :=
  mkBlk (task_id b) (asid b) t (data b) (size b) (status b) (whenReady b) (set b) (way b)
    (isTouched b) (refCount b) (srcMasterId b) (tickInserted b) (lockList b).
(** The owner of a block: requestor, task and time of insertion. *)
Definition with_source (master task tick : Z) (b : CacheBlk) : CacheBlk :=
  mkBlk task (asid b) (tag b) (data b) (size b) (status b) (whenReady b) (set b) (way b)
    (isTouched b) (refCount b) master tick (lockList b).

Definition isWritable (b : CacheBlk) : bool :=
  let needed_bits := Z.lor BlkWritable BlkValid in Z.land (status b) needed_bits =? needed_bits.
Definition isReadable (b : CacheBlk) : bool :=
  let needed_bits := Z.lor BlkReadable BlkValid in Z.land (status b) needed_bits =? needed_bits.
Definition isValid (b : CacheBlk) : bool := negb (Z.land (status b) BlkValid =? 0).
Definition isDirty (b : CacheBlk) : bool := negb (Z.land (status b) BlkDirty =? 0).
Definition wasPrefetched (b : CacheBlk) : bool := negb (Z.land (status b) BlkHWPrefetched =? 0).
Definition isSecure (b : CacheBlk) : bool := negb (Z.land (status b) BlkSecure =? 0).

(** [blk->invalidate()] *)
Definition invalidate (b : CacheBlk) : CacheBlk :=
  with_locks [] (with_isTouched false (with_status 0 b)).

(** The letter [print] shows for the state. *)
Inductive Moesi := StM | StO | StE | StS | StI | StT.

Definition state_letter (b : CacheBlk) : Moesi :=
  let b2z (x : bool) := if x then 1 else 0 in
  let state := Z.lor (Z.lor (Z.shiftl (b2z (isWritable b)) 2) (Z.shiftl (b2z (isDirty b)) 1))
                 (b2z (isValid b)) in
  if state =? 7 then StM
  else if state =? 3 then StO
  else if state =? 5 then StE
  else if state =? 1 then StS
  else if state =? 0 then StI
  else StT.

(** ** Load locks *)

(** [Lock(req)] *)
Definition newLock (r : Request.Request) : res Lock :=
  c ← Request.contextId r;
  a ← Request.getPaddr r;
  n ← Request.getSize r;
  Ok (mkLock c a (u64 (a + n - 1))).

Definition matches (r : Request.Request) (l : Lock) : res bool :=
  a ← Request.getPaddr r;
  n ← Request.getSize r;
  c ← Request.contextId r;
  let req_high := u64 (a + n - 1) in
  Ok ((contextId l =? c) && (lowAddr l <=? a) && (req_high <=? highAddr l)).

Definition intersects (r : Request.Request) (l : Lock) : res bool :=
  a ← Request.getPaddr r;
  n ← Request.getSize r;
  let req_high := u64 (a + n - 1) in
  Ok ((a <=? highAddr l) && (lowAddr l <=? req_high)).

(** The loop [while (l != end) if (test) l = erase(l); else ++l;]. *)
Fixpoint erase_if (test : Lock → res bool) (ls : list Lock) : res (list Lock) :=
  match ls with
  | [] => Ok []
  | l :: ls =>
      t ← test l;
      rest ← erase_if test ls;
      Ok (if t : bool then rest else l :: rest)
  end.

Definition trackLoadLocked (pkt : Packet) (b : CacheBlk) : res CacheBlk :=
  _ ← assert_ (isLLSC pkt);
  ls ← erase_if (intersects (req pkt)) (lockList b);
  l ← newLock (req pkt);
  Ok (with_locks (l :: ls) b).

Definition clearLoadLocks (r : Request.Request) (b : CacheBlk) : res CacheBlk :=
  ls ← erase_if (λ l, i ← intersects r l; c ← Request.contextId r;
                      Ok (andb i (negb (contextId l =? c)))) (lockList b);
  Ok (with_locks ls b).

(** The search of [checkWrite] for a matching lock, which it erases. *)
Fixpoint take_lock (r : Request.Request) (ls : list Lock) : res (bool * list Lock) :=
  match ls with
  | [] => Ok (false, [])
  | l :: ls =>
      t ← matches r l;
      if t : bool then Ok (true, ls)
      else '(s, rest) ← take_lock r ls; Ok (s, l :: rest)
  end.

(** Returns the verdict, the block and the request, whose extra data a store conditional
    sets. *)
Definition checkWrite (pkt : Packet) (b : CacheBlk) : res (bool * CacheBlk * Request.Request) :=
  _ ← assert_ (isWrite pkt);
  if negb (isLLSC pkt) && bool_decide (lockList b = []) then Ok (true, b, req pkt)
  else if isLLSC pkt then
    '(success, ls) ← take_lock (req pkt) (lockList b);
    let r := Request.setExtraData (if success : bool then 1 else 0) (req pkt) in
    b ← clearLoadLocks r (with_locks ls b);
    Ok (success, b, r)
  else
    b ← clearLoadLocks (req pkt) b;
    Ok (true, b, req pkt).

(** ** Theorems *)

(** The letter printed for a block is the MOESI state its bits encode: a valid block is
    Modified, Owned, Exclusive or Shared according to its writable and dirty bits, an
    invalid block is Invalid exactly if it is clean; the remaining combinations print as
    unknown.  Write permission implies validity. *)
Theorem moesi_states (b : CacheBlk) :
  let v := isValid b in let d := isDirty b in
  let w := negb (Z.land (status b) BlkWritable =? 0) in
  isWritable b = v && w ∧
  state_letter b =
    if v then (if w then (if d then StM else StE) else (if d then StO else StS))
    else if d then StT else StI.
Proof.
  cbv zeta. assert (isWritable b = isValid b && negb (Z.land (status b) BlkWritable =? 0)) as Hw.
  { unfold isWritable, isValid. change BlkWritable with (2 ^ 1). change BlkValid with (2 ^ 0).
    fold (Flags.isSet (status b) (2 ^ 0)) (Flags.isSet (status b) (2 ^ 1)).
    rewrite !Flags.isSet_pow2 by lia.
    assert (∀ x y : bool, Z.testbit (status b) 0 = x → Z.testbit (status b) 1 = y →
      Z.land (status b) (Z.lor (2 ^ 1) (2 ^ 0)) = (if x then 1 else 0) + (if y then 2 else 0)) as Hb.
    { intros x y Hx Hy. apply Z.bits_inj_iff'. intros i Hi. rewrite Z.land_spec.
      destruct (decide (i = 0)) as [->|]; [rewrite Hx; by destruct x, y|].
      destruct (decide (i = 1)) as [->|]; [rewrite Hy; by destruct x, y|].
      assert (∀ m, 0 ≤ m < 4 → Z.testbit m i = false) as Hhi.
      { intros m Hm. apply (testbit_out 2); [done|lia]. }
      change (Z.lor (2 ^ 1) (2 ^ 0)) with 3. rewrite (Hhi 3) by lia.
      rewrite andb_false_r. symmetry. apply Hhi. destruct x, y; lia. }
    rewrite (Hb _ _ eq_refl eq_refl).
    by destruct (Z.testbit (status b) 0), (Z.testbit (status b) 1). }
  split; [done|]. unfold state_letter. rewrite Hw.
  by destruct (isValid b), (isDirty b), (negb (Z.land (status b) BlkWritable =? 0)).
Qed.

(** An access to a block: a load-locked, a plain write or a store-conditional. *)
Inductive access := LL (pkt : Packet) | Write (pkt : Packet) | SC (pkt : Packet).

Definition packet_of (a : access) : Packet := match a with LL p | Write p | SC p => p end.

(** The packet of an access has the kind, the context and the physical range the access
    needs, and the range does not wrap. *)
Definition access_ok (a : access) : Prop :=
  let r := req (packet_of a) in
  Request.hasPaddr r = true ∧ Request.hasSize r = true ∧ Request.hasContextId r = true ∧
  0 ≤ Request._paddr r ∧ 0 < Request._size r ∧ Request._paddr r + Request._size r ≤ 2 ^ 64 ∧
  match a with
  | LL p => isLLSC p = true
  | Write p => isWrite p = true ∧ isLLSC p = false
  | SC p => isWrite p = true ∧ isLLSC p = true
  end.

(** Perform an access; the boolean is the verdict of a write. *)
Definition perform (a : access) (b : CacheBlk) : res (bool * CacheBlk) :=
  match a with
  | LL p => b ← trackLoadLocked p b; Ok (true, b)
  | Write p | SC p => '(v, b, _) ← checkWrite p b; Ok (v, b)
  end.

Fixpoint perform_all (l : list access) (b : CacheBlk) : res CacheBlk :=
  match l with
  | [] => Ok b
  | a :: l => '(_, b) ← perform a b; perform_all l b
  end.

(** The lock of a request, and the relations of an access with a lock. *)
Definition lock_of (r : Request.Request) : Lock :=
  mkLock (Request._contextId r) (Request._paddr r) (Request._paddr r + Request._size r - 1).

Definition meets (r : Request.Request) (l : Lock) : bool :=
  (lowAddr (lock_of r) <=? highAddr l) && (lowAddr l <=? highAddr (lock_of r)).
Definition covered (r : Request.Request) (l : Lock) : bool :=
  (contextId l =? Request._contextId r) && (lowAddr l <=? lowAddr (lock_of r)) &&
  (highAddr (lock_of r) <=? highAddr l).
Definition foreign (r : Request.Request) (l : Lock) : bool :=
  negb (contextId l =? Request._contextId r).

(** The accesses that break a lock: a load-locked of any context that meets it, a write or a
    store-conditional of another context that meets it, and the store-conditional it lets
    succeed. *)
Definition breaks (a : access) (l : Lock) : bool :=
  let r := req (packet_of a) in
  match a with
  | LL _ => meets r l
  | Write _ => meets r l && foreign r l
  | SC _ => covered r l || meets r l && foreign r l
  end.

Lemma request_accessors r :
  Request.hasPaddr r = true → Request.hasSize r = true → Request.hasContextId r = true →
  Request.getPaddr r = Ok (Request._paddr r) ∧ Request.getSize r = Ok (Request._size r) ∧
  Request.contextId r = Ok (Request._contextId r).
Proof.
  unfold Request.hasPaddr, Request.hasSize, Request.hasContextId, Request.getPaddr,
    Request.getSize, Request.contextId. by intros -> -> ->.
Qed.

Section access_lemmas.
Context (a : access) (Ha : access_ok a).
#[local] Abbreviation r := (req (packet_of a)).

Lemma access_accessors :
  Request.getPaddr r = Ok (Request._paddr r) ∧ Request.getSize r = Ok (Request._size r) ∧
  Request.contextId r = Ok (Request._contextId r) ∧
  u64 (Request._paddr r + Request._size r - 1) = Request._paddr r + Request._size r - 1.
Proof.
  destruct Ha as (Hp & Hs & Hc & H0 & H1 & H2 & _).
  destruct (request_accessors r Hp Hs Hc) as (? & ? & ?). split_and!; try done.
  apply wrap_small. unfold in_width. lia.
Qed.

Lemma newLock_ok : newLock r = Ok (lock_of r).
Proof.
  destruct access_accessors as (Hp & Hs & Hc & Hw). unfold newLock. rewrite Hp, Hs, Hc.
  cbn [mbind res_bind]. by rewrite Hw.
Qed.

Lemma matches_ok l : matches r l = Ok (covered r l).
Proof.
  destruct access_accessors as (Hp & Hs & Hc & Hw). unfold matches. rewrite Hp, Hs, Hc.
  cbn [mbind res_bind]. by rewrite Hw.
Qed.

Lemma intersects_ok l : intersects r l = Ok (meets r l).
Proof.
  destruct access_accessors as (Hp & Hs & Hc & Hw). unfold intersects. rewrite Hp, Hs.
  cbn [mbind res_bind]. by rewrite Hw.
Qed.

End access_lemmas.

Lemma erase_if_ok test (f : Lock → bool) ls :
  (∀ l, test l = Ok (f l)) → erase_if test ls = Ok (filter (λ l, f l = false) ls).
Proof.
  intros Ht. induction ls as [|l ls IH]; [done|]. cbn [erase_if]. rewrite Ht, IH.
  cbn [mbind res_bind]. destruct (f l) eqn:Hf.
  - by rewrite filter_cons_False by congruence.
  - by rewrite filter_cons_True by done.
Qed.

(** Locks on a block never meet. *)
Definition apart (ls : list Lock) : Prop :=
  ∀ i j l l', ls !! i = Some l → ls !! j = Some l' → i ≠ j →
    highAddr l < lowAddr l' ∨ highAddr l' < lowAddr l.

Lemma covered_meets r l :
  0 < Request._size r → covered r l = true → meets r l = true.
Proof.
  unfold covered, meets, lock_of. cbn. rewrite !andb_true_iff, !Z.leb_le, Z.eqb_eq. lia.
Qed.

Lemma apart_cons l ls :
  apart (l :: ls) ↔ apart ls ∧ ∀ l', l' ∈ ls → highAddr l < lowAddr l' ∨ highAddr l' < lowAddr l.
Proof.
  split.
  - intros Hap. split.
    + intros i j x y Hi Hj Hij. by apply (Hap (S i) (S j) x y Hi Hj); lia.
    + intros l' [j Hj]%list_elem_of_lookup. by apply (Hap 0%nat (S j) l l').
  - intros [Hap Hl] [|i] [|j] x y Hi Hj Hij; cbn in Hi, Hj; simplify_eq; try done.
    + apply Hl. by eapply list_elem_of_lookup_2.
    + apply or_comm, Hl. by eapply list_elem_of_lookup_2.
    + apply (Hap i j); [done..|lia].
Qed.

Lemma apart_filter (P : Lock → Prop) `{!∀ l, Decision (P l)} ls : apart ls → apart (filter P ls).
Proof.
  induction ls as [|l ls IH]; [done|]. rewrite apart_cons. intros [Hap Hl].
  rewrite filter_cons. case_decide; [|by apply IH]. apply apart_cons. split; [by apply IH|].
  intros l' Hl'. apply list_elem_of_filter in Hl' as [_ Hl']. by apply Hl.
Qed.

(** On locks that are apart, the search erases exactly the locks that cover the request. *)
Lemma take_lock_ok a ls :
  access_ok a → apart ls →
  take_lock (req (packet_of a)) ls =
    Ok (existsb (covered (req (packet_of a))) ls,
        filter (λ l, covered (req (packet_of a)) l = false) ls).
Proof.
  intros Ha. induction ls as [|l ls IH]; [done|]. rewrite apart_cons. intros [Hap Hl].
  cbn [take_lock existsb]. rewrite (matches_ok a Ha). cbn [mbind res_bind].
  destruct (covered (req (packet_of a)) l) eqn:Hc; cbn [orb].
  - rewrite filter_cons_False by congruence. do 2 f_equal. symmetry. apply filter_all.
    intros l' Hl'. destruct (covered (req (packet_of a)) l') eqn:Hc'; [|done]. exfalso.
    destruct Ha as (_ & _ & _ & _ & Hs & _ & _). specialize (Hl l' Hl').
    unfold covered, lock_of in Hc, Hc'. cbn in Hc, Hc'.
    rewrite !andb_true_iff, !Z.leb_le in Hc, Hc'. lia.
  - rewrite IH by done. cbn [mbind res_bind]. by rewrite filter_cons_True.
Qed.

Lemma setExtraData_accessors x r :
  Request.getPaddr (Request.setExtraData x r) = Request.getPaddr r ∧
  Request.getSize (Request.setExtraData x r) = Request.getSize r ∧
  Request.contextId (Request.setExtraData x r) = Request.contextId r.
Proof.
  unfold Request.getPaddr, Request.getSize, Request.contextId. cbn.
  change Request.VALID_PADDR with (2 ^ 1). change Request.VALID_SIZE with (2 ^ 0).
  change Request.VALID_CONTEXT_ID with (2 ^ 5). rewrite !Flags.isSet_set by lia.
  change (Flags.isSet Request.VALID_EXTRA_DATA (2 ^ 1)) with false.
  change (Flags.isSet Request.VALID_EXTRA_DATA (2 ^ 0)) with false.
  change (Flags.isSet Request.VALID_EXTRA_DATA (2 ^ 5)) with false.
  by rewrite !orb_false_r.
Qed.

Lemma clearLoadLocks_ok a r b :
  access_ok a → r = req (packet_of a) ∨ (∃ x, r = Request.setExtraData x (req (packet_of a))) →
  clearLoadLocks r b =
    Ok (with_locks (filter (λ l, meets (req (packet_of a)) l && foreign (req (packet_of a)) l = false)
                      (lockList b)) b).
Proof.
  intros Ha Hr. unfold clearLoadLocks.
  rewrite (erase_if_ok _ (λ l, meets (req (packet_of a)) l && foreign (req (packet_of a)) l)); [done|].
  intros l. assert (intersects r l = intersects (req (packet_of a)) l ∧
    Request.contextId r = Request.contextId (req (packet_of a))) as [Hi Hc].
  { destruct Hr as [->|[x ->]]; [done|].
    destruct (setExtraData_accessors x (req (packet_of a))) as (Hp & Hs & Hc).
    unfold intersects. by rewrite Hp, Hs. }
  rewrite Hi, Hc, (intersects_ok a Ha). cbn [mbind res_bind].
  destruct (access_accessors a Ha) as (_ & _ & -> & _). done.
Qed.

Lemma with_locks_twice l l' b : with_locks l (with_locks l' b) = with_locks l b.
Proof. done. Qed.

(** One access: its verdict, and the locks it leaves. *)
Lemma perform_ok a b :
  access_ok a → apart (lockList b) →
  perform a b =
    Ok (match a with SC p => existsb (covered (req p)) (lockList b) | _ => true end,
        with_locks (match a with LL p => [lock_of (req p)] | _ => [] end ++
                    filter (λ l, breaks a l = false) (lockList b)) b) ∧
  apart (match a with LL p => [lock_of (req p)] | _ => [] end ++
         filter (λ l, breaks a l = false) (lockList b)).
Proof.
  intros Ha Hap. pose proof Ha as (_ & _ & _ & _ & Hs & _ & Hk). split.
  - destruct a as [p|p|p]; cbn [perform packet_of] in *.
    + unfold trackLoadLocked. rewrite Hk. cbn [assert_ mbind res_bind].
      rewrite (erase_if_ok _ (meets (req p))) by (apply (intersects_ok (LL p)); done).
      cbn [mbind res_bind]. pose proof (newLock_ok (LL p) Ha) as Hn. cbn [packet_of] in Hn. by rewrite Hn.
    + destruct Hk as [Hw Hl]. unfold checkWrite. rewrite Hw, Hl. cbn [assert_ mbind res_bind negb andb].
      case_bool_decide as He; cbn [mbind res_bind].
      * rewrite He. cbn. destruct b; cbn in *; by rewrite He.
      * rewrite (clearLoadLocks_ok (Write p)) by (done || by left). done.
    + destruct Hk as [Hw Hl]. unfold checkWrite. rewrite Hw, Hl. cbn [assert_ mbind res_bind negb andb].
      pose proof (take_lock_ok (SC p) (lockList b) Ha Hap) as Ht. cbn [packet_of] in Ht. rewrite Ht.
      cbn [mbind res_bind].
      rewrite (clearLoadLocks_ok (SC p)) by (done || (right; by eexists)). cbn [mbind res_bind].
      rewrite with_locks_twice. cbn [lockList with_locks app packet_of]. do 3 f_equal.
      rewrite list_filter_filter. apply list_filter_iff. intros l. cbn.
      rewrite orb_false_iff. tauto.
  - assert (apart (filter (λ l, breaks a l = false) (lockList b))) as Hf by (by apply apart_filter).
    destruct a as [p|p|p]; cbn [app]; try done. apply apart_cons. split; [done|].
    intros l' Hl'. apply list_elem_of_filter in Hl' as [Hb _]. cbn in Hb.
    unfold meets, lock_of in *. cbn in *. apply andb_false_iff in Hb. rewrite !Z.leb_gt in Hb. lia.
Qed.

(** The locks after a sequence of accesses. *)
Lemma perform_all_locks l b b' :
  Forall access_ok l → apart (lockList b) → perform_all l b = Ok b' →
  apart (lockList b') ∧
  ∀ k, k ∈ lockList b' ↔
    (k ∈ lockList b ∧ Forall (λ a, breaks a k = false) l) ∨
    ∃ pre p post, l = pre ++ LL p :: post ∧ k = lock_of (req p) ∧
      Forall (λ a, breaks a k = false) post.
Proof.
  revert b. induction l as [|a l IH]; intros b Hok Hap Hrun.
  { cbn in Hrun. injection Hrun as <-. split; [done|]. intros k. split; [by left; split|].
    intros [[Hk _]|(pre & p & post & He & _)]; [done|by destruct pre]. }
  apply Forall_cons in Hok as [Ha Hok]. destruct (perform_ok a b Ha Hap) as [Hp Hap'].
  cbn [perform_all] in Hrun. rewrite Hp in Hrun. cbn [mbind res_bind] in Hrun.
  destruct (IH (with_locks _ b) Hok Hap' Hrun) as [Hap2 Hk]. split; [done|]. intros k. rewrite Hk.
  cbn [lockList with_locks]. rewrite elem_of_app, list_elem_of_filter, Forall_cons. split.
  - intros [[[Hn|[Hb Hin]] Hl]|(pre & p & post & -> & Hkp & Hpost)].
    + destruct a as [p|p|p]; [|by apply elem_of_nil in Hn..].
      apply list_elem_of_singleton in Hn as ->. right. by exists [], p, l.
    + left. done.
    + right. by exists (a :: pre), p, post.
  - intros [[Hin [Hb Hl]]|(pre & p & post & He & Hkp & Hpost)]; [left; split; [by right|done]|].
    destruct pre as [|a0 pre]; cbn in He; simplify_eq.
    + left. split; [|done]. left. by apply list_elem_of_singleton.
    + right. by exists pre, p, post.
Qed.

(** Load-locked and store-conditional.  Perform any sequence of load-locked, write
    and store-conditional accesses on a block without locks, then a store-conditional:
    the store is let through exactly if some earlier load-locked of the same context
    covers its bytes and nothing since has broken that lock, where a lock is broken by a
    load-locked of any context that meets it, by a write or store-conditional of another
    context that meets it, and by the store-conditional it served.  Plain writes always
    proceed and no access of the sequence fails. *)
Theorem sc_succeeds_iff (l : list access) (p : Packet) (b : CacheBlk) :
  lockList b = [] → Forall access_ok l → access_ok (SC p) →
  ∃ b' v b'' r, perform_all l b = Ok b' ∧ checkWrite p b' = Ok (v, b'', r) ∧
    Request._extraData r = (if v then 1 else 0) ∧
    (v = true ↔ ∃ pre q post, l = pre ++ LL q :: post ∧ covered (req p) (lock_of (req q)) = true ∧
       Forall (λ a, breaks a (lock_of (req q)) = false) post).
Proof.
  intros Hb Hok Hp. assert (Hap : apart (lockList b)) by (rewrite Hb; intros i j x y Hi; done).
  assert (∃ b', perform_all l b = Ok b') as [b' Hrun].
  { clear Hb. revert b Hap. induction l as [|a l IH]; intros b Hap; [by eexists|].
    apply Forall_cons in Hok as [Ha Hok]. destruct (perform_ok a b Ha Hap) as [Hpa Hap'].
    cbn [perform_all]. rewrite Hpa. cbn [mbind res_bind]. by apply IH. }
  destruct (perform_all_locks l b b' Hok Hap Hrun) as [Hap' Hk].
  destruct Hp as (Hp1 & Hp2 & Hp3 & Hp4 & Hp5 & Hp6 & Hw & Hl).
  assert (access_ok (SC p)) as Ha by done.
  exists b', (existsb (covered (req p)) (lockList b')). eexists _, _. split; [done|].
  unfold checkWrite. rewrite Hw, Hl. cbn [assert_ mbind res_bind negb andb].
  pose proof (take_lock_ok (SC p) (lockList b') Ha Hap') as Ht. cbn [packet_of] in Ht. rewrite Ht.
  cbn [mbind res_bind].
  rewrite (clearLoadLocks_ok (SC p)) by (done || (right; by eexists)). cbn [mbind res_bind].
  split; [done|]. split; [by destruct (existsb _ _)|].
  rewrite existsb_exists. setoid_rewrite <- list_elem_of_In. setoid_rewrite Hk. rewrite Hb. split.
  - intros (k & [[Hin _]|(pre & q & post & Hl' & -> & Hpost)] & Hc); [by apply elem_of_nil in Hin|].
    by exists pre, q, post.
  - intros (pre & q & post & Hl' & Hc & Hpost). exists (lock_of (req q)).
    split; [|done]. right. by exists pre, q, post.
Qed.

(** A packet of context [c] for eight bytes at [a]. *)
Definition ex_access (cmd : MemCmd.Command) (a c : Z) : Packet :=
  mkPacket 0x300 cmd (Request.newPhysSeq 0 a 8 0 1 0 c) None a false 8 [] 0 0 0 None.

Lemma sc_succeeds_iff_witness :
  ∃ b' b'' r, perform_all [LL (ex_access MemCmd.LoadLockedReq 0x1000 1);
                           Write (ex_access MemCmd.WriteReq 0x1008 2)] newBlk = Ok b' ∧
    checkWrite (ex_access MemCmd.StoreCondReq 0x1000 1) b' = Ok (true, b'', r).
Proof.
  destruct (sc_succeeds_iff
    [LL (ex_access MemCmd.LoadLockedReq 0x1000 1); Write (ex_access MemCmd.WriteReq 0x1008 2)]
    (ex_access MemCmd.StoreCondReq 0x1000 1) newBlk) as (b' & v & b'' & r & Hrun & Hw & _ & Hv).
  - reflexivity.
  - apply Forall_cons_2; [|apply Forall_cons_2; [|constructor]]; vm_compute; intuition congruence.
  - vm_compute. intuition congruence.
  - assert (v = true) as ->.
    { apply Hv. exists [], (ex_access MemCmd.LoadLockedReq 0x1000 1),
        [Write (ex_access MemCmd.WriteReq 0x1008 2)].
      split; [reflexivity|]. split; [reflexivity|]. apply Forall_cons_2; [reflexivity|constructor]. }
    exists b', b'', r. split; [exact Hrun|exact Hw].
Defined.

End CacheBlk.
