(* ===== verification/CacheTags.v ===== *)
(** * Cache tag stores

    [CacheSet] is [mem/cache/tags/cacheset.hh], [BaseSetAssoc] the set-associative tag
    store of [mem/cache/tags/base_set_assoc.hh] and [.cc], [LRU] and [RandomRepl] its two
    replacement policies.  A block pointer is the block's index in the array [blks] the
    store allocates; a set is the array of such pointers, most recently used first.
    The theorems are in [CacheTagsProofs]. *)

From S2P Require Import Prelude IntMath MemCmd Packet CacheBlk.

Open Scope Z_scope.

(** ** [CacheSet] *)

Module CacheSet.
Import CacheBlk.

(** The loop of [findBlk] over the pointers [l]: the block and its way number. *)
Fixpoint findBlk_way (blks : list CacheBlk) (l : list nat) (i : Z) (tg : Z) (is_secure : bool) :
    res (option (nat * Z)) :=
  match l with
  | [] => Ok None
  | p :: l =>
      b ← deref (blks !! p);
      if (tag b =? tg) && isValid b && Bool.eqb (isSecure b) is_secure then Ok (Some (p, i))
      else findBlk_way blks l (i + 1) tg is_secure
  end.

Definition findBlk (blks : list CacheBlk) (l : list nat) (tg : Z) (is_secure : bool) :
    res (option nat) :=
  r ← findBlk_way blks l 0 tg is_secure;
  Ok (match r with Some (p, _) => Some p | None => None end).

(** The [do .. while] loop of [moveToHead] from index [i] on, [l] being the array from there:
    each pointer moves one place up until [blk] is overwritten. *)
Fixpoint shift_in (l : list nat) (next blk : nat) : res (list nat) :=
  match l with
  | [] => Fail AssertFailed
  | x :: l =>
      if decide (x = blk) then Ok (next :: l)
      else rest ← shift_in l x blk; Ok (next :: rest)
  end.

Definition moveToHead (l : list nat) (blk : nat) : res (list nat) :=
  match l with
  | [] => Fail BadPointer
  | x :: _ => if decide (x = blk) then Ok l else shift_in l blk blk
  end.

(** [moveToTail] runs the same loop from the other end of the array. *)
Definition moveToTail (l : list nat) (blk : nat) : res (list nat) :=
  match last l with
  | None => Fail BadPointer
  | Some x => if decide (x = blk) then Ok l
              else r ← shift_in (rev l) blk blk; Ok (rev r)
  end.

End CacheSet.

(** ** [BaseSetAssoc] *)

Module BaseSetAssoc.
Import CacheBlk.

Record Params := mkParams {
  p_size : Z; p_block_size : Z; p_assoc : Z; p_sequential_access : bool; p_hit_latency : Z
}.

(** The fields that never change after construction. *)
Record Geometry := mkGeo {
  assoc : Z; numSets : Z; sequentialAccess : bool; blkSize : Z; accessLatency : Z;
  setShift : Z; tagShift : Z; setMask : Z; blkMask : Z; numBlocks : Z; warmupBound : Z
}.

Record TagStats := mkTagStats {
  tagsInUse : Z; occupancies : list Z; replacements : Z; totalRefs : Z; sampledRefs : Z;
  warmupCycle : Z; tagAccesses : Z; dataAccesses : Z
}.

Record BaseSetAssoc := mkTags {
  geo : Geometry;
  allocAssoc : Z;
  sets : list (list nat);
  blks : list CacheBlk;
  warmedUp : bool;
  stats : TagStats
}.

Definition with_sets (s : list (list nat)) (t : BaseSetAssoc) : BaseSetAssoc :=
  mkTags (geo t) (allocAssoc t) s (blks t) (warmedUp t) (stats t).
Definition with_blks (b : list CacheBlk) (t : BaseSetAssoc) : BaseSetAssoc :=
  mkTags (geo t) (allocAssoc t) (sets t) b (warmedUp t) (stats t).
Definition with_stats (s : TagStats) (t : BaseSetAssoc) : BaseSetAssoc :=
  mkTags (geo t) (allocAssoc t) (sets t) (blks t) (warmedUp t) s.

(** The block [j] of set [i] after construction; [data_blks] is the data array. *)
Definition init_blk (g : Geometry) (data_blks : positive) (k : nat) : CacheBlk :=
  let i := Z.of_nat k / assoc g in
  let j := Z.of_nat k mod assoc g in
  let b := invalidate newBlk in
  mkBlk (task_id b) (asid b) j (Some (data_blks, blkSize g * Z.of_nat k)) (blkSize g) (status b)
    0 i j false (refCount b) (srcMasterId b) (tickInserted b) (lockList b).

(** The constructor: checks of the parameters, then the arrays.  [maxMasters] is the number
    of requestors the statistics vectors have room for. *)
Definition newTags (data_blks : positive) (maxMasters : nat) (p : Params) : res BaseSetAssoc :=
  let numSets := u32 (p_size p / u32 (p_block_size p * p_assoc p)) in
  let blkSize := p_block_size p in
  let assoc := p_assoc p in
  if (blkSize <? 4) || negb (IntMath.isPowerOf2 32 blkSize) then Fail Fatal
  else if (numSets <=? 0) || negb (IntMath.isPowerOf2 32 numSets) then Fail Fatal
  else if assoc <=? 0 then Fail Fatal
  else
    setShift ← IntMath.floorLog2_u blkSize;
    l ← IntMath.floorLog2_u numSets;
    let n := u32 (numSets * assoc) in
    let g := mkGeo assoc numSets (p_sequential_access p) blkSize (p_hit_latency p)
               setShift (setShift + l) (u32 (numSets - 1)) (u32 (blkSize - 1)) n n in
    Ok (mkTags g assoc
          ((λ i, (λ j, (i * Z.to_nat assoc + j)%nat) <$> seq 0 (Z.to_nat assoc)) <$>
             seq 0 (Z.to_nat numSets))
          (init_blk g data_blks <$> seq 0 (Z.to_nat n))
          false
          (mkTagStats 0 (replicate maxMasters 0) 0 0 0 0 0 0)).

Definition extractTag (t : BaseSetAssoc) (addr : Z) : Z := Z.shiftr addr (tagShift (geo t)).
Definition extractSet (t : BaseSetAssoc) (addr : Z) : Z :=
  Z.land (Z.shiftr addr (setShift (geo t))) (setMask (geo t)).
Definition blkAlign (t : BaseSetAssoc) (addr : Z) : Z := Z.land addr (bnot 64 (blkMask (geo t))).
Definition regenerateBlkAddr (t : BaseSetAssoc) (tg set : Z) : Z :=
  Z.lor (u64 (Z.shiftl tg (tagShift (geo t)))) (u64 (Z.shiftl set (setShift (geo t)))).
(** [BaseTags::extractBlkOffset] *)
Definition extractBlkOffset (t : BaseSetAssoc) (addr : Z) : Z :=
  Z.land addr (u32 (blkSize (geo t) - 1)).

Definition getBlockSize (t : BaseSetAssoc) : Z := blkSize (geo t).
Definition getSubBlockSize (t : BaseSetAssoc) : Z := blkSize (geo t).
Definition getNumSets (t : BaseSetAssoc) : Z := numSets (geo t).
Definition getNumWays (t : BaseSetAssoc) : Z := assoc (geo t).
Definition getWayAllocationMax (t : BaseSetAssoc) : Z := allocAssoc t.
Definition setWayAllocationMax (ways : Z) (t : BaseSetAssoc) : res BaseSetAssoc :=
  if ways <? 1 then Fail Fatal
  else Ok (mkTags (geo t) ways (sets t) (blks t) (warmedUp t) (stats t)).

Definition findBlockBySetAndWay (t : BaseSetAssoc) (set way : Z) : res nat :=
  s ← vread (sets t) set; vread s way.

Definition findBlock (t : BaseSetAssoc) (addr : Z) (is_secure : bool) : res (option nat) :=
  s ← vread (sets t) (extractSet t addr);
  CacheSet.findBlk (blks t) s (extractTag t addr) is_secure.

(** Change one block through its pointer. *)
Definition on_blk (k : nat) (f : CacheBlk → CacheBlk) (t : BaseSetAssoc) : res BaseSetAssoc :=
  b ← deref (blks t !! k); Ok (with_blks (<[k := f b]> (blks t)) t).

(** [v[i] += d] on a statistics vector. *)
Definition bump (v : list Z) (i d : Z) : res (list Z) := x ← vread v i; vwrite v i (x + d).

Definition with_occupancies (o : list Z) (s : TagStats) : TagStats :=
  mkTagStats (tagsInUse s) o (replacements s) (totalRefs s) (sampledRefs s) (warmupCycle s)
    (tagAccesses s) (dataAccesses s).
Definition with_tagsInUse (n : Z) (s : TagStats) : TagStats :=
  mkTagStats n (occupancies s) (replacements s) (totalRefs s) (sampledRefs s) (warmupCycle s)
    (tagAccesses s) (dataAccesses s).
Definition add_accesses (tg dat : Z) (s : TagStats) : TagStats :=
  mkTagStats (tagsInUse s) (occupancies s) (replacements s) (totalRefs s) (sampledRefs s)
    (warmupCycle s) (tagAccesses s + tg) (dataAccesses s + dat).

Definition tags_invalidate (maxMasters curTick : Z) (k : nat) (t : BaseSetAssoc) : res BaseSetAssoc :=
  b ← deref (blks t !! k);
  _ ← assert_ (isValid b);
  let t := with_stats (with_tagsInUse (tagsInUse (stats t) - 1) (stats t)) t in
  _ ← assert_ (srcMasterId b <? maxMasters);
  o ← bump (occupancies (stats t)) (srcMasterId b) (-1);
  let t := with_stats (with_occupancies o (stats t)) t in
  on_blk k (with_source Request.invldMasterId Request.TaskId_Unknown curTick) t.

(** [ticksToCycles] of a clocked object with the given clock period. *)
Definition ticksToCycles (period t : Z) : Z := IntMath.divCeil 64 t period.

(** The latency of an access that finds the block [b]. *)
Definition hit_latency (period curTick : Z) (g : Geometry) (b : CacheBlk) : Z :=
  if (curTick <? whenReady b) &&
     (accessLatency g <? ticksToCycles period (whenReady b - curTick))
  then ticksToCycles period (whenReady b - curTick) else accessLatency g.

(** Returns the block and the latency. *)
Definition accessBlock (period curTick : Z) (addr : Z) (is_secure : bool) (t : BaseSetAssoc) :
    res (BaseSetAssoc * option nat * Z) :=
  let tg := extractTag t addr in
  s ← vread (sets t) (extractSet t addr);
  blk ← CacheSet.findBlk (blks t) s tg is_secure;
  let lat := accessLatency (geo t) in
  let dat := if sequentialAccess (geo t) then (if decide (is_Some blk) then 1 else 0)
             else allocAssoc t in
  let t := with_stats (add_accesses (allocAssoc t) dat (stats t)) t in
  match blk with
  | None => Ok (t, None, lat)
  | Some k =>
      b ← deref (blks t !! k);
      let lat := hit_latency period curTick (geo t) b in
      t ← on_blk k (λ b, with_refCount (u32 (refCount b + 1)) b) t;
      Ok (t, Some k, lat)
  end.

(** The loop of [findVictim]: the first invalid block, or the last one looked at. *)
Fixpoint first_invalid (blks : list CacheBlk) (l : list nat) (blk : option nat) : res (option nat) :=
  match l with
  | [] => Ok blk
  | p :: l =>
      b ← deref (blks !! p);
      if negb (isValid b) then Ok (Some p) else first_invalid blks l (Some p)
  end.

(** Reading past the set's [assoc] pointers is undefined. *)
Definition findVictim (addr : Z) (t : BaseSetAssoc) : res (option nat) :=
  s ← vread (sets t) (extractSet t addr);
  if allocAssoc t <=? vsize s
  then first_invalid (blks t) (take (Z.to_nat (allocAssoc t)) s) None
  else Fail BadPointer.

(** The statistics of a touched block. *)
Definition touch (curTick : Z) (b : CacheBlk) (t : BaseSetAssoc) : BaseSetAssoc :=
  if negb (isTouched b) then
    let n := tagsInUse (stats t) + 1 in
    let t := with_stats (with_tagsInUse n (stats t)) t in
    if negb (warmedUp t) && (warmupBound (geo t) <=? n) then
      let s := stats t in
      mkTags (geo t) (allocAssoc t) (sets t) (blks t) true
        (mkTagStats (tagsInUse s) (occupancies s) (replacements s) (totalRefs s) (sampledRefs s)
           curTick (tagAccesses s) (dataAccesses s))
    else t
  else t.

(** The statistics of a valid block that is replaced. *)
Definition replaced (maxMasters : Z) (b : CacheBlk) (t : BaseSetAssoc) : res BaseSetAssoc :=
  if isValid b then
    _ ← assert_ (srcMasterId b <? maxMasters);
    o ← bump (occupancies (stats t)) (srcMasterId b) (-1);
    let s := stats t in
    Ok (with_stats (mkTagStats (tagsInUse s) o (replacements s + 1) (totalRefs s + refCount b)
                      (sampledRefs s + 1) (warmupCycle s) (tagAccesses s) (dataAccesses s)) t)
  else Ok t.

Definition insertBlock (maxMasters curTick : Z) (pkt : Packet.Packet) (k : nat) (t : BaseSetAssoc) :
    res BaseSetAssoc :=
  addr ← Packet.getAddr pkt;
  let master_id := Request.masterId (Packet.req pkt) in
  let task_id := Request.taskId (Packet.req pkt) in
  b ← deref (blks t !! k);
  let t := touch curTick b t in
  t ← replaced maxMasters b t;
  let b := if isValid b then invalidate (with_refCount 0 b) else b in
  let b := with_tag (extractTag t addr) (with_isTouched true b) in
  _ ← assert_ (master_id <? maxMasters);
  o ← bump (occupancies (stats t)) master_id 1;
  let b := with_source master_id task_id curTick b in
  let t := with_stats (add_accesses 1 1 (with_occupancies o (stats t))) t in
  on_blk k (λ _, b) t.

(** [forEachBlk]: the visitor keeps a state, may change the block and says whether to go
    on. *)
Fixpoint visit {A} (f : A → CacheBlk → A * CacheBlk * bool) (a : A) (l : list CacheBlk) :
    A * list CacheBlk :=
  match l with
  | [] => (a, [])
  | b :: l =>
      let '(a, b, go) := f a b in
      if go then let '(a, l) := visit f a l in (a, b :: l) else (a, b :: l)
  end.

Definition forEachBlk {A} (f : A → CacheBlk → A * CacheBlk * bool) (a : A) (t : BaseSetAssoc) :
    A * BaseSetAssoc :=
  let '(a, l) := visit f a (blks t) in (a, with_blks l t).

Definition cleanupRefs (t : BaseSetAssoc) : BaseSetAssoc :=
  let v := filter (λ b, isValid b = true) (blks t) in
  let s := stats t in
  with_stats (mkTagStats (tagsInUse s) (occupancies s) (replacements s)
    (totalRefs s + foldr Z.add 0 (refCount <$> v)) (sampledRefs s + Z.of_nat (length v))
    (warmupCycle s) (tagAccesses s) (dataAccesses s)) t.

End BaseSetAssoc.

(** ** [LRU] *)

Module LRU.
Import CacheBlk BaseSetAssoc.

(** [sets[i].moveToHead(blk)] and [moveToTail]. *)
Definition on_set (i : Z) (f : list nat → res (list nat)) (t : BaseSetAssoc) : res BaseSetAssoc :=
  s ← vread (sets t) i;
  s ← f s;
  l ← vwrite (sets t) i s;
  Ok (with_sets l t).

Definition accessBlock (period curTick : Z) (addr : Z) (is_secure : bool) (t : BaseSetAssoc) :
    res (BaseSetAssoc * option nat * Z) :=
  '(t, blk, lat) ← BaseSetAssoc.accessBlock period curTick addr is_secure t;
  match blk with
  | None => Ok (t, None, lat)
  | Some k =>
      b ← deref (blks t !! k);
      t ← on_set (set b) (λ s, CacheSet.moveToHead s k) t;
      Ok (t, Some k, lat)
  end.

(** The loop of [findVictim], from the least recently used block on. *)
Fixpoint last_allocatable (blks : list CacheBlk) (alloc : Z) (rl : list nat) : res (option nat) :=
  match rl with
  | [] => Ok None
  | p :: rl =>
      b ← deref (blks !! p);
      if way b <? alloc then Ok (Some p) else last_allocatable blks alloc rl
  end.

Definition findVictim (addr : Z) (t : BaseSetAssoc) : res (option nat) :=
  s ← vread (sets t) (extractSet t addr);
  blk ← last_allocatable (blks t) (allocAssoc t) (rev s);
  match blk with
  | None => Ok None
  | Some k => b ← deref (blks t !! k); _ ← assert_ (way b <? allocAssoc t); Ok (Some k)
  end.

Definition insertBlock (maxMasters curTick : Z) (pkt : Packet.Packet) (k : nat) (t : BaseSetAssoc) :
    res BaseSetAssoc :=
  t ← BaseSetAssoc.insertBlock maxMasters curTick pkt k t;
  addr ← Packet.getAddr pkt;
  on_set (extractSet t addr) (λ s, CacheSet.moveToHead s k) t.

Definition lru_invalidate (maxMasters curTick : Z) (k : nat) (t : BaseSetAssoc) : res BaseSetAssoc :=
  t ← tags_invalidate maxMasters curTick k t;
  b ← deref (blks t !! k);
  on_set (set b) (λ s, CacheSet.moveToTail s k) t.

End LRU.

(** ** [RandomRepl] *)

Module RandomRepl.
Import CacheBlk BaseSetAssoc.

Definition accessBlock := BaseSetAssoc.accessBlock.
Definition insertBlock := BaseSetAssoc.insertBlock.
Definition random_invalidate := tags_invalidate.

(** [while (blk->way >= allocAssoc) { idx = (idx + 1) % assoc; blk = blks[idx]; }]; a full
    turn of the set is enough. *)
Fixpoint next_allocatable (fuel : nat) (t : BaseSetAssoc) (s : list nat) (idx : Z) : res (Z * nat) :=
  k ← vread s idx;
  b ← deref (blks t !! k);
  if allocAssoc t <=? way b then
    match fuel with
    | O => Fail OutOfFuel
    | S fuel => next_allocatable fuel t s ((idx + 1) mod assoc (geo t))
    end
  else Ok (idx, k).

(** [idx] is the number drawn by [random_mt.random<int>(0, assoc - 1)]. *)
Definition findVictim (idx : Z) (addr : Z) (t : BaseSetAssoc) : res (option nat) :=
  blk ← BaseSetAssoc.findVictim addr t;
  match blk with
  | None => Ok None
  | Some k =>
      b ← deref (blks t !! k);
      if isValid b then
        s ← vread (sets t) (extractSet t addr);
        '(idx, k) ← next_allocatable (Z.to_nat (assoc (geo t))) t s idx;
        b ← deref (blks t !! k);
        _ ← assert_ (idx <? assoc (geo t));
        _ ← assert_ (0 <=? idx);
        _ ← assert_ (way b <? allocAssoc t);
        Ok (Some k)
      else Ok (Some k)
  end.

End RandomRepl.
