(* ===== verification/CacheTagsProofs.v ===== *)
(** * Cache tag stores: proofs

    [wf] is the invariant of a tag store: the geometry is consistent, and each set is a
    permutation of the blocks that belong to it.  The theorems show that addresses can be
    regenerated from tag and set, that the LRU store keeps each set in recency order and
    finds what was inserted, and that a recently used block is not replaced. *)

From S2P Require Import Prelude IntMath MemCmd Packet CacheBlk CacheTags.

Open Scope Z_scope.

(** ** Recency lists *)

Module RecencyList.
Import CacheSet.

Lemma shift_in_spec l next blk :
  NoDup l → blk ∈ l → shift_in l next blk = Ok (next :: filter (λ x, x ≠ blk) l).
Proof.
  revert next. induction l as [|x l IH]; intros next Hnd Hin; [by apply elem_of_nil in Hin|].
  apply NoDup_cons in Hnd as [Hx Hnd]. cbn [shift_in]. destruct (decide (x = blk)) as [->|Hne].
  - rewrite filter_cons_False by naive_solver. do 2 f_equal. symmetry. apply filter_all.
    intros y Hy ->. done.
  - apply elem_of_cons in Hin as [->|Hin]; [done|].
    rewrite IH by done. cbn [mbind res_bind]. by rewrite filter_cons_True.
Qed.

Lemma shift_in_missing l next blk : blk ∉ l → shift_in l next blk = Fail AssertFailed.
Proof.
  revert next. induction l as [|x l IH]; intros next Hin; [done|].
  apply not_elem_of_cons in Hin as [Hne Hin]. cbn [shift_in].
  rewrite decide_False by done. by rewrite IH.
Qed.

Lemma moveToHead_spec l blk :
  NoDup l → blk ∈ l → moveToHead l blk = Ok (blk :: filter (λ x, x ≠ blk) l).
Proof.
  intros Hnd Hin. unfold moveToHead. destruct l as [|x l]; [by apply elem_of_nil in Hin|].
  case_decide as Hx; [|by apply shift_in_spec]. subst x. apply NoDup_cons in Hnd as [Hx Hnd].
  rewrite filter_cons_False by naive_solver. do 2 f_equal. symmetry. apply filter_all.
  intros y Hy ->. done.
Qed.

Lemma filter_rev (P : nat → Prop) `{!∀ x, Decision (P x)} l : filter P (rev l) = rev (filter P l).
Proof.
  induction l as [|x l IH]; [done|]. cbn [rev]. rewrite filter_app, IH, !filter_cons, filter_nil.
  destruct (decide (P x)); cbn; [done|by rewrite app_nil_r].
Qed.

Lemma rev_reverse {A} (l : list A) : rev l = reverse l.
Proof. apply rev_alt. Qed.

Lemma moveToTail_spec l blk :
  NoDup l → blk ∈ l → moveToTail l blk = Ok (filter (λ x, x ≠ blk) l ++ [blk]).
Proof.
  intros Hnd Hin. unfold moveToTail. destruct (last l) as [x|] eqn:Hl.
  2: { apply last_None in Hl. subst. by apply elem_of_nil in Hin. }
  apply last_Some in Hl as [l' ->]. case_decide as Hx.
  - subst x. rewrite filter_app, (filter_cons_False _ blk), filter_nil, app_nil_r by naive_solver.
    do 2 f_equal. symmetry. apply filter_all. intros y Hy ->.
    apply NoDup_app in Hnd as (_ & Hd & _). apply (Hd blk Hy). by left.
  - rewrite shift_in_spec; [|by rewrite rev_reverse, reverse_Permutation
                            |by rewrite rev_reverse, reverse_Permutation].
    cbn [mbind res_bind rev]. by rewrite filter_rev, rev_involutive.
Qed.

Lemma head_perm (l : list nat) blk :
  NoDup l → blk ∈ l → blk :: filter (λ x, x ≠ blk) l ≡ₚ l.
Proof.
  induction l as [|x l IH]; intros Hnd Hin; [by apply elem_of_nil in Hin|].
  apply NoDup_cons in Hnd as [Hx Hnd]. destruct (decide (x = blk)) as [->|Hne].
  - rewrite filter_cons_False by naive_solver. f_equiv. rewrite filter_all; [done|].
    intros y Hy ->. done.
  - apply elem_of_cons in Hin as [->|Hin]; [done|]. rewrite filter_cons_True by done.
    rewrite Permutation_swap. by rewrite IH.
Qed.

Lemma tail_perm (l : list nat) blk :
  NoDup l → blk ∈ l → filter (λ x, x ≠ blk) l ++ [blk] ≡ₚ l.
Proof. intros. rewrite Permutation_app_comm. by apply head_perm. Qed.

(** The number of blocks used more recently than [k]. *)
Fixpoint rank (k : nat) (l : list nat) : nat :=
  match l with
  | [] => 0
  | x :: l => if decide (x = k) then 0 else S (rank k l)
  end.

Lemma rank_filter k b l : k ≠ b → (rank k (filter (λ x, x ≠ b) l) ≤ rank k l)%nat.
Proof.
  intros Hkb. induction l as [|x l IH]; [done|]. rewrite filter_cons. cbn [rank].
  destruct (decide (x = k)) as [->|Hxk].
  - rewrite decide_True by done. cbn [rank]. by rewrite decide_True.
  - destruct (decide (x ≠ b)); cbn [rank]; [rewrite decide_False by done|]; lia.
Qed.

(** Using another block pushes [k] back by at most one place. *)
Lemma rank_head k b l : (rank k (b :: filter (λ x, x ≠ b) l) ≤ S (rank k l))%nat.
Proof.
  cbn [rank]. destruct (decide (b = k)) as [|Hne]; [lia|].
  pose proof (rank_filter k b l ltac:(done)). lia.
Qed.

Lemma rank_last k l x : NoDup (l ++ [x]) → k = x → rank k (l ++ [x]) = length l.
Proof.
  intros Hnd ->. induction l as [|y l IH]; cbn; [by rewrite decide_True|].
  cbn in Hnd. apply NoDup_cons in Hnd as [Hy Hnd]. rewrite decide_False.
  - f_equal. by apply IH.
  - intros ->. apply Hy. apply elem_of_app. right. by left.
Qed.

End RecencyList.

(** ** The invariant *)

Module TagsProofs.
Import CacheBlk BaseSetAssoc RecencyList.

(** The geometry of a cache with [2^n] sets of blocks of [2^s] bytes. *)
Record geo_ok (g : Geometry) (s n : Z) : Prop := {
  go_s : 2 ≤ s; go_n : 0 ≤ n; go_sn : s + n ≤ 32; go_assoc : 0 < assoc g;
  go_blk : blkSize g = 2 ^ s; go_sets : numSets g = 2 ^ n;
  go_ss : setShift g = s; go_ts : tagShift g = s + n;
  go_sm : setMask g = 2 ^ n - 1; go_bm : blkMask g = 2 ^ s - 1
}.

(** The blocks of set [i]. *)
Definition owned (g : Geometry) (i : nat) : list nat :=
  (λ j, (i * Z.to_nat (assoc g) + j)%nat) <$> seq 0 (Z.to_nat (assoc g)).

Record wf (t : BaseSetAssoc) : Prop := {
  wf_geo : ∃ s n, geo_ok (geo t) s n;
  wf_alloc : 1 ≤ allocAssoc t ≤ assoc (geo t);
  wf_nsets : Z.of_nat (length (sets t)) = numSets (geo t);
  wf_sets : ∀ i l, sets t !! i = Some l → l ≡ₚ owned (geo t) i;
  wf_nblks : length (blks t) = (Z.to_nat (numSets (geo t)) * Z.to_nat (assoc (geo t)))%nat;
  wf_own : ∀ k b, blks t !! k = Some b →
    set b = Z.of_nat k / assoc (geo t) ∧ way b = Z.of_nat k mod assoc (geo t)
}.

Lemma elem_of_owned g i k :
  0 < assoc g → k ∈ owned g i ↔ Z.of_nat k / assoc g = Z.of_nat i.
Proof.
  intros Ha. unfold owned. rewrite list_elem_of_fmap. split.
  - intros (j & -> & Hj). apply elem_of_seq in Hj.
    rewrite Nat2Z.inj_add, Nat2Z.inj_mul, Z2Nat.id by lia.
    rewrite Z.div_add_l by lia. rewrite Z.div_small by lia. lia.
  - intros Hk. exists (Z.to_nat (Z.of_nat k mod assoc g)).
    pose proof (Z.mod_pos_bound (Z.of_nat k) (assoc g) Ha).
    pose proof (Z.div_mod (Z.of_nat k) (assoc g) ltac:(lia)). rewrite Hk in *. split.
    + apply Nat2Z.inj. rewrite Nat2Z.inj_add, Nat2Z.inj_mul, !Z2Nat.id by lia. lia.
    + apply elem_of_seq. lia.
Qed.

Lemma NoDup_owned g i : NoDup (owned g i).
Proof. apply NoDup_fmap_2; [|apply NoDup_seq]. intros x y. lia. Qed.

Lemma set_NoDup t i l : wf t → sets t !! i = Some l → NoDup l.
Proof. intros Hwf Hl. rewrite (wf_sets t Hwf i l Hl). apply NoDup_owned. Qed.

Lemma set_elem t i l k :
  wf t → sets t !! i = Some l → k ∈ l ↔ Z.of_nat k / assoc (geo t) = Z.of_nat i.
Proof.
  intros Hwf Hl. destruct (wf_geo t Hwf) as (s & n & Hg).
  rewrite (wf_sets t Hwf i l Hl). apply elem_of_owned, (go_assoc _ _ _ Hg).
Qed.

Lemma set_length t i l : wf t → sets t !! i = Some l → length l = Z.to_nat (assoc (geo t)).
Proof.
  intros Hwf Hl. rewrite (Permutation_length (wf_sets t Hwf i l Hl)). unfold owned.
  by rewrite length_fmap, length_seq.
Qed.

Lemma set_blk t i l k :
  wf t → sets t !! i = Some l → k ∈ l →
  ∃ b, blks t !! k = Some b ∧ set b = Z.of_nat i ∧ 0 ≤ way b < assoc (geo t).
Proof.
  intros Hwf Hl Hk. destruct (wf_geo t Hwf) as (s & n & Hg). pose proof (go_assoc _ _ _ Hg) as Ha.
  apply (set_elem t i l k Hwf Hl) in Hk. pose proof (lookup_lt_Some _ _ _ Hl) as Hlt.
  pose proof (wf_nsets t Hwf) as Hns.
  assert (k < length (blks t))%nat as Hkl.
  { rewrite (wf_nblks t Hwf). pose proof (Z.mod_pos_bound (Z.of_nat k) (assoc (geo t)) Ha).
    pose proof (Z.div_mod (Z.of_nat k) (assoc (geo t)) ltac:(lia)). rewrite Hk in *. nia. }
  destruct (lookup_lt_is_Some_2 _ _ Hkl) as [b Hb]. exists b. split; [done|].
  destruct (wf_own t Hwf k b Hb) as [-> ->]. split; [done|]. by apply Z.mod_pos_bound.
Qed.

(** ** Addresses *)

Section addresses.
Context (t : BaseSetAssoc) (s n : Z) (Hg : geo_ok (geo t) s n).

Lemma extractSet_div a : extractSet t a = (a / 2 ^ s) mod 2 ^ n.
Proof.
  destruct Hg. unfold extractSet. rewrite go_ss0, go_sm0, land_pred_pow2, Z.shiftr_div_pow2 by lia.
  done.
Qed.

Lemma extractTag_div a : extractTag t a = a / 2 ^ (s + n).
Proof. destruct Hg. unfold extractTag. by rewrite go_ts0, Z.shiftr_div_pow2 by lia. Qed.

Lemma blkAlign_div a : in_width 64 a → blkAlign t a = 2 ^ s * (a / 2 ^ s).
Proof.
  destruct Hg. intros Ha. unfold blkAlign. rewrite go_bm0.
  replace (2 ^ s - 1) with (Z.ones s) by (rewrite Z.ones_equiv; lia).
  apply IntMath.bnot_ones; [lia|done].
Qed.

Lemma regenerate_add tg st :
  0 ≤ tg → 0 ≤ st < 2 ^ n → tg * 2 ^ (s + n) + st * 2 ^ s < 2 ^ 64 →
  regenerateBlkAddr t tg st = tg * 2 ^ (s + n) + st * 2 ^ s.
Proof.
  destruct Hg. intros Htg Hst Hlt. unfold regenerateBlkAddr. rewrite go_ts0, go_ss0.
  rewrite !Z.shiftl_mul_pow2 by lia.
  pose proof (pow2_pos s ltac:(lia)). pose proof (pow2_pos (s + n) ltac:(lia)).
  rewrite !(wrap_small 64) by (unfold in_width; nia).
  apply Bitfield.lor_disjoint_add. bits_eq. rewrite Z.bits_0, !Z.mul_pow2_bits by lia.
  destruct (Z.lt_ge_cases i (s + n)).
  - rewrite (Z.testbit_neg_r tg) by lia. done.
  - rewrite (testbit_out n st) by (done || lia). apply andb_false_r.
Qed.

Lemma extractSet_range a : 0 ≤ extractSet t a < numSets (geo t).
Proof.
  rewrite extractSet_div. destruct Hg. rewrite go_sets0. apply Z.mod_pos_bound, pow2_pos. lia.
Qed.

End addresses.

(** Tag, set and offset determine the address.  Regenerating a block address from the
    tag and set extracted from an address gives the block-aligned address, and adding the
    block offset gives the address back; conversely tag and set of a regenerated address
    are the ones it was made of.  Two addresses of the same block have the same tag and
    set, and different blocks differ in one of them. *)
Theorem tags_address_roundtrip (t : BaseSetAssoc) (a b : Z) :
  wf t → in_width 64 a → in_width 64 b →
  regenerateBlkAddr t (extractTag t a) (extractSet t a) = blkAlign t a ∧
  blkAlign t a + extractBlkOffset t a = a ∧
  (∀ tg st, 0 ≤ tg → 0 ≤ st < numSets (geo t) →
     tg * (numSets (geo t) * blkSize (geo t)) + st * blkSize (geo t) < 2 ^ 64 →
     extractTag t (regenerateBlkAddr t tg st) = tg ∧
     extractSet t (regenerateBlkAddr t tg st) = st) ∧
  (blkAlign t a = blkAlign t b ↔ extractTag t a = extractTag t b ∧ extractSet t a = extractSet t b).
Proof.
  intros Hwf Ha Hb. destruct (wf_geo t Hwf) as (s & n & Hg). pose proof Hg as [].
  pose proof (pow2_pos s ltac:(lia)) as Hps. pose proof (pow2_pos n ltac:(lia)) as Hpn.
  assert (Hsn : 2 ^ (s + n) = 2 ^ s * 2 ^ n) by (apply Z.pow_add_r; lia).
  assert (∀ x, in_width 64 x → regenerateBlkAddr t (extractTag t x) (extractSet t x) = blkAlign t x) as Hreg.
  { intros x [Hx0 Hx1]. rewrite (extractTag_div t s n Hg), (extractSet_div t s n Hg),
      (blkAlign_div t s n Hg) by done.
    pose proof (Z.mod_pos_bound (x / 2 ^ s) (2 ^ n) Hpn).
    assert (Hdm : x / 2 ^ s = 2 ^ n * (x / 2 ^ (s + n)) + (x / 2 ^ s) mod 2 ^ n).
    { rewrite Hsn, <- Z.div_div by lia. apply Z.div_mod. lia. }
    pose proof (Z.mul_div_le x (2 ^ s) Hps).
    assert (x / 2 ^ (s + n) * 2 ^ (s + n) + (x / 2 ^ s) mod 2 ^ n * 2 ^ s = 2 ^ s * (x / 2 ^ s)) as He
      by (rewrite Hsn; rewrite Hdm at 2; rewrite Hsn; ring).
    rewrite (regenerate_add t s n Hg); [done|by apply Z.div_pos; lia|done|lia]. }
  split_and!.
  - by apply Hreg.
  - rewrite (blkAlign_div t s n Hg) by done. unfold extractBlkOffset. rewrite go_blk0.
    assert (2 ^ s ≤ 2 ^ 32) by (apply Z.pow_le_mono_r; lia).
    rewrite (wrap_small 32) by (unfold in_width; lia). rewrite land_pred_pow2 by lia.
    symmetry. apply Z.div_mod. lia.
  - intros tg st Htg Hst Hlt. rewrite go_blk0, go_sets0 in *.
    rewrite (regenerate_add t s n Hg) by (done || (rewrite Hsn; lia)).
    rewrite (extractTag_div t s n Hg), (extractSet_div t s n Hg). split.
    + rewrite Z.div_add_l by lia. rewrite Z.div_small; [lia|]. nia.
    + replace (tg * 2 ^ (s + n) + st * 2 ^ s) with ((tg * 2 ^ n + st) * 2 ^ s) by (rewrite Hsn; ring).
      rewrite Z.div_mul by lia. rewrite Z.add_comm, Z.mod_add by lia. by apply Z.mod_small.
  - split.
    + rewrite !(blkAlign_div t s n Hg) by done. intros He.
      assert (a / 2 ^ s = b / 2 ^ s) as Hab by nia.
      rewrite !(extractTag_div t s n Hg), !(extractSet_div t s n Hg), Hsn.
      rewrite <- !Z.div_div by lia. by rewrite Hab.
    + intros [Htg Hst]. rewrite <- !Hreg by done. by rewrite Htg, Hst.
Qed.

(** ** Lookup *)

(** The block [k] holds the line [(tg, sec)]. *)
Definition holds_line (t : BaseSetAssoc) (tg : Z) (sec : bool) (k : nat) : bool :=
  match blks t !! k with
  | Some b => (tag b =? tg) && isValid b && Bool.eqb (isSecure b) sec
  | None => false
  end.

Lemma findBlk_spec t l tg sec :
  (∀ k, k ∈ l → is_Some (blks t !! k)) →
  ∃ r, CacheSet.findBlk (blks t) l tg sec = Ok r ∧
    match r with
    | Some k => k ∈ l ∧ holds_line t tg sec k = true
    | None => ∀ k, k ∈ l → holds_line t tg sec k = false
    end.
Proof.
  intros Hl. unfold CacheSet.findBlk. generalize 0 as i. induction l as [|x l IH]; intros i.
  { exists None. split; [done|]. intros k Hk. by apply elem_of_nil in Hk. }
  cbn [CacheSet.findBlk_way]. destruct (Hl x) as [b Hb]; [by left|]. rewrite Hb.
  cbn [deref mbind res_bind].
  destruct ((tag b =? tg) && isValid b && Bool.eqb (isSecure b) sec) eqn:Hm; cbn [mbind res_bind].
  - exists (Some x). split; [done|]. split; [by left|]. unfold holds_line. by rewrite Hb.
  - destruct (IH ltac:(intros k Hk; apply Hl; by right) (i + 1)) as (r & Hf & Hr).
    exists r. split; [done|]. clear Hf. destruct r as [k|].
    + destruct Hr. split; [by right|done].
    + intros k [->|Hk]%elem_of_cons; [unfold holds_line; by rewrite Hb|by apply Hr].
Qed.

(** The set an address maps to. *)
Lemma addressed_set t a :
  wf t → ∃ l, vread (sets t) (extractSet t a) = Ok l ∧
    sets t !! Z.to_nat (extractSet t a) = Some l ∧ 0 ≤ extractSet t a < vsize (sets t).
Proof.
  intros Hwf. destruct (wf_geo t Hwf) as (s & n & Hg).
  pose proof (extractSet_range t s n Hg a). pose proof (wf_nsets t Hwf).
  destruct (vread_ok (sets t) (extractSet t a)) as (l & ? & ?); [unfold vsize; lia|].
  exists l. unfold vsize. splits.
Qed.

Lemma findBlock_spec t a sec :
  wf t → ∃ r, findBlock t a sec = Ok r ∧
    match r with
    | Some k => Z.of_nat k / assoc (geo t) = extractSet t a ∧ holds_line t (extractTag t a) sec k = true
    | None => ∀ k, Z.of_nat k / assoc (geo t) = extractSet t a → holds_line t (extractTag t a) sec k = false
    end.
Proof.
  intros Hwf. unfold findBlock. destruct (addressed_set t a Hwf) as (l & -> & Hl & Hr).
  cbn [mbind res_bind].
  assert (∀ k, k ∈ l ↔ Z.of_nat k / assoc (geo t) = extractSet t a) as Hk.
  { intros k. rewrite (set_elem t _ l k Hwf Hl). rewrite Z2Nat.id by lia. done. }
  destruct (findBlk_spec t l (extractTag t a) sec) as (r & -> & Hm).
  { intros k Hin. destruct (set_blk t _ l k Hwf Hl Hin) as (b & -> & _). done. }
  exists r. split; [done|]. destruct r as [k|]; [by rewrite <- Hk|].
  intros k Hin. apply Hm, Hk, Hin.
Qed.

(** ** Changes to a tag store *)

(** Changing the contents of a block, but not its place, keeps the store well formed. *)
Lemma wf_with_blk t k b :
  wf t → is_Some (blks t !! k) →
  set b = Z.of_nat k / assoc (geo t) → way b = Z.of_nat k mod assoc (geo t) →
  wf (with_blks (<[k := b]> (blks t)) t).
Proof.
  intros [Hge Hal Hns Hse Hnb Hown] Hk Hs Hw. constructor; try done; cbn.
  - by rewrite length_insert.
  - intros k' b'. destruct (decide (k = k')) as [<-|Hne].
    + destruct Hk as [b0 Hb0]. rewrite list_lookup_insert_eq by (by eapply lookup_lt_Some).
      by intros [= <-].
    + rewrite list_lookup_insert_ne by done. apply Hown.
Qed.

Lemma wf_with_stats t s : wf t → wf (with_stats s t).
Proof. by intros []. Qed.

Lemma wf_with_set t i l l' :
  wf t → sets t !! i = Some l → l' ≡ₚ l → wf (with_sets (<[i := l']> (sets t)) t).
Proof.
  intros [Hge Hal Hns Hse Hnb Hown] Hl Hp. constructor; try done; cbn.
  - by rewrite length_insert.
  - intros j m. destruct (decide (i = j)) as [<-|Hne].
    + rewrite list_lookup_insert_eq by (by eapply lookup_lt_Some). intros [= <-].
      rewrite Hp. by apply Hse.
    + rewrite list_lookup_insert_ne by done. apply Hse.
Qed.

(** Moving a block of its own set to the head or to the tail. *)
Lemma on_set_head t i l k :
  wf t → sets t !! Z.to_nat i = Some l → 0 ≤ i → k ∈ l →
  LRU.on_set i (λ s, CacheSet.moveToHead s k) t =
    Ok (with_sets (<[Z.to_nat i := k :: filter (λ x, x ≠ k) l]> (sets t)) t) ∧
  wf (with_sets (<[Z.to_nat i := k :: filter (λ x, x ≠ k) l]> (sets t)) t).
Proof.
  intros Hwf Hl Hi Hk. pose proof (set_NoDup t _ l Hwf Hl) as Hnd.
  pose proof (lookup_lt_Some _ _ _ Hl). unfold LRU.on_set, vread.
  destruct (Z.leb_spec 0 i); [|lia]. rewrite Hl. cbn [deref mbind res_bind].
  rewrite moveToHead_spec by done. cbn [mbind res_bind].
  rewrite vwrite_ok by (unfold vsize; lia). split; [done|].
  eapply wf_with_set; [done|done|by apply head_perm].
Qed.

Lemma on_set_tail t i l k :
  wf t → sets t !! Z.to_nat i = Some l → 0 ≤ i → k ∈ l →
  LRU.on_set i (λ s, CacheSet.moveToTail s k) t =
    Ok (with_sets (<[Z.to_nat i := filter (λ x, x ≠ k) l ++ [k]]> (sets t)) t) ∧
  wf (with_sets (<[Z.to_nat i := filter (λ x, x ≠ k) l ++ [k]]> (sets t)) t).
Proof.
  intros Hwf Hl Hi Hk. pose proof (set_NoDup t _ l Hwf Hl) as Hnd.
  pose proof (lookup_lt_Some _ _ _ Hl). unfold LRU.on_set, vread.
  destruct (Z.leb_spec 0 i); [|lia]. rewrite Hl. cbn [deref mbind res_bind].
  rewrite moveToTail_spec by done. cbn [mbind res_bind].
  rewrite vwrite_ok by (unfold vsize; lia). split; [done|].
  eapply wf_with_set; [done|done|by apply tail_perm].
Qed.

(** ** Accesses *)

(** The recency order after using [ok] in the set [i]. *)
Definition used (t t' : BaseSetAssoc) (ok : option nat) : Prop :=
  match ok with
  | None => sets t' = sets t
  | Some k => ∃ i l, sets t !! i = Some l ∧ k ∈ l ∧
      sets t' = <[i := k :: filter (λ x, x ≠ k) l]> (sets t)
  end.

(** What an access leaves of a block: everything but its reference count. *)
Definition same_line (t t' : BaseSetAssoc) : Prop :=
  geo t' = geo t ∧ allocAssoc t' = allocAssoc t ∧
  ∀ k, (with_refCount 0 <$> blks t' !! k) = (with_refCount 0 <$> blks t !! k).

Lemma same_line_holds t t' tg sec k :
  same_line t t' → holds_line t' tg sec k = holds_line t tg sec k.
Proof.
  intros (_ & _ & Hb). specialize (Hb k). unfold holds_line.
  destruct (blks t' !! k) as [b'|], (blks t !! k) as [b|]; cbn in Hb; try done.
  injection Hb. intros. unfold isValid, isSecure. congruence.
Qed.

Lemma lru_access_spec t period now a sec :
  wf t →
  ∃ t' r lat, LRU.accessBlock period now a sec t = Ok (t', r, lat) ∧
    findBlock t a sec = Ok r ∧ wf t' ∧ used t t' r ∧ same_line t t' ∧
    accessLatency (geo t) ≤ lat.
Proof.
  intros Hwf. destruct (addressed_set t a Hwf) as (l & Hread & Hl & Hr).
  assert (∀ k, k ∈ l → is_Some (blks t !! k)) as Hbl.
  { intros k Hin. destruct (set_blk t _ l k Hwf Hl Hin) as (b & -> & _). done. }
  destruct (findBlk_spec t l (extractTag t a) sec Hbl) as (r & Hf & Hm).
  unfold LRU.accessBlock, BaseSetAssoc.accessBlock, findBlock. rewrite Hread.
  cbn [mbind res_bind]. rewrite Hf. cbn [mbind res_bind]. destruct r as [k|].
  2: { eexists _, None, _. split_and!; try done; by apply wf_with_stats. }
  destruct Hm as [Hk _]. destruct (set_blk t _ l k Hwf Hl Hk) as (b & Hb & Hsb & Hwb).
  cbn [blks with_stats]. rewrite Hb. cbn [deref mbind res_bind].
  unfold on_blk. cbn [blks with_stats]. rewrite Hb. cbn [deref mbind res_bind].
  cbn [blks with_blks].
  rewrite list_lookup_insert_eq by (by eapply lookup_lt_Some). cbn [deref mbind res_bind].
  set (t1 := with_blks _ _). assert (Hwf1 : wf t1).
  { apply (wf_with_blk (with_stats _ t)); [by apply wf_with_stats|by exists b|..];
      cbn; by destruct (wf_own t Hwf k b Hb). }
  cbn [set with_refCount]. rewrite Hsb, Z2Nat.id by lia.
  destruct (on_set_head t1 (extractSet t a) l k Hwf1 Hl) as [-> Hwf2]; [lia|done|].
  cbn [mbind res_bind]. eexists _, (Some k), _. split; [done|]. split_and!; try done.
  - exists (Z.to_nat (extractSet t a)), l. done.
  - red. split_and!; try done. intros k'. cbn. destruct (decide (k = k')) as [<-|Hne].
    + rewrite list_lookup_insert_eq by (by eapply lookup_lt_Some). by rewrite Hb.
    + by rewrite list_lookup_insert_ne.
  - unfold hit_latency. cbn [geo with_stats].
    destruct (Z.ltb_spec now (whenReady b)); cbn [andb]; [|lia].
    destruct (Z.ltb_spec (accessLatency (geo t)) (ticksToCycles period (whenReady b - now))); lia.
Qed.

(** ** Insertion *)

(** The store [t'] differs from [t] at most in statistics that leave room for [mm]
    requestors. *)
Definition only_stats (mm : Z) (t t' : BaseSetAssoc) : Prop :=
  geo t' = geo t ∧ allocAssoc t' = allocAssoc t ∧ sets t' = sets t ∧ blks t' = blks t ∧
  vsize (occupancies (stats t')) = mm.

Lemma touch_stats mm now b t :
  vsize (occupancies (stats t)) = mm → only_stats mm t (touch now b t).
Proof.
  intros Hv. unfold touch. destruct (isTouched b); cbn [negb]; [by red|].
  match goal with |- context [if ?c then _ else _] => destruct c end; by red.
Qed.

Lemma bump_ok v i d : 0 ≤ i < vsize v → ∃ v', bump v i d = Ok v' ∧ vsize v' = vsize v.
Proof.
  intros Hi. unfold bump. destruct (vread_ok v i Hi) as (x & -> & _). cbn [mbind res_bind].
  rewrite vwrite_ok by done. eexists. split; [done|]. apply vsize_insert.
Qed.

Lemma replaced_stats mm b t :
  vsize (occupancies (stats t)) = mm → (isValid b = true → 0 ≤ srcMasterId b < mm) →
  ∃ t', replaced mm b t = Ok t' ∧ only_stats mm t t'.
Proof.
  intros Hv Hb. unfold replaced. destruct (isValid b); [|by exists t].
  specialize (Hb eq_refl). rewrite bind_assert by (apply Z.ltb_lt; lia).
  destruct (bump_ok (occupancies (stats t)) (srcMasterId b) (-1)) as (v & -> & Hv'); [lia|].
  cbn [mbind res_bind]. eexists. split; [done|]. red. split_and!; try done. cbn. by rewrite Hv'.
Qed.

(** The block an insertion leaves. *)
Definition inserted (tg now : Z) (r : Request.Request) (b : CacheBlk) : CacheBlk :=
  with_source (Request.masterId r) (Request.taskId r) now
    (with_tag tg (with_isTouched true (if isValid b then invalidate (with_refCount 0 b) else b))).

(** What an insertion by [pkt] at block [k] needs: an address, a requestor the statistics
    know, and a known owner of a block that is replaced. *)
Definition can_insert (mm : Z) (pkt : Packet.Packet) (a : Z) (k : nat) (t : BaseSetAssoc) : Prop :=
  Packet.getAddr pkt = Ok a ∧ vsize (occupancies (stats t)) = mm ∧
  0 ≤ Request.masterId (Packet.req pkt) < mm ∧
  ∃ b, blks t !! k = Some b ∧ (isValid b = true → 0 ≤ srcMasterId b < mm).

Lemma base_insert_spec mm now pkt a k t :
  wf t → can_insert mm pkt a k t →
  ∃ t' b, BaseSetAssoc.insertBlock mm now pkt k t = Ok t' ∧ wf t' ∧ blks t !! k = Some b ∧
    geo t' = geo t ∧ allocAssoc t' = allocAssoc t ∧ sets t' = sets t ∧
    blks t' = <[k := inserted (extractTag t a) now (Packet.req pkt) b]> (blks t) ∧
    vsize (occupancies (stats t')) = mm.
Proof.
  intros Hwf (Ha & Hv & Hm & b & Hb & Hsrc). unfold BaseSetAssoc.insertBlock. rewrite Ha.
  cbn [mbind res_bind]. rewrite Hb. cbn [deref mbind res_bind].
  pose proof (touch_stats mm now b t Hv) as (Hg1 & Ha1 & Hs1 & Hb1 & Hv1).
  set (t1 := touch now b t) in *.
  destruct (replaced_stats mm b t1 Hv1 Hsrc) as (t2 & -> & Hg2 & Ha2 & Hs2 & Hb2 & Hv2).
  cbn [mbind res_bind]. rewrite bind_assert by (apply Z.ltb_lt; lia).
  destruct (bump_ok (occupancies (stats t2)) (Request.masterId (Packet.req pkt)) 1)
    as (v & -> & Hv'); [lia|]. cbn [mbind res_bind].
  unfold on_blk. cbn [blks with_stats]. rewrite Hb2, Hb1, Hb. cbn [deref mbind res_bind].
  unfold extractTag. rewrite Hg2, Hg1. eexists _, b. split; [done|]. split_and!; cbn; try congruence; [|done].
  destruct (wf_own t Hwf k b Hb) as [Hset Hway].
  destruct Hwf as [Hge Hal Hns Hse Hnb Hown]. constructor; cbn; rewrite ?Hg2, ?Hg1, ?Ha2, ?Ha1, ?Hs2, ?Hs1, ?length_insert; try done.
  intros k' b'. destruct (decide (k = k')) as [<-|Hne].
  - rewrite list_lookup_insert_eq by (by eapply lookup_lt_Some).
    intros [= <-]. by destruct (isValid b).
  - rewrite list_lookup_insert_ne by done. apply Hown.
Qed.

(** Inserting makes the block the most recently used one of its set. *)
Lemma lru_insert_spec mm now pkt a k t :
  wf t → can_insert mm pkt a k t → Z.of_nat k / assoc (geo t) = extractSet t a →
  ∃ t' b, LRU.insertBlock mm now pkt k t = Ok t' ∧ wf t' ∧ blks t !! k = Some b ∧
    geo t' = geo t ∧ allocAssoc t' = allocAssoc t ∧ used t t' (Some k) ∧
    head (default [] (sets t' !! Z.to_nat (extractSet t a))) = Some k ∧
    blks t' = <[k := inserted (extractTag t a) now (Packet.req pkt) b]> (blks t) ∧
    vsize (occupancies (stats t')) = mm.
Proof.
  intros Hwf Hci Hk. destruct (base_insert_spec mm now pkt a k t Hwf Hci)
    as (t1 & b & Hins & Hwf1 & Hb & Hg1 & Ha1 & Hs1 & Hb1 & Hv1).
  unfold LRU.insertBlock. rewrite Hins. cbn [mbind res_bind]. destruct Hci as (-> & _).
  cbn [mbind res_bind]. destruct (addressed_set t a Hwf) as (l & _ & Hl & Hr).
  assert (extractSet t1 a = extractSet t a) as -> by (unfold extractSet; by rewrite Hg1).
  assert (k ∈ l) as Hin by (apply (set_elem t _ l k Hwf Hl); rewrite Z2Nat.id; lia).
  destruct (on_set_head t1 (extractSet t a) l k Hwf1) as [-> Hwf2];
    [by rewrite Hs1|lia|done|]. eexists _, b. split; [done|].
  split_and!; cbn; try congruence; [by rewrite Hs1; eexists _, l|].
  rewrite Hs1, list_lookup_insert_eq by (by eapply lookup_lt_Some). done.
Qed.

(** ** Victims *)

(** The ways new blocks may use. *)
Definition allocatable (t : BaseSetAssoc) (k : nat) : Prop := Z.of_nat k mod assoc (geo t) < allocAssoc t.

#[local] Instance allocatable_dec t k : Decision (allocatable t k).
Proof. unfold allocatable. apply _. Defined.

Lemma way_allocatable t k b :
  wf t → blks t !! k = Some b → (way b <? allocAssoc t) = bool_decide (allocatable t k).
Proof.
  intros Hwf Hb. destruct (wf_own t Hwf k b Hb) as [_ ->]. unfold allocatable.
  case_bool_decide; [by apply Z.ltb_lt|by apply Z.ltb_ge, Z.nlt_ge].
Qed.

Lemma last_allocatable_spec t rl :
  wf t → (∀ k, k ∈ rl → is_Some (blks t !! k)) →
  (∃ k, k ∈ rl ∧ allocatable t k) →
  ∃ pre k post, rl = pre ++ k :: post ∧ (∀ x, x ∈ pre → ¬ allocatable t x) ∧ allocatable t k ∧
    LRU.last_allocatable (blks t) (allocAssoc t) rl = Ok (Some k).
Proof.
  intros Hwf. induction rl as [|x rl IH]; intros Hb (k & Hk & Hal); [by apply elem_of_nil in Hk|].
  cbn [LRU.last_allocatable]. destruct (Hb x) as [b Hx]; [by left|]. rewrite Hx.
  cbn [deref mbind res_bind]. rewrite (way_allocatable t x b Hwf Hx).
  case_bool_decide as Hax.
  - exists [], x, rl. split_and!; try done. intros y Hy. by apply elem_of_nil in Hy.
  - apply elem_of_cons in Hk as [->|Hk]; [done|].
    destruct IH as (pre & k' & post & -> & Hpre & Hk' & ->).
    { intros y Hy. apply Hb. by right. }
    { by exists k. }
    exists (x :: pre), k', post. split_and!; try done.
    intros y [->|Hy]%elem_of_cons; [done|by apply Hpre].
Qed.

(** The first way of a set is always allocatable. *)
Lemma set_allocatable t i l : wf t → sets t !! i = Some l → ∃ k, k ∈ l ∧ allocatable t k.
Proof.
  intros Hwf Hl. destruct (wf_geo t Hwf) as (s & n & Hg). pose proof (go_assoc _ _ _ Hg) as Ha.
  pose proof (wf_alloc t Hwf). exists (i * Z.to_nat (assoc (geo t)))%nat.
  assert (Z.of_nat (i * Z.to_nat (assoc (geo t))) = Z.of_nat i * assoc (geo t)) as He by lia.
  split.
  - apply (set_elem t i l _ Hwf Hl). rewrite He. apply Z.div_mul. lia.
  - unfold allocatable. rewrite He, Z.mod_mul by lia. lia.
Qed.

(** The victim is the least recently used block among the allocatable ways of the set. *)
Lemma lru_victim_spec t a :
  wf t →
  ∃ l pre k post, sets t !! Z.to_nat (extractSet t a) = Some l ∧ l = post ++ k :: pre ∧
    (∀ x, x ∈ pre → ¬ allocatable t x) ∧ allocatable t k ∧
    LRU.findVictim a t = Ok (Some k).
Proof.
  intros Hwf. destruct (addressed_set t a Hwf) as (l & Hread & Hl & Hr).
  unfold LRU.findVictim. rewrite Hread. cbn [mbind res_bind].
  destruct (last_allocatable_spec t (rev l) Hwf) as (pre & k & post & Hrl & Hpre & Hk & ->).
  { intros k Hk. rewrite rev_reverse, elem_of_reverse in Hk.
    by destruct (set_blk t _ l k Hwf Hl Hk) as (b & -> & _). }
  { destruct (set_allocatable t _ l Hwf Hl) as (k & Hk & Hal). exists k.
    by rewrite rev_reverse, elem_of_reverse. }
  assert (l = rev post ++ k :: rev pre) as Hll.
  { rewrite <- (rev_involutive l), Hrl, rev_app_distr. cbn [rev]. by rewrite <- app_assoc. }
  destruct (set_blk t _ l k Hwf Hl) as (b & Hb & _); [rewrite Hll; apply elem_of_app; right; by left|].
  cbn [mbind res_bind]. rewrite Hb. cbn [deref mbind res_bind].
  rewrite bind_assert by (rewrite (way_allocatable t k b Hwf Hb); by apply bool_decide_eq_true).
  exists l, (rev pre), k, (rev post). split_and!; try done.
  intros x Hx. apply Hpre. by rewrite rev_reverse, elem_of_reverse in Hx.
Qed.

(** Without a way limit the victim is the last block of the set. *)
Lemma lru_victim_rank t a k :
  wf t → allocAssoc t = assoc (geo t) → LRU.findVictim a t = Ok (Some k) →
  ∃ l, sets t !! Z.to_nat (extractSet t a) = Some l ∧ k ∈ l ∧
    S (rank k l) = Z.to_nat (assoc (geo t)).
Proof.
  intros Hwf Hall Hv. destruct (wf_geo t Hwf) as (s & n & Hg). pose proof (go_assoc _ _ _ Hg).
  destruct (lru_victim_spec t a Hwf) as (l & pre & k' & post & Hl & Hll & Hpre & _ & Hv').
  rewrite Hv in Hv'. injection Hv' as <-. exists l.
  assert (pre = []) as ->.
  { destruct pre as [|x pre]; [done|]. exfalso. apply (Hpre x); [by left|]. unfold allocatable.
    rewrite Hall. by apply Z.mod_pos_bound. }
  split_and!; [done|rewrite Hll; apply elem_of_app; right; by left|].
  pose proof (set_NoDup t _ l Hwf Hl) as Hnd. rewrite <- (set_length t _ l Hwf Hl). rewrite Hll in *.
  rewrite rank_last by done. rewrite length_app. cbn. lia.
Qed.

(** ** Invalidation *)

Lemma base_invalidate_spec mm now k t b :
  wf t → blks t !! k = Some b → isValid b = true → 0 ≤ srcMasterId b < mm →
  vsize (occupancies (stats t)) = mm →
  ∃ t', tags_invalidate mm now k t = Ok t' ∧ wf t' ∧ geo t' = geo t ∧ allocAssoc t' = allocAssoc t ∧
    sets t' = sets t ∧
    blks t' = <[k := with_source Request.invldMasterId Request.TaskId_Unknown now b]> (blks t) ∧
    tagsInUse (stats t') = tagsInUse (stats t) - 1.
Proof.
  intros Hwf Hb Hval Hsrc Hv. unfold tags_invalidate. rewrite Hb. cbn [deref mbind res_bind].
  rewrite bind_assert by done. rewrite bind_assert by (apply Z.ltb_lt; lia).
  cbn [stats with_stats occupancies with_tagsInUse].
  destruct (bump_ok (occupancies (stats t)) (srcMasterId b) (-1)) as (v & -> & _); [lia|].
  cbn [mbind res_bind]. unfold on_blk. cbn [blks with_stats]. rewrite Hb. cbn [deref mbind res_bind].
  eexists. split; [done|]. split_and!; try done.
  destruct (wf_own t Hwf k b Hb). by apply (wf_with_blk (with_stats _ t)); [apply wf_with_stats|exists b|..].
Qed.

(** Invalidating a block makes it the first one to be replaced. *)
Lemma lru_invalidate_spec mm now k t b :
  wf t → blks t !! k = Some b → isValid b = true → 0 ≤ srcMasterId b < mm →
  vsize (occupancies (stats t)) = mm →
  ∃ t' l, LRU.lru_invalidate mm now k t = Ok t' ∧ wf t' ∧
    sets t !! Z.to_nat (set b) = Some l ∧ k ∈ l ∧
    sets t' = <[Z.to_nat (set b) := filter (λ x, x ≠ k) l ++ [k]]> (sets t) ∧
    blks t' = <[k := with_source Request.invldMasterId Request.TaskId_Unknown now b]> (blks t) ∧
    geo t' = geo t ∧ allocAssoc t' = allocAssoc t.
Proof.
  intros Hwf Hb Hval Hsrc Hv.
  destruct (base_invalidate_spec mm now k t b Hwf Hb Hval Hsrc Hv)
    as (t1 & Hinv & Hwf1 & Hg1 & Ha1 & Hs1 & Hb1 & _).
  unfold LRU.lru_invalidate. rewrite Hinv. cbn [mbind res_bind]. rewrite Hb1.
  rewrite list_lookup_insert_eq by (by eapply lookup_lt_Some). cbn [deref mbind res_bind].
  destruct (wf_geo t Hwf) as (s & n & Hg). pose proof (go_assoc _ _ _ Hg) as Ha.
  destruct (wf_own t Hwf k b Hb) as [Hset _]. pose proof (lookup_lt_Some _ _ _ Hb) as Hlt.
  rewrite (wf_nblks t Hwf) in Hlt. pose proof (wf_nsets t Hwf).
  assert (0 ≤ set b) by (rewrite Hset; apply Z.div_pos; lia).
  assert (set b < numSets (geo t)) by (rewrite Hset; apply Z.div_lt_upper_bound; nia).
  destruct (lookup_lt_is_Some_2 (sets t) (Z.to_nat (set b))) as [l Hl]; [lia|].
  assert (k ∈ l) as Hin by (apply (set_elem t _ l k Hwf Hl); rewrite Z2Nat.id; lia).
  destruct (on_set_tail t1 (set b) l k Hwf1) as [Ht Hwf2]; [by rewrite Hs1|done|done|].
  cbn [set with_source]. rewrite Ht. eexists _, l. split; [done|].
  split_and!; cbn; try congruence.
Qed.

(** ** Construction *)

(** The sets are in the order of construction, as random replacement leaves them. *)
Definition in_order (t : BaseSetAssoc) : Prop := ∀ i l, sets t !! i = Some l → l = owned (geo t) i.

Lemma init_sets g n i l :
  ((λ i, owned g i) <$> seq 0 n) !! i = Some l → l = owned g i.
Proof.
  rewrite list_lookup_fmap. destruct (seq 0 n !! i) as [j|] eqn:Hj; [|done].
  apply lookup_seq in Hj as [-> _]. by intros [= <-].
Qed.

Lemma newTags_wf d mm p t :
  in_width 32 (p_block_size p) → in_width 32 (p_size p) → 0 ≤ p_assoc p →
  p_block_size p * p_assoc p < 2 ^ 32 →
  newTags d mm p = Ok t →
  wf t ∧ in_order t ∧ (∀ b, b ∈ blks t → isValid b = false) ∧
  allocAssoc t = assoc (geo t) ∧ vsize (occupancies (stats t)) = Z.of_nat mm ∧
  assoc (geo t) = p_assoc p ∧ blkSize (geo t) = p_block_size p.
Proof.
  intros Hbs Hsz Hpa Hba. unfold newTags. set (ns := u32 (p_size p / _)).
  destruct (Z.ltb_spec (p_block_size p) 4); [done|].
  destruct (IntMath.isPowerOf2 32 (p_block_size p)) eqn:Hpb; cbn [orb negb]; [|done].
  destruct (Z.leb_spec ns 0); [done|].
  destruct (IntMath.isPowerOf2 32 ns) eqn:Hpn; cbn [orb negb]; [|done].
  destruct (Z.leb_spec (p_assoc p) 0) as [|Ha]; [done|].
  apply IntMath.isPowerOf2_correct in Hpb as (s & Hs & Hbse); [|lia|done].
  apply IntMath.isPowerOf2_correct in Hpn as (n & Hn & Hnse); [|lia|apply wrap_range; lia].
  assert (ns = p_size p / (p_block_size p * p_assoc p)) as Hns.
  { unfold ns. rewrite (wrap_small 32 (_ * _)) by (unfold in_width in *; nia). apply wrap_small.
    unfold in_width in *. split; [apply Z.div_pos; nia|apply Z.div_lt_upper_bound; nia]. }
  pose proof (Z.mul_div_le (p_size p) (p_block_size p * p_assoc p) ltac:(nia)) as Hle.
  rewrite <- Hns in Hle. unfold in_width in *.
  rewrite !IntMath.floorLog2_u_ull by (unfold in_width; lia).
  rewrite !IntMath.floorLog2_log2 by (unfold in_width; lia). cbn [mbind res_bind].
  assert (Z.log2 (p_block_size p) = s) as -> by (rewrite Hbse; apply Z.log2_pow2; lia).
  assert (Z.log2 ns = n) as -> by (rewrite Hnse; apply Z.log2_pow2; lia).
  rewrite !(wrap_small 32) by (unfold in_width; nia). intros [= <-]. cbn [geo allocAssoc].
  assert (s + n ≤ 32) as Hsn.
  { apply Z.lt_le_incl, (Z.pow_lt_mono_r_iff 2); [lia|lia|]. rewrite Z.pow_add_r by lia.
    rewrite <- Hbse, <- Hnse. nia. }
  assert (2 ≤ s) as Hs2 by (apply (Z.pow_le_mono_r_iff 2); lia).
  split; [|split_and!; try done].
  - constructor; cbn.
    + exists s, n. constructor; cbn; lia || congruence.
    + lia.
    + rewrite length_fmap, length_seq. lia.
    + intros i l Hl. by rewrite (init_sets (mkGeo (p_assoc p) 0 false 0 0 0 0 0 0 0 0) _ i l Hl).
    + rewrite length_fmap, length_seq. lia.
    + intros k b. rewrite list_lookup_fmap. destruct (seq 0 _ !! k) as [j|] eqn:Hj; [|done].
      apply lookup_seq in Hj as [-> _]. by intros [= <-].
  - intros i l Hl. cbn in *. apply (init_sets (mkGeo (p_assoc p) 0 false 0 0 0 0 0 0 0 0) _ i l Hl).
  - intros b. cbn. rewrite list_elem_of_fmap. by intros (j & -> & _).
  - cbn. unfold vsize. by rewrite length_replicate.
Qed.

(** ** Random replacement *)

(** In a set that is in order, the pointer at index [j] is way [j]. *)
Lemma in_order_lookup t i l j :
  wf t → in_order t → sets t !! i = Some l → 0 ≤ j < assoc (geo t) →
  ∃ k b, vread l j = Ok k ∧ l !! Z.to_nat j = Some k ∧ blks t !! k = Some b ∧ way b = j ∧
    Z.of_nat k / assoc (geo t) = Z.of_nat i ∧ Z.of_nat k mod assoc (geo t) = j.
Proof.
  intros Hwf Ho Hl Hj. pose proof (set_length t i l Hwf Hl) as Hlen.
  destruct (vread_ok l j) as (k & Hk & Hlk); [unfold vsize; lia|].
  destruct (set_blk t i l k Hwf Hl (list_elem_of_lookup_2 _ _ _ Hlk)) as (b & Hb & Hset & Hway).
  destruct (wf_own t Hwf k b Hb) as [Hs Hw]. exists k, b.
  pose proof Hlk as Hlk'. rewrite (Ho i l Hl) in Hlk'. unfold owned in Hlk'.
  rewrite list_lookup_fmap in Hlk'. destruct (seq 0 _ !! Z.to_nat j) as [x|] eqn:Hx; [|done].
  apply lookup_seq in Hx as [-> _]. injection Hlk' as Hk'.
  assert (Z.of_nat k mod assoc (geo t) = j) as Hm.
  { rewrite <- Hk', Nat2Z.inj_add, Nat2Z.inj_mul, Z2Nat.id, Z.add_comm, Z.mod_add by lia.
    rewrite Z2Nat.id by lia. apply Z.mod_small. lia. }
  split_and!; congruence.
Qed.

(** The search for an allocatable way ends within a turn of the set. *)
Lemma next_allocatable_spec t i l fuel j :
  wf t → in_order t → sets t !! i = Some l → 0 ≤ j < assoc (geo t) →
  assoc (geo t) - j ≤ Z.of_nat fuel →
  ∃ j' k b, RandomRepl.next_allocatable fuel t l j = Ok (j', k) ∧ 0 ≤ j' < assoc (geo t) ∧
    blks t !! k = Some b ∧ way b = j' ∧ j' < allocAssoc t ∧ Z.of_nat k / assoc (geo t) = Z.of_nat i.
Proof.
  intros Hwf Ho Hl. pose proof (wf_alloc t Hwf).
  revert j. induction fuel as [|fuel IH]; intros j Hj Hf; [lia|].
  cbn [RandomRepl.next_allocatable].
  destruct (in_order_lookup t i l j Hwf Ho Hl Hj) as (k & b & -> & _ & Hb & Hw & Hk & _).
  cbn [mbind res_bind]. rewrite Hb. cbn [deref mbind res_bind]. rewrite Hw.
  destruct (Z.leb_spec (allocAssoc t) j).
  2: { exists j, k, b. split_and!; done || lia. }
  destruct (Z.eq_dec (j + 1) (assoc (geo t))) as [He|Hne].
  - rewrite He, Z.mod_same by lia.
    destruct fuel as [|fuel]; cbn [RandomRepl.next_allocatable];
      destruct (in_order_lookup t i l 0 Hwf Ho Hl ltac:(lia)) as (k0 & b0 & -> & _ & Hb0 & Hw0 & Hk0 & _);
      cbn [mbind res_bind]; rewrite Hb0; cbn [deref mbind res_bind]; rewrite Hw0;
      (destruct (Z.leb_spec (allocAssoc t) 0); [lia|]); exists 0, k0, b0; split_and!; done || lia.
  - rewrite Z.mod_small by lia. apply IH; lia.
Qed.

(** The scan of the allocatable ways for an invalid block. *)
Lemma first_invalid_spec t l blk :
  (∀ k, k ∈ l → is_Some (blks t !! k)) →
  ∃ r, first_invalid (blks t) l blk = Ok r ∧
    match r with
    | None => l = [] ∧ blk = None
    | Some k => (k ∈ l ∨ l = [] ∧ blk = Some k) ∧ ∀ b, blks t !! k = Some b → isValid b = true →
        l = [] ∨ ∀ x bx, x ∈ l → blks t !! x = Some bx → isValid bx = true
    end.
Proof.
  revert blk. induction l as [|x l IH]; intros blk Hl.
  { exists blk. split; [done|]. destruct blk; [|done]. split; [by right|]. by left. }
  cbn [first_invalid]. destruct (Hl x) as [b Hb]; [by left|]. rewrite Hb. cbn [deref mbind res_bind].
  destruct (isValid b) eqn:Hv; cbn [negb].
  - destruct (IH (Some x)) as (r & Hf & Hr); [intros k Hk; apply Hl; by right|].
    exists r. split; [done|]. destruct r as [k|]; [|by destruct Hr].
    destruct Hr as [Hk Hr]. split.
    + left. destruct Hk as [Hk|[-> [= ->]]]; [by right|by left].
    + intros bk Hbk Hvk. right. intros y by_ [->|Hy]%elem_of_cons Hby; [congruence|].
      destruct (Hr bk Hbk Hvk) as [->|Hall]; [by apply elem_of_nil in Hy|by eapply Hall].
  - exists (Some x). split; [done|]. split; [left; by left|]. intros b' Hb' Hv'. congruence.
Qed.

(** The ways a scan of [take allocAssoc] covers. *)
Lemma in_order_take t i l k :
  wf t → in_order t → sets t !! i = Some l →
  k ∈ take (Z.to_nat (allocAssoc t)) l ↔ k ∈ l ∧ allocatable t k.
Proof.
  intros Hwf Ho Hl. pose proof (wf_alloc t Hwf) as Hal. pose proof (set_length t i l Hwf Hl) as Hlen.
  assert (∀ j x, l !! j = Some x → Z.of_nat x mod assoc (geo t) = Z.of_nat j) as Hmod.
  { intros j x Hx. pose proof (lookup_lt_Some _ _ _ Hx).
    destruct (in_order_lookup t i l (Z.of_nat j) Hwf Ho Hl ltac:(lia)) as (y & b & _ & Hy & _ & _ & _ & Hm).
    rewrite Nat2Z.id in Hy. congruence. }
  rewrite !list_elem_of_lookup. unfold allocatable. split.
  - intros (j & Hj). apply lookup_take_Some in Hj as [Hj Hlt]. split; [by exists j|].
    rewrite (Hmod j k Hj). lia.
  - intros [(j & Hj) Ha]. exists j. rewrite (Hmod j k Hj) in Ha. apply lookup_take_Some. split; [done|lia].
Qed.

(** ** Sequences of uses *)

(** The uses of an LRU store by a cache: an access, or a fill, which finds a victim, inserts
    the new block there and sets its status. *)
Inductive lru_step (mm : Z) : BaseSetAssoc → BaseSetAssoc → Prop :=
| step_access period now a sec t t' r lat :
    LRU.accessBlock period now a sec t = Ok (t', r, lat) → lru_step mm t t'
| step_fill now pkt a k st t t1 t' :
    LRU.findVictim a t = Ok (Some k) → can_insert mm pkt a k t →
    LRU.insertBlock mm now pkt k t = Ok t1 → on_blk k (with_status st) t1 = Ok t' →
    lru_step mm t t'.

Lemma victim_set t a k :
  wf t → LRU.findVictim a t = Ok (Some k) → Z.of_nat k / assoc (geo t) = extractSet t a.
Proof.
  intros Hwf Hv. destruct (lru_victim_spec t a Hwf) as (l & pre & k' & post & Hl & Hll & _ & _ & Hv').
  rewrite Hv in Hv'. injection Hv' as <-. destruct (wf_geo t Hwf) as (s & n & Hg).
  pose proof (extractSet_range t s n Hg a).
  rewrite (proj1 (set_elem t _ l k Hwf Hl)); [lia|]. rewrite Hll. apply elem_of_app. right. by left.
Qed.

Lemma fill_wf mm now pkt a k st t t1 t' :
  wf t → LRU.findVictim a t = Ok (Some k) → can_insert mm pkt a k t →
  LRU.insertBlock mm now pkt k t = Ok t1 → on_blk k (with_status st) t1 = Ok t' → wf t'.
Proof.
  intros Hwf Hv Hci Hins Hon.
  destruct (lru_insert_spec mm now pkt a k t Hwf Hci (victim_set t a k Hwf Hv))
    as (t2 & b & Hins2 & Hwf2 & Hb & Hg2 & _ & _ & _ & Hb2 & _).
  rewrite Hins in Hins2. injection Hins2 as <-. unfold on_blk in Hon.
  destruct (blks t1 !! k) as [b1|] eqn:Hb1; [|done]. cbn [deref mbind res_bind] in Hon.
  injection Hon as <-. destruct (wf_own t1 Hwf2 k b1 Hb1). by apply wf_with_blk.
Qed.

(** [t'] keeps block [k] of set [i], pushed back by at most one place. *)
Definition keeps (i k : nat) (t t' : BaseSetAssoc) : Prop :=
  geo t' = geo t ∧ allocAssoc t' = allocAssoc t ∧
  (with_refCount 0 <$> blks t' !! k) = (with_refCount 0 <$> blks t !! k) ∧
  ∀ l, sets t !! i = Some l → ∃ l', sets t' !! i = Some l' ∧ (rank k l' ≤ S (rank k l))%nat.

Lemma used_rank t t' r i k l :
  used t t' r → sets t !! i = Some l → ∃ l', sets t' !! i = Some l' ∧ (rank k l' ≤ S (rank k l))%nat.
Proof.
  intros Hu Hl. destruct r as [k'|]; cbn in Hu.
  2: { exists l. split; [congruence|lia]. }
  destruct Hu as (j & m & Hm & _ & ->). destruct (decide (j = i)) as [->|Hne].
  - rewrite list_lookup_insert_eq by (by eapply lookup_lt_Some). eexists. split; [done|].
    rewrite Hl in Hm. injection Hm as <-. apply rank_head.
  - rewrite list_lookup_insert_ne by done. exists l. split; [done|lia].
Qed.

Lemma lru_step_keeps mm t t' i k l :
  lru_step mm t t' → wf t → allocAssoc t = assoc (geo t) →
  sets t !! i = Some l → k ∈ l → (S (rank k l) < Z.to_nat (assoc (geo t)))%nat →
  wf t' ∧ keeps i k t t'.
Proof.
  intros Hst Hwf Hall Hl Hk Hrk. destruct Hst as [period now a sec t t' r lat Hacc|now pkt a v st t t1 t' Hv Hci Hins Hon].
  - destruct (lru_access_spec t period now a sec Hwf) as (t2 & r2 & lat2 & Hacc2 & _ & Hwf2 & Hu & (Hg & Ha & Hb) & _).
    rewrite Hacc in Hacc2. injection Hacc2 as <- <- <-. split; [done|]. red. split_and!; try done.
    intros l0 Hl0. by eapply used_rank.
  - destruct (lru_victim_rank t a v Hwf Hall Hv) as (l2 & Hl2 & Hin2 & Hr2).
    pose proof (victim_set t a v Hwf Hv) as Hv2.
    destruct (lru_insert_spec mm now pkt a v t Hwf Hci Hv2)
      as (t2 & b & Hins2 & Hwf2 & Hb & Hg2 & Ha2 & Hu & _ & Hb2 & _).
    rewrite Hins in Hins2. injection Hins2 as <-.
    pose proof (fill_wf mm now pkt a v st t t1 t' Hwf Hv Hci Hins Hon) as Hwf'.
    assert (v ≠ k) as Hvk.
    { intros ->. assert (Z.to_nat (extractSet t a) = i) as He.
      { pose proof (proj1 (set_elem t i l k Hwf Hl) Hk). lia. }
      rewrite He, Hl in Hl2. injection Hl2 as <-. lia. }
    unfold on_blk in Hon. rewrite Hb2, list_lookup_insert_eq in Hon by (by eapply lookup_lt_Some).
    cbn [deref mbind res_bind] in Hon. injection Hon as <-. split; [done|].
    red. cbn. split_and!; try done; [|intros l0 Hl0; by eapply used_rank].
    rewrite !list_lookup_insert_ne by done. done.
Qed.

Lemma lru_steps_keep mm n t t' i k l :
  nsteps (lru_step mm) n t t' → wf t → allocAssoc t = assoc (geo t) →
  sets t !! i = Some l → k ∈ l → (n + rank k l < Z.to_nat (assoc (geo t)))%nat →
  wf t' ∧ geo t' = geo t ∧ (with_refCount 0 <$> blks t' !! k) = (with_refCount 0 <$> blks t !! k).
Proof.
  intros Hn. revert l. induction Hn as [t|n t1 t2 t3 Hst Hn IH]; intros l Hwf Hall Hl Hk Hr; [done|].
  destruct (lru_step_keeps mm t1 t2 i k l Hst Hwf Hall Hl Hk) as (Hwf2 & Hg & Ha & Hb & Hrk); [lia|].
  destruct (Hrk l Hl) as (l2 & Hl2 & Hr2).
  assert (k ∈ l2) as Hk2.
  { apply (set_elem t2 i l2 k Hwf2 Hl2). rewrite Hg. by apply (set_elem t1 i l k Hwf Hl). }
  destruct (IH l2) as (Hwf3 & Hg3 & Hb3); rewrite ?Ha, ?Hg; try done; [lia|].
  split_and!; congruence.
Qed.

(** ** The theorems *)

(** C29: the protection an LRU store gives.  After an access that hits a block, any sequence
    of fewer than [assoc] accesses and fills leaves the block in place: its contents are
    unchanged and the same address still hits.  (All ways allocatable.) *)
Theorem lru_protects (mm period now a : Z) (sec : bool) (t0 t t' : BaseSetAssoc) (k n : nat) (lat : Z) :
  wf t0 → allocAssoc t0 = assoc (geo t0) →
  LRU.accessBlock period now a sec t0 = Ok (t, Some k, lat) →
  nsteps (lru_step mm) n t t' → Z.of_nat n < assoc (geo t0) →
  (with_refCount 0 <$> blks t' !! k) = (with_refCount 0 <$> blks t !! k) ∧
  ∃ k', findBlock t' a sec = Ok (Some k').
Proof.
  intros Hwf Hall Hacc Hn Hlt.
  destruct (lru_access_spec t0 period now a sec Hwf) as (t2 & r & lat2 & Hacc2 & Hf & Hwf2 & Hu & Hsl & _).
  rewrite Hacc in Hacc2. injection Hacc2 as <- <- <-. destruct Hu as (i & l & Hl & Hk & Hse).
  destruct (findBlock_spec t0 a sec Hwf) as (r & Hf2 & Hr). rewrite Hf in Hf2. injection Hf2 as <-.
  destruct Hr as [Hset Hline]. rewrite <- (same_line_holds t0 t _ sec k Hsl) in Hline.
  pose proof Hsl as (Hg & Ha & _).
  destruct (lru_steps_keep mm n t t' i k (k :: filter (λ x, x ≠ k) l)) as (Hwf3 & Hg3 & Hb3);
    rewrite ?Hse, ?Ha, ?Hg; try done.
  { by rewrite list_lookup_insert_eq by (by eapply lookup_lt_Some). }
  { by left. }
  { cbn [rank]. rewrite decide_True by done. lia. }
  split; [done|]. destruct (findBlock_spec t' a sec Hwf3) as (r & -> & Hr).
  destruct r as [k'|]; [by exists k'|]. exfalso.
  assert (holds_line t' (extractTag t' a) sec k = true) as Hl2.
  { unfold holds_line in *. unfold extractTag in *. rewrite Hg3, Hg.
    destruct (blks t' !! k) as [b'|], (blks t !! k) as [b|]; cbn in Hb3; try done.
    injection Hb3. intros. unfold isValid, isSecure in *. congruence. }
  rewrite Hr in Hl2; [done|]. unfold extractSet in *. by rewrite Hg3, Hg.
Qed.

(** What is filled is found.  Filling the victim of an address with a valid status
    succeeds, the address then hits exactly that block, which is the most recently used
    one of its set and carries the requestor's tag, owner and time; every other block is
    untouched and the store stays well formed. *)
Theorem lru_fill_then_hit (mm now a st : Z) (sec : bool) (pkt : Packet.Packet) (t : BaseSetAssoc) (k : nat) :
  wf t → LRU.findVictim a t = Ok (Some k) → can_insert mm pkt a k t →
  Z.testbit st 0 = true → negb (Z.land st BlkSecure =? 0) = sec →
  ∃ t1 t2 b, LRU.insertBlock mm now pkt k t = Ok t1 ∧ on_blk k (with_status st) t1 = Ok t2 ∧
    findBlock t2 a sec = Ok (Some k) ∧ wf t2 ∧
    head (default [] (sets t2 !! Z.to_nat (extractSet t a))) = Some k ∧
    blks t2 !! k = Some b ∧ tag b = extractTag t a ∧
    srcMasterId b = Request.masterId (Packet.req pkt) ∧ tickInserted b = now ∧
    ∀ k', k' ≠ k → blks t2 !! k' = blks t !! k'.
Proof.
  intros Hwf Hv Hci Hst Hsec.
  pose proof (victim_set t a k Hwf Hv) as Hset.
  destruct (lru_insert_spec mm now pkt a k t Hwf Hci Hset)
    as (t1 & b & Hins & Hwf1 & Hb & Hg1 & Ha1 & Hu & Hhd & Hb1 & _).
  assert (blks t1 !! k = Some (inserted (extractTag t a) now (Packet.req pkt) b)) as Hk1.
  { rewrite Hb1. by rewrite list_lookup_insert_eq by (by eapply lookup_lt_Some). }
  set (b1 := inserted _ _ _ _) in *. set (t2 := with_blks (<[k := with_status st b1]> (blks t1)) t1).
  assert (blks t2 !! k = Some (with_status st b1)) as Hk2.
  { cbn. by rewrite list_lookup_insert_eq by (by eapply lookup_lt_Some). }
  assert (Hwf2 : wf t2).
  { destruct (wf_own t1 Hwf1 k b1 Hk1). apply wf_with_blk; [done|by exists b1|done..]. }
  exists t1, t2, (with_status st b1). split; [done|]. split.
  { unfold on_blk. by rewrite Hk1. }
  split_and!; try done.
  - unfold findBlock. assert (extractSet t2 a = extractSet t a) as -> by (unfold extractSet; cbn; by rewrite Hg1).
    destruct (addressed_set t a Hwf) as (l & _ & Hl & Hr). change (sets t2) with (sets t1).
    destruct (sets t1 !! Z.to_nat (extractSet t a)) as [[|x l1]|] eqn:Hl1; try done. injection Hhd as ->.
    unfold vread. rewrite Hl1. destruct (Z.leb_spec 0 (extractSet t a)); [|lia]. cbn [deref mbind res_bind].
    unfold CacheSet.findBlk. cbn [CacheSet.findBlk_way]. rewrite Hk2. cbn [deref mbind res_bind].
    assert (extractTag t2 a = extractTag t a) as -> by (unfold extractTag; cbn; by rewrite Hg1).
    change (tag (with_status st b1)) with (extractTag t a). rewrite Z.eqb_refl.
    unfold isValid, isSecure. cbn [status with_status]. rewrite Hsec, Bool.eqb_reflx.
    replace (Z.land st BlkValid =? 0) with false; [done|]. symmetry. apply Z.eqb_neq. intros H0.
    apply (f_equal (λ z, Z.testbit z 0)) in H0. rewrite Z.land_spec, Hst in H0. done.
  - intros k' Hne. cbn. rewrite list_lookup_insert_ne by done. rewrite Hb1. by rewrite list_lookup_insert_ne.
Qed.

(** The LRU victim.  A victim is always found, in the set of the address; it is in an
    allocatable way, and every block of the set used less recently is in a way that may not
    be allocated.  An access that hits moves its block ahead of all others of its set, one
    that misses leaves the order alone, and an invalidated block becomes the last of its
    set. *)
Theorem lru_order_correct (t : BaseSetAssoc) (mm period now a : Z) (sec : bool) :
  wf t →
  (∃ l pre k post, sets t !! Z.to_nat (extractSet t a) = Some l ∧ l = post ++ k :: pre ∧
    (∀ x, x ∈ pre → ¬ allocatable t x) ∧ allocatable t k ∧ LRU.findVictim a t = Ok (Some k)) ∧
  (∃ t' r lat, LRU.accessBlock period now a sec t = Ok (t', r, lat) ∧
    findBlock t a sec = Ok r ∧ wf t' ∧ used t t' r ∧ same_line t t' ∧ accessLatency (geo t) ≤ lat) ∧
  (∀ k b, blks t !! k = Some b → isValid b = true → 0 ≤ srcMasterId b < mm →
    vsize (occupancies (stats t)) = mm →
    ∃ t' l, LRU.lru_invalidate mm now k t = Ok t' ∧ wf t' ∧
      sets t !! Z.to_nat (set b) = Some l ∧ k ∈ l ∧
      sets t' = <[Z.to_nat (set b) := filter (λ x, x ≠ k) l ++ [k]]> (sets t)).
Proof.
  intros Hwf. split_and!; [by apply lru_victim_spec|by apply lru_access_spec|].
  intros k b Hb Hv Hs Hm.
  destruct (lru_invalidate_spec mm now k t b Hwf Hb Hv Hs Hm) as (t' & l & ? & ? & ? & ? & ? & _).
  exists t', l. done.
Qed.

(** Random replacement.  Whatever number is drawn, a victim is found after at most one
    turn of the set: it lies in the addressed set and in an allocatable way, and it is
    invalid whenever some allocatable block of the set is. *)
Theorem random_victim_correct (t : BaseSetAssoc) (idx a : Z) :
  wf t → in_order t → 0 ≤ idx < assoc (geo t) →
  ∃ k b l, RandomRepl.findVictim idx a t = Ok (Some k) ∧
    sets t !! Z.to_nat (extractSet t a) = Some l ∧ k ∈ l ∧ allocatable t k ∧
    blks t !! k = Some b ∧
    ∀ x bx, x ∈ l → allocatable t x → blks t !! x = Some bx → isValid bx = false → isValid b = false.
Proof.
  intros Hwf Ho Hidx. destruct (addressed_set t a Hwf) as (l & Hread & Hl & Hr).
  pose proof (wf_alloc t Hwf) as Hal. pose proof (set_length t _ l Hwf Hl) as Hlen.
  unfold RandomRepl.findVictim, BaseSetAssoc.findVictim. rewrite Hread. cbn [mbind res_bind].
  replace (allocAssoc t <=? vsize l) with true by (symmetry; apply Z.leb_le; unfold vsize; lia).
  destruct (first_invalid_spec t (take (Z.to_nat (allocAssoc t)) l) None) as (r & Hf & Hfi).
  { intros k Hk. apply (in_order_take t _ l k Hwf Ho Hl) in Hk as [Hk _].
    by destruct (set_blk t _ l k Hwf Hl Hk) as (b & -> & _). }
  rewrite Hf. cbn [mbind res_bind]. destruct r as [k|].
  2: { destruct Hfi as [He _]. apply (f_equal length) in He. rewrite length_take in He. cbn in He. lia. }
  destruct Hfi as [[Hk|[_ [=]]] Hall]. apply (in_order_take t _ l k Hwf Ho Hl) in Hk as [Hk Hka].
  destruct (set_blk t _ l k Hwf Hl Hk) as (b & Hb & _). rewrite Hb. cbn [deref mbind res_bind].
  destruct (isValid b) eqn:Hv.
  2: { exists k, b, l. done. }
  destruct (next_allocatable_spec t _ l (Z.to_nat (assoc (geo t))) idx Hwf Ho Hl) as (j & k2 & b2 & -> & Hj & Hb2 & Hw2 & Hlt & Hk2);
    [lia|lia|]. cbn [mbind res_bind]. rewrite Hb2. cbn [deref mbind res_bind].
  rewrite bind_assert by (apply Z.ltb_lt; lia). rewrite bind_assert by (apply Z.leb_le; lia).
  rewrite bind_assert by (apply Z.ltb_lt; lia).
  exists k2, b2, l. split_and!; try done.
  - apply (set_elem t _ l k2 Hwf Hl). lia.
  - unfold allocatable. destruct (wf_own t Hwf k2 b2 Hb2) as [_ <-]. lia.
  - intros x bx Hx Hxa Hbx Hvx. destruct (Hall b Hb Hv) as [He|Hval].
    + apply (f_equal length) in He. rewrite length_take in He. cbn in He. lia.
    + rewrite (Hval x bx) in Hvx; [done| |done]. by apply (in_order_take t _ l x Hwf Ho Hl).
Qed.

(** The invariant of a tag store.  A store built from valid parameters is well formed,
    with every block invalid and every way allocatable, and insertion and invalidation (of
    either policy) keep it well formed. *)
Theorem tags_invariant (d : positive) (n : nat) (p : Params) (t0 t : BaseSetAssoc) (mm now a : Z)
    (pkt : Packet.Packet) (k : nat) :
  in_width 32 (p_block_size p) → in_width 32 (p_size p) → 0 ≤ p_assoc p →
  p_block_size p * p_assoc p < 2 ^ 32 → newTags d n p = Ok t0 → wf t → can_insert mm pkt a k t →
  (wf t0 ∧ in_order t0 ∧ (∀ b, b ∈ blks t0 → isValid b = false) ∧ allocAssoc t0 = assoc (geo t0)) ∧
  (∃ t', BaseSetAssoc.insertBlock mm now pkt k t = Ok t' ∧ wf t' ∧ sets t' = sets t) ∧
  (Z.of_nat k / assoc (geo t) = extractSet t a → ∃ t', LRU.insertBlock mm now pkt k t = Ok t' ∧ wf t') ∧
  (∀ b, blks t !! k = Some b → isValid b = true →
    ∃ t1 t2, tags_invalidate mm now k t = Ok t1 ∧ wf t1 ∧ sets t1 = sets t ∧
      LRU.lru_invalidate mm now k t = Ok t2 ∧ wf t2).
Proof.
  intros Hbs Hsz Hpa Hba Hnew Hwf Hci. split; [|split_and!].
  - destruct (newTags_wf d n p t0 Hbs Hsz Hpa Hba Hnew) as (? & ? & ? & ? & _). done.
  - destruct (base_insert_spec mm now pkt a k t Hwf Hci) as (t' & b & ? & ? & _ & _ & _ & ? & _).
    by exists t'.
  - intros Hk. destruct (lru_insert_spec mm now pkt a k t Hwf Hci Hk) as (t' & b & ? & ? & _).
    by exists t'.
  - intros b Hb Hv. destruct Hci as (_ & Hm & _ & b' & Hb' & Hsrc).
    rewrite Hb in Hb'. injection Hb' as <-. specialize (Hsrc Hv).
    destruct (base_invalidate_spec mm now k t b Hwf Hb Hv Hsrc Hm) as (t1 & ? & ? & _ & _ & ? & _).
    destruct (lru_invalidate_spec mm now k t b Hwf Hb Hv Hsrc Hm) as (t2 & l & ? & ? & _).
    by exists t1, t2.
Qed.

(** ** A small store: two sets of two blocks of four bytes *)

Definition small_params : Params := mkParams 16 4 2 false 1.
Definition no_tags : BaseSetAssoc :=
  mkTags (mkGeo 0 0 false 0 0 0 0 0 0 0 0) 0 [] [] false (mkTagStats 0 [] 0 0 0 0 0 0).
Definition small : BaseSetAssoc := match newTags 1 2 small_params with Ok t => t | Fail _ => no_tags end.

Lemma small_wf : wf small ∧ in_order small.
Proof.
  destruct (newTags_wf 1 2 small_params small) as (? & ? & _); try done.
Qed.

(** Reads by requestor 1 of addresses of set 1. *)
Definition small_pkt (a : Z) : Packet.Packet :=
  Packet.mkPacket 0x1300 MemCmd.ReadReq (Request.newPhys 0 a 4 0 1) None a false 4 [] 0 0 0 None.

Definition small_fill (a : Z) (k : nat) (t : BaseSetAssoc) : BaseSetAssoc :=
  match LRU.insertBlock 2 7 (small_pkt a) k t ≫= on_blk k (with_status 5) with
  | Ok t => t | Fail _ => no_tags
  end.

(** The store after a fill of address 12. *)
Definition small1 : BaseSetAssoc := small_fill 12 3 small.

Lemma small_can_insert : can_insert 2 (small_pkt 12) 12 3 small.
Proof. red. split_and!; [done..|]. by eexists. Qed.

Lemma small1_wf : wf small1.
Proof.
  destruct (LRU.insertBlock 2 7 (small_pkt 12) 3 small) as [t1|] eqn:H1; [|by vm_compute in H1].
  destruct (on_blk 3 (with_status 5) t1) as [t2|] eqn:H2.
  - assert (small1 = t2) as -> by (unfold small1, small_fill; rewrite H1; cbn [mbind res_bind]; by rewrite H2).
    eapply (fill_wf 2 7 (small_pkt 12) 12 3 5 small t1 t2);
      [apply small_wf|reflexivity|apply small_can_insert|done|done].
  - exfalso. vm_compute in H1. injection H1 as <-. by vm_compute in H2.
Qed.

Lemma tags_address_roundtrip_witness :
  regenerateBlkAddr small (extractTag small 14) (extractSet small 14) = 12.
Proof.
  destruct (tags_address_roundtrip small 14 22 (proj1 small_wf)) as (H1 & _); [done..|].
  rewrite H1. reflexivity.
Defined.

(** Address 12 hits, address 20 (same set) is filled, and address 12 still hits. *)
Lemma lru_protects_witness :
  ∃ t lat k', LRU.accessBlock 500 9 12 false small1 = Ok (t, Some 3%nat, lat) ∧
    findBlock (small_fill 20 2 t) 12 false = Ok (Some k').
Proof.
  set (r := LRU.accessBlock 500 9 12 false small1). vm_compute in r.
  match eval unfold r in r with Ok (?t, _, ?lat) =>
    destruct (lru_protects 2 500 9 12 false small1 t (small_fill 20 2 t) 3 1 lat) as (_ & k' & Hk');
    [apply small1_wf|reflexivity|reflexivity| |reflexivity|exists t, lat, k'; split; [reflexivity|exact Hk']]
  end.
  eapply nsteps_l; [|apply nsteps_O].
  eapply (step_fill 2 7 (small_pkt 20) 20 2 5); [reflexivity| |reflexivity|reflexivity].
  red. split_and!; [done..|]. by eexists.
Defined.

Lemma lru_fill_then_hit_witness :
  ∃ t1 t2, LRU.insertBlock 2 7 (small_pkt 12) 3 small = Ok t1 ∧ on_blk 3 (with_status 5) t1 = Ok t2 ∧
    findBlock t2 12 false = Ok (Some 3%nat).
Proof.
  destruct (lru_fill_then_hit 2 7 12 5 false (small_pkt 12) small 3) as (t1 & t2 & b & H1 & H2 & H3 & _);
    [apply small_wf|reflexivity|apply small_can_insert|reflexivity|reflexivity|].
  exists t1, t2. exact (conj H1 (conj H2 H3)).
Defined.

Lemma lru_order_correct_witness :
  ∃ t' r lat, LRU.accessBlock 500 9 12 false small1 = Ok (t', r, lat) ∧ findBlock small1 12 false = Ok r.
Proof.
  destruct (lru_order_correct small1 2 500 9 12 false small1_wf) as (_ & (t' & r & lat & H1 & H2 & _) & _).
  exists t', r, lat. exact (conj H1 H2).
Defined.

Lemma random_victim_correct_witness :
  ∃ k b, RandomRepl.findVictim 1 12 small = Ok (Some k) ∧ blks small !! k = Some b ∧ isValid b = false.
Proof.
  destruct (random_victim_correct small 1 12 (proj1 small_wf) (proj2 small_wf) ltac:(done))
    as (k & b & l & H1 & Hl & Hk & _ & Hb & Hinv).
  exists k, b. split; [exact H1|]. split; [exact Hb|].
  apply (Hinv 2%nat (init_blk (geo small) 1 2)); [|reflexivity..].
  vm_compute in Hl. injection Hl as <-. by left.
Defined.

Lemma tags_invariant_witness :
  ∃ t', LRU.insertBlock 2 7 (small_pkt 12) 3 small = Ok t' ∧ wf t'.
Proof.
  destruct (tags_invariant 1 2 small_params small small 2 7 12 (small_pkt 12) 3)
    as (_ & _ & H & _);
    [by vm_compute..|reflexivity|apply small_wf|apply small_can_insert|].
  apply H. reflexivity.
Defined.

End TagsProofs.
