(* ===== verification/Drain.v ===== *)
(** * Draining

    [sim/drain.hh] and [sim/drain.cc]: the manager that brings every object of the simulated
    system to a drained state before a checkpoint or a switch of models, and the objects'
    side of the protocol.  An object is named by its address; [drain()] is a virtual
    function, [drain o] is what it returns for object [o].

    The invariant [drain_inv] says that the manager's counter is the number of objects
    still draining; [drain_protocol] and [drain_completes] state what the protocol promises,
    [late_object_breaks_drain] what happens to an object created in the middle of a drain. *)

From S2P Require Import Prelude.

Open Scope Z_scope.

Module Drain.

Inductive DrainState := Running | Draining | Drained.

#[export] Instance DrainState_eq_dec : EqDecision DrainState.
Proof. solve_decision. Defined.

(** The manager, the state of every object, and the number of times the simulation loop
    was told "Finished drain". *)
Record World := mkWorld {
  count : Z;
  mstate : DrainState;
  allDrainable : gset positive;
  drainStates : gmap positive DrainState;
  finished : nat
}.

Definition newManager : World := mkWorld 0 Running ∅ ∅ 0.

Definition with_state (o : positive) (s : DrainState) (w : World) : World :=
  mkWorld (count w) (mstate w) (allDrainable w) (<[o := s]> (drainStates w)) (finished w).
Definition with_mstate (s : DrainState) (w : World) : World :=
  mkWorld (count w) s (allDrainable w) (drainStates w) (finished w).
Definition with_count (n : Z) (w : World) : World :=
  mkWorld n (mstate w) (allDrainable w) (drainStates w) (finished w).

Definition isDrained (w : World) : bool := bool_decide (mstate w = Drained).
Definition state (w : World) : DrainState := mstate w.
Definition drainableCount (w : World) : Z := Z.of_nat (size (allDrainable w)).
Definition drainState (o : positive) (w : World) : res DrainState := deref (drainStates w !! o).

Definition registerDrainable (o : positive) (w : World) : World :=
  mkWorld (count w) (mstate w) ({[o]} ∪ allDrainable w) (drainStates w) (finished w).
Definition unregisterDrainable (o : positive) (w : World) : World :=
  mkWorld (count w) (mstate w) (allDrainable w ∖ {[o]}) (drainStates w) (finished w).

(** [Drainable()]: a new object at address [o]. *)
Definition newDrainable (o : positive) (w : World) : World :=
  registerDrainable o (with_state o (state w) w).

(** [~Drainable()] *)
Definition deleteDrainable (o : positive) (w : World) : World :=
  let w := unregisterDrainable o w in
  mkWorld (count w) (mstate w) (allDrainable w) (delete o (drainStates w)) (finished w).

Definition dmDrain (drain : positive → DrainState) (o : positive) (w : World) : res (World * DrainState) :=
  _ ← deref (drainStates w !! o);
  let w := with_state o Draining w in
  let w := with_state o (drain o) w in
  _ ← assert_ (bool_decide (drain o = Draining) || bool_decide (drain o = Drained));
  Ok (w, drain o).

Definition dmDrainResume (o : positive) (w : World) : res World :=
  s ← deref (drainStates w !! o);
  if decide (s ≠ Drained) then Fail Panicked else Ok (with_state o Running w).

(** The loop of [tryDrain]. *)
Fixpoint drain_all (drain : positive → DrainState) (l : list positive) (w : World) : res World :=
  match l with
  | [] => Ok w
  | o :: l =>
      '(w, status) ← dmDrain drain o w;
      drain_all drain l (with_count (u32 (count w + (if decide (status = Drained) then 0 else 1))) w)
  end.

Definition tryDrain (drain : positive → DrainState) (w : World) : res (World * bool) :=
  if decide (mstate w = Drained) then Fail Panicked
  else if negb (count w =? 0) then Fail Panicked
  else
    w ← drain_all drain (elements (allDrainable w)) (with_mstate Draining w);
    if count w =? 0 then Ok (with_mstate Drained w, true) else Ok (w, false).

Fixpoint resume_all (l : list positive) (w : World) : res World :=
  match l with
  | [] => Ok w
  | o :: l => w ← dmDrainResume o w; resume_all l w
  end.

Definition resume (w : World) : res World :=
  if decide (mstate w = Running) then Fail Panicked
  else if negb (count w =? 0) then Fail Panicked
  else resume_all (elements (allDrainable w)) (with_mstate Running w).

Definition preCheckpointRestore (w : World) : res World :=
  if decide (mstate w ≠ Running) then Fail Panicked
  else
    let w := with_mstate Drained w in
    Ok (mkWorld (count w) (mstate w) (allDrainable w)
          (foldr (λ o m, <[o := Drained]> m) (drainStates w) (elements (allDrainable w)))
          (finished w)).

(** [DrainManager::signalDrainDone()] *)
Definition signal_manager (w : World) : World :=
  let w := with_count (u32 (count w - 1)) w in
  if count w =? 0 then
    mkWorld (count w) (mstate w) (allDrainable w) (drainStates w) (S (finished w))
  else w.

(** [Drainable::signalDrainDone()] *)
Definition signalDrainDone (o : positive) (w : World) : res World :=
  s ← deref (drainStates w !! o);
  match s with
  | Running | Drained => Ok w
  | Draining => Ok (signal_manager (with_state o Drained w))
  end.

(** ** The invariant *)

(** The number of objects still draining. *)
Definition draining (m : gmap positive DrainState) : nat :=
  size (filter (λ '(_, s), s = Draining) m).

Record drain_inv (w : World) : Prop := {
  di_dom : dom (drainStates w) = allDrainable w;
  di_count : count w = Z.of_nat (draining (drainStates w));
  di_size : Z.of_nat (size (allDrainable w)) < 2 ^ 32;
  di_state : match mstate w with
             | Running => ∀ o s, drainStates w !! o = Some s → s = Running
             | Drained => ∀ o s, drainStates w !! o = Some s → s = Drained
             | Draining => ∀ o s, drainStates w !! o = Some s → s ≠ Running
             end
}.

Definition b2n (s : DrainState) : nat := if decide (s = Draining) then 1 else 0.

Lemma draining_fresh m o s : m !! o = None → draining (<[o := s]> m) = (b2n s + draining m)%nat.
Proof.
  intros Ho. unfold draining, b2n. destruct (decide (s = Draining)) as [->|Hs].
  - rewrite map_filter_insert_True by done. rewrite map_size_insert_None; [done|].
    apply map_lookup_filter_None. by left.
  - rewrite map_filter_insert_False by done. by rewrite delete_id.
Qed.

Lemma draining_insert m o s s' :
  m !! o = Some s → (draining (<[o := s']> m) + b2n s = b2n s' + draining m)%nat.
Proof.
  intros Ho. rewrite <- (insert_delete_id m o s Ho) at 2. rewrite <- (insert_delete_eq m o s').
  rewrite !draining_fresh by apply lookup_delete_eq. lia.
Qed.

Lemma draining_0 m : draining m = 0%nat ↔ ∀ o s, m !! o = Some s → s ≠ Draining.
Proof.
  unfold draining. rewrite map_size_empty_iff, map_empty_filter.
  unfold map_Forall. split.
  - intros Hm o s Ho Hs. by apply (Hm o s Ho).
  - intros Hm o s Ho Hs. by apply (Hm o s Ho).
Qed.

Lemma draining_le m : (draining m ≤ size m)%nat.
Proof. apply map_size_filter. Qed.

Lemma inv_size w : drain_inv w → Z.of_nat (draining (drainStates w)) < 2 ^ 32.
Proof.
  intros [Hd _ Hs _]. pose proof (draining_le (drainStates w)) as Hle.
  rewrite <- size_dom, Hd in Hle. lia.
Qed.

(** The loop of [tryDrain] leaves every object in the state its [drain()] returned and
    counts the ones that need more time. *)
Lemma drain_all_spec drain l w :
  NoDup l → (∀ o, o ∈ l → drain o ≠ Running) →
  (∀ o, o ∈ l → ∃ s, drainStates w !! o = Some s ∧ s ≠ Draining) →
  count w = Z.of_nat (draining (drainStates w)) → Z.of_nat (size (drainStates w)) < 2 ^ 32 →
  ∃ w', drain_all drain l w = Ok w' ∧ count w' = Z.of_nat (draining (drainStates w')) ∧
    mstate w' = mstate w ∧ allDrainable w' = allDrainable w ∧ finished w' = finished w ∧
    dom (drainStates w') = dom (drainStates w) ∧
    ∀ o, drainStates w' !! o = if decide (o ∈ l) then Some (drain o) else drainStates w !! o.
Proof.
  revert w. induction l as [|x l IH]; intros w Hnd Hdr Hin Hc Hsz.
  { exists w. split_and!; try done. }
  apply NoDup_cons in Hnd as [Hx Hnd]. destruct (Hin x ltac:(by left)) as (s & Hs & Hsd).
  cbn [drain_all]. unfold dmDrain. rewrite Hs. cbn [deref mbind res_bind].
  pose proof (Hdr x ltac:(by left)) as Hdx.
  rewrite bind_assert by (destruct (drain x); done). cbn [mbind res_bind].
  unfold with_state. cbn [count mstate allDrainable drainStates finished]. rewrite insert_insert_eq.
  assert ((if decide (drain x = Drained) then 0 else 1) = Z.of_nat (b2n (drain x))) as Hb by (by destruct (drain x)).
  set (w1 := with_count _ _).
  assert (draining (drainStates w1) = (b2n (drain x) + draining (drainStates w))%nat) as Hd1.
  { pose proof (draining_insert (drainStates w) x s (drain x) Hs). cbn [drainStates w1 with_count with_state].
    replace (b2n s) with 0%nat in * by (unfold b2n; by rewrite decide_False). lia. }
  assert (size (drainStates w1) = size (drainStates w)) as Hs1 by (cbn; by apply map_size_insert_Some; eexists).
  destruct (IH w1) as (w' & -> & Hc' & Hm' & Ha' & Hf' & Hdom & Hst).
  { done. }
  { intros o Ho. apply Hdr. by right. }
  { intros o Ho. destruct (Hin o ltac:(by right)) as (so & Hso & Hsd'). exists so.
    split; [|done]. cbn. rewrite lookup_insert_ne by (by intros ->). done. }
  { pose proof (draining_le (drainStates w1)) as Hle. rewrite Hd1, Hs1 in Hle. rewrite Hd1.
    unfold w1. cbn [count with_count]. rewrite Hc, Hb. rewrite wrap_small by (unfold in_width; lia). lia. }
  { by rewrite Hs1. }
  exists w'. split_and!; try done.
  - rewrite Hdom. cbn. apply dom_insert_lookup_L. by eexists.
  - intros o. rewrite Hst. cbn. destruct (decide (o = x)) as [->|Hne].
    + rewrite (decide_True (P := x ∈ x :: l)) by (by left).
      destruct (decide (x ∈ l)); [done|]. by rewrite lookup_insert_eq.
    + rewrite lookup_insert_ne by done. destruct (decide (o ∈ l)).
      * by rewrite decide_True by (by right).
      * rewrite decide_False; [done|]. by apply not_elem_of_cons.
Qed.

Lemma tryDrain_spec drain w :
  drain_inv w → mstate w ≠ Drained → count w = 0 → (∀ o, o ∈ allDrainable w → drain o ≠ Running) →
  ∃ w' b, tryDrain drain w = Ok (w', b) ∧ drain_inv w' ∧ allDrainable w' = allDrainable w ∧
    finished w' = finished w ∧ (∀ o, o ∈ allDrainable w → drainStates w' !! o = Some (drain o)) ∧
    mstate w' = (if b then Drained else Draining) ∧
    (b = true ↔ ∀ o, o ∈ allDrainable w → drain o = Drained).
Proof.
  intros Hi Hm Hc Hdr. pose proof Hi as [Hdom Hcnt Hsz Hst]. unfold tryDrain.
  rewrite decide_False by done. rewrite Hc, Z.eqb_refl. cbn [negb].
  assert (draining (drainStates w) = 0%nat) as Hd0 by lia. rewrite draining_0 in Hd0.
  destruct (drain_all_spec drain (elements (allDrainable w)) (with_mstate Draining w))
    as (w' & -> & Hc' & Hm' & Ha' & Hf' & Hdom' & Hst').
  { apply NoDup_elements. }
  { intros o Ho. apply Hdr. by apply elem_of_elements. }
  { intros o Ho. rewrite elem_of_elements, <- Hdom, elem_of_dom in Ho. destruct Ho as [s Hs].
    exists s. split; [done|]. by eapply Hd0. }
  { done. }
  { cbn. by rewrite <- size_dom, Hdom. }
  cbn [mbind res_bind]. cbn in Hm', Ha', Hf', Hdom'.
  assert (∀ o, o ∈ allDrainable w → drainStates w' !! o = Some (drain o)) as Hall.
  { intros o Ho. rewrite Hst'. rewrite decide_True; [done|]. by apply elem_of_elements. }
  assert (∀ o s, drainStates w' !! o = Some s → o ∈ allDrainable w ∧ s = drain o) as Hback.
  { intros o s Hs. assert (o ∈ allDrainable w) as Ho by (rewrite <- Hdom, <- Hdom'; by eapply elem_of_dom_2).
    split; [done|]. rewrite Hall in Hs by done. congruence. }
  destruct (Z.eqb_spec (count w') 0) as [H0|H0].
  - assert (draining (drainStates w') = 0%nat) as Hn by lia. rewrite draining_0 in Hn.
    assert (∀ o, o ∈ allDrainable w → drain o = Drained) as Hdd.
    { intros o Ho. pose proof (Hn o _ (Hall o Ho)). pose proof (Hdr o Ho). by destruct (drain o). }
    eexists _, true. split; [done|]. split_and!; try done.
    constructor; cbn; [by rewrite Hdom', Ha'|done|by rewrite Ha'|].
    intros o s Hs. destruct (Hback o s Hs) as [Ho ->]. by apply Hdd.
  - eexists _, false. split; [done|]. split_and!; try done.
    + constructor; [by rewrite Hdom', Ha'|done|by rewrite Ha'|]. rewrite Hm'.
      intros o s Hs. destruct (Hback o s Hs) as [Ho ->]. by apply Hdr.
    + split; [done|]. intros Hdd. exfalso. apply H0. rewrite Hc'.
      assert (draining (drainStates w') = 0%nat) as ->; [|done]. apply draining_0.
      intros o s Hs. destruct (Hback o s Hs) as [Ho ->]. by rewrite Hdd.
Qed.

Lemma signal_spec o w :
  drain_inv w → is_Some (drainStates w !! o) →
  ∃ w', signalDrainDone o w = Ok w' ∧ drain_inv w' ∧ mstate w' = mstate w ∧
    allDrainable w' = allDrainable w ∧
    drainStates w' = (if decide (drainStates w !! o = Some Draining)
                      then <[o := Drained]> (drainStates w) else drainStates w) ∧
    finished w' = (if decide (drainStates w !! o = Some Draining ∧ draining (drainStates w) = 1%nat)
                   then S (finished w) else finished w).
Proof.
  intros Hi [s Hs]. pose proof Hi as [Hdom Hcnt Hsz Hst]. pose proof (inv_size w Hi) as Hlt.
  unfold signalDrainDone. rewrite Hs. cbn [deref mbind res_bind].
  destruct (decide (s = Draining)) as [->|Hne].
  2: { exists w. rewrite !decide_False by naive_solver. by destruct s. }
  rewrite decide_True by done.
  pose proof (draining_insert _ o Draining Drained Hs) as Hd.
  change (b2n Draining) with 1%nat in Hd. change (b2n Drained) with 0%nat in Hd.
  assert (count w - 1 = Z.of_nat (draining (<[o := Drained]> (drainStates w)))) as Hc1 by lia.
  assert (mstate w = Draining) as Hm.
  { destruct (mstate w); [|done|]; specialize (Hst o _ Hs); done. }
  unfold signal_manager. cbn [count with_count with_state].
  rewrite wrap_small by (unfold in_width; lia).
  assert (∀ n f, n = Z.of_nat (draining (<[o := Drained]> (drainStates w))) →
    drain_inv (mkWorld n Draining (allDrainable w) (<[o := Drained]> (drainStates w)) f)) as Hinv.
  { intros n f ->. constructor; cbn; [|done|done|].
    - rewrite <- Hdom. apply dom_insert_lookup_L. by eexists.
    - rewrite Hm in Hst. intros o' s'. destruct (decide (o = o')) as [<-|].
      + rewrite lookup_insert_eq. by intros [= <-].
      + rewrite lookup_insert_ne by done. apply Hst. }
  destruct (Z.eqb_spec (count w - 1) 0) as [H0|H0].
  - eexists. split; [done|]. cbn. rewrite Hm. split_and!; try done; [by apply Hinv|].
    rewrite decide_True; [done|]. split; [done|lia].
  - eexists. split; [done|]. unfold with_count, with_state. cbn. rewrite Hm.
    split_and!; try done; [by apply Hinv|]. rewrite decide_False; [done|]. intros [_ ?]. lia.
Qed.

Lemma resume_all_spec l w :
  NoDup l → (∀ o, o ∈ l → drainStates w !! o = Some Drained) →
  ∃ w', resume_all l w = Ok w' ∧ count w' = count w ∧ mstate w' = mstate w ∧
    allDrainable w' = allDrainable w ∧ finished w' = finished w ∧
    ∀ o, drainStates w' !! o = if decide (o ∈ l) then Some Running else drainStates w !! o.
Proof.
  revert w. induction l as [|x l IH]; intros w Hnd Hin.
  { exists w. split_and!; try done. }
  apply NoDup_cons in Hnd as [Hx Hnd]. cbn [resume_all]. unfold dmDrainResume.
  rewrite (Hin x) by (by left). cbn [deref mbind res_bind]. rewrite decide_False by naive_solver.
  cbn [mbind res_bind]. destruct (IH (with_state x Running w)) as (w' & -> & Hc & Hm & Ha & Hf & Hst).
  { done. }
  { intros o Ho. cbn. rewrite lookup_insert_ne by (by intros ->). apply Hin. by right. }
  exists w'. split_and!; try done. intros o. rewrite Hst. cbn. destruct (decide (o = x)) as [->|Hne].
  - rewrite (decide_True (P := x ∈ x :: l)) by (by left).
    destruct (decide (x ∈ l)); [done|]. by rewrite lookup_insert_eq.
  - rewrite lookup_insert_ne by done. destruct (decide (o ∈ l)).
    + by rewrite decide_True by (by right).
    + rewrite decide_False; [done|]. by apply not_elem_of_cons.
Qed.

Lemma resume_spec w :
  drain_inv w → mstate w ≠ Running → count w = 0 →
  ∃ w', resume w = Ok w' ∧ drain_inv w' ∧ mstate w' = Running ∧ allDrainable w' = allDrainable w ∧
    finished w' = finished w.
Proof.
  intros Hi Hm Hc. pose proof Hi as [Hdom Hcnt Hsz Hst]. unfold resume.
  rewrite decide_False by done. rewrite Hc. cbn [negb Z.eqb].
  assert (draining (drainStates w) = 0%nat) as Hd0 by lia. rewrite draining_0 in Hd0.
  assert (∀ o s, drainStates w !! o = Some s → s = Drained) as Hdr.
  { intros o s Hs. pose proof (Hd0 o s Hs). destruct (mstate w); [done| |]; pose proof (Hst o s Hs); by destruct s. }
  destruct (resume_all_spec (elements (allDrainable w)) (with_mstate Running w))
    as (w' & -> & Hc' & Hm' & Ha' & Hf' & Hst').
  { apply NoDup_elements. }
  { intros o Ho. rewrite elem_of_elements, <- Hdom, elem_of_dom in Ho. destruct Ho as [s Hs].
    cbn. rewrite Hs. by rewrite (Hdr o s Hs). }
  exists w'. cbn in *.
  assert (∀ o s, drainStates w' !! o = Some s → s = Running) as Hrun.
  { intros o s. rewrite Hst'. destruct (decide (o ∈ _)) as [|Ho]; [by intros [= <-]|].
    intros Hs. exfalso. apply Ho. rewrite elem_of_elements, <- Hdom. by eapply elem_of_dom_2. }
  split_and!; try done. constructor.
  - rewrite Ha', <- Hdom. apply set_eq. intros o. rewrite !elem_of_dom, Hst'.
    destruct (decide (o ∈ _)) as [Ho|]; [|done]. rewrite elem_of_elements, <- Hdom, elem_of_dom in Ho.
    split; [done|]. by eexists.
  - rewrite Hc', Hc. assert (draining (drainStates w') = 0%nat) as ->; [|done].
    apply draining_0. intros o s Hs. by rewrite (Hrun o s Hs).
  - by rewrite Ha'.
  - by rewrite Hm'.
Qed.

(** ** The protocol *)

(** What the simulator does with the manager and the objects.  Objects come and go only
    while the system is not draining. *)
Inductive drain_step : World → World → Prop :=
| step_create o w : drainStates w !! o = None → mstate w ≠ Draining →
    drainableCount w + 1 < 2 ^ 32 → drain_step w (newDrainable o w)
| step_delete o w : is_Some (drainStates w !! o) → mstate w ≠ Draining →
    drain_step w (deleteDrainable o w)
| step_try drain w w' b : (∀ o, o ∈ allDrainable w → drain o ≠ Running) →
    tryDrain drain w = Ok (w', b) → drain_step w w'
| step_signal o w w' : signalDrainDone o w = Ok w' → drain_step w w'
| step_resume w w' : resume w = Ok w' → drain_step w w'
| step_restore w w' : preCheckpointRestore w = Ok w' → drain_step w w'.

Lemma restore_states (l : list positive) (m : gmap positive DrainState) o :
  foldr (λ o m, <[o := Drained]> m) m l !! o = if decide (o ∈ l) then Some Drained else m !! o.
Proof.
  induction l as [|x l IH]; [done|]. cbn [foldr]. destruct (decide (o = x)) as [->|Hne].
  - rewrite lookup_insert_eq. by rewrite decide_True by (by left).
  - rewrite lookup_insert_ne by done. rewrite IH. destruct (decide (o ∈ l)).
    + by rewrite decide_True by (by right).
    + rewrite decide_False; [done|]. by apply not_elem_of_cons.
Qed.

Lemma step_inv w w' : drain_step w w' → drain_inv w → drain_inv w'.
Proof.
  intros Hs Hi. pose proof Hi as [Hdom Hcnt Hsz Hst].
  destruct Hs as [o w Ho Hm Hn|o w Ho Hm|drain w w' b Hdr Htry|o w w' Hsig|w w' Hres|w w' Hpre].
  - assert (state w ≠ Draining) as Hns by done. constructor; cbn.
    + by rewrite dom_insert_L, Hdom.
    + rewrite draining_fresh by done. unfold b2n. rewrite decide_False by done. done.
    + rewrite size_union_alt. rewrite size_singleton. unfold drainableCount in Hn.
      pose proof (subseteq_size (allDrainable w ∖ {[o]}) (allDrainable w) ltac:(set_solver)). lia.
    + unfold state. destruct (mstate w) eqn:Hms; [|done|]; intros o' s';
        (destruct (decide (o = o')) as [<-|]; [rewrite lookup_insert_eq; by intros [= <-]|]);
        rewrite lookup_insert_ne by done; apply Hst.
  - destruct Ho as [s Ho]. assert (s ≠ Draining) as Hns.
    { intros ->. destruct (mstate w); [|done|]; by specialize (Hst o _ Ho). }
    constructor; cbn.
    + by rewrite dom_delete_L, Hdom.
    + rewrite Hcnt. rewrite <- (insert_delete_id (drainStates w) o s Ho) at 1.
      rewrite draining_fresh by apply lookup_delete_eq. unfold b2n. by rewrite decide_False.
    + pose proof (subseteq_size (allDrainable w ∖ {[o]}) (allDrainable w) ltac:(set_solver)). lia.
    + destruct (mstate w); [|done|]; intros o' s' [_ Hs']%lookup_delete_Some; by eapply Hst.
  - destruct (decide (mstate w = Drained)) as [Hd|Hd].
    { unfold tryDrain in Htry. by rewrite decide_True in Htry. }
    destruct (Z.eqb_spec (count w) 0) as [Hc|Hc].
    + destruct (tryDrain_spec drain w Hi Hd Hc Hdr) as (w1 & b1 & Ht & Hinv & _). congruence.
    + unfold tryDrain in Htry. rewrite decide_False in Htry by done.
      apply Z.eqb_neq in Hc. by rewrite Hc in Htry.
  - destruct (drainStates w !! o) as [s|] eqn:Ho.
    + destruct (signal_spec o w Hi) as (w1 & Hs1 & Hinv & _); [by eexists|]. congruence.
    + unfold signalDrainDone in Hsig. by rewrite Ho in Hsig.
  - destruct (decide (mstate w = Running)) as [Hd|Hd].
    { unfold resume in Hres. by rewrite decide_True in Hres. }
    destruct (Z.eqb_spec (count w) 0) as [Hc|Hc].
    + destruct (resume_spec w Hi Hd Hc) as (w1 & Hs1 & Hinv & _). congruence.
    + unfold resume in Hres. rewrite decide_False in Hres by done.
      apply Z.eqb_neq in Hc. by rewrite Hc in Hres.
  - unfold preCheckpointRestore in Hpre. destruct (decide (mstate w ≠ Running)) as [|Hr]; [done|].
    injection Hpre as <-.
    assert (∀ o s, foldr (λ o m, <[o := Drained]> m) (drainStates w) (elements (allDrainable w)) !! o = Some s → s = Drained) as Hd.
    { intros o s. rewrite restore_states. destruct (decide (o ∈ _)) as [|Ho]; [by intros [= <-]|].
      intros Hs. exfalso. apply Ho. rewrite elem_of_elements, <- Hdom. by eapply elem_of_dom_2. }
    assert (mstate w = Running) as Hrun by (destruct (mstate w); naive_solver).
    constructor; cbn; try done.
    + rewrite <- Hdom. apply set_eq. intros o. rewrite !elem_of_dom, restore_states.
      destruct (decide (o ∈ _)) as [Ho|]; [|done]. rewrite elem_of_elements, elem_of_dom in Ho.
      split; [done|]. by eexists.
    + rewrite Hcnt. rewrite Hrun in Hst.
      assert (draining (drainStates w) = 0%nat) as ->.
      { apply draining_0. intros o s Hs. by rewrite (Hst o s Hs). }
      apply f_equal. symmetry. apply draining_0. intros o s Hs. by rewrite (Hd o s Hs).
Qed.

(** Signalling a list of objects, one after the other. *)
Fixpoint signal_all (l : list positive) (w : World) : res World :=
  match l with
  | [] => Ok w
  | o :: l => w ← signalDrainDone o w; signal_all l w
  end.

(** Once every draining object has signalled, in any order and any number of times, none is
    draining, and the loop was told so once. *)
Lemma signal_all_spec l w :
  drain_inv w → (∀ o, o ∈ l → o ∈ allDrainable w) → (∀ o, drainStates w !! o = Some Draining → o ∈ l) →
  ∃ w', signal_all l w = Ok w' ∧ drain_inv w' ∧ draining (drainStates w') = 0%nat ∧ mstate w' = mstate w ∧
    allDrainable w' = allDrainable w ∧
    finished w' = (if decide (draining (drainStates w) = 0%nat) then finished w else S (finished w)).
Proof.
  revert w. induction l as [|x l IH]; intros w Hi Hreg Hcov.
  { assert (draining (drainStates w) = 0%nat) as H0 by (apply draining_0; intros o s Hs ->; by apply Hcov, elem_of_nil in Hs).
    exists w. by rewrite decide_True. }
  assert (is_Some (drainStates w !! x)) as Hx by (apply elem_of_dom; rewrite (di_dom w Hi); apply Hreg; by left).
  cbn [signal_all]. destruct (signal_spec x w Hi Hx) as (w1 & -> & Hi1 & Hm1 & Ha1 & Hs1 & Hf1). cbn [mbind res_bind].
  destruct (IH w1 Hi1) as (w' & -> & Hi' & H0 & Hm' & Ha' & Hf').
  { intros o Ho. rewrite Ha1. apply Hreg. by right. }
  { intros o. rewrite Hs1. destruct (decide (drainStates w !! x = Some Draining)) as [Hd|Hd].
    2: { intros Ho. by apply Hcov in Ho as Hin; apply elem_of_cons in Hin as [->|]. }
    destruct (decide (o = x)) as [->|Hne]; [by rewrite lookup_insert_eq|]. rewrite lookup_insert_ne by done.
    intros Ho%Hcov. by apply elem_of_cons in Ho as [|]. }
  exists w'. split_and!; try done; [congruence..|]. rewrite Hf', Hf1, Hs1. destruct (decide (drainStates w !! x = Some Draining)) as [Hd|Hd].
  - pose proof (draining_insert _ x Draining Drained Hd) as Hn. change (b2n Draining) with 1%nat in Hn. change (b2n Drained) with 0%nat in Hn.
    repeat case_decide; try lia; naive_solver lia.
  - rewrite (decide_False (P := drainStates w !! x = Some Draining ∧ _)) by naive_solver. done.
Qed.

(** A round of [drain()] of [python/m5/simulate.py]: what the objects answer to [tryDrain], and
    the signals they send while the simulation goes on. *)
Record Round := mkRound { answer : positive → DrainState; signals : list positive }.

(** [drain()]: rounds until [tryDrain] says that the system is drained. *)
Fixpoint drain_loop (rounds : list Round) (w : World) : res (World * bool) :=
  match rounds with
  | [] => Ok (w, false)
  | r :: rounds =>
      '(w, done) ← tryDrain (answer r) w;
      if done : bool then Ok (w, true) else w ← signal_all (signals r) w; drain_loop rounds w
  end.

(** An unfinished round: some object needs more time, and in the end all that do have signalled.
    Drained objects may signal too, and objects may signal again. *)
Record unfinished (all : gset positive) (r : Round) : Prop := {
  un_answer o : o ∈ all → answer r o ≠ Running;
  un_busy : ∃ o, o ∈ all ∧ answer r o = Draining;
  un_signals o : o ∈ signals r → o ∈ all;
  un_all o : o ∈ all → answer r o = Draining → o ∈ signals r
}.

Lemma round_spec r w :
  drain_inv w → mstate w ≠ Drained → count w = 0 → unfinished (allDrainable w) r →
  ∃ w1 w2, tryDrain (answer r) w = Ok (w1, false) ∧ signal_all (signals r) w1 = Ok w2 ∧ drain_inv w2 ∧ mstate w2 = Draining ∧
    count w2 = 0 ∧ allDrainable w2 = allDrainable w ∧ finished w2 = S (finished w).
Proof.
  intros Hi Hm Hc [Hans (x & Hx & Hbusy) Hreg Hcov].
  destruct (tryDrain_spec (answer r) w Hi Hm Hc Hans) as (w1 & b & Ht & Hi1 & Ha1 & Hf1 & Hs1 & Hm1 & Hb).
  destruct b; [by rewrite (proj1 Hb eq_refl x Hx) in Hbusy|]. cbn in Hm1.
  destruct (signal_all_spec (signals r) w1 Hi1) as (w2 & Hsig & Hi2 & H0 & Hm2 & Ha2 & Hf2); [by rewrite Ha1| |].
  { intros o Ho. assert (o ∈ allDrainable w) as Hin by (rewrite <- Ha1, <- (di_dom w1 Hi1); by eapply elem_of_dom_2).
    apply Hcov; [done|]. rewrite (Hs1 o Hin) in Ho. congruence. }
  exists w1, w2. split_and!; try done; [congruence|rewrite (di_count w2 Hi2), H0; done|congruence|].
  rewrite Hf2, decide_False; [by rewrite Hf1|]. intros Hz. rewrite draining_0 in Hz. by apply (Hz x Draining); [rewrite (Hs1 x Hx), Hbusy|].
Qed.

Lemma drain_loop_spec rounds w :
  drain_inv w → mstate w ≠ Drained → count w = 0 → Forall (unfinished (allDrainable w)) rounds →
  ∃ w', (∀ later, drain_loop (rounds ++ later) w = drain_loop later w') ∧ drain_inv w' ∧ mstate w' ≠ Drained ∧ count w' = 0 ∧
    allDrainable w' = allDrainable w ∧ finished w' = (length rounds + finished w)%nat.
Proof.
  revert w. induction rounds as [|r rounds IH]; intros w Hi Hm Hc Hrs; [by exists w|]. apply Forall_cons in Hrs as [Hr Hrs].
  destruct (round_spec r w Hi Hm Hc Hr) as (w1 & w2 & Ht & Hsig & Hi2 & Hm2 & Hc2 & Ha2 & Hf2).
  destruct (IH w2) as (w' & Hrun & ? & ? & ? & Ha' & Hf'); [done|by rewrite Hm2|done|by rewrite Ha2|].
  exists w'. split_and!; try done; [|congruence|rewrite Hf', Hf2; cbn; lia].
  intros later. cbn [drain_loop app]. rewrite Ht. cbn [mbind res_bind]. rewrite Hsig. cbn [mbind res_bind]. apply Hrun.
Qed.

(** The drain protocol, in every reachable state: the manager's counter is the number of
    registered objects that are still draining, and a system that is drained (running) has
    only drained (running) objects.  A signal of an object that is not draining changes
    nothing, and a signal ends the drain exactly when its object was the last one. *)
Theorem drain_protocol (w : World) (o : positive) :
  rtc drain_step newManager w → is_Some (drainStates w !! o) →
  count w = Z.of_nat (draining (drainStates w)) ∧
  (∀ x, x ∈ allDrainable w ↔ is_Some (drainStates w !! x)) ∧
  (mstate w = Drained → ∀ x s, drainStates w !! x = Some s → s = Drained) ∧
  (mstate w = Running → ∀ x s, drainStates w !! x = Some s → s = Running) ∧
  ∃ w', signalDrainDone o w = Ok w' ∧
    (drainStates w !! o ≠ Some Draining → w' = w) ∧
    (finished w' = S (finished w) ↔
       drainStates w !! o = Some Draining ∧ ∀ x, x ≠ o → drainStates w !! x ≠ Some Draining) ∧
    (finished w' = S (finished w) ∨ finished w' = finished w).
Proof.
  intros Hr Ho. assert (drain_inv w) as Hi.
  { remember newManager as w0 eqn:E. assert (drain_inv w0) as H0.
    { subst. constructor; cbn; try done. }
    clear E. induction Hr; [done|]. apply IHHr; [done|]. by eapply step_inv. }
  pose proof Hi as [Hdom Hcnt Hsz Hst]. split; [done|]. split.
  { intros x. by rewrite <- Hdom, elem_of_dom. }
  split; [intros Hm; by rewrite Hm in Hst|]. split; [intros Hm; by rewrite Hm in Hst|].
  destruct (signal_spec o w Hi Ho) as (w' & Hs & Hi' & _ & _ & _ & Hf). exists w'.
  split; [done|]. split_and!.
  - intros Hd. destruct Ho as [s Ho]. unfold signalDrainDone in Hs. rewrite Ho in Hs.
    cbn in Hs. destruct s; naive_solver.
  - assert (drainStates w !! o = Some Draining → (draining (drainStates w) = 1%nat ↔
      ∀ x, x ≠ o → drainStates w !! x ≠ Some Draining)) as Hone.
    { intros Hd. rewrite <- (insert_delete_id _ o _ Hd) at 1.
      rewrite draining_fresh by apply lookup_delete_eq. change (b2n Draining) with 1%nat.
      transitivity (draining (delete o (drainStates w)) = 0%nat); [lia|]. rewrite draining_0. split.
      - intros Hall x Hx Hxd. by apply (Hall x Draining); [rewrite lookup_delete_ne|].
      - intros Hall x s [Hx Hs']%lookup_delete_Some ->. by apply (Hall x). }
    rewrite Hf. destruct (decide (_ ∧ _)) as [[Hd H1]|Hn].
    + split; [|done]. intros _. split; [done|]. by apply Hone.
    + split; [lia|]. intros [Hd Hall]. exfalso. apply Hn. split; [done|]. by apply Hone.
  - rewrite Hf. destruct (decide _); [by left|by right].
Qed.

(** C35: a drain completes, however often it has to be repeated.  While objects answer that they
    need more time - the same or others in every round, as drained objects can be disturbed - each
    round ends with one "Finished drain" once those that asked for time have signalled, in any
    order and any number of times, and another round can follow; nothing fails.  The first round in
    which every object answers that it is drained ends the loop, with the whole system drained,
    and [resume] brings it back to running. *)
Theorem drain_completes (rounds later : list Round) (r : Round) (w : World) :
  drain_inv w → mstate w ≠ Drained → count w = 0 →
  Forall (unfinished (allDrainable w)) rounds → (∀ o, o ∈ allDrainable w → answer r o = Drained) →
  (∃ w0, drain_loop rounds w = Ok (w0, false)) ∧
  ∃ w1 w2, drain_loop (rounds ++ r :: later) w = Ok (w1, true) ∧ finished w1 = (length rounds + finished w)%nat ∧
    mstate w1 = Drained ∧ (∀ o, o ∈ allDrainable w ↔ drainStates w1 !! o = Some Drained) ∧
    resume w1 = Ok w2 ∧ mstate w2 = Running ∧ (∀ o, o ∈ allDrainable w ↔ drainStates w2 !! o = Some Running).
Proof.
  intros Hi Hm Hc Hrs Hr. destruct (drain_loop_spec rounds w Hi Hm Hc Hrs) as (w0 & Hrun & Hi0 & Hm0 & Hc0 & Ha0 & Hf0).
  split; [exists w0; by rewrite <- (app_nil_r rounds), Hrun|].
  destruct (tryDrain_spec (answer r) w0 Hi0 Hm0 Hc0) as (w1 & b & Ht & Hi1 & Ha1 & Hf1 & Hs1 & Hm1 & Hb); [rewrite Ha0; intros o Ho; by rewrite Hr|].
  assert (b = true) as -> by (apply Hb; by rewrite Ha0).
  assert (∀ v s, drain_inv v → allDrainable v = allDrainable w → (∀ o s', drainStates v !! o = Some s' → s' = s) →
    ∀ o, o ∈ allDrainable w ↔ drainStates v !! o = Some s) as Hall.
  { intros v s Hv Ha Hs o. rewrite <- Ha, <- (di_dom v Hv), elem_of_dom. split; [|by eexists]. intros [s' Hs']. by rewrite Hs', (Hs o s' Hs'). }
  pose proof (di_state w1 Hi1) as Hst. rewrite Hm1 in Hst.
  destruct (resume_spec w1 Hi1) as (w2 & Hres & Hi2 & Hm2 & Ha2 & _); [by rewrite Hm1| |].
  { rewrite (di_count w1 Hi1). assert (draining (drainStates w1) = 0%nat) as ->; [|done]. apply draining_0. intros o s Hs. by rewrite (Hst o s Hs). }
  pose proof (di_state w2 Hi2) as Hst2. rewrite Hm2 in Hst2.
  exists w1, w2. rewrite Hrun. cbn [drain_loop]. rewrite Ht. split_and!; try done; [congruence|apply Hall; [done|congruence|done]..].
Qed.

(** An object created while the system is draining starts out in state [Draining] but
    is not counted.  When it signals, it ends the drain for the one object that is still
    draining: the loop is told "Finished drain" although that object has not drained. *)
Theorem late_object_breaks_drain (w : World) (o x : positive) :
  drain_inv w → mstate w = Draining → drainStates w !! o = None →
  drainStates w !! x = Some Draining → (∀ y, drainStates w !! y = Some Draining → y = x) →
  ∃ w', signalDrainDone o (newDrainable o w) = Ok w' ∧ finished w' = S (finished w) ∧
    drainStates w' !! x = Some Draining.
Proof.
  intros Hi Hm Ho Hx Hall. pose proof Hi as [Hdom Hcnt Hsz Hst].
  assert (count w = 1) as Hc.
  { rewrite Hcnt. rewrite <- (insert_delete_id _ x _ Hx), draining_fresh by apply lookup_delete_eq.
    change (b2n Draining) with 1%nat.
    assert (draining (delete x (drainStates w)) = 0%nat) as ->; [|done]. apply draining_0.
    intros y s [Hy Hs]%lookup_delete_Some ->. by apply Hy; rewrite (Hall y Hs). }
  unfold signalDrainDone, newDrainable, state. cbn. rewrite lookup_insert_eq, Hm.
  cbn [deref mbind res_bind]. unfold signal_manager.
  cbn [count with_count with_state registerDrainable]. rewrite Hc.
  replace (u32 (1 - 1) =? 0) with true by done. eexists. split; [done|]. split; [done|].
  cbn [drainStates with_count with_state registerDrainable mstate].
  rewrite !lookup_insert_ne by naive_solver. done.
Qed.

(** Two objects, of which the second needs time to drain. *)
Definition ex_drain (o : positive) : DrainState := if decide (o = 2%positive) then Draining else Drained.
Definition ex_world : World := newDrainable 2 (newDrainable 1 newManager).
Definition ex_draining : World :=
  match tryDrain ex_drain ex_world with Ok (w, _) => w | Fail _ => newManager end.

Lemma ex_drain_reachable : rtc drain_step newManager ex_draining.
Proof.
  eapply rtc_l; [apply (step_create 1); done|]. eapply rtc_l; [apply (step_create 2); done|].
  eapply rtc_l; [|apply rtc_refl]. eapply (step_try ex_drain _ _ false); [|reflexivity].
  intros o _. unfold ex_drain. by case_decide.
Qed.

Lemma ex_world_inv : drain_inv ex_world.
Proof.
  assert (drain_inv newManager) by (by constructor).
  by do 2 (eapply step_inv; [eapply step_create; done|]).
Qed.

Lemma ex_draining_inv : drain_inv ex_draining.
Proof.
  eapply step_inv; [|apply ex_world_inv]. eapply (step_try ex_drain _ _ false); [|reflexivity].
  intros o _. unfold ex_drain. by case_decide.
Qed.

Lemma drain_protocol_witness :
  count ex_draining = 1 ∧ ∃ w', signalDrainDone 2 ex_draining = Ok w' ∧ finished w' = 1%nat.
Proof.
  destruct (drain_protocol ex_draining 2 ex_drain_reachable ltac:(by eexists)) as (_ & _ & _ & _ & w' & Hs & _ & Hf & _).
  split; [reflexivity|]. exists w'. split; [exact Hs|]. apply Hf. split; [reflexivity|].
  intros x Hx Hd. destruct (decide (x = 1%positive)) as [->|]; [discriminate Hd|].
  assert (x ∈ dom (drainStates ex_draining)) as Hin by (by eapply elem_of_dom_2).
  rewrite (di_dom _ ex_draining_inv) in Hin. cbn in Hin. set_solver.
Defined.

(** The second object needs time, then the first, then none. *)
Definition ex_rounds : list Round :=
  [mkRound ex_drain [1%positive; 2%positive];
   mkRound (λ o, if decide (o = 1%positive) then Draining else Drained) [1%positive; 1%positive]].

Lemma drain_completes_witness :
  ∃ w1 w2, drain_loop (ex_rounds ++ [mkRound (λ _, Drained) []]) ex_world = Ok (w1, true) ∧ finished w1 = 2%nat ∧
    resume w1 = Ok w2 ∧ mstate w2 = Running.
Proof.
  destruct (drain_completes ex_rounds [] (mkRound (λ _, Drained) []) ex_world)
    as (_ & w1 & w2 & H1 & Hf & _ & _ & H2 & Hm & _).
  - apply ex_world_inv.
  - done.
  - done.
  - constructor; [|constructor; [|constructor]]; split; cbn.
    + intros o _. unfold ex_drain. by case_decide.
    + exists 2%positive. split; [set_solver|done].
    + intros o Ho. set_solver.
    + intros o _. unfold ex_drain. case_decide as Ho; [|done]. subst. set_solver.
    + intros o _. by case_decide.
    + exists 1%positive. split; [set_solver|done].
    + intros o Ho. set_solver.
    + intros o _. case_decide as Ho; [|done]. subst. set_solver.
  - done.
  - exists w1, w2. split_and!; done.
Defined.

Lemma late_object_breaks_drain_witness :
  ∃ w', signalDrainDone 3 (newDrainable 3 ex_draining) = Ok w' ∧ finished w' = 1%nat ∧
    drainStates w' !! 2%positive = Some Draining.
Proof.
  apply (late_object_breaks_drain ex_draining 3 2 ex_draining_inv); [reflexivity..|].
  intros y Hy. destruct (decide (y = 1%positive)) as [->|]; [discriminate Hy|].
  assert (y ∈ dom (drainStates ex_draining)) as Hin by (by eapply elem_of_dom_2).
  rewrite (di_dom _ ex_draining_inv) in Hin. cbn in Hin. set_solver.
Defined.

End Drain.
