(* ===== verification/CacheQueue.v ===== *)
(** * Queues of the cache

    [mem/cache/queue.hh]: the template both the MSHR queue and the write queue are instances
    of.  An entry is named by its address in the array [entries]; what the queue needs of an
    entry is the interface [QueueEntry] (the base class of [mem/cache/queue_entry.hh] and the
    entry's own [deallocate]).  A list iterator of an entry ([allocIter], [readyIter]) denotes
    the entry's node, so erasing through it removes the entry from the list; erasing an
    entry that is not on the list is undefined.

    [queue_ok] is the invariant: the free and the allocated entries partition the array, and
    the entries to be sent are exactly the allocated ones that are not in service. *)

From stdpp Require Import strings sorting.
From S2P Require Import Prelude MemCmd Packet Drain.

Open Scope Z_scope.

Class QueueEntry (E : Type) := {
  readyTime : E → Z;
  isUncacheable : E → bool;
  inService : E → bool;
  blkAddr : E → Z;
  isSecure : E → bool;
  entry_deallocate : E → res E
}.

(** What an entry's [deallocate] promises to the queue: the entry is out of service. *)
Class QueueEntryLaws (E : Type) `{QueueEntry E} := {
  deallocate_idle : ∀ x y : E, entry_deallocate x = Ok y → inService y = false
}.

Module Queue.
Import Drain.

Definition MaxTick : Z := 2 ^ 64 - 1.

Record Queue := mkQueue {
  label : string;
  numEntries : Z;
  numReserve : Z;
  entries : list positive;
  allocatedList : list positive;
  readyList : list positive;
  freeList : list positive;
  _numInService : Z;
  allocated : Z;
  drain_state : DrainState
}.

Definition with_allocated (a f : list positive) (n : Z) (q : Queue) : Queue :=
  mkQueue (label q) (numEntries q) (numReserve q) (entries q) a (readyList q) f
    (_numInService q) n (drain_state q).
Definition with_ready (r : list positive) (q : Queue) : Queue :=
  mkQueue (label q) (numEntries q) (numReserve q) (entries q) (allocatedList q) r (freeList q)
    (_numInService q) (allocated q) (drain_state q).
Definition with_numInService (n : Z) (q : Queue) : Queue :=
  mkQueue (label q) (numEntries q) (numReserve q) (entries q) (allocatedList q) (readyList q)
    (freeList q) n (allocated q) (drain_state q).
Definition with_drain (d : DrainState) (q : Queue) : Queue :=
  mkQueue (label q) (numEntries q) (numReserve q) (entries q) (allocatedList q) (readyList q)
    (freeList q) (_numInService q) (allocated q) d.

(** [Queue(label, num_entries, reserve)]; [addrs] are the addresses of the entries. *)
Definition newQueue (lbl : string) (num_entries reserve : Z) (addrs : list positive) : Queue :=
  mkQueue lbl (num_entries + reserve) reserve addrs [] [] addrs 0 0 Running.

Definition isEmpty (q : Queue) : bool := allocated q =? 0.
Definition isFull (q : Queue) : bool := numEntries q - numReserve q <=? allocated q.
Definition numInService (q : Queue) : Z := _numInService q.

(** [list.erase(iter)] *)
Definition erase (e : positive) (l : list positive) : res (list positive) :=
  if decide (e ∈ l) then Ok (filter (λ x, x ≠ e) l) else Fail BadPointer.

Section queue.
Context {E : Type} `{QueueEntry E}.
Implicit Types st : gmap positive E.

(** The search loop of [addToReadyList]. *)
Fixpoint insert_before_later st (t : Z) (e : positive) (l : list positive) : res (list positive) :=
  match l with
  | [] => Fail AssertFailed
  | i :: l =>
      x ← deref (st !! i);
      if t <? readyTime x then Ok (e :: i :: l)
      else rest ← insert_before_later st t e l; Ok (i :: rest)
  end.

Definition addToReadyList st (e : positive) (q : Queue) : res Queue :=
  x ← deref (st !! e);
  match last (readyList q) with
  | None => Ok (with_ready [e] q)
  | Some b =>
      y ← deref (st !! b);
      if readyTime y <=? readyTime x then Ok (with_ready (readyList q ++ [e]) q)
      else l ← insert_before_later st (readyTime x) e (readyList q); Ok (with_ready l q)
  end.

(** The first entry of [l] that [test] accepts. *)
Fixpoint find_entry (test : E → bool) st (l : list positive) : res (option positive) :=
  match l with
  | [] => Ok None
  | e :: l => x ← deref (st !! e); if test x then Ok (Some e) else find_entry test st l
  end.

Definition findMatch st (blk_addr : Z) (is_secure : bool) (q : Queue) : res (option positive) :=
  find_entry (λ x, negb (isUncacheable x) && (blkAddr x =? blk_addr) &&
                   Bool.eqb (isSecure x) is_secure) st (allocatedList q).

Definition findPending st (blk_addr : Z) (is_secure : bool) (q : Queue) : res (option positive) :=
  find_entry (λ x, (blkAddr x =? blk_addr) && Bool.eqb (isSecure x) is_secure) st (readyList q).

Definition getNext st (curTick : Z) (q : Queue) : res (option positive) :=
  match readyList q with
  | [] => Ok None
  | e :: _ => x ← deref (st !! e); Ok (if curTick <? readyTime x then None else Some e)
  end.

Definition nextReadyTime st (q : Queue) : res Z :=
  match readyList q with
  | [] => Ok MaxTick
  | e :: _ => x ← deref (st !! e); Ok (readyTime x)
  end.

(** Returns the entries, the queue and whether [signalDrainDone] was called. *)
Definition deallocate (e : positive) st (q : Queue) : res (gmap positive E * Queue * bool) :=
  x ← deref (st !! e);
  al ← erase e (allocatedList q);
  let q := with_allocated al (e :: freeList q) (allocated q - 1) q in
  q ← (if inService x then Ok (with_numInService (_numInService q - 1) q)
       else r ← erase e (readyList q); Ok (with_ready r q));
  x ← entry_deallocate x;
  let st := <[e := x]> st in
  if bool_decide (drain_state q = Draining) && (allocated q =? 0)
  then Ok (st, with_drain Drained q, true)
  else Ok (st, q, false).

(** [drain()] *)
Definition drain (q : Queue) : DrainState := if allocated q =? 0 then Drained else Draining.

(** The loop of [checkFunctional]: [chk e s] is [entry->checkFunctional(pkt)], [s] being the
    memory, the sender states and the packet. *)
Fixpoint check_entries {S : Type} (chk : positive → S → res (bool * S)) st (blk_addr : Z)
    (l : list positive) (s : S) : res (bool * S) :=
  match l with
  | [] => Ok (false, s)
  | e :: l =>
      x ← deref (st !! e);
      if blkAddr x =? blk_addr then
        '(r, s) ← chk e s;
        if r : bool then Ok (true, s) else check_entries chk st blk_addr l s
      else check_entries chk st blk_addr l s
  end.

Definition fstate : Type := Host.mem * SenderStates.heap * Packet.Packet.

Definition checkFunctional (chk : positive → fstate → res (bool * fstate)) st (blk_addr : Z)
    (q : Queue) (s : fstate) : res (bool * fstate) :=
  let '(h, ss, p) := s in
  ss ← Packet.pushLabel (label q) ss p;
  '(r, (h, ss, p)) ← check_entries chk st blk_addr (allocatedList q) (h, ss, p);
  ss ← Packet.popLabel ss p;
  Ok (r, (h, ss, p)).

End queue.
End Queue.

(** ** The invariant of a queue *)

Module QueueProofs.
Import Drain Queue.

Lemma filter_ext_in {A} (P Q : A → Prop) `{!∀ x, Decision (P x), !∀ x, Decision (Q x)} (l : list A) :
  (∀ x, x ∈ l → P x ↔ Q x) → filter P l = filter Q l.
Proof.
  induction l as [|x l IH]; intros Hl; [done|]. rewrite !filter_cons.
  rewrite IH by (intros; apply Hl; by right).
  destruct (decide (P x)) as [Hp|Hp], (decide (Q x)) as [Hq|Hq]; try done;
    exfalso; [apply Hq|apply Hp]; apply (Hl x); done || by left.
Qed.

Lemma filter_ne_perm (e : positive) l :
  NoDup l → e ∈ l → e :: filter (λ x, x ≠ e) l ≡ₚ l.
Proof.
  induction l as [|x l IH]; intros Hnd Hin; [by apply elem_of_nil in Hin|].
  apply NoDup_cons in Hnd as [Hx Hnd]. destruct (decide (x = e)) as [->|Hne].
  - rewrite filter_cons_False by naive_solver. f_equiv. rewrite filter_all; [done|].
    intros y Hy ->. done.
  - apply elem_of_cons in Hin as [->|Hin]; [done|]. rewrite filter_cons_True by done.
    rewrite Permutation_swap. by rewrite IH.
Qed.

Section proofs.
Context {E : Type} `{QueueEntryLaws E}.
Implicit Types st : gmap positive E.

(** Whether the entry at [e] is in service. *)
Definition svc st (e : positive) : option bool := inService <$> st !! e.

Record queue_ok st (q : Queue) : Prop := {
  qo_len : numEntries q = Z.of_nat (length (entries q));
  qo_nodup : NoDup (entries q);
  qo_part : allocatedList q ++ freeList q ≡ₚ entries q;
  qo_store : ∀ e, e ∈ entries q → is_Some (st !! e);
  qo_count : allocated q = Z.of_nat (length (allocatedList q));
  qo_ready : readyList q ≡ₚ filter (λ e, svc st e = Some false) (allocatedList q);
  qo_svc : _numInService q = Z.of_nat (length (filter (λ e, svc st e = Some true) (allocatedList q)));
  qo_free : ∀ e, e ∈ freeList q → svc st e = Some false
}.

Lemma queue_new lbl n r addrs st :
  Z.of_nat (length addrs) = n + r → NoDup addrs → (∀ e, e ∈ addrs → svc st e = Some false) →
  queue_ok st (newQueue lbl n r addrs).
Proof.
  intros Hl Hnd Hs. constructor; cbn; try done.
  intros e He. specialize (Hs e He). unfold svc in Hs. by destruct (st !! e).
Qed.

Lemma alloc_nodup st q : queue_ok st q → NoDup (allocatedList q) ∧ NoDup (freeList q) ∧
  ∀ e, e ∈ allocatedList q → e ∉ freeList q.
Proof.
  intros Hq. pose proof (qo_nodup _ _ Hq) as Hnd. rewrite <- (qo_part _ _ Hq) in Hnd.
  apply NoDup_app in Hnd as (? & ? & ?). done.
Qed.

Lemma alloc_entry st q e : queue_ok st q → e ∈ allocatedList q → e ∈ entries q.
Proof. intros Hq He. rewrite <- (qo_part _ _ Hq). apply elem_of_app. by left. Qed.

Lemma free_entry st q e : queue_ok st q → e ∈ freeList q → e ∈ entries q.
Proof. intros Hq He. rewrite <- (qo_part _ _ Hq). apply elem_of_app. by right. Qed.

Lemma ready_elem st q e :
  queue_ok st q → e ∈ readyList q ↔ e ∈ allocatedList q ∧ svc st e = Some false.
Proof. intros Hq. rewrite (qo_ready _ _ Hq), list_elem_of_filter. naive_solver. Qed.

Lemma ready_nodup st q : queue_ok st q → NoDup (readyList q).
Proof.
  intros Hq. rewrite (qo_ready _ _ Hq). apply NoDup_filter. by destruct (alloc_nodup st q Hq).
Qed.

(** A free entry is left while the queue is not at its full size. *)
Lemma free_left st q : queue_ok st q → allocated q < numEntries q → freeList q ≠ [].
Proof.
  intros Hq Hlt Hf. pose proof (Permutation_length (qo_part _ _ Hq)) as Hl.
  rewrite Hf, app_nil_r in Hl. rewrite (qo_len _ _ Hq), (qo_count _ _ Hq) in Hlt. lia.
Qed.

(** *** The order of the entries to be sent *)

Definition rt st (e : positive) : Z := default 0 (readyTime <$> st !! e).

Definition by_time st (a b : positive) : Prop := rt st a ≤ rt st b.

Lemma insert_before_spec st t e l :
  (∀ i, i ∈ l → is_Some (st !! i)) → (∃ i, i ∈ l ∧ t < rt st i) →
  ∃ pre i post, l = pre ++ i :: post ∧ insert_before_later st t e l = Ok (pre ++ e :: i :: post) ∧
    (∀ x, x ∈ pre → rt st x ≤ t) ∧ t < rt st i.
Proof.
  induction l as [|j l IH]; intros Hs (i & Hi & Ht); [by apply elem_of_nil in Hi|].
  cbn [insert_before_later]. destruct (Hs j) as [x Hx]; [by left|]. rewrite Hx.
  cbn [deref mbind res_bind].
  assert (rt st j = readyTime x) as Hj by (unfold rt; by rewrite Hx).
  destruct (Z.ltb_spec t (readyTime x)) as [Hlt|Hge].
  - exists [], j, l. split_and!; try done; [|lia]. intros y Hy. by apply elem_of_nil in Hy.
  - apply elem_of_cons in Hi as [->|Hi]; [lia|].
    destruct IH as (pre & i' & post & -> & -> & Hpre & Hi'); [intros; apply Hs; by right|by exists i|].
    exists (j :: pre), i', post. split_and!; try done.
    intros y [->|Hy]%elem_of_cons; [lia|by apply Hpre].
Qed.

(** [addToReadyList] never fails; in a list ordered by time it puts the entry behind every
    entry that is ready no later, and keeps the order. *)
Lemma addToReadyList_spec st e q :
  is_Some (st !! e) → (∀ i, i ∈ readyList q → is_Some (st !! i)) →
  ∃ pre post, readyList q = pre ++ post ∧ addToReadyList st e q = Ok (with_ready (pre ++ e :: post) q) ∧
    (StronglySorted (by_time st) (readyList q) →
       (∀ x, x ∈ pre → rt st x ≤ rt st e) ∧ (∀ x, x ∈ post → rt st e < rt st x) ∧
       StronglySorted (by_time st) (pre ++ e :: post)).
Proof.
  intros [x Hx] Hr. unfold addToReadyList. rewrite Hx. cbn [deref mbind res_bind].
  assert (rt st e = readyTime x) as He by (unfold rt; by rewrite Hx).
  destruct (last (readyList q)) as [b|] eqn:Hl.
  2: { apply last_None in Hl. exists [], []. split_and!; try done. intros _.
       split_and!; [intros ? Hin; by apply elem_of_nil in Hin..|]. repeat constructor. }
  apply last_Some in Hl as [l Hl].
  destruct (Hr b) as [y Hy]; [rewrite Hl; apply elem_of_app; right; by left|].
  rewrite Hy. cbn [deref mbind res_bind].
  assert (rt st b = readyTime y) as Hb by (unfold rt; by rewrite Hy).
  destruct (Z.leb_spec (readyTime y) (readyTime x)) as [Hle|Hgt].
  - exists (readyList q), []. rewrite app_nil_r. split_and!; try done. intros Hs.
    assert (∀ z, z ∈ readyList q → rt st z ≤ rt st e) as Hall.
    { intros z Hz. rewrite Hl in Hz, Hs. apply elem_of_app in Hz as [Hz|Hz];
        [|apply list_elem_of_singleton in Hz as ->; lia].
      pose proof (StronglySorted_app_1_elem_of _ _ _ z b Hs Hz ltac:(by left)). unfold by_time in *. lia. }
    split_and!; [done|intros ? Hin; by apply elem_of_nil in Hin|].
    apply StronglySorted_app_2; [|done|repeat constructor].
    intros z1 z2 Hz Hz2. apply list_elem_of_singleton in Hz2 as ->. by apply Hall.
  - destruct (insert_before_spec st (readyTime x) e (readyList q)) as (pre & i & post & Hll & -> & Hpre & Hi).
    { done. }
    { exists b. split; [rewrite Hl; apply elem_of_app; right; by left|lia]. }
    exists pre, (i :: post). split_and!; try done. intros Hs. rewrite Hll in Hs.
    assert (∀ z, z ∈ i :: post → rt st e < rt st z) as Hpost.
    { apply StronglySorted_app_1_r in Hs. intros z [->|Hz]%elem_of_cons; [lia|].
      apply StronglySorted_inv in Hs as [_ Hs]. rewrite Forall_forall in Hs.
      pose proof (Hs z ltac:(done)). unfold by_time in *. lia. }
    split_and!; [intros; rewrite He; by apply Hpre|done|].
    pose proof (StronglySorted_app_1_r _ _ _ Hs). pose proof (StronglySorted_app_1_l _ _ _ Hs).
    apply StronglySorted_app_2; [|done|].
    + intros z1 z2 Hz1 [->|Hz2]%elem_of_cons; [unfold by_time; rewrite He; by apply Hpre|].
      unfold by_time. pose proof (Hpost z2 Hz2). pose proof (Hpre z1 Hz1). lia.
    + constructor; [done|]. apply Forall_forall. intros z Hz.
      pose proof (Hpost z Hz). unfold by_time. lia.
Qed.

Lemma sorted_ext st st' (l : list positive) :
  (∀ x, x ∈ l → rt st' x = rt st x) → StronglySorted (by_time st) l → StronglySorted (by_time st') l.
Proof.
  intros Hrt Hs. induction Hs as [|x l Hs IH Hx]; [constructor|]. constructor.
  - apply IH. intros; apply Hrt; by right.
  - rewrite Forall_forall in *. intros y Hy. unfold by_time.
    rewrite !Hrt by (by left || by right). by apply Hx.
Qed.

Lemma sorted_filter st (P : positive → Prop) `{!∀ x, Decision (P x)} (l : list positive) :
  StronglySorted (by_time st) l → StronglySorted (by_time st) (filter P l).
Proof.
  intros Hs. induction Hs as [|x l Hs IH Hx]; [constructor|]. rewrite filter_cons.
  destruct (decide (P x)); [|done]. constructor; [done|]. rewrite Forall_forall in *.
  intros y [_ Hy]%list_elem_of_filter. by apply Hx.
Qed.

(** *** Transitions *)

Lemma queue_ok_ext st st' q : (∀ e, svc st' e = svc st e) → queue_ok st q → queue_ok st' q.
Proof.
  intros Hsv [? ? ? Hst ? Hr Hn Hf]. constructor; try done.
  - intros e He. specialize (Hsv e). unfold svc in Hsv. destruct (Hst e He) as [x Hx]. rewrite Hx in Hsv.
    by destruct (st' !! e).
  - rewrite Hr. apply reflexive_eq, filter_ext_in. intros e _. by rewrite Hsv.
  - rewrite Hn. do 2 f_equal. apply filter_ext_in. intros e _. by rewrite Hsv.
  - intros e He. rewrite Hsv. by apply Hf.
Qed.

Lemma erase_ok (e : positive) l : e ∈ l → erase e l = Ok (filter (λ x, x ≠ e) l).
Proof. intros He. unfold erase. by rewrite decide_True. Qed.

(** The store [st'] differs from [st] in the service state of [e] only. *)
Definition only_at st st' (e : positive) : Prop :=
  is_Some (st' !! e) ∧ ∀ e', e' ≠ e → svc st' e' = svc st e'.

Lemma only_at_store st st' e q :
  queue_ok st q → only_at st st' e → ∀ x, x ∈ entries q → is_Some (st' !! x).
Proof.
  intros Hq [He Ho] x Hx. destruct (decide (x = e)) as [->|Hne]; [done|].
  specialize (Ho x Hne). unfold svc in Ho. destruct (qo_store _ _ Hq x Hx) as [y Hy].
  rewrite Hy in Ho. by destruct (st' !! x).
Qed.

Lemma filter_only_at (st st' : gmap positive E) e b (l : list positive) :
  only_at st st' e → e ∉ l →
  filter (λ x, svc st' x = Some b) l = filter (λ x, svc st x = Some b) l.
Proof.
  intros [_ Ho] He. apply filter_ext_in. intros x Hx. rewrite Ho; [done|]. by intros ->.
Qed.

(** Taking the first free entry for a new request. *)
Lemma queue_take st st' e f q :
  queue_ok st q → freeList q = e :: f → only_at st st' e → svc st' e = Some false →
  ∃ q', addToReadyList st' e (with_allocated (allocatedList q ++ [e]) f (allocated q) q) = Ok q' ∧
    queue_ok st' (with_allocated (allocatedList q') (freeList q') (allocated q' + 1) q') ∧
    allocatedList q' = allocatedList q ++ [e] ∧ freeList q' = f ∧ entries q' = entries q ∧
    allocated q' = allocated q ∧ drain_state q' = drain_state q ∧ label q' = label q ∧
    numEntries q' = numEntries q ∧ numReserve q' = numReserve q ∧
    ∃ pre post, readyList q = pre ++ post ∧ readyList q' = pre ++ e :: post ∧
      (StronglySorted (by_time st') (readyList q) →
         (∀ x, x ∈ pre → rt st' x ≤ rt st' e) ∧ (∀ x, x ∈ post → rt st' e < rt st' x) ∧
         StronglySorted (by_time st') (readyList q')).
Proof.
  intros Hq Hf Ho Hs. pose proof (only_at_store st st' e q Hq Ho) as Hst.
  destruct (alloc_nodup st q Hq) as (Hna & Hnf & Hdisj).
  assert (e ∉ allocatedList q) as Hea by (intros He; apply (Hdisj e He); rewrite Hf; by left).
  destruct (addToReadyList_spec st' e (with_allocated (allocatedList q ++ [e]) f (allocated q) q))
    as (pre & post & Hr & Hadd & Hsort).
  { apply Ho. }
  { intros i Hi. cbn in Hi. apply Hst. apply (ready_elem st q i Hq) in Hi as [Hi _]. by eapply alloc_entry. }
  rewrite Hadd. eexists. split; [done|]. cbn in *. split_and!; try done.
  - constructor; cbn.
    + apply (qo_len _ _ Hq).
    + apply (qo_nodup _ _ Hq).
    + rewrite <- app_assoc. cbn. rewrite <- Hf. apply (qo_part _ _ Hq).
    + apply Hst.
    + rewrite length_app, (qo_count _ _ Hq). cbn. lia.
    + rewrite <- Permutation_middle, <- Hr, filter_app, filter_cons_True, filter_nil by done.
      rewrite (qo_ready _ _ Hq), (filter_only_at st st' e) by done. apply Permutation_cons_append.
    + rewrite filter_app, filter_cons_False, filter_nil, app_nil_r by (by rewrite Hs).
      rewrite (filter_only_at st st' e) by done. apply (qo_svc _ _ Hq).
    + intros x Hx. rewrite Hf in Hnf. apply NoDup_cons in Hnf as [Hx' _].
      destruct Ho as [_ Ho]. rewrite Ho by (by intros ->). apply (qo_free _ _ Hq).
      rewrite Hf. by right.
  - by exists pre, post.
Qed.

(** An entry that was to be sent goes into service. *)
Lemma queue_serve st st' e q :
  queue_ok st q → e ∈ allocatedList q → svc st e = Some false →
  only_at st st' e → svc st' e = Some true →
  erase e (readyList q) = Ok (filter (λ x, x ≠ e) (readyList q)) ∧
  queue_ok st' (with_numInService (_numInService q + 1)
                  (with_ready (filter (λ x, x ≠ e) (readyList q)) q)).
Proof.
  intros Hq He Hidle Ho Hs. pose proof (only_at_store st st' e q Hq Ho) as Hst.
  destruct (alloc_nodup st q Hq) as (Hna & Hnf & Hdisj).
  pose proof (filter_ne_perm e _ Hna He) as Hp. set (rest := filter (λ x, x ≠ e) (allocatedList q)) in Hp.
  assert (e ∉ rest) as Her by (intros [? _]%list_elem_of_filter; done).
  split. { apply erase_ok. apply (ready_elem st q e Hq). done. }
  constructor; cbn; try apply Hq; try done.
  - rewrite (qo_ready _ _ Hq). rewrite <- Hp. rewrite !filter_cons.
    rewrite (decide_False (P := svc st' e = Some false)) by (by rewrite Hs).
    rewrite decide_True by done. rewrite filter_cons_False by naive_solver.
    rewrite (filter_only_at st st' e) by done. rewrite list_filter_filter.
    apply reflexive_eq, filter_ext_in. intros x Hx. split; [naive_solver|]. intros Hx'. split; [|done].
    by intros ->.
  - rewrite (qo_svc _ _ Hq). rewrite <- Hp. rewrite !filter_cons.
    rewrite (decide_True (P := svc st' e = Some true)) by done.
    rewrite decide_False by (by rewrite Hidle). rewrite (filter_only_at st st' e) by done. cbn. lia.
  - intros x Hx. destruct Ho as [_ Ho]. rewrite Ho; [by apply Hq|]. intros ->. by apply (Hdisj e).
Qed.

(** An entry in service is to be sent again. *)
Lemma queue_requeue st st' e q :
  queue_ok st q → e ∈ allocatedList q → svc st e = Some true →
  only_at st st' e → svc st' e = Some false →
  ∃ q', addToReadyList st' e (with_numInService (_numInService q - 1) q) = Ok q' ∧ queue_ok st' q' ∧
    allocatedList q' = allocatedList q ∧ freeList q' = freeList q ∧
    ∃ pre post, readyList q = pre ++ post ∧ readyList q' = pre ++ e :: post ∧
      (StronglySorted (by_time st') (readyList q) →
         (∀ x, x ∈ pre → rt st' x ≤ rt st' e) ∧ (∀ x, x ∈ post → rt st' e < rt st' x) ∧
         StronglySorted (by_time st') (readyList q')).
Proof.
  intros Hq He Hbusy Ho Hs. pose proof (only_at_store st st' e q Hq Ho) as Hst.
  destruct (alloc_nodup st q Hq) as (Hna & Hnf & Hdisj).
  pose proof (filter_ne_perm e _ Hna He) as Hp. set (rest := filter (λ x, x ≠ e) (allocatedList q)) in Hp.
  assert (e ∉ rest) as Her by (intros [? _]%list_elem_of_filter; done).
  destruct (addToReadyList_spec st' e (with_numInService (_numInService q - 1) q))
    as (pre & post & Hr & Hadd & Hsort).
  { apply Ho. }
  { intros i Hi. cbn in Hi. apply Hst. apply (ready_elem st q i Hq) in Hi as [Hi _]. by eapply alloc_entry. }
  rewrite Hadd. eexists. split; [done|]. cbn in *. split_and!; try done.
  - constructor; cbn; try apply Hq; try done.
    + rewrite <- Permutation_middle, <- Hr, (qo_ready _ _ Hq), <- Hp. rewrite !filter_cons.
      rewrite (decide_True (P := svc st' e = Some false)) by done.
      rewrite decide_False by (by rewrite Hbusy). by rewrite (filter_only_at st st' e) by done.
    + rewrite (qo_svc _ _ Hq), <- Hp, !filter_cons.
      rewrite (decide_False (P := svc st' e = Some true)) by (by rewrite Hs).
      rewrite decide_True by done. rewrite (filter_only_at st st' e) by done. cbn. lia.
    + intros x Hx. destruct Ho as [_ Ho]. rewrite Ho; [by apply Hq|]. intros ->. by apply (Hdisj e).
  - by exists pre, post.
Qed.

(** Freeing an entry.  The drain is signalled exactly when a draining queue becomes empty. *)
Lemma queue_free st e x y q :
  queue_ok st q → e ∈ allocatedList q → st !! e = Some x → entry_deallocate x = Ok y →
  ∃ q' b, deallocate e st q = Ok (<[e := y]> st, q', b) ∧ queue_ok (<[e := y]> st) q' ∧
    allocatedList q' = filter (λ z, z ≠ e) (allocatedList q) ∧
    readyList q' = filter (λ z, z ≠ e) (readyList q) ∧ freeList q' = e :: freeList q ∧
    entries q' = entries q ∧
    (b = true ↔ drain_state q = Draining ∧ allocatedList q = [e]) ∧
    drain_state q' = (if b then Drained else drain_state q).
Proof.
  intros Hq He Hx Hy. set (st' := <[e := y]> st).
  assert (Hsy : svc st' e = Some false).
  { unfold svc, st'. rewrite lookup_insert_eq. cbn. f_equal. by eapply deallocate_idle. }
  assert (Ho : only_at st st' e).
  { split; [unfold st'; rewrite lookup_insert_eq; by eexists|]. intros e' Hne. unfold svc, st'.
    by rewrite lookup_insert_ne. }
  pose proof (only_at_store st st' e q Hq Ho) as Hst.
  destruct (alloc_nodup st q Hq) as (Hna & Hnf & Hdisj).
  pose proof (filter_ne_perm e _ Hna He) as Hp. set (rest := filter (λ z, z ≠ e) (allocatedList q)) in *.
  assert (e ∉ rest) as Her by (intros [? _]%list_elem_of_filter; done).
  assert (Hlen : Z.of_nat (length (allocatedList q)) = Z.of_nat (length rest) + 1)
    by (rewrite <- Hp; cbn; lia).
  assert (Hrdy : readyList q = filter (λ z, z ≠ e) (readyList q) ∨ svc st e = Some false).
  { destruct (svc st e) as [[|]|] eqn:Hse; [left|by right|left];
      symmetry; apply filter_all; intros z Hz ->; apply (ready_elem st q e Hq) in Hz as [_ Hz]; congruence. }
  assert (Hready : filter (λ z, z ≠ e) (readyList q) ≡ₚ filter (λ z, svc st' z = Some false) rest).
  { rewrite (qo_ready _ _ Hq), <- Hp. rewrite (filter_only_at st st' e) by done.
    rewrite list_filter_filter, filter_cons_False by naive_solver.
    apply reflexive_eq, filter_ext_in. intros z Hz. split; [naive_solver|]. intros Hz'. split; [|done].
    by intros ->. }
  set (n := if inService x then _numInService q - 1 else _numInService q).
  assert (Hn : n = Z.of_nat (length (filter (λ z, svc st' z = Some true) rest))).
  { rewrite (filter_only_at st st' e) by done. unfold n.
    assert (svc st e = Some (inService x)) as Hse by (unfold svc; by rewrite Hx).
    rewrite (qo_svc _ _ Hq), <- !Hp, !filter_cons, !Hse.
    destruct (inService x); [rewrite decide_True by done|rewrite decide_False by done]; cbn [length]; lia. }
  assert (Hok : ∀ d, queue_ok st' (mkQueue (label q) (numEntries q) (numReserve q) (entries q) rest
                 (filter (λ z, z ≠ e) (readyList q)) (e :: freeList q) n (allocated q - 1) d)).
  { intros d. constructor; cbn; try apply Hq; try done.
    - rewrite <- Permutation_middle. change (e :: rest ++ freeList q) with ((e :: rest) ++ freeList q).
      rewrite Hp. apply Hq.
    - rewrite (qo_count _ _ Hq). lia.
    - intros z [->|Hz]%elem_of_cons; [done|]. destruct Ho as [_ Ho]. rewrite Ho; [by apply Hq|].
      intros ->. by apply (Hdisj e). }
  assert (Hone : (allocated q - 1 =? 0) = true ↔ allocatedList q = [e]).
  { rewrite Z.eqb_eq, (qo_count _ _ Hq). split.
    - intros H1. destruct (allocatedList q) as [|z [|]]; cbn in H1; try lia.
      apply list_elem_of_singleton in He. by subst.
    - intros ->. done. }
  unfold deallocate. rewrite Hx. cbn [deref mbind res_bind]. rewrite erase_ok by done.
  cbn [mbind res_bind]. fold rest.
  assert (He' : (if inService x
     then Ok (with_numInService (_numInService (with_allocated rest (e :: freeList q) (allocated q - 1) q) - 1)
                (with_allocated rest (e :: freeList q) (allocated q - 1) q))
     else r ← erase e (readyList (with_allocated rest (e :: freeList q) (allocated q - 1) q));
          Ok (with_ready r (with_allocated rest (e :: freeList q) (allocated q - 1) q))) =
     Ok (mkQueue (label q) (numEntries q) (numReserve q) (entries q) rest
                 (filter (λ z, z ≠ e) (readyList q)) (e :: freeList q) n (allocated q - 1) (drain_state q))).
  { unfold n. assert (svc st e = Some (inService x)) as Hse by (unfold svc; by rewrite Hx).
    destruct (inService x).
    - destruct Hrdy as [Hr|Hr]; [|congruence]. rewrite <- Hr. done.
    - rewrite erase_ok; [done|]. cbn. by apply (ready_elem st q e Hq). }
  rewrite He'. cbn [mbind res_bind]. rewrite Hy. cbn [mbind res_bind drain_state allocated]. fold st'.
  destruct (bool_decide (drain_state q = Draining) && (allocated q - 1 =? 0)) eqn:Hb.
  - apply andb_true_iff in Hb as [Hb1 Hb2]. apply bool_decide_eq_true in Hb1.
    eexists _, true. split; [done|]. split; [apply Hok|].
    split_and!; try done. split; [|done]. intros _. split; [done|]. by apply Hone.
  - eexists _, false. split; [done|]. split; [apply Hok|].
    split_and!; try done. split; [done|]. intros [Hd Ha]. apply Hone in Ha. rewrite Ha, bool_decide_eq_true_2 in Hb by done. done.
Qed.

Lemma find_entry_spec (test : E → bool) st (l : list positive) :
  (∀ e, e ∈ l → is_Some (st !! e)) →
  ∃ r, find_entry test st l = Ok r ∧
    match r with
    | Some e => e ∈ l ∧ ∃ x, st !! e = Some x ∧ test x = true
    | None => ∀ e x, e ∈ l → st !! e = Some x → test x = false
    end.
Proof.
  induction l as [|e l IH]; intros Hl.
  { exists None. split; [done|]. intros e x He. by apply elem_of_nil in He. }
  cbn [find_entry]. destruct (Hl e) as [x Hx]; [by left|]. rewrite Hx. cbn [deref mbind res_bind].
  destruct (test x) eqn:Ht.
  - exists (Some e). split; [done|]. split; [by left|]. by exists x.
  - destruct IH as (r & Hr & Hs); [intros; apply Hl; by right|]. exists r. split; [done|].
    destruct r as [e'|]; [destruct Hs; split; [by right|done]|].
    intros e' y [->|He']%elem_of_cons Hy; [congruence|by eapply Hs].
Qed.

(** The entry to be sent next: in a list ordered by time, the first of the entries with the
    least ready time, and none exactly when nothing is ready. *)
Lemma getNext_spec st q now :
  queue_ok st q → StronglySorted (by_time st) (readyList q) →
  ∃ r, getNext st now q = Ok r ∧
    match r with
    | Some e => e ∈ allocatedList q ∧ svc st e = Some false ∧ rt st e ≤ now ∧ head (readyList q) = Some e ∧
        ∀ e', e' ∈ allocatedList q → svc st e' = Some false → rt st e ≤ rt st e'
    | None => ∀ e', e' ∈ allocatedList q → svc st e' = Some false → now < rt st e'
    end.
Proof.
  intros Hq Hs. unfold getNext. destruct (readyList q) as [|e l] eqn:Hr.
  - exists None. split; [done|]. intros e' Ha Hi. exfalso.
    assert (e' ∈ readyList q) as Hin by (by apply (ready_elem st q e' Hq)).
    rewrite Hr in Hin. by apply elem_of_nil in Hin.
  - assert (e ∈ allocatedList q ∧ svc st e = Some false) as [Ha Hi].
    { apply (ready_elem st q e Hq). rewrite Hr. by left. }
    destruct (qo_store _ _ Hq e (alloc_entry _ _ _ Hq Ha)) as [x Hx]. rewrite Hx.
    cbn [deref mbind res_bind]. assert (rt st e = readyTime x) as Hrt by (unfold rt; by rewrite Hx).
    assert (∀ e', e' ∈ allocatedList q → svc st e' = Some false → rt st e ≤ rt st e') as Hmin.
    { intros e' Ha' Hi'. assert (e' ∈ readyList q) as Hin by (by apply (ready_elem st q e' Hq)).
      rewrite Hr in Hin. apply elem_of_cons in Hin as [->|Hin]; [lia|].
      apply StronglySorted_inv in Hs as [_ Hs]. rewrite Forall_forall in Hs. by apply Hs. }
    eexists. split; [done|]. destruct (Z.ltb_spec now (readyTime x)).
    + intros e' Ha' Hi'. specialize (Hmin e' Ha' Hi'). lia.
    + split_and!; try done. lia.
Qed.

End proofs.
End QueueProofs.
