(* ===== verification/Mshr.v ===== *)
(** * Miss status holding registers

    [mem/cache/mshr.hh], [mem/cache/mshr.cc], [mem/cache/mshr_queue.hh] and
    [mem/cache/mshr_queue.cc].  MSHRs and packets are shared objects: a target names its
    packet by address, an MSHR is a sender state of the packets it sent downstream, and the
    MSHR of one cache sets and clears the [downstreamPending] flag of MSHRs of the caches
    above it.  All of them live in a [Heap]; an operation on the MSHR at address [m] takes the
    heap and returns the changed one.  The theorems are in [MshrProofs]. *)

From stdpp Require Import strings.
From S2P Require Import Prelude MemCmd Packet Drain CacheQueue.

Open Scope Z_scope.

(** ** Targets *)

Module Target.

Inductive Source := FromCPU | FromSnoop | FromPrefetcher.

#[export] Instance Source_eq_dec : EqDecision Source.
Proof. solve_decision. Defined.

Record Target := mkTarget {
  recvTime : Z;
  readyTime : Z;
  order : Z;
  pkt : positive;
  source : Source;
  markedPending : bool
}.

End Target.

Module TargetList.

Record TargetList := mkList { items : list Target.Target; needsWritable : bool; hasUpgrade : bool }.

Definition newTargetList : TargetList := mkList [] false false.
Definition resetFlags (l : TargetList) : TargetList := mkList (items l) false false.
Definition isReset (l : TargetList) : bool := negb (needsWritable l) && negb (hasUpgrade l).

Definition with_items (i : list Target.Target) (l : TargetList) : TargetList :=
  mkList i (needsWritable l) (hasUpgrade l).
Definition with_needsWritable (b : bool) (l : TargetList) : TargetList :=
  mkList (items l) b (hasUpgrade l).
Definition with_hasUpgrade (b : bool) (l : TargetList) : TargetList :=
  mkList (items l) (needsWritable l) b.

End TargetList.

(** ** [MSHR] *)

Module MSHR.
Import Host SenderStates Target.
Export TargetList (TargetList, items).
#[local] Existing Instances MemCmd.Command_eq_dec Target.Source_eq_dec.

(** The fields of [QueueEntry], then those of [MSHR]. *)
Record MSHR := mkMSHR {
  readyTime : Z;
  _isUncacheable : bool;
  inService : bool;
  order : Z;
  blkAddr : Z;
  blkSize : Z;
  isSecure : bool;
  downstreamPending : bool;
  pendingModified : bool;
  postInvalidate : bool;
  postDowngrade : bool;
  isForward : bool;
  allocOnFill : bool;
  targets : TargetList;
  deferredTargets : TargetList
}.

Definition newMSHR : MSHR :=
  mkMSHR 0 false false 0 0 0 false false false false false false false
    TargetList.newTargetList TargetList.newTargetList.

(** The objects the operations work on. *)
Record Heap := mkHeap {
  memory : mem;
  states : heap;
  pkts : gmap positive Packet.Packet;
  mshrs : gmap positive MSHR
}.

Definition with_pkt (a : positive) (p : Packet.Packet) (h : Heap) : Heap :=
  mkHeap (memory h) (states h) (<[a := p]> (pkts h)) (mshrs h).
Definition with_mshr (m : positive) (x : MSHR) (h : Heap) : Heap :=
  mkHeap (memory h) (states h) (pkts h) (<[m := x]> (mshrs h)).
Definition with_memory (mm : mem) (h : Heap) : Heap := mkHeap mm (states h) (pkts h) (mshrs h).

Definition get_pkt (h : Heap) (a : positive) : res Packet.Packet := deref (pkts h !! a).
Definition get_mshr (h : Heap) (m : positive) : res MSHR := deref (mshrs h !! m).

(** Change the MSHR at [m]. *)
Definition upd (m : positive) (f : MSHR → MSHR) (h : Heap) : res Heap :=
  x ← get_mshr h m; Ok (with_mshr m (f x) h).

Definition with_lists (t d : TargetList) (x : MSHR) : MSHR :=
  mkMSHR (readyTime x) (_isUncacheable x) (inService x) (order x) (blkAddr x) (blkSize x)
    (isSecure x) (downstreamPending x) (pendingModified x) (postInvalidate x) (postDowngrade x)
    (isForward x) (allocOnFill x) t d.
Definition with_downstreamPending (b : bool) (x : MSHR) : MSHR :=
  mkMSHR (readyTime x) (_isUncacheable x) (inService x) (order x) (blkAddr x) (blkSize x)
    (isSecure x) b (pendingModified x) (postInvalidate x) (postDowngrade x)
    (isForward x) (allocOnFill x) (targets x) (deferredTargets x).
Definition with_allocOnFill (b : bool) (x : MSHR) : MSHR :=
  mkMSHR (readyTime x) (_isUncacheable x) (inService x) (order x) (blkAddr x) (blkSize x)
    (isSecure x) (downstreamPending x) (pendingModified x) (postInvalidate x) (postDowngrade x)
    (isForward x) b (targets x) (deferredTargets x).
Definition with_inService (b : bool) (x : MSHR) : MSHR :=
  mkMSHR (readyTime x) (_isUncacheable x) b (order x) (blkAddr x) (blkSize x)
    (isSecure x) (downstreamPending x) (pendingModified x) (postInvalidate x) (postDowngrade x)
    (isForward x) (allocOnFill x) (targets x) (deferredTargets x).
(** The flags that are valid while in service. *)
Definition with_post (pm pi pd : bool) (x : MSHR) : MSHR :=
  mkMSHR (readyTime x) (_isUncacheable x) (inService x) (order x) (blkAddr x) (blkSize x)
    (isSecure x) (downstreamPending x) pm pi pd
    (isForward x) (allocOnFill x) (targets x) (deferredTargets x).
Definition with_order (o t : Z) (x : MSHR) : MSHR :=
  mkMSHR t (_isUncacheable x) (inService x) o (blkAddr x) (blkSize x)
    (isSecure x) (downstreamPending x) (pendingModified x) (postInvalidate x) (postDowngrade x)
    (isForward x) (allocOnFill x) (targets x) (deferredTargets x).

(** Which of the two lists of an MSHR. *)
Inductive which := Targets | Deferred.

Definition list_of (w : which) (x : MSHR) : TargetList :=
  match w with Targets => targets x | Deferred => deferredTargets x end.
Definition upd_list (m : positive) (w : which) (f : TargetList → TargetList) (h : Heap) : res Heap :=
  upd m (λ x, match w with
              | Targets => with_lists (f (targets x)) (deferredTargets x) x
              | Deferred => with_lists (targets x) (f (deferredTargets x)) x
              end) h.

Definition needsWritable (x : MSHR) : bool := TargetList.needsWritable (targets x).
Definition isPendingModified (x : MSHR) : res bool := _ ← assert_ (inService x); Ok (pendingModified x).
Definition hasPostInvalidate (x : MSHR) : res bool := _ ← assert_ (inService x); Ok (postInvalidate x).
Definition hasPostDowngrade (x : MSHR) : res bool := _ ← assert_ (inService x); Ok (postDowngrade x).

Definition getNumTargets (x : MSHR) : Z :=
  Z.of_nat (length (items (targets x))) + Z.of_nat (length (items (deferredTargets x))).
Definition hasTargets (x : MSHR) : bool := negb (bool_decide (items (targets x) = [])).
Definition getTarget (x : MSHR) : res Target :=
  _ ← assert_ (hasTargets x); deref (head (items (targets x))).
(** [targets.pop_front()] *)
Definition popTarget (x : MSHR) : res MSHR :=
  match items (targets x) with
  | [] => Fail BadPointer
  | _ :: l => Ok (with_lists (TargetList.with_items l (targets x)) (deferredTargets x) x)
  end.

(** [dynamic_cast<MSHR *>] on a sender state: the number that marks MSHRs. *)
Definition is_mshr (d : dyn) : bool := match d with Other 1 => true | _ => false end.

Definition next_mshr (h : Heap) (p : Packet.Packet) : res (option positive) :=
  Packet.findNextSenderState is_mshr (states h) p.

(** [TargetList::add] on the list [w] of the MSHR at [m]. *)
Definition add (curTick : Z) (m : positive) (w : which) (pkt : positive) (readyTime order : Z)
    (source : Source) (markPending : bool) (h : Heap) : res Heap :=
  p ← get_pkt h pkt;
  h ← (if decide (source ≠ FromSnoop) then
         nw ← Packet.needsWritable p;
         h ← (if nw : bool then upd_list m w (TargetList.with_needsWritable true) h else Ok h);
         if Packet.isUpgrade p || bool_decide (Packet.cmd p = MemCmd.StoreCondReq)
         then upd_list m w (TargetList.with_hasUpgrade true) h else Ok h
       else Ok h);
  '(h, markPending) ←
    (if markPending then
       o ← next_mshr h p;
       match o with
       | Some a =>
           x ← get_mshr h a;
           _ ← assert_ (negb (downstreamPending x));
           h ← upd a (with_downstreamPending true) h;
           Ok (h, true)
       | None => Ok (h, false)
       end
     else Ok (h, false));
  upd_list m w (λ l, TargetList.with_items
    (items l ++ [mkTarget curTick readyTime order pkt source markPending]) l) h.

(** The command [replaceUpgrade] puts in place. *)
Definition replaced_cmd (c : MemCmd.Command) : MemCmd.Command :=
  if decide (c = MemCmd.UpgradeReq) then MemCmd.ReadExReq
  else if decide (c = MemCmd.SCUpgradeReq) then MemCmd.SCUpgradeFailReq
  else if decide (c = MemCmd.StoreCondReq) then MemCmd.StoreCondFailReq
  else c.

Definition replaceUpgrade (uninit : nat → Z) (pkt : positive) (h : Heap) : res Heap :=
  p ← get_pkt h pkt;
  let has_data := Packet.hasData p || Packet.hasRespData p in
  let p := Packet.with_cmd (replaced_cmd (Packet.cmd p)) p in
  if negb has_data then
    _ ← assert_ (negb (Packet.hasData p));
    if Packet.hasRespData p then
      '(mm, p) ← Packet.allocate uninit (memory h) p;
      Ok (with_memory mm (with_pkt pkt p h))
    else Ok (with_pkt pkt p h)
  else Ok (with_pkt pkt p h).

(** [for (auto& t : list) f(t)] *)
Fixpoint for_targets (f : Target → Heap → res Heap) (l : list Target) (h : Heap) : res Heap :=
  match l with
  | [] => Ok h
  | t :: l => h ← f t h; for_targets f l h
  end.

Definition replaceUpgrades (uninit : nat → Z) (m : positive) (w : which) (h : Heap) : res Heap :=
  x ← get_mshr h m;
  if negb (TargetList.hasUpgrade (list_of w x)) then Ok h
  else
    h ← for_targets (λ t, replaceUpgrade uninit (Target.pkt t)) (items (list_of w x)) h;
    upd_list m w (TargetList.with_hasUpgrade false) h.

(** [TargetList::clearDownstreamPending]; [clear] is [MSHR::clearDownstreamPending]. *)
Definition clear_list (clear : positive → Heap → res Heap) (l : list Target) (h : Heap) : res Heap :=
  for_targets (λ t h,
    if markedPending t then
      p ← get_pkt h (Target.pkt t);
      o ← next_mshr h p;
      match o with Some a => clear a h | None => Ok h end
    else Ok h) l h.

(** [MSHR::clearDownstreamPending] and the list's function call each other.  Every call finds
    and clears a flag, so the number of MSHRs bounds the depth. *)
Fixpoint clear_pending (fuel : nat) (m : positive) (h : Heap) : res Heap :=
  match fuel with
  | O => Fail OutOfFuel
  | S fuel =>
      x ← get_mshr h m;
      _ ← assert_ (downstreamPending x);
      h ← upd m (with_downstreamPending false) h;
      clear_list (clear_pending fuel) (items (targets x)) h
  end.

Definition clear_fuel (h : Heap) : nat := S (size (mshrs h)).

Definition clearDownstreamPending (m : positive) (h : Heap) : res Heap :=
  clear_pending (clear_fuel h) m h.
Definition list_clearDownstreamPending (l : list Target) (h : Heap) : res Heap :=
  clear_list (clear_pending (clear_fuel h)) l h.

Definition allocate (curTick : Z) (m : positive) (blk_addr blk_size : Z) (target : positive)
    (when_ready order : Z) (alloc_on_fill : bool) (h : Heap) : res Heap :=
  p ← get_pkt h target;
  sec ← Packet.isSecure p;
  h ← upd m (λ x, mkMSHR when_ready (Request.isUncacheable (Packet.req p)) false order blk_addr
                    blk_size sec false (pendingModified x) (postInvalidate x) (postDowngrade x)
                    false alloc_on_fill (targets x) (deferredTargets x)) h;
  x ← get_mshr h m;
  _ ← assert_ (TargetList.isReset (targets x));
  let source := if decide (Packet.cmd p = MemCmd.HardPFReq) then FromPrefetcher else FromCPU in
  h ← add curTick m Targets target when_ready order source true h;
  x ← get_mshr h m;
  _ ← assert_ (TargetList.isReset (deferredTargets x));
  Ok h.

Definition markInService (m : positive) (pending_modified_resp : bool) (h : Heap) : res Heap :=
  x ← get_mshr h m;
  _ ← assert_ (negb (inService x));
  h ← upd m (λ x, with_post (TargetList.needsWritable (targets x) || pending_modified_resp) false false
                    (with_inService true x)) h;
  if negb (downstreamPending x) then list_clearDownstreamPending (items (targets x)) h else Ok h.

Definition deallocate (x : MSHR) : res MSHR :=
  _ ← assert_ (bool_decide (items (targets x) = []));
  let x := with_lists (TargetList.resetFlags (targets x)) (deferredTargets x) x in
  _ ← assert_ (TargetList.isReset (deferredTargets x));
  Ok (with_inService false x).

(** The condition under which [allocateTarget] defers: in service and any of the listed
    reasons, evaluated from left to right. *)
Definition must_defer (p : Packet.Packet) (x : MSHR) : res bool :=
  if inService x then
    if negb (bool_decide (items (deferredTargets x) = [])) then Ok true
    else
      pi ← hasPostInvalidate x;
      if pi : bool then Ok true
      else
        nw ← Packet.needsWritable p;
        if nw : bool then
          pm ← isPendingModified x;
          if negb pm then Ok true
          else pd ← hasPostDowngrade x; Ok (pd || isForward x)
        else Ok false
  else Ok false.

Definition allocateTarget (uninit : nat → Z) (curTick : Z) (m pkt : positive) (whenReady order : Z)
    (alloc_on_fill : bool) (h : Heap) : res Heap :=
  p ← get_pkt h pkt;
  _ ← assert_ (bool_decide (Packet.cmd p ≠ MemCmd.HardPFReq));
  x ← get_mshr h m;
  _ ← assert_ (negb (_isUncacheable x));
  h ← upd m (λ x, with_allocOnFill (allocOnFill x || alloc_on_fill) x) h;
  d ← must_defer p x;
  if d : bool then
    pi ← hasPostInvalidate x;
    h ← (if pi : bool then replaceUpgrade uninit pkt h else Ok h);
    add curTick m Deferred pkt whenReady order FromCPU true h
  else add curTick m Targets pkt whenReady order FromCPU (negb (inService x)) h.

(** The copy of a snooped packet that is kept: its address and the heap that holds it. *)
Definition copy_snoop (uninit : nat → Z) (will_respond : bool) (p : Packet.Packet) (h : Heap) :
    res (positive * Heap) :=
  let a := fresh (dom (pkts h)) in
  if will_respond then
    '(mm, c) ← Packet.copyPacket uninit (memory h) p true true;
    Ok (a, with_memory mm (with_pkt a c h))
  else
    c ← Packet.newPacket (Packet.req p) (Packet.cmd p);
    Ok (a, with_pkt a c h).

(** The part of [handleSnoop] that saves the packet at [pkt] to replay it later. *)
Definition keep_snoop (uninit : nat → Z) (curTick : Z) (m pkt : positive) (order : Z) (nw pm : bool)
    (p : Packet.Packet) (h : Heap) : res Heap :=
  let will_respond := pm && Packet.needsResponse p && bool_decide (Packet.cmd p ≠ MemCmd.InvalidateReq) in
  '(cp, h) ← copy_snoop uninit will_respond p h;
  h ← (if will_respond then
         p ← get_pkt h pkt;
         p ← (p ← Packet.setCacheResponding p; Packet.setResponderHadWritable p);
         Ok (with_pkt pkt p h)
       else Ok h);
  x ← get_mshr h m;
  h ← add curTick m Targets cp curTick order FromSnoop
        (downstreamPending x && TargetList.needsWritable (targets x)) h;
  if nw then upd m (λ x, with_post (pendingModified x) true (postDowngrade x) x) h else Ok h.

(** The part that makes the response a shared one. *)
Definition downgrade_snoop (m pkt : positive) (h : Heap) : res Heap :=
  h ← upd m (λ x, with_post (pendingModified x) (postInvalidate x) true x) h;
  p ← get_pkt h pkt;
  Ok (with_pkt pkt (Packet.setHasSharers p) h).

Definition handleSnoop (uninit : nat → Z) (curTick : Z) (m pkt : positive) (order : Z) (h : Heap) :
    res (Heap * bool) :=
  p ← get_pkt h pkt;
  nw ← Packet.needsWritable p;
  if negb (Bool.eqb nw (Packet.isInvalidate p)) then Fail Panicked
  else
    x ← get_mshr h m;
    if negb (inService x) || (Packet.isExpressSnoop p && downstreamPending x) then
      h ← (if nw : bool then
             h ← replaceUpgrades uninit m Targets h; replaceUpgrades uninit m Deferred h
           else Ok h);
      Ok (h, false)
    else
      h ← (if nw then replaceUpgrades uninit m Deferred h else Ok h);
      pi ← hasPostInvalidate x;
      if pi : bool then Ok (h, true)
      else
        pm ← isPendingModified x;
        p ← get_pkt h pkt;
        nw ← Packet.needsWritable p;
        h ← (if pm || Packet.isInvalidate p then keep_snoop uninit curTick m pkt order nw pm p h
             else Ok h);
        h ← (if negb nw && negb (Request.isUncacheable (Packet.req p)) then downgrade_snoop m pkt h
             else Ok h);
        Ok (h, true).

Definition promoteDeferredTargets (curTick : Z) (x : MSHR) : res (MSHR * bool) :=
  _ ← assert_ (bool_decide (items (targets x) = []));
  if bool_decide (items (deferredTargets x) = []) then Ok (x, false)
  else
    let x := with_lists (deferredTargets x) (targets x) x in
    let x := with_lists (targets x) (TargetList.resetFlags (deferredTargets x)) x in
    t ← deref (head (items (targets x)));
    Ok (with_order (Target.order t) (Z.max curTick (Target.readyTime t)) x, true).

Definition promoteWritable (m : positive) (h : Heap) : res Heap :=
  x ← get_mshr h m;
  go ← (if TargetList.needsWritable (deferredTargets x) then
          pi ← hasPostInvalidate x;
          if pi : bool then Ok false else pd ← hasPostDowngrade x; Ok (negb pd)
        else Ok false);
  if go : bool then
    _ ← assert_ (negb (TargetList.needsWritable (targets x)));
    h ← upd_list m Targets (TargetList.with_needsWritable true) h;
    _ ← assert_ (negb (downstreamPending x));
    h ← list_clearDownstreamPending (items (deferredTargets x)) h;
    upd m (λ x, with_lists
      (TargetList.with_items (items (targets x) ++ items (deferredTargets x)) (targets x))
      (TargetList.resetFlags (TargetList.with_items [] (deferredTargets x))) x) h
  else Ok h.

(** *** Functional accesses *)

(** [TargetList::checkFunctional]; [print a] is the [print()] of the packet at [a]. *)
Fixpoint check_targets (print : positive → Z → string → string) (h : Heap) (l : list Target)
    (s : Queue.fstate) : res (bool * Queue.fstate) :=
  match l with
  | [] => Ok (false, s)
  | t :: l =>
      other ← get_pkt h (Target.pkt t);
      let '(mm, ss, p) := s in
      '(r, mm, ss, p) ← Packet.checkFunctionalPacket (print (Target.pkt t)) other mm ss p;
      if r : bool then Ok (true, (mm, ss, p)) else check_targets print h l (mm, ss, p)
  end.

(** [print_mshr] is [MSHR::print] of this MSHR. *)
Definition checkFunctional (print : positive → Z → string → string) (print_mshr : Z → string → string)
    (h : Heap) (m : positive) (s : Queue.fstate) : res (bool * Queue.fstate) :=
  x ← get_mshr h m;
  let '(mm, ss, p) := s in
  if Packet.isPrint p then
    '(_, mm, ss, p) ← Packet.checkFunctional print_mshr (blkAddr x) (isSecure x) (blkSize x) None mm ss p;
    Ok (false, (mm, ss, p))
  else
    '(r, s) ← check_targets print h (items (targets x)) s;
    if r : bool then Ok (true, s) else check_targets print h (items (deferredTargets x)) s.

#[export] Instance MSHR_entry : QueueEntry MSHR := {
  CacheQueue.readyTime := readyTime;
  CacheQueue.isUncacheable := _isUncacheable;
  CacheQueue.inService := inService;
  CacheQueue.blkAddr := blkAddr;
  CacheQueue.isSecure := isSecure;
  entry_deallocate := deallocate
}.

End MSHR.

(** ** [MSHRQueue] *)

Module MSHRQueue.
Import MSHR Queue.

Record MSHRQueue := mkMSHRQueue { queue : Queue; demandReserve : Z }.

Definition newMSHRQueue (lbl : string) (num_entries reserve demand_reserve : Z) (addrs : list positive) :
    MSHRQueue := mkMSHRQueue (newQueue lbl num_entries reserve addrs) demand_reserve.

Definition with_queue (q : Queue) (mq : MSHRQueue) : MSHRQueue := mkMSHRQueue q (demandReserve mq).

Definition with_mshrs (st : gmap positive MSHR) (h : Heap) : Heap :=
  mkHeap (memory h) (states h) (pkts h) st.

(** Returns the address of the MSHR. *)
Definition allocate (curTick blk_addr blk_size : Z) (pkt : positive) (when_ready order : Z)
    (alloc_on_fill : bool) (h : Heap) (mq : MSHRQueue) : res (Heap * MSHRQueue * positive) :=
  let q := queue mq in
  match freeList q with
  | [] => Fail AssertFailed
  | m :: free =>
      x ← get_mshr h m;
      _ ← assert_ (getNumTargets x =? 0);
      h ← MSHR.allocate curTick m blk_addr blk_size pkt when_ready order alloc_on_fill h;
      let q := with_allocated (allocatedList q ++ [m]) free (allocated q) q in
      q ← addToReadyList (mshrs h) m q;
      let q := with_allocated (allocatedList q) (freeList q) (allocated q + 1) q in
      Ok (h, with_queue q mq, m)
  end.

Definition moveToFront (m : positive) (h : Heap) (mq : MSHRQueue) : res MSHRQueue :=
  x ← get_mshr h m;
  if negb (inService x) then
    r ← erase m (readyList (queue mq));
    Ok (with_queue (with_ready (m :: r) (queue mq)) mq)
  else Ok mq.

Definition markInService (m : positive) (pending_modified_resp : bool) (h : Heap) (mq : MSHRQueue) :
    res (Heap * MSHRQueue) :=
  h ← MSHR.markInService m pending_modified_resp h;
  r ← erase m (readyList (queue mq));
  Ok (h, with_queue (with_numInService (_numInService (queue mq) + 1) (with_ready r (queue mq))) mq).

Definition markPending (m : positive) (h : Heap) (mq : MSHRQueue) : res (Heap * MSHRQueue) :=
  x ← get_mshr h m;
  _ ← assert_ (inService x);
  h ← upd m (with_inService false) h;
  q ← addToReadyList (mshrs h) m (with_numInService (_numInService (queue mq) - 1) (queue mq));
  Ok (h, with_queue q mq).

Definition deallocate (m : positive) (h : Heap) (mq : MSHRQueue) : res (Heap * MSHRQueue * bool) :=
  '(st, q, b) ← Queue.deallocate m (mshrs h) (queue mq);
  Ok (with_mshrs st h, with_queue q mq, b).

(** Returns whether the queue is no longer full. *)
Definition forceDeallocateTarget (curTick : Z) (m : positive) (h : Heap) (mq : MSHRQueue) :
    res (Heap * MSHRQueue * bool) :=
  let was_full := isFull (queue mq) in
  x ← get_mshr h m;
  _ ← assert_ (hasTargets x);
  x ← popTarget x;
  let h := with_mshr m x h in
  '(h, mq) ← (if negb (hasTargets x) then
                '(x, promoted) ← promoteDeferredTargets curTick x;
                let h := with_mshr m x h in
                if negb promoted then '(h, mq, _) ← deallocate m h mq; Ok (h, mq) else Ok (h, mq)
              else Ok (h, mq));
  Ok (h, mq, was_full && negb (isFull (queue mq))).

Definition havePending (mq : MSHRQueue) : bool := negb (bool_decide (readyList (queue mq) = [])).
Definition canPrefetch (mq : MSHRQueue) : bool :=
  allocated (queue mq) <? numEntries (queue mq) - (numReserve (queue mq) + 1 + demandReserve mq).

End MSHRQueue.
