(* ===== verification/MshrProofs.v ===== *)
(** * Miss status holding registers: proofs

    Clearing the [downstreamPending] flags through a chain of caches terminates; the MSHR
    keeps its targets in the order they arrived; an invalidation that is ordered before a
    buffered request leaves no upgrade behind; a snoop is handled by the MSHR exactly when
    its request was sent first; the queue of MSHRs keeps its lists consistent. *)

From stdpp Require Import strings sorting.
From S2P Require Import Prelude MemCmd Packet PacketProofs Drain CacheQueue Mshr.

Open Scope Z_scope.

Module MshrProofs.
Import SenderStates Target MSHR.
#[local] Existing Instances MemCmd.Command_eq_dec Target.Source_eq_dec.

(** ** Clearing [downstreamPending] *)

(** Every packet has a proper stack of sender states. *)
Definition stacks_ok (h : Heap) : Prop :=
  ∀ a p, pkts h !! a = Some p → ∃ l, stack_at (states h) (Packet.senderState p) l.

Lemma next_mshr_ok h a p :
  stacks_ok h → pkts h !! a = Some p → ∃ o, next_mshr h p = Ok o.
Proof.
  intros Hs Hp. destruct (Hs a p Hp) as [l Hl]. eexists. unfold next_mshr, Packet.findNextSenderState.
  apply PacketProofs.find_state_spec; [done|]. pose proof (stack_at_size _ _ _ Hl). lia.
Qed.

(** [h'] is [h] with some [downstreamPending] flags cleared. *)
Record cleared (h h' : Heap) : Prop := {
  cl_memory : memory h' = memory h;
  cl_states : states h' = states h;
  cl_pkts : pkts h' = pkts h;
  cl_mshrs : ∀ m, (with_downstreamPending false <$> mshrs h' !! m) =
                  (with_downstreamPending false <$> mshrs h !! m);
  cl_flags : ∀ m x', mshrs h' !! m = Some x' → downstreamPending x' = true → mshrs h !! m = Some x'
}.

#[local] Instance cleared_preorder : PreOrder cleared.
Proof.
  split.
  - intros h. by constructor.
  - intros h1 h2 h3 [? ? ? H1 F1] [? ? ? H2 F2]. constructor; try congruence.
    intros m x Hx Hp. apply F1; [|done]. by apply F2.
Qed.

(** The number of MSHRs whose flag is set. *)
Definition pending (h : Heap) : nat :=
  size (filter (λ '(_, x), downstreamPending x = true) (mshrs h)).

Lemma pending_cleared h h' : cleared h h' → (pending h' ≤ pending h)%nat.
Proof.
  intros Hc. unfold pending. rewrite <- !size_dom. apply subseteq_size. intros m Hm.
  apply elem_of_dom in Hm as [x Hx]. apply map_lookup_filter_Some in Hx as [Hx Hp].
  apply elem_of_dom. exists x. apply map_lookup_filter_Some. split; [|done]. by eapply (cl_flags h).
Qed.

Lemma clear_one h m x :
  mshrs h !! m = Some x → downstreamPending x = true →
  let h' := with_mshr m (with_downstreamPending false x) h in
  cleared h h' ∧ S (pending h') = pending h.
Proof.
  intros Hm Hp h'. split.
  - constructor; try done; cbn.
    + intros m'. destruct (decide (m' = m)) as [->|]; [|by rewrite lookup_insert_ne].
      rewrite lookup_insert_eq, Hm. done.
    + intros m' x'. destruct (decide (m' = m)) as [->|]; [|by rewrite lookup_insert_ne].
      rewrite lookup_insert_eq. by intros [= <-].
  - unfold pending, h'. cbn.
    rewrite map_filter_insert_False by done.
    rewrite <- (insert_delete_id (mshrs h) m x Hm) at 2.
    rewrite map_filter_insert_True by done. rewrite map_size_insert_None; [done|].
    apply map_lookup_filter_None. left. apply lookup_delete_eq.
Qed.

Lemma cleared_stacks h h' : cleared h h' → stacks_ok h → stacks_ok h'.
Proof. intros [? Hs Hp _ _] Hok. unfold stacks_ok. by rewrite Hs, Hp. Qed.

(** A failure that is not the model's own. *)
Definition proper {A} (r : res A) : Prop := r ≠ Fail OutOfFuel.

Lemma clear_list_spec clear l h :
  stacks_ok h →
  (∀ m h1, cleared h h1 → proper (clear m h1) ∧ ∀ h2, clear m h1 = Ok h2 → cleared h1 h2) →
  proper (clear_list clear l h) ∧ ∀ h', clear_list clear l h = Ok h' → cleared h h'.
Proof.
  intros Hs Hcl. unfold clear_list. revert h Hs Hcl. induction l as [|t l IH]; intros h Hs Hcl.
  { split; [done|]. by intros h' [= <-]. }
  cbn [for_targets]. set (step := (if markedPending t then _ else Ok h)).
  assert (proper step ∧ ∀ h1, step = Ok h1 → cleared h h1) as [Hp Hok].
  { unfold step. destruct (markedPending t); [|split; [done|by intros h1 [= <-]]].
    unfold get_pkt. destruct (pkts h !! Target.pkt t) as [p|] eqn:Hpk; [|done].
    cbn [deref mbind res_bind]. destruct (next_mshr_ok h _ p Hs Hpk) as [o ->].
    cbn [mbind res_bind]. destruct o as [a|]; [by apply Hcl|]. split; [done|by intros h1 [= <-]]. }
  destruct step as [h1|e] eqn:Hst; cbn [mbind res_bind].
  2: { split; [|done]. intros He. by apply Hp. }
  specialize (Hok h1 eq_refl). destruct (IH h1) as [Hp1 Hc1].
  { by eapply cleared_stacks. }
  { intros m h2 Hc2. apply Hcl. by etrans. }
  split; [done|]. intros h' Hh'. etrans; [done|]. by apply Hc1.
Qed.

Lemma clear_pending_spec fuel m h :
  stacks_ok h → (pending h < fuel)%nat →
  proper (clear_pending fuel m h) ∧
  ∀ h', clear_pending fuel m h = Ok h' →
    cleared h h' ∧ ∃ x, mshrs h' !! m = Some x ∧ downstreamPending x = false.
Proof.
  revert m h. induction fuel as [|fuel IH]; intros m h Hs Hf; [lia|].
  cbn [clear_pending]. unfold get_mshr, upd, get_mshr.
  destruct (mshrs h !! m) as [x|] eqn:Hm; [|done]. cbn [deref mbind res_bind].
  destruct (downstreamPending x) eqn:Hp; [|done]. cbn [assert_ mbind res_bind].
  destruct (clear_one h m x Hm Hp) as [Hc Hn]. set (h1 := with_mshr _ _ _) in *.
  destruct (clear_list_spec (clear_pending fuel) (items (targets x)) h1) as [Hpr Hok].
  { by eapply cleared_stacks. }
  { intros m' h2 Hc2. destruct (IH m' h2) as [Hp2 Hok2].
    - eapply cleared_stacks; [|done]. by etrans.
    - pose proof (pending_cleared h1 h2 Hc2). lia.
    - split; [done|]. intros h3 Hh3. by apply Hok2. }
  split; [done|]. intros h' Hh'. pose proof (Hok h' Hh') as Hc'. split; [by etrans|].
  pose proof (cl_mshrs _ _ Hc' m) as He. cbn in He. rewrite lookup_insert_eq in He.
  destruct (mshrs h' !! m) as [x'|] eqn:Hx'; [|done]. exists x'. split; [done|].
  destruct (downstreamPending x') eqn:Hp'; [|done].
  pose proof (cl_flags _ _ Hc' m x' Hx' Hp') as Hx1. cbn in Hx1. rewrite lookup_insert_eq in Hx1.
  injection Hx1 as <-. done.
Qed.

Lemma pending_fuel h : (pending h < clear_fuel h)%nat.
Proof. unfold pending, clear_fuel. pose proof (map_size_filter (λ '(_, x), downstreamPending x = true) (mshrs h)). lia. Qed.

(** Clearing the flags of the caches above terminates: each call of the mutually recursive
    functions finds a flag set and clears it, so their depth is bounded by the number of
    MSHRs.  Nothing but flags is changed, flags are only cleared, and the flag of the MSHR
    itself is; the same holds for putting an MSHR in service, which starts such a wave. *)
Theorem clearDownstreamPending_terminates (h : Heap) (m : positive) (b : bool) :
  stacks_ok h →
  clearDownstreamPending m h ≠ Fail OutOfFuel ∧
  (∀ h', clearDownstreamPending m h = Ok h' →
     cleared h h' ∧ ∃ x, mshrs h' !! m = Some x ∧ downstreamPending x = false) ∧
  MSHR.markInService m b h ≠ Fail OutOfFuel.
Proof.
  intros Hs. destruct (clear_pending_spec (clear_fuel h) m h Hs (pending_fuel h)) as [Hp Hok].
  split; [done|]. split; [done|]. unfold MSHR.markInService, upd, get_mshr.
  destruct (mshrs h !! m) as [x|] eqn:Hm; [|done]. cbn [deref mbind res_bind].
  destruct (inService x); [done|]. cbn [negb assert_ mbind res_bind].
  destruct (downstreamPending x); [done|]. cbn [negb]. unfold list_clearDownstreamPending.
  set (h1 := with_mshr _ _ _). apply (clear_list_spec (clear_pending (clear_fuel h1))); [done|].
  intros m' h2 Hc. destruct (clear_pending_spec (clear_fuel h1) m' h2) as [Hp2 Hok2].
  - by eapply cleared_stacks.
  - pose proof (pending_cleared h1 h2 Hc). pose proof (pending_fuel h1). lia.
  - split; [done|]. intros h3 Hh3. by apply Hok2.
Qed.

(** ** Adding a target *)

(** An MSHR without its [downstreamPending] flag, which other caches change. *)
Abbreviation dp0 := (with_downstreamPending false).

Definition set_list (w : which) (l : TargetList) (x : MSHR) : MSHR :=
  match w with
  | Targets => with_lists l (deferredTargets x) x
  | Deferred => with_lists (targets x) l x
  end.

(** The requests [replaceUpgrade] is for. *)
Definition upgrade (c : MemCmd.Command) : bool :=
  MemCmd.isUpgrade c || bool_decide (c = MemCmd.StoreCondReq).

Definition from_snoop (s : Source) : bool := bool_decide (s = FromSnoop).

(** The list with target [t] for packet [p] added. *)
Definition appended (t : Target) (p : Packet.Packet) (l : TargetList) : TargetList :=
  TargetList.mkList (items l ++ [t])
    (TargetList.needsWritable l || (negb (from_snoop (source t)) && MemCmd.needsWritable (Packet.cmd p)))
    (TargetList.hasUpgrade l || (negb (from_snoop (source t)) && upgrade (Packet.cmd p))).

(** The packet's next upstream MSHR, if any, can be marked. *)
Definition markable (h : Heap) (p : Packet.Packet) : Prop :=
  ∃ o, next_mshr h p = Ok o ∧
    match o with
    | Some a => ∃ x, mshrs h !! a = Some x ∧ downstreamPending x = false
    | None => True
    end.

(** The heap [h'] is [h] but for [downstreamPending] flags and the MSHR at [m], which is [x]. *)
Definition becomes (h h' : Heap) (m : positive) (x : MSHR) : Prop :=
  memory h' = memory h ∧ states h' = states h ∧ pkts h' = pkts h ∧
  ∀ m', (dp0 <$> mshrs h' !! m') = if decide (m' = m) then Some (dp0 x) else dp0 <$> mshrs h !! m'.

Lemma becomes_at h h' m x :
  becomes h h' m x → ∃ x', mshrs h' !! m = Some x' ∧ dp0 x' = dp0 x.
Proof.
  intros (_ & _ & _ & Hm). specialize (Hm m). rewrite decide_True in Hm by done.
  destruct (mshrs h' !! m) as [x'|]; [|done]. exists x'. split; [done|]. by apply (inj Some) in Hm.
Qed.

Lemma upd_list_at m w f h x :
  mshrs h !! m = Some x → upd_list m w f h = Ok (with_mshr m (set_list w (f (list_of w x)) x) h).
Proof.
  intros Hm. unfold upd_list, upd, get_mshr. rewrite Hm. cbn [deref mbind res_bind]. by destruct w.
Qed.

Lemma list_of_set w l x : list_of w (set_list w l x) = l.
Proof. by destruct w. Qed.

Lemma set_list_twice w l l' x : set_list w l (set_list w l' x) = set_list w l x.
Proof. by destruct w. Qed.

Lemma dp0_set w l x : dp0 (set_list w l x) = set_list w l (dp0 x).
Proof. by destruct w. Qed.

(** The flags [add] sets before it marks and appends. *)
Lemma add_flags (src : Source) m w p h x :
  mshrs h !! m = Some x → (src ≠ FromSnoop → Packet.isRequest p = true) →
  ∃ l, items l = items (list_of w x) ∧
    TargetList.needsWritable l = TargetList.needsWritable (list_of w x) ||
      (negb (from_snoop src) && MemCmd.needsWritable (Packet.cmd p)) ∧
    TargetList.hasUpgrade l = TargetList.hasUpgrade (list_of w x) ||
      (negb (from_snoop src) && upgrade (Packet.cmd p)) ∧
    (if decide (src ≠ FromSnoop) then
       nw ← Packet.needsWritable p;
       h ← (if nw : bool then upd_list m w (TargetList.with_needsWritable true) h else Ok h);
       if Packet.isUpgrade p || bool_decide (Packet.cmd p = MemCmd.StoreCondReq)
       then upd_list m w (TargetList.with_hasUpgrade true) h else Ok h
     else Ok h) = Ok (with_mshr m (set_list w l x) h).
Proof.
  intros Hm Hreq. assert (with_mshr m (set_list w (list_of w x) x) h = h) as Hid.
  { assert (set_list w (list_of w x) x = x) as -> by (by destruct w, x).
    unfold with_mshr. rewrite insert_id by done. by destruct h. }
  destruct (decide (src ≠ FromSnoop)) as [Hsrc|Hsrc].
  2: { exists (list_of w x). unfold from_snoop. rewrite bool_decide_eq_true_2 by (by apply dec_stable).
       cbn [negb andb]. rewrite !orb_false_r. split_and!; try done. by rewrite Hid. }
  unfold from_snoop. rewrite bool_decide_eq_false_2 by done. cbn [negb andb].
  unfold Packet.needsWritable. rewrite Hreq by done. cbn [assert_ mbind res_bind].
  fold (upgrade (Packet.cmd p)). change (Packet.isUpgrade p || _) with (upgrade (Packet.cmd p)).
  destruct (MemCmd.needsWritable (Packet.cmd p)).
  - rewrite (upd_list_at m w _ h x Hm). cbn [mbind res_bind]. rewrite orb_true_r.
    destruct (upgrade (Packet.cmd p)).
    + erewrite upd_list_at by apply lookup_insert_eq. rewrite orb_true_r.
      unfold with_mshr at 1. cbn. rewrite insert_insert_eq, set_list_twice, list_of_set.
      eexists. split; [|split; [|split; [|reflexivity]]]; done.
    + rewrite orb_false_r. eexists. split; [|split; [|split; [|reflexivity]]]; done.
  - cbn [mbind res_bind]. rewrite orb_false_r. destruct (upgrade (Packet.cmd p)).
    + rewrite (upd_list_at m w _ h x Hm), orb_true_r. eexists. split; [|split; [|split; [|reflexivity]]]; done.
    + rewrite orb_false_r. exists (list_of w x). rewrite Hid. done.
Qed.

Lemma add_ok now m w a rt o src mp h p x :
  pkts h !! a = Some p → mshrs h !! m = Some x →
  (src ≠ FromSnoop → Packet.isRequest p = true) → (mp = true → markable h p) →
  ∃ h' mk, add now m w a rt o src mp h = Ok h' ∧
    becomes h h' m (set_list w (appended (mkTarget now rt o a src mk) p (list_of w x)) x).
Proof.
  intros Hp Hm Hreq Hmk. unfold add, get_pkt. rewrite Hp. cbn [deref mbind res_bind].
  destruct (add_flags src m w p h x Hm Hreq) as (l & Hi & Hnw & Hup & ->). cbn [mbind res_bind].
  set (h1 := with_mshr m (set_list w l x) h).
  assert (Hfin : ∀ h2 mk x2, mshrs h2 !! m = Some x2 → dp0 x2 = dp0 (set_list w l x) →
    memory h2 = memory h → states h2 = states h → pkts h2 = pkts h →
    (∀ m', m' ≠ m → (dp0 <$> mshrs h2 !! m') = (dp0 <$> mshrs h !! m')) →
    ∃ h', upd_list m w (λ l, TargetList.with_items (items l ++ [mkTarget now rt o a src mk]) l) h2 = Ok h' ∧
      becomes h h' m (set_list w (appended (mkTarget now rt o a src mk) p (list_of w x)) x)).
  { intros h2 mk x2 Hm2 Hd2 Hme Hst Hpk Hoth. rewrite (upd_list_at m w _ h2 x2 Hm2).
    eexists. split; [done|]. split_and!; [done..|]. intros m'. cbn [mshrs with_mshr].
    destruct (decide (m' = m)) as [->|Hne].
    - rewrite lookup_insert_eq. cbn. f_equal.
      assert (list_of w x2 = l) as ->.
      { pose proof (f_equal (list_of w) Hd2) as Hl. by destruct w. }
      unfold appended, TargetList.with_items. rewrite Hnw, Hup, Hi.
      by rewrite dp0_set, Hd2, dp0_set, set_list_twice, <- dp0_set.
    - rewrite lookup_insert_ne by done. by apply Hoth. }
  destruct mp.
  2: { cbn [mbind res_bind]. destruct (Hfin h1 false (set_list w l x)) as (h' & Hh' & Hb); try done.
       - apply lookup_insert_eq.
       - intros m' Hne. unfold h1. cbn. by rewrite lookup_insert_ne.
       - by exists h', false. }
  destruct (Hmk eq_refl) as (on & Hn & Hon).
  assert (next_mshr h1 p = Ok on) as -> by done. cbn [mbind res_bind]. destruct on as [u|].
  2: { cbn [mbind res_bind]. destruct (Hfin h1 false (set_list w l x)) as (h' & Hh' & Hb); try done.
       - apply lookup_insert_eq.
       - intros m' Hne. unfold h1. cbn. by rewrite lookup_insert_ne.
       - by exists h', false. }
  destruct Hon as (xu & Hu & Hpu).
  assert (∃ xu1, mshrs h1 !! u = Some xu1 ∧ downstreamPending xu1 = false ∧
    dp0 xu1 = dp0 (if decide (u = m) then set_list w l x else xu)) as (xu1 & Hu1 & Hpu1 & Hd1).
  { unfold h1. cbn. destruct (decide (u = m)) as [->|].
    - rewrite lookup_insert_eq. eexists. split; [done|]. split; [|done].
      rewrite Hm in Hu. injection Hu as <-. by destruct w.
    - rewrite lookup_insert_ne by done. by exists xu. }
  unfold upd, get_mshr. rewrite Hu1. cbn [deref mbind res_bind]. rewrite Hpu1.
  cbn [negb assert_ mbind res_bind]. set (h2 := with_mshr u _ h1).
  assert (∃ x2, mshrs h2 !! m = Some x2 ∧ dp0 x2 = dp0 (set_list w l x)) as (x2 & Hx2 & Hd2).
  { unfold h2. cbn. destruct (decide (u = m)) as [->|].
    - rewrite lookup_insert_eq. eexists. split; [done|]. by rewrite <- Hd1.
    - rewrite lookup_insert_ne by done. rewrite lookup_insert_eq. by eexists. }
  destruct (Hfin h2 true x2) as (h' & Hh' & Hb); try done; [|by exists h', true].
  intros m' Hne. unfold h2, h1. cbn. destruct (decide (u = m')) as [->|].
  - rewrite lookup_insert_eq, Hu. rewrite decide_False in Hd1 by done. cbn. f_equal. by rewrite <- Hd1.
  - by rewrite !lookup_insert_ne by done.
Qed.

(** ** Replacing upgrades *)

(** A packet without payload has no data attached and knows its size. *)
Definition payload_ok (p : Packet.Packet) : Prop :=
  Packet.hasData p || Packet.hasRespData p = false →
  Flags.noneSet (Packet.flags p) Packet.DATA_FLAGS = true ∧
  Flags.isSet (Packet.flags p) Packet.VALID_SIZE = true.

(** Facts of the command table. *)
Lemma replaced_no_data c :
  MemCmd.hasData c || MemCmd.hasData (MemCmd.responseCommand c) = false →
  MemCmd.hasData (replaced_cmd c) = false.
Proof. by destruct c. Qed.

Lemma replaced_data c :
  MemCmd.hasData c || MemCmd.hasData (MemCmd.responseCommand c) = true →
  MemCmd.hasData (replaced_cmd c) || MemCmd.hasData (MemCmd.responseCommand (replaced_cmd c)) = true.
Proof. by destruct c. Qed.

Lemma replaced_idem c : replaced_cmd (replaced_cmd c) = replaced_cmd c.
Proof. by destruct c. Qed.

Lemma replaced_not_upgrade c : MemCmd.isRequest c = true → upgrade (replaced_cmd c) = false.
Proof. by destruct c. Qed.

Lemma replaced_writable c : MemCmd.needsWritable (replaced_cmd c) = MemCmd.needsWritable c.
Proof. by destruct c. Qed.

Lemma replaced_request c : MemCmd.isRequest (replaced_cmd c) = MemCmd.isRequest c.
Proof. by destruct c. Qed.

(** [p'] is [p] with its upgrade replaced: another command and perhaps a payload. *)
Definition downgraded (p p' : Packet.Packet) : Prop :=
  Packet.cmd p' = replaced_cmd (Packet.cmd p) ∧ Packet.req p' = Packet.req p ∧
  Packet.addr p' = Packet.addr p ∧ Packet.size p' = Packet.size p ∧
  Packet.senderState p' = Packet.senderState p ∧ payload_ok p'.

Lemma replaceUpgrade_ok uninit a h p :
  pkts h !! a = Some p → payload_ok p →
  ∃ h' p', replaceUpgrade uninit a h = Ok h' ∧ downgraded p p' ∧ pkts h' = <[a := p']> (pkts h) ∧
    mshrs h' = mshrs h ∧ states h' = states h.
Proof.
  intros Hp Hpay. unfold replaceUpgrade, get_pkt. rewrite Hp. cbn [deref mbind res_bind].
  set (p1 := Packet.with_cmd _ p).
  destruct (Packet.hasData p || Packet.hasRespData p) eqn:Hd; cbn [negb].
  { eexists _, p1. split; [done|]. split_and!; try done. red. split_and!; try done.
    intros Hn. pose proof (replaced_data _ Hd) as Hr. unfold Packet.hasData, Packet.hasRespData in Hn.
    change (Packet.cmd p1) with (replaced_cmd (Packet.cmd p)) in Hn. congruence. }
  destruct (Hpay Hd) as [Hnone Hsize]. pose proof (replaced_no_data _ Hd) as Hnd.
  rewrite bind_assert by (change (negb (MemCmd.hasData (replaced_cmd (Packet.cmd p))) = true); by rewrite Hnd).
  destruct (Packet.hasRespData p1) eqn:Hr.
  - unfold Packet.allocate. rewrite Hr, orb_true_r. rewrite bind_assert by done.
    unfold Packet.getSize. cbn [Packet.flags Packet.with_flags Packet.size p1 Packet.with_cmd].
    assert (Flags.isSet (Flags.set (Packet.flags p) Packet.DYNAMIC_DATA) Packet.VALID_SIZE = true) as Hv.
    { unfold Flags.isSet, Flags.set in *. apply negb_true_iff, Z.eqb_neq. apply negb_true_iff, Z.eqb_neq in Hsize.
      intros H0. apply Hsize. rewrite Z.land_lor_distr_l in H0. by apply Z.lor_eq_0_iff in H0 as [? _]. }
    rewrite bind_assert by done. cbn [mbind res_bind]. eexists _, _. split; [reflexivity|].
    split_and!; try done. red. split_and!; try done. intros Hn. exfalso.
    change (Packet.hasData p1 || Packet.hasRespData p1 = false) in Hn. by rewrite Hr, orb_true_r in Hn.
  - eexists _, p1. split; [done|]. split_and!; try done.
Qed.

Lemma downgraded_twice p p' p'' : downgraded p p' → downgraded p' p'' → downgraded p p''.
Proof.
  intros (Hc & ? & ? & ? & ? & _) (Hc' & ? & ? & ? & ? & ?). red.
  rewrite Hc', Hc, replaced_idem. split_and!; congruence || done.
Qed.

(** Replacing the upgrades of a list of targets. *)
Definition targets_ok (h : Heap) (l : list Target) : Prop :=
  ∀ t, t ∈ l → ∃ p, pkts h !! Target.pkt t = Some p ∧ payload_ok p.

Lemma replace_all_ok uninit l h :
  targets_ok h l →
  ∃ h', for_targets (λ t, replaceUpgrade uninit (Target.pkt t)) l h = Ok h' ∧
    mshrs h' = mshrs h ∧ states h' = states h ∧
    (∀ t p, t ∈ l → pkts h !! Target.pkt t = Some p →
       ∃ p', pkts h' !! Target.pkt t = Some p' ∧ downgraded p p') ∧
    (∀ a, (∀ t, t ∈ l → Target.pkt t ≠ a) → pkts h' !! a = pkts h !! a).
Proof.
  revert h. induction l as [|t l IH]; intros h Hok.
  { exists h. split_and!; try done. intros t p Ht. by apply elem_of_nil in Ht. }
  cbn [for_targets]. destruct (Hok t) as (p & Hp & Hpay); [by left|].
  destruct (replaceUpgrade_ok uninit _ h p Hp Hpay) as (h1 & p1 & -> & Hd & Hpk & Hms & Hst).
  cbn [mbind res_bind]. destruct (IH h1) as (h' & -> & Hms' & Hst' & Hall & Hoth).
  { intros t' Ht'. destruct (decide (Target.pkt t' = Target.pkt t)) as [->|Hne].
    - exists p1. rewrite Hpk, lookup_insert_eq. split; [done|]. apply Hd.
    - rewrite Hpk, lookup_insert_ne by done. apply Hok. by right. }
  exists h'. split_and!; [done|congruence|congruence| |].
  - intros t' p0 Ht' Hp0. destruct (decide (Target.pkt t' ∈ Target.pkt <$> l)) as [Hin|Hno].
    + apply list_elem_of_fmap in Hin as (t2 & He & Ht2). assert (∃ p2, pkts h1 !! Target.pkt t' = Some p2 ∧ (p2 = p0 ∨ downgraded p0 p2)) as (p2 & Hp2 & Hor).
      { rewrite Hpk. destruct (decide (Target.pkt t = Target.pkt t')) as [Hee|].
        - rewrite Hee, lookup_insert_eq. exists p1. split; [done|]. right. congruence.
        - rewrite lookup_insert_ne by done. exists p0. auto. }
      destruct (Hall t2 p2 Ht2) as (p' & Hp' & Hd'); [by rewrite <- He|]. exists p'. rewrite He.
      split; [done|]. destruct Hor as [->|Hd1]; [done|]. by eapply downgraded_twice.
    + apply elem_of_cons in Ht' as [->|Ht']; [|exfalso; apply Hno, list_elem_of_fmap; by exists t'].
      rewrite Hoth by (intros t2 Ht2 He; apply Hno, list_elem_of_fmap; by exists t2).
      rewrite Hpk, lookup_insert_eq. exists p1. split; [done|]. congruence.
  - intros a Ha. rewrite Hoth by (intros t' Ht'; apply Ha; by right).
    rewrite Hpk. apply lookup_insert_ne. apply Ha. by left.
Qed.

(** Packets that are the same or had their upgrade replaced. *)
Definition pkts_step (h h' : Heap) : Prop :=
  ∀ a p, pkts h !! a = Some p → ∃ p', pkts h' !! a = Some p' ∧ (p' = p ∨ downgraded p p').

Lemma pkts_step_trans h1 h2 h3 : pkts_step h1 h2 → pkts_step h2 h3 → pkts_step h1 h3.
Proof.
  intros H12 H23 a p Hp. destruct (H12 a p Hp) as (p2 & Hp2 & Hor2).
  destruct (H23 a p2 Hp2) as (p3 & Hp3 & Hor3). exists p3. split; [done|].
  destruct Hor2 as [->|Hd2], Hor3 as [->|Hd3]; auto. right. by eapply downgraded_twice.
Qed.

Lemma targets_ok_step h h' l : pkts_step h h' → targets_ok h l → targets_ok h' l.
Proof.
  intros Hs Hok t Ht. destruct (Hok t Ht) as (p & Hp & Hpay). destruct (Hs _ p Hp) as (p' & Hp' & Hor).
  exists p'. split; [done|]. destruct Hor as [->|Hd]; [done|]. apply Hd.
Qed.

Lemma replaceUpgrades_ok uninit m w h x :
  mshrs h !! m = Some x → targets_ok h (items (list_of w x)) →
  ∃ h', replaceUpgrades uninit m w h = Ok h' ∧ states h' = states h ∧
    mshrs h' = <[m := set_list w (TargetList.with_hasUpgrade false (list_of w x)) x]> (mshrs h) ∧
    pkts_step h h' ∧
    (TargetList.hasUpgrade (list_of w x) = true → ∀ t p, t ∈ items (list_of w x) →
       pkts h !! Target.pkt t = Some p → ∃ p', pkts h' !! Target.pkt t = Some p' ∧ downgraded p p') ∧
    (∀ a, (∀ t, t ∈ items (list_of w x) → Target.pkt t ≠ a) → pkts h' !! a = pkts h !! a).
Proof.
  intros Hm Hok. unfold replaceUpgrades, get_mshr. rewrite Hm. cbn [deref mbind res_bind].
  destruct (TargetList.hasUpgrade (list_of w x)) eqn:Hu; cbn [negb].
  2: { exists h. split_and!; try done.
       - rewrite insert_id; [done|]. rewrite Hm. f_equal.
         destruct w, x as [? ? ? ? ? ? ? ? ? ? ? ? ? [? ? ?] [? ? ?]]; cbn in *; by subst.
       - intros a p Hp. exists p. auto. }
  destruct (replace_all_ok uninit (items (list_of w x)) h Hok) as (h1 & -> & Hms & Hst & Hall & Hoth).
  cbn [mbind res_bind]. erewrite upd_list_at by (rewrite Hms; done).
  eexists. split; [done|]. cbn. split_and!; try done; [by rewrite Hms|].
  intros a p Hp. destruct (decide (a ∈ Target.pkt <$> items (list_of w x))) as [Hin|Hno].
  - apply list_elem_of_fmap in Hin as (t & -> & Ht). destruct (Hall t p Ht Hp) as (p' & ? & ?).
    exists p'. auto.
  - exists p. rewrite Hoth; [auto|]. intros t Ht <-. apply Hno. by apply list_elem_of_fmap_2.
Qed.

(** The flags of a list cover its targets: a target from above is a request, and if it needs
    a writable copy or is an upgrade the list says so. *)
Definition flags_ok (h : Heap) (l : TargetList) : Prop :=
  ∀ t p, t ∈ items l → source t ≠ FromSnoop → pkts h !! Target.pkt t = Some p →
    Packet.isRequest p = true ∧
    (MemCmd.needsWritable (Packet.cmd p) = true → TargetList.needsWritable l = true) ∧
    (upgrade (Packet.cmd p) = true → TargetList.hasUpgrade l = true).

(** No target from above is an upgrade. *)
Definition no_upgrade (h : Heap) (l : list Target) : Prop :=
  ∀ t p, t ∈ l → source t ≠ FromSnoop → pkts h !! Target.pkt t = Some p → upgrade (Packet.cmd p) = false.

Lemma replaceUpgrades_none uninit m w h h' x :
  mshrs h !! m = Some x → targets_ok h (items (list_of w x)) → flags_ok h (list_of w x) →
  replaceUpgrades uninit m w h = Ok h' → no_upgrade h' (items (list_of w x)).
Proof.
  intros Hm Hok Hfl Hr. destruct (replaceUpgrades_ok uninit m w h x Hm Hok) as (h1 & Hr1 & _ & _ & Hst & Hall & _).
  rewrite Hr in Hr1. injection Hr1 as <-. intros t p' Ht Hsrc Hp'. destruct (Hok t Ht) as (p & Hp & _).
  destruct (Hfl t p Ht Hsrc Hp) as (Hreq & _ & Hup).
  destruct (TargetList.hasUpgrade (list_of w x)) eqn:Hu.
  - destruct (Hall eq_refl t p Ht Hp) as (p2 & Hp2 & Hd). rewrite Hp' in Hp2. injection Hp2 as <-.
    destruct Hd as (-> & _). by apply replaced_not_upgrade.
  - destruct (Hst _ p Hp) as (p2 & Hp2 & Hor). rewrite Hp' in Hp2. injection Hp2 as <-.
    destruct Hor as [->|(-> & _)]; [|by apply replaced_not_upgrade].
    destruct (upgrade (Packet.cmd p)); [|done]. by specialize (Hup eq_refl).
Qed.

Lemma no_upgrade_step h h' l : pkts_step h h' → targets_ok h l → 
  (∀ t p, t ∈ l → source t ≠ FromSnoop → pkts h !! Target.pkt t = Some p → Packet.isRequest p = true) →
  no_upgrade h l → no_upgrade h' l.
Proof.
  intros Hs Hok Hreq Hno t p' Ht Hsrc Hp'. destruct (Hok t Ht) as (p & Hp & _).
  destruct (Hs _ p Hp) as (p2 & Hp2 & Hor). rewrite Hp' in Hp2. injection Hp2 as <-.
  destruct Hor as [->|(-> & _)]; [by eapply Hno|]. apply replaced_not_upgrade. by eapply Hreq.
Qed.

Lemma flags_ok_step h h' l : pkts_step h h' → targets_ok h (items l) → flags_ok h l → flags_ok h' l.
Proof.
  intros Hs Hok Hfl t p' Ht Hsrc Hp'. destruct (Hok t Ht) as (p & Hp & _).
  destruct (Hs _ p Hp) as (p2 & Hp2 & Hor). rewrite Hp' in Hp2. injection Hp2 as <-.
  destruct (Hfl t p Ht Hsrc Hp) as (Hreq & Hnw & Hup). destruct Hor as [->|(Hc & _)]; [done|].
  unfold Packet.isRequest in *. rewrite Hc, replaced_request, replaced_writable.
  split_and!; [done|done|]. rewrite replaced_not_upgrade by done. done.
Qed.

(** ** Snoops *)

(** The packets of both lists and their flags are in order. *)
Definition mshr_ok (h : Heap) (x : MSHR) : Prop :=
  ∀ w, targets_ok h (items (list_of w x)) ∧ flags_ok h (list_of w x).

(** C22: a snoop that is ordered before the MSHR's own request, which has not been sent or is
    still buffered in a cache below, is left to the cache ([handleSnoop] returns false).
    The MSHR keeps its targets and flags; if the snoop invalidates, no upgrade is left among
    the requests waiting in the MSHR, and otherwise nothing changes at all. *)
Theorem snoop_before_request (uninit : nat → Z) (now order : Z) (m a : positive) (h : Heap)
    (p : Packet.Packet) (x : MSHR) :
  pkts h !! a = Some p → mshrs h !! m = Some x → mshr_ok h x → Packet.isRequest p = true →
  MemCmd.needsWritable (Packet.cmd p) = Packet.isInvalidate p →
  inService x = false ∨ (Packet.isExpressSnoop p = true ∧ downstreamPending x = true) →
  ∃ h' x', handleSnoop uninit now m a order h = Ok (h', false) ∧ mshrs h' !! m = Some x' ∧
    (∀ w, items (list_of w x') = items (list_of w x)) ∧
    set_list Targets (targets x) (set_list Deferred (deferredTargets x) x') = x ∧
    (if MemCmd.needsWritable (Packet.cmd p)
     then ∀ w, no_upgrade h' (items (list_of w x)) else h' = h).
Proof.
  intros Hp Hm Hok Hreq Hinv Hbefore. unfold handleSnoop, get_pkt. rewrite Hp. cbn [deref mbind res_bind].
  unfold Packet.needsWritable. rewrite Hreq. cbn [assert_ mbind res_bind].
  rewrite Hinv, Bool.eqb_reflx. cbn [negb]. unfold get_mshr. rewrite Hm. cbn [deref mbind res_bind].
  replace (negb (inService x) || (Packet.isExpressSnoop p && downstreamPending x)) with true.
  2: { destruct Hbefore as [->|[-> ->]]; [done|by rewrite orb_true_r]. }
  destruct (Packet.isInvalidate p).
  2: { exists h, x. split_and!; try done. by destruct x. }
  destruct (Hok Targets) as [Hto Hft], (Hok Deferred) as [Hdo Hfd].
  destruct (replaceUpgrades_ok uninit m Targets h x Hm Hto) as (h1 & Hr1 & _ & Hms1 & Hst1 & _).
  rewrite Hr1. cbn [mbind res_bind]. set (x1 := set_list Targets _ x) in Hms1.
  assert (mshrs h1 !! m = Some x1) as Hm1 by (rewrite Hms1; apply lookup_insert_eq).
  destruct (replaceUpgrades_ok uninit m Deferred h1 x1 Hm1) as (h2 & Hr2 & _ & Hms2 & Hst2 & _).
  { by eapply targets_ok_step. }
  rewrite Hr2. cbn [mbind res_bind]. eexists h2, _. split; [done|].
  split; [rewrite Hms2; apply lookup_insert_eq|]. split; [by intros []|].
  split; [by destruct x|]. intros [].
  - eapply no_upgrade_step; [done|by eapply targets_ok_step| |].
    + intros t p' Ht Hsrc Hp'. by destruct (flags_ok_step h h1 (targets x) Hst1 Hto Hft t p' Ht Hsrc Hp').
    + by eapply (replaceUpgrades_none uninit m Targets h h1 x).
  - apply (replaceUpgrades_none uninit m Deferred h1 h2 x1 Hm1); [by eapply targets_ok_step| |done].
    by eapply flags_ok_step.
Qed.

(** The copy kept of a snooped packet is a new packet with the same command and request. *)
Lemma copy_snoop_ok uninit b p h :
  Flags.isSet (Packet.flags p) Packet.VALID_SIZE = true →
  ∃ h' c, copy_snoop uninit b p h = Ok (fresh (dom (pkts h)), h') ∧
    pkts h' = <[fresh (dom (pkts h)) := c]> (pkts h) ∧ mshrs h' = mshrs h ∧ states h' = states h ∧
    Packet.cmd c = Packet.cmd p ∧ Packet.req c = Packet.req p.
Proof.
  intros Hsz. unfold copy_snoop. destruct b.
  - unfold Packet.copyPacket. cbn [negb]. destruct (Flags.isSet (Packet.flags p) Packet.STATIC_DATA).
    { cbn [mbind res_bind]. eexists _, _. split; [reflexivity|]. done. }
    unfold Packet.allocate. set (f := Flags.set 0 _).
    match goal with |- context [if ?c then _ else _] => destruct c end.
    2: { cbn [mbind res_bind]. eexists _, _. split; [reflexivity|]. done. }
    cbn [Packet.flags].
    assert (Flags.noneSet f Packet.DATA_FLAGS = true) as Hn.
    { unfold f, Flags.noneSet, Flags.set. rewrite Z.lor_0_l, <- Z.land_assoc.
      change (Z.land (Z.lor Packet.VALID_ADDR Packet.VALID_SIZE) Packet.DATA_FLAGS) with 0.
      by rewrite Z.land_0_r. }
    rewrite bind_assert by done. unfold Packet.getSize. cbn [Packet.flags Packet.with_flags Packet.size].
    assert (Flags.isSet (Flags.set f Packet.DYNAMIC_DATA) Packet.VALID_SIZE = true) as Hv.
    { change Packet.VALID_SIZE with (2 ^ 9) in *. rewrite Flags.isSet_set by done.
      unfold f. rewrite Flags.isSet_set by done. rewrite !Flags.isSet_pow2, Z.land_spec by done.
      rewrite Flags.isSet_pow2 in Hsz by done. by rewrite Hsz. }
    rewrite bind_assert by done. cbn [mbind res_bind]. eexists _, _. split; [reflexivity|]. done.
  - unfold Packet.newPacket, Request.getPaddr, Request.getSize, Request.hasPaddr, Request.hasSize.
    destruct (Flags.isSet _ Request.VALID_PADDR), (Flags.isSet _ Request.VALID_SIZE);
      cbn [assert_ mbind res_bind]; eexists _, _; (split; [reflexivity|]); done.
Qed.

(** Marking the snooped packet as answered by this cache. *)
Lemma respond_ok (p : Packet.Packet) :
  Packet.isRequest p = true → Packet.cacheResponding p = false →
  ∃ p', (p ← Packet.setCacheResponding p; Packet.setResponderHadWritable p) = Ok p' ∧
    Packet.cacheResponding p' = true ∧ Packet.hasSharers p' = Packet.hasSharers p ∧
    Packet.cmd p' = Packet.cmd p ∧ Packet.req p' = Packet.req p.
Proof.
  intros Hreq Hno. unfold Packet.setCacheResponding. rewrite Hreq. cbn [assert_ mbind res_bind].
  unfold Packet.cacheResponding in Hno. rewrite Hno. cbn [negb assert_ mbind res_bind].
  unfold Packet.setResponderHadWritable, Packet.cacheResponding. cbn [Packet.flags Packet.with_flags].
  assert (Flags.isSet (Flags.set (Packet.flags p) Packet.CACHE_RESPONDING) Packet.CACHE_RESPONDING = true) as Hs.
  { change Packet.CACHE_RESPONDING with (2 ^ 3). rewrite Flags.isSet_set by done. apply orb_true_r. }
  rewrite bind_assert by done. eexists. split; [done|]. cbn. split_and!; try done.
  - change Packet.CACHE_RESPONDING with (2 ^ 3) in *. rewrite Flags.isSet_set by done. by rewrite Hs.
  - unfold Packet.hasSharers. cbn. change Packet.HAS_SHARERS with (2 ^ 0).
    rewrite !Flags.isSet_set by done. by rewrite !orb_false_r.
Qed.

Lemma sharers_ok (p : Packet.Packet) :
  Packet.hasSharers (Packet.setHasSharers p) = true ∧
  Packet.cacheResponding (Packet.setHasSharers p) = Packet.cacheResponding p.
Proof.
  unfold Packet.hasSharers, Packet.cacheResponding, Packet.setHasSharers. cbn.
  change Packet.HAS_SHARERS with (2 ^ 0). change Packet.CACHE_RESPONDING with (2 ^ 3).
  rewrite !Flags.isSet_set by done. split; [apply orb_true_r|apply orb_false_r].
Qed.

(** Whether this cache will answer the snooped packet. *)
Definition responds (pm : bool) (p : Packet.Packet) : bool :=
  pm && Packet.needsResponse p && bool_decide (Packet.cmd p ≠ MemCmd.InvalidateReq).

Lemma keep_snoop_ok uninit now m a o nw p h x :
  pkts h !! a = Some p → mshrs h !! m = Some x → downstreamPending x = false →
  Packet.isRequest p = true → Packet.cacheResponding p = false →
  Flags.isSet (Packet.flags p) Packet.VALID_SIZE = true →
  ∃ h' x' p' t c, keep_snoop uninit now m a o nw (pendingModified x) p h = Ok h' ∧
    mshrs h' !! m = Some x' ∧
    dp0 x' = dp0 (with_post (pendingModified x) (nw || postInvalidate x) (postDowngrade x)
                    (set_list Targets (TargetList.with_items (items (targets x) ++ [t]) (targets x)) x)) ∧
    source t = FromSnoop ∧ pkts h !! Target.pkt t = None ∧ pkts h' !! Target.pkt t = Some c ∧
    Packet.cmd c = Packet.cmd p ∧
    pkts h' !! a = Some p' ∧ Packet.cacheResponding p' = responds (pendingModified x) p ∧
    Packet.hasSharers p' = Packet.hasSharers p ∧ Packet.cmd p' = Packet.cmd p ∧
    (∀ b, b ≠ a → b ≠ Target.pkt t → pkts h' !! b = pkts h !! b).
Proof.
  intros Hp Hm Hdp Hreq Hnr Hsz. unfold keep_snoop. fold (responds (pendingModified x) p).
  destruct (copy_snoop_ok uninit (responds (pendingModified x) p) p h Hsz)
    as (h1 & c & -> & Hpk1 & Hms1 & Hst1 & Hcc & Hcr).
  cbn [mbind res_bind]. set (cp := fresh (dom (pkts h))) in *.
  assert (pkts h !! cp = None) as Hcp by (apply not_elem_of_dom, is_fresh).
  assert (cp ≠ a) as Hne by congruence.
  assert (pkts h1 !! a = Some p) as Hp1 by (rewrite Hpk1; by rewrite lookup_insert_ne).
  assert (∃ h2 p', (if responds (pendingModified x) p then
      p ← get_pkt h1 a; p ← (p ← Packet.setCacheResponding p; Packet.setResponderHadWritable p);
      Ok (with_pkt a p h1) else Ok h1) = Ok h2 ∧ pkts h2 = <[a := p']> (pkts h1) ∧ mshrs h2 = mshrs h ∧
      Packet.cacheResponding p' = responds (pendingModified x) p ∧
      Packet.hasSharers p' = Packet.hasSharers p ∧ Packet.cmd p' = Packet.cmd p)
    as (h2 & p' & -> & Hpk2 & Hms2 & Hresp & Hsh & Hcmd).
  { destruct (responds (pendingModified x) p).
    - unfold get_pkt. rewrite Hp1. cbn [deref mbind res_bind].
      destruct (respond_ok p Hreq Hnr) as (p' & -> & ? & ? & ? & ?). cbn [mbind res_bind].
      eexists _, p'. done.
    - exists h1, p. rewrite insert_id by done. split_and!; done. }
  cbn [mbind res_bind]. unfold get_mshr. rewrite Hms2, Hm. cbn [deref mbind res_bind].
  rewrite Hdp. cbn [andb].
  assert (pkts h2 !! cp = Some c) as Hc2.
  { rewrite Hpk2, lookup_insert_ne by done. rewrite Hpk1. apply lookup_insert_eq. }
  destruct (add_ok now m Targets cp now o FromSnoop false h2 c x Hc2) as (h3 & mk & -> & Hb);
    [by rewrite Hms2|done|done|].
  cbn [mbind res_bind]. destruct (becomes_at _ _ _ _ Hb) as (x3 & Hm3 & Hd3).
  destruct Hb as (_ & _ & Hpk3 & _). set (t := mkTarget now now o cp FromSnoop mk) in *.
  assert (Happ : appended t c (targets x) = TargetList.with_items (items (targets x) ++ [t]) (targets x)).
  { unfold appended. cbn. by rewrite !orb_false_r. }
  cbn [list_of] in Hd3. rewrite Happ in Hd3.
  assert (∃ h', (if nw then upd m (λ x0, with_post (pendingModified x0) true (postDowngrade x0) x0) h3 else Ok h3) = Ok h' ∧
    pkts h' = pkts h3 ∧ ∃ x', mshrs h' !! m = Some x' ∧
    dp0 x' = dp0 (with_post (pendingModified x) (nw || postInvalidate x) (postDowngrade x)
                    (set_list Targets (TargetList.with_items (items (targets x) ++ [t]) (targets x)) x)))
    as (h' & Hh' & Hpk' & x' & Hx' & Hd').
  { destruct nw.
    - unfold upd, get_mshr. rewrite Hm3. cbn [deref mbind res_bind]. eexists. split; [done|].
      split; [done|]. eexists. split; [apply lookup_insert_eq|].
      apply (f_equal (λ y, with_post (pendingModified y) true (postDowngrade y) y)) in Hd3. exact Hd3.
    - exists h3. split; [done|]. split; [done|]. exists x3. split; [done|]. rewrite Hd3. by destruct x. }
  rewrite Hh'. exists h', x', p', t, c. split_and!; try done.
  - by rewrite Hpk', Hpk3.
  - rewrite Hpk', Hpk3, Hpk2. apply lookup_insert_eq.
  - intros b Hba Hbt. rewrite Hpk', Hpk3, Hpk2, lookup_insert_ne by done. rewrite Hpk1.
    by rewrite lookup_insert_ne.
Qed.

(** The deferred upgrades are replaced when the snoop [p] at [a] invalidates. *)
Lemma replace_deferred_ok uninit m a (nw : bool) h x p :
  pkts h !! a = Some p → mshrs h !! m = Some x → mshr_ok h x →
  (∀ t, t ∈ items (deferredTargets x) → Target.pkt t ≠ a) →
  ∃ h1 x1 b, (if nw then replaceUpgrades uninit m Deferred h else Ok h) = Ok h1 ∧
    mshrs h1 !! m = Some x1 ∧ x1 = set_list Deferred (TargetList.with_hasUpgrade b (deferredTargets x)) x ∧
    pkts h1 !! a = Some p ∧ (∀ b, pkts h !! b = None ↔ pkts h1 !! b = None) ∧
    (nw = true → no_upgrade h1 (items (deferredTargets x))) ∧ targets_ok h1 (items (deferredTargets x)).
Proof.
  intros Hp Hm Hok Hdis. destruct (Hok Deferred) as [Hdo Hfd]. destruct nw.
  - destruct (replaceUpgrades_ok uninit m Deferred h x Hm Hdo) as (h1 & Hr1 & _ & Hms1 & Hst1 & _ & Hoth).
    eexists h1, _, _. split; [done|]. split; [rewrite Hms1; apply lookup_insert_eq|].
    split; [done|]. split; [rewrite Hoth by done; done|]. split_and!.
    + intros b. destruct (decide (b ∈ Target.pkt <$> items (deferredTargets x))) as [Hin|Hn].
      * apply list_elem_of_fmap in Hin as (t & -> & Ht). destruct (Hdo t Ht) as (pt & Hpt & _).
        destruct (Hst1 _ _ Hpt) as (pt' & Hpt' & _). rewrite Hpt, Hpt'. done.
      * rewrite Hoth; [done|]. intros t Ht <-. apply Hn. by apply list_elem_of_fmap_2.
    + intros _. by apply (replaceUpgrades_none uninit m Deferred h h1 x).
    + by eapply targets_ok_step.
  - exists h, x, (TargetList.hasUpgrade (deferredTargets x)). split_and!; try done.
    by destruct x as [? ? ? ? ? ? ? ? ? ? ? ? ? ? []].
Qed.

(** Keeping the snoop [p], if it has to be kept. *)
Lemma keep_if_ok uninit now m a o nw p h x :
  pkts h !! a = Some p → mshrs h !! m = Some x → downstreamPending x = false → inService x = true →
  postInvalidate x = false → Packet.isRequest p = true → Packet.cacheResponding p = false →
  Flags.isSet (Packet.flags p) Packet.VALID_SIZE = true →
  (∀ t, t ∈ items (deferredTargets x) → Target.pkt t ≠ a) → targets_ok h (items (deferredTargets x)) →
  ∃ h2 x2 p2, (if pendingModified x || nw then keep_snoop uninit now m a o nw (pendingModified x) p h
               else Ok h) = Ok h2 ∧ mshrs h2 !! m = Some x2 ∧ pkts h2 !! a = Some p2 ∧
    (if pendingModified x || nw
     then ∃ t c, items (targets x2) = items (targets x) ++ [t] ∧ source t = FromSnoop ∧
            pkts h !! Target.pkt t = None ∧ pkts h2 !! Target.pkt t = Some c ∧ Packet.cmd c = Packet.cmd p
     else items (targets x2) = items (targets x)) ∧
    items (deferredTargets x2) = items (deferredTargets x) ∧
    Packet.cacheResponding p2 = responds (pendingModified x) p ∧
    Packet.hasSharers p2 = Packet.hasSharers p ∧ postInvalidate x2 = nw ∧ postDowngrade x2 = postDowngrade x ∧
    inService x2 = true ∧ pendingModified x2 = pendingModified x ∧
    (∀ t, t ∈ items (deferredTargets x) → pkts h2 !! Target.pkt t = pkts h !! Target.pkt t).
Proof.
  intros Hp Hm Hdp Hsv Hpi Hreq Hnr Hsz Hdis Hok. destruct (pendingModified x || nw) eqn:Hkeep.
  - destruct (keep_snoop_ok uninit now m a o nw p h x Hp Hm Hdp Hreq Hnr Hsz)
      as (h2 & x2 & p2 & t & c & Hk & Hx2 & Hdx & Hst & Hnone & Hc & Hcc & Hp2 & Hr2 & Hs2 & _ & Hoth).
    exists h2, x2, p2. split; [done|].
    pose proof (f_equal targets Hdx) as Ft. pose proof (f_equal deferredTargets Hdx) as Fd.
    pose proof (f_equal postInvalidate Hdx) as Fpi. pose proof (f_equal postDowngrade Hdx) as Fpd.
    pose proof (f_equal inService Hdx) as Fsv. pose proof (f_equal pendingModified Hdx) as Fpm.
    cbn in Ft, Fd, Fpi, Fpd, Fsv, Fpm. rewrite Hpi, orb_false_r in Fpi. split_and!; try done; try congruence.
    + exists t, c. split_and!; try done. by rewrite Ft.
    + intros t' Ht'. apply Hoth; [by apply Hdis|]. intros He.
      destruct (Hok t' Ht') as (pt & Hpt & _). congruence.
  - apply orb_false_iff in Hkeep as [Hpm Hnw]. exists h, x, p. split_and!; try done; try congruence.
    rewrite Hnr. unfold responds. by rewrite Hpm.
Qed.

(** C21: a snoop that follows the MSHR's request, which has been sent and will get a response,
    is taken by the MSHR ([handleSnoop] returns true).  It is kept, as a copy behind the
    targets, exactly when the MSHR will own the block or the snoop invalidates; the packet is
    marked as answered by this cache exactly when the MSHR will own the block and the packet
    wants an answer; it ends the MSHR's claim to the block exactly when it invalidates, and
    otherwise (unless uncacheable) makes the block shared.  An invalidation leaves no
    upgrade among the deferred requests. *)
Theorem snoop_after_request (uninit : nat → Z) (now order : Z) (m a : positive) (h : Heap)
    (p : Packet.Packet) (x : MSHR) :
  pkts h !! a = Some p → mshrs h !! m = Some x → mshr_ok h x → Packet.isRequest p = true →
  MemCmd.needsWritable (Packet.cmd p) = Packet.isInvalidate p →
  inService x = true → downstreamPending x = false → postInvalidate x = false →
  (∀ t, t ∈ items (deferredTargets x) → Target.pkt t ≠ a) →
  Packet.cacheResponding p = false → Flags.isSet (Packet.flags p) Packet.VALID_SIZE = true →
  let nw := MemCmd.needsWritable (Packet.cmd p) in
  let shared := negb nw && negb (Request.isUncacheable (Packet.req p)) in
  ∃ h' x' p', handleSnoop uninit now m a order h = Ok (h', true) ∧ mshrs h' !! m = Some x' ∧
    pkts h' !! a = Some p' ∧
    items (deferredTargets x') = items (deferredTargets x) ∧
    (if pendingModified x || nw
     then ∃ t c, items (targets x') = items (targets x) ++ [t] ∧ source t = FromSnoop ∧
            pkts h !! Target.pkt t = None ∧ pkts h' !! Target.pkt t = Some c ∧ Packet.cmd c = Packet.cmd p
     else items (targets x') = items (targets x)) ∧
    Packet.cacheResponding p' = responds (pendingModified x) p ∧
    Packet.hasSharers p' = Packet.hasSharers p || shared ∧
    postInvalidate x' = nw ∧ postDowngrade x' = postDowngrade x || shared ∧
    inService x' = true ∧ pendingModified x' = pendingModified x ∧
    (nw = true → no_upgrade h' (items (deferredTargets x))).
Proof.
  intros Hp Hm Hok Hreq Hinv Hsv Hdp Hpi Hdis Hnr Hsz nw shared.
  assert (Packet.needsWritable p = Ok nw) as Hnw by (unfold Packet.needsWritable; by rewrite Hreq).
  unfold handleSnoop, get_pkt. rewrite Hp. cbn [deref mbind res_bind]. rewrite Hnw.
  cbn [mbind res_bind]. rewrite <- Hinv, Bool.eqb_reflx. cbn [negb]. unfold get_mshr. rewrite Hm.
  cbn [deref mbind res_bind]. rewrite Hsv, Hdp, andb_false_r. cbn [negb orb].
  destruct (replace_deferred_ok uninit m a nw h x p Hp Hm Hok Hdis)
    as (h1 & x1 & ub & -> & Hm1 & Hx1 & Hp1 & Hdom & Hno1 & Hok1).
  cbn [mbind res_bind]. unfold hasPostInvalidate, isPendingModified. rewrite Hsv, Hpi. cbn [assert_ mbind res_bind].
  rewrite Hp1. cbn [deref mbind res_bind]. rewrite Hnw. cbn [mbind res_bind]. rewrite <- Hinv. fold nw. fold shared.
  destruct (keep_if_ok uninit now m a order nw p h1 x1)
    as (h2 & x2 & p2 & Hkeep & Hm2 & Hp2 & Hkept & Hd2 & Hr2 & Hs2 & Hpi2 & Hpd2 & Hsv2 & Hpm2 & Hoth2);
    [done|done|by subst x1..|]. subst x1. cbn [pendingModified deferredTargets targets postDowngrade set_list with_lists
      items TargetList.with_hasUpgrade] in Hkeep, Hkept, Hd2, Hr2, Hpd2, Hpm2, Hoth2.
  rewrite Hkeep. cbn [mbind res_bind].
  assert (∀ h', (∀ t, t ∈ items (deferredTargets x) → pkts h' !! Target.pkt t = pkts h2 !! Target.pkt t) →
    nw = true → no_upgrade h' (items (deferredTargets x))) as Hfin.
  { intros h' Hh' Hn t pt Ht Hsrc Hpt. rewrite Hh', Hoth2 in Hpt by done. by eapply Hno1. }
  assert (∀ h', (∀ b, b ≠ a → pkts h' !! b = pkts h2 !! b) →
    if pendingModified x || nw
    then ∃ t c, items (targets x2) = items (targets x) ++ [t] ∧ source t = FromSnoop ∧
           pkts h !! Target.pkt t = None ∧ pkts h' !! Target.pkt t = Some c ∧ Packet.cmd c = Packet.cmd p
    else items (targets x2) = items (targets x)) as Hkeep'.
  { intros h' Hh'. revert Hkept. destruct (pendingModified x || nw); [|done].
    intros (t & c & ? & ? & Hnt & Hc & ?). exists t, c. apply Hdom in Hnt.
    split_and!; try done. rewrite Hh'; [done|]. congruence. }
  destruct shared eqn:Hsh; cbn [mbind res_bind].
  - unfold downgrade_snoop, upd, get_mshr. rewrite Hm2. cbn [deref mbind res_bind].
    unfold get_pkt. cbn [pkts with_mshr]. rewrite Hp2. cbn [deref mbind res_bind].
    destruct (sharers_ok p2) as [Hsh2 Hcr2].
    eexists _, _, (Packet.setHasSharers p2). split; [done|].
    split; [apply lookup_insert_eq|]. split; [apply lookup_insert_eq|]. rewrite !orb_true_r.
    split_and!; try done; [|congruence|].
    + apply Hkeep'. intros b Hb. cbn. by rewrite lookup_insert_ne.
    + apply Hfin. intros t Ht. cbn. rewrite lookup_insert_ne; [done|]. intros He. by apply (Hdis t Ht).
  - exists h2, x2, p2. rewrite !orb_false_r. split_and!; try done; [by apply Hkeep'|by apply Hfin].
Qed.

(** ** The order of targets *)

(** All targets in the order they will be serviced. *)
Definition arrivals (x : MSHR) : list Target := items (targets x) ++ items (deferredTargets x).

(** Targets are deferred only behind a request that is in service. *)
Definition settled (x : MSHR) : Prop := inService x = false → items (deferredTargets x) = [].

(** The reasons to defer a request. *)
Definition defers (p : Packet.Packet) (x : MSHR) : bool :=
  inService x &&
  (negb (bool_decide (items (deferredTargets x) = [])) || postInvalidate x ||
   (MemCmd.needsWritable (Packet.cmd p) && (negb (pendingModified x) || postDowngrade x || isForward x))).

Lemma must_defer_ok p x : Packet.isRequest p = true → must_defer p x = Ok (defers p x).
Proof.
  intros Hreq. unfold must_defer, defers, hasPostInvalidate, hasPostDowngrade, isPendingModified, Packet.needsWritable.
  rewrite Hreq. destruct (inService x); [|done]. cbn [assert_ mbind res_bind andb].
  destruct (bool_decide _); cbn [negb orb]; [|done]. destruct (postInvalidate x); cbn [orb]; [done|].
  destruct (MemCmd.needsWritable _); cbn [andb]; [|done]. by destruct (pendingModified x).
Qed.

Lemma markable_ext h h' p p' :
  states h' = states h → Packet.senderState p' = Packet.senderState p →
  (∀ u, (downstreamPending <$> mshrs h' !! u) = (downstreamPending <$> mshrs h !! u)) →
  markable h p → markable h' p'.
Proof.
  intros Hs Hp Hd (o & Ho & Hm). exists o. unfold next_mshr, Packet.findNextSenderState in *.
  rewrite Hs, Hp. split; [done|]. destruct o as [u|]; [|done]. destruct Hm as (x & Hx & Hdx).
  specialize (Hd u). rewrite Hx in Hd. destruct (mshrs h' !! u) as [x'|]; [|done].
  exists x'. split; [done|]. cbn in Hd. congruence.
Qed.

Lemma allocateTarget_spec uninit now wr order m a aof h p x :
  pkts h !! a = Some p → mshrs h !! m = Some x → payload_ok p → Packet.isRequest p = true →
  Packet.cmd p ≠ MemCmd.HardPFReq → _isUncacheable x = false → markable h p →
  let w := if defers p x then Deferred else Targets in
  ∃ h' x' mk p', allocateTarget uninit now m a wr order aof h = Ok h' ∧ mshrs h' !! m = Some x' ∧
    dp0 x' = dp0 (set_list w (appended (mkTarget now wr order a FromCPU mk) p' (list_of w x))
                    (with_allocOnFill (allocOnFill x || aof) x)) ∧
    pkts h' = <[a := p']> (pkts h) ∧
    (if defers p x && postInvalidate x then downgraded p p' else p' = p).
Proof.
  intros Hp Hm Hpay Hreq Hpf Hunc Hmk w. unfold allocateTarget, get_pkt. rewrite Hp.
  cbn [deref mbind res_bind]. rewrite bind_assert by (by apply bool_decide_eq_true).
  unfold upd, get_mshr. rewrite Hm. cbn [deref mbind res_bind]. rewrite Hunc. cbn [negb assert_ mbind res_bind].
  set (x1 := with_allocOnFill _ x). set (h1 := with_mshr m x1 h).
  rewrite (must_defer_ok p x Hreq). cbn [mbind res_bind].
  assert (∀ u, (downstreamPending <$> mshrs h1 !! u) = (downstreamPending <$> mshrs h !! u)) as Hd1.
  { intros u. unfold h1. cbn. destruct (decide (u = m)) as [->|]; [|by rewrite lookup_insert_ne].
    by rewrite lookup_insert_eq, Hm. }
  assert (mshrs h1 !! m = Some x1) as Hm1 by apply lookup_insert_eq.
  assert (list_of w x1 = list_of w x) as Hlw by (unfold w; by destruct (defers p x)).
  rewrite <- Hlw. unfold w in *. clear w Hlw. destruct (defers p x) eqn:Hdef; cbn [andb].
  - assert (inService x = true) as Hsv by (unfold defers in Hdef; by destruct (inService x)).
    unfold hasPostInvalidate. rewrite Hsv. cbn [assert_ mbind res_bind].
    assert (∃ h2 p2, (if postInvalidate x then replaceUpgrade uninit a h1 else Ok h1) = Ok h2 ∧
      pkts h2 = <[a := p2]> (pkts h) ∧ mshrs h2 = mshrs h1 ∧ states h2 = states h1 ∧
      (if postInvalidate x then downgraded p p2 else p2 = p)) as (h2 & p2 & -> & Hp2 & Hms2 & Hst2 & Hdg).
    { destruct (postInvalidate x).
      - destruct (replaceUpgrade_ok uninit a h1 p Hp Hpay) as (h2 & p2 & Hr & Hd & Hpk & Hms & Hst).
        exists h2, p2. done.
      - exists h1, p. by rewrite insert_id. }
    cbn [mbind res_bind].
    assert (Packet.senderState p2 = Packet.senderState p ∧ Packet.isRequest p2 = true) as [Hss Hreq2].
    { destruct (postInvalidate x); [|by subst p2]. destruct Hdg as (Hc & _ & _ & _ & Hs & _). split; [done|].
      unfold Packet.isRequest in *. by rewrite Hc, replaced_request. }
    destruct (add_ok now m Deferred a wr order FromCPU true h2 p2 x1) as (h' & mk & Hadd & Hb);
      [by rewrite Hp2, lookup_insert_eq|by rewrite Hms2|done| |].
    { intros _. apply (markable_ext h h2 p p2); [by rewrite Hst2|done| |done]. intros u. by rewrite Hms2. }
    rewrite Hadd. destruct (becomes_at _ _ _ _ Hb) as (x' & Hx' & Hd'). destruct Hb as (_ & _ & Hpk & _).
    exists h', x', mk, p2. split_and!; try done. by rewrite Hpk.
  - destruct (add_ok now m Targets a wr order FromCPU (negb (inService x)) h1 p x1 Hp Hm1) as (h' & mk & Hadd & Hb);
      [done| |].
    { intros _. by apply (markable_ext h h1 p p). }
    rewrite Hadd. destruct (becomes_at _ _ _ _ Hb) as (x' & Hx' & Hd'). destruct Hb as (_ & _ & Hpk & _).
    exists h', x', mk, p. split_and!; try done. by rewrite Hpk, insert_id.
Qed.

(** Adding a target for a request keeps the flags of a list in order. *)
Lemma appended_ok h l t p :
  targets_ok h (items l) → flags_ok h l → pkts h !! Target.pkt t = Some p → payload_ok p →
  Packet.isRequest p = true →
  targets_ok h (items (appended t p l)) ∧ flags_ok h (appended t p l).
Proof.
  intros Hto Hfl Hp Hpay Hreq. split.
  - intros t' [Ht'|Ht']%elem_of_app; [by apply Hto|]. apply list_elem_of_singleton in Ht' as ->. by exists p.
  - intros t' p' [Ht'|Ht']%elem_of_app Hsrc Hp'; cbn.
    + destruct (Hfl t' p' Ht' Hsrc Hp') as (? & Hnw & Hup). split_and!; [done| |];
        intros Hf; [by rewrite Hnw|by rewrite Hup].
    + apply list_elem_of_singleton in Ht' as ->. rewrite Hp in Hp'. injection Hp' as <-.
      unfold from_snoop. rewrite bool_decide_eq_false_2 by done. cbn.
      split_and!; [done| |]; intros ->; apply orb_true_r.
Qed.

(** C33: an MSHR keeps its requests in the order they arrived.  A new request goes behind all
    others, on the deferred list exactly for the reasons the code lists; if an invalidation
    is pending, its upgrade is replaced.  Targets stay deferred only while the MSHR is in
    service, and the flags of the lists keep covering their requests. *)
Theorem allocateTarget_in_order (uninit : nat → Z) (now wr order : Z) (m a : positive) (aof : bool)
    (h : Heap) (p : Packet.Packet) (x : MSHR) :
  pkts h !! a = Some p → mshrs h !! m = Some x → mshr_ok h x → payload_ok p → Packet.isRequest p = true →
  Packet.cmd p ≠ MemCmd.HardPFReq → _isUncacheable x = false → settled x → markable h p →
  ∃ h' x' t p', allocateTarget uninit now m a wr order aof h = Ok h' ∧ mshrs h' !! m = Some x' ∧
    arrivals x' = arrivals x ++ [t] ∧ Target.pkt t = a ∧ source t = FromCPU ∧ Target.order t = order ∧
    items (if defers p x then deferredTargets x' else targets x') =
      items (if defers p x then deferredTargets x else targets x) ++ [t] ∧
    settled x' ∧ inService x' = inService x ∧ allocOnFill x' = allocOnFill x || aof ∧
    mshr_ok h' x' ∧ pkts h' !! a = Some p' ∧
    (if defers p x && postInvalidate x then downgraded p p' else p' = p).
Proof.
  intros Hp Hm Hok Hpay Hreq Hpf Hunc Hset Hmk.
  destruct (allocateTarget_spec uninit now wr order m a aof h p x Hp Hm Hpay Hreq Hpf Hunc Hmk)
    as (h' & x' & mk & p' & Hall & Hx' & Hd & Hpk & Hdg).
  pose proof (f_equal targets Hd) as Ft. pose proof (f_equal deferredTargets Hd) as Fd.
  pose proof (f_equal inService Hd) as Fs. pose proof (f_equal allocOnFill Hd) as Fa.
  assert (payload_ok p' ∧ Packet.isRequest p' = true) as [Hpay' Hreq'].
  { destruct (defers p x && postInvalidate x); [|by subst]. destruct Hdg as (Hc & _ & _ & _ & _ & ?).
    split; [done|]. unfold Packet.isRequest in *. by rewrite Hc, replaced_request. }
  assert (pkts_step h h') as Hstep.
  { intros b pb Hb. rewrite Hpk. destruct (decide (b = a)) as [->|].
    - rewrite lookup_insert_eq. exists p'. split; [done|]. rewrite Hp in Hb. injection Hb as <-.
      destruct (defers p x && postInvalidate x); auto.
    - rewrite lookup_insert_ne by done. exists pb. auto. }
  assert (∀ w, targets_ok h' (items (list_of w x)) ∧ flags_ok h' (list_of w x)) as Hok'.
  { intros w. destruct (Hok w). split; [by eapply targets_ok_step|by eapply flags_ok_step]. }
  set (t := mkTarget now wr order a FromCPU mk) in *.
  assert (pkts h' !! Target.pkt t = Some p') as Hpt by (rewrite Hpk; apply lookup_insert_eq).
  exists h', x', t, p'. split; [done|]. split; [done|]. destruct (defers p x) eqn:Hdef; cbn in Ft, Fd, Fs, Fa.
  - split_and!; try done; [by unfold arrivals; rewrite Ft, Fd; cbn; rewrite app_assoc|by rewrite Fd| |].
    + intros Hn. unfold defers in Hdef. rewrite <- Fs, Hn in Hdef. done.
    + intros []; cbn; [rewrite Ft|rewrite Fd]; [apply (Hok' Targets)|]. apply appended_ok; try done; apply (Hok' Deferred).
  - assert (items (deferredTargets x) = []) as Hemp.
    { destruct (inService x) eqn:Hsv; [|by apply Hset]. unfold defers in Hdef. rewrite Hsv in Hdef.
      cbn [andb] in Hdef. destruct (bool_decide (items (deferredTargets x) = [])) eqn:Hbd; [|done].
      by apply bool_decide_eq_true in Hbd. }
    split_and!; try done; [by unfold arrivals; rewrite Ft, Fd, Hemp; cbn; rewrite !app_nil_r|by rewrite Ft| |].
    + intros _. by rewrite Fd.
    + intros []; cbn; [rewrite Ft|rewrite Fd]; [|apply (Hok' Deferred)]. apply appended_ok; try done; apply (Hok' Targets).
Qed.

(** When the targets in service are done, the deferred ones follow in their order: they
    become the targets, with their flags, and the MSHR takes the order and the ready time of
    the first of them; without deferred targets nothing changes.  Removing a serviced target
    takes the first one of the list. *)
Theorem promoteDeferred_in_order (now : Z) (x : MSHR) :
  settled x →
  (items (targets x) = [] →
   promoteDeferredTargets now x =
     match items (deferredTargets x) with
     | [] => Ok (x, false)
     | t :: _ => Ok (with_order (Target.order t) (Z.max now (Target.readyTime t))
                       (with_lists (deferredTargets x) (TargetList.resetFlags (targets x)) x), true)
     end) ∧
  (∀ x' b, promoteDeferredTargets now x = Ok (x', b) → arrivals x' = arrivals x ∧ settled x' ∧
     (b = true ↔ items (deferredTargets x) ≠ []) ∧ items (deferredTargets x') = []) ∧
  (hasTargets x = true → ∃ t x', getTarget x = Ok t ∧ popTarget x = Ok x' ∧ arrivals x = t :: arrivals x' ∧ settled x').
Proof.
  intros Hset. split_and!.
  - intros Ht. unfold promoteDeferredTargets. rewrite (bool_decide_eq_true_2 _ Ht).
    cbn [assert_ mbind res_bind]. destruct (items (deferredTargets x)) as [|t l] eqn:Hd; [done|].
    rewrite bool_decide_eq_false_2 by done. cbn. by rewrite Hd.
  - intros x' b. unfold promoteDeferredTargets.
    destruct (bool_decide (items (targets x) = [])) eqn:Ht; [apply bool_decide_eq_true in Ht|done].
    cbn [assert_ mbind res_bind]. destruct (items (deferredTargets x)) as [|t l] eqn:Hd.
    { rewrite bool_decide_eq_true_2 by done. intros [= <- <-]. split_and!; try done. }
    rewrite bool_decide_eq_false_2 by done. cbn. rewrite Hd. cbn. intros [= <- <-]. unfold arrivals. cbn.
    rewrite Ht, Hd, app_nil_r. split_and!; try done. by intros _.
  - unfold hasTargets, getTarget, popTarget. intros Ht. unfold hasTargets. rewrite Ht.
    destruct (items (targets x)) as [|t l] eqn:Hi; [done|]. cbn. eexists t, _. split_and!; try done.
    unfold arrivals. cbn. by rewrite Hi.
Qed.

(** ** The queue of MSHRs *)

#[export] Instance MSHR_laws : QueueEntryLaws MSHR.
Proof. constructor. intros x y Hd. cbn in Hd. unfold MSHR.deallocate in Hd. inv_res Hd. by subst. Qed.

(** An MSHR without targets. *)
Definition clean (x : MSHR) : Prop :=
  items (targets x) = [] ∧ items (deferredTargets x) = [] ∧
  TargetList.isReset (targets x) = true ∧ TargetList.isReset (deferredTargets x) = true.

Record mq_ok (h : Heap) (mq : MSHRQueue.MSHRQueue) : Prop := {
  mq_queue : QueueProofs.queue_ok (mshrs h) (MSHRQueue.queue mq);
  mq_free : ∀ m, m ∈ Queue.freeList (MSHRQueue.queue mq) → ∃ x, mshrs h !! m = Some x ∧ clean x
}.

Lemma dp0_svc (st st' : gmap positive MSHR) m :
  (dp0 <$> st' !! m) = (dp0 <$> st !! m) → QueueProofs.svc st' m = QueueProofs.svc st m.
Proof.
  unfold QueueProofs.svc. destruct (st' !! m), (st !! m); cbn; try done.
  intros Hd%(inj Some). f_equal. apply (f_equal inService) in Hd. done.
Qed.

Lemma dp0_clean (st st' : gmap positive MSHR) m x :
  (dp0 <$> st' !! m) = (dp0 <$> st !! m) → st !! m = Some x → clean x → ∃ x', st' !! m = Some x' ∧ clean x'.
Proof.
  intros Hd Hx Hc. rewrite Hx in Hd. destruct (st' !! m) as [x'|]; [|done]. exists x'. split; [done|].
  apply (inj Some) in Hd. pose proof (f_equal targets Hd) as Ht. pose proof (f_equal deferredTargets Hd) as Hdt.
  cbn in Ht, Hdt. unfold clean. by rewrite Ht, Hdt.
Qed.

Lemma allocate_ok now m ba bs a wr o aof h p x sec :
  pkts h !! a = Some p → mshrs h !! m = Some x → clean x → Packet.isSecure p = Ok sec →
  Packet.isRequest p = true → markable h p →
  ∃ h' x' mk, MSHR.allocate now m ba bs a wr o aof h = Ok h' ∧ mshrs h' !! m = Some x' ∧
    inService x' = false ∧ readyTime x' = wr ∧ blkAddr x' = ba ∧ isSecure x' = sec ∧
    items (targets x') = [mkTarget now wr o a
       (if decide (Packet.cmd p = MemCmd.HardPFReq) then FromPrefetcher else FromCPU) mk] ∧
    items (deferredTargets x') = [] ∧
    ∀ m', m' ≠ m → (dp0 <$> mshrs h' !! m') = (dp0 <$> mshrs h !! m').
Proof.
  intros Hp Hm (Hti & Hdi & Htr & Hdr) Hsec Hreq Hmk. unfold MSHR.allocate, get_pkt. rewrite Hp.
  cbn [deref mbind res_bind]. rewrite Hsec. cbn [mbind res_bind]. unfold upd, get_mshr. rewrite Hm.
  cbn [deref mbind res_bind]. set (x1 := mkMSHR _ _ _ _ _ _ _ _ _ _ _ _ _ _ _). set (h1 := with_mshr m x1 h).
  assert (mshrs h1 !! m = Some x1) as Hm1 by apply lookup_insert_eq. rewrite Hm1. cbn [deref mbind res_bind].
  rewrite bind_assert by done. set (src := if decide _ then FromPrefetcher else FromCPU).
  destruct (add_ok now m Targets a wr o src true h1 p x1) as (h' & mk & -> & Hb); try done.
  { intros _. destruct Hmk as (on & Hn & Hon). exists on. split; [done|]. destruct on as [u|]; [|done].
    unfold h1. cbn. destruct (decide (u = m)) as [->|]; [rewrite lookup_insert_eq; by eexists|].
    by rewrite lookup_insert_ne. }
  cbn [mbind res_bind]. destruct (becomes_at _ _ _ _ Hb) as (x' & Hx' & Hd'). destruct Hb as (_ & _ & _ & Hoth).
  rewrite Hx'. cbn [deref mbind res_bind]. pose proof (f_equal deferredTargets Hd') as Fd. cbn in Fd.
  rewrite bind_assert by (by rewrite Fd). exists h', x', mk. split; [done|].
  pose proof (f_equal targets Hd') as Ft. pose proof (f_equal inService Hd') as Fs.
  pose proof (f_equal readyTime Hd') as Fr. pose proof (f_equal blkAddr Hd') as Fb.
  pose proof (f_equal isSecure Hd') as Fsec. cbn in Ft, Fs, Fr, Fb, Fsec.
  split_and!; try done.
  - rewrite Ft. cbn. by rewrite Hti.
  - by rewrite Fd.
  - intros m' Hne. rewrite Hoth. rewrite decide_False by done. unfold h1. cbn. by rewrite lookup_insert_ne.
Qed.

(** A miss gets an MSHR.  While the queue has a free MSHR, allocating one for a request
    succeeds: it is taken from the free list, holds the request as its only target, is put
    behind every waiting MSHR that is ready no later, and the queue stays consistent; other
    MSHRs change at most in their [downstreamPending] flag. *)
Theorem mshrQueue_allocates (now ba bs wr o : Z) (a : positive) (aof : bool) (h : Heap)
    (mq : MSHRQueue.MSHRQueue) (p : Packet.Packet) (sec : bool) :
  mq_ok h mq → pkts h !! a = Some p → Packet.isSecure p = Ok sec → Packet.isRequest p = true →
  markable h p → Queue.allocated (MSHRQueue.queue mq) < Queue.numEntries (MSHRQueue.queue mq) →
  let q := MSHRQueue.queue mq in
  ∃ h' mq' m x t pre post, MSHRQueue.allocate now ba bs a wr o aof h mq = Ok (h', mq', m) ∧ mq_ok h' mq' ∧
    head (Queue.freeList q) = Some m ∧ mshrs h' !! m = Some x ∧ items (targets x) = [t] ∧
    Target.pkt t = a ∧ blkAddr x = ba ∧ isSecure x = sec ∧ inService x = false ∧
    Queue.allocatedList (MSHRQueue.queue mq') = Queue.allocatedList q ++ [m] ∧
    Queue.readyList q = pre ++ post ∧ Queue.readyList (MSHRQueue.queue mq') = pre ++ m :: post ∧
    (StronglySorted (QueueProofs.by_time (mshrs h)) (Queue.readyList q) →
       StronglySorted (QueueProofs.by_time (mshrs h')) (Queue.readyList (MSHRQueue.queue mq')) ∧
       (∀ y, y ∈ pre → QueueProofs.rt (mshrs h) y ≤ wr) ∧ (∀ y, y ∈ post → wr < QueueProofs.rt (mshrs h) y)) ∧
    ∀ m', m' ≠ m → (dp0 <$> mshrs h' !! m') = (dp0 <$> mshrs h !! m').
Proof.
  intros [Hq Hfree] Hp Hsec Hreq Hmk Hlt q.
  destruct (Queue.freeList q) as [|m free] eqn:Hfl; [by apply (QueueProofs.free_left (mshrs h) q Hq) in Hlt|].
  destruct (Hfree m) as (x0 & Hx0 & Hcl); [fold q; rewrite Hfl; by left|].
  destruct (allocate_ok now m ba bs a wr o aof h p x0 sec Hp Hx0 Hcl Hsec Hreq Hmk)
    as (h' & x & mk & Hall & Hx & Hsv & Hrt & Hba & Hse & Hit & Hid & Hoth).
  assert (QueueProofs.only_at (mshrs h) (mshrs h') m) as Honly.
  { split; [by eexists|]. intros m' Hne. by apply dp0_svc, Hoth. }
  assert (QueueProofs.svc (mshrs h') m = Some false) as Hsm.
  { unfold QueueProofs.svc. rewrite Hx. cbn. by rewrite Hsv. }
  destruct (QueueProofs.queue_take (mshrs h) (mshrs h') m free q Hq Hfl Honly Hsm)
    as (q' & Hadd & Hok & Ha & Hf & _ & _ & _ & _ & _ & _ & pre & post & Hr & Hr' & Hsort).
  unfold MSHRQueue.allocate. fold q. rewrite Hfl. unfold get_mshr. rewrite Hx0. cbn [deref mbind res_bind].
  destruct Hcl as (Hti & Hdi & _). rewrite bind_assert by (unfold getNumTargets; by rewrite Hti, Hdi).
  rewrite Hall. cbn [mbind res_bind]. rewrite Hadd. cbn [mbind res_bind].
  destruct (QueueProofs.alloc_nodup (mshrs h) q Hq) as (_ & Hnf & Hdisj). rewrite Hfl in Hnf, Hdisj.
  apply NoDup_cons in Hnf as [Hmf _].
  assert (∀ y, y ∈ Queue.readyList q → QueueProofs.rt (mshrs h') y = QueueProofs.rt (mshrs h) y) as Hrts.
  { intros y Hy. apply (QueueProofs.ready_elem (mshrs h) q y Hq) in Hy as [Hy _].
    assert (y ≠ m) as Hne by (intros ->; apply (Hdisj m Hy); by left). unfold QueueProofs.rt.
    specialize (Hoth y Hne). destruct (mshrs h' !! y), (mshrs h !! y); cbn in *; try done.
    apply (inj Some) in Hoth. by apply (f_equal readyTime) in Hoth. }
  eexists h', _, m, x, _, pre, post. split; [done|]. split_and!; try done.
  - constructor; [done|]. cbn. rewrite Hf. intros y Hy.
    destruct (Hfree y) as (xy & Hxy & Hcy); [fold q; rewrite Hfl; by right|].
    eapply dp0_clean; [|done|done]. apply Hoth. by intros ->.
  - intros Hs. destruct Hsort as (Hpre & Hpost & Hsorted); [by apply (QueueProofs.sorted_ext (mshrs h))|].
    assert (QueueProofs.rt (mshrs h') m = wr) as Hm by (unfold QueueProofs.rt; by rewrite Hx, <- Hrt).
    rewrite Hm in Hpre, Hpost. split_and!; [done| |]; intros y Hy.
    + rewrite <- Hrts; [by apply Hpre|]. fold q. rewrite Hr. apply elem_of_app. by left.
    + rewrite <- Hrts; [by apply Hpost|]. fold q. rewrite Hr. apply elem_of_app. by right.
Qed.

Lemma serve_others m b h h1 x :
  stacks_ok h → mshrs h !! m = Some x → MSHR.markInService m b h = Ok h1 →
  (∃ x1, mshrs h1 !! m = Some x1 ∧ inService x1 = true) ∧
  ∀ m', m' ≠ m → (dp0 <$> mshrs h1 !! m') = (dp0 <$> mshrs h !! m').
Proof.
  intros Hs Hm. unfold MSHR.markInService, upd, get_mshr. rewrite Hm. cbn [deref mbind res_bind].
  destruct (inService x); [done|]. cbn [negb assert_ mbind res_bind].
  set (x1 := with_post _ _ _ _). set (h0 := with_mshr m x1 h).
  assert (∀ h2, cleared h0 h2 → (∃ x2, mshrs h2 !! m = Some x2 ∧ inService x2 = true) ∧
    ∀ m', m' ≠ m → (dp0 <$> mshrs h2 !! m') = (dp0 <$> mshrs h !! m')) as Hfin.
  { intros h2 Hc. split.
    - pose proof (cl_mshrs _ _ Hc m) as He. unfold h0 in He. cbn in He. rewrite lookup_insert_eq in He.
      destruct (mshrs h2 !! m) as [x2|]; [|done]. exists x2. split; [done|].
      apply (inj Some) in He. by apply (f_equal inService) in He.
    - intros m' Hne. rewrite (cl_mshrs _ _ Hc m'). unfold h0. cbn. by rewrite lookup_insert_ne. }
  destruct (downstreamPending x); cbn [negb].
  { intros [= <-]. apply Hfin. reflexivity. }
  intros Hcl. apply Hfin. unfold list_clearDownstreamPending in Hcl.
  eapply (clear_list_spec (clear_pending (clear_fuel h0))); [done| |done].
  intros m' h2 Hc. destruct (clear_pending_spec (clear_fuel h0) m' h2) as [Hp2 Hok2].
  - by eapply cleared_stacks.
  - pose proof (pending_cleared h0 h2 Hc). pose proof (pending_fuel h0). lia.
  - split; [done|]. intros h3 Hh3. by apply Hok2.
Qed.

Lemma free_not_alloc h mq m y :
  mq_ok h mq → m ∈ Queue.allocatedList (MSHRQueue.queue mq) → y ∈ Queue.freeList (MSHRQueue.queue mq) → y ≠ m.
Proof.
  intros [Hq _] Hm Hy ->. destruct (QueueProofs.alloc_nodup _ _ Hq) as (_ & _ & Hd). by apply (Hd m).
Qed.

(** The free MSHRs stay clean when only [m] changes. *)
Lemma free_clean_ext h h' mq m :
  mq_ok h mq → m ∈ Queue.allocatedList (MSHRQueue.queue mq) →
  (∀ m', m' ≠ m → (dp0 <$> mshrs h' !! m') = (dp0 <$> mshrs h !! m')) →
  ∀ y, y ∈ Queue.freeList (MSHRQueue.queue mq) → ∃ x, mshrs h' !! y = Some x ∧ clean x.
Proof.
  intros Hok Hm Hoth y Hy. destruct (mq_free _ _ Hok y Hy) as (x & Hx & Hc).
  eapply dp0_clean; [|done|done]. apply Hoth. by eapply free_not_alloc.
Qed.

Lemma queue_deallocate_ok h mq m x :
  mq_ok h mq → m ∈ Queue.allocatedList (MSHRQueue.queue mq) → mshrs h !! m = Some x →
  items (targets x) = [] → items (deferredTargets x) = [] → TargetList.isReset (deferredTargets x) = true →
  ∃ h' mq' b, MSHRQueue.deallocate m h mq = Ok (h', mq', b) ∧ mq_ok h' mq' ∧
    Queue.freeList (MSHRQueue.queue mq') = m :: Queue.freeList (MSHRQueue.queue mq) ∧
    Queue.allocatedList (MSHRQueue.queue mq') =
      filter (λ z, z ≠ m) (Queue.allocatedList (MSHRQueue.queue mq)).
Proof.
  intros Hok Hm Hx Hti Hdi Hdr. pose proof Hok as [Hq Hfree].
  set (y := with_inService false (with_lists (TargetList.resetFlags (targets x)) (deferredTargets x) x)).
  assert (MSHR.deallocate x = Ok y) as Hd.
  { unfold MSHR.deallocate. rewrite bool_decide_eq_true_2 by done. cbn [assert_ mbind res_bind].
    rewrite bind_assert by done. done. }
  destruct (QueueProofs.queue_free (mshrs h) m x y (MSHRQueue.queue mq) Hq Hm Hx Hd)
    as (q' & b & Hfr & Hok' & Ha & _ & Hf & _).
  unfold MSHRQueue.deallocate. rewrite Hfr. cbn [mbind res_bind]. eexists _, _, b. split; [done|].
  split_and!; try done. constructor; cbn; [done|]. rewrite Hf. intros z [->|Hz]%elem_of_cons.
  - exists y. rewrite lookup_insert_eq. split; [done|]. by unfold clean.
  - eapply (free_clean_ext h (with_mshr m y h)); [done|done| |done].
    intros m' Hne. cbn. by rewrite lookup_insert_ne.
Qed.

(** The operations on an allocated MSHR keep the queue consistent: the waiting MSHRs are
    exactly the allocated ones not in service, the counters count what they say, and free
    MSHRs have no targets.  Putting an MSHR in service takes it off the ready list, marking it
    pending puts it back, [moveToFront] makes a waiting MSHR the next one, and freeing it
    makes it the next one to be allocated. *)
Theorem mshrQueue_invariant (h : Heap) (mq : MSHRQueue.MSHRQueue) (m : positive) (x : MSHR) :
  mq_ok h mq → stacks_ok h → m ∈ Queue.allocatedList (MSHRQueue.queue mq) → mshrs h !! m = Some x →
  (∀ b h1, MSHR.markInService m b h = Ok h1 →
     ∃ mq', MSHRQueue.markInService m b h mq = Ok (h1, mq') ∧ mq_ok h1 mq' ∧
       Queue.readyList (MSHRQueue.queue mq') = filter (λ z, z ≠ m) (Queue.readyList (MSHRQueue.queue mq))) ∧
  (inService x = true → ∃ h' mq', MSHRQueue.markPending m h mq = Ok (h', mq') ∧ mq_ok h' mq' ∧
     m ∈ Queue.readyList (MSHRQueue.queue mq')) ∧
  (∃ mq', MSHRQueue.moveToFront m h mq = Ok mq' ∧ mq_ok h mq' ∧
     (inService x = false → head (Queue.readyList (MSHRQueue.queue mq')) = Some m)) ∧
  (items (targets x) = [] → items (deferredTargets x) = [] →
   TargetList.isReset (deferredTargets x) = true →
     ∃ h' mq' b, MSHRQueue.deallocate m h mq = Ok (h', mq', b) ∧ mq_ok h' mq' ∧
       head (Queue.freeList (MSHRQueue.queue mq')) = Some m).
Proof.
  intros Hok Hst Hm Hx. pose proof Hok as [Hq Hfree].
  assert (∀ b : bool, QueueProofs.svc (mshrs h) m = Some b ↔ inService x = b) as Hsvc.
  { intros b. unfold QueueProofs.svc. rewrite Hx. cbn. naive_solver. }
  split_and!.
  - intros b h1 Hmark. destruct (serve_others m b h h1 x Hst Hx Hmark) as [(x1 & Hx1 & Hs1) Hoth].
    assert (inService x = false) as Hsv.
    { unfold MSHR.markInService, get_mshr in Hmark. rewrite Hx in Hmark. cbn in Hmark.
      by destruct (inService x). }
    destruct (QueueProofs.queue_serve (mshrs h) (mshrs h1) m (MSHRQueue.queue mq) Hq Hm) as [He Hq1].
    { by apply Hsvc. }
    { split; [by eexists|]. intros m' Hne. by apply dp0_svc, Hoth. }
    { unfold QueueProofs.svc. rewrite Hx1. cbn. by rewrite Hs1. }
    unfold MSHRQueue.markInService. rewrite Hmark. cbn [mbind res_bind]. rewrite He. cbn [mbind res_bind].
    eexists. split; [done|]. split; [|done]. constructor; [done|]. exact (free_clean_ext h h1 mq m Hok Hm Hoth).
  - intros Hsv. unfold MSHRQueue.markPending, upd, get_mshr. rewrite Hx. cbn [deref mbind res_bind].
    rewrite Hsv. cbn [assert_ mbind res_bind].
    destruct (QueueProofs.queue_requeue (mshrs h) (mshrs (with_mshr m (with_inService false x) h)) m (MSHRQueue.queue mq) Hq Hm)
      as (q' & Hadd & Hq' & Ha & Hf & pre & post & _ & Hr & _).
    { by apply Hsvc. }
    { split; [cbn; rewrite lookup_insert_eq; by eexists|]. intros m' Hne. unfold QueueProofs.svc. cbn.
      by rewrite lookup_insert_ne. }
    { unfold QueueProofs.svc. cbn. by rewrite lookup_insert_eq. }
    rewrite Hadd. cbn [mbind res_bind]. eexists _, _. split; [done|]. split.
    + constructor; [done|]. cbn. rewrite Hf.
      apply (free_clean_ext h (with_mshr m (with_inService false x) h) mq m Hok Hm).
      intros m' Hne. cbn. by rewrite lookup_insert_ne.
    + cbn. rewrite Hr. apply elem_of_app. right. by left.
  - unfold MSHRQueue.moveToFront, get_mshr. rewrite Hx. cbn [deref mbind res_bind].
    destruct (inService x) eqn:Hsv; cbn [negb]; [by exists mq|].
    assert (m ∈ Queue.readyList (MSHRQueue.queue mq)) as Hin.
    { apply (QueueProofs.ready_elem (mshrs h)); [done|]. split; [done|]. by apply Hsvc. }
    rewrite QueueProofs.erase_ok by done. cbn [mbind res_bind]. eexists. split; [done|]. split; [|done].
    constructor; [|done]. destruct Hq as [? ? ? ? ? Hr ? ?]. constructor; try done. cbn.
    rewrite QueueProofs.filter_ne_perm; [done| |done]. rewrite Hr. apply NoDup_filter.
    by destruct (QueueProofs.alloc_nodup _ _ (mq_queue _ _ Hok)).
  - intros Hti Hdi Hdr. destruct (queue_deallocate_ok h mq m x Hok Hm Hx Hti Hdi Hdr) as (h' & mq' & b & Hd & Hok' & Hf & _).
    exists h', mq', b. by rewrite Hf.
Qed.

(** ** Examples *)

Definition ex_packet (c : MemCmd.Command) : Packet.Packet :=
  Packet.mkPacket 0x300 c (Request.newPhys 0 0x40 64 0 1) None 0x40 false 64 [] 0 0 0 None.

(** An MSHR holding an upgrade, in service or not. *)
Definition ex_target : Target := mkTarget 0 10 1 1 FromCPU false.
Definition ex_mshr (svc : bool) : MSHR :=
  mkMSHR 10 false svc 1 0x40 64 false false svc false false false true
    (TargetList.mkList [ex_target] true true) TargetList.newTargetList.

(** A free MSHR, an upgrade, an invalidating snoop and a read. *)
Definition ex_heap (svc : bool) : Heap :=
  mkHeap ∅ ∅ {[1%positive := ex_packet MemCmd.UpgradeReq; 2%positive := ex_packet MemCmd.ReadExReq;
               3%positive := ex_packet MemCmd.ReadReq]}
    {[10%positive := ex_mshr svc; 11%positive := newMSHR]}.

Lemma ex_mshr_ok svc : mshr_ok (ex_heap svc) (ex_mshr svc).
Proof.
  intros []; cbn; split.
  - intros t Ht. apply list_elem_of_singleton in Ht as ->. exists (ex_packet MemCmd.UpgradeReq). by split.
  - intros t p Ht _ Hp. apply list_elem_of_singleton in Ht as ->. by injection Hp as <-.
  - intros t Ht. by apply elem_of_nil in Ht.
  - intros t p Ht. by apply elem_of_nil in Ht.
Qed.

Lemma ex_stacks svc : stacks_ok (ex_heap svc).
Proof.
  intros a p Hp. exists []. cbn. unfold ex_heap in Hp. cbn [pkts] in Hp.
  apply lookup_insert_Some in Hp as [[_ <-]|[_ Hp]]; [done|].
  apply lookup_insert_Some in Hp as [[_ <-]|[_ Hp]]; [done|].
  by apply lookup_singleton_Some in Hp as [_ <-].
Qed.

Lemma ex_markable svc c : markable (ex_heap svc) (ex_packet c).
Proof. exists None. done. Qed.

(** A queue of two MSHRs, of which one is allocated and waiting. *)
Definition ex_mq : MSHRQueue.MSHRQueue :=
  MSHRQueue.mkMSHRQueue (Queue.mkQueue "mshrs" 2 1 [10%positive; 11%positive] [10%positive] [10%positive]
    [11%positive] 0 1 Drain.Running) 0.

Lemma ex_mq_ok : mq_ok (ex_heap false) ex_mq.
Proof.
  constructor.
  - constructor; cbn; try done.
    + repeat constructor; set_solver.
    + intros e [->|[->|He]%elem_of_cons]%elem_of_cons; [by eexists..|by apply elem_of_nil in He].
    + intros e He. by apply list_elem_of_singleton in He as ->.
  - intros e He. apply list_elem_of_singleton in He as ->. exists newMSHR. done.
Qed.

Lemma clearDownstreamPending_terminates_witness :
  MSHR.markInService 10 false (ex_heap false) ≠ Fail OutOfFuel.
Proof. apply (clearDownstreamPending_terminates (ex_heap false) 10 false (ex_stacks false)). Defined.

(** The upgrade in the waiting MSHR is replaced by a read for ownership. *)
Lemma snoop_before_request_witness :
  ∃ h', handleSnoop (λ _, 0) 20 10 2 5 (ex_heap false) = Ok (h', false) ∧ no_upgrade h' [ex_target].
Proof.
  destruct (snoop_before_request (λ _, 0) 20 5 10 2 (ex_heap false) (ex_packet MemCmd.ReadExReq) (ex_mshr false))
    as (h' & x' & H1 & _ & _ & _ & H2); [reflexivity|reflexivity|apply ex_mshr_ok|reflexivity|reflexivity|by left|].
  exists h'. split; [exact H1|]. exact (H2 Targets).
Defined.

Lemma snoop_after_request_witness :
  ∃ h' x', handleSnoop (λ _, 0) 20 10 2 5 (ex_heap true) = Ok (h', true) ∧ mshrs h' !! 10%positive = Some x' ∧
    postInvalidate x' = true.
Proof.
  destruct (snoop_after_request (λ _, 0) 20 5 10 2 (ex_heap true) (ex_packet MemCmd.ReadExReq) (ex_mshr true))
    as (h' & x' & p' & H1 & H2 & _ & _ & _ & _ & _ & H3 & _);
    [reflexivity|reflexivity|apply ex_mshr_ok|reflexivity..| |reflexivity|reflexivity|].
  { intros t Ht. by apply elem_of_nil in Ht. }
  exists h', x'. split; [exact H1|]. split; [exact H2|]. rewrite H3. reflexivity.
Defined.

Lemma allocateTarget_in_order_witness :
  ∃ h' x' t, allocateTarget (λ _, 0) 20 10 3 25 6 false (ex_heap true) = Ok h' ∧
    mshrs h' !! 10%positive = Some x' ∧ arrivals x' = [ex_target; t].
Proof.
  destruct (allocateTarget_in_order (λ _, 0) 20 25 6 10 3 false (ex_heap true) (ex_packet MemCmd.ReadReq) (ex_mshr true))
    as (h' & x' & t & p' & H1 & H2 & H3 & _);
    [reflexivity|reflexivity|apply ex_mshr_ok|done|reflexivity|done|reflexivity|done|apply ex_markable|].
  exists h', x', t. split; [exact H1|]. split; [exact H2|]. rewrite H3. reflexivity.
Defined.

Lemma promoteDeferred_in_order_witness :
  ∃ x', popTarget (ex_mshr true) = Ok x' ∧ arrivals (ex_mshr true) = ex_target :: arrivals x'.
Proof.
  destruct (promoteDeferred_in_order 20 (ex_mshr true)) as (_ & _ & H); [done|].
  destruct (H eq_refl) as (t & x' & Hg & Hp & Ha & _). exists x'. split; [exact Hp|].
  injection Hg as <-. exact Ha.
Defined.

Lemma mshrQueue_allocates_witness :
  ∃ h' mq', MSHRQueue.allocate 20 0x80 64 3 30 6 true (ex_heap false) ex_mq = Ok (h', mq', 11%positive) ∧
    mq_ok h' mq'.
Proof.
  destruct (mshrQueue_allocates 20 0x80 64 30 6 3 true (ex_heap false) ex_mq (ex_packet MemCmd.ReadReq) false)
    as (h' & mq' & m & x & t & pre & post & H1 & H2 & H3 & _);
    [apply ex_mq_ok|reflexivity|reflexivity|reflexivity|apply ex_markable|reflexivity|].
  injection H3 as <-. exists h', mq'. exact (conj H1 H2).
Defined.

Lemma mshrQueue_invariant_witness :
  ∃ mq', MSHRQueue.moveToFront 10 (ex_heap false) ex_mq = Ok mq' ∧ mq_ok (ex_heap false) mq'.
Proof.
  destruct (mshrQueue_invariant (ex_heap false) ex_mq 10 (ex_mshr false))
    as (_ & _ & (mq' & H1 & H2 & _) & _); [apply ex_mq_ok|apply ex_stacks|by left|reflexivity|].
  exists mq'. exact (conj H1 H2).
Defined.

End MshrProofs.
