(* ===== verification/WriteQueue.v ===== *)
(** * The write queue

    [mem/cache/write_queue_entry.hh] and [.cc], [mem/cache/write_queue.hh] and [.cc]: the
    buffer of evictions and uncacheable writes waiting to be sent.  The queue is the
    template of [CacheQueue].  [writeQueue_correct] states what the queue promises the cache. *)

From stdpp Require Import strings sorting.
From S2P Require Import Prelude MemCmd Packet Drain CacheQueue.

Open Scope Z_scope.

Module WriteQueueEntry.

Record Target := mkTarget { recvTime : Z; t_readyTime : Z; t_order : Z; pkt : positive }.

Record WriteQueueEntry := mkEntry {
  readyTime : Z;
  _isUncacheable : bool;
  inService : bool;
  order : Z;
  blkAddr : Z;
  blkSize : Z;
  isSecure : bool;
  targets : list Target
}.

Definition newEntry : WriteQueueEntry := mkEntry 0 false false 0 0 0 false [].

Definition with_targets (l : list Target) (x : WriteQueueEntry) : WriteQueueEntry :=
  mkEntry (readyTime x) (_isUncacheable x) (inService x) (order x) (blkAddr x) (blkSize x) (isSecure x) l.

Definition getNumTargets (x : WriteQueueEntry) : Z := Z.of_nat (length (targets x)).
Definition hasTargets (x : WriteQueueEntry) : bool := negb (bool_decide (targets x = [])).
Definition getTarget (x : WriteQueueEntry) : res Target :=
  _ ← assert_ (hasTargets x); deref (head (targets x)).
Definition popTarget (x : WriteQueueEntry) : res WriteQueueEntry :=
  match targets x with [] => Fail BadPointer | _ :: l => Ok (with_targets l x) end.

(** [TargetList::add] *)
Definition add (curTick : Z) (pkt : positive) (readyTime order : Z) (l : list Target) : list Target :=
  l ++ [mkTarget curTick readyTime order pkt].

Definition allocate (curTick blk_addr blk_size : Z) (pkts : gmap positive Packet.Packet)
    (target : positive) (when_ready order : Z) (x : WriteQueueEntry) : res WriteQueueEntry :=
  p ← deref (pkts !! target);
  sec ← Packet.isSecure p;
  let unc := Request.isUncacheable (Packet.req p) in
  if negb unc && hasTargets x then Fail Panicked
  else if negb ((Packet.isWrite p && unc) || (Packet.isEviction p && negb unc)) then Fail Panicked
  else Ok (mkEntry when_ready unc false order blk_addr blk_size sec
             (add curTick target when_ready order (targets x))).

Definition deallocate (x : WriteQueueEntry) : res WriteQueueEntry :=
  _ ← assert_ (bool_decide (targets x = []));
  Ok (mkEntry (readyTime x) (_isUncacheable x) false (order x) (blkAddr x) (blkSize x) (isSecure x)
        (targets x)).

Fixpoint check_targets (print : positive → Z → string → string) (pkts : gmap positive Packet.Packet)
    (l : list Target) (s : Queue.fstate) : res (bool * Queue.fstate) :=
  match l with
  | [] => Ok (false, s)
  | t :: l =>
      other ← deref (pkts !! pkt t);
      let '(mm, ss, p) := s in
      '(r, mm, ss, p) ← Packet.checkFunctionalPacket (print (pkt t)) other mm ss p;
      if r : bool then Ok (true, (mm, ss, p)) else check_targets print pkts l (mm, ss, p)
  end.

(** [print_entry] is [WriteQueueEntry::print] of this entry. *)
Definition checkFunctional (print : positive → Z → string → string) (print_entry : Z → string → string)
    (pkts : gmap positive Packet.Packet) (x : WriteQueueEntry) (s : Queue.fstate) :
    res (bool * Queue.fstate) :=
  let '(mm, ss, p) := s in
  if Packet.isPrint p then
    '(_, mm, ss, p) ← Packet.checkFunctional print_entry (blkAddr x) (isSecure x) (blkSize x) None mm ss p;
    Ok (false, (mm, ss, p))
  else check_targets print pkts (targets x) s.

#[export] Instance WriteQueueEntry_entry : QueueEntry WriteQueueEntry := {
  CacheQueue.readyTime := readyTime;
  CacheQueue.isUncacheable := _isUncacheable;
  CacheQueue.inService := inService;
  CacheQueue.blkAddr := blkAddr;
  CacheQueue.isSecure := isSecure;
  entry_deallocate := deallocate
}.

#[export] Instance WriteQueueEntry_laws : QueueEntryLaws WriteQueueEntry.
Proof.
  constructor. intros x y Hd. cbn in Hd. unfold deallocate in Hd. inv_res Hd. by subst.
Qed.

End WriteQueueEntry.

(** ** [WriteQueue] *)

Module WriteQueue.
Import WriteQueueEntry Queue QueueProofs.

Abbreviation store := (gmap positive WriteQueueEntry).

Definition newWriteQueue (lbl : string) (num_entries reserve : Z) (addrs : list positive) : Queue :=
  newQueue lbl num_entries reserve addrs.

(** Returns the address of the entry. *)
Definition allocate (curTick blk_addr blk_size : Z) (pkts : gmap positive Packet.Packet) (pkt : positive)
    (when_ready order : Z) (st : store) (q : Queue) : res (store * Queue * positive) :=
  match freeList q with
  | [] => Fail AssertFailed
  | e :: free =>
      x ← deref (st !! e);
      _ ← assert_ (getNumTargets x =? 0);
      x ← WriteQueueEntry.allocate curTick blk_addr blk_size pkts pkt when_ready order x;
      let st := <[e := x]> st in
      let q := with_allocated (allocatedList q ++ [e]) free (allocated q) q in
      q ← addToReadyList st e q;
      let q := with_allocated (allocatedList q) (freeList q) (allocated q + 1) q in
      Ok (st, q, e)
  end.

Definition markInService (e : positive) (st : store) (q : Queue) : res (store * Queue * bool) :=
  x ← deref (st !! e);
  x ← popTarget x;
  Queue.deallocate e (<[e := x]> st) q.

(** The invariant: the queue's own, the order of the entries to be sent, a single target in
    each allocated entry and none in a free one.  No entry is ever in service. *)
Record wq_ok (st : store) (q : Queue) : Prop := {
  wq_queue : queue_ok st q;
  wq_sorted : StronglySorted (by_time st) (readyList q);
  wq_alloc : ∀ e, e ∈ allocatedList q → ∃ x t, st !! e = Some x ∧ targets x = [t] ∧ inService x = false;
  wq_free : ∀ e, e ∈ freeList q → ∃ x, st !! e = Some x ∧ targets x = []
}.

(** A packet the write queue accepts. *)
Definition queueable (p : Packet.Packet) : Prop :=
  is_Ok (Packet.isSecure p) ∧
  (if Request.isUncacheable (Packet.req p) then Packet.isWrite p = true else Packet.isEviction p = true).

Lemma ready_all st q : wq_ok st q → readyList q ≡ₚ allocatedList q.
Proof.
  intros Hw. rewrite (qo_ready _ _ (wq_queue _ _ Hw)). rewrite filter_all; [done|].
  intros e He. destruct (wq_alloc _ _ Hw e He) as (x & t & Hx & _ & Hs). unfold svc. by rewrite Hx, <- Hs.
Qed.

Lemma allocate_entry now ba bs pkts a wr o p x :
  pkts !! a = Some p → queueable p → targets x = [] →
  ∃ sec, Packet.isSecure p = Ok sec ∧
    WriteQueueEntry.allocate now ba bs pkts a wr o x =
      Ok (mkEntry wr (Request.isUncacheable (Packet.req p)) false o ba bs sec [mkTarget now wr o a]).
Proof.
  intros Hp [[sec Hsec] Hq] Ht. exists sec. split; [done|]. unfold WriteQueueEntry.allocate.
  rewrite Hp. cbn [deref mbind res_bind]. rewrite Hsec. cbn [mbind res_bind].
  unfold hasTargets, add. rewrite Ht. rewrite bool_decide_eq_true_2 by done.
  cbn [negb]. rewrite andb_false_r.
  destruct (Request.isUncacheable _); rewrite Hq; cbn; rewrite ?andb_false_r; done.
Qed.

Lemma rt_insert_ne (st : store) e x e' : e' ≠ e → rt (<[e := x]> st) e' = rt st e'.
Proof. intros Hne. unfold rt. by rewrite lookup_insert_ne. Qed.

Lemma allocate_spec now ba bs pkts a wr o p st q :
  wq_ok st q → pkts !! a = Some p → queueable p → allocated q < numEntries q →
  ∃ st' q' e free x, allocate now ba bs pkts a wr o st q = Ok (st', q', e) ∧ wq_ok st' q' ∧
    freeList q = e :: free ∧ st' = <[e := x]> st ∧ targets x = [mkTarget now wr o a] ∧
    blkAddr x = ba ∧ readyTime x = wr ∧ Packet.isSecure p = Ok (isSecure x) ∧
    allocatedList q' = allocatedList q ++ [e] ∧ freeList q' = free ∧ entries q' = entries q ∧
    drain_state q' = drain_state q ∧
    ∃ pre post, readyList q = pre ++ post ∧ readyList q' = pre ++ e :: post ∧
      (∀ x, x ∈ pre → rt st x ≤ wr) ∧ (∀ x, x ∈ post → wr < rt st x).
Proof.
  intros Hw Hp Hqp Hlt. pose proof (wq_queue _ _ Hw) as Hq.
  pose proof (free_left st q Hq Hlt) as Hf. destruct (freeList q) as [|e free] eqn:Hfl; [done|].
  destruct (wq_free _ _ Hw e) as (x0 & Hx0 & Ht0); [rewrite Hfl; by left|].
  destruct (allocate_entry now ba bs pkts a wr o p x0 Hp Hqp Ht0) as (sec & Hsec & Hall).
  set (x := mkEntry _ _ _ _ _ _ _ _) in Hall. set (st' := <[e := x]> st).
  assert (svc st' e = Some false) as Hsv by (unfold svc, st'; by rewrite lookup_insert_eq).
  assert (only_at st st' e) as Ho.
  { split; [unfold st'; rewrite lookup_insert_eq; by eexists|]. intros e' Hne. unfold svc, st'.
    by rewrite lookup_insert_ne. }
  destruct (queue_take st st' e free q Hq Hfl Ho Hsv)
    as (q' & Hadd & Hok & Ha' & Hf' & He' & Hc' & Hd' & _ & _ & _ & pre & post & Hr & Hr' & Hsort).
  destruct (alloc_nodup st q Hq) as (_ & Hnf & Hdisj).
  assert (e ∉ allocatedList q) as Hea by (intros Hin; apply (Hdisj e Hin); rewrite Hfl; by left).
  unfold allocate. rewrite Hfl, Hx0. cbn [deref mbind res_bind].
  rewrite bind_assert by (unfold getNumTargets; by rewrite Ht0). rewrite Hall. cbn [mbind res_bind].
  fold st'. rewrite Hadd. cbn [mbind res_bind].
  assert (∀ z, z ∈ readyList q → rt st' z = rt st z) as Hrt.
  { intros z Hz. apply rt_insert_ne. intros ->. apply (ready_elem st q e Hq) in Hz as [Hz _]. done. }
  destruct Hsort as (Hpre & Hpost & Hsort); [apply (sorted_ext st); [done|apply Hw]|].
  assert (rt st' e = wr) as Hwr by (unfold rt, st'; by rewrite lookup_insert_eq).
  eexists st', _, e, free, x. split; [done|]. split.
  2: { cbn. split_and!; try done. exists pre, post. split_and!; [done..| |]; intros z Hz;
       rewrite <- Hrt by (rewrite Hr; apply elem_of_app; auto); rewrite <- Hwr; auto. }
  constructor; cbn; [done|done| |].
  - rewrite Ha'. intros z [Hz|Hz]%elem_of_app.
    + destruct (wq_alloc _ _ Hw z Hz) as (y & t & Hy & Ht & Hs). exists y, t. unfold st'.
      rewrite lookup_insert_ne by (by intros ->). done.
    + apply list_elem_of_singleton in Hz as ->. eexists x, _. unfold st'. by rewrite lookup_insert_eq.
  - rewrite Hf'. intros z Hz. rewrite Hfl in Hnf. apply NoDup_cons in Hnf as [Hne _].
    destruct (wq_free _ _ Hw z) as (y & Hy & Ht); [rewrite Hfl; by right|]. exists y. unfold st'.
    rewrite lookup_insert_ne by (by intros ->). done.
Qed.

Lemma markInService_spec e st q :
  wq_ok st q → e ∈ allocatedList q →
  ∃ st' q' b, markInService e st q = Ok (st', q', b) ∧ wq_ok st' q' ∧
    (∀ e', e' ≠ e → st' !! e' = st !! e') ∧
    allocatedList q' = filter (λ z, z ≠ e) (allocatedList q) ∧
    readyList q' = filter (λ z, z ≠ e) (readyList q) ∧ freeList q' = e :: freeList q ∧
    (b = true ↔ drain_state q = Drain.Draining ∧ allocatedList q = [e]).
Proof.
  intros Hw He. pose proof (wq_queue _ _ Hw) as Hq.
  destruct (wq_alloc _ _ Hw e He) as (x & t & Hx & Ht & Hs).
  set (y := with_targets [] x). set (z := mkEntry (readyTime y) (_isUncacheable y) false (order y)
    (blkAddr y) (blkSize y) (isSecure y) (targets y)).
  assert (queue_ok (<[e := y]> st) q) as Hq1.
  { assert (∀ e', svc (<[e := y]> st) e' = svc st e') as Hsv.
    { intros e'. unfold svc. destruct (decide (e' = e)) as [->|]; [|by rewrite lookup_insert_ne].
      rewrite lookup_insert_eq, Hx. done. }
    by apply (queue_ok_ext st). }
  destruct (queue_free (<[e := y]> st) e y z q Hq1 He) as (q' & b & Hd & Hok & Ha & Hr & Hf & _ & Hb & _);
    [apply lookup_insert_eq|done|].
  unfold markInService. rewrite Hx. cbn [deref mbind res_bind]. unfold popTarget. rewrite Ht.
  cbn [mbind res_bind]. fold y. rewrite Hd. eexists _, q', b. split; [done|].
  rewrite insert_insert_eq in *. split; [|split_and!; try done; intros; by apply lookup_insert_ne].
  destruct (alloc_nodup st q Hq) as (_ & Hnf & Hdisj). constructor; [done| | |].
  - rewrite Hr. apply sorted_filter. apply (sorted_ext st); [|apply Hw]. intros e' _.
    destruct (decide (e' = e)) as [->|]; [|by apply rt_insert_ne]. unfold rt. by rewrite lookup_insert_eq, Hx.
  - rewrite Ha. intros e' [Hne He']%list_elem_of_filter. rewrite lookup_insert_ne by done. by apply Hw.
  - rewrite Hf. intros e' [->|He']%elem_of_cons; [exists z; by rewrite lookup_insert_eq|].
    rewrite lookup_insert_ne; [by apply Hw|]. intros <-. by apply (Hdisj e).
Qed.

(** The contract of the write queue.  While an entry is left, an eviction or an
    uncacheable write is taken into an entry of its own; the entries waiting to be sent stay
    ordered by the time they are ready, first come first served among equals; the buffered
    write is found by its block address; and sending it gives the entry back, leaving the
    queue as it was before. *)
Theorem writeQueue_correct (now ba bs wr o : Z) (pkts : gmap positive Packet.Packet) (a : positive)
    (p : Packet.Packet) (st : store) (q : Queue) :
  wq_ok st q → pkts !! a = Some p → queueable p → allocated q < numEntries q →
  ∃ st1 q1 e st2 q2 b pre post,
    allocate now ba bs pkts a wr o st q = Ok (st1, q1, e) ∧ wq_ok st1 q1 ∧
    e ∉ allocatedList q ∧ allocatedList q1 = allocatedList q ++ [e] ∧
    readyList q = pre ++ post ∧ readyList q1 = pre ++ e :: post ∧
    (∀ x, x ∈ pre → rt st x ≤ wr) ∧ (∀ x, x ∈ post → wr < rt st x) ∧
    (∃ sec e', Packet.isSecure p = Ok sec ∧ findPending st1 ba sec q1 = Ok (Some e')) ∧
    markInService e st1 q1 = Ok (st2, q2, b) ∧ wq_ok st2 q2 ∧
    allocatedList q2 = allocatedList q ∧ readyList q2 = readyList q ∧ freeList q2 = freeList q ∧
    ∀ e', e' ≠ e → st2 !! e' = st !! e'.
Proof.
  intros Hw Hp Hqp Hlt. pose proof (wq_queue _ _ Hw) as Hq.
  destruct (allocate_spec now ba bs pkts a wr o p st q Hw Hp Hqp Hlt)
    as (st1 & q1 & e & free & x & Hall & Hw1 & Hf & Hst & Ht & Hba & Hwr & Hsec & Ha & Hf1 & He1 & _ &
        pre & post & Hr & Hr1 & Hpre & Hpost).
  destruct (alloc_nodup st q Hq) as (_ & _ & Hdisj).
  assert (e ∉ allocatedList q) as Hea by (intros Hin; apply (Hdisj e Hin); rewrite Hf; by left).
  assert (e ∉ readyList q) as Her by (intros Hin; apply (ready_elem st q e Hq) in Hin as [? _]; done).
  destruct (markInService_spec e st1 q1 Hw1) as (st2 & q2 & b & Hmark & Hw2 & Hoth & Ha2 & Hr2 & Hf2 & _).
  { rewrite Ha. apply elem_of_app. right. by left. }
  exists st1, q1, e, st2, q2, b, pre, post. split_and!; try done.
  - exists (isSecure x). destruct (find_entry_spec
      (λ y, (CacheQueue.blkAddr y =? ba) && Bool.eqb (CacheQueue.isSecure y) (isSecure x)) st1 (readyList q1))
      as (r & Hfind & Hres).
    { intros y Hy. apply (ready_elem st1 q1 y (wq_queue _ _ Hw1)) in Hy as [Hy _].
      eapply (qo_store _ _ (wq_queue _ _ Hw1)), alloc_entry; [apply Hw1|done]. }
    destruct r as [e'|]; [by exists e'|]. exfalso. assert (e ∈ readyList q1) as Hin.
    { rewrite Hr1. apply elem_of_app. right. by left. }
    specialize (Hres e x Hin). rewrite Hst, lookup_insert_eq in Hres. specialize (Hres eq_refl).
    cbn in Hres. by rewrite Hba, Z.eqb_refl, Bool.eqb_reflx in Hres.
  - rewrite Ha2, Ha, filter_app, filter_cons_False, filter_nil, app_nil_r by naive_solver.
    apply filter_all. by intros y Hy ->.
  - rewrite Hr2, Hr1, filter_app, filter_cons_False by naive_solver. rewrite <- filter_app, <- Hr.
    apply filter_all. by intros y Hy ->.
  - by rewrite Hf2, Hf1.
  - intros e' Hne. rewrite Hoth, Hst by done. by apply lookup_insert_ne.
Qed.

(** A queue of two entries and the eviction of a block. *)
Definition ex_store : store := {[1%positive := newEntry; 2%positive := newEntry]}.
Definition ex_queue : Queue := newWriteQueue "wq" 1 1 [1%positive; 2%positive].
Definition ex_packet : Packet.Packet :=
  Packet.mkPacket 0x1300 MemCmd.WritebackDirty (Request.newPhys 0 0x40 64 0 1) None 0x40 false 64 [] 0 0 0 None.

Lemma ex_ok : wq_ok ex_store ex_queue.
Proof.
  assert (∀ e, e ∈ [1%positive; 2%positive] → ex_store !! e = Some newEntry) as He.
  { intros e [->|[->|Hin]%elem_of_cons]%elem_of_cons; [done..|by apply elem_of_nil in Hin]. }
  constructor; cbn.
  - apply queue_new; [done|repeat constructor; set_solver|]. intros e Hin. unfold svc. by rewrite (He e Hin).
  - constructor.
  - intros e Hin. by apply elem_of_nil in Hin.
  - intros e Hin. exists newEntry. by rewrite (He e Hin).
Qed.

Lemma writeQueue_correct_witness :
  ∃ st1 q1 e, allocate 5 0x40 64 {[7%positive := ex_packet]} 7 10 1 ex_store ex_queue = Ok (st1, q1, e) ∧
    wq_ok st1 q1.
Proof.
  destruct (writeQueue_correct 5 0x40 64 10 1 {[7%positive := ex_packet]} 7 ex_packet ex_store ex_queue)
    as (st1 & q1 & e & st2 & q2 & b & pre & post & H1 & H2 & _).
  - apply ex_ok.
  - reflexivity.
  - split; [by eexists|reflexivity].
  - reflexivity.
  - exists st1, q1, e. exact (conj H1 H2).
Defined.

End WriteQueue.
