(* ===== verification/PacketQueue.v ===== *)
(** * Packet queues of ports

    [mem/packet_queue.hh] and [mem/packet_queue.cc]: a port buffers the packets it cannot send
    yet, ordered by the tick they are due at, and sends the first one when its send event fires
    or when the peer asks for a retry.

    The queue sees the event queue through the interface [EventManager], the operations of the
    class of that name in [sim/eventq.hh] on the one event the packet queue owns;
    [EventManagerLaws] states what it relies on and [PacketQueueProofs] shows that the event
    queue of [EventQueue] provides it.  [sendTiming] is a virtual function that calls the peer:
    it is a parameter, and it may call the queue again before it returns. *)

From stdpp Require Import strings.
From S2P Require Import Prelude MemCmd Packet Drain CacheQueue.

Open Scope Z_scope.

(** The event manager, seen by the owner of one event: [scheduledAt] is [when()] while the event
    is [scheduled()]. *)
Class EventManager (E : Type) := {
  curTick : E → Z;
  scheduledAt : E → option Z;
  em_schedule : Z → E → res E;
  em_reschedule : Z → E → res E
}.

Class EventManagerLaws (E : Type) `{EventManager E} (em_ok : E → Prop) := {
  schedule_law e t : em_ok e → scheduledAt e = None → curTick e ≤ t →
    ∃ e', em_schedule t e = Ok e' ∧ em_ok e' ∧ scheduledAt e' = Some t ∧ curTick e' = curTick e;
  reschedule_law e t0 t : em_ok e → scheduledAt e = Some t0 → curTick e ≤ t →
    ∃ e', em_reschedule t e = Ok e' ∧ em_ok e' ∧ scheduledAt e' = Some t ∧ curTick e' = curTick e
}.

Module PacketQueue.

#[local] Existing Instance Drain.DrainState_eq_dec.

Abbreviation MaxTick := Queue.MaxTick.

Record DeferredPacket := mkDeferred { tick : Z; pkt : positive }.

#[export] Instance DeferredPacket_eq_dec : EqDecision DeferredPacket.
Proof. solve_decision. Defined.

(** [self] is the address the drain manager knows the queue by. *)
Record PacketQueue := mkPacketQueue {
  self : positive;
  transmitList : list DeferredPacket;
  _disableSanityCheck : bool;
  label : string;
  waitingOnRetry : bool
}.

Definition newPacketQueue (self : positive) (_label : string) (disable_sanity_check : bool) : PacketQueue :=
  mkPacketQueue self [] disable_sanity_check _label false.

Definition with_list (l : list DeferredPacket) (q : PacketQueue) : PacketQueue :=
  mkPacketQueue (self q) l (_disableSanityCheck q) (label q) (waitingOnRetry q).
Definition with_waiting (b : bool) (q : PacketQueue) : PacketQueue :=
  mkPacketQueue (self q) (transmitList q) (_disableSanityCheck q) (label q) b.
Definition disableSanityCheck (q : PacketQueue) : PacketQueue :=
  mkPacketQueue (self q) (transmitList q) true (label q) (waitingOnRetry q).

Definition size (q : PacketQueue) : Z := vsize (transmitList q).
Definition deferredPacketReadyTime (q : PacketQueue) : Z :=
  match transmitList q with [] => MaxTick | dp :: _ => tick dp end.

Definition drain (q : PacketQueue) : Drain.DrainState :=
  match transmitList q with [] => Drain.Drained | _ => Drain.Draining end.

(** Packets are shared with the rest of the simulator: the queue holds their addresses. *)
Abbreviation Packets := (gmap positive Packet.Packet).

Definition addr_of (ps : Packets) (a : positive) : res Z :=
  p ← deref (ps !! a); Packet.getAddr p.

Fixpoint has_addr (ps : Packets) (addr : Z) (l : list DeferredPacket) : res bool :=
  match l with
  | [] => Ok false
  | dp :: l => a ← addr_of ps (pkt dp); if a =? addr then Ok true else has_addr ps addr l
  end.

Definition hasAddr (ps : Packets) (addr : Z) (q : PacketQueue) : res bool :=
  has_addr ps addr (transmitList q).

(** [print a] is the [print()] of the packet at [a]; the state is the byte memory, the sender
    states and the functional packet. *)
Fixpoint check_list (print : positive → Z → string → string) (ps : Packets) (l : list DeferredPacket)
    (s : Queue.fstate) : res (bool * Queue.fstate) :=
  match l with
  | [] => Ok (false, s)
  | dp :: l =>
      other ← deref (ps !! pkt dp);
      let '(mm, ss, p) := s in
      '(found, mm, ss, p) ← Packet.checkFunctionalPacket (print (pkt dp)) other mm ss p;
      if found : bool then Ok (true, (mm, ss, p)) else check_list print ps l (mm, ss, p)
  end.

Definition checkFunctional (print : positive → Z → string → string) (ps : Packets) (q : PacketQueue)
    (s : Queue.fstate) : res (bool * Queue.fstate) :=
  let '(mm, ss, p) := s in
  ss ← Packet.pushLabel (label q) ss p;
  '(found, (mm, ss, p)) ← check_list print ps (transmitList q) (mm, ss, p);
  ss ← Packet.popLabel ss p;
  Ok (found, (mm, ss, p)).

(** The search for the place of a packet: [i] walks from the last element towards the first
    and stops at the first. *)
Fixpoint find_place (ps : Packets) (p : positive) (when : Z) (force_order : bool)
    (l : list DeferredPacket) (i : nat) : res nat :=
  match i with
  | O => Ok O
  | S j =>
      x ← deref (l !! i);
      go ← (if when <? tick x then
              if force_order then
                a ← addr_of ps (pkt x); b ← addr_of ps p; Ok (negb (a =? b))
              else Ok true
            else Ok false);
      if go : bool then find_place ps p when force_order l j else Ok i
  end.

(** The queue, the events, the packets, the drain manager, and the rest of the simulator. *)
Section Queue.
Context {E R : Type} `{EventManager E}.

Record World := mkWorld {
  q : PacketQueue;
  em : E;
  pkts : Packets;
  drains : Drain.World;
  rest : R
}.

Definition with_q (f : PacketQueue → PacketQueue) (w : World) : World :=
  mkWorld (f (q w)) (em w) (pkts w) (drains w) (rest w).
Definition with_em (e : E) (w : World) : World :=
  mkWorld (q w) e (pkts w) (drains w) (rest w).
Definition with_drains (d : Drain.World) (w : World) : World :=
  mkWorld (q w) (em w) (pkts w) d (rest w).

Definition deferredPacketReady (w : World) : bool :=
  match transmitList (q w) with
  | [] => false
  | dp :: _ => tick dp <=? curTick (em w)
  end.

Definition schedSendEvent (when : Z) (w : World) : res World :=
  if waitingOnRetry (q w) then
    _ ← assert_ (bool_decide (scheduledAt (em w) = None));
    Ok w
  else if negb (when =? MaxTick) then
    let when := Z.max when (u64 (curTick (em w) + 1)) in
    match scheduledAt (em w) with
    | None => e ← em_schedule when (em w); Ok (with_em e w)
    | Some t =>
        if when <? t then e ← em_reschedule when (em w); Ok (with_em e w) else Ok w
    end
  else
    s ← Drain.drainState (self (q w)) (drains w);
    if bool_decide (s = Drain.Draining) && bool_decide (transmitList (q w) = []) &&
       bool_decide (scheduledAt (em w) = None)
    then d ← Drain.signalDrainDone (self (q w)) (drains w); Ok (with_drains d w)
    else Ok w.

Definition schedSendTiming (p : positive) (when : Z) (force_order : bool) (w : World) : res World :=
  _ ← assert_ (curTick (em w) <=? when);
  x ← deref (pkts w !! p);
  _ ← assert_ (negb (Packet.isExpressSnoop x));
  if negb (_disableSanityCheck (q w)) && (100 <? size (q w)) then Fail Panicked
  else match transmitList (q w) with
  | [] => schedSendEvent when (with_q (with_list [mkDeferred when p]) w)
  | l =>
      i ← find_place (pkts w) p when force_order l (length l - 1);
      Ok (with_q (with_list (take (S i) l ++ mkDeferred when p :: drop (S i) l)) w)
  end.

(** [sendTiming(pkt)] of the subclass: what the peer answers, and what it does meanwhile. *)
Context (sendTiming : positive → World → res (bool * World)).

Definition sendDeferredPacket (w : World) : res World :=
  _ ← assert_ (negb (waitingOnRetry (q w)));
  _ ← assert_ (deferredPacketReady w);
  dp ← deref (head (transmitList (q w)));
  let w := with_q (λ q, with_list (tail (transmitList q)) q) w in
  '(sent, w) ← sendTiming (pkt dp) w;
  let w := with_q (with_waiting (negb sent)) w in
  if negb (waitingOnRetry (q w)) then schedSendEvent (deferredPacketReadyTime (q w)) w
  else Ok (with_q (λ q, with_list (dp :: transmitList q) q) w).

Definition processSendEvent (w : World) : res World :=
  _ ← assert_ (negb (waitingOnRetry (q w)));
  sendDeferredPacket w.

Definition retry (w : World) : res World :=
  _ ← assert_ (waitingOnRetry (q w));
  sendDeferredPacket (with_q (with_waiting false) w).

End Queue.
Arguments World E R : clear implicits.

End PacketQueue.
