(* ===== verification/PacketQueueProofs.v ===== *)
(** * Correctness of packet queues

    [pq_inv] is the invariant between operations and [pq_mid] the one while a packet is being
    handed to the peer.  The theorems show where a new packet is put, that no assertion of the
    queue fails whatever the peer does within its contract ([Peer]), and that the queue empties
    and reports itself drained.  [EventQueue_manager] connects the queue to the event queue. *)

From stdpp Require Import strings sorting relations.
From S2P Require Import Prelude MemCmd Packet Drain CacheQueue EventQueue EventQueueProofs PacketQueue.

Open Scope Z_scope.

Module PacketQueueProofs.
Import PacketQueue.

#[local] Existing Instance Drain.DrainState_eq_dec.

#[export] Instance res_eq_dec {A} `{EqDecision A} : EqDecision (res A).
Proof. solve_decision. Defined.

(** ** Where a packet is put *)

(** [x] has the address of packet [p]. *)
Definition same_addr (ps : Packets) (p : positive) (x : DeferredPacket) : Prop :=
  addr_of ps (pkt x) = addr_of ps p.

#[export] Instance same_addr_dec ps p x : Decision (same_addr ps p x).
Proof. unfold same_addr. apply _. Defined.

Definition has_addrs (ps : Packets) (l : list DeferredPacket) : Prop :=
  Forall (λ x, is_Ok (addr_of ps (pkt x))) l.

(** A packet the search of [schedSendTiming] passes over. *)
Definition passed (ps : Packets) (p : positive) (when : Z) (fo : bool) (x : DeferredPacket) : Prop :=
  when < tick x ∧ (fo = true → ¬ same_addr ps p x).

#[export] Instance passed_dec ps p when fo x : Decision (passed ps p when fo x).
Proof. unfold passed. apply _. Defined.

Lemma find_place_spec ps p when fo l i :
  has_addrs ps l → is_Ok (addr_of ps p) → (i < length l)%nat →
  ∃ j, find_place ps p when fo l i = Ok j ∧ (j ≤ i)%nat ∧
    (∀ k x, (j < k ≤ i)%nat → l !! k = Some x → passed ps p when fo x) ∧
    (j = 0%nat ∨ ∃ x, l !! j = Some x ∧ ¬ passed ps p when fo x).
Proof.
  intros Hl [b Hb]. induction i as [|i IH]; intros Hi.
  { exists 0%nat. split_and!; [done|done|lia|by left]. }
  destruct (lookup_lt_is_Some_2 l (S i) Hi) as [x Hx].
  destruct (Forall_lookup_1 _ _ _ _ Hl Hx) as [a Ha].
  assert ((if when <? tick x then
             if fo then a ← addr_of ps (pkt x); b ← addr_of ps p; Ok (negb (a =? b)) else Ok true
           else Ok false) = Ok (bool_decide (passed ps p when fo x))) as Hgo.
  { assert (passed ps p when fo x ↔ when < tick x ∧ (fo = true → a ≠ b)) as Hiff.
    { unfold passed, same_addr. rewrite Ha, Hb. naive_solver. }
    rewrite (bool_decide_ext _ _ Hiff), Ha, Hb. cbn [mbind res_bind].
    destruct (Z.ltb_spec when (tick x)).
    - destruct fo; [destruct (Z.eqb_spec a b)|]; symmetry; f_equal; simpl;
        [apply bool_decide_eq_false|apply bool_decide_eq_true..]; naive_solver.
    - rewrite bool_decide_eq_false_2; [done|lia]. }
  cbn [find_place]. rewrite Hx. cbn [deref mbind res_bind].
  rewrite Hgo. cbn [mbind res_bind]. case_bool_decide as Hp.
  - destruct IH as (j & -> & Hj & Hpass & Hstop); [lia|]. exists j. split_and!; [done|lia| |done].
    intros k y Hk Hy. destruct (decide (k = S i)) as [->|]; [by simplify_eq|]. eapply Hpass; [|done]. lia.
  - exists (S i). split_and!; [done|lia|lia|]. right. eauto.
Qed.

(** The list [l'] is [l] with [dp] put behind everything that is not passed over, and never
    before the first packet. *)
Definition placed (ps : Packets) (fo : bool) (dp : DeferredPacket) (l l' : list DeferredPacket) : Prop :=
  ∃ l1 l2, l = l1 ++ l2 ∧ l' = l1 ++ dp :: l2 ∧
    Forall (passed ps (pkt dp) (tick dp) fo) l2 ∧
    (l1 = [] ∧ l2 = [] ∨ ∃ x l0, l1 = l0 ++ [x] ∧ (l0 = [] ∨ ¬ passed ps (pkt dp) (tick dp) fo x)).

Lemma find_place_placed ps p when fo l :
  has_addrs ps l → is_Ok (addr_of ps p) → l ≠ [] →
  ∃ i, find_place ps p when fo l (length l - 1) = Ok i ∧
    placed ps fo (mkDeferred when p) l (take (S i) l ++ mkDeferred when p :: drop (S i) l).
Proof.
  intros Hl Hp Hne. assert (0 < length l)%nat by (destruct l; simpl; [done|lia]).
  destruct (find_place_spec ps p when fo l (length l - 1)) as (i & Hi & Hle & Hpass & Hstop); [done..|lia|].
  exists i. split; [done|]. exists (take (S i) l), (drop (S i) l). split_and!; [by rewrite take_drop|done| |].
  - apply Forall_lookup. intros k x. rewrite lookup_drop. intros Hx. apply (Hpass (S i + k)%nat); [|done].
    apply lookup_lt_Some in Hx. lia.
  - right. destruct (lookup_lt_is_Some_2 l i) as [x Hx]; [lia|]. exists x, (take i l).
    split; [by apply take_S_r|]. destruct Hstop as [->|(y & Hy & Hny)]; [by left|right]. by simplify_eq.
Qed.

Section Placed.
Context (ps : Packets) (fo : bool) (dp : DeferredPacket) (l l' : list DeferredPacket).
Hypothesis Hpl : placed ps fo dp l l'.

Lemma placed_perm : l' ≡ₚ dp :: l.
Proof. destruct Hpl as (l1 & l2 & -> & -> & _). by rewrite <- Permutation_middle. Qed.

Lemma placed_head : l ≠ [] → head l' = head l.
Proof.
  destruct Hpl as (l1 & l2 & -> & -> & _ & [[-> ->]|(x & l0 & -> & _)]); [done|].
  intros _. by destruct l0.
Qed.

(** With [force_order], packets of one address stay in the order they came. *)
Lemma placed_addr : fo = true → filter (same_addr ps (pkt dp)) l' = filter (same_addr ps (pkt dp)) l ++ [dp].
Proof.
  intros Hfo. destruct Hpl as (l1 & l2 & -> & -> & Hpass & _).
  rewrite !filter_app, filter_cons_True by done.
  rewrite (filter_none _ l2); [by rewrite app_nil_r|].
  intros x Hx. rewrite Forall_forall in Hpass. by apply (Hpass x Hx).
Qed.

(** Packets due at the same tick stay in the order they came. *)
Lemma placed_tick : filter (λ x, tick x = tick dp) l' = filter (λ x, tick x = tick dp) l ++ [dp].
Proof.
  destruct Hpl as (l1 & l2 & -> & -> & Hpass & _). rewrite !filter_app, filter_cons_True by done.
  rewrite (filter_none _ l2); [by rewrite app_nil_r|].
  intros x Hx. rewrite Forall_forall in Hpass. destruct (Hpass x Hx). lia.
Qed.

(** Without [force_order], the packets behind the first stay sorted by tick. *)
Lemma placed_sorted :
  fo = false → StronglySorted Z.le (tick <$> tail l) → StronglySorted Z.le (tick <$> tail l').
Proof.
  intros Hfo. destruct Hpl as (l1 & l2 & -> & -> & Hpass & [[-> ->]|(x & l0 & -> & Hx)]).
  { intros _. constructor. }
  assert (∀ y, passed ps (pkt dp) (tick dp) fo y ↔ tick dp < tick y) as Hp.
  { unfold passed. rewrite Hfo. naive_solver. }
  assert (Forall (λ y, tick dp ≤ y) (tick <$> l2)) as Hl2.
  { apply Forall_fmap. eapply Forall_impl; [done|]. intros y Hy%Hp. simpl. lia. }
  destruct l0 as [|z l0]; simpl.
  - intros Hs. by constructor.
  - destruct Hx as [?|Hx]; [done|]. rewrite Hp in Hx. rewrite !(fmap_app _ (l0 ++ [x])). simpl.
    rewrite !StronglySorted_app. intros (Hc & Hs1 & Hs2). split_and!; [|done|by constructor].
    intros a b Ha [->|Hb]%elem_of_cons; [|by apply Hc].
    rewrite fmap_app in Ha, Hs1. apply StronglySorted_app in Hs1 as (Hc1 & _ & _).
    apply elem_of_app in Ha as [Ha|Ha%list_elem_of_singleton]; [|simpl in Ha; lia].
    specialize (Hc1 a (tick x) Ha ltac:(by left)). lia.
Qed.
End Placed.

(** ** The invariant *)

Section Invariant.
Context {E R : Type} `{EventManager E} (em_ok : E → Prop) `{!EventManagerLaws E em_ok}.
Implicit Types w : World E R.

(** What holds at all times: the clock is before the end of time, every buffered packet has an
    address and is due before the end of time, and the drain manager knows the queue. *)
Record pq_core w : Prop := {
  pc_em : em_ok (em w);
  pc_now : 0 ≤ curTick (em w) < MaxTick;
  pc_addr : has_addrs (pkts w) (transmitList (q w));
  pc_tick : Forall (λ x, tick x < MaxTick) (transmitList (q w));
  pc_drain : Drain.drain_inv (drains w);
  pc_self : is_Some (Drain.drainStates (drains w) !! self (q w))
}.

(** The first packet is due no later than the event that sends it. *)
Definition event_covers (t : Z) w : Prop :=
  curTick (em w) ≤ t ∧ ∃ dp, head (transmitList (q w)) = Some dp ∧ tick dp ≤ t.

(** Between operations: an empty queue is idle; a queue that waits for a retry has a first
    packet that is due and no event; any other queue has its event scheduled. *)
Record pq_inv w : Prop := {
  pi_core : pq_core w;
  pi_send : match transmitList (q w) with
            | [] => waitingOnRetry (q w) = false ∧ scheduledAt (em w) = None
            | dp :: _ =>
                if waitingOnRetry (q w) then scheduledAt (em w) = None ∧ tick dp ≤ curTick (em w)
                else ∃ t, scheduledAt (em w) = Some t ∧ event_covers t w
            end
}.

(** While a packet is being sent. *)
Record pq_mid w : Prop := {
  pm_core : pq_core w;
  pm_waiting : waitingOnRetry (q w) = false;
  pm_event t : scheduledAt (em w) = Some t → event_covers t w
}.

(** The time a send event is scheduled at. *)
Lemma next_tick w : pq_core w → u64 (curTick (em w) + 1) = curTick (em w) + 1.
Proof. intros Hc. apply wrap_small. pose proof (pc_now _ Hc). unfold in_width, MaxTick in *. lia. Qed.

Lemma pq_core_em w e :
  pq_core w → em_ok e → 0 ≤ curTick e < MaxTick → pq_core (with_em e w).
Proof. intros []. by constructor. Qed.

(** [schedSendEvent] for a packet that is there leaves the event scheduled at a time that
    covers it. *)
Lemma schedSendEvent_spec w dp l :
  pq_mid w → transmitList (q w) = dp :: l →
  ∃ e t, schedSendEvent (tick dp) w = Ok (with_em e w) ∧ pq_core (with_em e w) ∧
    curTick e = curTick (em w) ∧ scheduledAt e = Some t ∧ tick dp ≤ t ∧ curTick (em w) ≤ t ∧
    match scheduledAt (em w) with
    | None => t = Z.max (tick dp) (curTick (em w) + 1)
    | Some t0 => t = Z.min t0 (Z.max (tick dp) (curTick (em w) + 1))
    end.
Proof.
  intros [Hc Hw He] Hl. unfold schedSendEvent. rewrite Hw, (next_tick w Hc).
  pose proof (pc_tick _ Hc) as Ht. rewrite Hl in Ht. apply Forall_cons in Ht as [Ht _].
  destruct (Z.eqb_spec (tick dp) MaxTick); [lia|]. cbn [negb].
  set (t := Z.max (tick dp) (curTick (em w) + 1)).
  destruct (scheduledAt (em w)) as [t0|] eqn:Hs.
  - destruct (He t0 eq_refl) as [Hct (dp' & Hdp & Hle)]. rewrite Hl in Hdp. injection Hdp as <-.
    destruct (Z.ltb_spec t t0).
    + destruct (reschedule_law (em w) t0 t) as (e & -> & Hok & Hat & Hcur); [apply Hc|done|lia|].
      cbn [mbind res_bind]. exists e, t. rewrite Hcur. split_and!; [done| |done..|lia|lia|lia].
      apply pq_core_em; [done|done|]. rewrite Hcur. apply Hc.
    + exists (em w), t0. split_and!; [by destruct w|by destruct w|done..|lia].
  - destruct (schedule_law (em w) t) as (e & -> & Hok & Hat & Hcur); [apply Hc|done|lia|].
    cbn [mbind res_bind]. exists e, t. rewrite Hcur. split_and!; [done| |done..|lia|lia|done].
    apply pq_core_em; [done|done|]. rewrite Hcur. apply Hc.
Qed.

(** [schedSendEvent(MaxTick)] on an idle queue: a queue that is draining is done. *)
Lemma schedSendEvent_idle w :
  pq_core w → waitingOnRetry (q w) = false → transmitList (q w) = [] → scheduledAt (em w) = None →
  ∃ d, schedSendEvent MaxTick w = Ok (with_drains d w) ∧ pq_core (with_drains d w) ∧
    Drain.drainStates d !! self (q w) =
      (if decide (Drain.drainStates (drains w) !! self (q w) = Some Drain.Draining)
       then Some Drain.Drained else Drain.drainStates (drains w) !! self (q w)).
Proof.
  intros Hc Hw Hl Hs. unfold schedSendEvent. rewrite Hw, Z.eqb_refl. cbn [negb].
  destruct (pc_self _ Hc) as [s Hself]. unfold Drain.drainState. rewrite Hself. cbn [deref mbind res_bind].
  rewrite Hl, Hs. rewrite (bool_decide_true (@eq (list DeferredPacket) [] [])), (bool_decide_true (@eq (option Z) None None)), !andb_true_r by done.
  case_bool_decide as Hd.
  - subst s. destruct (Drain.signal_spec (self (q w)) (drains w)) as (d & -> & Hdi & _ & _ & Hst & _);
      [apply Hc|by eexists|]. cbn [mbind res_bind]. exists d. rewrite decide_True in Hst by done. rewrite decide_True by done.
    split_and!; [done| |by rewrite Hst, lookup_insert_eq].
    destruct Hc. constructor; try done. cbn. rewrite Hst, lookup_insert_eq. by eexists.
  - exists (drains w). rewrite decide_False by naive_solver. split_and!; [by destruct w|by destruct w|done].
Qed.

(** *** [schedSendTiming] *)

(** The guards of [schedSendTiming]. *)
Definition may_enqueue (p : positive) (when : Z) w : Prop :=
  curTick (em w) ≤ when < MaxTick ∧ is_Ok (addr_of (pkts w) p) ∧
  (∃ x, pkts w !! p = Some x ∧ Packet.isExpressSnoop x = false) ∧
  (_disableSanityCheck (q w) = true ∨ size (q w) ≤ 100).

Lemma schedSendTiming_list p when fo w :
  pq_core w → may_enqueue p when w → transmitList (q w) ≠ [] →
  ∃ l', schedSendTiming p when fo w = Ok (with_q (with_list l') w) ∧
    placed (pkts w) fo (mkDeferred when p) (transmitList (q w)) l' ∧ pq_core (with_q (with_list l') w).
Proof.
  intros Hc (Hw & Ha & (x & Hx & Hex) & Hsz) Hne. unfold schedSendTiming.
  rewrite bind_assert by (apply Z.leb_le; lia). rewrite Hx. cbn [deref mbind res_bind].
  rewrite Hex. cbn [negb]. rewrite bind_assert by done.
  replace (negb (_disableSanityCheck (q w)) && (100 <? size (q w))) with false.
  2: { destruct Hsz as [->|]; [done|]. destruct (Z.ltb_spec 100 (size (q w))); [lia|]. by rewrite andb_false_r. }
  destruct (find_place_placed (pkts w) p when fo (transmitList (q w))) as (i & Hi & Hpl); [apply Hc|done..|].
  destruct (transmitList (q w)) as [|dp l] eqn:Hl; [done|]. rewrite Hi. cbn [mbind res_bind].
  eexists. split; [done|]. split; [done|]. pose proof (placed_perm _ _ _ _ _ Hpl) as Hperm.
  destruct Hc. rewrite Hl in *. constructor; try done; cbn; unfold has_addrs; rewrite Hperm; constructor; try done.
  cbn. lia.
Qed.

Lemma schedSendTiming_empty p when fo w :
  pq_mid w → may_enqueue p when w → transmitList (q w) = [] →
  ∃ e t, schedSendTiming p when fo w = Ok (with_em e (with_q (with_list [mkDeferred when p]) w)) ∧
    pq_core (with_em e (with_q (with_list [mkDeferred when p]) w)) ∧
    curTick e = curTick (em w) ∧ scheduledAt e = Some t ∧ when ≤ t ∧ curTick (em w) ≤ t ∧
    t = Z.max when (curTick (em w) + 1).
Proof.
  intros [Hc Hwt He] (Hw & Ha & (x & Hx & Hex) & Hsz) Hl. unfold schedSendTiming.
  rewrite bind_assert by (apply Z.leb_le; lia). rewrite Hx. cbn [deref mbind res_bind].
  rewrite Hex. cbn [negb]. rewrite bind_assert by done. unfold size. rewrite Hl, andb_false_r.
  assert (scheduledAt (em w) = None) as Hs.
  { destruct (scheduledAt (em w)) as [t|]; [|done]. destruct (He t eq_refl) as [_ (dp & Hdp & _)]. by rewrite Hl in Hdp. }
  destruct (schedSendEvent_spec (with_q (with_list [mkDeferred when p]) w) (mkDeferred when p) [])
    as (e & t & Hok & Hc' & Hcur & Hat & H1 & H2 & Ht); [|done|].
  - constructor; [|done|]; cbn.
    + destruct Hc. constructor; try done; cbn; repeat constructor; try done. cbn. lia.
    + intros t. by rewrite Hs.
  - exists e, t. cbn in *. rewrite Hs in Ht. done.
Qed.

(** *** The rest of the simulator *)

(** Something else happened: time may have passed, but not beyond the send event; the buffered
    packets, and those of [K], keep their addresses. *)
Record env (K : list positive) w w' : Prop := {
  env_q : q w' = q w;
  env_em : em_ok (em w');
  env_at : scheduledAt (em w') = scheduledAt (em w);
  env_now : curTick (em w) ≤ curTick (em w') < MaxTick;
  env_before t : scheduledAt (em w) = Some t → curTick (em w') ≤ t;
  env_addr a : a ∈ K ++ (pkt <$> transmitList (q w)) → addr_of (pkts w') a = addr_of (pkts w) a;
  env_drain : Drain.drain_inv (drains w');
  env_state : Drain.drainStates (drains w') !! self (q w) = Drain.drainStates (drains w) !! self (q w)
}.

Definition quiet (K : list positive) w w' : Prop :=
  env K w w' ∧ curTick (em w') = curTick (em w).

(** What may happen before [sendTiming] returns: the peer buffers new packets in this queue. *)
Inductive during : World E R → World E R → Prop :=
  | during_quiet w w' : quiet [] w w' → during w w'
  | during_enqueue p when fo w w' :
      may_enqueue p when w → schedSendTiming p when fo w = Ok w' → during w w'.

(** The contract of the peer: called at any time, it answers; a peer that refuses a packet does
    nothing else with this queue. *)
Class Peer (sendTiming : positive → World E R → res (bool * World E R)) : Prop := {
  peer_law p w : pq_mid w → is_Ok (addr_of (pkts w) p) →
    ∃ sent w', sendTiming p w = Ok (sent, w') ∧ if sent then rtc during w w' else quiet [p] w w'
}.

(** The simulator took the send event off its queue, at the tick it was scheduled for. *)
Definition fired (e e' : E) : Prop :=
  ∃ t, scheduledAt e = Some t ∧ em_ok e' ∧ curTick e' = t ∧ t < MaxTick ∧ scheduledAt e' = None.

Lemma env_core K w w' : pq_core w → env K w w' → pq_core w'.
Proof.
  intros [He Hn Ha Ht Hd Hs] [Eq Eem Eat Enow _ Eaddr Edr Est]. constructor; rewrite ?Eq; try done; [lia| |by rewrite Est].
  apply Forall_forall. intros x Hx. unfold has_addrs in Ha. rewrite Forall_forall in Ha.
  rewrite Eaddr; [by apply Ha|]. apply elem_of_app. right. by apply list_elem_of_fmap_2.
Qed.

Lemma env_covers K w w' t :
  env K w w' → scheduledAt (em w) = Some t → event_covers t w → event_covers t w'.
Proof.
  intros Henv Hs [_ (dp & Hdp & Hle)]. split; [by eapply env_before|]. exists dp. by rewrite (env_q _ _ _ Henv).
Qed.

Lemma env_inv K w w' : pq_inv w → env K w w' → pq_inv w'.
Proof.
  intros [Hc Hs] Henv. split; [by eapply env_core|].
  pose proof (env_now _ _ _ Henv). rewrite (env_q _ _ _ Henv), (env_at _ _ _ Henv).
  destruct (transmitList (q w)) as [|dp l]; [done|]. destruct (waitingOnRetry (q w)).
  - destruct Hs. split; [done|lia].
  - destruct Hs as (t & Hat & Hcov). exists t. split; [done|]. by eapply env_covers.
Qed.

Lemma quiet_mid K w w' : pq_mid w → quiet K w w' → pq_mid w'.
Proof.
  intros [Hc Hw Hev] [Henv _]. constructor; [by eapply env_core|by rewrite (env_q _ _ _ Henv)|].
  intros t. rewrite (env_at _ _ _ Henv). intros Ht. eapply env_covers; [done|done|by apply Hev].
Qed.

(** Buffering a packet: what the invariants need to know. *)
Lemma enqueue_spec p when fo w :
  pq_mid w → may_enqueue p when w →
  ∃ w' l', schedSendTiming p when fo w = Ok w' ∧ pq_core w' ∧ q w' = with_list l' (q w) ∧
    placed (pkts w) fo (mkDeferred when p) (transmitList (q w)) l' ∧
    curTick (em w') = curTick (em w) ∧ pkts w' = pkts w ∧ drains w' = drains w ∧
    match transmitList (q w) with
    | [] => scheduledAt (em w') = Some (Z.max when (curTick (em w) + 1)) ∧
            event_covers (Z.max when (curTick (em w) + 1)) w'
    | _ => em w' = em w
    end.
Proof.
  intros Hm Hen. destruct (transmitList (q w)) as [|dp l] eqn:Hl.
  - destruct (schedSendTiming_empty p when fo w) as (e & t & Hok & Hc & Hcur & Hat & H1 & H2 & Ht); [done..|].
    subst t. eexists _, [mkDeferred when p]. split_and!; try done.
    + exists [], []. split_and!; [done|done|constructor|by left].
    + split; cbn; [lia|]. by eexists.
  - destruct (schedSendTiming_list p when fo w) as (l' & Hok & Hpl & Hc); [apply Hm|done|by rewrite Hl|].
    rewrite Hl in Hpl. by exists (with_q (with_list l') w), l'.
Qed.

Lemma enqueue_mid p when fo w w' :
  pq_mid w → may_enqueue p when w → schedSendTiming p when fo w = Ok w' → pq_mid w'.
Proof.
  intros Hm Hen Hok. destruct (enqueue_spec p when fo w Hm Hen) as
    (w1 & l' & Hok1 & Hc & Hq & Hpl & Hcur & _ & _ & Hat).
  assert (w1 = w') as -> by congruence. constructor; [done|by rewrite Hq; apply Hm|].
  intros t Ht. destruct (transmitList (q w)) as [|dp l] eqn:Hl.
  - destruct Hat as [Hat Hcov]. rewrite Hat in Ht. by injection Ht as <-.
  - rewrite Hat in Ht. destruct (pm_event _ Hm t Ht) as [Hle (dp' & Hdp & Hdt)].
    split; [lia|]. exists dp'. rewrite Hq. cbn. by rewrite (placed_head _ _ _ _ _ Hpl), <- Hl.
Qed.

Lemma during_mid w w' : rtc during w w' → pq_mid w → pq_mid w'.
Proof.
  induction 1 as [|w w1 w2 Hd _ IH]; intros Hm; [done|]. apply IH.
  destruct Hd as [w w1 Hq|p when fo w w1 Hen Hok]; [by eapply quiet_mid|by eapply enqueue_mid].
Qed.

(** *** Sending *)

Lemma sent_spec w :
  pq_mid w → ∃ w', schedSendEvent (deferredPacketReadyTime (q w)) w = Ok w' ∧ pq_inv w'.
Proof.
  intros Hm. pose proof Hm as [Hc Hw Hev]. unfold deferredPacketReadyTime.
  destruct (transmitList (q w)) as [|dp l] eqn:Hl.
  - assert (scheduledAt (em w) = None) as Hs.
    { destruct (scheduledAt (em w)) as [t|]; [|done]. destruct (Hev t eq_refl) as [_ (? & Hdp & _)].
      by rewrite Hl in Hdp. }
    destruct (schedSendEvent_idle w) as (d & -> & Hc' & _); [done..|]. eexists. split; [done|].
    split; [done|]. cbn. by rewrite Hl.
  - destruct (schedSendEvent_spec w dp l Hm Hl) as (e & t & -> & Hc' & Hcur & Hat & H1 & H2 & _).
    eexists. split; [done|]. split; [done|]. cbn. rewrite Hl, Hw. exists t. split; [done|].
    split; cbn; [lia|]. rewrite Hl. by eexists.
Qed.

Context (sendTiming : positive → World E R → res (bool * World E R)) `{!Peer sendTiming}.

Lemma pq_pop w dp l :
  pq_core w → transmitList (q w) = dp :: l → waitingOnRetry (q w) = false → scheduledAt (em w) = None →
  pq_mid (with_q (λ q, with_list (tail (transmitList q)) q) w).
Proof.
  intros [He Hn Ha Ht Hd Hs] Hl Hw Hat. rewrite Hl in Ha, Ht. apply Forall_cons in Ha as [_ Ha].
  apply Forall_cons in Ht as [_ Ht]. constructor; [|done|cbn; congruence].
  constructor; cbn; rewrite ?Hl; done.
Qed.

Lemma send_spec w dp l :
  pq_core w → transmitList (q w) = dp :: l → waitingOnRetry (q w) = false → scheduledAt (em w) = None →
  tick dp ≤ curTick (em w) →
  ∃ w', sendDeferredPacket sendTiming w = Ok w' ∧ pq_inv w'.
Proof.
  intros Hc Hl Hw Hat Hle. pose proof (pq_pop w dp l Hc Hl Hw Hat) as Hm.
  unfold sendDeferredPacket. rewrite Hw. cbn [negb]. rewrite bind_assert by done.
  unfold deferredPacketReady. rewrite Hl, bind_assert by (by apply Z.leb_le). cbn [head deref mbind res_bind].
  assert (is_Ok (addr_of (pkts w) (pkt dp)) ∧ tick dp < MaxTick) as [Hdp Hdt].
  { destruct Hc as [_ _ Ha Ht _ _]. rewrite Hl in Ha, Ht. by apply Forall_cons in Ha as [? _], Ht as [? _]. }
  set (w1 := with_q _ w) in *.
  destruct (peer_law (pkt dp) w1 Hm Hdp) as (sent & w2 & -> & Hpeer). cbn [mbind res_bind].
  destruct sent; cbn [negb].
  - pose proof (during_mid _ _ Hpeer Hm) as Hm2.
    assert (with_q (with_waiting false) w2 = w2) as ->.
    { destruct w2 as [q2 ? ? ? ?], q2. pose proof (pm_waiting _ Hm2) as Hw2. cbn in *. by subst. }
    rewrite (pm_waiting _ Hm2). cbn [negb]. by apply sent_spec.
  - cbn. eexists. split; [done|]. destruct Hpeer as [Henv Hcur]. pose proof (env_core _ _ _ (pm_core _ Hm) Henv) as Hc2.
    split.
    + destruct Hc2. constructor; try done; cbn; constructor; try done.
      rewrite (env_addr _ _ _ Henv) by (by left). done.
    + cbn. rewrite (env_at _ _ _ Henv), Hcur. done.
Qed.

Lemma process_spec w e' :
  pq_inv w → fired (em w) e' →
  ∃ w', processSendEvent sendTiming (with_em e' w) = Ok w' ∧ pq_inv w'.
Proof.
  intros [Hc Hs] (t & Hat & Hok & Hcur & Hmax & Hnone). unfold processSendEvent. cbn [q with_em].
  destruct (transmitList (q w)) as [|dp l] eqn:Hl; [destruct Hs; congruence|].
  destruct (waitingOnRetry (q w)) eqn:Hw; [destruct Hs; congruence|].
  destruct Hs as (t' & Hat' & Hle & dp' & Hdp & Hdt). rewrite Hl in Hdp. injection Hdp as <-.
  assert (t' = t) as -> by congruence. cbn [negb]. rewrite bind_assert by done.
  pose proof (pc_now _ Hc). apply (send_spec _ dp l); try done; cbn; [|lia].
  apply pq_core_em; [done|done|lia].
Qed.

Lemma retry_spec w :
  pq_inv w → waitingOnRetry (q w) = true → ∃ w', retry sendTiming w = Ok w' ∧ pq_inv w'.
Proof.
  intros [Hc Hs] Hw. unfold retry. rewrite Hw in Hs |- *. rewrite bind_assert by done.
  destruct (transmitList (q w)) as [|dp l] eqn:Hl; [by destruct Hs|]. destruct Hs as [Hat Hle].
  apply (send_spec _ dp l); try done. by destruct Hc; constructor.
Qed.

Lemma pq_inv_mid w : pq_inv w → waitingOnRetry (q w) = false → pq_mid w.
Proof.
  intros [Hc Hs] Hw. split; [done..|]. intros t Ht. destruct (transmitList (q w)).
  - destruct Hs; congruence.
  - rewrite Hw in Hs. destruct Hs as (t' & Hat & Hcov). by simplify_eq.
Qed.

Lemma enqueue_inv p when fo w :
  pq_inv w → may_enqueue p when w →
  ∃ w' l', schedSendTiming p when fo w = Ok w' ∧ pq_inv w' ∧ q w' = with_list l' (q w) ∧
    placed (pkts w) fo (mkDeferred when p) (transmitList (q w)) l' ∧
    (transmitList (q w) ≠ [] → em w' = em w).
Proof.
  intros Hi Hen. destruct (decide (transmitList (q w) = [])) as [Hl|Hl].
  - pose proof Hi as [Hc Hs]. rewrite Hl in Hs. destruct Hs as [Hw Hat].
    destruct (enqueue_spec p when fo w) as (w' & l' & Hok & Hc' & Hq & Hpl & _ & _ & _ & Hm);
      [by apply pq_inv_mid|done|]. exists w', l'. rewrite Hl in Hm. split_and!; try done.
    split; [done|]. destruct Hm as [Hm1 Hm2]. rewrite Hl in Hpl. pose proof (placed_perm _ _ _ _ _ Hpl) as Hp.
    rewrite Hq. cbn. destruct l' as [|x l']; [by apply Permutation_nil_l in Hp|]. rewrite Hw. eauto.
  - destruct (schedSendTiming_list p when fo w (pi_core _ Hi) Hen Hl) as (l' & Hok & Hpl & Hc).
    exists (with_q (with_list l') w), l'. split_and!; try done. split; [done|]. pose proof (pi_send _ Hi) as Hs.
    pose proof (placed_head _ _ _ _ _ Hpl Hl) as Hhd. cbn.
    destruct (transmitList (q w)) as [|dp l] eqn:Hl0; [done|]. destruct l' as [|x l']; [done|].
    injection Hhd as ->. destruct (waitingOnRetry (q w)); [done|].
    destruct Hs as (t & Hat & Hle & Hdp). exists t. split; [done|]. split; [done|]. by rewrite Hl0 in Hdp.
Qed.

(** ** The queue at work *)

(** A new queue. *)
Definition initial w : Prop :=
  (∃ lbl dis, q w = newPacketQueue (self (q w)) lbl dis) ∧ em_ok (em w) ∧ scheduledAt (em w) = None ∧
  0 ≤ curTick (em w) < MaxTick ∧ Drain.drain_inv (drains w) ∧
  is_Some (Drain.drainStates (drains w) !! self (q w)).

Inductive pq_step : World E R → World E R → Prop :=
  | step_enqueue p when fo w w' :
      may_enqueue p when w → schedSendTiming p when fo w = Ok w' → pq_step w w'
  | step_fire e' w w' :
      fired (em w) e' → processSendEvent sendTiming (with_em e' w) = Ok w' → pq_step w w'
  | step_retry w w' :
      waitingOnRetry (q w) = true → retry sendTiming w = Ok w' → pq_step w w'
  | step_env w w' : env [] w w' → pq_step w w'
  | step_manager d w :
      Drain.drain_inv d → is_Some (Drain.drainStates d !! self (q w)) → pq_step w (with_drains d w).

Lemma pq_step_inv w w' : pq_step w w' → pq_inv w → pq_inv w'.
Proof.
  intros Hs Hi. destruct Hs as [p when fo w w' Hen Hok|e' w w' Hf Hok|w w' Hw Hok|w w' Henv|d w Hd Hself].
  - destruct (enqueue_inv p when fo w Hi Hen) as (? & ? & ? & ? & _). congruence.
  - destruct (process_spec w e' Hi Hf) as (? & ? & ?). congruence.
  - destruct (retry_spec w Hi Hw) as (? & ? & ?). congruence.
  - by eapply env_inv.
  - destruct Hi as [[] Hs]. split; [by constructor|done].
Qed.

Lemma initial_inv w : initial w → pq_inv w.
Proof.
  intros ((lbl & dis & Hq) & He & Hat & Hn & Hd & Hs). split.
  - constructor; try done; rewrite Hq; constructor.
  - by rewrite Hq.
Qed.

Lemma reach_inv w0 w : initial w0 → rtc pq_step w0 w → pq_inv w.
Proof. intros Hi%initial_inv. induction 1; eauto using pq_step_inv. Qed.

(** What the peer has received, as it sees it: packets with the ticks they came at. *)
Context (received : R → list (positive * Z)).

(** A run in which only the send event acts on the queue, and nobody else sends to the peer. *)
Inductive sends : World E R → World E R → Prop :=
  | sends_nil w : sends w w
  | sends_env w w1 w2 : env [] w w1 → received (rest w1) = received (rest w) → sends w1 w2 → sends w w2
  | sends_fire e' w w1 w2 :
      transmitList (q w) ≠ [] → fired (em w) e' →
      processSendEvent sendTiming (with_em e' w) = Ok w1 → sends w1 w2 → sends w w2.

(** A peer that takes every packet it is given. *)
Definition accepting : Prop :=
  ∀ p w, pq_mid w → is_Ok (addr_of (pkts w) p) →
    ∃ w', sendTiming p w = Ok (true, w') ∧ quiet [] w w' ∧ received (rest w') = received (rest w) ++ [(p, curTick (em w))].

Lemma accepted_spec w e' dp l :
  accepting → pq_inv w → transmitList (q w) = dp :: l → fired (em w) e' →
  Drain.drainStates (drains w) !! self (q w) = Some (drain (q w)) →
  ∃ w', processSendEvent sendTiming (with_em e' w) = Ok w' ∧ pq_inv w' ∧ q w' = with_list l (q w) ∧
    curTick (em w') = curTick e' ∧ tick dp ≤ curTick e' ∧
    Drain.drainStates (drains w') !! self (q w') = Some (drain (q w')) ∧
    received (rest w') = received (rest w) ++ [(pkt dp, curTick e')].
Proof.
  intros Hacc Hi Hl Hf Hdr. destruct (process_spec w e' Hi Hf) as (w' & Hok & Hi'). exists w'.
  destruct Hf as (t & Hat & Heok & Hcur & Hmax & Hnone).
  pose proof (pi_send _ Hi) as Hs. rewrite Hl in Hs.
  destruct (waitingOnRetry (q w)) eqn:Hw; [destruct Hs; congruence|].
  destruct Hs as (t' & Hat' & Hle & dp' & Hdp & Hdt). rewrite Hl in Hdp. injection Hdp as <-.
  assert (t' = t) as -> by congruence.
  split; [done|]. split; [done|]. revert Hok. unfold processSendEvent, sendDeferredPacket. cbn [q with_em].
  rewrite Hw. cbn [negb]. rewrite !bind_assert by done.
  unfold deferredPacketReady. cbn [q with_em em]. rewrite Hl, bind_assert by (apply Z.leb_le; lia).
  cbn [head deref mbind res_bind]. pose proof (pc_now _ (pi_core _ Hi)).
  assert (pq_core (with_em e' w)) as Hce by (apply pq_core_em; [apply Hi|done|lia]).
  pose proof (pq_pop _ dp l Hce Hl Hw Hnone) as Hm. set (w1 := with_q _ (with_em e' w)) in *.
  assert (is_Ok (addr_of (pkts w) (pkt dp))) as Ha.
  { pose proof (pc_addr _ (pi_core _ Hi)) as Ha. rewrite Hl in Ha. by apply Forall_cons in Ha as [? _]. }
  assert (q w1 = with_list l (q w)) as Hq1 by (unfold w1; cbn; by rewrite Hl).
  destruct (Hacc (pkt dp) w1 Hm Ha) as (w2 & -> & (Henv & Hc2) & Hrec). cbn [mbind res_bind negb].
  pose proof (quiet_mid _ _ _ Hm (conj Henv Hc2)) as Hm2.
  assert (with_q (with_waiting false) w2 = w2) as ->.
  { destruct w2 as [q2 ? ? ? ?], q2. pose proof (pm_waiting _ Hm2) as Hw2. cbn in *. by subst. }
  rewrite (pm_waiting _ Hm2). cbn [negb]. pose proof (env_q _ _ _ Henv) as Eq. rewrite Hq1 in Eq.
  pose proof (env_state _ _ _ Henv) as Est. rewrite Hq1 in Est. cbn in Est. rewrite Hdr in Est.
  unfold drain in Est. rewrite Hl in Est. cbn in Hc2.
  assert (transmitList (q w2) = l) as Hl2 by (by rewrite Eq).
  destruct l as [|dp2 l].
  - destruct (schedSendEvent_idle w2) as (d & Hd & _ & Hst); [apply Hm2|apply Hm2|done|by rewrite (env_at _ _ _ Henv)|].
    unfold deferredPacketReadyTime. rewrite Hl2, Hd. intros [= <-]. cbn. rewrite Hst, Eq. cbn.
    rewrite Est, decide_True by done. split_and!; [done|lia|lia|done|done].
  - destruct (schedSendEvent_spec w2 dp2 l Hm2 Hl2) as (e2 & t2 & Hd & _ & Hcur2 & _).
    unfold deferredPacketReadyTime. rewrite Hl2, Hd. intros [= <-]. cbn. rewrite Eq. cbn.
    split_and!; [done|lia|lia|done|done].
Qed.

End Invariant.

(** ** The event queue as event manager

    Event [p] of the event queue [w], in a simulation with one thread. *)

Section EventQueueManager.
Import EventQueue EventQueueProofs.
Context (p : positive).

Definition event_at (w : world) : option Z :=
  ev ← objs w !! p; if scheduled ev then Some (_when ev) else None.

#[export] Instance EventQueue_manager : EventManager world := {
  curTick w := _curTick (eq w);
  scheduledAt := event_at;
  em_schedule t w := schedule false (EventQueue.self (eq w)) p t false w;
  em_reschedule t w := reschedule false (EventQueue.self (eq w)) p t false w
}.

Definition event_ok (w : world) : Prop :=
  ∃ l ev, eq_inv w l ∧ objs w !! p = Some ev ∧ initialized ev = true ∧ (scheduled ev = true → p ∈ l.*2).

(** An event with its key in the agenda is scheduled at that tick. *)
Lemma event_at_agenda w l ev k :
  eq_inv w l → objs w !! p = Some ev → scheduled ev = true → (k, p) ∈ l → event_at w = Some k.1.
Proof.
  intros Hinv Hp Hs Hk. unfold event_at. rewrite Hp. cbn. rewrite Hs. f_equal.
  destruct (represents_key _ _ _ _ _ (inv_rep _ _ Hinv) Hk) as (e & He & <-). by simplify_eq.
Qed.

Lemma initialized_flags ev e' f :
  initialized ev = true → flags e' = f → Z.land f InitMask = Z.land (flags ev) InitMask → initialized e' = true.
Proof. unfold initialized. intros Hi -> ->. done. Qed.

#[export] Instance EventQueue_manager_laws : EventManagerLaws world event_ok.
Proof.
  split.
  - intros w t (l & ev & Hinv & Hp & Hi & Hs) Hat Hle. cbn in *. unfold event_at in Hat. rewrite Hp in Hat. cbn in Hat.
    destruct (scheduled ev) eqn:Hsc; [done|].
    destruct (schedule_spec false (EventQueue.self (eq w)) p t false w l ev) as
      (w' & Hok & Hinv' & _ & Hcur & e' & He' & Hf'); [done..|].
    assert (((t, _priority ev), p) ∈ agenda_insert (t, _priority ev) p l) as Hin
      by (rewrite agenda_insert_perm; left).
    assert (scheduled e' = true) as Hse by (unfold scheduled; rewrite Hf'; by apply isSet_set_same).
    exists w'. split; [done|]. split_and!; [|by eapply (event_at_agenda _ _ _ (t, _))|done].
    exists (agenda_insert (t, _priority ev) p l), e'. split_and!; [done|done| |].
    + eapply initialized_flags; [exact Hi|done|]. by apply init_set.
    + intros _. exact (list_elem_of_fmap_2 snd _ _ Hin).
  - intros w t0 t (l & ev & Hinv & Hp & Hi & Hs) Hat Hle. cbn in *. unfold event_at in Hat. rewrite Hp in Hat. cbn in Hat.
    destruct (scheduled ev) eqn:Hsc; [|done].
    destruct (reschedule_spec false (EventQueue.self (eq w)) p t false w l ev) as
      (w' & e' & Hok & Hinv' & He' & Hse & _ & Hcur & Hf'); [done|done|by apply Hs|done|done|done|].
    assert (((t, _priority ev), p) ∈ agenda_insert (t, _priority ev) p (agenda_remove p l)) as Hin
      by (rewrite agenda_insert_perm; left).
    exists w'. split; [done|]. split_and!; [|by eapply (event_at_agenda _ _ _ (t, _))|done].
    exists (agenda_insert (t, _priority ev) p (agenda_remove p l)), e'. split_and!; [done|done| |].
    + eapply initialized_flags; [exact Hi|done|]. rewrite init_set, init_clear by done. done.
    + intros _. exact (list_elem_of_fmap_2 snd _ _ Hin).
Qed.

(** Servicing the event is what the packet queue calls firing. *)
Lemma service_fires w k l ev :
  eq_inv w ((k, p) :: l) → objs w !! p = Some ev → initialized ev = true → k.1 < MaxTick →
  ∃ w2, servicePop w = Ok (p, w2) ∧ fired event_ok w (setCurTick k.1 w2).
Proof.
  intros Hinv Hp Hi Hk. destruct (servicePop_spec w k p l Hinv) as
    (w2 & ev0 & ev2 & Hpop & Hinv2 & Hp0 & Hp2 & Hk2 & Hf2 & _ & hd & Heq).
  assert (ev0 = ev) as -> by congruence. exists w2. split; [done|].
  assert (scheduled ev2 = false) as Hs2 by (unfold scheduled; rewrite Hf2; by apply isSet_clear_same).
  exists k.1. split_and!; [|exists l, ev2|done|done|].
  - destruct (inv_alloc _ _ Hinv p) as (e & He & Hq); [by left|]. simplify_eq.
    eapply event_at_agenda; [done|done| |by left].
    rewrite (inv_sched _ _ Hinv p ev Hp Hq). by apply bool_decide_eq_true; left.
  - split_and!; [|done| |congruence].
    + apply setCurTick_inv; [done|]. intros k' x Hx. by eapply represents_tick_le; [apply Hinv|].
    + eapply initialized_flags; [exact Hi|done|]. by apply init_clear.
  - cbn. unfold event_at. cbn. rewrite Hp2. cbn. by rewrite Hs2.
Qed.

End EventQueueManager.

(** ** Main theorems *)

Section Theorems.
Context {E R : Type} `{EventManager E} (em_ok : E → Prop) `{!EventManagerLaws E em_ok}.
Implicit Types w : World E R.

(** A packet buffered at tick [when] joins the others and never displaces the first one.
    It goes behind every packet due at the same tick; with [force_order] it goes behind every
    packet of the same address, so that packets of one address leave in the order they came;
    without it, the packets behind the first stay sorted by tick. *)
Theorem schedSendTiming_order p when fo w :
  pq_inv em_ok w → may_enqueue p when w →
  ∃ w', schedSendTiming p when fo w = Ok w' ∧
    let l := transmitList (q w) in
    let l' := transmitList (q w') in
    let dp := mkDeferred when p in
    l' ≡ₚ dp :: l ∧ (l ≠ [] → head l' = head l) ∧
    filter (λ x, tick x = when) l' = filter (λ x, tick x = when) l ++ [dp] ∧
    (fo = true → filter (same_addr (pkts w) p) l' = filter (same_addr (pkts w) p) l ++ [dp]) ∧
    (fo = false → StronglySorted Z.le (tick <$> tail l) → StronglySorted Z.le (tick <$> tail l')).
Proof.
  intros Hi Hen. destruct (enqueue_inv em_ok p when fo w Hi Hen) as (w' & l' & Hok & _ & Hq & Hpl & _).
  exists w'. split; [done|]. rewrite Hq. cbn. split_and!.
  - by eapply placed_perm.
  - by eapply placed_head.
  - exact (placed_tick _ _ _ _ _ Hpl).
  - exact (placed_addr _ _ _ _ _ Hpl).
  - by eapply placed_sorted.
Qed.

(** A packet that becomes due before the first buffered one waits for it: the first packet
    stays first and the send event is not moved forward. *)
Theorem early_packet_waits p when fo w dp l :
  pq_inv em_ok w → may_enqueue p when w → transmitList (q w) = dp :: l →
  waitingOnRetry (q w) = false → when < tick dp →
  ∃ w' t, schedSendTiming p when fo w = Ok w' ∧ head (transmitList (q w')) = Some dp ∧
    scheduledAt (em w') = Some t ∧ scheduledAt (em w) = Some t ∧ when < t.
Proof.
  intros Hi Hen Hl Hw Hlt. destruct (enqueue_inv em_ok p when fo w Hi Hen) as (w' & l' & Hok & _ & Hq & Hpl & Hem).
  pose proof (pi_send _ _ Hi) as Hs. rewrite Hl, Hw in Hs. destruct Hs as (t & Hat & _ & dp' & Hdp & Hle).
  rewrite Hl in Hdp, Hpl, Hem. injection Hdp as <-. exists w', t. rewrite Hem by done.
  split_and!; [done| |done|done|lia]. rewrite Hq. cbn. by rewrite (placed_head _ _ _ _ _ Hpl).
Qed.

Context (sendTiming : positive → World E R → res (bool * World E R)).

(** C25: Whatever happens to a new queue (packets buffered by anyone, the send event firing, the
    peer refusing packets and asking for retries or buffering packets while it takes one, the
    drain manager at work, time passing), no assertion of the queue fails afterwards: a packet
    can be buffered, the event can fire, a retry that is due can be made.  And a queue that
    is not empty waits for a retry or has its send event scheduled. *)
Theorem packetQueue_safe `{!Peer em_ok sendTiming} w0 w :
  initial em_ok w0 → rtc (pq_step em_ok sendTiming) w0 w →
  (∀ p when fo, may_enqueue p when w → is_Ok (schedSendTiming p when fo w)) ∧
  (∀ e', fired em_ok (em w) e' → is_Ok (processSendEvent sendTiming (with_em e' w))) ∧
  (waitingOnRetry (q w) = true → is_Ok (retry sendTiming w)) ∧
  (transmitList (q w) ≠ [] → waitingOnRetry (q w) = true ∨ ∃ t, scheduledAt (em w) = Some t).
Proof.
  intros Hinit Hsteps. pose proof (reach_inv em_ok sendTiming w0 w Hinit Hsteps) as Hi. split_and!.
  - intros p when fo Hen. destruct (enqueue_inv em_ok p when fo w Hi Hen) as (w' & ? & ? & _). by exists w'.
  - intros e' Hf. destruct (process_spec em_ok sendTiming w e' Hi Hf) as (w' & ? & _). by exists w'.
  - intros Hw. destruct (retry_spec em_ok sendTiming w Hi Hw) as (w' & ? & _). by exists w'.
  - pose proof (pi_send _ _ Hi) as Hs. intros Hne. destruct (transmitList (q w)); [done|].
    destruct (waitingOnRetry (q w)); [by left|right]. destruct Hs as (t & ? & _). by exists t.
Qed.

(** C34: With a peer that takes every packet, the queue empties in order: what the peer receives
    is the packets of the queue from its front on, each once and no earlier than its tick, and
    what it has not received is still in the queue.  As long as packets are left an event is
    scheduled, and its firing hands over the next.  What the queue told the drain manager stays
    true: it is draining while packets are left and signals that it is drained with the last. *)
Theorem packetQueue_drains `{!Peer em_ok sendTiming} (received : R → list (positive * Z)) w w' :
  accepting em_ok sendTiming received → pq_inv em_ok w → waitingOnRetry (q w) = false →
  Drain.drainStates (drains w) !! self (q w) = Some (drain (q w)) →
  sends em_ok sendTiming received w w' →
  (∃ sent out, transmitList (q w) = sent ++ transmitList (q w') ∧ received (rest w') = received (rest w) ++ out ∧
     Forall2 (λ dp o, o.1 = pkt dp ∧ tick dp ≤ o.2) sent out) ∧
  Drain.drainStates (drains w') !! self (q w') = Some (drain (q w')) ∧
  (∀ dp l, transmitList (q w') = dp :: l →
     ∃ t, scheduledAt (em w') = Some t ∧ tick dp ≤ t ∧
       ∀ e', fired em_ok (em w') e' →
         ∃ w2, processSendEvent sendTiming (with_em e' w') = Ok w2 ∧ transmitList (q w2) = l ∧
           received (rest w2) = received (rest w') ++ [(pkt dp, curTick e')]).
Proof.
  intros Hacc Hi Hw Hdr Hdel. revert Hi Hw Hdr.
  induction Hdel as [w|w w1 w2 Henv Hrec Hdel IH|e' w w1 w2 Hne Hf Hok Hdel IH]; intros Hi Hw Hdr.
  - split_and!; [exists [], []; by rewrite app_nil_r|done|]. intros dp l Hl. pose proof (pi_send _ _ Hi) as Hs. rewrite Hl, Hw in Hs.
    destruct Hs as (t & Hat & _ & dp' & Hdp & Hle). rewrite Hl in Hdp. injection Hdp as <-.
    exists t. split_and!; [done|done|]. intros e' Hf.
    destruct (accepted_spec em_ok sendTiming received w e' dp l Hacc Hi Hl Hf Hdr) as (w2 & ? & _ & Hq & _ & _ & _ & Hrec).
    exists w2. split_and!; [done|by rewrite Hq|done].
  - pose proof (env_q _ _ _ _ Henv) as Eq. pose proof (env_state _ _ _ _ Henv) as Est.
    rewrite Eq, Hrec in IH. apply IH; [by eapply env_inv|done|]. by rewrite Est.
  - destruct (transmitList (q w)) as [|dp l] eqn:Hl; [done|].
    destruct (accepted_spec em_ok sendTiming received w e' dp l Hacc Hi Hl Hf Hdr) as (w1' & Hok' & Hi1 & Hq & _ & Hle & Hdr1 & Hrec).
    assert (w1' = w1) as -> by congruence. rewrite Hq, Hrec in IH. cbn in IH.
    destruct IH as ((sent & out & IH1 & IH2 & IH3) & IH); [done|done|by rewrite Hq in Hdr1|]. split; [|done].
    exists (dp :: sent), ((pkt dp, curTick e') :: out). split_and!; [by rewrite IH1|by rewrite IH2, <- app_assoc|by constructor].
Qed.

End Theorems.

(** ** Witnesses *)

(** A manager with a clock and one event. *)
Definition Clock : Type := Z * option Z.
#[local] Instance Clock_manager : EventManager Clock := {
  curTick e := e.1;
  scheduledAt e := e.2;
  em_schedule t e := Ok (e.1, Some t);
  em_reschedule t e := Ok (e.1, Some t)
}.
#[local] Instance Clock_laws : EventManagerLaws Clock (λ _, True).
Proof. split; intros e; eexists; done. Qed.

Definition demo_pkt (a : Z) : Packet.Packet :=
  Packet.mkPacket (Z.lor Packet.VALID_ADDR Packet.VALID_SIZE) MemCmd.ReadReq Request.newRequest None a false 4 []
    0 0 0 None.

Definition demo_pkts : Packets := {[ 5%positive := demo_pkt 64; 6%positive := demo_pkt 128; 7%positive := demo_pkt 64 ]}.

(** The manager of a system whose only object is the queue at address 9. *)
Definition demo_drains (n : Z) (s : Drain.DrainState) : Drain.World :=
  Drain.mkWorld n s {[ 9%positive ]} {[ 9%positive := s ]} 0.

Lemma demo_drain_inv n s : n = Z.of_nat (Drain.b2n s) → Drain.drain_inv (demo_drains n s).
Proof.
  intros ->. constructor; cbn.
  - apply dom_singleton_L.
  - unfold Drain.draining. by destruct s.
  - rewrite size_singleton. lia.
  - destruct s; intros o s [_ <-]%lookup_singleton_Some; done.
Qed.

(** A peer that takes every packet and keeps a log of them. *)
Definition taking {E} `{EventManager E} (p : positive) (w : World E (list (positive * Z))) : res (bool * World E (list (positive * Z))) :=
  Ok (true, mkWorld (q w) (em w) (pkts w) (drains w) (rest w ++ [(p, curTick (em w))])).

Lemma taking_accepts {E} `{EventManager E} (em_ok : E → Prop) : accepting em_ok (taking (E := E)) id.
Proof.
  intros p w [Hc Hw Hev] Ha. eexists. split; [done|]. split; [|done]. split; [|done]. destruct Hc. constructor; cbn; try done.
  - lia.
  - intros t Ht. by destruct (Hev t Ht).
Qed.

#[local] Instance taking_peer {E} `{EventManager E} (em_ok : E → Prop) : Peer em_ok (taking (E := E)).
Proof.
  split. intros p w Hm Ha. destruct (taking_accepts em_ok p w Hm Ha) as (w' & Hok & Hq & _).
  exists true, w'. split; [done|]. by apply rtc_once, during_quiet.
Qed.

(** Two packets are buffered, for ticks 20 and 30; it is tick 10. *)
Definition demo_world (s : Drain.DrainState) : World Clock (list (positive * Z)) :=
  mkWorld (mkPacketQueue 9 [mkDeferred 20 5; mkDeferred 30 6] false "q" false) (10, Some 20) demo_pkts
    (demo_drains (Z.of_nat (Drain.b2n s)) s) [].

Lemma demo_world_inv s : pq_inv (λ _, True) (demo_world s).
Proof.
  split.
  - constructor; cbn; try done.
    + repeat constructor; by eexists.
    + repeat constructor.
    + by apply demo_drain_inv.
  - cbn. exists 20. split; [done|]. split; cbn; [lia|]. eexists. split; [done|]. cbn. lia.
Qed.

Lemma demo_may_enqueue s : may_enqueue 7 12 (demo_world s).
Proof.
  split_and!; [cbn; lia|done|by eexists|by eexists|right; by vm_compute].
Qed.

Lemma schedSendTiming_order_witness :
  ∃ w', schedSendTiming 7 12 true (demo_world Drain.Running) = Ok w' ∧
    filter (same_addr demo_pkts 7) (transmitList (q w')) = [mkDeferred 20 5; mkDeferred 12 7].
Proof.
  destruct (schedSendTiming_order (λ _, True) 7 12 true (demo_world Drain.Running))
    as (w' & Hok & _ & _ & _ & Hfo & _); [apply demo_world_inv|apply demo_may_enqueue|].
  exists w'. split; [exact Hok|]. exact (Hfo eq_refl).
Defined.

Lemma early_packet_waits_witness :
  ∃ w' t, schedSendTiming 7 12 false (demo_world Drain.Running) = Ok w' ∧ scheduledAt (em w') = Some t ∧ 12 < t.
Proof.
  destruct (early_packet_waits (λ _, True) 7 12 false (demo_world Drain.Running) (mkDeferred 20 5) [mkDeferred 30 6])
    as (w' & t & Hok & _ & Hat & _ & Hlt);
    [apply demo_world_inv|apply demo_may_enqueue|done|done|cbn; lia|].
  exists w', t. exact (conj Hok (conj Hat Hlt)).
Defined.

Lemma demo_sends :
  ∃ w2, sends (λ _, True) taking id (demo_world Drain.Draining) w2 ∧
    transmitList (q w2) = [] ∧ self (q w2) = 9%positive ∧ rest w2 = [(5%positive, 20); (6%positive, 30)].
Proof.
  eexists. split.
  - eapply (sends_fire _ _ _ (20, None)); [done|by exists 20|reflexivity|].
    eapply (sends_fire _ _ _ (30, None)); [done|by exists 30|reflexivity|constructor].
  - done.
Qed.

Lemma packetQueue_drains_witness :
  ∃ w2, sends (λ _, True) taking id (demo_world Drain.Draining) w2 ∧
    rest w2 = [(5%positive, 20); (6%positive, 30)] ∧ Drain.drainStates (drains w2) !! 9%positive = Some Drain.Drained.
Proof.
  destruct demo_sends as (w2 & Hd & Hl & Hs & Hr). exists w2. split; [exact Hd|]. split; [exact Hr|].
  destruct (packetQueue_drains (λ _, True) taking id (demo_world Drain.Draining) w2)
    as (_ & Hst & _); [apply taking_accepts|apply demo_world_inv|done|done|exact Hd|].
  unfold drain in Hst. rewrite Hl, Hs in Hst. exact Hst.
Defined.

(** A new queue on the event queue of [EventQueueProofs], with event 4 as its send event. *)
Definition demo_new : World EventQueue.world (list (positive * Z)) :=
  mkWorld (newPacketQueue 9 "q" false) EventQueueProofs.demo demo_pkts (demo_drains 0 Drain.Running) [].

Lemma demo_event_ok : event_ok 4 EventQueueProofs.demo.
Proof. exists EventQueueProofs.demo_agenda, (EventQueueProofs.demo_ev None 0 0 0). split_and!; [exact EventQueueProofs.demo_inv|done|done|done]. Qed.

Lemma packetQueue_safe_witness :
  is_Ok (schedSendTiming (H := EventQueue_manager 4) 5 20 false demo_new).
Proof.
  destruct (packetQueue_safe (H := EventQueue_manager 4) (event_ok 4) (taking (H := EventQueue_manager 4)) demo_new demo_new) as (Hen & _).
  - split_and!; [by eexists _, _|exact demo_event_ok|done|by vm_compute|by vm_compute|by apply demo_drain_inv|by eexists].
  - done.
  - apply Hen. split_and!; [cbn; lia|done|by eexists|by eexists|right; by vm_compute].
Defined.

End PacketQueueProofs.
