(* ===== verification/AbstractMem.v ===== *)
(** * Abstract memory

    [mem/abstract_mem.hh] and [mem/abstract_mem.cc]: the untimed behaviour every memory
    controller shares.  A memory answers the packets of its address range from a host array
    (the backing store), and keeps the list of load locks that decides store conditionals.

    A packet is passed in and returned with its request; bytes live in the memory of
    Module [Host].  The operation of an atomic request, the bytes an integer has on the host
    and the text of a printed byte are parameters; waking a CPU is recorded in [woken]. *)

From stdpp Require Import strings.
From S2P Require Import Prelude AddrRange MemCmd Packet.

Open Scope Z_scope.

Module AbstractMemory.
Import Host.

#[local] Existing Instance MemCmd.Command_eq_dec.

(** [LockedAddr] *)
Record LockedAddr := mkLocked { addr : Z; contextId : Z }.

#[export] Instance LockedAddr_eq_dec : EqDecision LockedAddr.
Proof. solve_decision. Defined.

Definition Addr_Mask : Z := 0xf.
Definition mask (paddr : Z) : Z := Z.land paddr (bnot 64 Addr_Mask).

Definition newLockedAddr (r : Request.Request) : res LockedAddr :=
  paddr ← Request.getPaddr r;
  cid ← Request.contextId r;
  Ok (mkLocked (mask paddr) cid).

Definition matchesContext (r : Request.Request) (x : LockedAddr) : res bool :=
  cid ← Request.contextId r;
  Ok (contextId x =? cid).

(** One counter per master. *)
Record Stats := mkStats {
  bytesRead : list Z;
  bytesInstRead : list Z;
  bytesWritten : list Z;
  numReads : list Z;
  numWrites : list Z;
  numOther : list Z
}.

Record AbstractMemory := mkMemory {
  range : AddrRange.AddrRange;
  pmemAddr : ptr;
  confTableReported : bool;
  inAddrMap : bool;
  kvmMap : bool;
  null : bool;
  lockedAddrList : list LockedAddr;
  stats : Stats;
  woken : list Z
}.

Definition newMemory (r : AddrRange.AddrRange) (conf in_map kvm null_ : bool) (masters : nat) : AbstractMemory :=
  let z := replicate masters 0 in
  mkMemory r None conf in_map kvm null_ [] (mkStats z z z z z z) [].

Definition with_locks (l : list LockedAddr) (m : AbstractMemory) : AbstractMemory :=
  mkMemory (range m) (pmemAddr m) (confTableReported m) (inAddrMap m) (kvmMap m) (null m) l (stats m) (woken m).
Definition with_stats (s : Stats) (m : AbstractMemory) : AbstractMemory :=
  mkMemory (range m) (pmemAddr m) (confTableReported m) (inAddrMap m) (kvmMap m) (null m) (lockedAddrList m) s (woken m).
Definition with_woken (l : list Z) (m : AbstractMemory) : AbstractMemory :=
  mkMemory (range m) (pmemAddr m) (confTableReported m) (inAddrMap m) (kvmMap m) (null m) (lockedAddrList m) (stats m) l.

Definition setBackingStore (pmem_addr : ptr) (m : AbstractMemory) : AbstractMemory :=
  mkMemory (range m) pmem_addr (confTableReported m) (inAddrMap m) (kvmMap m) (null m) (lockedAddrList m) (stats m)
    (woken m).
Definition addLockedAddr (x : LockedAddr) (m : AbstractMemory) : AbstractMemory :=
  with_locks (lockedAddrList m ++ [x]) m.

Definition getAddrRange (m : AbstractMemory) : AddrRange.AddrRange := range m.
Definition size (m : AbstractMemory) : Z := AddrRange.size_ (range m).
Definition start (m : AbstractMemory) : Z := AddrRange._start (range m).
Definition isNull (m : AbstractMemory) : bool := null m.

(** [init()] checks the size against the page size of the system, if there is one. *)
Definition init (system : option Z) (m : AbstractMemory) : res unit :=
  _ ← assert_ (bool_decide (is_Some system));
  pageBytes ← deref system;
  if negb (size m mod pageBytes =? 0) then Fail Panicked else Ok tt.

(** ** Load locks *)

(** The loop of [trackLoadLocked]; [None] when no record of the context is found. *)
Fixpoint move_lock (paddr : Z) (r : Request.Request) (l : list LockedAddr) : res (option (list LockedAddr)) :=
  match l with
  | [] => Ok None
  | x :: l =>
      b ← matchesContext r x;
      if b : bool then Ok (Some (mkLocked paddr (contextId x) :: l))
      else l' ← move_lock paddr r l; Ok (option_map (cons x) l')
  end.

Definition trackLoadLocked (p : Packet.Packet) (m : AbstractMemory) : res AbstractMemory :=
  a ← Request.getPaddr (Packet.req p);
  moved ← move_lock (mask a) (Packet.req p) (lockedAddrList m);
  match moved with
  | Some l => Ok (with_locks l m)
  | None => x ← newLockedAddr (Packet.req p); Ok (with_locks (x :: lockedAddrList m) m)
  end.

(** The first loop of [checkLockedAddrList]. *)
Fixpoint find_lock (paddr : Z) (r : Request.Request) (l : list LockedAddr) : res bool :=
  match l with
  | [] => Ok false
  | x :: l =>
      b ← (if addr x =? paddr then matchesContext r x else Ok false);
      if b : bool then Ok true else find_lock paddr r l
  end.

(** The second: the records of [paddr] are erased and their contexts woken, in order. *)
Fixpoint erase_locks (paddr : Z) (l : list LockedAddr) (woken : list Z) : list LockedAddr * list Z :=
  match l with
  | [] => ([], woken)
  | x :: l =>
      if addr x =? paddr then erase_locks paddr l (woken ++ [contextId x])
      else let '(l, woken) := erase_locks paddr l woken in (x :: l, woken)
  end.

Definition with_req (r : Request.Request) (p : Packet.Packet) : Packet.Packet :=
  Packet.mkPacket (Packet.flags p) (Packet.cmd p) r (Packet.data p) (Packet.addr p) (Packet._isSecure p)
    (Packet.size p) (Packet.bytesValid p) (Packet.headerDelay p) (Packet.snoopDelay p) (Packet.payloadDelay p)
    (Packet.senderState p).

Definition checkLockedAddrList (p : Packet.Packet) (m : AbstractMemory) :
    res (bool * Packet.Packet * AbstractMemory) :=
  a ← Request.getPaddr (Packet.req p);
  let paddr := mask a in
  let isLLSC := Packet.isLLSC p in
  '(allowStore, p) ←
    (if isLLSC then
       found ← find_lock paddr (Packet.req p) (lockedAddrList m);
       Ok (found, with_req (Request.setExtraData (if found : bool then 1 else 0) (Packet.req p)) p)
     else Ok (true, p));
  if allowStore : bool then
    let '(l, w) := erase_locks paddr (lockedAddrList m) (woken m) in
    Ok (true, p, with_woken w (with_locks l m))
  else Ok (false, p, m).

Definition writeOK (p : Packet.Packet) (m : AbstractMemory) : res (bool * Packet.Packet * AbstractMemory) :=
  match lockedAddrList m with
  | [] =>
      let isLLSC := Packet.isLLSC p in
      let p := if isLLSC then with_req (Request.setExtraData 0 (Packet.req p)) p else p in
      Ok (negb isLLSC, p, m)
  | _ => checkLockedAddrList p m
  end.

(** ** Accesses *)

(** [v[i] += n] on a statistics vector, which asserts that the index is in range. *)
Definition bump (i n : Z) (v : list Z) : res (list Z) :=
  if (0 <=? i) && (i <? vsize v) then
    x ← vread v i; vwrite v i (x + n)
  else Fail AssertFailed.

Definition count_other (p : Packet.Packet) (s : Stats) : res Stats :=
  v ← bump (Request.masterId (Packet.req p)) 1 (numOther s);
  Ok (mkStats (bytesRead s) (bytesInstRead s) (bytesWritten s) (numReads s) (numWrites s) v).

Definition count_read (p : Packet.Packet) (s : Stats) : res Stats :=
  let i := Request.masterId (Packet.req p) in
  nr ← bump i 1 (numReads s);
  n ← Packet.getSize p;
  br ← bump i n (bytesRead s);
  bi ← (if Request.isInstFetch (Packet.req p) then n ← Packet.getSize p; bump i n (bytesInstRead s)
        else Ok (bytesInstRead s));
  Ok (mkStats br bi (bytesWritten s) nr (numWrites s) (numOther s)).

Definition count_write (p : Packet.Packet) (s : Stats) : res Stats :=
  let i := Request.masterId (Packet.req p) in
  nw ← bump i 1 (numWrites s);
  n ← Packet.getSize p;
  bw ← bump i n (bytesWritten s);
  Ok (mkStats (bytesRead s) (bytesInstRead s) bw (numReads s) nw (numOther s)).

(** [pmemAddr + pkt->getAddr() - range.start()] *)
Definition hostAddr (p : Packet.Packet) (m : AbstractMemory) : res ptr :=
  a ← Packet.getAddr p;
  Ok (padd (pmemAddr m) (a - start m)).

Definition hasStore (m : AbstractMemory) : bool := bool_decide (pmemAddr m ≠ None).

Section Access.
Context (atomicOp : positive → ptr → mem → res mem) (host_bytes : Z → Z → list Z).

(** A swap request: an atomic operation, or a swap that may depend on the old value. *)
Definition swap (host : ptr) (p : Packet.Packet) (h : mem) (m : AbstractMemory) : res (mem * AbstractMemory) :=
  if Packet.isAtomicOp p then
    if hasStore m then
      d ← Packet.getPtr p;
      n ← Packet.getSize p;
      h ← memcpy d host n h;
      op ← Packet.getAtomicOp p;
      f ← deref op;
      h ← atomicOp f host h;
      Ok (h, m)
    else Ok (h, m)
  else
    n ← Packet.getSize p;
    if negb (hasStore m) then Fail Panicked
    else
      d ← Packet.getConstPtr p;
      overwrite_val ← load h d n;
      d ← Packet.getPtr p;
      h ← memcpy d host n h;
      overwrite_mem ←
        (if Request.isCondSwap (Packet.req p) then
           if n =? 8 then
             v ← Request.getExtraData (Packet.req p);
             old ← load h host 8;
             Ok (bool_decide (host_bytes 8 v = old))
           else if n =? 4 then
             v ← Request.getExtraData (Packet.req p);
             old ← load h host 4;
             Ok (bool_decide (host_bytes 4 (u32 v) = old))
           else Fail Panicked
         else Ok true);
      h ← (if overwrite_mem : bool then store h host overwrite_val else Ok h);
      _ ← assert_ (negb (Request.isInstFetch (Packet.req p)));
      s ← count_other p (stats m);
      Ok (h, with_stats s m).

Definition read (host : ptr) (p : Packet.Packet) (h : mem) (m : AbstractMemory) : res (mem * AbstractMemory) :=
  _ ← assert_ (negb (Packet.isWrite p));
  m ← (if Packet.isLLSC p then trackLoadLocked p m else Ok m);
  h ← (if hasStore m then
         d ← Packet.getPtr p; n ← Packet.getSize p; memcpy d host n h
       else Ok h);
  s ← count_read p (stats m);
  Ok (h, with_stats s m).

Definition write (host : ptr) (p : Packet.Packet) (h : mem) (m : AbstractMemory) :
    res (mem * Packet.Packet * AbstractMemory) :=
  '(ok, p, m) ← writeOK p m;
  if ok : bool then
    h ← (if hasStore m then
           d ← Packet.getConstPtr p; n ← Packet.getSize p; memcpy host d n h
         else Ok h);
    _ ← assert_ (negb (Request.isInstFetch (Packet.req p)));
    s ← count_write p (stats m);
    Ok (h, p, with_stats s m)
  else Ok (h, p, m).

Definition access (p : Packet.Packet) (h : mem) (m : AbstractMemory) :
    res (mem * Packet.Packet * AbstractMemory) :=
  if Packet.cacheResponding p then Ok (h, p, m)
  else if bool_decide (Packet.cmd p = MemCmd.CleanEvict) || bool_decide (Packet.cmd p = MemCmd.WritebackClean)
  then Ok (h, p, m)
  else
    a ← Packet.getAddr p;
    n ← Packet.getSize p;
    inside ← AddrRange.isSubset (AddrRange.newRange a (u64 (a + u32 (n - 1)))) (range m);
    _ ← assert_ inside;
    host ← hostAddr p m;
    '(h, p, m) ←
      (if bool_decide (Packet.cmd p = MemCmd.SwapReq) then
         '(h, m) ← swap host p h m; Ok (h, p, m)
       else if Packet.isRead p then
         '(h, m) ← read host p h m; Ok (h, p, m)
       else if Packet.isInvalidate p then Ok (h, p, m)
       else if Packet.isWrite p then write host p h m
       else Fail Panicked);
    if Packet.needsResponse p then p ← Packet.makeResponse p; Ok (h, p, m) else Ok (h, p, m).

End Access.

(** [print_byte] is the text of a byte under [%#x]. *)
Definition functionalAccess (print_byte : Z → string) (p : Packet.Packet) (h : mem)
    (ss : SenderStates.heap) (m : AbstractMemory) : res (mem * SenderStates.heap * Packet.Packet) :=
  a ← Packet.getAddr p;
  n ← Packet.getSize p;
  inside ← AddrRange.isSubset (AddrRange.newRange a (u64 (a + n - 1))) (range m);
  _ ← assert_ inside;
  host ← hostAddr p m;
  if Packet.isRead p then
    h ← (if hasStore m then d ← Packet.getPtr p; memcpy d host n h else Ok h);
    p ← Packet.makeResponse p;
    Ok (h, ss, p)
  else if Packet.isWrite p then
    h ← (if hasStore m then d ← Packet.getConstPtr p; memcpy host d n h else Ok h);
    p ← Packet.makeResponse p;
    Ok (h, ss, p)
  else if Packet.isPrint p then
    prs ← (match Packet.senderState p with
           | Some b => x ← deref (ss !! b);
                       match SenderStates.object x with
                       | SenderStates.PrintReq_ s => Ok (b, x, s)
                       | SenderStates.Other _ => Fail AssertFailed
                       end
           | None => Fail AssertFailed
           end);
    let '(b, x, s) := prs in
    s ← SenderStates.printLabels s;
    byte ← load h host 1;
    v ← deref (byte !! 0%nat);
    let out := (SenderStates.os s +:+ SenderStates.curPrefix s +:+ print_byte v +:+ SenderStates.newline)%string in
    let s := SenderStates.mkPrint (SenderStates.labelStack s) (SenderStates.curPrefix s) out (SenderStates.verbosity s) in
    Ok (h, <[b := SenderStates.mkSender (SenderStates.predecessor x) (SenderStates.PrintReq_ s)]> ss, p)
  else Fail Panicked.

End AbstractMemory.
