(* ===== verification/AbstractMemProofs.v ===== *)
(** * Correctness of abstract memory

    The lock list refines a map from contexts to the 16-byte granule each has reserved;
    reads return the bytes last written; a swap exchanges memory and packet. *)

From S2P Require Import Prelude AddrRange MemCmd Packet AbstractMem.

Open Scope Z_scope.

Module AbstractMemoryProofs.
Import Host AbstractMemory.

#[local] Existing Instance MemCmd.Command_eq_dec.

(** ** Load locks *)

Section Locks.
Context (r : Request.Request) (c : Z) (Hc : Request.contextId r = Ok c).

Lemma matches_spec x : matchesContext r x = Ok (contextId x =? c).
Proof. unfold matchesContext. by rewrite Hc. Qed.

(** [trackLoadLocked] moves the record of a context that has one. *)
Lemma move_lock_spec g l :
  ((c ∉ (contextId <$> l)) ∧ move_lock g r l = Ok None) ∨
  (∃ l1 x l2, l = l1 ++ x :: l2 ∧ contextId x = c ∧ move_lock g r l = Ok (Some (l1 ++ mkLocked g c :: l2))).
Proof.
  induction l as [|x l IH]; [left; split; [set_solver|done]|].
  cbn [move_lock]. rewrite matches_spec. cbn [mbind res_bind]. rewrite fmap_cons.
  destruct (Z.eqb_spec (contextId x) c) as [Hxc|Hne].
  - right. exists [], x, l. by rewrite Hxc.
  - destruct IH as [[Hn ->]|(l1 & y & l2 & -> & Hy & ->)]; cbn [mbind res_bind option_map].
    + left. split; [|done]. apply not_elem_of_cons. split; [congruence|done].
    + right. by exists (x :: l1), y, l2.
Qed.

Lemma find_lock_spec g l : find_lock g r l = Ok (bool_decide (mkLocked g c ∈ l)).
Proof.
  induction l as [|x l IH]; [done|]. cbn [find_lock]. rewrite matches_spec.
  assert ((if addr x =? g then Ok (contextId x =? c) else Ok false) = Ok (bool_decide (mkLocked g c = x))) as ->.
  { destruct x as [a d]. cbn. destruct (Z.eqb_spec a g); [destruct (Z.eqb_spec d c)|]; f_equal;
      [rewrite bool_decide_true|rewrite bool_decide_false..]; congruence. }
  cbn [mbind res_bind]. destruct (bool_decide_reflect (mkLocked g c = x)) as [Hx|Hx].
  - rewrite bool_decide_true; [done|]. apply elem_of_cons. by left.
  - rewrite IH. f_equal. apply bool_decide_ext. rewrite elem_of_cons. naive_solver.
Qed.
End Locks.

Lemma erase_locks_spec g l w :
  erase_locks g l w = (filter (λ x, addr x ≠ g) l, w ++ (contextId <$> filter (λ x, addr x = g) l)).
Proof.
  revert w. induction l as [|x l IH]; intros w; [by rewrite app_nil_r|]. cbn [erase_locks].
  destruct (Z.eqb_spec (addr x) g) as [Hx|Hx].
  - rewrite IH, filter_cons_False by (by intros []). rewrite (filter_cons_True (λ x, addr x = g)) by done.
    by rewrite fmap_cons, <- app_assoc.
  - rewrite IH, filter_cons_True by done. by rewrite (filter_cons_False (λ x, addr x = g)).
Qed.

(** The effect of [writeOK]: an ordinary store always goes ahead, a store conditional exactly
    when its context holds a lock on the granule, and a store that goes ahead takes all locks on
    the granule away. *)
Lemma writeOK_spec p m a :
  Request.getPaddr (Packet.req p) = Ok a →
  (Packet.isLLSC p = true → is_Ok (Request.contextId (Packet.req p))) →
  ∃ (ok : bool) m', writeOK p m =
    Ok (ok, if Packet.isLLSC p then with_req (Request.setExtraData (if ok then 1 else 0) (Packet.req p)) p else p, m') ∧
    (∀ c, Request.contextId (Packet.req p) = Ok c →
       ok = negb (Packet.isLLSC p) || bool_decide (mkLocked (mask a) c ∈ lockedAddrList m)) ∧
    (Packet.isLLSC p = false → ok = true) ∧
    lockedAddrList m' = (if ok then filter (λ x, addr x ≠ mask a) (lockedAddrList m) else lockedAddrList m) ∧
    m' = with_woken (woken m') (with_locks (lockedAddrList m') m).
Proof.
  intros Ha Hcid. unfold writeOK. destruct (lockedAddrList m) as [|x l] eqn:Hl.
  { exists (negb (Packet.isLLSC p)), m. rewrite Hl. split_and!.
    - by destruct (Packet.isLLSC p).
    - intros c _. by rewrite bool_decide_false, orb_false_r by set_solver.
    - by intros ->.
    - by destruct (negb _).
    - destruct m. cbn in *. by subst. }
  rewrite <- Hl. clear x l Hl. unfold checkLockedAddrList. rewrite Ha. cbn [mbind res_bind].
  destruct (Packet.isLLSC p) eqn:Hll.
  - destruct (Hcid eq_refl) as [c Hc]. rewrite (find_lock_spec _ c Hc). cbn [mbind res_bind].
    rewrite erase_locks_spec. case_bool_decide as Hin.
    + eexists true, _. split; [done|]. split_and!; try done.
      intros c' Hc'. assert (c' = c) as -> by congruence. by rewrite bool_decide_true.
    + exists false, m. split; [done|]. split_and!; try done; [|by destruct m].
      intros c' Hc'. assert (c' = c) as -> by congruence. by rewrite bool_decide_false.
  - cbn [mbind res_bind]. rewrite erase_locks_spec. eexists true, _. split; [done|]. split_and!; done.
Qed.

(** The lock list is a map from contexts to granules. *)
Definition lock_rel (l : list LockedAddr) (s : gmap Z Z) : Prop :=
  NoDup (contextId <$> l) ∧ ∀ c g, s !! c = Some g ↔ mkLocked g c ∈ l.

Lemma lock_rel_fresh l s c : lock_rel l s → (c ∉ (contextId <$> l)) ↔ s !! c = None.
Proof.
  intros [_ Hl]. split.
  - intros Hn. destruct (s !! c) as [g|] eqn:Hs; [|done]. apply Hl in Hs.
    exfalso. apply Hn. exact (list_elem_of_fmap_2 contextId _ _ Hs).
  - intros Hs [x [-> Hx]]%list_elem_of_fmap. destruct x as [g d]. apply Hl in Hx. cbn in *. congruence.
Qed.

Lemma track_refines p m s a c :
  Request.getPaddr (Packet.req p) = Ok a → Request.contextId (Packet.req p) = Ok c →
  lock_rel (lockedAddrList m) s →
  ∃ l, trackLoadLocked p m = Ok (with_locks l m) ∧ lock_rel l (<[c := mask a]> s).
Proof.
  intros Ha Hc Hrel. pose proof Hrel as [Hnd Hl]. unfold trackLoadLocked. rewrite Ha. cbn [mbind res_bind].
  destruct (move_lock_spec _ c Hc (mask a) (lockedAddrList m)) as [[Hn ->]|(l1 & x & l2 & Hl12 & Hx & ->)]; cbn [mbind res_bind].
  - unfold newLockedAddr. rewrite Ha, Hc. cbn [mbind res_bind]. eexists. split; [done|]. split.
    + rewrite fmap_cons. by constructor.
    + intros c' g. rewrite elem_of_cons, <- Hl. apply (lock_rel_fresh _ _ _ Hrel) in Hn.
      destruct (decide (c = c')) as [<-|Hne].
      * rewrite lookup_insert_eq. naive_solver.
      * rewrite lookup_insert_ne by done. naive_solver.
  - eexists. split; [done|]. rewrite Hl12 in Hnd, Hl. split.
    + rewrite !fmap_app, !fmap_cons in Hnd |- *. cbn. by rewrite <- Hx.
    + intros c' g. specialize (Hl c' g). rewrite elem_of_app, elem_of_cons in Hl |- *.
      rewrite fmap_app, fmap_cons, NoDup_app, NoDup_cons in Hnd. destruct Hnd as (_ & Hd & Hn2 & _).
      assert (∀ y, y ∈ l1 ∨ y ∈ l2 → contextId y ≠ c) as Hother.
      { intros y [Hy|Hy] Hyc.
        - apply (Hd c); [|rewrite <- Hx; by left]. rewrite <- Hyc. exact (list_elem_of_fmap_2 contextId _ _ Hy).
        - apply Hn2. rewrite Hx, <- Hyc. exact (list_elem_of_fmap_2 contextId _ _ Hy). }
      destruct (decide (c = c')) as [<-|Hne].
      * rewrite lookup_insert_eq. split; [intros [= <-]; by right; left|].
        intros [Hy|[[= ->]|Hy]]; [|done|]; exfalso; eapply Hother; eauto.
      * rewrite lookup_insert_ne by done. rewrite Hl. destruct x as [gx cx]. cbn in Hx. subst cx.
        split; (intros [?|[[=]|?]]; [by left|congruence|by right; right]).
Qed.

Lemma erase_refines l s g :
  lock_rel l s → lock_rel (filter (λ x, addr x ≠ g) l) (filter (λ '(_, g'), g' ≠ g) s).
Proof.
  intros [Hnd Hl]. split.
  - eapply sublist_NoDup; [done|]. apply fmap_sublist, sublist_filter.
  - intros c g'. rewrite map_lookup_filter_Some, list_elem_of_filter, Hl. cbn. naive_solver.
Qed.

(** Operations on locks, as contexts issue them. *)
Inductive lock_op :=
  | LL (c a : Z)
  | SC (c a : Z)
  | ST (a : Z).

(** The specification: a context holds at most one reservation; a store conditional succeeds
    when its context holds the granule; a store that goes ahead ends all reservations of it. *)
Definition spec_op (o : lock_op) (s : gmap Z Z) : bool * gmap Z Z :=
  match o with
  | LL c a => (true, <[c := mask a]> s)
  | SC c a => if bool_decide (s !! c = Some (mask a)) then (true, filter (λ '(_, g), g ≠ mask a) s) else (false, s)
  | ST a => (true, filter (λ '(_, g), g ≠ mask a) s)
  end.

(** The packet that carries an operation. *)
Definition carries (p : Packet.Packet) (o : lock_op) : Prop :=
  match o with
  | LL c a => Packet.isLLSC p = true ∧ Request.getPaddr (Packet.req p) = Ok a ∧ Request.contextId (Packet.req p) = Ok c
  | SC c a => Packet.isLLSC p = true ∧ Request.getPaddr (Packet.req p) = Ok a ∧ Request.contextId (Packet.req p) = Ok c
  | ST a => Packet.isLLSC p = false ∧ Request.getPaddr (Packet.req p) = Ok a
  end.

(** What the memory does for it, with the value the request's extra data reports. *)
Definition do_op (o : lock_op) (p : Packet.Packet) (m : AbstractMemory) : res (bool * AbstractMemory) :=
  match o with
  | LL _ _ => m ← trackLoadLocked p m; Ok (true, m)
  | SC _ _ =>
      '(ok, p, m) ← writeOK p m;
      v ← Request.getExtraData (Packet.req p);
      _ ← assert_ (Bool.eqb ok (v =? 1));
      Ok (ok, m)
  | ST _ => '(ok, _, m) ← writeOK p m; Ok (ok, m)
  end.

Fixpoint do_ops (l : list (lock_op * Packet.Packet)) (m : AbstractMemory) : res (list bool * AbstractMemory) :=
  match l with
  | [] => Ok ([], m)
  | (o, p) :: l =>
      '(b, m) ← do_op o p m;
      '(bs, m) ← do_ops l m;
      Ok (b :: bs, m)
  end.

Fixpoint spec_ops (l : list lock_op) (s : gmap Z Z) : list bool * gmap Z Z :=
  match l with
  | [] => ([], s)
  | o :: l =>
      let '(b, s) := spec_op o s in
      let '(bs, s) := spec_ops l s in
      (b :: bs, s)
  end.

Lemma extra_data_set v r : Request.getExtraData (Request.setExtraData v r) = Ok v.
Proof.
  unfold Request.getExtraData, Request.setExtraData. cbn. rewrite bind_assert; [done|].
  change Request.VALID_EXTRA_DATA with (2 ^ 7). rewrite Flags.isSet_set by lia. by rewrite orb_true_r.
Qed.

Lemma do_op_refines o p m s :
  carries p o → lock_rel (lockedAddrList m) s →
  ∃ m', do_op o p m = Ok ((spec_op o s).1, m') ∧ lock_rel (lockedAddrList m') (spec_op o s).2.
Proof.
  intros Hp Hrel. destruct o as [c a|c a|a]; cbn [do_op spec_op].
  - destruct Hp as (_ & Ha & Hc). destruct (track_refines p m s a c Ha Hc Hrel) as (l & -> & Hl).
    cbn [mbind res_bind]. by eexists.
  - destruct Hp as (Hll & Ha & Hc). destruct (writeOK_spec p m a Ha) as (ok & m' & -> & Hok & _ & Hm' & _); [by eexists|].
    cbn [mbind res_bind]. rewrite Hll. cbn [Packet.req with_req]. rewrite extra_data_set. cbn [mbind res_bind].
    rewrite bind_assert by (by destruct ok). exists m'. rewrite (Hok c Hc), Hll in *. cbn [negb orb] in *.
    rewrite Hm', <- (bool_decide_ext _ _ (proj2 Hrel c (mask a))).
    destruct (bool_decide (s !! c = _)); (split; [done|]); [by apply erase_refines|done].
  - destruct Hp as (Hll & Ha). destruct (writeOK_spec p m a Ha) as (ok & m' & -> & _ & Hok & Hm' & _); [congruence|].
    cbn [mbind res_bind]. rewrite (Hok Hll) in *. exists m'. rewrite Hm'. split; [done|]. by apply erase_refines.
Qed.

(** ** Data *)

(** Reading and writing an array of host memory. *)
Lemma load_spec h p n :
  valid h p n → ∃ bs, load h p n = Ok bs ∧ vsize bs = n ∧ ∀ i, 0 ≤ i < n → bs !! Z.to_nat i = byte_at h p i.
Proof.
  intros (b & o & l & -> & Hb & Ho & Hn & Hl). unfold load. cbn. rewrite Hb. cbn.
  destruct (Z.leb_spec 0 o), (Z.leb_spec 0 n), (Z.leb_spec (o + n) (vsize l)); try lia. cbn.
  eexists. split; [done|]. unfold vsize in *. split; [rewrite length_take, length_drop; lia|].
  intros i Hi. destruct (Z.leb_spec 0 (o + i)); [|lia]. rewrite lookup_take_lt, lookup_drop by lia. f_equal. lia.
Qed.

Lemma load_ext h h' p p' n :
  valid h p n → valid h' p' n → (∀ i, 0 ≤ i < n → byte_at h' p' i = byte_at h p i) → load h' p' n = load h p n.
Proof.
  intros Hv Hv' He.
  destruct (load_spec h p n Hv) as (bs & -> & Hn & Hbs), (load_spec h' p' n Hv') as (bs' & -> & Hn' & Hbs').
  f_equal. apply list_eq. intros k. unfold vsize in *. destruct (decide (Z.of_nat k < n)).
  - rewrite <- (Nat2Z.id k), Hbs, Hbs' by lia. apply He. lia.
  - rewrite !lookup_ge_None_2 by lia. done.
Qed.

Lemma store_spec h p bs :
  valid h p (vsize bs) →
  ∃ h', store h p bs = Ok h' ∧
    (∀ i, byte_at h' p i = if (0 <=? i) && (i <? vsize bs) then bs !! Z.to_nat i else byte_at h p i) ∧
    (∀ q i, separate p q → byte_at h' q i = byte_at h q i) ∧
    (∀ q k, valid h q k → valid h' q k).
Proof.
  intros (b & o & l & -> & Hb & Ho & Hn & Hl). unfold store. cbn. rewrite Hb. cbn.
  destruct (Z.leb_spec 0 o), (Z.leb_spec (o + vsize bs) (vsize l)); try lia. cbn.
  eexists. split; [done|]. split_and!.
  - intros i. rewrite lookup_insert_eq. cbn. destruct (Z.leb_spec 0 (o + i)) as [Hi|Hi].
    + rewrite lookup_inserts_Z by lia. replace (o + i - o) with i by lia.
      destruct (Z.leb_spec o (o + i)), (Z.ltb_spec (o + i) (o + vsize bs)), (Z.leb_spec 0 i), (Z.ltb_spec i (vsize bs));
        try lia; done.
    + destruct (Z.leb_spec 0 i); [lia|done].
  - intros [[c q]|] i Hq; [|done]. cbn. rewrite lookup_insert_ne; [done|]. by eapply Hq.
  - intros q k (c & oc & lc & -> & Hc & Hoc & Hk & Hlc). destruct (decide (b = c)) as [<-|].
    + exists b, oc, (list_inserts (Z.to_nat o) bs l). rewrite lookup_insert_eq.
      simplify_eq. unfold vsize in *. rewrite length_inserts. splits.
    + exists c, oc, lc. rewrite lookup_insert_ne by done. splits.
Qed.

Lemma with_req_id p : with_req (Packet.req p) p = p.
Proof. by destruct p. Qed.

Definition stats_for (i : Z) (s : Stats) : Prop :=
  0 ≤ i ∧ i < vsize (bytesRead s) ∧ i < vsize (bytesInstRead s) ∧ i < vsize (bytesWritten s) ∧
  i < vsize (numReads s) ∧ i < vsize (numWrites s) ∧ i < vsize (numOther s).

(** A packet the memory answers: inside its range, with a payload of its own. *)
Record reaches (h : mem) (m : AbstractMemory) (p : Packet.Packet) : Prop := {
  re_addr : Flags.isSet (Packet.flags p) Packet.VALID_ADDR = true;
  re_size : Flags.isSet (Packet.flags p) Packet.VALID_SIZE = true;
  re_data : Flags.isSet (Packet.flags p) Packet.DATA_FLAGS = true;
  re_cache : Packet.cacheResponding p = false;
  re_n : 0 < Packet.size p < 2 ^ 32;
  re_lo : 0 ≤ start m ≤ Packet.addr p;
  re_hi : Packet.addr p + Packet.size p - 1 ≤ AddrRange._end (range m) < 2 ^ 64;
  re_mem : valid h (Packet.data p) (Packet.size p);
  re_store : valid h (pmemAddr m) (AddrRange._end (range m) - start m + 1);
  re_sep : separate (Packet.data p) (pmemAddr m);
  re_stats : stats_for (Request.masterId (Packet.req p)) (stats m);
  re_paddr : is_Ok (Request.getPaddr (Packet.req p));
  re_ctx : Packet.isLLSC p = true → is_Ok (Request.contextId (Packet.req p))
}.

(** Offset of the packet in the backing store. *)
Definition off (m : AbstractMemory) (p : Packet.Packet) : Z := Packet.addr p - start m.

Lemma bump_spec i n v : 0 ≤ i < vsize v → ∃ v', bump i n v = Ok v' ∧ vsize v' = vsize v.
Proof.
  intros Hi. unfold bump. destruct (Z.leb_spec 0 i), (Z.ltb_spec i (vsize v)); try lia. cbn [andb].
  destruct (vread_ok v i Hi) as (x & -> & _). cbn [mbind res_bind]. rewrite vwrite_ok by done.
  eexists. split; [done|]. apply vsize_insert.
Qed.

(** The statistics of [m'] have the shape of those of [m], and memory and range are the same. *)
Definition same_shape (m m' : AbstractMemory) : Prop :=
  range m' = range m ∧ pmemAddr m' = pmemAddr m ∧ (∀ i, stats_for i (stats m) → stats_for i (stats m')).

Section Reaches.
Context (h : mem) (m : AbstractMemory) (p : Packet.Packet) (Hp : reaches h m p).

Lemma getAddr_ok : Packet.getAddr p = Ok (Packet.addr p).
Proof. unfold Packet.getAddr. by rewrite bind_assert by apply Hp. Qed.
Lemma getSize_ok : Packet.getSize p = Ok (Packet.size p).
Proof. unfold Packet.getSize. by rewrite bind_assert by apply Hp. Qed.
Lemma getPtr_ok : Packet.getPtr p = Ok (Packet.data p).
Proof. unfold Packet.getPtr. by rewrite bind_assert by apply Hp. Qed.
Lemma getConstPtr_ok : Packet.getConstPtr p = Ok (Packet.data p).
Proof. exact getPtr_ok. Qed.

Lemma hasStore_ok : hasStore m = true.
Proof. destruct (re_store _ _ _ Hp) as (b & o & l & Hb & _). unfold hasStore. by rewrite Hb. Qed.

Lemma host_valid : valid h (padd (pmemAddr m) (off m p)) (Packet.size p).
Proof.
  destruct Hp. eapply valid_padd; [done|..]; unfold off; lia.
Qed.

Lemma host_separate : separate (Packet.data p) (padd (pmemAddr m) (off m p)).
Proof. rewrite <- (padd_0 (Packet.data p)). apply separate_padd, Hp. Qed.

Lemma count_read_spec : ∃ s, count_read p (stats m) = Ok s ∧ ∀ i, stats_for i (stats m) → stats_for i s.
Proof.
  destruct (re_stats _ _ _ Hp) as (H0 & H1 & H2 & H3 & H4 & H5 & H6). unfold count_read. rewrite !getSize_ok.
  set (i := Request.masterId (Packet.req p)) in *.
  destruct (bump_spec i 1 (numReads (stats m))) as (v1 & -> & E1); [lia|]. cbn [mbind res_bind].
  destruct (bump_spec i (Packet.size p) (bytesRead (stats m))) as (v2 & -> & E2); [lia|]. cbn [mbind res_bind].
  destruct (bump_spec i (Packet.size p) (bytesInstRead (stats m))) as (v3 & E & E3); [lia|].
  destruct (Request.isInstFetch _); [rewrite E|]; cbn [mbind res_bind]; eexists; (split; [done|]);
    unfold stats_for; cbn; rewrite ?E1, ?E2, ?E3; done.
Qed.

Lemma count_write_spec : ∃ s, count_write p (stats m) = Ok s ∧ ∀ i, stats_for i (stats m) → stats_for i s.
Proof.
  destruct (re_stats _ _ _ Hp) as (H0 & H1 & H2 & H3 & H4 & H5 & H6). unfold count_write. rewrite !getSize_ok.
  set (i := Request.masterId (Packet.req p)) in *.
  destruct (bump_spec i 1 (numWrites (stats m))) as (v1 & -> & E1); [lia|]. cbn [mbind res_bind].
  destruct (bump_spec i (Packet.size p) (bytesWritten (stats m))) as (v2 & -> & E2); [lia|]. cbn [mbind res_bind].
  eexists. split; [done|]. unfold stats_for. cbn. by rewrite E1, E2.
Qed.

Lemma count_other_spec : ∃ s, count_other p (stats m) = Ok s ∧ ∀ i, stats_for i (stats m) → stats_for i s.
Proof.
  destruct (re_stats _ _ _ Hp) as (H0 & H1 & H2 & H3 & H4 & H5 & H6). unfold count_other.
  destruct (bump_spec (Request.masterId (Packet.req p)) 1 (numOther (stats m))) as (v1 & -> & E1); [lia|].
  cbn [mbind res_bind]. eexists. split; [done|]. unfold stats_for. cbn. by rewrite E1.
Qed.

(** [access] inside the range comes down to its four branches and the response. *)
Lemma access_inside atomicOp host_bytes :
  Packet.cmd p ≠ MemCmd.CleanEvict → Packet.cmd p ≠ MemCmd.WritebackClean →
  access atomicOp host_bytes p h m =
    ('(h, p, m) ←
      (if bool_decide (Packet.cmd p = MemCmd.SwapReq) then
         '(h, m) ← swap atomicOp host_bytes (padd (pmemAddr m) (off m p)) p h m; Ok (h, p, m)
       else if Packet.isRead p then
         '(h, m) ← read (padd (pmemAddr m) (off m p)) p h m; Ok (h, p, m)
       else if Packet.isInvalidate p then Ok (h, p, m)
       else if Packet.isWrite p then write (padd (pmemAddr m) (off m p)) p h m
       else Fail Panicked);
    if Packet.needsResponse p then p ← Packet.makeResponse p; Ok (h, p, m) else Ok (h, p, m)).
Proof.
  intros Hce Hwc. unfold access. rewrite (re_cache _ _ _ Hp), !bool_decide_false by done. cbn [orb].
  rewrite getAddr_ok, getSize_ok. cbn [mbind res_bind]. unfold AddrRange.isSubset.
  cbn [AddrRange.interleaved AddrRange.newRange AddrRange.intlvBits AddrRange._start AddrRange._end negb Z.eqb mbind res_bind].
  destruct Hp as [_ _ _ _ Hn Hlo Hhi _ _ _ _ _ _]. unfold start in Hlo.
  rewrite !wrap_small by (unfold in_width; rewrite ?wrap_small; unfold in_width; lia).
  rewrite bind_assert by (apply andb_true_intro; split; apply Z.leb_le; lia).
  unfold hostAddr. rewrite getAddr_ok. done.
Qed.

Lemma response_ok : Packet.needsResponse p = true →
  ∃ p', Packet.makeResponse p = Ok p' ∧ Packet.data p' = Packet.data p.
Proof.
  intros Hn. unfold Packet.makeResponse. rewrite bind_assert by done.
  rewrite bind_assert by (by apply MemCmd.needsResponse_isRequest). by eexists.
Qed.

Lemma track_ok : Packet.isLLSC p = true → ∃ l, trackLoadLocked p m = Ok (with_locks l m).
Proof.
  intros Hll. destruct (re_paddr _ _ _ Hp) as [a Ha], (re_ctx _ _ _ Hp Hll) as [c Hc].
  unfold trackLoadLocked. rewrite Ha. cbn [mbind res_bind].
  destruct (move_lock_spec _ c Hc (mask a) (lockedAddrList m)) as [[_ ->]|(? & ? & ? & _ & _ & ->)]; cbn [mbind res_bind].
  - unfold newLockedAddr. rewrite Ha, Hc. by eexists.
  - by eexists.
Qed.

(** What an access to the bytes at [dest] leaves alone. *)
Definition only_at (dest : ptr) (h h' : mem) : Prop :=
  (∀ q i, separate dest q → byte_at h' q i = byte_at h q i) ∧ (∀ q k, valid h q k → valid h' q k).

Lemma read_spec :
  Packet.isWrite p = false →
  ∃ h' m', read (padd (pmemAddr m) (off m p)) p h m = Ok (h', m') ∧ same_shape m m' ∧
    (∀ i, 0 ≤ i < Packet.size p → byte_at h' (Packet.data p) i = byte_at h (pmemAddr m) (off m p + i)) ∧
    only_at (Packet.data p) h h'.
Proof.
  intros Hw. unfold read. rewrite Hw. cbn [negb]. rewrite bind_assert by done.
  assert (∃ l, (if Packet.isLLSC p then trackLoadLocked p m else Ok m) = Ok (with_locks l m)) as [l ->].
  { destruct (Packet.isLLSC p) eqn:Hll; [by apply track_ok|]. exists (lockedAddrList m). by destruct m. }
  cbn [mbind res_bind]. change (hasStore (with_locks l m)) with (hasStore m). rewrite hasStore_ok.
  rewrite getPtr_ok, getSize_ok. cbn [mbind res_bind].
  destruct (memcpy_spec h (Packet.data p) (padd (pmemAddr m) (off m p)) (Packet.size p))
    as (h' & -> & Hin & _ & Hoth & Hval); [apply Hp|apply host_valid|apply host_separate|].
  cbn [mbind res_bind]. change (stats (with_locks l m)) with (stats m).
  destruct count_read_spec as (s & -> & Hs). cbn [mbind res_bind].
  eexists _, _. split; [done|]. split; [by split_and!|]. split; [|by split].
  intros i Hi. rewrite Hin by done. apply byte_at_padd.
Qed.

Lemma write_spec :
  Request.isInstFetch (Packet.req p) = false →
  ∃ (ok : bool) h' p' m', write (padd (pmemAddr m) (off m p)) p h m = Ok (h', p', m') ∧ same_shape m m' ∧
    (Packet.isLLSC p = false → ok = true) ∧
    (∀ a c, Request.getPaddr (Packet.req p) = Ok a → Request.contextId (Packet.req p) = Ok c →
       ok = negb (Packet.isLLSC p) || bool_decide (mkLocked (mask a) c ∈ lockedAddrList m)) ∧
    (∀ i, byte_at h' (pmemAddr m) i =
       if ok && (off m p <=? i) && (i <? off m p + Packet.size p)
       then byte_at h (Packet.data p) (i - off m p) else byte_at h (pmemAddr m) i) ∧
    only_at (pmemAddr m) h h' ∧
    p' = with_req (Packet.req p') p.
Proof.
  intros Hif. unfold write. destruct (re_paddr _ _ _ Hp) as [a Ha].
  destruct (writeOK_spec p m a Ha (re_ctx _ _ _ Hp)) as (ok & m1 & -> & Hok & Hst & _ & Hm1).
  cbn [mbind res_bind]. set (p1 := if Packet.isLLSC p then _ else p).
  assert (p1 = with_req (Packet.req p1) p) as Hp1 by (unfold p1; destruct (Packet.isLLSC p); [done|by rewrite with_req_id]).
  assert (Packet.getConstPtr p1 = Packet.getConstPtr p ∧ Packet.getSize p1 = Packet.getSize p) as [Hg1 Hg2]
    by (rewrite Hp1; done).
  assert (Request.isInstFetch (Packet.req p1) = false ∧ ∀ s, count_write p1 s = count_write p s) as [Hg3 Hg4].
  { unfold p1. by destruct (Packet.isLLSC p). }
  assert (hasStore m1 = true ∧ stats m1 = stats m) as [Hg5 Hg6].
  { rewrite Hm1. split; [exact hasStore_ok|done]. }
  assert (∀ a' c, Request.getPaddr (Packet.req p) = Ok a' → Request.contextId (Packet.req p) = Ok c →
    ok = negb (Packet.isLLSC p) || bool_decide (mkLocked (mask a') c ∈ lockedAddrList m)) as Hok'.
  { intros a' c Ha' Hc. assert (a' = a) as -> by congruence. by apply Hok. }
  destruct ok.
  - rewrite Hg5, Hg1, Hg2, (getConstPtr_ok), getSize_ok. cbn [mbind res_bind].
    destruct (memcpy_spec h (padd (pmemAddr m) (off m p)) (Packet.data p) (Packet.size p))
      as (h' & -> & Hin & Hout & Hoth & Hval); [apply host_valid|apply Hp|apply separate_sym, host_separate|].
    cbn [mbind res_bind]. rewrite Hg3. cbn [negb]. rewrite bind_assert by done.
    rewrite Hg4, Hg6. destruct count_write_spec as (s & -> & Hs). cbn [mbind res_bind].
    exists true, h', p1, (with_stats s m1). split; [done|]. split_and!; try done.
    + rewrite Hm1. by split_and!.
    + intros i. cbn [andb]. specialize (Hin (i - off m p)). specialize (Hout (i - off m p)).
      rewrite byte_at_padd in Hin. rewrite !byte_at_padd in Hout. replace (off m p + (i - off m p)) with i in Hin, Hout by lia.
      destruct (Z.leb_spec (off m p) i), (Z.ltb_spec i (off m p + Packet.size p)); cbn [andb];
        [apply Hin|apply Hout..]; lia.
    + split; [|done]. intros q i Hq. apply Hoth. by rewrite <- (padd_0 q); apply separate_padd.
  - exists false, h, p1, m1. split; [done|]. split_and!; try done.
    rewrite Hm1. by split_and!.
Qed.

(** The value a conditional swap compares memory with. *)
Definition compared (host_bytes : Z → Z → list Z) (old : list Z) : Prop :=
  ∃ v, Request.getExtraData (Packet.req p) = Ok v ∧
    (Packet.size p = 8 ∧ host_bytes 8 v = old ∨ Packet.size p = 4 ∧ host_bytes 4 (u32 v) = old).

Lemma swap_spec atomicOp host_bytes :
  Packet.isAtomicOp p = false → Request.isInstFetch (Packet.req p) = false →
  (Request.isCondSwap (Packet.req p) = true →
     (Packet.size p = 8 ∨ Packet.size p = 4) ∧ is_Ok (Request.getExtraData (Packet.req p))) →
  ∃ (taken : bool) old h' m', swap atomicOp host_bytes (padd (pmemAddr m) (off m p)) p h m = Ok (h', m') ∧
    same_shape m m' ∧ lockedAddrList m' = lockedAddrList m ∧
    load h (padd (pmemAddr m) (off m p)) (Packet.size p) = Ok old ∧
    (taken = true ↔ (Request.isCondSwap (Packet.req p) = true → compared host_bytes old)) ∧
    load h' (Packet.data p) (Packet.size p) = Ok old ∧
    (∀ i, byte_at h' (pmemAddr m) i =
       if taken && (off m p <=? i) && (i <? off m p + Packet.size p)
       then byte_at h (Packet.data p) (i - off m p) else byte_at h (pmemAddr m) i).
Proof.
  intros Hat Hif Hcond. unfold swap. rewrite Hat, hasStore_ok. cbn [negb].
  rewrite getSize_ok, getConstPtr_ok, getPtr_ok. cbn [mbind res_bind].
  set (host := padd (pmemAddr m) (off m p)).
  destruct (load_spec h (Packet.data p) (Packet.size p)) as (nv & Hnv & Hnn & Hnb); [apply Hp|].
  destruct (load_spec h host (Packet.size p)) as (old & Hold & Hon & Hob); [apply host_valid|].
  rewrite Hnv. cbn [mbind res_bind].
  destruct (memcpy_spec h (Packet.data p) host (Packet.size p)) as (h1 & -> & Hin & _ & Hoth & Hval);
    [apply Hp|apply host_valid|apply host_separate|]. cbn [mbind res_bind].
  assert (load h1 host (Packet.size p) = Ok old) as Hold1.
  { rewrite (load_ext h h1 host); [done|apply host_valid|apply Hval, host_valid|]. intros i _. apply Hoth, host_separate. }
  assert (load h1 (Packet.data p) (Packet.size p) = Ok old) as Hpk.
  { rewrite (load_ext h h1 host); [done|apply host_valid|apply Hval, Hp|done]. }
  set (cond := if Request.isCondSwap (Packet.req p) then _ else Ok true).
  assert (∃ taken, cond = Ok taken ∧
    (taken = true ↔ (Request.isCondSwap (Packet.req p) = true → compared host_bytes old))) as (taken & -> & Htaken).
  { unfold cond, compared. destruct (Request.isCondSwap (Packet.req p)); [|by exists true].
    destruct Hcond as [Hsz [v Hv]]; [done|]. rewrite Hv. cbn [mbind res_bind].
    destruct Hsz as [Hsz|Hsz]; rewrite Hsz in Hold1 |- *; cbn [Z.eqb Pos.eqb]; rewrite Hold1; cbn [mbind res_bind];
      eexists; (split; [done|]); rewrite bool_decide_eq_true; naive_solver. }
  cbn [mbind res_bind].
  destruct (store_spec h1 host nv) as (h2 & Hst & Hb2 & Ho2 & Hv2); [rewrite Hnn; apply Hval, host_valid|].
  assert (∀ i, byte_at h1 (pmemAddr m) i = byte_at h (pmemAddr m) i) as Hmem1 by (intros i; apply Hoth, Hp).
  destruct count_other_spec as (s & Hs & Hshape).
  destruct taken; rewrite ?Hst; cbn [mbind res_bind]; rewrite Hif; cbn [negb]; rewrite bind_assert by done;
    rewrite Hs; cbn [mbind res_bind].
  - exists true, old, h2, (with_stats s m). split; [done|]. split_and!; try done.
    + rewrite (load_ext h1 h2 (Packet.data p)); [done|apply Hval, Hp|apply Hv2, Hval, Hp|].
      intros i _. apply Ho2, separate_sym, host_separate.
    + intros i. cbn [andb]. specialize (Hb2 (i - off m p)). unfold host in Hb2. rewrite !byte_at_padd in Hb2.
      replace (off m p + (i - off m p)) with i in Hb2 by lia. rewrite Hb2, Hnn, Hmem1.
      destruct (Z.leb_spec 0 (i - off m p)), (Z.ltb_spec (i - off m p) (Packet.size p)),
        (Z.leb_spec (off m p) i), (Z.ltb_spec i (off m p + Packet.size p)); try lia; try done.
      apply Hnb. lia.
  - exists false, old, h1, (with_stats s m). split; [done|]. split_and!; done.
Qed.

End Reaches.

(** A packet keeps reaching the memory after accesses by others. *)
Lemma reaches_frame h h' m m' p :
  reaches h m p → (∀ q k, valid h q k → valid h' q k) → same_shape m m' → reaches h' m' p.
Proof.
  intros [] Hv (Hr & Hpm & Hst). constructor; unfold start in *; rewrite ?Hr, ?Hpm; try done; auto.
Qed.

Lemma read_commands c :
  MemCmd.isRead c = true → MemCmd.isWrite c = false →
  c ≠ MemCmd.CleanEvict ∧ c ≠ MemCmd.WritebackClean ∧ c ≠ MemCmd.SwapReq.
Proof. by destruct c. Qed.

Lemma write_commands c :
  MemCmd.isWrite c = true → MemCmd.isRead c = false →
  c ≠ MemCmd.CleanEvict ∧ c ≠ MemCmd.SwapReq ∧ MemCmd.isInvalidate c = false.
Proof. by destruct c. Qed.

(** ** Main theorems *)

(** C31: Load locks.  Over any sequence of load-locked accesses, store conditionals and
    stores, the lock list of the memory behaves as a map from contexts to the one 16-byte
    granule each has reserved: a load-locked access sets the reservation of its context, a store
    conditional succeeds exactly when its context holds the granule, and every store that goes
    ahead ends all reservations of its granule. The result is reported in the request. *)
Theorem memory_locks_refine ops m s :
  (∀ o p, (o, p) ∈ ops → carries p o) → lock_rel (lockedAddrList m) s →
  ∃ m', do_ops ops m = Ok ((spec_ops ops.*1 s).1, m') ∧ lock_rel (lockedAddrList m') (spec_ops ops.*1 s).2.
Proof.
  revert m s. induction ops as [|[o p] ops IH]; intros m s Hops Hrel; [by exists m|].
  destruct (do_op_refines o p m s) as (m1 & Hdo & Hrel1); [apply Hops; by left|done|].
  cbn [do_ops]. rewrite Hdo. cbn [mbind res_bind]. rewrite fmap_cons. cbn [fst spec_ops].
  destruct (spec_op o s) as [b s1]. cbn [fst snd] in *.
  destruct (IH m1 s1) as (m2 & Hdos & Hrel2); [intros; apply Hops; by right|done|].
  rewrite Hdos. cbn [mbind res_bind]. destruct (spec_ops ops.*1 s1). by exists m2.
Qed.

Section DataTheorems.
Context (atomicOp : positive → ptr → mem → res mem) (host_bytes : Z → Z → list Z).

(** C40: A read after a write: the read packet receives, byte by byte, what the write packet
    held where the two overlap and the old contents elsewhere.  A store conditional writes
    exactly when its context holds the lock on the granule. *)
Theorem memory_read_write h m p1 p2 :
  reaches h m p1 → reaches h m p2 →
  Packet.isWrite p1 = true → Packet.isRead p1 = false → Packet.cmd p1 ≠ MemCmd.WritebackClean →
  Request.isInstFetch (Packet.req p1) = false →
  Packet.isRead p2 = true → Packet.isWrite p2 = false →
  ∃ (stored : bool) h1 p1' m1 h2 p2' m2,
    access atomicOp host_bytes p1 h m = Ok (h1, p1', m1) ∧
    access atomicOp host_bytes p2 h1 m1 = Ok (h2, p2', m2) ∧
    (Packet.isLLSC p1 = false → stored = true) ∧
    (∀ a c, Packet.isLLSC p1 = true → Request.getPaddr (Packet.req p1) = Ok a →
       Request.contextId (Packet.req p1) = Ok c → stored = bool_decide (mkLocked (mask a) c ∈ lockedAddrList m)) ∧
    ∀ i, 0 ≤ i < Packet.size p2 →
      byte_at h2 (Packet.data p2') i =
        let a := Packet.addr p2 + i in
        if stored && (Packet.addr p1 <=? a) && (a <? Packet.addr p1 + Packet.size p1)
        then byte_at h (Packet.data p1) (a - Packet.addr p1)
        else byte_at h (pmemAddr m) (a - start m).
Proof.
  intros H1 H2 Hw1 Hr1 Hwc Hif Hr2 Hw2.
  destruct (write_commands _ Hw1 Hr1) as (Hce & Hsw & Hinv), (read_commands _ Hr2 Hw2) as (Hce2 & Hwc2 & Hsw2).
  destruct (write_spec h m p1 H1 Hif) as (ok & h1 & p1a & m1 & Hwr & Hsh & Hst & Hok & Hmem & [Hoth Hval] & Hp1a).
  assert (reaches h1 m1 p2) as H2' by (by eapply reaches_frame).
  destruct (read_spec h1 m1 p2 H2' Hw2) as (h2 & m2 & Hrd & _ & Hbytes & _).
  assert (∃ p1', access atomicOp host_bytes p1 h m = Ok (h1, p1', m1)) as (p1' & Hacc1).
  { rewrite (access_inside h m p1 H1) by done. rewrite bool_decide_false by done. rewrite Hr1.
    unfold Packet.isInvalidate. rewrite Hinv, Hw1, Hwr. cbn [mbind res_bind].
    destruct (Packet.needsResponse p1a) eqn:Hn; [|by eexists]. destruct (response_ok p1a Hn) as (p' & -> & _). by eexists. }
  assert (∃ p2', access atomicOp host_bytes p2 h1 m1 = Ok (h2, p2', m2) ∧ Packet.data p2' = Packet.data p2)
    as (p2' & Hacc2 & Hd2).
  { rewrite (access_inside h1 m1 p2 H2') by done. rewrite bool_decide_false by done. rewrite Hr2, Hrd.
    cbn [mbind res_bind]. destruct (Packet.needsResponse p2) eqn:Hn; [|by eexists].
    destruct (response_ok p2 Hn) as (p' & -> & ?). by eexists. }
  exists ok, h1, p1', m1, h2, p2', m2. split_and!; [done|done|done| |].
  - intros a c Hll Ha Hc. rewrite (Hok a c Ha Hc), Hll. done.
  - intros i Hi. rewrite Hd2, Hbytes by done. destruct Hsh as (Hrg & Hpm & _).
    unfold off, start. rewrite Hpm, Hrg, Hmem. unfold off, start. cbn zeta.
    replace (Packet.addr p2 - AddrRange._start (range m) + i) with (Packet.addr p2 + i - AddrRange._start (range m)) by lia.
    set (a := Packet.addr p2 + i). set (s := AddrRange._start (range m)).
    replace (Packet.addr p1 - s <=? a - s) with (Packet.addr p1 <=? a)
      by (destruct (Z.leb_spec (Packet.addr p1) a), (Z.leb_spec (Packet.addr p1 - s) (a - s)); lia || done).
    replace (a - s <? Packet.addr p1 - s + Packet.size p1) with (a <? Packet.addr p1 + Packet.size p1)
      by (destruct (Z.ltb_spec a (Packet.addr p1 + Packet.size p1)), (Z.ltb_spec (a - s) (Packet.addr p1 - s + Packet.size p1)); lia || done).
    destruct (ok && _ && _); [|done]. f_equal. lia.
Qed.

(** A swap returns the old contents in the packet and stores what the packet held:
    always without a condition, and with one exactly when memory held the value to compare. No
    other byte of the memory and no load lock changes. *)
Theorem memory_swap h m p :
  reaches h m p → Packet.cmd p = MemCmd.SwapReq → Packet.isAtomicOp p = false →
  Request.isInstFetch (Packet.req p) = false →
  (Request.isCondSwap (Packet.req p) = true →
     (Packet.size p = 8 ∨ Packet.size p = 4) ∧ is_Ok (Request.getExtraData (Packet.req p))) →
  ∃ (taken : bool) old h' p' m', access atomicOp host_bytes p h m = Ok (h', p', m') ∧
    Packet.cmd p' = MemCmd.SwapResp ∧ lockedAddrList m' = lockedAddrList m ∧
    load h (padd (pmemAddr m) (off m p)) (Packet.size p) = Ok old ∧
    load h' (Packet.data p') (Packet.size p) = Ok old ∧
    (taken = true ↔ (Request.isCondSwap (Packet.req p) = true → compared p host_bytes old)) ∧
    ∀ i, byte_at h' (pmemAddr m) i =
       if taken && (off m p <=? i) && (i <? off m p + Packet.size p)
       then byte_at h (Packet.data p) (i - off m p) else byte_at h (pmemAddr m) i.
Proof.
  intros Hp Hcmd Hat Hif Hcond.
  destruct (swap_spec h m p Hp atomicOp host_bytes Hat Hif Hcond) as
    (taken & old & h' & m' & Hsw & _ & Hlk & Hold & Htk & Hpk & Hmem).
  assert (Packet.needsResponse p = true) as Hn by (unfold Packet.needsResponse; by rewrite Hcmd).
  destruct (response_ok p Hn) as (p' & Hr & Hd).
  assert (Packet.cmd p' = MemCmd.SwapResp) as Hc'.
  { unfold Packet.makeResponse in Hr. rewrite !bind_assert in Hr by (done || (unfold Packet.isRequest; by rewrite Hcmd)).
    injection Hr as <-. cbn. by rewrite Hcmd. }
  exists taken, old, h', p', m'. rewrite Hd. split_and!; try done.
  rewrite (access_inside h m p Hp) by (by rewrite Hcmd). rewrite bool_decide_true by done. rewrite Hsw.
  cbn [mbind res_bind]. by rewrite Hn, Hr.
Qed.

End DataTheorems.

(** ** Witnesses: 16 bytes of memory at 0x1000 *)

Definition demo_heap : mem :=
  {[ 1%positive := [0; 1; 2; 3; 4; 5; 6; 7; 8; 9; 10; 11; 12; 13; 14; 15];
     2%positive := [100; 101; 102; 103]; 3%positive := [0; 0; 0; 0] ]}.

Definition demo_memory (l : list LockedAddr) : AbstractMemory :=
  with_locks l (setBackingStore (Some (1%positive, 0)) (newMemory (AddrRange.newRange 0x1000 0x100f) true true false false 2)).

Definition demo_packet (c : MemCmd.Command) (b : positive) (a cid : Z) : Packet.Packet :=
  Packet.mkPacket 0x1300 c (Request.newPhysSeq 0 a 4 0 1 0 cid) (Some (b, 0)) a false 4 [] 0 0 0 None.

Definition demo_bytes (n v : Z) : list Z := (λ i, Z.shiftr v (8 * Z.of_nat i) mod 256) <$> seq 0 (Z.to_nat n).

Lemma demo_reaches l c b a :
  (b = 2%positive ∨ b = 3%positive) → 0x1000 ≤ a ≤ 0x100c → reaches demo_heap (demo_memory l) (demo_packet c b a 7).
Proof.
  intros Hb Ha. constructor; try done; cbn; try lia.
  - exists b. destruct Hb as [->| ->]; eexists _, _; (split; [done|]); (split; [done|]); by vm_compute.
  - exists 1%positive. eexists _, _. split; [done|]. split; [done|]. vm_compute. done.
  - intros ? ? ? ? [= <- <-] [= <- <-]. by destruct Hb as [->| ->].
  - by eexists.
  - intros _. by eexists.
Qed.

Lemma memory_locks_refine_witness :
  let ops := [(LL 7 0x1000, demo_packet MemCmd.LoadLockedReq 3 0x1000 7);
              (LL 8 0x1008, demo_packet MemCmd.LoadLockedReq 3 0x1008 8);
              (SC 7 0x1004, demo_packet MemCmd.StoreCondReq 2 0x1004 7);
              (SC 8 0x1008, demo_packet MemCmd.StoreCondReq 2 0x1008 8)] in
  ∃ m', do_ops ops (demo_memory []) = Ok ([true; true; true; false], m').
Proof.
  intros ops. destruct (memory_locks_refine ops (demo_memory []) ∅) as (m' & Hdo & _).
  - intros o p Hin. repeat (apply elem_of_cons in Hin as [[= -> ->]|Hin]; [done|]). by apply elem_of_nil in Hin.
  - split; [constructor|]. intros c g. split; [by rewrite lookup_empty|]. intros Hin. by apply elem_of_nil in Hin.
  - exists m'. exact Hdo.
Defined.

Lemma memory_read_write_witness :
  ∃ h1 p1' m1 h2 p2' m2,
    access (λ _ _, Ok) demo_bytes (demo_packet MemCmd.WriteReq 2 0x1004 7) demo_heap (demo_memory []) = Ok (h1, p1', m1) ∧
    access (λ _ _, Ok) demo_bytes (demo_packet MemCmd.ReadReq 3 0x1006 7) h1 m1 = Ok (h2, p2', m2) ∧
    byte_at h2 (Packet.data p2') 1 = Some 103 ∧ byte_at h2 (Packet.data p2') 2 = Some 8.
Proof.
  destruct (memory_read_write (λ _ _, Ok) demo_bytes demo_heap (demo_memory []) (demo_packet MemCmd.WriteReq 2 0x1004 7)
    (demo_packet MemCmd.ReadReq 3 0x1006 7)) as (st & h1 & p1' & m1 & h2 & p2' & m2 & Ha1 & Ha2 & Hst & _ & Hb);
    [apply demo_reaches; [by left|lia]|apply demo_reaches; [by right|lia]|done..|].
  exists h1, p1', m1, h2, p2', m2. rewrite (Hst eq_refl) in Hb.
  split; [exact Ha1|]. split; [exact Ha2|]. split; [rewrite (Hb 1)|rewrite (Hb 2)]; (reflexivity || (cbn; lia)).
Defined.

Lemma memory_swap_witness :
  ∃ h' p' m', access (λ _ _, Ok) demo_bytes (demo_packet MemCmd.SwapReq 2 0x1004 7) demo_heap (demo_memory []) = Ok (h', p', m') ∧
    load h' (Packet.data p') 4 = Ok [4; 5; 6; 7].
Proof.
  destruct (memory_swap (λ _ _, Ok) demo_bytes demo_heap (demo_memory []) (demo_packet MemCmd.SwapReq 2 0x1004 7))
    as (tk & old & h' & p' & m' & Ha & _ & _ & Hold & Hpk & _); [apply demo_reaches; [by left|lia]|done..|].
  exists h', p', m'. split; [exact Ha|]. vm_compute in Hold. injection Hold as <-. exact Hpk.
Defined.

End AbstractMemoryProofs.
