(* ===== verification/Clocked.v ===== *)
(** * Clocked objects

    [sim/clocked_object.hh], class [Clocked]: the tick of the next clock edge of an object and the
    number of its cycle, brought up to date on demand.  The clock period is that of the object's
    clock domain. *)

From S2P Require Import Prelude IntMath.

Open Scope Z_scope.

Module Clocked.

Record Clocked := mkClocked { tick : Z; cycle : Z }.

Definition newClocked : Clocked := mkClocked 0 0.

Section period.
Context (clockPeriod curTick : Z).

Definition update (c : Clocked) : Clocked :=
  if curTick <=? tick c then c
  else
    let c := mkClocked (u64 (tick c + clockPeriod)) (u64 (cycle c + 1)) in
    if curTick <=? tick c then c
    else
      let elapsedCycles := IntMath.divCeil 64 (u64 (curTick - tick c)) clockPeriod in
      mkClocked (u64 (tick c + u64 (elapsedCycles * clockPeriod))) (u64 (cycle c + elapsedCycles)).

Definition resetClock (c : Clocked) : Clocked :=
  let elapsedCycles := IntMath.divCeil 64 curTick clockPeriod in mkClocked (u64 (elapsedCycles * clockPeriod)) elapsedCycles.

Definition updateClockPeriod (c : Clocked) : Clocked := update c.

Definition clockEdge (cycles : Z) (c : Clocked) : Z * Clocked := let c := update c in (u64 (tick c + u64 (clockPeriod * cycles)), c).

Definition curCycle (c : Clocked) : Z * Clocked := let c := update c in (cycle c, c).

Definition nextCycle (c : Clocked) : Z * Clocked := clockEdge 1 c.

Definition ticksToCycles (t : Z) : Z := IntMath.divCeil 64 t clockPeriod.
Definition cyclesToTicks (c : Z) : Z := u64 (clockPeriod * c).

End period.

(** ** Correctness *)

(** The edge of the record is edge number [cycle] of a clock with period [p] and offset [o]. *)
Definition on_edge (p o : Z) (c : Clocked) : Prop := 0 ≤ cycle c ∧ tick c = o + cycle c * p ∧ 0 ≤ tick c.

Lemma divCeil_spec a b : 0 < b → 0 ≤ a → a + b < 2 ^ 64 → let q := IntMath.divCeil 64 a b in a ≤ q * b < a + b ∧ 0 ≤ q.
Proof.
  intros Hb Ha Ho. unfold IntMath.divCeil. rewrite (wrap_small 64 (a + b)) by (unfold in_width; lia). rewrite wrap_small by (unfold in_width; lia).
  pose proof (Z.div_mod (a + b - 1) b ltac:(lia)). pose proof (Z.mod_pos_bound (a + b - 1) b Hb). cbn. split; [nia|]. apply Z.div_pos; lia.
Qed.

(** Up to date, the record holds the first edge that is not before the current tick, unless it
    held a later one. *)
Lemma clock_update_spec p now o c :
  0 < p → 0 ≤ now → now + 3 * p < 2 ^ 63 → on_edge p o c → cycle c < 2 ^ 63 → tick c < 2 ^ 63 →
  let c' := update p now c in
  on_edge p o c' ∧ now ≤ tick c' ∧ (tick c' = tick c ∧ now ≤ tick c ∨ tick c' < now + p) ∧ cycle c ≤ cycle c'.
Proof.
  intros Hp Hn Hb (Hcy & Hti & H0) Hcb Htb. unfold update. destruct (Z.leb_spec now (tick c)); [split_and!; [done|lia|left; lia|lia]|].
  rewrite (wrap_small 64 (tick c + p)) by (unfold in_width; lia). rewrite (wrap_small 64 (cycle c + 1)) by (unfold in_width; lia). cbn [tick cycle].
  destruct (Z.leb_spec now (tick c + p)); [unfold on_edge; cbn; split_and!; lia|].
  rewrite (wrap_small 64 (now - (tick c + p))) by (unfold in_width; lia).
  destruct (divCeil_spec (now - (tick c + p)) p Hp ltac:(lia) ltac:(lia)) as [Hq Hq0]. set (q := IntMath.divCeil _ _ _) in *. clearbody q.
  assert (q ≤ q * p) by nia. rewrite (wrap_small 64 (q * p)) by (unfold in_width; lia). rewrite wrap_small by (unfold in_width; lia). rewrite wrap_small by (unfold in_width; lia).
  unfold on_edge. cbn. split_and!; lia.
Qed.

(** For an object whose clock has not changed period, [clockEdge] returns the edge that lies
    the given number of cycles after the first edge not before the current tick, so between that
    many and one more clock periods from now; [curCycle] is the number of that first edge, and
    both leave the record on an edge. *)
Theorem clockEdge_correct p now c cycles :
  0 < p → 0 ≤ now → 0 ≤ cycles → now + (cycles + 3) * p < 2 ^ 63 → on_edge p 0 c → tick c < now + p →
  let '(t, c') := clockEdge p now cycles c in
  on_edge p 0 c' ∧ tick c' < now + p ∧ now ≤ tick c' ∧ t = tick c' + cycles * p ∧ now + cycles * p ≤ t < now + (cycles + 1) * p ∧
  t mod p = 0 ∧ curCycle p now c = (tick c' / p, c').
Proof.
  intros Hp Hn Hc Hb Hedge Ht. pose proof Hedge as (Hcy & Hti & H0). assert (cycle c ≤ tick c) as Hct by nia.
  destruct (clock_update_spec p now 0 c) as (Hedge' & Hge & Hlt & Hle); [done|done|nia|done|nia|nia|].
  unfold clockEdge, curCycle. set (c' := update p now c) in *. assert (tick c' < now + p) as Hlt' by lia. destruct Hedge' as (Hcy' & Hti' & H0').
  assert (0 ≤ p * cycles) by nia. rewrite (wrap_small 64 (p * cycles)) by (unfold in_width; nia). rewrite wrap_small by (unfold in_width; nia).
  split_and!; try done; try nia.
  - rewrite Hti'. replace (0 + cycle c' * p + p * cycles) with ((cycle c' + cycles) * p) by lia. apply Z.mod_mul. lia.
  - rewrite Hti'. replace (0 + cycle c' * p) with (cycle c' * p) by lia. by rewrite Z.div_mul by lia.
Qed.

Lemma clockEdge_correct_witness :
  let '(t, c') := clockEdge 500 12345 2 newClocked in
  on_edge 500 0 c' ∧ tick c' < 12345 + 500 ∧ 12345 ≤ tick c' ∧ t = tick c' + 2 * 500 ∧ 12345 + 2 * 500 ≤ t < 12345 + (2 + 1) * 500 ∧
  t mod 500 = 0 ∧ curCycle 500 12345 newClocked = (tick c' / 500, c').
Proof. apply (clockEdge_correct 500 12345 newClocked 2); try lia; [unfold on_edge; cbn; lia|cbn; lia]. Defined.

End Clocked.
