(* ===== verification/XBarDecode.v ===== *)
(** * Address decoding of crossbars

    [mem/xbar], class [BaseXBar]: which port of a crossbar an address goes to.  The ports announce
    their ranges; the crossbar keeps a map of them, a default port for the rest, and a cache of the
    last three ranges found, and tells its own masters the ranges it covers.

    The ranges a neighbour announces ([getAddrRanges] of the port) are an argument. *)

From S2P Require Import Prelude IntMath AddrRange AddrRangeMap.

Open Scope Z_scope.

Module XBarDecode.
Import Types AddrRange.

Record PortCache := mkCache { valid : bool; id : Z; range : AddrRange }.

Record Decoder := mkDecoder {
  portCache : PortCache * PortCache * PortCache;
  portMap : list (AddrRange * Z);
  gotAddrRanges : list bool;
  gotAllAddrRanges : bool;
  xbarRanges : list AddrRange;
  defaultRange : AddrRange;
  defaultPortID : Z;
  useDefaultRange : bool
}.

Definition with_cache (c : PortCache * PortCache * PortCache) (d : Decoder) : Decoder :=
  mkDecoder c (portMap d) (gotAddrRanges d) (gotAllAddrRanges d) (xbarRanges d) (defaultRange d) (defaultPortID d) (useDefaultRange d).
Definition with_portMap (m : list (AddrRange * Z)) (d : Decoder) : Decoder :=
  mkDecoder (portCache d) m (gotAddrRanges d) (gotAllAddrRanges d) (xbarRanges d) (defaultRange d) (defaultPortID d) (useDefaultRange d).
Definition with_got (g : list bool) (all : bool) (d : Decoder) : Decoder :=
  mkDecoder (portCache d) (portMap d) g all (xbarRanges d) (defaultRange d) (defaultPortID d) (useDefaultRange d).
Definition with_xbarRanges (r : list AddrRange) (d : Decoder) : Decoder :=
  mkDecoder (portCache d) (portMap d) (gotAddrRanges d) (gotAllAddrRanges d) r (defaultRange d) (defaultPortID d) (useDefaultRange d).
Definition with_defaultRange (r : AddrRange) (d : Decoder) : Decoder :=
  mkDecoder (portCache d) (portMap d) (gotAddrRanges d) (gotAllAddrRanges d) (xbarRanges d) r (defaultPortID d) (useDefaultRange d).

(** ** The cache *)

Definition cache_hit (addr : Z) (c : PortCache) : bool := valid c && contains (range c) addr.

Definition checkPortCache (addr : Z) (d : Decoder) : Z :=
  let '(c0, c1, c2) := portCache d in
  if cache_hit addr c0 then id c0 else if cache_hit addr c1 then id c1 else if cache_hit addr c2 then id c2 else InvalidPortID.

Definition updatePortCache (i : Z) (r : AddrRange) (d : Decoder) : Decoder :=
  let '(c0, c1, _) := portCache d in with_cache (mkCache true i r, c0, c1) d.

Definition clearPortCache (d : Decoder) : Decoder :=
  let '(c0, c1, c2) := portCache d in
  with_cache (mkCache false (id c0) (range c0), mkCache false (id c1) (range c1), mkCache false (id c2) (range c2)) d.

(** A crossbar with [n] master ports, without ranges; the ids of the cache are uninitialised. *)
Definition newDecoder (junk : Z) (n : nat) (_defaultPortID : Z) (_useDefaultRange : bool) : Decoder :=
  let c := mkCache false junk AddrRange.defaultRange in
  mkDecoder (c, c, c) [] (repeat false n) false [] AddrRange.defaultRange _defaultPortID _useDefaultRange.

Definition findPort (addr : Z) (d : Decoder) : res (Z * Decoder) :=
  _ ← assert_ (gotAllAddrRanges d);
  let dest_id := checkPortCache addr d in
  if negb (dest_id =? InvalidPortID) then Ok (dest_id, d)
  else
    o ← AddrRangeMap.find_addr (portMap d) addr;
    match o with
    | Some e => Ok (e.2, updatePortCache e.2 e.1 d)
    | None =>
        if useDefaultRange d then if contains (defaultRange d) addr then Ok (defaultPortID d, d) else Fail Fatal
        else if negb (defaultPortID d =? InvalidPortID) then Ok (defaultPortID d, d)
        else Fail Fatal
    end.

(** ** Range changes *)

Definition mark_got (i : Z) (d : Decoder) : res Decoder :=
  g ← vwrite (gotAddrRanges d) i true;
  Ok (with_got g (if gotAllAddrRanges d then true else forallb Datatypes.id g) d).

(** The ranges of a port replace those it had. *)
Fixpoint insert_ranges (i : Z) (ranges : list AddrRange) (m : list (AddrRange * Z)) : res (list (AddrRange * Z)) :=
  match ranges with
  | [] => Ok m
  | r :: ranges => '(m, ok) ← AddrRangeMap.insert m r i; if ok : bool then insert_ranges i ranges m else Fail Fatal
  end.

Definition replace_ranges (i : Z) (ranges : list AddrRange) (d : Decoder) : res Decoder :=
  m ← insert_ranges i ranges (List.filter (λ e, negb (e.2 =? i)) (portMap d));
  Ok (with_portMap m d).

(** Keeping a range, unless it lies in the default range. *)
Definition keep (d : Decoder) (r : AddrRange) (l : list AddrRange) : res (list AddrRange) :=
  if useDefaultRange d then b ← isSubset r (defaultRange d); Ok (if b : bool then l else l ++ [r]) else Ok (l ++ [r]).

Fixpoint aggregate_loop (d : Decoder) (m : list (AddrRange * Z)) (intlv l : list AddrRange) : res (list AddrRange * list AddrRange) :=
  match m with
  | [] => Ok (intlv, l)
  | (r, _) :: m =>
      if interleaved r then
        '(intlv, l) ← match last intlv with
                      | Some b =>
                          if negb (mergesWith b r) then merged ← mergeRanges intlv; l ← keep d merged l; Ok ([], l)
                          else Ok (intlv, l)
                      | None => Ok (intlv, l)
                      end;
        aggregate_loop d m (intlv ++ [r]) l
      else l ← keep d r l; aggregate_loop d m intlv l
  end.

Fixpoint check_default (d : Decoder) (l : list AddrRange) : res unit :=
  match l with
  | [] => Ok tt
  | r :: l =>
      i ← intersects r (defaultRange d);
      _ ← (if i : bool then b ← isSubset r (defaultRange d); if b : bool then Ok tt else Fail Fatal else Ok tt);
      check_default d l
  end.

Definition aggregate (d : Decoder) : res Decoder :=
  l ← (if useDefaultRange d then g ← vread (gotAddrRanges d) (defaultPortID d); if negb g then Fail Fatal else Ok [defaultRange d] else Ok []);
  '(intlv, l) ← aggregate_loop d (portMap d) [] l;
  l ← match intlv with [] => Ok l | _ => merged ← mergeRanges intlv; keep d merged l end;
  _ ← (if useDefaultRange d then check_default d l else Ok tt);
  Ok (with_xbarRanges l d).

(** The masters are told of the change when the ranges of all ports are known. *)
Definition recvRangeChange (master_port_id : Z) (ranges : list AddrRange) (d : Decoder) : res Decoder :=
  d ← mark_got master_port_id d;
  d ← (if master_port_id =? defaultPortID d then
         if useDefaultRange d then match ranges with [r] => Ok (with_defaultRange r d) | _ => Fail Fatal end else Ok d
       else replace_ranges master_port_id ranges d);
  d ← (if gotAllAddrRanges d then aggregate d else Ok d);
  Ok (clearPortCache d).

Definition getAddrRanges (d : Decoder) : res (list AddrRange) := _ ← assert_ (gotAllAddrRanges d); Ok (xbarRanges d).

(** ** The reference: the first range that contains the address *)

Definition decode (d : Decoder) (a : Z) : option Z :=
  match List.find (λ e, contains e.1 a) (portMap d) with
  | Some e => Some e.2
  | None =>
      if useDefaultRange d then if contains (defaultRange d) a then Some (defaultPortID d) else None
      else if defaultPortID d =? InvalidPortID then None else Some (defaultPortID d)
  end.

(** ** Lemmas *)

Definition cached_ok (m : list (AddrRange * Z)) (c : PortCache) : Prop := valid c = true → (range c, id c) ∈ m.

Record decoder_ok (d : Decoder) : Prop := {
  dk_map : AddrRangeMap.tree_ok (portMap d);
  dk_ids : ∀ e, e ∈ portMap d → 0 ≤ e.2;
  dk_cache : let '(c0, c1, c2) := portCache d in cached_ok (portMap d) c0 ∧ cached_ok (portMap d) c1 ∧ cached_ok (portMap d) c2
}.

(** The ranges of a map are disjoint. *)
Lemma contains_unique (m : list (AddrRange * Z)) a e e' : AddrRangeMap.tree_ok m → e ∈ m → e' ∈ m → contains e.1 a = true → contains e'.1 a = true → e = e'.
Proof.
  intros [_ Ho] He He' Hc Hc'. induction Ho as [|x m Ho IH Hall]; [by apply not_elem_of_nil in He|]. rewrite Forall_forall in Hall.
  apply elem_of_cons in He. apply elem_of_cons in He'. destruct He as [->|He], He' as [->|He']; auto.
  - destruct (AddrRangeMap.before_not_contains _ _ a (Hall e' He')); done.
  - destruct (AddrRangeMap.before_not_contains _ _ a (Hall e He)); done.
Qed.

Lemma decode_entry d a e : AddrRangeMap.tree_ok (portMap d) → e ∈ portMap d → contains e.1 a = true → decode d a = Some e.2.
Proof.
  intros Hok He Hc. unfold decode. destruct (List.find (λ e, contains e.1 a) (portMap d)) as [e'|] eqn:Hf.
  - apply List.find_some in Hf as [Hin Hc']. apply list_elem_of_In in Hin. by rewrite (contains_unique (portMap d) a e' e).
  - pose proof (List.find_none _ _ Hf e (proj1 (list_elem_of_In _ _) He)) as Hn. cbn in Hn. congruence.
Qed.

Lemma decode_default d a : (∀ e, e ∈ portMap d → contains e.1 a = false) →
  decode d a = if useDefaultRange d then if contains (defaultRange d) a then Some (defaultPortID d) else None
               else if defaultPortID d =? InvalidPortID then None else Some (defaultPortID d).
Proof.
  intros Hn. unfold decode. destruct (List.find (λ e, contains e.1 a) (portMap d)) as [e'|] eqn:Hf; [|done].
  apply List.find_some in Hf as [Hin Hc']. apply list_elem_of_In in Hin. by rewrite Hn in Hc'.
Qed.

Lemma checkPortCache_spec d a : decoder_ok d →
  checkPortCache a d = InvalidPortID ∨ ∃ e, e ∈ portMap d ∧ contains e.1 a = true ∧ checkPortCache a d = e.2.
Proof.
  intros [_ _ Hc]. unfold checkPortCache. destruct (portCache d) as [[c0 c1] c2]. destruct Hc as (H0 & H1 & H2).
  assert (∀ c, cached_ok (portMap d) c → cache_hit a c = true → ∃ e, e ∈ portMap d ∧ contains e.1 a = true ∧ id c = e.2) as Hhit.
  { intros c Hok [Hv Hc]%andb_prop. exists (range c, id c). auto. }
  destruct (cache_hit a c0) eqn:E0; [right; auto|]. destruct (cache_hit a c1) eqn:E1; [right; auto|]. destruct (cache_hit a c2) eqn:E2; [right; auto|]. by left.
Qed.

Lemma updatePortCache_ok d e : decoder_ok d → e ∈ portMap d → decoder_ok (updatePortCache e.2 e.1 d) ∧ ∀ a, decode (updatePortCache e.2 e.1 d) a = decode d a.
Proof.
  intros [H1 H2 H3] He. unfold updatePortCache. destruct (portCache d) as [[c0 c1] c2] eqn:Hc. destruct H3 as (C0 & C1 & C2). split; [|done].
  split; cbn; try done. split_and!; try done. intros _. by destruct e.
Qed.

(** C27: Once the ranges of all ports are known, [findPort] returns for every address the port
    whose range contains it, or else the default port where there is one for it, and stops the
    simulation otherwise; the cache of the last ranges never shows, before or after. *)
Theorem findPort_correct d a :
  decoder_ok d → gotAllAddrRanges d = true → in_width 64 a →
  match decode d a with
  | Some p => ∃ d', findPort a d = Ok (p, d') ∧ decoder_ok d' ∧ ∀ b, decode d' b = decode d b
  | None => findPort a d = Fail Fatal
  end.
Proof.
  intros Hok Hg Ha. unfold findPort. rewrite Hg. cbn [assert_ mbind res_bind]. destruct (checkPortCache_spec d a Hok) as [Hmiss|(e & He & Hc & Hhit)].
  - rewrite Hmiss. cbn [Z.eqb negb]. rewrite Z.eqb_refl. cbn [negb].
    destruct (AddrRangeMap.find_addr_spec (portMap d) a (dk_map _ Hok) Ha) as ([e|] & -> & Hspec); cbn [mbind res_bind].
    + destruct Hspec as [He Hc]. rewrite (decode_entry d a e (dk_map _ Hok) He Hc). destruct (updatePortCache_ok d e Hok He). by eexists.
    + rewrite (decode_default d a Hspec). destruct (useDefaultRange d); [destruct (contains (defaultRange d) a); [by exists d|done]|].
      destruct (Z.eqb_spec (defaultPortID d) InvalidPortID); [done|]. by exists d.
  - rewrite Hhit. pose proof (dk_ids _ Hok e He). destruct (Z.eqb_spec e.2 InvalidPortID) as [E|_]; [unfold InvalidPortID in E; lia|]. cbn [negb].
    rewrite (decode_entry d a e (dk_map _ Hok) He Hc). by exists d.
Qed.

(** ** Range changes *)

Lemma tree_ok_filter (m : list (AddrRange * Z)) f : AddrRangeMap.tree_ok m → AddrRangeMap.tree_ok (List.filter f m).
Proof.
  intros [Hg Ho]. split.
  - rewrite Forall_forall in *. intros e He. apply Hg. apply list_elem_of_In, List.filter_In in He as [He _]. by apply list_elem_of_In.
  - induction Ho as [|x m Ho IH Hall]; [constructor|]. cbn. inversion_clear Hg as [|? ? _ Hg']. destruct (f x); [|by apply IH]. constructor; [by apply IH|].
    rewrite Forall_forall in *. intros e He. apply Hall. apply list_elem_of_In, List.filter_In in He as [He _]. by apply list_elem_of_In.
Qed.

(** Ranges that can be added: good, and apart from each other and from those in the map. *)
Definition addable (m : list (AddrRange * Z)) (ranges : list AddrRange) : Prop :=
  (∀ r, r ∈ ranges → AddrRangeMap.good r ∧ (interleaved r = true → size_ r ≠ 1) ∧ ∀ e, e ∈ m → AddrRangeMap.apart e.1 r) ∧
  ∀ i j r r', ranges !! i = Some r → ranges !! j = Some r' → (i < j)%nat → AddrRangeMap.apart r r'.

Lemma elem_map_insert_old {V} (m : list (AddrRange * V)) r v e : e ∈ m → e ∈ AddrRangeMap.map_insert m r v.
Proof. induction m as [|x m IH]; intros He; [by apply not_elem_of_nil in He|]. cbn. destruct (range_lt x.1 r); [set_solver|]. destruct (range_lt r x.1); set_solver. Qed.

Lemma insert_ranges_ok i ranges m : AddrRangeMap.tree_ok m → addable m ranges →
  ∃ m', insert_ranges i ranges m = Ok m' ∧ AddrRangeMap.tree_ok m' ∧ ∀ e, e ∈ m' ↔ e ∈ m ∨ ∃ r, r ∈ ranges ∧ e = (r, i).
Proof.
  revert m. induction ranges as [|r ranges IH]; intros m Hok [Hadd Hpair]; cbn [insert_ranges].
  { exists m. split_and!; [done|done|]. intros e. split; [by left|]. intros [?|(r & Hr & _)]; [done|]. by apply not_elem_of_nil in Hr. }
  destruct (Hadd r (list_elem_of_here _ _)) as (Hg & Hsz & Hap). destruct (AddrRangeMap.map_insert_ok m r i Hok Hg Hap) as [Hok1 Hin1].
  assert (AddrRangeMap.insert m r i = Ok (AddrRangeMap.map_insert m r i, true)) as ->.
  { unfold AddrRangeMap.insert, AddrRangeMap.intersect. rewrite AddrRangeMap.find_none; [done|]. intros e He.
    apply AddrRangeMap.apart_intersects; [|done|by apply Hap|done]. destruct Hok as [Hgs _]. rewrite Forall_forall in Hgs. by apply Hgs. }
  cbn [mbind res_bind]. destruct (IH (AddrRangeMap.map_insert m r i) Hok1) as (m' & -> & Hok' & Hel).
  - split; [|intros x y r1 r2 H1 H2 Hlt; by apply (Hpair (S x) (S y)); [..|lia]]. intros r' Hr'. destruct (Hadd r') as (G1 & G2 & G3); [by right|]. split_and!; [done|done|].
    intros e [->|He]%AddrRangeMap.elem_of_map_insert; [|auto]. apply list_elem_of_lookup in Hr' as [y Hy]. by apply (Hpair 0%nat (S y)); [..|lia].
  - exists m'. split_and!; [done|done|]. intros e. rewrite Hel. split.
    + intros [He|(r' & Hr' & ->)]; [apply AddrRangeMap.elem_of_map_insert in He as [->|He]; [right; exists r; set_solver|by left]|right; exists r'; set_solver].
    + intros [He|(r' & [->|Hr']%elem_of_cons & ->)]; [left; by apply elem_map_insert_old|by left|right; by exists r'].
Qed.

(** Without interleaved and default ranges the crossbar announces the ranges of its ports. *)
Lemma aggregate_plain d : useDefaultRange d = false → (∀ e, e ∈ portMap d → interleaved e.1 = false) → aggregate d = Ok (with_xbarRanges (portMap d).*1 d).
Proof.
  intros Hu Hi. unfold aggregate. rewrite Hu. cbn [mbind res_bind].
  assert (∀ m l, (∀ e, e ∈ m → interleaved e.1 = false) → aggregate_loop d m [] l = Ok ([], l ++ m.*1)) as Hloop.
  { induction m as [|[r p] m IH]; intros l Hm; cbn [aggregate_loop]; [by rewrite app_nil_r|]. pose proof (Hm (r, p) (list_elem_of_here _ _)) as Hr. cbn in Hr. rewrite Hr. unfold keep. rewrite Hu. cbn [mbind res_bind].
    rewrite IH by (intros; apply Hm; by right). cbn. by rewrite <- app_assoc. }
  rewrite Hloop by done. done.
Qed.

(** When a port announces ranges that overlap neither each other nor those of other ports, the
    crossbar afterwards sends every address of them to the port, addresses of other ports where
    they went before, and no address to the port for a range it no longer has; once all ports
    are known it announces exactly the ranges of its ports (with no default range and no
    interleaving).  Nothing stale is left in the cache. *)
Theorem recvRangeChange_correct d p ranges :
  decoder_ok d → 0 ≤ p < vsize (gotAddrRanges d) → p ≠ defaultPortID d → useDefaultRange d = false →
  addable (List.filter (λ e, negb (e.2 =? p)) (portMap d)) ranges →
  (∀ r, r ∈ ranges → interleaved r = false) → (∀ e, e ∈ portMap d → interleaved e.1 = false) →
  ∃ d', recvRangeChange p ranges d = Ok d' ∧ decoder_ok d' ∧
    (∀ a r, r ∈ ranges → contains r a = true → decode d' a = Some p) ∧
    (∀ a e, e ∈ portMap d → e.2 ≠ p → contains e.1 a = true → decode d' a = Some e.2) ∧
    (∀ a, decode d' a = Some p → ∃ r, r ∈ ranges ∧ contains r a = true) ∧
    (gotAllAddrRanges d' = true → getAddrRanges d' = Ok (portMap d').*1).
Proof.
  intros Hok Hp Hnd Hu Hadd Hil Hil'. unfold recvRangeChange, mark_got. rewrite vwrite_ok by done. cbn [mbind res_bind].
  set (g := <[Z.to_nat p := true]> (gotAddrRanges d)). set (all := if gotAllAddrRanges d then true else _). cbn [defaultPortID with_got].
  rewrite (proj2 (Z.eqb_neq p (defaultPortID d))) by done. unfold replace_ranges. cbn [portMap with_got].
  destruct (insert_ranges_ok p ranges _ (tree_ok_filter _ (λ e, negb (e.2 =? p)) (dk_map _ Hok)) Hadd) as (m & -> & Hm & Hel). cbn [mbind res_bind gotAllAddrRanges with_portMap with_got].
  assert (∀ e, e ∈ m ↔ (e ∈ portMap d ∧ e.2 ≠ p) ∨ ∃ r, r ∈ ranges ∧ e = (r, p)) as Hel'.
  { intros e. rewrite Hel. rewrite list_elem_of_In, List.filter_In, <- list_elem_of_In, negb_true_iff, Z.eqb_neq. done. }
  set (d1 := with_portMap m (with_got g all d)).
  assert (∃ d2, (if all then aggregate d1 else Ok d1) = Ok d2 ∧ portMap d2 = m ∧ defaultPortID d2 = defaultPortID d ∧ useDefaultRange d2 = false ∧ gotAllAddrRanges d2 = all ∧
    (all = true → xbarRanges d2 = m.*1)) as (d2 & -> & M2 & P2 & U2 & A2 & X2).
  { destruct all eqn:Hall; [|by exists d1]. rewrite aggregate_plain; [by eexists|done|]. cbn. intros e [[He _]|(r & Hr & ->)]%Hel'; auto. }
  cbn [mbind res_bind]. set (d3 := clearPortCache d2).
  assert (portMap d3 = m ∧ defaultPortID d3 = defaultPortID d ∧ useDefaultRange d3 = false ∧ gotAllAddrRanges d3 = all ∧ xbarRanges d3 = xbarRanges d2) as (M3 & P3 & U3 & A3 & X3).
  { unfold d3, clearPortCache. destruct (portCache d2) as [[? ?] ?]. done. }
  exists d3. split; [done|]. assert (AddrRangeMap.tree_ok (portMap d3)) as Hm3 by (by rewrite M3).
  split_and!.
  - split; [done| |unfold d3, clearPortCache; destruct (portCache d2) as [[? ?] ?]; done]. rewrite M3. intros e [[He _]|(r & Hr & ->)]%Hel'; [by apply Hok|cbn; lia].
  - intros a r Hr Hc. apply (decode_entry d3 a (r, p)); [done| |done]. rewrite M3. apply Hel'. right. by exists r.
  - intros a e He Hne Hc. apply decode_entry; [done| |done]. rewrite M3. apply Hel'. by left.
  - intros a. unfold decode. rewrite M3, P3, U3. destruct (List.find (λ e, contains e.1 a) m) as [e|] eqn:Hf.
    + apply List.find_some in Hf as [Hin Hc]. apply list_elem_of_In in Hin. intros [= He]. apply Hel' in Hin as [[_ Hne]|(r & Hr & ->)]; [done|by exists r].
    + destruct (_ =? _); [done|]. intros [= E]. congruence.
  - intros Hg. unfold getAddrRanges. rewrite Hg. cbn. rewrite M3, X3. f_equal. apply X2. congruence.
Qed.

Definition demo_decoder : Decoder :=
  mkDecoder (mkCache true 0 (newRange 10 20), mkCache false 0 AddrRange.defaultRange, mkCache false 0 AddrRange.defaultRange)
    [(newRange 10 20, 0); (newRange 30 40, 1)] [true; false; false] false [] AddrRange.defaultRange 2 false.

Lemma demo_decoder_ok : decoder_ok demo_decoder.
Proof.
  split; cbn.
  - split; [apply Forall_cons_2; [apply AddrRangeMap.good_newRange; lia|]; apply Forall_singleton; apply AddrRangeMap.good_newRange; lia|].
    constructor; [repeat constructor|]. apply Forall_singleton. right. cbn. lia.
  - intros e [->|[->|[]%not_elem_of_nil]%elem_of_cons]%elem_of_cons; cbn; lia.
  - split_and!; try done. intros _. left.
Qed.

Lemma findPort_correct_witness : ∃ d', findPort 35 (with_got [true; true; true] true demo_decoder) = Ok (1, d') ∧ decoder_ok d' ∧
  ∀ b, decode d' b = decode (with_got [true; true; true] true demo_decoder) b.
Proof.
  apply (findPort_correct (with_got [true; true; true] true demo_decoder) 35); [destruct demo_decoder_ok; split; assumption|reflexivity|split; lia].
Defined.

Lemma recvRangeChange_correct_witness :
  ∃ d', recvRangeChange 1 [newRange 50 59; newRange 70 79] demo_decoder = Ok d' ∧ decoder_ok d' ∧
    (∀ a r, r ∈ [newRange 50 59; newRange 70 79] → contains r a = true → decode d' a = Some 1) ∧
    (∀ a e, e ∈ portMap demo_decoder → e.2 ≠ 1 → contains e.1 a = true → decode d' a = Some e.2) ∧
    (∀ a, decode d' a = Some 1 → ∃ r, r ∈ [newRange 50 59; newRange 70 79] ∧ contains r a = true) ∧
    (gotAllAddrRanges d' = true → getAddrRanges d' = Ok (portMap d').*1).
Proof.
  apply (recvRangeChange_correct demo_decoder 1 [newRange 50 59; newRange 70 79]).
  - apply demo_decoder_ok.
  - unfold vsize. cbn. lia.
  - cbn. lia.
  - reflexivity.
  - split.
    + intros r Hr. apply elem_of_cons in Hr. rewrite list_elem_of_singleton in Hr.
      assert (AddrRangeMap.good r) as Hg by (destruct Hr as [->| ->]; apply AddrRangeMap.good_newRange; lia). split; [exact Hg|]. split; [destruct Hr as [->| ->]; done|].
      intros e He. cbn in He. apply list_elem_of_singleton in He as ->. left. right. destruct Hr as [->| ->]; cbn; lia.
    + intros [|[|i]] [|[|j]] r r' H1 H2 Hlt; try lia; cbn in H1, H2; simplify_eq. left. right. cbn. lia.
  - intros r Hr. apply elem_of_cons in Hr. rewrite list_elem_of_singleton in Hr. destruct Hr as [->| ->]; reflexivity.
  - intros e [->|[->|[]%not_elem_of_nil]%elem_of_cons]%elem_of_cons; reflexivity.
Defined.

End XBarDecode.
