(* ===== verification/XBarLayer.v ===== *)
(** * Layers of crossbars

    [mem/xbar], class [BaseXBar::Layer]: the arbitration point in front of one destination port.  A
    layer forwards one packet at a time; source ports that find it busy wait in a list and are told
    to retry one by one, and a source whose packet the destination refused comes first once the
    destination asks for it again.

    The world is the layer with its release event, the clock of the crossbar, the drain manager and
    the rest of the simulator.  [sendRetry], virtual, calls the source port, which may use the layer
    before it returns: it is a parameter.  A port is its id. *)

From S2P Require Import Prelude IntMath Clocked Drain.

Open Scope Z_scope.

Module XBarLayer.

#[local] Existing Instance Drain.DrainState_eq_dec.

Inductive State := IDLE | BUSY | RETRY.
#[export] Instance State_eq_dec : EqDecision State.
Proof. solve_decision. Defined.

Record Layer := mkLayer {
  self : positive;
  state : State;
  waitingForLayer : list Z;
  waitingForPeer : option Z;
  occupancy : Z
}.

Definition newLayer (self : positive) : Layer := mkLayer self IDLE [] None 0.

Definition with_state (s : State) (l : Layer) : Layer := mkLayer (self l) s (waitingForLayer l) (waitingForPeer l) (occupancy l).
Definition with_waiting (q : list Z) (l : Layer) : Layer := mkLayer (self l) (state l) q (waitingForPeer l) (occupancy l).
Definition with_peer (p : option Z) (l : Layer) : Layer := mkLayer (self l) (state l) (waitingForLayer l) p (occupancy l).
Definition with_occupancy (n : Z) (l : Layer) : Layer := mkLayer (self l) (state l) (waitingForLayer l) (waitingForPeer l) n.

Record World {R : Type} := mkWorld {
  layer : Layer;
  releaseEvent : option Z;
  curTick : Z;
  clockPeriod : Z;
  clk : Clocked.Clocked;
  drains : Drain.World;
  rest : R
}.
Arguments World R : clear implicits.

Section layer.
Context {R : Type}.
Implicit Types w : World R.

Definition on_layer (f : Layer → Layer) w : World R := mkWorld R (f (layer w)) (releaseEvent w) (curTick w) (clockPeriod w) (clk w) (drains w) (rest w).
Definition with_event (e : option Z) w : World R := mkWorld R (layer w) e (curTick w) (clockPeriod w) (clk w) (drains w) (rest w).
Definition with_clk (c : Clocked.Clocked) w : World R := mkWorld R (layer w) (releaseEvent w) (curTick w) (clockPeriod w) c (drains w) (rest w).
Definition with_drains (d : Drain.World) w : World R := mkWorld R (layer w) (releaseEvent w) (curTick w) (clockPeriod w) (clk w) d (rest w).

(** [xbar.schedule(releaseEvent, until)], with the assertions of the event queue. *)
Definition schedule_release (until : Z) w : res (World R) :=
  _ ← assert_ (curTick w <=? until);
  _ ← assert_ (bool_decide (releaseEvent w = None));
  Ok (with_event (Some until) w).

Definition occupyLayer (until : Z) w : res (World R) :=
  _ ← assert_ (bool_decide (state (layer w) = BUSY));
  _ ← assert_ (negb (until =? 0));
  w ← schedule_release until w;
  Ok (on_layer (λ l, with_occupancy (occupancy l + (until - curTick w)) l) w).

Definition tryTiming (src_port : Z) w : res (bool * World R) :=
  if bool_decide (state (layer w) = BUSY) || bool_decide (is_Some (waitingForPeer (layer w))) then
    _ ← assert_ (negb (bool_decide (src_port ∈ waitingForLayer (layer w))));
    Ok (false, on_layer (λ l, with_waiting (waitingForLayer l ++ [src_port]) l) w)
  else Ok (true, on_layer (with_state BUSY) w).

Definition succeededTiming (busy_time : Z) w : res (World R) :=
  _ ← assert_ (bool_decide (state (layer w) = BUSY));
  occupyLayer busy_time w.

Definition failedTiming (src_port busy_time : Z) w : res (World R) :=
  _ ← assert_ (bool_decide (waitingForPeer (layer w) = None));
  let w := on_layer (with_peer (Some src_port)) w in
  _ ← assert_ (bool_decide (state (layer w) = BUSY));
  occupyLayer busy_time w.

Definition drain w : Drain.DrainState := if bool_decide (state (layer w) = IDLE) then Drain.Drained else Drain.Draining.

Section retry.
Context (sendRetry : Z → World R → res (World R)).

Definition retryWaiting w : res (World R) :=
  _ ← assert_ (negb (bool_decide (waitingForLayer (layer w) = [])));
  _ ← assert_ (bool_decide (state (layer w) = IDLE));
  let w := on_layer (with_state RETRY) w in
  retryingPort ← deref (head (waitingForLayer (layer w)));
  let w := on_layer (λ l, with_waiting (tail (waitingForLayer l)) l) w in
  w ← sendRetry retryingPort w;
  if bool_decide (state (layer w) = RETRY) then
    let w := on_layer (with_state BUSY) w in
    let '(edge, c) := Clocked.clockEdge (clockPeriod w) (curTick w) 0 (clk w) in
    occupyLayer edge (with_clk c w)
  else Ok w.

(** The release event. *)
Definition releaseLayer w : res (World R) :=
  _ ← assert_ (bool_decide (state (layer w) = BUSY));
  _ ← assert_ (bool_decide (releaseEvent w = None));
  let w := on_layer (with_state IDLE) w in
  if negb (bool_decide (waitingForLayer (layer w) = [])) then
    if bool_decide (waitingForPeer (layer w) = None) then retryWaiting w else Ok w
  else
    s ← Drain.drainState (self (layer w)) (drains w);
    if bool_decide (waitingForPeer (layer w) = None) && bool_decide (s = Drain.Draining)
    then d ← Drain.signalDrainDone (self (layer w)) (drains w); Ok (with_drains d w)
    else Ok w.

Definition recvRetry w : res (World R) :=
  p ← deref (waitingForPeer (layer w));
  let w := on_layer (λ l, with_peer None (with_waiting (p :: waitingForLayer l) l)) w in
  if bool_decide (state (layer w) = IDLE) then retryWaiting w
  else
    _ ← assert_ (bool_decide (state (layer w) = BUSY));
    Ok w.

End retry.
End layer.

End XBarLayer.
