(* ===== verification/XBarLayerProofs.v ===== *)
(** * Layers of crossbars arbitrate in order

    A layer implements a queue of source ports, with the port whose packet the destination refused
    in front; whoever waits is told in time, and no assertion fails. *)

From stdpp Require Import relations.
From S2P Require Import Prelude IntMath Clocked Drain XBarLayer.

Open Scope Z_scope.

Module XBarLayerProofs.
Import XBarLayer.
#[local] Existing Instance Drain.DrainState_eq_dec.

(** What the ports see of a layer: a source is refused, its packet is refused by the
    destination, the destination asks again, a source is told to retry. *)
Inductive Event := Refused (p : Z) | PeerFail (p : Z) | PeerRetry | Retried (p : Z).

(** ** The abstract arbiter

    The port that waits for the destination, and the queue of those that wait for the layer. *)
Inductive arbiter : list Event → option Z → list Z → Prop :=
  | arb_new : arbiter [] None []
  | arb_refused h pe q p : arbiter h pe q → p ∉ q → pe ≠ Some p → arbiter (h ++ [Refused p]) pe (q ++ [p])
  | arb_fail h q p : arbiter h None q → p ∉ q → arbiter (h ++ [PeerFail p]) (Some p) q
  | arb_again h q p : arbiter h (Some p) q → arbiter (h ++ [PeerRetry]) None (p :: q)
  | arb_retried h q p : arbiter h None (p :: q) → arbiter (h ++ [Retried p]) None q.

Lemma arbiter_nodup h pe q : arbiter h pe q → NoDup (option_list pe ++ q).
Proof.
  induction 1 as [|h pe q p _ IH Hn Hp|h q p _ IH Hn|h q p _ IH|h q p _ IH]; cbn in *; [constructor| |by constructor|done|by apply NoDup_cons in IH as [_ ?]].
  rewrite app_assoc. apply NoDup_app. split_and!; [done| |apply NoDup_singleton]. intros x Hx ->%list_elem_of_singleton. destruct pe; cbn in Hx; set_solver.
Qed.

Section layer.
Context {St : Type}.
Abbreviation W := (World (St * list Event)).
Implicit Types w : W.

Definition with_rest (r : St * list Event) w : W := mkWorld _ (layer w) (releaseEvent w) (curTick w) (clockPeriod w) (clk w) (drains w) r.
Definition log (e : Event) w : W := with_rest ((rest w).1, (rest w).2 ++ [e]) w.
Definition history w : list Event := (rest w).2.

Abbreviation queue w := (waitingForLayer (layer w)).
Abbreviation peer w := (waitingForPeer (layer w)).

(** ** The invariant *)

Record base w : Prop := {
  ba_period : 0 < clockPeriod w;
  ba_now : 0 ≤ curTick w ∧ curTick w + 4 * clockPeriod w < 2 ^ 62;
  ba_edge : Clocked.on_edge (clockPeriod w) 0 (clk w) ∧ Clocked.tick (clk w) < curTick w + clockPeriod w;
  ba_drain : Drain.drain_inv (drains w) ∧ is_Some (Drain.drainStates (drains w) !! self (layer w));
  ba_arb : arbiter (history w) (peer w) (queue w)
}.

(** An idle layer makes no one wait but for the destination; a busy one has its release
    scheduled. *)
Definition state_ok w : Prop :=
  match state (layer w) with
  | IDLE => releaseEvent w = None ∧ (peer w = None → queue w = []) ∧ (peer w ≠ None → 0 < curTick w)
  | BUSY => ∃ t, releaseEvent w = Some t ∧ curTick w ≤ t ∧ 0 < t
  | RETRY => releaseEvent w = None ∧ peer w = None ∧ 0 < curTick w
  end.

Definition inv w : Prop := base w ∧ state_ok w.

(** Taken for a packet that is being forwarded. *)
Definition taken w : Prop := base w ∧ state (layer w) = BUSY ∧ releaseEvent w = None ∧ peer w = None.

Definition fresh (p : Z) w : Prop := (p ∉ queue w) ∧ peer w ≠ Some p.

(** ** Using the layer *)

Lemma tryTiming_ok p w : inv w → fresh p w →
  ∃ b w1, tryTiming p w = Ok (b, w1) ∧ curTick w1 = curTick w ∧ if b : bool then taken w1 ∧ queue w1 = queue w else inv (log (Refused p) w1).
Proof.
  intros [Hb Hs] [Hq Hp]. unfold tryTiming.
  destruct (bool_decide (state (layer w) = BUSY) || bool_decide (is_Some (peer w))) eqn:Hbusy.
  - rewrite bind_assert by (apply negb_true_iff, bool_decide_eq_false; done). eexists _, _. split; [done|]. split; [done|]. split.
    + destruct Hb as [H1 H2 H3 H4 H5]. split; cbn; try done. by constructor.
    + unfold state_ok in *. cbn. destruct (state (layer w)) eqn:He; [|done|].
      * rewrite bool_decide_false, orb_false_l in Hbusy by done. apply bool_decide_eq_true in Hbusy as [x Hx]. rewrite Hx in *. destruct Hs as (? & _ & ?). split_and!; done.
      * destruct Hs as (_ & Hpe & _). rewrite Hpe in Hbusy. by rewrite !bool_decide_false in Hbusy by (try done; by intros []).
  - apply orb_false_iff in Hbusy as [Hne Hpe]. apply bool_decide_eq_false in Hne, Hpe. rewrite <- eq_None_not_Some in Hpe. eexists _, _. split; [done|]. split; [done|]. split; [|done].
    unfold taken. cbn. unfold state_ok in Hs. destruct (state (layer w)) eqn:He; [|done|]; destruct Hs as (Hev & _); (split_and!; [|done|done|done]);
      (destruct Hb as [H1 H2 H3 H4 H5]; by split).
Qed.

(** Meanwhile other ports are refused. *)
Definition refused (p : Z) w w' : Prop := ∃ p' w1, p' ≠ p ∧ fresh p' w ∧ tryTiming p' w = Ok (false, w1) ∧ w' = log (Refused p') w1.

Lemma refused_taken p w w' : rtc (refused p) w w' → taken w → p ∉ queue w → taken w' ∧ (p ∉ queue w') ∧ curTick w' = curTick w.
Proof.
  induction 1 as [w|w1 w2 w3 (p' & w0 & Hne & [Hf1 Hf2] & Ht & ->) _ IH]; intros Htk Hq; [done|]. destruct Htk as ([H1 H2 H3 H4 H5] & Hs & He & Hp).
  unfold tryTiming in Ht. rewrite Hs in Ht. rewrite (bool_decide_true (BUSY = BUSY)) in Ht by done. cbn [orb] in Ht.
  rewrite bind_assert in Ht by (apply negb_true_iff, bool_decide_eq_false; done). injection Ht as <-. apply IH.
  - split; [|done]. split; cbn; try done. by constructor.
  - cbn. rewrite elem_of_app, list_elem_of_singleton. naive_solver.
Qed.

Lemma occupy_ok t w : base w → state (layer w) = BUSY → releaseEvent w = None → curTick w ≤ t → 0 < t →
  ∃ w', occupyLayer t w = Ok w' ∧ inv w' ∧ history w' = history w ∧ state (layer w') = BUSY.
Proof.
  intros Hb Hs He Hle H0. unfold occupyLayer. rewrite bind_assert by (by rewrite Hs). rewrite bind_assert by (apply negb_true_iff, Z.eqb_neq; lia).
  unfold schedule_release. rewrite bind_assert by (by apply Z.leb_le). rewrite bind_assert by (by rewrite He). cbn [mbind res_bind].
  eexists. split; [done|]. split; [|done]. split; [|unfold state_ok; cbn; rewrite Hs; by exists t]. destruct Hb. by split.
Qed.

Lemma succeeded_ok t w : taken w → curTick w < t → ∃ w', succeededTiming t w = Ok w' ∧ inv w' ∧ state (layer w') = BUSY.
Proof.
  intros (Hb & Hs & He & Hp) Ht. unfold succeededTiming. rewrite bind_assert by (by rewrite Hs). pose proof (ba_now _ Hb).
  destruct (occupy_ok t w Hb Hs He) as (w' & ? & ? & _ & ?); [lia|lia|]. by exists w'.
Qed.

Lemma failed_ok p t w : taken w → p ∉ queue w → curTick w < t → ∃ w', failedTiming p t w = Ok w' ∧ inv (log (PeerFail p) w') ∧ state (layer w') = BUSY.
Proof.
  intros (Hb & Hs & He & Hp) Hq Ht. unfold failedTiming. rewrite bind_assert by (by rewrite Hp). rewrite bind_assert by (cbn; by rewrite Hs). pose proof (ba_now _ Hb).
  unfold occupyLayer. rewrite bind_assert by (cbn; by rewrite Hs). rewrite bind_assert by (apply negb_true_iff, Z.eqb_neq; lia).
  unfold schedule_release. rewrite bind_assert by (apply Z.leb_le; cbn; lia). rewrite bind_assert by (cbn; by rewrite He). cbn [mbind res_bind].
  eexists. split; [done|]. split; [|done]. split; [|unfold state_ok; cbn; rewrite Hs; exists t; split_and!; [done|cbn; lia|lia]].
  destruct Hb as [H1 H2 H3 H4 H5]. split; cbn; try done. rewrite Hp in H5. by constructor.
Qed.

(** Something else happened. *)
Record quiet w w' : Prop := {
  qu_layer : layer w' = layer w;
  qu_event : releaseEvent w' = releaseEvent w;
  qu_time : curTick w' = curTick w ∧ clockPeriod w' = clockPeriod w;
  qu_clk : clk w' = clk w;
  qu_drain : Drain.drain_inv (drains w') ∧ is_Some (Drain.drainStates (drains w') !! self (layer w));
  qu_history : history w' = history w
}.

(** What source ports do: a port that does not wait presents a packet; it is refused, or the
    packet is forwarded, which keeps the layer busy for some time, or refused by the destination. *)
Inductive during : W → W → Prop :=
  | during_refused p w w1 : fresh p w → tryTiming p w = Ok (false, w1) → during w (log (Refused p) w1)
  | during_done p t w w1 w2 w' : fresh p w → tryTiming p w = Ok (true, w1) → rtc (refused p) w1 w2 → curTick w < t → succeededTiming t w2 = Ok w' → during w w'
  | during_fail p t w w1 w2 w' : fresh p w → tryTiming p w = Ok (true, w1) → rtc (refused p) w1 w2 → curTick w < t → failedTiming p t w2 = Ok w' → during w (log (PeerFail p) w')
  | during_quiet w w' : quiet w w' → during w w'.

(** A layer that was not in the retry state does not enter it. *)
Lemma use_ok w w' : during w w' → inv w → inv w' ∧ (state (layer w') = RETRY → state (layer w) = RETRY).
Proof.
  destruct 1 as [p w w1 Hf Ht|p t w w1 w2 w' Hf Ht Hr Hlt Hs|p t w w1 w2 w' Hf Ht Hr Hlt Hs|w w' Hq]; intros Hi.
  - destruct (tryTiming_ok p w Hi Hf) as (b & w1' & Ht' & _ & Hres). rewrite Ht in Ht'. injection Ht' as <- <-. split; [done|]. cbn.
    unfold tryTiming in Ht. destruct (_ || _); [|done]. apply bind_ok in Ht as (? & _ & Ht). by injection Ht as <-.
  - destruct (tryTiming_ok p w Hi Hf) as (b & w1' & Ht' & Hc & Hres). rewrite Ht in Ht'. injection Ht' as <- <-. destruct Hres as [Htk Hq].
    destruct (refused_taken p w1 w2 Hr Htk) as (Htk2 & _ & Hc2); [rewrite Hq; apply Hf|]. destruct (succeeded_ok t w2 Htk2) as (w'' & Hs' & Hi' & Hst); [lia|].
    rewrite Hs in Hs'. injection Hs' as <-. split; [done|]. by rewrite Hst.
  - destruct (tryTiming_ok p w Hi Hf) as (b & w1' & Ht' & Hc & Hres). rewrite Ht in Ht'. injection Ht' as <- <-. destruct Hres as [Htk Hq].
    destruct (refused_taken p w1 w2 Hr Htk) as (Htk2 & Hp2 & Hc2); [rewrite Hq; apply Hf|]. destruct (failed_ok p t w2 Htk2 Hp2) as (w'' & Hs' & Hi' & Hst); [lia|].
    rewrite Hs in Hs'. injection Hs' as <-. split; [done|]. cbn. by rewrite Hst.
  - destruct Hq as [Q1 Q2 [Q3 Q4] Q5 Q6 Q7], Hi as [[H1 H2 H3 H4 H5] Hs]. split; [|by rewrite Q1]. split; [|unfold state_ok in *; by rewrite Q1, Q2, Q3].
    split; rewrite ?Q1, ?Q3, ?Q4, ?Q5, ?Q7; done.
Qed.

Lemma during_star w w' : rtc during w w' → inv w → inv w' ∧ (state (layer w') = RETRY → state (layer w) = RETRY).
Proof.
  induction 1 as [w|w1 w2 w3 Hd _ IH]; intros Hi; [done|]. destruct (use_ok w1 w2 Hd Hi) as [Hi2 Hs2]. destruct (IH Hi2) as [Hi3 Hs3]. auto.
Qed.

(** A source port told to retry may use the layer before it returns. *)
Class Sources (sendRetry : Z → W → res W) : Prop := {
  retry_law p w : inv (log (Retried p) w) → ∃ w', sendRetry p w = Ok w' ∧ rtc during (log (Retried p) w) w'
}.

Lemma clockEdge_now w : base w → ∃ t c, Clocked.clockEdge (clockPeriod w) (curTick w) 0 (clk w) = (t, c) ∧ curTick w ≤ t ∧ base (with_clk c w).
Proof.
  intros [Hp [Hn0 Hn] [He Hc] Hd Ha]. destruct (Clocked.clock_update_spec (clockPeriod w) (curTick w) 0 (clk w)) as (He' & Hge & Hlt & _); [done|done|lia|done| |lia|].
  { destruct He as (Hcy & Hti & H0). nia. }
  unfold Clocked.clockEdge. set (c := Clocked.update _ _ _) in *. rewrite Z.mul_0_r. change (u64 0) with 0. rewrite Z.add_0_r. rewrite wrap_small by (unfold in_width; lia).
  exists (Clocked.tick c), c. split; [done|]. split; [done|]. split; cbn; try done. split; [done|lia].
Qed.

Section sources.
Context (sendRetry : Z → W → res W) `{!Sources sendRetry}.

Lemma retryWaiting_ok w : base w → state (layer w) = IDLE → releaseEvent w = None → peer w = None → queue w ≠ [] → 0 < curTick w →
  ∃ w', retryWaiting sendRetry w = Ok w' ∧ inv w' ∧ state (layer w') ≠ RETRY.
Proof.
  intros Hb Hs He Hp Hq H0. unfold retryWaiting. rewrite bind_assert by (by apply negb_true_iff, bool_decide_eq_false). rewrite bind_assert by (by rewrite Hs).
  destruct (queue w) as [|p q] eqn:Hqq; [done|]. cbn [layer on_layer with_state waitingForLayer]. rewrite Hqq. cbn [head deref mbind res_bind].
  set (w1 := on_layer _ (on_layer _ w)). assert (inv (log (Retried p) w1)) as Hi1.
  { destruct Hb as [H1 H2 H3 H4 H5]. split; [|unfold state_ok; cbn; done]. split; cbn; try done. rewrite Hqq, Hp in *. by constructor. }
  destruct (retry_law p w1 Hi1) as (w2 & -> & Hd). cbn [mbind res_bind]. destruct (during_star _ _ Hd Hi1) as [[Hb2 Hs2] _].
  case_bool_decide as Hr; [|exists w2; done]. unfold state_ok in Hs2. rewrite Hr in Hs2. destruct Hs2 as (He2 & Hp2 & Hn2).
  assert (base (on_layer (with_state BUSY) w2)) as Hb3 by (destruct Hb2; by split).
  destruct (clockEdge_now _ Hb3) as (t & c & Hedge & Hle & Hb4). rewrite Hedge. cbn [curTick on_layer] in Hle.
  destruct (occupy_ok t (with_clk c (on_layer (with_state BUSY) w2)) Hb4) as (w' & -> & Hi' & _ & Hst); [done|done|done|lia|]. exists w'. by rewrite Hst.
Qed.

Lemma release_ok w : inv w → releaseEvent w = Some (curTick w) → ∃ w', releaseLayer sendRetry (with_event None w) = Ok w' ∧ inv w' ∧ state (layer w') ≠ RETRY.
Proof.
  intros [Hb Hs] He. unfold state_ok in Hs. destruct (state (layer w)) eqn:Hst; [by destruct Hs; congruence| |by destruct Hs; congruence].
  destruct Hs as (t & He' & _ & H0). rewrite He in He'. injection He' as <-.
  unfold releaseLayer. rewrite bind_assert by (cbn; by rewrite Hst). rewrite bind_assert by done. set (w1 := on_layer _ _).
  assert (base w1) as Hb1 by (destruct Hb; by split). destruct (decide (queue w = [])) as [Hq|Hq].
  - rewrite (bool_decide_true (queue w1 = [])) by done. cbn [negb]. destruct (ba_drain _ Hb1) as [Hdi [s Hself]]. unfold Drain.drainState. rewrite Hself. cbn [deref mbind res_bind].
    assert (inv w1) as Hi1 by (split; [done|unfold state_ok; cbn; split_and!; [done|done|done]]).
    destruct (bool_decide (peer w1 = None) && bool_decide (s = Drain.Draining)); [|exists w1; done].
    destruct (Drain.signal_spec (self (layer w1)) (drains w1) Hdi) as (d & -> & Hdi' & _ & _ & Hst' & _); [by eexists|]. cbn [mbind res_bind]. eexists. split; [done|]. split; [|done].
    split; [|by destruct Hi1]. destruct Hb1 as [H1 H2 H3 H4 H5]. split; cbn; try done. split; [done|]. rewrite Hst'. case_decide; [rewrite lookup_insert_eq; by eexists|by eexists].
  - rewrite (bool_decide_false (queue w1 = [])) by done. cbn [negb]. destruct (decide (peer w = None)) as [Hp|Hp].
    + rewrite (bool_decide_true (peer w1 = None)) by done. by apply retryWaiting_ok.
    + rewrite (bool_decide_false (peer w1 = None)) by done. exists w1. split; [done|]. split; [|done]. split; [done|]. unfold state_ok. cbn. done.
Qed.

Lemma recvRetry_ok w : inv w → state (layer w) ≠ RETRY → peer w ≠ None → ∃ w', recvRetry sendRetry (log PeerRetry w) = Ok w' ∧ inv w' ∧ state (layer w') ≠ RETRY.
Proof.
  intros [Hb Hs] Hnr Hp. destruct (peer w) as [p|] eqn:Hpe; [|done]. unfold recvRetry. cbn [layer log with_rest]. rewrite Hpe. cbn [deref mbind res_bind].
  set (w1 := on_layer _ _). assert (base w1) as Hb1 by (destruct Hb as [H1 H2 H3 H4 H5]; split; cbn; try done; rewrite Hpe in H5; by constructor).
  change (state (layer w1)) with (state (layer w)). unfold state_ok in Hs. destruct (state (layer w)) eqn:Hst; [| |done].
  - destruct Hs as (He & _ & H0). rewrite (bool_decide_true (IDLE = IDLE)) by done. apply retryWaiting_ok; try done. cbn. apply H0. by rewrite Hpe.
  - rewrite (bool_decide_false (BUSY = IDLE)) by done. rewrite bind_assert by done. exists w1. split; [done|]. split; [|cbn; by rewrite Hst]. split; [done|]. unfold state_ok. cbn. by rewrite Hst.
Qed.

(** ** Runs *)

Definition with_now (t : Z) w : W := mkWorld _ (layer w) (releaseEvent w) t (clockPeriod w) (clk w) (drains w) (rest w).

(** One step of the simulator: a source port uses the layer, time passes up to the release, the
    layer is released, or the destination asks for the packet it refused. *)
Inductive step : W → W → Prop :=
  | step_use w w' : during w w' → step w w'
  | step_time w t : curTick w ≤ t → t + 4 * clockPeriod w < 2 ^ 62 → (∀ e, releaseEvent w = Some e → t ≤ e) → step w (with_now t w)
  | step_release w w' : releaseEvent w = Some (curTick w) → releaseLayer sendRetry (with_event None w) = Ok w' → step w w'
  | step_retry w w' : peer w ≠ None → recvRetry sendRetry (log PeerRetry w) = Ok w' → step w w'.

Record initial w : Prop := {
  ini_layer : ∃ o, layer w = newLayer o;
  ini_event : releaseEvent w = None;
  ini_clock : clk w = Clocked.newClocked ∧ 0 < clockPeriod w ∧ 0 ≤ curTick w ∧ curTick w + 4 * clockPeriod w < 2 ^ 62;
  ini_drain : Drain.drain_inv (drains w) ∧ is_Some (Drain.drainStates (drains w) !! self (layer w));
  ini_history : history w = []
}.

Lemma initial_layer_inv w : initial w → inv w ∧ state (layer w) ≠ RETRY.
Proof.
  intros [[o H1] H2 (H3 & H4 & H5 & H6) H7 H8]. rewrite H1 in *. split; [|done]. split; [|unfold state_ok; rewrite H1, H2; done].
  split; rewrite ?H1, ?H3, ?H8; try done; [unfold Clocked.on_edge; cbn; lia|constructor].
Qed.

Lemma layer_step_inv w w' : step w w' → inv w → state (layer w) ≠ RETRY → inv w' ∧ state (layer w') ≠ RETRY.
Proof.
  destruct 1 as [w w' Hd|w t Hle Hb Hev|w w' He Hr|w w' Hp Hr]; intros Hi Hnr.
  - destruct (use_ok w w' Hd Hi) as [? ?]. auto.
  - split; [|done]. destruct Hi as [[H1 H2 [H3 H3'] H4 H5] Hs]. split; [split; cbn; try done; [lia|split; [done|lia]]|]. unfold state_ok in *. cbn. destruct (state (layer w)); [|..|done].
    + destruct Hs as (? & ? & Hpos). split_and!; [done|done|]. intros Hp. specialize (Hpos Hp). lia.
    + destruct Hs as (e & He & _ & H0). exists e. auto.
  - destruct (release_ok w Hi He) as (w'' & Hr' & Hi' & Hs'). rewrite Hr in Hr'. by injection Hr' as <-.
  - destruct (recvRetry_ok w Hi Hnr Hp) as (w'' & Hr' & Hi' & Hs'). rewrite Hr in Hr'. by injection Hr' as <-.
Qed.

(** What a reachable layer guarantees. *)
Record arbitrates w : Prop := {
  ab_queue : arbiter (history w) (peer w) (queue w);
  ab_nodup : NoDup (option_list (peer w) ++ queue w);
  ab_wakeup : queue w ≠ [] → peer w ≠ None ∨ ∃ t, releaseEvent w = Some t ∧ curTick w ≤ t;
  ab_state : state (layer w) = IDLE ∧ releaseEvent w = None ∨ state (layer w) = BUSY ∧ is_Some (releaseEvent w);
  ab_try p : fresh p w → ∃ b w1, tryTiming p w = Ok (b, w1) ∧ ∀ w2 t, b = true → rtc (refused p) w1 w2 → curTick w < t → is_Ok (succeededTiming t w2) ∧ is_Ok (failedTiming p t w2);
  ab_release : releaseEvent w = Some (curTick w) → is_Ok (releaseLayer sendRetry (with_event None w));
  ab_retry : peer w ≠ None → is_Ok (recvRetry sendRetry (log PeerRetry w))
}.

Lemma inv_arbitrates w : inv w → state (layer w) ≠ RETRY → arbitrates w.
Proof.
  intros Hi Hnr. pose proof Hi as [Hb Hs]. pose proof (ba_arb _ Hb) as Ha. unfold state_ok in Hs. split.
  - done.
  - by eapply arbiter_nodup.
  - intros Hq. destruct (peer w) eqn:Hp; [by left|right]. destruct (state (layer w)); [|destruct Hs as (t & ? & ? & _); by exists t|done]. destruct Hs as (_ & Hn & _). by destruct (Hq (Hn eq_refl)).
  - destruct (state (layer w)); [left; by destruct Hs|right; destruct Hs as (t & -> & _); eauto|done].
  - intros p Hf. destruct (tryTiming_ok p w Hi Hf) as (b & w1 & Ht & Hc & Hres). exists b, w1. split; [done|]. intros w2 t -> Hr Hlt. destruct Hres as [Htk Hq].
    destruct (refused_taken p w1 w2 Hr Htk) as (Htk2 & Hp2 & Hc2); [rewrite Hq; apply Hf|]. destruct (succeeded_ok t w2 Htk2) as (? & ? & _); [lia|].
    destruct (failed_ok p t w2 Htk2 Hp2) as (? & ? & _); [lia|]. split; by eexists.
  - intros He. destruct (release_ok w Hi He) as (? & ? & _). by eexists.
  - intros Hp. destruct (recvRetry_ok w Hi Hnr Hp) as (? & ? & _). by eexists.
Qed.

Lemma run_arbitrates w0 w : rtc step w0 w → inv w0 → state (layer w0) ≠ RETRY → inv w ∧ state (layer w) ≠ RETRY.
Proof. induction 1 as [|w1 w2 w3 Hs _ IH]; intros Hi Hn; [done|]. destruct (layer_step_inv w1 w2 Hs Hi Hn). auto. Qed.

End sources.

End layer.

(** C24: For source ports that keep the protocol (a port that waits does not try again; told to
    retry it may use the layer at once, or not), a layer serves the waiting ports as the abstract
    arbiter does: each waits once, they are told to retry first come first served, with the port
    whose packet the destination refused in front once the destination asks again.  Whoever
    waits is waiting for a destination or has a release event coming, and no assertion fails. *)
Theorem layer_arbitrates {St : Type} (sendRetry : Z → World (St * list Event) → res (World (St * list Event))) w0 w :
  Sources sendRetry → initial w0 → rtc (step sendRetry) w0 w → arbitrates sendRetry w.
Proof.
  intros Hsrc Hini Hrun. destruct (initial_layer_inv w0 Hini) as [Hi Hn]. destruct (run_arbitrates sendRetry w0 w Hrun Hi Hn). by apply inv_arbitrates.
Qed.

(** Sources that do not react at once. *)
Definition slow_source (p : Z) (w : World (unit * list Event)) : res (World (unit * list Event)) := Ok (log (Retried p) w).

#[local] Instance slow_sources : Sources slow_source.
Proof. split. intros p w _. by exists (log (Retried p) w). Qed.

Definition demo_layer : World (unit * list Event) := mkWorld _ (newLayer 1) None 1000 500 Clocked.newClocked (Drain.newDrainable 1 Drain.newManager) (tt, []).

(** Port 3 sends and is refused by the destination, port 4 has to wait; the layer is released,
    and the destination asks for the packet of port 3. *)
Definition demo_layer_run : res (World (unit * list Event)) :=
  '(_, w) ← tryTiming 3 demo_layer;
  w ← failedTiming 3 1500 w;
  '(_, w) ← tryTiming 4 (log (PeerFail 3) w);
  w ← releaseLayer slow_source (with_event None (with_now 1500 (log (Refused 4) w)));
  recvRetry slow_source (log PeerRetry w).

Lemma demo_layer_steps : ∃ w, demo_layer_run = Ok w ∧ history w = [PeerFail 3; Refused 4; PeerRetry; Retried 3] ∧ rtc (step slow_source) demo_layer w.
Proof.
  eexists. split; [vm_compute; reflexivity|]. split; [reflexivity|].
  eapply rtc_l; [eapply step_use, (during_fail 3 1500); [split; [apply not_elem_of_nil|done]|vm_compute; reflexivity|apply rtc_refl|vm_compute; reflexivity|vm_compute; reflexivity]|].
  eapply rtc_l; [eapply step_use, (during_refused 4); [split; [apply not_elem_of_nil|done]|vm_compute; reflexivity]|].
  eapply rtc_l; [apply (step_time _ _ 1500); [vm_compute; discriminate|vm_compute; reflexivity|vm_compute; intros e [= <-]; discriminate]|].
  eapply rtc_l; [eapply step_release; [vm_compute; reflexivity|vm_compute; reflexivity]|].
  eapply rtc_l; [eapply step_retry; [done|vm_compute; reflexivity]|]. constructor.
Qed.

Lemma layer_arbitrates_witness : ∃ w, history w = [PeerFail 3; Refused 4; PeerRetry; Retried 3] ∧ arbitrates slow_source w.
Proof.
  destruct demo_layer_steps as (w & _ & Hh & Hrun). exists w. split; [exact Hh|]. apply (layer_arbitrates slow_source demo_layer w); [exact slow_sources| |exact Hrun].
  split; [exists 1%positive; reflexivity|reflexivity|cbn; split_and!; (reflexivity || lia)| |reflexivity].
  assert (Drain.drain_inv Drain.newManager) as Hd by (by constructor). split; [eapply Drain.step_inv; [eapply Drain.step_create; done|exact Hd]|by eexists].
Defined.

End XBarLayerProofs.
