(* ===== verification/Bridge.v ===== *)
(** * Bridges

    [mem/bridge]: a bridge buffers requests on their way down and responses on their way up, and
    sends each after a delay.  It accepts a request only with room in the request queue and, if the
    request expects a response, with a reserved place for it; a refused sender is told to retry when
    room becomes available.

    The world is the bridge with its two send events, its clock, the packets, and the rest of the
    simulator.  What the peers do when the bridge calls them is a parameter: they may call the
    bridge again before they return.  Scheduling an event is [EventQueue::schedule], with its
    assertions.  [DeferredPacket] is a class of its own with the fields of that of packet queues. *)

From stdpp Require Import strings.
From S2P Require Import Prelude IntMath AddrRange MemCmd Packet Clocked CacheQueue PacketQueue.

Open Scope Z_scope.

Module Bridge.
Import PacketQueue.

Abbreviation Clock := Clocked.Clocked.

Record BridgeSlavePort := mkSlave {
  s_transmitList : list DeferredPacket;
  outstandingResponses : Z;
  retryReq : bool;
  respQueueLimit : Z;
  ranges : list AddrRange.AddrRange
}.

Record BridgeMasterPort := mkMaster { m_transmitList : list DeferredPacket; reqQueueLimit : Z }.

(** What the peers of the ports and the simulator keep is [R]. *)
Record World {R : Type} := mkWorld {
  slavePort : BridgeSlavePort;
  masterPort : BridgeMasterPort;
  delay : Z;
  name : string;
  clk : Clock;
  clockPeriod : Z;
  curTick : Z;
  respEvent : option Z;
  reqEvent : option Z;
  pkts : Packets;
  rest : R
}.
Arguments World R : clear implicits.

Definition newSlavePort (_resp_limit : Z) (_ranges : list AddrRange.AddrRange) : BridgeSlavePort := mkSlave [] 0 false _resp_limit _ranges.
Definition newMasterPort (_req_limit : Z) : BridgeMasterPort := mkMaster [] _req_limit.

Section ports.
Context {R : Type}.
Implicit Types w : World R.

Definition with_slave (f : BridgeSlavePort → BridgeSlavePort) w : World R :=
  mkWorld R (f (slavePort w)) (masterPort w) (delay w) (name w) (clk w) (clockPeriod w) (curTick w) (respEvent w) (reqEvent w) (pkts w) (rest w).
Definition with_master (f : BridgeMasterPort → BridgeMasterPort) w : World R :=
  mkWorld R (slavePort w) (f (masterPort w)) (delay w) (name w) (clk w) (clockPeriod w) (curTick w) (respEvent w) (reqEvent w) (pkts w) (rest w).
Definition with_clk (c : Clock) w : World R :=
  mkWorld R (slavePort w) (masterPort w) (delay w) (name w) c (clockPeriod w) (curTick w) (respEvent w) (reqEvent w) (pkts w) (rest w).
Definition with_respEvent (e : option Z) w : World R :=
  mkWorld R (slavePort w) (masterPort w) (delay w) (name w) (clk w) (clockPeriod w) (curTick w) e (reqEvent w) (pkts w) (rest w).
Definition with_reqEvent (e : option Z) w : World R :=
  mkWorld R (slavePort w) (masterPort w) (delay w) (name w) (clk w) (clockPeriod w) (curTick w) (respEvent w) e (pkts w) (rest w).
Definition with_pkts (p : Packets) w : World R :=
  mkWorld R (slavePort w) (masterPort w) (delay w) (name w) (clk w) (clockPeriod w) (curTick w) (respEvent w) (reqEvent w) p (rest w).

Definition set_s_list (l : list DeferredPacket) (s : BridgeSlavePort) : BridgeSlavePort := mkSlave l (outstandingResponses s) (retryReq s) (respQueueLimit s) (ranges s).
Definition set_outstanding (n : Z) (s : BridgeSlavePort) : BridgeSlavePort := mkSlave (s_transmitList s) n (retryReq s) (respQueueLimit s) (ranges s).
Definition set_retryReq (b : bool) (s : BridgeSlavePort) : BridgeSlavePort := mkSlave (s_transmitList s) (outstandingResponses s) b (respQueueLimit s) (ranges s).
Definition set_m_list (l : list DeferredPacket) (m : BridgeMasterPort) : BridgeMasterPort := mkMaster l (reqQueueLimit m).

Definition respQueueFull w : bool := outstandingResponses (slavePort w) =? respQueueLimit (slavePort w).
Definition reqQueueFull w : bool := vsize (m_transmitList (masterPort w)) =? reqQueueLimit (masterPort w).
Definition getAddrRanges w : list AddrRange.AddrRange := ranges (slavePort w).

Definition clockEdge (cycles : Z) w : Z * World R :=
  let '(t, c) := Clocked.clockEdge (clockPeriod w) (curTick w) cycles (clk w) in (t, with_clk c w).

Definition schedule_resp (when : Z) w : res (World R) :=
  _ ← assert_ (curTick w <=? when);
  _ ← assert_ (bool_decide (respEvent w = None));
  Ok (with_respEvent (Some when) w).
Definition schedule_req (when : Z) w : res (World R) :=
  _ ← assert_ (curTick w <=? when);
  _ ← assert_ (bool_decide (reqEvent w = None));
  Ok (with_reqEvent (Some when) w).

(** ** Receiving *)

Definition schedTimingReq (p : positive) (when : Z) w : res (World R) :=
  w ← (if bool_decide (m_transmitList (masterPort w) = []) then schedule_req when w else Ok w);
  _ ← assert_ (negb (vsize (m_transmitList (masterPort w)) =? reqQueueLimit (masterPort w)));
  Ok (with_master (λ m, set_m_list (m_transmitList m ++ [mkDeferred when p]) m) w).

Definition schedTimingResp (p : positive) (when : Z) w : res (World R) :=
  w ← (if bool_decide (s_transmitList (slavePort w) = []) then schedule_resp when w else Ok w);
  Ok (with_slave (λ s, set_s_list (s_transmitList s ++ [mkDeferred when p]) s) w).

(** [receive_delay], and the packet with its delays paid. *)
Definition pay_delays (p : positive) w : res (Z * World R) :=
  x ← deref (pkts w !! p);
  Ok (u32 (Packet.headerDelay x + Packet.payloadDelay x),
      with_pkts (<[p := Packet.mkPacket (Packet.flags x) (Packet.cmd x) (Packet.req x) (Packet.data x) (Packet.addr x) (Packet._isSecure x) (Packet.size x)
                   (Packet.bytesValid x) 0 (Packet.snoopDelay x) 0 (Packet.senderState x)]> (pkts w)) w).

Definition recvTimingResp (p : positive) w : res (bool * World R) :=
  '(receive_delay, w) ← pay_delays p w;
  let '(edge, w) := clockEdge (delay w) w in
  w ← schedTimingResp p (u64 (edge + receive_delay)) w;
  Ok (true, w).

Definition recvTimingReq (p : positive) w : res (bool * World R) :=
  x ← deref (pkts w !! p);
  if Packet.cacheResponding x then Fail Panicked
  else if retryReq (slavePort w) then Ok (false, w)
  else if reqQueueFull w then Ok (false, with_slave (set_retryReq true) w)
  else
    w ← (if Packet.needsResponse x then
           if respQueueFull w then Ok (with_slave (set_retryReq true) w)
           else
             _ ← assert_ (negb (outstandingResponses (slavePort w) =? respQueueLimit (slavePort w)));
             Ok (with_slave (λ s, set_outstanding (u32 (outstandingResponses s + 1)) s) w)
         else Ok w);
    if retryReq (slavePort w) then Ok (false, w)
    else
      '(receive_delay, w) ← pay_delays p w;
      let '(edge, w) := clockEdge (delay w) w in
      w ← schedTimingReq p (u64 (edge + receive_delay)) w;
      Ok (true, w).

(** ** Sending

    [sendTimingReq], [sendTimingResp] and [sendRetryReq] call the peers. *)

Section peers.
Context (sendTimingReq sendTimingResp : positive → World R → res (bool * World R)) (sendRetryReq : World R → res (World R)).

Definition retryStalledReq w : res (World R) :=
  if retryReq (slavePort w) then sendRetryReq (with_slave (set_retryReq false) w) else Ok w.

(** [trySendTiming] of the master port. *)
Definition trySendReq w : res (World R) :=
  _ ← assert_ (negb (bool_decide (m_transmitList (masterPort w) = [])));
  dp ← deref (head (m_transmitList (masterPort w)));
  _ ← assert_ (tick dp <=? curTick w);
  '(sent, w) ← sendTimingReq (pkt dp) w;
  if sent : bool then
    let w := with_master (λ m, set_m_list (tail (m_transmitList m)) m) w in
    w ← match m_transmitList (masterPort w) with
        | [] => Ok w
        | next :: _ => let '(edge, w) := clockEdge 0 w in schedule_req (Z.max (tick next) edge) w
        end;
    retryStalledReq w
  else Ok w.

(** [trySendTiming] of the slave port. *)
Definition trySendResp w : res (World R) :=
  _ ← assert_ (negb (bool_decide (s_transmitList (slavePort w) = [])));
  dp ← deref (head (s_transmitList (slavePort w)));
  _ ← assert_ (tick dp <=? curTick w);
  '(sent, w) ← sendTimingResp (pkt dp) w;
  if sent : bool then
    let w := with_slave (λ s, set_s_list (tail (s_transmitList s)) s) w in
    _ ← assert_ (negb (outstandingResponses (slavePort w) =? 0));
    let w := with_slave (λ s, set_outstanding (u32 (outstandingResponses s - 1)) s) w in
    w ← match s_transmitList (slavePort w) with
        | [] => Ok w
        | next :: _ => let '(edge, w) := clockEdge 0 w in schedule_resp (Z.max (tick next) edge) w
        end;
    if negb (reqQueueFull w) && retryReq (slavePort w) then sendRetryReq (with_slave (set_retryReq false) w) else Ok w
  else Ok w.

Definition recvReqRetry w : res (World R) := trySendReq w.
Definition recvRespRetry w : res (World R) := trySendResp w.

End peers.

(** ** Atomic and functional accesses *)

Definition recvAtomic (sendAtomic : positive → World R → res (Z * World R)) (p : positive) w : res (Z * World R) :=
  x ← deref (pkts w !! p);
  if Packet.cacheResponding x then Fail Panicked
  else
    let d := u64 (delay w * clockPeriod w) in
    '(lat, w) ← sendAtomic p w;
    Ok (u64 (d + lat), w).

(** The functional packet is in the state of [PacketQueue.check_list]. *)
Definition checkFunctional (print : positive → Z → string → string) w (s : Queue.fstate) : res (bool * Queue.fstate) :=
  '(found, s) ← check_list print (pkts w) (m_transmitList (masterPort w)) s;
  if found : bool then let '(mm, ss, p) := s in p ← Packet.makeResponse p; Ok (true, (mm, ss, p)) else Ok (false, s).

Definition recvFunctional (print : positive → Z → string → string) (sendFunctional : World R → Queue.fstate → res (World R * Queue.fstate)) w (s : Queue.fstate) :
    res (World R * Queue.fstate) :=
  let '(mm, ss, p) := s in
  ss ← Packet.pushLabel (name w) ss p;
  '(found, (mm, ss, p)) ← check_list print (pkts w) (s_transmitList (slavePort w)) (mm, ss, p);
  if found : bool then p ← Packet.makeResponse p; Ok (w, (mm, ss, p))
  else
    '(found, (mm, ss, p)) ← checkFunctional print w (mm, ss, p);
    if found : bool then Ok (w, (mm, ss, p))
    else ss ← Packet.popLabel ss p; sendFunctional w (mm, ss, p).

End ports.

End Bridge.
