(* ===== verification/BridgeProofs.v ===== *)
(** * Bridges lose nothing and never run out of room

    For any peers that follow the protocol of ports, which may call the bridge back while it calls
    them, and any order of events: no assertion of the bridge fails, requests and responses leave
    in the order they came, each once, the room reserved for responses suffices, a packet that
    waits has its event scheduled or its peer owes a retry, and a sender that was refused is asked to
    retry as soon as there is room. *)

From stdpp Require Import strings relations.
From S2P Require Import Prelude IntMath MemCmd Packet Clocked CacheQueue PacketQueue Bridge.

Open Scope Z_scope.

Module BridgeProofs.
Import PacketQueue Bridge.

(** What the peers observe: packets the bridge took from them, and gave to them, requests it
    refused, and the retries it asked for. *)
Inductive Event :=
  | InReq (p : positive) | OutReq (p : positive) | InResp (p : positive) | OutResp (p : positive)
  | Refused (p : positive) | Retry.

Definition in_reqs (l : list Event) : list positive := omap (λ e, match e with InReq p => Some p | _ => None end) l.
Definition out_reqs (l : list Event) : list positive := omap (λ e, match e with OutReq p => Some p | _ => None end) l.
Definition in_resps (l : list Event) : list positive := omap (λ e, match e with InResp p => Some p | _ => None end) l.
Definition out_resps (l : list Event) : list positive := omap (λ e, match e with OutResp p => Some p | _ => None end) l.

(** A request has been refused, and no retry was asked for since. *)
Definition awaits_retry (l : list Event) : bool :=
  foldl (λ b e, match e with Refused _ => true | Retry => false | _ => b end) false l.

Section bridge.
Context {St : Type}.
Abbreviation W := (World (St * list Event)).
Implicit Types w : W.

Definition with_rest (r : St * list Event) w : W :=
  mkWorld _ (slavePort w) (masterPort w) (delay w) (name w) (clk w) (clockPeriod w) (curTick w) (respEvent w) (reqEvent w) (pkts w) r.
Definition log (e : Event) w : W := with_rest ((rest w).1, (rest w).2 ++ [e]) w.
Definition history w : list Event := (rest w).2.

Abbreviation reqs w := (m_transmitList (masterPort w)).
Abbreviation resps w := (s_transmitList (slavePort w)).

(** ** The invariant *)

Record time_ok w : Prop := {
  to_period : 0 < clockPeriod w;
  to_delay : 0 ≤ delay w;
  to_now : 0 ≤ curTick w ∧ curTick w + (delay w + 4) * clockPeriod w < 2 ^ 62;
  to_edge : Clocked.on_edge (clockPeriod w) 0 (clk w);
  to_clk : Clocked.tick (clk w) < curTick w + clockPeriod w
}.

(** A queue with packets has its event scheduled when its first packet is due or later; without
    an event, the peer has refused the packet and owes a retry. *)
Definition send_ok (l : list DeferredPacket) (event : option Z) (now : Z) : Prop :=
  match l, event with
  | [], e => e = None
  | dp :: _, Some t => tick dp ≤ t ∧ now ≤ t
  | dp :: _, None => tick dp ≤ now
  end.

Record inv w : Prop := {
  in_time : time_ok w;
  in_limits : 1 ≤ reqQueueLimit (masterPort w) < 2 ^ 32 ∧ 1 ≤ respQueueLimit (slavePort w) < 2 ^ 32;
  in_room : vsize (reqs w) ≤ reqQueueLimit (masterPort w);
  in_credit : vsize (resps w) ≤ outstandingResponses (slavePort w) ≤ respQueueLimit (slavePort w);
  in_req_order : in_reqs (history w) = out_reqs (history w) ++ (pkt <$> reqs w);
  in_resp_order : in_resps (history w) = out_resps (history w) ++ (pkt <$> resps w);
  in_req_event : send_ok (reqs w) (reqEvent w) (curTick w);
  in_resp_event : send_ok (resps w) (respEvent w) (curTick w);
  in_awaits : awaits_retry (history w) = retryReq (slavePort w);
  in_stalled : retryReq (slavePort w) = true →
    vsize (reqs w) = reqQueueLimit (masterPort w) ∨ outstandingResponses (slavePort w) = respQueueLimit (slavePort w)
}.

(** ** The clock *)

Lemma clockEdge_ok w n : time_ok w → 0 ≤ n ≤ delay w →
  ∃ t c, clockEdge n w = (t, with_clk c w) ∧ time_ok (with_clk c w) ∧ curTick w + n * clockPeriod w ≤ t < curTick w + (n + 1) * clockPeriod w.
Proof.
  intros [Hp Hd [Hn0 Hn] He Hc] Hle. pose proof (Clocked.clock_update_spec (clockPeriod w) (curTick w) 0 (clk w)) as Hu. unfold clockEdge, Clocked.clockEdge.
  destruct He as (Hcy & Hti & H0). assert (Clocked.cycle (clk w) ≤ Clocked.tick (clk w)) by nia.
  destruct Hu as (He' & Hge & Hlt & _); [done|done|nia|done|nia|nia|]. set (c := Clocked.update _ _ _) in *.
  assert (0 ≤ clockPeriod w * n) by nia. assert (clockPeriod w * n ≤ clockPeriod w * delay w) by nia.
  rewrite (wrap_small 64 (clockPeriod w * n)) by (unfold in_width; nia). rewrite wrap_small by (unfold in_width; nia).
  exists (Clocked.tick c + clockPeriod w * n), c. split_and!; [done| |nia|nia]. split; cbn; try done; lia.
Qed.

Lemma inv_clk c w : inv w → time_ok (with_clk c w) → inv (with_clk c w).
Proof. intros [] Ht. by split. Qed.

Lemma inv_pkts p w : inv w → inv (with_pkts p w).
Proof. intros [[] H1 H2 H3 H4 H5 H6 H7 H8 H9]. by split. Qed.

(** The time a packet is sent on at. *)
Lemma due_time w t r : time_ok w → curTick w ≤ t < curTick w + (delay w + 1) * clockPeriod w → u64 (t + u32 r) = t + u32 r ∧ curTick w ≤ t + u32 r.
Proof.
  intros [Hp Hd [Hn0 Hn] _ _] Ht. pose proof (wrap_range 32 r ltac:(lia)) as [H1 H2]. split; [|lia]. apply wrap_small. unfold in_width. nia.
Qed.

Lemma omap_snoc {A B} (f : A → option B) l a : omap f (l ++ [a]) = omap f l ++ match f a with Some b => [b] | None => [] end.
Proof. rewrite omap_app. cbn. by destruct (f a). Qed.

Lemma send_ok_snoc l e now dp : l ≠ [] → send_ok l e now → send_ok (l ++ [dp]) e now.
Proof. by destruct l. Qed.

(** ** Receiving *)

Definition may_send (p : positive) w : Prop := ∃ x, pkts w !! p = Some x ∧ Packet.cacheResponding x = false.

(** The sender of a request sees whether it was taken. *)
Definition call_req (p : positive) w : res W := '(b, w) ← recvTimingReq p w; Ok (log (if b : bool then InReq p else Refused p) w).
Definition call_resp (p : positive) w : res W := '(b, w) ← recvTimingResp p w; Ok (if b : bool then log (InResp p) w else w).

(** What no call of a peer changes but the head of a queue. *)
Definition grows w w' : Prop :=
  ∃ l k, reqs w' = reqs w ++ l ∧ resps w' = resps w ++ k ∧ out_reqs (history w') = out_reqs (history w) ∧ out_resps (history w') = out_resps (history w) ∧
    (reqs w ≠ [] → reqEvent w' = reqEvent w) ∧ (resps w ≠ [] → respEvent w' = respEvent w) ∧ curTick w' = curTick w.

Lemma grows_refl w : grows w w.
Proof. exists [], []. rewrite !app_nil_r. done. Qed.

Lemma grows_trans w1 w2 w3 : grows w1 w2 → grows w2 w3 → grows w1 w3.
Proof.
  intros (l1 & k1 & A1 & A2 & A3 & A4 & A5 & A6 & A7) (l2 & k2 & B1 & B2 & B3 & B4 & B5 & B6 & B7). exists (l1 ++ l2), (k1 ++ k2).
  rewrite B1, A1, B2, A2, !app_assoc. split_and!; try congruence.
  - intros Hn. rewrite B5, A5; [done|done|]. rewrite A1. by destruct (reqs w1).
  - intros Hn. rewrite B6, A6; [done|done|]. rewrite A2. by destruct (resps w1).
Qed.

Lemma awaits_log l e : awaits_retry (l ++ [e]) = match e with Refused _ => true | Retry => false | _ => awaits_retry l end.
Proof. unfold awaits_retry. rewrite foldl_app. by destruct e. Qed.

(** A refused sender waits for room. *)
Lemma stall_inv p w : inv w → vsize (reqs w) = reqQueueLimit (masterPort w) ∨ outstandingResponses (slavePort w) = respQueueLimit (slavePort w) →
  inv (log (Refused p) (with_slave (set_retryReq true) w)) ∧ grows w (log (Refused p) (with_slave (set_retryReq true) w)).
Proof.
  intros [Ht Hl Hr Hc O1 O2 E1 E2 _ _] Hfull. split.
  - split; cbn; try done; [by destruct Ht|..|by rewrite awaits_log]; unfold in_reqs, out_reqs, in_resps, out_resps; by rewrite !omap_snoc, !app_nil_r.
  - exists [], []. cbn. unfold history, out_reqs, out_resps, log. cbn. by rewrite !omap_snoc, !app_nil_r.
Qed.

Lemma stalled_id w : retryReq (slavePort w) = true → with_slave (set_retryReq true) w = w.
Proof. intros Hr. destruct w as [[l o r q g] ? ? ? ? ? ? ? ? ? ?]. cbn in *. by subst. Qed.

(** A request that is taken goes to the end of the request queue. *)
Lemma enqueue_req p when w :
  inv w → curTick w ≤ when → vsize (reqs w) < reqQueueLimit (masterPort w) → retryReq (slavePort w) = false →
  ∃ w', schedTimingReq p when w = Ok w' ∧ inv (log (InReq p) w') ∧ grows w (log (InReq p) w').
Proof.
  intros [Ht Hl Hr Hc O1 O2 E1 E2 Ha Hs] Hw Hroom Hret. unfold schedTimingReq.
  assert (∃ w1, (if bool_decide (reqs w = []) then schedule_req when w else Ok w) = Ok w1 ∧
    w1 = with_reqEvent (if decide (reqs w = []) then Some when else reqEvent w) w) as (w1 & -> & ->).
  { destruct (decide (reqs w = [])) as [Hn|Hn].
    - rewrite (bool_decide_true (reqs w = [])) by done. unfold schedule_req. rewrite bind_assert by (by apply Z.leb_le). rewrite Hn in E1. cbn in E1.
      rewrite E1. rewrite bind_assert by done. by eexists.
    - rewrite (bool_decide_false (reqs w = [])) by done. exists w. split; [done|by destruct w]. }
  cbn [mbind res_bind masterPort with_reqEvent]. rewrite bind_assert by (apply negb_true_iff, Z.eqb_neq; lia).
  eexists. split; [done|]. split.
  - split; cbn; try done; [by destruct Ht|unfold vsize in *; rewrite length_app; cbn; lia| | | | |].
    + unfold in_reqs, out_reqs. rewrite !omap_snoc, app_nil_r, fmap_app. fold (in_reqs (rest w).2) (out_reqs (rest w).2). unfold history in O1. rewrite O1. by rewrite app_assoc.
    + unfold in_resps, out_resps. rewrite !omap_snoc, !app_nil_r. done.
    + destruct (decide (reqs w = [])) as [Hn|Hn]; [rewrite Hn; cbn; lia|by apply send_ok_snoc].
    + by rewrite awaits_log.
    + by rewrite Hret.
  - exists [mkDeferred when p], []. cbn. rewrite app_nil_r. unfold history, out_reqs, out_resps, log. cbn. rewrite !omap_snoc, !app_nil_r. split_and!; try done. intros Hn. by rewrite decide_False.
Qed.

Lemma enqueue_resp p when w :
  inv w → curTick w ≤ when → vsize (resps w) < outstandingResponses (slavePort w) →
  ∃ w', schedTimingResp p when w = Ok w' ∧ inv (log (InResp p) w') ∧ grows w (log (InResp p) w').
Proof.
  intros [Ht Hl Hr Hc O1 O2 E1 E2 Ha Hs] Hw Hroom. unfold schedTimingResp.
  assert (∃ w1, (if bool_decide (resps w = []) then schedule_resp when w else Ok w) = Ok w1 ∧
    w1 = with_respEvent (if decide (resps w = []) then Some when else respEvent w) w) as (w1 & -> & ->).
  { destruct (decide (resps w = [])) as [Hn|Hn].
    - rewrite (bool_decide_true (resps w = [])) by done. unfold schedule_resp. rewrite bind_assert by (by apply Z.leb_le). rewrite Hn in E2. cbn in E2.
      rewrite E2. rewrite bind_assert by done. by eexists.
    - rewrite (bool_decide_false (resps w = [])) by done. exists w. split; [done|by destruct w]. }
  cbn [mbind res_bind]. eexists. split; [done|]. split.
  - split; cbn; try done; [by destruct Ht|unfold vsize in *; rewrite length_app; cbn; lia| | | |by rewrite awaits_log].
    + unfold in_reqs, out_reqs. rewrite !omap_snoc, !app_nil_r. done.
    + unfold in_resps, out_resps. rewrite !omap_snoc, app_nil_r, fmap_app. fold (in_resps (rest w).2) (out_resps (rest w).2). unfold history in O2. rewrite O2. by rewrite app_assoc.
    + destruct (decide (resps w = [])) as [Hn|Hn]; [rewrite Hn; cbn; lia|by apply send_ok_snoc].
  - exists [], [mkDeferred when p]. cbn. rewrite app_nil_r. unfold history, out_reqs, out_resps, log. cbn. rewrite !omap_snoc, !app_nil_r. split_and!; try done. intros Hn. by rewrite decide_False.
Qed.

Lemma call_req_ok p w : inv w → may_send p w → ∃ w', call_req p w = Ok w' ∧ inv w' ∧ grows w w'.
Proof.
  intros Hi (x & Hx & Hcr). pose proof (in_time _ Hi) as Ht. unfold call_req, recvTimingReq. rewrite Hx. cbn [deref mbind res_bind]. rewrite Hcr.
  destruct (retryReq (slavePort w)) eqn:Hret.
  { eexists. split; [done|]. rewrite <- (stalled_id w Hret) at 1 3. by apply stall_inv, (in_stalled _ Hi). }
  destruct (Z.eqb_spec (vsize (reqs w)) (reqQueueLimit (masterPort w))) as [Hf|Hf]; unfold reqQueueFull; [rewrite (proj2 (Z.eqb_eq _ _) Hf)|rewrite (proj2 (Z.eqb_neq _ _) Hf)].
  { eexists. split; [done|]. apply stall_inv; auto. }
  pose proof (in_room _ Hi) as Hroom.
  assert (∃ w1, (if Packet.needsResponse x then
      if respQueueFull w then Ok (with_slave (set_retryReq true) w)
      else _ ← assert_ (negb (outstandingResponses (slavePort w) =? respQueueLimit (slavePort w))); Ok (with_slave (λ s, set_outstanding (u32 (outstandingResponses s + 1)) s) w)
    else Ok w) = Ok w1 ∧
    if retryReq (slavePort w1) then inv (log (Refused p) w1) ∧ grows w (log (Refused p) w1)
    else inv w1 ∧ grows w w1 ∧ pkts w1 = pkts w ∧ reqs w1 = reqs w ∧ reqQueueLimit (masterPort w1) = reqQueueLimit (masterPort w)) as (w1 & -> & Hw1).
  { unfold respQueueFull. destruct (Packet.needsResponse x); [|exists w; rewrite Hret; split_and!; try done; apply grows_refl].
    destruct (Z.eqb_spec (outstandingResponses (slavePort w)) (respQueueLimit (slavePort w))) as [He|He].
    - eexists. split; [done|]. cbn [retryReq slavePort with_slave set_retryReq]. apply stall_inv; auto.
    - cbn [negb assert_ mbind res_bind]. eexists. split; [done|]. cbn [retryReq slavePort with_slave set_outstanding]. rewrite Hret.
      split_and!; try done; [|exists [], []; cbn; by rewrite !app_nil_r].
      destruct Hi as [[] Hl Hr Hc O1 O2 E1 E2 Ha Hs]. pose proof (proj2 Hl). unfold vsize in *.
      assert (u32 (outstandingResponses (slavePort w) + 1) = outstandingResponses (slavePort w) + 1) as Hu by (apply wrap_small; unfold in_width; lia).
      split; cbn; try done; [rewrite Hu; unfold vsize; lia|by rewrite Hret]. }
  cbn [mbind res_bind]. destruct (retryReq (slavePort w1)) eqn:Hret1; [by eexists|]. destruct Hw1 as (Hi1 & Hg1 & Hpk & Hrq & Hlim).
  unfold pay_delays. rewrite Hpk, Hx. cbn [deref mbind res_bind]. set (w2 := with_pkts _ w1). assert (inv w2) as Hi2 by (by apply inv_pkts).
  destruct (clockEdge_ok w2 (delay w2) (in_time _ Hi2)) as (t & c & -> & Htc & Hlo & Hhi); [pose proof (to_delay _ (in_time _ Hi2)); lia|].
  pose proof (inv_clk c w2 Hi2 Htc) as Hi3. destruct (due_time w2 t (Packet.headerDelay x + Packet.payloadDelay x) (in_time _ Hi2)) as [-> Hdue].
  { pose proof (to_delay _ (in_time _ Hi2)). pose proof (to_period _ (in_time _ Hi2)). nia. }
  destruct (enqueue_req p (t + u32 (Packet.headerDelay x + Packet.payloadDelay x)) (with_clk c w2) Hi3) as (w' & -> & Hi' & Hg'); [exact Hdue|cbn; rewrite Hrq, Hlim; lia|exact Hret1|].
  cbn [mbind res_bind]. eexists. split; [done|]. split; [done|]. eapply grows_trans; [exact Hg1|]. eapply grows_trans; [|exact Hg']. exists [], []. cbn. by rewrite !app_nil_r.
Qed.

Lemma call_resp_ok p w : inv w → is_Some (pkts w !! p) → vsize (resps w) < outstandingResponses (slavePort w) → ∃ w', call_resp p w = Ok w' ∧ inv w' ∧ grows w w'.
Proof.
  intros Hi (x & Hx) Howed. unfold call_resp, recvTimingResp, pay_delays. rewrite Hx. cbn [deref mbind res_bind]. set (w2 := with_pkts _ w). assert (inv w2) as Hi2 by (by apply inv_pkts).
  destruct (clockEdge_ok w2 (delay w2) (in_time _ Hi2)) as (t & c & -> & Htc & Hlo & Hhi); [pose proof (to_delay _ (in_time _ Hi2)); lia|].
  pose proof (inv_clk c w2 Hi2 Htc) as Hi3. destruct (due_time w2 t (Packet.headerDelay x + Packet.payloadDelay x) (in_time _ Hi2)) as [-> Hdue].
  { pose proof (to_delay _ (in_time _ Hi2)). pose proof (to_period _ (in_time _ Hi2)). nia. }
  destruct (enqueue_resp p (t + u32 (Packet.headerDelay x + Packet.payloadDelay x)) (with_clk c w2) Hi3) as (w' & -> & Hi' & Hg'); [exact Hdue|exact Howed|].
  cbn [mbind res_bind]. eexists. split; [done|]. split; [done|]. eapply grows_trans; [|exact Hg']. exists [], []. cbn. by rewrite !app_nil_r.
Qed.

(** ** The peers *)

(** Nothing of the bridge changes; the simulator goes on elsewhere. *)
Record quiet w w' : Prop := {
  qu_slave : slavePort w' = slavePort w;
  qu_master : masterPort w' = masterPort w;
  qu_const : delay w' = delay w ∧ clockPeriod w' = clockPeriod w ∧ clk w' = clk w ∧ curTick w' = curTick w;
  qu_events : reqEvent w' = reqEvent w ∧ respEvent w' = respEvent w;
  qu_history : history w' = history w
}.

(** What may happen while a peer is called: it sends requests and responses, the latter only for
    requests the bridge has taken. *)
Inductive during : W → W → Prop :=
  | during_req p w w' : may_send p w → call_req p w = Ok w' → during w w'
  | during_resp p w w' : is_Some (pkts w !! p) → vsize (resps w) < outstandingResponses (slavePort w) → call_resp p w = Ok w' → during w w'
  | during_quiet w w' : quiet w w' → during w w'.

Lemma during_ok w w' : rtc during w w' → inv w → inv w' ∧ grows w w'.
Proof.
  induction 1 as [w|w1 w2 w3 Hd _ IH]; intros Hi; [split; [done|apply grows_refl]|].
  assert (inv w2 ∧ grows w1 w2) as [Hi2 Hg2].
  { destruct Hd as [p w w' Hm Hc|p w w' Hp Ho Hc|w w' Hq].
    - destruct (call_req_ok p w Hi Hm) as (w'' & Hc' & ?). rewrite Hc in Hc'. by injection Hc' as <-.
    - destruct (call_resp_ok p w Hi Hp Ho) as (w'' & Hc' & ?). rewrite Hc in Hc'. by injection Hc' as <-.
    - destruct Hq as [Q1 Q2 (Q3 & Q4 & Q5 & Q6) (Q7 & Q8) Q9]. destruct Hi as [[T1 T2 T3 T4 T5] H1 H2 H3 H4 H5 H6 H7 H8 H9]. split.
      + split; rewrite ?Q1, ?Q2, ?Q6, ?Q7, ?Q8, ?Q9; try done. split; rewrite ?Q3, ?Q4, ?Q5, ?Q6; done.
      + exists [], []. rewrite !app_nil_r. rewrite Q1, Q2, Q6, Q7, Q8, Q9. done. }
  destruct (IH Hi2) as [Hi3 Hg3]. split; [done|by eapply grows_trans].
Qed.

(** The protocol of ports: the peers answer, and do no more than the above meanwhile. *)
Class Peers (sendTimingReq sendTimingResp : positive → W → res (bool * W)) (sendRetryReq : W → res W) : Prop := {
  req_law w dp : inv w → head (reqs w) = Some dp → reqEvent w = None →
    ∃ (sent : bool) w1, sendTimingReq (pkt dp) w = Ok (sent, if sent then log (OutReq (pkt dp)) w1 else w1) ∧ rtc during w w1;
  resp_law w dp : inv w → head (resps w) = Some dp → respEvent w = None →
    ∃ (sent : bool) w1, sendTimingResp (pkt dp) w = Ok (sent, if sent then log (OutResp (pkt dp)) w1 else w1) ∧ rtc during w w1;
  retry_law w : inv (log Retry w) → ∃ w', sendRetryReq w = Ok w' ∧ rtc during (log Retry w) w'
}.

(** ** Sending *)

(** The invariant again, once the sender is told to retry or has a reason to wait. *)
Lemma unstall w : inv (log Retry (with_slave (set_retryReq false) w)) → awaits_retry (history w) = retryReq (slavePort w) →
  (retryReq (slavePort w) = true → vsize (reqs w) = reqQueueLimit (masterPort w) ∨ outstandingResponses (slavePort w) = respQueueLimit (slavePort w)) → inv w.
Proof.
  intros [Ht Hl Hr Hc O1 O2 E1 E2 _ _] Ha Hs. cbn in *. unfold history, log in O1, O2. cbn in O1, O2. unfold in_reqs, out_reqs, in_resps, out_resps in O1, O2.
  rewrite !omap_snoc, !app_nil_r in O1, O2. split; try done. by destruct Ht.
Qed.

(** After the first request is gone, its successor is scheduled. *)
Lemma pop_req w dp l : inv w → reqs w = dp :: l → reqEvent w = None →
  let w2 := with_master (λ m, set_m_list (tail (m_transmitList m)) m) (log (OutReq (pkt dp)) w) in
  ∃ w3, (match m_transmitList (masterPort w2) with
         | [] => Ok w2
         | next :: _ => let '(edge, w2) := clockEdge 0 w2 in schedule_req (Z.max (tick next) edge) w2
         end) = Ok w3 ∧ inv (log Retry (with_slave (set_retryReq false) w3)) ∧ awaits_retry (history w3) = retryReq (slavePort w3).
Proof.
  intros [Ht Hl Hr Hc O1 O2 E1 E2 Ha Hs] Hq He w2. assert (reqs w2 = l) as Hq2 by (cbn; by rewrite Hq).
  assert (∀ c ev, time_ok (with_clk c w) → send_ok l ev (curTick w) →
    inv (log Retry (with_slave (set_retryReq false) (with_reqEvent ev (with_clk c w2)))) ∧ awaits_retry (history w2) = retryReq (slavePort w2)) as Hinv.
  { intros c ev Htc Hev. split; [|cbn; by rewrite awaits_log]. split; cbn; try done.
    - by destruct Htc.
    - rewrite Hq. unfold vsize in *. rewrite Hq in Hr. cbn in *. lia.
    - unfold in_reqs, out_reqs. rewrite !omap_snoc, !app_nil_r. fold (in_reqs (rest w).2) (out_reqs (rest w).2). unfold history in O1. rewrite O1, Hq. cbn. by rewrite <- app_assoc.
    - unfold in_resps, out_resps. rewrite !omap_snoc, !app_nil_r. done.
    - by rewrite Hq.
    - by rewrite awaits_log. }
  rewrite Hq2. destruct l as [|next l].
  - exists w2. split; [done|]. specialize (Hinv (clk w) None ltac:(by destruct Ht) eq_refl). destruct w. cbn in *. subst. exact Hinv.
  - destruct (clockEdge_ok w2 0) as (t & c & -> & Htc & Hlo & Hhi); [by destruct Ht|pose proof (to_delay _ Ht); cbn; lia|].
    unfold schedule_req. cbn [curTick with_clk]. change (curTick w2) with (curTick w) in *. rewrite bind_assert by (apply Z.leb_le; lia).
    cbn [reqEvent with_clk]. change (reqEvent w2) with (reqEvent w). rewrite He. rewrite bind_assert by done. eexists. split; [done|]. apply Hinv; [by destruct Htc|]. cbn. lia.
Qed.

Lemma pop_resp w dp l : inv w → resps w = dp :: l → respEvent w = None →
  let w2 := with_slave (λ s, set_outstanding (u32 (outstandingResponses s - 1)) s) (with_slave (λ s, set_s_list (tail (s_transmitList s)) s) (log (OutResp (pkt dp)) w)) in
  ∃ w3, (match s_transmitList (slavePort w2) with
         | [] => Ok w2
         | next :: _ => let '(edge, w2) := clockEdge 0 w2 in schedule_resp (Z.max (tick next) edge) w2
         end) = Ok w3 ∧ inv (log Retry (with_slave (set_retryReq false) w3)) ∧ awaits_retry (history w3) = retryReq (slavePort w3).
Proof.
  intros [Ht Hl Hr Hc O1 O2 E1 E2 Ha Hs] Hq He w2. assert (resps w2 = l) as Hq2 by (cbn; by rewrite Hq).
  assert (u32 (outstandingResponses (slavePort w) - 1) = outstandingResponses (slavePort w) - 1) as Hu by (apply wrap_small; unfold in_width, vsize in *; rewrite Hq in Hc; cbn in Hc; lia).
  assert (∀ c ev, time_ok (with_clk c w) → send_ok l ev (curTick w) →
    inv (log Retry (with_slave (set_retryReq false) (with_respEvent ev (with_clk c w2)))) ∧ awaits_retry (history w2) = retryReq (slavePort w2)) as Hinv.
  { intros c ev Htc Hev. split; [|cbn; by rewrite awaits_log]. split; cbn; try done.
    - by destruct Htc.
    - rewrite Hq, Hu. unfold vsize in *. rewrite Hq in Hc. cbn in *. lia.
    - unfold in_reqs, out_reqs. rewrite !omap_snoc, !app_nil_r. done.
    - unfold in_resps, out_resps. rewrite !omap_snoc, !app_nil_r. fold (in_resps (rest w).2) (out_resps (rest w).2). unfold history in O2. rewrite O2, Hq. cbn. by rewrite <- app_assoc.
    - by rewrite Hq.
    - by rewrite awaits_log. }
  rewrite Hq2. destruct l as [|next l].
  - exists w2. split; [done|]. specialize (Hinv (clk w) None ltac:(by destruct Ht) eq_refl). destruct w. cbn in *. subst. exact Hinv.
  - destruct (clockEdge_ok w2 0) as (t & c & -> & Htc & Hlo & Hhi); [by destruct Ht|pose proof (to_delay _ Ht); cbn; lia|].
    unfold schedule_resp. cbn [curTick with_clk]. change (curTick w2) with (curTick w) in *. rewrite bind_assert by (apply Z.leb_le; lia).
    cbn [respEvent with_clk]. change (respEvent w2) with (respEvent w). rewrite He. rewrite bind_assert by done. eexists. split; [done|]. apply Hinv; [by destruct Htc|]. cbn. lia.
Qed.

Section sending.
Context (sendTimingReq sendTimingResp : positive → W → res (bool * W)) (sendRetryReq : W → res W) `{!Peers sendTimingReq sendTimingResp sendRetryReq}.

Lemma trySendReq_ok w : inv w → reqs w ≠ [] → reqEvent w = None → ∃ w', trySendReq sendTimingReq sendRetryReq w = Ok w' ∧ inv w'.
Proof.
  intros Hi Hne He. destruct (reqs w) as [|dp l] eqn:Hq; [done|]. unfold trySendReq. rewrite bind_assert by (rewrite Hq; done). rewrite Hq. cbn [head deref mbind res_bind].
  pose proof (in_req_event _ Hi) as Hs. rewrite Hq, He in Hs. cbn in Hs. rewrite bind_assert by (by apply Z.leb_le).
  destruct (req_law w dp Hi ltac:(by rewrite Hq) He) as (sent & w1 & -> & Hd). cbn [mbind res_bind]. destruct (during_ok w w1 Hd Hi) as [Hi1 (x & y & G1 & _ & _ & _ & G5 & _)].
  destruct sent; [|by exists w1]. rewrite Hq in G1. destruct (pop_req w1 dp (l ++ x) Hi1 G1) as (w3 & Hrun & Hi3 & Ha3); [rewrite G5; [done|by rewrite Hq]|].
  rewrite Hrun. cbn [mbind res_bind]. unfold retryStalledReq. destruct (retryReq (slavePort w3)) eqn:Hr; [|exists w3; split; [done|by apply unstall; rewrite ?Hr]].
  destruct (retry_law _ Hi3) as (w' & -> & Hd'). exists w'. split; [done|]. by eapply during_ok.
Qed.

Lemma trySendResp_ok w : inv w → resps w ≠ [] → respEvent w = None → ∃ w', trySendResp sendTimingResp sendRetryReq w = Ok w' ∧ inv w'.
Proof.
  intros Hi Hne He. destruct (resps w) as [|dp l] eqn:Hq; [done|]. unfold trySendResp. rewrite bind_assert by (rewrite Hq; done). rewrite Hq. cbn [head deref mbind res_bind].
  pose proof (in_resp_event _ Hi) as Hs. rewrite Hq, He in Hs. cbn in Hs. rewrite bind_assert by (by apply Z.leb_le).
  destruct (resp_law w dp Hi ltac:(by rewrite Hq) He) as (sent & w1 & -> & Hd). cbn [mbind res_bind]. destruct (during_ok w w1 Hd Hi) as [Hi1 (x & y & _ & G2 & _ & _ & _ & G6 & _)].
  destruct sent; [|by exists w1]. rewrite Hq in G2. pose proof (in_credit _ Hi1) as Hc. unfold vsize in Hc. rewrite G2 in Hc. cbn in Hc.
  rewrite bind_assert by (apply negb_true_iff, Z.eqb_neq; cbn; lia).
  destruct (pop_resp w1 dp (l ++ y) Hi1 G2) as (w3 & Hrun & Hi3 & Ha3); [rewrite G6; [done|by rewrite Hq]|]. rewrite Hrun. cbn [mbind res_bind].
  destruct (negb (reqQueueFull w3) && retryReq (slavePort w3)) eqn:Hr.
  - destruct (retry_law _ Hi3) as (w' & -> & Hd'). exists w'. split; [done|]. by eapply during_ok.
  - exists w3. split; [done|]. apply unstall; [done|done|]. intros Hr3. rewrite Hr3, andb_true_r in Hr. apply negb_false_iff, Z.eqb_eq in Hr. by left.
Qed.

(** ** Runs *)

Definition with_now (t : Z) w : W :=
  mkWorld _ (slavePort w) (masterPort w) (delay w) (name w) (clk w) (clockPeriod w) t (respEvent w) (reqEvent w) (pkts w) (rest w).

Definition before (event : option Z) (t : Z) : Prop := match event with Some e => t ≤ e | None => True end.

(** One step of the simulator: a peer calls the bridge or acts elsewhere, time passes up to the
    next send event, a send event fires, or a peer that refused a packet asks for it again. *)
Inductive step : W → W → Prop :=
  | step_call w w' : during w w' → step w w'
  | step_time w t : curTick w ≤ t → t + (delay w + 4) * clockPeriod w < 2 ^ 62 → before (reqEvent w) t → before (respEvent w) t → step w (with_now t w)
  | step_req_event w w' : reqEvent w = Some (curTick w) → trySendReq sendTimingReq sendRetryReq (with_reqEvent None w) = Ok w' → step w w'
  | step_resp_event w w' : respEvent w = Some (curTick w) → trySendResp sendTimingResp sendRetryReq (with_respEvent None w) = Ok w' → step w w'
  | step_req_retry w w' : reqs w ≠ [] → reqEvent w = None → recvReqRetry sendTimingReq sendRetryReq w = Ok w' → step w w'
  | step_resp_retry w w' : resps w ≠ [] → respEvent w = None → recvRespRetry sendTimingResp sendRetryReq w = Ok w' → step w w'.

Record initial w : Prop := {
  ini_slave : ∃ n l, slavePort w = newSlavePort n l ∧ 1 ≤ n < 2 ^ 32;
  ini_master : ∃ n, masterPort w = newMasterPort n ∧ 1 ≤ n < 2 ^ 32;
  ini_events : reqEvent w = None ∧ respEvent w = None;
  ini_clock : clk w = Clocked.newClocked ∧ 0 < clockPeriod w ∧ 0 ≤ delay w ∧ 0 ≤ curTick w ∧ curTick w + (delay w + 4) * clockPeriod w < 2 ^ 62;
  ini_history : history w = []
}.

Lemma initial_bridge_inv w : initial w → inv w.
Proof.
  intros [(n & l & H1 & Hn) (n' & H2 & Hn') [H3 H4] (H5 & H6 & H7 & H8 & H9) H10]. split; rewrite ?H1, ?H2, ?H3, ?H4, ?H10; cbn; try done; try (unfold vsize; cbn; lia).
  split; rewrite ?H5; cbn; try done; unfold Clocked.on_edge; cbn; lia.
Qed.

Lemma fire_req w : inv w → reqEvent w = Some (curTick w) → inv (with_reqEvent None w) ∧ reqs w ≠ [].
Proof.
  intros [[] H1 H2 H3 H4 H5 H6 H7 H8 H9] He. rewrite He in H6. destruct (reqs w) as [|dp l] eqn:Hq; [done|]. split; [|done].
  split; cbn; rewrite ?Hq; try done. destruct H6. cbn. lia.
Qed.

Lemma fire_resp w : inv w → respEvent w = Some (curTick w) → inv (with_respEvent None w) ∧ resps w ≠ [].
Proof.
  intros [[] H1 H2 H3 H4 H5 H6 H7 H8 H9] He. rewrite He in H7. destruct (resps w) as [|dp l] eqn:Hq; [done|]. split; [|done].
  split; cbn; rewrite ?Hq; try done. destruct H7. cbn. lia.
Qed.

Lemma time_inv w t : inv w → curTick w ≤ t → t + (delay w + 4) * clockPeriod w < 2 ^ 62 → before (reqEvent w) t → before (respEvent w) t → inv (with_now t w).
Proof.
  assert (∀ l ev, send_ok l ev (curTick w) → curTick w ≤ t → before ev t → send_ok l ev t) as Hs by (intros [|dp l] [e|]; cbn; (done || lia)).
  intros [[T1 T2 T3 T4 T5] H1 H2 H3 H4 H5 H6 H7 H8 H9] Hle Hb B1 B2. split; cbn; auto. split; cbn; try done; lia.
Qed.

Lemma bridge_step_inv w w' : step w w' → inv w → inv w'.
Proof.
  destruct 1 as [w w' Hd|w t|w w' He Hr|w w' He Hr|w w' Hn He Hr|w w' Hn He Hr]; intros Hi.
  - by eapply during_ok; [apply rtc_once|].
  - by apply time_inv.
  - destruct (fire_req w Hi He) as [Hi' Hne]. destruct (trySendReq_ok _ Hi' Hne eq_refl) as (w'' & Hr' & ?). rewrite Hr in Hr'. by injection Hr' as <-.
  - destruct (fire_resp w Hi He) as [Hi' Hne]. destruct (trySendResp_ok _ Hi' Hne eq_refl) as (w'' & Hr' & ?). rewrite Hr in Hr'. by injection Hr' as <-.
  - destruct (trySendReq_ok w Hi Hn He) as (w'' & Hr' & ?). unfold recvReqRetry in Hr. rewrite Hr in Hr'. by injection Hr' as <-.
  - destruct (trySendResp_ok w Hi Hn He) as (w'' & Hr' & ?). unfold recvRespRetry in Hr. rewrite Hr in Hr'. by injection Hr' as <-.
Qed.

Lemma run_inv w0 w : rtc step w0 w → inv w0 → inv w.
Proof. induction 1 as [|w1 w2 w3 Hs _ IH]; intros Hi; [done|]. by apply IH, (bridge_step_inv w1). Qed.

(** What a reachable bridge guarantees. *)
Record safe w : Prop := {
  sf_room : vsize (reqs w) ≤ reqQueueLimit (masterPort w) ∧ vsize (resps w) ≤ outstandingResponses (slavePort w) ≤ respQueueLimit (slavePort w);
  sf_order : in_reqs (history w) = out_reqs (history w) ++ (pkt <$> reqs w) ∧ in_resps (history w) = out_resps (history w) ++ (pkt <$> resps w);
  sf_events : send_ok (reqs w) (reqEvent w) (curTick w) ∧ send_ok (resps w) (respEvent w) (curTick w);
  sf_awaits : awaits_retry (history w) = retryReq (slavePort w);
  sf_stalled : awaits_retry (history w) = true →
    vsize (reqs w) = reqQueueLimit (masterPort w) ∨ outstandingResponses (slavePort w) = respQueueLimit (slavePort w);
  sf_recv_req p : may_send p w → is_Ok (recvTimingReq p w);
  sf_recv_resp p : is_Some (pkts w !! p) → vsize (resps w) < outstandingResponses (slavePort w) → is_Ok (recvTimingResp p w);
  sf_req_event : reqEvent w = Some (curTick w) → is_Ok (trySendReq sendTimingReq sendRetryReq (with_reqEvent None w));
  sf_resp_event : respEvent w = Some (curTick w) → is_Ok (trySendResp sendTimingResp sendRetryReq (with_respEvent None w));
  sf_req_retry : reqs w ≠ [] → reqEvent w = None → is_Ok (recvReqRetry sendTimingReq sendRetryReq w);
  sf_resp_retry : resps w ≠ [] → respEvent w = None → is_Ok (recvRespRetry sendTimingResp sendRetryReq w)
}.

Lemma inv_safe w : inv w → safe w.
Proof.
  intros Hi. split; try (split; apply Hi); try apply Hi.
  - rewrite (in_awaits _ Hi). apply Hi.
  - intros p Hp. destruct (call_req_ok p w Hi Hp) as (w' & Hc & _). unfold call_req in Hc. apply bind_ok in Hc as ([b w1] & Hc & _). by eexists.
  - intros p Hp Ho. destruct (call_resp_ok p w Hi Hp Ho) as (w' & Hc & _). unfold call_resp in Hc. apply bind_ok in Hc as ([b w1] & Hc & _). by eexists.
  - intros He. destruct (fire_req w Hi He) as [Hi' Hne]. destruct (trySendReq_ok _ Hi' Hne eq_refl) as (w' & Hr & _). by eexists.
  - intros He. destruct (fire_resp w Hi He) as [Hi' Hne]. destruct (trySendResp_ok _ Hi' Hne eq_refl) as (w' & Hr & _). by eexists.
  - intros Hn He. destruct (trySendReq_ok w Hi Hn He) as (w' & Hr & _). by eexists.
  - intros Hn He. destruct (trySendResp_ok w Hi Hn He) as (w' & Hr & _). by eexists.
Qed.

End sending.

End bridge.


(** A bridge between two peers that take every packet. *)
Definition take_req (p : positive) (w : World (unit * list Event)) : res (bool * World (unit * list Event)) := Ok (true, log (OutReq p) w).
Definition take_resp (p : positive) (w : World (unit * list Event)) : res (bool * World (unit * list Event)) := Ok (true, log (OutResp p) w).

Definition hear_retry (w : World (unit * list Event)) : res (World (unit * list Event)) := Ok (log Retry w).

#[local] Instance taking_peers : Peers take_req take_resp hear_retry.
Proof. split; [intros w dp _ _ _; by exists true, w|intros w dp _ _ _; by exists true, w|intros w _; by eexists]. Qed.

Definition demo_packet : Packet.Packet := Packet.mkPacket 0 MemCmd.ReadReq Request.newRequest None 64 false 4 [] 100 0 50 None.

Definition demo_bridge : World (unit * list Event) :=
  mkWorld _ (newSlavePort 1 []) (newMasterPort 2) 1 "bridge" Clocked.newClocked 500 1000 None None {[5%positive := demo_packet; 6%positive := demo_packet]} (tt, []).

(** The first read is taken, the second has no room for its response; the first is sent, the
    refused sender is asked to retry, and the first is answered. *)
Definition demo_run : res (World (unit * list Event)) :=
  w ← call_req 5 demo_bridge;
  w ← call_req 6 w;
  w ← trySendReq take_req hear_retry (with_reqEvent None (with_now 1650 w));
  call_resp 5 w.

Lemma demo_steps : ∃ w, demo_run = Ok w ∧ rtc (step take_req take_resp hear_retry) demo_bridge w.
Proof.
  destruct demo_run as [w|] eqn:Hrun; [|by vm_compute in Hrun]. exists w. split; [done|]. unfold demo_run in Hrun.
  apply bind_ok in Hrun as (w1 & H1 & Hrun). apply bind_ok in Hrun as (w2 & H2 & Hrun). apply bind_ok in Hrun as (w3 & H3 & H4).
  assert (may_send 5 demo_bridge) as M1 by (exists demo_packet; done).
  vm_compute in H1. injection H1 as <-. vm_compute in H2. injection H2 as <-. vm_compute in H3. injection H3 as <-.
  eapply rtc_l; [apply step_call, (during_req 5); [exact M1|vm_compute; reflexivity]|].
  eapply rtc_l; [apply step_call, (during_req 6); [by eexists|vm_compute; reflexivity]|].
  eapply rtc_l; [apply (step_time _ _ _ _ 1650); [vm_compute; discriminate|vm_compute; reflexivity|vm_compute; discriminate|exact I]|].
  eapply rtc_l; [apply step_req_event; [vm_compute; reflexivity|vm_compute; reflexivity]|].
  eapply rtc_l; [apply step_call, (during_resp 5); [by eexists|vm_compute; reflexivity|exact H4]|]. constructor.
Qed.


End BridgeProofs.
