(* ===== verification/PageTable.v ===== *)
(** * Functional page tables

    [mem/page_table]: the map from virtual pages to the entries of the ISA, with a cache of the
    last three entries in front of it.  The entry type is that of the ISA the simulator is built
    for; the class [TlbEntry] is what the page table uses of it, with the entries of Alpha, MIPS,
    x86 and Power as instances. *)

From S2P Require Import Prelude IntMath MemCmd.

Open Scope Z_scope.

Module PageTable.
Import IntMath.

(** ** Entries *)

(** What the page table uses of [TheISA::TlbEntry]. *)
Class TlbEntry (E : Type) := {
  newEntry : Z → Z → Z → bool → bool → E;
  emptyEntry : E;
  updateVaddr : Z → E → res E;
  pageStart : E → Z
}.

(** What it relies on: an entry maps the page it is made for, and keeps it when moved.
    [phys_ok] are the physical pages of the ISA. *)
Class TlbEntryLaws (E : Type) `{TlbEntry E} (phys_ok : Z → Prop) := {
  start_new : ∀ pid v p u r, phys_ok p → pageStart (newEntry pid v p u r) = p;
  start_moved : ∀ v e, ∃ e', updateVaddr v e = Ok e' ∧ pageStart e' = pageStart e
}.

Record AlphaEntry := mkAlpha { tag : Z; ppn : Z; xre : Z; xwe : Z; asn : Z; asma : bool; fonr : bool; fonw : bool; a_valid : bool }.

Definition AlphaPageShift : Z := 13.
Definition ImplMask : Z := 2 ^ 43 - 1.
Definition vpn (addr : Z) : Z := Z.shiftr (Z.land addr ImplMask) AlphaPageShift.

Definition alpha_new (pid v p : Z) (_ _ : bool) : AlphaEntry := mkAlpha (vpn v) (vpn p) 15 15 (wrap 8 pid) false false false true.
Definition alpha_empty : AlphaEntry := mkAlpha 0 0 0 0 0 false false false false.
Definition alpha_updateVaddr (v : Z) (e : AlphaEntry) : AlphaEntry := mkAlpha (vpn v) (ppn e) (xre e) (xwe e) (asn e) (asma e) (fonr e) (fonw e) (a_valid e).
Definition alpha_pageStart (e : AlphaEntry) : Z := u64 (Z.shiftl (ppn e) AlphaPageShift).

#[export] Instance AlphaTlbEntry : TlbEntry AlphaEntry :=
  {| newEntry := alpha_new; emptyEntry := alpha_empty; updateVaddr := λ v e, Ok (alpha_updateVaddr v e); pageStart := alpha_pageStart |}.

(** The handle into the trie of the TLB is not used by page tables. *)
Record X86Entry := mkX86 { x_paddr : Z; x_vaddr : Z; logBytes : Z; writable : bool; user : bool; uncacheable : bool; global : bool; patBit : bool; noExec : bool; lruSeq : Z }.

Definition X86PageShift : Z := 12.
Definition x86_new (_ v p : Z) (unc ro : bool) : X86Entry := mkX86 p v X86PageShift (negb ro) true unc false false false 0.
Definition x86_empty : X86Entry := mkX86 0 0 0 false true false false false false 0.
Definition x86_updateVaddr (v : Z) (e : X86Entry) : X86Entry :=
  mkX86 (x_paddr e) v (logBytes e) (writable e) (user e) (uncacheable e) (global e) (patBit e) (noExec e) (lruSeq e).

#[export] Instance X86TlbEntry : TlbEntry X86Entry :=
  {| newEntry := x86_new; emptyEntry := x86_empty; updateVaddr := λ v e, Ok (x86_updateVaddr v e); pageStart := x_paddr |}.

(** The entries of MIPS and Power hold the physical page only; that of Power cannot be moved. The
    empty entry is uninitialised. *)
Record MipsEntry := mkMips { m_pageStart : Z }.
Definition MipsTlbEntry (junk : Z) : TlbEntry MipsEntry :=
  {| newEntry := λ _ _ p _ _, mkMips p; emptyEntry := mkMips junk; updateVaddr := λ _ e, Ok e; pageStart := m_pageStart |}.

Record PowerEntry := mkPower { p_pageStart : Z }.
Definition PowerTlbEntry (junk : Z) : TlbEntry PowerEntry :=
  {| newEntry := λ _ _ p _ _, mkPower p; emptyEntry := mkPower junk; updateVaddr := λ _ _, Fail Panicked; pageStart := p_pageStart |}.

Section table.
Context {E : Type} `{!TlbEntry E}.

(** ** The cache and the table *)

Record cacheElement := mkElement { valid : bool; vaddr : Z; entry : E }.

Record FuncPageTable := mkTable {
  pTableCache : cacheElement * cacheElement * cacheElement;
  pageSize : Z;
  offsetMask : Z;
  pid : Z;
  pTable : gmap Z E
}.

Definition with_cache (x : cacheElement * cacheElement * cacheElement) (t : FuncPageTable) : FuncPageTable := mkTable x (pageSize t) (offsetMask t) (pid t) (pTable t).
Definition with_pTable (x : gmap Z E) (t : FuncPageTable) : FuncPageTable := mkTable (pTableCache t) (pageSize t) (offsetMask t) (pid t) x.

(** Mapping flags. *)
Definition Clobber : Z := 1.
Definition Uncacheable : Z := 4.
Definition ReadOnly : Z := 8.

(** The addresses of the cache elements are uninitialised. *)
Definition newTable (junk _pid _pageSize : Z) : res FuncPageTable :=
  l ← floorLog2_ull _pageSize;
  _ ← assert_ (isPowerOf2 64 _pageSize);
  let e := mkElement false junk emptyEntry in
  Ok (mkTable (e, e, e) _pageSize (Bitfield.mask l) _pid ∅).

Definition pageAlign (t : FuncPageTable) (a : Z) : Z := Z.land a (bnot 64 (offsetMask t)).
Definition pageOffset (t : FuncPageTable) (a : Z) : Z := Z.land a (offsetMask t).

Definition updateCache (va : Z) (e : E) (t : FuncPageTable) : FuncPageTable :=
  let '(c0, c1, _) := pTableCache t in with_cache (mkElement true va e, c0, c1) t.

Definition hit (va : Z) (c : cacheElement) : bool := valid c && (vaddr c =? va).
Definition invalidate (c : cacheElement) : cacheElement := mkElement false (vaddr c) (entry c).

Definition eraseCacheEntry (va : Z) (t : FuncPageTable) : FuncPageTable :=
  let '(c0, c1, c2) := pTableCache t in
  with_cache (if hit va c0 then (invalidate c0, c1, c2)
              else if hit va c1 then (c0, invalidate c1, c2)
              else if hit va c2 then (c0, c1, invalidate c2)
              else (c0, c1, c2)) t.

(** ** Regions

    The loops go over the pages of a region; [size] is signed, and the fuel is the number of
    pages. *)

Definition s64 (x : Z) : Z := if u64 x <? 2 ^ 63 then u64 x else u64 x - 2 ^ 64.
Definition pages (t : FuncPageTable) (size : Z) : nat := Z.to_nat ((size + pageSize t - 1) / pageSize t).

Fixpoint map_loop (fuel : nat) (va pa size flags : Z) (t : FuncPageTable) : res FuncPageTable :=
  if 0 <? size then
    match fuel with
    | O => Fail OutOfFuel
    | S fuel =>
        if (Z.land flags Clobber =? 0) && bool_decide (is_Some (pTable t !! va)) then Fail Fatal
        else
          let e := newEntry (pid t) va pa (negb (Z.land flags Uncacheable =? 0)) (negb (Z.land flags ReadOnly =? 0)) in
          let t := updateCache va e (eraseCacheEntry va (with_pTable (<[va := e]> (pTable t)) t)) in
          map_loop fuel (u64 (va + pageSize t)) (u64 (pa + pageSize t)) (s64 (size - pageSize t)) flags t
    end
  else Ok t.

Definition map (va pa size flags : Z) (t : FuncPageTable) : res FuncPageTable :=
  _ ← assert_ (pageOffset t va =? 0);
  map_loop (pages t size) va pa size flags t.

(** [pTable[v]], which makes an empty entry where there is none. *)
Definition at_ (va : Z) (m : gmap Z E) : E := default emptyEntry (m !! va).

Definition remap_page (va new_va : Z) (t : FuncPageTable) : res FuncPageTable :=
  _ ← assert_ (bool_decide (is_Some (pTable t !! va)));
  let m := <[new_va := at_ va (pTable t)]> (pTable t) in
  let t := eraseCacheEntry va (with_pTable (delete va m) t) in
  e ← updateVaddr new_va (at_ new_va (pTable t));
  Ok (updateCache new_va e (with_pTable (<[new_va := e]> (pTable t)) t)).

Fixpoint remap_loop (fuel : nat) (va size new_va : Z) (t : FuncPageTable) : res FuncPageTable :=
  if 0 <? size then
    match fuel with
    | O => Fail OutOfFuel
    | S fuel =>
        t ← remap_page va new_va t;
        remap_loop fuel (u64 (va + pageSize t)) (s64 (size - pageSize t)) (u64 (new_va + pageSize t)) t
    end
  else Ok t.

Definition remap (va size new_va : Z) (t : FuncPageTable) : res FuncPageTable :=
  _ ← assert_ (pageOffset t va =? 0);
  _ ← assert_ (pageOffset t new_va =? 0);
  remap_loop (pages t size) va size new_va t.

Fixpoint unmap_loop (fuel : nat) (va size : Z) (t : FuncPageTable) : res FuncPageTable :=
  if 0 <? size then
    match fuel with
    | O => Fail OutOfFuel
    | S fuel =>
        _ ← assert_ (bool_decide (is_Some (pTable t !! va)));
        let t := eraseCacheEntry va (with_pTable (delete va (pTable t)) t) in
        unmap_loop fuel (u64 (va + pageSize t)) (s64 (size - pageSize t)) t
    end
  else Ok t.

Definition unmap (va size : Z) (t : FuncPageTable) : res FuncPageTable :=
  _ ← assert_ (pageOffset t va =? 0);
  unmap_loop (pages t size) va size t.

Fixpoint isUnmapped_loop (fuel : nat) (va size : Z) (t : FuncPageTable) : res bool :=
  if 0 <? size then
    match fuel with
    | O => Fail OutOfFuel
    | S fuel =>
        if bool_decide (is_Some (pTable t !! va)) then Ok false
        else isUnmapped_loop fuel (u64 (va + pageSize t)) (s64 (size - pageSize t)) t
    end
  else Ok true.

Definition isUnmapped (va size : Z) (t : FuncPageTable) : res bool :=
  _ ← assert_ (pageOffset t va =? 0);
  isUnmapped_loop (pages t size) va size t.

(** ** Lookups *)

Definition lookup (va : Z) (t : FuncPageTable) : option E * FuncPageTable :=
  let page_addr := pageAlign t va in
  let '(c0, c1, c2) := pTableCache t in
  if hit page_addr c0 then (Some (entry c0), t)
  else if hit page_addr c1 then (Some (entry c1), t)
  else if hit page_addr c2 then (Some (entry c2), t)
  else match pTable t !! page_addr with
       | Some e => (Some e, updateCache page_addr e t)
       | None => (None, t)
       end.

Definition translate (va : Z) (t : FuncPageTable) : option Z * FuncPageTable :=
  let '(r, t) := lookup va t in ((λ e, u64 (pageOffset t va + pageStart e)) <$> r, t).

(** A page fault, or the request with its physical address. *)
Definition translate_req (req : Request.Request) (t : FuncPageTable) : res (option Request.Request * FuncPageTable) :=
  va ← Request.getVaddr req;
  size ← Request.getSize req;
  _ ← assert_ (pageAlign t (u64 (u64 (va + size) - 1)) =? pageAlign t va);
  let '(r, t) := translate va t in
  match r with
  | None => Ok (None, t)
  | Some paddr =>
      let req := Request.setPaddr paddr req in
      if pageSize t <? u64 (Z.land paddr (u64 (pageSize t - 1)) + size) then Fail Panicked else Ok (Some req, t)
  end.

(** ** Checkpoints

    The order of the entries is that of the hash map. *)

Definition serialize (t : FuncPageTable) : list (Z * E) := map_to_list (pTable t).

Fixpoint unserialize (l : list (Z * E)) (t : FuncPageTable) : FuncPageTable :=
  match l with
  | [] => t
  | (va, e) :: l => unserialize l (with_pTable (<[va := e]> (pTable t)) t)
  end.

End table.

Arguments cacheElement E : clear implicits.
Arguments FuncPageTable E : clear implicits.

End PageTable.
