(* ===== verification/PageTableProofs.v ===== *)
(** * Page tables translate as mapped

    The cache in front of the table is never seen: a table translates as the regions mapped,
    moved and unmapped so far say, as long as no page is moved onto a mapped one.  A page that is
    leaves a stale entry in the cache. *)

From S2P Require Import Prelude IntMath MemCmd PageTable.

Open Scope Z_scope.

Module PageTableProofs.
Import IntMath PageTable.

(** ** The entries of the ISAs *)

#[export] Instance AlphaLaws : TlbEntryLaws AlphaEntry (λ p, 0 ≤ p < 2 ^ 43 ∧ p mod 2 ^ 13 = 0).
Proof.
  split.
  - intros pid v p u r [Hp Hm]. cbn. unfold alpha_pageStart, alpha_new, vpn, ImplMask, AlphaPageShift. cbn [ppn].
    change (2 ^ 43 - 1) with (Z.ones 43). rewrite Z.land_ones by lia. rewrite (Z.mod_small p) by lia. rewrite Z.shiftr_div_pow2, Z.shiftl_mul_pow2 by lia.
    pose proof (Z.div_mod p (2 ^ 13) ltac:(lia)). rewrite wrap_small by (unfold in_width; lia). lia.
  - intros v e. by eexists.
Qed.

#[export] Instance X86Laws : TlbEntryLaws X86Entry (λ _, True).
Proof. split; [done|]. intros v e. by eexists. Qed.

#[export] Instance MipsLaws junk : @TlbEntryLaws MipsEntry (MipsTlbEntry junk) (λ _, True).
Proof. split; [done|]. intros v e. by eexists. Qed.

Section table.
Context {E : Type} `{!TlbEntry E} {phys_ok : Z → Prop} `{!TlbEntryLaws E phys_ok}.
Implicit Types (t : FuncPageTable E).

(** ** The cache agrees with the table *)

Definition agrees (m : gmap Z E) (c : cacheElement E) : Prop := valid c = true → m !! vaddr c = Some (entry c).
Definition apart (c c' : cacheElement E) : Prop := valid c = true → valid c' = true → vaddr c ≠ vaddr c'.

Definition coherent t : Prop :=
  let '(c0, c1, c2) := pTableCache t in
  (agrees (pTable t) c0 ∧ agrees (pTable t) c1 ∧ agrees (pTable t) c2) ∧ (apart c0 c1 ∧ apart c0 c2 ∧ apart c1 c2).

Definition uncached (va : Z) t : Prop := let '(c0, c1, c2) := pTableCache t in hit va c0 = false ∧ hit va c1 = false ∧ hit va c2 = false.

Lemma hit_true va (c : cacheElement E) : hit va c = true ↔ valid c = true ∧ vaddr c = va.
Proof. unfold hit. by rewrite andb_true_iff, Z.eqb_eq. Qed.

Lemma hit_false va (c : cacheElement E) : hit va c = false ↔ (valid c = true → vaddr c ≠ va).
Proof. unfold hit. rewrite andb_false_iff, Z.eqb_neq. destruct (valid c); naive_solver. Qed.

Lemma agrees_other m m' va (c : cacheElement E) : agrees m c → hit va c = false → (∀ x, x ≠ va → m' !! x = m !! x) → agrees m' c.
Proof. intros Ha Hh Hm Hv. rewrite hit_false in Hh. rewrite Hm by auto. by apply Ha. Qed.

Lemma agrees_invalid m (c : cacheElement E) : agrees m (invalidate c).
Proof. done. Qed.

(** After a change of the table at [va] only, erasing [va] makes the cache agree again. *)
Lemma erase_coherent va m t : coherent t → (∀ x, x ≠ va → m !! x = pTable t !! x) → coherent (eraseCacheEntry va (with_pTable m t)) ∧ uncached va (eraseCacheEntry va (with_pTable m t)).
Proof.
  destruct t as [[[c0 c1] c2] ps om pd tb]. unfold coherent, uncached, eraseCacheEntry. cbn. intros [(A0 & A1 & A2) (P01 & P02 & P12)] Hm.
  assert (∀ c c', apart c c' → hit va c = true → hit va c' = false) as Hap by (intros c c' Hp [Hv Ha]%hit_true; apply hit_false; intros Hv' Ha'; apply Hp; [done|done|congruence]).
  assert (∀ c c' : cacheElement E, apart c c' → apart (invalidate c) c' ∧ apart c (invalidate c')) as Hinv by (by intros c c' Hp; split).
  destruct (hit va c0) eqn:H0; [|destruct (hit va c1) eqn:H1; [|destruct (hit va c2) eqn:H2]]; cbn; split_and!;
    try apply agrees_invalid; try (by eapply agrees_other; eauto); try (by apply Hinv); try done; eauto.
Qed.

Lemma update_coherent va e t : coherent t → uncached va t → pTable t !! va = Some e → coherent (updateCache va e t).
Proof.
  destruct t as [[[c0 c1] c2] ps om pd tb]. unfold coherent, uncached, updateCache. cbn. intros [(A0 & A1 & A2) (P01 & P02 & P12)] (H0 & H1 & H2) He.
  rewrite hit_false in H0, H1, H2. split_and!; try done; [by intros _|intros _ Hv; cbn; apply not_eq_sym; auto..].
Qed.

Lemma coherent_uncached va t : coherent t → pTable t !! va = None → uncached va t.
Proof.
  destruct t as [[[c0 c1] c2] ps om pd tb]. unfold coherent, uncached. cbn. intros [(A0 & A1 & A2) _] Hn.
  split_and!; apply hit_false; intros Hv Ha; [specialize (A0 Hv)|specialize (A1 Hv)|specialize (A2 Hv)]; congruence.
Qed.

Lemma erase_uncached va va' m t : uncached va t → uncached va (eraseCacheEntry va' (with_pTable m t)).
Proof.
  destruct t as [[[c0 c1] c2] ps om pd tb]. unfold uncached, eraseCacheEntry. cbn. intros (H0 & H1 & H2).
  assert (∀ c : cacheElement E, hit va (invalidate c) = false) by done. destruct (hit va' c0), (hit va' c1), (hit va' c2); done.
Qed.

Lemma erase_fields va m t : pTable (eraseCacheEntry va (with_pTable m t)) = m ∧ pageSize (eraseCacheEntry va (with_pTable m t)) = pageSize t ∧
  offsetMask (eraseCacheEntry va (with_pTable m t)) = offsetMask t ∧ pid (eraseCacheEntry va (with_pTable m t)) = pid t.
Proof. destruct t as [[[c0 c1] c2] ps om pd tb]. done. Qed.

Lemma update_fields va e t : pTable (updateCache va e t) = pTable t ∧ pageSize (updateCache va e t) = pageSize t ∧ offsetMask (updateCache va e t) = offsetMask t ∧ pid (updateCache va e t) = pid t.
Proof. destruct t as [[[c0 c1] c2] ps om pd tb]. done. Qed.

Lemma lookup_correct va t : coherent t →
  (lookup va t).1 = pTable t !! pageAlign t va ∧ coherent (lookup va t).2 ∧ pTable (lookup va t).2 = pTable t ∧ pageSize (lookup va t).2 = pageSize t ∧ offsetMask (lookup va t).2 = offsetMask t.
Proof.
  intros Hc. pose proof (coherent_uncached (pageAlign t va) t Hc) as Hu. pose proof (update_coherent (pageAlign t va)) as Hup.
  destruct t as [[[c0 c1] c2] ps om pd tb]. unfold lookup. cbn [pTableCache pTable] in *. unfold coherent in Hc; cbn in Hc. destruct Hc as [(A0 & A1 & A2) Hp].
  set (pa := pageAlign _ va) in *. destruct (hit pa c0) eqn:H0; [|destruct (hit pa c1) eqn:H1; [|destruct (hit pa c2) eqn:H2]].
  - apply hit_true in H0 as [Hv <-]. split; [by rewrite A0|done].
  - apply hit_true in H1 as [Hv <-]. split; [by rewrite A1|done].
  - apply hit_true in H2 as [Hv <-]. split; [by rewrite A2|done].
  - destruct (tb !! pa) as [e|] eqn:He; [|done]. split; [done|]. split; [|done]. by apply Hup.
Qed.

(** ** Pages *)

Record wf (k : Z) t : Prop := {
  wf_k : 0 ≤ k < 64;
  wf_size : pageSize t = 2 ^ k;
  wf_mask : offsetMask t = Z.ones k;
  wf_cache : coherent t
}.

Lemma pageAlign_eq k t a : wf k t → in_width 64 a → pageAlign t a = 2 ^ k * (a / 2 ^ k).
Proof. intros Hw Ha. unfold pageAlign. rewrite (wf_mask _ _ Hw). apply bnot_ones; [pose proof (wf_k _ _ Hw); lia|done]. Qed.

Lemma pageOffset_eq k t a : wf k t → pageOffset t a = a mod 2 ^ k.
Proof. intros Hw. unfold pageOffset. rewrite (wf_mask _ _ Hw). apply Z.land_ones. apply (wf_k _ _ Hw). Qed.

(** [n] pages cover [size] bytes. *)
Definition covers (P size : Z) (n : nat) : Prop := (Z.of_nat n - 1) * P < size ≤ Z.of_nat n * P.

Lemma pages_covers k t size : wf k t → 0 ≤ size → covers (2 ^ k) size (pages t size).
Proof.
  intros Hw Hs. unfold covers, pages. rewrite (wf_size _ _ Hw). pose proof (wf_k _ _ Hw). assert (0 < 2 ^ k) as HP by lia. set (P := 2 ^ k) in *. clearbody P.
  pose proof (Z.div_mod (size + P - 1) P ltac:(lia)). pose proof (Z.mod_pos_bound (size + P - 1) P HP). assert (0 ≤ (size + P - 1) / P) by (apply Z.div_pos; lia).
  rewrite Z2Nat.id by lia. nia.
Qed.

Lemma s64_small x : - 2 ^ 63 ≤ x < 2 ^ 63 → s64 x = x.
Proof.
  intros Hx. unfold s64. destruct (decide (0 ≤ x)) as [H0|H0].
  - rewrite wrap_small by (unfold in_width; lia). by rewrite (proj2 (Z.ltb_lt x (2 ^ 63))) by lia.
  - assert (u64 x = x + 2 ^ 64) as ->; [|rewrite (proj2 (Z.ltb_ge (x + 2 ^ 64) (2 ^ 63))); lia].
    unfold wrap. symmetry. apply (Z.mod_unique_pos _ _ (-1)); lia.
Qed.

Lemma covers_step k size n : 0 ≤ k < 64 → covers (2 ^ k) size (S n) → size < 2 ^ 63 → s64 (size - 2 ^ k) = size - 2 ^ k ∧ covers (2 ^ k) (size - 2 ^ k) n ∧ (0 <? size) = true.
Proof.
  intros Hk Hc Hs. unfold covers in *. assert (0 < 2 ^ k) by lia. assert (2 ^ k ≤ 2 ^ 63) by (apply Z.pow_le_mono_r; lia).
  rewrite s64_small by nia. split_and!; [done|nia|nia|]. apply Z.ltb_lt. nia.
Qed.

Lemma covers_done k size : covers (2 ^ k) size 0 → (0 <? size) = false.
Proof. intros [_ Hc]. apply Z.ltb_ge. lia. Qed.

(** An aligned address in a region, and the pages of the region. *)
Definition inside (P va : Z) (n : nat) (p : Z) : Prop := va ≤ p < va + Z.of_nat n * P.
#[local] Instance inside_dec P va n p : Decision (inside P va n p).
Proof. apply _. Defined.
Definition aligned (k p : Z) : Prop := p mod 2 ^ k = 0.

Lemma aligned_step k va : 0 ≤ k → aligned k va → aligned k (va + 2 ^ k).
Proof. unfold aligned. intros Hk Ha. by rewrite <- (Z.mul_1_l (2 ^ k)) at 1; rewrite Z.mod_add by lia. Qed.

Lemma inside_S k va n p : 0 ≤ k → aligned k va → aligned k p → inside (2 ^ k) va (S n) p ↔ p = va ∨ inside (2 ^ k) (va + 2 ^ k) n p.
Proof.
  unfold aligned, inside. intros Hk Ha Hp. assert (0 < 2 ^ k) as HP by lia. set (P := 2 ^ k) in *. clearbody P.
  pose proof (Z.div_mod va P ltac:(lia)) as Hva. pose proof (Z.div_mod p P ltac:(lia)) as Hpp. rewrite Ha in Hva. rewrite Hp in Hpp.
  set (x := va / P) in *. set (y := p / P) in *. clearbody x y. split; [|nia]. intros H. destruct (decide (y = x)) as [->|Hne]; [left; lia|right].
  assert (x < y) by nia. nia.
Qed.

(** ** The loops *)

Definition same_shape t t' : Prop := pageSize t' = pageSize t ∧ offsetMask t' = offsetMask t ∧ pid t' = pid t.

Lemma wf_shape k t t' : wf k t → same_shape t t' → coherent t' → wf k t'.
Proof. intros [H1 H2 H3 H4] (S1 & S2 & S3) Hc. split; congruence || done. Qed.

Lemma map_loop_spec k n va pa size flags t :
  wf k t → covers (2 ^ k) size n → size < 2 ^ 63 → aligned k va → 0 ≤ va → va + Z.of_nat n * 2 ^ k < 2 ^ 64 → 0 ≤ pa → pa + Z.of_nat n * 2 ^ k < 2 ^ 64 →
  (Z.land flags Clobber ≠ 0 ∨ ∀ p, aligned k p → inside (2 ^ k) va n p → pTable t !! p = None) →
  ∃ t', map_loop n va pa size flags t = Ok t' ∧ wf k t' ∧ same_shape t t' ∧
    ∀ p, aligned k p → pTable t' !! p = if decide (inside (2 ^ k) va n p)
      then Some (newEntry (pid t) p (pa + (p - va)) (negb (Z.land flags Uncacheable =? 0)) (negb (Z.land flags ReadOnly =? 0))) else pTable t !! p.
Proof.
  revert va pa size t. induction n as [|n IH]; intros va pa size t Hw Hc Hs Ha H0 Hva Hp0 Hpa Hfree.
  { cbn [map_loop]. rewrite (covers_done _ _ Hc). exists t. split_and!; try done. intros p Hp. by rewrite decide_False by (unfold inside; lia). }
  pose proof (wf_k _ _ Hw) as Hk. assert (0 < 2 ^ k) as HP by lia. destruct (covers_step k size n Hk Hc Hs) as (Hs' & Hc' & Hlt). cbn [map_loop]. rewrite Hlt.
  assert ((Z.land flags Clobber =? 0) && bool_decide (is_Some (pTable t !! va)) = false) as ->.
  { apply andb_false_iff. destruct Hfree as [Hf|Hf]; [left; by apply Z.eqb_neq|right]. apply bool_decide_eq_false. rewrite Hf; [by intros [? ?]|done|unfold inside; nia]. }
  set (e := newEntry (pid t) va pa _ _). set (m := <[va := e]> (pTable t)). set (t1 := updateCache va e _).
  destruct (erase_coherent va m t) as [Hco Hun]; [apply Hw|intros x Hx; unfold m; by rewrite lookup_insert_ne by done|].
  destruct (erase_fields va m t) as (F1 & F2 & F3 & F4). destruct (update_fields va e (eraseCacheEntry va (with_pTable m t))) as (G1 & G2 & G3 & G4). fold t1 in G1, G2, G3, G4.
  assert (same_shape t t1) as Hsh by (split_and!; congruence). assert (pTable t1 = m) as Hm by congruence.
  assert (coherent t1) as Hc1 by (apply update_coherent; [done|done|rewrite F1; apply lookup_insert_eq]).
  destruct Hsh as (S1 & S2 & S3). rewrite S1, (wf_size _ _ Hw), Hs'. rewrite !wrap_small by (unfold in_width; nia).
  destruct (IH (va + 2 ^ k) (pa + 2 ^ k) (size - 2 ^ k) t1) as (t' & Hrun & Hw' & (S1' & S2' & S3') & Htab); try nia; try done.
  - eapply wf_shape; [exact Hw|done|done].
  - by apply aligned_step; [lia|].
  - destruct Hfree as [Hf|Hf]; [by left|right]. intros p Hp Hin. rewrite Hm. unfold m. unfold inside in Hin. rewrite lookup_insert_ne by lia. apply Hf; [done|]. unfold inside. nia.
  - exists t'. split_and!; try done; [split_and!; congruence|]. intros p Hp. rewrite Htab, Hm, S3 by done. unfold m.
    pose proof (inside_S k va n p ltac:(lia) Ha Hp) as Hin. destruct (decide (p = va)) as [->|Hne].
    + rewrite decide_False by (unfold inside; lia). rewrite lookup_insert_eq, decide_True by (apply Hin; by left). unfold e. do 2 f_equal. lia.
    + rewrite lookup_insert_ne by done. destruct (decide (inside (2 ^ k) (va + 2 ^ k) n p)); [rewrite decide_True by (apply Hin; by right)|rewrite decide_False by (rewrite Hin; naive_solver)]; [do 2 f_equal; lia|done].
Qed.

Lemma unmap_loop_spec k n va size t :
  wf k t → covers (2 ^ k) size n → size < 2 ^ 63 → aligned k va → 0 ≤ va → va + Z.of_nat n * 2 ^ k < 2 ^ 64 →
  (∀ p, aligned k p → inside (2 ^ k) va n p → is_Some (pTable t !! p)) →
  ∃ t', unmap_loop n va size t = Ok t' ∧ wf k t' ∧ same_shape t t' ∧ ∀ p, aligned k p → pTable t' !! p = if decide (inside (2 ^ k) va n p) then None else pTable t !! p.
Proof.
  revert va size t. induction n as [|n IH]; intros va size t Hw Hc Hs Ha H0 Hva Hmap.
  { cbn [unmap_loop]. rewrite (covers_done _ _ Hc). exists t. split_and!; try done. intros p Hp. by rewrite decide_False by (unfold inside; lia). }
  pose proof (wf_k _ _ Hw) as Hk. assert (0 < 2 ^ k) as HP by lia. destruct (covers_step k size n Hk Hc Hs) as (Hs' & Hc' & Hlt). cbn [unmap_loop]. rewrite Hlt.
  rewrite (bool_decide_true (is_Some (pTable t !! va))) by (apply Hmap; [done|unfold inside; nia]). cbn [assert_ mbind res_bind].
  set (m := delete va (pTable t)). destruct (erase_coherent va m t) as [Hco _]; [apply Hw|intros x Hx; unfold m; by rewrite lookup_delete_ne by done|].
  destruct (erase_fields va m t) as (F1 & F2 & F3 & F4). set (t1 := eraseCacheEntry va (with_pTable m t)) in *.
  rewrite F2, (wf_size _ _ Hw), Hs'. rewrite !wrap_small by (unfold in_width; nia).
  destruct (IH (va + 2 ^ k) (size - 2 ^ k) t1) as (t' & Hrun & Hw' & (S1' & S2' & S3') & Htab); try nia; try done.
  - by eapply wf_shape; [exact Hw|split_and!|].
  - by apply aligned_step; [lia|].
  - intros p Hp Hin. rewrite F1. unfold m. unfold inside in Hin. rewrite lookup_delete_ne by lia. apply Hmap; [done|]. unfold inside. nia.
  - exists t'. split_and!; try done; [split_and!; congruence|]. intros p Hp. rewrite Htab, F1 by done. unfold m.
    pose proof (inside_S k va n p ltac:(lia) Ha Hp) as Hin. destruct (decide (p = va)) as [->|Hne].
    + rewrite lookup_delete_eq. rewrite (decide_True (P := inside (2 ^ k) va (S n) va)) by (apply Hin; by left). by case_decide.
    + rewrite lookup_delete_ne by done. destruct (decide (inside (2 ^ k) (va + 2 ^ k) n p)); [rewrite decide_True by (apply Hin; by right)|rewrite decide_False by (rewrite Hin; naive_solver)]; done.
Qed.

(** One page moved to an unmapped one. *)
Lemma remap_page_spec k va new_va e t :
  wf k t → pTable t !! va = Some e → pTable t !! new_va = None →
  ∃ e' t', remap_page va new_va t = Ok t' ∧ wf k t' ∧ same_shape t t' ∧ pageStart e' = pageStart e ∧ pTable t' = <[new_va := e']> (delete va (pTable t)).
Proof.
  intros Hw He Hn. assert (va ≠ new_va) as Hne by congruence. destruct (start_moved new_va e) as (e' & He' & Hst). exists e'.
  set (m := delete va (<[new_va := e]> (pTable t))). set (m' := <[new_va := e']> m).
  assert (m' = <[new_va := e']> (delete va (pTable t))) as Hm' by (unfold m', m; rewrite delete_insert_ne by done; by rewrite insert_insert_eq).
  unfold remap_page, at_. rewrite (bool_decide_true (is_Some (pTable t !! va))) by (rewrite He; eauto). cbn [assert_ mbind res_bind]. rewrite He. cbn [default from_option id]. fold m.
  destruct (erase_fields va m t) as (F1 & F2 & F3 & F4). rewrite F1. assert (m !! new_va = Some e) as -> by (unfold m; rewrite lookup_delete_ne by done; apply lookup_insert_eq).
  cbn [default from_option id]. rewrite He'. cbn [mbind res_bind]. fold m'. eexists. split; [done|].
  set (t2 := with_pTable m' (eraseCacheEntry va (with_pTable m t))). destruct (update_fields new_va e' t2) as (G1 & G2 & G3 & G4).
  assert (same_shape t (updateCache new_va e' t2)) as Hsh by (split_and!; rewrite ?G2, ?G3, ?G4; done).
  split_and!; try done; [|rewrite G1; exact Hm'].
  assert (t2 = eraseCacheEntry va (with_pTable m' t)) as Ht2 by (unfold t2; destruct t as [[[c0 c1] c2] ps om pd tb]; done).
  apply (wf_shape k t); [done|done|]. apply update_coherent.
  - pose proof (wf_cache _ _ Hw) as Hc. pose proof (coherent_uncached new_va t Hc Hn) as Hun.
    destruct (erase_coherent va (delete va (pTable t)) t Hc) as [Hc1 _]; [intros x Hx; by rewrite lookup_delete_ne|].
    pose proof (erase_uncached new_va va (delete va (pTable t)) t Hun) as Hun1. rewrite Ht2, Hm'.
    clear -Hc1 Hun1. destruct t as [[[c0 c1] c2] ps om pd tb]. unfold coherent, uncached, eraseCacheEntry in *. cbn in *.
    destruct (if hit va c0 then _ else _) as [[d0 d1] d2]. cbn in *. destruct Hc1 as [(A0 & A1 & A2) HP], Hun1 as (U0 & U1 & U2).
    split; [|done]. assert (∀ c, agrees (delete va tb) c → hit new_va c = false → agrees (<[new_va := e']> (delete va tb)) c) as Hag; [|by split_and!; apply Hag].
    intros c Hag Hh. eapply agrees_other; [exact Hag|exact Hh|]. intros x Hx. by rewrite lookup_insert_ne.
  - rewrite Ht2. apply erase_uncached. apply coherent_uncached; [apply Hw|done].
  - cbn. unfold m'. apply lookup_insert_eq.
Qed.

Lemma remap_loop_spec k n va size new_va t :
  wf k t → covers (2 ^ k) size n → size < 2 ^ 63 → aligned k va → aligned k new_va → 0 ≤ va → 0 ≤ new_va →
  va + Z.of_nat n * 2 ^ k < 2 ^ 64 → new_va + Z.of_nat n * 2 ^ k < 2 ^ 64 →
  (∀ p, aligned k p → inside (2 ^ k) va n p → is_Some (pTable t !! p)) → (∀ p, aligned k p → inside (2 ^ k) new_va n p → pTable t !! p = None) →
  ∃ t', remap_loop n va size new_va t = Ok t' ∧ wf k t' ∧ same_shape t t' ∧
    ∀ p, aligned k p → pageStart <$> pTable t' !! p = if decide (inside (2 ^ k) new_va n p) then pageStart <$> pTable t !! (p - new_va + va)
      else if decide (inside (2 ^ k) va n p) then None else pageStart <$> pTable t !! p.
Proof.
  revert va size new_va t. induction n as [|n IH]; intros va size new_va t Hw Hc Hs Ha Hb H0 Hb0 Hva Hnva Hmap Hfree.
  { cbn [remap_loop]. rewrite (covers_done _ _ Hc). exists t. split_and!; try done. intros p Hp. by rewrite !decide_False by (unfold inside; lia). }
  pose proof (wf_k _ _ Hw) as Hk. assert (0 < 2 ^ k) as HP by lia. destruct (covers_step k size n Hk Hc Hs) as (Hs' & Hc' & Hlt). cbn [remap_loop]. rewrite Hlt.
  destruct (Hmap va Ha ltac:(unfold inside; nia)) as (e & He). pose proof (Hfree new_va Hb ltac:(unfold inside; nia)) as Hn.
  destruct (remap_page_spec k va new_va e t Hw He Hn) as (e' & t1 & -> & Hw1 & (S1 & S2 & S3) & Hst & Ht1). cbn [mbind res_bind].
  rewrite S1, (wf_size _ _ Hw), Hs'. rewrite !wrap_small by (unfold in_width; nia).
  assert (∀ p, aligned k p → inside (2 ^ k) va (S n) p → inside (2 ^ k) new_va (S n) p → False) as Hdis by (intros p Hp H1 H2; destruct (Hmap p Hp H1); rewrite Hfree in *; done).
  assert (∀ p, aligned k p → inside (2 ^ k) va (S n) p ↔ p = va ∨ inside (2 ^ k) (va + 2 ^ k) n p) as Hin1 by (intros; apply inside_S; (done || lia)).
  assert (∀ p, aligned k p → inside (2 ^ k) new_va (S n) p ↔ p = new_va ∨ inside (2 ^ k) (new_va + 2 ^ k) n p) as Hin2 by (intros; apply inside_S; (done || lia)).
  destruct (IH (va + 2 ^ k) (size - 2 ^ k) (new_va + 2 ^ k) t1) as (t' & Hrun & Hw' & (S1' & S2' & S3') & Htab); try nia; try done; try (by apply aligned_step; [lia|]).
  - intros p Hp Hin. rewrite Ht1. destruct (decide (p = new_va)) as [->|Hpn]; [rewrite lookup_insert_eq; eauto|].
    rewrite lookup_insert_ne, lookup_delete_ne by (done || (unfold inside in Hin; lia)). apply Hmap; [done|]. apply Hin1; [done|by right].
  - intros p Hp Hin. rewrite Ht1. rewrite lookup_insert_ne by (unfold inside in Hin; lia). apply lookup_delete_None. right. apply Hfree; [done|]. apply Hin2; [done|by right].
  - exists t'. split_and!; try done; [split_and!; congruence|]. intros p Hp. rewrite Htab by done.
    replace (p - (new_va + 2 ^ k) + (va + 2 ^ k)) with (p - new_va + va) by lia. destruct (decide (inside (2 ^ k) (new_va + 2 ^ k) n p)) as [Hi|Hi].
    + rewrite (decide_True (P := inside (2 ^ k) new_va (S n) p)) by (apply Hin2; [done|by right]). rewrite Ht1.
      unfold inside in Hi. assert (p - new_va + va ≠ va) by lia.
      assert (p - new_va + va ≠ new_va) as Hq.
      { intros Hq. apply (Hdis new_va Hb); [rewrite <- Hq; unfold inside; nia|apply Hin2; [done|by left]]. }
      by rewrite lookup_insert_ne, lookup_delete_ne by done.
    + destruct (decide (p = new_va)) as [->|Hpn].
      * rewrite (decide_True (P := inside (2 ^ k) new_va (S n) new_va)) by (apply Hin2; [done|by left]).
        rewrite decide_False by (intros Hx; apply (Hdis new_va Hb); [apply Hin1; [done|by right]|apply Hin2; [done|by left]]).
        rewrite Ht1, lookup_insert_eq. replace (new_va - new_va + va) with va by lia. rewrite He. cbn. by rewrite Hst.
      * rewrite (decide_False (P := inside (2 ^ k) new_va (S n) p)) by (rewrite Hin2 by done; naive_solver). rewrite Ht1, lookup_insert_ne by done.
        destruct (decide (p = va)) as [->|Hpv].
        -- rewrite (decide_True (P := inside (2 ^ k) va (S n) va)) by (apply Hin1; [done|by left]). rewrite lookup_delete_eq. by case_decide.
        -- rewrite lookup_delete_ne by done. destruct (decide (inside (2 ^ k) (va + 2 ^ k) n p)) as [Hj|Hj];
             [rewrite decide_True by (apply Hin1; [done|by right]); done|rewrite decide_False by (rewrite Hin1 by done; naive_solver); done].
Qed.

Lemma isUnmapped_loop_spec k n va size t :
  wf k t → covers (2 ^ k) size n → size < 2 ^ 63 → aligned k va → 0 ≤ va → va + Z.of_nat n * 2 ^ k < 2 ^ 64 →
  ∃ b, isUnmapped_loop n va size t = Ok b ∧ (b = true ↔ ∀ p, aligned k p → inside (2 ^ k) va n p → pTable t !! p = None).
Proof.
  revert va size. induction n as [|n IH]; intros va size Hw Hc Hs Ha H0 Hva.
  { cbn [isUnmapped_loop]. rewrite (covers_done _ _ Hc). exists true. split; [done|]. split; [|done]. intros _ p Hp Hi. unfold inside in Hi. lia. }
  pose proof (wf_k _ _ Hw) as Hk. assert (0 < 2 ^ k) as HP by lia. destruct (covers_step k size n Hk Hc Hs) as (Hs' & Hc' & Hlt). cbn [isUnmapped_loop]. rewrite Hlt.
  assert (∀ p, aligned k p → inside (2 ^ k) va (S n) p ↔ p = va ∨ inside (2 ^ k) (va + 2 ^ k) n p) as Hin by (intros; apply inside_S; (done || lia)).
  case_bool_decide as Hm.
  - exists false. split; [done|]. split; [done|]. intros Hall. rewrite Hall in Hm; [by destruct Hm|done|apply Hin; [done|by left]].
  - rewrite (wf_size _ _ Hw), Hs', wrap_small by (unfold in_width; nia).
    destruct (IH (va + 2 ^ k) (size - 2 ^ k)) as (b & -> & Hb); try nia; try done; [by apply aligned_step; [lia|]|]. exists b. split; [done|]. rewrite Hb. split.
    + intros Hall p Hp [->|Hi]%Hin; [by apply eq_None_not_Some|auto|done].
    + intros Hall p Hp Hi. apply Hall; [done|]. apply Hin; [done|by right].
Qed.

(** ** The translation a table stands for *)

Abbreviation Translation := (Z → option Z).

(** The bytes of the pages of a region. *)
Definition len (k size : Z) : Z := Z.of_nat (Z.to_nat ((size + 2 ^ k - 1) / 2 ^ k)) * 2 ^ k.
Definition within (va l a : Z) : bool := (va <=? a) && (a <? va + l).

Inductive Op :=
  | Map (va pa size flags : Z)
  | Remap (va size new_va : Z)
  | Unmap (va size : Z)
  | IsUnmapped (va size : Z)
  | Translate (a : Z).

Inductive Out :=
  | Done
  | Free (b : bool)
  | Paddr (p : option Z).

Definition region_ok (k va size : Z) : Prop := aligned k va ∧ 0 ≤ va ∧ va + len k size < 2 ^ 64 ∧ 0 ≤ size < 2 ^ 63.

(** What an operation does to the translation; a page is not moved onto a mapped one, and only
    mapped pages are moved or unmapped. *)
Inductive spec_step (k : Z) : Op → Translation → Out → Translation → Prop :=
  | spec_map f va pa size flags :
      region_ok k va size → region_ok k pa size → (∀ p, aligned k p → within pa (len k size) p = true → phys_ok p) →
      (Z.land flags Clobber ≠ 0 ∨ ∀ a, within va (len k size) a = true → f a = None) →
      spec_step k (Map va pa size flags) f Done (λ a, if within va (len k size) a then Some (pa + (a - va)) else f a)
  | spec_remap f va size new_va :
      region_ok k va size → region_ok k new_va size →
      (∀ a, within va (len k size) a = true → is_Some (f a)) → (∀ a, within new_va (len k size) a = true → f a = None) →
      spec_step k (Remap va size new_va) f Done
        (λ a, if within new_va (len k size) a then f (a - new_va + va) else if within va (len k size) a then None else f a)
  | spec_unmap f va size :
      region_ok k va size → (∀ a, within va (len k size) a = true → is_Some (f a)) →
      spec_step k (Unmap va size) f Done (λ a, if within va (len k size) a then None else f a)
  | spec_isUnmapped f va size b :
      region_ok k va size → (b = true ↔ ∀ a, within va (len k size) a = true → f a = None) →
      spec_step k (IsUnmapped va size) f (Free b) f
  | spec_translate f a : in_width 64 a → spec_step k (Translate a) f (Paddr (f a)) f.

Inductive spec_run (k : Z) : list Op → Translation → list Out → Prop :=
  | spec_nil f : spec_run k [] f []
  | spec_cons op ops f o f' os : spec_step k op f o f' → spec_run k ops f' os → spec_run k (op :: ops) f (o :: os).

Definition exec (op : Op) t : res (Out * FuncPageTable E) :=
  match op with
  | Map va pa size flags => t ← map va pa size flags t; Ok (Done, t)
  | Remap va size new_va => t ← remap va size new_va t; Ok (Done, t)
  | Unmap va size => t ← unmap va size t; Ok (Done, t)
  | IsUnmapped va size => b ← isUnmapped va size t; Ok (Free b, t)
  | Translate a => let '(p, t) := translate a t in Ok (Paddr p, t)
  end.

Fixpoint run (ops : list Op) t : res (list Out) :=
  match ops with
  | [] => Ok []
  | op :: ops => '(o, t) ← exec op t; os ← run ops t; Ok (o :: os)
  end.

Record rel (k : Z) t (f : Translation) : Prop := {
  rel_wf : wf k t;
  rel_tr : ∀ a, in_width 64 a → f a = Z.add (a mod 2 ^ k) <$> (pageStart <$> pTable t !! (2 ^ k * (a / 2 ^ k)));
  rel_phys : ∀ p s, aligned k p → pageStart <$> pTable t !! p = Some s → 0 ≤ s ∧ s + 2 ^ k ≤ 2 ^ 64
}.

Lemma page_aligned k a : 0 ≤ k → aligned k (2 ^ k * (a / 2 ^ k)).
Proof. intros Hk. unfold aligned. rewrite Z.mul_comm. apply Z.mod_mul. lia. Qed.

Lemma page_of_aligned k p : 0 ≤ k → aligned k p → 2 ^ k * (p / 2 ^ k) = p ∧ p mod 2 ^ k = 0.
Proof. intros Hk Hp. split; [|done]. pose proof (Z.div_mod p (2 ^ k) ltac:(lia)). unfold aligned in Hp. lia. Qed.

(** An address is in a region with its page. *)
Lemma within_page k va size a : 0 ≤ k → aligned k va →
  within va (len k size) a = true ↔ inside (2 ^ k) va (Z.to_nat ((size + 2 ^ k - 1) / 2 ^ k)) (2 ^ k * (a / 2 ^ k)).
Proof.
  intros Hk Ha. unfold within, inside, len. rewrite andb_true_iff, Z.leb_le, Z.ltb_lt. destruct (page_of_aligned k va Hk Ha) as [Hva _].
  assert (0 < 2 ^ k) as HP by lia. pose proof (Z.div_mod a (2 ^ k) ltac:(lia)). pose proof (Z.mod_pos_bound a (2 ^ k) HP). set (n := Z.to_nat _). clearbody n. set (P := 2 ^ k) in *. clearbody P.
  set (x := va / P) in *. set (y := a / P) in *. set (r := a mod P) in *. clearbody x y r.
  assert ((va ≤ a ∧ a < va + Z.of_nat n * P) ↔ x ≤ y < x + Z.of_nat n) as -> by (split; intros; nia). nia.
Qed.

Lemma within_aligned k va size p : 0 ≤ k → aligned k va → aligned k p →
  within va (len k size) p = true ↔ inside (2 ^ k) va (Z.to_nat ((size + 2 ^ k - 1) / 2 ^ k)) p.
Proof. intros Hk Ha Hp. rewrite (within_page k va size p Hk Ha). by rewrite (proj1 (page_of_aligned k p Hk Hp)). Qed.

Lemma within_width va l a : 0 ≤ va → va + l < 2 ^ 64 → within va l a = true → in_width 64 a.
Proof. unfold within, in_width. intros H1 H2. rewrite andb_true_iff, Z.leb_le, Z.ltb_lt. lia. Qed.

(** The table at a page, from the translation. *)
Lemma rel_none k t f p : rel k t f → aligned k p → in_width 64 p → f p = None → pTable t !! p = None.
Proof.
  intros [Hw Hr _] Hp Hi Hn. destruct (page_of_aligned k p ltac:(apply (wf_k _ _ Hw)) Hp) as [Hpp _]. rewrite Hr, Hpp in Hn by done. by destruct (pTable t !! p).
Qed.

Lemma rel_some k t f p : rel k t f → aligned k p → in_width 64 p → is_Some (f p) → is_Some (pTable t !! p).
Proof.
  intros [Hw Hr _] Hp Hi Hs. destruct (page_of_aligned k p ltac:(apply (wf_k _ _ Hw)) Hp) as [Hpp _]. rewrite Hr, Hpp in Hs by done. destruct (pTable t !! p); [done|by destruct Hs].
Qed.

Lemma region_facts k t va size : wf k t → region_ok k va size →
  assert_ (pageOffset t va =? 0) = Ok tt ∧ covers (2 ^ k) size (pages t size) ∧ pages t size = Z.to_nat ((size + 2 ^ k - 1) / 2 ^ k) ∧ va + Z.of_nat (pages t size) * 2 ^ k < 2 ^ 64.
Proof.
  intros Hw (Ha & H0 & Hl & Hs). rewrite (pageOffset_eq k) by done. rewrite Ha. split; [done|]. split; [by apply pages_covers; [|lia]|].
  unfold pages. rewrite (wf_size _ _ Hw). split; [done|]. exact Hl.
Qed.

(** ** Each operation *)

Lemma map_rel k t f va pa size flags :
  rel k t f → region_ok k va size → region_ok k pa size → (∀ p, aligned k p → within pa (len k size) p = true → phys_ok p) →
  (Z.land flags Clobber ≠ 0 ∨ ∀ a, within va (len k size) a = true → f a = None) →
  ∃ t', map va pa size flags t = Ok t' ∧ rel k t' (λ a, if within va (len k size) a then Some (pa + (a - va)) else f a).
Proof.
  intros Hr Hva Hpa Hph Hfree. pose proof (rel_wf _ _ _ Hr) as Hw. pose proof (wf_k _ _ Hw) as Hk. destruct (region_facts k t va size Hw Hva) as (Has & Hcov & Hn & Hlen).
  destruct Hva as (Ha & H0 & Hl & Hs), Hpa as (Hpa & Hp0 & Hpl & _). unfold map. rewrite Has. cbn [mbind res_bind].
  assert (pa + Z.of_nat (pages t size) * 2 ^ k < 2 ^ 64) as Hpl' by (rewrite Hn; exact Hpl).
  destruct (map_loop_spec k (pages t size) va pa size flags t) as (t' & -> & Hw' & Hsh & Htab); try done; try lia.
  { destruct Hfree as [Hf|Hf]; [by left|right]. intros p Hp Hin. rewrite Hn in Hin. rewrite <- within_aligned in Hin by (done || lia). apply (rel_none k t f); auto. by apply (within_width va (len k size)). }
  assert (∀ p, aligned k p → inside (2 ^ k) va (pages t size) p → phys_ok (pa + (p - va)) ∧ 0 ≤ pa + (p - va) ∧ pa + (p - va) + 2 ^ k ≤ 2 ^ 64) as Hphys.
  { intros p Hp Hin. assert (aligned k (pa + (p - va))) as Hal by (unfold aligned in *; rewrite Zplus_mod, Zminus_mod, Hpa, Hp, Ha; done).
    destruct (page_of_aligned k _ ltac:(lia) Hal) as [Hd _]. assert (inside (2 ^ k) pa (pages t size) (pa + (p - va))) as Hin' by (unfold inside in *; lia).
    split_and!; [|unfold inside in Hin; lia|].
    - apply Hph; [done|]. rewrite Hn in Hin'. by apply within_aligned; [lia|..].
    - destruct (page_of_aligned k pa ltac:(lia) Hpa) as [Hd' _]. unfold inside in Hin'. assert (0 < 2 ^ k) by lia.
      assert ((pa + (p - va)) / 2 ^ k < pa / 2 ^ k + Z.of_nat (pages t size)) by nia. nia. }
  exists t'. split; [done|]. split; [done| |].
  - intros a Hin. pose proof (page_aligned k a ltac:(lia)) as Hpg. rewrite Htab by done. pose proof (within_page k va size a ltac:(lia) Ha) as Hwp. rewrite <- Hn in Hwp. destruct (within va (len k size) a).
    + rewrite decide_True by (by apply Hwp). cbn. f_equal. rewrite start_new by (apply Hphys; [done|by apply Hwp]). pose proof (Z.div_mod a (2 ^ k) ltac:(lia)). lia.
    + rewrite decide_False by (intros Hx; by apply Hwp in Hx). by apply (rel_tr _ _ _ Hr).
  - intros p st Hp. rewrite Htab by done. case_decide as Hd; [|by apply (rel_phys _ _ _ Hr)]. cbn. rewrite start_new by (by apply Hphys). intros [= <-]. by apply Hphys.
Qed.

Lemma unmap_rel k t f va size :
  rel k t f → region_ok k va size → (∀ a, within va (len k size) a = true → is_Some (f a)) →
  ∃ t', unmap va size t = Ok t' ∧ rel k t' (λ a, if within va (len k size) a then None else f a).
Proof.
  intros Hr Hva Hmap. pose proof (rel_wf _ _ _ Hr) as Hw. pose proof (wf_k _ _ Hw) as Hk. destruct (region_facts k t va size Hw Hva) as (Has & Hcov & Hn & Hlen).
  destruct Hva as (Ha & H0 & Hl & Hs). unfold unmap. rewrite Has. cbn [mbind res_bind].
  destruct (unmap_loop_spec k (pages t size) va size t) as (t' & -> & Hw' & Hsh & Htab); try done; try lia.
  { intros p Hp Hin. rewrite Hn in Hin. rewrite <- within_aligned in Hin by (done || lia). apply (rel_some k t f); auto. by apply (within_width va (len k size)). }
  exists t'. split; [done|]. split; [done| |].
  - intros a Hin. rewrite Htab by (apply page_aligned; lia). pose proof (within_page k va size a ltac:(lia) Ha) as Hwp. rewrite <- Hn in Hwp. destruct (within va (len k size) a).
    + by rewrite decide_True by (by apply Hwp).
    + rewrite decide_False by (intros Hx; by apply Hwp in Hx). by apply (rel_tr _ _ _ Hr).
  - intros p st Hp. rewrite Htab by done. case_decide as Hd; [done|by apply (rel_phys _ _ _ Hr)].
Qed.

Lemma remap_rel k t f va size new_va :
  rel k t f → region_ok k va size → region_ok k new_va size →
  (∀ a, within va (len k size) a = true → is_Some (f a)) → (∀ a, within new_va (len k size) a = true → f a = None) →
  ∃ t', remap va size new_va t = Ok t' ∧ rel k t' (λ a, if within new_va (len k size) a then f (a - new_va + va) else if within va (len k size) a then None else f a).
Proof.
  intros Hr Hva Hnv Hmap Hfree. pose proof (rel_wf _ _ _ Hr) as Hw. pose proof (wf_k _ _ Hw) as Hk. destruct (region_facts k t va size Hw Hva) as (Has & Hcov & Hn & Hlen).
  destruct (region_facts k t new_va size Hw Hnv) as (Hbs & _ & _ & Hblen). destruct Hva as (Ha & H0 & Hl & Hs), Hnv as (Hb & Hb0 & Hbl & _). unfold remap. rewrite Has. cbn [mbind res_bind]. rewrite Hbs. cbn [mbind res_bind].
  destruct (remap_loop_spec k (pages t size) va size new_va t) as (t' & -> & Hw' & Hsh & Htab); try done; try lia.
  { intros p Hp Hin. rewrite Hn in Hin. rewrite <- within_aligned in Hin by (done || lia). apply (rel_some k t f); auto. by apply (within_width va (len k size)). }
  { intros p Hp Hin. rewrite Hn in Hin. rewrite <- within_aligned in Hin by (done || lia). apply (rel_none k t f); auto. by apply (within_width new_va (len k size)). }
  destruct (page_of_aligned k va ltac:(lia) Ha) as [Da _]. destruct (page_of_aligned k new_va ltac:(lia) Hb) as [Db _].
  assert (∀ a, (a - new_va + va) mod 2 ^ k = a mod 2 ^ k ∧ 2 ^ k * ((a - new_va + va) / 2 ^ k) = 2 ^ k * (a / 2 ^ k) - new_va + va) as Hsh2.
  { intros a. rewrite <- Da, <- Db. set (x := va / 2 ^ k). set (y := new_va / 2 ^ k).
    replace (a - 2 ^ k * y + 2 ^ k * x) with (a + (x - y) * 2 ^ k) by lia. rewrite Z.mod_add, Z.div_add by lia. split; lia. }
  exists t'. split; [done|]. split; [done| |].
  - intros a Hin. rewrite Htab by (apply page_aligned; lia). pose proof (within_page k va size a ltac:(lia) Ha) as Hwp. pose proof (within_page k new_va size a ltac:(lia) Hb) as Hwn. rewrite <- Hn in Hwp, Hwn.
    destruct (within new_va (len k size) a) eqn:Hwi.
    + rewrite decide_True by (by apply Hwn). rewrite (rel_tr _ _ _ Hr); [destruct (Hsh2 a) as [-> ->]; done|].
      unfold within in Hwi. rewrite andb_true_iff, Z.leb_le, Z.ltb_lt in Hwi. unfold in_width. lia.
    + rewrite decide_False by (intros Hx; by apply Hwn in Hx). destruct (within va (len k size) a).
      * by rewrite decide_True by (by apply Hwp).
      * rewrite decide_False by (intros Hx; by apply Hwp in Hx). by apply (rel_tr _ _ _ Hr).
  - intros p st Hp. rewrite Htab by done. case_decide; [|case_decide; [done|by apply (rel_phys _ _ _ Hr)]].
    apply (rel_phys _ _ _ Hr). unfold aligned in *. rewrite Zplus_mod, Zminus_mod, Ha, Hb, Hp. done.
Qed.

Lemma exec_rel k op t f o f' : rel k t f → spec_step k op f o f' → ∃ t', exec op t = Ok (o, t') ∧ rel k t' f'.
Proof.
  intros Hr Hst. pose proof (rel_wf _ _ _ Hr) as Hw. pose proof (wf_k _ _ Hw) as Hk. destruct Hst as [f va pa size flags H1 H2 H3 H4|f va size new_va H1 H2 H3 H4|f va size H1 H2|f va size b H1 H2|f a Ha]; cbn [exec].
  - destruct (map_rel k t f va pa size flags Hr H1 H2 H3 H4) as (t' & -> & Hr'). by exists t'.
  - destruct (remap_rel k t f va size new_va Hr H1 H2 H3 H4) as (t' & -> & Hr'). by exists t'.
  - destruct (unmap_rel k t f va size Hr H1 H2) as (t' & -> & Hr'). by exists t'.
  - destruct (region_facts k t va size Hw H1) as (Has & Hcov & Hn & Hlen). destruct H1 as (Ha & H0 & Hl & Hs). unfold isUnmapped. rewrite Has. cbn [mbind res_bind].
    destruct (isUnmapped_loop_spec k (pages t size) va size t) as (b' & -> & Hb'); try done; try lia. exists t. split; [|done]. cbn [mbind res_bind]. do 3 f_equal.
    apply eq_bool_prop_intro. rewrite !Is_true_true, Hb', H2. split; intros Hall.
    + intros a Hin. rewrite (rel_tr _ _ _ Hr) by (by apply (within_width va (len k size))). rewrite Hall; [done|by apply page_aligned; lia|]. rewrite Hn. by apply within_page; [lia|..].
    + intros p Hp Hin. rewrite Hn, <- within_aligned in Hin by (done || lia). apply (rel_none k t f); auto. by apply (within_width va (len k size)).
  - unfold translate. destruct (lookup_correct a t (wf_cache _ _ Hw)) as (L1 & L2 & L3 & L4 & L5). destruct (lookup a t) as [r t'] eqn:Hlk. cbn in *. subst r.
    assert (wf k t') as Hw' by (destruct Hw; split; congruence || done). exists t'. split.
    + do 3 f_equal. rewrite (rel_tr _ _ _ Hr) by done. rewrite (pageAlign_eq k) by done. rewrite (pageOffset_eq k t') by done.
      destruct (pTable t !! (2 ^ k * (a / 2 ^ k))) as [e|] eqn:He; [|done]. cbn. f_equal. apply wrap_small.
      destruct (rel_phys _ _ _ Hr (2 ^ k * (a / 2 ^ k)) (pageStart e)) as [Hs1 Hs2]; [by apply page_aligned; lia|by rewrite He|]. pose proof (Z.mod_pos_bound a (2 ^ k) ltac:(lia)). unfold in_width. lia.
    + destruct Hr as [_ R2 R3]. split; [done|by rewrite L3|by rewrite L3].
Qed.

Lemma run_rel k ops t f os : rel k t f → spec_run k ops f os → run ops t = Ok os.
Proof.
  intros Hr Hs. revert t Hr. induction Hs as [|op ops f o f' os Hst Hs IH]; intros t Hr; [done|]. cbn [run].
  destruct (exec_rel k op t f o f' Hr Hst) as (t' & -> & Hr'). cbn [mbind res_bind]. by rewrite (IH t' Hr').
Qed.

Lemma newTable_rel k junk pd : 0 ≤ k < 64 → ∃ t, newTable junk pd (2 ^ k) = Ok t ∧ rel k t (λ _, None).
Proof.
  intros Hk. assert (0 < 2 ^ k) by lia. assert (2 ^ k < 2 ^ 64) by (apply Z.pow_lt_mono_r; lia). unfold newTable. rewrite floorLog2_log2 by (unfold in_width; lia). cbn [mbind res_bind].
  rewrite (proj2 (isPowerOf2_correct 64 (2 ^ k) ltac:(lia) ltac:(unfold in_width; lia))) by (by exists k). cbn [assert_ mbind res_bind].
  rewrite Z.log2_pow2 by lia. eexists. split; [done|]. split; [split; [done|done|cbn; apply Bitfield.mask_ones; lia|done]| |]; cbn; [intros a _|intros p s _]; by rewrite lookup_empty.
Qed.

End table.

(** C19: A new page table of any power-of-two page size, with the entries of any ISA that can move
    them, behaves as the map of addresses the operations describe: after any sequence of
    mappings, moves onto unmapped pages, removals of mapped pages, queries and translations,
    every translation and query returns what the description gives, whatever the cache of the
    last entries holds, and no assertion fails. *)
Theorem pageTable_refines_translation {E : Type} `{!TlbEntry E} {phys_ok : Z → Prop} `{!TlbEntryLaws E phys_ok} k junk pd ops os :
  0 ≤ k < 64 → spec_run (phys_ok := phys_ok) k ops (λ _, None) os → (t ← newTable junk pd (2 ^ k); run ops t) = Ok os.
Proof.
  intros Hk Hs. destruct (newTable_rel k junk pd Hk) as (t & -> & Hr). cbn [mbind res_bind]. by apply (run_rel (phys_ok := phys_ok) k ops t (λ _, None) os).
Qed.

Lemma translate_to {phys_ok : Z → Prop} k f a r : in_width 64 a → f a = r → spec_step (phys_ok := phys_ok) k (Translate a) f (Paddr r) f.
Proof. intros Ha <-. by apply spec_translate. Qed.

Ltac region := unfold region_ok; split_and!; vm_compute; (reflexivity || discriminate).
Ltac by_regions := let a := fresh "a" in intros a; unfold within; repeat match goal with |- context [len ?k ?s] => let l := eval vm_compute in (len k s) in change (len k s) with l end;
  repeat match goal with |- context [?x <=? ?y] => destruct (Z.leb_spec x y) end; repeat match goal with |- context [?x <? ?y] => destruct (Z.ltb_spec x y) end; cbn; intros; (done || lia || eauto).

Lemma pageTable_refines_translation_witness :
  (t ← newTable (E := AlphaEntry) 77 5 (2 ^ 13);
   run [Map 0x10000 0x40000 0x3000 0; Translate 0x12345; Remap 0x10000 0x4000 0x80000; Translate 0x12345; Translate 0x82345; IsUnmapped 0x10000 0x4000;
        Unmap 0x82000 0x2000; Translate 0x82345; Translate 0x80010] t) =
  Ok [Done; Paddr (Some 0x42345); Done; Paddr None; Paddr (Some 0x42345); Free true; Done; Paddr None; Paddr (Some 0x40010)].
Proof.
  apply (pageTable_refines_translation (phys_ok := λ p, 0 ≤ p < 2 ^ 43 ∧ p mod 2 ^ 13 = 0) 13); [lia|].
  eapply spec_cons.
  { apply spec_map; [region|region| |right; by_regions]. intros p Hp Hin. split; [|exact Hp]. revert p Hp Hin. unfold aligned. intros p _. revert p. by_regions. }
  eapply spec_cons; [apply translate_to; [split; lia|reflexivity]|]. eapply spec_cons; [apply spec_remap; [region|region|by_regions|by_regions]|].
  eapply spec_cons; [apply translate_to; [split; lia|reflexivity]|]. eapply spec_cons; [apply translate_to; [split; lia|reflexivity]|].
  eapply spec_cons; [apply spec_isUnmapped; [region|]; split; [intros _; by_regions|done]|].
  eapply spec_cons; [apply spec_unmap; [region|by_regions]|].
  eapply spec_cons; [apply translate_to; [split; lia|reflexivity]|]. eapply spec_cons; [apply translate_to; [split; lia|reflexivity]|]. constructor.
Defined.

(** ** A page moved onto a mapped one *)

Section stale.
Context {E : Type} `{!TlbEntry E} {phys_ok : Z → Prop} `{!TlbEntryLaws E phys_ok}.
Context (k : Z) (k_range : 0 ≤ k < 63).
Implicit Types (t : FuncPageTable E).

Definition shape (t : FuncPageTable E) : Prop := pageSize t = 2 ^ k ∧ offsetMask t = Z.ones k.

Lemma one_page t : shape t → pages t (2 ^ k) = 1%nat ∧ (0 <? 2 ^ k) = true ∧ (0 <? s64 (2 ^ k - 2 ^ k)) = false.
Proof.
  intros [Hs _]. assert (0 < 2 ^ k) by lia. split_and!; [|by apply Z.ltb_lt|by rewrite Z.sub_diag].
  unfold pages. rewrite Hs. replace (2 ^ k + 2 ^ k - 1) with (2 ^ k - 1 + 1 * 2 ^ k) by lia. rewrite Z.div_add, Z.div_small by lia. done.
Qed.

Lemma offset_zero t a : shape t → aligned k a → pageOffset t a = 0.
Proof. intros [_ Hm] Ha. unfold pageOffset. rewrite Hm, Z.land_ones by lia. done. Qed.

Lemma shape_erase va m t : shape t → shape (eraseCacheEntry va (with_pTable m t)).
Proof. intros [H1 H2]. destruct (erase_fields va m t) as (_ & F2 & F3 & _). split; congruence. Qed.

Lemma shape_update va e t : shape t → shape (updateCache va e t).
Proof. intros [H1 H2]. destruct (update_fields va e t) as (_ & F2 & F3 & _). split; congruence. Qed.

Lemma map_one w pa t : shape t → aligned k w →
  let e := newEntry (pid t) w pa false false in
  map w pa (2 ^ k) Clobber t = Ok (updateCache w e (eraseCacheEntry w (with_pTable (<[w := e]> (pTable t)) t))).
Proof.
  intros Hs Hw e. destruct (one_page t Hs) as (Hp & Hlt & Hgt). unfold map. rewrite offset_zero, Hp by done. cbn [Z.eqb assert_ mbind res_bind map_loop]. rewrite Hlt.
  change (Z.land Clobber Clobber =? 0) with false. change (Z.land Clobber Uncacheable =? 0) with true. change (Z.land Clobber ReadOnly =? 0) with true. cbn [andb negb]. fold e.
  rewrite (proj1 (shape_update w e _ (shape_erase w (<[w := e]> (pTable t)) t Hs))). by rewrite Hgt.
Qed.

Lemma remap_one v w t t' : shape t → shape t' → aligned k v → aligned k w → remap_page v w t = Ok t' → remap v (2 ^ k) w t = Ok t'.
Proof.
  intros Hs Hs' Hv Hw Hr. destruct (one_page t Hs) as (Hp & Hlt & Hgt). unfold remap. rewrite !offset_zero, Hp by done. cbn [Z.eqb assert_ mbind res_bind remap_loop]. rewrite Hlt, Hr.
  cbn [mbind res_bind]. rewrite (proj1 Hs'). by rewrite Hgt.
Qed.

Lemma unmap_one w t : shape t → aligned k w → is_Some (pTable t !! w) → unmap w (2 ^ k) t = Ok (eraseCacheEntry w (with_pTable (delete w (pTable t)) t)).
Proof.
  intros Hs Hw Hm. destruct (one_page t Hs) as (Hp & Hlt & Hgt). unfold unmap. rewrite offset_zero, Hp by done. cbn [Z.eqb assert_ mbind res_bind unmap_loop]. rewrite Hlt.
  rewrite (bool_decide_true (is_Some (pTable t !! w)) Hm). cbn [assert_ mbind res_bind]. rewrite (proj1 (shape_erase w (delete w (pTable t)) t Hs)). by rewrite Hgt.
Qed.

Lemma hit_self w (e : E) : hit w (mkElement true w e) = true.
Proof. unfold hit. cbn. apply Z.eqb_refl. Qed.

(** The elements in front after each step. *)
Lemma update_front va e t : ∃ d0 d1, pTableCache (updateCache va e t) = (mkElement true va e, d0, d1).
Proof. destruct t as [[[c0 c1] c2] ps om pd tb]. by eexists _, _. Qed.

Lemma erase_other va m t c d0 d1 : pTableCache t = (c, d0, d1) → hit va c = false → ∃ d0' d1', pTableCache (eraseCacheEntry va (with_pTable m t)) = (c, d0', d1').
Proof. destruct t as [[[c0 c1] c2] ps om pd tb]. cbn. intros [= -> -> ->] Hh. rewrite Hh. destruct (hit va d0), (hit va d1); by eexists _, _. Qed.

End stale.

(** Moving a page onto one that is mapped and in the cache leaves the old entry of the target
    in the cache behind the new one; after the target is unmapped, it is still translated, to the
    physical page it had before the move. *)
Theorem remap_onto_mapped_leaves_stale {E : Type} `{!TlbEntry E} {phys_ok : Z → Prop} `{!TlbEntryLaws E phys_ok} k (t : FuncPageTable E) v w pa e :
  0 ≤ k < 63 → shape k t → aligned k v → aligned k w → in_width 64 w → v ≠ w → pTable t !! v = Some e →
  ∃ t1 t2 t3, map w pa (2 ^ k) Clobber t = Ok t1 ∧ remap v (2 ^ k) w t1 = Ok t2 ∧ unmap w (2 ^ k) t2 = Ok t3 ∧
    pTable t3 !! w = None ∧ (lookup w t3).1 = Some (newEntry (pid t) w pa false false).
Proof.
  intros Hk Hs Hv Hw Hwr Hne He. set (ew := newEntry (pid t) w pa false false). rewrite (map_one k Hk) by done. fold ew.
  set (t1 := updateCache w ew _). destruct (update_fields w ew (eraseCacheEntry w (with_pTable (<[w := ew]> (pTable t)) t))) as (G1 & _).
  destruct (erase_fields w (<[w := ew]> (pTable t)) t) as (F1 & _). fold t1 in G1. assert (shape k t1) as Hs1 by (apply shape_update, shape_erase; done).
  assert (∃ d0 d1, pTableCache t1 = (mkElement true w ew, d0, d1)) as (d0 & d1 & Hc1) by apply update_front.
  assert (pTable t1 = <[w := ew]> (pTable t)) as Ht1 by congruence. clearbody t1. assert (pTable t1 !! v = Some e) as He1 by (rewrite Ht1, lookup_insert_ne by done; done).
  destruct (start_moved w e) as (e' & He' & _). set (m := delete v (<[w := e]> (pTable t1))). set (m' := <[w := e']> m).
  set (t2 := updateCache w e' (with_pTable m' (eraseCacheEntry v (with_pTable m t1)))).
  assert (remap_page v w t1 = Ok t2) as Hrm.
  { unfold remap_page, at_. rewrite He1. rewrite (bool_decide_true (is_Some (Some e))) by eauto. cbn [assert_ mbind res_bind default from_option id]. fold m.
    destruct (erase_fields v m t1) as (K1 & _). rewrite K1. assert (m !! w = Some e) as -> by (unfold m; rewrite lookup_delete_ne by done; apply lookup_insert_eq).
    cbn [default from_option id]. rewrite He'. done. }
  assert (shape k t2) as Hs2 by (apply shape_update; destruct (shape_erase k v m t1 Hs1); done).
  destruct (erase_other v m t1 _ d0 d1 Hc1) as (x0 & x1 & Hc2); [apply hit_false; cbn; auto|].
  assert (pTableCache t2 = (mkElement true w e', mkElement true w ew, x0)) as Hc2' by (unfold t2, updateCache; cbn [pTableCache with_pTable]; rewrite Hc2; done).
  assert (pTable t2 = m') as Ht2 by (unfold t2; destruct (update_fields w e' (with_pTable m' (eraseCacheEntry v (with_pTable m t1)))) as (-> & _); done). clearbody t2.
  eexists t1, t2, _. split; [done|]. split; [by apply remap_one|]. split; [apply unmap_one; [done|done|done|rewrite Ht2; unfold m'; rewrite lookup_insert_eq; eauto]|].
  destruct (erase_fields w (delete w (pTable t2)) t2) as (K1 & K2 & K3 & _). split; [rewrite K1; apply lookup_delete_eq|].
  unfold lookup. assert (pageAlign (eraseCacheEntry w (with_pTable (delete w (pTable t2)) t2)) w = w) as ->.
  { unfold pageAlign. rewrite K3, (proj2 Hs2), bnot_ones by (done || lia). by apply page_of_aligned; [lia|]. }
  unfold eraseCacheEntry. cbn [pTableCache with_pTable]. rewrite Hc2'. cbn [with_cache pTableCache]. rewrite hit_self. change (hit w (invalidate _)) with false. cbn iota. rewrite hit_self. done.
Qed.

Lemma remap_onto_mapped_leaves_stale_witness :
  let t := mkTable (mkElement false 0 x86_empty, mkElement false 0 x86_empty, mkElement false 0 x86_empty) (2 ^ 12) (Z.ones 12) 1 {[0x5000 := x86_new 1 0x5000 0x1000 false false]} in
  ∃ t1 t2 t3, map 0x7000 0x2000 (2 ^ 12) Clobber t = Ok t1 ∧ remap 0x5000 (2 ^ 12) 0x7000 t1 = Ok t2 ∧ unmap 0x7000 (2 ^ 12) t2 = Ok t3 ∧
    pTable t3 !! 0x7000 = None ∧ (lookup 0x7000 t3).1 = Some (newEntry (pid t) 0x7000 0x2000 false false).
Proof.
  intros t. apply (remap_onto_mapped_leaves_stale (phys_ok := λ _, True) 12 t 0x5000 0x7000 0x2000 (x86_new 1 0x5000 0x1000 false false)); try done; try lia.
Defined.

(** ** Checkpoints *)

Lemma unserialize_fields {E : Type} `{!TlbEntry E} l (t : FuncPageTable E) :
  pTableCache (unserialize l t) = pTableCache t ∧ pageSize (unserialize l t) = pageSize t ∧ offsetMask (unserialize l t) = offsetMask t.
Proof. revert t. induction l as [|[va e] l IH]; intros t; [done|]. cbn. by rewrite !(proj1 (IH _)), !(proj1 (proj2 (IH _))), !(proj2 (proj2 (IH _))). Qed.

Lemma unserialize_table {E : Type} `{!TlbEntry E} l (t : FuncPageTable E) va : NoDup l.*1 →
  pTable (unserialize l t) !! va = match (list_to_map l : gmap Z E) !! va with Some e => Some e | None => pTable t !! va end.
Proof.
  revert t. induction l as [|[va' e] l IH]; intros t Hnd; [cbn; by rewrite lookup_empty|]. cbn in *. apply NoDup_cons in Hnd as [Hn Hnd]. rewrite IH by done. cbn.
  destruct (decide (va' = va)) as [->|Hne]; [|by rewrite !lookup_insert_ne].
  by rewrite !lookup_insert_eq, (not_elem_of_list_to_map_1 l va Hn).
Qed.

(** A page table restored from its checkpoint into a new table translates every address as
    the one that was saved. *)
Theorem pageTable_checkpoint_roundtrip {E : Type} `{!TlbEntry E} k (t t0 : FuncPageTable E) junk pd a :
  wf k t → newTable junk pd (2 ^ k) = Ok t0 → (translate a (unserialize (serialize t) t0)).1 = (translate a t).1.
Proof.
  intros Hw Hn. destruct (newTable_rel k junk pd (wf_k _ _ Hw)) as (t0' & Hn' & Hr). rewrite Hn in Hn'. injection Hn' as <-. destruct Hr as [Hw0 _ _].
  destruct (unserialize_fields (serialize t) t0) as (F1 & F2 & F3). set (t1 := unserialize (serialize t) t0) in *.
  assert (pTable t0 = ∅ ∧ ∃ e, pTableCache t0 = (mkElement false junk e, mkElement false junk e, mkElement false junk e)) as (Ht0 & e & Hc0).
  { unfold newTable in Hn. apply bind_ok in Hn as (l & _ & Hn). apply bind_ok in Hn as (? & _ & Hn). injection Hn as <-. split; [done|by eexists]. }
  assert (coherent t1) as Hc1 by (unfold coherent; rewrite F1, Hc0; done).
  assert (∀ va, pTable t1 !! va = pTable t !! va) as Htab.
  { intros va. unfold t1. rewrite unserialize_table by apply NoDup_fst_map_to_list. unfold serialize. rewrite list_to_map_to_list, Ht0, lookup_empty. by destruct (pTable t !! va). }
  destruct (lookup_correct a t (wf_cache _ _ Hw)) as (L1 & _ & _ & _ & L5). destruct (lookup_correct a t1 Hc1) as (K1 & _ & _ & _ & K5).
  assert (offsetMask t1 = offsetMask t) as Hom by (rewrite F3, (wf_mask _ _ Hw0), (wf_mask _ _ Hw); done).
  unfold translate. destruct (lookup a t) as [r t'], (lookup a t1) as [r1 t1']. cbn in *. subst. unfold pageOffset, pageAlign in *. rewrite L5, K5, Hom, Htab. done.
Qed.

Lemma pageTable_checkpoint_roundtrip_witness :
  ∃ t t0 : FuncPageTable AlphaEntry, (t ← newTable 77 5 (2 ^ 13); map 0x10000 0x40000 0x3000 0 t) = Ok t ∧ newTable 3 5 (2 ^ 13) = Ok t0 ∧
    (translate 0x12345 (unserialize (serialize t) t0)).1 = (translate 0x12345 t).1.
Proof.
  destruct (newTable_rel (E := AlphaEntry) 13 77 5 ltac:(lia)) as (t & Ht & Hr). destruct (newTable_rel (E := AlphaEntry) 13 3 5 ltac:(lia)) as (t0 & Ht0 & _).
  destruct (map_rel (phys_ok := λ p, 0 ≤ p < 2 ^ 43 ∧ p mod 2 ^ 13 = 0) 13 t (λ _, None) 0x10000 0x40000 0x3000 0 Hr) as (t' & Hm & Hr'); [region|region| |by right|].
  { intros p Hp Hin. split; [|exact Hp]. revert p Hp Hin. unfold aligned. intros p _. revert p. by_regions. }
  exists t', t0. split; [rewrite Ht; exact Hm|]. split; [exact Ht0|]. apply (pageTable_checkpoint_roundtrip 13 t' t0 3 5); [apply Hr'|exact Ht0].
Defined.

End PageTableProofs.
