(* ===== verification/StackDist.v ===== *)
(** * The stack distance calculator

    [mem/stack_dist_calc]: for each access, how many other addresses have been used since the
    last use of this one.  The calculator keeps a binary tree of partial sums over the times of
    the accesses, of which only the last one of each address is alive, and, for verification, the
    plain stack of addresses.

    A node is stored in [tree[level][nodeIndex]] from its creation to its deletion, so a [Node*]
    is the pair of level and index; [tree] owns the nodes.  Looking up a node that is not there
    fails, where the source would go on with a null pointer. *)

From S2P Require Import Prelude IntMath.

Open Scope Z_scope.

Module StackDist.

Abbreviation NodePtr := (nat * Z)%type.

Record Node := mkNode {
  sumLeft : Z;
  sumRight : Z;
  discardLeft : bool;
  discardRight : bool;
  nodeIndex : Z;
  parent : option NodePtr;
  isLeftNode : bool;
  isMarked : bool
}.

Definition newNode : Node := mkNode 0 0 false false 0 None true false.

Definition with_sumLeft (x : Z) (n : Node) : Node :=
  mkNode x (sumRight n) (discardLeft n) (discardRight n) (nodeIndex n) (parent n) (isLeftNode n) (isMarked n).
Definition with_discardLeft (x : bool) (n : Node) : Node :=
  mkNode (sumLeft n) (sumRight n) x (discardRight n) (nodeIndex n) (parent n) (isLeftNode n) (isMarked n).
Definition with_nodeIndex (x : Z) (n : Node) : Node :=
  mkNode (sumLeft n) (sumRight n) (discardLeft n) (discardRight n) x (parent n) (isLeftNode n) (isMarked n).
Definition with_parent (x : option NodePtr) (n : Node) : Node :=
  mkNode (sumLeft n) (sumRight n) (discardLeft n) (discardRight n) (nodeIndex n) x (isLeftNode n) (isMarked n).
Definition with_isLeftNode (x : bool) (n : Node) : Node :=
  mkNode (sumLeft n) (sumRight n) (discardLeft n) (discardRight n) (nodeIndex n) (parent n) x (isMarked n).
Definition with_isMarked (x : bool) (n : Node) : Node :=
  mkNode (sumLeft n) (sumRight n) (discardLeft n) (discardRight n) (nodeIndex n) (parent n) (isLeftNode n) x.

Abbreviation Tree := (list (gmap Z Node)).

Record StackDistCalc := mkCalc {
  index : Z;
  tree : Tree;
  aiMap : gmap Z Z;
  nextIndex : list Z;
  stack : list Z;
  verifyStack : bool
}.

Definition with_index (x : Z) (c : StackDistCalc) : StackDistCalc := mkCalc x (tree c) (aiMap c) (nextIndex c) (stack c) (verifyStack c).
Definition with_tree (x : Tree) (c : StackDistCalc) : StackDistCalc := mkCalc (index c) x (aiMap c) (nextIndex c) (stack c) (verifyStack c).
Definition with_aiMap (x : gmap Z Z) (c : StackDistCalc) : StackDistCalc := mkCalc (index c) (tree c) x (nextIndex c) (stack c) (verifyStack c).
Definition with_nextIndex (x : list Z) (c : StackDistCalc) : StackDistCalc := mkCalc (index c) (tree c) (aiMap c) x (stack c) (verifyStack c).
Definition with_stack (x : list Z) (c : StackDistCalc) : StackDistCalc := mkCalc (index c) (tree c) (aiMap c) (nextIndex c) x (verifyStack c).

Definition Infinity : Z := 2 ^ 64 - 1.

(** ** The tree *)

Definition node_at (p : NodePtr) (t : Tree) : res Node := layer ← deref (t !! p.1); deref (layer !! p.2).
Definition put (p : NodePtr) (n : Node) (t : Tree) : Tree := alter <[p.2 := n]> p.1 t.
Definition erase (p : NodePtr) (t : Tree) : Tree := alter (delete p.2) p.1 t.
Definition getTreeDepth (t : Tree) : nat := (length t - 1)%nat.

(** [1 << i] in [int], converted to 64 bits; shifts by 32 and more are undefined. *)
Definition shl1 (i : nat) : res Z :=
  if (Z.of_nat i <? 32) then Ok (u64 (if (Z.of_nat i <? 31) then 2 ^ Z.of_nat i else - 2 ^ 31)) else Fail BadPointer.

Definition newCalc (verify_stack : bool) : StackDistCalc :=
  mkCalc 0 [∅; {[0 := newNode]}] ∅ [0; 1] [] verify_stack.

(** The sanity check of sums in [updateSum], when verifying. *)
Definition check_sums (verify : bool) (level : nat) (n : Node) : res unit :=
  if verify then
    m ← shl1 (level - 1);
    if (m <? sumLeft n) || (m <? sumRight n) then Fail Panicked else Ok tt
  else Ok tt.

(** The node with the sum from below and the discard flags. *)
Definition updated_node (from_left : bool) (sum_from_below : Z) (discard_node : bool) (n : Node) : Node :=
  let dl := if discard_node && (sum_from_below =? 0) && from_left then true else discardLeft n in
  let dr := if discard_node && (sum_from_below =? 0) && negb from_left then true else discardRight n in
  mkNode (if from_left then sum_from_below else sumLeft n) (if from_left then sumRight n else sum_from_below) dl dr
    (nodeIndex n) (parent n) (isLeftNode n) (isMarked n).

(** [updateSum], [fuel] levels at most.  [p] is the node, of level [level + 1]. *)
Fixpoint updateSum (verify : bool) (fuel : nat) (p : NodePtr) (from_left : bool) (sum_from_below : Z) (level : nat)
    (stack_dist : Z) (discard_node : bool) (t : Tree) : res (Z * Tree) :=
  match fuel with
  | O => Fail OutOfFuel
  | S fuel =>
      let level := S level in
      n ← node_at p t;
      _ ← check_sums verify level n;
      let stack_dist := if from_left then u64 (stack_dist + sumRight n) else stack_dist in
      let n' := updated_node from_left sum_from_below discard_node n in
      let discard := discardLeft n' && discardRight n' && discard_node && negb (bool_decide (parent n = None)) && (sum_from_below =? 0) in
      let t := if discard then erase (level, nodeIndex n) t else put p n' t in
      match parent n with
      | Some q => updateSum verify fuel q (isLeftNode n) (u64 (sumLeft n' + sumRight n')) level stack_dist discard t
      | None => Ok (stack_dist, t)
      end
  end.

Definition updateSumsLeavesToRoot (k : Z) (is_new_leaf : bool) (c : StackDistCalc) : res (Z * StackDistCalc) :=
  let t := tree c in
  n ← node_at (0%nat, k) t;
  q ← deref (parent n);
  if is_new_leaf then
    '(_, t) ← updateSum (verifyStack c) (length t) q (isLeftNode n) 1 0 0 false (put (0%nat, k) (with_sumLeft 1 n) t);
    Ok (Infinity, with_tree t c)
  else
    '(stack_dist, t) ← updateSum (verifyStack c) (length t) q (isLeftNode n) 0 0 0 true (put (0%nat, k) (with_sumLeft 0 n) t);
    Ok (stack_dist, with_tree t c).

Fixpoint getSum (fuel : nat) (p : NodePtr) (from_left : bool) (stack_dist : Z) (t : Tree) : res Z :=
  match fuel with
  | O => Fail OutOfFuel
  | S fuel =>
      n ← node_at p t;
      let stack_dist := if from_left then u64 (stack_dist + sumRight n) else stack_dist in
      match parent n with
      | Some q => getSum fuel q (isLeftNode n) stack_dist t
      | None => Ok stack_dist
      end
  end.

Definition getSumsLeavesToRoot (k : Z) (t : Tree) : res Z :=
  n ← node_at (0%nat, k) t;
  q ← deref (parent n);
  getSum (length t) q (isLeftNode n) 0 t.

(** ** Growing the tree *)

(** A new intermediate node of layer [i], under the last node of the layer above. *)
Definition new_inode (i : nat) (c : StackDistCalc) : res StackDistCalc :=
  ni ← vread (nextIndex c) (Z.of_nat i);
  up ← vread (nextIndex c) (Z.of_nat (S i));
  _ ← node_at (S i, u64 (up - 1)) (tree c);
  nI ← vwrite (nextIndex c) (Z.of_nat i) (u64 (ni + 1));
  let n := with_nodeIndex (u64 (u64 (ni + 1) - 1)) (with_parent (Some (S i, u64 (up - 1))) (with_isLeftNode (ni mod 2 =? 0) newNode)) in
  Ok (with_nextIndex nI (with_tree (put (i, nodeIndex n) n (tree c)) c)).

(** The loop from layer [i] down to 1; [always] for the chain under a new root. *)
Fixpoint inode_loop (always : bool) (i : nat) (c : StackDistCalc) : res StackDistCalc :=
  match i with
  | O => Ok c
  | S i' =>
      c ← (if always then new_inode i c
           else
             m ← shl1 i;
             if index c mod m =? 0 then new_inode i c else Ok c);
      inode_loop always i' c
  end.

Definition updateTree (c : StackDistCalc) : res StackDistCalc :=
  let d := getTreeDepth (tree c) in
  if IntMath.isPowerOf2 64 (index c) then
    old ← node_at (d, 0) (tree c);
    let root := with_discardLeft (discardLeft old && discardRight old) (with_sumLeft (u64 (sumRight old + sumLeft old)) newNode) in
    let t := tree c ++ [{[0 := root]}] in
    let t := put (d, 0) (with_parent (Some (S d, 0)) old) t in
    inode_loop true d (with_nextIndex (nextIndex c ++ [1]) (with_tree t c))
  else inode_loop false (d - 1) c.

(** ** Verification *)

(** The naive stack, last access at the end: the distance of an address, and the stack without
    its entry. *)
Fixpoint naive_search (r_address : Z) (l : list Z) (stack_dist : Z) : option (Z * list Z) :=
  match l with
  | [] => None
  | a :: l =>
      if a =? r_address then Some (stack_dist, l)
      else match naive_search r_address l (u64 (stack_dist + 1)) with
           | Some (x, l') => Some (x, a :: l')
           | None => None
           end
  end.

Definition verifyStackDist (r_address : Z) (update_stack : bool) (c : StackDistCalc) : Z * StackDistCalc :=
  match naive_search r_address (rev (stack c)) 0 with
  | Some (stack_dist, l) => (stack_dist, if update_stack then with_stack (rev l ++ [r_address]) c else c)
  | None => (Infinity, if update_stack then with_stack (stack c ++ [r_address]) c else c)
  end.

(** [sanityCheckTree] of a leaf: [n] more parents exist, and the last one has none. *)
Fixpoint sanity_up (n : nat) (p : NodePtr) (t : Tree) : res unit :=
  x ← node_at p t;
  match n with
  | O => if bool_decide (parent x = None) then Ok tt else Fail Panicked
  | S n => match parent x with Some q => sanity_up n q t | None => Fail Panicked end
  end.
Definition sanityCheckTree (k : Z) (t : Tree) : res unit :=
  n ← node_at (0%nat, k) t;
  q ← deref (parent n);
  sanity_up (getTreeDepth t - 1) q t.

(** ** Accesses *)

(** Taking the last access of an address out of the tree. *)
Definition remove_leaf (r_address r_index : Z) (addNewNode : bool) (c : StackDistCalc) : res (Z * bool * StackDistCalc) :=
  let c := with_aiMap (if addNewNode then <[r_address := index c]> (aiMap c) else delete r_address (aiMap c)) c in
  '(stack_dist, c) ← updateSumsLeavesToRoot r_index false c;
  n ← node_at (0%nat, r_index) (tree c);
  Ok (stack_dist, isMarked n, with_tree (erase (0%nat, r_index) (tree c)) c).

(** The new leaf of an access. *)
Definition add_leaf (c : StackDistCalc) : res StackDistCalc :=
  let even := index c mod 2 =? 0 in
  c ← (if even then updateTree c else Ok c);
  n0 ← vread (nextIndex c) 0;
  n1 ← vread (nextIndex c) 1;
  nI ← vwrite (nextIndex c) 0 (u64 (n0 + 1));
  _ ← node_at (1%nat, u64 (n1 - 1)) (tree c);
  let leaf := with_parent (Some (1%nat, u64 (n1 - 1))) (with_isLeftNode even (with_nodeIndex (index c) newNode)) in
  let c := with_tree (put (0%nat, index c) leaf (tree c)) (with_nextIndex nI c) in
  '(_, c) ← updateSumsLeavesToRoot (index c) true c;
  Ok c.

Definition calcStackDistAndUpdate (r_address : Z) (addNewNode : bool) (c : StackDistCalc) : res (Z * bool * StackDistCalc) :=
  '(stack_dist, mark, c) ←
    match aiMap c !! r_address with
    | Some r_index => remove_leaf r_address r_index addNewNode c
    | None => Ok (Infinity, false, if addNewNode then with_aiMap (<[r_address := index c]> (aiMap c)) c else c)
    end;
  if addNewNode then
    c ← add_leaf c;
    c ← (if verifyStack c then
           _ ← sanityCheckTree (index c) (tree c);
           let '(verify_stack_dist, c) := verifyStackDist r_address true c in
           if negb (verify_stack_dist =? stack_dist) then Fail Panicked else Ok c
         else Ok c);
    Ok (stack_dist, mark, with_index (u64 (index c + 1)) c)
  else Ok (stack_dist, mark, c).

Definition calcStackDist (r_address : Z) (mark : bool) (c : StackDistCalc) : res (Z * bool * StackDistCalc) :=
  '(stack_dist, _mark, c) ←
    match aiMap c !! r_address with
    | Some r_index =>
        n ← node_at (0%nat, r_index) (tree c);
        let c := with_tree (put (0%nat, r_index) (with_isMarked mark n) (tree c)) c in
        stack_dist ← getSumsLeavesToRoot r_index (tree c);
        Ok (stack_dist, isMarked n, c)
    | None => Ok (Infinity, false, c)
    end;
  if verifyStack c then
    let '(verify_stack_dist, c) := verifyStackDist r_address false c in
    if negb (verify_stack_dist =? stack_dist) then Fail Panicked else Ok (stack_dist, _mark, c)
  else Ok (stack_dist, _mark, c).

End StackDist.
