(* ===== verification/StackDistProofs.v ===== *)
(** * The stack distance is the number of addresses used since

    The tree of partial sums gives the same distances and marks as the plain stack of
    addresses. *)

From Stdlib Require Import Sorted.
From S2P Require Import Prelude IntMath StackDist.

Open Scope Z_scope.

Module StackDistProofs.
Import StackDist.

(** ** Counting live accesses *)

Definition cnt (l : list Z) (a b : Z) : Z := Z.of_nat (length (List.filter (λ k, (a <=? k) && (k <? b)) l)).

Lemma cnt_cons k l a b : cnt (k :: l) a b = (if (a <=? k) && (k <? b) then 1 else 0) + cnt l a b.
Proof. unfold cnt. cbn. destruct (_ && _); cbn; lia. Qed.

Lemma cnt_app l1 l2 a b : cnt (l1 ++ l2) a b = cnt l1 a b + cnt l2 a b.
Proof. unfold cnt. rewrite List.filter_app, length_app. lia. Qed.

Ltac bools := repeat match goal with
  | |- context [?x <=? ?y] => destruct (Z.leb_spec x y); try lia
  | |- context [?x <? ?y] => destruct (Z.ltb_spec x y); try lia
  end; cbn [andb]; try lia.

Lemma cnt_split l a b c : a ≤ b ≤ c → cnt l a c = cnt l a b + cnt l b c.
Proof. intros Hab. induction l as [|k l IH]; [done|]. rewrite !cnt_cons, IH. bools. Qed.

Lemma cnt_range l a b : 0 ≤ cnt l a b ≤ Z.of_nat (length l).
Proof. unfold cnt. split; [lia|]. induction l as [|k l IH]; cbn; [lia|]. destruct (_ && _); cbn; lia. Qed.

Lemma cnt_none l a b : (∀ k, k ∈ l → ¬ (a ≤ k < b)) → cnt l a b = 0.
Proof.
  induction l as [|k l IH]; intros Hn; [done|]. rewrite cnt_cons, IH by (intros x Hx; apply Hn; by right). specialize (Hn k (list_elem_of_here _ _)). bools.
Qed.

Lemma cnt_all l a b : (∀ k, k ∈ l → a ≤ k < b) → cnt l a b = Z.of_nat (length l).
Proof.
  induction l as [|k l IH]; intros Hn; [done|]. rewrite cnt_cons, IH by (intros x Hx; apply Hn; by right). specialize (Hn k (list_elem_of_here _ _)). cbn [length]. bools.
Qed.

Lemma cnt_remove l1 k l2 a b : cnt (l1 ++ k :: l2) a b = cnt (l1 ++ l2) a b + (if (a <=? k) && (k <? b) then 1 else 0).
Proof. rewrite !cnt_app, cnt_cons. lia. Qed.

Lemma cnt_zero l a b k : cnt l a b = 0 → k ∈ l → ¬ (a ≤ k < b).
Proof.
  intros Hc Hk Hr. apply list_elem_of_split in Hk as (l1 & l2 & ->). rewrite cnt_remove in Hc. pose proof (cnt_range (l1 ++ l2) a b).
  revert Hc. bools.
Qed.

Lemma cnt_bound l a b : NoDup l → a ≤ b → cnt l a b ≤ b - a.
Proof.
  intros Hnd Hab. assert (cnt l a b ≤ Z.of_nat (length (seqZ a (b - a)))) as Hle; [unfold cnt; apply Nat2Z.inj_le|].
  { apply NoDup_incl_length; [apply List.NoDup_filter; by apply NoDup_ListNoDup|]. intros k [_ Hk]%List.filter_In. apply list_elem_of_In, elem_of_seqZ. lia. }
  rewrite length_seqZ in Hle. lia.
Qed.

(** ** The tree *)

Definition pw (v : nat) : Z := 2 ^ Z.of_nat v.

Lemma pw_pos v : 0 < pw v.
Proof. unfold pw. lia. Qed.

Lemma pw_S v : pw (S v) = 2 * pw v.
Proof. unfold pw. rewrite Nat2Z.inj_succ, Z.pow_succ_r by lia. done. Qed.

Lemma div_pw_S k v : k / pw (S v) = k / pw v / 2.
Proof. rewrite pw_S, Z.mul_comm. pose proof (pw_pos v). by rewrite Z.div_div by lia. Qed.

Definition tget (t : Tree) (v : nat) (j : Z) : option Node := t !! v ≫= λ m, m !! j.

Lemma node_at_ok t v j n : tget t v j = Some n → node_at (v, j) t = Ok n.
Proof. unfold tget, node_at. cbn. destruct (t !! v); cbn; [|done]. by intros ->. Qed.

Lemma tget_put t v j n v' j' : (v < length t)%nat → tget (put (v, j) n t) v' j' = if decide (v' = v ∧ j' = j) then Some n else tget t v' j'.
Proof.
  intros Hv. unfold tget, put. cbn. destruct (decide (v' = v)) as [->|Hne].
  - rewrite list_lookup_alter_eq. destruct (lookup_lt_is_Some_2 t v Hv) as [m ->]. cbn. destruct (decide (j' = j)) as [->|Hj].
    + by rewrite lookup_insert_eq, decide_True.
    + rewrite lookup_insert_ne by done. by rewrite decide_False by (by intros []).
  - rewrite list_lookup_alter_ne by done. by rewrite decide_False by (by intros []).
Qed.

Lemma tget_erase t v j v' j' : tget (erase (v, j) t) v' j' = if decide (v' = v ∧ j' = j) then None else tget t v' j'.
Proof.
  unfold tget, erase. cbn. destruct (decide (v' = v)) as [->|Hne].
  - rewrite list_lookup_alter_eq. destruct (t !! v) as [m|]; cbn; [|by case_decide]. destruct (decide (j' = j)) as [->|Hj].
    + by rewrite lookup_delete_eq, decide_True.
    + rewrite lookup_delete_ne by done. by rewrite decide_False by (by intros []).
  - rewrite list_lookup_alter_ne by done. by rewrite decide_False by (by intros []).
Qed.

(** An access time that is alive, or to come. *)
Definition wanted (l : list Z) (idx k : Z) : Prop := k ∈ l ∨ idx ≤ k.

Definition none_wanted (l : list Z) (idx a b : Z) : Prop := ∀ k, a ≤ k < b → ¬ wanted l idx k.

(** The node of level [S v] and index [j]: the leaves below it are
    [j * 2^(v+1) .. (j+1) * 2^(v+1)). *)
Record node_ok (l : list Z) (idx : Z) (d v : nat) (j : Z) (n : Node) : Prop := {
  nk_left : sumLeft n = cnt l (2 * j * pw v) ((2 * j + 1) * pw v);
  nk_right : sumRight n = cnt l ((2 * j + 1) * pw v) ((2 * j + 2) * pw v);
  nk_index : nodeIndex n = j;
  nk_isleft : isLeftNode n = Z.even j;
  nk_parent : parent n = if decide (S v = d) then None else Some (S (S v), j / 2);
  nk_dl : discardLeft n = true → none_wanted l idx (2 * j * pw v) ((2 * j + 1) * pw v);
  nk_dr : discardRight n = true → none_wanted l idx ((2 * j + 1) * pw v) ((2 * j + 2) * pw v)
}.

(** A node that has to exist: the root, and those with something wanted below. *)
Definition present (l : list Z) (idx : Z) (d v : nat) (j : Z) : Prop :=
  S v = d ∨ ∃ k, j * pw (S v) ≤ k < (j + 1) * pw (S v) ∧ wanted l idx k.

(** The inner nodes are right, those of level [S v] for the live accesses [lf v]; [top] is the
    last access time the tree has nodes for. *)
Record tree_ok (lf : nat → list Z) (idx top : Z) (d : nat) (t : Tree) : Prop := {
  tk_length : length t = S d;
  tk_depth : (1 ≤ d)%nat;
  tk_top : 0 ≤ top < pw d;
  tk_nodes : ∀ v j, (v < d)%nat → 0 ≤ j ≤ top / pw (S v) → present (lf v) idx d v j → ∃ n, tget t (S v) j = Some n ∧ node_ok (lf v) idx d v j n
}.

Lemma even_half x : x = 2 * (x / 2) + (if Z.even x then 0 else 1).
Proof. pose proof (Z.div_mod x 2 ltac:(lia)). rewrite Zmod_even in H. destruct (Z.even x); lia. Qed.

Lemma in_range k j v : j * pw v ≤ k < (j + 1) * pw v ↔ j = k / pw v.
Proof.
  pose proof (pw_pos v) as Hp. split.
  - intros [H1 H2]. apply (Z.div_unique k (pw v) j (k - j * pw v)); [left; nia|nia].
  - intros ->. pose proof (Z.div_mod k (pw v) ltac:(lia)). pose proof (Z.mod_pos_bound k (pw v) Hp). nia.
Qed.

(** ** The walk from a leaf to the root *)

(** Both halves of a node. *)
Lemma node_sum l0 v j : cnt l0 (2 * j * pw v) ((2 * j + 1) * pw v) + cnt l0 ((2 * j + 1) * pw v) ((2 * j + 2) * pw v) = cnt l0 (j * pw (S v)) ((j + 1) * pw (S v)).
Proof. pose proof (pw_pos v). rewrite <- cnt_split by nia. rewrite pw_S. f_equal; lia. Qed.

Section walk.
Context (verify : bool) (l l' : list Z) (idx top k : Z) (d : nat).
Hypothesis same_elsewhere : ∀ a b, ¬ (a ≤ k < b) → cnt l' a b = cnt l a b.
Hypothesis fewer_wanted : ∀ x, wanted l' idx x → wanted l idx x.
Hypothesis k_wanted : wanted l idx k.
Hypothesis k_range : 0 ≤ k ≤ top.
Hypothesis small : Z.of_nat (length l) < 2 ^ 62 ∧ Z.of_nat (length l') < 2 ^ 62.
Hypothesis checks : verify = true → NoDup l ∧ (d ≤ 31)%nat.

(** The times below the child of level [v] on the path. *)
Definition lo (v : nat) : Z := k / pw v * pw v.
Definition hi (v : nat) : Z := (k / pw v + 1) * pw v.

Lemma none_wanted_mono a b : none_wanted l idx a b → none_wanted l' idx a b.
Proof. intros Hn x Hx Hw. by apply (Hn x Hx), fewer_wanted. Qed.

Lemma node_ok_other v j n : node_ok l idx d v j n → j ≠ k / pw (S v) → node_ok l' idx d v j n.
Proof.
  intros [H1 H2 H3 H4 H5 H6 H7] Hj. rewrite <- in_range, pw_S in Hj. pose proof (pw_pos v).
  split; try done; [rewrite same_elsewhere by nia; done|rewrite same_elsewhere by nia; done|..]; intros Hd; apply none_wanted_mono; auto.
Qed.

Lemma path_child v : k / pw v = 2 * (k / pw (S v)) + (if Z.even (k / pw v) then 0 else 1).
Proof. rewrite div_pw_S. apply even_half. Qed.

Lemma updated_node_ok v n (discard : bool) :
  node_ok l idx d v (k / pw (S v)) n → (discard = true → none_wanted l' idx (lo v) (hi v)) →
  node_ok l' idx d v (k / pw (S v)) (updated_node (Z.even (k / pw v)) (cnt l' (lo v) (hi v)) discard n).
Proof.
  intros [H1 H2 H3 H4 H5 H6 H7] Hd. pose proof (path_child v) as Hc. pose proof (pw_pos v) as Hp. unfold lo, hi in *.
  pose proof (proj2 (in_range k (k / pw v) v) eq_refl) as Hin. set (j := k / pw (S v)) in *. set (kc := k / pw v) in *.
  destruct (Z.even kc) eqn:He; split; cbn; try done; rewrite ?andb_true_r, ?andb_false_r.
  - f_equal; lia.
  - rewrite H2. symmetry. apply same_elsewhere. nia.
  - destruct (discard && _) eqn:Hb; [|intros; apply none_wanted_mono; auto]. apply andb_prop in Hb as [Hb _]. intros _.
    replace (2 * j * pw v) with (kc * pw v) by nia. replace ((2 * j + 1) * pw v) with ((kc + 1) * pw v) by nia. auto.
  - intros; apply none_wanted_mono; auto.
  - rewrite H1. symmetry. apply same_elsewhere. nia.
  - f_equal; nia.
  - intros; apply none_wanted_mono; auto.
  - destruct (discard && _) eqn:Hb; [|intros; apply none_wanted_mono; auto]. apply andb_prop in Hb as [Hb _]. intros _.
    replace ((2 * j + 1) * pw v) with (kc * pw v) by nia. replace ((2 * j + 2) * pw v) with ((kc + 1) * pw v) by nia. auto.
Qed.

(** The distance so far, with the right half of the node when coming from the left. *)
Lemma dist_step v n : node_ok l idx d v (k / pw (S v)) n →
  (if Z.even (k / pw v) then u64 (cnt l (k + 1) (hi v) + sumRight n) else cnt l (k + 1) (hi v)) = cnt l (k + 1) (hi (S v)).
Proof.
  intros [_ H2 _ _ _ _ _]. pose proof (path_child v) as Hc. pose proof (pw_pos v) as Hp. pose proof (proj2 (in_range k (k / pw v) v) eq_refl) as Hin.
  unfold hi. set (j := k / pw (S v)) in *. set (kc := k / pw v) in *. clearbody j kc. rewrite pw_S. destruct (Z.even kc).
  - rewrite H2. replace ((kc + 1) * pw v) with ((2 * j + 1) * pw v) by nia. rewrite <- cnt_split by nia.
    rewrite wrap_small by (unfold in_width; pose proof (cnt_range l (k + 1) ((2 * j + 2) * pw v)); lia). f_equal; nia.
  - f_equal; nia.
Qed.

Lemma check_sums_ok v j n : node_ok l idx d v j n → (v < d)%nat → check_sums verify (S v) n = Ok tt.
Proof.
  intros [H1 H2 _ _ _ _ _] Hv. unfold check_sums. destruct verify eqn:Hver; [|done]. destruct (checks eq_refl) as [Hnd Hd]. pose proof (pw_pos v) as Hp.
  replace (S v - 1)%nat with v by lia. unfold shl1. rewrite (proj2 (Z.ltb_lt (Z.of_nat v) 32)), (proj2 (Z.ltb_lt (Z.of_nat v) 31)) by lia. cbn [mbind res_bind].
  fold (pw v). assert (pw v ≤ 2 ^ 31) as Hpv by (unfold pw; apply Z.pow_le_mono_r; lia). rewrite wrap_small by (unfold in_width; lia).
  pose proof (cnt_bound l (2 * j * pw v) ((2 * j + 1) * pw v) Hnd ltac:(nia)) as Hl. pose proof (cnt_bound l ((2 * j + 1) * pw v) ((2 * j + 2) * pw v) Hnd ltac:(nia)) as Hr.
  rewrite <- H1 in Hl. rewrite <- H2 in Hr. ring_simplify in Hl. ring_simplify in Hr.
  rewrite (proj2 (Z.ltb_ge (pw v) (sumLeft n))), (proj2 (Z.ltb_ge (pw v) (sumRight n))) by lia. done.
Qed.

(** Levels up to [v] are done. *)
Definition upto (v : nat) (u : nat) : list Z := if decide (u < v)%nat then l' else l.

Lemma path_node lf v t : lf v = l → tree_ok lf idx top d t → (v < d)%nat → ∃ n, tget t (S v) (k / pw (S v)) = Some n ∧ node_ok l idx d v (k / pw (S v)) n.
Proof.
  intros Hlf [_ _ _ Hn] Hv. specialize (Hn v (k / pw (S v)) Hv). rewrite Hlf in Hn. pose proof (pw_pos (S v)). apply Hn.
  - split; [apply Z.div_pos; lia|apply Z.div_le_mono; lia].
  - right. exists k. split; [by apply in_range|done].
Qed.

(** The tree after the node of level [S v] on the path is changed or, with nothing wanted below
    it, erased. *)
Lemma step_tree v t t' n' :
  tree_ok (upto v) idx top d t → (v < d)%nat → length t' = length t → (∀ u j, (u ≠ S v ∨ j ≠ k / pw (S v)) → tget t' u j = tget t u j) →
  (tget t' (S v) (k / pw (S v)) = Some n' ∧ node_ok l' idx d v (k / pw (S v)) n' ∨ S v ≠ d ∧ none_wanted l' idx (lo (S v)) (hi (S v))) →
  tree_ok (upto (S v)) idx top d t'.
Proof.
  intros [H1 H2 H3 H4] Hv Hlen Hsame Hcase. split; [by rewrite Hlen|done|done|]. intros u j Hu Hj Hp.
  assert (∀ u', u' ≠ v → upto (S v) u' = upto v u') as Hup by (intros u' Hne; unfold upto; repeat case_decide; (done || lia)).
  destruct (decide (u = v)) as [->|Huv].
  - assert (upto (S v) v = l') as Hlv by (unfold upto; rewrite decide_True by lia; done). rewrite Hlv in *. destruct (decide (j = k / pw (S v))) as [->|Hjk].
    + destruct Hcase as [[? ?]|[Hd Hnone]]; [by exists n'|]. exfalso. destruct Hp as [Hp|(x & Hx & Hw)]; [done|]. by apply (Hnone x).
    + rewrite Hsame by (by right). specialize (H4 v j Hu Hj). unfold upto in H4. rewrite decide_False in H4 by lia. destruct H4 as (n & Hn & Hok).
      { destruct Hp as [Hp|(x & Hx & Hw)]; [by left|right; exists x; auto]. }
      exists n. split; [done|]. by apply node_ok_other.
  - rewrite Hup in * by done. rewrite Hsame by (left; lia). by apply H4.
Qed.

Lemma updateSum_spec fuel v t (discard : bool) :
  tree_ok (upto v) idx top d t → (v < d)%nat → (d - v ≤ fuel)%nat → (discard = true → none_wanted l' idx (lo v) (hi v)) →
  ∃ t', updateSum verify fuel (S v, k / pw (S v)) (Z.even (k / pw v)) (cnt l' (lo v) (hi v)) v (cnt l (k + 1) (hi v)) discard t =
      Ok (cnt l (k + 1) (pw d), t') ∧ tree_ok (λ _, l') idx top d t' ∧ t' !! 0%nat = t !! 0%nat.
Proof.
  revert v t discard. induction fuel as [|fuel IH]; intros v t discard Hok Hv Hf Hd; [lia|]. cbn [updateSum].
  destruct (path_node (upto v) v t ltac:(unfold upto; by rewrite decide_False by lia) Hok Hv) as (n & Hn & Hnk). rewrite (node_at_ok _ _ _ _ Hn). cbn [mbind res_bind]. rewrite (check_sums_ok v _ n Hnk Hv). cbn [mbind res_bind].
  rewrite (dist_step v n Hnk). pose proof (updated_node_ok v n discard Hnk Hd) as Hnk'. set (n' := updated_node _ _ _ n) in *.
  pose proof (tk_length _ _ _ _ _ Hok) as Hlen. pose proof (nk_parent _ _ _ _ _ _ Hnk) as Hpar. rewrite (nk_index _ _ _ _ _ _ Hnk).
  set (del := discardLeft n' && _ && _ && _ && _).
  assert (del = true → S v ≠ d ∧ none_wanted l' idx (lo (S v)) (hi (S v))) as Hdel.
  { unfold del. intros H. repeat (apply andb_prop in H as [H ?]). split.
    - intros Heq. rewrite Hpar, decide_True in * by done. by rewrite bool_decide_true in * by done.
    - intros x Hx Hw. pose proof (pw_pos v). unfold lo, hi in Hx. set (j := k / pw (S v)) in *. clearbody j. rewrite !pw_S in Hx.
      destruct (decide (x < (2 * j + 1) * pw v)) as [Hlt|Hge]; [apply (nk_dl _ _ _ _ _ _ Hnk' H x); [nia|done]|].
      apply (nk_dr _ _ _ _ _ _ Hnk' ltac:(done) x); [nia|done]. }
  set (t1 := if del then _ else _). assert (tree_ok (upto (S v)) idx top d t1) as Hok1.
  { apply (step_tree v t t1 n' Hok Hv).
    - unfold t1. destruct del; apply length_alter.
    - intros u j Hne. unfold t1. destruct del; [rewrite tget_erase|rewrite tget_put by lia]; rewrite decide_False; try done; intros []; destruct Hne; congruence.
    - unfold t1. destruct del eqn:Hdd; [right; auto|left]. split; [|done]. rewrite tget_put by lia. by rewrite decide_True. }
  assert (t1 !! 0%nat = t !! 0%nat) as H0 by (unfold t1; destruct del; unfold put, erase; by rewrite list_lookup_alter_ne).
  rewrite Hpar. destruct (decide (S v = d)) as [Heq|Hne].
  - exists t1. split; [|split; [|done]].
    + do 2 f_equal. unfold hi. rewrite Heq, Z.div_small by (pose proof (tk_top _ _ _ _ _ Hok); lia). f_equal. lia.
    + destruct Hok1 as [A1 A2 A3 A4]. split; try done. intros u j Hu. specialize (A4 u j Hu). unfold upto in A4. by rewrite decide_True in A4 by lia.
  - rewrite (nk_isleft _ _ _ _ _ _ Hnk). rewrite <- div_pw_S.
    assert (u64 (sumLeft n' + sumRight n') = cnt l' (lo (S v)) (hi (S v))) as ->.
    { rewrite (nk_left _ _ _ _ _ _ Hnk'), (nk_right _ _ _ _ _ _ Hnk'), node_sum. apply wrap_small. unfold in_width. unfold lo, hi.
      pose proof (cnt_range l' (k / pw (S v) * pw (S v)) ((k / pw (S v) + 1) * pw (S v))). lia. }
    destruct (IH (S v) t1 del Hok1) as (t' & -> & Hok' & H0'); [lia|lia|intros; by apply Hdel|]. exists t'. split_and!; [done|done|congruence].
Qed.

(** Reading along the same path. *)
Lemma getSum_spec fuel v t : tree_ok (λ _, l) idx top d t → (v < d)%nat → (d - v ≤ fuel)%nat →
  getSum fuel (S v, k / pw (S v)) (Z.even (k / pw v)) (cnt l (k + 1) (hi v)) t = Ok (cnt l (k + 1) (pw d)).
Proof.
  intros Hok. revert v. induction fuel as [|fuel IH]; intros v Hv Hf; [lia|]. cbn [getSum].
  destruct (path_node (λ _, l) v t eq_refl Hok Hv) as (n & Hn & Hnk). rewrite (node_at_ok _ _ _ _ Hn). cbn [mbind res_bind].
  rewrite (dist_step v n Hnk), (nk_parent _ _ _ _ _ _ Hnk). destruct (decide (S v = d)) as [Heq|Hne].
  - do 2 f_equal. unfold hi. rewrite Heq, Z.div_small by (pose proof (tk_top _ _ _ _ _ Hok); lia). f_equal. lia.
  - rewrite (nk_isleft _ _ _ _ _ _ Hnk). rewrite <- div_pw_S. apply IH; lia.
Qed.

Lemma sanity_up_spec m v t : tree_ok (λ _, l) idx top d t → (v + S m = d)%nat → sanity_up m (S v, k / pw (S v)) t = Ok tt.
Proof.
  intros Hok. revert v. induction m as [|m IH]; intros v Hv; cbn [sanity_up];
    destruct (path_node (λ _, l) v t eq_refl Hok ltac:(lia)) as (n & Hn & Hnk); rewrite (node_at_ok _ _ _ _ Hn); cbn [mbind res_bind];
    rewrite (nk_parent _ _ _ _ _ _ Hnk).
  - by rewrite decide_True by lia.
  - rewrite decide_False by lia. rewrite <- div_pw_S. apply IH. lia.
Qed.

End walk.

(** ** Leaves *)

Definition leaf (k : Z) (m : bool) : Node := mkNode 1 0 false false k (Some (1%nat, k / 2)) (Z.even k) m.

(** An entry: the address, the time of its last access, and its mark. *)
Record Entry := mkEntry { eaddr : Z; etime : Z; emark : bool }.

Abbreviation times g := (etime <$> g).

Definition leaves_ok (g : list Entry) (t : Tree) : Prop := ∀ e, e ∈ g → tget t 0 (etime e) = Some (leaf (etime e) (emark e)).

(** ** The state of a calculator *)

Record calc_ok (g : list Entry) (d : nat) (c : StackDistCalc) : Prop := {
  ck_sorted : StronglySorted Z.lt (times g);
  ck_range : ∀ k, k ∈ times g → 0 ≤ k < index c;
  ck_addrs : NoDup (eaddr <$> g);
  ck_map : ∀ a k, aiMap c !! a = Some k ↔ ∃ m, mkEntry a k m ∈ g;
  ck_tree : tree_ok (λ _, times g) (index c) (Z.max 0 (index c - 1)) d (tree c);
  ck_leaves : leaves_ok g (tree c);
  ck_next : length (nextIndex c) = S d ∧ nextIndex c !! 0%nat = Some (index c) ∧
    ∀ v, (v < d)%nat → nextIndex c !! S v = Some (Z.max 0 (index c - 1) / pw (S v) + 1);
  ck_depth : 0 ≤ index c ≤ pw d ∧ (d = 1%nat ∨ pw (d - 1) < index c)
}.

Lemma newCalc_ok verify : calc_ok [] 1 (newCalc verify).
Proof.
  split; cbn; try done; try (by constructor).
  - intros k Hk. by apply not_elem_of_nil in Hk.
  - intros a k. rewrite lookup_empty. split; [done|]. intros (m & Hm). by apply not_elem_of_nil in Hm.
  - split; cbn; try done. intros v j Hv Hj _. assert (v = 0%nat) as -> by lia. replace (_ / pw 1) with 0 in Hj by done. assert (j = 0) as -> by lia.
    exists newNode. split; [done|]. by split; cbn.
  - intros e He. by apply not_elem_of_nil in He.
  - split_and!; try done. intros v Hv. by assert (v = 0%nat) as -> by lia.
  - split; [split; by vm_compute|by left].
Qed.

Lemma sorted_times_nodup l : StronglySorted Z.lt l → NoDup l.
Proof. induction 1 as [|k l _ IH Hf]; constructor; [|done]. intros Hin. rewrite Forall_forall in Hf. specialize (Hf k Hin). lia. Qed.

(** The bounds the walks need. *)
Lemma calc_bounds g d c : calc_ok g d c → index c < 2 ^ 30 →
  NoDup (times g) ∧ Z.of_nat (length (times g)) ≤ index c ∧ (d ≤ 31)%nat.
Proof.
  intros Hc Hi. pose proof (sorted_times_nodup _ (ck_sorted _ _ _ Hc)) as Hnd. split; [done|]. destruct (ck_depth _ _ _ Hc) as [H0 Hd]. split.
  - rewrite <- (cnt_all (times g) 0 (index c)) by apply (ck_range _ _ _ Hc). pose proof (cnt_bound (times g) 0 (index c) Hnd ltac:(lia)). lia.
  - destruct Hd as [->|Hd]; [lia|]. unfold pw in Hd. assert (Z.of_nat (d - 1) < 30); [|lia]. apply (Z.pow_lt_mono_r_iff 2); lia.
Qed.

Lemma upto_0 l l' idx top d t : tree_ok (λ _, l) idx top d t → tree_ok (upto l l' 0) idx top d t.
Proof. intros [H1 H2 H3 H4]. split; try done. Qed.

Lemma leaf_path k : k / pw 0 = k ∧ k / pw 1 = k / 2.
Proof. split; [apply Z.div_1_r|done]. Qed.

(** The walk that starts at a leaf. *)
Lemma walk_leaf verify l l' idx top k d t (discard : bool) sfb :
  tree_ok (λ _, l) idx top d t → (∀ a b, ¬ (a ≤ k < b) → cnt l' a b = cnt l a b) → (∀ x, wanted l' idx x → wanted l idx x) →
  wanted l idx k → 0 ≤ k ≤ top → Z.of_nat (length l) < 2 ^ 62 → Z.of_nat (length l') < 2 ^ 62 → (verify = true → NoDup l ∧ (d ≤ 31)%nat) →
  (discard = true → ¬ wanted l' idx k) → sfb = cnt l' k (k + 1) →
  ∃ t', updateSum verify (length t) (1%nat, k / 2) (Z.even k) sfb 0 0 discard t = Ok (cnt l (k + 1) (pw d), t') ∧
    tree_ok (λ _, l') idx top d t' ∧ t' !! 0%nat = t !! 0%nat.
Proof.
  intros Hok Hsame Hw Hk Hr Hs Hs' Hver Hd ->. destruct (leaf_path k) as [E0 E1].
  destruct (updateSum_spec verify l l' idx top k d Hsame Hw Hk Hr (conj Hs Hs') Hver (length t) 0 t discard) as (t' & Ht' & Hok' & H0).
  - by apply upto_0.
  - pose proof (tk_depth _ _ _ _ _ Hok). lia.
  - rewrite (tk_length _ _ _ _ _ Hok). lia.
  - intros Hdis x Hx. unfold lo, hi in Hx. rewrite E0 in Hx. change (pw 0) with 1 in Hx. assert (x = k) as -> by lia. auto.
  - exists t'. split; [|done]. rewrite <- Ht'. unfold lo, hi. rewrite E0, E1. change (pw 0) with 1. rewrite !Z.mul_1_r.
    by rewrite (cnt_none l (k + 1) (k + 1)) by (intros; lia).
Qed.

Lemma sorted_app_lt l1 k l2 : StronglySorted Z.lt (l1 ++ k :: l2) → (∀ x, x ∈ l1 → x < k) ∧ (∀ x, x ∈ l2 → k < x) ∧ StronglySorted Z.lt (l1 ++ l2).
Proof.
  induction l1 as [|y l1 IH]; cbn.
  - intros [Hs Hf]%StronglySorted_inv. split_and!; [by intros x ?%not_elem_of_nil| |done]. by rewrite Forall_forall in Hf.
  - intros [Hs Hf]%StronglySorted_inv. destruct (IH Hs) as (H1 & H2 & H3). rewrite Forall_forall in Hf. split_and!; [|done|].
    + intros x [->|Hx]%elem_of_cons; [apply Hf; set_solver|auto].
    + constructor; [done|]. apply Forall_forall. intros x Hx. apply Hf. set_solver.
Qed.

(** Leaves are not inner nodes. *)
Lemma tree_ok_leaf lf idx top d t f : tree_ok lf idx top d t → tree_ok lf idx top d (alter f 0%nat t).
Proof.
  intros [A1 A2 A3 A4]. split; [by rewrite length_alter|done|done|]. intros v j Hv Hj Hp. destruct (A4 v j Hv Hj Hp) as (n & Hn & Hok). exists n. split; [|done].
  rewrite <- Hn. unfold tget. by rewrite list_lookup_alter_ne.
Qed.

(** Forgetting an address. *)
Lemma calc_ok_remove g1 e g2 d c t :
  calc_ok (g1 ++ e :: g2) d c → tree_ok (λ _, times (g1 ++ g2)) (index c) (Z.max 0 (index c - 1)) d t → leaves_ok (g1 ++ g2) t →
  calc_ok (g1 ++ g2) d (with_aiMap (delete (eaddr e) (aiMap c)) (with_tree t c)).
Proof.
  intros [Hs Hr Hna Hm _ _ Hn Hdp] Ht Hl. rewrite fmap_app, fmap_cons in Hs, Hna. split; cbn; try done.
  - rewrite fmap_app. by eapply sorted_app_lt.
  - intros k Hk. apply Hr. rewrite fmap_app in *. rewrite fmap_cons. set_solver.
  - rewrite fmap_app. apply NoDup_app in Hna as (H1 & H2 & H3). apply NoDup_cons in H3 as [H3 H4]. apply NoDup_app. split_and!; [done| |done].
    intros x Hx Hx2. apply (H2 x Hx). by right.
  - intros a k. rewrite lookup_delete_Some, Hm. apply NoDup_app in Hna as (H1 & H2 & H3). apply NoDup_cons in H3 as [H3 _]. split.
    + intros (Hne & m & Hin). exists m. apply elem_of_app in Hin as [?|[<-|?]%elem_of_cons]; [set_solver|done|set_solver].
    + intros (m & Hin). split; [|exists m; set_solver]. intros <-.
      assert (eaddr e ∈ eaddr <$> (g1 ++ g2)) as Hx by (apply list_elem_of_fmap; eexists; split; [|exact Hin]; done).
      rewrite fmap_app in Hx. apply elem_of_app in Hx as [Hx|Hx]; [apply (H2 _ Hx); left|done].
Qed.

(** The part of a state removing a leaf changes. *)
Lemma remove_leaf_spec g d c a k add :
  calc_ok g d c → index c < 2 ^ 30 → aiMap c !! a = Some k →
  ∃ g1 m g2 c', g = g1 ++ mkEntry a k m :: g2 ∧ remove_leaf a k add c = Ok (Z.of_nat (length g2), m, c') ∧
    calc_ok (g1 ++ g2) d (with_aiMap (delete a (aiMap c)) c') ∧ aiMap c' = (if add then <[a := index c]> (aiMap c) else delete a (aiMap c)) ∧
    index c' = index c ∧ stack c' = stack c ∧ verifyStack c' = verifyStack c.
Proof.
  intros Hc Hi Ha. destruct (calc_bounds _ _ _ Hc Hi) as (Hnd & Hlen & Hd31). pose proof Hc as [Hs Hr Hna Hm Ht Hl Hn Hdp].
  destruct (proj1 (Hm a k) Ha) as (m & Hin). apply list_elem_of_split in Hin as (g1 & g2 & ->). exists g1, m, g2.
  rewrite fmap_app, fmap_cons in Hs, Hnd, Hlen. cbn [etime] in Hs, Hnd, Hlen. destruct (sorted_app_lt _ _ _ Hs) as (Hs1 & Hs2 & Hs'). rewrite <- fmap_app in Hs'.
  assert (k ∉ times (g1 ++ g2)) as Hk' by (rewrite fmap_app; intros [Hx|Hx]%elem_of_app; [specialize (Hs1 k Hx)|specialize (Hs2 k Hx)]; lia).
  assert (0 ≤ k < index c) as Hkr by (apply Hr; rewrite fmap_app, fmap_cons; set_solver).
  set (idx := index c) in *. set (top := Z.max 0 (idx - 1)) in *.
  set (t0 := put (0%nat, k) (with_sumLeft 0 (leaf k m)) (tree c)).
  assert (tget (tree c) 0 k = Some (leaf k m)) as Hleaf by (apply (Hl (mkEntry a k m)); set_solver).
  assert (0 < length (tree c))%nat as Hlt by (rewrite (tk_length _ _ _ _ _ Ht); lia).
  assert (tree_ok (λ _, times (g1 ++ mkEntry a k m :: g2)) idx top d t0) as Ht0.
  { by apply tree_ok_leaf. }
  destruct (walk_leaf (verifyStack c) (times (g1 ++ mkEntry a k m :: g2)) (times (g1 ++ g2)) idx top k d t0 true 0 Ht0) as (t1 & Hrun & Hok1 & H0).
  { intros x y Hxy. rewrite !fmap_app, fmap_cons. cbn [etime]. rewrite cnt_remove. bools. }
  { intros x [Hx|Hx]; [left|by right]. rewrite fmap_app, fmap_cons in *. set_solver. }
  { left. rewrite fmap_app, fmap_cons. set_solver. }
  { lia. }
  { rewrite fmap_app, fmap_cons. cbn [etime]. lia. }
  { rewrite fmap_app, length_app. rewrite length_app in Hlen. cbn in Hlen. lia. }
  { intros _. rewrite fmap_app, fmap_cons. done. }
  { intros _ [Hx|Hx]; [done|lia]. }
  { symmetry. apply cnt_none. intros x Hx Hxr. assert (x = k) as -> by lia. done. }
  assert (tget t1 0 k = Some (with_sumLeft 0 (leaf k m))) as Hleaf1 by (unfold tget; rewrite H0; fold (tget t0 0 k); unfold t0; rewrite tget_put by done; by rewrite decide_True).
  eexists. split; [done|]. split; [|split].
  - unfold remove_leaf, updateSumsLeavesToRoot. cbn [tree with_aiMap verifyStack]. rewrite (node_at_ok _ _ _ _ Hleaf). cbn [mbind res_bind deref parent leaf isLeftNode].
    unfold t0 in Hrun.
    assert (length (put (0%nat, k) (with_sumLeft 0 (leaf k m)) (tree c)) = length (tree c)) as Hpl by apply length_alter. rewrite Hpl in Hrun. rewrite Hrun.
    cbn [mbind res_bind tree with_tree]. rewrite (node_at_ok _ _ _ _ Hleaf1). cbn [mbind res_bind isMarked with_sumLeft leaf].
    assert (cnt (times (g1 ++ mkEntry a k m :: g2)) (k + 1) (pw d) = Z.of_nat (length g2)) as ->; [|done].
    rewrite fmap_app, fmap_cons. cbn [etime]. rewrite cnt_remove, cnt_app. rewrite (cnt_none (times g1)) by (intros x Hx; specialize (Hs1 x Hx); lia).
    rewrite (cnt_all (times g2)).
    + rewrite length_fmap. bools.
    + intros x Hx. specialize (Hs2 x Hx). assert (x < idx) by (apply Hr; rewrite fmap_app, fmap_cons; set_solver). lia.
  - apply (calc_ok_remove g1 (mkEntry a k m) g2 d c (erase (0%nat, k) t1)); [done|by apply tree_ok_leaf|]. intros e He. rewrite tget_erase.
    assert (etime e ≠ k) as Hek by (intros <-; apply Hk', list_elem_of_fmap; by exists e).
    rewrite decide_False by (by intros []). unfold tget. rewrite H0. fold (tget t0 0 (etime e)). unfold t0. rewrite tget_put by done. rewrite decide_False by (by intros []).
    apply Hl. set_solver.
  - cbn. done.
Qed.

(** ** Growing the tree *)

(** What growing the tree leaves alone. *)
Definition frame (c c' : StackDistCalc) : Prop :=
  index c' = index c ∧ aiMap c' = aiMap c ∧ stack c' = stack c ∧ verifyStack c' = verifyStack c ∧ tree c' !! 0%nat = tree c !! 0%nat ∧ nextIndex c' !! 0%nat = nextIndex c !! 0%nat.

Lemma frame_trans c1 c2 c3 : frame c1 c2 → frame c2 c3 → frame c1 c3.
Proof. unfold frame. intros (?&?&?&?&?&?) (?&?&?&?&?&?). split_and!; congruence. Qed.

(** Levels above [i] are ready for the access at [idx], the others up to the one before. *)
Definition tops (idx : Z) (i v : nat) : Z := if decide (i ≤ v)%nat then idx else idx - 1.

Record growing (l : list Z) (idx : Z) (D i : nat) (t : Tree) (nI : list Z) : Prop := {
  gr_len : length t = S D;
  gr_nodes : ∀ v j, (v < D)%nat → 0 ≤ j ≤ tops idx i v / pw (S v) → present l idx D v j → ∃ n, tget t (S v) j = Some n ∧ node_ok l idx D v j n;
  gr_nlen : length nI = S D;
  gr_next : ∀ v, (v < D)%nat → nI !! S v = Some (tops idx i v / pw (S v) + 1)
}.

Lemma prev_div idx p : 0 < p → idx mod p = 0 → (idx - 1) / p + 1 = idx / p.
Proof.
  intros Hp Hm. pose proof (Z.div_mod idx p ltac:(lia)). enough ((idx - 1) / p = idx / p - 1) by lia.
  symmetry. apply (Z.div_unique_pos _ _ _ (p - 1)); nia.
Qed.

Lemma prev_div_same idx p : 0 < p → idx mod p ≠ 0 → (idx - 1) / p = idx / p.
Proof.
  intros Hp Hm. pose proof (Z.div_mod idx p ltac:(lia)). pose proof (Z.mod_pos_bound idx p Hp). symmetry. apply (Z.div_unique_pos _ _ _ (idx mod p - 1)); nia.
Qed.

(** A level whose last node already covers [idx]. *)
Lemma growing_skip l idx D v t nI : idx mod pw (S v) ≠ 0 → growing l idx D (S v) t nI → growing l idx D v t nI.
Proof.
  intros Hm [H1 H2 H3 H4]. pose proof (pw_pos (S v)).
  assert (∀ u, tops idx v u / pw (S u) = tops idx (S v) u / pw (S u)) as He.
  { intros u. unfold tops. destruct (decide (u = v)) as [->|]; [rewrite decide_True, decide_False by lia; symmetry; by apply prev_div_same|repeat case_decide; (done || lia)]. }
  split; try done; intros u *; rewrite He; auto.
Qed.

Lemma vread_nat (nI : list Z) i x : nI !! i = Some x → vread nI (Z.of_nat i) = Ok x.
Proof. intros Hx. unfold vread. rewrite (proj2 (Z.leb_le 0 (Z.of_nat i))) by lia. by rewrite Nat2Z.id, Hx. Qed.

(** A new inner node covers times that are all to come. *)
Lemma new_node_ok l idx D v : (∀ k, k ∈ l → k < idx) → idx mod pw (S v) = 0 → (S v < D)%nat →
  node_ok l idx D v (idx / pw (S v)) (with_nodeIndex (idx / pw (S v)) (with_parent (Some (S (S v), idx / pw (S (S v)))) (with_isLeftNode (Z.even (idx / pw (S v))) newNode))).
Proof.
  intros Hl Hm Hv. pose proof (pw_pos v). pose proof (pw_pos (S v)). pose proof (Z.div_mod idx (pw (S v)) ltac:(lia)) as Hdm. rewrite (div_pw_S idx (S v)).
  set (j := idx / pw (S v)) in *. clearbody j. rewrite pw_S in Hdm, Hm. split; cbn; try done.
  - symmetry. apply cnt_none. intros k Hk. specialize (Hl k Hk). nia.
  - symmetry. apply cnt_none. intros k Hk. specialize (Hl k Hk). nia.
  - by rewrite decide_False by lia.
Qed.

Lemma new_inode_spec l D v c :
  growing l (index c) D (S v) (tree c) (nextIndex c) → (S v < D)%nat → (∀ k, k ∈ l → k < index c) → index c mod pw (S v) = 0 → 0 < index c < 2 ^ 62 →
  ∃ c', new_inode (S v) c = Ok c' ∧ growing l (index c) D v (tree c') (nextIndex c') ∧ frame c c'.
Proof.
  intros [H1 H2 H3 H4] Hv Hl Hm Hi. set (idx := index c) in *. pose proof (pw_pos (S v)) as Hp. pose proof (pw_pos (S (S v))) as Hp2.
  pose proof (H4 v ltac:(lia)) as Hni. pose proof (H4 (S v) ltac:(lia)) as Hup. unfold tops in Hni, Hup. rewrite decide_False in Hni by lia. rewrite decide_True in Hup by lia.
  rewrite (prev_div idx _ Hp Hm) in Hni.
  assert (0 ≤ idx / pw (S v) ≤ idx) as Hj by (split; [apply Z.div_pos; lia|apply Z.div_le_upper_bound; nia]).
  assert (0 ≤ idx / pw (S (S v)) ≤ idx) as Hj2 by (split; [apply Z.div_pos; lia|apply Z.div_le_upper_bound; nia]).
  destruct (H2 (S v) (idx / pw (S (S v)))) as (pn & Hpn & _); [lia|unfold tops; rewrite decide_True by lia; lia|right; exists idx; split; [by apply in_range|right; lia]|].
  unfold new_inode. rewrite (vread_nat _ _ _ Hni). cbn [mbind res_bind]. rewrite (vread_nat _ _ _ Hup). cbn [mbind res_bind].
  replace (u64 (idx / pw (S (S v)) + 1 - 1)) with (idx / pw (S (S v))) by (rewrite wrap_small; [lia|unfold in_width; lia]).
  rewrite (node_at_ok _ _ _ _ Hpn). cbn [mbind res_bind]. rewrite vwrite_ok by (unfold vsize; lia). cbn [mbind res_bind]. rewrite Nat2Z.id.
  assert (u64 (idx / pw (S v) + 1) = idx / pw (S v) + 1) as -> by (apply wrap_small; unfold in_width; lia).
  replace (u64 (idx / pw (S v) + 1 - 1)) with (idx / pw (S v)) by (rewrite wrap_small; [lia|unfold in_width; lia]).
  assert (((idx / pw (S v)) mod 2 =? 0) = Z.even (idx / pw (S v))) as -> by (rewrite Zmod_even; by destruct (Z.even _)).
  eexists. split; [done|]. cbn [with_nextIndex with_tree tree nextIndex nodeIndex with_nodeIndex]. split.
  - split.
    + unfold put. by rewrite length_alter.
    + intros u j Hu Hjr Hpr. rewrite tget_put by lia. case_decide as Hd.
      * destruct Hd as [Hd ->]. assert (u = v) as -> by lia. eexists. split; [done|]. by apply new_node_ok.
      * apply H2; [done| |done]. split; [lia|]. unfold tops in *. destruct (decide (u = v)) as [->|Huv].
        -- rewrite decide_True in Hjr by lia. rewrite decide_False by lia. pose proof (prev_div idx _ Hp Hm). assert (j ≠ idx / pw (S v)) by (intros ->; by apply Hd). lia.
        -- repeat case_decide; (lia || done).
    + by rewrite length_insert.
    + intros u Hu. unfold tops in *. destruct (decide (u = v)) as [->|Huv].
      * rewrite list_lookup_insert_eq by lia. by rewrite decide_True by lia.
      * rewrite list_lookup_insert_ne by lia. rewrite H4 by done. repeat case_decide; (lia || done).
  - unfold frame, put. cbn. split_and!; try done; [by rewrite list_lookup_alter_ne|by rewrite list_lookup_insert_ne by lia].
Qed.

(** The loop makes every level ready. *)
Lemma inode_loop_spec always l D i c :
  growing l (index c) D i (tree c) (nextIndex c) → (i < D ≤ 31)%nat → (∀ k, k ∈ l → k < index c) → 0 < index c < 2 ^ 62 →
  (always = true → ∀ v, (v < i)%nat → index c mod pw (S v) = 0) →
  ∃ c', inode_loop always i c = Ok c' ∧ growing l (index c) D 0 (tree c') (nextIndex c') ∧ frame c c'.
Proof.
  revert c. induction i as [|i IH]; intros c Hg Hi Hl Hr Ha; [exists c; split_and!; done|]. cbn [inode_loop].
  assert (∃ c1, (if always then new_inode (S i) c else m ← shl1 (S i); if index c mod m =? 0 then new_inode (S i) c else Ok c) = Ok c1 ∧
    growing l (index c) D i (tree c1) (nextIndex c1) ∧ frame c c1) as (c1 & -> & Hg1 & Hf1).
  { destruct always; [apply new_inode_spec; auto; lia|]. unfold shl1. rewrite (proj2 (Z.ltb_lt (Z.of_nat (S i)) 32)), (proj2 (Z.ltb_lt (Z.of_nat (S i)) 31)) by lia.
    cbn [mbind res_bind]. fold (pw (S i)). assert (pw (S i) ≤ 2 ^ 31) as Hpv by (unfold pw; apply Z.pow_le_mono_r; lia). pose proof (pw_pos (S i)).
    rewrite wrap_small by (unfold in_width; lia). destruct (Z.eqb_spec (index c mod pw (S i)) 0); [apply new_inode_spec; auto; lia|].
    exists c. split_and!; [done|by apply growing_skip|done]. }
  cbn [mbind res_bind]. pose proof (proj1 Hf1) as Hidx. destruct (IH c1) as (c2 & -> & Hg2 & Hf2); rewrite ?Hidx in *; auto with lia.
  exists c2. split_and!; [done|done|by eapply frame_trans].
Qed.

(** The tree is ready for the access at [index c]. *)
Definition next_ok (idx top : Z) (d : nat) (nI : list Z) : Prop := length nI = S d ∧ ∀ v, (v < d)%nat → nI !! S v = Some (top / pw (S v) + 1).

Definition ready (l : list Z) (D : nat) (c : StackDistCalc) : Prop :=
  tree_ok (λ _, l) (index c) (index c) D (tree c) ∧ next_ok (index c) (index c) D (nextIndex c) ∧ (D = 1%nat ∨ pw (D - 1) ≤ index c).

Lemma growing_ready l D c : growing l (index c) D 0 (tree c) (nextIndex c) → (1 ≤ D)%nat → 0 ≤ index c < pw D → (D = 1%nat ∨ pw (D - 1) ≤ index c) → ready l D c.
Proof.
  intros [H1 H2 H3 H4] HD Hi Hd. assert (∀ v, tops (index c) 0 v = index c) as Ht by (intros v; unfold tops; by rewrite decide_True by lia).
  split_and!; [split; try done; intros v j; specialize (H2 v j); by rewrite Ht in H2|split; [done|]; intros v Hv; rewrite H4, Ht by done; done|done].
Qed.

Lemma tree_ok_growing l idx d i t nI : 0 < idx → tree_ok (λ _, l) idx (Z.max 0 (idx - 1)) d t → next_ok idx (Z.max 0 (idx - 1)) d nI → (i = d ∨ i = d - 1)%nat → (i = d ∨ idx < pw d) → growing l idx d i t nI.
Proof.
  intros H0 [H1 H2 H3 H4] [N1 N2] Hi Hlt. rewrite Z.max_r in * by lia.
  assert (∀ v, (v < d)%nat → tops idx i v / pw (S v) = (idx - 1) / pw (S v)) as Ht.
  { intros v Hv. unfold tops. case_decide; [|done]. assert (S v = d) as -> by lia. rewrite !Z.div_small; lia. }
  split; try done; [intros v j Hv; rewrite Ht by done; by apply H4|intros v Hv; rewrite Ht by done; by apply N2].
Qed.

(** The new root, and the old one under it. *)
Lemma new_root_ok l idx d n : node_ok l idx (S d) d 0 n → (∀ k, k ∈ l → k < idx) → idx = pw (S d) → Z.of_nat (length l) < 2 ^ 62 →
  node_ok l idx (S (S d)) (S d) 0 (with_discardLeft (discardLeft n && discardRight n) (with_sumLeft (u64 (sumRight n + sumLeft n)) newNode)).
Proof.
  intros [H1 H2 H3 H4 H5 H6 H7] Hl Hi Hs. pose proof (pw_pos d). pose proof (node_sum l d 0) as Hsum. pose proof (cnt_range l 0 (pw (S d))).
  replace (0 * pw (S d)) with 0 in Hsum by lia. replace ((0 + 1) * pw (S d)) with (pw (S d)) in Hsum by lia. split; cbn; try done.
  - rewrite wrap_small by (unfold in_width; lia). replace (_ * 0 * _) with 0 by lia. replace ((2 * 0 + 1) * pw (S d)) with (pw (S d)) by lia. cbn. destruct (pw (S d)) eqn:E; lia.
  - symmetry. apply cnt_none. intros k Hk. specialize (Hl k Hk). lia.
  - by rewrite decide_True.
  - intros [Hdl Hdr]%andb_prop x Hx. rewrite pw_S in Hx. destruct (decide (x < pw d)); [apply (H6 Hdl); lia|apply (H7 Hdr); lia].
Qed.

Lemma grown_ok l d t nI idx old :
  tree_ok (λ _, l) idx (Z.max 0 (idx - 1)) (S d) t → next_ok idx (Z.max 0 (idx - 1)) (S d) nI → (∀ k, k ∈ l → k < idx) → idx = pw (S d) → Z.of_nat (length l) < 2 ^ 62 →
  tget t (S d) 0 = Some old → node_ok l idx (S d) d 0 old →
  growing l idx (S (S d)) (S d)
    (put (S d, 0) (with_parent (Some (S (S d), 0)) old) (t ++ [{[0 := with_discardLeft (discardLeft old && discardRight old) (with_sumLeft (u64 (sumRight old + sumLeft old)) newNode)]}]))
    (nI ++ [1]).
Proof.
  intros [H1 H2 H3 H4] [N1 N2] Hl Hi Hs Hold Hok. pose proof (pw_pos (S d)) as Hp. rewrite Z.max_r in * by lia.
  assert (idx / pw (S (S d)) = 0) as Hz by (rewrite Z.div_small; [done|rewrite pw_S; lia]).
  assert ((idx - 1) / pw (S d) = 0) as Hz1 by (apply Z.div_small; lia).
  set (root := with_discardLeft _ _). split.
  - unfold put. rewrite length_alter, length_app, H1. cbn. lia.
  - intros v j Hv Hj Hpr. rewrite tget_put by (rewrite length_app; lia). unfold tops in Hj. destruct (decide (v = S d)) as [->|Hne].
    + rewrite decide_False by (intros []; lia). rewrite decide_True in Hj by lia. assert (j = 0) as -> by lia. exists root. split; [|by apply new_root_ok].
      unfold tget. rewrite lookup_app_r by lia. rewrite H1, Nat.sub_diag. apply lookup_singleton_eq.
    + rewrite decide_False in Hj by lia. case_decide as Hd.
      * destruct Hd as [Hd ->]. assert (v = d) as -> by lia. eexists. split; [done|]. destruct Hok as [K1 K2 K3 K4 K5 K6 K7]. split; cbn; try done. by rewrite decide_False by lia.
      * destruct Hpr as [Hpr|Hpr]; [lia|]. destruct (H4 v j) as (n & Hn & [K1 K2 K3 K4 K5 K6 K7]); [lia|done|by right|]. exists n. split.
        -- unfold tget. rewrite lookup_app_l by lia. done.
        -- split; try done. rewrite decide_False in K5; [by rewrite decide_False by lia|]. intros Heq. assert (v = d) as -> by lia. apply Hd. split; [done|lia].
  - rewrite length_app, N1. cbn. lia.
  - intros v Hv. unfold tops. destruct (decide (v = S d)) as [->|Hne].
    + rewrite lookup_app_r by lia. rewrite N1, Nat.sub_diag, decide_True by lia. cbn. by rewrite Hz.
    + rewrite lookup_app_l by lia. rewrite decide_False by lia. apply N2. lia.
Qed.

Lemma pw_divides v d : (v ≤ d)%nat → pw d mod pw v = 0.
Proof. intros Hv. unfold pw. replace (Z.of_nat d) with (Z.of_nat (d - v) + Z.of_nat v) by lia. rewrite Z.pow_add_r by lia. apply Z.mod_mul. lia. Qed.

Lemma pw_lt_inv u v : pw u < pw v → (u < v)%nat.
Proof. unfold pw. intros H. apply Z.pow_lt_mono_r_iff in H; lia. Qed.

Lemma updateTree_spec l d c :
  tree_ok (λ _, l) (index c) (Z.max 0 (index c - 1)) d (tree c) → next_ok (index c) (Z.max 0 (index c - 1)) d (nextIndex c) →
  (∀ k, k ∈ l → k < index c) → Z.of_nat (length l) < 2 ^ 62 → 0 ≤ index c ≤ pw d → index c < 2 ^ 30 → (d = 1%nat ∨ pw (d - 1) < index c) → Z.even (index c) = true →
  ∃ D c', updateTree c = Ok c' ∧ ready l D c' ∧ frame c c'.
Proof.
  intros Ht Hn Hl Hs Hi Hlt Hd He. pose proof (tk_depth _ _ _ _ _ Ht) as Hd1. unfold updateTree, getTreeDepth. rewrite (tk_length _ _ _ _ _ Ht).
  replace (S d - 1)%nat with d by lia.
  assert (d ≤ 30)%nat as Hd30 by (destruct Hd as [->|Hd]; [lia|]; enough (d - 1 < 30)%nat by lia; apply pw_lt_inv; change (pw 30) with (2 ^ 30); lia).
  destruct (IntMath.isPowerOf2 64 (index c)) eqn:Hpow.
  - apply IntMath.isPowerOf2_correct in Hpow as (e & He64 & Hpe); [|lia|unfold in_width; lia].
    assert (index c = pw d) as Hid.
    { destruct (decide (e = 0)) as [->|He0]; [by rewrite Hpe in He|]. assert (pw (Z.to_nat e) = index c) as Hpw by (unfold pw; rewrite Z2Nat.id; lia). rewrite <- Hpw in *.
      assert (Z.to_nat e = d) as ->; [|done]. assert (¬ (d < Z.to_nat e)%nat) as H1 by (intros Hx; assert (pw d < pw (Z.to_nat e)) by (apply Z.pow_lt_mono_r; lia); lia).
      destruct Hd as [->|Hd]; [lia|]. apply pw_lt_inv in Hd. lia. }
    destruct d as [|d]; [lia|]. destruct (tk_nodes _ _ _ _ _ Ht d 0) as (old & Hold & Hok); [lia|rewrite Z.max_r, Z.div_small; lia|by left|].
    rewrite (node_at_ok _ _ _ _ Hold). cbn [mbind res_bind].
    pose proof (grown_ok l d _ _ _ old Ht Hn Hl Hid Hs Hold Hok) as Hg.
    destruct (inode_loop_spec true l (S (S d)) (S d) (with_nextIndex (nextIndex c ++ [1])
      (with_tree (put (S d, 0) (with_parent (Some (S (S d), 0)) old) (tree c ++ [{[0 := with_discardLeft (discardLeft old && discardRight old) (with_sumLeft (u64 (sumRight old + sumLeft old)) newNode)]}])) c)))
      as (c' & Hrun & Hg' & Hf); [exact Hg|lia|done|cbn; pose proof (pw_pos (S d)); lia|intros _ v Hv; cbn; rewrite Hid; apply pw_divides; lia|].
    exists (S (S d)), c'. split_and!; [done| |].
    + pose proof (proj1 Hf) as Hidx. cbn in Hidx. apply growing_ready; rewrite ?Hidx; [exact Hg'|lia|rewrite (pw_S (S d)); lia|right; replace (S (S d) - 1)%nat with (S d) by lia; lia].
    + eapply frame_trans; [|exact Hf]. destruct Ht as [T1 _ _ _], Hn as [N1 _]. unfold frame, put. cbn. split_and!; try done; [|by rewrite lookup_app_l by lia].
      rewrite list_lookup_alter_ne by done. by rewrite lookup_app_l by lia.
  - assert (index c ≠ pw d) as Hid.
    { intros Hx. enough (IntMath.isPowerOf2 64 (index c) = true) by congruence. apply IntMath.isPowerOf2_correct; [lia|unfold in_width; lia|]. exists (Z.of_nat d). split; [lia|done]. }
    destruct (decide (index c = 0)) as [H0|H0].
    + assert (d = 1%nat) as -> by (destruct Hd as [?|Hd]; [done|]; pose proof (pw_pos (d - 1)); lia). exists 1%nat, c. split_and!; try done.
      split_and!; [by rewrite H0 in *|by rewrite H0 in *|by left].
    + destruct (inode_loop_spec false l d (d - 1) c) as (c' & Hrun & Hg & Hf); [apply tree_ok_growing; auto; lia|lia|done|lia|done|].
      exists d, c'. split_and!; [done| |done]. pose proof (proj1 Hf) as Hidx. apply growing_ready; rewrite ?Hidx; [done|lia|lia|]. destruct Hd; [by left|right; lia].
Qed.

Lemma odd_ready l d c :
  tree_ok (λ _, l) (index c) (Z.max 0 (index c - 1)) d (tree c) → next_ok (index c) (Z.max 0 (index c - 1)) d (nextIndex c) →
  0 ≤ index c ≤ pw d → (d = 1%nat ∨ pw (d - 1) < index c) → Z.even (index c) = false → ready l d c.
Proof.
  intros Ht Hn Hi Hd He. pose proof (tk_depth _ _ _ _ _ Ht) as Hd1. assert (0 < index c) as H0 by (destruct (decide (index c = 0)) as [Hz|]; [by rewrite Hz in He|lia]).
  assert (∀ v, index c mod pw (S v) ≠ 0) as Hm.
  { intros v Hm. rewrite Z.mod_divide in Hm by (pose proof (pw_pos (S v)); lia). destruct Hm as [q Hq]. rewrite Hq, pw_S, Z.even_mul, Z.even_mul in He. by rewrite orb_true_r in He. }
  apply growing_ready; [|done| |destruct Hd; [by left|right; lia]].
  - assert (∀ i, (i ≤ d)%nat → growing l (index c) d (d - i) (tree c) (nextIndex c)) as Hall; [|by rewrite <- (Nat.sub_diag d); apply Hall].
    induction i as [|i IH]; intros Hle; [rewrite Nat.sub_0_r; by apply tree_ok_growing; auto|]. apply growing_skip; [apply Hm|]. replace (S (d - S i)) with (d - i)%nat by lia. apply IH. lia.
  - split; [lia|]. enough (index c ≠ pw d) by lia. intros Hx. destruct d as [|d]; [lia|]. rewrite Hx, pw_S, Z.even_mul in He. done.
Qed.

(** ** The new leaf *)

Lemma tree_ok_time l idx top d t : tree_ok (λ _, l ++ [idx]) idx top d t → tree_ok (λ _, l ++ [idx]) (idx + 1) top d t.
Proof.
  assert (∀ x, wanted (l ++ [idx]) idx x ↔ wanted (l ++ [idx]) (idx + 1) x) as Hw.
  { intros x. unfold wanted. destruct (decide (x = idx)) as [->|Hx]; [set_solver|]. split; (intros [?|?]; [by left|right; lia]). }
  intros [H1 H2 H3 H4]. split; try done. intros v j Hv Hj Hp. destruct (H4 v j Hv Hj) as (n & Hn & [K1 K2 K3 K4 K5 K6 K7]).
  - destruct Hp as [Hp|(x & Hx & Hxw)]; [by left|right; exists x; split; [done|by apply Hw]].
  - exists n. split; [done|]. split; try done; intros Hd x Hx Hxw; [apply (K6 Hd x Hx)|apply (K7 Hd x Hx)]; by apply Hw.
Qed.

(** The leaf goes in, and the sums with it. *)
Lemma leaf_walk l D c :
  ready l D c → (∀ k, k ∈ l → 0 ≤ k < index c) → NoDup l → 0 ≤ index c < 2 ^ 30 → (D ≤ 31)%nat →
  let leaf0 := with_parent (Some (1%nat, index c / 2)) (with_isLeftNode (Z.even (index c)) (with_nodeIndex (index c) newNode)) in
  ∃ t', updateSumsLeavesToRoot (index c) true (with_tree (put (0%nat, index c) leaf0 (tree c)) c) = Ok (Infinity, with_tree t' c) ∧
    tree_ok (λ _, l ++ [index c]) (index c + 1) (index c) D t' ∧ t' !! 0%nat = (put (0%nat, index c) (leaf (index c) false) (tree c)) !! 0%nat.
Proof.
  intros (Ht & _ & _) Hl Hnd Hi HD leaf0. pose proof (tk_length _ _ _ _ _ Ht) as Hlen. set (idx := index c) in *. set (t0 := put (0%nat, idx) leaf0 (tree c)).
  assert (tget t0 0 idx = Some leaf0) as H0 by (unfold t0; rewrite tget_put by lia; by rewrite decide_True).
  assert (put (0%nat, idx) (with_sumLeft 1 leaf0) t0 = put (0%nat, idx) (leaf idx false) (tree c)) as Hput.
  { unfold t0, put. cbn. destruct (tree c) as [|m t]; cbn; [done|]. f_equal. by rewrite insert_insert_eq. }
  set (t1 := put (0%nat, idx) (leaf idx false) (tree c)) in *. assert (tree_ok (λ _, l) idx idx D t1) as Ht1 by (by apply tree_ok_leaf).
  assert (Z.of_nat (length l) ≤ idx) as Hll by (rewrite <- (cnt_all l 0 idx) by done; pose proof (cnt_bound l 0 idx Hnd ltac:(lia)); lia).
  assert (idx ∉ l) as Hnin by (intros Hx; specialize (Hl _ Hx); lia).
  destruct (walk_leaf (verifyStack c) l (l ++ [idx]) idx idx idx D t1 false 1 Ht1) as (t' & Hrun & Hok & Hz).
  { intros x y Hxy. rewrite cnt_app, cnt_cons. cbn. change (cnt [] x y) with 0. bools. }
  { intros x [[Hx|Hx]%elem_of_app|Hx]; [by left|apply list_elem_of_singleton in Hx; right; lia|by right]. }
  { right. lia. }
  { lia. }
  { lia. }
  { rewrite length_app. cbn. lia. }
  { done. }
  { done. }
  { rewrite cnt_app, cnt_cons. change (cnt [] idx (idx + 1)) with 0. rewrite cnt_none by (intros k Hk; specialize (Hl k Hk); lia). bools. }
  exists t'. split_and!; [|by apply tree_ok_time|done].
  unfold updateSumsLeavesToRoot. cbn [tree with_tree verifyStack]. rewrite (node_at_ok _ _ _ _ H0). cbn [mbind res_bind deref parent leaf0 isLeftNode with_parent with_isLeftNode].
  rewrite Hput. replace (length t0) with (length t1) by (unfold t0, t1, put; by rewrite !length_alter). rewrite Hrun. done.
Qed.

Lemma ready_depth l D c : ready l D c → index c < 2 ^ 30 → (D ≤ 31)%nat.
Proof.
  intros (_ & _ & [->|Hd]) Hi; [lia|]. enough (D - 1 < 30)%nat by lia. apply pw_lt_inv. change (pw 30) with (2 ^ 30). lia.
Qed.

(** [g] is what is alive; [aiMap c] may already have the new access. *)
Lemma add_leaf_spec g d c a m :
  calc_ok g d (with_aiMap m c) → index c < 2 ^ 30 →
  ∃ D c', add_leaf c = Ok c' ∧ tree_ok (λ _, times g ++ [index c]) (index c + 1) (index c) D (tree c') ∧ leaves_ok (g ++ [mkEntry a (index c) false]) (tree c') ∧
    next_ok (index c) (index c) D (nextIndex c') ∧ nextIndex c' !! 0%nat = Some (index c + 1) ∧ (D = 1%nat ∨ pw (D - 1) ≤ index c) ∧
    index c' = index c ∧ aiMap c' = aiMap c ∧ stack c' = stack c ∧ verifyStack c' = verifyStack c.
Proof.
  intros Hc Hi. destruct (calc_bounds _ _ _ Hc Hi) as (Hnd & Hlen & Hd31). destruct Hc as [Hs Hr Hna Hm Ht Hl (N1 & N2 & N3) (Hdp & Hd)]. cbn in *.
  assert (∃ D c1, (if index c mod 2 =? 0 then updateTree c else Ok c) = Ok c1 ∧ ready (times g) D c1 ∧ frame c c1) as (D & c1 & Hup & Hrd & (F1 & F2 & F3 & F4 & F5 & F6)).
  { assert ((index c mod 2 =? 0) = Z.even (index c)) as -> by (rewrite Zmod_even; by destruct (Z.even _)). destruct (Z.even (index c)) eqn:He.
    - apply (updateTree_spec (times g) d c); try done; [by intros k Hk; apply Hr|lia].
    - exists d, c. split_and!; try done. by apply odd_ready. }
  unfold add_leaf. rewrite Hup. cbn [mbind res_bind]. pose proof Hrd as (Ht1 & (M1 & M2) & Hd1). rewrite F1 in *.
  rewrite (vread_nat _ 0 (index c)) by (rewrite F6; done). cbn [mbind res_bind]. pose proof (tk_depth _ _ _ _ _ Ht1) as HD1.
  rewrite (vread_nat _ 1 (index c / 2 + 1)) by (apply (M2 0%nat); lia). cbn [mbind res_bind]. rewrite vwrite_ok by (unfold vsize; lia). cbn [mbind res_bind].
  assert (0 ≤ index c / 2 ≤ index c) as Hh by (split; [apply Z.div_pos; lia|apply Z.div_le_upper_bound; lia]).
  replace (u64 (index c / 2 + 1 - 1)) with (index c / 2) by (rewrite wrap_small; [lia|unfold in_width; lia]).
  destruct (tk_nodes _ _ _ _ _ Ht1 0 (index c / 2)) as (pn & Hpn & _); [lia|change (pw 1) with 2; lia|right; exists (index c); split; [by apply in_range|right; lia]|].
  rewrite (node_at_ok _ _ _ _ Hpn). cbn [mbind res_bind]. assert ((index c mod 2 =? 0) = Z.even (index c)) as -> by (rewrite Zmod_even; by destruct (Z.even _)).
  assert (u64 (index c + 1) = index c + 1) as -> by (apply wrap_small; unfold in_width; lia).
  set (c2 := with_nextIndex _ c1). assert (index c2 = index c) as Hi2 by done.
  destruct (leaf_walk (times g) D c2) as (t' & Hrun & Hok & Hz); [|by rewrite Hi2|done|lia|by apply (ready_depth (times g) D c1); rewrite ?F1|].
  { split_and!; rewrite ?Hi2; [done| |done]. split; [by cbn; rewrite length_insert|]. intros v Hv. cbn. rewrite list_lookup_insert_ne by lia. by apply M2. }
  rewrite Hi2 in *. change (tree c2) with (tree c1) in *.
  exists D, (with_tree t' c2). split_and!; try done.
  - match goal with |- context [updateSumsLeavesToRoot ?i _ _] => replace i with (index c) by exact (eq_sym F1) end.
    rewrite Hrun. done.
  - intros e He. cbn. unfold tget. rewrite Hz. fold (tget (put (0%nat, index c) (leaf (index c) false) (tree c1)) 0 (etime e)).
    rewrite tget_put by (rewrite (tk_length _ _ _ _ _ Ht1); lia). apply elem_of_app in He as [He|He%list_elem_of_singleton].
    + assert (etime e ∈ times g) as Hin by (apply list_elem_of_fmap; by exists e). specialize (Hr _ Hin). rewrite decide_False by (intros []; lia).
      unfold tget. rewrite F5. by apply Hl.
    + subst e. by rewrite decide_True.
  - split; [by cbn; rewrite length_insert|]. intros v Hv. cbn. rewrite list_lookup_insert_ne by lia. by apply M2.
  - cbn. by rewrite list_lookup_insert_eq by lia.
Qed.

(** ** Accesses keep the state right *)

Lemma calc_ok_add g d c D c' a m :
  calc_ok g d (with_aiMap m c) → m !! a = None → 
  tree_ok (λ _, times g ++ [index c]) (index c + 1) (index c) D (tree c') → leaves_ok (g ++ [mkEntry a (index c) false]) (tree c') →
  next_ok (index c) (index c) D (nextIndex c') → nextIndex c' !! 0%nat = Some (index c + 1) → (D = 1%nat ∨ pw (D - 1) ≤ index c) →
  index c' = index c + 1 → aiMap c' = <[a := index c]> m → calc_ok (g ++ [mkEntry a (index c) false]) D c'.
Proof.
  intros [Hs Hr Hna Hm Ht Hl _ (Hdp & _)] Ha Ht' Hl' (M1 & M2) M0 HD Hi' Hai. cbn in *.
  split; rewrite ?fmap_app, ?Hi'; try done; cbn [fmap list_fmap etime eaddr].
  - clear -Hs Hr. induction (times g) as [|k l IH]; [repeat constructor|]. apply StronglySorted_inv in Hs as [Hs Hf]. cbn. constructor; [apply IH; [done|intros x Hx; apply Hr; by right]|].
    apply Forall_app. split; [done|]. constructor; [|constructor]. apply Hr. by left.
  - intros k [Hk|Hk%list_elem_of_singleton]%elem_of_app; [specialize (Hr k Hk); lia|lia].
  - apply NoDup_app. split_and!; [done| |apply NoDup_singleton]. intros x (e & -> & He)%list_elem_of_fmap Hx%list_elem_of_singleton.
    destruct e as [a' k mk]. cbn in Hx. subst. rewrite (proj2 (Hm a k)) in Ha; [done|by exists mk].
  - intros b k. rewrite Hai, lookup_insert_Some, Hm. split.
    + intros [[-> <-]|[Hne (mk & Hin)]]; [exists false; set_solver|exists mk; set_solver].
    + intros (mk & [Hin|Hin%list_elem_of_singleton]%elem_of_app); [|left; by simplify_eq]. right. split; [|by exists mk].
      intros <-. rewrite (proj2 (Hm a k)) in Ha; [done|by exists mk].
  - replace (Z.max 0 (index c + 1 - 1)) with (index c) by lia. done.
  - split_and!; [done|done|]. intros v Hv. replace (Z.max 0 (index c + 1 - 1)) with (index c) by lia. by apply M2.
  - destruct Ht' as [_ _ Ht3 _]. split; [lia|]. destruct HD; [by left|right; lia].
Qed.

Lemma sanity_ok l idx top D t k m : tree_ok (λ _, l) idx top D t → tget t 0 k = Some (leaf k m) → k ∈ l → 0 ≤ k ≤ top → sanityCheckTree k t = Ok tt.
Proof.
  intros Ht Hk Hin Hr. unfold sanityCheckTree. rewrite (node_at_ok _ _ _ _ Hk). cbn [mbind res_bind deref parent leaf]. unfold getTreeDepth. rewrite (tk_length _ _ _ _ _ Ht).
  replace (k / 2) with (k / pw 1) by done. apply (sanity_up_spec false l [] idx top k D); try done; [by left|pose proof (tk_depth _ _ _ _ _ Ht); lia].
Qed.

End StackDistProofs.
