(* ===== verification/StackDistSpec.v ===== *)
(** * Stack distances against the plain stack

    The reference is the list of addresses in order of their last use.  A sequence of accesses
    gives the same distances and marks on it as on the tree of partial sums; with verification on,
    accesses that only remove an address are excepted, as they make the next access panic. *)

From Stdlib Require Import Sorted.
From S2P Require Import Prelude IntMath StackDist StackDistProofs.

Open Scope Z_scope.

Module StackDistSpec.
Import StackDist StackDistProofs.

(** ** The reference *)

(** An access with or without a new entry, or a query that also sets the mark. *)
Inductive Op :=
  | Update (a : Z) (addNewNode : bool)
  | Query (a : Z) (mark : bool).

(** The last used address is first; each has its mark. *)
Abbreviation Recency := (list (Z * bool)).

(** How many addresses are in front of [a], and its mark. *)
Fixpoint distance (a : Z) (s : Recency) : Z * bool :=
  match s with
  | [] => (Infinity, false)
  | (b, m) :: s => if b =? a then (0, m) else let '(x, m) := distance a s in (if x =? Infinity then Infinity else x + 1, m)
  end.

Definition forget (a : Z) (s : Recency) : Recency := List.filter (λ e, negb (e.1 =? a)) s.
Definition set_mark (a : Z) (mark : bool) (s : Recency) : Recency := (λ e, if e.1 =? a then (a, mark) else e) <$> s.

Definition spec_step (op : Op) (s : Recency) : (Z * bool) * Recency :=
  match op with
  | Update a add => (distance a s, if add then (a, false) :: forget a s else forget a s)
  | Query a mark => (distance a s, set_mark a mark s)
  end.

Fixpoint spec_run (ops : list Op) (s : Recency) : list (Z * bool) :=
  match ops with
  | [] => []
  | op :: ops => let '(r, s) := spec_step op s in r :: spec_run ops s
  end.

(** ** The calculator *)

Definition step (op : Op) (c : StackDistCalc) : res (Z * bool * StackDistCalc) :=
  match op with
  | Update a add => calcStackDistAndUpdate a add c
  | Query a mark => calcStackDist a mark c
  end.

Fixpoint run (ops : list Op) (c : StackDistCalc) : res (list (Z * bool)) :=
  match ops with
  | [] => Ok []
  | op :: ops => '(r, c) ← step op c; rs ← run ops c; Ok (r :: rs)
  end.

Lemma run_cons op ops c r c' : step op c = Ok (r, c') → run (op :: ops) c = rs ← run ops c'; Ok (r :: rs).
Proof. intros H. cbn [run]. by rewrite H. Qed.

Definition adds (op : Op) : bool := match op with Update _ add => add | Query _ _ => true end.

(** ** The stack behind a state *)

Definition recency (g : list Entry) : Recency := rev ((λ e, (eaddr e, emark e)) <$> g).

Record sim (n : Z) (g : list Entry) (c : StackDistCalc) : Prop := {
  sim_ok : ∃ d, calc_ok g d c;
  sim_stack : verifyStack c = true → stack c = eaddr <$> g;
  sim_time : index c ≤ n
}.

Lemma distance_absent a s : a ∉ s.*1 → distance a s = (Infinity, false).
Proof.
  induction s as [|[b m] s IH]; [done|]. cbn. intros Hn. apply not_elem_of_cons in Hn as [Hb Hn]. rewrite (proj2 (Z.eqb_neq b a)) by done. by rewrite IH.
Qed.

Lemma distance_present a m s1 s2 : a ∉ s1.*1 → Z.of_nat (length s1) < Infinity → distance a (s1 ++ (a, m) :: s2) = (Z.of_nat (length s1), m).
Proof.
  induction s1 as [|[b m'] s1 IH]; cbn [app distance length]; [by rewrite Z.eqb_refl|]. intros Hn Hl. apply not_elem_of_cons in Hn as [Hb Hn]. cbn in Hb.
  rewrite (proj2 (Z.eqb_neq b a)) by done. rewrite IH by (done || lia). rewrite (proj2 (Z.eqb_neq _ Infinity)) by lia. f_equal. lia.
Qed.

Lemma forget_absent a s : a ∉ s.*1 → forget a s = s.
Proof.
  induction s as [|[b m] s IH]; [done|]. cbn. intros Hn. apply not_elem_of_cons in Hn as [Hb Hn]. rewrite (proj2 (Z.eqb_neq b a)) by done. cbn. f_equal. by apply IH.
Qed.

Lemma forget_present a m s1 s2 : a ∉ s1.*1 → a ∉ s2.*1 → forget a (s1 ++ (a, m) :: s2) = s1 ++ s2.
Proof. intros H1 H2. unfold forget. rewrite List.filter_app. cbn. rewrite Z.eqb_refl. cbn. f_equal; by apply forget_absent. Qed.

Lemma set_mark_absent a mk s : a ∉ s.*1 → set_mark a mk s = s.
Proof.
  induction s as [|[b m] s IH]; [done|]. cbn. intros Hn. apply not_elem_of_cons in Hn as [Hb Hn]. rewrite (proj2 (Z.eqb_neq b a)) by done. f_equal. by apply IH.
Qed.

Lemma set_mark_present a m mk s1 s2 : a ∉ s1.*1 → a ∉ s2.*1 → set_mark a mk (s1 ++ (a, m) :: s2) = s1 ++ (a, mk) :: s2.
Proof.
  intros H1 H2. unfold set_mark. rewrite fmap_app, fmap_cons. cbn [fst]. rewrite Z.eqb_refl. fold (set_mark a mk s1) (set_mark a mk s2). by rewrite !set_mark_absent.
Qed.

Lemma recency_addrs g : (recency g).*1 ≡ₚ eaddr <$> g.
Proof.
  unfold recency. transitivity (fst <$> ((λ e, (eaddr e, emark e)) <$> g)); [apply fmap_Permutation; symmetry; apply Permutation_rev|].
  rewrite <- list_fmap_compose. done.
Qed.

Lemma recency_split g1 a k m g2 : recency (g1 ++ mkEntry a k m :: g2) = recency g2 ++ (a, m) :: recency g1.
Proof. unfold recency. rewrite fmap_app, fmap_cons, rev_app_distr. cbn [rev eaddr emark]. by rewrite <- app_assoc. Qed.

Lemma recency_app g1 g2 : recency (g1 ++ g2) = recency g2 ++ recency g1.
Proof. unfold recency. by rewrite fmap_app, rev_app_distr. Qed.

Lemma length_recency g : length (recency g) = length g.
Proof. unfold recency. by rewrite length_rev, length_fmap. Qed.

Lemma split_absent g1 a k m g2 : NoDup (eaddr <$> (g1 ++ mkEntry a k m :: g2)) → (a ∉ (recency g1).*1) ∧ (a ∉ (recency g2).*1).
Proof.
  rewrite fmap_app, fmap_cons. cbn. intros (H1 & H2 & (H3 & H4)%NoDup_cons)%NoDup_app. rewrite !recency_addrs. split; [|done]. intros Hx. apply (H2 _ Hx). by left.
Qed.

(** ** The verification stack *)

Lemma naive_absent a l x : a ∉ l → naive_search a l x = None.
Proof.
  revert x. induction l as [|b l IH]; intros x Hn; [done|]. apply not_elem_of_cons in Hn as [Hb Hn]. cbn. rewrite (proj2 (Z.eqb_neq b a)) by done. by rewrite IH.
Qed.

Lemma naive_present a l1 l2 x : a ∉ l1 → 0 ≤ x → x + Z.of_nat (length l1) < 2 ^ 64 → naive_search a (l1 ++ a :: l2) x = Some (x + Z.of_nat (length l1), l1 ++ l2).
Proof.
  revert x. induction l1 as [|b l1 IH]; intros x Hn Hx Hl; cbn [app naive_search length] in *; [rewrite Z.eqb_refl; f_equal; f_equal; lia|].
  apply not_elem_of_cons in Hn as [Hb Hn]. rewrite (proj2 (Z.eqb_neq b a)) by done. rewrite (wrap_small 64 (x + 1)) by (unfold in_width; lia).
  rewrite IH by (done || lia). f_equal. f_equal. lia.
Qed.

Lemma verify_absent a u g c : stack c = eaddr <$> g → a ∉ (eaddr <$> g) → verifyStackDist a u c = (Infinity, if u then with_stack ((eaddr <$> g) ++ [a]) c else c).
Proof. intros Hs Hn. unfold verifyStackDist. rewrite Hs. rewrite naive_absent; [done|]. by rewrite <- Permutation_rev. Qed.

Lemma verify_present a u g1 k m g2 c : stack c = eaddr <$> (g1 ++ mkEntry a k m :: g2) → NoDup (stack c) → Z.of_nat (length g2) < 2 ^ 62 →
  verifyStackDist a u c = (Z.of_nat (length g2), if u then with_stack ((eaddr <$> (g1 ++ g2)) ++ [a]) c else c).
Proof.
  intros Hs Hnd Hl. rewrite Hs in Hnd. unfold verifyStackDist. rewrite Hs. rewrite fmap_app, fmap_cons in *. cbn [eaddr] in *. rewrite rev_app_distr. cbn [rev]. rewrite <- app_assoc. cbn [app].
  apply NoDup_app in Hnd as (_ & _ & (Hn & _)%NoDup_cons).
  rewrite naive_present; [|by rewrite <- Permutation_rev|lia|rewrite length_rev, length_fmap; lia]. rewrite length_rev, length_fmap, fmap_app. rewrite rev_app_distr, !rev_involutive. done.
Qed.

(** ** One access *)

Lemma absent_addr g d c a : calc_ok g d c → aiMap c !! a = None → a ∉ (eaddr <$> g).
Proof. intros Hc Ha ([a' k m] & -> & He)%list_elem_of_fmap. cbn in Ha. assert (aiMap c !! a' = Some k) by (apply (ck_map _ _ _ Hc); by exists m). congruence. Qed.

(** The new leaf, and the verification after it. *)
Lemma access_spec g0 d c1 a m x n :
  calc_ok g0 d (with_aiMap m c1) → m !! a = None → aiMap c1 = <[a := index c1]> m → index c1 ≤ n < 2 ^ 30 →
  (verifyStack c1 = true → verifyStackDist a true (with_stack (stack c1) c1) = (x, with_stack ((eaddr <$> g0) ++ [a]) c1)) →
  ∃ c', (c ← add_leaf c1;
         c ← (if verifyStack c then
                _ ← sanityCheckTree (index c) (tree c);
                let '(v, c) := verifyStackDist a true c in if negb (v =? x) then Fail Panicked else Ok c
              else Ok c);
         Ok (with_index (u64 (index c + 1)) c)) = Ok c' ∧
    sim (n + 1) (g0 ++ [mkEntry a (index c1) false]) c' ∧ verifyStack c' = verifyStack c1.
Proof.
  intros Hc Hm Hai Hi Hv. destruct (add_leaf_spec g0 d c1 a m Hc ltac:(lia)) as (D & c2 & -> & Ht & Hl & Hn & Hn0 & HD & E1 & E2 & E3 & E4). cbn [mbind res_bind].
  rewrite E4, E1. assert (0 ≤ index c1) as H0 by apply (ck_depth _ _ _ Hc).
  assert (u64 (index c1 + 1) = index c1 + 1) as Hu by (apply wrap_small; unfold in_width; lia).
  assert (∀ st, calc_ok (g0 ++ [mkEntry a (index c1) false]) D (with_index (index c1 + 1) (with_stack st c2))) as Hok by (intros st; eapply calc_ok_add; cbn; rewrite ?E2; done).
  destruct (verifyStack c1) eqn:Hver.
  - rewrite (sanity_ok (times g0 ++ [index c1]) (index c1 + 1) (index c1) D (tree c2) (index c1) false);
      [|done|apply (Hl (mkEntry a (index c1) false)); set_solver|set_solver|lia].
    cbn [mbind res_bind]. specialize (Hv eq_refl). unfold verifyStackDist in *. cbn [stack with_stack] in Hv. rewrite E3.
    assert (∃ st, st = (eaddr <$> g0) ++ [a] ∧ (match naive_search a (rev (stack c1)) 0 with
      | Some (d0, l) => (d0, with_stack (rev l ++ [a]) c2) | None => (Infinity, with_stack (stack c1 ++ [a]) c2) end) = (x, with_stack st c2)) as (st & Hst & ->).
    { destruct (naive_search _ _ _) as [[d0 l]|]; injection Hv as -> Hst; eexists; (split; [exact Hst|done]). }
    rewrite Z.eqb_refl. cbn [negb mbind res_bind index with_stack]. rewrite E1, Hu. eexists. split; [done|]. split; [|by cbn]. split; [by exists D; apply Hok|by intros _; cbn; rewrite fmap_app|cbn; lia].
  - cbn [mbind res_bind]. rewrite E1, Hu. eexists. split; [done|]. split; [|done]. split; [exists D; apply (Hok (stack c2))|by cbn; rewrite E4|cbn; lia].
Qed.

Lemma update_spec n g c a add :
  sim n g c → n < 2 ^ 30 → (verifyStack c = true → add = true) →
  ∃ g' c', calcStackDistAndUpdate a add c = Ok (distance a (recency g), c') ∧ sim (n + 1) g' c' ∧ verifyStack c' = verifyStack c ∧
    recency g' = (if add then (a, false) :: forget a (recency g) else forget a (recency g)).
Proof.
  intros [[d Hc] Hst Hi] Hn Hadd. destruct (calc_bounds _ _ _ Hc ltac:(lia)) as (_ & Hlen & _). rewrite length_fmap in Hlen. pose proof (ck_addrs _ _ _ Hc) as Hna. unfold calcStackDistAndUpdate.
  destruct (aiMap c !! a) as [k|] eqn:Ha.
  - destruct (remove_leaf_spec g d c a k add Hc ltac:(lia) Ha) as (g1 & m & g2 & c1 & -> & -> & Hc1 & Hai & E1 & E2 & E3). cbn [mbind res_bind].
    destruct (split_absent _ _ _ _ _ Hna) as [Hn1 Hn2]. rewrite recency_split. rewrite length_app in Hlen. cbn in Hlen.
    rewrite distance_present by (rewrite ?length_recency; (done || unfold Infinity; lia)). rewrite forget_present by done. rewrite length_recency, <- recency_app. destruct add.
    + rewrite <- E1 in Hi, Hai. rewrite <- E3 in *. rewrite <- (insert_delete_eq (aiMap c)) in Hai.
      destruct (access_spec (g1 ++ g2) d c1 a (delete a (aiMap c)) (Z.of_nat (length g2)) n Hc1) as (c' & Hrun & Hsim & Hv'); [apply lookup_delete_eq|done|lia| |].
      { intros Hv. rewrite (verify_present a true g1 k m g2); [done| |cbn; rewrite E2, (Hst Hv); done|lia]. cbn. rewrite E2. by apply Hst. }
      apply bind_ok in Hrun as (c2 & Hc2 & Hrun). rewrite Hc2. cbn [mbind res_bind]. apply bind_ok in Hrun as (c3 & Hc3 & Hrun). rewrite Hc3. cbn [mbind res_bind].
      injection Hrun as <-. eexists _, _. split; [done|]. split_and!; [exact Hsim|done|]. by rewrite recency_app.
    + exists (g1 ++ g2), c1. split_and!; try done. split; [|rewrite E3; intros Hv; by specialize (Hadd Hv)|rewrite E1; lia].
      exists d. destruct c1; cbn in *; subst; done.
  - pose proof (absent_addr _ _ _ _ Hc Ha) as Hab. rewrite distance_absent, forget_absent by (by rewrite recency_addrs). cbn [mbind res_bind]. destruct add.
    + set (c1 := with_aiMap _ c). destruct (access_spec g d c1 a (aiMap c) Infinity n) as (c' & Hrun & Hsim & Hv'); [by destruct c|done|done|cbn; lia| |].
      { cbn. intros Hv. rewrite (verify_absent a true g); [done|by apply Hst|done]. }
      apply bind_ok in Hrun as (c2 & Hc2 & Hrun). rewrite Hc2. cbn [mbind res_bind]. apply bind_ok in Hrun as (c3 & Hc3 & Hrun). rewrite Hc3. cbn [mbind res_bind].
      injection Hrun as <-. eexists _, _. split; [done|]. split_and!; [exact Hsim|done|]. by rewrite recency_app.
    + exists g, c. split_and!; try done. split; [by exists d|done|lia].
Qed.

(** A query sets the mark of the leaf. *)
Lemma calc_ok_mark g1 a k m mark g2 d c :
  calc_ok (g1 ++ mkEntry a k m :: g2) d c → calc_ok (g1 ++ mkEntry a k mark :: g2) d (with_tree (put (0%nat, k) (leaf k mark) (tree c)) c).
Proof.
  intros Hc. destruct (sorted_app_lt (times g1) k (times g2)) as (S1 & S2 & _); [pose proof (ck_sorted _ _ _ Hc) as Hs; by rewrite fmap_app, fmap_cons in Hs|].
  destruct Hc as [Hs Hr Hna Hm Ht Hl Hn Hdp]. rewrite fmap_app, fmap_cons in *. cbn [etime eaddr] in *. split; rewrite ?fmap_app, ?fmap_cons; cbn; try done.
  - intros b k'. rewrite Hm. split; intros (m' & [Hin|[Hin|Hin]%elem_of_cons]%elem_of_app); try injection Hin as -> -> _;
      eexists; apply elem_of_app; first [left; exact Hin | right; right; exact Hin | right; left].
  - by apply tree_ok_leaf.
  - intros e He. change (alter _ 0%nat (tree c)) with (put (0%nat, k) (leaf k mark) (tree c)).
    rewrite tget_put by (rewrite (tk_length _ _ _ _ _ Ht); lia). apply elem_of_app in He as [He|[->|He]%elem_of_cons].
    + specialize (S1 (etime e) ltac:(apply list_elem_of_fmap; by exists e)). rewrite decide_False by (intros []; lia). apply Hl. set_solver.
    + by rewrite decide_True.
    + specialize (S2 (etime e) ltac:(apply list_elem_of_fmap; by exists e)). rewrite decide_False by (intros []; lia). apply Hl. set_solver.
Qed.

(** The sum from a leaf is the number of later accesses. *)
Lemma getSum_leaf g1 a k m g2 d c :
  calc_ok (g1 ++ mkEntry a k m :: g2) d c → index c < 2 ^ 30 → getSumsLeavesToRoot k (tree c) = Ok (Z.of_nat (length g2)).
Proof.
  intros Hc Hi. destruct (calc_bounds _ _ _ Hc Hi) as (_ & Hlen & _). destruct Hc as [Hs Hr Hna Hm Ht Hl Hn Hdp].
  assert (k ∈ times (g1 ++ mkEntry a k m :: g2)) as Hk by (rewrite fmap_app, fmap_cons; set_solver). pose proof (Hr k Hk) as Hkr.
  unfold getSumsLeavesToRoot. rewrite (node_at_ok _ _ _ (leaf k m)) by (apply (Hl (mkEntry a k m)); set_solver). cbn [mbind res_bind deref parent leaf isLeftNode].
  destruct (leaf_path k) as [E0 E1]. pose proof (tk_depth _ _ _ _ _ Ht) as Hd1. pose proof (tk_length _ _ _ _ _ Ht) as Htl. set (l := times _) in *.
  assert (Z.of_nat (length l) < 2 ^ 62 ∧ Z.of_nat (length (@nil Z)) < 2 ^ 62) as Hsmall by (cbn [length]; lia).
  assert (getSum (length (tree c)) (1%nat, k / pw 1) (Z.even (k / pw 0)) (cnt l (k + 1) (hi k 0)) (tree c) = Ok (cnt l (k + 1) (pw d))) as Hg.
  { apply (getSum_spec false l [] (index c) (Z.max 0 (index c - 1)) k d); [by left|lia|done|done|done|lia|lia]. }
  unfold hi in Hg. rewrite E0, E1 in Hg. change (pw 0) with 1 in Hg. rewrite Z.mul_1_r in Hg. rewrite cnt_none in Hg at 1 by (intros; lia). rewrite Hg. f_equal. clear Hg. subst l.
  rewrite fmap_app, fmap_cons in *. cbn [etime] in *. destruct (sorted_app_lt _ _ _ Hs) as (S1 & S2 & _).
  rewrite cnt_remove, cnt_app. rewrite (cnt_none (times g1)) by (intros x Hx; specialize (S1 x Hx); lia). rewrite (cnt_all (times g2)); [rewrite length_fmap; bools|].
  intros x Hx. specialize (S2 x Hx). assert (x < index c) by (apply Hr; set_solver). lia.
Qed.

Lemma query_spec n g c a mark :
  sim n g c → n < 2 ^ 30 →
  ∃ g' c', calcStackDist a mark c = Ok (distance a (recency g), c') ∧ sim n g' c' ∧ verifyStack c' = verifyStack c ∧ recency g' = set_mark a mark (recency g).
Proof.
  intros [[d Hc] Hst Hi] Hn. destruct (calc_bounds _ _ _ Hc ltac:(lia)) as (_ & Hlen & _). rewrite length_fmap in Hlen. pose proof (ck_addrs _ _ _ Hc) as Hna. unfold calcStackDist.
  destruct (aiMap c !! a) as [k|] eqn:Ha.
  - destruct (proj1 (ck_map _ _ _ Hc a k) Ha) as (m & Hin). apply list_elem_of_split in Hin as (g1 & g2 & ->).
    rewrite (node_at_ok _ _ _ (leaf k m)) by (apply (ck_leaves _ _ _ Hc (mkEntry a k m)); set_solver). cbn [mbind res_bind].
    pose proof (calc_ok_mark _ _ _ _ mark _ _ _ Hc) as Hc'. change (with_isMarked mark (leaf k m)) with (leaf k mark). set (c1 := with_tree _ c) in *.
    rewrite (getSum_leaf g1 a k mark g2 d c1 Hc') by (cbn; lia). cbn [mbind res_bind isMarked leaf].
    destruct (split_absent _ _ _ _ _ Hna) as [Hn1 Hn2]. rewrite length_app in Hlen. cbn in Hlen. rewrite recency_split.
    rewrite distance_present by (rewrite ?length_recency; (done || unfold Infinity; lia)). rewrite set_mark_present, length_recency by done.
    exists (g1 ++ mkEntry a k mark :: g2), c1. assert (sim n (g1 ++ mkEntry a k mark :: g2) c1) as Hsim.
    { split; [by exists d| |done]. intros Hv. cbn. rewrite (Hst Hv). by rewrite !fmap_app, !fmap_cons. }
    destruct (verifyStack c1) eqn:Hv; [|by split_and!; [|..|apply recency_split]].
    rewrite (verify_present a false g1 k mark g2); [|by apply (sim_stack _ _ _ Hsim)|rewrite (sim_stack _ _ _ Hsim Hv); apply (ck_addrs _ _ _ Hc')|lia].
    rewrite Z.eqb_refl. split_and!; [done|done|done|apply recency_split].
  - pose proof (absent_addr _ _ _ _ Hc Ha) as Hab. rewrite distance_absent, set_mark_absent by (by rewrite recency_addrs). cbn [mbind res_bind].
    exists g, c. destruct (verifyStack c) eqn:Hv; [|split_and!; try done; by split; [exists d|congruence|]].
    rewrite (verify_absent a false g); [|by apply Hst|done]. rewrite Z.eqb_refl. split_and!; try done. by split; [exists d|auto|].
Qed.

(** A run in two parts. *)
Lemma run_spec ops n g c :
  sim n g c → n + Z.of_nat (length ops) ≤ 2 ^ 30 → (verifyStack c = true → forallb adds ops = true) →
  ∃ g' c', (∀ more, run (ops ++ more) c = rs ← run more c'; Ok (spec_run ops (recency g) ++ rs)) ∧ sim (n + Z.of_nat (length ops)) g' c' ∧ verifyStack c' = verifyStack c.
Proof.
  revert n g c. induction ops as [|op ops IH]; intros n g c Hs Hn Hv.
  { exists g, c. split_and!; [intros more; cbn; by destruct (run more c)|by rewrite Z.add_0_r|done]. }
  cbn [app run spec_run length] in *.
  assert (verifyStack c = true → adds op = true ∧ forallb adds ops = true) as Hv' by (intros H; by apply andb_prop, Hv).
  assert (∃ g1 c1, step op c = Ok ((spec_step op (recency g)).1, c1) ∧ sim (n + 1) g1 c1 ∧ verifyStack c1 = verifyStack c ∧ recency g1 = (spec_step op (recency g)).2)
    as (g1 & c1 & -> & Hs1 & Hvv & Hrec).
  { destruct op as [a add|a mark]; cbn [step spec_step fst snd]; [apply update_spec; [done|lia|by intros H; apply Hv']|].
    destruct (query_spec n g c a mark Hs) as (g' & c' & H1 & [H2 H3 H4] & H5 & H6); [lia|]. exists g', c'. split_and!; try done. split; [done|done|lia]. }
  cbn [mbind res_bind]. destruct (IH (n + 1) g1 c1) as (g' & c' & Hrun & Hs' & Hvv'); [done|lia|rewrite Hvv; by intros H; apply Hv'|].
  exists g', c'. split_and!; [|by replace (n + Z.of_nat (S (length ops))) with (n + 1 + Z.of_nat (length ops)) by lia|congruence].
  intros more. rewrite Hrun, Hrec. destruct (spec_step op (recency g)) as [r s']. cbn. destruct (run more c'); done.
Qed.

Lemma newCalc_sim verify : sim 0 [] (newCalc verify).
Proof. split; [exists 1%nat; apply newCalc_ok|done|done]. Qed.

(** An access that only removes an entry, then one that finds the old stack. *)
Lemma removal_then_access n g c a :
  sim n g c → n < 2 ^ 30 → verifyStack c = true → a ∈ (eaddr <$> g) → run [Update a false; Update a true] c = Fail Panicked.
Proof.
  intros [[d Hc] Hst Hi] Hn Hv Hin. apply list_elem_of_fmap in Hin as ([a' k m0] & -> & Hin). cbn [eaddr] in *.
  destruct (calc_bounds _ _ _ Hc ltac:(lia)) as (_ & Hlen & _). rewrite length_fmap in Hlen. pose proof (ck_addrs _ _ _ Hc) as Hna.
  assert (aiMap c !! a' = Some k) as Ha by (apply (ck_map _ _ _ Hc); by exists m0).
  destruct (remove_leaf_spec g d c a' k false Hc ltac:(lia) Ha) as (g1 & m & g2 & c1 & -> & Hrm & Hc1 & Hai & E1 & E2 & E3).
  assert (calcStackDistAndUpdate a' false c = Ok (Z.of_nat (length g2), m, c1)) as Hfst by (unfold calcStackDistAndUpdate; rewrite Ha, Hrm; done).
  cbn [run step]. rewrite Hfst. cbn [mbind res_bind].
  unfold calcStackDistAndUpdate. rewrite Hai, lookup_delete_eq. cbn [mbind res_bind]. set (c2 := with_aiMap _ c1).
  rewrite length_app in Hlen. cbn in Hlen.
  destruct (add_leaf_spec (g1 ++ g2) d c2 a' (delete a' (aiMap c)) Hc1) as (D & c3 & -> & Ht & Hl & _ & _ & _ & F1 & F2 & F3 & F4); [cbn; lia|]. cbn [mbind res_bind].
  assert (0 ≤ index c2) as H0 by apply (ck_depth _ _ _ Hc1).
  rewrite F4, F1. change (verifyStack c2) with (verifyStack c1). rewrite E3, Hv.
  rewrite (sanity_ok (times (g1 ++ g2) ++ [index c2]) (index c2 + 1) (index c2) D (tree c3) (index c2) false);
    [|done|apply (Hl (mkEntry a' (index c2) false)); set_solver|set_solver|lia].
  cbn [mbind res_bind]. assert (stack c3 = eaddr <$> (g1 ++ mkEntry a' k m :: g2)) as Hs3 by (rewrite F3; cbn; rewrite E2; by apply Hst).
  rewrite (verify_present a' true g1 k m g2); [|done|by rewrite Hs3|lia]. rewrite (proj2 (Z.eqb_neq _ Infinity)) by (unfold Infinity; lia). done.
Qed.

(** C18: For every sequence of up to 2^30 accesses and queries on a new calculator that either
    does not verify, or verifies and sees no access that only removes an entry (such an access makes
    the next one panic), no check panics, no null node is met, and the distances and marks returned
    are those of the list of addresses ordered by last use.  The mark an access returns is the one
    the entry had, also when the access adds a new entry. *)
Theorem stack_distance_correct verify ops :
  Z.of_nat (length ops) ≤ 2 ^ 30 → (verify = true → forallb adds ops = true) → run ops (newCalc verify) = Ok (spec_run ops []).
Proof.
  intros Hn Hv. destruct (run_spec ops 0 [] (newCalc verify) (newCalc_sim verify)) as (g & c & Hrun & _); [lia|done|].
  specialize (Hrun []). rewrite app_nil_r in Hrun. rewrite Hrun. cbn. by rewrite app_nil_r.
Qed.

Lemma stack_distance_correct_witness :
  run [Update 10 true; Update 20 true; Query 10 true; Update 30 true; Update 10 true; Update 10 true] (newCalc true) =
  Ok [(Infinity, false); (Infinity, false); (1, false); (Infinity, false); (2, true); (0, false)].
Proof. apply (stack_distance_correct true); [vm_compute; discriminate|intros _; vm_compute; reflexivity]. Defined.

(** C38: With verification on, an access that only removes an entry leaves the address in the
    stack kept for verification: after any accesses and queries, the next access to an address
    so removed panics. *)
Theorem verification_panics_after_removal ops a :
  Z.of_nat (length ops) + 3 ≤ 2 ^ 30 → forallb adds ops = true →
  run (ops ++ [Update a true; Update a false; Update a true]) (newCalc true) = Fail Panicked.
Proof.
  intros Hn Hadd. destruct (run_spec ops 0 [] (newCalc true) (newCalc_sim true)) as (g & c & Hrun & Hs & Hv); [lia|done|]. rewrite Hrun.
  destruct (update_spec _ g c a true Hs) as (g' & c' & Hup & Hs' & Hv' & Hrec); [lia|done|]. rewrite (run_cons (Update a true) _ c _ c' Hup).
  rewrite (removal_then_access _ g' c' a Hs'); [done|lia|by rewrite Hv', Hv|].
  rewrite <- recency_addrs, Hrec. by left.
Qed.

Lemma verification_panics_after_removal_witness :
  run [Update 7 true; Query 7 true; Update 10 true; Update 10 false; Update 10 true] (newCalc true) = Fail Panicked.
Proof. apply (verification_panics_after_removal [Update 7 true; Query 7 true] 10); [vm_compute; discriminate|vm_compute; reflexivity]. Defined.

End StackDistSpec.
