(* ===== verification/O3Regs.v ===== *)
(** * Physical registers of the out-of-order CPU

    [cpu/o3/regfile], [free_list], [rename_map] and [scoreboard], with [cpu/reg_class.hh].  The
    physical registers of a CPU have one index space: the integer registers, then the
    floating-point ones, then the condition codes; miscellaneous registers are numbered after the
    last physical one and are not renamed.  A rename map shares its free lists with the maps of
    the other threads: operations that allocate take the list and return it.

    [TheISA], the instruction set a simulator is built for, is the class [ISA] of its register
    constants; [AlphaISA] is one of its instances. *)

From S2P Require Import Prelude.

Open Scope Z_scope.

(** [regBits] is the width of [RegIndex]; [isAlpha] is [THE_ISA == ALPHA_ISA]. *)
Class ISA := mkISA {
  NumIntRegs : Z;
  NumFloatRegs : Z;
  NumCCRegs : Z;
  NumMiscRegs : Z;
  FP_Reg_Base : Z;
  CC_Reg_Base : Z;
  Misc_Reg_Base : Z;
  Max_Reg_Index : Z;
  ZeroReg : Z;
  regBits : Z;
  isAlpha : bool
}.

(** What the comments on the indices ask of an instruction set. *)
Class ISALaws `{ISA} := {
  int_regs : 0 ≤ NumIntRegs ≤ FP_Reg_Base;
  float_regs : 0 ≤ NumFloatRegs ∧ FP_Reg_Base + NumFloatRegs = CC_Reg_Base;
  cc_regs : 0 ≤ NumCCRegs ∧ CC_Reg_Base + NumCCRegs = Misc_Reg_Base;
  misc_regs : Misc_Reg_Base ≤ Max_Reg_Index;
  reg_bits : 0 ≤ regBits ∧ Max_Reg_Index < 2 ^ regBits
}.

Definition AlphaISA : ISA := mkISA 40 32 0 79 40 72 72 225 31 8 true.

#[export] Instance AlphaISA_laws : @ISALaws AlphaISA.
Proof. split; cbn; lia. Qed.

Module O3Regs.

(** [typedef short int PhysRegIndex] *)
Definition PhysRegIndex (x : Z) : Z := (x + 2 ^ 15) mod 2 ^ 16 - 2 ^ 15.
Definition RegIndex `{ISA} (x : Z) : Z := wrap regBits x.

Inductive RegClass := IntRegClass | FloatRegClass | CCRegClass | MiscRegClass.

#[export] Instance RegClass_eq_dec : EqDecision RegClass.
Proof. solve_decision. Defined.

Definition regIdxToClass `{ISA} (reg_idx : Z) : res (RegClass * Z) :=
  _ ← assert_ (reg_idx <? Max_Reg_Index);
  Ok (if reg_idx <? FP_Reg_Base then (IntRegClass, RegIndex reg_idx)
      else if reg_idx <? CC_Reg_Base then (FloatRegClass, RegIndex (reg_idx - FP_Reg_Base))
      else if reg_idx <? Misc_Reg_Base then (CCRegClass, RegIndex (reg_idx - CC_Reg_Base))
      else (MiscRegClass, RegIndex (reg_idx - Misc_Reg_Base))).

(** ** The physical register file *)

(** A floating-point register is a union of a double and its bits: the bits here. *)
Record PhysRegFile := mkPhysRegFile {
  intRegFile : list Z;
  floatRegFile : list Z;
  ccRegFile : list Z;
  baseFloatRegIndex : Z;
  baseCCRegIndex : Z;
  totalNumRegs : Z
}.

Definition newPhysRegFile (_numPhysicalIntRegs _numPhysicalFloatRegs _numPhysicalCCRegs : Z) : PhysRegFile :=
  mkPhysRegFile (replicate (Z.to_nat _numPhysicalIntRegs) 0) (replicate (Z.to_nat _numPhysicalFloatRegs) 0)
    (replicate (Z.to_nat _numPhysicalCCRegs) 0) _numPhysicalIntRegs
    (u32 (_numPhysicalIntRegs + _numPhysicalFloatRegs)) (u32 (_numPhysicalIntRegs + _numPhysicalFloatRegs + _numPhysicalCCRegs)).

Definition numIntPhysRegs (f : PhysRegFile) : Z := baseFloatRegIndex f.
Definition numFloatPhysRegs (f : PhysRegFile) : Z := u32 (baseCCRegIndex f - baseFloatRegIndex f).
Definition numCCPhysRegs (f : PhysRegFile) : Z := u32 (totalNumRegs f - baseCCRegIndex f).
Definition totalNumPhysRegs (f : PhysRegFile) : Z := totalNumRegs f.

(** The bounds are unsigned: a negative index is converted before it is compared. *)
Definition isIntPhysReg (f : PhysRegFile) (reg_idx : Z) : bool := (0 <=? reg_idx) && (u32 reg_idx <? baseFloatRegIndex f).
Definition isFloatPhysReg (f : PhysRegFile) (reg_idx : Z) : bool :=
  (baseFloatRegIndex f <=? u32 reg_idx) && (u32 reg_idx <? baseCCRegIndex f).
Definition isCCPhysReg (f : PhysRegFile) (reg_idx : Z) : bool :=
  (baseCCRegIndex f <=? u32 reg_idx) && (u32 reg_idx <? totalNumRegs f).

Definition readIntReg (f : PhysRegFile) (reg_idx : Z) : res Z :=
  _ ← assert_ (isIntPhysReg f reg_idx); vread (intRegFile f) reg_idx.
Definition readFloatReg (f : PhysRegFile) (reg_idx : Z) : res Z :=
  _ ← assert_ (isFloatPhysReg f reg_idx); vread (floatRegFile f) (PhysRegIndex (reg_idx - baseFloatRegIndex f)).
Definition readFloatRegBits (f : PhysRegFile) (reg_idx : Z) : res Z :=
  _ ← assert_ (isFloatPhysReg f reg_idx); vread (floatRegFile f) (PhysRegIndex (reg_idx - baseFloatRegIndex f)).
Definition readCCReg (f : PhysRegFile) (reg_idx : Z) : res Z :=
  _ ← assert_ (isCCPhysReg f reg_idx); vread (ccRegFile f) (PhysRegIndex (reg_idx - baseCCRegIndex f)).

Definition with_regs (i fl c : list Z) (f : PhysRegFile) : PhysRegFile :=
  mkPhysRegFile i fl c (baseFloatRegIndex f) (baseCCRegIndex f) (totalNumRegs f).

Definition setIntReg `{ISA} (f : PhysRegFile) (reg_idx val : Z) : res PhysRegFile :=
  _ ← assert_ (isIntPhysReg f reg_idx);
  if negb (reg_idx =? ZeroReg) then
    i ← vwrite (intRegFile f) reg_idx val;
    Ok (with_regs i (floatRegFile f) (ccRegFile f) f)
  else Ok f.

Definition setFloatReg `{ISA} (f : PhysRegFile) (reg_idx val : Z) : res PhysRegFile :=
  _ ← assert_ (isFloatPhysReg f reg_idx);
  let reg_offset := PhysRegIndex (reg_idx - baseFloatRegIndex f) in
  if negb isAlpha || negb (reg_offset =? ZeroReg) then
    fl ← vwrite (floatRegFile f) reg_offset val;
    Ok (with_regs (intRegFile f) fl (ccRegFile f) f)
  else Ok f.

Definition setFloatRegBits (f : PhysRegFile) (reg_idx val : Z) : res PhysRegFile :=
  _ ← assert_ (isFloatPhysReg f reg_idx);
  fl ← vwrite (floatRegFile f) (PhysRegIndex (reg_idx - baseFloatRegIndex f)) val;
  Ok (with_regs (intRegFile f) fl (ccRegFile f) f).

Definition setCCReg (f : PhysRegFile) (reg_idx val : Z) : res PhysRegFile :=
  _ ← assert_ (isCCPhysReg f reg_idx);
  c ← vwrite (ccRegFile f) (PhysRegIndex (reg_idx - baseCCRegIndex f)) val;
  Ok (with_regs (intRegFile f) (floatRegFile f) c f).

(** ** Free lists *)

Abbreviation SimpleFreeList := (list Z).

Definition addSimple (reg : Z) (l : SimpleFreeList) : SimpleFreeList := l ++ [reg].
Definition getSimple (l : SimpleFreeList) : res (Z * SimpleFreeList) :=
  match l with free_reg :: l => Ok (free_reg, l) | [] => Fail AssertFailed end.
Definition numFreeRegs (l : SimpleFreeList) : Z := vsize l.
Definition hasFreeRegs (l : SimpleFreeList) : bool := negb (bool_decide (l = [])).

Record UnifiedFreeList := mkFreeList { intList : SimpleFreeList; floatList : SimpleFreeList; ccList : SimpleFreeList }.

Definition with_intList (l : SimpleFreeList) (fl : UnifiedFreeList) : UnifiedFreeList := mkFreeList l (floatList fl) (ccList fl).
Definition with_floatList (l : SimpleFreeList) (fl : UnifiedFreeList) : UnifiedFreeList := mkFreeList (intList fl) l (ccList fl).
Definition with_ccList (l : SimpleFreeList) (fl : UnifiedFreeList) : UnifiedFreeList := mkFreeList (intList fl) (floatList fl) l.

Definition getIntReg (fl : UnifiedFreeList) : res (Z * UnifiedFreeList) :=
  '(r, l) ← getSimple (intList fl); Ok (r, with_intList l fl).
Definition getFloatReg (fl : UnifiedFreeList) : res (Z * UnifiedFreeList) :=
  '(r, l) ← getSimple (floatList fl); Ok (r, with_floatList l fl).
Definition getCCReg (fl : UnifiedFreeList) : res (Z * UnifiedFreeList) :=
  '(r, l) ← getSimple (ccList fl); Ok (r, with_ccList l fl).
Definition hasFreeIntRegs (fl : UnifiedFreeList) : bool := hasFreeRegs (intList fl).
Definition hasFreeFloatRegs (fl : UnifiedFreeList) : bool := hasFreeRegs (floatList fl).
Definition hasFreeCCRegs (fl : UnifiedFreeList) : bool := hasFreeRegs (ccList fl).
Definition numFreeIntRegs (fl : UnifiedFreeList) : Z := numFreeRegs (intList fl).
Definition numFreeFloatRegs (fl : UnifiedFreeList) : Z := numFreeRegs (floatList fl).
Definition numFreeCCRegs (fl : UnifiedFreeList) : Z := numFreeRegs (ccList fl).
Definition addIntReg (r : Z) (fl : UnifiedFreeList) : UnifiedFreeList := with_intList (addSimple r (intList fl)) fl.
Definition addFloatReg (r : Z) (fl : UnifiedFreeList) : UnifiedFreeList := with_floatList (addSimple r (floatList fl)) fl.
Definition addCCReg (r : Z) (fl : UnifiedFreeList) : UnifiedFreeList := with_ccList (addSimple r (ccList fl)) fl.

Definition addReg (f : PhysRegFile) (freed_reg : Z) (fl : UnifiedFreeList) : res UnifiedFreeList :=
  if isIntPhysReg f freed_reg then Ok (addIntReg freed_reg fl)
  else if isFloatPhysReg f freed_reg then Ok (addFloatReg freed_reg fl)
  else
    _ ← assert_ (isCCPhysReg f freed_reg);
    Ok (addCCReg freed_reg fl).

(** [while (reg_idx < end) add(reg_idx++)], [n] times at most. *)
Fixpoint add_until (add : Z → UnifiedFreeList → UnifiedFreeList) (n : nat) (reg_idx end_ : Z) (fl : UnifiedFreeList) : Z * UnifiedFreeList :=
  match n with
  | O => (reg_idx, fl)
  | S n => if u32 reg_idx <? end_ then add_until add n (PhysRegIndex (reg_idx + 1)) end_ (add reg_idx fl) else (reg_idx, fl)
  end.

Definition initFreeList (f : PhysRegFile) (fl : UnifiedFreeList) : UnifiedFreeList :=
  let n := Z.to_nat (totalNumRegs f) in
  let '(reg_idx, fl) := add_until addIntReg n 0 (baseFloatRegIndex f) fl in
  let '(reg_idx, fl) := add_until addFloatReg n reg_idx (baseCCRegIndex f) fl in
  let '(reg_idx, fl) := add_until addCCReg n reg_idx (totalNumRegs f) fl in
  fl.

Definition newUnifiedFreeList (f : PhysRegFile) : UnifiedFreeList := initFreeList f (mkFreeList [] [] []).

End O3Regs.

(** ** Rename maps *)

Module RenameMap.
Import O3Regs.

(** The pointer to the free list is the argument [fl] of [rename]. *)
Record SimpleRenameMap := mkSimple { map : list Z; zeroReg : Z }.

(** [init]: a map of [size] entries, all zero until they are set. *)
Definition init_simple (size _zeroReg : Z) : SimpleRenameMap := mkSimple (replicate (Z.to_nat size) 0) _zeroReg.

(** The new and the previous register. *)
Abbreviation RenameInfo := (Z * Z)%type.

Definition rename_simple (m : SimpleRenameMap) (fl : SimpleFreeList) (arch_reg : Z) : res (RenameInfo * SimpleRenameMap * SimpleFreeList) :=
  prev_reg ← vread (map m) arch_reg;
  if negb (arch_reg =? zeroReg m) then
    '(renamed_reg, fl) ← getSimple fl;
    mp ← vwrite (map m) arch_reg renamed_reg;
    Ok ((renamed_reg, prev_reg), mkSimple mp (zeroReg m), fl)
  else
    _ ← assert_ (prev_reg =? zeroReg m);
    Ok ((PhysRegIndex (zeroReg m), prev_reg), m, fl).

Definition lookup_simple (m : SimpleRenameMap) (arch_reg : Z) : res Z :=
  _ ← assert_ (arch_reg <? vsize (map m)); vread (map m) arch_reg.

Definition setEntry_simple (m : SimpleRenameMap) (arch_reg phys_reg : Z) : res SimpleRenameMap :=
  mp ← vwrite (map m) arch_reg phys_reg; Ok (mkSimple mp (zeroReg m)).

Record UnifiedRenameMap := mkMap { intMap : SimpleRenameMap; floatMap : SimpleRenameMap; ccMap : SimpleRenameMap }.

Definition with_intMap (m : SimpleRenameMap) (u : UnifiedRenameMap) : UnifiedRenameMap := mkMap m (floatMap u) (ccMap u).
Definition with_floatMap (m : SimpleRenameMap) (u : UnifiedRenameMap) : UnifiedRenameMap := mkMap (intMap u) m (ccMap u).
Definition with_ccMap (m : SimpleRenameMap) (u : UnifiedRenameMap) : UnifiedRenameMap := mkMap (intMap u) (floatMap u) m.

Section unified.
Context `{ISA}.

Definition init (_intZeroReg _floatZeroReg : Z) : UnifiedRenameMap :=
  mkMap (init_simple NumIntRegs _intZeroReg) (init_simple NumFloatRegs _floatZeroReg) (init_simple NumCCRegs (RegIndex (-1))).

Definition renameInt (f : PhysRegFile) (u : UnifiedRenameMap) (fl : UnifiedFreeList) (rel_arch_reg : Z) : res (RenameInfo * UnifiedRenameMap * UnifiedFreeList) :=
  '(info, m, l) ← rename_simple (intMap u) (intList fl) rel_arch_reg;
  _ ← assert_ (isIntPhysReg f info.1);
  Ok (info, with_intMap m u, with_intList l fl).

Definition renameFloat (f : PhysRegFile) (u : UnifiedRenameMap) (fl : UnifiedFreeList) (rel_arch_reg : Z) : res (RenameInfo * UnifiedRenameMap * UnifiedFreeList) :=
  '(info, m, l) ← rename_simple (floatMap u) (floatList fl) rel_arch_reg;
  _ ← assert_ (isFloatPhysReg f info.1);
  Ok (info, with_floatMap m u, with_floatList l fl).

Definition renameCC (f : PhysRegFile) (u : UnifiedRenameMap) (fl : UnifiedFreeList) (rel_arch_reg : Z) : res (RenameInfo * UnifiedRenameMap * UnifiedFreeList) :=
  '(info, m, l) ← rename_simple (ccMap u) (ccList fl) rel_arch_reg;
  _ ← assert_ (isCCPhysReg f info.1);
  Ok (info, with_ccMap m u, with_ccList l fl).

Definition lookupInt (f : PhysRegFile) (u : UnifiedRenameMap) (rel_arch_reg : Z) : res Z :=
  phys_reg ← lookup_simple (intMap u) rel_arch_reg;
  _ ← assert_ (isIntPhysReg f phys_reg);
  Ok phys_reg.

Definition lookupFloat (f : PhysRegFile) (u : UnifiedRenameMap) (rel_arch_reg : Z) : res Z :=
  phys_reg ← lookup_simple (floatMap u) rel_arch_reg;
  _ ← assert_ (isFloatPhysReg f phys_reg);
  Ok phys_reg.

Definition lookupCC (f : PhysRegFile) (u : UnifiedRenameMap) (rel_arch_reg : Z) : res Z :=
  phys_reg ← lookup_simple (ccMap u) rel_arch_reg;
  _ ← assert_ (isCCPhysReg f phys_reg);
  Ok phys_reg.

Definition lookupMisc (f : PhysRegFile) (rel_arch_reg : Z) : Z := PhysRegIndex (u32 (rel_arch_reg + totalNumPhysRegs f)).

Definition renameMisc (f : PhysRegFile) (rel_arch_reg : Z) : RenameInfo :=
  let phys_reg := lookupMisc f rel_arch_reg in (phys_reg, phys_reg).

Definition rename (f : PhysRegFile) (u : UnifiedRenameMap) (fl : UnifiedFreeList) (arch_reg : Z) : res (RenameInfo * UnifiedRenameMap * UnifiedFreeList) :=
  '(cl, rel_arch_reg) ← regIdxToClass arch_reg;
  match cl with
  | IntRegClass => renameInt f u fl rel_arch_reg
  | FloatRegClass => renameFloat f u fl rel_arch_reg
  | CCRegClass => renameCC f u fl rel_arch_reg
  | MiscRegClass => Ok (renameMisc f rel_arch_reg, u, fl)
  end.

Definition lookup (f : PhysRegFile) (u : UnifiedRenameMap) (arch_reg : Z) : res Z :=
  '(cl, rel_arch_reg) ← regIdxToClass arch_reg;
  match cl with
  | IntRegClass => lookupInt f u rel_arch_reg
  | FloatRegClass => lookupFloat f u rel_arch_reg
  | CCRegClass => lookupCC f u rel_arch_reg
  | MiscRegClass => Ok (lookupMisc f rel_arch_reg)
  end.

Definition setIntEntry (f : PhysRegFile) (u : UnifiedRenameMap) (arch_reg phys_reg : Z) : res UnifiedRenameMap :=
  _ ← assert_ (isIntPhysReg f phys_reg);
  m ← setEntry_simple (intMap u) arch_reg phys_reg; Ok (with_intMap m u).

Definition setFloatEntry (f : PhysRegFile) (u : UnifiedRenameMap) (arch_reg phys_reg : Z) : res UnifiedRenameMap :=
  _ ← assert_ (isFloatPhysReg f phys_reg);
  m ← setEntry_simple (floatMap u) arch_reg phys_reg; Ok (with_floatMap m u).

Definition setCCEntry (f : PhysRegFile) (u : UnifiedRenameMap) (arch_reg phys_reg : Z) : res UnifiedRenameMap :=
  _ ← assert_ (isCCPhysReg f phys_reg);
  m ← setEntry_simple (ccMap u) arch_reg phys_reg; Ok (with_ccMap m u).

Definition setEntry (f : PhysRegFile) (u : UnifiedRenameMap) (arch_reg phys_reg : Z) : res UnifiedRenameMap :=
  '(cl, rel_arch_reg) ← regIdxToClass arch_reg;
  match cl with
  | IntRegClass => setIntEntry f u rel_arch_reg phys_reg
  | FloatRegClass => setFloatEntry f u rel_arch_reg phys_reg
  | CCRegClass => setCCEntry f u rel_arch_reg phys_reg
  | MiscRegClass => _ ← assert_ (phys_reg =? lookupMisc f rel_arch_reg); Ok u
  end.

Definition numFreeEntries (fl : UnifiedFreeList) : Z := Z.min (numFreeRegs (intList fl)) (numFreeRegs (floatList fl)).

Definition canRename (fl : UnifiedFreeList) (intRegs floatRegs ccRegs : Z) : bool :=
  (intRegs <=? numFreeRegs (intList fl)) && (floatRegs <=? numFreeRegs (floatList fl)) && (ccRegs <=? numFreeRegs (ccList fl)).

End unified.
End RenameMap.

(** ** The scoreboard *)

Module Scoreboard.
Import O3Regs.

Record Scoreboard := mkScoreboard {
  regScoreBoard : list bool;
  numPhysRegs : Z;
  numTotalRegs : Z;
  zeroRegIdx : Z;
  fpZeroRegIdx : Z
}.

Definition newScoreboard (_numPhysicalRegs _numMiscRegs _zeroRegIdx _fpZeroRegIdx : Z) : Scoreboard :=
  mkScoreboard (replicate (Z.to_nat _numPhysicalRegs) true) _numPhysicalRegs (u32 (_numPhysicalRegs + _numMiscRegs)) _zeroRegIdx _fpZeroRegIdx.

Section scoreboard.
Context `{ISA}.

Definition isZeroReg (s : Scoreboard) (idx : Z) : bool :=
  (idx =? zeroRegIdx s) || (isAlpha && (idx =? fpZeroRegIdx s)).

Definition getReg (s : Scoreboard) (reg_idx : Z) : res bool :=
  _ ← assert_ (u32 reg_idx <? numTotalRegs s);
  if numPhysRegs s <=? u32 reg_idx then Ok true
  else
    ready ← vread (regScoreBoard s) reg_idx;
    _ ← (if isZeroReg s reg_idx then assert_ ready else Ok tt);
    Ok ready.

Definition with_board (b : list bool) (s : Scoreboard) : Scoreboard :=
  mkScoreboard b (numPhysRegs s) (numTotalRegs s) (zeroRegIdx s) (fpZeroRegIdx s).

Definition setReg (s : Scoreboard) (reg_idx : Z) : res Scoreboard :=
  _ ← assert_ (u32 reg_idx <? numTotalRegs s);
  if numPhysRegs s <=? u32 reg_idx then Ok s
  else b ← vwrite (regScoreBoard s) reg_idx true; Ok (with_board b s).

Definition unsetReg (s : Scoreboard) (reg_idx : Z) : res Scoreboard :=
  _ ← assert_ (u32 reg_idx <? numTotalRegs s);
  if numPhysRegs s <=? u32 reg_idx then Ok s
  else if isZeroReg s reg_idx then Ok s
  else b ← vwrite (regScoreBoard s) reg_idx false; Ok (with_board b s).

End scoreboard.
End Scoreboard.

(** ** The maps of a new CPU *)

(** The part of the constructor [FullO3CPU] that sets up the rename maps: each thread has a map
    and a commit map, and its architectural registers get physical ones off the free list. *)
Module CpuMaps.
Import O3Regs RenameMap.

Section cpu.
Context `{ISA} (f : PhysRegFile).

(** Registers [ridx] to [ridx + n] of one class. *)
Fixpoint init_class (get : UnifiedFreeList → res (Z * UnifiedFreeList)) (set : UnifiedRenameMap → Z → Z → res UnifiedRenameMap)
    (n : nat) (ridx : Z) (renameMap commitRenameMap : UnifiedRenameMap) (fl : UnifiedFreeList) : res (UnifiedRenameMap * UnifiedRenameMap * UnifiedFreeList) :=
  match n with
  | O => Ok (renameMap, commitRenameMap, fl)
  | S n =>
      '(phys_reg, fl) ← get fl;
      renameMap ← set renameMap ridx phys_reg;
      commitRenameMap ← set commitRenameMap ridx phys_reg;
      init_class get set n (ridx + 1) renameMap commitRenameMap fl
  end.

Definition fpZeroReg : Z := if isAlpha then ZeroReg else RegIndex (NumFloatRegs + 1).

Definition init_thread (fl : UnifiedFreeList) : res (UnifiedRenameMap * UnifiedRenameMap * UnifiedFreeList) :=
  let m := init ZeroReg fpZeroReg in
  '(renameMap, commitRenameMap, fl) ← init_class getIntReg (setIntEntry f) (Z.to_nat NumIntRegs) 0 m m fl;
  '(renameMap, commitRenameMap, fl) ← init_class getFloatReg (setFloatEntry f) (Z.to_nat NumFloatRegs) 0 renameMap commitRenameMap fl;
  init_class getCCReg (setCCEntry f) (Z.to_nat NumCCRegs) 0 renameMap commitRenameMap fl.

(** The active threads. *)
Fixpoint init_threads (active_threads : nat) (fl : UnifiedFreeList) : res (list (UnifiedRenameMap * UnifiedRenameMap) * UnifiedFreeList) :=
  match active_threads with
  | O => Ok ([], fl)
  | S n =>
      '(renameMap, commitRenameMap, fl) ← init_thread fl;
      '(maps, fl) ← init_threads n fl;
      Ok ((renameMap, commitRenameMap) :: maps, fl)
  end.

(** With the checks of the register counts; the maps of inactive threads stay as [init] leaves
    them. *)
Definition init_maps (numThreads active_threads : nat) : res (list (UnifiedRenameMap * UnifiedRenameMap) * UnifiedFreeList) :=
  _ ← assert_ (Z.of_nat numThreads * NumIntRegs <=? numIntPhysRegs f);
  _ ← assert_ (Z.of_nat numThreads * NumFloatRegs <=? numFloatPhysRegs f);
  _ ← assert_ (Z.of_nat numThreads * NumCCRegs <=? numCCPhysRegs f);
  '(maps, fl) ← init_threads active_threads (newUnifiedFreeList f);
  let m := init ZeroReg fpZeroReg in
  Ok (maps ++ replicate (numThreads - active_threads) (m, m), fl).

End cpu.
End CpuMaps.
