(* ===== verification/O3Rename.v ===== *)
(** * The rename stage of the out-of-order CPU

    [cpu/o3/rename.hh] and [cpu/o3/rename_impl.hh]: instructions arrive from decode, wait in the
    queue [insts] or, while the stage is blocked, in the skid buffer, get physical registers, and
    leave for the issue stage in order.  The renames of each instruction are kept in the history
    buffer, newest first, until commit frees the previous registers or a squash undoes them.

    A [Stage] is the object with what it points to: the rename maps of its threads, the free
    lists and the scoreboard they share, and the dynamic instructions, a heap of records.  The
    wires it reads in a cycle are the record [Wires]; what it writes to [toDecode] and [toIEW]
    are fields, which the CPU clears between cycles.  [flatten] stands for the thread context's [flattenIntIndex] and the like, which
    each instruction set defines.  Calls of the CPU and of probe listeners are recorded in
    [calls]; statistics are counted in [stats]. *)

From S2P Require Import Prelude O3Regs.

Open Scope Z_scope.

Module O3Rename.
Import O3Regs RenameMap.

(** [int] *)
Definition i32 (x : Z) : Z := (x + 2 ^ 31) mod 2 ^ 32 - 2 ^ 31.

(** ** Dynamic instructions: the part the stage uses *)

Record StaticInst := mkStaticInst {
  srcRegIdx : list Z;
  destRegIdx : list Z;
  numIntDestRegs : Z;
  numFPDestRegs : Z;
  numCCDestRegs : Z;
  isLoad : bool;
  isStore : bool;
  isIprAccess : bool;
  isStoreConditional : bool;
  staticSerializeBefore : bool;
  staticSerializeAfter : bool
}.

Record InstStatus := mkInstStatus {
  SerializeBefore : bool;
  SerializeAfter : bool;
  SerializeHandled : bool;
  Squashed : bool;
  CanIssue : bool;
  CanCommit : bool;
  Committed : bool;
  RobEntry : bool
}.

Definition with_SerializeBefore (x : bool) (b : InstStatus) : InstStatus :=
  mkInstStatus x (SerializeAfter b) (SerializeHandled b) (Squashed b) (CanIssue b) (CanCommit b) (Committed b) (RobEntry b).
Definition with_SerializeAfter (x : bool) (b : InstStatus) : InstStatus :=
  mkInstStatus (SerializeBefore b) x (SerializeHandled b) (Squashed b) (CanIssue b) (CanCommit b) (Committed b) (RobEntry b).
Definition with_SerializeHandled (x : bool) (b : InstStatus) : InstStatus :=
  mkInstStatus (SerializeBefore b) (SerializeAfter b) x (Squashed b) (CanIssue b) (CanCommit b) (Committed b) (RobEntry b).
Definition with_Squashed (x : bool) (b : InstStatus) : InstStatus :=
  mkInstStatus (SerializeBefore b) (SerializeAfter b) (SerializeHandled b) x (CanIssue b) (CanCommit b) (Committed b) (RobEntry b).
Definition with_CanIssue (x : bool) (b : InstStatus) : InstStatus :=
  mkInstStatus (SerializeBefore b) (SerializeAfter b) (SerializeHandled b) (Squashed b) x (CanCommit b) (Committed b) (RobEntry b).
Definition with_CanCommit (x : bool) (b : InstStatus) : InstStatus :=
  mkInstStatus (SerializeBefore b) (SerializeAfter b) (SerializeHandled b) (Squashed b) (CanIssue b) x (Committed b) (RobEntry b).
Definition with_Committed (x : bool) (b : InstStatus) : InstStatus :=
  mkInstStatus (SerializeBefore b) (SerializeAfter b) (SerializeHandled b) (Squashed b) (CanIssue b) (CanCommit b) x (RobEntry b).
Definition with_RobEntry (x : bool) (b : InstStatus) : InstStatus :=
  mkInstStatus (SerializeBefore b) (SerializeAfter b) (SerializeHandled b) (Squashed b) (CanIssue b) (CanCommit b) (Committed b) x.

Record DynInst := mkDynInst {
  staticInst : StaticInst;
  seqNum : Z;
  threadNumber : nat;
  status : InstStatus;
  _srcRegIdx : list Z;
  _readySrcRegIdx : list bool;
  readyRegs : Z;
  _flatDestRegIdx : list Z;
  _destRegIdx : list Z;
  _prevDestRegIdx : list Z
}.

Definition with_status (x : InstStatus) (i : DynInst) : DynInst :=
  mkDynInst (staticInst i) (seqNum i) (threadNumber i) x (_srcRegIdx i) (_readySrcRegIdx i) (readyRegs i) (_flatDestRegIdx i) (_destRegIdx i) (_prevDestRegIdx i).
Definition with__srcRegIdx (x : list Z) (i : DynInst) : DynInst :=
  mkDynInst (staticInst i) (seqNum i) (threadNumber i) (status i) x (_readySrcRegIdx i) (readyRegs i) (_flatDestRegIdx i) (_destRegIdx i) (_prevDestRegIdx i).
Definition with__readySrcRegIdx (x : list bool) (i : DynInst) : DynInst :=
  mkDynInst (staticInst i) (seqNum i) (threadNumber i) (status i) (_srcRegIdx i) x (readyRegs i) (_flatDestRegIdx i) (_destRegIdx i) (_prevDestRegIdx i).
Definition with_readyRegs (x : Z) (i : DynInst) : DynInst :=
  mkDynInst (staticInst i) (seqNum i) (threadNumber i) (status i) (_srcRegIdx i) (_readySrcRegIdx i) x (_flatDestRegIdx i) (_destRegIdx i) (_prevDestRegIdx i).
Definition with__flatDestRegIdx (x : list Z) (i : DynInst) : DynInst :=
  mkDynInst (staticInst i) (seqNum i) (threadNumber i) (status i) (_srcRegIdx i) (_readySrcRegIdx i) (readyRegs i) x (_destRegIdx i) (_prevDestRegIdx i).
Definition with__destRegIdx (x : list Z) (i : DynInst) : DynInst :=
  mkDynInst (staticInst i) (seqNum i) (threadNumber i) (status i) (_srcRegIdx i) (_readySrcRegIdx i) (readyRegs i) (_flatDestRegIdx i) x (_prevDestRegIdx i).
Definition with__prevDestRegIdx (x : list Z) (i : DynInst) : DynInst :=
  mkDynInst (staticInst i) (seqNum i) (threadNumber i) (status i) (_srcRegIdx i) (_readySrcRegIdx i) (readyRegs i) (_flatDestRegIdx i) (_destRegIdx i) x.

Definition isSerializeBefore (i : DynInst) : bool := staticSerializeBefore (staticInst i) || SerializeBefore (status i).
Definition isSerializeAfter (i : DynInst) : bool := staticSerializeAfter (staticInst i) || SerializeAfter (status i).
Definition setSerializeBefore (i : DynInst) : DynInst := with_status (with_SerializeBefore true (status i)) i.
Definition clearSerializeBefore (i : DynInst) : DynInst := with_status (with_SerializeBefore false (status i)) i.
Definition isTempSerializeBefore (i : DynInst) : bool := SerializeBefore (status i).
Definition setSerializeHandled (i : DynInst) : DynInst := with_status (with_SerializeHandled true (status i)) i.
Definition isSerializeHandled (i : DynInst) : bool := SerializeHandled (status i).
Definition setSquashed (i : DynInst) : DynInst := with_status (with_Squashed true (status i)) i.
Definition isSquashed (i : DynInst) : bool := Squashed (status i).
Definition setCanIssue (i : DynInst) : DynInst := with_status (with_CanIssue true (status i)) i.
Definition setCanCommit (i : DynInst) : DynInst := with_status (with_CanCommit true (status i)) i.
Definition readyToCommit (i : DynInst) : bool := CanCommit (status i).
Definition setCommitted (i : DynInst) : DynInst := with_status (with_Committed true (status i)) i.
Definition setInROB (i : DynInst) : DynInst := with_status (with_RobEntry true (status i)) i.
Definition clearInROB (i : DynInst) : DynInst := with_status (with_RobEntry false (status i)) i.
Definition isInROB (i : DynInst) : bool := RobEntry (status i).
Definition numSrcRegs (i : DynInst) : Z := vsize (srcRegIdx (staticInst i)).

Definition renameSrcReg (idx renamed_src : Z) (i : DynInst) : res DynInst :=
  l ← vwrite (_srcRegIdx i) idx renamed_src; Ok (with__srcRegIdx l i).
Definition flattenDestReg (idx flattened_dest : Z) (i : DynInst) : res DynInst :=
  l ← vwrite (_flatDestRegIdx i) idx flattened_dest; Ok (with__flatDestRegIdx l i).
Definition renameDestReg (idx renamed_dest previous_rename : Z) (i : DynInst) : res DynInst :=
  d ← vwrite (_destRegIdx i) idx renamed_dest;
  p ← vwrite (_prevDestRegIdx i) idx previous_rename;
  Ok (with__prevDestRegIdx p (with__destRegIdx d i)).

(** [++readyRegs == numSrcRegs()], with [readyRegs] of 8 bits. *)
Definition markSrcRegReady (i : DynInst) : DynInst :=
  let i := with_readyRegs (u8 (readyRegs i + 1)) i in
  if readyRegs i =? numSrcRegs i then setCanIssue i else i.
Definition markSrcRegReadyIdx (src_idx : Z) (i : DynInst) : res DynInst :=
  l ← vwrite (_readySrcRegIdx i) src_idx true;
  Ok (markSrcRegReady (with__readySrcRegIdx l i)).

(** ** The state of the stage *)

Inductive RenameStatus := Active | Inactive.
Inductive ThreadStatus := Running | Idle | StartSquash | Squashing | Blocked | Unblocking | SerializeStall.
Inductive FullSource := ROB | IQ | LQ | SQ | NONE.

#[export] Instance RenameStatus_eq_dec : EqDecision RenameStatus.
Proof. solve_decision. Defined.
#[export] Instance ThreadStatus_eq_dec : EqDecision ThreadStatus.
Proof. solve_decision. Defined.

Inductive Stat :=
  | renameSquashCycles | renameIdleCycles | renameBlockCycles | renameSerializeStallCycles | renameRunCycles
  | renameUnblockCycles | renameRenamedInsts | renameSquashedInsts | renameROBFullEvents | renameIQFullEvents
  | renameLQFullEvents | renameSQFullEvents | renameFullRegistersEvents | renameRenamedOperands | renameRenameLookups
  | renameCommittedMaps | renameUndoneMaps | renamedSerializing | renamedTempSerializing | renameSkidInsts
  | intRenameLookups | fpRenameLookups.

#[export] Instance Stat_eq_dec : EqDecision Stat.
Proof. solve_decision. Defined.

(** Calls that leave the stage: [cpu->activityThisCycle()], [activateStage], [deactivateStage]
    and the two probe points. *)
Inductive Call :=
  | activityThisCycle
  | activateStage
  | deactivateStage
  | ppRename (inst : positive)
  | ppSquashInRename (instSeqNum newPhysReg : Z).

Record RenameHistory := mkHistory { instSeqNum : Z; archReg : Z; newPhysReg : Z; prevPhysReg : Z }.

Record FreeEntries := mkFreeEntries { iqEntries : Z; robEntries : Z; lqEntries : Z; sqEntries : Z }.

Record Thread := mkThread {
  renameStatus : ThreadStatus;
  historyBuffer : list RenameHistory;
  insts : list positive;
  skidBuffer : list positive;
  renameMap : UnifiedRenameMap;
  instsInProgress : Z;
  loadsInProgress : Z;
  storesInProgress : Z;
  freeEntries : FreeEntries;
  emptyROB : bool;
  stalls_iew : bool;
  serializeInst : option positive;
  serializeOnNextInst : bool
}.

Definition with_renameStatus (x : ThreadStatus) (t : Thread) : Thread :=
  mkThread x (historyBuffer t) (insts t) (skidBuffer t) (renameMap t) (instsInProgress t) (loadsInProgress t) (storesInProgress t) (freeEntries t) (emptyROB t) (stalls_iew t) (serializeInst t) (serializeOnNextInst t).
Definition with_historyBuffer (x : list RenameHistory) (t : Thread) : Thread :=
  mkThread (renameStatus t) x (insts t) (skidBuffer t) (renameMap t) (instsInProgress t) (loadsInProgress t) (storesInProgress t) (freeEntries t) (emptyROB t) (stalls_iew t) (serializeInst t) (serializeOnNextInst t).
Definition with_insts (x : list positive) (t : Thread) : Thread :=
  mkThread (renameStatus t) (historyBuffer t) x (skidBuffer t) (renameMap t) (instsInProgress t) (loadsInProgress t) (storesInProgress t) (freeEntries t) (emptyROB t) (stalls_iew t) (serializeInst t) (serializeOnNextInst t).
Definition with_skidBuffer (x : list positive) (t : Thread) : Thread :=
  mkThread (renameStatus t) (historyBuffer t) (insts t) x (renameMap t) (instsInProgress t) (loadsInProgress t) (storesInProgress t) (freeEntries t) (emptyROB t) (stalls_iew t) (serializeInst t) (serializeOnNextInst t).
Definition with_renameMap (x : UnifiedRenameMap) (t : Thread) : Thread :=
  mkThread (renameStatus t) (historyBuffer t) (insts t) (skidBuffer t) x (instsInProgress t) (loadsInProgress t) (storesInProgress t) (freeEntries t) (emptyROB t) (stalls_iew t) (serializeInst t) (serializeOnNextInst t).
Definition with_instsInProgress (x : Z) (t : Thread) : Thread :=
  mkThread (renameStatus t) (historyBuffer t) (insts t) (skidBuffer t) (renameMap t) x (loadsInProgress t) (storesInProgress t) (freeEntries t) (emptyROB t) (stalls_iew t) (serializeInst t) (serializeOnNextInst t).
Definition with_loadsInProgress (x : Z) (t : Thread) : Thread :=
  mkThread (renameStatus t) (historyBuffer t) (insts t) (skidBuffer t) (renameMap t) (instsInProgress t) x (storesInProgress t) (freeEntries t) (emptyROB t) (stalls_iew t) (serializeInst t) (serializeOnNextInst t).
Definition with_storesInProgress (x : Z) (t : Thread) : Thread :=
  mkThread (renameStatus t) (historyBuffer t) (insts t) (skidBuffer t) (renameMap t) (instsInProgress t) (loadsInProgress t) x (freeEntries t) (emptyROB t) (stalls_iew t) (serializeInst t) (serializeOnNextInst t).
Definition with_freeEntries (x : FreeEntries) (t : Thread) : Thread :=
  mkThread (renameStatus t) (historyBuffer t) (insts t) (skidBuffer t) (renameMap t) (instsInProgress t) (loadsInProgress t) (storesInProgress t) x (emptyROB t) (stalls_iew t) (serializeInst t) (serializeOnNextInst t).
Definition with_emptyROB (x : bool) (t : Thread) : Thread :=
  mkThread (renameStatus t) (historyBuffer t) (insts t) (skidBuffer t) (renameMap t) (instsInProgress t) (loadsInProgress t) (storesInProgress t) (freeEntries t) x (stalls_iew t) (serializeInst t) (serializeOnNextInst t).
Definition with_stalls_iew (x : bool) (t : Thread) : Thread :=
  mkThread (renameStatus t) (historyBuffer t) (insts t) (skidBuffer t) (renameMap t) (instsInProgress t) (loadsInProgress t) (storesInProgress t) (freeEntries t) (emptyROB t) x (serializeInst t) (serializeOnNextInst t).
Definition with_serializeInst (x : option positive) (t : Thread) : Thread :=
  mkThread (renameStatus t) (historyBuffer t) (insts t) (skidBuffer t) (renameMap t) (instsInProgress t) (loadsInProgress t) (storesInProgress t) (freeEntries t) (emptyROB t) (stalls_iew t) x (serializeOnNextInst t).
Definition with_serializeOnNextInst (x : bool) (t : Thread) : Thread :=
  mkThread (renameStatus t) (historyBuffer t) (insts t) (skidBuffer t) (renameMap t) (instsInProgress t) (loadsInProgress t) (storesInProgress t) (freeEntries t) (emptyROB t) (stalls_iew t) (serializeInst t) x.

Record Stage := mkStage {
  _status : RenameStatus;
  threads : list Thread;
  freeList : UnifiedFreeList;
  scoreboard : Scoreboard.Scoreboard;
  resumeSerialize : bool;
  resumeUnblocking : bool;
  wroteToTimeBuffer : bool;
  blockThisCycle : bool;
  toIEWIndex : Z;
  toIEW : list positive;
  renameBlock : list bool;
  renameUnblock : list bool;
  heap : gmap positive DynInst;
  stats : Stat → Z;
  calls : list Call
}.

Definition with__status (x : RenameStatus) (s : Stage) : Stage :=
  mkStage x (threads s) (freeList s) (scoreboard s) (resumeSerialize s) (resumeUnblocking s) (wroteToTimeBuffer s) (blockThisCycle s) (toIEWIndex s) (toIEW s) (renameBlock s) (renameUnblock s) (heap s) (stats s) (calls s).
Definition with_threads (x : list Thread) (s : Stage) : Stage :=
  mkStage (_status s) x (freeList s) (scoreboard s) (resumeSerialize s) (resumeUnblocking s) (wroteToTimeBuffer s) (blockThisCycle s) (toIEWIndex s) (toIEW s) (renameBlock s) (renameUnblock s) (heap s) (stats s) (calls s).
Definition with_freeList (x : UnifiedFreeList) (s : Stage) : Stage :=
  mkStage (_status s) (threads s) x (scoreboard s) (resumeSerialize s) (resumeUnblocking s) (wroteToTimeBuffer s) (blockThisCycle s) (toIEWIndex s) (toIEW s) (renameBlock s) (renameUnblock s) (heap s) (stats s) (calls s).
Definition with_scoreboard (x : Scoreboard.Scoreboard) (s : Stage) : Stage :=
  mkStage (_status s) (threads s) (freeList s) x (resumeSerialize s) (resumeUnblocking s) (wroteToTimeBuffer s) (blockThisCycle s) (toIEWIndex s) (toIEW s) (renameBlock s) (renameUnblock s) (heap s) (stats s) (calls s).
Definition with_resumeSerialize (x : bool) (s : Stage) : Stage :=
  mkStage (_status s) (threads s) (freeList s) (scoreboard s) x (resumeUnblocking s) (wroteToTimeBuffer s) (blockThisCycle s) (toIEWIndex s) (toIEW s) (renameBlock s) (renameUnblock s) (heap s) (stats s) (calls s).
Definition with_resumeUnblocking (x : bool) (s : Stage) : Stage :=
  mkStage (_status s) (threads s) (freeList s) (scoreboard s) (resumeSerialize s) x (wroteToTimeBuffer s) (blockThisCycle s) (toIEWIndex s) (toIEW s) (renameBlock s) (renameUnblock s) (heap s) (stats s) (calls s).
Definition with_wroteToTimeBuffer (x : bool) (s : Stage) : Stage :=
  mkStage (_status s) (threads s) (freeList s) (scoreboard s) (resumeSerialize s) (resumeUnblocking s) x (blockThisCycle s) (toIEWIndex s) (toIEW s) (renameBlock s) (renameUnblock s) (heap s) (stats s) (calls s).
Definition with_blockThisCycle (x : bool) (s : Stage) : Stage :=
  mkStage (_status s) (threads s) (freeList s) (scoreboard s) (resumeSerialize s) (resumeUnblocking s) (wroteToTimeBuffer s) x (toIEWIndex s) (toIEW s) (renameBlock s) (renameUnblock s) (heap s) (stats s) (calls s).
Definition with_toIEWIndex (x : Z) (s : Stage) : Stage :=
  mkStage (_status s) (threads s) (freeList s) (scoreboard s) (resumeSerialize s) (resumeUnblocking s) (wroteToTimeBuffer s) (blockThisCycle s) x (toIEW s) (renameBlock s) (renameUnblock s) (heap s) (stats s) (calls s).
Definition with_toIEW (x : list positive) (s : Stage) : Stage :=
  mkStage (_status s) (threads s) (freeList s) (scoreboard s) (resumeSerialize s) (resumeUnblocking s) (wroteToTimeBuffer s) (blockThisCycle s) (toIEWIndex s) x (renameBlock s) (renameUnblock s) (heap s) (stats s) (calls s).
Definition with_renameBlock (x : list bool) (s : Stage) : Stage :=
  mkStage (_status s) (threads s) (freeList s) (scoreboard s) (resumeSerialize s) (resumeUnblocking s) (wroteToTimeBuffer s) (blockThisCycle s) (toIEWIndex s) (toIEW s) x (renameUnblock s) (heap s) (stats s) (calls s).
Definition with_renameUnblock (x : list bool) (s : Stage) : Stage :=
  mkStage (_status s) (threads s) (freeList s) (scoreboard s) (resumeSerialize s) (resumeUnblocking s) (wroteToTimeBuffer s) (blockThisCycle s) (toIEWIndex s) (toIEW s) (renameBlock s) x (heap s) (stats s) (calls s).
Definition with_heap (x : gmap positive DynInst) (s : Stage) : Stage :=
  mkStage (_status s) (threads s) (freeList s) (scoreboard s) (resumeSerialize s) (resumeUnblocking s) (wroteToTimeBuffer s) (blockThisCycle s) (toIEWIndex s) (toIEW s) (renameBlock s) (renameUnblock s) x (stats s) (calls s).
Definition with_stats (x : Stat → Z) (s : Stage) : Stage :=
  mkStage (_status s) (threads s) (freeList s) (scoreboard s) (resumeSerialize s) (resumeUnblocking s) (wroteToTimeBuffer s) (blockThisCycle s) (toIEWIndex s) (toIEW s) (renameBlock s) (renameUnblock s) (heap s) x (calls s).
Definition with_calls (x : list Call) (s : Stage) : Stage :=
  mkStage (_status s) (threads s) (freeList s) (scoreboard s) (resumeSerialize s) (resumeUnblocking s) (wroteToTimeBuffer s) (blockThisCycle s) (toIEWIndex s) (toIEW s) (renameBlock s) (renameUnblock s) (heap s) (stats s) x.

(** The configuration, and the wires of one cycle. *)
Record Params := mkParams { renameWidth : Z; skidBufferMax : Z; numThreads : nat; regFile : PhysRegFile }.

Record IewInfo := mkIewInfo {
  freeIQEntries : Z;
  freeLQEntries : Z;
  freeSQEntries : Z;
  dispatchedToLQ : Z;
  dispatchedToSQ : Z;
  dispatched : Z;
  usedIQ : bool;
  usedLSQ : bool;
  iewBlock : bool;
  iewUnblock : bool
}.

Record CommitInfo := mkCommitInfo {
  doneSeqNum : Z;
  freeROBEntries : Z;
  squashSignal : bool;
  usedROB : bool;
  robEmpty : bool
}.

Record Wires := mkWires {
  fromDecode : list positive;
  iewInfo : nat → IewInfo;
  commitInfo : nat → CommitInfo;
  activeThreads : list nat
}.

(** A register of a class, flattened for a thread. *)
Class Flatten := flatten : nat → RegClass → Z → Z.

(** ** Access to the state *)

Definition get (tid : nat) (s : Stage) : res Thread := deref (threads s !! tid).
Definition upd (tid : nat) (f : Thread → Thread) (s : Stage) : res Stage :=
  t ← get tid s; Ok (with_threads (<[tid := f t]> (threads s)) s).
Definition inst (p : positive) (s : Stage) : res DynInst := deref (heap s !! p).
Definition upd_inst (p : positive) (f : DynInst → DynInst) (s : Stage) : res Stage :=
  i ← inst p s; Ok (with_heap (<[p := f i]> (heap s)) s).
Definition set_inst (p : positive) (i : DynInst) (s : Stage) : Stage := with_heap (<[p := i]> (heap s)) s.
Definition add_stat (st : Stat) (n : Z) (s : Stage) : Stage :=
  with_stats (λ st', if decide (st' = st) then stats s st' + n else stats s st') s.
Definition incr (st : Stat) (s : Stage) : Stage := add_stat st 1 s.
Definition call (c : Call) (s : Stage) : Stage := with_calls (calls s ++ [c]) s.
Definition set_block (tid : nat) (b : bool) (s : Stage) : Stage := with_renameBlock (<[tid := b]> (renameBlock s)) s.
Definition set_unblock (tid : nat) (b : bool) (s : Stage) : Stage := with_renameUnblock (<[tid := b]> (renameUnblock s)) s.

(** [cpu] a step on the maps: the thread's map and the shared free list. *)
Definition set_map (tid : nat) (m : UnifiedRenameMap) (fl : UnifiedFreeList) (s : Stage) : res Stage :=
  upd tid (with_renameMap m) (with_freeList fl s).

Section stage.
Context `{ISA} `{Flatten} (P : Params) (w : Wires).

(** ** Renaming the registers of an instruction *)

Definition lookup_src (tid : nat) (src_reg : Z) (s : Stage) : res (Z * Stage) :=
  t ← get tid s;
  '(cl, rel_src_reg) ← regIdxToClass src_reg;
  match cl with
  | IntRegClass => r ← lookupInt (regFile P) (renameMap t) (flatten tid cl rel_src_reg); Ok (r, incr intRenameLookups s)
  | FloatRegClass => r ← lookupFloat (regFile P) (renameMap t) (flatten tid cl rel_src_reg); Ok (r, incr fpRenameLookups s)
  | CCRegClass => r ← lookupCC (regFile P) (renameMap t) (flatten tid cl rel_src_reg); Ok (r, s)
  | MiscRegClass => Ok (lookupMisc (regFile P) rel_src_reg, s)
  end.

Fixpoint renameSrcRegs_from (p : positive) (tid : nat) (src_idx : Z) (srcs : list Z) (s : Stage) : res Stage :=
  match srcs with
  | [] => Ok s
  | src_reg :: srcs =>
      '(renamed_reg, s) ← lookup_src tid src_reg s;
      i ← inst p s;
      i ← renameSrcReg src_idx renamed_reg i;
      ready ← Scoreboard.getReg (scoreboard s) renamed_reg;
      i ← (if ready : bool then markSrcRegReadyIdx src_idx i else Ok i);
      renameSrcRegs_from p tid (src_idx + 1) srcs (incr renameRenameLookups (set_inst p i s))
  end.

Definition renameSrcRegs (p : positive) (tid : nat) (s : Stage) : res Stage :=
  i ← inst p s; renameSrcRegs_from p tid 0 (srcRegIdx (staticInst i)) s.

(** The class-specific [rename] and the flattened unified index. *)
Definition rename_dest (tid : nat) (dest_reg : Z) (s : Stage) : res (RenameInfo * Z * Stage) :=
  t ← get tid s;
  let m := renameMap t in
  '(cl, rel_dest_reg) ← regIdxToClass dest_reg;
  match cl with
  | IntRegClass =>
      let flat := flatten tid cl rel_dest_reg in
      '(info, m, fl) ← renameInt (regFile P) m (freeList s) flat;
      s ← set_map tid m fl s;
      Ok (info, flat, s)
  | FloatRegClass =>
      let flat := flatten tid cl rel_dest_reg in
      '(info, m, fl) ← renameFloat (regFile P) m (freeList s) flat;
      s ← set_map tid m fl s;
      Ok (info, RegIndex (flat + FP_Reg_Base), s)
  | CCRegClass =>
      let flat := flatten tid cl rel_dest_reg in
      '(info, m, fl) ← renameCC (regFile P) m (freeList s) flat;
      s ← set_map tid m fl s;
      Ok (info, RegIndex (flat + CC_Reg_Base), s)
  | MiscRegClass => Ok (renameMisc (regFile P) rel_dest_reg, RegIndex (rel_dest_reg + Misc_Reg_Base), s)
  end.

Fixpoint renameDestRegs_from (p : positive) (tid : nat) (dest_idx : Z) (dests : list Z) (s : Stage) : res Stage :=
  match dests with
  | [] => Ok s
  | dest_reg :: dests =>
      '(rename_result, flat_uni_dest_reg, s) ← rename_dest tid dest_reg s;
      i ← inst p s;
      i ← flattenDestReg dest_idx flat_uni_dest_reg i;
      sb ← Scoreboard.unsetReg (scoreboard s) rename_result.1;
      let hb_entry := mkHistory (seqNum i) flat_uni_dest_reg rename_result.1 rename_result.2 in
      s ← upd tid (λ t, with_historyBuffer (hb_entry :: historyBuffer t) t) (with_scoreboard sb s);
      i ← renameDestReg dest_idx rename_result.1 rename_result.2 i;
      renameDestRegs_from p tid (dest_idx + 1) dests (incr renameRenamedOperands (set_inst p i s))
  end.

Definition renameDestRegs (p : positive) (tid : nat) (s : Stage) : res Stage :=
  i ← inst p s; renameDestRegs_from p tid 0 (destRegIdx (staticInst i)) s.

(** ** Squash and commit *)

Fixpoint squash_history (squashed_seq_num : Z) (hb : list RenameHistory) (m : UnifiedRenameMap) (fl : UnifiedFreeList) (s : Stage) :
    res (list RenameHistory * UnifiedRenameMap * UnifiedFreeList * Stage) :=
  match hb with
  | [] => Ok ([], m, fl, s)
  | h :: hb' =>
      if squashed_seq_num <? instSeqNum h then
        '(m, fl) ← (if negb (newPhysReg h =? prevPhysReg h) then
                      m ← setEntry (regFile P) m (archReg h) (prevPhysReg h);
                      fl ← addReg (regFile P) (newPhysReg h) fl;
                      Ok (m, fl)
                    else Ok (m, fl));
        squash_history squashed_seq_num hb' m fl (incr renameUndoneMaps (call (ppSquashInRename (instSeqNum h) (newPhysReg h)) s))
      else Ok (hb, m, fl, s)
  end.

Definition doSquash (squashed_seq_num : Z) (tid : nat) (s : Stage) : res Stage :=
  t ← get tid s;
  '(hb, m, fl, s) ← squash_history squashed_seq_num (historyBuffer t) (renameMap t) (freeList s) s;
  s ← set_map tid m fl s;
  upd tid (with_historyBuffer hb) s.

(** The oldest entries are at the end of the list: the loop runs over its reversal. *)
Fixpoint commit_history (inst_seq_num : Z) (oldest : list RenameHistory) (fl : UnifiedFreeList) (s : Stage) :
    res (list RenameHistory * UnifiedFreeList * Stage) :=
  match oldest with
  | [] => Ok ([], fl, s)
  | h :: oldest' =>
      if instSeqNum h <=? inst_seq_num then
        fl ← (if negb (newPhysReg h =? prevPhysReg h) then addReg (regFile P) (prevPhysReg h) fl else Ok fl);
        commit_history inst_seq_num oldest' fl (incr renameCommittedMaps s)
      else Ok (oldest, fl, s)
  end.

Definition removeFromHistory (inst_seq_num : Z) (tid : nat) (s : Stage) : res Stage :=
  t ← get tid s;
  '(hb, fl, s) ← commit_history inst_seq_num (rev (historyBuffer t)) (freeList s) s;
  upd tid (with_historyBuffer (rev hb)) (with_freeList fl s).

(** ** Free entries *)

Definition calcFreeROBEntries (tid : nat) (t : Thread) : Z :=
  i32 (robEntries (freeEntries t) - (instsInProgress t - dispatched (iewInfo w tid))).
Definition calcFreeIQEntries (tid : nat) (t : Thread) : Z :=
  i32 (iqEntries (freeEntries t) - (instsInProgress t - dispatched (iewInfo w tid))).
Definition calcFreeLQEntries (tid : nat) (t : Thread) : Z :=
  i32 (lqEntries (freeEntries t) - (loadsInProgress t - dispatchedToLQ (iewInfo w tid))).
Definition calcFreeSQEntries (tid : nat) (t : Thread) : Z :=
  i32 (sqEntries (freeEntries t) - (storesInProgress t - dispatchedToSQ (iewInfo w tid))).

Fixpoint count_valid (l : list positive) (s : Stage) : res Z :=
  match l with
  | [] => Ok 0
  | p :: l => i ← inst p s; n ← count_valid l s; Ok (if isSquashed i then n else n + 1)
  end.
Definition validInsts (s : Stage) : res Z := count_valid (fromDecode w) s.

Definition readStallSignals (tid : nat) (s : Stage) : res Stage :=
  s ← (if iewBlock (iewInfo w tid) then upd tid (with_stalls_iew true) s else Ok s);
  if iewUnblock (iewInfo w tid) then
    t ← get tid s;
    _ ← assert_ (stalls_iew t);
    upd tid (with_stalls_iew false) s
  else Ok s.

Definition checkStall (tid : nat) (s : Stage) : res bool :=
  t ← get tid s;
  Ok (if stalls_iew t then true
      else if calcFreeROBEntries tid t <=? 0 then true
      else if calcFreeIQEntries tid t <=? 0 then true
      else if (calcFreeLQEntries tid t <=? 0) && (calcFreeSQEntries tid t <=? 0) then true
      else if numFreeEntries (freeList s) <=? 0 then true
      else bool_decide (renameStatus t = SerializeStall) && (negb (emptyROB t) || negb (instsInProgress t =? 0))).

Definition readFreeEntries (tid : nat) (s : Stage) : res Stage :=
  let iew := iewInfo w tid in
  let com := commitInfo w tid in
  upd tid (λ t,
    let e := freeEntries t in
    let e := if usedIQ iew then mkFreeEntries (freeIQEntries iew) (robEntries e) (lqEntries e) (sqEntries e) else e in
    let e := if usedLSQ iew then mkFreeEntries (iqEntries e) (robEntries e) (freeLQEntries iew) (freeSQEntries iew) else e in
    if usedROB com then
      with_emptyROB (robEmpty com) (with_freeEntries (mkFreeEntries (iqEntries e) (freeROBEntries com) (lqEntries e) (sqEntries e)) t)
    else with_freeEntries e t) s.

Definition incrFullStat (source : FullSource) (s : Stage) : res Stage :=
  match source with
  | ROB => Ok (incr renameROBFullEvents s)
  | IQ => Ok (incr renameIQFullEvents s)
  | LQ => Ok (incr renameLQFullEvents s)
  | SQ => Ok (incr renameSQFullEvents s)
  | NONE => Fail Panicked
  end.

(** ** Queues *)

Fixpoint sort_insts (l : list positive) (s : Stage) : res Stage :=
  match l with
  | [] => Ok s
  | p :: l =>
      i ← inst p s;
      s ← upd (threadNumber i) (λ t, with_insts (insts t ++ [p]) t) s;
      sort_insts l s
  end.
Definition sortInsts (s : Stage) : res Stage := sort_insts (fromDecode w) s.

Fixpoint skid_loop (tid : nat) (l : list positive) (s : Stage) : res Stage :=
  match l with
  | [] => Ok s
  | p :: l =>
      s ← upd tid (with_insts l) s;
      i ← inst p s;
      _ ← assert_ (bool_decide (tid = threadNumber i));
      s ← upd tid (λ t, with_skidBuffer (skidBuffer t ++ [p]) t) (incr renameSkidInsts s);
      skid_loop tid l s
  end.

Definition skidInsert (tid : nat) (s : Stage) : res Stage :=
  t ← get tid s;
  s ← skid_loop tid (insts t) s;
  t ← get tid s;
  if skidBufferMax P <? vsize (skidBuffer t) then Fail Panicked else Ok s.

Definition block (tid : nat) (s : Stage) : res (bool * Stage) :=
  s ← skidInsert tid s;
  t ← get tid s;
  if negb (bool_decide (renameStatus t = Blocked)) then
    let s := if resumeUnblocking s || negb (bool_decide (renameStatus t = Unblocking))
             then with_wroteToTimeBuffer true (set_unblock tid false (set_block tid true s)) else s in
    if negb (bool_decide (renameStatus t = SerializeStall)) then
      s ← upd tid (with_renameStatus Blocked) s; Ok (true, s)
    else Ok (false, s)
  else Ok (false, s).

Definition unblock (tid : nat) (s : Stage) : res (bool * Stage) :=
  t ← get tid s;
  if bool_decide (skidBuffer t = []) && negb (bool_decide (renameStatus t = SerializeStall)) then
    s ← upd tid (with_renameStatus Running) (with_wroteToTimeBuffer true (set_unblock tid true s));
    Ok (true, s)
  else Ok (false, s).

(** [serializeAfter], on the queue that is being renamed. *)
Definition serializeAfter (inst_list : list positive) (tid : nat) (s : Stage) : res Stage :=
  match inst_list with
  | [] => upd tid (with_serializeOnNextInst true) s
  | p :: _ => upd_inst p setSerializeBefore s
  end.

(** ** Squash *)

Fixpoint squash_decode (squash_seq_num : Z) (tid : nat) (l : list positive) (s : Stage) : res Stage :=
  match l with
  | [] => Ok s
  | p :: l =>
      i ← inst p s;
      s ← (if bool_decide (threadNumber i = tid) && (squash_seq_num <? seqNum i)
           then s ← upd_inst p setSquashed s; Ok (with_wroteToTimeBuffer true s) else Ok s);
      squash_decode squash_seq_num tid l s
  end.

(** The stall signals of a squash, before the status becomes [Squashing]. *)
Definition squash_stall (squash_seq_num : Z) (tid : nat) (s : Stage) : res Stage :=
  t ← get tid s;
  if bool_decide (renameStatus t = Blocked) || bool_decide (renameStatus t = Unblocking) then
    upd tid (with_serializeInst None) (with_resumeSerialize false (set_unblock tid true s))
  else if bool_decide (renameStatus t = SerializeStall) then
    p ← deref (serializeInst t);
    i ← inst p s;
    if seqNum i <=? squash_seq_num then Ok (with_resumeSerialize true s)
    else upd tid (with_serializeInst None) (set_unblock tid true (with_resumeSerialize false s))
  else Ok s.

Definition squash (squash_seq_num : Z) (tid : nat) (s : Stage) : res Stage :=
  s ← squash_stall squash_seq_num tid s;
  s ← upd tid (with_renameStatus Squashing) s;
  s ← squash_decode squash_seq_num tid (fromDecode w) s;
  s ← upd tid (λ t, with_skidBuffer [] (with_insts [] t)) s;
  doSquash squash_seq_num tid s.

(** ** Renaming the instructions of a thread *)

(** The queue being renamed: the skid buffer while unblocking. *)
Definition queue (unblocking : bool) (t : Thread) : list positive := if unblocking then skidBuffer t else insts t.
Definition with_queue (unblocking : bool) (l : list positive) (t : Thread) : Thread :=
  if unblocking then with_skidBuffer l t else with_insts l t.

(** The load and store queues have room for the instruction. *)
Definition lsq_full (tid : nat) (i : DynInst) (t : Thread) : option FullSource :=
  if isLoad (staticInst i) && (calcFreeLQEntries tid t <=? 0) then Some LQ
  else if isStore (staticInst i) && (calcFreeSQEntries tid t <=? 0) then Some SQ
  else None.

(** Registers, counters and the slot to IEW, for an instruction that is renamed. *)
Definition rename_inst (tid : nat) (p : positive) (s : Stage) : res Stage :=
  i ← inst p s;
  s ← renameSrcRegs p (threadNumber i) s;
  s ← renameDestRegs p (threadNumber i) s;
  s ← (if isLoad (staticInst i) then upd tid (λ t, with_loadsInProgress (i32 (loadsInProgress t + 1)) t) s else Ok s);
  s ← (if isStore (staticInst i) then upd tid (λ t, with_storesInProgress (i32 (storesInProgress t + 1)) t) s else Ok s);
  let s := call (ppRename p) s in
  Ok (with_toIEWIndex (u32 (toIEWIndex s + 1)) (with_toIEW (toIEW s ++ [p]) s)).

(** The loop, with [insts_available] left; the results are what is left of it and the number of
    renamed instructions. *)
Fixpoint rename_loop (unblocking : bool) (tid : nat) (insts_available : nat) (renamed_insts : Z) (s : Stage) : res (nat * Z * Stage) :=
  match insts_available with
  | O => Ok (O, renamed_insts, s)
  | S n =>
      if negb (toIEWIndex s <? renameWidth P) then Ok (insts_available, renamed_insts, s)
      else
        t ← get tid s;
        match queue unblocking t with
        | [] => Fail AssertFailed
        | p :: q =>
            i ← inst p s;
            match lsq_full tid i t with
            | Some source => s ← incrFullStat source s; Ok (insts_available, renamed_insts, s)
            | None =>
                s ← upd tid (with_queue unblocking q) s;
                if isSquashed i then rename_loop unblocking tid n renamed_insts (incr renameSquashedInsts s)
                else if negb (canRename (freeList s) (numIntDestRegs (staticInst i)) (numFPDestRegs (staticInst i)) (numCCDestRegs (staticInst i))) then
                  s ← upd tid (with_queue unblocking (p :: q)) (with_blockThisCycle true s);
                  Ok (insts_available, renamed_insts, incr renameFullRegistersEvents s)
                else if (isIprAccess (staticInst i) || isSerializeBefore i) && negb (isSerializeHandled i) then
                  s ← (if negb (isTempSerializeBefore i) then upd_inst p setSerializeHandled (incr renamedSerializing s)
                       else Ok (incr renamedTempSerializing s));
                  s ← upd tid (λ t, with_serializeInst (Some p) (with_renameStatus SerializeStall t)) s;
                  Ok (insts_available, renamed_insts, with_blockThisCycle true s)
                else
                  s ← (if (isStoreConditional (staticInst i) || isSerializeAfter i) && negb (isSerializeHandled i) then
                         s ← upd_inst p setSerializeHandled (incr renamedSerializing s);
                         serializeAfter q tid s
                       else Ok s);
                  s ← rename_inst tid p s;
                  rename_loop unblocking tid n (renamed_insts + 1) s
            end
        end
  end.

(** [serializeOnNextInst], before the loop. *)
Definition serialize_next (unblocking : bool) (tid : nat) (s : Stage) : res Stage :=
  t ← get tid s;
  if serializeOnNextInst t then
    if emptyROB t && (instsInProgress t =? 0) then upd tid (with_serializeOnNextInst false) s
    else match queue unblocking t with
         | p :: _ => upd_inst p setSerializeBefore s
         | [] => Ok s
         end
  else Ok s.

(** After the loop. *)
Definition finish_rename (tid : nat) (insts_available : nat) (renamed_insts : Z) (s : Stage) : res Stage :=
  s ← upd tid (λ t, with_instsInProgress (i32 (instsInProgress t + renamed_insts)) t) s;
  let s := add_stat renameRenamedInsts renamed_insts s in
  let s := if negb (toIEWIndex s =? 0) then with_wroteToTimeBuffer true s else s in
  let s := if bool_decide (insts_available = O) then s else with_blockThisCycle true s in
  if blockThisCycle s then
    '(_, s) ← block tid s; Ok (set_unblock tid false s)
  else Ok s.

Definition renameInsts (tid : nat) (s : Stage) : res Stage :=
  t ← get tid s;
  let unblocking := bool_decide (renameStatus t = Unblocking) in
  let insts_available := length (queue unblocking t) in
  if bool_decide (insts_available = O) then Ok (incr renameIdleCycles s)
  else
    let s := if unblocking then incr renameUnblockCycles s
             else if bool_decide (renameStatus t = Running) then incr renameRunCycles s else s in
    let free_rob_entries := calcFreeROBEntries tid t in
    let free_iq_entries := calcFreeIQEntries tid t in
    let '(min_free_entries, source) :=
      if free_iq_entries <? free_rob_entries then (free_iq_entries, IQ) else (free_rob_entries, ROB) in
    if min_free_entries <=? 0 then
      '(_, s) ← block tid (with_blockThisCycle true s);
      incrFullStat source s
    else
      '(insts_available, s) ← (if min_free_entries <? Z.of_nat insts_available
                               then s ← incrFullStat source (with_blockThisCycle true s); Ok (Z.to_nat min_free_entries, s)
                               else Ok (insts_available, s));
      s ← serialize_next unblocking tid s;
      '(insts_available, renamed_insts, s) ← rename_loop unblocking tid insts_available 0 s;
      finish_rename tid insts_available renamed_insts s.

(** [rename(status_change, tid)] *)
Definition rename_thread (status_change : bool) (tid : nat) (s : Stage) : res (bool * Stage) :=
  t ← get tid s;
  s ← match renameStatus t with
      | Blocked => Ok (incr renameBlockCycles s)
      | Squashing => Ok (incr renameSquashCycles s)
      | SerializeStall =>
          let s := incr renameSerializeStallCycles s in
          if resumeSerialize s then
            '(_, s) ← block tid (with_resumeSerialize false s); Ok (set_unblock tid false s)
          else Ok s
      | Unblocking =>
          if resumeUnblocking s then
            '(_, s) ← block tid s; Ok (set_unblock tid false (with_resumeUnblocking false s))
          else Ok s
      | _ => Ok s
      end;
  t ← get tid s;
  match renameStatus t with
  | Running | Idle => s ← renameInsts tid s; Ok (status_change, s)
  | Unblocking =>
      s ← renameInsts tid s;
      n ← validInsts s;
      s ← (if negb (n =? 0) then skidInsert tid s else Ok s);
      '(b, s) ← unblock tid s;
      Ok (b || status_change || blockThisCycle s, s)
  | _ => Ok (status_change, s)
  end.

(** ** Signals *)

Definition end_serialize (tid : nat) (s : Stage) : res Stage :=
  t ← get tid s;
  let serial := serializeInst t in
  s ← upd tid (with_renameStatus Unblocking) s;
  '(_, s) ← unblock tid s;
  serial_inst ← deref serial;
  s ← upd_inst serial_inst clearSerializeBefore s;
  upd tid (λ t, with_serializeInst None
    (if negb (bool_decide (skidBuffer t = [])) then with_skidBuffer (serial_inst :: skidBuffer t) t
     else with_insts (serial_inst :: insts t) t)) s.

Definition checkSignalsAndUpdate (tid : nat) (s : Stage) : res (bool * Stage) :=
  s ← readFreeEntries tid s;
  s ← readStallSignals tid s;
  if squashSignal (commitInfo w tid) then
    s ← squash (doneSeqNum (commitInfo w tid)) tid s; Ok (true, s)
  else
    stall ← checkStall tid s;
    if stall : bool then block tid s
    else
      t ← get tid s;
      match renameStatus t with
      | Blocked =>
          s ← upd tid (with_renameStatus Unblocking) s;
          '(_, s) ← unblock tid s;
          Ok (true, s)
      | Squashing =>
          if resumeSerialize s then s ← upd tid (with_renameStatus SerializeStall) s; Ok (true, s)
          else if resumeUnblocking s then s ← upd tid (with_renameStatus Unblocking) s; Ok (true, s)
          else s ← upd tid (with_renameStatus Running) s; Ok (false, s)
      | SerializeStall => s ← end_serialize tid s; Ok (true, s)
      | _ => Ok (false, s)
      end.

Fixpoint any_unblocking (l : list nat) (s : Stage) : res bool :=
  match l with
  | [] => Ok false
  | tid :: l => t ← get tid s; if bool_decide (renameStatus t = Unblocking) then Ok true else any_unblocking l s
  end.

(** [skidsEmpty] *)
Fixpoint skids_empty (l : list nat) (s : Stage) : res bool :=
  match l with
  | [] => Ok true
  | tid :: l => t ← get tid s; if negb (bool_decide (skidBuffer t = [])) then Ok false else skids_empty l s
  end.
Definition skidsEmpty (s : Stage) : res bool := skids_empty (activeThreads w) s.

Definition updateStatus (s : Stage) : res Stage :=
  b ← any_unblocking (activeThreads w) s;
  Ok (match b, _status s with
      | true, Inactive => call activateStage (with__status Active s)
      | false, Active => call deactivateStage (with__status Inactive s)
      | _, _ => s
      end).

(** ** A cycle *)

Fixpoint tick_threads (l : list nat) (status_change : bool) (s : Stage) : res (bool * Stage) :=
  match l with
  | [] => Ok (status_change, s)
  | tid :: l =>
      '(b, s) ← checkSignalsAndUpdate tid s;
      '(status_change, s) ← rename_thread (b || status_change) tid s;
      tick_threads l status_change s
  end.

Fixpoint tick_commit (l : list nat) (s : Stage) : res Stage :=
  match l with
  | [] => Ok s
  | tid :: l =>
      t ← get tid s;
      let c := commitInfo w tid in
      s ← (if negb (doneSeqNum c =? 0) && negb (squashSignal c) && negb (bool_decide (renameStatus t = Squashing))
           then removeFromHistory (doneSeqNum c) tid s else Ok s);
      tick_commit l s
  end.

Fixpoint tick_progress (l : list nat) (s : Stage) : res Stage :=
  match l with
  | [] => Ok s
  | tid :: l =>
      let iew := iewInfo w tid in
      s ← upd tid (λ t, with_storesInProgress (i32 (storesInProgress t - dispatchedToSQ iew))
        (with_loadsInProgress (i32 (loadsInProgress t - dispatchedToLQ iew))
          (with_instsInProgress (i32 (instsInProgress t - dispatched iew)) t))) s;
      t ← get tid s;
      _ ← assert_ (0 <=? loadsInProgress t);
      _ ← assert_ (0 <=? storesInProgress t);
      _ ← assert_ (0 <=? instsInProgress t);
      tick_progress l s
  end.

Definition tick (s : Stage) : res Stage :=
  let s := with_toIEWIndex 0 (with_blockThisCycle false (with_wroteToTimeBuffer false s)) in
  s ← sortInsts s;
  '(status_change, s) ← tick_threads (activeThreads w) false s;
  s ← (if status_change : bool then updateStatus s else Ok s);
  let s := if wroteToTimeBuffer s then call activityThisCycle s else s in
  s ← tick_commit (activeThreads w) s;
  tick_progress (seq 0 (numThreads P)) s.

(** ** Reset and drain *)

(** [free tid] is what the issue and commit stages report. *)
Definition reset_thread (free : FreeEntries) (t : Thread) : Thread :=
  mkThread Idle (historyBuffer t) (insts t) (skidBuffer t) (renameMap t) 0 0 0 free true false None false.

Definition resetStage (free : nat → FreeEntries) (s : Stage) : Stage :=
  with_threads (imap (λ tid t, if bool_decide (tid < numThreads P)%nat then reset_thread (free tid) t else t) (threads s))
    (with_resumeUnblocking false (with_resumeSerialize false (with__status Inactive s))).

Definition isDrained (s : Stage) : bool :=
  forallb (λ t, (instsInProgress t =? 0) && bool_decide (length (historyBuffer t) = O) && bool_decide (skidBuffer t = []) &&
    bool_decide (insts t = []) && (bool_decide (renameStatus t = Idle) || bool_decide (renameStatus t = Running)))
    (take (numThreads P) (threads s)).

Definition drainSanityCheck (s : Stage) : res unit :=
  assert_ (forallb (λ t, bool_decide (length (historyBuffer t) = O) && bool_decide (insts t = []) &&
    bool_decide (skidBuffer t = []) && (instsInProgress t =? 0)) (take (numThreads P) (threads s))).

End stage.
End O3Rename.
