(* ===== verification/O3RenameProofs.v ===== *)
(** * Register renaming is correct

    The invariant of the physical registers and what the rename stage does to it: every register
    is at any time in exactly one place, renaming hands out registers nobody uses, a squash
    undoes exactly the renames of the squashed instructions, and sources are read from the
    register of the last writer. *)

From S2P Require Import Prelude O3Regs O3Rename.

Open Scope Z_scope.

Module O3RenameProofs.
Import O3Regs RenameMap O3Rename.

(** ** Slots of a map *)

Definition cmap (cl : RegClass) (m : UnifiedRenameMap) : list Z :=
  match cl with
  | IntRegClass => map (intMap m)
  | FloatRegClass => map (floatMap m)
  | CCRegClass => map (ccMap m)
  | MiscRegClass => []
  end.

Definition set_cmap (cl : RegClass) (l : list Z) (m : UnifiedRenameMap) : UnifiedRenameMap :=
  match cl with
  | IntRegClass => with_intMap (mkSimple l (zeroReg (intMap m))) m
  | FloatRegClass => with_floatMap (mkSimple l (zeroReg (floatMap m))) m
  | CCRegClass => with_ccMap (mkSimple l (zeroReg (ccMap m))) m
  | MiscRegClass => m
  end.

(** The zero register of a class. *)
Definition czero (cl : RegClass) (m : UnifiedRenameMap) : Z :=
  match cl with
  | IntRegClass => zeroReg (intMap m)
  | FloatRegClass => zeroReg (floatMap m)
  | CCRegClass => zeroReg (ccMap m)
  | MiscRegClass => 0
  end.

Definition cfree (cl : RegClass) (fl : UnifiedFreeList) : list Z :=
  match cl with
  | IntRegClass => intList fl
  | FloatRegClass => floatList fl
  | CCRegClass => ccList fl
  | MiscRegClass => []
  end.

Definition set_cfree (cl : RegClass) (l : list Z) (fl : UnifiedFreeList) : UnifiedFreeList :=
  match cl with
  | IntRegClass => with_intList l fl
  | FloatRegClass => with_floatList l fl
  | CCRegClass => with_ccList l fl
  | MiscRegClass => fl
  end.

(** A physical register of a class. *)
Definition phys_ok (f : PhysRegFile) (cl : RegClass) (r : Z) : Prop :=
  match cl with
  | IntRegClass => 0 ≤ r < baseFloatRegIndex f
  | FloatRegClass => baseFloatRegIndex f ≤ r < baseCCRegIndex f
  | CCRegClass => baseCCRegIndex f ≤ r < totalNumRegs f
  | MiscRegClass => False
  end.

(** Register files whose indices fit the type of indices. *)
Record file_ok (f : PhysRegFile) : Prop := {
  file_float : 0 ≤ baseFloatRegIndex f ≤ baseCCRegIndex f;
  file_cc : baseCCRegIndex f ≤ totalNumRegs f;
  file_total : totalNumRegs f ≤ 2 ^ 15
}.

Section proofs.
Context `{I : ISA} `{L : !ISALaws} {Fl : Flatten} (P : Params) (w : Wires).

Abbreviation f := (regFile P).

(** The class and relative index of a unified index. *)
Definition slot (u : Z) (cl : RegClass) (rel : Z) : Prop := regIdxToClass u = Ok (cl, rel) ∧ 0 ≤ rel.

Definition num_regs (cl : RegClass) : Z :=
  match cl with
  | IntRegClass => NumIntRegs
  | FloatRegClass => NumFloatRegs
  | CCRegClass => NumCCRegs
  | MiscRegClass => 0
  end.

Definition base (cl : RegClass) : Z :=
  match cl with
  | IntRegClass => 0
  | FloatRegClass => FP_Reg_Base
  | CCRegClass => CC_Reg_Base
  | MiscRegClass => Misc_Reg_Base
  end.

Lemma slot_base cl rel : cl ≠ MiscRegClass → 0 ≤ rel < num_regs cl → slot (base cl + rel) cl rel.
Proof.
  intros Hcl Hrel. pose proof int_regs. pose proof float_regs. pose proof cc_regs. pose proof misc_regs. pose proof reg_bits.
  unfold slot, regIdxToClass, RegIndex. split; [|lia].
  assert (∀ x, 0 ≤ x < Max_Reg_Index → wrap regBits x = x) as Hw by (intros; apply wrap_small; unfold in_width; lia).
  destruct cl; cbn [num_regs base] in *; [..|done]; rewrite bind_assert by (apply Z.ltb_lt; lia);
    repeat match goal with |- context [?a <? ?b] => destruct (Z.ltb_spec a b); try lia end; rewrite Hw by lia; do 2 f_equal; lia.
Qed.

Lemma slot_inj u cl rel cl' rel' : slot u cl rel → slot u cl' rel' → cl = cl' ∧ rel = rel'.
Proof. unfold slot. intros [H1 _] [H2 _]. rewrite H1 in H2. by injection H2. Qed.

(** ** The invariant of the registers *)

Definition changed (h : RenameHistory) : bool := negb (newPhysReg h =? prevPhysReg h).

Definition set_entry (m : UnifiedRenameMap) (cl : RegClass) (rel r : Z) : UnifiedRenameMap :=
  set_cmap cl (<[Z.to_nat rel := r]> (cmap cl m)) m.

(** The map before an entry of the history was made. *)
Definition undo (m : UnifiedRenameMap) (h : RenameHistory) : UnifiedRenameMap :=
  if changed h then
    match regIdxToClass (archReg h) with Ok (cl, rel) => set_entry m cl rel (prevPhysReg h) | Fail _ => m end
  else m.

(** The registers the history will free at commit. *)
Fixpoint prevs (hb : list RenameHistory) : list Z :=
  match hb with
  | [] => []
  | h :: hb => if changed h then prevPhysReg h :: prevs hb else prevs hb
  end.

Definition mapped (m : UnifiedRenameMap) : list Z := map (intMap m) ++ map (floatMap m) ++ map (ccMap m).
Definition free_regs (fl : UnifiedFreeList) : list Z := intList fl ++ floatList fl ++ ccList fl.

(** The registers of a thread: its map and the history. *)
Abbreviation ThreadRegs := (UnifiedRenameMap * list RenameHistory)%type.
Definition owned (x : ThreadRegs) : list Z := mapped x.1 ++ prevs x.2.

Definition map_ok (m : UnifiedRenameMap) : Prop :=
  ∀ cl, Z.of_nat (length (cmap cl m)) = num_regs cl ∧ Forall (phys_ok f cl) (cmap cl m).

(** The history can be undone, entry by entry. *)
Fixpoint hist_ok (m : UnifiedRenameMap) (hb : list RenameHistory) : Prop :=
  match hb with
  | [] => True
  | h :: hb =>
      (changed h = true → ∃ cl rel, slot (archReg h) cl rel ∧ cmap cl m !! Z.to_nat rel = Some (newPhysReg h) ∧ phys_ok f cl (prevPhysReg h)) ∧
      hist_ok (undo m h) hb
  end.

(** The registers of the stage: the free lists and what each thread holds. *)
Abbreviation Regs := (UnifiedFreeList * list ThreadRegs)%type.
Definition thread_regs (t : Thread) : ThreadRegs := (renameMap t, historyBuffer t).
Definition regs (s : Stage) : Regs := (freeList s, thread_regs <$> threads s).

Record regs_ok (r : Regs) : Prop := {
  regs_perm : free_regs r.1 ++ concat (owned <$> r.2) ≡ₚ seqZ 0 (totalNumRegs f);
  regs_free : ∀ cl, Forall (phys_ok f cl) (cfree cl r.1);
  regs_threads : Forall (λ x, map_ok x.1 ∧ hist_ok x.1 x.2) r.2
}.

(** ** Updating one entry *)

Lemma insert_perm {A} (l : list A) i x y : l !! i = Some x → x :: <[i := y]> l ≡ₚ y :: l.
Proof.
  intros Hi. pose proof (lookup_lt_Some _ _ _ Hi). rewrite insert_take_drop by done. rewrite <- (take_drop_middle l i x Hi) at 3.
  rewrite <- !Permutation_middle. constructor.
Qed.

Lemma set_entry_perm m cl rel x y :
  cmap cl m !! Z.to_nat rel = Some x → x :: mapped (set_entry m cl rel y) ≡ₚ y :: mapped m.
Proof.
  intros Hx. unfold mapped, set_entry. destruct cl; cbn in *; [..|done]; pose proof (insert_perm _ _ _ y Hx) as Hp.
  - by rewrite app_comm_cons, Hp.
  - rewrite !(Permutation_middle (map (intMap m))), !app_comm_cons. by rewrite Hp.
  - rewrite !app_assoc, !Permutation_middle. by rewrite Hp.
Qed.

Lemma cmap_set_entry m cl rel r cl' :
  cmap cl' (set_entry m cl rel r) = if decide (cl' = cl) then <[Z.to_nat rel := r]> (cmap cl m) else cmap cl' m.
Proof. destruct cl, cl'; cbn; try done; by rewrite decide_True. Qed.

Lemma set_entry_id m cl rel r r' :
  cmap cl m !! Z.to_nat rel = Some r → set_entry (set_entry m cl rel r') cl rel r = m.
Proof.
  intros Hr. unfold set_entry at 1. rewrite cmap_set_entry, decide_True, list_insert_insert_eq by done. rewrite list_insert_id by done.
  destruct m as [[? ?] [? ?] [? ?]], cl; done.
Qed.

Lemma map_ok_set_entry m cl rel r : map_ok m → phys_ok f cl r → map_ok (set_entry m cl rel r).
Proof.
  intros Hm Hr cl'. rewrite cmap_set_entry. destruct (decide _) as [->|]; [|apply Hm]. destruct (Hm cl) as [Hl Hf].
  rewrite length_insert. split; [done|]. by apply Forall_insert.
Qed.

(** ** One rename *)

(** What renaming slot [cl], [rel] does to a map and the free lists. *)
Definition renames (m : UnifiedRenameMap) (fl : UnifiedFreeList) (cl : RegClass) (rel new prev : Z) (m' : UnifiedRenameMap) (fl' : UnifiedFreeList) : Prop :=
  new ≠ prev ∧ cmap cl m !! Z.to_nat rel = Some prev ∧ cfree cl fl = new :: cfree cl fl' ∧
  fl' = set_cfree cl (tail (cfree cl fl)) fl ∧ m' = set_entry m cl rel new.

Lemma free_regs_tail cl fl r l : cfree cl fl = r :: l → free_regs fl ≡ₚ r :: free_regs (set_cfree cl l fl).
Proof.
  intros Hl. unfold free_regs. destruct cl; cbn in *; [..|done]; rewrite Hl; cbn; [done|..].
  - by rewrite <- Permutation_middle.
  - rewrite <- Permutation_middle, Permutation_middle. by rewrite <- !Permutation_middle.
Qed.

Lemma free_regs_add cl fl r : cl ≠ MiscRegClass → free_regs (set_cfree cl (cfree cl fl ++ [r]) fl) ≡ₚ r :: free_regs fl.
Proof.
  intros Hcl. unfold free_regs. destruct cl; cbn; [..|done].
  - rewrite <- app_assoc. cbn. by rewrite <- Permutation_middle.
  - rewrite <- app_assoc. cbn. by rewrite <- !Permutation_middle.
  - by rewrite !app_assoc, Permutation_app_comm.
Qed.

Lemma cfree_set cl l fl cl' : cl ≠ MiscRegClass → cfree cl' (set_cfree cl l fl) = if decide (cl' = cl) then l else cfree cl' fl.
Proof. intros. destruct cl, cl'; cbn; done. Qed.

(** Replacing what one thread holds. *)
Lemma concat_owned_insert (l : list ThreadRegs) tid x y :
  l !! tid = Some x → ∃ rest, concat (owned <$> l) ≡ₚ owned x ++ rest ∧ concat (owned <$> <[tid := y]> l) ≡ₚ owned y ++ rest.
Proof.
  intros Hx. pose proof (lookup_lt_Some _ _ _ Hx). exists (concat (owned <$> take tid l) ++ concat (owned <$> drop (S tid) l)).
  rewrite insert_take_drop by done. rewrite <- (take_drop_middle l tid x Hx) at 1. rewrite !fmap_app, !fmap_cons, !concat_app. cbn.
  split; by rewrite Permutation_app_swap_app.
Qed.

(** Only the registers of one thread and the free lists change, and they trade registers. *)
Lemma regs_ok_update fl l tid x fl' x' :
  regs_ok (fl, l) → l !! tid = Some x → free_regs fl' ++ owned x' ≡ₚ free_regs fl ++ owned x →
  (∀ cl, Forall (phys_ok f cl) (cfree cl fl')) → map_ok x'.1 → hist_ok x'.1 x'.2 → regs_ok (fl', <[tid := x']> l).
Proof.
  intros [Hp Hf Ht] Hx Htr Hf' Hm Hh. cbn [fst snd] in *. split; cbn [fst snd]; [|done|].
  - destruct (concat_owned_insert l tid x x' Hx) as (rest & H1 & H2). rewrite H2. rewrite H1 in Hp.
    by rewrite app_assoc, Htr, <- app_assoc.
  - apply Forall_insert; [done|]. done.
Qed.

Lemma renames_ok m hb fl cl rel new prev m' fl' sn tid l :
  regs_ok (fl, l) → l !! tid = Some (m, hb) → cl ≠ MiscRegClass → 0 ≤ rel < num_regs cl → renames m fl cl rel new prev m' fl' →
  regs_ok (fl', <[tid := (m', mkHistory sn (base cl + rel) new prev :: hb)]> l).
Proof.
  intros Hok Hl Hcl Hrel (Hne & Hprev & Hfree & -> & ->). pose proof Hok as [_ Hf Ht]. cbn [fst snd] in *.
  rewrite Hfree in *. cbn [tail]. rewrite Forall_lookup in Ht. destruct (Ht _ _ Hl) as [Hm Hh]. cbn [fst snd] in *.
  assert (changed (mkHistory sn (base cl + rel) new prev) = true) as Hch by (unfold changed; cbn; by rewrite (proj2 (Z.eqb_neq _ _) Hne)).
  pose proof (Hf cl) as Hfc. set (tl := cfree cl (set_cfree cl _ fl)) in *.
  assert (cfree cl fl = new :: tl) as Hfree' by done. rewrite Hfree' in Hfc. apply Forall_cons in Hfc as [Hnew Htl].
  apply (regs_ok_update fl l tid (m, hb)); try done.
  - unfold owned. cbn [fst snd prevs]. rewrite Hch. rewrite (free_regs_tail cl fl new tl) by done.
    rewrite <- Permutation_middle. rewrite app_comm_cons, (set_entry_perm m cl rel prev new Hprev). cbn. by rewrite <- Permutation_middle.
  - intros cl'. rewrite cfree_set by done. destruct (decide _) as [->|]; [done|apply Hf].
  - cbn [fst]. by apply map_ok_set_entry.
  - cbn [fst snd hist_ok]. split.
    + intros _. exists cl, rel. split; [by apply slot_base|]. split; [|by eapply (Forall_lookup_1 _ _ _ _ (proj2 (Hm cl)))].
      cbn [newPhysReg]. rewrite cmap_set_entry, decide_True by done. apply list_lookup_insert_eq. by apply lookup_lt_Some in Hprev.
    + unfold undo. rewrite Hch. cbn [archReg prevPhysReg]. destruct (slot_base cl rel Hcl Hrel) as [-> _]. by rewrite set_entry_id.
Qed.

(** ** The operations on maps and free lists do not fail *)

Lemma phys_index cl r : file_ok f → phys_ok f cl r → 0 ≤ r < 2 ^ 15 ∧ u32 r = r.
Proof.
  intros [? ? ?] Hr. assert (0 ≤ r < 2 ^ 15) as Hb by (destruct cl; cbn in Hr; [lia..|done]).
  split; [done|]. apply wrap_small. unfold in_width. lia.
Qed.

Lemma class_test cl r : file_ok f → phys_ok f cl r →
  isIntPhysReg f r = bool_decide (cl = IntRegClass) ∧ isFloatPhysReg f r = bool_decide (cl = FloatRegClass) ∧
  isCCPhysReg f r = bool_decide (cl = CCRegClass).
Proof.
  intros Hf Hr. destruct (phys_index cl r Hf Hr) as [Hb Hu]. unfold isIntPhysReg, isFloatPhysReg, isCCPhysReg. rewrite Hu. destruct Hf as [? ? ?].
  destruct cl; cbn [phys_ok] in Hr; [..|done];
    repeat match goal with |- context [?a <=? ?b] => destruct (Z.leb_spec a b); try lia | |- context [?a <? ?b] => destruct (Z.ltb_spec a b); try lia end;
    done.
Qed.

Lemma addReg_ok cl r fl : file_ok f → phys_ok f cl r → addReg f r fl = Ok (set_cfree cl (cfree cl fl ++ [r]) fl).
Proof.
  intros Hf Hr. unfold addReg. destruct (class_test cl r Hf Hr) as (-> & -> & ->). destruct cl; done.
Qed.

Lemma setEntry_ok m u cl rel r x :
  file_ok f → slot u cl rel → cmap cl m !! Z.to_nat rel = Some x → phys_ok f cl r → setEntry f m u r = Ok (set_entry m cl rel r).
Proof.
  intros Hf [Hu Hrel] Hx Hr. unfold setEntry. rewrite Hu. cbn [mbind res_bind]. destruct (class_test cl r Hf Hr) as (H1 & H2 & H3).
  pose proof (lookup_lt_Some _ _ _ Hx) as Hlt.
  destruct cl; cbn in Hx, Hlt |- *; [..|done]; unfold setIntEntry, setFloatEntry, setCCEntry, setEntry_simple;
    rewrite bind_assert, vwrite_ok by (done || unfold vsize; lia); done.
Qed.

(** ** Squash *)

(** One entry is undone, whatever is on the free lists. *)
Lemma undo_entry m h hb fl :
  file_ok f → map_ok m → hist_ok m (h :: hb) →
  ∃ fl', (if negb (newPhysReg h =? prevPhysReg h) then
            m ← setEntry f m (archReg h) (prevPhysReg h); fl ← addReg f (newPhysReg h) fl; Ok (m, fl)
          else Ok (m, fl)) = Ok (undo m h, fl') ∧
    free_regs fl' ≡ₚ (if changed h then [newPhysReg h] else []) ++ free_regs fl ∧ map_ok (undo m h) ∧
    ((∀ cl, Forall (phys_ok f cl) (cfree cl fl)) → ∀ cl, Forall (phys_ok f cl) (cfree cl fl')).
Proof.
  intros Hf Hm [Hh _]. change (negb (newPhysReg h =? prevPhysReg h)) with (changed h). unfold undo. destruct (changed h) eqn:Hch; [|by exists fl].
  destruct (Hh eq_refl) as (cl & rel & Hs & Hx & Hp). pose proof (Forall_lookup_1 _ _ _ _ (proj2 (Hm cl)) Hx) as Hnew.
  assert (cl ≠ MiscRegClass) as Hcl by (by intros ->).
  exists (set_cfree cl (cfree cl fl ++ [newPhysReg h]) fl). rewrite (setEntry_ok m _ cl rel _ _ Hf Hs Hx Hp).
  cbn [mbind res_bind]. rewrite (addReg_ok cl) by done. cbn [mbind res_bind]. destruct Hs as [-> _].
  split_and!; [done|by apply free_regs_add|by apply map_ok_set_entry|]. intros Hfr cl'. rewrite cfree_set by done.
  destruct (decide _) as [->|]; [|apply Hfr]. apply Forall_app. split; [apply Hfr|]. by apply Forall_singleton.
Qed.

Lemma undo_step m h hb fl l tid :
  file_ok f → regs_ok (fl, l) → l !! tid = Some (m, h :: hb) →
  ∃ fl', (if negb (newPhysReg h =? prevPhysReg h) then
            m ← setEntry f m (archReg h) (prevPhysReg h); fl ← addReg f (newPhysReg h) fl; Ok (m, fl)
          else Ok (m, fl)) = Ok (undo m h, fl') ∧
    free_regs fl' ≡ₚ (if changed h then [newPhysReg h] else []) ++ free_regs fl ∧ regs_ok (fl', <[tid := (undo m h, hb)]> l).
Proof.
  intros Hf Hok Hl. pose proof Hok as [_ Hfr Ht]. cbn [fst snd] in *. rewrite Forall_lookup in Ht. destruct (Ht _ _ Hl) as [Hm [Hh Hrest]].
  cbn [fst snd] in *. destruct (undo_entry m h hb fl Hf Hm (conj Hh Hrest)) as (fl' & Hrun & Hfr' & Hm' & Hfl').
  exists fl'. split_and!; [done|done|]. apply (regs_ok_update fl l tid (m, h :: hb)); try done; [|by apply Hfl'].
  rewrite Hfr'. unfold owned, undo. cbn [fst snd prevs]. destruct (changed h) eqn:Hch; [|done].
  destruct (Hh eq_refl) as (cl & rel & [-> _] & Hx & _). cbn [app].
  rewrite (Permutation_middle (free_regs fl)), app_comm_cons, (set_entry_perm m cl rel (newPhysReg h)) by done.
  cbn. by rewrite <- !Permutation_middle.
Qed.

(** The registers given to the instructions of a piece of history. *)
Fixpoint news (hb : list RenameHistory) : list Z :=
  match hb with
  | [] => []
  | h :: hb => if changed h then newPhysReg h :: news hb else news hb
  end.

(** A squash undoes the younger entries, whatever is on the free lists. *)
Lemma squash_history_frees sn hb m fl s :
  file_ok f → map_ok m → hist_ok m hb →
  ∃ young old fl' s', squash_history P sn hb m fl s = Ok (old, foldl undo m young, fl', s') ∧
    hb = young ++ old ∧ Forall (λ h, sn < instSeqNum h) young ∧ (∀ h, head old = Some h → instSeqNum h ≤ sn) ∧
    free_regs fl' ≡ₚ news young ++ free_regs fl ∧ threads s' = threads s.
Proof.
  intros Hf. revert m fl s. induction hb as [|h hb IH]; intros m fl s Hm Hh; cbn [squash_history]; [by exists [], [], fl, s|].
  destruct (Z.ltb_spec sn (instSeqNum h)) as [Hlt|Hle]; [|exists [], (h :: hb), fl, s; split_and!; try done; by intros ? [= <-]].
  destruct (undo_entry m h hb fl Hf Hm Hh) as (fl1 & -> & Hfr & Hm1 & _). cbn [mbind res_bind].
  destruct (IH (undo m h) fl1 (incr renameUndoneMaps (call (ppSquashInRename (instSeqNum h) (newPhysReg h)) s)) Hm1 (proj2 Hh))
    as (young & old & fl' & s' & Hrun & -> & Hy & Ho & Hfr' & Ht).
  exists (h :: young), old, fl', s'. rewrite Hrun. split_and!; try done; [by constructor|].
  rewrite Hfr', Hfr. cbn [news]. destruct (changed h); cbn; [by rewrite <- Permutation_middle|done].
Qed.

Lemma squash_history_spec sn hb m fl l tid s :
  file_ok f → regs_ok (fl, l) → l !! tid = Some (m, hb) →
  ∃ young old fl' s', squash_history P sn hb m fl s = Ok (old, foldl undo m young, fl', s') ∧
    hb = young ++ old ∧ Forall (λ h, sn < instSeqNum h) young ∧ (∀ h, head old = Some h → instSeqNum h ≤ sn) ∧
    free_regs fl' ≡ₚ news young ++ free_regs fl ∧ regs_ok (fl', <[tid := (foldl undo m young, old)]> l) ∧
    regs s' = regs s ∧ threads s' = threads s.
Proof.
  intros Hf. revert m fl l s. induction hb as [|h hb IH]; intros m fl l s Hok Hl; cbn [squash_history].
  { exists [], [], fl, s. cbn. rewrite list_insert_id by done. done. }
  destruct (Z.ltb_spec sn (instSeqNum h)) as [Hlt|Hle].
  - destruct (undo_step m h hb fl l tid Hf Hok Hl) as (fl1 & -> & Hfr & Hok1). cbn [mbind res_bind].
    pose proof (lookup_lt_Some _ _ _ Hl) as Hlen.
    destruct (IH (undo m h) fl1 (<[tid := (undo m h, hb)]> l) (incr renameUndoneMaps (call (ppSquashInRename (instSeqNum h) (newPhysReg h)) s)) Hok1)
      as (young & old & fl' & s' & Hrun & -> & Hy & Ho & Hfr' & Hok' & Hs & Ht); [by apply list_lookup_insert_eq|].
    exists (h :: young), old, fl', s'. rewrite Hrun. rewrite list_insert_insert_eq in Hok'. split_and!; try done.
    + by constructor.
    + rewrite Hfr', Hfr. cbn [news]. destruct (changed h); cbn; [by rewrite <- Permutation_middle|done].
  - exists [], (h :: hb), fl, s. cbn. rewrite list_insert_id by done. split_and!; try done. intros ? [= <-]. done.
Qed.

(** ** Commit *)

Lemma prevs_app a b : prevs (a ++ b) = prevs a ++ prevs b.
Proof. induction a as [|h a IH]; cbn; [done|]. rewrite IH. by destruct (changed h). Qed.

Lemma hist_ok_prefix a b m : hist_ok m (a ++ b) → hist_ok m a ∧ hist_ok (foldl undo m a) b.
Proof. revert m. induction a as [|h a IH]; intros m; cbn; [done|]. intros [Hh Ht]. destruct (IH _ Ht) as [? ?]. done. Qed.

Lemma hist_prev_phys h m hb : map_ok m → hist_ok m hb → h ∈ hb → changed h = true → ∃ cl, phys_ok f cl (prevPhysReg h).
Proof.
  revert m. induction hb as [|h' hb IH]; intros m Hm Hh; [by intros ?%not_elem_of_nil|]. destruct Hh as [Hh Ht].
  intros [->|Hin]%elem_of_cons Hch; [destruct (Hh Hch) as (cl & rel & _ & _ & Hp); by exists cl|].
  apply (IH (undo m h')); try done. unfold undo. destruct (changed h') eqn:Hch'; [|done].
  destruct (Hh eq_refl) as (cl & rel & [-> _] & _ & Hp). by apply map_ok_set_entry.
Qed.

Lemma commit_history_spec sn oldest keep m fl l tid s :
  file_ok f → regs_ok (fl, l) → l !! tid = Some (m, keep ++ rev oldest) →
  ∃ old new fl' s', commit_history P sn oldest fl s = Ok (new, fl', s') ∧
    oldest = old ++ new ∧ Forall (λ h, instSeqNum h ≤ sn) old ∧ (∀ h, head new = Some h → sn < instSeqNum h) ∧
    free_regs fl' ≡ₚ prevs old ++ free_regs fl ∧ regs_ok (fl', <[tid := (m, keep ++ rev new)]> l) ∧
    regs s' = regs s ∧ threads s' = threads s.
Proof.
  intros Hf. revert fl l s. induction oldest as [|h oldest IH]; intros fl l s Hok Hl; cbn [commit_history].
  { exists [], [], fl, s. cbn in *. rewrite list_insert_id by done. done. }
  destruct (Z.leb_spec (instSeqNum h) sn) as [Hle|Hlt].
  2: { exists [], (h :: oldest), fl, s. cbn [app]. rewrite list_insert_id by done. split_and!; try done. intros ? [= <-]. lia. }
  pose proof Hok as [_ Hfr Ht]. cbn [fst snd] in *. rewrite Forall_lookup in Ht. destruct (Ht _ _ Hl) as [Hm Hh]. cbn [fst snd] in *.
  assert (keep ++ rev (h :: oldest) = (keep ++ rev oldest) ++ [h]) as Hrev by (cbn; by rewrite app_assoc).
  rewrite Hrev in *. destruct (hist_ok_prefix _ _ _ Hh) as [Hh1 _].
  assert (∃ fl1, (if negb (newPhysReg h =? prevPhysReg h) then addReg f (prevPhysReg h) fl else Ok fl) = Ok fl1 ∧
    free_regs fl1 ≡ₚ prevs [h] ++ free_regs fl ∧ regs_ok (fl1, <[tid := (m, keep ++ rev oldest)]> l)) as (fl1 & -> & Hfr1 & Hok1).
  { change (negb (newPhysReg h =? prevPhysReg h)) with (changed h). cbn [prevs]. destruct (changed h) eqn:Hch.
    - destruct (hist_prev_phys h m _ Hm Hh) as (cl & Hp); [set_solver|done|]. assert (cl ≠ MiscRegClass) as Hcl by (by intros ->).
      rewrite (addReg_ok cl) by done. eexists. split; [done|]. split; [by apply free_regs_add|].
      apply (regs_ok_update fl l tid (m, (keep ++ rev oldest) ++ [h])); try done.
      + unfold owned. cbn [fst snd]. rewrite free_regs_add by done. rewrite !prevs_app. cbn [prevs]. rewrite Hch.
        cbn. rewrite !app_assoc. by rewrite <- Permutation_cons_append.
      + intros cl'. rewrite cfree_set by done. destruct (decide _) as [->|]; [|apply Hfr]. apply Forall_app. split; [apply Hfr|]. by apply Forall_singleton.
    - exists fl. split_and!; [done|done|]. apply (regs_ok_update fl l tid (m, (keep ++ rev oldest) ++ [h])); try done.
      unfold owned. cbn [fst snd]. rewrite (prevs_app (keep ++ rev oldest)). cbn [prevs]. by rewrite Hch, app_nil_r. }
  cbn [mbind res_bind]. pose proof (lookup_lt_Some _ _ _ Hl) as Hlen.
  destruct (IH fl1 _ (incr renameCommittedMaps s) Hok1) as (old & new & fl' & s' & -> & -> & Ho & Hn & Hfr' & Hok' & Hs & Hts); [by apply list_lookup_insert_eq|].
  exists (h :: old), new, fl', s'. rewrite list_insert_insert_eq in Hok'. split_and!; try done; [by constructor|].
  rewrite Hfr', Hfr1. cbn [prevs]. destruct (changed h); cbn; [by rewrite <- Permutation_middle|done].
Qed.

(** ** On the stage *)

Lemma upd_inv tid g s s' : upd tid g s = Ok s' ↔ ∃ t, threads s !! tid = Some t ∧ s' = with_threads (<[tid := g t]> (threads s)) s.
Proof. unfold upd, get. destruct (threads s !! tid) as [t|]; cbn; naive_solver. Qed.

Lemma regs_lookup s tid t : threads s !! tid = Some t → (regs s).2 !! tid = Some (thread_regs t).
Proof. intros Ht. cbn. by rewrite list_lookup_fmap, Ht. Qed.

Lemma regs_with_thread tid t s : regs (with_threads (<[tid := t]> (threads s)) s) = (freeList s, <[tid := thread_regs t]> (regs s).2).
Proof. unfold regs. cbn. by rewrite list_fmap_insert. Qed.

(** A thread of the stage after a squash. *)
Definition squashed (sn : Z) (t t' : Thread) : Prop :=
  ∃ young old, historyBuffer t = young ++ old ∧ Forall (λ h, sn < instSeqNum h) young ∧ (∀ h, head old = Some h → instSeqNum h ≤ sn) ∧
    t' = with_historyBuffer old (with_renameMap (foldl undo (renameMap t) young) t).

Lemma doSquash_spec sn tid s t :
  file_ok f → regs_ok (regs s) → threads s !! tid = Some t →
  ∃ s' t', doSquash P sn tid s = Ok s' ∧ threads s' = <[tid := t']> (threads s) ∧ squashed sn t t' ∧ regs_ok (regs s') ∧
    ∃ young, historyBuffer t = young ++ historyBuffer t' ∧ free_regs (freeList s') ≡ₚ news young ++ free_regs (freeList s).
Proof.
  intros Hf Hok Ht. unfold doSquash, get. rewrite Ht. cbn [deref mbind res_bind].
  destruct (squash_history_spec sn (historyBuffer t) (renameMap t) (freeList s) (regs s).2 tid s Hf) as
    (young & old & fl' & s1 & -> & Hhb & Hy & Ho & Hfr & Hok' & Hs1 & Hts); [exact Hok|by apply regs_lookup|].
  cbn [mbind res_bind]. unfold set_map, upd, get. cbn [threads with_freeList]. rewrite Hts, Ht. cbn [deref mbind res_bind].
  cbn [threads with_threads]. rewrite list_lookup_insert_eq by (by apply lookup_lt_Some in Ht). cbn [deref mbind res_bind]. rewrite list_insert_insert_eq.
  eexists _, _. split; [done|]. cbn [threads with_threads]. split; [done|]. split; [by exists young, old|].
  split; [|by exists young]. unfold regs at 1. cbn. rewrite list_fmap_insert. done.
Qed.

Definition committed (sn : Z) (t t' : Thread) : Prop :=
  ∃ new old, historyBuffer t = new ++ old ∧ Forall (λ h, instSeqNum h ≤ sn) old ∧ (∀ h, last new = Some h → sn < instSeqNum h) ∧
    t' = with_historyBuffer new t.

Lemma removeFromHistory_spec sn tid s t :
  file_ok f → regs_ok (regs s) → threads s !! tid = Some t →
  ∃ s' t', removeFromHistory P sn tid s = Ok s' ∧ threads s' = <[tid := t']> (threads s) ∧ committed sn t t' ∧ regs_ok (regs s') ∧
    ∃ old, historyBuffer t = historyBuffer t' ++ old ∧ free_regs (freeList s') ≡ₚ prevs old ++ free_regs (freeList s).
Proof.
  intros Hf Hok Ht. unfold removeFromHistory, get. rewrite Ht. cbn [deref mbind res_bind].
  destruct (commit_history_spec sn (rev (historyBuffer t)) [] (renameMap t) (freeList s) (regs s).2 tid s Hf) as
    (old & new & fl' & s1 & -> & Hhb & Ho & Hn & Hfr & Hok' & Hs1 & Hts); [exact Hok|rewrite rev_involutive; by apply regs_lookup|].
  cbn [mbind res_bind]. unfold upd, get. cbn [threads with_freeList]. rewrite Hts, Ht. cbn [deref mbind res_bind].
  assert (historyBuffer t = rev new ++ rev old) as Hhb' by (rewrite <- rev_app_distr, <- Hhb; by rewrite rev_involutive).
  eexists _, _. split; [done|]. cbn [threads with_threads]. split; [done|]. split; [|split].
  - exists (rev new), (rev old). split_and!; try done; [by apply Forall_rev|]. intros h Hl. apply Hn.
    destruct new as [|h0 new]; [done|]. cbn in Hl |- *. rewrite last_snoc in Hl. done.
  - unfold regs at 1. cbn. rewrite list_fmap_insert. done.
  - exists (rev old). split; [done|]. cbn. rewrite Hfr. apply Permutation_app_tail.
    clear. induction old as [|h old IH]; [done|]. cbn. rewrite prevs_app. cbn. destruct (changed h); rewrite IH; [by rewrite Permutation_cons_append|by rewrite app_nil_r].
Qed.

(** ** Renaming destinations *)

Lemma rename_simple_inv sm fl a info sm' fl' :
  rename_simple sm fl a = Ok (info, sm', fl') →
  0 ≤ a < vsize (map sm) ∧ map sm !! Z.to_nat a = Some info.2 ∧
  ((a ≠ zeroReg sm ∧ fl = info.1 :: fl' ∧ sm' = mkSimple (<[Z.to_nat a := info.1]> (map sm)) (zeroReg sm)) ∨
   (a = zeroReg sm ∧ info.2 = zeroReg sm ∧ info.1 = PhysRegIndex (zeroReg sm) ∧ sm' = sm ∧ fl' = fl)).
Proof.
  unfold rename_simple. intros Hr. apply bind_ok in Hr as (prev & Hprev & Hr). apply vread_inv in Hprev as [Ha Hprev].
  split; [done|]. destruct (Z.eqb_spec a (zeroReg sm)) as [Hz|Hz]; cbn [negb] in Hr.
  - apply bind_ok in Hr as ([] & Hp%assert_ok & Hr). apply Z.eqb_eq in Hp. injection Hr as <- <- <-. cbn. split; [done|]. by right.
  - apply bind_ok in Hr as ([r l] & Hg & Hr). apply bind_ok in Hr as (mp & Hm & Hr). apply vwrite_inv in Hm as [_ ->]. injection Hr as <- <- <-.
    unfold getSimple in Hg. destruct fl; [done|]. injection Hg as -> ->. cbn. split; [done|]. by left.
Qed.

Lemma short_id x : 0 ≤ x < 2 ^ 15 → PhysRegIndex x = x.
Proof. intros Hx. unfold PhysRegIndex. rewrite Z.mod_small; lia. Qed.

(** Renaming a slot: the new register comes off the free list, or the slot is the zero register
    and nothing changes. *)
Definition rename_class (cl : RegClass) (m : UnifiedRenameMap) (fl : UnifiedFreeList) (rel : Z) : res (RenameInfo * UnifiedRenameMap * UnifiedFreeList) :=
  match cl with
  | IntRegClass => renameInt f m fl rel
  | FloatRegClass => renameFloat f m fl rel
  | CCRegClass => renameCC f m fl rel
  | MiscRegClass => Fail Panicked
  end.

Lemma rename_class_inv cl m fl rel info m' fl' :
  file_ok f → map_ok m → NoDup (free_regs fl ++ mapped m) → rename_class cl m fl rel = Ok (info, m', fl') →
  cl ≠ MiscRegClass ∧ 0 ≤ rel < num_regs cl ∧
  (rel ≠ czero cl m ∧ renames m fl cl rel info.1 info.2 m' fl' ∨
   rel = czero cl m ∧ info.1 = info.2 ∧ m' = m ∧ fl' = fl ∧ phys_ok f cl info.1).
Proof.
  intros Hf Hm Hnd Hr. assert (cl ≠ MiscRegClass) as Hcl by (by intros ->).
  assert (∃ sm sm' l', rename_simple sm (cfree cl fl) rel = Ok (info, sm', l') ∧ map sm = cmap cl m ∧ m' = set_cmap cl (map sm') m ∧ fl' = set_cfree cl l' fl ∧
    zeroReg sm = czero cl m ∧ set_cmap cl (map sm) m = m) as (sm & sm' & l' & Hs & Hsm & -> & -> & Hz & Hid).
  { destruct cl; cbn in Hr; [..|done]; unfold renameInt, renameFloat, renameCC in Hr; apply bind_ok in Hr as ([[i x] l'] & Hs & Hr);
      apply bind_ok in Hr as ([] & _ & Hr); injection Hr as <- <- <-; eexists _, x, l'; (split; [exact Hs|]); (split; [done|]);
      apply rename_simple_inv in Hs as (_ & _ & [(_ & _ & ->)|(_ & _ & _ & -> & _)]); (split; [|split; [done|split; [done|]]]);
      by destruct m as [[??] [??] [??]]. }
  apply rename_simple_inv in Hs as (Ha & Hprev & Hcase). rewrite Hsm in Hprev, Ha. unfold vsize in Ha. destruct (Hm cl) as [Hlen Hphys]. rewrite Hlen in Ha.
  split; [done|]. split; [done|]. pose proof (Forall_lookup_1 _ _ _ _ Hphys Hprev) as Hp.
  rewrite Hz in Hcase. destruct Hcase as [(Hnz & Hfree & ->)|(Hnz & Hp0 & Hn0 & -> & ->)].
  - left. split; [done|]. unfold renames. cbn [map]. rewrite cfree_set, decide_True by done. rewrite Hfree, Hsm. cbn [tail]. split_and!; try done. intros Heq.
    assert (info.1 ∈ free_regs fl) as Hin1 by (rewrite (free_regs_tail cl fl _ _ Hfree); left).
    assert (info.1 ∈ mapped m) as Hin2.
    { rewrite Heq. apply list_elem_of_lookup_2 in Hprev. unfold mapped. destruct cl; cbn in Hprev; [set_solver..|done]. }
    apply NoDup_app in Hnd as (_ & Hd & _). by apply (Hd (info.1)).
  - right. split; [done|]. rewrite Hid. destruct (phys_index cl info.2 Hf Hp) as [Hb _]. rewrite Hp0 in Hb. rewrite Hn0, short_id, <- Hp0 by done.
    split_and!; try done. destruct cl, fl; done.
Qed.

Lemma thread_nodup r tid m hb : regs_ok r → r.2 !! tid = Some (m, hb) → NoDup (free_regs r.1 ++ mapped m).
Proof.
  intros [Hp _ _] Hl. destruct (concat_owned_insert _ tid _ (m, hb) Hl) as (rest & H1 & _). rewrite H1 in Hp. unfold owned in Hp. cbn [fst snd] in Hp.
  pose proof (NoDup_seqZ 0 (totalNumRegs f)) as Hnd. rewrite <- Hp in Hnd. rewrite !app_assoc in Hnd. by apply NoDup_app in Hnd as [Hnd%NoDup_app _]; apply Hnd.
Qed.

(** The register a destination names, as the map indexes it; none for the registers that are not
    renamed, which are the miscellaneous ones and the zero registers. *)
Definition dest_slot (tid : nat) (m : UnifiedRenameMap) (d : Z) : option (RegClass * Z) :=
  match regIdxToClass d with
  | Ok (cl, rel) =>
      if decide (cl = MiscRegClass) then None
      else if flatten tid cl rel =? czero cl m then None else Some (cl, flatten tid cl rel)
  | Fail _ => None
  end.

(** What one destination does to the registers. *)
Lemma rename_dest_inv tid d s info u s' :
  file_ok f → regs_ok (regs s) → rename_dest P tid d s = Ok (info, u, s') →
  ∃ t, threads s !! tid = Some t ∧
  ((dest_slot tid (renameMap t) d = None ∧ info.1 = info.2 ∧ s' = s) ∨
   ∃ cl rel m' fl', dest_slot tid (renameMap t) d = Some (cl, rel) ∧ cl ≠ MiscRegClass ∧ 0 ≤ rel < num_regs cl ∧ u = base cl + rel ∧ renames (renameMap t) (freeList s) cl rel info.1 info.2 m' fl' ∧
     s' = with_threads (<[tid := with_renameMap m' t]> (threads s)) (with_freeList fl' s)).
Proof.
  intros Hf Hok Hr. unfold rename_dest in Hr. apply bind_ok in Hr as (t & Ht & Hr). unfold get in Ht. apply deref_ok in Ht.
  exists t. split; [done|]. apply bind_ok in Hr as ([cl rel] & Hclass & Hr). unfold dest_slot. rewrite Hclass.
  pose proof (regs_lookup _ _ _ Ht) as Hl. pose proof (thread_nodup _ tid _ _ Hok Hl) as Hnd.
  pose proof Hok as [_ _ Hts]. rewrite Forall_lookup in Hts. destruct (Hts _ _ Hl) as [Hm _]. cbn [fst thread_regs] in *.
  assert (cl = MiscRegClass ∨ ∃ m' fl', rename_class cl (renameMap t) (freeList s) (flatten tid cl rel) = Ok (info, m', fl') ∧
    set_map tid m' fl' s = Ok s' ∧ u = match cl with IntRegClass => flatten tid cl rel | _ => RegIndex (flatten tid cl rel + base cl) end) as [->|(m' & fl' & Hrc & Hset & Hu)].
  { destruct cl; [right..|by left]; apply bind_ok in Hr as ([[i m'] fl'] & Hrc & Hr); apply bind_ok in Hr as (s1 & Hset & Hr);
      injection Hr as <- <- <-; by exists m', fl'. }
  { injection Hr as <- <- <-. by left. }
  destruct (rename_class_inv _ _ _ _ _ _ _ Hf Hm Hnd Hrc) as (Hcl & Hrel & Hcase). apply upd_inv in Hset as (t0 & Ht0 & ->). cbn [threads with_freeList] in Ht0.
  assert (t0 = t) as -> by congruence. rewrite decide_False by done. destruct Hcase as [[Hnz Hren]|(Hnz & Heq & -> & -> & _)].
  - right. exists cl, (flatten tid cl rel), m', fl'. rewrite (proj2 (Z.eqb_neq _ _) Hnz). split_and!; try done; try lia. rewrite Hu.
    pose proof int_regs. pose proof float_regs. pose proof cc_regs. pose proof misc_regs. pose proof reg_bits.
    destruct cl; cbn [num_regs base] in *; [lia|..|done]; unfold RegIndex; rewrite wrap_small by (unfold in_width; lia); lia.
  - left. rewrite (proj2 (Z.eqb_eq _ _) Hnz). split; [done|]. split; [done|]. cbn. rewrite list_insert_id by (by destruct t). by destruct s.
Qed.

Lemma undo_unchanged m h : newPhysReg h = prevPhysReg h → undo m h = m.
Proof. intros Heq. unfold undo, changed. by rewrite Heq, Z.eqb_refl. Qed.

Lemma push_unchanged fl l tid m hb h :
  regs_ok (fl, l) → l !! tid = Some (m, hb) → newPhysReg h = prevPhysReg h → regs_ok (fl, <[tid := (m, h :: hb)]> l).
Proof.
  intros Hok Hl Heq. pose proof Hok as [_ Hf Ht]. rewrite Forall_lookup in Ht. destruct (Ht _ _ Hl) as [Hm Hh]. cbn [fst snd] in *.
  assert (changed h = false) as Hch by (unfold changed; by rewrite Heq, Z.eqb_refl).
  apply (regs_ok_update fl l tid (m, hb)); try done.
  - unfold owned. cbn [fst snd prevs]. by rewrite Hch.
  - cbn [fst snd hist_ok]. split; [by rewrite Hch|]. by rewrite undo_unchanged.
Qed.

(** The registers of a thread after renames for instructions of [Q]. *)
Definition extends (Q : Z → Prop) (x x' : ThreadRegs) : Prop :=
  ∃ young, x'.2 = young ++ x.2 ∧ Forall (λ h, Q (instSeqNum h)) young ∧ foldl undo x'.1 young = x.1.

(** The parts of an instruction that renaming does not change. *)
Definition fixed (i i' : DynInst) : Prop :=
  staticInst i' = staticInst i ∧ seqNum i' = seqNum i ∧ threadNumber i' = threadNumber i ∧ isSquashed i' = isSquashed i.

Lemma flattenDestReg_fixed idx x i i' : flattenDestReg idx x i = Ok i' → fixed i i'.
Proof. unfold flattenDestReg. intros (l & _ & [= <-])%bind_ok. done. Qed.

Lemma renameDestReg_fixed idx x y i i' : renameDestReg idx x y i = Ok i' → fixed i i'.
Proof. unfold renameDestReg. intros (d & _ & (q & _ & [= <-])%bind_ok)%bind_ok. done. Qed.

(** One destination, with its history entry. *)
Lemma rename_one_inv tid d s info u s1 sn sb s2 :
  file_ok f → regs_ok (regs s) → rename_dest P tid d s = Ok (info, u, s1) →
  upd tid (λ t, with_historyBuffer (mkHistory sn u info.1 info.2 :: historyBuffer t) t) (with_scoreboard sb s1) = Ok s2 →
  ∃ x x', (regs s).2 !! tid = Some x ∧ (regs s2).2 = <[tid := x']> (regs s).2 ∧ regs_ok (regs s2) ∧ heap s2 = heap s ∧
    x'.2 = mkHistory sn u info.1 info.2 :: x.2 ∧ undo x'.1 (mkHistory sn u info.1 info.2) = x.1 ∧
    (∀ cl, czero cl x'.1 = czero cl x.1) ∧
    match dest_slot tid x.1 d with
    | Some (cl, rel) => info.1 ≠ info.2 ∧ regIdxToClass u = Ok (cl, rel)
    | None => info.1 = info.2
    end.
Proof.
  intros Hf Hok Hr Hu. destruct (rename_dest_inv _ _ _ _ _ _ Hf Hok Hr) as (t & Ht & Hcase). apply upd_inv in Hu as (t1 & Ht1 & ->).
  exists (thread_regs t), (renameMap t1, mkHistory sn u info.1 info.2 :: historyBuffer t). pose proof (regs_lookup _ _ _ Ht) as Hl. split; [done|].
  destruct Hcase as [(Hsl & Heq & ->)|(cl & rel & m' & fl' & Hsl & Hcl & Hrel & -> & Hren & ->)]; cbn [fst thread_regs]; rewrite Hsl.
  - cbn [threads with_scoreboard] in Ht1. assert (t1 = t) as -> by congruence. rewrite regs_with_thread. cbn [fst snd].
    split; [done|]. split; [|split_and!; try done; by apply undo_unchanged].
    apply (push_unchanged (freeList s) (regs s).2 tid (renameMap t) (historyBuffer t)); done.
  - cbn [threads with_scoreboard with_threads with_freeList] in Ht1. rewrite list_lookup_insert_eq in Ht1 by (by apply lookup_lt_Some in Ht). injection Ht1 as <-.
    assert (∀ h, regs (with_threads (<[tid := with_historyBuffer (h :: historyBuffer t) (with_renameMap m' t)]> (<[tid := with_renameMap m' t]> (threads s)))
      (with_scoreboard sb (with_threads (<[tid := with_renameMap m' t]> (threads s)) (with_freeList fl' s)))) = (fl', <[tid := (m', h :: historyBuffer t)]> (regs s).2)) as Hregs.
    { intros h. unfold regs. cbn. rewrite list_insert_insert_eq, list_fmap_insert. done. }
    cbn [threads with_scoreboard with_threads historyBuffer with_renameMap]. rewrite Hregs. cbn [fst snd].
    split; [done|]. split; [by apply (renames_ok (renameMap t) (historyBuffer t) (freeList s) cl rel)|]. destruct Hren as (Hne & Hprev & Hfree & _ & ->). split_and!; try done.
    + cbn [fst renameMap with_historyBuffer with_renameMap]. unfold undo, changed. cbn [newPhysReg prevPhysReg archReg].
      rewrite (proj2 (Z.eqb_neq _ _) Hne). cbn [negb]. destruct (slot_base cl rel Hcl Hrel) as [-> _]. by rewrite set_entry_id.
    + intros cl'. by destruct cl, cl'.
    + by apply slot_base.
Qed.

Lemma renameDestRegs_from_spec p tid idx dests s s' i :
  file_ok f → regs_ok (regs s) → heap s !! p = Some i → renameDestRegs_from P p tid idx dests s = Ok s' → is_Some (threads s !! tid) →
  regs_ok (regs s') ∧ (∃ i', heap s' !! p = Some i' ∧ fixed i i') ∧
  ∃ x x', (regs s).2 !! tid = Some x ∧ (regs s').2 = <[tid := x']> (regs s).2 ∧ extends (eq (seqNum i)) x x'.
Proof.
  intros Hf. revert idx s s' i. induction dests as [|d dests IH]; intros idx s s' i Hok Hi Hr [t Ht]; cbn [renameDestRegs_from] in Hr.
  { injection Hr as <-. split; [done|]. split; [by exists i|]. exists (thread_regs t), (thread_regs t). rewrite (list_insert_id _ _ _ (regs_lookup _ _ _ Ht)).
    split_and!; [by apply regs_lookup|done|by exists []]. }
  apply bind_ok in Hr as ([[info u] s1] & Hd & Hr). apply bind_ok in Hr as (i1 & Hi1 & Hr). apply bind_ok in Hr as (i2 & Hi2 & Hr).
  apply bind_ok in Hr as (sb & _ & Hr). apply bind_ok in Hr as (s2 & Hu & Hr). apply bind_ok in Hr as (i3 & Hi3 & Hr).
  destruct (rename_one_inv _ _ _ _ _ _ _ _ _ Hf Hok Hd Hu) as (x & x1 & Hx & Hx1 & Hok1 & Hheap & Hh & Hun & _).
  assert (i1 = i) as ->.
  { destruct (rename_dest_inv _ _ _ _ _ _ Hf Hok Hd) as (t0 & _ & [(_ & _ & ->)|(?&?&?&?&_&_&_&_&_& ->)]); unfold inst in Hi1; cbn in Hi1; rewrite Hi in Hi1; by injection Hi1. }
  apply flattenDestReg_fixed in Hi2. apply renameDestReg_fixed in Hi3. assert (fixed i i3) as Hfix by (unfold fixed in *; intuition congruence).
  set (s3 := incr renameRenamedOperands (set_inst p i3 s2)) in *.
  destruct (IH (idx + 1) s3 s' i3 Hok1) as (Hok' & (i' & Hi' & Hfix') & (y & x' & Hy & Hx' & Hext)); [by cbn; rewrite lookup_insert_eq|done| |].
  { change (threads s3) with (threads s2). apply upd_inv in Hu as (t1 & Ht1 & ->). cbn in *. rewrite list_lookup_insert_eq by (by apply lookup_lt_Some in Ht1). by eexists. }
  split; [done|]. split; [exists i'; split; [done|unfold fixed in *; intuition congruence]|].
  change (regs s3) with (regs s2) in Hy, Hx'. rewrite Hx1 in Hy, Hx'. rewrite list_lookup_insert_eq in Hy by (by apply lookup_lt_Some in Hx). injection Hy as <-.
  rewrite list_insert_insert_eq in Hx'. exists x, x'. split_and!; try done.
  destruct Hext as (young & Hy & Hsn & Hund). assert (seqNum i2 = seqNum i) as Hsn2 by (unfold fixed in *; intuition congruence).
  exists (young ++ [mkHistory (seqNum i2) u info.1 info.2]). rewrite Hy, Hh, <- app_assoc. split; [done|]. rewrite foldl_snoc, Hund. split; [|done].
  apply Forall_app. split; [|by apply Forall_singleton]. assert (seqNum i3 = seqNum i) as <- by (unfold fixed in *; intuition congruence). done.
Qed.

(** ** Operations that leave the registers alone *)

Definition keeps (s s' : Stage) : Prop := regs s' = regs s.

Lemma keeps_trans s1 s2 s3 : keeps s1 s2 → keeps s2 s3 → keeps s1 s3.
Proof. unfold keeps. congruence. Qed.

Lemma upd_regs tid g s s' : upd tid g s = Ok s' → (∀ t, thread_regs (g t) = thread_regs t) → keeps s s'.
Proof.
  intros (t & Ht & ->)%upd_inv Hg. unfold keeps. by rewrite regs_with_thread, Hg, (list_insert_id _ _ _ (regs_lookup _ _ _ Ht)).
Qed.

Lemma upd_inst_regs p g s s' : upd_inst p g s = Ok s' → keeps s s'.
Proof. unfold upd_inst. intros (i & _ & [= <-])%bind_ok. done. Qed.

End proofs.

(** Split a run that succeeded into its steps. *)
Ltac steps H :=
  repeat match type of H with
  | (_ ≫= _) = Ok _ => let x := fresh "x" in let Hx := fresh "Hx" in apply bind_ok in H as (x & Hx & H); steps Hx
  | (let '(_, _) := ?x in _) = Ok _ => destruct x eqn:?
  | (if ?b then _ else _) = Ok _ => destruct b eqn:?
  | match ?x with _ => _ end = Ok _ => destruct x eqn:?
  | Ok _ = Ok _ => injection H; clear H; intros; subst
  | Fail _ = Ok _ => discriminate H
  end.

(** Follow the registers back through the steps of a run, with the lemmas of the database. *)
Create HintDb regs.

Ltac fields :=
  repeat match goal with
  | |- keeps ?a (?h ?x ?s) => lazymatch type of s with Stage => change (keeps a (h x s)) with (keeps a s) end
  | |- keeps ?a (?h ?x ?y ?s) => lazymatch type of s with Stage => change (keeps a (h x y s)) with (keeps a s) end
  end.

#[local] Hint Extern 1 (keeps _ _) => (eapply upd_regs; [eassumption|]; intros ?; unfold with_queue; cbv beta; by repeat case_match) : regs.
#[local] Hint Resolve upd_inst_regs : regs.

Ltac back := repeat (fields; first [reflexivity | eapply keeps_trans; [|solve [eauto 3 with regs]]]).

Section frame.
Context `{I : ISA} `{L : !ISALaws} {Fl : Flatten} (P : Params) (w : Wires).

Lemma readStallSignals_regs tid s s' : readStallSignals w tid s = Ok s' → keeps s s'.
Proof. unfold readStallSignals. intros Hr. steps Hr; back. Qed.

Lemma readFreeEntries_regs tid s s' : readFreeEntries w tid s = Ok s' → keeps s s'.
Proof. unfold readFreeEntries. intros Hr. eapply upd_regs; [done|]. intros t. unfold thread_regs. by destruct (usedIQ _), (usedLSQ _), (usedROB _). Qed.

Lemma squash_stall_regs sn tid s s' : squash_stall sn tid s = Ok s' → keeps s s'.
Proof. unfold squash_stall. intros Hr. steps Hr; back. Qed.

Lemma squash_decode_regs sn tid l s s' : squash_decode sn tid l s = Ok s' → keeps s s'.
Proof.
  revert s. induction l as [|p l IH]; intros s Hr; cbn in Hr; steps Hr; [done|..]; (eapply keeps_trans; [|by apply IH]); back.
Qed.

Lemma sort_insts_regs l s s' : sort_insts l s = Ok s' → keeps s s'.
Proof. revert s. induction l as [|p l IH]; intros s Hr; cbn in Hr; steps Hr; [done|..]; (eapply keeps_trans; [|by apply IH]); back. Qed.

Lemma skid_loop_regs tid l s s' : skid_loop tid l s = Ok s' → keeps s s'.
Proof. revert s. induction l as [|p l IH]; intros s Hr; cbn in Hr; steps Hr; [done|..]; (eapply keeps_trans; [|by apply IH]); back. Qed.
#[local] Hint Resolve readStallSignals_regs readFreeEntries_regs squash_stall_regs squash_decode_regs sort_insts_regs skid_loop_regs : regs.

Lemma skidInsert_regs tid s s' : skidInsert P tid s = Ok s' → keeps s s'.
Proof. unfold skidInsert. intros Hr. steps Hr; back. Qed.
#[local] Hint Resolve skidInsert_regs : regs.

Lemma block_regs tid s b s' : block P tid s = Ok (b, s') → keeps s s'.
Proof. unfold block. intros Hr. steps Hr; back; destruct (_ || _); back. Qed.

Lemma unblock_regs tid s b s' : unblock tid s = Ok (b, s') → keeps s s'.
Proof. unfold unblock. intros Hr. steps Hr; back. Qed.

Lemma serializeAfter_regs l tid s s' : serializeAfter l tid s = Ok s' → keeps s s'.
Proof. unfold serializeAfter. intros Hr. steps Hr; back. Qed.

Lemma incrFullStat_regs src s s' : incrFullStat src s = Ok s' → keeps s s'.
Proof. unfold incrFullStat. intros Hr. steps Hr; back. Qed.
#[local] Hint Resolve block_regs unblock_regs serializeAfter_regs incrFullStat_regs : regs.

Lemma serialize_next_regs u tid s s' : serialize_next u tid s = Ok s' → keeps s s'.
Proof. unfold serialize_next. intros Hr. steps Hr; back. Qed.

Lemma finish_rename_regs tid n k s s' : finish_rename P tid n k s = Ok s' → keeps s s'.
Proof.
  unfold finish_rename. intros Hr. steps Hr; repeat (back; try match goal with |- context [if ?b then _ else _] => destruct b end).
Qed.

Lemma end_serialize_regs tid s s' : end_serialize tid s = Ok s' → keeps s s'.
Proof. unfold end_serialize. intros Hr. steps Hr; back. Qed.

Lemma updateStatus_regs s s' : updateStatus w s = Ok s' → keeps s s'.
Proof. unfold updateStatus. intros Hr. steps Hr. by destruct x, (_status s). Qed.

Lemma tick_progress_regs l s s' : tick_progress w l s = Ok s' → keeps s s'.
Proof. revert s. induction l as [|p l IH]; intros s Hr; cbn in Hr; steps Hr; [done|]. eapply keeps_trans; [|by apply IH]. back. Qed.

#[local] Hint Resolve serialize_next_regs finish_rename_regs end_serialize_regs updateStatus_regs tick_progress_regs : regs.

(** ** Sources *)

Lemma lookup_src_keeps tid u s r s' : lookup_src P tid u s = Ok (r, s') → keeps s s' ∧ heap s' = heap s ∧ threads s' = threads s.
Proof. unfold lookup_src. intros Hr. steps Hr; done. Qed.

Lemma renameSrcReg_fixed idx x i i' : renameSrcReg idx x i = Ok i' → fixed i i'.
Proof. unfold renameSrcReg. intros (l & _ & [= <-])%bind_ok. done. Qed.

Lemma markSrcRegReadyIdx_fixed idx i i' : markSrcRegReadyIdx idx i = Ok i' → fixed i i'.
Proof. unfold markSrcRegReadyIdx, markSrcRegReady. intros (l & _ & [= <-])%bind_ok. by case_match. Qed.

Lemma fixed_trans i j k : fixed i j → fixed j k → fixed i k.
Proof. unfold fixed. intuition congruence. Qed.

Lemma renameSrcRegs_from_keeps p tid idx srcs s s' i :
  heap s !! p = Some i → renameSrcRegs_from P p tid idx srcs s = Ok s' →
  keeps s s' ∧ threads s' = threads s ∧ ∃ i', heap s' !! p = Some i' ∧ fixed i i'.
Proof.
  revert idx s i. induction srcs as [|u srcs IH]; intros idx s i Hi Hr; cbn [renameSrcRegs_from] in Hr.
  { injection Hr as <-. split; [done|]. split; [done|]. by exists i. }
  apply bind_ok in Hr as ([r s1] & Hl & Hr). apply lookup_src_keeps in Hl as (Hk & Hh & Hth).
  apply bind_ok in Hr as (i1 & Hi1 & Hr). unfold inst in Hi1. rewrite Hh, Hi in Hi1. injection Hi1 as <-.
  apply bind_ok in Hr as (i2 & Hi2%renameSrcReg_fixed & Hr). apply bind_ok in Hr as (ready & _ & Hr). apply bind_ok in Hr as (i3 & Hi3 & Hr).
  assert (fixed i i3) as Hf3 by (destruct ready; [eapply fixed_trans; [done|by eapply markSrcRegReadyIdx_fixed]|by injection Hi3 as <-]).
  apply (IH _ _ i3) in Hr as (Hk' & Hth' & i' & Hi' & Hf'); [|by cbn; rewrite lookup_insert_eq].
  split; [by eapply keeps_trans|]. split; [by rewrite Hth'|]. exists i'. split; [done|]. by eapply fixed_trans.
Qed.

(** ** One instruction *)

Hypothesis file : file_ok (regFile P).

(** The registers of the thread of instruction [p], extended with its renames. *)
Definition renamed (i : DynInst) (s s' : Stage) : Prop :=
  is_Some (threads s !! threadNumber i) →
  ∃ x x', (regs s).2 !! threadNumber i = Some x ∧ (regs s').2 = <[threadNumber i := x']> (regs s).2 ∧ extends (eq (seqNum i)) x x'.

Lemma renameDestRegs_spec p s s' i :
  regs_ok P (regs s) → heap s !! p = Some i → renameDestRegs P p (threadNumber i) s = Ok s' → regs_ok P (regs s') ∧ renamed i s s'.
Proof.
  intros Hok Hi Hr. unfold renameDestRegs in Hr. apply bind_ok in Hr as (i0 & Hi0 & Hr). unfold inst in Hi0. rewrite Hi in Hi0. injection Hi0 as <-.
  unfold renamed. destruct (threads s !! threadNumber i) as [t|] eqn:Ht.
  - edestruct renameDestRegs_from_spec as (? & _ & ?); [done|done|exact Hi|exact Hr|by exists t|done].
  - split; [|by intros []]. destruct (destRegIdx (staticInst i)); cbn [renameDestRegs_from] in Hr; [by injection Hr as <-|].
    unfold rename_dest, get in Hr. by rewrite Ht in Hr.
Qed.

Lemma rename_inst_spec tid p s s' i :
  regs_ok P (regs s) → heap s !! p = Some i → rename_inst P tid p s = Ok s' → regs_ok P (regs s') ∧ renamed i s s'.
Proof.
  intros Hok Hi Hr. unfold rename_inst in Hr. apply bind_ok in Hr as (i0 & Hi0 & Hr). unfold inst in Hi0. rewrite Hi in Hi0. injection Hi0 as <-.
  apply bind_ok in Hr as (s1 & H1 & Hr). apply bind_ok in Hr as (s2 & H2 & Hr). apply bind_ok in Hr as (s3 & H3 & Hr). apply bind_ok in Hr as (s4 & H4 & Hr).
  injection Hr as <-. assert (keeps s2 s4) as Hk24.
  { eapply keeps_trans; [destruct (isLoad _); [by eapply upd_regs|by injection H3 as <-]|]. destruct (isStore _); [by eapply upd_regs|by injection H4 as <-]. }
  unfold renameSrcRegs in H1. apply bind_ok in H1 as (i0 & Hi0 & H1). unfold inst in Hi0. rewrite Hi in Hi0. injection Hi0 as <-.
  apply (renameSrcRegs_from_keeps _ _ _ _ _ _ i Hi) in H1 as (Hk1 & Hth1 & i1 & Hi1 & (_ & Hsn & Htn & _)).
  rewrite <- Htn in H2. unfold keeps in *. rewrite <- Hk1 in Hok. apply (renameDestRegs_spec _ _ _ _ Hok Hi1) in H2 as [Hok' Hren].
  rewrite <- Hk24 in Hok'. split; [exact Hok'|]. unfold renamed in *. rewrite Hth1, Hk1, Hsn, Htn, <- Hk24 in Hren. exact Hren.
Qed.

(** ** The whole cycle *)

Definition safe (s s' : Stage) : Prop := regs_ok P (regs s) → regs_ok P (regs s').

Lemma keeps_safe s s' : keeps s s' → safe s s'.
Proof. unfold keeps, safe. by intros ->. Qed.

Lemma safe_trans s1 s2 s3 : safe s1 s2 → safe s2 s3 → safe s1 s3.
Proof. unfold safe. auto. Qed.

Lemma rename_inst_safe tid p s s' : rename_inst P tid p s = Ok s' → safe s s'.
Proof.
  intros Hr Hok. pose proof Hr as Hr'. unfold rename_inst in Hr'. apply bind_ok in Hr' as (i & Hi%deref_ok & _). by eapply rename_inst_spec.
Qed.

Lemma doSquash_safe sn tid s s' : doSquash P sn tid s = Ok s' → safe s s'.
Proof.
  intros Hr Hok. destruct (threads s !! tid) as [t|] eqn:Ht; [|unfold doSquash, get in Hr; by rewrite Ht in Hr].
  destruct (doSquash_spec P sn tid s t file Hok Ht) as (s1 & t1 & Hr' & _ & _ & Hok' & _). congruence.
Qed.

Lemma removeFromHistory_safe sn tid s s' : removeFromHistory P sn tid s = Ok s' → safe s s'.
Proof.
  intros Hr Hok. destruct (threads s !! tid) as [t|] eqn:Ht; [|unfold removeFromHistory, get in Hr; by rewrite Ht in Hr].
  destruct (removeFromHistory_spec P sn tid s t file Hok Ht) as (s1 & t1 & Hr' & _ & _ & Hok' & _). congruence.
Qed.
#[local] Hint Resolve rename_inst_safe doSquash_safe removeFromHistory_safe : regs.

Ltac safe_fields :=
  repeat match goal with
  | |- safe ?a (?h ?x ?s) => lazymatch type of s with Stage => change (safe a (h x s)) with (safe a s) end
  | |- safe ?a (?h ?x ?y ?s) => lazymatch type of s with Stage => change (safe a (h x y s)) with (safe a s) end
  end.
Ltac safe_back :=
  repeat (safe_fields; first [by intros ? | eapply safe_trans; [|first [solve [eauto 3 with regs] | apply keeps_safe; solve [eauto 3 with regs]]]
    | progress match goal with |- safe _ (if ?b then _ else _) => destruct b end]).

Lemma squash_safe sn tid s s' : squash P w sn tid s = Ok s' → safe s s'.
Proof. unfold squash. intros Hr. steps Hr; safe_back. Qed.
#[local] Hint Resolve squash_safe : regs.

Lemma rename_loop_safe u tid n k s n' k' s' : rename_loop P w u tid n k s = Ok (n', k', s') → safe s s'.
Proof.
  revert k s. induction n as [|n IH]; intros k s Hr; cbn [rename_loop] in Hr; steps Hr;
    try (eapply safe_trans; [|by eapply IH]); safe_back.
Qed.
#[local] Hint Resolve rename_loop_safe : regs.

Lemma renameInsts_safe tid s s' : renameInsts P w tid s = Ok s' → safe s s'.
Proof.
  unfold renameInsts. intros Hr. steps Hr; safe_back.
Qed.
#[local] Hint Resolve renameInsts_safe : regs.

Lemma rename_thread_safe b tid s b' s' : rename_thread P w b tid s = Ok (b', s') → safe s s'.
Proof. unfold rename_thread. intros Hr. steps Hr; safe_back. Qed.

Lemma checkSignalsAndUpdate_safe tid s b s' : checkSignalsAndUpdate P w tid s = Ok (b, s') → safe s s'.
Proof. unfold checkSignalsAndUpdate. intros Hr. steps Hr; safe_back. Qed.
#[local] Hint Resolve rename_thread_safe checkSignalsAndUpdate_safe : regs.

Lemma tick_threads_safe l b s b' s' : tick_threads P w l b s = Ok (b', s') → safe s s'.
Proof. revert b s. induction l as [|tid l IH]; intros b s Hr; cbn [tick_threads] in Hr; steps Hr; [by intros ?|]. eapply safe_trans; [|by eapply IH]. safe_back. Qed.

Lemma tick_commit_safe l s s' : tick_commit P w l s = Ok s' → safe s s'.
Proof. revert s. induction l as [|tid l IH]; intros s Hr; cbn [tick_commit] in Hr; steps Hr; [by intros ?|..]; (eapply safe_trans; [|by eapply IH]); safe_back. Qed.
#[local] Hint Resolve tick_threads_safe tick_commit_safe : regs.

Lemma tick_safe s s' : tick P w s = Ok s' → safe s s'.
Proof. unfold tick, sortInsts. intros Hr. steps Hr; safe_back. Qed.

End frame.
End O3RenameProofs.
