(* ===== verification/O3RenameSpec.v ===== *)
(** * What register renaming promises

    Against the invariant of O3RenameProofs: a new CPU satisfies it and every cycle keeps it, so
    that until a context is halted each physical register is in exactly one place; a squash takes back exactly
    the renames of younger instructions; and renaming implements, for each thread, a committed
    assignment of registers with a list of in-flight writes, where a source reads the register
    of the last write. *)

From Stdlib Require Import Sorted.
From S2P Require Import Prelude O3Regs O3Rename O3RenameProofs.

Open Scope Z_scope.

Module O3RenameSpec.
Import O3Regs RenameMap CpuMaps O3Rename O3RenameProofs.

(** ** A new CPU *)

Section init.
Context `{I : ISA} `{L : !ISALaws} (P : Params).

Abbreviation f := (regFile P).

Definition add_class (cl : RegClass) (r : Z) (fl : UnifiedFreeList) : UnifiedFreeList := set_cfree cl (cfree cl fl ++ [r]) fl.

Lemma set_cfree_twice cl a b fl : set_cfree cl a (set_cfree cl b fl) = set_cfree cl a fl.
Proof. by destruct cl. Qed.

Lemma add_until_spec add cl n i e fl :
  cl ≠ MiscRegClass → (∀ r fl, add r fl = add_class cl r fl) → 0 ≤ i ≤ e → e < 2 ^ 15 → e - i ≤ Z.of_nat n →
  add_until add n i e fl = (e, set_cfree cl (cfree cl fl ++ seqZ i (e - i)) fl).
Proof.
  intros Hcl Hadd. revert i fl. induction n as [|n IH]; intros i fl Hi He Hn; cbn [add_until].
  { assert (i = e) as -> by lia. rewrite Z.sub_diag. cbn. rewrite app_nil_r. by destruct cl, fl. }
  assert (u32 i = i) as -> by (apply wrap_small; unfold in_width; lia). destruct (Z.ltb_spec i e) as [Hlt|Hge].
  - rewrite short_id by lia. rewrite IH by lia. rewrite Hadd. unfold add_class. rewrite set_cfree_twice, cfree_set, decide_True by done.
    rewrite (seqZ_cons i) by lia. rewrite <- app_assoc. cbn. do 4 f_equal. f_equal; lia.
  - assert (i = e) as -> by lia. rewrite Z.sub_diag. cbn. rewrite app_nil_r. by destruct cl, fl.
Qed.

Lemma newUnifiedFreeList_spec : file_ok f → totalNumRegs f < 2 ^ 15 →
  newUnifiedFreeList f = mkFreeList (seqZ 0 (baseFloatRegIndex f)) (seqZ (baseFloatRegIndex f) (baseCCRegIndex f - baseFloatRegIndex f))
    (seqZ (baseCCRegIndex f) (totalNumRegs f - baseCCRegIndex f)).
Proof.
  intros [? ? ?] Ht. unfold newUnifiedFreeList, initFreeList. rewrite (add_until_spec _ IntRegClass) by (done || lia).
  rewrite (add_until_spec _ FloatRegClass) by (done || lia). rewrite (add_until_spec _ CCRegClass) by (done || lia). cbn. by rewrite Z.sub_0_r.
Qed.

(** Taking the registers of a class in order. *)
Lemma init_class_spec cl get set n k m cm fl l1 l2 :
  cl ≠ MiscRegClass → file_ok f →
  (∀ fl r l, cfree cl fl = r :: l → get fl = Ok (r, set_cfree cl l fl)) →
  (∀ m i r, phys_ok f cl r → 0 ≤ i < vsize (cmap cl m) → set m i r = Ok (set_entry m cl i r)) →
  cfree cl fl = l1 ++ l2 → length l1 = n → Forall (phys_ok f cl) l1 →
  Z.of_nat (length (cmap cl m)) = Z.of_nat k + Z.of_nat n → cm = m →
  init_class get set n (Z.of_nat k) m cm fl =
    Ok (set_cmap cl (take k (cmap cl m) ++ l1) m, set_cmap cl (take k (cmap cl m) ++ l1) m, set_cfree cl l2 fl).
Proof.
  intros Hcl Hf Hget Hset. revert k m cm fl l1. induction n as [|n IH]; intros k m cm fl l1 Hfree Hl1 Hphys Hlen ->; cbn [init_class].
  { destruct l1; [|done]. rewrite app_nil_r, take_ge by lia. cbn in Hfree. rewrite <- Hfree.
    assert (set_cmap cl (cmap cl m) m = m) as -> by (by destruct m as [[??] [??] [??]], cl). by destruct fl, cl. }
  destruct l1 as [|r l1]; [done|]. cbn in Hfree, Hl1. apply Forall_cons in Hphys as [Hr Hphys].
  rewrite (Hget _ _ _ Hfree). cbn [mbind res_bind]. rewrite !Hset by (done || unfold vsize; lia). cbn [mbind res_bind].
  replace (Z.of_nat k + 1) with (Z.of_nat (S k)) by lia. rewrite (IH (S k) _ _ _ l1); try done.
  - rewrite set_cfree_twice. assert (take (S k) (cmap cl (set_entry m cl (Z.of_nat k) r)) = take k (cmap cl m) ++ [r]) as Htk.
    { rewrite cmap_set_entry, decide_True, Nat2Z.id by done. rewrite (take_S_r _ _ r) by (apply list_lookup_insert_eq; lia). by rewrite take_insert_ge. }
    rewrite Htk, <- app_assoc. cbn [app]. by destruct m as [[??] [??] [??]], cl.
  - by rewrite cfree_set, decide_True by done.
  - lia.
  - rewrite cmap_set_entry, decide_True, length_insert by done. lia.
Qed.

(** The free lists hold enough registers, of the right classes. *)
Definition enough (n : Z) (fl : UnifiedFreeList) : Prop :=
  ∀ cl, n * num_regs cl ≤ Z.of_nat (length (cfree cl fl)) ∧ Forall (phys_ok f cl) (cfree cl fl).

Lemma split_free n fl cl : 0 ≤ n → enough (n + 1) fl →
  ∃ l1 l2, cfree cl fl = l1 ++ l2 ∧ length l1 = Z.to_nat (num_regs cl) ∧ Forall (phys_ok f cl) l1 ∧ Forall (phys_ok f cl) l2 ∧
    n * num_regs cl ≤ Z.of_nat (length l2) ∧ 0 ≤ num_regs cl.
Proof.
  intros Hn He. destruct (He cl) as [Hl Hf]. assert (0 ≤ num_regs cl) as Hnr.
  { pose proof int_regs. pose proof float_regs. pose proof cc_regs. destruct cl; cbn; lia. }
  exists (take (Z.to_nat (num_regs cl)) (cfree cl fl)), (drop (Z.to_nat (num_regs cl)) (cfree cl fl)).
  rewrite take_drop, length_take, length_drop. split_and!; [done|nia|by apply Forall_take|by apply Forall_drop|nia|done].
Qed.

Lemma cfree_set_ne cl cl' l fl : cl' ≠ cl → cfree cl' (set_cfree cl l fl) = cfree cl' fl.
Proof. by destruct cl, cl'. Qed.

Lemma init_thread_spec n fl : file_ok f → 0 ≤ n → enough (n + 1) fl →
  ∃ m fl', init_thread f fl = Ok (m, m, fl') ∧ map_ok P m ∧ enough n fl' ∧ free_regs fl ≡ₚ free_regs fl' ++ mapped m.
Proof.
  intros Hf Hn He. unfold init_thread. set (m0 := init ZeroReg fpZeroReg).
  destruct (split_free n fl IntRegClass Hn He) as (li & ri & Hi & Hli & Hpi & Hqi & Hni & Hi0).
  destruct (split_free n fl FloatRegClass Hn He) as (lf & rf & Hfl & Hlf & Hpf & Hqf & Hnf & Hf0).
  destruct (split_free n fl CCRegClass Hn He) as (lc & rc & Hc & Hlc & Hpc & Hqc & Hnc & Hc0).
  cbn [num_regs] in *. pose proof (λ cl r, class_test P cl r Hf) as Hclass.
  assert (length (cmap IntRegClass m0) = Z.to_nat NumIntRegs ∧ length (cmap FloatRegClass m0) = Z.to_nat NumFloatRegs ∧
    length (cmap CCRegClass m0) = Z.to_nat NumCCRegs) as (H1 & H2 & H3) by (cbn; by rewrite !length_replicate).
  change 0 with (Z.of_nat 0) at 1 2 3.
  rewrite (init_class_spec IntRegClass _ _ _ 0 m0 m0 fl li ri); try done; [|..]; try lia.
  2: { intros fl0 r l Hl. unfold getIntReg, getSimple. cbn in Hl. by rewrite Hl. }
  2: { intros m i r Hr Hb. unfold setIntEntry, setEntry_simple. destruct (Hclass _ _ Hr) as (-> & _). cbn in Hb. by rewrite bind_assert, vwrite_ok. }
  cbn [mbind res_bind take app]. set (m1 := set_cmap IntRegClass li m0).
  rewrite (init_class_spec FloatRegClass _ _ _ 0 m1 m1 _ lf rf); try done; [|..]; try (cbn in *; lia).
  2: { intros fl0 r l Hl. unfold getFloatReg, getSimple. cbn in Hl. by rewrite Hl. }
  2: { intros m i r Hr Hb. unfold setFloatEntry, setEntry_simple. destruct (Hclass _ _ Hr) as (_ & -> & _). cbn in Hb. by rewrite bind_assert, vwrite_ok. }
  cbn [mbind res_bind take app]. set (m2 := set_cmap FloatRegClass lf m1).
  rewrite (init_class_spec CCRegClass _ _ _ 0 m2 m2 _ lc rc); try done; [|..]; try (cbn in *; lia).
  2: { intros fl0 r l Hl. unfold getCCReg, getSimple. cbn in Hl. by rewrite Hl. }
  2: { intros m i r Hr Hb. unfold setCCEntry, setEntry_simple. destruct (Hclass _ _ Hr) as (_ & _ & ->). cbn in Hb. by rewrite bind_assert, vwrite_ok. }
  cbn [take app]. eexists _, _. split; [done|]. split; [|split].
  - intros []; cbn; rewrite ?take_0; cbn; split; try done; lia.
  - intros []; cbn; split; try done; lia.
  - unfold free_regs, mapped. cbn in *. rewrite Hi, Hfl, Hc. solve_Permutation.
Qed.

Lemma init_threads_spec n fl : file_ok f → enough (Z.of_nat n) fl →
  ∃ maps fl', init_threads f n fl = Ok (maps, fl') ∧ length maps = n ∧ Forall (λ x, x.2 = x.1 ∧ map_ok P x.1) maps ∧
    (∀ cl, Forall (phys_ok f cl) (cfree cl fl')) ∧ free_regs fl ≡ₚ free_regs fl' ++ concat (mapped ∘ fst <$> maps).
Proof.
  intros Hf. revert fl. induction n as [|n IH]; intros fl He; cbn [init_threads].
  { exists [], fl. split_and!; try done; [intros cl; apply He|]. cbn. by rewrite app_nil_r. }
  destruct (init_thread_spec (Z.of_nat n) fl Hf) as (m & fl1 & -> & Hm & He1 & Hp1); [lia|by replace (Z.of_nat n + 1) with (Z.of_nat (S n)) by lia|].
  cbn [mbind res_bind]. destruct (IH fl1 He1) as (maps & fl' & -> & Hlen & Hmaps & Hfree & Hp). cbn [mbind res_bind].
  exists ((m, m) :: maps), fl'. split_and!; try done; [by rewrite <- Hlen|by constructor|]. rewrite Hp1, Hp. cbn. solve_Permutation.
Qed.

(** The registers of a new CPU with all its threads active. *)
Lemma init_maps_spec n : file_ok f → totalNumRegs f < 2 ^ 15 →
  Z.of_nat n * NumIntRegs ≤ numIntPhysRegs f → Z.of_nat n * NumFloatRegs ≤ numFloatPhysRegs f → Z.of_nat n * NumCCRegs ≤ numCCPhysRegs f →
  ∃ maps fl, init_maps f n n = Ok (maps, fl) ∧ length maps = n ∧ Forall (λ x, x.2 = x.1) maps ∧ regs_ok P (fl, (λ x, (x.1, [])) <$> maps).
Proof.
  intros Hf Ht Hi Hfl Hc. unfold init_maps. rewrite !bind_assert by (by apply Z.leb_le). rewrite newUnifiedFreeList_spec by done.
  pose proof Hf as [? ? ?]. unfold numIntPhysRegs, numFloatPhysRegs, numCCPhysRegs in *.
  assert (∀ x, 0 ≤ x < 2 ^ 15 → u32 x = x) as Hu by (intros; apply wrap_small; unfold in_width; lia). rewrite !Hu in * by lia.
  set (fl0 := mkFreeList _ _ _). assert (enough (Z.of_nat n) fl0) as He.
  { assert (∀ a b (Q : Z → Prop), (∀ x, a ≤ x < a + b → Q x) → Forall Q (seqZ a b)) as Hseq by (intros a b Q HQ; apply Forall_forall; intros x Hx; apply HQ; by apply elem_of_seqZ in Hx).
    intros []; cbn [cfree fl0 intList floatList ccList num_regs]; rewrite ?length_seqZ; (split; [cbn; lia|]); [apply Hseq; cbn; lia..|done]. }
  destruct (init_threads_spec n fl0 Hf He) as (maps & fl & -> & Hlen & Hmaps & Hfree & Hp). cbn [mbind res_bind].
  rewrite Nat.sub_diag. cbn [replicate]. rewrite app_nil_r. exists maps, fl. split_and!; try done.
  { eapply Forall_impl; [done|]. by intros ? []. }
  split; cbn [fst snd]; [|done|].
  - assert (concat (owned <$> ((λ x, (x.1, [])) <$> maps)) = concat (mapped ∘ fst <$> maps)) as ->.
    { f_equal. rewrite <- list_fmap_compose. apply list_fmap_ext. intros i x _. unfold owned. cbn. by rewrite app_nil_r. }
    rewrite <- Hp. unfold free_regs, fl0. cbn.
    replace (seqZ (baseCCRegIndex f)) with (seqZ (baseFloatRegIndex f + (baseCCRegIndex f - baseFloatRegIndex f))) by (f_equal; lia).
    rewrite <- seqZ_app by lia. replace (seqZ (baseFloatRegIndex f)) with (seqZ (0 + baseFloatRegIndex f)) by (f_equal; lia).
    rewrite <- (seqZ_app 0) by lia. by replace (_ + _) with (totalNumRegs f) by lia.
  - apply Forall_fmap. eapply Forall_impl; [done|]. intros x []. done.
Qed.

End init.

(** ** What a step does to instructions and queues *)

Section steps.
Context `{I : ISA} `{L : !ISALaws} {Fl : Flatten} (P : Params) (w : Wires).

Definition heap_fixed (s s' : Stage) : Prop := ∀ q i, heap s !! q = Some i → ∃ i', heap s' !! q = Some i' ∧ fixed i i'.
Definition queues (s : Stage) : list (list positive * list positive) := (λ t, (insts t, skidBuffer t)) <$> threads s.

(** Instructions keep what [fixed] names, and queues and the slots to IEW stay. *)
Definition calm (s s' : Stage) : Prop := heap_fixed s s' ∧ queues s' = queues s ∧ toIEW s' = toIEW s.

Lemma fixed_refl i : fixed i i.
Proof. done. Qed.

Lemma heap_fixed_eq s s' : heap s' = heap s → heap_fixed s s'.
Proof. intros Hh q i Hi. exists i. by rewrite Hh. Qed.

Lemma calm_eq s s' : heap s' = heap s → queues s' = queues s → toIEW s' = toIEW s → calm s s'.
Proof. intros. split; [by apply heap_fixed_eq|done]. Qed.

Lemma calm_trans s1 s2 s3 : calm s1 s2 → calm s2 s3 → calm s1 s3.
Proof.
  intros (H1 & H1' & H1'') (H2 & H2' & H2''). split; [|split; congruence]. intros q i Hi. destruct (H1 q i Hi) as (i1 & Hi1 & Hf1).
  destruct (H2 q i1 Hi1) as (i2 & Hi2 & Hf2). exists i2. split; [done|]. by eapply fixed_trans.
Qed.

Lemma upd_calm tid g s s' : upd tid g s = Ok s' → (∀ t, insts (g t) = insts t ∧ skidBuffer (g t) = skidBuffer t) → calm s s'.
Proof.
  intros (t & Ht & ->)%upd_inv Hg. apply calm_eq; [done| |done]. unfold queues. cbn. rewrite list_fmap_insert.
  apply list_insert_id. rewrite list_lookup_fmap, Ht. cbn. destruct (Hg t) as [-> ->]. done.
Qed.

Lemma set_inst_calm p i i' s : heap s !! p = Some i → fixed i i' → calm s (set_inst p i' s).
Proof.
  intros Hi Hf. split; [|done]. intros q j Hj. cbn. destruct (decide (p = q)) as [<-|Hne].
  - rewrite lookup_insert_eq. exists i'. split; [done|]. by rewrite Hi in Hj; injection Hj as <-.
  - rewrite lookup_insert_ne by done. by exists j.
Qed.

Lemma upd_inst_calm p g s s' : upd_inst p g s = Ok s' → (∀ i, fixed i (g i)) → calm s s'.
Proof. unfold upd_inst. intros (i & Hi%deref_ok & [= <-])%bind_ok Hg. by apply (set_inst_calm p i). Qed.

Lemma renameSrcRegs_from_calm p tid idx srcs s s' : renameSrcRegs_from P p tid idx srcs s = Ok s' → calm s s'.
Proof.
  revert idx s. induction srcs as [|u srcs IH]; intros idx s Hr; cbn [renameSrcRegs_from] in Hr; [injection Hr as <-; by apply calm_eq|].
  apply bind_ok in Hr as ([r s1] & Hl & Hr). assert (calm s s1) as Hc1 by (unfold lookup_src in Hl; steps Hl; by apply calm_eq).
  apply bind_ok in Hr as (i1 & Hi1%deref_ok & Hr). apply bind_ok in Hr as (i2 & Hi2%renameSrcReg_fixed & Hr).
  apply bind_ok in Hr as (ready & _ & Hr). apply bind_ok in Hr as (i3 & Hi3 & Hr).
  assert (fixed i1 i3) as Hf3 by (destruct ready; [eapply fixed_trans; [done|by eapply markSrcRegReadyIdx_fixed]|by injection Hi3 as <-]).
  eapply calm_trans; [done|]. eapply calm_trans; [exact (set_inst_calm p i1 i3 s1 Hi1 Hf3)|]. exact (IH _ _ Hr).
Qed.

Lemma rename_dest_calm tid d s x s' : rename_dest P tid d s = Ok (x, s') → calm s s'.
Proof.
  unfold rename_dest. intros Hr. steps Hr; [..|by apply calm_eq];
    (match goal with H : set_map _ _ _ _ = Ok _ |- _ => unfold set_map in H; eapply calm_trans; [|eapply upd_calm; [exact H|done]] end); by apply calm_eq.
Qed.

Lemma renameDestRegs_from_calm p tid idx dests s s' : renameDestRegs_from P p tid idx dests s = Ok s' → calm s s'.
Proof.
  revert idx s. induction dests as [|d dests IH]; intros idx s Hr; cbn [renameDestRegs_from] in Hr; [injection Hr as <-; by apply calm_eq|].
  apply bind_ok in Hr as ([[info u] s1] & Hd & Hr). apply rename_dest_calm in Hd.
  apply bind_ok in Hr as (i1 & Hi1%deref_ok & Hr). apply bind_ok in Hr as (i2 & Hi2%flattenDestReg_fixed & Hr).
  apply bind_ok in Hr as (sb & _ & Hr). apply bind_ok in Hr as (s2 & Hu & Hr). apply bind_ok in Hr as (i3 & Hi3%renameDestReg_fixed & Hr).
  assert (heap s2 = heap s1) as Hh by (by apply upd_inv in Hu as (? & _ & ->)).
  eapply calm_trans; [done|]. eapply (calm_trans _ s2); [by eapply (upd_calm _ _ (with_scoreboard sb s1))|].
  eapply calm_trans; [apply (set_inst_calm p i1 i3); [by rewrite Hh|by eapply fixed_trans]|]. exact (IH _ _ Hr).
Qed.

(** An instruction that is renamed goes to the next slot. *)
Lemma rename_inst_calm tid p s s' : rename_inst P tid p s = Ok s' →
  heap_fixed s s' ∧ queues s' = queues s ∧ toIEW s' = toIEW s ++ [p].
Proof.
  unfold rename_inst, renameSrcRegs, renameDestRegs. intros Hr. apply bind_ok in Hr as (i & _ & Hr). apply bind_ok in Hr as (s1 & H1 & Hr).
  apply bind_ok in H1 as (i1 & _ & H1%renameSrcRegs_from_calm). apply bind_ok in Hr as (s2 & H2 & Hr). apply bind_ok in H2 as (i2 & _ & H2%renameDestRegs_from_calm).
  apply bind_ok in Hr as (s3 & H3 & Hr). apply bind_ok in Hr as (s4 & H4 & Hr). injection Hr as <-.
  assert (calm s2 s3) as Hc3 by (destruct (isLoad _); [by eapply upd_calm|injection H3 as <-; by apply calm_eq]).
  assert (calm s3 s4) as Hc4 by (destruct (isStore _); [by eapply upd_calm|injection H4 as <-; by apply calm_eq]).
  assert (calm s s4) as (Hh & Hq & Hi) by (repeat (eapply calm_trans; [eassumption|]); by apply calm_eq).
  split_and!; [exact Hh|exact Hq|]. cbn. by rewrite Hi.
Qed.

(** ** The rename loop *)

Hypothesis file : file_ok (regFile P).

Definition of_thread (tid : nat) (s : Stage) (p : positive) : Prop := ∃ i, heap s !! p = Some i ∧ threadNumber i = tid.
Definition seq_of (s : Stage) (p : positive) : option Z := seqNum <$> heap s !! p.
Definition live (s : Stage) (p : positive) : bool := match heap s !! p with Some i => negb (isSquashed i) | None => false end.

Lemma fixed_facts tid s s' p : heap_fixed s s' → of_thread tid s p → of_thread tid s' p ∧ seq_of s' p = seq_of s p ∧ live s' p = live s p.
Proof.
  intros Hh (i & Hi & Ht). destruct (Hh p i Hi) as (i' & Hi' & (_ & Hs & Ht' & Hq)). unfold of_thread, seq_of, live. rewrite Hi, Hi'. cbn.
  rewrite Hs, Hq. split; [|done]. exists i'. by rewrite Ht'.
Qed.

Lemma queues_lookup u s s' tid t :
  queues s' = queues s → threads s !! tid = Some t → ∃ t', threads s' !! tid = Some t' ∧ queue u t' = queue u t.
Proof.
  intros Hq Ht. assert (queues s' !! tid = Some (insts t, skidBuffer t)) as Hl by (rewrite Hq; unfold queues; by rewrite list_lookup_fmap, Ht).
  unfold queues in Hl. rewrite list_lookup_fmap in Hl. destruct (threads s' !! tid) as [t'|]; [|done]. injection Hl as H1 H2. exists t'.
  split; [done|]. unfold queue. by rewrite H1, H2.
Qed.

(** What the loop does: the instructions [sent] leave the queue, those that are not squashed are
    renamed and go to IEW in order; [stalled] is an instruction that has to wait for an empty
    pipeline. *)
Record loop_rel (u : bool) (tid : nat) (s s' : Stage) (renamed_insts : Z) (sent stalled rest : list positive) : Prop := {
  loop_fixed : heap_fixed s s';
  loop_sent : toIEW s' = toIEW s ++ List.filter (live s) sent;
  loop_count : renamed_insts = Z.of_nat (length (List.filter (live s) sent));
  loop_stalled : ∃ t', threads s' !! tid = Some t' ∧ queue u t' = rest ∧
    (stalled = [] ∨ ∃ p, stalled = [p] ∧ serializeInst t' = Some p ∧ renameStatus t' = SerializeStall);
  loop_ok : regs_ok P (regs s');
  loop_regs : ∃ x x', (regs s).2 !! tid = Some x ∧ (regs s').2 = <[tid := x']> (regs s).2 ∧ extends (λ q, ∃ p, p ∈ sent ∧ seq_of s p = Some q) x x'
}.

Lemma extends_trans Q x y z : extends Q x y → extends Q y z → extends Q x z.
Proof.
  intros (a & Ha & Hqa & Hua) (b & Hb & Hqb & Hub). exists (b ++ a). rewrite Hb, Ha, app_assoc. split; [done|].
  split; [by apply Forall_app|]. by rewrite foldl_app, Hub.
Qed.

Lemma extends_weaken Q R x y : (∀ q, Q q → R q) → extends Q x y → extends R x y.
Proof. intros HQ (a & Ha & Hq & Hu). exists a. split_and!; [done| |done]. eapply Forall_impl; [done|]. naive_solver. Qed.

(** Nothing happens but to the queue and flags. *)
Lemma loop_rel_done u tid s s' stalled rest t' :
  regs_ok P (regs s) → keeps s s' → heap_fixed s s' → toIEW s' = toIEW s → threads s' !! tid = Some t' → queue u t' = rest →
  (stalled = [] ∨ ∃ p, stalled = [p] ∧ serializeInst t' = Some p ∧ renameStatus t' = SerializeStall) → loop_rel u tid s s' 0 [] stalled rest.
Proof.
  intros Hok Hk Hh Hi Ht Hq Hst. unfold keeps in Hk. split; cbn; rewrite ?app_nil_r; try done; [by exists t'|by rewrite Hk|].
  exists (thread_regs t'), (thread_regs t'). pose proof (regs_lookup _ _ _ Ht) as Hl. rewrite Hk in Hl. cbn in Hl. split_and!; [done| |by exists []].
  rewrite list_insert_id by done. by injection Hk.
Qed.

Lemma loop_rel_step u tid s s1 s' k p sent stalled rest :
  Forall (of_thread tid s) (p :: sent) → heap_fixed s s1 → toIEW s1 = toIEW s ++ List.filter (live s) [p] →
  (∃ x x', (regs s).2 !! tid = Some x ∧ (regs s1).2 = <[tid := x']> (regs s).2 ∧ extends (λ q, seq_of s p = Some q) x x') →
  loop_rel u tid s1 s' k sent stalled rest →
  loop_rel u tid s s' (Z.of_nat (length (List.filter (live s) [p])) + k) (p :: sent) stalled rest.
Proof.
  intros Hof Hh Hi (x & x1 & Hx & Hx1 & He1) [Hh' Hi' Hk Hst Hok (y & x' & Hy & Hx' & He')]. apply Forall_cons in Hof as [_ Hof].
  assert (List.filter (live s1) sent = List.filter (live s) sent) as Hfl.
  { clear -Hof Hh. induction Hof as [|q l Hq _ IH]; [done|]. cbn. destruct (fixed_facts tid s s1 q Hh Hq) as (_ & _ & ->). by rewrite IH. }
  assert (List.filter (live s) (p :: sent) = List.filter (live s) [p] ++ List.filter (live s) sent) as Hpf by (cbn; by destruct (live s p)).
  rewrite Hx1 in Hy. rewrite list_lookup_insert_eq in Hy by (by apply lookup_lt_Some in Hx). injection Hy as <-.
  split; try done; rewrite ?Hpf.
  - intros q i Hq. destruct (Hh q i Hq) as (i1 & Hq1 & Hf1). destruct (Hh' q i1 Hq1) as (i2 & Hq2 & Hf2). exists i2. split; [done|]. by eapply fixed_trans.
  - by rewrite Hi', Hi, Hfl, app_assoc.
  - rewrite length_app, Hk, Hfl. lia.
  - exists x, x'. split; [done|]. split; [by rewrite Hx', Hx1, list_insert_insert_eq|]. eapply extends_trans.
    + eapply extends_weaken; [|exact He1]. intros q Hq. exists p. split; [left|done].
    + eapply extends_weaken; [|exact He']. intros q (r & Hr & Hrq). exists r. split; [by right|].
      rewrite Forall_forall in Hof. destruct (fixed_facts tid s s1 r Hh) as (_ & Hsq & _); [by apply Hof|]. congruence.
Qed.

(** Taking the head off the queue, with the flags a serializing instruction leaves. *)
Lemma pop_rel u tid s s1 q t :
  threads s !! tid = Some t → upd tid (with_queue u q) s = Ok s1 →
  keeps s s1 ∧ heap s1 = heap s ∧ toIEW s1 = toIEW s ∧ ∃ t1, threads s1 !! tid = Some t1 ∧ queue u t1 = q.
Proof.
  intros Ht Hu. pose proof Hu as (t0 & Ht0 & ->)%upd_inv. split; [eapply upd_regs; [done|]; intros ?; unfold with_queue; by case_match|].
  split_and!; try done. cbn. rewrite list_lookup_insert_eq by (by apply lookup_lt_Some in Ht0). eexists. split; [done|]. unfold queue, with_queue. by destruct u.
Qed.

Lemma keeps_regs tid s s1 p t : keeps s s1 → threads s !! tid = Some t →
  ∃ x x', (regs s).2 !! tid = Some x ∧ (regs s1).2 = <[tid := x']> (regs s).2 ∧ extends (λ q, seq_of s p = Some q) x x'.
Proof.
  intros Hk Ht. exists (thread_regs t), (thread_regs t). pose proof (regs_lookup _ _ _ Ht) as Hl. split; [done|]. split; [|by exists []].
  unfold keeps in Hk. by rewrite list_insert_id, Hk by done.
Qed.

(** The renaming of one instruction, after the flags were set. *)
Lemma rename_one u tid s s1 s2 s3 p q t i :
  regs_ok P (regs s) → threads s !! tid = Some t → heap s !! p = Some i → threadNumber i = tid → isSquashed i = false →
  upd tid (with_queue u q) s = Ok s1 → keeps s1 s2 → calm s1 s2 → rename_inst P tid p s2 = Ok s3 →
  regs_ok P (regs s3) ∧ heap_fixed s s3 ∧ toIEW s3 = toIEW s ++ List.filter (live s) [p] ∧ (∃ t3, threads s3 !! tid = Some t3 ∧ queue u t3 = q) ∧
  ∃ x x', (regs s).2 !! tid = Some x ∧ (regs s3).2 = <[tid := x']> (regs s).2 ∧ extends (λ q, seq_of s p = Some q) x x'.
Proof.
  intros Hok Ht Hi Htid Hsq Hu Hk2 (Hh2 & Hq2 & Hi2) Hr. destruct (pop_rel u tid s s1 q t Ht Hu) as (Hk1 & Hh1 & Hi1 & t1 & Ht1 & Hqt1).
  unfold keeps in *. destruct (Hh2 p i) as (i2 & Hi2' & (_ & Hsn & Htn & _)); [by rewrite Hh1|].
  destruct (rename_inst_spec P file tid p s2 s3 i2) as [Hok3 Hren]; [by rewrite Hk2, Hk1|done|done|].
  destruct (rename_inst_calm tid p s2 s3 Hr) as (Hh3 & Hq3 & Hi3).
  assert (heap_fixed s1 s3) as Hh13 by (intros r j Hj; destruct (Hh2 r j Hj) as (j1 & Hj1 & Hf1); destruct (Hh3 r j1 Hj1) as (j2 & Hj2 & Hf2);
    exists j2; split; [done|by eapply fixed_trans]).
  destruct (queues_lookup u s1 s2 tid t1 Hq2 Ht1) as (t2 & Ht2 & Hqt2). destruct (queues_lookup u s2 s3 tid t2 Hq3 Ht2) as (t3 & Ht3 & Hqt3).
  split; [done|]. split; [unfold heap_fixed; rewrite <- Hh1; exact Hh13|]. split; [|split; [exists t3; by rewrite Hqt3, Hqt2|]].
  - rewrite Hi3, Hi2, Hi1. cbn. unfold live. by rewrite Hi, Hsq.
  - destruct Hren as (x & x' & Hx & Hx' & He); [rewrite Htn, Htid; by exists t2|]. rewrite Hk2, Hk1, Htn, Htid in *.
    exists x, x'. split_and!; [done..|]. eapply extends_weaken; [|exact He]. intros r <-. unfold seq_of. rewrite Hi. cbn. by rewrite Hsn.
Qed.

Lemma incrFullStat_calm src s s' : incrFullStat src s = Ok s' → calm s s' ∧ threads s' = threads s.
Proof. unfold incrFullStat. intros Hr. destruct src; steps Hr; (split; [by apply calm_eq|done]). Qed.

Lemma serialize_flags p q tid (b : bool) s s' :
  (if b then s1 ← upd_inst p setSerializeHandled (incr renamedSerializing s); serializeAfter q tid s1 else Ok s) = Ok s' → keeps s s' ∧ calm s s'.
Proof.
  destruct b; [|intros [= <-]; split; [done|by apply calm_eq]]. intros Hr. apply bind_ok in Hr as (s1 & H1 & Hr). split.
  - eapply keeps_trans; [exact (upd_inst_regs _ _ _ _ H1)|by eapply serializeAfter_regs].
  - eapply calm_trans; [exact (upd_inst_calm _ _ _ _ H1 (λ i, fixed_refl _))|]. unfold serializeAfter in Hr.
    destruct q; [by eapply upd_calm|by eapply upd_inst_calm].
Qed.

(** The stall before a serializing instruction. *)
Lemma stall_rel u tid s s1 s2 s3 p q t (b : bool) :
  regs_ok P (regs s) → threads s !! tid = Some t → upd tid (with_queue u q) s = Ok s1 →
  (if b then upd_inst p setSerializeHandled (incr renamedSerializing s1) else Ok (incr renamedTempSerializing s1)) = Ok s2 →
  upd tid (λ t, with_serializeInst (Some p) (with_renameStatus SerializeStall t)) s2 = Ok s3 →
  loop_rel u tid s (with_blockThisCycle true s3) 0 [] [p] q.
Proof.
  intros Hok Ht Hu Hb Hu2. destruct (pop_rel u tid s s1 q t Ht Hu) as (Hk1 & Hh1 & Hi1 & t1 & Ht1 & Hqt1).
  assert (keeps s1 s2 ∧ calm s1 s2) as [Hk2 (Hh2 & Hq2 & Hi2)].
  { destruct b; [|injection Hb as <-; split; [done|by apply calm_eq]]. split; [exact (upd_inst_regs _ _ _ _ Hb)|exact (upd_inst_calm _ _ _ _ Hb (λ i, fixed_refl _))]. }
  destruct (queues_lookup u s1 s2 tid t1 Hq2 Ht1) as (t2 & Ht2 & Hqt2). assert (keeps s2 s3) as Hk3 by (by eapply upd_regs).
  apply upd_inv in Hu2 as (t0 & Ht0 & ->). rewrite Ht2 in Ht0. injection Ht0 as <-.
  eapply loop_rel_done; [done| | | | | |].
  - eapply keeps_trans; [done|]. eapply keeps_trans; [exact Hk2|exact Hk3].
  - intros r j Hj. rewrite <- Hh1 in Hj. exact (Hh2 r j Hj).
  - cbn. congruence.
  - cbn. apply list_lookup_insert_eq. by apply lookup_lt_Some in Ht2.
  - rewrite <- Hqt1, <- Hqt2. by unfold queue; destruct u.
  - right. by exists p.
Qed.

Lemma rename_loop_spec u tid n k s n' k' s' t :
  regs_ok P (regs s) → threads s !! tid = Some t → Forall (of_thread tid s) (queue u t) → rename_loop P w u tid n k s = Ok (n', k', s') →
  ∃ sent stalled rest, queue u t = sent ++ stalled ++ rest ∧ loop_rel u tid s s' (k' - k) sent stalled rest.
Proof.
  revert k s t. induction n as [|n IH]; intros k s t Hok Ht Hof Hr; cbn [rename_loop] in Hr.
  { injection Hr as <- <- <-. exists [], [], (queue u t). split; [done|]. rewrite Z.sub_diag. eapply loop_rel_done; try done; [by apply heap_fixed_eq|by left]. }
  destruct (negb _).
  { injection Hr as <- <- <-. exists [], [], (queue u t). split; [done|]. rewrite Z.sub_diag. eapply loop_rel_done; try done; [by apply heap_fixed_eq|by left]. }
  apply bind_ok in Hr as (t0 & Ht0%deref_ok & Hr). rewrite Ht in Ht0. injection Ht0 as <-. destruct (queue u t) as [|p q] eqn:Hqt; [done|].
  apply bind_ok in Hr as (i & Hi%deref_ok & Hr). pose proof Hof as [(i0 & Hi0 & Htid) Hofq]%Forall_cons. rewrite Hi in Hi0. injection Hi0 as <-.
  destruct (lsq_full w tid i t) as [src|].
  { apply bind_ok in Hr as (s1 & Hs & Hr). pose proof (incrFullStat_regs _ _ _ Hs) as Hk. apply incrFullStat_calm in Hs as [(Hh & _ & Hi1) Hth].
    injection Hr as <- <- <-. exists [], [], (p :: q). split; [done|]. rewrite Z.sub_diag. eapply loop_rel_done; try done; [by rewrite Hth|by left]. }
  apply bind_ok in Hr as (s1 & Hu & Hr). destruct (pop_rel u tid s s1 q t Ht Hu) as (Hk1 & Hh1 & Hi1 & t1 & Ht1 & Hqt1).
  assert (regs_ok P (regs s1)) as Hok1 by (unfold keeps in Hk1; by rewrite Hk1).
  destruct (isSquashed i) eqn:Hsq.
  { apply (IH _ (incr renameSquashedInsts s1) t1) in Hr as (sent & stalled & rest & Heq & Hrel); try done.
    2: { rewrite Hqt1. unfold of_thread. cbn. by rewrite Hh1. }
    exists (p :: sent), stalled, rest. rewrite Hqt1 in Heq. split; [by rewrite Heq|].
    assert (List.filter (live s) [p] = []) as Hnil by (cbn; unfold live; by rewrite Hi, Hsq).
    apply (loop_rel_step u tid s (incr renameSquashedInsts s1) _ _ p) in Hrel; [by rewrite Hnil in Hrel| | | |].
    - rewrite Heq in Hof. rewrite app_comm_cons in Hof. by apply Forall_app in Hof as [? _].
    - by apply heap_fixed_eq.
    - by rewrite Hnil, app_nil_r.
    - by eapply keeps_regs. }
  destruct (negb (canRename _ _ _ _)).
  { apply bind_ok in Hr as (s2 & Hu2 & Hr). injection Hr as <- <- <-. destruct (pop_rel u tid (with_blockThisCycle true s1) s2 (p :: q) t1 Ht1 Hu2) as (Hk2 & Hh2 & Hi2 & t2 & Ht2 & Hqt2).
    exists [], [], (p :: q). split; [done|]. rewrite Z.sub_diag. eapply (loop_rel_done _ _ _ _ _ _ t2); try done.
    - eapply keeps_trans; [exact Hk1|exact Hk2].
    - apply heap_fixed_eq. exact (eq_trans Hh2 Hh1).
    - exact (eq_trans Hi2 Hi1).
    - by left. }
  destruct (_ && negb (isSerializeHandled i)).
  { apply bind_ok in Hr as (s2 & Hb & Hr). apply bind_ok in Hr as (s3 & Hu2 & Hr). injection Hr as <- <- <-.
    exists [], [p], q. split; [done|]. rewrite Z.sub_diag. by eapply stall_rel. }
  apply bind_ok in Hr as (s2 & Hb & Hr). apply bind_ok in Hr as (s3 & Hri & Hr). apply serialize_flags in Hb as [Hk2 Hc2].
  destruct (rename_one u tid s s1 s2 s3 p q t i) as (Hok3 & Hh3 & Hi3 & (t3 & Ht3 & Hqt3) & Hx); try done.
  apply (IH _ s3 t3) in Hr as (sent & stalled & rest & Heq & Hrel); try done.
  2: { rewrite Hqt3. eapply Forall_impl; [exact Hofq|]. intros r Hr'. by eapply fixed_facts. }
  exists (p :: sent), stalled, rest. rewrite Hqt3 in Heq. split; [by rewrite Heq|].
  assert (List.filter (live s) [p] = [p]) as Hone by (cbn; unfold live; by rewrite Hi, Hsq).
  apply (loop_rel_step u tid s s3 _ _ p) in Hrel; try done.
  - rewrite Hone in Hrel. cbn in Hrel. by replace (k' - k) with (1 + (k' - (k + 1))) by lia.
  - rewrite Heq in Hof. rewrite app_comm_cons in Hof. by apply Forall_app in Hof as [? _].
Qed.

End steps.

(** ** The registers of a thread as a programmer sees them *)

(** A write in flight: the instruction, the register it writes and the physical register that
    will hold the value. *)
Record Write := mkWrite { wseq : Z; wcl : RegClass; wrel : Z; wphys : Z }.

(** The registers of the committed state, and the writes in flight, newest first. *)
Record Arch := mkArch { committedMap : UnifiedRenameMap; writes : list Write }.

Definition apply_write (w : Write) (m : UnifiedRenameMap) : UnifiedRenameMap := set_entry m (wcl w) (wrel w) (wphys w).

Definition is_write (cl : RegClass) (rel : Z) (w : Write) : bool := bool_decide (wcl w = cl) && (wrel w =? rel).

(** The register that holds a value: of the last write in flight, or the committed one. *)
Definition arch_read (A : Arch) (cl : RegClass) (rel : Z) : option Z :=
  match List.find (is_write cl rel) (writes A) with
  | Some w => Some (wphys w)
  | None => cmap cl (committedMap A) !! Z.to_nat rel
  end.

(** Instructions after [sn] never happened; instructions up to [sn] have happened for good. *)
Definition arch_squash (sn : Z) (A : Arch) : Arch := mkArch (committedMap A) (List.filter (λ w, wseq w <=? sn) (writes A)).
Definition arch_commit (sn : Z) (A : Arch) : Arch :=
  mkArch (foldr apply_write (committedMap A) (List.filter (λ w, wseq w <=? sn) (writes A))) (List.filter (λ w, negb (wseq w <=? sn)) (writes A)).

Section arch.
Context `{I : ISA} `{L : !ISALaws} {Fl : Flatten} (P : Params) (w : Wires).

Fixpoint abs_writes (hb : list RenameHistory) : list Write :=
  match hb with
  | [] => []
  | h :: hb =>
      if changed h then
        match regIdxToClass (archReg h) with
        | Ok (cl, rel) => mkWrite (instSeqNum h) cl rel (newPhysReg h) :: abs_writes hb
        | Fail _ => abs_writes hb
        end
      else abs_writes hb
  end.

Definition abs (x : UnifiedRenameMap * list RenameHistory) : Arch := mkArch (foldl undo x.1 x.2) (abs_writes x.2).

(** The history holds the instructions in order. *)
Definition in_order (hb : list RenameHistory) : Prop := StronglySorted (λ h h', instSeqNum h' ≤ instSeqNum h) hb.

Lemma abs_writes_app a b : abs_writes (a ++ b) = abs_writes a ++ abs_writes b.
Proof. induction a as [|h a IH]; cbn; [done|]. rewrite IH. destruct (changed h); [|done]. by destruct (regIdxToClass _) as [[??]|]. Qed.

Lemma abs_writes_filter (Q : Z → bool) (b : bool) hb : Forall (λ h, Q (instSeqNum h) = b) hb →
  List.filter (λ w, Q (wseq w)) (abs_writes hb) = if b then abs_writes hb else [].
Proof.
  induction 1 as [|h hb Hh _ IH]; cbn; [by destruct b|]. destruct (changed h); [|done]. destruct (regIdxToClass _) as [[cl rel]|]; [|done].
  cbn. rewrite Hh, IH. by destruct b.
Qed.

(** The map holds what the abstract state reads. *)
Lemma read_correct m hb cl rel : hist_ok P m hb → 0 ≤ rel → cmap cl m !! Z.to_nat rel = arch_read (abs (m, hb)) cl rel.
Proof.
  revert m. unfold arch_read, abs. cbn. induction hb as [|h hb IH]; intros m Hh Hrel; cbn; [done|]. destruct Hh as [Hh Ht].
  pose proof (IH _ Ht Hrel) as IHr. assert (undo m h = undo m h) as Hu by done. unfold undo in Hu at 2. destruct (changed h) eqn:Hch; [|by rewrite <- IHr, Hu].
  destruct (Hh eq_refl) as (cl0 & rel0 & [Hs Hr0] & Hx & _). rewrite Hs in *. cbn [List.find].
  unfold is_write at 1. cbn [wcl wrel]. rewrite Hu, cmap_set_entry in IHr. destruct (decide (cl = cl0)) as [->|Hne].
  - rewrite bool_decide_true by done. cbn [andb]. destruct (Z.eqb_spec rel0 rel) as [->|Hne]; [done|].
    rewrite list_lookup_insert_ne in IHr by lia. by rewrite Hu.
  - rewrite bool_decide_false by done. by rewrite Hu.
Qed.

(** Applying the writes again. *)
Lemma redo m hb : hist_ok P m hb → foldr apply_write (foldl undo m hb) (abs_writes hb) = m.
Proof.
  revert m. induction hb as [|h hb IH]; intros m Hh; cbn; [done|]. destruct Hh as [Hh Ht]. destruct (changed h) eqn:Hch.
  - destruct (Hh eq_refl) as (cl & rel & [Hs _] & Hx & _). rewrite Hs. cbn [foldr]. rewrite IH by done. unfold apply_write, undo. cbn.
    rewrite Hch, Hs. by apply set_entry_id.
  - rewrite IH by done. unfold undo. by rewrite Hch.
Qed.

Lemma in_order_app a b : in_order (a ++ b) → in_order a ∧ in_order b ∧ ∀ x y, x ∈ a → y ∈ b → instSeqNum y ≤ instSeqNum x.
Proof.
  unfold in_order. induction a as [|h a IH]; cbn; [intros; split_and!; [constructor|done|by intros ?? ?%not_elem_of_nil]|].
  intros [Hs Hf]%StronglySorted_inv. destruct (IH Hs) as (Ha & Hb & Hab). apply Forall_app in Hf as [Hfa Hfb].
  split_and!; [by constructor|done|]. intros x y [->|Hx]%elem_of_cons Hy; [rewrite Forall_forall in Hfb; by apply Hfb|by apply Hab].
Qed.

Lemma abs_squash sn t t' : in_order (historyBuffer t) → squashed sn t t' → abs (thread_regs t') = arch_squash sn (abs (thread_regs t)).
Proof.
  intros Ho (young & old & Hhb & Hy & Hold & ->). unfold abs, arch_squash, thread_regs. cbn. rewrite Hhb in *. rewrite foldl_app. f_equal.
  destruct (in_order_app _ _ Ho) as (_ & Hso & _). rewrite abs_writes_app, List.filter_app.
  rewrite (abs_writes_filter (λ q, q <=? sn) false) by (eapply Forall_impl; [exact Hy|]; cbn; intros; apply Z.leb_gt; lia).
  rewrite (abs_writes_filter (λ q, q <=? sn) true); [done|]. destruct old as [|h old]; [done|]. specialize (Hold h eq_refl).
  apply StronglySorted_inv in Hso as [_ Hso]. constructor; [by apply Z.leb_le|]. eapply Forall_impl; [exact Hso|]. cbn. intros; apply Z.leb_le; lia.
Qed.

(** What commit keeps is younger. *)
Lemma kept_young sn new : in_order new → (∀ h, last new = Some h → sn < instSeqNum h) → Forall (λ h, (instSeqNum h <=? sn) = false) new.
Proof.
  intros Hsn Hn. induction new as [|h new IH]; [done|]. apply StronglySorted_inv in Hsn as [Hsn Hf].
  destruct new as [|h' new]; [constructor; [apply Z.leb_gt; by apply Hn|done]|]. specialize (IH Hsn Hn). constructor; [|done].
  apply Forall_cons in IH as [IH _]. apply Forall_cons in Hf as [Hf _]. apply Z.leb_gt in IH. apply Z.leb_gt. lia.
Qed.

Lemma abs_commit sn t t' : in_order (historyBuffer t) → hist_ok P (renameMap t) (historyBuffer t) → committed sn t t' →
  abs (thread_regs t') = arch_commit sn (abs (thread_regs t)).
Proof.
  intros Ho Hok (new & old & Hhb & Hold & Hn & ->). unfold abs, arch_commit, thread_regs. cbn. rewrite Hhb in *.
  destruct (in_order_app _ _ Ho) as (Hsn & _ & _). rewrite abs_writes_app, !List.filter_app, foldl_app.
  pose proof (kept_young sn new Hsn Hn) as Hnew.
  assert (Forall (λ h, (instSeqNum h <=? sn) = true) old) as Hold' by (eapply Forall_impl; [exact Hold|]; cbn; intros; by apply Z.leb_le).
  rewrite (abs_writes_filter (λ q, q <=? sn) false new), (abs_writes_filter (λ q, q <=? sn) true old) by done.
  rewrite (abs_writes_filter (λ q, negb (q <=? sn)) true new), (abs_writes_filter (λ q, negb (q <=? sn)) false old)
    by (eapply Forall_impl; [eassumption|]; by cbn; intros ? ->).
  rewrite app_nil_r. cbn [app]. f_equal. symmetry. apply redo. by apply hist_ok_prefix in Hok as [_ ?].
Qed.

(** The registers given to the writes of a piece of history come off the free lists. *)
Lemma owned_undo young old m : hist_ok P m (young ++ old) → owned (m, young ++ old) ≡ₚ news young ++ owned (foldl undo m young, old).
Proof.
  revert m. induction young as [|h young IH]; intros m Hh; cbn; [done|]. destruct Hh as [Hh Ht].
  specialize (IH _ Ht). unfold owned in *. cbn [fst snd prevs] in *. destruct (changed h) eqn:Hch.
  - destruct (Hh eq_refl) as (cl & rel & [Hs _] & Hx & _). cbn [app]. rewrite <- IH. unfold undo at 1. rewrite Hch, Hs.
    rewrite app_comm_cons. rewrite (set_entry_perm m cl rel _ (prevPhysReg h) Hx). cbn. by rewrite Permutation_middle.
  - unfold undo at 1 in IH. rewrite Hch in IH. by rewrite IH.
Qed.

Lemma abs_writes_news hb m : hist_ok P m hb → wphys <$> abs_writes hb = news hb.
Proof.
  revert m. induction hb as [|h hb IH]; intros m Hh; cbn; [done|]. destruct Hh as [Hh Ht]. destruct (changed h); [|by eapply IH].
  destruct (Hh eq_refl) as (cl & rel & [Hs _] & _). rewrite Hs. cbn. f_equal. by eapply IH.
Qed.

Lemma extends_writes Q r r' tid x x' : regs_ok P r → regs_ok P r' → r.2 !! tid = Some x → r'.2 = <[tid := x']> r.2 → extends Q x x' →
  ∃ young, x'.2 = young ++ x.2 ∧ abs x' = mkArch (committedMap (abs x)) (abs_writes young ++ writes (abs x)) ∧
    free_regs r.1 ≡ₚ (wphys <$> abs_writes young) ++ free_regs r'.1.
Proof.
  intros [Hp _ _] [Hp' _ Hts'] Hx Hx' (young & Hy & _ & Hund). destruct x as [m hb], x' as [m' hb']. cbn in Hy, Hund. subst hb' m.
  rewrite Hx', Forall_lookup in Hts'. assert (is_Some (r.2 !! tid)) as Hlt%lookup_lt_is_Some by done.
  destruct (Hts' tid (m', young ++ hb)) as [_ Hh]; [by apply list_lookup_insert_eq|]. cbn [fst snd] in Hh.
  exists young. split; [done|]. split.
  - unfold abs. cbn. by rewrite foldl_app, abs_writes_app.
  - apply hist_ok_prefix in Hh as Hh2. destruct Hh2 as [Hhy _]. rewrite (abs_writes_news _ _ Hhy).
    destruct (concat_owned_insert _ tid _ (m', young ++ hb) Hx) as (rest & H1 & H2). rewrite <- Hx' in H2. rewrite H1 in Hp. rewrite H2, (owned_undo _ _ _ Hh) in Hp'.
    rewrite <- Hp in Hp'. rewrite <- !app_assoc, (Permutation_app_swap_app (free_regs r'.1)) in Hp'. rewrite !app_assoc in Hp'.
    rewrite <- (app_assoc _ _ rest) in Hp'. rewrite <- (app_assoc (free_regs r.1)) in Hp'. symmetry. by eapply Permutation_app_inv_r.
Qed.

(** The registers that a list of writes, newest first, replaces in the map [m]. *)
Fixpoint overwritten (m : UnifiedRenameMap) (ws : list Write) : list Z :=
  match ws with
  | [] => []
  | w :: ws => default 0 (cmap (wcl w) (foldr apply_write m ws) !! Z.to_nat (wrel w)) :: overwritten m ws
  end.

Lemma overwritten_prevs m hb : hist_ok P m hb → overwritten (foldl undo m hb) (abs_writes hb) = prevs hb.
Proof.
  revert m. induction hb as [|h hb IH]; intros m Hh; cbn; [done|]. destruct Hh as [Hh Ht]. destruct (changed h) eqn:Hch; [|by apply IH].
  destruct (Hh eq_refl) as (cl & rel & [Hs _] & Hx & _). rewrite Hs. cbn [overwritten wcl wrel]. rewrite redo by done. f_equal; [|by apply IH].
  unfold undo. rewrite Hch, Hs, cmap_set_entry, decide_True by done. by rewrite list_lookup_insert_eq by (by apply lookup_lt_Some in Hx).
Qed.

(** The registers that a squash to [sn] and a commit of [sn] free. *)
Definition squash_frees (sn : Z) (A : Arch) : list Z := wphys <$> List.filter (λ w, negb (wseq w <=? sn)) (writes A).
Definition commit_frees (sn : Z) (A : Arch) : list Z := overwritten (committedMap A) (List.filter (λ w, wseq w <=? sn) (writes A)).

Lemma squash_freed sn t t' young : in_order (historyBuffer t) → hist_ok P (renameMap t) (historyBuffer t) → squashed sn t t' →
  historyBuffer t = young ++ historyBuffer t' → news young = squash_frees sn (abs (thread_regs t)).
Proof.
  intros Ho Hok (y & old & Hhb & Hy & Hold & ->) Hsplit. cbn in Hsplit. rewrite Hhb in Hsplit. apply app_inv_tail in Hsplit as <-.
  unfold squash_frees, abs, thread_regs. cbn. rewrite Hhb in *. destruct (in_order_app _ _ Ho) as (_ & Hso & _). rewrite abs_writes_app, List.filter_app.
  rewrite (abs_writes_filter (λ q, negb (q <=? sn)) true) by (eapply Forall_impl; [exact Hy|]; cbn; intros; apply negb_true_iff, Z.leb_gt; lia).
  rewrite (abs_writes_filter (λ q, negb (q <=? sn)) false old).
  - rewrite app_nil_r. symmetry. eapply abs_writes_news. by apply hist_ok_prefix in Hok as [? _].
  - destruct old as [|h old]; [done|]. specialize (Hold h eq_refl). apply StronglySorted_inv in Hso as [_ Hso].
    constructor; [by apply negb_false_iff, Z.leb_le|]. eapply Forall_impl; [exact Hso|]. cbn. intros; apply negb_false_iff, Z.leb_le; lia.
Qed.

Lemma commit_freed sn t t' old : in_order (historyBuffer t) → hist_ok P (renameMap t) (historyBuffer t) → committed sn t t' →
  historyBuffer t = historyBuffer t' ++ old → prevs old = commit_frees sn (abs (thread_regs t)).
Proof.
  intros Ho Hok (new & o & Hhb & Hold & Hn & ->) Hsplit. cbn in Hsplit. rewrite Hhb in Hsplit. apply app_inv_head in Hsplit as <-.
  unfold commit_frees, abs, thread_regs. cbn. rewrite Hhb in *. rewrite abs_writes_app, List.filter_app, foldl_app.
  destruct (in_order_app _ _ Ho) as (Hsn & _ & _). rewrite (abs_writes_filter (λ q, q <=? sn) false new) by (by apply kept_young).
  rewrite (abs_writes_filter (λ q, q <=? sn) true o) by (eapply Forall_impl; [exact Hold|]; cbn; intros; by apply Z.leb_le).
  cbn [app]. symmetry. apply overwritten_prevs. by apply hist_ok_prefix in Hok as [_ ?].
Qed.

(** ** Destinations *)

(** The write of a destination [d] that got the physical register [r]. *)
Definition dest_write (tid : nat) (m : UnifiedRenameMap) (sn : Z) (dr : Z * Z) : option Write :=
  '(cl, a) ← dest_slot tid m dr.1; Some (mkWrite sn cl a dr.2).

Lemma dest_writes_cons tid m sn d ds r rs :
  omap (dest_write tid m sn) (zip (d :: ds) (r :: rs)) = option_list (dest_write tid m sn (d, r)) ++ omap (dest_write tid m sn) (zip ds rs).
Proof. cbn. by destruct (dest_write tid m sn (d, r)). Qed.

Lemma dest_slot_zeros tid m m' d : (∀ cl, czero cl m' = czero cl m) → dest_slot tid m' d = dest_slot tid m d.
Proof. intros Hz. unfold dest_slot. destruct (regIdxToClass d) as [[cl rel]|]; [|done]. by rewrite Hz. Qed.

Lemma renameDestReg_dests idx x y i i' : renameDestReg idx x y i = Ok i' →
  0 ≤ idx < vsize (_destRegIdx i) ∧ _destRegIdx i' = <[Z.to_nat idx := x]> (_destRegIdx i).
Proof. unfold renameDestReg. intros (d & [? ->]%vwrite_inv & (q & _ & [= <-])%bind_ok)%bind_ok. done. Qed.

Lemma flattenDestReg_dests idx x i i' : flattenDestReg idx x i = Ok i' → _destRegIdx i' = _destRegIdx i.
Proof. unfold flattenDestReg. by intros (l & _ & [= <-])%bind_ok. Qed.

Lemma renameDestRegs_from_writes p tid idx dests s s' i t :
  file_ok (regFile P) → regs_ok P (regs s) → heap s !! p = Some i → threads s !! tid = Some t → 0 ≤ idx → renameDestRegs_from P p tid idx dests s = Ok s' →
  ∃ i' t' young, heap s' !! p = Some i' ∧ threads s' !! tid = Some t' ∧ historyBuffer t' = young ++ historyBuffer t ∧
    (∀ j, (j < Z.to_nat idx)%nat → _destRegIdx i' !! j = _destRegIdx i !! j) ∧
    rev (abs_writes young) = omap (dest_write tid (renameMap t) (seqNum i)) (zip dests (drop (Z.to_nat idx) (_destRegIdx i'))).
Proof.
  intros Hf. revert idx s i t. induction dests as [|d dests IH]; intros idx s i t Hok Hi Ht Hidx Hr; cbn [renameDestRegs_from] in Hr.
  { injection Hr as <-. exists i, t, []. split_and!; try done. }
  apply bind_ok in Hr as ([[info u] s1] & Hd & Hr). apply bind_ok in Hr as (i1 & Hi1 & Hr). apply bind_ok in Hr as (i2 & Hi2 & Hr).
  apply bind_ok in Hr as (sb & _ & Hr). apply bind_ok in Hr as (s2 & Hu & Hr). apply bind_ok in Hr as (i3 & Hi3 & Hr).
  destruct (rename_one_inv _ _ _ _ _ _ _ _ _ _ Hf Hok Hd Hu) as (x & x1 & Hx & Hx1 & Hok1 & Hheap & Hh & _ & Hz & Hslot).
  rewrite (regs_lookup _ _ _ Ht) in Hx. injection Hx as <-.
  assert (heap s1 = heap s) as Hh1 by (apply upd_inv in Hu as (? & _ & ->); exact Hheap).
  assert (i1 = i) as -> by (unfold inst in Hi1; apply deref_ok in Hi1; congruence).
  assert (∃ t2, threads s2 !! tid = Some t2 ∧ thread_regs t2 = x1) as (t2 & Ht2 & <-).
  { assert ((regs s2).2 !! tid = Some x1) as Hl by (rewrite Hx1; apply list_lookup_insert_eq; cbn; rewrite length_fmap; by apply lookup_lt_Some in Ht).
    cbn in Hl. rewrite list_lookup_fmap in Hl. destruct (threads s2 !! tid) as [t2|]; [|done]. injection Hl as <-. by exists t2. }
  pose proof (flattenDestReg_fixed _ _ _ _ Hi2) as (_ & Hsn2 & _). pose proof (renameDestReg_fixed _ _ _ _ _ Hi3) as (_ & Hsn3 & _).
  apply flattenDestReg_dests in Hi2. apply renameDestReg_dests in Hi3 as [Hb Hi3]. rewrite Hi2 in Hb, Hi3.
  set (s3 := incr renameRenamedOperands (set_inst p i3 s2)) in *.
  destruct (IH (idx + 1) s3 i3 t2) as (i' & t' & young & Hi' & Ht' & Hhb & Hlow & Hw); [done|by cbn; rewrite lookup_insert_eq|done|lia|done|].
  cbn [thread_regs fst snd] in *. exists i', t', (young ++ [mkHistory (seqNum i2) u info.1 info.2]). unfold vsize in Hb.
  assert (_destRegIdx i' !! Z.to_nat idx = Some info.1) as Hthis by (rewrite Hlow, Hi3 by lia; apply list_lookup_insert_eq; lia).
  split_and!; try done.
  - by rewrite Hhb, Hh, <- app_assoc.
  - intros j Hj. rewrite Hlow, Hi3 by lia. apply list_lookup_insert_ne. lia.
  - rewrite abs_writes_app, rev_app_distr, Hw. rewrite (drop_S _ info.1 (Z.to_nat idx)) by done. rewrite dest_writes_cons.
    replace (Z.to_nat (idx + 1)) with (S (Z.to_nat idx)) by lia.
    assert (∀ l, omap (dest_write tid (renameMap t2) (seqNum i3)) l = omap (dest_write tid (renameMap t) (seqNum i)) l) as ->.
    { intros l. apply list_omap_ext, Forall2_same_length_lookup_2; [done|]. intros k a b Ha Hb'. rewrite Ha in Hb'. injection Hb' as <-.
      unfold dest_write. rewrite (dest_slot_zeros tid (renameMap t)) by done. by rewrite Hsn3, Hsn2. }
    f_equal. unfold dest_write. cbn [abs_writes changed newPhysReg prevPhysReg archReg instSeqNum fst snd]. unfold changed. cbn [newPhysReg prevPhysReg].
    destruct (dest_slot tid (renameMap t) d) as [[cl a]|]; cbn [mbind option_bind].
    + destruct Hslot as [Hne ->]. rewrite (proj2 (Z.eqb_neq _ _) Hne). cbn. by rewrite Hsn2.
    + by rewrite (proj2 (Z.eqb_eq _ _) Hslot).
Qed.

(** Renaming an instruction pushes one write for each of its destinations that has a slot. *)
Lemma rename_inst_writes p tid s s' i t :
  file_ok (regFile P) → regs_ok P (regs s) → heap s !! p = Some i → threads s !! threadNumber i = Some t → rename_inst P tid p s = Ok s' →
  ∃ i' x young, heap s' !! p = Some i' ∧ (regs s').2 !! threadNumber i = Some x ∧ x.2 = young ++ historyBuffer t ∧
    rev (abs_writes young) = omap (dest_write (threadNumber i) (renameMap t) (seqNum i)) (zip (destRegIdx (staticInst i)) (_destRegIdx i')).
Proof.
  intros Hf Hok Hi Ht Hr. unfold rename_inst in Hr. apply bind_ok in Hr as (i0 & Hi0%deref_ok & Hr). rewrite Hi in Hi0. injection Hi0 as <-.
  apply bind_ok in Hr as (s1 & H1 & Hr). apply bind_ok in Hr as (s2 & H2 & Hr). apply bind_ok in Hr as (s3 & H3 & Hr). apply bind_ok in Hr as (s4 & H4 & Hr).
  unfold renameSrcRegs in H1. apply bind_ok in H1 as (i0 & Hi0%deref_ok & H1). rewrite Hi in Hi0. injection Hi0 as <-.
  destruct (renameSrcRegs_from_keeps _ _ _ _ _ _ _ _ Hi H1) as (Hk1 & Ht1 & i1 & Hi1 & Hst & Hsn & _).
  unfold renameDestRegs in H2. apply bind_ok in H2 as (i0 & Hi0%deref_ok & H2). rewrite Hi1 in Hi0. injection Hi0 as <-. unfold keeps in Hk1. rewrite <- Hk1 in Hok.
  rewrite <- Ht1 in Ht. destruct (renameDestRegs_from_writes _ _ _ _ _ _ _ _ Hf Hok Hi1 Ht ltac:(done) H2) as (i' & t' & young & Hi' & Ht' & Hhb & _ & Hw).
  injection Hr as <-. exists i', (thread_regs t'), young. rewrite drop_0, Hsn, Hst in Hw. split_and!; try done.
  - cbn. rewrite <- Hi'. transitivity (heap s3 !! p); f_equal.
    + destruct (isStore _); [by apply upd_inv in H4 as (? & _ & ->)|by injection H4 as <-].
    + destruct (isLoad _); [by apply upd_inv in H3 as (? & _ & ->)|by injection H3 as <-].
  - assert (keeps s3 s4) as Hk4 by (destruct (isStore _); [by eapply upd_regs|by injection H4 as <-]).
    assert (keeps s2 s3) as Hk3 by (destruct (isLoad _); [by eapply upd_regs|by injection H3 as <-]).
    unfold keeps in Hk3, Hk4. rewrite <- (regs_lookup _ _ _ Ht'), <- Hk3, <- Hk4. done.
Qed.

(** ** Sources *)

(** Source register [u] is in physical register [r]. *)
Definition reads (tid : nat) (A : Arch) (u r : Z) : Prop :=
  ∃ cl rel, regIdxToClass u = Ok (cl, rel) ∧
    if decide (cl = MiscRegClass) then r = lookupMisc (regFile P) rel else arch_read A cl (flatten tid cl rel) = Some r.

Lemma lookup_simple_inv m a r : lookup_simple m a = Ok r → 0 ≤ a ∧ map m !! Z.to_nat a = Some r.
Proof. unfold lookup_simple. intros (_ & _ & [? ?]%vread_inv)%bind_ok. split; [lia|done]. Qed.

Lemma lookup_src_reads tid u s r s' t :
  regs_ok P (regs s) → threads s !! tid = Some t → lookup_src P tid u s = Ok (r, s') → reads tid (abs (thread_regs t)) u r.
Proof.
  intros [_ _ Hts] Ht Hr. rewrite Forall_lookup in Hts. destruct (Hts _ _ (regs_lookup _ _ _ Ht)) as [_ Hh]. cbn [fst snd thread_regs] in Hh.
  unfold lookup_src in Hr. apply bind_ok in Hr as (t0 & Ht0%deref_ok & Hr). rewrite Ht in Ht0. injection Ht0 as <-.
  apply bind_ok in Hr as ([cl rel] & Hcl & Hr). exists cl, rel. split; [done|].
  destruct cl; cbn [decide]; [..|by injection Hr as <- <-]; apply bind_ok in Hr as (r0 & Hr0 & Hr); injection Hr as <- <-;
    unfold lookupInt, lookupFloat, lookupCC in Hr0; apply bind_ok in Hr0 as (r1 & [Ha Hl]%lookup_simple_inv & Hr0); apply bind_ok in Hr0 as ([] & _ & Hr0);
    injection Hr0 as <-; case_decide; try done; unfold thread_regs; by rewrite <- read_correct.
Qed.

Lemma renameSrcReg_inv idx x i i' : renameSrcReg idx x i = Ok i' →
  0 ≤ idx < vsize (_srcRegIdx i) ∧ _srcRegIdx i' = <[Z.to_nat idx := x]> (_srcRegIdx i).
Proof. unfold renameSrcReg. intros (l & [? ->]%vwrite_inv & [= <-])%bind_ok. done. Qed.

Lemma markSrcRegReadyIdx_srcs idx i i' : markSrcRegReadyIdx idx i = Ok i' → _srcRegIdx i' = _srcRegIdx i.
Proof. unfold markSrcRegReadyIdx, markSrcRegReady. intros (l & _ & [= <-])%bind_ok. by case_match. Qed.

Lemma renameSrcRegs_from_reads p tid idx srcs s s' i t :
  regs_ok P (regs s) → threads s !! tid = Some t → heap s !! p = Some i → 0 ≤ idx → renameSrcRegs_from P p tid idx srcs s = Ok s' →
  ∃ i', heap s' !! p = Some i' ∧ (∀ j, (j < Z.to_nat idx)%nat → _srcRegIdx i' !! j = _srcRegIdx i !! j) ∧
    ∀ k u, srcs !! k = Some u → ∃ r, reads tid (abs (thread_regs t)) u r ∧ _srcRegIdx i' !! (Z.to_nat idx + k)%nat = Some r.
Proof.
  revert idx s i. induction srcs as [|u srcs IH]; intros idx s i Hok Ht Hi Hidx Hr; cbn [renameSrcRegs_from] in Hr.
  { injection Hr as <-. by exists i. }
  apply bind_ok in Hr as ([r s1] & Hl & Hr). pose proof (lookup_src_reads _ _ _ _ _ _ Hok Ht Hl) as Hreads. apply lookup_src_keeps in Hl as (Hk & Hh & Hth).
  apply bind_ok in Hr as (i1 & Hi1%deref_ok & Hr). rewrite Hh, Hi in Hi1. injection Hi1 as <-.
  apply bind_ok in Hr as (i2 & [Hb Hi2]%renameSrcReg_inv & Hr). apply bind_ok in Hr as (ready & _ & Hr). apply bind_ok in Hr as (i3 & Hi3 & Hr).
  assert (_srcRegIdx i3 = _srcRegIdx i2) as H32 by (destruct ready; [by eapply markSrcRegReadyIdx_srcs|by injection Hi3 as <-]).
  unfold keeps in Hk. unfold vsize in Hb. rewrite <- Hk in Hok.
  apply (IH _ _ i3) in Hr as (i' & Hi' & Hlow & Hhigh); [|done|cbn; by rewrite Hth|cbn; by rewrite lookup_insert_eq|lia].
  exists i'. split; [done|]. split.
  - intros j Hj. rewrite Hlow, H32, Hi2 by lia. apply list_lookup_insert_ne. lia.
  - intros [|k] u0 Hu0; cbn in Hu0.
    + injection Hu0 as <-. exists r. split; [done|]. rewrite Nat.add_0_r, Hlow, H32, Hi2 by lia. apply list_lookup_insert_eq. lia.
    + destruct (Hhigh k u0 Hu0) as (r0 & Hr0 & Hl0). exists r0. split; [done|]. rewrite <- Hl0. f_equal. lia.
Qed.

(** Renaming destinations leaves the sources. *)
Lemma renameDestRegs_from_srcs p tid idx dests s s' i :
  heap s !! p = Some i → renameDestRegs_from P p tid idx dests s = Ok s' → ∃ i', heap s' !! p = Some i' ∧ _srcRegIdx i' = _srcRegIdx i.
Proof.
  revert idx s i. induction dests as [|d dests IH]; intros idx s i Hi Hr; cbn [renameDestRegs_from] in Hr; [injection Hr as <-; by exists i|].
  apply bind_ok in Hr as ([[info u] s1] & Hd & Hr). assert (heap s1 = heap s) as Hh1.
  { unfold rename_dest in Hd. steps Hd; [..|done]; by match goal with H : set_map _ _ _ _ = Ok _ |- _ => apply upd_inv in H as (? & _ & ->) end. }
  apply bind_ok in Hr as (i1 & Hi1%deref_ok & Hr). rewrite Hh1, Hi in Hi1. injection Hi1 as <-.
  apply bind_ok in Hr as (i2 & Hi2 & Hr). apply bind_ok in Hr as (sb & _ & Hr). apply bind_ok in Hr as (s2 & _ & Hr). apply bind_ok in Hr as (i3 & Hi3 & Hr).
  apply (IH _ _ i3) in Hr as (i' & Hi' & Hs); [|cbn; by rewrite lookup_insert_eq]. exists i'. split; [done|]. rewrite Hs.
  unfold flattenDestReg in Hi2. apply bind_ok in Hi2 as (? & _ & [= <-]). unfold renameDestReg in Hi3.
  apply bind_ok in Hi3 as (? & _ & Hi3). by apply bind_ok in Hi3 as (? & _ & [= <-]).
Qed.

Lemma rename_inst_reads tid p s s' i t :
  regs_ok P (regs s) → heap s !! p = Some i → threads s !! threadNumber i = Some t → rename_inst P tid p s = Ok s' →
  ∃ i', heap s' !! p = Some i' ∧
    ∀ k u, srcRegIdx (staticInst i) !! k = Some u → ∃ r, reads (threadNumber i) (abs (thread_regs t)) u r ∧ _srcRegIdx i' !! k = Some r.
Proof.
  intros Hok Hi Ht Hr. unfold rename_inst in Hr. apply bind_ok in Hr as (i0 & Hi0%deref_ok & Hr). rewrite Hi in Hi0. injection Hi0 as <-.
  apply bind_ok in Hr as (s1 & H1 & Hr). apply bind_ok in Hr as (s2 & H2 & Hr). apply bind_ok in Hr as (s3 & H3 & Hr). apply bind_ok in Hr as (s4 & H4 & Hr).
  injection Hr as <-. unfold renameSrcRegs in H1. apply bind_ok in H1 as (i0 & Hi0%deref_ok & H1). rewrite Hi in Hi0. injection Hi0 as <-.
  apply (renameSrcRegs_from_reads _ _ _ _ _ _ i t) in H1 as (i1 & Hi1 & _ & Hreads); [|done..].
  unfold renameDestRegs in H2. apply bind_ok in H2 as (i0 & _ & H2). apply (renameDestRegs_from_srcs _ _ _ _ _ _ i1 Hi1) in H2 as (i2 & Hi2 & Hs2).
  exists i2. split; [|by rewrite Hs2]. cbn. rewrite <- Hi2. transitivity (heap s3 !! p); f_equal.
  - destruct (isStore _); [by apply upd_inv in H4 as (? & _ & ->)|by injection H4 as <-].
  - destruct (isLoad _); [by apply upd_inv in H3 as (? & _ & ->)|by injection H3 as <-].
Qed.

End arch.

(** ** The promises *)

(** An element of two parts of a concatenation occurs twice. *)
Lemma concat_disjoint {A} (l : list (list A)) i j a b x : NoDup (concat l) → i ≠ j → l !! i = Some a → l !! j = Some b → x ∈ a → x ∈ b → False.
Proof.
  revert i j. induction l as [|c l IH]; intros i j Hnd Hij Hi Hj Ha Hb; [done|]. cbn in Hnd. apply NoDup_app in Hnd as (_ & Hd & Hnd).
  assert (∀ k d, l !! k = Some d → x ∈ d → x ∈ concat l) as Hin by (intros k d Hk Hx; apply list_elem_of_In, in_concat; exists d;
    split; apply list_elem_of_In; [by eapply list_elem_of_lookup_2|done]).
  destruct i as [|i], j as [|j]; cbn in Hi, Hj; [done|..].
  - injection Hi as <-. by apply (Hd x); [|eapply Hin].
  - injection Hj as <-. by apply (Hd x); [|eapply Hin].
  - by apply (IH i j); try done; congruence.
Qed.

Section promises.
Context `{I : ISA} `{L : !ISALaws} {Fl : Flatten} (P : Params).

(** The states of a CPU whose threads were all set up by the constructor, up to the first time a
    context is halted: cycles of the stage, its reset, and what the rest of the CPU does in between,
    which leaves maps, histories and free lists alone.  Outside the stage and the constructor only
    [removeThread], which [haltContext] calls, and [insertThread], which nothing calls, change them;
    what [removeThread] does is the theorem of [O3Thread]. *)
Inductive reachable : Stage → Prop :=
  | reachable_init s maps fl : init_maps (regFile P) (numThreads P) (numThreads P) = Ok (maps, fl) →
      regs s = (fl, (λ x, (x.1, [])) <$> maps) → reachable s
  | reachable_tick w s s' : reachable s → tick P w s = Ok s' → reachable s'
  | reachable_reset free s : reachable s → reachable (resetStage P free s)
  | reachable_other s s' : reachable s → keeps s s' → reachable s'.

Lemma reachable_ok s : file_ok (regFile P) → totalNumRegs (regFile P) < 2 ^ 15 → reachable s → regs_ok P (regs s).
Proof.
  intros Hf Ht. induction 1 as [s maps fl Hm Hs|w s s' _ IH Hr|free s _ IH|s s' _ IH Hk].
  - pose proof Hm as Hm'. unfold init_maps in Hm'. apply bind_ok in Hm' as ([] & H1%assert_ok%Z.leb_le & Hm').
    apply bind_ok in Hm' as ([] & H2%assert_ok%Z.leb_le & Hm'). apply bind_ok in Hm' as ([] & H3%assert_ok%Z.leb_le & _).
    destruct (init_maps_spec P (numThreads P) Hf Ht H1 H2 H3) as (maps' & fl' & Hm2 & _ & _ & Hok). rewrite Hm in Hm2. injection Hm2 as <- <-. by rewrite Hs.
  - by eapply tick_safe.
  - assert (regs (resetStage P free s) = regs s) as ->; [|done]. unfold regs. cbn. f_equal. apply list_eq. intros i.
    rewrite !list_lookup_fmap, list_lookup_imap. destruct (threads s !! i); cbn; [|done]. by case_bool_decide.
  - unfold keeps in Hk. by rewrite Hk.
Qed.


Lemma split_unique sn (a b a' b' : list RenameHistory) :
  a ++ b = a' ++ b' → Forall (λ h, sn < instSeqNum h) a → (∀ h, head b = Some h → instSeqNum h ≤ sn) →
  Forall (λ h, sn < instSeqNum h) a' → (∀ h, head b' = Some h → instSeqNum h ≤ sn) → a = a' ∧ b = b'.
Proof.
  revert a'. induction a as [|h a IH]; intros [|h' a'] Heq Ha Hb Ha' Hb'; cbn in Heq; [done|..].
  - subst b. apply Forall_cons in Ha' as [Hh _]. specialize (Hb h' eq_refl). lia.
  - subst b'. apply Forall_cons in Ha as [Hh _]. specialize (Hb' h eq_refl). lia.
  - injection Heq as <- Heq. apply Forall_cons in Ha as [_ Ha]. apply Forall_cons in Ha' as [_ Ha']. destruct (IH a' Heq Ha Hb Ha' Hb') as [-> ->]. done.
Qed.

(** C11: a squash undoes renaming: when the loop has renamed some of the instructions of a
    thread's queue, all younger than [sn], and a squash to [sn] follows, the squash succeeds, the
    rename maps and histories of all threads are what they were before the loop, and the free
    lists hold the same registers. *)
Theorem squash_undoes_renames w u tid n k s n' k' s1 t sn :
  file_ok (regFile P) → regs_ok P (regs s) → threads s !! tid = Some t →
  Forall (λ p, ∃ i, heap s !! p = Some i ∧ threadNumber i = tid ∧ sn < seqNum i) (queue u t) →
  (∀ h, head (historyBuffer t) = Some h → instSeqNum h ≤ sn) → rename_loop P w u tid n k s = Ok (n', k', s1) →
  ∃ s2, doSquash P sn tid s1 = Ok s2 ∧ thread_regs <$> threads s2 = thread_regs <$> threads s ∧
    free_regs (freeList s2) ≡ₚ free_regs (freeList s).
Proof.
  intros Hf Hok Ht Hq Hhd Hr. destruct (rename_loop_spec P w Hf u tid n k s n' k' s1 t Hok Ht) as (sent & stalled & rest & Heq & Hrel); [|done|].
  { eapply Forall_impl; [exact Hq|]. intros p (i & Hi & Hti & _). by exists i. }
  destruct Hrel as [_ _ _ (t1 & Ht1 & _) Hok1 (x & x' & Hx & Hx' & (young & Hy & Hyq & Hund))].
  rewrite (regs_lookup _ _ _ Ht) in Hx. injection Hx as <-. pose proof (regs_lookup _ _ _ Ht1) as Hl1. rewrite Hx' in Hl1.
  rewrite list_lookup_insert_eq in Hl1 by (by apply lookup_lt_Some in Ht; cbn; rewrite length_fmap). injection Hl1 as ->. cbn [fst snd thread_regs] in *.
  destruct (doSquash_spec P sn tid s1 t1 Hf Hok1 Ht1) as (s2 & t2 & Hsq & Hts & (young' & old & Hhb & Hy' & Ho & ->) & Hok2 & _).
  destruct (split_unique sn young (historyBuffer t) young' old) as [<- <-]; try done; [congruence| |].
  { eapply Forall_impl; [exact Hyq|]. cbn. intros h (p & Hp & Hpq). rewrite Forall_forall in Hq.
    destruct (Hq p) as (i & Hi & _ & Hlt); [rewrite Heq; set_solver|]. unfold seq_of in Hpq. rewrite Hi in Hpq. cbn in Hpq. by injection Hpq as <-. }
  assert (thread_regs <$> threads s2 = thread_regs <$> threads s) as Hregs.
  { rewrite Hts, list_fmap_insert. change (thread_regs <$> threads s1) with (regs s1).2. rewrite Hx', list_insert_insert_eq.
    unfold thread_regs at 1. cbn. rewrite Hund. apply list_insert_id. by rewrite list_lookup_fmap, Ht. }
  exists s2. split_and!; [done|done|]. destruct Hok as [Hp _ _], Hok2 as [Hp2 _ _]. cbn in Hp, Hp2. rewrite Hregs, <- Hp in Hp2.
  by apply Permutation_app_inv_r in Hp2.
Qed.

(** C4: the rename map, history buffer and free lists of a thread implement an assignment of
    registers to the committed state with a list of writes in flight.  The map holds, for every
    register, the physical register of the last write in flight, or the committed one.  A squash
    to [sn] drops the writes of younger instructions and gives their registers to the free lists;
    a commit of [sn] applies those of older ones to the committed state and gives the registers
    they replace to the free lists; both succeed.  Renaming an instruction adds exactly one write
    for each of its destinations, in their order, except for zero and miscellaneous registers: a
    write of that instruction to the flattened register of that class, whose physical register is
    the one the instruction records for this destination; these registers are taken off the free
    lists, and nothing else changes. *)
Theorem rename_implements_writes tid s t :
  file_ok (regFile P) → regs_ok P (regs s) → threads s !! tid = Some t → in_order (historyBuffer t) →
  (∀ cl rel, 0 ≤ rel → cmap cl (renameMap t) !! Z.to_nat rel = arch_read (abs (thread_regs t)) cl rel) ∧
  (∀ sn, ∃ s' t', doSquash P sn tid s = Ok s' ∧ threads s' = <[tid := t']> (threads s) ∧ abs (thread_regs t') = arch_squash sn (abs (thread_regs t)) ∧
     free_regs (freeList s') ≡ₚ squash_frees sn (abs (thread_regs t)) ++ free_regs (freeList s)) ∧
  (∀ sn, ∃ s' t', removeFromHistory P sn tid s = Ok s' ∧ threads s' = <[tid := t']> (threads s) ∧ abs (thread_regs t') = arch_commit sn (abs (thread_regs t)) ∧
     free_regs (freeList s') ≡ₚ commit_frees sn (abs (thread_regs t)) ++ free_regs (freeList s)) ∧
  (∀ p i s', heap s !! p = Some i → threadNumber i = tid → rename_inst P tid p s = Ok s' → ∃ i' x ws,
     heap s' !! p = Some i' ∧ thread_regs <$> threads s' = <[tid := x]> (thread_regs <$> threads s) ∧
     abs x = mkArch (committedMap (abs (thread_regs t))) (ws ++ writes (abs (thread_regs t))) ∧
     rev ws = omap (dest_write tid (renameMap t) (seqNum i)) (zip (destRegIdx (staticInst i)) (_destRegIdx i')) ∧
     free_regs (freeList s) ≡ₚ (wphys <$> ws) ++ free_regs (freeList s')).
Proof.
  intros Hf Hok Ht Ho. pose proof Hok as [_ _ Hts]. rewrite Forall_lookup in Hts. destruct (Hts _ _ (regs_lookup _ _ _ Ht)) as [_ Hh]. cbn [fst snd thread_regs] in Hh.
  split_and!.
  - intros cl rel Hrel. by apply (read_correct P).
  - intros sn. destruct (doSquash_spec P sn tid s t Hf Hok Ht) as (s' & t' & Hr & Hth & Hsq & _ & young & Hy & Hfr). exists s', t'.
    split_and!; try done; [by apply abs_squash|]. by rewrite <- (squash_freed P sn t t' young).
  - intros sn. destruct (removeFromHistory_spec P sn tid s t Hf Hok Ht) as (s' & t' & Hr & Hth & Hc & _ & old & Ho' & Hfr). exists s', t'.
    split_and!; try done; [by eapply abs_commit|]. by rewrite <- (commit_freed P sn t t' old).
  - intros p i s' Hi <- Hr. destruct (rename_inst_spec P Hf _ p s s' i Hok Hi Hr) as [Hok' Hren]. destruct Hren as (x & x' & Hx & Hx' & Hext); [by exists t|].
    destruct (extends_writes P _ _ _ _ _ _ Hok Hok' Hx Hx' Hext) as (young & Hy & Hab & Hfree). rewrite (regs_lookup _ _ _ Ht) in Hx. injection Hx as <-.
    destruct (rename_inst_writes P _ _ _ _ _ _ Hf Hok Hi Ht Hr) as (i' & x & young' & Hi' & Hx & Hy' & Hw). rewrite Hx' in Hx.
    rewrite list_lookup_insert_eq in Hx by (by apply lookup_lt_Some in Ht; cbn; rewrite length_fmap). injection Hx as <-.
    cbn [snd thread_regs] in Hy. rewrite Hy in Hy'. apply app_inv_tail in Hy' as <-. by exists i', x', (abs_writes young).
Qed.

(** C15: every source of a renamed instruction is the physical register of the last write before
    it: of an older instruction in flight that writes the same register - never of the
    instruction itself, whose destinations are renamed after its sources - or, when there is none,
    the committed register; miscellaneous registers have fixed indices after the last physical
    register. *)
Theorem sources_read_last_write tid p s s' i t :
  regs_ok P (regs s) → heap s !! p = Some i → threads s !! threadNumber i = Some t → rename_inst P tid p s = Ok s' →
  ∃ i', heap s' !! p = Some i' ∧
    ∀ k u, srcRegIdx (staticInst i) !! k = Some u → ∃ cl rel r, regIdxToClass u = Ok (cl, rel) ∧ _srcRegIdx i' !! k = Some r ∧
      (cl = MiscRegClass → r = lookupMisc (regFile P) rel) ∧
      (cl ≠ MiscRegClass → arch_read (abs (thread_regs t)) cl (flatten (threadNumber i) cl rel) = Some r).
Proof.
  intros Hok Hi Ht Hr. destruct (rename_inst_reads P tid p s s' i t Hok Hi Ht Hr) as (i' & Hi' & Hreads). exists i'. split; [done|].
  intros k u Hk. destruct (Hreads k u Hk) as (r & (cl & rel & Hcl & Hread) & Hl). exists cl, rel, r. split_and!; try done; intros Hc.
  - by rewrite decide_True in Hread.
  - by rewrite decide_False in Hread.
Qed.

(** C39: the rename loop loses and reorders nothing: the instructions that leave the thread's
    queue are its front, those among them that are not squashed go to the issue stage in order,
    the count returned is theirs, and what remains stays in the queue; the only other instruction
    to leave it is one that has to wait for an empty pipeline, which is kept as the serializing
    instruction of the thread with the stage stalled on it. *)
Theorem rename_loop_in_order w u tid n k s n' k' s' t :
  file_ok (regFile P) → regs_ok P (regs s) → threads s !! tid = Some t →
  Forall (λ p, ∃ i, heap s !! p = Some i ∧ threadNumber i = tid) (queue u t) → rename_loop P w u tid n k s = Ok (n', k', s') →
  ∃ sent stalled t', threads s' !! tid = Some t' ∧ queue u t = sent ++ stalled ++ queue u t' ∧
    toIEW s' = toIEW s ++ List.filter (live s) sent ∧ k' - k = Z.of_nat (length (List.filter (live s) sent)) ∧
    (stalled = [] ∨ ∃ p, stalled = [p] ∧ serializeInst t' = Some p ∧ renameStatus t' = SerializeStall).
Proof.
  intros Hf Hok Ht Hq Hr. destruct (rename_loop_spec P w Hf u tid n k s n' k' s' t Hok Ht Hq Hr) as (sent & stalled & rest & Heq & [_ Hi Hk (t' & Ht' & <- & Hst) _ _]).
  by exists sent, stalled, t'.
Qed.

(** The assertion of [rename] on the zero register. *)
Lemma rename_zero_fails m fl a x : a = zeroReg m → 0 ≤ a → map m !! Z.to_nat a = Some x → x ≠ a → rename_simple m fl a = Fail AssertFailed.
Proof.
  intros Ha H0 Hx Hne. unfold rename_simple. pose proof (lookup_lt_Some _ _ _ Hx). destruct (vread_ok (map m) a) as (y & -> & Hy); [unfold vsize; lia|].
  rewrite Hx in Hy. injection Hy as <-. cbn [mbind res_bind]. rewrite (proj2 (Z.eqb_eq a (zeroReg m)) Ha). cbn [negb]. rewrite <- Ha. by rewrite (proj2 (Z.eqb_neq x a) Hne).
Qed.

(** C37: a write to the zero register cannot be renamed everywhere.  [rename] asserts that the zero
    register is mapped to the physical register of the same number; physical registers are not
    shared, so of any two threads at least one fails the assertion for the integer zero register;
    and as floating-point registers are numbered after the integer ones, a floating-point zero
    register (which Alpha has) fails it in every thread. *)
Theorem zero_register_rename_fails s i j ti tj z fl :
  file_ok (regFile P) → regs_ok P (regs s) → threads s !! i = Some ti → threads s !! j = Some tj → i ≠ j → 0 ≤ z < NumIntRegs →
  zeroReg (intMap (renameMap ti)) = z → zeroReg (intMap (renameMap tj)) = z →
  (renameInt (regFile P) (renameMap ti) fl z = Fail AssertFailed ∨ renameInt (regFile P) (renameMap tj) fl z = Fail AssertFailed) ∧
  (z < NumFloatRegs → z < baseFloatRegIndex (regFile P) → zeroReg (floatMap (renameMap ti)) = z →
   renameFloat (regFile P) (renameMap ti) fl z = Fail AssertFailed).
Proof.
  intros Hf [Hp _ Hts] Hi Hj Hij Hz Hzi Hzj. rewrite Forall_lookup in Hts.
  destruct (Hts _ _ (regs_lookup _ _ _ Hi)) as [Hmi _]. destruct (Hts _ _ (regs_lookup _ _ _ Hj)) as [Hmj _]. cbn [fst thread_regs] in Hmi, Hmj.
  assert (∀ m, map_ok P m → ∃ x, map (intMap m) !! Z.to_nat z = Some x) as Hint.
  { intros m Hm. destruct (Hm IntRegClass) as [Hl _]. cbn in Hl. apply lookup_lt_is_Some. lia. }
  split.
  - destruct (Hint _ Hmi) as [x Hx], (Hint _ Hmj) as [y Hy].
    assert (x ≠ y) as Hne.
    { intros <-. pose proof (NoDup_seqZ 0 (totalNumRegs (regFile P))) as Hnd. rewrite <- Hp in Hnd. apply NoDup_app in Hnd as (_ & _ & Hnd).
      assert (∀ t k, threads s !! k = Some t → map (intMap (renameMap t)) !! Z.to_nat z = Some x → ∃ o, (owned <$> (regs s).2) !! k = Some o ∧ x ∈ o) as Hown.
      { intros t k Hk Ht. exists (owned (thread_regs t)). rewrite list_lookup_fmap, (regs_lookup _ _ _ Hk). split; [done|].
        apply list_elem_of_lookup_2 in Ht. unfold owned, mapped. cbn. set_solver. }
      destruct (Hown _ _ Hi Hx) as (oi & Hoi & Hxi), (Hown _ _ Hj Hy) as (oj & Hoj & Hxj). exact (concat_disjoint _ _ _ _ _ x Hnd Hij Hoi Hoj Hxi Hxj). }
    destruct (decide (x = z)) as [->|Hxz]; [right|left]; unfold renameInt.
    + by rewrite (rename_zero_fails _ _ z y) by (done || lia).
    + by rewrite (rename_zero_fails _ _ z x) by (done || lia).
  - intros Hzf Hzb Hzz. destruct (Hmi FloatRegClass) as [Hl Hall]. cbn in Hl, Hall. destruct (lookup_lt_is_Some_2 (map (floatMap (renameMap ti))) (Z.to_nat z)) as [x Hx]; [lia|].
    pose proof (Forall_lookup_1 _ _ _ _ Hall Hx) as Hpx. cbn in Hpx. unfold renameFloat. by rewrite (rename_zero_fails _ _ z x) by (done || lia).
Qed.

End promises.

(** ** A small CPU *)

#[local] Existing Instance AlphaISA.
#[local] Instance demo_flatten : Flatten := λ _ _ r, r.

Definition demo_params : Params := mkParams 4 16 1 (newPhysRegFile 48 40 0).
Definition demo_static (srcs dests : list Z) : StaticInst := mkStaticInst srcs dests (Z.of_nat (length dests)) 0 0 false false false false false false.
Definition demo_inst (seq : Z) (srcs dests : list Z) : DynInst :=
  mkDynInst (demo_static srcs dests) seq 0 (mkInstStatus false false false false false false false false) ((λ _, 0) <$> srcs) ((λ _, false) <$> srcs) 0 ((λ _, 0) <$> dests) ((λ _, 0) <$> dests) ((λ _, 0) <$> dests).

(** The second instruction reads what the first one writes. *)
Definition demo_heap : gmap positive DynInst := {[1%positive := demo_inst 5 [1; 2] [3]; 2%positive := demo_inst 6 [3; 1] [3]]}.

Definition demo_thread (m : UnifiedRenameMap) : Thread :=
  mkThread Running [] [1%positive; 2%positive] [] m 0 0 0 (mkFreeEntries 32 32 16 16) true false None false.
Definition demo : Stage :=
  match init_maps (regFile demo_params) 1 1 with
  | Ok (maps, fl) =>
      mkStage Inactive (demo_thread ∘ fst <$> maps) fl (Scoreboard.newScoreboard 88 79 31 79) false false false false 0 [] [false] [false] demo_heap (λ _, 0) []
  | Fail _ => mkStage Inactive [] (mkFreeList [] [] []) (Scoreboard.newScoreboard 0 0 0 0) false false false false 0 [] [] [] ∅ (λ _, 0) []
  end.
Definition demo_wires : Wires :=
  mkWires [] (λ _, mkIewInfo 0 0 0 0 0 0 false false false false) (λ _, mkCommitInfo 0 0 false false true) [0%nat].

Definition run {A} (d : A) (r : res A) : A := match r with Ok x => x | Fail _ => d end.
Definition is_ok {A} (r : res A) : bool := match r with Ok _ => true | Fail _ => false end.

Lemma demo_runs {A} (d : A) r : is_ok r = true → r = Ok (run d r).
Proof. by destruct r. Qed.

Definition demo_ticked : Stage := run demo (tick demo_params demo_wires demo).
Definition demo_loop : nat * Z * Stage := run (0%nat, 0, demo) (rename_loop demo_params demo_wires false 0 2 0 demo).
Definition demo_looped : Stage := demo_loop.2.

Lemma demo_file : file_ok (regFile demo_params).
Proof. split; vm_compute; by intros. Qed.

Lemma demo_reachable : reachable demo_params demo.
Proof. eapply reachable_init; vm_compute; reflexivity. Qed.

Lemma demo_ok : regs_ok demo_params (regs demo).
Proof. apply reachable_ok; [apply demo_file|by vm_compute|apply demo_reachable]. Qed.

Definition demo_thread0 : Thread := default (demo_thread (init 0 0)) (threads demo !! 0%nat).

Lemma demo_queue : queue false demo_thread0 = [1%positive; 2%positive] ∧ heap demo = demo_heap.
Proof. split; vm_compute; reflexivity. Qed.

Lemma demo_loop_ok : rename_loop demo_params demo_wires false 0 2 0 demo = Ok (demo_loop.1.1, demo_loop.1.2, demo_looped).
Proof.
  assert (rename_loop demo_params demo_wires false 0 2 0 demo = Ok demo_loop) as -> by (unfold demo_loop; apply demo_runs; vm_compute; reflexivity).
  unfold demo_looped. by destruct demo_loop as [[??]?].
Qed.


Lemma squash_undoes_renames_witness :
  historyBuffer <$> threads demo_looped ≠ [[]] ∧
  ∃ s2, doSquash demo_params 4 0 demo_looped = Ok s2 ∧ thread_regs <$> threads s2 = thread_regs <$> threads demo.
Proof.
  split; [by vm_compute|].
  destruct (squash_undoes_renames demo_params demo_wires false 0 2 0 demo demo_loop.1.1 demo_loop.1.2 demo_looped demo_thread0 4) as (s2 & H1 & H2 & _).
  - apply demo_file.
  - apply demo_ok.
  - vm_compute. reflexivity.
  - destruct demo_queue as [-> ->]. constructor; [exists (demo_inst 5 [1; 2] [3])|constructor; [exists (demo_inst 6 [3; 1] [3])|constructor]];
      (split; [vm_compute; reflexivity|split; [reflexivity|by vm_compute]]).
  - by vm_compute.
  - apply demo_loop_ok.
  - exists s2. split; [exact H1|exact H2].
Defined.

Lemma rename_implements_writes_witness :
  cmap IntRegClass (renameMap demo_thread0) !! 3%nat = arch_read (abs (thread_regs demo_thread0)) IntRegClass 3 ∧
  ∃ x, thread_regs <$> threads (run demo (rename_inst demo_params 0 1 demo)) = <[0%nat := x]> (thread_regs <$> threads demo) ∧
    writes (abs x) = [mkWrite 5 IntRegClass 3 40].
Proof.
  destruct (rename_implements_writes demo_params 0 demo demo_thread0) as (H & _ & _ & Hren).
  - apply demo_file.
  - apply demo_ok.
  - vm_compute. reflexivity.
  - vm_compute. constructor.
  - split; [apply (H IntRegClass 3); by vm_compute|].
    destruct (Hren 1%positive (demo_inst 5 [1; 2] [3]) (run demo (rename_inst demo_params 0 1 demo))) as (i' & x & ws & Hi & Hx & Hw & Hd & _).
    + vm_compute. reflexivity.
    + reflexivity.
    + apply demo_runs. vm_compute. reflexivity.
    + exists x. split; [exact Hx|]. rewrite Hw. vm_compute in Hi. injection Hi as <-.
      assert (ws = [mkWrite 5 IntRegClass 3 40]) as -> by (rewrite <- (rev_involutive ws), Hd; vm_compute; reflexivity). vm_compute. reflexivity.
Defined.

Lemma sources_read_last_write_witness :
  ∃ i', heap (run demo (rename_inst demo_params 0 1 demo)) !! 1%positive = Some i' ∧ _srcRegIdx i' = [1; 2].
Proof.
  destruct (sources_read_last_write demo_params 0 1 demo (run demo (rename_inst demo_params 0 1 demo)) (demo_inst 5 [1; 2] [3]) demo_thread0) as (i' & Hi & _).
  - apply demo_ok.
  - vm_compute. reflexivity.
  - vm_compute. reflexivity.
  - apply demo_runs. vm_compute. reflexivity.
  - exists i'. split; [exact Hi|]. vm_compute in Hi. injection Hi as <-. reflexivity.
Defined.

Lemma rename_loop_in_order_witness : toIEW demo_looped = [1%positive; 2%positive] ∧ ∃ sent stalled t', threads demo_looped !! 0%nat = Some t' ∧ queue false demo_thread0 = sent ++ stalled ++ queue false t'.
Proof.
  split; [vm_compute; reflexivity|].
  destruct (rename_loop_in_order demo_params demo_wires false 0 2 0 demo demo_loop.1.1 demo_loop.1.2 demo_looped demo_thread0) as (sent & stalled & t' & H1 & H2 & _).
  - apply demo_file.
  - apply demo_ok.
  - vm_compute. reflexivity.
  - destruct demo_queue as [-> ->]. constructor; [exists (demo_inst 5 [1; 2] [3])|constructor; [exists (demo_inst 6 [3; 1] [3])|constructor]];
      (split; [vm_compute; reflexivity|reflexivity]).
  - apply demo_loop_ok.
  - exists sent, stalled, t'. split; [exact H1|exact H2].
Defined.

(** Two threads. *)
Definition demo2_params : Params := mkParams 4 16 2 (newPhysRegFile 96 80 0).
Definition demo2 : Stage :=
  match init_maps (regFile demo2_params) 2 2 with
  | Ok (maps, fl) =>
      mkStage Inactive (demo_thread ∘ fst <$> maps) fl (Scoreboard.newScoreboard 176 79 31 127) false false false false 0 [] [false; false] [false; false] demo_heap (λ _, 0) []
  | Fail _ => demo
  end.

Lemma zero_register_rename_fails_witness :
  ∃ t0 t1, threads demo2 = [t0; t1] ∧
    (renameInt (regFile demo2_params) (renameMap t0) (freeList demo2) 31 = Fail AssertFailed ∨
     renameInt (regFile demo2_params) (renameMap t1) (freeList demo2) 31 = Fail AssertFailed) ∧
    renameFloat (regFile demo2_params) (renameMap t0) (freeList demo2) 31 = Fail AssertFailed.
Proof.
  eexists _, _. split; [vm_compute; reflexivity|].
  assert (file_ok (regFile demo2_params)) as Hf by (split; vm_compute; by intros).
  assert (regs_ok demo2_params (regs demo2)) as Hok by (apply reachable_ok; [exact Hf|by vm_compute|eapply reachable_init; vm_compute; reflexivity]).
  destruct (zero_register_rename_fails demo2_params demo2 0 1 (default demo_thread0 (threads demo2 !! 0%nat)) (default demo_thread0 (threads demo2 !! 1%nat)) 31 (freeList demo2) Hf Hok)
    as [H1 H2]; [vm_compute; reflexivity|vm_compute; reflexivity|done|by vm_compute|vm_compute; reflexivity|vm_compute; reflexivity|].
  split; [exact H1|]. apply H2; by vm_compute.
Defined.

End O3RenameSpec.
