(* ===== verification/O3Thread.v ===== *)
(** * Removing a thread from the CPU

    The part of [FullO3CPU::removeThread] (src/gem5/src/cpu/o3/cpu.cc) that works on the rename
    map, the scoreboard and the free lists: the three loops that unbind the registers of the thread
    and the squash of the rename stage that follows them.  [haltContext] is its only caller; the
    states [O3RenameSpec.reachable] describes are those before a context is halted.  The squashes
    of the other stages do not touch the rename map or the free lists and are left out; the
    sequence number they share, that of the head of the reorder buffer, is an argument.

    The theorem is the double free that the comment in the code speaks of. *)

From S2P Require Import Prelude O3Regs O3Rename O3RenameProofs O3RenameSpec.

Open Scope Z_scope.

Module O3Thread.
Import O3Regs RenameMap O3Rename O3RenameProofs O3RenameSpec.

Section thread.
Context `{I : ISA} {Fl : Flatten} (P : Params) (w : Wires).

(** The body of the loops. *)
Definition unbind (tid : nat) (reg : Z) (s : Stage) : res Stage :=
  t ← get tid s;
  phys_reg ← lookup (regFile P) (renameMap t) (RegIndex reg);
  sb ← Scoreboard.unsetReg (scoreboard s) phys_reg;
  fl ← addReg (regFile P) phys_reg (freeList s);
  Ok (with_freeList fl (with_scoreboard sb s)).

(** A loop over [n] registers from [reg]. *)
Fixpoint unbind_from (tid : nat) (n : nat) (reg : Z) (s : Stage) : res Stage :=
  match n with
  | O => Ok s
  | S n => s ← unbind tid reg s; unbind_from tid n (reg + 1) s
  end.

Definition removeThread (squash_seq_num : Z) (tid : nat) (s : Stage) : res Stage :=
  s ← unbind_from tid (Z.to_nat NumIntRegs) 0 s;
  s ← unbind_from tid (Z.to_nat NumFloatRegs) FP_Reg_Base s;
  s ← unbind_from tid (Z.to_nat NumCCRegs) CC_Reg_Base s;
  squash P w squash_seq_num tid s.

Context `{L : !ISALaws}.

(** A register of the map is found, and put on the free lists. *)
Lemma unbind_frees tid cl rel s s' t r :
  file_ok (regFile P) → threads s !! tid = Some t → map_ok P (renameMap t) → cl ≠ MiscRegClass → 0 ≤ rel →
  cmap cl (renameMap t) !! Z.to_nat rel = Some r → unbind tid (base cl + rel) s = Ok s' →
  threads s' = threads s ∧ free_regs (freeList s') ≡ₚ r :: free_regs (freeList s).
Proof.
  intros Hf Ht Hm Hcl Hrel Hr Hu. destruct (Hm cl) as [Hlen Hall]. pose proof (lookup_lt_Some _ _ _ Hr) as Hlt.
  assert (0 ≤ rel < num_regs cl) as Hb by lia. destruct (slot_base cl rel Hcl Hb) as [Hs _]. pose proof (Forall_lookup_1 _ _ _ _ Hall Hr) as Hp.
  assert (RegIndex (base cl + rel) = base cl + rel) as Hw.
  { pose proof int_regs. pose proof float_regs. pose proof cc_regs. pose proof misc_regs. pose proof reg_bits.
    apply wrap_small. unfold in_width. destruct cl; cbn [base num_regs] in *; lia. }
  unfold unbind in Hu. apply bind_ok in Hu as (t0 & Ht0%deref_ok & Hu). rewrite Ht in Ht0. injection Ht0 as <-.
  apply bind_ok in Hu as (r' & Hl & Hu). apply bind_ok in Hu as (sb & _ & Hu). apply bind_ok in Hu as (fl & Hfl & [= <-]).
  assert (r' = r) as ->.
  { unfold lookup in Hl. rewrite Hw, Hs in Hl. cbn [mbind res_bind] in Hl. unfold lookupInt, lookupFloat, lookupCC in Hl.
    destruct cl; [..|done]; apply bind_ok in Hl as (r1 & [_ Hl1]%lookup_simple_inv & (? & _ & [= <-])%bind_ok); cbn in Hr; congruence. }
  rewrite (addReg_ok P cl) in Hfl by done. injection Hfl as <-. split; [done|]. by apply free_regs_add.
Qed.

Lemma unbind_from_frees tid cl n s s' t :
  file_ok (regFile P) → threads s !! tid = Some t → map_ok P (renameMap t) → cl ≠ MiscRegClass → (n ≤ length (cmap cl (renameMap t)))%nat →
  unbind_from tid n (base cl + (num_regs cl - Z.of_nat n)) s = Ok s' →
  threads s' = threads s ∧
  free_regs (freeList s') ≡ₚ drop (length (cmap cl (renameMap t)) - n) (cmap cl (renameMap t)) ++ free_regs (freeList s).
Proof.
  intros Hf Ht Hm Hcl. revert s Ht. induction n as [|n IH]; intros s Ht Hn Hr; cbn [unbind_from] in Hr.
  { injection Hr as <-. by rewrite Nat.sub_0_r, drop_all. }
  destruct (Hm cl) as [Hlen _]. apply bind_ok in Hr as (s1 & Hu & Hr).
  destruct (lookup_lt_is_Some_2 (cmap cl (renameMap t)) (length (cmap cl (renameMap t)) - S n)) as [r Hrl]; [lia|].
  assert (Z.to_nat (num_regs cl - Z.of_nat (S n)) = (length (cmap cl (renameMap t)) - S n)%nat) as Hi by lia.
  destruct (unbind_frees tid cl (num_regs cl - Z.of_nat (S n)) s s1 t r Hf Ht Hm Hcl ltac:(lia) ltac:(by rewrite Hi) Hu) as [Hts Hfr].
  replace (base cl + (num_regs cl - Z.of_nat (S n)) + 1) with (base cl + (num_regs cl - Z.of_nat n)) in Hr by lia.
  rewrite <- Hts in Ht. destruct (IH s1 Ht ltac:(lia) Hr) as [Hts' Hfr']. split; [congruence|].
  rewrite (drop_S _ r) by done. replace (S (length (cmap cl (renameMap t)) - S n)) with (length (cmap cl (renameMap t)) - n)%nat by lia.
  rewrite Hfr', Hfr. cbn. by rewrite Permutation_middle.
Qed.

(** A loop puts all registers of a class on the free lists. *)
Lemma unbind_class tid cl s s' t :
  file_ok (regFile P) → threads s !! tid = Some t → map_ok P (renameMap t) → cl ≠ MiscRegClass →
  unbind_from tid (Z.to_nat (num_regs cl)) (base cl) s = Ok s' →
  threads s' = threads s ∧ free_regs (freeList s') ≡ₚ cmap cl (renameMap t) ++ free_regs (freeList s).
Proof.
  intros Hf Ht Hm Hcl Hr. destruct (Hm cl) as [Hlen _]. assert (Z.to_nat (num_regs cl) = length (cmap cl (renameMap t))) as Hn by lia.
  rewrite Hn in Hr. replace (base cl) with (base cl + (num_regs cl - Z.of_nat (length (cmap cl (renameMap t))))) in Hr by lia.
  apply (unbind_from_frees _ _ _ _ _ t) in Hr; [|done..]. by rewrite Nat.sub_diag, drop_0 in Hr.
Qed.

(** The squash of the stage, whatever is on the free lists. *)
Lemma squash_frees_news sn tid s s' t :
  file_ok (regFile P) → threads s !! tid = Some t → map_ok P (renameMap t) → hist_ok P (renameMap t) (historyBuffer t) →
  squash P w sn tid s = Ok s' →
  ∃ t0 t' young, threads s' !! tid = Some t' ∧ thread_regs t0 = thread_regs t ∧ squashed sn t0 t' ∧
    historyBuffer t = young ++ historyBuffer t' ∧ free_regs (freeList s') ≡ₚ news young ++ free_regs (freeList s).
Proof.
  intros Hf Ht Hm Hh Hr. unfold squash in Hr. apply bind_ok in Hr as (s1 & H1%squash_stall_regs & Hr).
  apply bind_ok in Hr as (s2 & H2 & Hr). apply upd_regs in H2; [|done]. apply bind_ok in Hr as (s3 & H3%squash_decode_regs & Hr).
  apply bind_ok in Hr as (s4 & H4 & Hr). apply upd_regs in H4; [|done].
  assert (regs s4 = regs s) as Hk by (unfold keeps in *; congruence).
  assert (∃ t0, threads s4 !! tid = Some t0 ∧ thread_regs t0 = thread_regs t) as (t0 & Ht0 & Hreg).
  { apply (regs_lookup _ _ _) in Ht. rewrite <- Hk in Ht. cbn in Ht. rewrite list_lookup_fmap in Ht.
    destruct (threads s4 !! tid) as [t0|]; [|done]. injection Ht as H1' H2'. exists t0. split; [done|]. unfold thread_regs. congruence. }
  assert (renameMap t0 = renameMap t ∧ historyBuffer t0 = historyBuffer t) as [Hrm Hhb] by (by injection Hreg).
  assert (freeList s4 = freeList s) as Hfl by (by injection Hk).
  unfold doSquash, get in Hr. rewrite Ht0 in Hr. cbn [deref mbind res_bind] in Hr. rewrite Hrm, Hhb, Hfl in Hr.
  destruct (squash_history_frees P sn (historyBuffer t) (renameMap t) (freeList s) s4 Hf Hm Hh) as (young & old & fl' & s5 & Hrun & Hsplit & Hy & Ho & Hfr & Hth).
  rewrite Hrun in Hr. cbn [mbind res_bind] in Hr. apply bind_ok in Hr as (s6 & H6 & H7). apply upd_inv in H6 as (t6 & Ht6 & ->). apply upd_inv in H7 as (t7 & Ht7 & ->).
  cbn in Ht6, Ht7. rewrite Hth, Ht0 in Ht6. injection Ht6 as <-. rewrite Hth in *. pose proof (lookup_lt_Some _ _ _ Ht0) as Hlt.
  rewrite list_lookup_insert_eq in Ht7 by done. injection Ht7 as <-. exists t0, (with_historyBuffer old (with_renameMap (foldl undo (renameMap t) young) t0)), young. split_and!; [|done| |exact Hsplit|exact Hfr].
  - cbn. rewrite Hth. by rewrite list_insert_insert_eq, list_lookup_insert_eq.
  - exists young, old. rewrite Hrm. split_and!; [congruence|done|done|done].
Qed.

(** The register given last is in the map. *)
Lemma news_mapped m hb r rest : hist_ok P m hb → news hb = r :: rest → r ∈ mapped m.
Proof.
  intros Hh Hn. revert m Hh. induction hb as [|h hb IH]; intros m Hh; cbn in Hn; [done|]. destruct Hh as [Hh Ht]. destruct (changed h) eqn:Hch.
  - injection Hn as <- _. destruct (Hh eq_refl) as (cl & rel & _ & Hx%list_elem_of_lookup_2 & _). unfold mapped. destruct cl; cbn in Hx; set_solver.
  - unfold undo in Ht. rewrite Hch in Ht. by apply IH.
Qed.

Lemma undo_nothing m hb : news hb = [] → foldl undo m hb = m.
Proof. revert m. induction hb as [|h hb IH]; intros m Hn; cbn in Hn |- *; [done|]. unfold undo at 2. destruct (changed h); [done|by apply IH]. Qed.

(** C36: removing a thread frees registers that are in use.  The loops put every register of the
    thread's map on the free lists, and the squash that follows gives the registers of the squashed
    writes to the free lists as well, as for any squash: when there is such a write, the newest one
    is in both, so that a register is on the free lists twice and will be given to two
    instructions; when there is none, every register of the map the thread is left with is free. *)
Theorem removeThread_double_frees sn tid s s' t :
  file_ok (regFile P) → regs_ok P (regs s) → threads s !! tid = Some t → in_order (historyBuffer t) → removeThread sn tid s = Ok s' →
  ∃ t', threads s' !! tid = Some t' ∧ abs (thread_regs t') = arch_squash sn (abs (thread_regs t)) ∧
    free_regs (freeList s') ≡ₚ squash_frees sn (abs (thread_regs t)) ++ mapped (renameMap t) ++ free_regs (freeList s) ∧
    (squash_frees sn (abs (thread_regs t)) ≠ [] → ¬ NoDup (free_regs (freeList s'))) ∧
    (squash_frees sn (abs (thread_regs t)) = [] → Forall (λ r, r ∈ free_regs (freeList s')) (mapped (renameMap t'))).
Proof.
  intros Hf [_ _ Hts] Ht Ho Hr. rewrite Forall_lookup in Hts. destruct (Hts _ _ (regs_lookup _ _ _ Ht)) as [Hm Hh]. cbn [fst snd thread_regs] in Hm, Hh.
  unfold removeThread in Hr. apply bind_ok in Hr as (s1 & H1 & Hr). apply bind_ok in Hr as (s2 & H2 & Hr). apply bind_ok in Hr as (s3 & H3 & Hr).
  apply (unbind_class tid IntRegClass _ _ t) in H1 as [Ht1 Hf1]; [|done..].
  apply (unbind_class tid FloatRegClass _ _ t) in H2 as [Ht2 Hf2]; [|done || congruence..].
  apply (unbind_class tid CCRegClass _ _ t) in H3 as [Ht3 Hf3]; [|done || congruence..].
  apply (squash_frees_news _ _ _ _ t) in Hr as (t0 & t' & young & Ht' & Hreg & Hsq & Hsplit & Hfr); [|done || congruence..].
  assert (renameMap t0 = renameMap t ∧ historyBuffer t0 = historyBuffer t) as [Hrm Hhb] by (by injection Hreg).
  rewrite <- Hreg. assert (news young = squash_frees sn (abs (thread_regs t0))) as Hn by (apply (squash_freed P sn t0 t'); congruence).
  assert (free_regs (freeList s') ≡ₚ news young ++ mapped (renameMap t) ++ free_regs (freeList s)) as Hfree.
  { rewrite Hfr, Hf3, Hf2, Hf1. unfold mapped. cbn. solve_Permutation. }
  exists t'. rewrite <- Hn. split_and!; [done|apply abs_squash; congruence|done| |].
  - intros Hne. rewrite Hfree. intros (_ & Hd & _)%NoDup_app. destruct (news young) as [|r rest] eqn:Hy; [done|]. apply (Hd r); [set_solver|].
    apply elem_of_app. left. apply (news_mapped _ young _ rest); [|done]. rewrite Hsplit in Hh. by apply hist_ok_prefix in Hh as [? _].
  - intros Hnil. destruct Hsq as (y & old & Hy & _ & _ & ->). cbn in *. rewrite Hhb in Hy. rewrite Hy in Hsplit. apply app_inv_tail in Hsplit as ->.
    rewrite Hrm, undo_nothing by done. apply Forall_forall. intros r Hin. rewrite Hfree. set_solver.
Qed.

End thread.

(** The small CPU of [O3RenameSpec] after a cycle, with two writes in flight; the head of its
    reorder buffer is the older one. *)
#[local] Existing Instance AlphaISA.
#[local] Existing Instance demo_flatten.

Definition demo_removed : Stage := run demo (removeThread demo_params demo_wires 5 0 demo_ticked).

Lemma removeThread_double_frees_witness :
  removeThread demo_params demo_wires 5 0 demo_ticked = Ok demo_removed ∧ ¬ NoDup (free_regs (freeList demo_removed)).
Proof.
  assert (removeThread demo_params demo_wires 5 0 demo_ticked = Ok demo_removed) as Hr by (apply demo_runs; vm_compute; reflexivity). split; [exact Hr|].
  destruct (removeThread_double_frees demo_params demo_wires 5 0 demo_ticked demo_removed (default demo_thread0 (threads demo_ticked !! 0%nat))) as (t' & _ & _ & _ & H & _).
  - apply demo_file.
  - apply reachable_ok; [apply demo_file|by vm_compute|]. apply (reachable_tick demo_params demo_wires demo); [apply demo_reachable|apply demo_runs; vm_compute; reflexivity].
  - vm_compute. reflexivity.
  - vm_compute. repeat constructor; discriminate.
  - exact Hr.
  - apply H. by vm_compute.
Defined.

End O3Thread.
