(* ===== verification/O3Rob.v ===== *)
(** * The reorder buffer of the out-of-order CPU

    [cpu/o3/rob.hh] and [cpu/o3/rob_impl.hh]: each thread has the list of its instructions in
    program order; instructions enter at its end and retire from its front, and a squash walks
    from the end towards the front, [squashWidth] instructions a cycle, and marks what it passes.

    The dynamic instructions are the heap of O3Rename.  An instruction is in the buffer at most
    once, so an iterator is the instruction it points to, [None] for [end()]; dereferencing an
    iterator whose instruction has left the list is an error. *)

From S2P Require Import Prelude O3Regs O3Rename.

Open Scope Z_scope.

Module O3Rob.
Import O3Rename.

Inductive RobStatus := RobRunning | RobIdle | ROBSquashing.
Inductive ROBPolicy := Dynamic | Partitioned | Threshold.

#[export] Instance ROBPolicy_eq_dec : EqDecision ROBPolicy.
Proof. solve_decision. Defined.

Record RobThread := mkRobThread {
  robStatus : RobStatus;
  instList : list positive;
  threadEntries : Z;
  maxEntries : Z;
  squashIt : option positive;
  squashedSeqNum : Z;
  doneSquashing : bool
}.

Definition with_robStatus (x : RobStatus) (t : RobThread) : RobThread :=
  mkRobThread x (instList t) (threadEntries t) (maxEntries t) (squashIt t) (squashedSeqNum t) (doneSquashing t).
Definition with_instList (x : list positive) (t : RobThread) : RobThread :=
  mkRobThread (robStatus t) x (threadEntries t) (maxEntries t) (squashIt t) (squashedSeqNum t) (doneSquashing t).
Definition with_threadEntries (x : Z) (t : RobThread) : RobThread :=
  mkRobThread (robStatus t) (instList t) x (maxEntries t) (squashIt t) (squashedSeqNum t) (doneSquashing t).
Definition with_maxEntries (x : Z) (t : RobThread) : RobThread :=
  mkRobThread (robStatus t) (instList t) (threadEntries t) x (squashIt t) (squashedSeqNum t) (doneSquashing t).
Definition with_squashIt (x : option positive) (t : RobThread) : RobThread :=
  mkRobThread (robStatus t) (instList t) (threadEntries t) (maxEntries t) x (squashedSeqNum t) (doneSquashing t).
Definition with_squashedSeqNum (x : Z) (t : RobThread) : RobThread :=
  mkRobThread (robStatus t) (instList t) (threadEntries t) (maxEntries t) (squashIt t) x (doneSquashing t).
Definition with_doneSquashing (x : bool) (t : RobThread) : RobThread :=
  mkRobThread (robStatus t) (instList t) (threadEntries t) (maxEntries t) (squashIt t) (squashedSeqNum t) x.

(** [threads] holds an entry for each of the [numThreads] threads; [head] and [tail] are [None]
    for [instList[0].end()]; [removed] are the calls of [cpu->removeFrontInst]. *)
Record ROB := mkROB {
  numEntries : Z;
  squashWidth : nat;
  robPolicy : ROBPolicy;
  activeThreads : list nat;
  rthreads : list RobThread;
  head : option positive;
  tail : option positive;
  numInstsInROB : Z;
  robReads : Z;
  robWrites : Z;
  heap : gmap positive DynInst;
  removed : list positive
}.

Definition with_rthreads (x : list RobThread) (r : ROB) : ROB :=
  mkROB (numEntries r) (squashWidth r) (robPolicy r) (activeThreads r) x (head r) (tail r) (numInstsInROB r) (robReads r) (robWrites r) (heap r) (removed r).
Definition with_head (x : option positive) (r : ROB) : ROB :=
  mkROB (numEntries r) (squashWidth r) (robPolicy r) (activeThreads r) (rthreads r) x (tail r) (numInstsInROB r) (robReads r) (robWrites r) (heap r) (removed r).
Definition with_tail (x : option positive) (r : ROB) : ROB :=
  mkROB (numEntries r) (squashWidth r) (robPolicy r) (activeThreads r) (rthreads r) (head r) x (numInstsInROB r) (robReads r) (robWrites r) (heap r) (removed r).
Definition with_numInsts (x : Z) (r : ROB) : ROB :=
  mkROB (numEntries r) (squashWidth r) (robPolicy r) (activeThreads r) (rthreads r) (head r) (tail r) x (robReads r) (robWrites r) (heap r) (removed r).
Definition with_counts (rd wr : Z) (r : ROB) : ROB :=
  mkROB (numEntries r) (squashWidth r) (robPolicy r) (activeThreads r) (rthreads r) (head r) (tail r) (numInstsInROB r) rd wr (heap r) (removed r).
Definition with_rheap (x : gmap positive DynInst) (r : ROB) : ROB :=
  mkROB (numEntries r) (squashWidth r) (robPolicy r) (activeThreads r) (rthreads r) (head r) (tail r) (numInstsInROB r) (robReads r) (robWrites r) x (removed r).
Definition with_removed (x : list positive) (r : ROB) : ROB :=
  mkROB (numEntries r) (squashWidth r) (robPolicy r) (activeThreads r) (rthreads r) (head r) (tail r) (numInstsInROB r) (robReads r) (robWrites r) (heap r) x.

(** ** Access *)

Definition rget (tid : nat) (r : ROB) : res RobThread := deref (rthreads r !! tid).
Definition rupd (tid : nat) (f : RobThread → RobThread) (r : ROB) : res ROB :=
  t ← rget tid r; Ok (with_rthreads (<[tid := f t]> (rthreads r)) r).
Definition rinst (p : positive) (r : ROB) : res DynInst := deref (heap r !! p).
Definition rupd_inst (p : positive) (f : DynInst → DynInst) (r : ROB) : res ROB :=
  i ← rinst p r; Ok (with_rheap (<[p := f i]> (heap r)) r).
Definition count_write (r : ROB) : ROB := with_counts (robReads r) (robWrites r + 1) r.
Definition count_read (r : ROB) : ROB := with_counts (robReads r + 1) (robWrites r) r.

(** ** Construction *)

Definition reset_robthread (t : RobThread) : RobThread :=
  with_squashedSeqNum 0 (with_squashIt None (with_threadEntries 0 (with_doneSquashing true t))).
Definition resetState (r : ROB) : ROB :=
  with_tail None (with_head None (with_numInsts 0 (with_rthreads (reset_robthread <$> rthreads r) r))).

Definition initial_max (policy : ROBPolicy) (numROBEntries : Z) (numThreads : nat) (smtROBThreshold : Z) : Z :=
  match policy with
  | Dynamic => numROBEntries
  | Partitioned => numROBEntries / Z.of_nat numThreads
  | Threshold => u32 smtROBThreshold
  end.

(** [robStatus] is not initialised: [st] is what it holds. *)
Definition newROB (numROBEntries : Z) (width : nat) (policy : ROBPolicy) (smtROBThreshold : Z) (numThreads : nat) (active : list nat)
    (st : RobStatus) (h : gmap positive DynInst) : ROB :=
  resetState (mkROB numROBEntries width policy active
    (replicate numThreads (mkRobThread st [] 0 (initial_max policy numROBEntries numThreads smtROBThreshold) None 0 true)) None None 0 0 0 h []).

Definition takeOverFrom (r : ROB) : ROB := resetState r.

Fixpoint reset_entries (l : list nat) (active_threads : Z) (r : ROB) : res ROB :=
  match l with
  | [] => Ok r
  | tid :: l =>
      r ← (if bool_decide (robPolicy r = Partitioned) then rupd tid (with_maxEntries (numEntries r / active_threads)) r
           else if bool_decide (robPolicy r = Threshold) && (active_threads =? 1) then rupd tid (with_maxEntries (numEntries r)) r
           else Ok r);
      reset_entries l active_threads r
  end.

Definition resetEntries (r : ROB) : res ROB :=
  if negb (bool_decide (robPolicy r = Dynamic)) || (1 <? Z.of_nat (length (rthreads r))) then
    reset_entries (activeThreads r) (Z.of_nat (length (activeThreads r))) r
  else Ok r.

(** ** Observations *)

Definition isEmpty (r : ROB) : bool := numInstsInROB r =? 0.
Definition isEmptyThread (t : RobThread) : bool := threadEntries t =? 0.
Definition isFull (r : ROB) : bool := u32 (numInstsInROB r) =? numEntries r.
Definition isFullThread (r : ROB) (t : RobThread) : bool := threadEntries t =? numEntries r.
Definition isDoneSquashing (t : RobThread) : bool := doneSquashing t.
Definition getMaxEntries (t : RobThread) : Z := maxEntries t.
Definition getThreadEntries (t : RobThread) : Z := threadEntries t.
Definition numFreeEntries (r : ROB) : Z := u32 (numEntries r - numInstsInROB r).
Definition numFreeEntriesThread (t : RobThread) : Z := u32 (maxEntries t - threadEntries t).
Definition entryAmount (num_threads : Z) (r : ROB) : Z :=
  match robPolicy r with Partitioned => numEntries r / num_threads | _ => 0 end.
Definition countInstsThread (t : RobThread) : Z := vsize (instList t).
Definition countInsts (r : ROB) : Z := foldr (λ t n, countInstsThread t + n) 0 (rthreads r).
Definition drainSanityCheck (r : ROB) : res unit :=
  _ ← assert_ (forallb (λ t, bool_decide (instList t = [])) (rthreads r)); assert_ (isEmpty r).

Definition isHeadReady (tid : nat) (r : ROB) : res (bool * ROB) :=
  let r := count_read r in
  t ← rget tid r;
  if negb (threadEntries t =? 0) then
    p ← deref (hd_error (instList t));
    i ← rinst p r;
    Ok (readyToCommit i, r)
  else Ok (false, r).

Fixpoint can_commit (l : list nat) (r : ROB) : res (bool * ROB) :=
  match l with
  | [] => Ok (false, r)
  | tid :: l => '(b, r) ← isHeadReady tid r; if b : bool then Ok (true, r) else can_commit l r
  end.
Definition canCommit (r : ROB) : res (bool * ROB) := can_commit (activeThreads r) r.

(** [None] for [dummyInst]. *)
Definition readHeadInst (tid : nat) (r : ROB) : res (option positive) :=
  t ← rget tid r;
  if negb (threadEntries t =? 0) then
    p ← deref (hd_error (instList t));
    i ← rinst p r;
    _ ← assert_ (isInROB i);
    Ok (Some p)
  else Ok None.

Definition readTailInst (tid : nat) (r : ROB) : res positive :=
  t ← rget tid r; deref (last (instList t)).

Fixpoint find_inst (squash_inst : Z) (l : list positive) (r : ROB) : res (option positive) :=
  match l with
  | [] => Ok None
  | p :: l => i ← rinst p r; if seqNum i =? squash_inst then Ok (Some p) else find_inst squash_inst l r
  end.
Definition findInst (tid : nat) (squash_inst : Z) (r : ROB) : res (option positive) :=
  t ← rget tid r; find_inst squash_inst (instList t) r.

(** ** The global head and tail *)

(** The loop over the active threads: [low] is the head so far with its number. *)
Fixpoint update_head (l : list nat) (low : option (positive * Z)) (r : ROB) : res (option (positive * Z)) :=
  match l with
  | [] => Ok low
  | tid :: l =>
      t ← rget tid r;
      match instList t with
      | [] => update_head l low r
      | p :: _ =>
          i ← rinst p r;
          match low with
          | None => update_head l (Some (p, seqNum i)) r
          | Some (_, lowest_num) => update_head l (if seqNum i <? lowest_num then Some (p, seqNum i) else low) r
          end
      end
  end.
Definition updateHead (r : ROB) : res ROB :=
  low ← update_head (activeThreads r) None r; Ok (with_head (fst <$> low) r).

Fixpoint update_tail (l : list nat) (high : option (positive * Z)) (r : ROB) : res (option (positive * Z)) :=
  match l with
  | [] => Ok high
  | tid :: l =>
      t ← rget tid r;
      match last (instList t) with
      | None => update_tail l high r
      | Some p =>
          i ← rinst p r;
          match high with
          | None => update_tail l (Some (p, seqNum i)) r
          | Some (_, n) => update_tail l (if n <? seqNum i then Some (p, seqNum i) else high) r
          end
      end
  end.
Definition updateTail (r : ROB) : res ROB :=
  high ← update_tail (activeThreads r) None r; Ok (with_tail (fst <$> high) r).

(** ** Insertion and retirement *)

Definition insertInst (inst : positive) (r : ROB) : res ROB :=
  let r := count_write r in
  _ ← assert_ (negb (u32 (numInstsInROB r) =? numEntries r));
  i ← rinst inst r;
  let tid := threadNumber i in
  r ← rupd tid (λ t, with_instList (instList t ++ [inst]) t) r;
  r ← (if numInstsInROB r =? 0 then
         t ← rget tid r;
         _ ← assert_ (bool_decide (hd_error (instList t) = Some inst));
         Ok (with_head (hd_error (instList t)) r)
       else Ok r);
  r ← rupd_inst inst setInROB (with_tail (Some inst) r);
  rupd tid (λ t, with_threadEntries (u32 (threadEntries t + 1)) t) (with_numInsts (i32 (numInstsInROB r + 1)) r).

Definition retireHead (tid : nat) (r : ROB) : res ROB :=
  let r := count_write r in
  _ ← assert_ (0 <? numInstsInROB r);
  t ← rget tid r;
  match instList t with
  | [] => Fail BadPointer
  | head_inst :: l =>
      i ← rinst head_inst r;
      _ ← assert_ (readyToCommit i);
      r ← rupd tid (λ t, with_threadEntries (u32 (threadEntries t - 1)) t) (with_numInsts (i32 (numInstsInROB r - 1)) r);
      r ← rupd_inst head_inst (λ i, setCommitted (clearInROB i)) r;
      r ← rupd tid (with_instList l) r;
      r ← updateHead r;
      Ok (with_removed (removed r ++ [head_inst]) r)
  end.

(** ** Squash *)

(** The instruction before [p] in the list. *)
Fixpoint prev_of (p : positive) (l : list positive) : option positive :=
  match l with
  | a :: (b :: _) as l => if bool_decide (b = p) then Some a else prev_of p l
  | _ => None
  end.

Definition is_begin (p : positive) (t : RobThread) : bool := bool_decide (hd_error (instList t) = Some p).

(** Dereferencing an iterator of the thread. *)
Definition valid_it (it : positive) (t : RobThread) : res unit := if bool_decide (it ∈ instList t) then Ok tt else Fail BadPointer.

(** The loop of [doSquash], [n] instructions at most.  The result says whether it returned at
    the front of the list, where the iterator is, and whether the tail was passed. *)
Fixpoint squash_loop (n : nat) (tid : nat) (it : positive) (robTailUpdate : bool) (r : ROB) : res (bool * positive * bool * ROB) :=
  match n with
  | O => Ok (false, it, robTailUpdate, r)
  | S n =>
      t ← rget tid r;
      _ ← valid_it it t;
      i ← rinst it r;
      if squashedSeqNum t <? seqNum i then
        r ← rupd_inst it (λ i, setCanCommit (setSquashed i)) r;
        if is_begin it t then Ok (true, it, robTailUpdate, r)
        else
          let robTailUpdate := if bool_decide (last (instList t) = Some it) then true else robTailUpdate in
          it ← deref (prev_of it (instList t));
          squash_loop n tid it robTailUpdate r
      else Ok (false, it, robTailUpdate, r)
  end.

Definition done_squash (tid : nat) (r : ROB) : res ROB :=
  rupd tid (λ t, with_doneSquashing true (with_squashIt None t)) r.

Definition doSquash (tid : nat) (r : ROB) : res ROB :=
  let r := count_write r in
  t ← rget tid r;
  match squashIt t with
  | None => Fail AssertFailed
  | Some it =>
      _ ← valid_it it t;
      i ← rinst it r;
      if seqNum i <? squashedSeqNum t then done_squash tid r
      else
        '(at_front, it, robTailUpdate, r) ← squash_loop (squashWidth r) tid it false r;
        if at_front : bool then done_squash tid r
        else
          i ← rinst it r;
          r ← (if seqNum i <=? squashedSeqNum t then done_squash tid r else rupd tid (with_squashIt (Some it)) r);
          if robTailUpdate : bool then updateTail r else Ok r
  end.

Definition squash (squash_num : Z) (tid : nat) (r : ROB) : res ROB :=
  t ← rget tid r;
  if isEmptyThread t then Ok r
  else
    r ← rupd tid (λ t, with_squashedSeqNum squash_num (with_doneSquashing false (with_robStatus ROBSquashing t))) r;
    match last (instList t) with
    | None => Ok r
    | Some p => r ← rupd tid (with_squashIt (Some p)) r; doSquash tid r
    end.

End O3Rob.
