(* ===== verification/O3RobProofs.v ===== *)
(** * The reorder buffer is correct

    Its counters and lists agree, instructions leave in the order they entered, the head is
    the oldest front instruction where insertion and retirement keep it so, and a squash ends
    after a bounded number of cycles with exactly the younger instructions marked. *)

From Stdlib Require Import Sorted.
From S2P Require Import Prelude O3Regs O3Rename O3Rob.

Open Scope Z_scope.

Module O3RobProofs.
Import O3Rename O3Rob.

(** ** The invariant *)

Abbreviation Heap := (gmap positive DynInst).

Definition older (h : Heap) (p q : positive) : Prop := ∃ i j, h !! p = Some i ∧ h !! q = Some j ∧ seqNum i < seqNum j.

Record thread_ok (h : Heap) (tid : nat) (t : RobThread) : Prop := {
  ok_entries : threadEntries t = vsize (instList t);
  ok_insts : Forall (λ p, ∃ i, h !! p = Some i ∧ threadNumber i = tid ∧ isInROB i = true) (instList t);
  ok_sorted : StronglySorted (older h) (instList t);
  ok_it : match squashIt t with
          | Some it => doneSquashing t = false ∧ it ∈ instList t
          | None => doneSquashing t = true
          end
}.

Fixpoint total (l : list RobThread) : Z := match l with [] => 0 | t :: l => vsize (instList t) + total l end.

Record rob_ok (r : ROB) : Prop := {
  rob_threads : ∀ tid t, rthreads r !! tid = Some t → thread_ok (heap r) tid t;
  rob_active : Forall (λ tid, (tid < length (rthreads r))%nat) (activeThreads r);
  rob_count : numInstsInROB r = total (rthreads r);
  rob_room : numInstsInROB r ≤ numEntries r < 2 ^ 31
}.

Lemma total_nonneg l : 0 ≤ total l.
Proof. induction l as [|t l IH]; cbn; [done|]. unfold vsize. lia. Qed.

Lemma total_insert l tid t t' : l !! tid = Some t → total (<[tid := t']> l) = total l - vsize (instList t) + vsize (instList t').
Proof.
  revert tid. induction l as [|u l IH]; intros [|tid] Ht; cbn in Ht; [done..| |].
  - injection Ht as ->. cbn. lia.
  - change (<[S tid := t']> (u :: l)) with (u :: <[tid := t']> l). cbn [total]. rewrite (IH _ Ht). lia.
Qed.

Lemma total_ge l tid t : l !! tid = Some t → vsize (instList t) ≤ total l.
Proof.
  revert tid. induction l as [|u l IH]; intros [|tid] Ht; cbn in *; [done..| |].
  - injection Ht as ->. pose proof (total_nonneg l). unfold vsize in *. lia.
  - specialize (IH _ Ht). unfold vsize in *. lia.
Qed.

(** ** Changes of flags *)

(** An instruction is the same for the buffer's order. *)
Definition same_order (i i' : DynInst) : Prop := seqNum i' = seqNum i ∧ threadNumber i' = threadNumber i.

Definition heap_like (h h' : Heap) : Prop := ∀ p i, h !! p = Some i → ∃ i', h' !! p = Some i' ∧ same_order i i'.

Lemma older_like h h' p q : heap_like h h' → older h p q → older h' p q.
Proof.
  intros Hl (i & j & Hi & Hj & Hlt). destruct (Hl p i Hi) as (i' & Hi' & Hs & _), (Hl q j Hj) as (j' & Hj' & Hs' & _).
  exists i', j'. split_and!; [done|done|congruence].
Qed.

Lemma sorted_like h h' l : heap_like h h' → StronglySorted (older h) l → StronglySorted (older h') l.
Proof.
  intros Hl. induction 1 as [|p l _ IH Hf]; constructor; [done|]. eapply Forall_impl; [exact Hf|]. intros q. by apply older_like.
Qed.

Lemma insert_like h p i i' : h !! p = Some i → same_order i i' → heap_like h (<[p := i']> h).
Proof.
  intros Hi Hs q j Hj. destruct (decide (p = q)) as [<-|Hne].
  - rewrite lookup_insert_eq. exists i'. split; [done|]. congruence.
  - rewrite lookup_insert_ne by done. by exists j.
Qed.

Lemma sorted_nodup h l : StronglySorted (older h) l → NoDup l.
Proof.
  induction 1 as [|p l _ IH Hf]; constructor; [|done]. intros Hin. rewrite Forall_forall in Hf. destruct (Hf p Hin) as (i & j & Hi & Hj & Hlt).
  rewrite Hi in Hj. injection Hj as <-. lia.
Qed.

Lemma rget_ok tid r t : rget tid r = Ok t ↔ rthreads r !! tid = Some t.
Proof. apply deref_ok. Qed.

Lemma rupd_ok tid f r t : rthreads r !! tid = Some t → rupd tid f r = Ok (with_rthreads (<[tid := f t]> (rthreads r)) r).
Proof. intros Ht. unfold rupd, rget. by rewrite Ht. Qed.

Lemma rupd_inst_ok p f r i : heap r !! p = Some i → rupd_inst p f r = Ok (with_rheap (<[p := f i]> (heap r)) r).
Proof. intros Hi. unfold rupd_inst, rinst. by rewrite Hi. Qed.

(** ** The global head and tail *)

(** The instructions of the active threads exist. *)
Definition known (l : list nat) (r : ROB) : Prop :=
  Forall (λ tid, ∃ t, rthreads r !! tid = Some t ∧ Forall (λ p, is_Some (heap r !! p)) (instList t)) l.

Lemma rob_known r : rob_ok r → known (activeThreads r) r.
Proof.
  intros [Ht Ha _ _]. eapply Forall_impl; [exact Ha|]. cbn. intros tid [t Hl]%lookup_lt_is_Some_2. exists t. split; [done|].
  eapply Forall_impl; [exact (ok_insts _ _ _ (Ht _ _ Hl))|]. intros p (i & Hi & _). by exists i.
Qed.

Lemma update_tail_ok l high r : known l r → ∃ x, update_tail l high r = Ok x.
Proof.
  intros Hk. revert high. induction Hk as [|tid l (t & Ht & Hp) _ IH]; intros high; cbn; [by eexists|].
  unfold rget. rewrite Ht. cbn. destruct (last (instList t)) as [p|] eqn:Hl; [|apply IH].
  apply last_Some_elem_of in Hl. rewrite Forall_forall in Hp. destruct (Hp p Hl) as [i Hi]. unfold rinst. rewrite Hi. cbn.
  destruct high as [[??]|]; apply IH.
Qed.

(** The front instructions of threads. *)
Definition front (r : ROB) (tid : nat) (p : positive) (n : Z) : Prop :=
  ∃ t l i, rthreads r !! tid = Some t ∧ instList t = p :: l ∧ heap r !! p = Some i ∧ seqNum i = n.

Definition least (r : ROB) (l : list nat) (low : option (positive * Z)) (x : option (positive * Z)) : Prop :=
  match x with
  | None => low = None ∧ Forall (λ tid, ∀ t, rthreads r !! tid = Some t → instList t = []) l
  | Some (p, n) => ((∃ tid, tid ∈ l ∧ front r tid p n) ∨ low = Some (p, n)) ∧
      (∀ tid q k, tid ∈ l → front r tid q k → n ≤ k) ∧ (∀ q k, low = Some (q, k) → n ≤ k)
  end.

Lemma update_head_spec l low r : known l r → ∃ x, update_head l low r = Ok x ∧ least r l low x.
Proof.
  intros Hk. revert low. induction Hk as [|tid l (t & Ht & Hp) _ IH]; intros low; cbn.
  { exists low. split; [done|]. destruct low as [[p n]|]; cbn; [|by split]. split_and!; [by right|by intros ??? ?%not_elem_of_nil|]. intros q k [= <- <-]. lia. }
  unfold rget. rewrite Ht. cbn. destruct (instList t) as [|p tl] eqn:Hl.
  - destruct (IH low) as (x & -> & Hx). exists x. split; [done|]. destruct x as [[q n]|]; cbn in *.
    + destruct Hx as (H1 & H2 & H3). split_and!; [|..].
      * destruct H1 as [(tid' & Hin & Hf)|H1]; [left; exists tid'; split; [by right|done]|by right].
      * intros tid' q' k [->|Hin]%elem_of_cons Hf; [|by eapply H2]. destruct Hf as (t' & l' & i' & Ht' & Hl' & _). congruence.
      * done.
    + destruct Hx as [H1 H2]. split; [done|]. constructor; [|done]. intros t' Ht'. congruence.
  - apply Forall_cons in Hp as [[i Hi] _]. unfold rinst. rewrite Hi. cbn. assert (front r tid p (seqNum i)) as Hfr by (by exists t, tl, i).
    assert (∀ q k, front r tid q k → q = p ∧ k = seqNum i) as Huniq.
    { intros q k (t' & l' & i' & Ht' & Hl' & Hi' & <-). assert (t' = t) as -> by congruence. rewrite Hl in Hl'. injection Hl' as -> _. split; congruence. }
    destruct low as [[p0 n0]|].
    + destruct (IH (if seqNum i <? n0 then Some (p, seqNum i) else Some (p0, n0))) as (x & -> & Hx). exists x. split; [done|].
      destruct x as [[q n]|]; cbn in *; [|destruct (seqNum i <? n0); by destruct Hx]. destruct Hx as (H1 & H2 & H3).
      assert (n ≤ seqNum i ∧ n ≤ n0) as [Hn Hn0].
      { destruct (Z.ltb_spec (seqNum i) n0); [pose proof (H3 _ _ eq_refl)|pose proof (H3 _ _ eq_refl)]; lia. }
      split_and!.
      * destruct H1 as [(tid' & Hin & Hf)|H1]; [left; exists tid'; split; [by right|done]|].
        destruct (seqNum i <? n0); injection H1 as <- <-; [left; exists tid; split; [left|done]|by right].
      * intros tid' q' k [->|Hin]%elem_of_cons Hf; [|by eapply H2]. apply Huniq in Hf as [_ ->]. done.
      * intros q' k [= <- <-]. done.
    + destruct (IH (Some (p, seqNum i))) as (x & -> & Hx). exists x. split; [done|].
      destruct x as [[q n]|]; cbn in *; [|by destruct Hx]. destruct Hx as (H1 & H2 & H3). split_and!; [|..|done].
      * left. destruct H1 as [(tid' & Hin & Hf)|[= <- <-]]; [exists tid'; split; [by right|done]|exists tid; split; [left|done]].
      * intros tid' q' k [->|Hin]%elem_of_cons Hf; [|by eapply H2]. apply Huniq in Hf as [_ ->]. by apply (H3 p).
Qed.

(** ** Marking squashed instructions *)

Definition squash_mark (i : DynInst) : DynInst := setCanCommit (setSquashed i).

(** The heap with the instructions of [l] marked. *)
Fixpoint mark (l : list positive) (h : Heap) : Heap := match l with [] => h | p :: l => alter squash_mark p (mark l h) end.

Lemma lookup_mark l h p : mark l h !! p = if decide (p ∈ l) then squash_mark <$> h !! p else h !! p.
Proof.
  induction l as [|q l IH]; cbn; [by rewrite decide_False by apply not_elem_of_nil|]. destruct (decide (q = p)) as [->|Hne].
  - rewrite lookup_alter_eq, IH, (decide_True (P := p ∈ p :: l)) by left. case_decide; [|done]. by destruct (h !! p).
  - rewrite lookup_alter_ne, IH by done. apply decide_ext. set_solver.
Qed.

Lemma mark_app a b h : mark (a ++ b) h = mark a (mark b h).
Proof. induction a as [|p a IH]; cbn; [done|]. by rewrite IH. Qed.

Lemma mark_comm a b h : mark a (mark b h) = mark b (mark a h).
Proof.
  apply map_eq. intros p. rewrite !lookup_mark. repeat case_decide; try done; by destruct (h !! p).
Qed.

Lemma mark_like l h : heap_like h (mark l h).
Proof.
  intros p i Hi. rewrite lookup_mark, Hi. case_decide; [exists (squash_mark i)|exists i]; done.
Qed.

Lemma mark_one p i h : h !! p = Some i → <[p := squash_mark i]> h = mark [p] h.
Proof. intros Hi. cbn. apply map_eq. intros q. destruct (decide (p = q)) as [<-|]; [by rewrite lookup_insert_eq, lookup_alter_eq, Hi|by rewrite lookup_insert_ne, lookup_alter_ne]. Qed.

Definition younger (h : Heap) (sn : Z) (p : positive) : Prop := ∃ i, h !! p = Some i ∧ sn < seqNum i.

Lemma younger_like h h' sn p : heap_like h h' → younger h sn p → younger h' sn p.
Proof. intros Hl (i & Hi & Hlt). destruct (Hl p i Hi) as (i' & Hi' & Hs & _). exists i'. split; [done|congruence]. Qed.

Lemma prev_of_app pre a p post : NoDup (pre ++ a :: p :: post) → prev_of p (pre ++ a :: p :: post) = Some a.
Proof.
  induction pre as [|x pre IH]; intros Hnd; cbn [app].
  - cbn. by rewrite bool_decide_true.
  - cbn [app] in Hnd. apply NoDup_cons in Hnd as [_ Hnd]. specialize (IH Hnd). destruct pre as [|y pre]; cbn [app] in *.
    + change (prev_of p (x :: a :: p :: post)) with (if bool_decide (a = p) then Some x else prev_of p (a :: p :: post)).
      rewrite bool_decide_false; [done|]. intros ->. apply NoDup_cons in Hnd as [Hn _]. apply Hn. left.
    + change (prev_of p (x :: y :: pre ++ a :: p :: post)) with (if bool_decide (y = p) then Some x else prev_of p (y :: pre ++ a :: p :: post)).
      rewrite bool_decide_false; [done|]. intros ->. apply NoDup_cons in Hnd as [Hn _]. apply Hn. set_solver.
Qed.

Lemma with_rheap_id r : with_rheap (heap r) r = r.
Proof. by destruct r. Qed.

(** What the loop does from iterator [it]: it marks [mid], all younger, and stops at the front
    of the list, at an instruction that is not younger, or after [n] instructions. *)
Lemma squash_loop_spec n tid it upd r t pre post :
  rthreads r !! tid = Some t → instList t = pre ++ it :: post → Forall (λ p, is_Some (heap r !! p)) (instList t) → NoDup (instList t) →
  ∃ b it' upd' pre' mid, squash_loop n tid it upd r = Ok (b, it', upd', with_rheap (mark mid (heap r)) r) ∧
    Forall (younger (heap r) (squashedSeqNum t)) mid ∧
    if b : bool then pre ++ [it] = mid else pre ++ [it] = pre' ++ it' :: mid ∧ (younger (heap r) (squashedSeqNum t) it' → length mid = n).
Proof.
  revert it upd r pre post. induction n as [|n IH]; intros it upd r pre post Ht Hl Hk Hnd; cbn [squash_loop].
  { exists false, it, upd, pre, []. cbn. by rewrite with_rheap_id. }
  unfold rget. rewrite Ht. cbn [deref mbind res_bind]. unfold valid_it. rewrite (bool_decide_true (it ∈ instList t)) by (rewrite Hl; apply elem_of_app; right; left). cbn [mbind res_bind].
  pose proof Hk as Hk'. rewrite Forall_forall in Hk'. destruct (Hk' it) as [i Hi]; [rewrite Hl; apply elem_of_app; right; left|]. unfold rinst. rewrite Hi. cbn [deref mbind res_bind].
  destruct (Z.ltb_spec (squashedSeqNum t) (seqNum i)) as [Hlt|Hge].
  2: { exists false, it, upd, pre, []. cbn. rewrite with_rheap_id. split_and!; try done. intros (i' & Hi' & Hlt). rewrite Hi in Hi'. injection Hi' as <-. lia. }
  rewrite (rupd_inst_ok _ _ _ _ Hi). cbn [mbind res_bind]. change (setCanCommit (setSquashed i)) with (squash_mark i). rewrite (mark_one _ _ _ Hi).
  assert (younger (heap r) (squashedSeqNum t) it) as Hy by (by exists i).
  destruct pre as [|a pre0 _] using rev_ind.
  - unfold is_begin. rewrite Hl. cbn [app hd_error]. rewrite bool_decide_true by done. exists true, it, upd, [], [it]. cbn. split_and!; try done. by constructor.
  - rewrite <- app_assoc in Hl. cbn [app] in Hl. assert (is_begin it t = false) as ->.
    { unfold is_begin. rewrite Hl. apply bool_decide_false. rewrite Hl in Hnd. destruct pre0 as [|x pre0]; cbn in *; intros [= ->];
        apply NoDup_cons in Hnd as [Hn _]; apply Hn; first [left | apply elem_of_app; do 2 right; left]. }
    assert (prev_of it (instList t) = Some a) as -> by (rewrite Hl in *; by apply prev_of_app). cbn [deref mbind res_bind].
    destruct (IH a (if bool_decide (last (instList t) = Some it) then true else upd) (with_rheap (mark [it] (heap r)) r) pre0 (it :: post)) as (b & it' & upd' & pre' & mid & Hrun & Hmid & Hb).
    + done.
    + done.
    + eapply Forall_impl; [exact Hk|]. cbn. intros p [j Hj]. destruct (mark_like [it] (heap r) p j Hj) as (j' & Hj' & _). by exists j'.
    + done.
    + rewrite Hrun. exists b, it', upd', pre', (mid ++ [it]). cbn [heap with_rheap]. split; [by rewrite mark_app|]. 
      assert (∀ p, younger (mark [it] (heap r)) (squashedSeqNum t) p ↔ younger (heap r) (squashedSeqNum t) p) as Hyy.
      { intros p. split; [|apply younger_like, mark_like]. intros (j & Hj & Hjs). rewrite lookup_mark in Hj. case_decide; [|by exists j].
        destruct (heap r !! p) as [j0|] eqn:Hj0; [|done]. injection Hj as <-. by exists j0. }
      split; [apply Forall_app; split; [eapply Forall_impl; [exact Hmid|]; intros p; apply Hyy|by constructor]|].
      destruct b; cbn in Hb |- *; [by rewrite Hb|]. destruct Hb as [-> Hn]. split; [by rewrite <- app_assoc|]. intros Hy'%Hyy. rewrite length_app, (Hn Hy'). cbn. lia.
Qed.

(** ** One cycle of a squash *)

(** A squash of thread [tid] to [sn] that has come to [it]: [post] is marked, and nothing else has
    changed since [h]. *)
Record squashing (h : Heap) (l : list positive) (sn : Z) (tid : nat) (it : positive) (pre post : list positive) (r : ROB) : Prop := {
  sq_ok : rob_ok r;
  sq_list : l = pre ++ it :: post;
  sq_thread : ∃ t, rthreads r !! tid = Some t ∧ instList t = l ∧ squashedSeqNum t = sn ∧ squashIt t = Some it;
  sq_heap : heap r = mark post h;
  sq_post : Forall (younger h sn) post
}.

(** The squash is over: exactly the younger instructions are marked. *)
Record squash_over (h : Heap) (l : list positive) (sn : Z) (tid : nat) (r : ROB) : Prop := {
  over_ok : rob_ok r;
  over_thread : ∃ t, rthreads r !! tid = Some t ∧ instList t = l ∧ doneSquashing t = true;
  over_heap : ∃ old young, l = old ++ young ∧ heap r = mark young h ∧ Forall (younger h sn) young ∧ Forall (λ p, ¬ younger h sn p) old
}.

(** Changing the flags of instructions and the squash state of one thread. *)
Lemma rob_ok_change r h' tid t t' :
  rob_ok r → rthreads r !! tid = Some t → heap_like (heap r) h' → (∀ p i, heap r !! p = Some i → ∃ i', h' !! p = Some i' ∧ isInROB i' = isInROB i) →
  instList t' = instList t → threadEntries t' = threadEntries t →
  match squashIt t' with Some it => doneSquashing t' = false ∧ it ∈ instList t | None => doneSquashing t' = true end →
  rob_ok (with_rheap h' (with_rthreads (<[tid := t']> (rthreads r)) r)).
Proof.
  intros [Ht Ha Hc Hr] Hl Hlike Hrob Hil Hte Hit. split; cbn.
  - assert (∀ tid t, thread_ok (heap r) tid t → thread_ok h' tid t) as Hmono.
    { intros tid0 t0 [H1 H2 H3 H4]. split; [done| |by eapply sorted_like|done]. eapply Forall_impl; [exact H2|]. intros p (i & Hi & Htn & Hin).
      destruct (Hlike p i Hi) as (i' & Hi' & _ & Htn'), (Hrob p i Hi) as (i2 & Hi2 & Hin2). rewrite Hi' in Hi2. injection Hi2 as <-. exists i'. split_and!; congruence. }
    intros tid0 t0 H0. apply list_lookup_insert_Some in H0 as [(<- & <- & _)|[Hne H0]]; [|by apply Hmono, Ht].
    destruct (Hmono _ _ (Ht _ _ Hl)) as [H1 H2 H3 _]. split; rewrite ?Hil, ?Hte; done.
  - by rewrite length_insert.
  - rewrite (total_insert _ _ _ _ Hl), Hil. lia.
  - done.
Qed.

Lemma mark_inROB l h p i : h !! p = Some i → ∃ i', mark l h !! p = Some i' ∧ isInROB i' = isInROB i.
Proof. intros Hi. rewrite lookup_mark, Hi. case_decide; [exists (squash_mark i)|exists i]; done. Qed.

Lemma younger_mark l h sn p : younger (mark l h) sn p ↔ younger h sn p.
Proof.
  split; [|apply younger_like, mark_like]. intros (j & Hj & Hjs). rewrite lookup_mark in Hj. case_decide; [|by exists j].
  destruct (h !! p) as [j0|] eqn:Hj0; [|done]. injection Hj as <-. by exists j0.
Qed.

Lemma sorted_not_younger h sn pre it post :
  StronglySorted (older h) (pre ++ it :: post) → ¬ younger h sn it → Forall (λ p, ¬ younger h sn p) (pre ++ [it]).
Proof.
  intros Hs Hn. apply Forall_app. split; [|by constructor]. induction pre as [|a pre IH]; [done|]. cbn in Hs. apply StronglySorted_inv in Hs as [Hs Hf].
  constructor; [|by apply IH]. intros (i & Hi & Hlt). rewrite Forall_forall in Hf. destruct (Hf it) as (i' & j & Hi' & Hj & Hij); [set_solver|].
  apply Hn. exists j. split; [done|]. rewrite Hi in Hi'. injection Hi' as <-. lia.
Qed.

Lemma rob_ok_reads r r' : rthreads r' = rthreads r → activeThreads r' = activeThreads r → heap r' = heap r → numInstsInROB r' = numInstsInROB r →
  numEntries r' = numEntries r → rob_ok r → rob_ok r'.
Proof. intros H1 H2 H3 H4 H5 [Ht Ha Hc Hr]. split; rewrite ?H1, ?H2, ?H3, ?H4, ?H5; done. Qed.

Lemma updateTail_spec r : rob_ok r → ∃ x, updateTail r = Ok (with_tail x r).
Proof. intros Hok. unfold updateTail. destruct (update_tail_ok (activeThreads r) None r (rob_known r Hok)) as [x ->]. by eexists. Qed.

Lemma thread_known r tid t : rob_ok r → rthreads r !! tid = Some t → Forall (λ p, is_Some (heap r !! p)) (instList t) ∧ NoDup (instList t).
Proof.
  intros [Ht _ _ _] Hl. destruct (Ht _ _ Hl) as [_ Hi Hs _]. split; [|by eapply sorted_nodup]. eapply Forall_impl; [exact Hi|]. intros p (i & ? & _). by exists i.
Qed.

(** The end of a cycle: the thread is done, or the iterator is stored. *)
Lemma squash_finish h l tid r t mid post old st :
  rob_ok r → rthreads r !! tid = Some t → instList t = l → l = old ++ mid ++ post → heap r = mark post h →
  match squashIt st with Some it => doneSquashing st = false ∧ it ∈ l | None => doneSquashing st = true end →
  instList st = l → threadEntries st = threadEntries t →
  rob_ok (with_rthreads (<[tid := st]> (rthreads r)) (with_rheap (mark mid (heap r)) r)) ∧ mark mid (heap r) = mark (mid ++ post) h.
Proof.
  intros Hok Ht Hl Hsplit Hh Hst Hil Hte. split; [|by rewrite Hh, mark_app].
  eapply (rob_ok_reads (with_rheap (mark mid (heap r)) (with_rthreads (<[tid := st]> (rthreads r)) r))); try done.
  eapply rob_ok_change; try done; [apply mark_like|apply mark_inROB|by rewrite Hil|]. by rewrite Hl.
Qed.

Lemma sorted_unmark l h post : StronglySorted (older (mark post h)) l → StronglySorted (older h) l.
Proof.
  induction 1 as [|p l _ IH Hf]; constructor; [done|]. eapply Forall_impl; [exact Hf|]. intros q (i & j & Hi & Hj & Hlt). rewrite lookup_mark in Hi, Hj.
  assert (∀ x y, (if decide (x ∈ post) then squash_mark <$> h !! x else h !! x) = Some y → ∃ y', h !! x = Some y' ∧ seqNum y' = seqNum y) as Hu
    by (intros x y Hx; case_decide; [destruct (h !! x); [injection Hx as <-; by eexists|done]|by exists y]).
  destruct (Hu _ _ Hi) as (i' & Hi' & Hi2), (Hu _ _ Hj) as (j' & Hj' & Hj2). exists i', j'. split_and!; [done|done|lia].
Qed.

Lemma squashing_sorted h l sn tid it pre post r : squashing h l sn tid it pre post r → StronglySorted (older h) l.
Proof.
  intros [[Hts _ _ _] _ (t & Ht & <- & _) Hh _]. destruct (Hts _ _ Ht) as [_ _ Hs _]. rewrite Hh in Hs. by eapply sorted_unmark.
Qed.

Lemma squashing_tail h l sn tid it pre post r x : squashing h l sn tid it pre post r → squashing h l sn tid it pre post (with_tail x r).
Proof. intros [? ? ? ? ?]. split; [by eapply (rob_ok_reads r)|done..]. Qed.

Lemma over_tail h l sn tid r x : squash_over h l sn tid r → squash_over h l sn tid (with_tail x r).
Proof. intros [? ? ?]. split; [by eapply (rob_ok_reads r)|done..]. Qed.

Definition step_done (h : Heap) (l : list positive) (sn : Z) (tid : nat) (n : nat) (r r' : ROB) : Prop :=
  squashWidth r' = squashWidth r ∧
  (squash_over h l sn tid r' ∨ ∃ it pre post, squashing h l sn tid it pre post r' ∧ (length pre < n)%nat).

Lemma step_done_tail h l sn tid n r r' (upd : bool) : rob_ok r' → step_done h l sn tid n r r' →
  ∃ r'', (if upd then updateTail r' else Ok r') = Ok r'' ∧ step_done h l sn tid n r r''.
Proof.
  intros Hok Hd. destruct upd; [|by exists r']. destruct (updateTail_spec r' Hok) as [x ->]. exists (with_tail x r'). split; [done|].
  destruct Hd as [Hw [Ho|(it & pre & post & Hs & Hl)]]; (split; [done|]); [left; by apply over_tail|]. right. exists it, pre, post. split; [by apply squashing_tail|done].
Qed.

(** What is left of the cycle after the loop stopped at [it']. *)
Lemma squash_end h l sn tid it pre post r t mid it' pre' (upd : bool) :
  squashing h l sn tid it pre post r → rthreads r !! tid = Some t →
  pre ++ [it] = pre' ++ it' :: mid → Forall (younger h sn) mid → (younger h sn it' → (0 < length mid)%nat) →
  ∃ r', (i ← rinst it' (with_rheap (mark mid (heap r)) r);
         r ← (if seqNum i <=? squashedSeqNum t then done_squash tid (with_rheap (mark mid (heap r)) r)
              else rupd tid (with_squashIt (Some it')) (with_rheap (mark mid (heap r)) r));
         if upd then updateTail r else Ok r) = Ok r' ∧ step_done h l sn tid (length pre) r r'.
Proof.
  intros Hsq Ht Hsplit Hmid Hlen. pose proof (squashing_sorted _ _ _ _ _ _ _ _ Hsq) as Hsort. destruct Hsq as [Hok Hl (t0 & Ht0 & Hil & Hsn & Hit) Hh Hpost].
  assert (t0 = t) as -> by congruence. destruct (thread_known _ _ _ Hok Ht) as [Hk _].
  assert (l = pre' ++ it' :: mid ++ post) as Hl' by (rewrite Hl; change (it :: post) with ([it] ++ post); by rewrite app_assoc, Hsplit, <- app_assoc).
  assert (it' ∈ instList t) as Hin' by (rewrite Hil, Hl'; apply elem_of_app; right; left). rewrite Forall_forall in Hk. destruct (Hk it' Hin') as [i' Hi'].
  destruct (mark_like mid (heap r) it' i' Hi') as (i2 & Hi2 & Hs2 & _). unfold rinst. cbn [heap with_rheap]. rewrite Hi2. cbn [deref mbind res_bind].
  assert (younger h sn it' ↔ sn < seqNum i2) as Hyi.
  { rewrite <- (younger_mark post), <- Hh. split; [intros (j & Hj & Hlt); rewrite Hi' in Hj; injection Hj as <-; lia|]. intros. exists i'. split; [done|lia]. }
  rewrite Hsn. destruct (Z.leb_spec (seqNum i2) sn) as [Hle|Hgt].
  - unfold done_squash. rewrite (rupd_ok _ _ _ t) by done. cbn [mbind res_bind].
    destruct (squash_finish h l tid r t mid post (pre' ++ [it']) (with_doneSquashing true (with_squashIt None t))) as [Hok' Hm]; try done; [by rewrite <- app_assoc|].
    apply step_done_tail; [exact Hok'|]. split; [done|]. left. split; [exact Hok'| |].
    + eexists. split; [apply list_lookup_insert_eq; by apply lookup_lt_Some in Ht|done].
    + exists (pre' ++ [it']), (mid ++ post). split_and!; [by rewrite <- app_assoc|exact Hm|by apply Forall_app|].
      apply (sorted_not_younger h sn pre' it' (mid ++ post)); [by rewrite <- Hl'|]. rewrite Hyi. lia.
  - rewrite (rupd_ok _ _ _ t) by done. cbn [mbind res_bind].
    destruct (squash_finish h l tid r t mid post (pre' ++ [it']) (with_squashIt (Some it') t)) as [Hok' Hm]; try done; [by rewrite <- app_assoc|..].
    { cbn. split; [|by rewrite <- Hil]. destruct Hok as [Hts _ _ _]. destruct (Hts _ _ Ht) as [_ _ _ Hd]. rewrite Hit in Hd. by destruct Hd. }
    apply step_done_tail; [exact Hok'|]. split; [done|]. right. exists it', pre', (mid ++ post). split.
    + split; [exact Hok'|done| |exact Hm|by apply Forall_app]. eexists. split; [apply list_lookup_insert_eq; by apply lookup_lt_Some in Ht|done].
    + assert (younger h sn it') as Hy%Hlen by (apply Hyi; lia). apply (f_equal length) in Hsplit. rewrite !length_app in Hsplit. cbn in Hsplit. lia.
Qed.

Lemma doSquash_step h l sn tid it pre post r :
  squashing h l sn tid it pre post r → (0 < squashWidth r)%nat → ∃ r', doSquash tid r = Ok r' ∧ step_done h l sn tid (length pre) r r'.
Proof.
  intros Hsq0 Hw. assert (squashing h l sn tid it pre post (count_write r)) as Hsq by (destruct Hsq0 as [? ? ? ? ?]; split; [by eapply (rob_ok_reads r)|done..]).
  clear Hsq0. change (squashWidth r) with (squashWidth (count_write r)) in Hw.
  enough (∃ r', doSquash tid r = Ok r' ∧ step_done h l sn tid (length pre) (count_write r) r') as He by exact He.
  unfold doSquash. set (r0 := count_write r) in *. clearbody r0.
  pose proof Hsq as [Hok Hl (t & Ht & Hil & Hsn & Hit) Hh Hpost]. destruct (thread_known _ _ _ Hok Ht) as [Hk Hnd].
  unfold rget. rewrite Ht. cbn [deref mbind res_bind]. rewrite Hit. unfold valid_it.
  assert (it ∈ instList t) as Hin by (rewrite Hil, Hl; apply elem_of_app; right; left). rewrite (bool_decide_true (it ∈ _)) by done. cbn [mbind res_bind].
  pose proof Hk as Hk'. rewrite Forall_forall in Hk'. destruct (Hk' it Hin) as [i Hi]. assert (rinst it r0 = Ok i) as Hri by (unfold rinst; by rewrite Hi). rewrite Hri. cbn [mbind res_bind].
  assert (younger h sn it → sn < seqNum i) as Hyi by (rewrite <- (younger_mark post), <- Hh; intros (j & Hj & Hlt); congruence).
  destruct (Z.ltb_spec (seqNum i) (squashedSeqNum t)) as [Hlt|Hge].
  - destruct (squash_end h l sn tid it pre post r0 t [] it pre false Hsq Ht) as (r' & Hr' & Hd); [done|done|intros; specialize (Hyi H); lia|].
    exists r'. split; [|done]. rewrite <- Hr'. cbn [mark]. rewrite with_rheap_id, Hri. cbn [mbind res_bind].
    rewrite (proj2 (Z.leb_le _ _)) by lia. by destruct (done_squash tid r0).
  - destruct (squash_loop_spec (squashWidth r0) tid it false r0 t pre post Ht) as (b & it' & upd' & pre' & mid & -> & Hmid & Hb); [by rewrite Hil|done|done|].
    cbn [mbind res_bind]. rewrite Hsn, Hh in Hmid. assert (Forall (younger h sn) mid) as Hmid' by (eapply Forall_impl; [exact Hmid|]; intros p; apply younger_mark).
    destruct b.
    + unfold done_squash. rewrite (rupd_ok _ _ _ t) by done.
      destruct (squash_finish h l tid r0 t mid post [] (with_doneSquashing true (with_squashIt None t))) as [Hok' Hm]; try done; [by rewrite Hl, <- Hb, <- app_assoc|].
      eexists. split; [done|]. split; [done|]. left. split; [exact Hok'| |].
      * eexists. split; [apply list_lookup_insert_eq; by apply lookup_lt_Some in Ht|done].
      * exists [], (mid ++ post). split_and!; [by rewrite Hl, <- Hb, <- app_assoc|exact Hm|by apply Forall_app|done].
    + destruct Hb as [Hsplit Hlen]. apply (squash_end h l sn tid it pre post r0 t mid it' pre' upd'); try done.
      intros Hy. rewrite Hlen; [done|]. rewrite Hsn, Hh. by apply younger_mark.
Qed.

(** Cycles of a squash, until it is done. *)
Fixpoint squash_cycles (n : nat) (tid : nat) (r : ROB) : res ROB :=
  t ← rget tid r;
  if doneSquashing t then Ok r else match n with O => Fail OutOfFuel | S n => r ← doSquash tid r; squash_cycles n tid r end.

Lemma squash_cycles_over h l sn tid n r : squash_over h l sn tid r → squash_cycles n tid r = Ok r.
Proof. intros [_ (t & Ht & _ & Hd) _]. destruct n; cbn; unfold rget; rewrite Ht; cbn; by rewrite Hd. Qed.

Lemma squash_cycles_run h l sn tid n it pre post r :
  squashing h l sn tid it pre post r → (0 < squashWidth r)%nat → (length pre < n)%nat →
  ∃ r', squash_cycles n tid r = Ok r' ∧ squash_over h l sn tid r'.
Proof.
  revert it pre post r. induction n as [|n IH]; intros it pre post r Hsq Hw Hn; [lia|]. cbn [squash_cycles].
  destruct (sq_thread _ _ _ _ _ _ _ _ Hsq) as (t & Ht & _ & _ & Hit). unfold rget. rewrite Ht. cbn [deref mbind res_bind].
  destruct (sq_ok _ _ _ _ _ _ _ _ Hsq) as [Hts _ _ _]. destruct (Hts _ _ Ht) as [_ _ _ Hd]. rewrite Hit in Hd. destruct Hd as [-> _].
  destruct (doSquash_step _ _ _ _ _ _ _ _ Hsq Hw) as (r1 & -> & Hw1 & [Ho|(it' & pre' & post' & Hsq' & Hlt)]); cbn [mbind res_bind].
  - exists r1. split; [by eapply squash_cycles_over|done].
  - eapply (IH it' pre' post'); [done|lia|lia].
Qed.

(** The thread's squash begins at its last instruction. *)
Lemma squash_start sn tid r t : rob_ok r → rthreads r !! tid = Some t → instList t ≠ [] →
  ∃ it pre r0, instList t = pre ++ [it] ∧ squash sn tid r = doSquash tid r0 ∧ squashing (heap r) (instList t) sn tid it pre [] r0 ∧ squashWidth r0 = squashWidth r.
Proof.
  intros Hok Ht Hne. destruct (instList t) as [|it pre _] eqn:Hl using rev_ind; [done|]. pose proof (rob_threads _ Hok _ _ Ht) as [He _ _ _].
  unfold squash, rget. rewrite Ht. cbn [deref mbind res_bind]. unfold isEmptyThread. rewrite He, Hl. unfold vsize. rewrite length_app.
  rewrite (proj2 (Z.eqb_neq _ _)) by (cbn; lia). rewrite (rupd_ok _ _ _ t Ht). cbn [mbind res_bind]. rewrite last_snoc.
  erewrite rupd_ok by (cbn [rthreads with_rthreads]; apply list_lookup_insert_eq; by apply lookup_lt_Some in Ht). cbn [mbind res_bind].
  cbn [rthreads with_rthreads]. rewrite list_insert_insert_eq. eexists it, pre, _. split; [done|]. split; [done|]. split; [|done]. split.
  - set (t' := with_squashIt (Some it) _). apply (rob_ok_reads (with_rheap (heap r) (with_rthreads (<[tid := t']> (rthreads r)) r))); try done.
    apply (rob_ok_change r (heap r) tid t); try done.
    + intros p i Hi. by exists i.
    + intros p i Hi. by exists i.
    + cbn. split; [done|]. rewrite Hl. apply elem_of_app. right. left.
  - done.
  - eexists. split; [cbn; apply list_lookup_insert_eq; by apply lookup_lt_Some in Ht|]. cbn. by rewrite Hl.
  - done.
  - done.
Qed.

(** C17: a squash of the reorder buffer ends, and marks exactly the younger instructions: started
    on a thread with instructions and continued every cycle, it is done after at most as many
    cycles as the thread has instructions, whatever the squash width; then the thread's
    instructions after [sn] are squashed and ready to leave the buffer, no other instruction has
    changed, and the list of instructions is the same. *)
Theorem rob_squash_completes sn tid r t :
  rob_ok r → (0 < squashWidth r)%nat → rthreads r !! tid = Some t → instList t ≠ [] →
  ∃ r1 r' t', squash sn tid r = Ok r1 ∧ squash_cycles (length (instList t)) tid r1 = Ok r' ∧
    rthreads r' !! tid = Some t' ∧ instList t' = instList t ∧ doneSquashing t' = true ∧ rob_ok r' ∧
    ∀ p i, heap r !! p = Some i →
      heap r' !! p = Some (if bool_decide (p ∈ instList t) && (sn <? seqNum i) then setCanCommit (setSquashed i) else i).
Proof.
  intros Hok Hw Ht Hne. destruct (squash_start sn tid r t Hok Ht Hne) as (it & pre & r0 & Hl & Hrun & Hsq & Hw0).
  destruct (doSquash_step _ _ _ _ _ _ _ _ Hsq) as (r1 & Hr1 & Hw1 & Hd); [by rewrite Hw0|].
  assert (∃ r', squash_cycles (length (instList t)) tid r1 = Ok r' ∧ squash_over (heap r) (instList t) sn tid r') as (r' & Hr' & Ho).
  { destruct Hd as [Ho|(it' & pre' & post' & Hsq' & Hlt)]; [exists r1; split; [by eapply squash_cycles_over|done]|].
    eapply squash_cycles_run; [done|lia|]. rewrite Hl, length_app. cbn. lia. }
  destruct Ho as [Hok' (t' & Ht' & Hl' & Hdone) (old & young & Hsplit & Hh & Hy & Hold)]. exists r1, r', t'. split_and!; try done; [by rewrite Hrun|].
  intros p i Hi. rewrite Hh, lookup_mark, Hi. assert (p ∈ young ↔ p ∈ instList t ∧ sn < seqNum i) as Hiff.
  { rewrite Hsplit, elem_of_app. rewrite Forall_forall in Hy, Hold. split.
    - intros Hp. split; [by right|]. destruct (Hy p Hp) as (j & Hj & Hlt). congruence.
    - intros [[Hp|Hp] Hlt]; [|done]. destruct (Hold p Hp). by exists i. }
  destruct (bool_decide_reflect (p ∈ instList t)) as [Hin|Hin], (Z.ltb_spec sn (seqNum i)) as [Hlt|Hge]; cbn;
    first [by rewrite decide_True by (apply Hiff; done) | rewrite decide_False; [done|]; rewrite Hiff; intros []; by try lia].
Qed.

(** ** Insertion and retirement *)

Lemma sorted_snoc h l p : StronglySorted (older h) l → Forall (λ q, older h q p) l → StronglySorted (older h) (l ++ [p]).
Proof.
  induction 1 as [|q l _ IH Hf]; intros Ha; cbn; [by constructor; constructor|]. apply Forall_cons in Ha as [Hq Ha]. constructor; [by apply IH|].
  apply Forall_app. split; [done|by constructor].
Qed.

(** Threads after one of them and some instruction has changed. *)
Lemma threads_ok_change (h h' : Heap) (ths : list RobThread) tid t' :
  (∀ k t, ths !! k = Some t → thread_ok h k t) → heap_like h h' →
  (∀ k t p i, k ≠ tid → ths !! k = Some t → p ∈ instList t → h !! p = Some i → ∃ i', h' !! p = Some i' ∧ isInROB i' = true) →
  thread_ok h' tid t' → ∀ k t, <[tid := t']> ths !! k = Some t → thread_ok h' k t.
Proof.
  intros Hts Hlike Hin Ht' k t Hk. apply list_lookup_insert_Some in Hk as [(<- & <- & _)|[Hne Hk]]; [done|].
  destruct (Hts _ _ Hk) as [H1 H2 H3 H4]. split; [done| |by eapply sorted_like|done].
  apply Forall_forall. intros p Hp. rewrite Forall_forall in H2. destruct (H2 p Hp) as (i & Hi & Htn & _).
  destruct (Hlike p i Hi) as (i' & Hi' & _ & Htn'). destruct (Hin k t p i) as (i2 & Hi2 & Hrob); try done. exists i'. split_and!; [done|congruence|congruence].
Qed.

(** An instruction of one thread is not in the list of another. *)
Lemma other_thread r k t p i : rob_ok r → rthreads r !! k = Some t → p ∈ instList t → heap r !! p = Some i → threadNumber i = k.
Proof.
  intros [Hts _ _ _] Hk Hp Hi. destruct (Hts _ _ Hk) as [_ H2 _ _]. rewrite Forall_forall in H2. destruct (H2 p Hp) as (j & Hj & Htn & _). congruence.
Qed.

Lemma i32_id x : - 2 ^ 31 ≤ x < 2 ^ 31 → i32 x = x.
Proof. intros. unfold i32. rewrite Z.mod_small by lia. lia. Qed.

Lemma insert_thread_ok r p i t :
  rob_ok r → heap r !! p = Some i → rthreads r !! threadNumber i = Some t → numInstsInROB r < numEntries r → Forall (λ q, older (heap r) q p) (instList t) →
  thread_ok (<[p := setInROB i]> (heap r)) (threadNumber i) (with_threadEntries (u32 (threadEntries t + 1)) (with_instList (instList t ++ [p]) t)).
Proof.
  intros Hok Hi Ht Hroom Hold. pose proof (rob_threads _ Hok _ _ Ht) as [H1 H2 H3 H4]. pose proof Hok as [_ _ Hc Hr].
  pose proof (total_ge _ _ _ Ht) as Hge. assert (heap_like (heap r) (<[p := setInROB i]> (heap r))) as Hlike by (by apply (insert_like _ p i)).
  split; cbn [threadEntries instList with_threadEntries with_instList squashIt doneSquashing].
  - rewrite H1. unfold vsize in *. rewrite length_app. cbn [length]. rewrite wrap_small by (unfold in_width; lia). lia.
  - apply Forall_app. split; [|constructor; [exists (setInROB i); by rewrite lookup_insert_eq|done]]. eapply Forall_impl; [exact H2|]. intros q (j & Hj & Htn & Hin).
    destruct (decide (p = q)) as [<-|Hne]; [rewrite lookup_insert_eq; by exists (setInROB i)|rewrite lookup_insert_ne by done; by exists j].
  - eapply sorted_like; [exact Hlike|]. by apply sorted_snoc.
  - destruct (squashIt t); [|done]. destruct H4. split; [done|]. apply elem_of_app. by left.
Qed.

Lemma insertInst_spec r p i t :
  rob_ok r → heap r !! p = Some i → rthreads r !! threadNumber i = Some t → numInstsInROB r < numEntries r → Forall (λ q, older (heap r) q p) (instList t) →
  ∃ r' t', insertInst p r = Ok r' ∧ rob_ok r' ∧ rthreads r' = <[threadNumber i := t']> (rthreads r) ∧ instList t' = instList t ++ [p] ∧
    numInstsInROB r' = numInstsInROB r + 1 ∧ heap r' = <[p := setInROB i]> (heap r) ∧ tail r' = Some p ∧
    head r' = (if decide (numInstsInROB r = 0) then Some p else head r) ∧ activeThreads r' = activeThreads r.
Proof.
  intros Hok Hi Ht Hroom Hold. pose proof (insert_thread_ok r p i t Hok Hi Ht Hroom Hold) as Hth. pose proof Hok as [Hts Ha Hc Hr]. pose proof (total_nonneg (rthreads r)) as Htn.
  unfold insertInst. cbn [numInstsInROB numEntries count_write with_counts]. assert (u32 (numInstsInROB r) = numInstsInROB r) as Hu by (apply wrap_small; unfold in_width; lia).
  rewrite Hu, bind_assert by (apply negb_true_iff, Z.eqb_neq; lia). unfold rinst. cbn [heap count_write with_counts]. rewrite Hi. cbn [deref mbind res_bind].
  rewrite (rupd_ok _ _ _ t) by done. cbn [mbind res_bind]. set (t1 := with_instList (instList t ++ [p]) t). set (r1 := with_rthreads (<[threadNumber i := t1]> (rthreads (count_write r))) (count_write r)).
  assert (rthreads r1 !! threadNumber i = Some t1) as Ht1 by (cbn; apply list_lookup_insert_eq; by apply lookup_lt_Some in Ht).
  assert ((if numInstsInROB r1 =? 0 then t ← rget (threadNumber i) r1; _ ← assert_ (bool_decide (hd_error (instList t) = Some p)); Ok (with_head (hd_error (instList t)) r1) else Ok r1)
    = Ok (with_head (if decide (numInstsInROB r = 0) then Some p else head r) r1)) as ->.
  { change (numInstsInROB r1) with (numInstsInROB r). destruct (Z.eqb_spec (numInstsInROB r) 0) as [Hz|Hz]; [rewrite decide_True by done|rewrite decide_False by done; by destruct r].
    unfold rget. rewrite Ht1. cbn [deref mbind res_bind]. pose proof (total_ge _ _ _ Ht) as Hge. assert (instList t = []) as Hnil by (unfold vsize in Hge; destruct (instList t); [done|cbn in Hge; lia]).
    unfold t1. cbn. rewrite Hnil. cbn. by rewrite bind_assert by (by apply bool_decide_true). }
  cbn [mbind res_bind]. rewrite (rupd_inst_ok _ _ _ i) by done. cbn [mbind res_bind]. rewrite (rupd_ok _ _ _ t1) by done.
  eexists _, _. split; [done|]. cbn [rthreads with_rthreads with_numInsts with_rheap with_tail with_head r1 count_write with_counts]. rewrite list_insert_insert_eq.
  split; [|split; [done|]; cbn; split_and!; try done; apply i32_id; lia]. split; cbn.
  - eapply threads_ok_change; [exact Hts|by apply (insert_like _ p i)| |exact Hth].
    intros k t0 q j Hne Hk Hq Hj. destruct (decide (p = q)) as [<-|Hpq]; [pose proof (other_thread r k t0 p j Hok Hk Hq Hj); congruence|].
    rewrite lookup_insert_ne by done. destruct (Hts _ _ Hk) as [_ H2 _ _]. rewrite Forall_forall in H2. destruct (H2 q Hq) as (j' & Hj' & _ & Hin). exists j'. by split.
  - rewrite !length_insert. done.
  - rewrite (total_insert _ _ _ _ Ht). cbn. unfold vsize. rewrite length_app. cbn. rewrite i32_id by lia. lia.
  - rewrite i32_id by lia. lia.
Qed.

(** The head is the oldest of the threads' front instructions. *)
Definition oldest_front (r : ROB) : Prop :=
  match head r with
  | None => ∀ tid t, tid ∈ activeThreads r → rthreads r !! tid = Some t → instList t = []
  | Some p => ∃ tid n, tid ∈ activeThreads r ∧ front r tid p n ∧ ∀ tid' q k, tid' ∈ activeThreads r → front r tid' q k → n ≤ k
  end.

Lemma updateHead_spec r : rob_ok r → ∃ x, updateHead r = Ok (with_head x r) ∧ oldest_front (with_head x r).
Proof.
  intros Hok. unfold updateHead. destruct (update_head_spec (activeThreads r) None r (rob_known r Hok)) as (x & -> & Hx). cbn [mbind res_bind].
  exists (fst <$> x). split; [done|]. unfold oldest_front. cbn. destruct x as [[p n]|]; cbn in *.
  - destruct Hx as ([(tid & Hin & Hf)|?] & H2 & _); [|done]. exists tid, n. done.
  - destruct Hx as [_ H]. intros tid t Hin Ht. rewrite Forall_forall in H. by eapply H.
Qed.

Lemma retireHead_spec r tid t p l i :
  rob_ok r → rthreads r !! tid = Some t → instList t = p :: l → heap r !! p = Some i → readyToCommit i = true → squashIt t ≠ Some p →
  ∃ r' t', retireHead tid r = Ok r' ∧ rob_ok r' ∧ rthreads r' = <[tid := t']> (rthreads r) ∧ instList t' = l ∧ tail r' = tail r ∧
    numInstsInROB r' = numInstsInROB r - 1 ∧ removed r' = removed r ++ [p] ∧ oldest_front r' ∧
    heap r' = <[p := setCommitted (clearInROB i)]> (heap r).
Proof.
  intros Hok Ht Hl Hi Hready Hit. pose proof (rob_threads _ Hok _ _ Ht) as [H1 H2 H3 H4]. pose proof Hok as [Hts Ha Hc Hr].
  pose proof (total_ge _ _ _ Ht) as Hge. rewrite Hl in *. assert (vsize (p :: l) = vsize l + 1) as Hv by (unfold vsize; cbn [length]; lia).
  assert (0 ≤ vsize l) as Hv0 by (unfold vsize; lia). apply Forall_cons in H2 as [_ H2]. pose proof (sorted_nodup _ _ H3) as [Hp _]%NoDup_cons.
  apply StronglySorted_inv in H3 as [H3 _]. set (i' := setCommitted (clearInROB i)). set (t' := with_instList l (with_threadEntries (u32 (threadEntries t - 1)) t)).
  assert (heap_like (heap r) (<[p := i']> (heap r))) as Hlike by (by apply (insert_like _ p i)).
  set (r3 := with_rthreads (<[tid := t']> (rthreads r)) (with_rheap (<[p := i']> (heap r)) (with_numInsts (i32 (numInstsInROB r - 1)) (count_write r)))).
  assert (rob_ok r3) as Hok3.
  { split; cbn [rthreads activeThreads numInstsInROB numEntries heap r3 with_rthreads with_rheap with_numInsts count_write with_counts].
    - apply (threads_ok_change (heap r)); [done|done| |].
      + intros k t0 q j Hne Hk Hq Hj. destruct (decide (p = q)) as [<-|Hpq].
        * assert (p ∈ instList t) as Hpt by (rewrite Hl; left). pose proof (other_thread r k t0 p j Hok Hk Hq Hj). pose proof (other_thread r tid t p j Hok Ht Hpt Hj). congruence.
        * rewrite lookup_insert_ne by done. destruct (Hts _ _ Hk) as [_ Hk2 _ _]. rewrite Forall_forall in Hk2. destruct (Hk2 q Hq) as (j' & Hj' & _ & Hin). exists j'. by split.
      + split; cbn [threadEntries instList squashIt doneSquashing t' with_instList with_threadEntries].
        * rewrite H1, Hv, wrap_small by (unfold in_width; lia). lia.
        * apply Forall_forall. intros q Hq. rewrite lookup_insert_ne by (by intros ->). rewrite Forall_forall in H2. by apply H2.
        * by eapply sorted_like.
        * destruct (squashIt t) as [it|]; [|done]. destruct H4 as [Hd Hin]. split; [done|]. apply elem_of_cons in Hin as [->|]; done.
    - by rewrite length_insert.
    - rewrite (total_insert _ _ _ _ Ht), Hl, i32_id by lia. cbn. lia.
    - rewrite i32_id by lia. lia. }
  destruct (updateHead_spec r3 Hok3) as (x & Hup & Hold). exists (with_removed (removed r ++ [p]) (with_head x r3)), t'. split_and!; try done.
  - unfold retireHead. cbn [numInstsInROB count_write with_counts]. rewrite bind_assert by (apply Z.ltb_lt; lia). unfold rget. cbn [rthreads count_write with_counts].
    rewrite Ht. cbn [deref mbind res_bind]. rewrite Hl. unfold rinst. cbn [heap count_write with_counts]. rewrite Hi. cbn [deref mbind res_bind].
    rewrite Hready, bind_assert by done. rewrite (rupd_ok _ _ _ t) by done. cbn [mbind res_bind]. rewrite (rupd_inst_ok _ _ _ i) by done. cbn [mbind res_bind].
    erewrite rupd_ok by (cbn; apply list_lookup_insert_eq; by apply lookup_lt_Some in Ht). cbn [mbind res_bind].
    cbn [rthreads with_rthreads with_rheap with_numInsts count_write with_counts]. rewrite list_insert_insert_eq. fold t' i'.
    change (updateHead _) with (updateHead r3) at 1. by rewrite Hup.
  - by eapply (rob_ok_reads r3).
  - cbn. apply i32_id. lia.
Qed.

(** Insertion and the head. *)
Lemma front_insert r r' p i t t' tid q k :
  rthreads r !! threadNumber i = Some t → rthreads r' = <[threadNumber i := t']> (rthreads r) → instList t' = instList t ++ [p] →
  heap r !! p = Some i → heap r' = <[p := setInROB i]> (heap r) →
  front r' tid q k ↔ front r tid q k ∨ tid = threadNumber i ∧ instList t = [] ∧ q = p ∧ k = seqNum i.
Proof.
  intros Ht Hts Hl Hi Hh. assert (∀ q j, heap r' !! q = Some j ↔ ∃ j0, heap r !! q = Some j0 ∧ j = if decide (p = q) then setInROB i else j0) as Hheap.
  { intros q0 j. rewrite Hh. case_decide as Hpq; [subst q0; rewrite lookup_insert_eq|rewrite lookup_insert_ne by done]; naive_solver. }
  pose proof (lookup_lt_Some _ _ _ Ht) as Hlt. unfold front. rewrite Hts. split.
  - intros (u & l & j & Hu & Hul & (j0 & Hj0 & ->)%Hheap & <-). assert (seqNum (if decide (p = q) then setInROB i else j0) = seqNum j0) as ->.
    { case_decide as Hpq; [|done]. subst q. rewrite Hi in Hj0. by injection Hj0 as <-. }
    apply list_lookup_insert_Some in Hu as [(<- & <- & _)|[Hne Hu]]; [|left; by exists u, l, j0].
    rewrite Hl in Hul. destruct (instList t) as [|x l0] eqn:Hlt0; cbn in Hul; injection Hul as -> <-; [|left; by exists t, l0, j0].
    right. split_and!; try done. congruence.
  - intros [(u & l & j & Hu & Hul & Hj & <-)|(-> & Hnil & -> & ->)].
    + destruct (decide (threadNumber i = tid)) as [<-|Hne].
      * rewrite Ht in Hu. injection Hu as <-. exists t', (l ++ [p]), (if decide (p = q) then setInROB i else j). rewrite list_lookup_insert_eq by done.
        split_and!; [done|by rewrite Hl, Hul|apply Hheap; by exists j|]. case_decide as Hpq; [|done]. subst q. rewrite Hi in Hj. by injection Hj as <-.
      * exists u, l, (if decide (p = q) then setInROB i else j). rewrite list_lookup_insert_ne by done. split_and!; [done|done|apply Hheap; by exists j|].
        case_decide as Hpq; [|done]. subst q. rewrite Hi in Hj. by injection Hj as <-.
    + exists t', [], (setInROB i). rewrite list_lookup_insert_eq by done. split_and!; [done|by rewrite Hl, Hnil|apply Hheap; exists i; by rewrite decide_True|done].
Qed.

(** Only active threads have instructions. *)
Definition only_active (r : ROB) : Prop := ∀ tid t, rthreads r !! tid = Some t → instList t ≠ [] → tid ∈ activeThreads r.

Lemma total_0 l : total l = 0 → Forall (λ t, instList t = []) l.
Proof.
  induction l as [|t l IH]; cbn; [constructor|]. intros H0. pose proof (total_nonneg l). unfold vsize in H0.
  constructor; [destruct (instList t); [done|cbn in H0; lia]|apply IH; lia].
Qed.

Lemma insert_head r r' p i t t' :
  rob_ok r → heap r !! p = Some i → rthreads r !! threadNumber i = Some t → rthreads r' = <[threadNumber i := t']> (rthreads r) →
  instList t' = instList t ++ [p] → heap r' = <[p := setInROB i]> (heap r) → activeThreads r' = activeThreads r →
  head r' = (if decide (numInstsInROB r = 0) then Some p else head r) → oldest_front r → only_active r → threadNumber i ∈ activeThreads r →
  oldest_front r' ↔ (instList t = [] → ∀ q j, head r = Some q → heap r !! q = Some j → seqNum j ≤ seqNum i).
Proof.
  intros Hok Hi Ht Hts Hl Hh Hact Hhd Hold Hon Hin.
  assert (∀ tid q k, front r' tid q k ↔ front r tid q k ∨ tid = threadNumber i ∧ instList t = [] ∧ q = p ∧ k = seqNum i) as Hf by (intros; by eapply front_insert).
  assert (∀ tid q k, front r tid q k → numInstsInROB r ≠ 0) as Hne.
  { intros tid q k (u & l & _ & Hu & Hul & _) H0. rewrite (rob_count _ Hok) in H0. pose proof (Forall_lookup_1 _ _ _ _ (total_0 _ H0) Hu) as Hnil. cbn in Hnil. congruence. }
  destruct (head r) as [q|] eqn:Hr; unfold oldest_front in Hold; rewrite Hr in Hold.
  - destruct Hold as (tid & n & Htid & Hq & Hmin). rewrite decide_False in Hhd by (by eapply Hne). unfold oldest_front. rewrite Hhd, Hact.
    pose proof Hq as (_ & _ & j & _ & _ & Hj & Hjn). split.
    + intros (tid' & n' & Htid' & Hq' & Hmin') Hnil q0 j0 [= <-] Hj0. assert (j0 = j) as -> by congruence.
      assert (n' = seqNum j) as <-; [|apply (Hmin' (threadNumber i) p); [done|apply Hf; by right]].
      apply Hf in Hq' as [(_ & _ & j1 & _ & _ & Hj1 & <-)|(_ & _ & -> & ->)]; congruence.
    + intros Hage. exists tid, n. split; [done|]. split; [apply Hf; by left|]. intros tid' q' k Htid' [Hf'|(-> & Hnil & -> & ->)]%Hf; [by eapply Hmin|].
      rewrite <- Hjn. by apply (Hage Hnil q).
  - assert (numInstsInROB r = 0) as H0.
    { rewrite (rob_count _ Hok). assert (∀ u, u ∈ rthreads r → instList u = []) as Hall.
      { intros u [k Hk]%list_elem_of_lookup. destruct (instList u) as [|x l] eqn:Hu; [done|]. rewrite <- Hu. apply (Hold k u); [|done]. apply (Hon k u Hk). by rewrite Hu. }
      clear -Hall. induction (rthreads r) as [|u l IH]; [done|]. cbn. rewrite (Hall u) by left. rewrite IH; [done|]. intros v Hv. apply Hall. by right. }
    rewrite decide_True in Hhd by done. split; [done|]. intros _. unfold oldest_front. rewrite Hhd, Hact. exists (threadNumber i), (seqNum i).
    assert (instList t = []) as Hnil by (by apply (Hold (threadNumber i))).
    split; [done|]. split; [apply Hf; by right|]. intros tid' q' k _ [Hf'|(_ & _ & _ & ->)]%Hf; [|done]. by destruct (Hne _ _ _ Hf').
Qed.

(** C30: the reorder buffer keeps its books and is first in, first out.  Its counters are the sizes
    of its lists, each thread's list holds that thread's instructions in order.  With room, an
    instruction younger than those of its thread goes to the end of its thread's list and becomes
    the tail; the head stays the oldest of the threads' front instructions, unless the instruction
    is the first of its thread and older than the head, which is then left behind.  A front
    instruction that is ready, and that a squash in progress has not come to, retires and is the
    only one to leave, the CPU is told, and the head becomes the oldest front instruction,
    whatever it was before. *)
Theorem rob_invariant r :
  rob_ok r →
  (∀ p i t, heap r !! p = Some i → rthreads r !! threadNumber i = Some t → numInstsInROB r < numEntries r →
     Forall (λ q, older (heap r) q p) (instList t) →
     ∃ r' t', insertInst p r = Ok r' ∧ rob_ok r' ∧ rthreads r' = <[threadNumber i := t']> (rthreads r) ∧ instList t' = instList t ++ [p] ∧
       tail r' = Some p ∧ head r' = (if decide (numInstsInROB r = 0) then Some p else head r) ∧
       (oldest_front r → only_active r → threadNumber i ∈ activeThreads r →
        oldest_front r' ↔ (instList t = [] → ∀ q j, head r = Some q → heap r !! q = Some j → seqNum j ≤ seqNum i))) ∧
  (∀ tid t p l i, rthreads r !! tid = Some t → instList t = p :: l → heap r !! p = Some i → readyToCommit i = true → squashIt t ≠ Some p →
     ∃ r' t', retireHead tid r = Ok r' ∧ rob_ok r' ∧ rthreads r' = <[tid := t']> (rthreads r) ∧ instList t' = l ∧
       removed r' = removed r ++ [p] ∧ oldest_front r' ∧ tail r' = tail r).
Proof.
  intros Hok. split.
  - intros p i t Hi Ht Hroom Hold. destruct (insertInst_spec r p i t Hok Hi Ht Hroom Hold) as (r' & t' & H1 & H2 & H3 & H4 & _ & H5 & H6 & H7 & H8).
    exists r', t'. split_and!; try done. intros Ho Hon Hin. by apply (insert_head r r' p i t t').
  - intros tid t p l i Ht Hl Hi Hr Hit. destruct (retireHead_spec r tid t p l i Hok Ht Hl Hi Hr Hit) as (r' & t' & H1 & H2 & H3 & H4 & H0 & _ & H5 & H6 & _). by exists r', t'.
Qed.

(** ** A small buffer *)

Definition demo_inst (seq : Z) : DynInst :=
  mkDynInst (mkStaticInst [] [] 0 0 0 false false false false false false) seq 0 (mkInstStatus false false false false false true false false) [] [] 0 [] [] [].
Definition demo_insts : Heap := list_to_map ((λ n, (Pos.of_nat n, demo_inst (10 * Z.of_nat n))) <$> seq 1 5).
Definition demo_empty : ROB := newROB 8 2 Dynamic 0 1 [0%nat] RobIdle demo_insts.

Fixpoint insert_all (l : list positive) (r : ROB) : res ROB := match l with [] => Ok r | p :: l => r ← insertInst p r; insert_all l r end.
Definition demo_rob : ROB := match insert_all [1; 2; 3; 4; 5]%positive demo_empty with Ok r => r | Fail _ => demo_empty end.

Definition demo_rthread : RobThread := mkRobThread RobIdle [1; 2; 3; 4; 5]%positive 5 8 None 0 true.

Lemma demo_rob_ok : rob_ok demo_rob.
Proof.
  split.
  - intros [|tid] t Ht; vm_compute in Ht; [|done]. injection Ht as <-. split.
    + reflexivity.
    + repeat constructor; eexists; (split; [vm_compute; reflexivity|]); done.
    + repeat constructor; (eexists _, _; (split; [vm_compute; reflexivity|]); (split; [vm_compute; reflexivity|]); cbn; lia).
    + done.
  - repeat constructor.
  - reflexivity.
  - by vm_compute.
Qed.

Lemma rob_squash_completes_witness :
  ∃ r1 r', squash 25 0 demo_rob = Ok r1 ∧ squash_cycles 5 0 r1 = Ok r' ∧
    (isSquashed <$> heap r' !! 2%positive) = Some false ∧ (isSquashed <$> heap r' !! 3%positive) = Some true.
Proof.
  destruct (rob_squash_completes 25 0 demo_rob demo_rthread) as (r1 & r' & t' & H1 & H2 & _ & _ & _ & _ & H3).
  - apply demo_rob_ok.
  - vm_compute. lia.
  - vm_compute. reflexivity.
  - done.
  - exists r1, r'. split; [exact H1|]. split; [exact H2|]. split; (erewrite H3 by (vm_compute; reflexivity)); reflexivity.
Defined.

Lemma rob_invariant_witness : ∃ r' t', retireHead 0 demo_rob = Ok r' ∧ rthreads r' = <[0%nat := t']> (rthreads demo_rob) ∧ instList t' = [2; 3; 4; 5]%positive.
Proof.
  destruct (rob_invariant demo_rob demo_rob_ok) as [_ H].
  destruct (H 0%nat demo_rthread 1%positive [2; 3; 4; 5]%positive (setInROB (demo_inst 10))) as (r' & t' & H1 & _ & H2 & H3 & _);
    [vm_compute; reflexivity|reflexivity|vm_compute; reflexivity|reflexivity|done|].
  exists r', t'. split; [exact H1|]. split; [exact H2|exact H3].
Defined.

End O3RobProofs.
