(* ===== verification/Fplib.v ===== *)
(** * Floating point of the ARM model

    [arch/arm/insts/fplib.hh] and [fplib.cc]: the arithmetic of binary16, binary32 and binary64
    in integer code.  The source has one copy of most functions per width that differ in
    constants only; such a function is one definition over a [format] here, followed by its
    instances with the source's names.  Functions that differ in more than constants
    (multiplication, division, square root, conversions) are separate definitions.

    The [int *flags] a function accumulates exceptions in is an argument and a result; the
    rounding functions assert that the rounding mode is not "ties away", so what
    calls them returns a [res]. *)

From S2P Require Import Prelude.

Open Scope Z_scope.

Module Fplib.

(** ** Constants *)

Definition FPLIB_RN : Z := 0.
Definition FPLIB_RP : Z := 1.
Definition FPLIB_RM : Z := 2.
Definition FPLIB_RZ : Z := 3.
Definition FPLIB_FZ : Z := 4.
Definition FPLIB_DN : Z := 8.
Definition FPLIB_AHP : Z := 16.

Definition FPLIB_IDC : Z := 128.
Definition FPLIB_IXC : Z := 16.
Definition FPLIB_UFC : Z := 8.
Definition FPLIB_OFC : Z := 4.
Definition FPLIB_DZC : Z := 2.
Definition FPLIB_IOC : Z := 1.

(** [enum FPRounding] *)
Definition FPRounding_TIEEVEN : Z := 0.
Definition FPRounding_POSINF : Z := 1.
Definition FPRounding_NEGINF : Z := 2.
Definition FPRounding_ZERO : Z := 3.
Definition FPRounding_TIEAWAY : Z := 4.
Definition FPRounding_ODD : Z := 5.

(** The constants of a width: bits of a word and of the fraction, the exponent of infinities
    and NaNs, and the shift and mask by which rounding drops low bits. *)
Record format := mkFormat {
  width : Z;
  mbits : Z;
  emax : Z;
  drop : Z;
  dropmask : Z;
  half : nat
}.

Definition F16 : format := mkFormat 16 10 31 4 31 3.
Definition F32 : format := mkFormat 32 23 255 7 255 4.
Definition F64 : format := mkFormat 64 52 2047 10 0x3ff 5.

(** [x != 0], and [!!x] as an integer. *)
Definition nz (x : Z) : bool := negb (x =? 0).
Definition nzi (x : Z) : Z := Z.b2z (nz x).
Definition lnot (x : Z) : Z := Z.b2z (x =? 0).

(** ** Words *)

Definition lsl (w x shift : Z) : Z := if shift <? w then wrap w (Z.shiftl x shift) else 0.
Definition lsr (w x shift : Z) : Z := if shift <? w then Z.shiftr x shift else 0.

Definition lsl16 : Z → Z → Z := lsl 16.
Definition lsr16 : Z → Z → Z := lsr 16.
Definition lsl32 : Z → Z → Z := lsl 32.
Definition lsr32 : Z → Z → Z := lsr 32.
Definition lsl64 : Z → Z → Z := lsl 64.
Definition lsr64 : Z → Z → Z := lsr 64.

(** 128-bit numbers are pairs (low word, high word). *)
Definition lsl128 (x0 x1 shift : Z) : Z * Z :=
  if shift =? 0 then (x0, x1)
  else if shift <? 64 then
    (u64 (Z.shiftl x0 shift), Z.lor (u64 (Z.shiftl x1 shift)) (Z.shiftr x0 (64 - shift)))
  else if shift <? 128 then (0, u64 (Z.shiftl x0 (shift - 64)))
  else (0, 0).

Definition lsr128 (x0 x1 shift : Z) : Z * Z :=
  if shift =? 0 then (x0, x1)
  else if shift <? 64 then
    (Z.lor (Z.shiftr x0 shift) (u64 (Z.shiftl x1 (64 - shift))), Z.shiftr x1 shift)
  else if shift <? 128 then (Z.shiftr x1 (shift - 64), 0)
  else (0, 0).

Definition mul62x62 (a b : Z) : Z * Z :=
  let mask := 2 ^ 31 - 1 in
  let a0 := Z.land a mask in
  let a1 := Z.land (Z.shiftr a 31) mask in
  let b0 := Z.land b mask in
  let b1 := Z.land (Z.shiftr b 31) mask in
  let p0 := u64 (a0 * b0) in
  let p2 := u64 (a1 * b1) in
  let p1 := u64 ((a0 + a1) * (b0 + b1) - p0 - p2) in
  let s0 := p0 in
  let s1 := u64 (Z.shiftr s0 31 + p1) in
  let s2 := u64 (Z.shiftr s1 31 + p2) in
  (Z.lor (Z.lor (Z.land s0 mask) (u64 (Z.shiftl (Z.land s1 mask) 31))) (u64 (Z.shiftl s2 62)),
   Z.shiftr s2 2).

Definition mul64x32 (a b : Z) : Z * Z :=
  let t0 := u64 (u32 a * b) in
  let t1 := u64 (Z.shiftr t0 32 + u64 (Z.shiftr a 32 * b)) in
  (Z.lor (u64 (Z.shiftl t1 32)) (u32 t0), Z.shiftr t1 32).

Definition add128 (a0 a1 b0 b1 : Z) : Z * Z :=
  let x0 := u64 (a0 + b0) in
  (x0, u64 (a1 + b1 + Z.b2z (x0 <? a0))).

Definition sub128 (a0 a1 b0 b1 : Z) : Z * Z :=
  let x0 := u64 (a0 - b0) in
  (x0, u64 (a1 - b1 - Z.b2z (a0 <? x0))).

Definition cmp128 (a0 a1 b0 b1 : Z) : Z :=
  if a1 <? b1 then -1 else if b1 <? a1 then 1 else if a0 <? b0 then -1 else if b0 <? a0 then 1 else 0.

(** The loop of [fpN_normalise]: the shift is [2^k], down to 1. *)
Fixpoint norm_loop (w : Z) (k : nat) (mnt exp : Z) : Z * Z :=
  let shift := 2 ^ Z.of_nat k in
  let '(mnt, exp) :=
    if Z.shiftr mnt (w - shift) =? 0 then (wrap w (Z.shiftl mnt shift), exp - shift) else (mnt, exp) in
  match k with
  | O => (mnt, exp)
  | S k => norm_loop w k mnt exp
  end.

Definition fp_normalise (f : format) (mnt exp : Z) : Z * Z :=
  if mnt =? 0 then (0, exp) else norm_loop (width f) (half f) mnt exp.
Definition fp16_normalise := fp_normalise F16.
Definition fp32_normalise := fp_normalise F32.
Definition fp64_normalise := fp_normalise F64.

Fixpoint norm128_loop (k : nat) (x0 x1 exp : Z) : Z * Z * Z :=
  let shift := 2 ^ Z.of_nat k in
  let '(x0, x1, exp) :=
    if Z.shiftr x1 (64 - shift) =? 0
    then (u64 (Z.shiftl x0 shift), Z.lor (u64 (Z.shiftl x1 shift)) (Z.shiftr x0 (64 - shift)), exp - shift)
    else (x0, x1, exp) in
  match k with
  | O => (x0, x1, exp)
  | S k => norm128_loop k x0 x1 exp
  end.

Definition fp128_normalise (x0 x1 exp : Z) : Z * Z * Z :=
  if (x0 =? 0) && (x1 =? 0) then (x0, x1, exp)
  else
    let '(x0, x1, exp) := if x1 =? 0 then (0, x0, exp - 64) else (x0, x1, exp) in
    norm128_loop 5 x0 x1 exp.

(** ** Packing and unpacking *)

Definition fp_pack (f : format) (sgn exp mnt : Z) : Z :=
  wrap (width f)
    (Z.lor (Z.lor (Z.shiftl (wrap (width f) sgn) (width f - 1)) (Z.shiftl (wrap (width f) exp) (mbits f)))
       (Z.land mnt (2 ^ mbits f - 1))).
Definition fp16_pack := fp_pack F16.
Definition fp32_pack := fp_pack F32.
Definition fp64_pack := fp_pack F64.

Definition fp_zero (f : format) (sgn : Z) : Z := fp_pack f sgn 0 0.
Definition fp16_zero := fp_zero F16.
Definition fp32_zero := fp_zero F32.
Definition fp64_zero := fp_zero F64.

Definition fp_max_normal (f : format) (sgn : Z) : Z := fp_pack f sgn (emax f - 1) (-1).
Definition fp16_max_normal := fp_max_normal F16.
Definition fp32_max_normal := fp_max_normal F32.
Definition fp64_max_normal := fp_max_normal F64.

Definition fp_infinity (f : format) (sgn : Z) : Z := fp_pack f sgn (emax f) 0.
Definition fp16_infinity := fp_infinity F16.
Definition fp32_infinity := fp_infinity F32.
Definition fp64_infinity := fp_infinity F64.

Definition fp_defaultNaN (f : format) : Z := fp_pack f 0 (emax f) (2 ^ (mbits f - 1)).
Definition fp16_defaultNaN := fp_defaultNaN F16.
Definition fp32_defaultNaN := fp_defaultNaN F32.
Definition fp64_defaultNaN := fp_defaultNaN F64.

(** An unpacked operand. *)
Record unpacked := mkUnpacked { sgn : Z; exp : Z; mnt : Z }.

Definition raw_exp (f : format) (x : Z) : Z := Z.land (Z.shiftr x (mbits f)) (emax f).
Definition raw_mnt (f : format) (x : Z) : Z := Z.land x (2 ^ mbits f - 1).

(** [fp16_unpack] never flushes to zero. *)
Definition fp16_unpack (x mode flags : Z) : unpacked * Z :=
  let e := raw_exp F16 x in
  let m := raw_mnt F16 x in
  if nz e then (mkUnpacked (Z.shiftr x 15) e (Z.lor m (2 ^ 10)), flags)
  else (mkUnpacked (Z.shiftr x 15) (e + 1) m, flags).

Definition fp_unpack (f : format) (x mode flags : Z) : unpacked * Z :=
  let s := Z.shiftr x (width f - 1) in
  let e := raw_exp f x in
  let m := raw_mnt f x in
  if nz e then (mkUnpacked s e (Z.lor m (2 ^ mbits f)), flags)
  else if nz (Z.land mode FPLIB_FZ) && nz m then (mkUnpacked s (e + 1) 0, Z.lor flags FPLIB_IDC)
  else (mkUnpacked s (e + 1) m, flags).
Definition fp32_unpack := fp_unpack F32.
Definition fp64_unpack := fp_unpack F64.

(** ** NaNs *)

Definition fp_process_NaN (f : format) (a mode flags : Z) : Z * Z :=
  let '(a, flags) :=
    if negb (Z.testbit a (mbits f - 1)) then (Z.lor a (2 ^ (mbits f - 1)), Z.lor flags FPLIB_IOC) else (a, flags) in
  (if nz (Z.land mode FPLIB_DN) then fp_defaultNaN f else a, flags).
Definition fp32_process_NaN := fp_process_NaN F32.
Definition fp64_process_NaN := fp_process_NaN F64.

Definition is_NaN (f : format) (a : Z) : bool := (raw_exp f a =? emax f) && nz (raw_mnt f a).
Definition is_sNaN (f : format) (a : Z) : bool := is_NaN f a && negb (Z.testbit (raw_mnt f a) (mbits f - 1)).

Definition fp_process_NaNs (f : format) (a b mode flags : Z) : Z * Z :=
  if is_sNaN f a then fp_process_NaN f a mode flags
  else if is_sNaN f b then fp_process_NaN f b mode flags
  else if is_NaN f a then fp_process_NaN f a mode flags
  else if is_NaN f b then fp_process_NaN f b mode flags
  else (0, flags).
Definition fp32_process_NaNs := fp_process_NaNs F32.
Definition fp64_process_NaNs := fp_process_NaNs F64.

Definition fp_process_NaNs3 (f : format) (a b c mode flags : Z) : Z * Z :=
  if is_sNaN f a then fp_process_NaN f a mode flags
  else if is_sNaN f b then fp_process_NaN f b mode flags
  else if is_sNaN f c then fp_process_NaN f c mode flags
  else if is_NaN f a then fp_process_NaN f a mode flags
  else if is_NaN f b then fp_process_NaN f b mode flags
  else if is_NaN f c then fp_process_NaN f c mode flags
  else (0, flags).
Definition fp32_process_NaNs3 := fp_process_NaNs3 F32.
Definition fp64_process_NaNs3 := fp_process_NaNs3 F64.

(** ** Rounding *)

(** The exponent, significand and two error bits of a value before rounding. *)
Definition round_parts (f : format) (exp mnt : Z) : Z * Z * Z :=
  let w := width f in
  let mnt := Z.lor (Z.lor (2 ^ (mbits f + 2)) (Z.shiftr mnt (drop f))) (nzi (Z.land mnt (dropmask f))) in
  if 0 <? exp then (exp, Z.shiftr mnt 2, Z.land mnt 3)
  else
    (0, lsr w mnt (3 - exp),
     Z.lor (Z.land (lsr w mnt (1 - exp)) 3) (nzi (Z.land mnt (wrap w (lsl w 1 (1 - exp) - 1))))).

Definition round_up (rm sgn int_mant error : Z) : bool :=
  ((rm =? FPLIB_RN) && ((error =? 3) || ((error =? 2) && Z.odd int_mant))) ||
  ((((rm =? FPLIB_RP) && negb (nz sgn)) || ((rm =? FPLIB_RM) && nz sgn)) && nz error).

(** [++int_mant], with the two carries into the exponent. *)
Definition round_bump (f : format) (rm sgn biased_exp int_mant error : Z) : Z * Z :=
  if round_up rm sgn int_mant error then
    let int_mant := wrap (width f) (int_mant + 1) in
    let biased_exp := if int_mant =? 2 ^ mbits f then 1 else biased_exp in
    if int_mant =? 2 ^ (mbits f + 1) then (biased_exp + 1, Z.shiftr int_mant 1) else (biased_exp, int_mant)
  else (biased_exp, int_mant).

Definition to_infinity (rm sgn : Z) : bool :=
  (rm =? FPLIB_RN) || ((rm =? FPLIB_RP) && negb (nz sgn)) || ((rm =? FPLIB_RM) && nz sgn).

Definition fp16_round_ (sgn exp mnt rm mode flags : Z) : res (Z * Z) :=
  _ ← assert_ (negb (rm =? FPRounding_TIEAWAY));
  let '(biased_exp, int_mant, error) := round_parts F16 exp mnt in
  let flags := if negb (nz biased_exp) && nz error then Z.lor flags FPLIB_UFC else flags in
  let '(biased_exp, int_mant) := round_bump F16 rm sgn biased_exp int_mant error in
  let int_mant := if nz error && (rm =? FPRounding_ODD) then Z.lor int_mant 1 else int_mant in
  if negb (nz (Z.land mode FPLIB_AHP)) && (31 <=? biased_exp) then
    let flags := Z.lor flags (Z.lor FPLIB_OFC FPLIB_IXC) in
    Ok (if to_infinity rm sgn then fp16_infinity sgn else fp16_max_normal sgn, flags)
  else if nz (Z.land mode FPLIB_AHP) && (32 <=? biased_exp) then
    Ok (fp16_pack sgn 31 (-1), Z.lor flags FPLIB_IOC)
  else
    let flags := if nz error then Z.lor flags FPLIB_IXC else flags in
    Ok (fp16_pack sgn biased_exp int_mant, flags).

Definition fp_round_ (f : format) (sgn exp mnt rm mode flags : Z) : res (Z * Z) :=
  _ ← assert_ (negb (rm =? FPRounding_TIEAWAY));
  if nz (Z.land mode FPLIB_FZ) && (exp <? 1) then Ok (fp_zero f sgn, Z.lor flags FPLIB_UFC)
  else
    let '(biased_exp, int_mant, error) := round_parts f exp mnt in
    let flags := if negb (nz biased_exp) && nz error then Z.lor flags FPLIB_UFC else flags in
    let '(biased_exp, int_mant) := round_bump f rm sgn biased_exp int_mant error in
    let int_mant := if nz error && (rm =? FPRounding_ODD) then Z.lor int_mant 1 else int_mant in
    if emax f <=? biased_exp then
      let flags := Z.lor flags (Z.lor FPLIB_OFC FPLIB_IXC) in
      Ok (if to_infinity rm sgn then fp_infinity f sgn else fp_max_normal f sgn, flags)
    else
      let flags := if nz error then Z.lor flags FPLIB_IXC else flags in
      Ok (fp_pack f sgn biased_exp int_mant, flags).
Definition fp32_round_ := fp_round_ F32.
Definition fp64_round_ := fp_round_ F64.

Definition fp_round (f : format) (sgn exp mnt mode flags : Z) : res (Z * Z) :=
  fp_round_ f sgn exp mnt (Z.land mode 3) mode flags.
Definition fp32_round := fp_round F32.
Definition fp64_round := fp_round F64.

(** ** Comparison *)

(** [exp == 255 && (uint32_t)(mnt << 9)] on an unpacked operand. *)
Definition nan_bits (f : format) (a : unpacked) : bool :=
  (exp a =? emax f) && nz (wrap (width f) (Z.shiftl (mnt a) (width f - mbits f))).

Definition fp_compare_eq (f : format) (a b mode flags : Z) : bool * Z :=
  let '(ua, flags) := fp_unpack f a mode flags in
  let '(ub, flags) := fp_unpack f b mode flags in
  if nan_bits f ua || nan_bits f ub then
    let flags :=
      if (nan_bits f ua && negb (Z.testbit a (mbits f - 1))) || (nan_bits f ub && negb (Z.testbit b (mbits f - 1)))
      then Z.lor flags FPLIB_IOC else flags in
    (false, flags)
  else ((a =? b) || (negb (nz (mnt ua)) && negb (nz (mnt ub))), flags).
Definition fp32_compare_eq := fp_compare_eq F32.
Definition fp64_compare_eq := fp_compare_eq F64.

(** The two ordered comparisons differ in the result for equal operands. *)
Definition fp_compare_order (f : format) (if_equal : bool) (a b mode flags : Z) : bool * Z :=
  let '(ua, flags) := fp_unpack f a mode flags in
  let '(ub, flags) := fp_unpack f b mode flags in
  if nan_bits f ua || nan_bits f ub then (false, Z.lor flags FPLIB_IOC)
  else if negb (nz (mnt ua)) && negb (nz (mnt ub)) then (if_equal, flags)
  else if negb (sgn ua =? sgn ub) then (nz (sgn ub), flags)
  else if negb (exp ua =? exp ub) then (nz (Z.lxor (sgn ua) (Z.b2z (exp ub <? exp ua))), flags)
  else if negb (mnt ua =? mnt ub) then (nz (Z.lxor (sgn ua) (Z.b2z (mnt ub <? mnt ua))), flags)
  else (if_equal, flags).
Definition fp32_compare_ge := fp_compare_order F32 true.
Definition fp32_compare_gt := fp_compare_order F32 false.
Definition fp64_compare_ge := fp_compare_order F64 true.
Definition fp64_compare_gt := fp_compare_order F64 false.

End Fplib.
