(* ===== verification/FplibOps.v ===== *)
(** * Floating-point operations of the ARM model

    The second half of [arch/arm/insts/fplib.cc]: addition, multiplication, fused
    multiply-add, division and square root on unpacked operands, and the [fplib..] entry points
    that read the mode from the FPSCR and accumulate exceptions in it. *)

From S2P Require Import Prelude Fplib.

Open Scope Z_scope.

Module FplibOps.
Import Fplib.

(** [lsr(x, d) | !!(x & (lsl(1, d) - 1))]: a right shift that keeps lost bits in the last one. *)
Definition sticky_lsr (w x d : Z) : Z :=
  Z.lor (lsr w x d) (nzi (Z.land x (wrap w (lsl w 1 d - 1)))).

(** ** Addition *)

(** The sum or difference of two aligned significands: sign and magnitude. *)
Definition add_signed (w a_sgn a_mnt b_sgn b_mnt : Z) : Z * Z :=
  if a_sgn =? b_sgn then (a_sgn, wrap w (a_mnt + b_mnt))
  else if b_mnt <=? a_mnt then (a_sgn, wrap w (a_mnt - b_mnt))
  else (Z.lxor a_sgn 1, wrap w (b_mnt - a_mnt)).

Definition fp_add (f : format) (a b neg mode flags : Z) : res (Z * Z) :=
  let w := width f in
  let '(ua, flags) := fp_unpack f a mode flags in
  let '(ub, flags) := fp_unpack f b mode flags in
  let '(x, flags) := fp_process_NaNs f a b mode flags in
  if nz x then Ok (x, flags)
  else
    let a_sgn := sgn ua in
    let b_sgn := Z.lxor (sgn ub) neg in
    if (exp ua =? emax f) && (exp ub =? emax f) && negb (a_sgn =? b_sgn) then
      Ok (fp_defaultNaN f, Z.lor flags FPLIB_IOC)
    else if exp ua =? emax f then Ok (fp_infinity f a_sgn, flags)
    else if exp ub =? emax f then Ok (fp_infinity f b_sgn, flags)
    else if negb (nz (mnt ua)) && negb (nz (mnt ub)) && (a_sgn =? b_sgn) then Ok (fp_zero f a_sgn, flags)
    else
      let a_mnt := wrap w (Z.shiftl (mnt ua) 3) in
      let b_mnt := wrap w (Z.shiftl (mnt ub) 3) in
      let '(a_mnt, b_mnt, x_exp) :=
        if exp ub <=? exp ua then (a_mnt, sticky_lsr w b_mnt (exp ua - exp ub), exp ua)
        else (sticky_lsr w a_mnt (exp ub - exp ua), b_mnt, exp ub) in
      let '(x_sgn, x_mnt) := add_signed w a_sgn a_mnt b_sgn b_mnt in
      if negb (nz x_mnt) then Ok (fp_zero f (Z.b2z (Z.land mode 3 =? 2)), flags)
      else
        let '(x_mnt, x_exp) := fp_normalise f x_mnt x_exp in
        fp_round f x_sgn (x_exp + (w - mbits f - 4)) (wrap w (Z.shiftl x_mnt 1)) mode flags.
Definition fp32_add := fp_add F32.
Definition fp64_add := fp_add F64.

(** ** Multiplication *)

(** The cases of NaNs, infinities and zeroes, common to both widths; [None] when there is a
    product to compute. *)
Definition mul_special (f : format) (ua ub : unpacked) (flags : Z) : option (Z * Z) :=
  let s := Z.lxor (sgn ua) (sgn ub) in
  if ((exp ua =? emax f) && negb (nz (mnt ub))) || ((exp ub =? emax f) && negb (nz (mnt ua))) then
    Some (fp_defaultNaN f, Z.lor flags FPLIB_IOC)
  else if (exp ua =? emax f) || (exp ub =? emax f) then Some (fp_infinity f s, flags)
  else if negb (nz (mnt ua)) || negb (nz (mnt ub)) then Some (fp_zero f s, flags)
  else None.

Definition fp32_mul (a b mode flags : Z) : res (Z * Z) :=
  let '(ua, flags) := fp32_unpack a mode flags in
  let '(ub, flags) := fp32_unpack b mode flags in
  let '(x, flags) := fp32_process_NaNs a b mode flags in
  if nz x then Ok (x, flags)
  else match mul_special F32 ua ub flags with
  | Some r => Ok r
  | None =>
      let x_sgn := Z.lxor (sgn ua) (sgn ub) in
      let x_exp := exp ua + exp ub - 110 in
      let x_mnt := u64 (mnt ua * mnt ub) in
      let '(x_mnt, x_exp) := fp64_normalise x_mnt x_exp in
      let x_mnt := Z.lor (lsr64 x_mnt 31) (nzi (lsl64 x_mnt 33)) in
      fp32_round x_sgn x_exp (u32 x_mnt) mode flags
  end.

Definition fp64_mul (a b mode flags : Z) : res (Z * Z) :=
  let '(ua, flags) := fp64_unpack a mode flags in
  let '(ub, flags) := fp64_unpack b mode flags in
  let '(x, flags) := fp64_process_NaNs a b mode flags in
  if nz x then Ok (x, flags)
  else match mul_special F64 ua ub flags with
  | Some r => Ok r
  | None =>
      let x_sgn := Z.lxor (sgn ua) (sgn ub) in
      let x_exp := exp ua + exp ub - 1000 in
      let '(x0, x1) := mul62x62 (mnt ua) (mnt ub) in
      let '(x0, x1, x_exp) := fp128_normalise x0 x1 x_exp in
      let x0 := Z.lor (u64 (Z.shiftl x1 1)) (nzi x0) in
      fp64_round x_sgn x_exp x0 mode flags
  end.

(** ** Fused multiply-add *)

Definition muladd_special (f : format) (ua ub uc : unpacked) (flags : Z) : option (Z * Z) :=
  let s := Z.lxor (sgn ub) (sgn uc) in
  if ((exp ub =? emax f) && negb (nz (mnt uc))) || ((exp uc =? emax f) && negb (nz (mnt ub))) ||
     ((exp ua =? emax f) && ((exp ub =? emax f) || (exp uc =? emax f)) && negb (sgn ua =? s))
  then Some (fp_defaultNaN f, Z.lor flags FPLIB_IOC)
  else if exp ua =? emax f then Some (fp_infinity f (sgn ua), flags)
  else if (exp ub =? emax f) || (exp uc =? emax f) then Some (fp_infinity f s, flags)
  else if negb (nz (mnt ua)) && (negb (nz (mnt ub)) || negb (nz (mnt uc))) && (sgn ua =? s)
  then Some (fp_zero f (sgn ua), flags)
  else None.

(** The NaN result: a quiet NaN added to the product of zero and infinity is invalid. *)
Definition muladd_NaN (f : format) (a b c : Z) (ua ub uc : unpacked) (mode flags : Z) : Z * Z :=
  let '(x, flags) := fp_process_NaNs3 f a b c mode flags in
  let inf u := (exp u =? emax f) && negb (nz (wrap (width f) (Z.shiftl (mnt u) (width f - mbits f)))) in
  if (exp ua =? emax f) && Z.testbit (mnt ua) (mbits f - 1) &&
     ((negb (nz (mnt ub)) && inf uc) || (negb (nz (mnt uc)) && inf ub))
  then (fp_defaultNaN f, Z.lor flags FPLIB_IOC)
  else (x, flags).

Definition fp32_muladd (a b c scale mode flags : Z) : res (Z * Z) :=
  let '(ua, flags) := fp32_unpack a mode flags in
  let '(ub, flags) := fp32_unpack b mode flags in
  let '(uc, flags) := fp32_unpack c mode flags in
  let '(x, flags) := muladd_NaN F32 a b c ua ub uc mode flags in
  if nz x then Ok (x, flags)
  else match muladd_special F32 ua ub uc flags with
  | Some r => Ok r
  | None =>
      let x_exp := exp ua + 13 in
      let x_mnt := u64 (Z.shiftl (mnt ua) 27) in
      let y_sgn := Z.lxor (sgn ub) (sgn uc) in
      let y_mnt := u64 (Z.shiftl (u64 (mnt ub * mnt uc)) 3) in
      let y_exp := if nz y_mnt then exp ub + exp uc - 113 else x_exp in
      let '(x_mnt, y_mnt, x_exp) :=
        if y_exp <=? x_exp then (x_mnt, sticky_lsr 64 y_mnt (x_exp - y_exp), x_exp)
        else (sticky_lsr 64 x_mnt (y_exp - x_exp), y_mnt, y_exp) in
      let '(x_sgn, x_mnt) := add_signed 64 (sgn ua) x_mnt y_sgn y_mnt in
      if negb (nz x_mnt) then Ok (fp32_zero (Z.b2z (Z.land mode 3 =? 2)), flags)
      else
        let '(x_mnt, x_exp) := fp64_normalise x_mnt x_exp in
        let x_mnt := Z.lor (Z.shiftr x_mnt 31) (nzi (u32 (Z.shiftl x_mnt 1))) in
        fp32_round x_sgn (x_exp + scale) (u32 x_mnt) mode flags
  end.

(** The 128-bit shift with the lost bits kept in the last one. *)
Definition sticky_lsr128 (x0 x1 d : Z) : Z * Z :=
  let '(t0, t1) := lsl128 x0 x1 (if d <? 128 then 128 - d else 0) in
  let '(y0, y1) := lsr128 x0 x1 d in
  (Z.lor y0 (nzi (Z.lor t0 t1)), y1).

Definition add_signed128 (x_sgn x0 x1 y_sgn y0 y1 : Z) : Z * (Z * Z) :=
  if x_sgn =? y_sgn then (x_sgn, add128 x0 x1 y0 y1)
  else if 0 <=? cmp128 x0 x1 y0 y1 then (x_sgn, sub128 x0 x1 y0 y1)
  else (Z.lxor x_sgn 1, sub128 y0 y1 x0 x1).

Definition fp64_muladd (a b c scale mode flags : Z) : res (Z * Z) :=
  let '(ua, flags) := fp64_unpack a mode flags in
  let '(ub, flags) := fp64_unpack b mode flags in
  let '(uc, flags) := fp64_unpack c mode flags in
  let '(x, flags) := muladd_NaN F64 a b c ua ub uc mode flags in
  if nz x then Ok (x, flags)
  else match muladd_special F64 ua ub uc flags with
  | Some r => Ok r
  | None =>
      let x_exp := exp ua + 11 in
      let '(x0, x1) := (0, mnt ua) in
      let y_sgn := Z.lxor (sgn ub) (sgn uc) in
      let '(y0, y1) := mul62x62 (mnt ub) (u64 (Z.shiftl (mnt uc) 3)) in
      let y_exp := if nz y0 || nz y1 then exp ub + exp uc - 1003 else x_exp in
      let '((x0, x1), (y0, y1), x_exp) :=
        if y_exp <=? x_exp then ((x0, x1), sticky_lsr128 y0 y1 (x_exp - y_exp), x_exp)
        else (sticky_lsr128 x0 x1 (y_exp - x_exp), (y0, y1), y_exp) in
      let '(x_sgn, (x0, x1)) := add_signed128 (sgn ua) x0 x1 y_sgn y0 y1 in
      if negb (nz x0) && negb (nz x1) then Ok (fp64_zero (Z.b2z (Z.land mode 3 =? 2)), flags)
      else
        let '(x0, x1, x_exp) := fp128_normalise x0 x1 x_exp in
        let x0 := Z.lor (u64 (Z.shiftl x1 1)) (nzi x0) in
        fp64_round x_sgn (x_exp + scale) x0 mode flags
  end.

(** ** Division *)

Definition div_special (f : format) (ua ub : unpacked) (flags : Z) : option (Z * Z) :=
  let s := Z.lxor (sgn ua) (sgn ub) in
  if ((exp ua =? emax f) && (exp ub =? emax f)) || (negb (nz (mnt ua)) && negb (nz (mnt ub))) then
    Some (fp_defaultNaN f, Z.lor flags FPLIB_IOC)
  else if (exp ua =? emax f) || negb (nz (mnt ub)) then
    Some (fp_infinity f s, if negb (exp ua =? emax f) then Z.lor flags FPLIB_DZC else flags)
  else if negb (nz (mnt ua)) || (exp ub =? emax f) then Some (fp_zero f s, flags)
  else None.

Definition fp32_div (a b mode flags : Z) : res (Z * Z) :=
  let '(ua, flags) := fp32_unpack a mode flags in
  let '(ub, flags) := fp32_unpack b mode flags in
  let '(x, flags) := fp32_process_NaNs a b mode flags in
  if nz x then Ok (x, flags)
  else match div_special F32 ua ub flags with
  | Some r => Ok r
  | None =>
      let '(a_mnt, a_exp) := fp32_normalise (mnt ua) (exp ua) in
      let x_sgn := Z.lxor (sgn ua) (sgn ub) in
      let x_exp := a_exp - exp ub + 172 in
      let x_mnt := u64 (Z.shiftl a_mnt 18) / mnt ub in
      let x_mnt := Z.lor x_mnt (Z.b2z (negb (u64 (x_mnt * mnt ub) =? u64 (Z.shiftl a_mnt 18)))) in
      let '(x_mnt, x_exp) := fp64_normalise x_mnt x_exp in
      let x_mnt := Z.lor (Z.shiftr x_mnt 31) (nzi (u32 (Z.shiftl x_mnt 1))) in
      fp32_round x_sgn x_exp (u32 x_mnt) mode flags
  end.

Definition fp64_div (a b mode flags : Z) : res (Z * Z) :=
  let '(ua, flags) := fp64_unpack a mode flags in
  let '(ub, flags) := fp64_unpack b mode flags in
  let '(x, flags) := fp64_process_NaNs a b mode flags in
  if nz x then Ok (x, flags)
  else match div_special F64 ua ub flags with
  | Some r => Ok r
  | None =>
      let '(a_mnt, a_exp) := fp64_normalise (mnt ua) (exp ua) in
      let '(b_mnt, b_exp) := fp64_normalise (mnt ub) (exp ub) in
      let x_mnt := (2 ^ 64 - 1) / Z.shiftr b_mnt 31 in
      let '(x0, x1) := mul64x32 b_mnt (u32 x_mnt) in
      let '(x0, x1) := sub128 0 (2 ^ 32) x0 x1 in
      let '(x0, x1) := lsr128 x0 x1 32 in
      let '(x0, x1) := mul64x32 x0 (u32 x_mnt) in
      let '(x0, x1) := lsr128 x0 x1 33 in
      let x_sgn := Z.lxor (sgn ua) (sgn ub) in
      let x_exp := a_exp - b_exp + 1031 in
      let '(x0, x1) := mul62x62 x0 (Z.shiftr a_mnt 2) in
      let '(x0, x1) := lsr128 x0 x1 4 in
      let x_mnt := x1 in
      let '(x0, x1) := mul62x62 (Z.shiftr b_mnt 2) (u64 (x_mnt + 1)) in
      let c := cmp128 x0 x1 0 (Z.shiftr a_mnt 11) in
      let x_mnt := if c <=? 0 then u64 (x_mnt + 1) else x_mnt in
      let '(x_mnt, x_exp) := fp64_normalise x_mnt x_exp in
      fp64_round x_sgn x_exp (Z.lor (u64 (Z.shiftl x_mnt 1)) (nzi c)) mode flags
  end.

(** ** Square root *)

Definition sqrt_special (f : format) (a : Z) (ua : unpacked) (mode flags : Z) : option (Z * Z) :=
  if nan_bits f ua then Some (fp_process_NaN f a mode flags)
  else if negb (nz (mnt ua)) then Some (fp_zero f (sgn ua), flags)
  else if (exp ua =? emax f) && negb (nz (sgn ua)) then Some (fp_infinity f (sgn ua), flags)
  else if nz (sgn ua) then Some (fp_defaultNaN f, Z.lor flags FPLIB_IOC)
  else None.

Definition fp32_sqrt (a mode flags : Z) : res (Z * Z) :=
  let '(ua, flags) := fp32_unpack a mode flags in
  match sqrt_special F32 a ua mode flags with
  | Some r => Ok r
  | None =>
      let '(a_mnt, a_exp) := fp32_normalise (mnt ua) (exp ua) in
      let '(a_mnt, a_exp) := if negb (Z.odd a_exp) then (Z.shiftr a_mnt 1, a_exp + 1) else (a_mnt, a_exp) in
      let x := u32 (Z.shiftr a_mnt 2 + Z.shiftr a_mnt 3 + 5 * 2 ^ 28) in
      let x := u32 (Z.shiftl (u32 (a_mnt / Z.shiftr x 15 + Z.shiftr x 16)) 15) in
      let x := u32 (Z.shiftl (u32 (a_mnt / Z.shiftr x 15 + Z.shiftr x 16)) 15) in
      let x := u32 (Z.shiftr (u64 (Z.shiftl a_mnt 32) / x) 2 + Z.shiftr x 1) in
      let x_exp := Z.shiftr (a_exp + 147) 1 in
      let x_mnt := u32 (Z.shiftr (u32 (x - 2 ^ 5)) 6 + 1) in
      let t1 := u64 (x_mnt * x_mnt) in
      let t0 := u64 (Z.shiftl a_mnt 19) in
      let x_mnt := if t0 <? t1 then u32 (x_mnt - 1) else x_mnt in
      let '(x_mnt, x_exp) := fp32_normalise x_mnt x_exp in
      fp32_round 0 x_exp (Z.lor (u32 (Z.shiftl x_mnt 1)) (Z.b2z (negb (t1 =? t0)))) mode flags
  end.

Definition fp64_sqrt (a mode flags : Z) : res (Z * Z) :=
  let '(ua, flags) := fp64_unpack a mode flags in
  match sqrt_special F64 a ua mode flags with
  | Some r => Ok r
  | None =>
      let '(a_mnt, a_exp) := fp64_normalise (mnt ua) (exp ua) in
      let '(a_mnt, a_exp) := if Z.odd a_exp then (Z.shiftr a_mnt 1, a_exp + 1) else (a_mnt, a_exp) in
      let x := u32 (Z.shiftr a_mnt 34 + Z.shiftr a_mnt 35 + 5 * 2 ^ 28) in
      let x := u32 (Z.shiftl (Z.shiftr a_mnt 32 / Z.shiftr x 15 + Z.shiftr x 16) 15) in
      let x := u32 (Z.shiftl (Z.shiftr a_mnt 32 / Z.shiftr x 15 + Z.shiftr x 16) 15) in
      let x := u32 (Z.shiftr (a_mnt / x) 2 + Z.shiftr x 1) in
      let r := 2 ^ 62 / x in
      let '(x0, x1) := mul64x32 (u64 (Z.shiftl (u64 (u64 (- x) * r)) 1)) (u32 r) in
      let '(x0, x1) := lsr128 x0 x1 31 in
      let '(x0, x1) := mul62x62 (Z.shiftr a_mnt 10) (Z.shiftr x0 2) in
      let '(x0, x1) := lsl128 x0 x1 5 in
      let '(x0, x1) := lsr128 x0 x1 56 in
      let x0 := u64 (u64 (Z.shiftl x 31) + Z.shiftr x0 1) in
      let x_exp := Z.shiftr (a_exp + 1053) 1 in
      let x_mnt := u64 (Z.shiftr (u64 (x0 - 2 ^ 8)) 9 + 1) in
      let '(x0, x1) := mul62x62 x_mnt x_mnt in
      let '(x0, x1) := lsl128 x0 x1 19 in
      let c := cmp128 x0 x1 0 a_mnt in
      let x_mnt := if 0 <? c then u64 (x_mnt - 1) else x_mnt in
      let '(x_mnt, x_exp) := fp64_normalise x_mnt x_exp in
      fp64_round 0 x_exp (Z.lor (u64 (Z.shiftl x_mnt 1)) (nzi c)) mode flags
  end.

End FplibOps.
