(* ===== verification/FplibApi.v ===== *)
(** * Entry points of the floating-point library

    The [fplib..] functions of [arch/arm/insts/fplib.cc]: each reads its mode from the FPSCR,
    calls the arithmetic of [Fplib] and [FplibOps] and accumulates the exceptions in the FPSCR.
    The two specialisations of a template (for [uint32_t] and [uint64_t]) are one definition
    over the [format]; the calls that differ go through the class [FpArith].  The FPSCR is its
    32-bit word; a function that takes it by reference returns it. *)

From S2P Require Import Prelude Fplib FplibOps.

Open Scope Z_scope.

Module FplibApi.
Import Fplib FplibOps.

Class FpArith (f : format) := {
  fp_mul : Z → Z → Z → Z → res (Z * Z);
  fp_muladd : Z → Z → Z → Z → Z → Z → res (Z * Z);
  fp_div : Z → Z → Z → Z → res (Z * Z);
  fp_sqrt : Z → Z → Z → res (Z * Z)
}.
#[export] Instance F32_arith : FpArith F32 :=
  {| fp_mul := fp32_mul; fp_muladd := fp32_muladd; fp_div := fp32_div; fp_sqrt := fp32_sqrt |}.
#[export] Instance F64_arith : FpArith F64 :=
  {| fp_mul := fp64_mul; fp_muladd := fp64_muladd; fp_div := fp64_div; fp_sqrt := fp64_sqrt |}.

(** ** The FPSCR *)

Definition modeConv (fpscr : Z) : Z := Z.land (Z.shiftr fpscr 22) 0xF.
Definition FPCRRounding (fpscr : Z) : Z := Z.land (Z.shiftr fpscr 22) 3.
Definition fpscr_fz (fpscr : Z) : bool := Z.testbit fpscr 24.
Definition fpscr_dn (fpscr : Z) : bool := Z.testbit fpscr 25.
Definition fpscr_ahp (fpscr : Z) : bool := Z.testbit fpscr 26.

(** [if (flags & flag) fpscr.field = 1] *)
Definition set_if (flags flag bit fpscr : Z) : Z :=
  if nz (Z.land flags flag) then Z.lor fpscr (2 ^ bit) else fpscr.

Definition set_fpscr0 (fpscr flags : Z) : Z :=
  let fpscr := set_if flags FPLIB_IDC 7 fpscr in
  let fpscr := set_if flags FPLIB_IOC 0 fpscr in
  let fpscr := set_if flags FPLIB_DZC 1 fpscr in
  let fpscr := set_if flags FPLIB_OFC 2 fpscr in
  let fpscr := set_if flags FPLIB_UFC 3 fpscr in
  set_if flags FPLIB_IXC 4 fpscr.

Definition set_fpscr (fpscr flags : Z) : Z :=
  let fpscr := set_if flags FPLIB_IDC 7 fpscr in
  let fpscr := set_if flags FPLIB_IOC 0 fpscr in
  let fpscr := set_if flags FPLIB_DZC 1 fpscr in
  let fpscr := set_if flags FPLIB_OFC 2 fpscr in
  let underflow := nz (Z.land flags FPLIB_UFC) in
  let fpscr := set_if flags FPLIB_UFC 3 fpscr in
  if nz (Z.land flags FPLIB_IXC) && negb (underflow && fpscr_fz fpscr) then Z.lor fpscr (2 ^ 4) else fpscr.

(** The result and the FPSCR after it. *)
Definition with_flags (fpscr : Z) (r : res (Z * Z)) : res (Z * Z) :=
  '(x, flags) ← r; Ok (x, set_fpscr0 fpscr flags).

(** ** Comparison *)

Definition fplibCompareEQ (f : format) (a b fpscr : Z) : bool * Z :=
  let '(x, flags) := fp_compare_eq f a b (modeConv fpscr) 0 in (x, set_fpscr fpscr flags).
Definition fplibCompareEQ_32 := fplibCompareEQ F32.
Definition fplibCompareEQ_64 := fplibCompareEQ F64.

Definition fplibCompareGE (f : format) (a b fpscr : Z) : bool * Z :=
  let '(x, flags) := fp_compare_order f true a b (modeConv fpscr) 0 in (x, set_fpscr fpscr flags).
Definition fplibCompareGE_32 := fplibCompareGE F32.
Definition fplibCompareGE_64 := fplibCompareGE F64.

Definition fplibCompareGT (f : format) (a b fpscr : Z) : bool * Z :=
  let '(x, flags) := fp_compare_order f false a b (modeConv fpscr) 0 in (x, set_fpscr fpscr flags).
Definition fplibCompareGT_32 := fplibCompareGT F32.
Definition fplibCompareGT_64 := fplibCompareGT F64.

(** The condition flags NZCV of a comparison: 3 unordered, 6 equal, 8 less, 2 greater. *)
Definition fplibCompare (f : format) (op1 op2 : Z) (signal_nans : bool) (fpscr : Z) : Z * Z :=
  let mode := modeConv fpscr in
  let '(u1, flags) := fp_unpack f op1 mode 0 in
  let '(u2, flags) := fp_unpack f op2 mode flags in
  let quiet u := Z.testbit (mnt u) (mbits f - 1) in
  let '(result, flags) :=
    if nan_bits f u1 || nan_bits f u2 then
      (3, if (nan_bits f u1 && negb (quiet u1)) || (nan_bits f u2 && negb (quiet u2)) || signal_nans
          then Z.lor flags FPLIB_IOC else flags)
    else if (op1 =? op2) || (negb (nz (mnt u1)) && negb (nz (mnt u2))) then (6, flags)
    else if negb (sgn u1 =? sgn u2) then (if nz (sgn u1) then 8 else 2, flags)
    else if negb (exp u1 =? exp u2) then
      (if nz (Z.lxor (sgn u1) (Z.b2z (exp u1 <? exp u2))) then 8 else 2, flags)
    else (if nz (Z.lxor (sgn u1) (Z.b2z (mnt u1 <? mnt u2))) then 8 else 2, flags) in
  (result, set_fpscr0 fpscr flags).
Definition fplibCompare_32 := fplibCompare F32.
Definition fplibCompare_64 := fplibCompare F64.

(** ** Arithmetic *)

Definition fplibAbs (f : format) (op : Z) : Z := Z.land op (bnot (width f) (2 ^ (width f - 1))).
Definition fplibAbs_32 := fplibAbs F32.
Definition fplibAbs_64 := fplibAbs F64.

Definition fplibNeg (f : format) (op : Z) : Z := Z.lxor op (2 ^ (width f - 1)).
Definition fplibNeg_32 := fplibNeg F32.
Definition fplibNeg_64 := fplibNeg F64.

Definition fplibAdd (f : format) (op1 op2 fpscr : Z) : res (Z * Z) :=
  with_flags fpscr (fp_add f op1 op2 0 (modeConv fpscr) 0).
Definition fplibAdd_32 := fplibAdd F32.
Definition fplibAdd_64 := fplibAdd F64.

Definition fplibSub (f : format) (op1 op2 fpscr : Z) : res (Z * Z) :=
  with_flags fpscr (fp_add f op1 op2 1 (modeConv fpscr) 0).
Definition fplibSub_32 := fplibSub F32.
Definition fplibSub_64 := fplibSub F64.

Definition fplibMul (f : format) `{!FpArith f} (op1 op2 fpscr : Z) : res (Z * Z) :=
  with_flags fpscr (fp_mul op1 op2 (modeConv fpscr) 0).
Definition fplibMul_32 := fplibMul F32.
Definition fplibMul_64 := fplibMul F64.

Definition fplibDiv (f : format) `{!FpArith f} (op1 op2 fpscr : Z) : res (Z * Z) :=
  with_flags fpscr (fp_div op1 op2 (modeConv fpscr) 0).
Definition fplibDiv_32 := fplibDiv F32.
Definition fplibDiv_64 := fplibDiv F64.

Definition fplibMulAdd (f : format) `{!FpArith f} (addend op1 op2 fpscr : Z) : res (Z * Z) :=
  with_flags fpscr (fp_muladd addend op1 op2 0 (modeConv fpscr) 0).
Definition fplibMulAdd_32 := fplibMulAdd F32.
Definition fplibMulAdd_64 := fplibMulAdd F64.

Definition fplibSqrt (f : format) `{!FpArith f} (op fpscr : Z) : res (Z * Z) :=
  with_flags fpscr (fp_sqrt op (modeConv fpscr) 0).
Definition fplibSqrt_32 := fplibSqrt F32.
Definition fplibSqrt_64 := fplibSqrt F64.

(** ** Constants *)

(** The exponent bias: 127 and 1023. *)
Definition bias (f : format) : Z := emax f / 2.

Definition fp_FPOnePointFive (f : format) (sgn : Z) : Z := fp_pack f sgn (bias f) (2 ^ (mbits f - 1)).
Definition fp_FPThree (f : format) (sgn : Z) : Z := fp_pack f sgn (bias f + 1) (2 ^ (mbits f - 1)).
Definition fp_FPTwo (f : format) (sgn : Z) : Z := fp_pack f sgn (bias f + 1) 0.
Definition fp32_FPOnePointFive := fp_FPOnePointFive F32.
Definition fp64_FPOnePointFive := fp_FPOnePointFive F64.
Definition fp32_FPThree := fp_FPThree F32.
Definition fp64_FPThree := fp_FPThree F64.
Definition fp32_FPTwo := fp_FPTwo F32.
Definition fp64_FPTwo := fp_FPTwo F64.

(** ** Multiplication and step variants *)

(** [fplibMulX] returns two for the product of zero and infinity. *)
Definition fplibMulX (f : format) `{!FpArith f} (op1 op2 fpscr : Z) : res (Z * Z) :=
  let mode := modeConv fpscr in
  let '(u1, flags) := fp_unpack f op1 mode 0 in
  let '(u2, flags) := fp_unpack f op2 mode flags in
  let '(x, flags) := fp_process_NaNs f op1 op2 mode flags in
  with_flags fpscr
    (if nz x then Ok (x, flags)
     else if ((exp u1 =? emax f) && negb (nz (mnt u2))) || ((exp u2 =? emax f) && negb (nz (mnt u1))) then
       Ok (fp_FPTwo f (Z.lxor (sgn u1) (sgn u2)), flags)
     else if (exp u1 =? emax f) || (exp u2 =? emax f) then Ok (fp_infinity f (Z.lxor (sgn u1) (sgn u2)), flags)
     else if negb (nz (mnt u1)) || negb (nz (mnt u2)) then Ok (fp_zero f (Z.lxor (sgn u1) (sgn u2)), flags)
     else fp_mul op1 op2 mode flags).
Definition fplibMulX_32 := fplibMulX F32.
Definition fplibMulX_64 := fplibMulX F64.

(** [(3 - op1 * op2) / 2] *)
Definition fplibRSqrtStepFused (f : format) `{!FpArith f} (op1 op2 fpscr : Z) : res (Z * Z) :=
  let mode := modeConv fpscr in
  let op1 := fplibNeg f op1 in
  let '(u1, flags) := fp_unpack f op1 mode 0 in
  let '(u2, flags) := fp_unpack f op2 mode flags in
  let '(x, flags) := fp_process_NaNs f op1 op2 mode flags in
  with_flags fpscr
    (if nz x then Ok (x, flags)
     else if ((exp u1 =? emax f) && negb (nz (mnt u2))) || ((exp u2 =? emax f) && negb (nz (mnt u1))) then
       Ok (fp_FPOnePointFive f 0, flags)
     else if (exp u1 =? emax f) || (exp u2 =? emax f) then Ok (fp_infinity f (Z.lxor (sgn u1) (sgn u2)), flags)
     else fp_muladd (fp_FPThree f 0) op1 op2 (-1) mode flags).
Definition fplibRSqrtStepFused_32 := fplibRSqrtStepFused F32.
Definition fplibRSqrtStepFused_64 := fplibRSqrtStepFused F64.

(** [2 - op1 * op2] *)
Definition fplibRecipStepFused (f : format) `{!FpArith f} (op1 op2 fpscr : Z) : res (Z * Z) :=
  let mode := modeConv fpscr in
  let op1 := fplibNeg f op1 in
  let '(u1, flags) := fp_unpack f op1 mode 0 in
  let '(u2, flags) := fp_unpack f op2 mode flags in
  let '(x, flags) := fp_process_NaNs f op1 op2 mode flags in
  with_flags fpscr
    (if nz x then Ok (x, flags)
     else if ((exp u1 =? emax f) && negb (nz (mnt u2))) || ((exp u2 =? emax f) && negb (nz (mnt u1))) then
       Ok (fp_FPTwo f 0, flags)
     else if (exp u1 =? emax f) || (exp u2 =? emax f) then Ok (fp_infinity f (Z.lxor (sgn u1) (sgn u2)), flags)
     else fp_muladd (fp_FPTwo f 0) op1 op2 0 mode flags).
Definition fplibRecipStepFused_32 := fplibRecipStepFused F32.
Definition fplibRecipStepFused_64 := fplibRecipStepFused F64.

End FplibApi.
