(* ===== verification/FplibConv.v ===== *)
(** * Conversions and selections of the floating-point library

    The [fplib..] entry points of [arch/arm/insts/fplib.cc] that convert between formats, to
    and from fixed point and to integral values, choose the smaller or larger operand, and
    estimate reciprocals. *)

From S2P Require Import Prelude Fplib FplibOps FplibApi.

Open Scope Z_scope.

Module FplibConv.
Import Fplib FplibOps FplibApi.

(** ** Conversions between formats *)

Definition fp16_FPConvertNaN (f : format) (op : Z) : Z :=
  fp16_pack (Z.shiftr op (width f - 1)) 31 (wrap 16 (Z.lor (2 ^ 9) (Z.shiftr op (mbits f - 10)))).
Definition fp16_FPConvertNaN_32 := fp16_FPConvertNaN F32.
Definition fp16_FPConvertNaN_64 := fp16_FPConvertNaN F64.

Definition fp_FPConvertNaN_16 (f : format) (op : Z) : Z :=
  fp_pack f (Z.shiftr op 15) (emax f) (Z.lor (2 ^ (mbits f - 1)) (wrap (width f) (Z.shiftl op (mbits f - 10)))).
Definition fp32_FPConvertNaN_16 := fp_FPConvertNaN_16 F32.
Definition fp64_FPConvertNaN_16 := fp_FPConvertNaN_16 F64.

Definition fp32_FPConvertNaN_64 (op : Z) : Z :=
  fp32_pack (Z.shiftr op 63) 255 (u32 (Z.lor (2 ^ 22) (Z.shiftr op 29))).
Definition fp64_FPConvertNaN_32 (op : Z) : Z :=
  fp64_pack (Z.shiftr op 31) 2047 (Z.lor (2 ^ 51) (u64 (Z.shiftl op 29))).

(** [fplibConvert<uint16_t>], from single and from double. *)
Definition fplibConvert_16 (f : format) (op rounding fpscr : Z) : res (Z * Z) :=
  let w := width f in
  let s := mbits f - 16 in
  let mode := modeConv fpscr in
  let '(u, flags) := fp_unpack f op mode 0 in
  let alt_hp := fpscr_ahp fpscr in
  with_flags fpscr
    (if nan_bits f u then
       Ok (if alt_hp then fp16_zero (sgn u)
           else if fpscr_dn fpscr then fp16_defaultNaN
           else fp16_FPConvertNaN f op,
           if negb (Z.testbit (mnt u) (mbits f - 1)) || alt_hp then Z.lor flags FPLIB_IOC else flags)
     else if exp u =? emax f then
       (if alt_hp then Ok (Z.lor (wrap 16 (Z.shiftl (sgn u) 15)) 0x7fff, Z.lor flags FPLIB_IOC)
        else Ok (fp16_infinity (sgn u), flags))
     else if negb (nz (mnt u)) then Ok (fp16_zero (sgn u), flags)
     else
       fp16_round_ (sgn u) (exp u - bias f + 15)
         (wrap 16 (Z.lor (Z.shiftr (mnt u) s) (nzi (wrap w (Z.shiftl (mnt u) (w - s))))))
         rounding (Z.lor mode (Z.shiftl (Z.b2z alt_hp) 4)) flags).
Definition fplibConvert_32_16 := fplibConvert_16 F32.
Definition fplibConvert_64_16 := fplibConvert_16 F64.

(** From half: every half-precision number is representable. *)
Definition fplibConvert_from16 (f : format) (op rounding fpscr : Z) : Z * Z :=
  let mode := modeConv fpscr in
  let '(u, flags) := fp16_unpack op mode 0 in
  let ahp := fpscr_ahp fpscr in
  let '(result, flags) :=
    if (exp u =? 31) && negb ahp && nz (wrap 16 (Z.shiftl (mnt u) 6)) then
      (if fpscr_dn fpscr then fp_defaultNaN f else fp_FPConvertNaN_16 f op,
       if negb (Z.testbit (mnt u) 9) then Z.lor flags FPLIB_IOC else flags)
    else if (exp u =? 31) && negb ahp then (fp_infinity f (sgn u), flags)
    else if negb (nz (mnt u)) then (fp_zero f (sgn u), flags)
    else
      let '(m, e) := fp16_normalise (mnt u) (exp u) in
      (fp_pack f (sgn u) (e - 15 + bias f + 5) (wrap (width f) (Z.shiftl m (mbits f - 15))), flags) in
  (result, set_fpscr0 fpscr flags).
Definition fplibConvert_16_32 := fplibConvert_from16 F32.
Definition fplibConvert_16_64 := fplibConvert_from16 F64.

Definition fplibConvert_64_32 (op rounding fpscr : Z) : res (Z * Z) :=
  let mode := modeConv fpscr in
  let '(u, flags) := fp64_unpack op mode 0 in
  with_flags fpscr
    (if nan_bits F64 u then
       Ok (if fpscr_dn fpscr then fp32_defaultNaN else fp32_FPConvertNaN_64 op,
           if negb (Z.testbit (mnt u) 51) then Z.lor flags FPLIB_IOC else flags)
     else if exp u =? 2047 then Ok (fp32_infinity (sgn u), flags)
     else if negb (nz (mnt u)) then Ok (fp32_zero (sgn u), flags)
     else
       fp32_round_ (sgn u) (exp u - 1023 + 127)
         (u32 (Z.lor (Z.shiftr (mnt u) 20) (nzi (u64 (Z.shiftl (mnt u) 44))))) rounding mode flags).

Definition fplibConvert_32_64 (op rounding fpscr : Z) : Z * Z :=
  let mode := modeConv fpscr in
  let '(u, flags) := fp32_unpack op mode 0 in
  let '(result, flags) :=
    if nan_bits F32 u then
      (if fpscr_dn fpscr then fp64_defaultNaN else fp64_FPConvertNaN_32 op,
       if negb (Z.testbit (mnt u) 22) then Z.lor flags FPLIB_IOC else flags)
    else if exp u =? 255 then (fp64_infinity (sgn u), flags)
    else if negb (nz (mnt u)) then (fp64_zero (sgn u), flags)
    else
      let '(m, e) := fp32_normalise (mnt u) (exp u) in
      (fp64_pack (sgn u) (e - 127 + 1023 + 8) (u64 (Z.shiftl m 21)), flags) in
  (result, set_fpscr0 fpscr flags).

(** ** Minimum and maximum *)

Definition fp_repack (f : format) (sgn exp mnt : Z) : Z :=
  fp_pack f sgn (if nz (Z.shiftr mnt (mbits f)) then exp else 0) mnt.
Definition fp32_repack := fp_repack F32.
Definition fp64_repack := fp_repack F64.

(** A single quiet NaN is replaced by an infinity of sign [sgn]. *)
Definition fp_minmaxnum (f : format) (op1 op2 sgn : Z) : Z * Z :=
  let not_qnan op := nz (Z.shiftr (bnot (width f) (wrap (width f) (Z.shiftl op 1))) (mbits f)) in
  let op1 := if negb (not_qnan op1) && not_qnan op2 then fp_infinity f sgn else op1 in
  let op2 := if negb (not_qnan op2) && not_qnan op1 then fp_infinity f sgn else op2 in
  (op1, op2).
Definition fp32_minmaxnum := fp_minmaxnum F32.
Definition fp64_minmaxnum := fp_minmaxnum F64.

Definition fplibMax (f : format) (op1 op2 fpscr : Z) : Z * Z :=
  let mode := modeConv fpscr in
  let '(u1, flags) := fp_unpack f op1 mode 0 in
  let '(u2, flags) := fp_unpack f op2 mode flags in
  let '(x, flags) := fp_process_NaNs f op1 op2 mode flags in
  let result :=
    if nz x then x
    else if nz (if negb (sgn u1 =? sgn u2) then sgn u2 else Z.lxor (sgn u1) (Z.b2z (op2 <? op1)))
    then fp_repack f (sgn u1) (exp u1) (mnt u1)
    else fp_repack f (sgn u2) (exp u2) (mnt u2) in
  (result, set_fpscr0 fpscr flags).
Definition fplibMax_32 := fplibMax F32.
Definition fplibMax_64 := fplibMax F64.

Definition fplibMin (f : format) (op1 op2 fpscr : Z) : Z * Z :=
  let mode := modeConv fpscr in
  let '(u1, flags) := fp_unpack f op1 mode 0 in
  let '(u2, flags) := fp_unpack f op2 mode flags in
  let '(x, flags) := fp_process_NaNs f op1 op2 mode flags in
  let result :=
    if nz x then x
    else if nz (if negb (sgn u1 =? sgn u2) then sgn u1 else Z.lxor (sgn u1) (Z.b2z (op1 <? op2)))
    then fp_repack f (sgn u1) (exp u1) (mnt u1)
    else fp_repack f (sgn u2) (exp u2) (mnt u2) in
  (result, set_fpscr0 fpscr flags).
Definition fplibMin_32 := fplibMin F32.
Definition fplibMin_64 := fplibMin F64.

Definition fplibMaxNum (f : format) (op1 op2 fpscr : Z) : Z * Z :=
  let '(op1, op2) := fp_minmaxnum f op1 op2 1 in fplibMax f op1 op2 fpscr.
Definition fplibMaxNum_32 := fplibMaxNum F32.
Definition fplibMaxNum_64 := fplibMaxNum F64.

Definition fplibMinNum (f : format) (op1 op2 fpscr : Z) : Z * Z :=
  let '(op1, op2) := fp_minmaxnum f op1 op2 0 in fplibMin f op1 op2 fpscr.
Definition fplibMinNum_32 := fplibMinNum F32.
Definition fplibMinNum_64 := fplibMinNum F64.

(** ** Estimates *)

Definition recip_sqrt_estimate : list Z :=
  [255; 253; 251; 249; 247; 245; 243; 242; 240; 238; 236; 234; 233; 231; 229; 228;
   226; 224; 223; 221; 219; 218; 216; 215; 213; 212; 210; 209; 207; 206; 204; 203;
   201; 200; 198; 197; 196; 194; 193; 192; 190; 189; 188; 186; 185; 184; 183; 181;
   180; 179; 178; 176; 175; 174; 173; 172; 170; 169; 168; 167; 166; 165; 164; 163;
   162; 160; 159; 158; 157; 156; 155; 154; 153; 152; 151; 150; 149; 148; 147; 146;
   145; 144; 143; 142; 141; 140; 140; 139; 138; 137; 136; 135; 134; 133; 132; 131;
   131; 130; 129; 128; 127; 126; 126; 125; 124; 123; 122; 121; 121; 120; 119; 118;
   118; 117; 116; 115; 114; 114; 113; 112; 111; 111; 110; 109; 109; 108; 107; 106;
   105; 104; 103; 101; 100;  99;  97;  96;  95;  93;  92;  91;  90;  88;  87;  86;
    85;  84;  82;  81;  80;  79;  78;  77;  76;  75;  74;  72;  71;  70;  69;  68;
    67;  66;  65;  64;  63;  62;  61;  60;  60;  59;  58;  57;  56;  55;  54;  53;
    52;  51;  51;  50;  49;  48;  47;  46;  46;  45;  44;  43;  42;  42;  41;  40;
    39;  38;  38;  37;  36;  35;  35;  34;  33;  33;  32;  31;  30;  30;  29;  28;
    28;  27;  26;  26;  25;  24;  24;  23;  22;  22;  21;  20;  20;  19;  19;  18;
    17;  17;  16;  16;  15;  14;  14;  13;  13;  12;  11;  11;  10;  10;   9;   9;
     8;   8;   7;   6;   6;   5;   5;   4;   4;   3;   3;   2;   2;   1;   1;   0].

Definition fplibRSqrtEstimate (f : format) (op fpscr : Z) : res (Z * Z) :=
  let mode := modeConv fpscr in
  let '(u, flags) := fp_unpack f op mode 0 in
  with_flags fpscr
    (if nan_bits f u then Ok (fp_process_NaN f op mode flags)
     else if negb (nz (mnt u)) then Ok (fp_infinity f (sgn u), Z.lor flags FPLIB_DZC)
     else if nz (sgn u) then Ok (fp_defaultNaN f, Z.lor flags FPLIB_IOC)
     else if exp u =? emax f then Ok (fp32_zero 0, flags)
     else
       let '(m, e) := fp_normalise f (mnt u) (exp u + (width f - mbits f - 1)) in
       let i := Z.lor (Z.shiftl (Z.land (Z.lnot e) 1) 7) (Z.land (Z.shiftr m (width f - 8)) 127) in
       m ← deref (recip_sqrt_estimate !! Z.to_nat i);
       Ok (fp_pack f 0 (Z.shiftr (3 * bias f - 1 - e) 1) (wrap (width f) (Z.shiftl m (mbits f - 8))), flags)).
Definition fplibRSqrtEstimate_32 := fplibRSqrtEstimate F32.
Definition fplibRSqrtEstimate_64 := fplibRSqrtEstimate F64.

Definition fplibRecipEstimate (f : format) (op fpscr : Z) : res (Z * Z) :=
  let w := width f in
  let mode := modeConv fpscr in
  let '(u, flags) := fp_unpack f op mode 0 in
  with_flags fpscr
    (if nan_bits f u then Ok (fp_process_NaN f op mode flags)
     else if exp u =? emax f then Ok (fp_zero f (sgn u), flags)
     else if negb (nz (mnt u)) then Ok (fp_infinity f (sgn u), Z.lor flags FPLIB_DZC)
     else if negb (nz (Z.shiftr (wrap w (Z.shiftl op 1)) (mbits f - 1))) then
       let rm := FPCRRounding fpscr in
       overflow_to_inf ←
         (if rm =? FPRounding_TIEEVEN then Ok true
          else if rm =? FPRounding_POSINF then Ok (negb (nz (sgn u)))
          else if rm =? FPRounding_NEGINF then Ok (nz (sgn u))
          else if rm =? FPRounding_ZERO then Ok false
          else _ ← assert_ false; Ok false);
       Ok (if overflow_to_inf : bool then fp_infinity f (sgn u) else fp_max_normal f (sgn u),
           Z.lor flags (Z.lor FPLIB_OFC FPLIB_IXC))
     else if fpscr_fz fpscr && (emax f - 2 <=? exp u) then Ok (fp_zero f (sgn u), Z.lor flags FPLIB_UFC)
     else
       let '(m, e) := fp_normalise f (mnt u) (exp u + (w - mbits f - 1)) in
       let result_exp := emax f - 2 - e in
       let fraction := Z.shiftr (2 ^ 19 / Z.lor (Z.shiftr m (w - 10)) 1 + 1) 1 in
       let fraction := wrap w (Z.shiftl fraction (mbits f - 8)) in
       let '(result_exp, fraction) :=
         if result_exp =? 0 then (result_exp, Z.shiftr fraction 1)
         else if result_exp =? -1 then (0, Z.shiftr fraction 2)
         else (result_exp, fraction) in
       Ok (fp_pack f (sgn u) result_exp fraction, flags)).
Definition fplibRecipEstimate_32 := fplibRecipEstimate F32.
Definition fplibRecipEstimate_64 := fplibRecipEstimate F64.

Definition fplibRecpX (f : format) (op fpscr : Z) : Z * Z :=
  let mode := modeConv fpscr in
  let '(u, flags) := fp_unpack f op mode 0 in
  let '(result, flags) :=
    if nan_bits f u then fp_process_NaN f op mode flags
    else if negb (nz (mnt u)) then (fp_pack f (sgn u) (emax f - 1) 0, flags)
    else (fp_pack f (sgn u) (Z.lxor (exp u) (emax f)) 0, flags) in
  (result, set_fpscr0 fpscr flags).
Definition fplibRecpX_32 := fplibRecpX F32.
Definition fplibRecpX_64 := fplibRecpX F64.

(** ** Integers and fixed point *)

(** The [switch (rounding)] of the conversions to integers. *)
Definition round_int (w x err sgn rounding : Z) : res Z :=
  if rounding =? FPRounding_TIEEVEN then Ok (wrap w (x + Z.b2z ((err =? 3) || ((err =? 2) && Z.odd x))))
  else if rounding =? FPRounding_POSINF then Ok (wrap w (x + Z.b2z (nz err && negb (nz sgn))))
  else if rounding =? FPRounding_NEGINF then Ok (wrap w (x + Z.b2z (nz err && nz sgn)))
  else if rounding =? FPRounding_ZERO then Ok x
  else if rounding =? FPRounding_TIEAWAY then Ok (wrap w (x + Z.shiftr err 1))
  else _ ← assert_ false; Ok x.

Definition fplibRoundInt (f : format) (op rounding : Z) (exact : bool) (fpscr : Z) : res (Z * Z) :=
  let w := width f in
  let int_exp := bias f + mbits f in
  let mode := modeConv fpscr in
  let '(u, flags) := fp_unpack f op mode 0 in
  with_flags fpscr
    (if nan_bits f u then Ok (fp_process_NaN f op mode flags)
     else if exp u =? emax f then Ok (fp_infinity f (sgn u), flags)
     else if negb (nz (mnt u)) then Ok (fp_zero f (sgn u), flags)
     else if int_exp <=? exp u then Ok (op, flags)
     else
       let x := if w <=? int_exp - exp u then 0 else Z.shiftr (mnt u) (int_exp - exp u) in
       let err :=
         if exp u <? int_exp - w then 1
         else Z.lor (Z.land (Z.shiftr (wrap w (Z.shiftl (mnt u) 1)) (int_exp - 1 - exp u)) 3)
                (nzi (wrap w (Z.shiftl (wrap w (Z.shiftl (mnt u) 2)) (exp u - (int_exp - w))))) in
       x ← round_int w x err (sgn u) rounding;
       let result :=
         if x =? 0 then fp_zero f (sgn u)
         else
           let '(m, e) := fp_normalise f x int_exp in
           fp_pack f (sgn u) (e + (w - mbits f - 1)) (Z.shiftr m (w - mbits f - 1)) in
       Ok (result, if nz err && exact then Z.lor flags FPLIB_IXC else flags)).
Definition fplibRoundInt_32 := fplibRoundInt F32.
Definition fplibRoundInt_64 := fplibRoundInt F64.

(** The largest or smallest value of the target: [((uint64_t)!u << 63) - !sgn]. *)
Definition saturated (w : Z) (u : bool) (sgn : Z) : Z :=
  wrap w (Z.shiftl (Z.b2z (negb u)) (w - 1) - lnot sgn).

(** [FPToFixed_64] assigns the flags, it does not accumulate. *)
Definition FPToFixed_64 (sgn exp mnt : Z) (u : bool) (rounding flags : Z) : res (Z * Z) :=
  if 1023 + 63 <? exp then Ok (saturated 64 u sgn, FPLIB_IOC)
  else
    let m := u64 (Z.shiftl mnt 11) in
    let x := lsr64 m (1023 + 63 - exp) in
    let err :=
      if 1023 + 63 - 2 <? exp then 0
      else Z.lor (Z.land (lsr64 m (1023 + 63 - 2 - exp)) 3)
             (nzi (Z.land m (u64 (lsl64 1 (1023 + 63 - 2 - exp) - 1)))) in
    x ← round_int 64 x err sgn rounding;
    if (if u then nz sgn && nz x else u64 (2 ^ 63 - lnot sgn) <? x) then Ok (saturated 64 u sgn, FPLIB_IOC)
    else Ok (if nz sgn then u64 (- x) else x, if nz err then FPLIB_IXC else flags).

Definition FPToFixed_32 (sgn exp mnt : Z) (u : bool) (rounding flags : Z) : res (Z * Z) :=
  '(x, flags) ← FPToFixed_64 sgn exp mnt u rounding flags;
  if (if u then 2 ^ 32 <=? x else negb ((x <? 2 ^ 31) || (u64 (- x) <=? 2 ^ 31))) then
    Ok (saturated 32 u sgn, FPLIB_IOC)
  else Ok (u32 x, flags).

(** [fplibFPToFixed]: from single (the significand moved to that of a double) and from double,
    to 32 and to 64 bits. *)
Definition fixed_operand (f : format) (u : unpacked) (fbits : Z) : Z * Z :=
  if width f =? 32 then (exp u + 1023 - 127 + fbits, Z.shiftl (mnt u) (52 - 23)) else (exp u + fbits, mnt u).

Definition fplibFPToFixed (f : format)
    (FPToFixed : Z → Z → Z → bool → Z → Z → res (Z * Z)) (op fbits : Z) (u : bool) (rounding fpscr : Z) : res (Z * Z) :=
  let '(uo, flags) := fp_unpack f op (modeConv fpscr) 0 in
  with_flags fpscr
    (if nan_bits f uo then Ok (0, FPLIB_IOC)
     else let '(e, m) := fixed_operand f uo fbits in FPToFixed (sgn uo) e m u rounding flags).
Definition fplibFPToFixed_32_32 := fplibFPToFixed F32 FPToFixed_32.
Definition fplibFPToFixed_64_32 := fplibFPToFixed F64 FPToFixed_32.
Definition fplibFPToFixed_32_64 := fplibFPToFixed F32 FPToFixed_64.
Definition fplibFPToFixed_64_64 := fplibFPToFixed F64 FPToFixed_64.

Definition fp32_cvtf (a fbits : Z) (u : bool) (mode flags : Z) : res (Z * Z) :=
  let x_sgn := if u then 0 else Z.b2z (nz (Z.shiftr a 63)) in
  let x_exp := 190 - fbits in
  let x_mnt := if nz x_sgn then u64 (- a) else a in
  if negb (nz x_mnt) then Ok (fp32_zero 0, flags)
  else
    let '(x_mnt, x_exp) := fp64_normalise x_mnt x_exp in
    let x_mnt := Z.lor (Z.shiftr x_mnt 31) (nzi (u32 (Z.shiftl x_mnt 1))) in
    fp32_round x_sgn x_exp (u32 x_mnt) mode flags.

Definition fp64_cvtf (a fbits : Z) (u : bool) (mode flags : Z) : res (Z * Z) :=
  let x_sgn := if u then 0 else Z.b2z (nz (Z.shiftr a 63)) in
  let x_exp := 1024 + 62 - fbits in
  let x_mnt := if nz x_sgn then u64 (- a) else a in
  if negb (nz x_mnt) then Ok (fp64_zero 0, flags)
  else
    let '(x_mnt, x_exp) := fp64_normalise x_mnt x_exp in
    fp64_round x_sgn x_exp (u64 (Z.shiftl x_mnt 1)) mode flags.

(** [fplibFixedToFP]: the rounding mode is an argument, the rest of the mode the FPSCR's. *)
Definition fixed_mode (rounding fpscr : Z) : Z := Z.lor rounding (Z.land (Z.shiftr fpscr 22) 12).

Definition fplibFixedToFP_32 (op fbits : Z) (u : bool) (rounding fpscr : Z) : res (Z * Z) :=
  with_flags fpscr (fp32_cvtf op fbits u (fixed_mode rounding fpscr) 0).
Definition fplibFixedToFP_64 (op fbits : Z) (u : bool) (rounding fpscr : Z) : res (Z * Z) :=
  with_flags fpscr (fp64_cvtf op fbits u (fixed_mode rounding fpscr) 0).

End FplibConv.
