(* ===== verification/FplibRound.v ===== *)
(** * Correct rounding

    The reference: a positive number, given as a fraction [N / D] in units of the smallest
    subnormal number of the format, is rounded to a multiple of its unit in the last place.
    [fp_round_correct] shows that the code's [fp_round_] computes that rounding and its
    exceptions from a significand whose lost low bits have been or-ed into its last bit.

    - [classify x k] compares the low [k] bits of [x] with one half;
    - [sticky x d] is a right shift that keeps the lost bits in the last one;
    - [near T V m s] says that [T / V] is [m], or within [2^s] of it with a bit of weight [2^s]
      set as a marker. *)

From S2P Require Import Prelude Fplib.

Open Scope Z_scope.

Module FplibRound.
Import Fplib.

(** ** The reference *)

(** The exponent of the unit in the last place of [N / D]. *)
Definition ulp_exp (f : format) (N D : Z) : Z := Z.max 0 (Z.log2 (N / D) - mbits f).

(** How far above the last place the value is: 0 (exact), 1 (below one half), 2 (one half) or 3. *)
Definition excess (r u : Z) : Z :=
  if r =? 0 then 0 else match 2 * r ?= u with Lt => 1 | Eq => 2 | Gt => 3 end.

Definition rounded (rm sgn q err : Z) : Z :=
  if rm =? FPRounding_ODD then (if nz err then Z.lor q 1 else q)
  else q + Z.b2z (round_up rm sgn q err).

Definition rnd (f : format) (rm sgn N D : Z) : Z :=
  let u := 2 ^ ulp_exp f N D in
  rounded rm sgn (N / (D * u)) (excess (N mod (D * u)) (D * u)) * u.

Definition inexact (f : format) (N D : Z) : bool :=
  let u := 2 ^ ulp_exp f N D in nz (N mod (D * u)).

(** The bits of the number with magnitude [y] (in units of the smallest subnormal). *)
Definition encode (f : format) (sgn y : Z) : Z :=
  if y <? 2 ^ mbits f then fp_pack f sgn 0 y
  else let e := Z.log2 y - mbits f in fp_pack f sgn (e + 1) (y / 2 ^ e).

(** The first magnitude that is too large. *)
Definition too_large (f : format) : Z := 2 ^ (mbits f + emax f - 1).

Definition round_spec (f : format) (rm sgn N D flags : Z) : Z * Z :=
  let y := rnd f rm sgn N D in
  let flags := if (N <? D * 2 ^ mbits f) && inexact f N D then Z.lor flags FPLIB_UFC else flags in
  if too_large f <=? y then
    (if to_infinity rm sgn then fp_infinity f sgn else fp_max_normal f sgn,
     Z.lor flags (Z.lor FPLIB_OFC FPLIB_IXC))
  else (encode f sgn y, if inexact f N D then Z.lor flags FPLIB_IXC else flags).

(** ** Bits *)

Lemma nz_true x : nz x = true ↔ x ≠ 0.
Proof. unfold nz. rewrite negb_true_iff, Z.eqb_neq. done. Qed.

Lemma nz_false x : nz x = false ↔ x = 0.
Proof. unfold nz. rewrite negb_false_iff, Z.eqb_eq. done. Qed.

Lemma shiftr_div x k : 0 ≤ k → Z.shiftr x k = x / 2 ^ k.
Proof. intros. by rewrite Z.shiftr_div_pow2. Qed.

Lemma land_low x k : 0 ≤ k → Z.land x (2 ^ k - 1) = x mod 2 ^ k.
Proof. apply land_pred_pow2. Qed.

(** Or-ing a flag into the last bit. *)
Lemma lor_bit m (b : bool) : 0 ≤ m → Z.lor m (Z.b2z b) = if b then 2 * (m / 2) + 1 else m.
Proof.
  intros Hm. destruct b; [|by rewrite Z.lor_0_r]. apply Z.bits_inj_iff'. intros i Hi.
  rewrite Z.lor_spec. destruct (decide (i = 0)) as [->|Hne].
  - rewrite Z.testbit_odd_0. change (Z.b2z true) with 1. by rewrite orb_true_r.
  - replace i with (Z.succ (i - 1)) by lia. rewrite Z.testbit_odd_succ by lia.
    change (Z.b2z true) with (2 * 0 + 1). rewrite Z.testbit_odd_succ, Z.bits_0, orb_false_r by lia.
    by rewrite Z.div2_bits by lia.
Qed.

(** ** Sticky shifts *)

Definition sticky (x d : Z) : Z := Z.lor (x / 2 ^ d) (nzi (x mod 2 ^ d)).

(** The low [k] bits of [x], compared with one half. *)
Definition classify (x k : Z) : Z := excess (x mod 2 ^ k) (2 ^ k).

Lemma sticky_0 x : sticky x 0 = x.
Proof. unfold sticky. rewrite Z.pow_0_r, Z.div_1_r, Z.mod_1_r. apply Z.lor_0_r. Qed.

Lemma sticky_spec x d : 0 ≤ x → 0 ≤ d →
  sticky x d = if x mod 2 ^ d =? 0 then x / 2 ^ d else 2 * (x / 2 ^ d / 2) + 1.
Proof.
  intros Hx Hd. unfold sticky, nzi, nz. rewrite lor_bit by (apply Z.div_pos; [done|apply pow2_pos; lia]).
  by destruct (x mod 2 ^ d =? 0).
Qed.

Lemma sticky_nonneg x d : 0 ≤ x → 0 ≤ d → 0 ≤ sticky x d.
Proof.
  intros Hx Hd. rewrite sticky_spec by done. pose proof (pow2_pos d ltac:(lia)).
  assert (0 ≤ x / 2 ^ d) by (by apply Z.div_pos). assert (0 ≤ x / 2 ^ d / 2) by (apply Z.div_pos; lia).
  destruct (_ =? _); lia.
Qed.

Lemma sticky_lt x d w : 0 ≤ x → 0 ≤ d → 1 ≤ w → x < 2 ^ (w + d) → sticky x d < 2 ^ w.
Proof.
  intros Hx Hd Hw Hlt. rewrite sticky_spec by done. pose proof (pow2_pos d ltac:(lia)).
  rewrite Z.pow_add_r in Hlt by lia. assert (x / 2 ^ d < 2 ^ w) as Hq by (apply Z.div_lt_upper_bound; lia).
  destruct (_ =? _); [done|]. replace w with (Z.succ (w - 1)) in * by lia. rewrite Z.pow_succ_r in * by lia.
  assert (x / 2 ^ d / 2 < 2 ^ (w - 1)) by (apply Z.div_lt_upper_bound; lia). lia.
Qed.

Lemma excess_scale r u v : 0 < v → excess (r * v) (u * v) = excess r u.
Proof.
  intros Hv. unfold excess. replace (r * v =? 0) with (r =? 0).
  2: { destruct (Z.eqb_spec r 0), (Z.eqb_spec (r * v) 0); nia || done. }
  destruct (r =? 0); [done|]. rewrite Z.mul_assoc.
  destruct (Z.compare_spec (2 * r) u), (Z.compare_spec (2 * r * v) (u * v)); nia || done.
Qed.

Definition near (T V m s : Z) : Prop :=
  T = m * V ∨ ∃ c, m = (2 * c + 1) * 2 ^ s ∧ 2 * c * 2 ^ s * V < T < (2 * c + 2) * 2 ^ s * V.

(** Rounding at a place at least two bits above the marker sees the exact value. *)
Lemma near_round T V m s P :
  0 < V → 0 ≤ s → s + 2 ≤ P → near T V m s →
  T / (2 ^ P * V) = m / 2 ^ P ∧ excess (T mod (2 ^ P * V)) (2 ^ P * V) = classify m P.
Proof.
  intros HV Hs HP Hn. unfold classify. pose proof (pow2_pos P ltac:(lia)). destruct Hn as [->|(c & -> & Hl & Hu)].
  { rewrite Z.div_mul_cancel_r, Z.mul_mod_distr_r by lia. split; [done|]. by apply excess_scale. }
  replace P with (s + 2 + (P - s - 2)) by lia. rewrite !Z.pow_add_r by lia. change (2 ^ 2) with 4.
  set (g := 2 ^ s) in *. set (K := 2 ^ (P - s - 2)).
  assert (0 < g) by (apply pow2_pos; lia). assert (0 < K) by (apply pow2_pos; lia).
  pose proof (Z.div_mod c (2 * K) ltac:(lia)) as Hc. pose proof (Z.mod_pos_bound c (2 * K) ltac:(lia)) as Hcr.
  set (cq := c / (2 * K)) in *. set (cr := c mod (2 * K)) in *.
  assert ((2 * c + 1) * g / (g * 4 * K) = cq) as ->.
  { symmetry. apply Z.div_unique with (r := (2 * cr + 1) * g); [left; nia|nia]. }
  assert ((2 * c + 1) * g mod (g * 4 * K) = (2 * cr + 1) * g) as ->.
  { symmetry. apply Z.mod_unique with (q := cq); [left; nia|nia]. }
  assert (T / (g * 4 * K * V) = cq) as Hq.
  { symmetry. apply Z.div_unique with (r := T - cq * (g * 4 * K * V)); [left; nia|ring]. }
  assert (T mod (g * 4 * K * V) = T - cq * (g * 4 * K * V)) as ->.
  { symmetry. apply Z.mod_unique with (q := cq); [left; nia|ring]. }
  split; [done|]. unfold excess.
  destruct (Z.eqb_spec (T - cq * (g * 4 * K * V)) 0); [nia|]. destruct (Z.eqb_spec ((2 * cr + 1) * g) 0); [nia|].
  assert (cr < K ∨ K ≤ cr) as [Hk|Hk] by lia.
  - destruct (Z.compare_spec (2 * (T - cq * (g * 4 * K * V))) (g * 4 * K * V)); [nia| |nia].
    destruct (Z.compare_spec (2 * ((2 * cr + 1) * g)) (g * 4 * K)); [nia|done|nia].
  - destruct (Z.compare_spec (2 * (T - cq * (g * 4 * K * V))) (g * 4 * K * V)); [nia|nia|].
    destruct (Z.compare_spec (2 * ((2 * cr + 1) * g)) (g * 4 * K)); [nia|nia|done].
Qed.

Lemma near_exact V m s : near (m * V) V m s.
Proof. by left. Qed.

Lemma sticky_near x d : 0 ≤ x → 0 ≤ d → near x (2 ^ d) (sticky x d) 0.
Proof.
  intros Hx Hd. rewrite sticky_spec by done. pose proof (pow2_pos d ltac:(lia)).
  pose proof (Z.div_mod x (2 ^ d) ltac:(lia)) as Hdm. pose proof (Z.mod_pos_bound x (2 ^ d) ltac:(lia)).
  destruct (Z.eqb_spec (x mod 2 ^ d) 0).
  - left. lia.
  - right. exists (x / 2 ^ d / 2). change (2 ^ 0) with 1. split; [ring|].
    pose proof (Z.div_mod (x / 2 ^ d) 2 ltac:(lia)). pose proof (Z.mod_pos_bound (x / 2 ^ d) 2 ltac:(lia)). nia.
Qed.

Lemma near_scale T V m s x : 0 < x → near T V m s → near (T * x) (V * x) m s.
Proof. intros Hx [->|(c & -> & ?)]; [left; ring|right]. exists c. split; [done|nia]. Qed.

Lemma near_shift T V m s k : 0 ≤ s → 0 ≤ k → near T V m s → near (T * 2 ^ k) V (m * 2 ^ k) (s + k).
Proof.
  intros Hs Hk [->|(c & -> & ?)]; [left; ring|right]. exists c. rewrite Z.pow_add_r by lia.
  pose proof (pow2_pos k ltac:(lia)). split; [ring|]. nia.
Qed.

Lemma near_add T V m a : Z.Even a → near T V m 0 → near (a * V + T) V (a + m) 0.
Proof.
  intros [b ->] [->|(c & -> & ?)]; [left; ring|right]. exists (b + c). change (2 ^ 0) with 1 in *. split; [ring|nia].
Qed.

Lemma near_sub T V m a : Z.Even a → near T V m 0 → near (a * V - T) V (a - m) 0.
Proof.
  intros [b ->] [->|(c & -> & ?)]; [left; ring|right]. exists (b - c - 1). change (2 ^ 0) with 1 in *. split; [ring|nia].
Qed.

Lemma near_opp T V m : near T V m 0 → near (- T) V (- m) 0.
Proof. intros Hn. pose proof (near_sub T V m 0 ltac:(by exists 0) Hn) as H. by rewrite !Z.sub_0_l in H. Qed.

(** A sticky shift of a number that is near enough. *)
Lemma near_sticky T V m d : 0 < V → 0 ≤ m → 0 ≤ d → near T V m 0 → near T (V * 2 ^ d) (sticky m d) 0.
Proof.
  intros HV Hm Hd Hn. pose proof (pow2_pos d ltac:(lia)). destruct Hn as [->|(c & -> & Hl & Hu)].
  { rewrite (Z.mul_comm V), (Z.mul_comm m). rewrite (Z.mul_comm V m), (Z.mul_comm (2 ^ d)).
    rewrite (Z.mul_comm V (2 ^ d)). apply near_scale; [done|]. by apply sticky_near. }
  change (2 ^ 0) with 1 in *. rewrite Z.mul_1_r in *. rewrite sticky_spec by done.
  pose proof (Z.div_mod (2 * c + 1) (2 ^ d) ltac:(lia)) as Hdm. pose proof (Z.mod_pos_bound (2 * c + 1) (2 ^ d) ltac:(lia)).
  destruct (decide (d = 0)) as [->|Hne].
  { right. exists c. change (2 ^ 0) with 1. rewrite Z.mod_1_r, Z.div_1_r. cbn. split; [ring|nia]. }
  assert (2 ^ d = 2 * 2 ^ (d - 1)) as Hd2 by (rewrite <- Z.pow_succ_r by lia; f_equal; lia).
  set (q := (2 * c + 1) / 2 ^ d) in *. set (r := (2 * c + 1) mod 2 ^ d) in *.
  assert (r = 2 * (c - 2 ^ (d - 1) * q) + 1) as Hr by (rewrite Hd2 in Hdm; lia).
  destruct (Z.eqb_spec r 0); [lia|].
  right. exists (q / 2). change (2 ^ 0) with 1. split; [ring|].
  pose proof (Z.div_mod q 2 ltac:(lia)). pose proof (Z.mod_pos_bound q 2 ltac:(lia)).
  assert (2 ^ d * (2 * (q / 2)) ≤ 2 * c) by nia. assert (2 * c + 2 ≤ 2 ^ d * (2 * (q / 2) + 2)) by nia. nia.
Qed.

(** The two error bits and the sticky rest classify the low bits. *)
Lemma error_bits x k : 0 ≤ x → 2 ≤ k →
  Z.lor (Z.land (x / 2 ^ (k - 2)) 3) (nzi (x mod 2 ^ (k - 2))) = classify x k.
Proof.
  intros Hx Hk. unfold classify. pose proof (pow2_pos (k - 2) ltac:(lia)).
  replace (2 ^ k) with (2 ^ (k - 2) * 4) by (change 4 with (2 ^ 2); rewrite <- Z.pow_add_r by lia; f_equal; lia).
  rewrite Z.rem_mul_r by lia. set (y := x / 2 ^ (k - 2)). set (t := x mod 2 ^ (k - 2)).
  assert (0 ≤ t < 2 ^ (k - 2)) by (apply Z.mod_pos_bound; lia).
  change 3 with (2 ^ 2 - 1). rewrite land_low by lia. change (2 ^ 2) with 4.
  pose proof (Z.mod_pos_bound y 4 ltac:(lia)) as Hy. unfold excess, nzi, nz.
  assert (y mod 4 = 0 ∨ y mod 4 = 1 ∨ y mod 4 = 2 ∨ y mod 4 = 3) as [E|[E|[E|E]]] by lia; rewrite E;
    destruct (Z.eqb_spec t 0) as [Ht|Ht]; cbn [negb Z.b2z Z.lor Pos.lor];
    match goal with |- context [?v =? 0] => destruct (Z.eqb_spec v 0); try nia; try done end;
    match goal with |- context [?v ?= ?u] => destruct (Z.compare_spec v u); try nia; done end.
Qed.

(** ** Formats *)

(** What the constants of a format have in common. *)
Record wf_format (f : format) : Prop := {
  wf_mbits : 2 ≤ mbits f;
  wf_drop : 3 ≤ drop f;
  wf_width : width f = mbits f + 2 + drop f;
  wf_mask : dropmask f = 2 ^ drop f - 1 ∨ dropmask f = 2 ^ (drop f + 1) - 1;
  wf_emax : emax f = 2 ^ (width f - mbits f - 1) - 1;
  wf_half : width f = 2 ^ (Z.of_nat (half f) + 1)
}.

Lemma wf_F16 : wf_format F16.
Proof. split; cbn; lia. Qed.
Lemma wf_F32 : wf_format F32.
Proof. split; cbn; lia. Qed.
Lemma wf_F64 : wf_format F64.
Proof. split; cbn; lia. Qed.

(** Shifts by any amount, on words. *)
Lemma lsr_spec w x d : 0 ≤ x < 2 ^ w → 0 ≤ d → lsr w x d = x / 2 ^ d.
Proof.
  intros Hx Hd. unfold lsr. destruct (Z.ltb_spec d w); [by apply shiftr_div|].
  rewrite Z.div_small; [done|]. split; [lia|]. eapply Z.lt_le_trans; [apply Hx|]. apply Z.pow_le_mono_r; lia.
Qed.

Lemma lsl_mask w x d : 0 ≤ w → 0 ≤ x < 2 ^ w → 0 ≤ d → Z.land x (wrap w (lsl w 1 d - 1)) = x mod 2 ^ d.
Proof.
  intros Hw Hx Hd. unfold lsl. pose proof (pow2_pos d ltac:(lia)). destruct (Z.ltb_spec d w).
  - assert (2 ^ d < 2 ^ w) by (apply Z.pow_lt_mono_r; lia).
    rewrite Z.shiftl_1_l, !wrap_small by (rewrite ?wrap_small; unfold in_width; lia). by apply land_low.
  - assert (2 ^ w ≤ 2 ^ d) by (apply Z.pow_le_mono_r; lia).
    replace (wrap w (0 - 1)) with (2 ^ w - 1).
    2: { unfold wrap. apply Z.mod_unique with (q := -1); lia. }
    rewrite land_low by lia. rewrite !Z.mod_small by lia. done.
Qed.

Lemma lor_add k x : 0 ≤ x < 2 ^ k → Z.lor (2 ^ k) x = 2 ^ k + x.
Proof.
  intros Hx. destruct (decide (0 ≤ k)); [|rewrite Z.pow_neg_r in * by lia; lia].
  rewrite <- Z.add_lor_land.
  assert (Z.land (2 ^ k) x = 0) as ->; [|lia]. apply Z.bits_inj_iff'. intros i Hi.
  rewrite Z.land_spec, Z.bits_0. destruct (decide (i = k)) as [->|].
  - rewrite (testbit_out k x) by (done || lia). apply andb_false_r.
  - by rewrite Z.pow2_bits_false by lia.
Qed.

(** A mask with one bit too many takes a bit that is kept anyway. *)
Lemma sticky_mask x d M :
  0 ≤ x → 0 ≤ d → M = 2 ^ d - 1 ∨ M = 2 ^ (d + 1) - 1 →
  ∀ a, Z.Even a → 0 ≤ a → Z.lor (a + x / 2 ^ d) (nzi (Z.land x M)) = Z.lor (a + x / 2 ^ d) (nzi (x mod 2 ^ d)).
Proof.
  intros Hx Hd [-> | ->] a Ha Ha0; rewrite land_low by lia; [done|].
  pose proof (pow2_pos d ltac:(lia)).
  rewrite Z.pow_add_r, Z.rem_mul_r by lia. change (2 ^ 1) with 2.
  pose proof (Z.mod_pos_bound x (2 ^ d) ltac:(lia)). assert (0 ≤ x / 2 ^ d) by (apply Z.div_pos; lia).
  pose proof (Z.mod_pos_bound (x / 2 ^ d) 2 ltac:(lia)). pose proof (Z.div_mod (x / 2 ^ d) 2 ltac:(lia)).
  unfold nzi, nz. rewrite !lor_bit by lia. destruct Ha as [b ->].
  set (y := x / 2 ^ d) in *. set (t := x mod 2 ^ d) in *.
  destruct (Z.eqb_spec t 0) as [Ht|Ht], (Z.eqb_spec (t + 2 ^ d * (y mod 2)) 0) as [Hs|Hs]; cbn [negb]; try done.
  - assert (y mod 2 = 1) as Hy by nia. clearbody y. clear - Hy.
    Z.to_euclidean_division_equations. lia.
  - nia.
Qed.

Lemma round_mnt f mnt :
  wf_format f → 0 ≤ mnt < 2 ^ width f →
  Z.lor (Z.lor (2 ^ (mbits f + 2)) (Z.shiftr mnt (drop f))) (nzi (Z.land mnt (dropmask f))) =
  sticky (2 ^ width f + mnt) (drop f).
Proof.
  intros [? ? Hw Hm _ _] Hmnt. pose proof (pow2_pos (drop f) ltac:(lia)). pose proof (pow2_pos (mbits f + 2) ltac:(lia)).
  assert (2 ^ width f = 2 ^ (mbits f + 2) * 2 ^ drop f) as HW by (rewrite <- Z.pow_add_r by lia; f_equal; lia).
  rewrite shiftr_div by lia. rewrite lor_add.
  2: { split; [apply Z.div_pos; lia|]. apply Z.div_lt_upper_bound; lia. }
  rewrite sticky_mask; try done; try lia.
  2: { exists (2 ^ (mbits f + 1)). rewrite <- Z.pow_succ_r by lia. f_equal. lia. }
  unfold sticky. rewrite HW, Z.div_add_l by lia. rewrite (Z.add_comm (_ * _)), Z.mod_add by lia. done.
Qed.

(** The exponent, significand and error bits that rounding starts from. *)
Lemma round_parts_spec f e mnt :
  wf_format f → 0 ≤ mnt < 2 ^ width f →
  let big := 2 ^ width f + mnt in
  let P := width f - mbits f + Z.max 0 (1 - e) in
  round_parts f e mnt = (Z.max 0 e, big / 2 ^ P, classify big P).
Proof.
  intros Hf Hmnt big P. unfold round_parts. rewrite round_mnt by done. destruct Hf as [? ? Hw _ _ _]. fold big.
  assert (0 ≤ big) by (unfold big; pose proof (pow2_pos (width f) ltac:(lia)); lia).
  pose proof (sticky_near big (drop f) ltac:(done) ltac:(lia)) as Hn. set (m := sticky big (drop f)) in *.
  pose proof (pow2_pos (drop f) ltac:(lia)). assert (0 ≤ m) by (apply sticky_nonneg; lia).
  assert (∀ k, 2 ≤ k → big / 2 ^ (k + drop f) = m / 2 ^ k ∧ classify big (k + drop f) = classify m k) as Hk.
  { intros k Hk. pose proof (near_round big (2 ^ drop f) m 0 k ltac:(done) ltac:(lia) ltac:(lia) Hn) as [Hq He].
    unfold classify. rewrite Z.pow_add_r by lia. done. }
  destruct (Z.ltb_spec 0 e).
  - destruct (Hk 2 ltac:(lia)) as [Hq He]. replace P with (2 + drop f) by (unfold P; lia). rewrite Hq, He.
    rewrite shiftr_div by lia. rewrite Z.max_r by lia. rewrite <- (error_bits m 2) by lia.
    rewrite Z.pow_0_r, Z.div_1_r, Z.mod_1_r. by rewrite Z.lor_0_r.
  - destruct (Hk (3 - e) ltac:(lia)) as [Hq He]. replace P with (3 - e + drop f) by (unfold P; lia). rewrite Hq, He.
    assert (0 ≤ m < 2 ^ width f).
    { split; [done|]. apply sticky_lt; [lia..|]. apply Z.lt_le_trans with (2 ^ (width f + 1)).
      - unfold big. rewrite Z.pow_add_r by lia. lia.
      - apply Z.pow_le_mono_r; lia. }
    rewrite !lsr_spec, lsl_mask by lia. rewrite <- (error_bits m (3 - e)) by lia.
    rewrite (Z.max_l 0 e) by lia. by replace (3 - e - 2) with (1 - e) by lia.
Qed.

(** ** The rounding step *)

(** The range of a significand with its biased exponent, before and after rounding. *)
Definition canonical (f : format) (be q : Z) : Prop :=
  (be = 0 ∧ 0 ≤ q < 2 ^ mbits f) ∨ (1 ≤ be ∧ 2 ^ mbits f ≤ q < 2 ^ (mbits f + 1)).

Definition magnitude (be q : Z) : Z := q * 2 ^ Z.max 0 (be - 1).

Lemma canonical_encode f s be q :
  wf_format f → canonical f be q → encode f s (magnitude be q) = fp_pack f s be q.
Proof.
  intros Hf Hc. unfold encode, magnitude. pose proof (wf_mbits _ Hf). destruct Hc as [[-> Hq]|[Hb Hq]].
  { rewrite Z.max_l, Z.pow_0_r, Z.mul_1_r by lia. destruct (Z.ltb_spec q (2 ^ mbits f)); [done|lia]. }
  rewrite Z.max_r by lia. pose proof (pow2_pos (be - 1) ltac:(lia)).
  destruct (Z.ltb_spec (q * 2 ^ (be - 1)) (2 ^ mbits f)); [nia|].
  assert (Z.log2 (q * 2 ^ (be - 1)) = mbits f + (be - 1)) as ->.
  { apply Z.log2_unique; [lia|]. rewrite <- Z.add_succ_l, !Z.pow_add_r by lia.
    change (Z.succ (mbits f)) with (mbits f + 1). rewrite !Z.pow_add_r in * by lia. nia. }
  replace (mbits f + (be - 1) - mbits f) with (be - 1) by lia.
  rewrite Z.div_mul by lia. f_equal. lia.
Qed.

Lemma canonical_too_large f be q :
  wf_format f → canonical f be q → (too_large f <=? magnitude be q) = (emax f <=? be).
Proof.
  intros Hf Hc. unfold too_large, magnitude. destruct Hf as [? ? Hw _ He _].
  assert (2 ^ 1 ≤ 2 ^ (width f - mbits f - 1)) by (apply Z.pow_le_mono_r; lia).
  pose proof (pow2_pos (mbits f) ltac:(lia)). destruct Hc as [[-> Hq]|[Hb Hq]].
  - rewrite Z.max_l, Z.pow_0_r, Z.mul_1_r by lia. destruct (Z.leb_spec (emax f) 0); [lia|].
    apply Z.leb_gt. apply Z.lt_le_trans with (2 ^ mbits f); [lia|]. apply Z.pow_le_mono_r; lia.
  - rewrite Z.max_r by lia. pose proof (pow2_pos (be - 1) ltac:(lia)). destruct (Z.leb_spec (emax f) be).
    + apply Z.leb_le. apply Z.le_trans with (2 ^ (mbits f + (be - 1))); [apply Z.pow_le_mono_r; lia|].
      rewrite Z.pow_add_r by lia. nia.
    + apply Z.leb_gt. apply Z.lt_le_trans with (2 ^ (mbits f + 1 + (be - 1))); [|apply Z.pow_le_mono_r; lia].
      rewrite (Z.pow_add_r 2 (mbits f + 1)) by lia. nia.
Qed.

Lemma lor_1 q : 0 ≤ q → Z.lor q 1 = 2 * (q / 2) + 1.
Proof. intros. by apply (lor_bit q true). Qed.

(** Incrementing the significand keeps it canonical and its magnitude right. *)
Lemma round_bump_spec f rm s be q err be' q' :
  wf_format f → canonical f be q → round_bump f rm s be q err = (be', q') →
  let q'' := if nz err && (rm =? FPRounding_ODD) then Z.lor q' 1 else q' in
  canonical f be' q'' ∧ magnitude be' q'' = rounded rm s q err * 2 ^ Z.max 0 (be - 1).
Proof.
  intros Hf Hc Hb. pose proof (wf_mbits _ Hf). pose proof (wf_drop _ Hf). pose proof (wf_width _ Hf) as Hw.
  assert (2 ^ (mbits f + 1) = 2 * 2 ^ mbits f) as H2 by (rewrite Z.pow_add_r by lia; lia).
  assert (2 ^ mbits f = 2 * 2 ^ (mbits f - 1)) as H2' by (rewrite <- Z.pow_succ_r by lia; f_equal; lia).
  assert (2 ^ (mbits f + 1) < 2 ^ width f) by (apply Z.pow_lt_mono_r; lia).
  pose proof (pow2_pos (mbits f - 1) ltac:(lia)).
  unfold round_bump, rounded in *. destruct (Z.eqb_spec rm FPRounding_ODD) as [->|Hrm].
  { change (round_up FPRounding_ODD s q err) with false in Hb. injection Hb as <- <-. rewrite andb_true_r.
    unfold magnitude. split; [|done]. destruct (nz err); [|done].
    rewrite lor_1 by (destruct Hc; lia). pose proof (Z.div_mod q 2 ltac:(lia)). pose proof (Z.mod_pos_bound q 2 ltac:(lia)).
    destruct Hc as [Hc|Hc]; [left|right]; lia. }
  rewrite andb_false_r. destruct (round_up rm s q err); cbn [Z.b2z].
  2: { injection Hb as <- <-. rewrite Z.add_0_r. done. }
  rewrite wrap_small in Hb by (unfold in_width; destruct Hc; lia).
  destruct (Z.eqb_spec (q + 1) (2 ^ (mbits f + 1))) as [Hq|Hq].
  - destruct (Z.eqb_spec (q + 1) (2 ^ mbits f)) as [?|?]; [lia|]. injection Hb as <- <-.
    destruct Hc as [Hc|[Hc ?]]; [lia|]. rewrite Hq, shiftr_div, H2 by lia. change (2 ^ 1) with 2.
    rewrite (Z.mul_comm 2), Z.div_mul by lia. split; [right; lia|]. unfold magnitude. rewrite !Z.max_r by lia.
    replace (be + 1 - 1) with (Z.succ (be - 1)) by lia. rewrite Z.pow_succ_r by lia. lia.
  - destruct (Z.eqb_spec (q + 1) (2 ^ mbits f)) as [Hq'|?]; injection Hb as <- <-.
    + destruct Hc as [[-> ?]|[Hc ?]]; [|lia]. split; [right; lia|]. done.
    + split; [|done]. destruct Hc as [Hc|[Hc ?]]; [left|right]; lia.
Qed.

(** The significand [2^width + mnt] at exponent [e] stands for [N / D]: exactly, or up to a
    marker of weight [2^s]. *)
Definition stands_for (f : format) (e mnt s N D : Z) : Prop :=
  ∃ K, 0 ≤ K ∧ 0 ≤ e - 1 - (width f - mbits f) + K ∧
    near (N * 2 ^ K) (2 ^ (e - 1 - (width f - mbits f) + K) * D) (2 ^ width f + mnt) s.

Lemma excess_nz r u : nz (excess r u) = nz r.
Proof. unfold excess, nz. destruct (Z.eqb_spec r 0) as [->|]; [done|]. by destruct (2 * r ?= u). Qed.

(** The significand and exponent have the quotient, the error bits and the unit in the last place
    of the value [N / D]. *)
Definition parts_agree (f : format) (e mnt N D : Z) : Prop :=
  let P := width f - mbits f + Z.max 0 (1 - e) in
  let big := 2 ^ width f + mnt in
  let u := 2 ^ Z.max 0 (e - 1) in
  N / (D * u) = big / 2 ^ P ∧ excess (N mod (D * u)) (D * u) = classify big P ∧
  canonical f (Z.max 0 e) (big / 2 ^ P) ∧ ulp_exp f N D = Z.max 0 (e - 1).

Lemma stands_for_parts f e mnt s N D :
  wf_format f → 0 ≤ mnt < 2 ^ width f → 0 < D → 0 ≤ s → s + 2 ≤ width f - mbits f + Z.max 0 (1 - e) →
  stands_for f e mnt s N D →
  parts_agree f e mnt N D.
Proof.
  intros Hf Hmnt HD Hs HsP (K & HK & Hj & Hn). unfold parts_agree.
  set (P := width f - mbits f + Z.max 0 (1 - e)). set (big := 2 ^ width f + mnt). set (u := 2 ^ Z.max 0 (e - 1)). cbv zeta. destruct Hf as [? ? Hw _ _ _].
  set (j := e - 1 - (width f - mbits f) + K) in *. pose proof (pow2_pos j ltac:(lia)). pose proof (pow2_pos K ltac:(lia)).
  destruct (near_round _ (2 ^ j * D) _ s P ltac:(nia) Hs ltac:(lia) Hn) as [Hq He].
  assert (2 ^ P * (2 ^ j * D) = D * u * 2 ^ K) as HR.
  { rewrite Z.mul_assoc, <- Z.pow_add_r by lia. replace (P + j) with (Z.max 0 (e - 1) + K) by lia.
    rewrite Z.pow_add_r by lia. unfold u. ring. }
  pose proof (pow2_pos (Z.max 0 (e - 1)) ltac:(lia)) as Hu. fold u in Hu.
  rewrite HR, Z.div_mul_cancel_r in Hq by nia. rewrite HR, Z.mul_mod_distr_r, excess_scale in He by nia.
  fold big in Hq, He. assert (canonical f (Z.max 0 e) (big / 2 ^ P)) as Hcan.
  { pose proof (pow2_pos P ltac:(lia)). assert (2 ^ width f = 2 ^ mbits f * 2 ^ (width f - mbits f)) as HW
      by (rewrite <- Z.pow_add_r by lia; f_equal; lia).
    assert (2 ^ (mbits f + 1) = 2 * 2 ^ mbits f) by (rewrite Z.pow_add_r by lia; lia).
    destruct (decide (1 ≤ e)).
    - right. replace P with (width f - mbits f) in * by lia. split_and!; [lia| |].
      + apply Z.div_le_lower_bound; lia.
      + apply Z.div_lt_upper_bound; lia.
    - left. split_and!; [lia|apply Z.div_pos; lia|]. apply Z.div_lt_upper_bound; [lia|].
      assert (2 * 2 ^ (width f - mbits f) ≤ 2 ^ P) by (rewrite <- Z.pow_succ_r by lia; apply Z.pow_le_mono_r; lia).
      nia. }
  split_and!; [done..|]. unfold ulp_exp. rewrite <- Hq in Hcan. rewrite <- Z.div_div in Hcan by lia.
  set (v := N / D) in *. destruct Hcan as [[Hb Hv]|[Hb Hv]].
  - assert (u = 1) as Hu1 by (unfold u; rewrite Z.max_l by lia; done). rewrite Hu1, Z.div_1_r in Hv.
    destruct (decide (v = 0)) as [->|]; [rewrite Z.log2_nonpos by lia; lia|].
    assert (Z.log2 v < mbits f) by (apply Z.log2_lt_pow2; lia). lia.
  - assert (2 ^ mbits f * u ≤ v < 2 ^ (mbits f + 1) * u) as Hv'.
    { pose proof (Z.div_mod v u ltac:(lia)). pose proof (Z.mod_pos_bound v u ltac:(lia)). nia. }
    unfold u in Hv'. rewrite <- !Z.pow_add_r in Hv' by lia.
    rewrite (Z.log2_unique v (mbits f + Z.max 0 (e - 1))); [lia..|].
    by replace (Z.succ (mbits f + Z.max 0 (e - 1))) with (mbits f + 1 + Z.max 0 (e - 1)) by lia.
Qed.

Lemma fp_round_of_parts f sg e mnt rm mode flags N D :
  wf_format f → 0 ≤ mnt < 2 ^ width f → 0 < D → parts_agree f e mnt N D →
  rm ≠ FPRounding_TIEAWAY → Z.land mode FPLIB_FZ = 0 →
  fp_round_ f sg e mnt rm mode flags = Ok (round_spec f rm sg N D flags).
Proof.
  intros Hf Hmnt HD (Hq & He & Hc & Hu) Hrm Hfz.
  unfold fp_round_. destruct (Z.eqb_spec rm FPRounding_TIEAWAY); [done|]. cbn [negb]. rewrite bind_assert by done.
  rewrite Hfz. change (nz 0) with false. cbn [andb].
  rewrite round_parts_spec by done. cbv zeta.
  set (P := width f - mbits f + Z.max 0 (1 - e)) in *. set (big := 2 ^ width f + mnt) in *.
  destruct (round_bump f rm sg (Z.max 0 e) (big / 2 ^ P) (classify big P)) as [be' q'] eqn:Hb.
  destruct (round_bump_spec _ _ _ _ _ _ _ _ Hf Hc Hb) as [Hc' Hm]. cbv zeta in Hc', Hm.
  set (q'' := if nz (classify big P) && (rm =? FPRounding_ODD) then Z.lor q' 1 else q') in *.
  assert (Z.max 0 (Z.max 0 e - 1) = Z.max 0 (e - 1)) as Hmx by lia. rewrite Hmx in Hm.
  assert (rnd f rm sg N D = magnitude be' q'') as Hr by (unfold rnd; rewrite Hu, Hq, He; done).
  assert (inexact f N D = nz (classify big P)) as Hi by (unfold inexact; rewrite Hu, <- He, excess_nz; done).
  assert ((N <? D * 2 ^ mbits f) = negb (nz (Z.max 0 e))) as Hsub.
  { pose proof (pow2_pos (Z.max 0 (e - 1)) ltac:(lia)). rewrite <- Hq in Hc. unfold nz. rewrite negb_involutive.
    pose proof (pow2_pos (mbits f) ltac:(pose proof (wf_mbits _ Hf); lia)). destruct Hc as [[Hb0 Hv]|[Hb0 Hv]].
    - rewrite Hb0. rewrite (Z.max_l 0 (e - 1)), Z.mul_1_r in Hv by lia. apply Z.ltb_lt.
      pose proof (Z.div_mod N D ltac:(lia)). pose proof (Z.mod_pos_bound N D ltac:(lia)). nia.
    - destruct (Z.eqb_spec (Z.max 0 e) 0); [lia|]. apply Z.ltb_ge.
      pose proof (Z.mul_div_le N (D * 2 ^ Z.max 0 (e - 1)) ltac:(nia)) as Hle.
      set (u := 2 ^ Z.max 0 (e - 1)) in *. set (q := N / (D * u)) in *.
      assert (2 ^ mbits f ≤ u * q) by nia. rewrite <- Z.mul_assoc in Hle. nia. }
  unfold round_spec. rewrite Hr, Hi, Hsub, canonical_too_large, canonical_encode by done. by destruct (emax f <=? be').
Qed.

(** Rounding is correct.  When the significand and exponent handed to the rounding function
    stand for the number [N / D] - exactly, or with the bits that were shifted out kept in a
    marker bit at least two places below the last one - the result and the exception flags are
    those of the exact number rounded once in the given direction: the nearest multiple of the
    unit in the last place (gradual underflow included) for "to nearest, ties to even", the
    neighbour in the direction of rounding or the odd neighbour otherwise, with the overflow
    result and the underflow, overflow and inexact exceptions that go with it. *)
Lemma fp_round_correct f sg e mnt rm mode flags s N D :
  wf_format f → 0 ≤ mnt < 2 ^ width f → 0 < D → 0 ≤ s → s + 2 ≤ width f - mbits f + Z.max 0 (1 - e) →
  stands_for f e mnt s N D →
  rm ≠ FPRounding_TIEAWAY → Z.land mode FPLIB_FZ = 0 →
  fp_round_ f sg e mnt rm mode flags = Ok (round_spec f rm sg N D flags).
Proof. intros. apply fp_round_of_parts; try done. by eapply stands_for_parts. Qed.

(** Numbers below half of the smallest subnormal round alike. *)
Lemma fp_round_tiny f sg e mnt rm mode flags N D :
  wf_format f → 0 ≤ mnt < 2 ^ width f → e ≤ - mbits f - 2 → 0 < N → 2 * N < D →
  rm ≠ FPRounding_TIEAWAY → Z.land mode FPLIB_FZ = 0 →
  fp_round_ f sg e mnt rm mode flags = Ok (round_spec f rm sg N D flags).
Proof.
  intros Hf Hmnt He HN HD Hrm Hfz. apply fp_round_of_parts; [done|done|lia| |done|done].
  pose proof (wf_mbits f Hf). pose proof (wf_width f Hf). pose proof (wf_drop f Hf).
  unfold parts_agree. rewrite !(Z.max_l 0) by lia. rewrite (Z.max_r 0 (1 - e)) by lia.
  set (P := width f - mbits f + (1 - e)). set (big := 2 ^ width f + mnt).
  assert (2 ^ (width f + 2) ≤ 2 ^ P) by (apply Z.pow_le_mono_r; lia).
  rewrite Z.pow_add_r in * by lia. change (2 ^ 2) with 4 in *. pose proof (pow2_pos (width f) ltac:(lia)).
  rewrite Z.pow_0_r, Z.mul_1_r. unfold classify. assert (0 < big ∧ 2 * big < 2 ^ P) as [Hb Hb'] by (unfold big; lia).
  rewrite !Z.div_small, !Z.mod_small by lia. unfold excess.
  destruct (Z.eqb_spec N 0), (Z.eqb_spec big 0); try lia.
  destruct (Z.compare_spec (2 * N) D), (Z.compare_spec (2 * big) (2 ^ P)); try lia.
  split_and!; [done..|left; pose proof (pow2_pos (mbits f)); lia|].
  unfold ulp_exp. rewrite Z.div_small by lia. change (Z.log2 0) with 0. lia.
Qed.

End FplibRound.
