(* ===== verification/FplibArith.v ===== *)
(** * Correct arithmetic

    The operations of [FplibOps] compared with exact arithmetic on the numbers the operands
    stand for: every result is the exact one rounded once.  The references work on the
    magnitudes of finite operands in units of the smallest subnormal number (integers), the
    code on significands that it aligns with sticky shifts and normalises. *)

From S2P Require Import Prelude Fplib FplibOps FplibRound.

Open Scope Z_scope.

Module FplibArith.
Import Fplib FplibOps FplibRound.

(** ** What the bits of an operand mean *)

Definition sign (f : format) (x : Z) : Z := Z.shiftr x (width f - 1).
Definition is_inf (f : format) (x : Z) : bool := (raw_exp f x =? emax f) && negb (nz (raw_mnt f x)).

(** The significand, the exponent and the magnitude of a finite operand. *)
Definition signif (f : format) (x : Z) : Z :=
  if raw_exp f x =? 0 then raw_mnt f x else 2 ^ mbits f + raw_mnt f x.
Definition expo (f : format) (x : Z) : Z := Z.max 1 (raw_exp f x).
Definition mag (f : format) (x : Z) : Z := signif f x * 2 ^ (expo f x - 1).

(** The smallest subnormal is [2^-unit_exp]. *)
Definition unit_exp (f : format) : Z := emax f / 2 + mbits f - 1.

Lemma emax_pos f : wf_format f → 3 ≤ emax f.
Proof.
  intros [? ? Hw _ -> _]. assert (2 ^ 2 ≤ 2 ^ (width f - mbits f - 1)) by (apply Z.pow_le_mono_r; lia). lia.
Qed.

Lemma raw_exp_range f x : wf_format f → 0 ≤ raw_exp f x ≤ emax f.
Proof.
  intros [? ? Hw _ He _]. unfold raw_exp. rewrite He, land_low by lia.
  pose proof (Z.mod_pos_bound (Z.shiftr x (mbits f)) (2 ^ (width f - mbits f - 1))) as H. 
  pose proof (pow2_pos (width f - mbits f - 1) ltac:(lia)). lia.
Qed.

Lemma raw_mnt_range f x : wf_format f → 0 ≤ raw_mnt f x < 2 ^ mbits f.
Proof.
  intros [? ? Hw _ He _]. unfold raw_mnt. rewrite land_low by lia. apply Z.mod_pos_bound, pow2_pos. lia.
Qed.

Lemma sign_range f x : wf_format f → in_width (width f) x → sign f x = 0 ∨ sign f x = 1.
Proof.
  intros [? ? Hw _ He _] [Hx Hx']. unfold sign. rewrite shiftr_div by lia.
  replace (width f) with (Z.succ (width f - 1)) in Hx' by lia. rewrite Z.pow_succ_r in Hx' by lia.
  pose proof (pow2_pos (width f - 1) ltac:(lia)).
  assert (0 ≤ x / 2 ^ (width f - 1)) by (apply Z.div_pos; lia).
  assert (x / 2 ^ (width f - 1) < 2) by (apply Z.div_lt_upper_bound; lia). lia.
Qed.

(** The ranges of the significand and the exponent. *)
Lemma signif_range f x :
  wf_format f → 0 ≤ signif f x < 2 ^ (mbits f + 1) ∧ (1 < expo f x → 2 ^ mbits f ≤ signif f x) ∧ 1 ≤ expo f x ≤ emax f.
Proof.
  intros Hf. pose proof (raw_exp_range f x Hf). pose proof (raw_mnt_range f x Hf). pose proof (emax_pos f Hf).
  pose proof (wf_mbits f Hf). unfold signif, expo. rewrite Z.pow_add_r by lia. change (2 ^ 1) with 2.
  destruct (Z.eqb_spec (raw_exp f x) 0); lia.
Qed.

Lemma fp_unpack_spec f x mode flags :
  wf_format f → Z.land mode FPLIB_FZ = 0 →
  fp_unpack f x mode flags = (mkUnpacked (sign f x) (expo f x) (signif f x), flags).
Proof.
  intros Hf Hfz. unfold fp_unpack. rewrite Hfz. change (nz 0) with false. cbn [andb].
  pose proof (raw_exp_range f x Hf). pose proof (raw_mnt_range f x Hf). unfold nz, signif, expo.
  destruct (Z.eqb_spec (raw_exp f x) 0) as [->|]; cbn [negb]; [done|].
  rewrite Z.lor_comm, lor_add by done. rewrite Z.max_r by lia. done.
Qed.

Lemma expo_emax f x : wf_format f → (expo f x =? emax f) = (raw_exp f x =? emax f).
Proof.
  intros Hf. pose proof (emax_pos f Hf). unfold expo.
  destruct (Z.eqb_spec (raw_exp f x) (emax f)), (Z.eqb_spec (Z.max 1 (raw_exp f x)) (emax f)); lia || done.
Qed.

Lemma not_NaN_inf f x : wf_format f → is_NaN f x = false → (expo f x =? emax f) = is_inf f x.
Proof.
  intros Hf Hn. rewrite expo_emax by done. unfold is_NaN, is_inf in *. destruct (_ =? _); [|done].
  cbn [andb] in *. by rewrite Hn.
Qed.

Definition unpack_of (f : format) (x : Z) : unpacked := mkUnpacked (sign f x) (expo f x) (signif f x).

(** The fraction of an infinity or NaN, as the code tests it on the unpacked significand. *)
Lemma signif_fraction f x :
  wf_format f → raw_exp f x = emax f →
  nz (wrap (width f) (Z.shiftl (signif f x) (width f - mbits f))) = nz (raw_mnt f x).
Proof.
  intros Hf He. pose proof (emax_pos f Hf). pose proof (raw_mnt_range f x Hf).
  pose proof (wf_width f Hf). pose proof (wf_drop f Hf). pose proof (wf_mbits f Hf).
  unfold signif. destruct (Z.eqb_spec (raw_exp f x) 0); [lia|]. rewrite Z.shiftl_mul_pow2 by lia. unfold wrap.
  pose proof (pow2_pos (width f - mbits f) ltac:(lia)).
  replace (2 ^ width f) with (2 ^ mbits f * 2 ^ (width f - mbits f)) by (rewrite <- Z.pow_add_r by lia; f_equal; lia).
  rewrite Z.mul_mod_distr_r by lia. rewrite <- Z.add_mod_idemp_l, Z.mod_same, Z.add_0_l, Z.mod_small by lia.
  unfold nz. f_equal. destruct (Z.eqb_spec (raw_mnt f x) 0), (Z.eqb_spec (raw_mnt f x * 2 ^ (width f - mbits f)) 0); nia || done.
Qed.

Lemma nan_bits_spec f x : wf_format f → nan_bits f (unpack_of f x) = is_NaN f x.
Proof.
  intros Hf. unfold nan_bits, is_NaN. cbn [exp mnt unpack_of]. rewrite expo_emax by done.
  destruct (Z.eqb_spec (raw_exp f x) (emax f)); [|done]. by rewrite signif_fraction.
Qed.

(** The quiet bit. *)
Definition quiet (f : format) (x : Z) : bool := Z.testbit x (mbits f - 1).

Lemma testbit_raw_mnt f x : wf_format f → Z.testbit (raw_mnt f x) (mbits f - 1) = quiet f x.
Proof.
  intros Hf. pose proof (wf_mbits f Hf). unfold raw_mnt. replace (2 ^ mbits f - 1) with (Z.ones (mbits f)) by (rewrite Z.ones_equiv; lia).
  rewrite Z.land_spec, Z.ones_spec_low by lia. apply andb_true_r.
Qed.

Lemma testbit_signif f x : wf_format f → Z.testbit (signif f x) (mbits f - 1) = quiet f x.
Proof.
  intros Hf. rewrite <- testbit_raw_mnt by done. pose proof (wf_mbits f Hf). unfold signif. destruct (_ =? _); [done|].
  rewrite <- lor_add by (by apply raw_mnt_range). rewrite Z.lor_spec, Z.pow2_bits_false by lia. done.
Qed.

Lemma quiet_is_NaN f x : wf_format f → raw_exp f x = emax f → quiet f x = true → is_NaN f x = true.
Proof.
  intros Hf He Hq. unfold is_NaN. rewrite He, Z.eqb_refl. cbn [andb]. apply nz_true. intros Hz.
  rewrite <- testbit_raw_mnt, Hz, Z.bits_0 in Hq by done. done.
Qed.

(** ** NaNs *)

Lemma nz_testbit x i : 0 ≤ i → Z.testbit x i = true → nz x = true.
Proof. intros Hi Hx. apply nz_true. intros ->. by rewrite Z.bits_0 in Hx. Qed.

Lemma testbit_pack_NaN f i : wf_format f → i = mbits f - 1 → Z.testbit (fp_defaultNaN f) i = true.
Proof.
  intros Hf ->. destruct Hf as [? ? Hw _ He _]. unfold fp_defaultNaN, fp_pack.
  rewrite testbit_wrap by lia. rewrite !Z.lor_spec, Z.land_spec.
  rewrite (Z.pow2_bits_true (mbits f - 1)) by lia. replace (2 ^ mbits f - 1) with (Z.ones (mbits f)) by (rewrite Z.ones_equiv; lia).
  rewrite Z.ones_spec_low by lia. cbn [andb]. rewrite orb_true_r. apply Z.ltb_lt. lia.
Qed.

(** A processed NaN is a quiet NaN, so not zero. *)
Lemma process_NaN_nz f a mode flags : wf_format f → nz (fp_process_NaN f a mode flags).1 = true.
Proof.
  intros Hf. unfold fp_process_NaN. pose proof (wf_mbits f Hf).
  destruct (Z.testbit a (mbits f - 1)) eqn:Hb; cbn [negb]; destruct (nz (Z.land mode FPLIB_DN)); cbn [fst];
    apply (nz_testbit _ (mbits f - 1)); try lia; try done; try by apply testbit_pack_NaN.
  rewrite Z.lor_spec, Z.pow2_bits_true by lia. apply orb_true_r.
Qed.

Lemma process_NaNs_spec f a b mode flags :
  wf_format f →
  let r := fp_process_NaNs f a b mode flags in
  if is_NaN f a || is_NaN f b then nz r.1 = true else r = (0, flags).
Proof.
  intros Hf r. unfold r, fp_process_NaNs, is_sNaN.
  destruct (is_NaN f a), (is_NaN f b); cbn [andb orb]; repeat case_match; try done;
    match goal with |- nz (fst (fp_process_NaN _ _ _ _)) = _ => by apply process_NaN_nz end.
Qed.

Lemma process_NaNs3_spec f a b c mode flags :
  wf_format f →
  let r := fp_process_NaNs3 f a b c mode flags in
  if is_NaN f a || is_NaN f b || is_NaN f c then nz r.1 = true else r = (0, flags).
Proof.
  intros Hf r. unfold r, fp_process_NaNs3, is_sNaN.
  destruct (is_NaN f a), (is_NaN f b), (is_NaN f c); cbn [andb orb]; repeat case_match; try done;
    match goal with |- nz (fst (fp_process_NaN _ _ _ _)) = _ => by apply process_NaN_nz end.
Qed.

(** ** Normalisation *)

Lemma norm_step w sh x e :
  0 < sh → 2 * sh ≤ w → 2 ^ (w - 2 * sh) ≤ x < 2 ^ w →
  ∃ t, 0 ≤ t ∧ 2 ^ (w - sh) ≤ x * 2 ^ t < 2 ^ w ∧
    (if Z.shiftr x (w - sh) =? 0 then (wrap w (Z.shiftl x sh), e - sh) else (x, e)) = (x * 2 ^ t, e - t).
Proof.
  intros Hsh Hw Hx. rewrite shiftr_div by lia. pose proof (pow2_pos (w - sh) ltac:(lia)).
  assert (2 ^ w = 2 ^ (w - sh) * 2 ^ sh) as HW by (rewrite <- Z.pow_add_r by lia; f_equal; lia).
  assert (2 ^ (w - sh) = 2 ^ (w - 2 * sh) * 2 ^ sh) as HW' by (rewrite <- Z.pow_add_r by lia; f_equal; lia).
  pose proof (pow2_pos sh ltac:(lia)). pose proof (pow2_pos (w - 2 * sh) ltac:(lia)).
  pose proof (Z.div_mod x (2 ^ (w - sh)) ltac:(lia)). pose proof (Z.mod_pos_bound x (2 ^ (w - sh)) ltac:(lia)).
  assert (0 ≤ x / 2 ^ (w - sh)) by (apply Z.div_pos; lia).
  destruct (Z.eqb_spec (x / 2 ^ (w - sh)) 0).
  - exists sh. rewrite Z.shiftl_mul_pow2 by lia. rewrite wrap_small by (unfold in_width; nia).
    split_and!; [lia|nia..|done].
  - exists 0. rewrite Z.pow_0_r, Z.mul_1_r, Z.sub_0_r. split_and!; [lia|nia|lia|done].
Qed.

Lemma norm_loop_spec w k x e :
  2 ^ (Z.of_nat k + 1) ≤ w → 2 ^ (w - 2 ^ (Z.of_nat k + 1)) ≤ x < 2 ^ w →
  ∃ t, 0 ≤ t ∧ norm_loop w k x e = (x * 2 ^ t, e - t) ∧ 2 ^ (w - 1) ≤ x * 2 ^ t < 2 ^ w.
Proof.
  assert (∀ j, 2 ^ (Z.of_nat j + 1) = 2 * 2 ^ Z.of_nat j) as H2 by (intros; rewrite Z.pow_add_r by lia; lia).
  revert x e. induction k as [|k IH]; intros x e Hw Hx; cbn [norm_loop]; rewrite H2 in Hw, Hx;
    
    (edestruct (norm_step w) as (t & Ht & Hr & Heq); [|exact Hw|exact Hx|rewrite Heq]; [apply pow2_pos; lia|]).
  - by exists t.
  - replace (Z.of_nat (S k)) with (Z.of_nat k + 1) in Hr, Hw by lia.
    destruct (IH (x * 2 ^ t) (e - t)) as (t' & Ht' & -> & Hr'); [lia|done|].
    exists (t + t'). rewrite Z.pow_add_r by lia. split; [lia|]. split; [f_equal; lia|lia].
Qed.

(** Normalising shifts the leading one to the top and adjusts the exponent. *)
Lemma normalise_spec f x e :
  wf_format f → 0 < x < 2 ^ width f →
  ∃ t, 0 ≤ t ∧ fp_normalise f x e = (x * 2 ^ t, e - t) ∧ 2 ^ (width f - 1) ≤ x * 2 ^ t < 2 ^ width f.
Proof.
  intros Hf Hx. unfold fp_normalise. destruct (Z.eqb_spec x 0); [lia|]. pose proof (wf_half f Hf) as Hh.
  apply norm_loop_spec; rewrite <- Hh; [done|]. rewrite Z.sub_diag. cbn. lia.
Qed.

(** ** Rounding a normalised sum *)

Lemma wrap_top w x : 0 < w → 2 ^ (w - 1) ≤ x < 2 ^ w → 2 ^ w + wrap w (Z.shiftl x 1) = 2 * x ∧ 0 ≤ wrap w (Z.shiftl x 1) < 2 ^ w.
Proof.
  intros Hw Hx. rewrite Z.shiftl_mul_pow2 by lia. change (2 ^ 1) with 2.
  assert (2 ^ w = 2 * 2 ^ (w - 1)) by (rewrite <- Z.pow_succ_r by lia; f_equal; lia).
  assert (wrap w (x * 2) = 2 * x - 2 ^ w) as ->; [|lia].
  unfold wrap. symmetry. apply Z.mod_unique with (q := 1); lia.
Qed.

(** A value that is known up to a marker in the last bit may be normalised and rounded when it
    has two more bits than the format, or is exact. *)
Lemma normalise_round f sg x e mode flags N D K :
  wf_format f → Z.land mode FPLIB_FZ = 0 → 0 < x < 2 ^ width f → 0 < D → 0 ≤ K → 0 ≤ e - 4 + K →
  near (N * 2 ^ K) (2 ^ (e - 4 + K) * D) x 0 →
  N * 2 ^ K = x * (2 ^ (e - 4 + K) * D) ∨ 2 ^ (mbits f + 2) ≤ x →
  (let '(x', e') := fp_normalise f x e in
   fp_round f sg (e' + (width f - mbits f - 4)) (wrap (width f) (Z.shiftl x' 1)) mode flags) =
  Ok (round_spec f (Z.land mode 3) sg N D flags).
Proof.
  intros Hf Hfz Hx HD HK Hj Hn Hex. destruct (normalise_spec f x e Hf Hx) as (t & Ht & -> & Hr).
  pose proof (wf_width f Hf). pose proof (wf_drop f Hf). pose proof (wf_mbits f Hf).
  destruct (wrap_top (width f) (x * 2 ^ t) ltac:(lia) Hr) as [Hbig Hmnt]. unfold fp_round.
  assert (Z.land mode 3 ≠ FPRounding_TIEAWAY).
  { change 3 with (2 ^ 2 - 1). rewrite land_low by lia. pose proof (Z.mod_pos_bound mode (2 ^ 2) ltac:(lia)).
    change (2 ^ 2) with 4 in *. unfold FPRounding_TIEAWAY. lia. }
  assert (∀ s, 0 ≤ s → near (N * 2 ^ K * 2 ^ (t + 1)) (2 ^ (e - 4 + K) * D) (x * 2 ^ (t + 1)) s →
    stands_for f (e - t + (width f - mbits f - 4)) (wrap (width f) (Z.shiftl (x * 2 ^ t) 1)) s N D) as Hst.
  { intros s Hs Hn'. exists (K + (t + 1)). split_and!; [lia|lia|]. rewrite Hbig.
    rewrite Z.pow_add_r, Z.mul_assoc by lia. rewrite (Z.pow_add_r 2 t) in Hn' |- * by lia.
    replace (e - t + (width f - mbits f - 4) - 1 - (width f - mbits f) + (K + (t + 1))) with (e - 4 + K) by lia.
    replace (2 * (x * 2 ^ t)) with (x * (2 ^ t * 2 ^ 1)) by (change (2 ^ 1) with 2; ring). done. }
  destruct Hex as [Hex|Hex].
  - apply (fp_round_correct f sg _ _ _ mode flags 0); try done; try lia. apply Hst; [lia|].
    rewrite Hex. replace (x * (2 ^ (e - 4 + K) * D) * 2 ^ (t + 1)) with (x * 2 ^ (t + 1) * (2 ^ (e - 4 + K) * D)) by ring.
    apply near_exact.
  - assert (t < width f - mbits f - 2).
    { apply Z.nle_gt. intros Hge. assert (2 ^ (width f - mbits f - 2) ≤ 2 ^ t) by (apply Z.pow_le_mono_r; lia).
      assert (2 ^ width f = 2 ^ (mbits f + 2) * 2 ^ (width f - mbits f - 2)) by (rewrite <- Z.pow_add_r by lia; f_equal; lia).
      pose proof (pow2_pos (mbits f + 2) ltac:(lia)). pose proof (pow2_pos (width f - mbits f - 2) ltac:(lia)). nia. }
    apply (fp_round_correct f sg _ _ _ mode flags (t + 1)); try done; try lia. apply Hst; [lia|].
    apply (near_shift _ _ _ 0); [lia..|done].
Qed.

(** ** Sums *)

Definition signed (s v : Z) : Z := if s =? 0 then v else - v.

Lemma sticky_lsr_spec w x d : 0 ≤ w → 0 ≤ x < 2 ^ w → 0 ≤ d → sticky_lsr w x d = sticky x d.
Proof. intros. unfold sticky_lsr, sticky. by rewrite lsr_spec, lsl_mask by lia. Qed.

Lemma near_abs T V m : 0 < V → near T V m 0 → Z.sgn T = Z.sgn m ∧ near (Z.abs T) V (Z.abs m) 0.
Proof.
  intros HV Hn. assert (Z.sgn T = Z.sgn m) as Hs.
  { destruct Hn as [->|(c & -> & Hl & Hu)]; [rewrite Z.sgn_mul, (Z.sgn_pos V); lia|].
    change (2 ^ 0) with 1 in *. rewrite !Z.mul_1_r in *. assert (0 ≤ c ∨ c ≤ -1) as [?|?] by lia.
    - rewrite !Z.sgn_pos; nia.
    - rewrite !Z.sgn_neg; nia. }
  split; [done|]. destruct (Z.le_gt_cases 0 m).
  - rewrite !Z.abs_eq; [done|lia|]. apply Z.sgn_nonneg. rewrite Hs. by apply Z.sgn_nonneg.
  - rewrite !Z.abs_neq; [by apply near_opp|lia|]. apply Z.sgn_nonpos. rewrite Hs. apply Z.sgn_nonpos. lia.
Qed.

Lemma near_signed T V m s : near T V m 0 → near (signed s T) V (signed s m) 0.
Proof. intros. unfold signed. destruct (s =? 0); [done|by apply near_opp]. Qed.


(** A sum with one operand shifted right, its lost bits kept in the last one. *)
Lemma aligned_near sx x sy y d :
  0 ≤ y → 0 ≤ d → Z.Even x →
  let T := signed sx x * 2 ^ d + signed sy y in
  let m := signed sx x + signed sy (sticky y d) in
  Z.sgn T = Z.sgn m ∧ near (Z.abs T) (2 ^ d) (Z.abs m) 0 ∧ (Z.abs T = Z.abs m * 2 ^ d ∨ y mod 2 ^ d ≠ 0).
Proof.
  intros Hy Hd Hx T m. pose proof (pow2_pos d Hd).
  assert (near T (2 ^ d) m 0) as HT.
  { apply near_add; [|apply near_signed; by apply sticky_near].
    destruct Hx as [z ->]. unfold signed. destruct (sx =? 0); [exists z|exists (- z)]; ring. }
  destruct (near_abs T (2 ^ d) m ltac:(done) HT) as [Hsgn Habs]. split_and!; [done..|].
  destruct (decide (y mod 2 ^ d = 0)) as [Hz|Hz]; [left|by right].
  assert (y = sticky y d * 2 ^ d) as Hy'.
  { rewrite sticky_spec by done. rewrite Hz. cbn [Z.eqb]. pose proof (Z.div_mod y (2 ^ d) ltac:(lia)). lia. }
  assert (T = m * 2 ^ d) as ->.
  { unfold T, m. rewrite Hy' at 1. unfold signed. destruct (sx =? 0), (sy =? 0); ring. }
  rewrite Z.abs_mul, (Z.abs_eq (2 ^ d)) by lia. done.
Qed.

(** Bits are lost only by shifts that go past the low zeroes. *)
Lemma mod_pow2_zero k x d : 0 ≤ k → 0 ≤ d → (x * 2 ^ k) mod 2 ^ d ≠ 0 → k < d.
Proof.
  intros Hk Hd Hz. apply Z.nle_gt. intros Hle. apply Hz. pose proof (pow2_pos d Hd).
  replace (x * 2 ^ k) with (x * 2 ^ (k - d) * 2 ^ d); [by apply Z.mod_mul; lia|].
  rewrite <- Z.mul_assoc, <- Z.pow_add_r by lia. do 2 f_equal. lia.
Qed.

(** The aligned sum stands for the exact one: [x] and [y] have the weights [2^(ex + j)] and
    [2^(ey + j)], and [y] is shifted to the weight of [x]. *)
Lemma aligned_value sx x ex sy y ey S k j :
  0 ≤ y → Z.Even x → ey ≤ ex → 0 ≤ ey + j → 0 ≤ k →
  S * 2 ^ k = signed sx (x * 2 ^ (ex + j)) + signed sy (y * 2 ^ (ey + j)) →
  let m := signed sx x + signed sy (sticky y (ex - ey)) in
  Z.sgn S = Z.sgn m ∧ near (Z.abs S * 2 ^ k) (2 ^ (ex + j)) (Z.abs m) 0 ∧
  (Z.abs S * 2 ^ k = Z.abs m * 2 ^ (ex + j) ∨ y mod 2 ^ (ex - ey) ≠ 0).
Proof.
  intros Hy Hx He Hj Hk HS m. set (d := ex - ey) in *. pose proof (pow2_pos (ey + j) Hj). pose proof (pow2_pos k Hk).
  destruct (aligned_near sx x sy y d Hy ltac:(lia) Hx) as (Hsgn & Hn & Hex).
  set (T := signed sx x * 2 ^ d + signed sy y) in *. fold m in Hsgn, Hn, Hex.
  assert (2 ^ (ex + j) = 2 ^ d * 2 ^ (ey + j)) as HV by (rewrite <- Z.pow_add_r by lia; f_equal; lia).
  assert (S * 2 ^ k = T * 2 ^ (ey + j)) as HST.
  { rewrite HS, HV. unfold T, signed. destruct (sx =? 0), (sy =? 0); ring. }
  assert (Z.abs S * 2 ^ k = Z.abs T * 2 ^ (ey + j)) as HSa.
  { rewrite <- (Z.abs_eq (2 ^ k)), <- (Z.abs_eq (2 ^ (ey + j))) by lia. by rewrite <- !Z.abs_mul, HST. }
  rewrite HSa, HV. split_and!.
  - rewrite <- Hsgn. rewrite <- (Z.mul_1_r (Z.sgn S)), <- (Z.mul_1_r (Z.sgn T)).
    rewrite <- (Z.sgn_pos (2 ^ k)) at 1 by lia. rewrite <- (Z.sgn_pos (2 ^ (ey + j))) by lia. by rewrite <- !Z.sgn_mul, HST.
  - by apply near_scale.
  - destruct Hex as [-> | Hz]; [left; ring|by right].
Qed.

(** Two numbers of which one is much smaller do not cancel. *)
Lemma signed_sum_bounds sx x sy y :
  0 ≤ x → 0 ≤ y → Z.abs (signed sx x + signed sy y) ≤ x + y ∧ x - y ≤ Z.abs (signed sx x + signed sy y).
Proof. intros. unfold signed. destruct (sx =? 0), (sy =? 0); lia. Qed.

Lemma sticky_lt' x d w v : 0 ≤ x < 2 ^ v → v ≤ w + d → 0 ≤ d → 1 ≤ w → 0 ≤ sticky x d < 2 ^ w.
Proof.
  intros Hx Hv Hd Hw. split; [apply sticky_nonneg; lia|]. apply sticky_lt; [lia..|].
  apply Z.lt_le_trans with (2 ^ v); [lia|]. apply Z.pow_le_mono_r; lia.
Qed.

(** The significands of an addition, with three more bits. *)
Lemma aligned_sum f sa ma ea sb mb eb :
  wf_format f → 0 ≤ ma < 2 ^ (mbits f + 1) → 0 ≤ mb < 2 ^ (mbits f + 1) → (1 < ea → 2 ^ mbits f ≤ ma) → 1 ≤ eb ≤ ea →
  let S := signed sa (ma * 2 ^ (ea - 1)) + signed sb (mb * 2 ^ (eb - 1)) in
  let m := signed sa (8 * ma) + signed sb (sticky (8 * mb) (ea - eb)) in
  Z.sgn S = Z.sgn m ∧ Z.abs m < 2 ^ width f ∧ near (Z.abs S * 2 ^ 3) (2 ^ (ea - 4 + 3) * 1) (Z.abs m) 0 ∧
  (Z.abs S * 2 ^ 3 = Z.abs m * (2 ^ (ea - 4 + 3) * 1) ∨ 2 ^ (mbits f + 2) ≤ Z.abs m).
Proof.
  intros Hf Hma Hmb Hna He S m. pose proof (wf_width f Hf). pose proof (wf_drop f Hf). pose proof (wf_mbits f Hf).
  assert (2 ^ (mbits f + 1) = 2 * 2 ^ mbits f) as Hp1 by (rewrite Z.pow_add_r by lia; lia).
  assert (2 ^ (mbits f + 4) = 2 ^ (mbits f + 1) * 8) as H4.
  { change 8 with (2 ^ 3). rewrite <- Z.pow_add_r by lia. f_equal. lia. }
  assert (2 * 2 ^ (mbits f + 4) ≤ 2 ^ width f) by (rewrite <- Z.pow_succ_r by lia; apply Z.pow_le_mono_r; lia).
  pose proof (sticky_lt' (8 * mb) (ea - eb) (mbits f + 4) (mbits f + 4) ltac:(lia) ltac:(lia) ltac:(lia) ltac:(lia)) as Hy.
  destruct (signed_sum_bounds sa (8 * ma) sb (sticky (8 * mb) (ea - eb))) as [Hub Hlb]; [lia..|].
  destruct (aligned_value sa (8 * ma) ea sb (8 * mb) eb S 3 (-1)) as (Hsgn & Hn & Hex);
    [lia|exists (4 * ma); ring|lia|lia|lia| |].
  { unfold S, signed. change (2 ^ 3) with 8. change (ea + -1) with (ea - 1). change (eb + -1) with (eb - 1).
    destruct (sa =? 0), (sb =? 0); ring. }
  fold m in Hsgn, Hn, Hex, Hub, Hlb. replace (2 ^ (ea - 4 + 3) * 1) with (2 ^ (ea + -1)) by (rewrite Z.mul_1_r; f_equal; lia).
  split_and!; [done|lia|done|]. destruct Hex as [Hex|Hz]; [by left|right].
  rewrite (Z.mul_comm 8) in Hz. apply (mod_pow2_zero 3) in Hz; [|lia..].
  pose proof (sticky_lt' (8 * mb) (ea - eb) (mbits f) (mbits f + 4) ltac:(lia) ltac:(lia) ltac:(lia) ltac:(lia)).
  specialize (Hna ltac:(lia)). rewrite Z.pow_add_r by lia. change (2 ^ 2) with 4. lia.
Qed.

Lemma add_signed_spec w sa X sb Y :
  0 ≤ w → (sa = 0 ∨ sa = 1) → (sb = 0 ∨ sb = 1) → 0 ≤ X → 0 ≤ Y → Z.abs (signed sa X + signed sb Y) < 2 ^ w →
  let m := signed sa X + signed sb Y in
  (add_signed w sa X sb Y).2 = Z.abs m ∧ (m ≠ 0 → (add_signed w sa X sb Y).1 = Z.b2z (m <? 0)).
Proof.
  intros Hw Hsa Hsb HX HY Hm m. subst m. unfold add_signed, signed in *.
  destruct Hsa as [-> | ->], Hsb as [-> | ->]; cbn [Z.eqb Pos.eqb] in *; try destruct (Z.leb_spec Y X);
    cbn [fst snd]; (split; [rewrite wrap_small by (unfold in_width; lia); lia|]); intros;
    match goal with |- context [?m <? 0] => destruct (Z.ltb_spec m 0) end; cbn [Z.b2z]; first [lia|done].
Qed.

(** The exact sum [S / D], rounded; a sum of zero has the sign [zs]. *)
Definition round_signed (f : format) (mode zs S D flags : Z) : Z * Z :=
  if S =? 0 then (fp_zero f zs, flags)
  else round_spec f (Z.land mode 3) (Z.b2z (S <? 0)) (Z.abs S) D flags.

Definition zero_sign (mode sa sb : Z) : Z := if sa =? sb then sa else Z.b2z (Z.land mode 3 =? FPLIB_RM).

(** Addition on the numbers the operands stand for. *)
Definition add_ref (f : format) (a b neg mode flags : Z) : Z * Z :=
  let sa := sign f a in
  let sb := Z.lxor (sign f b) neg in
  if is_NaN f a || is_NaN f b then fp_process_NaNs f a b mode flags
  else if is_inf f a && is_inf f b && negb (sa =? sb) then (fp_defaultNaN f, Z.lor flags FPLIB_IOC)
  else if is_inf f a then (fp_infinity f sa, flags)
  else if is_inf f b then (fp_infinity f sb, flags)
  else round_signed f mode (zero_sign mode sa sb) (signed sa (mag f a) + signed sb (mag f b)) 1 flags.

Lemma mag_nonneg f x : wf_format f → 0 ≤ mag f x.
Proof.
  intros Hf. destruct (signif_range f x Hf) as (? & _ & ?). unfold mag.
  pose proof (pow2_pos (expo f x - 1) ltac:(lia)). nia.
Qed.

Lemma signif_0 f x : wf_format f → (signif f x =? 0) = (mag f x =? 0).
Proof.
  intros Hf. destruct (signif_range f x Hf) as (? & _ & ?). unfold mag.
  pose proof (pow2_pos (expo f x - 1) ltac:(lia)).
  destruct (Z.eqb_spec (signif f x) 0), (Z.eqb_spec (signif f x * 2 ^ (expo f x - 1)) 0); nia || done.
Qed.

(** The sum of two finite numbers, once aligned. *)
Lemma add_finite f sa sb mode flags S X Y x_exp :
  let m := signed sa X + signed sb Y in
  wf_format f → Z.land mode FPLIB_FZ = 0 → (sa = 0 ∨ sa = 1) → (sb = 0 ∨ sb = 1) → 0 ≤ X → 0 ≤ Y →
  Z.sgn S = Z.sgn m → Z.abs m < 2 ^ width f → 1 ≤ x_exp →
  near (Z.abs S * 2 ^ 3) (2 ^ (x_exp - 4 + 3) * 1) (Z.abs m) 0 →
  Z.abs S * 2 ^ 3 = Z.abs m * (2 ^ (x_exp - 4 + 3) * 1) ∨ 2 ^ (mbits f + 2) ≤ Z.abs m →
  (S = 0 → (sa =? sb) = false) →
  (let '(sg, x) := add_signed (width f) sa X sb Y in
   if negb (nz x) then Ok (fp_zero f (Z.b2z (Z.land mode 3 =? 2)), flags)
   else
     let '(x_mnt, x_exp) := fp_normalise f x x_exp in
     fp_round f sg (x_exp + (width f - mbits f - 4)) (wrap (width f) (Z.shiftl x_mnt 1)) mode flags) =
  Ok (round_signed f mode (zero_sign mode sa sb) S 1 flags).
Proof.
  intros m Hf Hfz Hsa Hsb HX HY Hsgn Hm He Hn Hex HS0.
  assert (0 ≤ width f) by (destruct Hf; lia).
  destruct (add_signed_spec (width f) sa X sb Y) as [Hv Hs]; [done..|].
  destruct (add_signed (width f) sa X sb Y) as [sg x]. cbn [fst snd] in Hv, Hs. fold m in Hv, Hs. clearbody m. subst x.
  unfold round_signed, zero_sign, nz. rewrite negb_involutive.
  destruct (Z.eqb_spec (Z.abs m) 0) as [H0|H0].
  - assert (S = 0) as HS by lia. rewrite HS, HS0 by done. done.
  - destruct (Z.eqb_spec S 0) as [HS|HS]; [lia|].
    rewrite Hs by lia. replace (m <? 0) with (S <? 0) by (destruct (Z.ltb_spec S 0), (Z.ltb_spec m 0); lia || done).
    apply normalise_round with (K := 3); done || lia.
Qed.

Lemma fp_add_ref f a b neg mode flags :
  wf_format f → in_width (width f) a → in_width (width f) b → (neg = 0 ∨ neg = 1) → Z.land mode FPLIB_FZ = 0 →
  fp_add f a b neg mode flags = Ok (add_ref f a b neg mode flags).
Proof.
  intros Hf Ha Hb Hneg Hfz. unfold fp_add, add_ref. rewrite !fp_unpack_spec by done.
  pose proof (process_NaNs_spec f a b mode flags Hf) as HN. cbv zeta in HN.
  destruct (fp_process_NaNs f a b mode flags) as [x fl] eqn:Hp. cbn [fst] in HN. cbn [sgn exp mnt].
  destruct (is_NaN f a || is_NaN f b) eqn:Hnan; [by rewrite HN|]. apply orb_false_iff in Hnan as [Hna Hnb].
  injection HN as -> ->. change (nz 0) with false. cbv iota.
  rewrite !not_NaN_inf by done. destruct (is_inf f a && is_inf f b && _); [done|].
  destruct (is_inf f a); [done|]. destruct (is_inf f b); [done|].
  unfold nz. rewrite !negb_involutive, !signif_0 by done.
  pose proof (sign_range f a Hf Ha) as Hsa. set (sa := sign f a) in *.
  assert (Z.lxor (sign f b) neg = 0 ∨ Z.lxor (sign f b) neg = 1) as Hsb.
  { destruct (sign_range f b Hf Hb) as [-> | ->], Hneg as [-> | ->]; first [by left|by right]. }
  set (sb := Z.lxor (sign f b) neg) in *.
  destruct (signif_range f a Hf) as (Hma & Hna' & Hea). destruct (signif_range f b Hf) as (Hmb & Hnb' & Heb).
  destruct ((mag f a =? 0) && (mag f b =? 0) && (sa =? sb)) eqn:Hz.
  { apply andb_true_iff in Hz as [Hz Hs]. apply andb_true_iff in Hz as [Hza Hzb].
    apply Z.eqb_eq in Hza, Hzb. rewrite Hza, Hzb. unfold round_signed, zero_sign, signed. rewrite Hs.
    by destruct (sa =? 0), (sb =? 0). }
  pose proof (wf_width f Hf). pose proof (wf_drop f Hf). pose proof (wf_mbits f Hf).
  assert (∀ x, 0 ≤ x < 2 ^ (mbits f + 1) → wrap (width f) (Z.shiftl x 3) = 8 * x ∧ 0 ≤ 8 * x < 2 ^ width f) as H8.
  { intros x Hx. rewrite Z.shiftl_mul_pow2, (Z.mul_comm x) by lia. change (2 ^ 3) with 8.
    assert (2 ^ (mbits f + 1) * 2 ^ 3 ≤ 2 ^ width f) by (rewrite <- Z.pow_add_r by lia; apply Z.pow_le_mono_r; lia).
    change (2 ^ 3) with 8 in *. rewrite wrap_small by (unfold in_width; lia). lia. }
  destruct (H8 _ Hma) as [Hwa Hba], (H8 _ Hmb) as [Hwb Hbb]. rewrite Hwa, Hwb.
  assert (signed sa (mag f a) + signed sb (mag f b) = 0 → (sa =? sb) = false) as HS0.
  { intros HS. pose proof (mag_nonneg f a Hf). pose proof (mag_nonneg f b Hf). unfold signed in HS.
    destruct Hsa as [Es|Es], Hsb as [Es'|Es']; rewrite Es, Es' in *; cbn [Z.eqb Pos.eqb] in HS, Hz |- *; try done;
      rewrite andb_true_r in Hz;
      destruct (Z.eqb_spec (mag f a) 0), (Z.eqb_spec (mag f b) 0); done || lia. }
  clear Hz Hp Hna Hnb H8 Hwa Hwb. destruct (Z.leb_spec (expo f b) (expo f a)) as [Hle|Hlt].
  - rewrite sticky_lsr_spec by lia.
    destruct (aligned_sum f sa (signif f a) (expo f a) sb (signif f b) (expo f b)) as (Hsg & Hlt & Hn & Hex); try done; [lia|].
    apply add_finite; try done; [lia| |lia]. apply sticky_nonneg; lia.
  - rewrite sticky_lsr_spec by lia. rewrite (Z.add_comm (signed sa _)) in HS0 |- *.
    destruct (aligned_sum f sb (signif f b) (expo f b) sa (signif f a) (expo f a)) as (Hsg & Hm & Hn & Hex); try done; [lia|].
    rewrite (Z.add_comm (signed sb (8 * _))) in Hsg, Hm, Hn, Hex.
    apply add_finite; try done; [apply sticky_nonneg; lia|lia..].
Qed.

End FplibArith.
