(* ===== verification/FplibMul.v ===== *)
(** * Correct multiplication, division and fused multiply-add

    Products and quotients are computed in twice the width, normalised, and brought down to the
    width of the format with the lost bits kept in the last one.  Here they are compared with
    the exact product, quotient or sum of a product, rounded once. *)

From S2P Require Import Prelude Fplib FplibOps FplibRound FplibArith.

Open Scope Z_scope.

Module FplibMul.
Import Fplib FplibOps FplibRound FplibArith.

(** ** From 64 bits to single *)

Lemma sticky_shift x t d :
  0 ≤ x → 0 ≤ t → 0 ≤ d → sticky (x * 2 ^ t) d = if t <=? d then sticky x (d - t) else x * 2 ^ (t - d).
Proof.
  intros Hx Ht Hd. pose proof (pow2_pos t Ht). destruct (Z.leb_spec t d).
  - unfold sticky. replace (2 ^ d) with (2 ^ (d - t) * 2 ^ t) by (rewrite <- Z.pow_add_r by lia; f_equal; lia).
    pose proof (pow2_pos (d - t) ltac:(lia)). rewrite Z.div_mul_cancel_r, Z.mul_mod_distr_r by lia.
    f_equal. unfold nzi, nz. f_equal. f_equal.
    destruct (Z.eqb_spec (x mod 2 ^ (d - t)) 0), (Z.eqb_spec (x mod 2 ^ (d - t) * 2 ^ t) 0); nia || done.
  - pose proof (pow2_pos d Hd).
    replace (x * 2 ^ t) with (x * 2 ^ (t - d) * 2 ^ d) by (rewrite <- Z.mul_assoc, <- Z.pow_add_r by lia; do 2 f_equal; lia).
    unfold sticky. rewrite Z.div_mul, Z.mod_mul by lia. apply Z.lor_0_r.
Qed.

(** [x >> 31 | !!(uint32_t)(x << 1)] on a word whose top bit is set. *)
Lemma collapse_32 x :
  2 ^ 63 ≤ x < 2 ^ 64 →
  let c := Z.lor (Z.shiftr x 31) (nzi (u32 (Z.shiftl x 1))) in
  c = sticky x 31 ∧ 2 ^ 32 + u32 c = sticky x 31 ∧ 0 ≤ u32 c < 2 ^ 32.
Proof.
  intros Hx c. assert (c = sticky x 31) as Hc.
  { unfold c, sticky. rewrite shiftr_div by lia. f_equal. unfold nzi, nz, wrap. f_equal. f_equal.
    rewrite Z.shiftl_mul_pow2 by lia. change (2 ^ 32) with (2 ^ 31 * 2 ^ 1). rewrite Z.mul_mod_distr_r by lia.
    destruct (Z.eqb_spec (x mod 2 ^ 31) 0), (Z.eqb_spec (x mod 2 ^ 31 * 2 ^ 1) 0); lia || done. }
  rewrite Hc. assert (2 ^ 32 ≤ sticky x 31 < 2 ^ 33).
  { split; [|apply sticky_lt; lia]. rewrite sticky_spec by lia.
    assert (2 ^ 32 ≤ x / 2 ^ 31) by (apply Z.div_le_lower_bound; lia).
    destruct (_ =? _); [done|]. pose proof (Z.div_mod (x / 2 ^ 31) 2 ltac:(lia)).
    pose proof (Z.mod_pos_bound (x / 2 ^ 31) 2 ltac:(lia)). lia. }
  assert (u32 (sticky x 31) = sticky x 31 - 2 ^ 32) as ->.
  { unfold wrap. symmetry. apply Z.mod_unique with (q := 1); lia. }
  split_and!; [done|lia..].
Qed.

Lemma land_3_TIEAWAY mode : Z.land mode 3 ≠ FPRounding_TIEAWAY.
Proof.
  change 3 with (2 ^ 2 - 1). rewrite land_low by lia. pose proof (Z.mod_pos_bound mode (2 ^ 2) ltac:(lia)).
  change (2 ^ 2) with 4 in *. unfold FPRounding_TIEAWAY. lia.
Qed.

(** A 64-bit value known up to a marker in its last bit may be normalised, collapsed to 33 bits
    and rounded to single when it is exact or has 26 bits, or is so
    small that the last place of the result is far above its last bit. *)
Lemma round32_of64 sg x e scale mode flags N D K :
  Z.land mode FPLIB_FZ = 0 → 0 < x < 2 ^ 64 → 0 < D → 0 ≤ K → 0 ≤ e + scale - 41 + K →
  near (N * 2 ^ K) (2 ^ (e + scale - 41 + K) * D) x 0 →
  N * 2 ^ K = x * (2 ^ (e + scale - 41 + K) * D) ∨ 2 ^ 25 ≤ x ∨ e + scale ≤ 39 →
  (let '(x', e') := fp64_normalise x e in
   let x' := Z.lor (Z.shiftr x' 31) (nzi (u32 (Z.shiftl x' 1))) in
   fp32_round sg (e' + scale) (u32 x') mode flags) =
  Ok (round_spec F32 (Z.land mode 3) sg N D flags).
Proof.
  intros Hfz Hx HD HK Hj Hn Hex. unfold fp64_normalise. destruct (normalise_spec F64 x e wf_F64 Hx) as (t & Ht & -> & Hr).
  change (width F64) with 64 in Hr. change (64 - 1) with 63 in Hr. destruct (collapse_32 _ Hr) as (_ & Hbig & Hmnt).
  cbv zeta. unfold fp32_round, fp_round. pose proof (land_3_TIEAWAY mode).
  rewrite sticky_shift in Hbig by lia. set (c := u32 _) in *.
  assert (∀ s, 0 ≤ s → s + 2 ≤ 9 + Z.max 0 (1 - (e - t + scale)) → stands_for F32 (e - t + scale) c s N D →
    fp_round_ F32 sg (e - t + scale) c (Z.land mode 3) mode flags = Ok (round_spec F32 (Z.land mode 3) sg N D flags)) as Hround.
  { intros s Hs Hs' Hst. apply (fp_round_correct F32 sg _ _ _ mode flags s); try done. apply wf_F32. }
  destruct (Z.leb_spec t 31) as [Hle|Hgt].
  - apply (Hround 0); [lia..|]. exists K. change (width F32) with 32. change (mbits F32) with 23. rewrite Hbig.
    split_and!; [lia|lia|].
    replace (2 ^ (e - t + scale - 1 - (32 - 23) + K) * D) with (2 ^ (e + scale - 41 + K) * D * 2 ^ (31 - t)).
    + apply near_sticky; [|lia|lia|done]. pose proof (pow2_pos (e + scale - 41 + K) Hj). nia.
    + rewrite <- Z.mul_assoc, (Z.mul_comm D), Z.mul_assoc, <- Z.pow_add_r by lia. do 2 f_equal. lia.
  - assert (∀ s, near (N * 2 ^ K * 2 ^ (t - 31)) (2 ^ (e + scale - 41 + K) * D) (x * 2 ^ (t - 31)) s →
      stands_for F32 (e - t + scale) c s N D) as Hst.
    { intros s Hn'. exists (K + (t - 31)). change (width F32) with 32. change (mbits F32) with 23. rewrite Hbig.
      split_and!; [lia|lia|]. rewrite Z.pow_add_r, Z.mul_assoc by lia.
      by replace (e - t + scale - 1 - (32 - 23) + (K + (t - 31))) with (e + scale - 41 + K) by lia. }
    destruct Hex as [Hex|Hex].
    + apply (Hround 0); [lia..|]. apply Hst. left. rewrite Hex. ring.
    + assert (t < 39 ∨ e + scale ≤ 39).
      { destruct Hex as [Hex|]; [left|lia]. apply Z.nle_gt. intros Hge.
        assert (2 ^ 39 ≤ 2 ^ t) by (apply Z.pow_le_mono_r; lia). nia. }
      apply (Hround (t - 31)); [lia..|]. apply Hst. apply (near_shift _ _ _ 0); [lia..|done].
Qed.

(** ** Multiplication *)

(** Multiplication on the numbers the operands stand for. *)
Definition mul_ref (f : format) (a b mode flags : Z) : Z * Z :=
  let s := Z.lxor (sign f a) (sign f b) in
  if is_NaN f a || is_NaN f b then fp_process_NaNs f a b mode flags
  else if (is_inf f a && (mag f b =? 0)) || (is_inf f b && (mag f a =? 0)) then (fp_defaultNaN f, Z.lor flags FPLIB_IOC)
  else if is_inf f a || is_inf f b then (fp_infinity f s, flags)
  else if (mag f a =? 0) || (mag f b =? 0) then (fp_zero f s, flags)
  else round_spec f (Z.land mode 3) s (mag f a * mag f b) (2 ^ unit_exp f) flags.

(** What is left of a multiplication once the special operands are dealt with. *)
Lemma mul_ref_intro f a b mode flags (r : Z → res (Z * Z)) :
  wf_format f →
  (is_inf f a = false → is_inf f b = false → 0 < mag f a → 0 < mag f b →
   r flags = Ok (round_spec f (Z.land mode 3) (Z.lxor (sign f a) (sign f b)) (mag f a * mag f b) (2 ^ unit_exp f) flags)) →
  (let '(x, flags) := fp_process_NaNs f a b mode flags in
   if nz x then Ok (x, flags)
   else match mul_special f (unpack_of f a) (unpack_of f b) flags with Some r => Ok r | None => r flags end) =
  Ok (mul_ref f a b mode flags).
Proof.
  intros Hf Hr. unfold mul_ref, mul_special. pose proof (process_NaNs_spec f a b mode flags Hf) as HN. cbv zeta in HN.
  destruct (fp_process_NaNs f a b mode flags) as [x fl] eqn:Hp. cbn [fst] in HN. cbn [sgn exp mnt unpack_of].
  destruct (is_NaN f a || is_NaN f b) eqn:Hnan; [by rewrite HN|]. apply orb_false_iff in Hnan as [Hna Hnb].
  injection HN as -> ->. change (nz 0) with false. cbv iota.
  rewrite !not_NaN_inf by done. unfold nz. rewrite !negb_involutive, !signif_0 by done.
  destruct ((is_inf f a && _) || _); [done|]. destruct (is_inf f a); [done|]. destruct (is_inf f b); [done|]. cbn [orb].
  pose proof (mag_nonneg f a Hf). pose proof (mag_nonneg f b Hf).
  destruct (Z.eqb_spec (mag f a) 0); [done|]. destruct (Z.eqb_spec (mag f b) 0); [done|]. apply Hr; done || lia.
Qed.

Lemma collapse_33 x : 0 ≤ x → nzi (lsl64 x 33) = nzi (u32 (Z.shiftl x 1)).
Proof.
  intros Hx. unfold nzi, nz. do 2 f_equal. change (lsl64 x 33) with (u64 (Z.shiftl x 33)). unfold wrap.
  rewrite !Z.shiftl_mul_pow2 by lia. replace (x * 2 ^ 33) with (x * 2 ^ 1 * 2 ^ 32) by ring.
  change (2 ^ 64) with (2 ^ 32 * 2 ^ 32). rewrite Z.mul_mod_distr_r by lia.
  destruct (Z.eqb_spec ((x * 2 ^ 1) mod 2 ^ 32) 0), (Z.eqb_spec ((x * 2 ^ 1) mod 2 ^ 32 * 2 ^ 32) 0); lia || done.
Qed.

Lemma fp32_mul_ref a b mode flags :
  Z.land mode FPLIB_FZ = 0 → fp32_mul a b mode flags = Ok (mul_ref F32 a b mode flags).
Proof.
  intros Hfz. unfold fp32_mul, fp32_unpack, fp32_process_NaNs. rewrite !(fp_unpack_spec F32) by (done || apply wf_F32).
  apply (mul_ref_intro F32 a b mode flags); [apply wf_F32|]. intros _ _ Ha Hb. cbn [sgn exp mnt].
  destruct (signif_range F32 a wf_F32) as (Hma & _ & Hea). destruct (signif_range F32 b wf_F32) as (Hmb & _ & Heb).
  change (2 ^ (mbits F32 + 1)) with (2 ^ 24) in *. unfold mag in *.
  set (ma := signif F32 a) in *. set (mb := signif F32 b) in *. set (ea := expo F32 a) in *. set (eb := expo F32 b) in *.
  pose proof (pow2_pos (ea - 1) ltac:(lia)). pose proof (pow2_pos (eb - 1) ltac:(lia)).
  assert (0 < ma * mb < 2 ^ 64) by (change (2 ^ 64) with (2 ^ 24 * 2 ^ 24 * 2 ^ 16); nia).
  rewrite wrap_small by (unfold in_width; lia).
  assert (ma * 2 ^ (ea - 1) * (mb * 2 ^ (eb - 1)) * 2 ^ 149 =
    ma * mb * (2 ^ (ea + eb - 110 + 0 - 41 + 149) * 2 ^ unit_exp F32)) as Heq.
  { change (unit_exp F32) with 149. replace (ea + eb - 110 + 0 - 41 + 149) with (ea - 1 + (eb - 1)) by lia.
    rewrite Z.pow_add_r by lia. ring. }
  rewrite <- (round32_of64 _ (ma * mb) (ea + eb - 110) 0 mode flags _ _ 149); [|done|done|done|lia|lia| |].
  - unfold fp64_normalise. destruct (normalise_spec F64 (ma * mb) (ea + eb - 110) wf_F64) as (t & Ht & -> & Hr); [done|].
    rewrite collapse_33 by (change (width F64 - 1) with 63 in Hr; lia). rewrite Z.add_0_r. done.
  - by left.
  - by left.
Qed.

(** ** Division *)

(** Division on the numbers the operands stand for. *)
Definition div_ref (f : format) (a b mode flags : Z) : Z * Z :=
  let s := Z.lxor (sign f a) (sign f b) in
  if is_NaN f a || is_NaN f b then fp_process_NaNs f a b mode flags
  else if (is_inf f a && is_inf f b) || ((mag f a =? 0) && (mag f b =? 0)) then (fp_defaultNaN f, Z.lor flags FPLIB_IOC)
  else if is_inf f a then (fp_infinity f s, flags)
  else if mag f b =? 0 then (fp_infinity f s, Z.lor flags FPLIB_DZC)
  else if (mag f a =? 0) || is_inf f b then (fp_zero f s, flags)
  else round_spec f (Z.land mode 3) s (mag f a * 2 ^ unit_exp f) (mag f b) flags.

Lemma div_ref_intro f a b mode flags (r : Z → res (Z * Z)) :
  wf_format f →
  (is_inf f a = false → is_inf f b = false → 0 < mag f a → 0 < mag f b →
   r flags = Ok (round_spec f (Z.land mode 3) (Z.lxor (sign f a) (sign f b)) (mag f a * 2 ^ unit_exp f) (mag f b) flags)) →
  (let '(x, flags) := fp_process_NaNs f a b mode flags in
   if nz x then Ok (x, flags)
   else match div_special f (unpack_of f a) (unpack_of f b) flags with Some r => Ok r | None => r flags end) =
  Ok (div_ref f a b mode flags).
Proof.
  intros Hf Hr. unfold div_ref, div_special. pose proof (process_NaNs_spec f a b mode flags Hf) as HN. cbv zeta in HN.
  destruct (fp_process_NaNs f a b mode flags) as [x fl] eqn:Hp. cbn [fst] in HN. cbn [sgn exp mnt unpack_of].
  destruct (is_NaN f a || is_NaN f b) eqn:Hnan; [by rewrite HN|]. apply orb_false_iff in Hnan as [Hna Hnb].
  injection HN as -> ->. change (nz 0) with false. cbv iota.
  rewrite !not_NaN_inf by done. unfold nz. rewrite !negb_involutive, !signif_0 by done.
  destruct ((is_inf f a && is_inf f b) || _); [done|]. destruct (is_inf f a) eqn:Hia; [done|]. cbn [orb negb].
  pose proof (mag_nonneg f a Hf). pose proof (mag_nonneg f b Hf).
  destruct (Z.eqb_spec (mag f b) 0); [done|]. destruct (Z.eqb_spec (mag f a) 0); [done|].
  destruct (is_inf f b) eqn:Hib; [done|]. apply Hr; done || lia.
Qed.

(** A quotient with a nonzero remainder kept in its last bit. *)
Lemma near_quotient T V : 0 ≤ T → 0 < V → near T V (Z.lor (T / V) (Z.b2z (negb (T / V * V =? T)))) 0.
Proof.
  intros HT HV. pose proof (Z.div_mod T V ltac:(lia)) as Hd. pose proof (Z.mod_pos_bound T V HV).
  rewrite lor_bit by (apply Z.div_pos; lia). set (q := T / V) in *.
  destruct (Z.eqb_spec (q * V) T) as [Hz|Hz]; cbn [negb]; [left; lia|].
  right. exists (q / 2). change (2 ^ 0) with 1. split; [ring|].
  pose proof (Z.div_mod q 2 ltac:(lia)). pose proof (Z.mod_pos_bound q 2 ltac:(lia)). nia.
Qed.

Lemma lor_bit_range m (b : bool) k : 0 ≤ k → 2 ^ k ≤ m → 2 ^ k ≤ Z.lor m (Z.b2z b) ≤ m + 1.
Proof.
  intros Hk Hm. pose proof (pow2_pos k Hk). rewrite lor_bit by lia. destruct b; [|lia].
  pose proof (Z.div_mod m 2 ltac:(lia)). pose proof (Z.mod_pos_bound m 2 ltac:(lia)). lia.
Qed.

Lemma fp32_div_ref a b mode flags :
  Z.land mode FPLIB_FZ = 0 → fp32_div a b mode flags = Ok (div_ref F32 a b mode flags).
Proof.
  intros Hfz. unfold fp32_div, fp32_unpack, fp32_process_NaNs. rewrite !(fp_unpack_spec F32) by (done || apply wf_F32).
  apply (div_ref_intro F32 a b mode flags); [apply wf_F32|]. intros _ _ Ha Hb. cbn [sgn exp mnt].
  destruct (signif_range F32 a wf_F32) as (Hma & _ & Hea). destruct (signif_range F32 b wf_F32) as (Hmb & _ & Heb).
  change (2 ^ (mbits F32 + 1)) with (2 ^ 24) in *. unfold mag in *. change (unit_exp F32) with 149.
  set (ma := signif F32 a) in *. set (mb := signif F32 b) in *. set (ea := expo F32 a) in *. set (eb := expo F32 b) in *.
  pose proof (pow2_pos (ea - 1) ltac:(lia)). pose proof (pow2_pos (eb - 1) ltac:(lia)).
  assert (0 < ma) by nia. assert (0 < mb) by nia.
  unfold fp32_normalise. destruct (normalise_spec F32 ma ea wf_F32) as (t & Ht & -> & Hr); [change (width F32) with 32; lia|].
  change (width F32 - 1) with 31 in Hr. change (width F32) with 32 in Hr. set (A := ma * 2 ^ t) in *.
  rewrite Z.shiftl_mul_pow2 by lia. rewrite (wrap_small 64 (A * 2 ^ 18)) by (unfold in_width; lia).
  set (T := A * 2 ^ 18) in *. assert (2 ^ 49 ≤ T < 2 ^ 50) by (unfold T; lia).
  assert (2 ^ 25 ≤ T / mb ≤ T) by (split; [apply Z.div_le_lower_bound; nia|apply Z.div_le_upper_bound; nia]).
  pose proof (Z.mul_div_le T mb ltac:(lia)) as Hle. rewrite (wrap_small 64 (T / mb * mb)) by (unfold in_width; nia).
  pose proof (near_quotient T mb ltac:(lia) ltac:(lia)) as Hn.
  pose proof (lor_bit_range (T / mb) (negb (T / mb * mb =? T)) 25 ltac:(lia) ltac:(lia)) as Hx.
  set (x := Z.lor (T / mb) _) in *. clearbody x.
  assert (near (ma * 2 ^ (ea - 1) * 2 ^ 149 * 2 ^ (t + eb)) (2 ^ (ea - t - eb + 172 + 0 - 41 + (t + eb)) * (mb * 2 ^ (eb - 1))) x 0) as Hnear.
  { replace (2 ^ (ea - t - eb + 172 + 0 - 41 + (t + eb)) * (mb * 2 ^ (eb - 1))) with (mb * 2 ^ (ea + 130 + eb)).
    - replace (ma * 2 ^ (ea - 1) * 2 ^ 149 * 2 ^ (t + eb)) with (T * 2 ^ (ea + 130 + eb)).
      + apply near_scale; [apply pow2_pos; lia|done].
      + unfold T, A. rewrite <- !Z.mul_assoc, <- !Z.pow_add_r by lia. do 2 f_equal. lia.
    - rewrite (Z.mul_comm mb (2 ^ (eb - 1))), Z.mul_assoc, <- Z.pow_add_r, Z.mul_comm by lia. do 2 f_equal. lia. }
  rewrite <- (round32_of64 _ x (ea - t - eb + 172) 0 mode flags _ _ (t + eb)); [|done|lia|nia|lia|lia|done|right; left; lia].
  destruct (fp64_normalise x _) as [x' e']. by rewrite Z.add_0_r.
Qed.

(** ** 128-bit arithmetic *)

Definition val128 (x : Z * Z) : Z := x.1 + 2 ^ 64 * x.2.

Lemma lor_parts k a b : 0 ≤ k → 0 ≤ a < 2 ^ k → 0 ≤ b → Z.lor a (b * 2 ^ k) = a + b * 2 ^ k.
Proof.
  intros Hk Ha Hb. rewrite <- Z.add_lor_land. assert (Z.land a (b * 2 ^ k) = 0) as ->; [|lia].
  apply Z.bits_inj_iff'. intros i Hi. rewrite Z.land_spec, Z.bits_0. destruct (Z.lt_ge_cases i k).
  - by rewrite Z.mul_pow2_bits_low, andb_false_r.
  - by rewrite (testbit_out k a).
Qed.

Lemma mul62x62_spec a b :
  0 ≤ a < 2 ^ 62 → 0 ≤ b < 2 ^ 62 →
  let r := mul62x62 a b in val128 r = a * b ∧ in_width 64 r.1 ∧ 0 ≤ r.2 < 2 ^ 60.
Proof.
  intros Ha Hb. unfold mul62x62. cbv zeta. rewrite !land_low, !shiftr_div by lia. set (B := 2 ^ 31).
  assert (0 ≤ a / B < B) as Ha1 by (split; [apply Z.div_pos; lia|apply Z.div_lt_upper_bound; lia]).
  assert (0 ≤ b / B < B) as Hb1 by (split; [apply Z.div_pos; lia|apply Z.div_lt_upper_bound; lia]).
  rewrite (Z.mod_small (a / B)), (Z.mod_small (b / B)) by done.
  pose proof (Z.div_mod a B ltac:(lia)) as Hda. pose proof (Z.div_mod b B ltac:(lia)) as Hdb.
  pose proof (Z.mod_pos_bound a B ltac:(lia)) as Ha0. pose proof (Z.mod_pos_bound b B ltac:(lia)) as Hb0.
  set (a1 := a / B) in *. set (b1 := b / B) in *. set (a0 := a mod B) in *. set (b0 := b mod B) in *.
  clearbody a0 b0 a1 b1. assert (B = 2147483648) as HB by done.
  assert (0 ≤ a0 * b0 < B * B) by nia. assert (0 ≤ a1 * b1 ≤ (B - 1) * (B - 1)) by nia.
  assert (0 ≤ a0 * b1 ≤ (B - 1) * (B - 1)) by nia. assert (0 ≤ a1 * b0 ≤ (B - 1) * (B - 1)) by nia.
  assert ((a0 + a1) * (b0 + b1) - a0 * b0 - a1 * b1 = a0 * b1 + a1 * b0) as Hp1 by ring.
  rewrite (wrap_small 64 (a0 * b0)) by (unfold in_width; lia).
  rewrite (wrap_small 64 (a1 * b1)) by (unfold in_width; lia). rewrite Hp1.
  rewrite (wrap_small 64 (a0 * b1 + a1 * b0)) by (unfold in_width; lia).
  set (p0 := a0 * b0) in *. set (p2 := a1 * b1) in *. set (p1 := a0 * b1 + a1 * b0) in *.
  assert (0 ≤ p1 ≤ 2 * ((B - 1) * (B - 1))) by lia.
  assert (a * b = p0 + p1 * B + p2 * (B * B)) as Hab by (unfold p0, p1, p2; rewrite Hda, Hdb; ring).
  clearbody p0 p1 p2.
  pose proof (Z.div_mod p0 B ltac:(lia)) as Hd0. pose proof (Z.mod_pos_bound p0 B ltac:(lia)).
  assert (0 ≤ p0 / B < B) by (split; [apply Z.div_pos; lia|apply Z.div_lt_upper_bound; lia]).
  rewrite (wrap_small 64 (p0 / B + p1)) by (unfold in_width; lia). set (s1 := p0 / B + p1) in *.
  pose proof (Z.div_mod s1 B ltac:(lia)) as Hd1. pose proof (Z.mod_pos_bound s1 B ltac:(lia)).
  assert (0 ≤ s1 / B ≤ 2 * B - 2).
  { split; [apply Z.div_pos; lia|]. apply Z.lt_succ_r, Z.div_lt_upper_bound; lia. }
  rewrite (wrap_small 64 (s1 / B + p2)) by (unfold in_width; lia). set (s2 := s1 / B + p2) in *.
  rewrite !Z.shiftl_mul_pow2 by lia. fold B.
  rewrite (wrap_small 64 (s1 mod B * B)) by (unfold in_width; lia).
  unfold wrap. change (2 ^ 64) with (4 * 2 ^ 62). rewrite Z.mul_mod_distr_r by lia.
  rewrite (lor_parts 31) by (fold B; lia). fold B. rewrite (lor_parts 62) by (change (2 ^ 62) with (B * B); try apply Z.mod_pos_bound; lia).
  unfold val128, in_width; cbn [fst snd]. change (2 ^ 2) with 4.
  pose proof (Z.div_mod s2 4 ltac:(lia)). pose proof (Z.mod_pos_bound s2 4 ltac:(lia)).
  change (2 ^ 62) with (B * B). split_and!; lia.
Qed.

(** One 128-bit shift to the left by less than a word. *)
Lemma shl128_spec x0 x1 s :
  in_width 64 x0 → 0 ≤ s < 64 → 0 ≤ x1 < 2 ^ (64 - s) →
  Z.lor (u64 (Z.shiftl x1 s)) (Z.shiftr x0 (64 - s)) = x1 * 2 ^ s + x0 / 2 ^ (64 - s) ∧
  val128 (u64 (Z.shiftl x0 s), x1 * 2 ^ s + x0 / 2 ^ (64 - s)) = val128 (x0, x1) * 2 ^ s ∧
  in_width 64 (u64 (Z.shiftl x0 s)).
Proof.
  intros Hx0 Hs Hx1. pose proof (pow2_pos s ltac:(lia)). pose proof (pow2_pos (64 - s) ltac:(lia)).
  assert (2 ^ 64 = 2 ^ (64 - s) * 2 ^ s) as H64 by (rewrite <- Z.pow_add_r by lia; f_equal; lia).
  rewrite !Z.shiftl_mul_pow2, shiftr_div by lia. unfold in_width in Hx0.
  assert (0 ≤ x0 / 2 ^ (64 - s) < 2 ^ s) as Hq.
  { split; [apply Z.div_pos; lia|]. apply Z.div_lt_upper_bound; lia. }
  split_and!.
  - rewrite wrap_small by (unfold in_width; nia). rewrite Z.lor_comm, (lor_parts s) by lia. lia.
  - unfold val128, wrap. cbn [fst snd]. rewrite H64 at 1. rewrite Z.mul_mod_distr_r by lia.
    rewrite H64. pose proof (Z.div_mod x0 (2 ^ (64 - s)) ltac:(lia)) as Hd.
    set (q := x0 / 2 ^ (64 - s)) in *. set (r := x0 mod 2 ^ (64 - s)) in *. rewrite Hd. ring.
  - by apply wrap_range.
Qed.

Lemma norm128_loop_spec k x0 x1 e :
  2 ^ (Z.of_nat k + 1) ≤ 64 → in_width 64 x0 → 2 ^ (64 - 2 ^ (Z.of_nat k + 1)) ≤ x1 < 2 ^ 64 →
  ∃ t y0 y1, 0 ≤ t ∧ norm128_loop k x0 x1 e = (y0, y1, e - t) ∧ val128 (y0, y1) = val128 (x0, x1) * 2 ^ t ∧
    in_width 64 y0 ∧ 2 ^ 63 ≤ y1 < 2 ^ 64.
Proof.
  assert (∀ j, 2 ^ (Z.of_nat j + 1) = 2 * 2 ^ Z.of_nat j) as H2 by (intros; rewrite Z.pow_add_r by lia; lia).
  assert (∀ sh x0 x1 e, 0 < sh → 2 * sh ≤ 64 → in_width 64 x0 → 2 ^ (64 - 2 * sh) ≤ x1 < 2 ^ 64 →
    ∃ t y0 y1, 0 ≤ t ∧ val128 (y0, y1) = val128 (x0, x1) * 2 ^ t ∧ in_width 64 y0 ∧ 2 ^ (64 - sh) ≤ y1 < 2 ^ 64 ∧
    (if Z.shiftr x1 (64 - sh) =? 0
     then (u64 (Z.shiftl x0 sh), Z.lor (u64 (Z.shiftl x1 sh)) (Z.shiftr x0 (64 - sh)), e - sh)
     else (x0, x1, e)) = (y0, y1, e - t)) as Hstep.
  { clear. intros sh x0 x1 e Hsh Hw Hx0 Hx. rewrite (shiftr_div x1) by lia.
    pose proof (pow2_pos (64 - sh) ltac:(lia)). pose proof (pow2_pos sh ltac:(lia)).
    assert (2 ^ (64 - sh) = 2 ^ (64 - 2 * sh) * 2 ^ sh) as HW' by (rewrite <- Z.pow_add_r by lia; f_equal; lia).
    assert (2 ^ 64 = 2 ^ (64 - sh) * 2 ^ sh) as H64 by (rewrite <- Z.pow_add_r by lia; f_equal; lia).
    pose proof (Z.div_mod x1 (2 ^ (64 - sh)) ltac:(lia)). pose proof (Z.mod_pos_bound x1 (2 ^ (64 - sh)) ltac:(lia)).
    assert (0 ≤ x1) by (pose proof (pow2_pos (64 - 2 * sh) ltac:(lia)); lia).
    assert (0 ≤ x1 / 2 ^ (64 - sh)) by (apply Z.div_pos; lia).
    destruct (Z.eqb_spec (x1 / 2 ^ (64 - sh)) 0).
    - destruct (shl128_spec x0 x1 sh Hx0 ltac:(lia) ltac:(nia)) as (-> & Hv & Hw0).
      exists sh, (u64 (Z.shiftl x0 sh)), (x1 * 2 ^ sh + x0 / 2 ^ (64 - sh)).
      assert (0 ≤ x0 / 2 ^ (64 - sh) < 2 ^ sh).
      { unfold in_width in Hx0. split; [apply Z.div_pos; lia|]. apply Z.div_lt_upper_bound; lia. }
      split_and!; [lia|done|apply Hw0..|nia|nia|done].
    - exists 0, x0, x1. rewrite Z.pow_0_r, Z.mul_1_r, Z.sub_0_r. split_and!; [lia|done|apply Hx0..|nia|lia|done]. }
  revert x0 x1 e. induction k as [|k IH]; intros x0 x1 e Hw Hx0 Hx; cbn [norm128_loop]; rewrite H2 in Hw, Hx;
    (edestruct Hstep as (t & y0 & y1 & Ht & Hv & Hy0 & Hr & Heq); [|exact Hw|exact Hx0|exact Hx|rewrite Heq]; [apply pow2_pos; lia|]).
  - by exists t, y0, y1.
  - replace (Z.of_nat (S k)) with (Z.of_nat k + 1) in Hr, Hw by lia.
    destruct (IH y0 y1 (e - t)) as (t' & z0 & z1 & Ht' & -> & Hv' & Hz); [lia|done|done|].
    exists (t + t'), z0, z1. rewrite Hv', Hv, Z.pow_add_r by lia. split_and!; [lia|f_equal; lia|ring|apply Hz..].
Qed.

Lemma normalise128_spec x0 x1 e :
  in_width 64 x0 → in_width 64 x1 → 0 < val128 (x0, x1) →
  ∃ t y0 y1, 0 ≤ t ∧ fp128_normalise x0 x1 e = (y0, y1, e - t) ∧ val128 (y0, y1) = val128 (x0, x1) * 2 ^ t ∧
    in_width 64 y0 ∧ 2 ^ 63 ≤ y1 < 2 ^ 64.
Proof.
  intros H0 H1 Hpos. unfold fp128_normalise, in_width in *.
  destruct (Z.eqb_spec x0 0) as [Hz0|Hz0], (Z.eqb_spec x1 0) as [Hz1|Hz1]; cbn [andb];
    [unfold val128 in Hpos; cbn [fst snd] in Hpos; lia|..].
  - apply norm128_loop_spec; change (2 ^ (Z.of_nat 5 + 1)) with 64; change (64 - 64) with 0; unfold in_width; lia.
  - destruct (norm128_loop_spec 5 0 x0 (e - 64)) as (t & y0 & y1 & Ht & -> & Hv & Hy);
      [change (2 ^ (Z.of_nat 5 + 1)) with 64; unfold in_width; change (2 ^ (64 - 64)) with 1; lia..|].
    exists (64 + t), y0, y1. split_and!; [lia|f_equal; lia| |apply Hy..]. rewrite Hv, Z.pow_add_r by lia.
    unfold val128. cbn [fst snd]. rewrite Hz1. ring.
  - apply norm128_loop_spec; change (2 ^ (Z.of_nat 5 + 1)) with 64; change (64 - 64) with 0; unfold in_width; lia.
Qed.

(** ** From 128 bits to double *)

(** Twice the bits above place [d], with all the others in the last one. *)
Definition collapse (m d : Z) : Z := 2 * (m / 2 ^ (d + 1)) + Z.b2z (nz (m mod 2 ^ (d + 1))).

Lemma near_collapse T V m d :
  0 < V → 0 ≤ m → 0 ≤ d → near T V m 0 → near T (V * 2 ^ d) (collapse m d) 0.
Proof.
  intros HV Hm Hd Hn. unfold collapse. rewrite Z.pow_add_r by lia. change (2 ^ 1) with 2.
  pose proof (pow2_pos d ltac:(lia)). pose proof (Z.div_mod m (2 ^ d * 2) ltac:(lia)) as Hdm.
  pose proof (Z.mod_pos_bound m (2 ^ d * 2) ltac:(lia)) as Hr.
  set (q := m / (2 ^ d * 2)) in *. set (r := m mod (2 ^ d * 2)) in *.
  unfold nz. destruct (Z.eqb_spec r 0) as [Hz|Hz]; cbn [negb Z.b2z]; unfold near; change (2 ^ 0) with 1.
  - destruct Hn as [->|(c & Hc & _)]; [left; nia|]. change (2 ^ 0) with 1 in Hc.
    rewrite Hz in Hdm. rewrite Hdm in Hc. nia.
  - right. exists q. split; [lia|]. destruct Hn as [->|(c & Hc & Hl & Hu)]; [nia|].
    change (2 ^ 0) with 1 in *. assert (q * 2 ^ d ≤ c) by nia. assert (c + 1 ≤ (q + 1) * 2 ^ d) by nia. nia.
Qed.

Lemma collapse_shift x t d :
  0 ≤ x → 0 ≤ t → 0 ≤ d → collapse (x * 2 ^ t) d = if t <=? d then collapse x (d - t) else x * 2 ^ (t - d).
Proof.
  intros Hx Ht Hd. unfold collapse. pose proof (pow2_pos t Ht). destruct (Z.leb_spec t d).
  - replace (2 ^ (d + 1)) with (2 ^ (d - t + 1) * 2 ^ t) by (rewrite <- Z.pow_add_r by lia; f_equal; lia).
    pose proof (pow2_pos (d - t + 1) ltac:(lia)). rewrite Z.div_mul_cancel_r, Z.mul_mod_distr_r by lia.
    f_equal. f_equal. unfold nz. f_equal.
    destruct (Z.eqb_spec (x mod 2 ^ (d - t + 1)) 0), (Z.eqb_spec (x mod 2 ^ (d - t + 1) * 2 ^ t) 0); nia || done.
  - replace (x * 2 ^ t) with (x * 2 ^ (t - d - 1) * 2 ^ (d + 1))
      by (rewrite <- Z.mul_assoc, <- Z.pow_add_r by lia; do 2 f_equal; lia).
    pose proof (pow2_pos (d + 1) ltac:(lia)). rewrite Z.div_mul, Z.mod_mul by lia. change (nz 0) with false. cbn [Z.b2z].
    assert (2 ^ (t - d) = 2 * 2 ^ (t - d - 1)) as -> by (rewrite <- Z.pow_succ_r by lia; f_equal; lia). ring.
Qed.

(** [x1 << 1 | !!x0] on a 128-bit number whose top bit is set. *)
Lemma collapse_64 x0 x1 :
  in_width 64 x0 → 2 ^ 63 ≤ x1 < 2 ^ 64 →
  let c := Z.lor (u64 (Z.shiftl x1 1)) (nzi x0) in
  2 ^ 64 + c = collapse (val128 (x0, x1)) 63 ∧ 0 ≤ c < 2 ^ 64.
Proof.
  intros Hx0 Hx1 c. destruct (wrap_top 64 x1 ltac:(lia) Hx1) as [Htop Hr].
  assert (collapse (val128 (x0, x1)) 63 = 2 * x1 + Z.b2z (nz x0)) as ->.
  { unfold collapse, val128. cbn [fst snd]. change (63 + 1) with 64. rewrite (Z.mul_comm (2 ^ 64)).
    rewrite Z.div_add, Z.mod_add, Z.div_small, Z.mod_small by (done || lia). lia. }
  unfold c, nzi. rewrite lor_bit by lia. destruct (nz x0); cbn [Z.b2z]; [|lia].
  assert (u64 (Z.shiftl x1 1) / 2 = x1 - 2 ^ 63) as ->; [|lia].
  symmetry. apply Z.div_unique with (r := 0); lia.
Qed.

Lemma round64_of128 sg x0 x1 e scale mode flags N D K :
  Z.land mode FPLIB_FZ = 0 → in_width 64 x0 → in_width 64 x1 → 0 < val128 (x0, x1) → 0 < D →
  0 ≤ K → 0 ≤ e + scale - 76 + K →
  near (N * 2 ^ K) (2 ^ (e + scale - 76 + K) * D) (val128 (x0, x1)) 0 →
  N * 2 ^ K = val128 (x0, x1) * (2 ^ (e + scale - 76 + K) * D) ∨ 2 ^ 54 ≤ val128 (x0, x1) ∨ e + scale ≤ 74 →
  (let '(x0, x1, e') := fp128_normalise x0 x1 e in
   fp64_round sg (e' + scale) (Z.lor (u64 (Z.shiftl x1 1)) (nzi x0)) mode flags) =
  Ok (round_spec F64 (Z.land mode 3) sg N D flags).
Proof.
  intros Hfz H0 H1 Hpos HD HK Hj Hn Hex.
  destruct (normalise128_spec x0 x1 e H0 H1 Hpos) as (t & y0 & y1 & Ht & -> & Hv & Hy0 & Hy1).
  destruct (collapse_64 y0 y1 Hy0 Hy1) as [Hbig Hmnt]. rewrite Hv, collapse_shift in Hbig by lia.
  unfold fp64_round, fp_round. pose proof (land_3_TIEAWAY mode). set (c := Z.lor _ _) in *.
  set (X := val128 (x0, x1)) in *.
  assert (X * 2 ^ t < 2 ^ 128) by (rewrite <- Hv; unfold val128, in_width in *; cbn [fst snd]; lia).
  assert (∀ s, 0 ≤ s → s + 2 ≤ 12 + Z.max 0 (1 - (e - t + scale)) → stands_for F64 (e - t + scale) c s N D →
    fp_round_ F64 sg (e - t + scale) c (Z.land mode 3) mode flags = Ok (round_spec F64 (Z.land mode 3) sg N D flags)) as Hround.
  { intros s Hs Hs' Hst. apply (fp_round_correct F64 sg _ _ _ mode flags s); try done. apply wf_F64. }
  destruct (Z.leb_spec t 63) as [Hle|Hgt].
  - apply (Hround 0); [lia..|]. exists K. change (width F64) with 64. change (mbits F64) with 52. rewrite Hbig.
    split_and!; [lia|lia|].
    replace (2 ^ (e - t + scale - 1 - (64 - 52) + K) * D) with (2 ^ (e + scale - 76 + K) * D * 2 ^ (63 - t)).
    + apply near_collapse; [|lia|lia|done]. pose proof (pow2_pos (e + scale - 76 + K) Hj). nia.
    + rewrite <- Z.mul_assoc, (Z.mul_comm D), Z.mul_assoc, <- Z.pow_add_r by lia. do 2 f_equal. lia.
  - assert (∀ s, near (N * 2 ^ K * 2 ^ (t - 63)) (2 ^ (e + scale - 76 + K) * D) (X * 2 ^ (t - 63)) s →
      stands_for F64 (e - t + scale) c s N D) as Hst.
    { intros s Hn'. exists (K + (t - 63)). change (width F64) with 64. change (mbits F64) with 52. rewrite Hbig.
      split_and!; [lia|lia|]. rewrite Z.pow_add_r, Z.mul_assoc by lia.
      by replace (e - t + scale - 1 - (64 - 52) + (K + (t - 63))) with (e + scale - 76 + K) by lia. }
    destruct Hex as [Hex|Hex].
    + apply (Hround 0); [lia..|]. apply Hst. left. rewrite Hex. ring.
    + assert (t < 74 ∨ e + scale ≤ 74).
      { destruct Hex as [Hex|]; [left|lia]. apply Z.nle_gt. intros Hge.
        assert (2 ^ 74 ≤ 2 ^ t) by (apply Z.pow_le_mono_r; lia). nia. }
      apply (Hround (t - 63)); [lia..|]. apply Hst. apply (near_shift _ _ _ 0); [lia..|done].
Qed.

Lemma fp64_mul_ref a b mode flags :
  Z.land mode FPLIB_FZ = 0 → fp64_mul a b mode flags = Ok (mul_ref F64 a b mode flags).
Proof.
  intros Hfz. unfold fp64_mul, fp64_unpack, fp64_process_NaNs. rewrite !(fp_unpack_spec F64) by (done || apply wf_F64).
  apply (mul_ref_intro F64 a b mode flags); [apply wf_F64|]. intros _ _ Ha Hb. cbn [sgn exp mnt].
  destruct (signif_range F64 a wf_F64) as (Hma & _ & Hea). destruct (signif_range F64 b wf_F64) as (Hmb & _ & Heb).
  change (2 ^ (mbits F64 + 1)) with (2 ^ 53) in *. unfold mag in *.
  set (ma := signif F64 a) in *. set (mb := signif F64 b) in *. set (ea := expo F64 a) in *. set (eb := expo F64 b) in *.
  pose proof (pow2_pos (ea - 1) ltac:(lia)). pose proof (pow2_pos (eb - 1) ltac:(lia)).
  destruct (mul62x62_spec ma mb ltac:(lia) ltac:(lia)) as (Hv & Hx0 & Hx1). destruct (mul62x62 ma mb) as [x0 x1].
  cbn [fst snd] in Hx0, Hx1.
  assert (ma * 2 ^ (ea - 1) * (mb * 2 ^ (eb - 1)) * 2 ^ 1074 =
    val128 (x0, x1) * (2 ^ (ea + eb - 1000 + 0 - 76 + 1074) * 2 ^ unit_exp F64)) as Heq.
  { rewrite Hv. change (unit_exp F64) with 1074. replace (ea + eb - 1000 + 0 - 76 + 1074) with (ea - 1 + (eb - 1)) by lia.
    rewrite (Z.pow_add_r 2 (ea - 1)) by lia. ring. }
  rewrite <- (round64_of128 _ x0 x1 (ea + eb - 1000) 0 mode flags _ _ 1074);
    [|done|done|unfold in_width; lia|rewrite Hv; nia|by apply pow2_pos|lia|lia|by left|by left].
  destruct (fp128_normalise x0 x1 _) as [[y0 y1] e']. by rewrite Z.add_0_r.
Qed.

End FplibMul.
