(* ===== verification/FplibFma.v ===== *)
(** * Correct fused multiply-add

    The sum of a number and an exact product, rounded once.  The code keeps the product in twice
    the width and aligns the addend with it, with the bits that are shifted out kept in the last
    one. *)

From S2P Require Import Prelude Fplib FplibOps FplibRound FplibArith FplibMul.

Open Scope Z_scope.

Module FplibFma.
Import Fplib FplibOps FplibRound FplibArith FplibMul.

(** Zero times infinity. *)
Definition invalid_product (f : format) (b c : Z) : bool :=
  ((mag f b =? 0) && is_inf f c) || ((mag f c =? 0) && is_inf f b).

(** [a + b * c] on the numbers the operands stand for, scaled by [2^scale]. *)
Definition muladd_ref (f : format) (a b c scale mode flags : Z) : Z * Z :=
  let sa := sign f a in
  let s := Z.lxor (sign f b) (sign f c) in
  if is_NaN f a || is_NaN f b || is_NaN f c then
    let '(x, fl) := fp_process_NaNs3 f a b c mode flags in
    if is_NaN f a && quiet f a && invalid_product f b c then (fp_defaultNaN f, Z.lor fl FPLIB_IOC) else (x, fl)
  else if invalid_product f b c || (is_inf f a && (is_inf f b || is_inf f c) && negb (sa =? s)) then
    (fp_defaultNaN f, Z.lor flags FPLIB_IOC)
  else if is_inf f a then (fp_infinity f sa, flags)
  else if is_inf f b || is_inf f c then (fp_infinity f s, flags)
  else
    round_signed f mode (zero_sign mode sa s) (signed sa (mag f a * 2 ^ unit_exp f) + signed s (mag f b * mag f c))
      (2 ^ (unit_exp f - scale)) flags.

Lemma inf_bits f x :
  wf_format f →
  (expo f x =? emax f) && negb (nz (wrap (width f) (Z.shiftl (signif f x) (width f - mbits f)))) = is_inf f x.
Proof.
  intros Hf. unfold is_inf. rewrite expo_emax by done.
  destruct (Z.eqb_spec (raw_exp f x) (emax f)); [|done]. by rewrite signif_fraction.
Qed.

Lemma muladd_NaN_spec f a b c mode flags :
  wf_format f →
  muladd_NaN f a b c (unpack_of f a) (unpack_of f b) (unpack_of f c) mode flags =
  (let '(x, fl) := fp_process_NaNs3 f a b c mode flags in
   if is_NaN f a && quiet f a && invalid_product f b c then (fp_defaultNaN f, Z.lor fl FPLIB_IOC) else (x, fl)).
Proof.
  intros Hf. unfold muladd_NaN. destruct (fp_process_NaNs3 f a b c mode flags) as [x fl]. cbn [exp mnt unpack_of].
  rewrite !inf_bits, expo_emax, testbit_signif by done. unfold nz. rewrite !negb_involutive, !signif_0 by done.
  assert ((raw_exp f a =? emax f) && quiet f a = is_NaN f a && quiet f a) as ->; [|done].
  destruct (quiet f a) eqn:Hq; [|by rewrite !andb_false_r]. rewrite !andb_true_r.
  destruct (Z.eqb_spec (raw_exp f a) (emax f)) as [He|He].
  - symmetry. by apply quiet_is_NaN.
  - unfold is_NaN. by destruct (Z.eqb_spec (raw_exp f a) (emax f)).
Qed.

Lemma invalid_not_NaN f b c : wf_format f → is_NaN f b = false → is_NaN f c = false →
  ((expo f b =? emax f) && (mag f c =? 0)) || ((expo f c =? emax f) && (mag f b =? 0)) = invalid_product f b c.
Proof.
  intros Hf Hb Hc. rewrite !not_NaN_inf by done. unfold invalid_product.
  rewrite orb_comm, (andb_comm (is_inf f c)), (andb_comm (is_inf f b)). done.
Qed.

(** What is left of a fused multiply-add once the special operands are dealt with. *)
Lemma muladd_ref_intro f a b c scale mode flags (r : Z → res (Z * Z)) :
  wf_format f →
  (is_inf f a = false → is_inf f b = false → is_inf f c = false →
   let sa := sign f a in let s := Z.lxor (sign f b) (sign f c) in
   let S := signed sa (mag f a * 2 ^ unit_exp f) + signed s (mag f b * mag f c) in
   (S = 0 → (sa =? s) = false) →
   r flags = Ok (round_signed f mode (zero_sign mode sa s) S (2 ^ (unit_exp f - scale)) flags)) →
  (sign f a = 0 ∨ sign f a = 1) → (Z.lxor (sign f b) (sign f c) = 0 ∨ Z.lxor (sign f b) (sign f c) = 1) →
  (let '(x, flags) := muladd_NaN f a b c (unpack_of f a) (unpack_of f b) (unpack_of f c) mode flags in
   if nz x then Ok (x, flags)
   else match muladd_special f (unpack_of f a) (unpack_of f b) (unpack_of f c) flags with Some r => Ok r | None => r flags end) =
  Ok (muladd_ref f a b c scale mode flags).
Proof.
  intros Hf Hr Hsa Hs. rewrite muladd_NaN_spec by done. unfold muladd_ref.
  pose proof (process_NaNs3_spec f a b c mode flags Hf) as HN. cbv zeta in HN.
  destruct (fp_process_NaNs3 f a b c mode flags) as [x fl] eqn:Hp. cbn [fst] in HN.
  destruct (is_NaN f a || is_NaN f b || is_NaN f c) eqn:Hnan.
  { destruct (is_NaN f a && quiet f a && invalid_product f b c); [|by rewrite HN].
    rewrite (nz_testbit _ (mbits f - 1)); [done|pose proof (wf_mbits f Hf); lia|by apply testbit_pack_NaN]. }
  apply orb_false_iff in Hnan as [Hnan Hnc]. apply orb_false_iff in Hnan as [Hna Hnb].
  injection HN as -> ->. rewrite Hna. cbn [andb]. change (nz 0) with false. cbv iota.
  unfold muladd_special. cbn [sgn exp mnt unpack_of]. unfold nz. rewrite !negb_involutive, !signif_0 by done.
  rewrite invalid_not_NaN, !not_NaN_inf by done.
  destruct (invalid_product f b c || _) eqn:Hinv; [done|]. destruct (is_inf f a); [done|]. cbn [andb] in *.
  destruct (is_inf f b); [done|]. destruct (is_inf f c); [done|]. cbn [orb].
  set (sa := sign f a) in *. set (s := Z.lxor (sign f b) (sign f c)) in *.
  pose proof (mag_nonneg f a Hf). pose proof (mag_nonneg f b Hf). pose proof (mag_nonneg f c Hf).
  assert (0 < 2 ^ unit_exp f) as Hu.
  { apply pow2_pos. unfold unit_exp. pose proof (emax_pos f Hf). pose proof (wf_mbits f Hf).
    pose proof (Z.div_pos (emax f) 2 ltac:(lia) ltac:(lia)). lia. }
  destruct ((mag f a =? 0) && ((mag f b =? 0) || (mag f c =? 0)) && (sa =? s)) eqn:Hz.
  { apply andb_true_iff in Hz as [Hz Heq]. apply andb_true_iff in Hz as [Hza Hzp]. apply Z.eqb_eq in Hza.
    assert (mag f b * mag f c = 0) as Hbc by (apply orb_true_iff in Hzp as [E|E]; apply Z.eqb_eq in E; rewrite E; ring).
    rewrite Hza, Hbc. unfold round_signed, zero_sign, signed. rewrite Heq. by destruct (sa =? 0), (s =? 0). }
  apply Hr; [done..|]. intros HS. destruct (Z.eqb_spec sa s) as [Heq|]; [|done]. rewrite andb_true_r in Hz.
  rewrite Heq in HS. unfold signed in HS.
  assert (mag f a * 2 ^ unit_exp f = 0 ∧ mag f b * mag f c = 0) as [Hza Hzp] by (destruct (s =? 0); nia).
  apply Z.mul_eq_0_l in Hza; [|lia]. rewrite Hza in Hz. cbn [Z.eqb andb] in Hz.
  apply orb_false_iff in Hz as [Hb Hc]. apply Z.eqb_neq in Hb, Hc. apply Z.mul_eq_0 in Hzp. tauto.
Qed.

(** Linear arithmetic on the significands and exponents, without what relates the sums. *)
Ltac lean_lia :=
  repeat match goal with
    | H : near _ _ _ _ |- _ => clear H
    | H : context [Z.sgn _] |- _ => clear H
    | H : context [Z.abs _] |- _ => clear H
    | H : context [signed _ _] |- _ => clear H
    | H : _ = _ → _ |- _ => clear H
    | H : _ < _ → _ |- _ => clear H
    end; lia.

(** ** Single precision *)

(** Adding and rounding, when the aligned sum stands for the exact one. *)
Lemma sum64_finite sa X sb Y e scale mode flags S :
  let m := signed sa X + signed sb Y in
  Z.land mode FPLIB_FZ = 0 → (sa = 0 ∨ sa = 1) → (sb = 0 ∨ sb = 1) → 0 ≤ X → 0 ≤ Y → X + Y < 2 ^ 64 →
  scale ≤ 0 → 0 ≤ e + 111 → Z.sgn S = Z.sgn m →
  near (Z.abs S * 2 ^ 3) (2 ^ (e + 111)) (Z.abs m) 0 →
  Z.abs S * 2 ^ 3 = Z.abs m * 2 ^ (e + 111) ∨ 2 ^ 25 ≤ Z.abs m ∨ e + scale ≤ 39 →
  (S = 0 → (sa =? sb) = false) →
  (let '(x_sgn, x_mnt) := add_signed 64 sa X sb Y in
   if negb (nz x_mnt) then Ok (fp32_zero (Z.b2z (Z.land mode 3 =? 2)), flags)
   else
     let '(x_mnt, x_exp) := fp64_normalise x_mnt e in
     let x_mnt := Z.lor (Z.shiftr x_mnt 31) (nzi (u32 (Z.shiftl x_mnt 1))) in
     fp32_round x_sgn (x_exp + scale) (u32 x_mnt) mode flags) =
  Ok (round_signed F32 mode (zero_sign mode sa sb) S (2 ^ (149 - scale)) flags).
Proof.
  intros m Hfz Hsa Hsb HX HY Hlt Hsc Hj Hsgn Hn Hex HS0.
  destruct (signed_sum_bounds sa X sb Y HX HY) as [Hub _]. fold m in Hub.
  destruct (add_signed_spec 64 sa X sb Y) as [Hv Hs]; [lia|done..|fold m; lia|].
  destruct (add_signed 64 sa X sb Y) as [sg x]. cbn [fst snd] in Hv, Hs. fold m in Hv, Hs. clearbody m. subst x.
  unfold round_signed, zero_sign. destruct (Z.eqb_spec S 0) as [HS|HS].
  - assert (m = 0) as -> by lia. rewrite HS0 by done. done.
  - assert (nz (Z.abs m) = true) as -> by (apply nz_true; lia). cbn [negb].
    rewrite Hs by lia. replace (m <? 0) with (S <? 0) by (destruct (Z.ltb_spec S 0), (Z.ltb_spec m 0); lia || done).
    assert (2 ^ (e + scale - 41 + (3 + (149 - scale))) * 2 ^ (149 - scale) = 2 ^ (e + 111) * 2 ^ (149 - scale)) as HV.
    { f_equal. f_equal. lia. }
    apply round32_of64 with (K := 3 + (149 - scale)); [done|lia|apply pow2_pos; lia|lia|lia|..];
      rewrite HV, (Z.pow_add_r 2 3), Z.mul_assoc by lia.
    + apply near_scale; [apply pow2_pos; lia|done].
    + destruct Hex as [-> | Hex]; [left; ring|by right].
Qed.

(** The addend and the product as integers with a common weight: the addend is shifted left by
    [w] and the product by 3. *)
Lemma fma_value sa ma ea s mb eb mc ec U w ox j :
  1 ≤ ea → 1 ≤ eb → 1 ≤ ec → 0 ≤ w → 0 ≤ U → 0 ≤ ea + ox + j → w + ox + j = U + 2 →
  let X := ma * 2 ^ w in
  let Y := mb * mc * 2 ^ 3 in
  let ey := if nz Y then eb + ec - (j + 2) else ea + ox in
  (signed sa (ma * 2 ^ (ea - 1) * 2 ^ U) + signed s (mb * 2 ^ (eb - 1) * (mc * 2 ^ (ec - 1)))) * 2 ^ 3 =
    signed sa (X * 2 ^ (ea + ox + j)) + signed s (Y * 2 ^ (ey + j)) ∧
  0 ≤ ey + j ∧ (Y ≠ 0 → ey = eb + ec - (j + 2)) ∧ (Y = 0 → ey = ea + ox).
Proof.
  intros Hea Heb Hec Hw HU Hx Heq X Y ey.
  assert (X * 2 ^ (ea + ox + j) = ma * 2 ^ (ea - 1) * 2 ^ U * 2 ^ 3) as HX.
  { unfold X. rewrite <- !Z.mul_assoc. rewrite <- !Z.pow_add_r by lia. do 2 f_equal. lia. }
  assert (mb * 2 ^ (eb - 1) * (mc * 2 ^ (ec - 1)) = mb * mc * 2 ^ (eb - 1 + (ec - 1))) as -> by (rewrite Z.pow_add_r by lia; ring).
  rewrite HX. unfold ey. destruct (nz Y) eqn:HY; [apply nz_true in HY|apply nz_false in HY].
  - split_and!; [|lia|done|done]. replace (eb + ec - (j + 2) + j) with (eb - 1 + (ec - 1)) by lia.
    unfold Y, signed. destruct (sa =? 0), (s =? 0); ring.
  - split_and!; [|lia|done|done]. rewrite HY. assert (mb * mc = 0) as -> by (unfold Y in HY; lia).
    unfold signed. destruct (sa =? 0), (s =? 0); ring.
Qed.

Lemma mul_normal x y B : 0 ≤ x → 0 ≤ y → x * y ≠ 0 → (B ≤ x ∨ B ≤ y) → B ≤ x * y.
Proof.
  intros Hx Hy Hxy HB. assert (x ≠ 0) by (intros ->; lia). assert (y ≠ 0) by (intros ->; lia).
  destruct HB; nia.
Qed.

Lemma sign_xor f b c : wf_format f → in_width (width f) b → in_width (width f) c →
  Z.lxor (sign f b) (sign f c) = 0 ∨ Z.lxor (sign f b) (sign f c) = 1.
Proof.
  intros Hf Hb Hc. destruct (sign_range f b Hf Hb) as [-> | ->], (sign_range f c Hf Hc) as [-> | ->]; first [by left|by right].
Qed.

Lemma fp32_muladd_ref a b c scale mode flags :
  in_width 32 a → in_width 32 b → in_width 32 c → scale ≤ 0 → Z.land mode FPLIB_FZ = 0 →
  fp32_muladd a b c scale mode flags = Ok (muladd_ref F32 a b c scale mode flags).
Proof.
  intros Ha Hb Hc Hsc Hfz. unfold fp32_muladd, fp32_unpack. rewrite !(fp_unpack_spec F32) by (done || apply wf_F32).
  pose proof (sign_range F32 a wf_F32 Ha) as Hsa. pose proof (sign_xor F32 b c wf_F32 Hb Hc) as Hs.
  apply (muladd_ref_intro F32 a b c scale mode flags); [apply wf_F32| |done..]. intros _ _ _ sa s S HS0.
  cbn [sgn exp mnt]. change (unit_exp F32) with 149 in *.
  destruct (signif_range F32 a wf_F32) as (Hma & Hna & Hea). destruct (signif_range F32 b wf_F32) as (Hmb & Hnb & Heb).
  destruct (signif_range F32 c wf_F32) as (Hmc & Hnc & Hec). change (2 ^ (mbits F32 + 1)) with (2 ^ 24) in *.
  change (2 ^ mbits F32) with (2 ^ 23) in *. fold sa in Hsa. fold s in Hs. fold sa s. unfold mag in S.
  set (ma := signif F32 a) in *. set (mb := signif F32 b) in *. set (mc := signif F32 c) in *.
  set (ea := expo F32 a) in *. set (eb := expo F32 b) in *. set (ec := expo F32 c) in *. clearbody ma mb mc ea eb ec sa s.
  assert (0 ≤ mb * mc ≤ (2 ^ 24 - 1) * (2 ^ 24 - 1)) as Hp by nia.
  rewrite !Z.shiftl_mul_pow2 by lia. rewrite (wrap_small 64 (mb * mc)) by (unfold in_width; lia).
  rewrite !wrap_small by (unfold in_width; lia). set (X := ma * 2 ^ 27). set (Y := mb * mc * 2 ^ 3).
  assert (0 ≤ X < 2 ^ 51) by (unfold X; lia). assert (0 ≤ Y < 2 ^ 51) by (unfold Y; lia).
  assert (Z.Even X) as HXe by (exists (ma * 2 ^ 26); unfold X; ring). assert (Z.Even Y) as HYe by (exists (mb * mc * 2 ^ 2); unfold Y; ring).
  destruct (fma_value sa ma ea s mb eb mc ec 149 27 13 111) as (HS & Hey & HYn & HY0); [lia..|]. fold X Y S in HS, Hey, HYn, HY0.
  change (eb + ec - (111 + 2)) with (eb + ec - 113) in *. set (ey := if nz Y then _ else _) in *.
  clearbody S ey. destruct (Z.leb_spec ey (ea + 13)) as [Hle|Hgt].
  - rewrite sticky_lsr_spec by lia.
    destruct (aligned_value sa X (ea + 13) s Y ey S 3 111) as (Hsgn & Hn & Hex); [lia|done|lia|lia|lia|done|].
    pose proof (sticky_lt' Y (ea + 13 - ey) 51 51 ltac:(lia) ltac:(lia) ltac:(lia) ltac:(lia)) as Hst.
    apply sum64_finite; [done..|lean_lia|lean_lia|lean_lia|lean_lia|lean_lia|done|done| |done]. destruct Hex as [Hex|Hz]; [by left|right].
    destruct (decide (1 < ea)) as [Hn1|]; [left|right; lean_lia]. specialize (Hna Hn1). clear Hn Hsgn HS.
    apply (mod_pow2_zero 3) in Hz; [|lia..].
    pose proof (sticky_lt' Y (ea + 13 - ey) 47 51 ltac:(lia) ltac:(lia) ltac:(lia) ltac:(lia)).
    destruct (signed_sum_bounds sa X s (sticky Y (ea + 13 - ey))) as [_ Hlb]; [lia..|]. unfold X in *. lia.
  - rewrite sticky_lsr_spec by lia.
    rewrite Z.add_comm in HS.
    destruct (aligned_value s Y ey sa X (ea + 13) S 3 111) as (Hsgn & Hn & Hex); [lia|done|lia|lia|lia|done|].
    pose proof (sticky_lt' X (ey - (ea + 13)) 51 51 ltac:(lia) ltac:(lia) ltac:(lia) ltac:(lia)) as Hst.
    destruct (signed_sum_bounds s Y sa (sticky X (ey - (ea + 13)))) as [_ Hlb]; [lia..|].
    rewrite (Z.add_comm (signed s Y)) in Hsgn, Hn, Hex, Hlb.
    apply sum64_finite; [done..|lean_lia|lean_lia|lean_lia|lean_lia|lean_lia|done|done| |done]. destruct Hex as [Hex|Hz]; [by left|right; left]. clear Hn Hsgn HS.
    apply (mod_pow2_zero 27) in Hz; [|lia..].
    pose proof (sticky_lt' X (ey - (ea + 13)) 23 51 ltac:(lia) ltac:(lia) ltac:(lia) ltac:(lia)).
    assert (2 ^ 26 ≤ Y); [|lia].
    destruct (decide (Y = 0)) as [Hz0|Hz0]; [specialize (HY0 Hz0); lia|]. rewrite HYn in * by done.
    assert (2 ^ 23 ≤ mb * mc); [|unfold Y; lean_lia]. apply mul_normal; [lean_lia|lean_lia|unfold Y in Hz0; lean_lia|].
    destruct (decide (1 < eb)) as [Hn1|]; [left; by apply Hnb|right; apply Hnc; lean_lia].
Qed.

(** ** 128-bit sums and shifts *)

Definition wide (x : Z * Z) : Prop := in_width 64 x.1 ∧ in_width 64 x.2.

Lemma wide_val x0 x1 : wide (x0, x1) → 0 ≤ val128 (x0, x1) < 2 ^ 128.
Proof. unfold wide, in_width, val128. cbn [fst snd]. lia. Qed.

Lemma add128_spec x y :
  wide x → wide y → val128 x + val128 y < 2 ^ 128 →
  let r := add128 x.1 x.2 y.1 y.2 in wide r ∧ val128 r = val128 x + val128 y.
Proof.
  destruct x as [x0 x1], y as [y0 y1]. unfold wide, in_width, val128, add128. cbn [fst snd]. intros Hx Hy Hlt.
  assert (u64 (x0 + y0) = if x0 + y0 <? 2 ^ 64 then x0 + y0 else x0 + y0 - 2 ^ 64) as Hw.
  { unfold wrap. destruct (Z.ltb_spec (x0 + y0) (2 ^ 64)); [apply Z.mod_small; lia|].
    symmetry. apply Z.mod_unique with (q := 1); lia. }
  rewrite Hw. destruct (Z.ltb_spec (x0 + y0) (2 ^ 64)).
  - destruct (Z.ltb_spec (x0 + y0) x0); [lia|]. rewrite wrap_small by (unfold in_width; cbn [Z.b2z]; lia). cbn [Z.b2z]. lia.
  - destruct (Z.ltb_spec (x0 + y0 - 2 ^ 64) x0); [|lia]. rewrite wrap_small by (unfold in_width; cbn [Z.b2z]; lia). cbn [Z.b2z]. lia.
Qed.

Lemma sub128_spec x y :
  wide x → wide y → val128 y ≤ val128 x →
  let r := sub128 x.1 x.2 y.1 y.2 in wide r ∧ val128 r = val128 x - val128 y.
Proof.
  destruct x as [x0 x1], y as [y0 y1]. unfold wide, in_width, val128, sub128. cbn [fst snd]. intros Hx Hy Hle.
  assert (u64 (x0 - y0) = if y0 <=? x0 then x0 - y0 else x0 - y0 + 2 ^ 64) as Hw.
  { unfold wrap. destruct (Z.leb_spec y0 x0); [apply Z.mod_small; lia|].
    symmetry. apply Z.mod_unique with (q := -1); lia. }
  rewrite Hw. destruct (Z.leb_spec y0 x0).
  - destruct (Z.ltb_spec x0 (x0 - y0)); [lia|]. rewrite wrap_small by (unfold in_width; cbn [Z.b2z]; lia). cbn [Z.b2z]. lia.
  - destruct (Z.ltb_spec x0 (x0 - y0 + 2 ^ 64)); [|lia]. rewrite wrap_small by (unfold in_width; cbn [Z.b2z]; lia). cbn [Z.b2z]. lia.
Qed.

Lemma cmp128_spec x y : wide x → wide y → (0 <=? cmp128 x.1 x.2 y.1 y.2) = (val128 y <=? val128 x).
Proof.
  destruct x as [x0 x1], y as [y0 y1]. unfold wide, in_width, val128, cmp128. cbn [fst snd]. intros Hx Hy.
  destruct (Z.leb_spec (y0 + 2 ^ 64 * y1) (x0 + 2 ^ 64 * x1)), (Z.ltb_spec x1 y1), (Z.ltb_spec y1 x1),
    (Z.ltb_spec x0 y0), (Z.ltb_spec y0 x0); done || lia.
Qed.

Lemma add_signed128_spec sa x sb y :
  (sa = 0 ∨ sa = 1) → (sb = 0 ∨ sb = 1) → wide x → wide y → val128 x + val128 y < 2 ^ 128 →
  let m := signed sa (val128 x) + signed sb (val128 y) in
  let r := add_signed128 sa x.1 x.2 sb y.1 y.2 in
  wide r.2 ∧ val128 r.2 = Z.abs m ∧ (m ≠ 0 → r.1 = Z.b2z (m <? 0)).
Proof.
  intros Hsa Hsb Hx Hy Hlt m r. destruct (add128_spec x y Hx Hy Hlt) as [Haw Hav]. cbv zeta in Haw, Hav.
  assert (0 ≤ val128 x ∧ 0 ≤ val128 y) as [Hx0 Hy0] by (destruct x, y; split; by apply wide_val).
  unfold r, add_signed128. rewrite cmp128_spec by done. unfold m, signed.
  destruct Hsa as [-> | ->], Hsb as [-> | ->]; cbn [Z.eqb Pos.eqb]; try destruct (Z.leb_spec (val128 y) (val128 x)) as [Hle|Hgt];
    cbn [fst snd]; try destruct (sub128_spec x y Hx Hy Hle) as [Hsw Hsv]; try destruct (sub128_spec y x Hy Hx ltac:(lia)) as [Hsw Hsv];
    cbv zeta in *; (split; [done|]); (split; [lia|]); intros;
    match goal with |- context [?v <? 0] => destruct (Z.ltb_spec v 0) end; cbn [Z.b2z]; first [lia|done].
Qed.

Lemma lsl128_spec x0 x1 s : wide (x0, x1) → 0 ≤ s →
  val128 (lsl128 x0 x1 s) = (val128 (x0, x1) * 2 ^ s) mod 2 ^ 128 ∧ wide (lsl128 x0 x1 s).
Proof.
  intros [Hx0 Hx1] Hs. cbn [fst snd] in *. unfold lsl128, wide. pose proof (wide_val x0 x1 ltac:(done)) as Hv.
  destruct (Z.eqb_spec s 0) as [->|]; [rewrite Z.pow_0_r, Z.mul_1_r, Z.mod_small by done; done|].
  destruct (Z.ltb_spec s 64); [|destruct (Z.ltb_spec s 128)]; cbn [fst snd].
  - pose proof (pow2_pos (64 - s) ltac:(lia)). pose proof (pow2_pos s ltac:(lia)).
    assert (2 ^ 64 = 2 ^ (64 - s) * 2 ^ s) as H64 by (rewrite <- Z.pow_add_r by lia; f_equal; lia).
    pose proof (Z.div_mod x1 (2 ^ (64 - s)) ltac:(lia)) as Hd. pose proof (Z.mod_pos_bound x1 (2 ^ (64 - s)) ltac:(lia)) as Hr.
    assert (u64 (Z.shiftl x1 s) = u64 (Z.shiftl (x1 mod 2 ^ (64 - s)) s)) as ->.
    { rewrite !Z.shiftl_mul_pow2 by lia. unfold wrap. rewrite H64, !Z.mul_mod_distr_r, Z.mod_mod by lia. done. }
    destruct (shl128_spec x0 _ s Hx0 ltac:(lia) Hr) as (-> & Hval & Hw0). rewrite Hval.
    assert (0 ≤ x0 / 2 ^ (64 - s) < 2 ^ s).
    { unfold in_width in Hx0. split; [apply Z.div_pos; lia|]. apply Z.div_lt_upper_bound; lia. }
    split; [|split; [done|unfold in_width; nia]].
    apply Z.mod_unique with (q := x1 / 2 ^ (64 - s)); [left; rewrite <- Hval; unfold val128, in_width in *; cbn [fst snd]; nia|].
    unfold val128. cbn [fst snd]. set (q := x1 / 2 ^ (64 - s)) in *. set (r := x1 mod 2 ^ (64 - s)) in *. rewrite Hd.
    replace (2 ^ 128 * q) with (2 ^ 64 * (2 ^ (64 - s) * 2 ^ s) * q) by (rewrite <- H64; lia). ring.
  - rewrite Z.shiftl_mul_pow2 by lia. split; [|split; [done|by apply wrap_range]].
    unfold val128, wrap. cbn [fst snd]. replace (2 ^ s) with (2 ^ (s - 64) * 2 ^ 64) by (rewrite <- Z.pow_add_r by lia; f_equal; lia).
    replace ((x0 + 2 ^ 64 * x1) * (2 ^ (s - 64) * 2 ^ 64)) with ((x0 * 2 ^ (s - 64) + x1 * 2 ^ (s - 64) * 2 ^ 64) * 2 ^ 64) by ring.
    change (2 ^ 128) with (2 ^ 64 * 2 ^ 64). rewrite Z.mul_mod_distr_r, Z.mod_add by lia. ring.
  - split; [|done]. replace (2 ^ s) with (2 ^ (s - 128) * 2 ^ 128) by (rewrite <- Z.pow_add_r by lia; f_equal; lia).
    rewrite Z.mul_assoc, Z.mod_mul by lia. done.
Qed.

Lemma lsr128_spec x0 x1 s : wide (x0, x1) → 0 ≤ s →
  val128 (lsr128 x0 x1 s) = val128 (x0, x1) / 2 ^ s ∧ wide (lsr128 x0 x1 s).
Proof.
  intros [Hx0 Hx1] Hs. cbn [fst snd] in *. unfold lsr128, wide. pose proof (wide_val x0 x1 ltac:(done)) as Hv.
  destruct (Z.eqb_spec s 0) as [->|]; [rewrite Z.pow_0_r, Z.div_1_r by done; done|].
  destruct (Z.ltb_spec s 64); [|destruct (Z.ltb_spec s 128)]; cbn [fst snd]; rewrite ?shiftr_div by lia.
  - pose proof (pow2_pos (64 - s) ltac:(lia)). pose proof (pow2_pos s ltac:(lia)).
    assert (2 ^ 64 = 2 ^ s * 2 ^ (64 - s)) as H64 by (rewrite <- Z.pow_add_r by lia; f_equal; lia).
    assert (u64 (Z.shiftl x1 (64 - s)) = x1 mod 2 ^ s * 2 ^ (64 - s)) as ->.
    { rewrite !Z.shiftl_mul_pow2 by lia. unfold wrap. by rewrite H64, Z.mul_mod_distr_r by lia. }
    pose proof (Z.div_mod x1 (2 ^ s) ltac:(lia)) as Hd1. pose proof (Z.mod_pos_bound x1 (2 ^ s) ltac:(lia)) as Hr1.
    pose proof (Z.div_mod x0 (2 ^ s) ltac:(lia)) as Hd0. pose proof (Z.mod_pos_bound x0 (2 ^ s) ltac:(lia)) as Hr0.
    unfold in_width in *.
    assert (0 ≤ x0 / 2 ^ s < 2 ^ (64 - s)) by (split; [apply Z.div_pos; lia|apply Z.div_lt_upper_bound; lia]).
    assert (0 ≤ x1 / 2 ^ s < 2 ^ (64 - s)) by (split; [apply Z.div_pos; lia|apply Z.div_lt_upper_bound; lia]).
    assert (2 ^ (64 - s) ≤ 2 ^ 64) by (apply Z.pow_le_mono_r; lia).
    rewrite (lor_parts (64 - s)) by lia. split; [|nia]. unfold val128. cbn [fst snd].
    apply Z.div_unique with (r := x0 mod 2 ^ s); [left; lia|].
    set (q0 := x0 / 2 ^ s) in *. set (r0 := x0 mod 2 ^ s) in *. set (q1 := x1 / 2 ^ s) in *. set (r1 := x1 mod 2 ^ s) in *.
    rewrite Hd0, Hd1, H64. ring.
  - pose proof (pow2_pos (s - 64) ltac:(lia)). unfold in_width in *.
    assert (0 ≤ x1 / 2 ^ (s - 64)) by (apply Z.div_pos; lia).
    assert (x1 / 2 ^ (s - 64) < 2 ^ 64) by (apply Z.div_lt_upper_bound; nia).
    split; [|lia]. unfold val128. cbn [fst snd]. replace (2 ^ s) with (2 ^ 64 * 2 ^ (s - 64)) by (rewrite <- Z.pow_add_r by lia; f_equal; lia).
    rewrite <- Z.div_div by lia. rewrite (Z.mul_comm (2 ^ 64) x1), Z.div_add, (Z.div_small x0) by lia. rewrite Z.add_0_l. lia.
  - split; [|done]. rewrite Z.div_small; [done|]. split; [lia|].
    apply Z.lt_le_trans with (2 ^ 128); [lia|]. apply Z.pow_le_mono_r; lia.
Qed.

Lemma nz_lor a b : in_width 64 a → in_width 64 b → nz (Z.lor a b) = nz (val128 (a, b)).
Proof.
  unfold in_width, val128. cbn [fst snd]. intros Ha Hb. unfold nz. f_equal.
  destruct (Z.eqb_spec (Z.lor a b) 0) as [Hz|Hz], (Z.eqb_spec (a + 2 ^ 64 * b) 0) as [Hv|Hv]; try done.
  - apply Z.lor_eq_0_iff in Hz as [-> ->]. lia.
  - assert (a = 0 ∧ b = 0) as [-> ->] by lia. done.
Qed.

Lemma sticky_lsr128_spec x0 x1 d : wide (x0, x1) → 0 ≤ d →
  wide (sticky_lsr128 x0 x1 d) ∧ val128 (sticky_lsr128 x0 x1 d) = sticky (val128 (x0, x1)) d.
Proof.
  intros Hx Hd. unfold sticky_lsr128. set (s := if d <? 128 then 128 - d else 0).
  assert (0 ≤ s) by (unfold s; destruct (Z.ltb_spec d 128); lia).
  destruct (lsl128_spec x0 x1 s Hx ltac:(done)) as [Hl Hlw]. destruct (lsl128 x0 x1 s) as [t0 t1]. destruct Hlw as [Ht0 Ht1].
  destruct (lsr128_spec x0 x1 d Hx Hd) as [Hr Hrw]. destruct (lsr128 x0 x1 d) as [y0 y1]. destruct Hrw as [Hy0 Hy1].
  cbn [fst snd] in *. unfold nzi. rewrite nz_lor, Hl by done. pose proof (wide_val x0 x1 Hx) as Hv. set (v := val128 (x0, x1)) in *.
  pose proof (pow2_pos d Hd).
  assert (nz ((v * 2 ^ s) mod 2 ^ 128) = nz (v mod 2 ^ d)) as ->.
  { unfold s. destruct (Z.ltb_spec d 128).
    - replace (2 ^ 128) with (2 ^ d * 2 ^ (128 - d)) by (rewrite <- Z.pow_add_r by lia; f_equal; lia).
      pose proof (pow2_pos (128 - d) ltac:(lia)). rewrite Z.mul_mod_distr_r by lia. unfold nz. f_equal.
      destruct (Z.eqb_spec (v mod 2 ^ d) 0), (Z.eqb_spec (v mod 2 ^ d * 2 ^ (128 - d)) 0); nia || done.
    - rewrite Z.pow_0_r, Z.mul_1_r, !Z.mod_small; [done| |done]. split; [lia|].
      apply Z.lt_le_trans with (2 ^ 128); [lia|]. apply Z.pow_le_mono_r; lia. }
  unfold sticky, nzi. rewrite <- Hr. set (bit := nz (v mod 2 ^ d)). unfold in_width, wide in *.
  rewrite !lor_bit by (unfold val128, in_width in *; cbn [fst snd]; lia). unfold val128, in_width in *; cbn [fst snd].
  destruct bit; [|lia]. pose proof (Z.div_mod y0 2 ltac:(lia)). pose proof (Z.mod_pos_bound y0 2 ltac:(lia)).
  assert ((y0 + 2 ^ 64 * y1) / 2 = y0 / 2 + 2 ^ 63 * y1) as ->; [|lia].
  symmetry. apply Z.div_unique with (r := y0 mod 2); lia.
Qed.

(** ** Double precision *)

Lemma sum128_finite sa x sb y e scale mode flags S :
  let m := signed sa (val128 x) + signed sb (val128 y) in
  Z.land mode FPLIB_FZ = 0 → (sa = 0 ∨ sa = 1) → (sb = 0 ∨ sb = 1) → wide x → wide y → val128 x + val128 y < 2 ^ 128 →
  scale ≤ 0 → 0 ≤ e + 1001 → Z.sgn S = Z.sgn m →
  near (Z.abs S * 2 ^ 3) (2 ^ (e + 1001)) (Z.abs m) 0 →
  Z.abs S * 2 ^ 3 = Z.abs m * 2 ^ (e + 1001) ∨ 2 ^ 54 ≤ Z.abs m ∨ e + scale ≤ 74 →
  (S = 0 → (sa =? sb) = false) →
  (let '(x_sgn, (x0, x1)) := add_signed128 sa x.1 x.2 sb y.1 y.2 in
   if negb (nz x0) && negb (nz x1) then Ok (fp64_zero (Z.b2z (Z.land mode 3 =? 2)), flags)
   else
     let '(x0, x1, x_exp) := fp128_normalise x0 x1 e in
     let x0 := Z.lor (u64 (Z.shiftl x1 1)) (nzi x0) in
     fp64_round x_sgn (x_exp + scale) x0 mode flags) =
  Ok (round_signed F64 mode (zero_sign mode sa sb) S (2 ^ (1074 - scale)) flags).
Proof.
  intros m Hfz Hsa Hsb HX HY Hlt Hsc Hj Hsgn Hn Hex HS0.
  destruct (add_signed128_spec sa x sb y Hsa Hsb HX HY Hlt) as (Hw & Hv & Hs). fold m in Hv, Hs.
  destruct (add_signed128 sa x.1 x.2 sb y.1 y.2) as [sg [z0 z1]]. cbn [fst snd] in Hw, Hv, Hs. destruct Hw as [Hw0 Hw1].
  cbn [fst snd] in Hw0, Hw1. clearbody m.
  assert (negb (nz z0) && negb (nz z1) = negb (nz (Z.abs m))) as ->.
  { rewrite <- Hv, <- nz_lor by done. unfold nz. rewrite !negb_involutive.
    destruct (Z.eqb_spec z0 0), (Z.eqb_spec z1 0), (Z.eqb_spec (Z.lor z0 z1) 0) as [Hz|Hz]; try done;
      try (apply Z.lor_eq_0_iff in Hz; lia). exfalso. apply Hz. by subst. }
  unfold round_signed, zero_sign. destruct (Z.eqb_spec S 0) as [HS|HS].
  - assert (m = 0) as -> by lia. rewrite HS0 by done. done.
  - assert (nz (Z.abs m) = true) as -> by (apply nz_true; lia). cbn [negb].
    rewrite Hs by lia. replace (m <? 0) with (S <? 0) by (destruct (Z.ltb_spec S 0), (Z.ltb_spec m 0); lia || done).
    assert (2 ^ (e + scale - 76 + (3 + (1074 - scale))) * 2 ^ (1074 - scale) = 2 ^ (e + 1001) * 2 ^ (1074 - scale)) as HV.
    { f_equal. f_equal. lia. }
    rewrite <- Hv in Hn, Hex.
    apply round64_of128 with (K := 3 + (1074 - scale)); [done|done|done|rewrite Hv; lia|apply pow2_pos; lia|lia|lia|..];
      rewrite HV, (Z.pow_add_r 2 3), Z.mul_assoc by lia.
    + apply near_scale; [apply pow2_pos; lia|done].
    + destruct Hex as [-> | Hex]; [left; ring|by right].
Qed.

Lemma fp64_muladd_ref a b c scale mode flags :
  in_width 64 a → in_width 64 b → in_width 64 c → scale ≤ 0 → Z.land mode FPLIB_FZ = 0 →
  fp64_muladd a b c scale mode flags = Ok (muladd_ref F64 a b c scale mode flags).
Proof.
  intros Ha Hb Hc Hsc Hfz. unfold fp64_muladd, fp64_unpack. rewrite !(fp_unpack_spec F64) by (done || apply wf_F64).
  pose proof (sign_range F64 a wf_F64 Ha) as Hsa. pose proof (sign_xor F64 b c wf_F64 Hb Hc) as Hs.
  apply (muladd_ref_intro F64 a b c scale mode flags); [apply wf_F64| |done..]. intros _ _ _ sa s S HS0.
  cbn [sgn exp mnt]. change (unit_exp F64) with 1074 in *.
  destruct (signif_range F64 a wf_F64) as (Hma & Hna & Hea). destruct (signif_range F64 b wf_F64) as (Hmb & Hnb & Heb).
  destruct (signif_range F64 c wf_F64) as (Hmc & Hnc & Hec). change (2 ^ (mbits F64 + 1)) with (2 ^ 53) in *.
  change (2 ^ mbits F64) with (2 ^ 52) in *. fold sa in Hsa. fold s in Hs. fold sa s. unfold mag in S.
  set (ma := signif F64 a) in *. set (mb := signif F64 b) in *. set (mc := signif F64 c) in *.
  set (ea := expo F64 a) in *. set (eb := expo F64 b) in *. set (ec := expo F64 c) in *. clearbody ma mb mc ea eb ec sa s.
  rewrite Z.shiftl_mul_pow2 by lia. rewrite (wrap_small 64 (mc * 2 ^ 3)) by (unfold in_width; lia).
  destruct (mul62x62_spec mb (mc * 2 ^ 3) ltac:(lia) ltac:(lia)) as (HYv & HY0w & HY1w).
  destruct (mul62x62 mb (mc * 2 ^ 3)) as [y0 y1]. cbn [fst snd] in HY0w, HY1w.
  assert (0 ≤ mb * mc ≤ (2 ^ 53 - 1) * (2 ^ 53 - 1)) as Hp by nia.
  assert (wide (y0, y1)) as HYw by (split; cbn [fst snd]; [done|unfold in_width; lia]).
  assert (wide (0, ma)) as HXw by (split; cbn [fst snd]; unfold in_width; lia).
  set (X := val128 (0, ma)). assert (X = ma * 2 ^ 64) as HX by (unfold X, val128; cbn [fst snd]; lia).
  set (Y := val128 (y0, y1)) in *. assert (Y = mb * mc * 2 ^ 3) as HY by (rewrite HYv; ring). clear HYv.
  assert (nz y0 || nz y1 = nz Y) as ->.
  { unfold Y. rewrite <- nz_lor by apply HYw. unfold nz. rewrite <- negb_andb. f_equal.
    destruct (Z.eqb_spec y0 0), (Z.eqb_spec y1 0), (Z.eqb_spec (Z.lor y0 y1) 0) as [Hz|Hz]; try done;
      try (apply Z.lor_eq_0_iff in Hz; lia). exfalso. apply Hz. by subst. }
  assert (0 ≤ X < 2 ^ 117) by lia. assert (0 ≤ Y < 2 ^ 109) by lia.
  assert (Z.Even X) as HXe by (exists (ma * 2 ^ 63); rewrite HX; ring). assert (Z.Even Y) as HYe by (exists (mb * mc * 2 ^ 2); rewrite HY; ring).
  destruct (fma_value sa ma ea s mb eb mc ec 1074 64 11 1001) as (HS & Hey & HYn & HY0); [lia..|]. rewrite <- HX, <- HY in HS.
  rewrite <- HY in Hey, HYn, HY0.
  fold S in HS. change (eb + ec - (1001 + 2)) with (eb + ec - 1003) in *. set (ey := if nz Y then _ else _) in *.
  clearbody S ey. destruct (Z.leb_spec ey (ea + 11)) as [Hle|Hgt].
  - destruct (sticky_lsr128_spec y0 y1 (ea + 11 - ey) HYw ltac:(lia)) as [Hsw Hsv]. fold Y in Hsv.
    destruct (aligned_value sa X (ea + 11) s Y ey S 3 1001) as (Hsgn & Hn & Hex); [lia|done|lia|lia|lia|done|].
    pose proof (sticky_lt' Y (ea + 11 - ey) 109 109 ltac:(lia) ltac:(lia) ltac:(lia) ltac:(lia)) as Hst.
    rewrite <- Hsv in Hsgn, Hn, Hex, Hst. destruct (sticky_lsr128 y0 y1 (ea + 11 - ey)) as [z0 z1].
    apply (sum128_finite sa (0, ma) s (z0, z1)); [done..|fold X; lean_lia|lean_lia|lean_lia|done|done| |done].
    fold X. destruct Hex as [Hex|Hz]; [by left|right]. destruct (decide (1 < ea)) as [Hn1|]; [left|right; lean_lia]. specialize (Hna Hn1). clear Hn Hsgn HS.
    rewrite HY in Hz. apply (mod_pow2_zero 3) in Hz; [|lia..].
    pose proof (sticky_lt' Y (ea + 11 - ey) 105 109 ltac:(lia) ltac:(lia) ltac:(lia) ltac:(lia)).
    destruct (signed_sum_bounds sa X s (val128 (z0, z1))) as [_ Hlb]; [lia..|]. lia.
  - rewrite Z.add_comm in HS. destruct (sticky_lsr128_spec 0 ma (ey - (ea + 11)) HXw ltac:(lia)) as [Hsw Hsv]. fold X in Hsv.
    destruct (aligned_value s Y ey sa X (ea + 11) S 3 1001) as (Hsgn & Hn & Hex); [lia|done|lia|lia|lia|done|].
    pose proof (sticky_lt' X (ey - (ea + 11)) 117 117 ltac:(lia) ltac:(lia) ltac:(lia) ltac:(lia)) as Hst.
    rewrite (Z.add_comm (signed s Y)), <- Hsv in Hsgn, Hn, Hex. rewrite <- Hsv in Hst.
    destruct (sticky_lsr128 0 ma (ey - (ea + 11))) as [z0 z1].
    apply (sum128_finite sa (z0, z1) s (y0, y1)); [done..|fold Y; lean_lia|lean_lia|lean_lia|done|done| |done].
    fold Y. destruct Hex as [Hex|Hz]; [by left|right; left]. clear Hn Hsgn HS. rewrite HX in Hz. apply (mod_pow2_zero 64) in Hz; [|lia..].
    pose proof (sticky_lt' X (ey - (ea + 11)) 52 117 ltac:(lia) ltac:(lia) ltac:(lia) ltac:(lia)).
    destruct (signed_sum_bounds s Y sa (val128 (z0, z1))) as [_ Hlb]; [lia..|]. rewrite Z.add_comm in Hlb.
    assert (2 ^ 55 ≤ Y); [|lia]. destruct (decide (Y = 0)) as [Hz0|Hz0]; [specialize (HY0 Hz0); lia|].
    assert (2 ^ 52 ≤ mb * mc); [|lean_lia]. specialize (HYn Hz0). apply mul_normal; [lean_lia..|].
    destruct (decide (1 < eb)) as [Hn1|]; [left; by apply Hnb|right; apply Hnc; lean_lia].
Qed.

End FplibFma.
