(* ===== verification/FplibDiv.v ===== *)
(** * Correct double-precision division

    The code divides by a reciprocal: a 32-bit quotient, one Newton step to 62 bits, a product
    with the dividend, and one comparison that corrects the last bit and finds out whether the
    quotient is exact.  The estimate is shown to be below the quotient by less than two units, so
    the corrected quotient is its integer part. *)

From S2P Require Import Prelude Fplib FplibOps FplibRound FplibArith FplibMul FplibFma.

Open Scope Z_scope.

Module FplibDiv.
Import Fplib FplibOps FplibRound FplibArith FplibMul FplibFma.

(** ** A quotient with a sticky bit far below *)

(** Nonzero bits below place [s + 1] are all alike to rounding at place [s + 2] or above. *)
Lemma low_bits_alike k l l' s P :
  0 ≤ k → 0 ≤ s → s + 2 ≤ P → 0 < l < 2 ^ (s + 1) → 0 < l' < 2 ^ (s + 1) →
  (k * 2 ^ (s + 1) + l) / 2 ^ P = (k * 2 ^ (s + 1) + l') / 2 ^ P ∧ classify (k * 2 ^ (s + 1) + l) P = classify (k * 2 ^ (s + 1) + l') P.
Proof.
  intros Hk Hs HP Hl Hl'. set (g := 2 ^ (s + 1)) in *. set (M := 2 ^ (P - s - 2)).
  assert (0 < M) by (apply pow2_pos; lia). assert (0 < g) by (apply pow2_pos; lia).
  assert (2 ^ P = g * (2 * M)) as HPg.
  { unfold g, M. rewrite <- Z.pow_succ_r, <- Z.pow_add_r by lia. f_equal. lia. }
  pose proof (Z.div_mod k (2 * M) ltac:(lia)) as Hd. pose proof (Z.mod_pos_bound k (2 * M) ltac:(lia)) as Hr.
  set (q := k / (2 * M)) in *. set (r := k mod (2 * M)) in *.
  assert (∀ x, 0 < x < g → (k * g + x) / 2 ^ P = q ∧ (k * g + x) mod 2 ^ P = r * g + x) as Hx.
  { intros x Hx. rewrite HPg. split; symmetry; [apply Z.div_unique with (r := r * g + x)|apply Z.mod_unique with (q := q)]; nia. }
  destruct (Hx l Hl) as [Hq1 Hm1], (Hx l' Hl') as [Hq2 Hm2]. split; [congruence|]. unfold classify. rewrite Hm1, Hm2, HPg. unfold excess.
  destruct (Z.eqb_spec (r * g + l) 0); [nia|]. destruct (Z.eqb_spec (r * g + l') 0); [nia|].
  assert (r < M ∨ M ≤ r) as [Hc|Hc] by lia.
  - destruct (Z.compare_spec (2 * (r * g + l)) (g * (2 * M))), (Z.compare_spec (2 * (r * g + l')) (g * (2 * M))); done || nia.
  - destruct (Z.compare_spec (2 * (r * g + l)) (g * (2 * M))), (Z.compare_spec (2 * (r * g + l')) (g * (2 * M))); done || nia.
Qed.

(** A truncated value [q], known to be exact or not, normalised and rounded with the knowledge in
    the last bit. *)
Lemma fp_round_truncated f sg e q t (exact : bool) rm mode flags N D K :
  wf_format f → 0 < D → 0 ≤ K → 0 ≤ e - 1 - (width f - mbits f) + K → 0 ≤ t → t + 2 ≤ width f - mbits f →
  2 ^ (width f - 1) ≤ q * 2 ^ t < 2 ^ width f → rm ≠ FPRounding_TIEAWAY → Z.land mode FPLIB_FZ = 0 →
  let V := 2 ^ (e - 1 - (width f - mbits f) + K) * D in
  (if exact then N * 2 ^ K = q * 2 ^ (t + 1) * V else q * 2 ^ (t + 1) * V < N * 2 ^ K < (q + 1) * 2 ^ (t + 1) * V) →
  fp_round_ f sg e (Z.lor (wrap (width f) (Z.shiftl (q * 2 ^ t) 1)) (Z.b2z (negb exact))) rm mode flags =
  Ok (round_spec f rm sg N D flags).
Proof.
  intros Hf HD HK Hj Ht HtP Hq Hrm Hfz V Hv. pose proof (wf_width f Hf). pose proof (wf_drop f Hf). pose proof (wf_mbits f Hf).
  destruct (wrap_top (width f) (q * 2 ^ t) ltac:(lia) Hq) as [Hbig Hmnt]. set (w0 := wrap (width f) _) in *.
  assert (2 * (q * 2 ^ t) = q * 2 ^ (t + 1)) as H2 by (rewrite Z.pow_add_r by lia; ring). rewrite H2 in Hbig.
  assert (0 < 2 ^ t) by (apply pow2_pos; lia). assert (0 ≤ q) by nia.
  destruct exact; cbn [negb Z.b2z].
  - rewrite Z.lor_0_r. apply (fp_round_correct f sg e w0 rm mode flags 0); try done; [lia|].
    exists K. split_and!; [done|done|]. fold V. rewrite Hbig. left. done.
  - assert (2 ^ (t + 1) = 2 * 2 ^ t) as Ht1 by (rewrite Z.pow_add_r by lia; ring).
    assert (2 ^ width f = 2 * 2 ^ (width f - 1)) as HW by (rewrite <- Z.pow_succ_r by lia; f_equal; lia).
    assert (Z.Even w0) as [z Hz].
    { exists (q * 2 ^ t - 2 ^ (width f - 1)). lia. }
    assert (Z.lor w0 1 = w0 + 1) as ->.
    { rewrite lor_1 by lia. rewrite Hz at 1. rewrite (Z.mul_comm 2 z), Z.div_mul by lia. lia. }
    assert (w0 + 2 ^ t < 2 ^ width f).
    { assert (2 ^ (t + 1) ≤ 2 ^ (width f)) by (apply Z.pow_le_mono_r; lia).
      assert (∃ y, 2 ^ width f = y * 2 ^ (t + 1)) as [y Hy].
      { exists (2 ^ (width f - (t + 1))). rewrite <- Z.pow_add_r by lia. f_equal. lia. }
      assert (w0 + 2 ^ (t + 1) ≤ 2 ^ width f); [|lia]. assert (q - y < y) by nia. nia. }
    assert (parts_agree f e (w0 + 2 ^ t) N D) as Hp.
    { apply (stands_for_parts f e (w0 + 2 ^ t) t); try done; [lia|lia|].
      exists K. split_and!; [done|done|]. fold V. right. exists q.
      replace (2 ^ width f + (w0 + 2 ^ t)) with (q * 2 ^ (t + 1) + 2 ^ t) by lia. rewrite Ht1 in *. split; [ring|].
      split; [replace (2 * q * 2 ^ t * V) with (q * (2 * 2 ^ t) * V) by ring|
              replace ((2 * q + 2) * 2 ^ t * V) with ((q + 1) * (2 * 2 ^ t) * V) by ring]; lia. }
    apply fp_round_of_parts; try done; [lia|]. unfold parts_agree in *.
    destruct (low_bits_alike q 1 (2 ^ t) t (width f - mbits f + Z.max 0 (1 - e))) as [Hq1 Hc1]; try lia.
    replace (2 ^ width f + (w0 + 1)) with (q * 2 ^ (t + 1) + 1) by lia.
    replace (2 ^ width f + (w0 + 2 ^ t)) with (q * 2 ^ (t + 1) + 2 ^ t) in Hp by lia.
    rewrite Hq1, Hc1. done.
Qed.

(** ** The reciprocal *)

(** The factors of a power of two are powers of two. *)
Lemma pow2_factor (n : nat) x y : 0 < x → 0 < y → x * y = 2 ^ Z.of_nat n → ∃ k, 0 ≤ k ∧ x = 2 ^ k.
Proof.
  revert x y. induction n as [|n IH]; intros x y Hx Hy Hxy.
  { exists 0. change (2 ^ Z.of_nat 0) with 1 in Hxy. split; [lia|]. rewrite Z.pow_0_r. nia. }
  rewrite Nat2Z.inj_succ, Z.pow_succ_r in Hxy by lia.
  destruct (Z.Even_or_Odd x) as [[x' ->]|[x' ->]].
  - destruct (IH x' y) as (k & Hk & ->); [lia|lia|nia|]. exists (Z.succ k). rewrite Z.pow_succ_r by lia. lia.
  - destruct (Z.Even_or_Odd y) as [[y' ->]|[y' ->]]; [|nia]. apply (IH (2 * x' + 1) y'); nia.
Qed.

(** The first estimate, a 32-bit quotient. *)
Lemma recip_first B :
  2 ^ 63 ≤ B < 2 ^ 64 →
  let X := (2 ^ 64 - 1) / (B / 2 ^ 31) in
  2 ^ 31 ≤ X < 2 ^ 32 ∧ 2 ^ 95 - 2 ^ 64 ≤ B * X < 2 ^ 95 + 2 ^ 63 ∧ B * X ≠ 2 ^ 95.
Proof.
  intros HB X. pose proof (Z.div_mod B (2 ^ 31) ltac:(lia)) as Hd. pose proof (Z.mod_pos_bound B (2 ^ 31) ltac:(lia)) as Hb0.
  unfold X. clear X. set (b1 := B / 2 ^ 31) in *. set (b0 := B mod 2 ^ 31) in *.
  assert (2 ^ 32 ≤ b1 < 2 ^ 33) as Hb1 by lia.
  pose proof (Z.div_mod (2 ^ 64 - 1) b1 ltac:(lia)) as Hx. pose proof (Z.mod_pos_bound (2 ^ 64 - 1) b1 ltac:(lia)) as Hr.
  set (X := (2 ^ 64 - 1) / b1) in *. set (r := (2 ^ 64 - 1) mod b1) in *. clearbody X r b0 b1.
  assert (2 ^ 31 ≤ X < 2 ^ 32) as HX by nia.
  assert (B * X = 2 ^ 31 * (2 ^ 64 - 1 - r) + b0 * X) as HBX by (rewrite Hd, Hx; ring).
  assert (0 ≤ b0 * X ≤ (2 ^ 31 - 1) * (2 ^ 32 - 1)) by nia.
  split_and!; [lia|lia|lia|lia|]. intros Heq.
  destruct (pow2_factor 95 B X) as (k & Hk & HBk); [lia|lia|exact Heq|].
  assert (k = 63) as ->.
  { assert (63 ≤ k) by (apply (Z.pow_le_mono_r_iff 2); lia). assert (k < 64) by (apply (Z.pow_lt_mono_r_iff 2); lia). lia. }
  lia.
Qed.

(** One Newton step, and the product with the dividend: below the quotient by less than two. *)
Lemma div_estimate A B :
  2 ^ 63 ≤ A < 2 ^ 64 → 2 ^ 63 ≤ B < 2 ^ 64 → A mod 4 = 0 →
  let X := (2 ^ 64 - 1) / (B / 2 ^ 31) in
  let R := 2 ^ 96 - B * X in
  let Y := R / 2 ^ 32 * X / 2 ^ 33 in
  let Q := Y * (A / 4) / 2 ^ 68 in
  0 ≤ R < 2 ^ 96 ∧ 0 ≤ Y < 2 ^ 62 ∧ Q * B < A * 2 ^ 55 < (Q + 2) * B ∧ 0 ≤ Q.
Proof.
  intros HA HB HA4 X R Y Q. destruct (recip_first B HB) as (HX & HBX & Hne). fold X in HX, HBX, Hne.
  assert (0 ≤ R < 2 ^ 96) as HR by (unfold R; lia).
  set (U := R / 2 ^ 32) in *. pose proof (Z.div_mod R (2 ^ 32) ltac:(lia)) as HdU. pose proof (Z.mod_pos_bound R (2 ^ 32) ltac:(lia)) as HrU.
  fold U in HdU. pose proof (Z.div_mod (U * X) (2 ^ 33) ltac:(lia)) as HdY. pose proof (Z.mod_pos_bound (U * X) (2 ^ 33) ltac:(lia)) as HrY.
  fold Y in HdY. assert (0 ≤ U) by (unfold U; apply Z.div_pos; lia). assert (0 ≤ Y) by (unfold Y; apply Z.div_pos; nia).
  set (E := 2 ^ 95 - B * X) in *. assert (B * X * R = 2 ^ 190 - E * E) as HBXR by (unfold R, E; ring).
  assert (1 ≤ E * E ≤ 2 ^ 128) as HE by (assert (E ≠ 0) by (unfold E; lia); assert (- 2 ^ 63 ≤ E ≤ 2 ^ 64) by (unfold E; lia); nia).
  assert (2 ^ 65 * (B * Y) ≤ B * X * R) as Hup.
  { assert (2 ^ 33 * Y ≤ U * X) by lia. assert (2 ^ 32 * U ≤ R) by lia. assert (X * (2 ^ 32 * U) ≤ X * R) by (apply Z.mul_le_mono_nonneg_l; lia).
    assert (B * (2 ^ 65 * Y) ≤ B * (X * R)) by (apply Z.mul_le_mono_nonneg_l; lia). lia. }
  assert (B * Y < 2 ^ 125) as HBY by nia.
  assert (2 ^ 125 - B * Y < 2 ^ 65) as Hlow.
  { assert (U * X < 2 ^ 33 * Y + 2 ^ 33) by lia. assert (R < 2 ^ 32 * U + 2 ^ 32) by lia.
    assert (X * R ≤ X * (2 ^ 32 * U + 2 ^ 32)) by (apply Z.mul_le_mono_nonneg_l; lia).
    assert (B * (X * R) ≤ B * (2 ^ 65 * Y + 2 ^ 65 + 2 ^ 32 * X)) by (apply Z.mul_le_mono_nonneg_l; lia). lia. }
  assert (Y < 2 ^ 62) by nia.
  pose proof (Z.div_mod A 4 ltac:(lia)) as HdA. set (A' := A / 4) in *.
  pose proof (Z.div_mod (Y * A') (2 ^ 68) ltac:(lia)) as HdQ. pose proof (Z.mod_pos_bound (Y * A') (2 ^ 68) ltac:(lia)) as HrQ. fold Q in HdQ.
  assert (0 ≤ Q) by (unfold Q; apply Z.div_pos; nia). clearbody Q Y U E R A' X. split_and!; try lia.
  - assert (B * (2 ^ 68 * Q) ≤ B * (Y * A')) by (apply Z.mul_le_mono_nonneg_l; lia).
    assert (A' * (B * Y) < A' * 2 ^ 125) by (apply Z.mul_lt_mono_pos_l; lia). lia.
  - assert (B * (Y * A') < B * (2 ^ 68 * (Q + 1))) by (apply Z.mul_lt_mono_pos_l; lia).
    assert (A' * (2 ^ 125 - B * Y) ≤ A' * 2 ^ 65) by (apply Z.mul_le_mono_nonneg_l; lia). lia.
Qed.

(** ** The code *)

Lemma mul64x32_spec a b :
  in_width 64 a → in_width 32 b → let r := mul64x32 a b in wide r ∧ val128 r = a * b.
Proof.
  intros Ha Hb. unfold mul64x32, wide, in_width in *. rewrite !shiftr_div by lia. change (u32 a) with (a mod 2 ^ 32).
  pose proof (Z.div_mod a (2 ^ 32) ltac:(lia)) as Hd. pose proof (Z.mod_pos_bound a (2 ^ 32) ltac:(lia)) as Hr.
  assert (0 ≤ a / 2 ^ 32 < 2 ^ 32) by (split; [apply Z.div_pos; lia|apply Z.div_lt_upper_bound; lia]).
  set (ah := a / 2 ^ 32) in *. set (al := a mod 2 ^ 32) in *. clearbody ah al.
  assert (0 ≤ al * b ≤ (2 ^ 32 - 1) * (2 ^ 32 - 1)) by nia. assert (0 ≤ ah * b ≤ (2 ^ 32 - 1) * (2 ^ 32 - 1)) by nia.
  rewrite (wrap_small 64 (al * b)) by (unfold in_width; lia). rewrite (wrap_small 64 (ah * b)) by (unfold in_width; lia).
  set (t0 := al * b) in *. pose proof (Z.div_mod t0 (2 ^ 32) ltac:(lia)). pose proof (Z.mod_pos_bound t0 (2 ^ 32) ltac:(lia)).
  assert (0 ≤ t0 / 2 ^ 32 < 2 ^ 32) by (split; [apply Z.div_pos; lia|apply Z.div_lt_upper_bound; lia]).
  rewrite (wrap_small 64 (t0 / 2 ^ 32 + ah * b)) by (unfold in_width; lia). set (t1 := t0 / 2 ^ 32 + ah * b) in *.
  pose proof (Z.div_mod t1 (2 ^ 32) ltac:(lia)). pose proof (Z.mod_pos_bound t1 (2 ^ 32) ltac:(lia)).
  assert (0 ≤ t1 / 2 ^ 32 < 2 ^ 32) by (split; [apply Z.div_pos; lia|apply Z.div_lt_upper_bound; lia]).
  rewrite Z.shiftl_mul_pow2 by lia. assert (u64 (t1 * 2 ^ 32) = t1 mod 2 ^ 32 * 2 ^ 32) as ->.
  { unfold wrap. change (2 ^ 64) with (2 ^ 32 * 2 ^ 32). by rewrite Z.mul_mod_distr_r by lia. }
  unfold wrap. rewrite Z.lor_comm, (lor_parts 32) by lia. unfold val128. cbn [fst snd]. split; [lia|].
  rewrite Hd. unfold t1 in *. lia.
Qed.

Lemma cmp128_full x y : wide x → wide y →
  cmp128 x.1 x.2 y.1 y.2 = match val128 x ?= val128 y with Lt => -1 | Eq => 0 | Gt => 1 end.
Proof.
  destruct x as [x0 x1], y as [y0 y1]. unfold wide, in_width, val128, cmp128. cbn [fst snd]. intros Hx Hy.
  destruct (Z.compare_spec (x0 + 2 ^ 64 * x1) (y0 + 2 ^ 64 * y1)), (Z.ltb_spec x1 y1), (Z.ltb_spec y1 x1),
    (Z.ltb_spec x0 y0), (Z.ltb_spec y0 x0); done || lia.
Qed.

(** The low word of a 128-bit number that fits it. *)
Lemma low_word x : wide x → val128 x < 2 ^ 64 → x.1 = val128 x.
Proof. destruct x as [x0 x1]. unfold wide, in_width, val128. cbn [fst snd]. lia. Qed.

Lemma high_word x : wide x → x.2 = val128 x / 2 ^ 64.
Proof.
  destruct x as [x0 x1]. unfold wide, in_width, val128. cbn [fst snd]. intros Hx. apply Z.div_unique with (r := x0); lia.
Qed.

(** The quotient of two normalised significands, truncated to 55 or 56 bits, and whether it is
    exact. *)
Definition div_quotient (a_mnt b_mnt : Z) : Z * Z :=
  let x_mnt := (2 ^ 64 - 1) / Z.shiftr b_mnt 31 in
  let '(x0, x1) := mul64x32 b_mnt (u32 x_mnt) in
  let '(x0, x1) := sub128 0 (2 ^ 32) x0 x1 in
  let '(x0, x1) := lsr128 x0 x1 32 in
  let '(x0, x1) := mul64x32 x0 (u32 x_mnt) in
  let '(x0, x1) := lsr128 x0 x1 33 in
  let '(x0, x1) := mul62x62 x0 (Z.shiftr a_mnt 2) in
  let '(x0, x1) := lsr128 x0 x1 4 in
  let x_mnt := x1 in
  let '(x0, x1) := mul62x62 (Z.shiftr b_mnt 2) (u64 (x_mnt + 1)) in
  let c := cmp128 x0 x1 0 (Z.shiftr a_mnt 11) in
  (if c <=? 0 then u64 (x_mnt + 1) else x_mnt, c).

Lemma div_quotient_spec A B :
  2 ^ 63 ≤ A < 2 ^ 64 → 2 ^ 63 ≤ B < 2 ^ 64 → A mod 2 ^ 11 = 0 → B mod 2 ^ 11 = 0 →
  let r := div_quotient A B in
  2 ^ 54 ≤ r.1 < 2 ^ 57 ∧ (if nz r.2 then r.1 * B < A * 2 ^ 55 < (r.1 + 1) * B else A * 2 ^ 55 = r.1 * B).
Proof.
  intros HA HB HA11 HB11. unfold div_quotient. rewrite (shiftr_div B 31) by lia.
  destruct (recip_first B HB) as (HX & HBX & _).
  assert (A mod 4 = 0) as HA4.
  { pose proof (Z.div_mod A (2 ^ 11) ltac:(lia)) as Hd. rewrite Hd, HA11. replace (2 ^ 11 * (A / 2 ^ 11) + 0) with (A / 2 ^ 11 * 2 ^ 9 * 4) by ring.
    by apply Z.mod_mul. }
  destruct (div_estimate A B HA HB HA4) as (HR & HY & HQ & HQ0). cbv zeta in *.
  set (X := (2 ^ 64 - 1) / (B / 2 ^ 31)) in *. set (R := 2 ^ 96 - B * X) in *. set (Y := R / 2 ^ 32 * X / 2 ^ 33) in *. set (Q := Y * (A / 4) / 2 ^ 68) in *.
  rewrite (wrap_small 32 X) by (unfold in_width; lia).
  destruct (mul64x32_spec B X) as [Hw1 Hv1]; [unfold in_width; lia..|]. destruct (mul64x32 B X) as [m0 m1].
  destruct (sub128_spec (0, 2 ^ 32) (m0, m1)) as [Hw2 Hv2]; [split; unfold in_width; cbn [fst snd]; lia|done|rewrite Hv1; unfold val128; cbn [fst snd]; unfold R in HR; lia|].
  cbn [fst snd] in Hw2, Hv2. destruct (sub128 0 (2 ^ 32) m0 m1) as [s0 s1].
  assert (val128 (s0, s1) = R) as HvR by (rewrite Hv2, Hv1; unfold val128, R; cbn [fst snd]; ring).
  destruct (lsr128_spec s0 s1 32 Hw2 ltac:(lia)) as [Hv3 Hw3]. rewrite HvR in Hv3. destruct (lsr128 s0 s1 32) as [u0 u1].
  assert (R / 2 ^ 32 < 2 ^ 64) by (apply Z.div_lt_upper_bound; lia).
  pose proof (low_word (u0, u1) Hw3 ltac:(rewrite Hv3; lia)) as Hu0. cbn [fst] in Hu0. rewrite Hv3 in Hu0. subst u0.
  destruct (mul64x32_spec (R / 2 ^ 32) X) as [Hw4 Hv4]; [destruct Hw3; done|unfold in_width; lia|]. destruct (mul64x32 (R / 2 ^ 32) X) as [p0 p1].
  destruct (lsr128_spec p0 p1 33 Hw4 ltac:(lia)) as [Hv5 Hw5]. rewrite Hv4 in Hv5. fold Y in Hv5. destruct (lsr128 p0 p1 33) as [y0 y1].
  pose proof (low_word (y0, y1) Hw5 ltac:(rewrite Hv5; lia)) as Hy0. cbn [fst] in Hy0. rewrite Hv5 in Hy0. subst y0.
  rewrite (shiftr_div A 2), (shiftr_div B 2), (shiftr_div A 11) by lia. change (2 ^ 2) with 4.
  assert (0 ≤ A / 4 < 2 ^ 62) as HA' by (split; [apply Z.div_pos; lia|apply Z.div_lt_upper_bound; lia]).
  destruct (mul62x62_spec Y (A / 4)) as (Hv6 & Hw60 & Hw61); [lia|lia|]. destruct (mul62x62 Y (A / 4)) as [z0 z1]. cbn [fst snd] in Hw60, Hw61.
  destruct (lsr128_spec z0 z1 4 ltac:(split; cbn [fst snd]; [done|unfold in_width; lia]) ltac:(lia)) as [Hv7 Hw7]. rewrite Hv6 in Hv7.
  destruct (lsr128 z0 z1 4) as [x0 x1]. pose proof (high_word (x0, x1) Hw7) as Hx1. cbn [snd] in Hx1. rewrite Hv7, Z.div_div in Hx1 by lia.
  change (2 ^ 4 * 2 ^ 64) with (2 ^ 68) in Hx1. fold Q in Hx1. subst x1.
  assert (Q < 2 ^ 57) as HQu by nia. rewrite (wrap_small 64 (Q + 1)) by (unfold in_width; lia).
  pose proof (Z.div_mod B (2 ^ 11) ltac:(lia)) as HdB. rewrite HB11, Z.add_0_r in HdB.
  pose proof (Z.div_mod A (2 ^ 11) ltac:(lia)) as HdA. rewrite HA11, Z.add_0_r in HdA.
  assert (4 * (B / 4) = B) as HB4.
  { rewrite HdB at 1. replace (2 ^ 11 * (B / 2 ^ 11)) with (B / 2 ^ 11 * 2 ^ 9 * 4) by ring. rewrite Z.div_mul by lia. lia. }
  destruct (mul62x62_spec (B / 4) (Q + 1)) as (Hv8 & Hw80 & Hw81); [lia|lia|]. destruct (mul62x62 (B / 4) (Q + 1)) as [c0 c1]. cbn [fst snd] in Hw80, Hw81.
  pose proof (cmp128_full (c0, c1) (0, A / 2 ^ 11)) as Hc. cbn [fst snd] in Hc.
  rewrite Hc by (split; unfold in_width in *; cbn [fst snd]; lia). rewrite Hv8. unfold val128. cbn [fst snd].
  assert (0 + 2 ^ 64 * (A / 2 ^ 11) = A * 2 ^ 53) as -> by lia.
  destruct (Z.compare_spec (B / 4 * (Q + 1)) (A * 2 ^ 53)) as [Hcmp|Hcmp|Hcmp]; cbn [Z.leb Z.compare Z.opp fst snd nz Z.eqb negb]; split; nia.
Qed.

(** A normalised significand has at least eleven zeros at its end. *)
Lemma normalised_low m t : 0 < m < 2 ^ 53 → 0 ≤ t → 2 ^ 63 ≤ m * 2 ^ t → m * 2 ^ t mod 2 ^ 11 = 0.
Proof.
  intros Hm Ht Hmt. assert (11 ≤ t).
  { apply Z.nlt_ge. intros Hlt. assert (2 ^ t ≤ 2 ^ 10) by (apply Z.pow_le_mono_r; lia). nia. }
  replace t with (t - 11 + 11) by lia. rewrite Z.pow_add_r, Z.mul_assoc by lia. by apply Z.mod_mul.
Qed.

Lemma fp64_div_ref a b mode flags :
  Z.land mode FPLIB_FZ = 0 → fp64_div a b mode flags = Ok (div_ref F64 a b mode flags).
Proof.
  intros Hfz. unfold fp64_div, fp64_unpack, fp64_process_NaNs. rewrite !(fp_unpack_spec F64) by (done || apply wf_F64).
  apply (div_ref_intro F64 a b mode flags); [apply wf_F64|]. intros _ _ Ha Hb. cbn [sgn exp mnt].
  destruct (signif_range F64 a wf_F64) as (Hma & _ & Hea). destruct (signif_range F64 b wf_F64) as (Hmb & _ & Heb).
  change (2 ^ (mbits F64 + 1)) with (2 ^ 53) in *. unfold mag in *. change (unit_exp F64) with 1074.
  set (ma := signif F64 a) in *. set (mb := signif F64 b) in *. set (ea := expo F64 a) in *. set (eb := expo F64 b) in *.
  pose proof (pow2_pos (ea - 1) ltac:(lia)). pose proof (pow2_pos (eb - 1) ltac:(lia)).
  assert (0 < ma) by nia. assert (0 < mb) by nia. unfold fp64_normalise.
  destruct (normalise_spec F64 ma ea wf_F64) as (ta & Hta & -> & HA); [change (width F64) with 64; lia|].
  destruct (normalise_spec F64 mb eb wf_F64) as (tb & Htb & -> & HB); [change (width F64) with 64; lia|].
  change (width F64 - 1) with 63 in *. change (width F64) with 64 in *.
  pose proof (div_quotient_spec _ _ HA HB (normalised_low ma ta ltac:(lia) Hta ltac:(lia)) (normalised_low mb tb ltac:(lia) Htb ltac:(lia))) as Hq.
  unfold div_quotient in Hq. set (A := ma * 2 ^ ta) in *. set (B := mb * 2 ^ tb) in *.
  repeat match type of Hq with context [let '(_, _) := ?p in _] => destruct p as [??] end. cbn [fst snd] in Hq. cbv zeta.
  set (c := cmp128 _ _ _ _) in *. set (q := if c <=? 0 then _ else _) in *. destruct Hq as [Hqr Hqc].
  destruct (normalise_spec F64 q (ea - ta - (eb - tb) + 1031) wf_F64) as (t & Ht & -> & HQ); [change (width F64) with 64; lia|].
  change (width F64 - 1) with 63 in *. change (width F64) with 64 in *.
  assert (t < 10).
  { apply Z.nle_gt. intros Hge. assert (2 ^ 10 ≤ 2 ^ t) by (apply Z.pow_le_mono_r; lia). nia. }
  unfold fp64_round, fp_round, nzi. rewrite <- (negb_involutive (nz c)).
  apply (fp_round_truncated F64 _ _ q t (negb (nz c)) _ mode flags _ _ (ta + eb + t));
    change (width F64) with 64; change (mbits F64) with 52; try done; try apply land_3_TIEAWAY; try lia; [apply wf_F64|].
  assert (∀ z, z * 2 ^ (t + 1) * (2 ^ (ea - ta - (eb - tb) + 1031 - t - 1 - (64 - 52) + (ta + eb + t)) * (mb * 2 ^ (eb - 1))) =
    z * B * 2 ^ (t + ea + eb + 1018)) as HV.
  { intros k. unfold B. replace (ea - ta - (eb - tb) + 1031 - t - 1 - (64 - 52) + (ta + eb + t)) with (ea + 1018 + tb) by lia.
    replace (t + ea + eb + 1018) with (t + 1 + (ea + 1018) + (eb - 1)) by lia. rewrite !(Z.pow_add_r 2 (_ + _)) by lia. ring. }
  assert (ma * 2 ^ (ea - 1) * 2 ^ 1074 * 2 ^ (ta + eb + t) = A * 2 ^ 55 * 2 ^ (t + ea + eb + 1018)) as ->.
  { unfold A. rewrite <- !Z.mul_assoc, <- !Z.pow_add_r by lia. do 2 f_equal. lia. }
  rewrite !HV. pose proof (pow2_pos (t + ea + eb + 1018) ltac:(lia)). destruct (nz c); cbn [negb]; [|by rewrite Hqc].
  split; apply Z.mul_lt_mono_pos_r; lia.
Qed.

End FplibDiv.
