(* ===== verification/FplibSqrt.v ===== *)
(** * Correct square roots

    The code starts from a linear estimate, refines it by Newton steps of 16 and 32 bits (and,
    for doubles, one of 64 bits that multiplies by a reciprocal), and corrects the last bit by
    comparing the square of the candidate with the operand.  The estimates are shown to be within
    a few units of the root, so the corrected value is its integer part. *)

From S2P Require Import Prelude Fplib FplibOps FplibRound FplibArith FplibMul FplibFma FplibDiv.

Open Scope Z_scope.

Module FplibSqrt.
Import Fplib FplibOps FplibRound FplibArith FplibMul FplibFma FplibDiv.

(** ** Newton's method on integers *)

Lemma sqrt_bounds T : 0 ≤ T → let s := Z.sqrt T in 0 ≤ s ∧ s * s ≤ T ≤ s * s + 2 * s.
Proof. intros HT. pose proof (Z.sqrt_spec T HT). pose proof (Z.sqrt_nonneg T). cbv zeta in *. lia. Qed.

(** The square root is enclosed by comparing squares. *)
Lemma sqrt_above T x : 0 ≤ T → 0 ≤ x → T < (x + 1) * (x + 1) → Z.sqrt T ≤ x.
Proof. intros HT Hx Hlt. destruct (sqrt_bounds T HT) as (? & ? & ?). apply Z.nlt_ge. intros ?. nia. Qed.

Lemma sqrt_below T x : 0 ≤ T → x * x ≤ T → x ≤ Z.sqrt T.
Proof. intros HT Hle. destruct (sqrt_bounds T HT) as (? & ? & ?). apply Z.nlt_ge. intros ?. nia. Qed.

(** [(3 a + 5) / 8] is within 0.0528 of the root of [a / 2], all in units of [2^-32]. *)
Lemma linear_estimate a T :
  2 ^ 30 ≤ a < 2 ^ 32 → a * 2 ^ 31 ≤ T < (a + 1) * 2 ^ 31 →
  let x := a / 2 ^ 2 + a / 2 ^ 3 + 5 * 2 ^ 28 in
  Z.sqrt T - 90000000 ≤ x ≤ Z.sqrt T + 226800000 ∧ 1744800000 ≤ x ≤ 2 ^ 32 - 2 ^ 30.
Proof.
  intros Ha HT x. pose proof (Z.div_mod a (2 ^ 2) ltac:(lia)). pose proof (Z.mod_pos_bound a (2 ^ 2) ltac:(lia)).
  pose proof (Z.div_mod a (2 ^ 3) ltac:(lia)). pose proof (Z.mod_pos_bound a (2 ^ 3) ltac:(lia)).
  assert (3 * a + 5 * 2 ^ 31 - 16 ≤ 8 * x ≤ 3 * a + 5 * 2 ^ 31) as Hx by (unfold x; lia).
  clearbody x. assert (1744800000 ≤ x ≤ 2 ^ 32 - 2 ^ 30) as Hr by lia. split; [|exact Hr]. split.
  - cut (Z.sqrt T ≤ x + 90000000); [lia|]. apply sqrt_above; [lia|lia|].
    assert (0 ≤ (9 * a - 8 * 2 ^ 32) * (9 * a - 8 * 2 ^ 32)) by apply Z.square_nonneg.
    assert ((3 * a + 5 * 2 ^ 31 - 16 + 720000000) * (3 * a + 5 * 2 ^ 31 - 16 + 720000000) ≤ (8 * x + 720000000) * (8 * x + 720000000))
      by (apply Z.mul_le_mono_nonneg; lia). lia.
  - cut (x - 226800000 ≤ Z.sqrt T); [lia|]. apply sqrt_below; [lia|].
    assert (0 ≤ (a - 2 ^ 30) * (2 ^ 32 - a)) by (apply Z.mul_nonneg_nonneg; lia).
    assert ((8 * x - 1814400000) * (8 * x - 1814400000) ≤ (3 * a + 5 * 2 ^ 31 - 1814400000) * (3 * a + 5 * 2 ^ 31 - 1814400000))
      by (apply Z.mul_le_mono_nonneg; lia). lia.
Qed.

(** A step of 16 bits: [(a / (x >> 15) + (x >> 16)) << 15]. *)
Lemma newton_16 a T x D U :
  2 ^ 30 ≤ a < 2 ^ 32 → a * 2 ^ 31 ≤ T < (a + 1) * 2 ^ 31 → 2 ^ 30 ≤ x < 2 ^ 32 →
  - D ≤ x - 2 ^ 15 - Z.sqrt T ≤ D → 0 ≤ U → D * D + 2 * Z.sqrt T ≤ (2 * U - 2 ^ 15) * (x - 2 ^ 15) →
  let y := (a / (x / 2 ^ 15) + x / 2 ^ 16) * 2 ^ 15 in Z.sqrt T - 2 ^ 16 ≤ y ≤ Z.sqrt T + U.
Proof.
  intros Ha HT Hx HD HU HDU. destruct (sqrt_bounds T ltac:(lia)) as (Hs0 & Hs1 & Hs2). set (s := Z.sqrt T) in *. clearbody s.
  pose proof (Z.div_mod x (2 ^ 15) ltac:(lia)). pose proof (Z.mod_pos_bound x (2 ^ 15) ltac:(lia)).
  pose proof (Z.div_mod x (2 ^ 16) ltac:(lia)). pose proof (Z.mod_pos_bound x (2 ^ 16) ltac:(lia)).
  set (h := x / 2 ^ 15) in *. set (l := x / 2 ^ 16) in *. assert (2 ^ 15 ≤ h < 2 ^ 17) by lia.
  pose proof (Z.div_mod a h ltac:(lia)). pose proof (Z.mod_pos_bound a h ltac:(lia)). set (g := a / h) in *.
  assert (0 ≤ g) by (unfold g; apply Z.div_pos; lia). clearbody g h l. cbv zeta. set (Y := g + l). split.
  - cut (s < 2 ^ 15 * (Y + 2)); [lia|].
    assert (a + 1 ≤ (g + 1) * h) by lia. assert ((g + 1) * (h * 2 ^ 15) ≤ (g + 1) * x) by (apply Z.mul_le_mono_nonneg_l; lia).
    assert ((2 ^ 16 * (g + 1) + x) * x < 2 ^ 16 * (Y + 2) * x) by (apply Z.mul_lt_mono_pos_r; unfold Y; lia).
    pose proof (Z.square_nonneg (x - s)). apply (Z.mul_lt_mono_pos_r (2 * x)); lia.
  - cut ((2 * (2 ^ 15 * Y) - 2 * s - 2 ^ 15) * (x - 2 ^ 15) ≤ (2 * U - 2 ^ 15) * (x - 2 ^ 15)); [intros Hc; apply Z.mul_le_mono_pos_r in Hc; lia|].
    assert (g * (x - 2 ^ 15) ≤ g * (h * 2 ^ 15)) by (apply Z.mul_le_mono_nonneg_l; lia).
    assert (2 ^ 16 * Y * (x - 2 ^ 15) ≤ (2 ^ 16 * g + x) * (x - 2 ^ 15)) by (apply Z.mul_le_mono_nonneg_r; unfold Y; lia).
    assert ((x - 2 ^ 15 - s) * (x - 2 ^ 15 - s) ≤ D * D) by (clear - HD; nia). lia.
Qed.

(** A step of 32 bits: [((A / x) >> 2) + (x >> 1)]. *)
Lemma newton_32 A T x :
  A = 2 * T → 2 ^ 61 ≤ T < 2 ^ 63 → Z.sqrt T - 2 ^ 16 ≤ x ≤ Z.sqrt T + 90000 →
  let y := A / x / 2 ^ 2 + x / 2 in Z.sqrt T - 1 ≤ y ≤ Z.sqrt T + 3.
Proof.
  intros -> HT Hx y. destruct (sqrt_bounds T ltac:(lia)) as (Hs0 & Hs1 & Hs2).
  assert (1518500249 ≤ Z.sqrt T) as Hs3 by (apply sqrt_below; lia). set (s := Z.sqrt T) in *. clearbody s.
  unfold y. clear y. rewrite Z.div_div by lia.
  pose proof (Z.div_mod (2 * T) (x * 2 ^ 2) ltac:(lia)). pose proof (Z.mod_pos_bound (2 * T) (x * 2 ^ 2) ltac:(lia)).
  set (Q := 2 * T / (x * 2 ^ 2)) in *. clearbody Q. pose proof (Z.div_mod x 2 ltac:(lia)). pose proof (Z.mod_pos_bound x 2 ltac:(lia)).
  set (l := x / 2) in *. clearbody l. set (Y := Q + l). split.
  - cut (2 * s < 2 * Y + 3); [lia|]. assert ((2 * (Q + 1) + x) * x ≤ (2 * Y + 3) * x) by (apply Z.mul_le_mono_nonneg_r; unfold Y; lia).
    pose proof (Z.square_nonneg (x - s)). apply (Z.mul_lt_mono_pos_r x); lia.
  - cut (2 * Y - 2 * s < 8); [lia|]. apply (Z.mul_lt_mono_pos_r x); [lia|].
    assert (2 * Y * x ≤ (2 * Q + x) * x) by (apply Z.mul_le_mono_nonneg_r; unfold Y; lia).
    assert ((x - s) * (x - s) ≤ 90000 * 90000) by nia. lia.
Qed.

(** The estimates of both precisions up to 32 bits, without the wrap-around that never occurs. *)
Definition step_16 (a x : Z) : Z := a / (x / 2 ^ 15) + x / 2 ^ 16.
Definition estimate_0 (a : Z) : Z := a / 2 ^ 2 + a / 2 ^ 3 + 5 * 2 ^ 28.
Definition estimate_1 (a : Z) : Z := step_16 a (estimate_0 a) * 2 ^ 15.
Definition estimate_2 (a : Z) : Z := step_16 a (estimate_1 a) * 2 ^ 15.
Definition estimate_32 (A : Z) : Z := let x := estimate_2 (A / 2 ^ 32) in A / x / 2 ^ 2 + x / 2.

Lemma estimate_32_spec A T :
  A = 2 * T → 2 ^ 61 ≤ T < 2 ^ 63 →
  let a := A / 2 ^ 32 in
  in_width 32 (estimate_0 a) ∧ in_width 17 (step_16 a (estimate_0 a)) ∧ in_width 32 (estimate_1 a) ∧
  in_width 17 (step_16 a (estimate_1 a)) ∧ in_width 32 (estimate_2 a) ∧ 0 < estimate_2 a ∧
  Z.sqrt T - 1 ≤ estimate_32 A ≤ Z.sqrt T + 3 ∧ 1518500249 ≤ Z.sqrt T < 3037000500.
Proof.
  intros HA HT. unfold estimate_32. pose proof (Z.div_mod A (2 ^ 32) ltac:(lia)) as Hd. pose proof (Z.mod_pos_bound A (2 ^ 32) ltac:(lia)) as Hr.
  set (a := A / 2 ^ 32) in *. assert (2 ^ 30 ≤ a < 2 ^ 32) as Ha by lia. assert (a * 2 ^ 31 ≤ T < (a + 1) * 2 ^ 31) as HaT by lia.
  clearbody a. cbv zeta. assert (1518500249 ≤ Z.sqrt T) as Hlo by (apply sqrt_below; lia).
  pose proof (sqrt_above T 3037000499 ltac:(lia) ltac:(lia) ltac:(lia)) as Hhi.
  destruct (linear_estimate a T Ha HaT) as (H0 & H0r). fold (estimate_0 a) in H0, H0r.
  pose proof (newton_16 a T (estimate_0 a) 226800000 14800000 Ha HaT ltac:(lia) ltac:(lia) ltac:(lia) ltac:(lia)) as H1.
  cbv zeta in H1. fold (step_16 a (estimate_0 a)) in H1. fold (estimate_1 a) in H1.
  pose proof (newton_16 a T (estimate_1 a) 14800000 90000 Ha HaT ltac:(lia) ltac:(lia) ltac:(lia) ltac:(lia)) as H2.
  cbv zeta in H2. fold (step_16 a (estimate_1 a)) in H2. fold (estimate_2 a) in H2.
  pose proof (newton_32 A T (estimate_2 a) HA HT H2) as H3. cbv zeta in H3.
  unfold in_width. assert (estimate_1 a = step_16 a (estimate_0 a) * 2 ^ 15) by done.
  assert (estimate_2 a = step_16 a (estimate_1 a) * 2 ^ 15) by done. split_and!; lia.
Qed.

(** A candidate for the root of [M], shifted down by [k] places from an estimate, is the integer
    part of the root or one more. *)
Lemma candidate M k y :
  1 ≤ k → 0 ≤ M → let N := M * 2 ^ (2 * k) in
  Z.sqrt N - 2 ^ (k - 1) < y - 1 → y < Z.sqrt N + 2 ^ (k - 1) → 2 ^ (k - 1) ≤ y →
  let F := (y - 2 ^ (k - 1)) / 2 ^ k in 0 ≤ F ∧ F * F < M < (F + 2) * (F + 2).
Proof.
  intros Hk HM N Hlo Hhi Hy F. assert (2 ^ (2 * k) = 2 ^ k * 2 ^ k) as H2 by (rewrite <- Z.pow_add_r by lia; f_equal; lia).
  assert (2 ^ k = 2 * 2 ^ (k - 1)) as H1 by (rewrite <- Z.pow_succ_r by lia; f_equal; lia). pose proof (pow2_pos (k - 1) ltac:(lia)).
  destruct (sqrt_bounds N ltac:(unfold N; nia)) as (Hs & Hs1 & Hs2). set (s := Z.sqrt N) in *. clearbody s.
  pose proof (Z.div_mod (y - 2 ^ (k - 1)) (2 ^ k) ltac:(lia)) as Hd. pose proof (Z.mod_pos_bound (y - 2 ^ (k - 1)) (2 ^ k) ltac:(lia)).
  fold F in Hd. assert (0 ≤ F) by (apply Z.div_pos; lia). clearbody F. split; [done|].
  assert (F * 2 ^ k < s) by lia. assert (s + 1 < (F + 2) * 2 ^ k) by lia. unfold N in *. rewrite H2 in *. set (P := 2 ^ k) in *.
  assert (F * P * (F * P) < s * s) by (apply Z.square_lt_mono_nonneg; nia).
  assert ((s + 1) * (s + 1) < (F + 2) * P * ((F + 2) * P)) by (apply Z.square_lt_mono_nonneg; nia).
  assert (0 < P * P) by nia. split; apply (Z.mul_lt_mono_pos_r (P * P)); lia.
Qed.

(** The correction: the integer part, and whether it is exact. *)
Lemma corrected M F :
  0 ≤ F → F * F < M < (F + 2) * (F + 2) →
  let q := if M <? (F + 1) * (F + 1) then F else F + 1 in
  q = Z.sqrt M ∧ ((F + 1) * (F + 1) =? M) = (q * q =? M).
Proof.
  intros HF HM q. unfold q. destruct (Z.ltb_spec M ((F + 1) * (F + 1))).
  - split; [symmetry; apply Z.sqrt_unique; lia|]. destruct (Z.eqb_spec ((F + 1) * (F + 1)) M), (Z.eqb_spec (F * F) M); done || lia.
  - split; [symmetry; apply Z.sqrt_unique; lia|done].
Qed.

(** ** The reference *)

(** [N / D] is the root of [V] if that is an integer, and lies between the same two integers
    otherwise. *)
Definition near_root (V N D : Z) : Prop :=
  let s := Z.sqrt V in 0 < D ∧ (if s * s =? V then N = s * D else s * D < N < (s + 1) * D).

(** The square root of the number an operand stands for, from any fraction near it.  In units of
    the smallest subnormal the root has more than 70 bits before the point, so that all fractions
    near it round alike; the root of a negative number is invalid. *)
Definition sqrt_ref (f : format) (a N D mode flags : Z) : Z * Z :=
  if is_NaN f a then fp_process_NaN f a mode flags
  else if mag f a =? 0 then (fp_zero f (sign f a), flags)
  else if nz (sign f a) then (fp_defaultNaN f, Z.lor flags FPLIB_IOC)
  else if is_inf f a then (fp_infinity f 0, flags)
  else round_spec f (Z.land mode 3) 0 N D flags.

Lemma sqrt_ref_intro f a N D mode flags (r : Z → res (Z * Z)) :
  wf_format f →
  (0 < mag f a → sign f a = 0 → r flags = Ok (round_spec f (Z.land mode 3) 0 N D flags)) →
  match sqrt_special f a (unpack_of f a) mode flags with Some r => Ok r | None => r flags end =
  Ok (sqrt_ref f a N D mode flags).
Proof.
  intros Hf Hr. unfold sqrt_ref, sqrt_special. rewrite nan_bits_spec by done. cbn [sgn exp mnt unpack_of].
  destruct (is_NaN f a) eqn:Hn; [done|]. rewrite not_NaN_inf by done. unfold nz. rewrite !negb_involutive, signif_0 by done.
  pose proof (mag_nonneg f a Hf). destruct (Z.eqb_spec (mag f a) 0); [done|].
  destruct (Z.eqb_spec (sign f a) 0) as [Hs|Hs]; cbn [negb]; rewrite ?andb_true_r, ?andb_false_r; [|done].
  destruct (is_inf f a); [by rewrite Hs|]. apply Hr; done || lia.
Qed.

(** Rounding the integer part of a root, with its exactness in the last bit. *)
Lemma sqrt_round f e q t M J N D mode flags :
  wf_format f → 0 < M → q = Z.sqrt M → 0 ≤ J → J = t + (e - (width f - mbits f)) → 0 ≤ t → t + 2 ≤ width f - mbits f →
  2 ^ (width f - 1) ≤ q * 2 ^ t < 2 ^ width f → Z.land mode FPLIB_FZ = 0 → near_root (M * 2 ^ (2 * J)) N D →
  fp_round f 0 e (Z.lor (wrap (width f) (Z.shiftl (q * 2 ^ t) 1)) (Z.b2z (negb (q * q =? M)))) mode flags =
  Ok (round_spec f (Z.land mode 3) 0 N D flags).
Proof.
  intros Hf HM Hq HJ HJe Ht HtP Hqt Hfz [HD HN]. unfold fp_round. set (V := M * 2 ^ (2 * J)) in *.
  assert (2 ^ (2 * J) = 2 ^ J * 2 ^ J) as H2 by (rewrite <- Z.pow_add_r by lia; f_equal; lia). pose proof (pow2_pos J HJ) as HJp.
  destruct (sqrt_bounds M ltac:(lia)) as (Hq0 & Hq1 & Hq2). rewrite <- Hq in Hq0, Hq1, Hq2.
  destruct (sqrt_bounds V ltac:(unfold V; nia)) as (Hs0 & Hs1 & Hs2). set (s := Z.sqrt V) in *. clearbody s.
  assert (q * 2 ^ J ≤ s) as Hqs.
  { apply Z.nlt_ge. intros Hlt. assert ((s + 1) * (s + 1) ≤ q * 2 ^ J * (q * 2 ^ J)) by (apply Z.mul_le_mono_nonneg; lia). unfold V in *. nia. }
  assert (s + 1 ≤ (q + 1) * 2 ^ J) as Hsq.
  { apply Z.nlt_ge. intros Hlt. assert ((q + 1) * 2 ^ J * ((q + 1) * 2 ^ J) ≤ s * s) by (apply Z.mul_le_mono_nonneg; nia). unfold V in *. nia. }
  assert (if q * q =? M then N = q * 2 ^ J * D else q * 2 ^ J * D < N < (q + 1) * 2 ^ J * D) as HNq.
  { clear Hqt. destruct (Z.eqb_spec (q * q) M) as [HqM|HqM].
    - assert (V = q * 2 ^ J * (q * 2 ^ J)) as HV by (unfold V; rewrite <- HqM, H2; ring).
      assert (s = q * 2 ^ J) as Heq by nia. rewrite HV, <- Heq, Z.eqb_refl in HN. by rewrite <- Heq.
    - assert (q * 2 ^ J * D ≤ s * D) by (apply Z.mul_le_mono_nonneg_r; lia).
      assert ((s + 1) * D ≤ (q + 1) * 2 ^ J * D) by (apply Z.mul_le_mono_nonneg_r; lia).
      destruct (Z.eqb_spec (s * s) V) as [HsV|HsV]; [|lia]. rewrite HN. split; [|lia]. apply Z.mul_lt_mono_pos_r; [done|].
      destruct (decide (s = q * 2 ^ J)) as [Heq|]; [|lia]. exfalso. apply HqM. rewrite Heq in HsV. unfold V in HsV. rewrite H2 in HsV.
      apply (Z.mul_reg_r _ _ (2 ^ J * 2 ^ J)); [nia|]. lia. }
  apply (fp_round_truncated f 0 e q t (q * q =? M) _ mode flags N D (t + 1)); try done; try lia; [apply land_3_TIEAWAY|].
  replace (e - 1 - (width f - mbits f) + (t + 1)) with J by lia. pose proof (pow2_pos (t + 1) ltac:(lia)). destruct (q * q =? M); [rewrite HNq; ring|].
  replace (q * 2 ^ (t + 1) * (2 ^ J * D)) with (q * 2 ^ J * D * 2 ^ (t + 1)) by ring.
  replace ((q + 1) * 2 ^ (t + 1) * (2 ^ J * D)) with ((q + 1) * 2 ^ J * D * 2 ^ (t + 1)) by ring.
  split; apply Z.mul_lt_mono_pos_r; lia.
Qed.

(** ** Single precision *)

(** The significand with an exponent of the wanted parity. *)
Lemma even_significand w m t e (odd : bool) :
  2 ≤ w → 0 ≤ t → 0 < m < 2 ^ (w - 1) → 2 ^ (w - 1) ≤ m * 2 ^ t < 2 ^ w →
  let r := if odd then (Z.shiftr (m * 2 ^ t) 1, e - t + 1) else (m * 2 ^ t, e - t) in
  2 ^ (w - 2) ≤ r.1 < 2 ^ w ∧ ∃ k, 0 ≤ k ≤ t ∧ r.1 = m * 2 ^ k ∧ r.2 = e - k ∧ k = (if odd then t - 1 else t).
Proof.
  intros Hw Ht Hm Hr. assert (0 < t).
  { apply Z.nle_gt. intros Hle. assert (t = 0) as -> by lia. lia. }
  assert (2 ^ (w - 1) = 2 * 2 ^ (w - 2)) by (rewrite <- Z.pow_succ_r by lia; f_equal; lia). pose proof (pow2_pos (w - 2) ltac:(lia)).
  destruct odd; cbn [fst snd].
  - assert (2 ^ t = 2 ^ (t - 1) * 2) as Ht2 by (rewrite Z.mul_comm, <- Z.pow_succ_r by lia; f_equal; lia).
    rewrite shiftr_div by lia. change (2 ^ 1) with 2. rewrite Ht2, Z.mul_assoc in *. rewrite Z.div_mul by lia.
    split; [lia|]. exists (t - 1). split_and!; lia.
  - split; [lia|]. exists t. split_and!; lia.
Qed.

Lemma fp32_sqrt_ref a N D mode flags :
  Z.land mode FPLIB_FZ = 0 → (0 < mag F32 a → near_root (mag F32 a * 2 ^ unit_exp F32) N D) →
  fp32_sqrt a mode flags = Ok (sqrt_ref F32 a N D mode flags).
Proof.
  intros Hfz HN. unfold fp32_sqrt, fp32_unpack. rewrite (fp_unpack_spec F32) by (done || apply wf_F32).
  cbv beta iota. fold (unpack_of F32 a). apply (sqrt_ref_intro F32 a N D mode flags (λ flags, _)); [apply wf_F32|]. intros Ha _. specialize (HN Ha). cbn [sgn exp mnt unpack_of].
  destruct (signif_range F32 a wf_F32) as (Hma & _ & Hea). change (2 ^ (mbits F32 + 1)) with (2 ^ 24) in *. unfold mag in *. change (unit_exp F32) with 149 in *.
  set (ma := signif F32 a) in *. set (ea := expo F32 a) in *. pose proof (pow2_pos (ea - 1) ltac:(lia)). assert (0 < ma) by nia.
  unfold fp32_normalise. destruct (normalise_spec F32 ma ea wf_F32) as (t & Ht & -> & HA); [change (width F32) with 32; lia|].
  change (width F32 - 1) with 31 in HA. change (width F32) with 32 in HA.
  destruct (even_significand 32 ma t ea (negb (Z.odd (ea - t))) ltac:(lia) Ht ltac:(lia) HA) as (Hr & k & Hk & Hm & He & Hkt).
  destruct (if negb (Z.odd (ea - t)) then _ else _) as [am ae]. cbn [fst snd] in Hr, Hm, He. change (32 - 2) with 30 in Hr.
  assert (Z.odd ae = true) as Hodd.
  { rewrite He, Hkt. destruct (Z.odd (ea - t)) eqn:Ho; cbn [negb]; [done|]. replace (ea - (t - 1)) with (Z.succ (ea - t)) by lia.
    rewrite Z.odd_succ, <- Z.negb_odd, Ho. done. }
  assert (t ≤ 31). { apply Z.nlt_ge. intros Hlt. assert (2 ^ 32 ≤ 2 ^ t) by (apply Z.pow_le_mono_r; lia). nia. }
  apply Z.odd_spec in Hodd as [h Hh].
  destruct (estimate_32_spec (am * 2 ^ 32) (am * 2 ^ 31) ltac:(lia) ltac:(lia)) as (He0 & Hs0 & He1 & Hs1 & He2 & Hp2 & He3 & Hs).
  cbv zeta in He0, Hs0, He1, Hs1, He2, Hp2. rewrite Z.div_mul in * by lia.
  rewrite !(shiftr_div am) by lia. fold (estimate_0 am). rewrite (wrap_small 32 (estimate_0 am)) by done.
  rewrite !(shiftr_div (estimate_0 am)) by lia. fold (step_16 am (estimate_0 am)).
  rewrite (wrap_small 32 (step_16 am (estimate_0 am))) by (unfold in_width in *; lia). rewrite (Z.shiftl_mul_pow2 (step_16 _ _)) by lia. fold (estimate_1 am).
  rewrite (wrap_small 32 (estimate_1 am)) by done. rewrite !(shiftr_div (estimate_1 am)) by lia. fold (step_16 am (estimate_1 am)).
  rewrite (wrap_small 32 (step_16 am (estimate_1 am))) by (unfold in_width in *; lia). rewrite (Z.shiftl_mul_pow2 (step_16 _ _)) by lia. fold (estimate_2 am).
  rewrite (wrap_small 32 (estimate_2 am)) by done. rewrite !(Z.shiftl_mul_pow2 am) by lia. rewrite (wrap_small 64 (am * 2 ^ 32)) by (unfold in_width; lia).
  rewrite (shiftr_div (estimate_2 am)), (shiftr_div (_ / _)) by lia. change (2 ^ 1) with 2.
  assert (am * 2 ^ 32 / estimate_2 am / 2 ^ 2 + estimate_2 am / 2 = estimate_32 (am * 2 ^ 32)) as -> by (unfold estimate_32; by rewrite Z.div_mul by lia).
  set (x := estimate_32 (am * 2 ^ 32)) in *. clearbody x. rewrite (wrap_small 32 x) by (unfold in_width; lia). rewrite (wrap_small 32 (x - 2 ^ 5)) by (unfold in_width; lia).
  rewrite (shiftr_div (x - 2 ^ 5)) by lia.
  destruct (candidate (am * 2 ^ 19) 6 x) as [HF0 HF]; [lia|lia|rewrite <- ?Z.mul_assoc; change (2 ^ 19 * 2 ^ (2 * 6)) with (2 ^ 31); change (2 ^ (6 - 1)) with 32; lia..|].
  change (2 ^ (6 - 1)) with (2 ^ 5) in HF0, HF. set (F := (x - 2 ^ 5) / 2 ^ 6) in *. assert (F < 2 ^ 26) by (apply Z.div_lt_upper_bound; lia).
  destruct (corrected (am * 2 ^ 19) F HF0 HF) as [Hq Hex]. clearbody F.
  rewrite (wrap_small 32 (F + 1)) by (unfold in_width; lia). replace (F + 1 - 1) with F by lia.
  rewrite (wrap_small 32 F), (wrap_small 64 ((F + 1) * (F + 1))), (wrap_small 64 (am * 2 ^ 19)) by (unfold in_width; nia).
  rewrite Hex. set (q := if am * 2 ^ 19 <? (F + 1) * (F + 1) then F else F + 1) in *.
  assert (2 ^ 24 ≤ q < 2 ^ 26) as Hqr.
  { rewrite Hq. split; [apply sqrt_below; lia|]. pose proof (sqrt_above (am * 2 ^ 19) (2 ^ 26 - 1)). lia. }
  clearbody q. rewrite shiftr_div by lia. replace (ae + 147) with ((h + 74) * 2 ^ 1) by lia. rewrite Z.div_mul by lia.
  destruct (normalise_spec F32 q (h + 74) wf_F32) as (tq & Htq & -> & HQ); [change (width F32) with 32; lia|].
  change (width F32 - 1) with 31 in HQ. change (width F32) with 32 in HQ.
  assert (tq < 8). { apply Z.nle_gt. intros Hge. assert (2 ^ 8 ≤ 2 ^ tq) by (apply Z.pow_le_mono_r; lia). nia. }
  unfold fp32_round. apply (sqrt_round F32 (h + 74 - tq) q tq (am * 2 ^ 19) (h + 65)); try done; try lia;
    change (width F32) with 32; change (mbits F32) with 23; [apply wf_F32|lia..|].
  replace (am * 2 ^ 19 * 2 ^ (2 * (h + 65))) with (ma * 2 ^ (ea - 1) * 2 ^ 149); [done|].
  rewrite Hm, <- !Z.mul_assoc, <- !Z.pow_add_r by lia. do 2 f_equal. lia.
Qed.

(** ** Double precision *)

(** The reciprocal of the 32-bit root: a 32-bit quotient and one Newton step, to 62 bits. *)
Lemma recip_64 x :
  1518500000 ≤ x ≤ 3037000503 →
  let r := 2 ^ 62 / x in let M := 2 ^ 64 - 2 * (x * r) in let R := M * r / 2 ^ 31 / 4 in
  0 ≤ r < 2 ^ 32 ∧ 2 ^ 62 - x < x * r ≤ 2 ^ 62 ∧ 0 ≤ M * r / 2 ^ 31 < 2 ^ 64 ∧ 0 ≤ R < 2 ^ 62 ∧ 2 ^ 94 - 8 * x ≤ 4 * (x * R) ≤ 2 ^ 94.
Proof.
  intros Hx r M R. pose proof (Z.div_mod (2 ^ 62) x ltac:(lia)) as Hd. pose proof (Z.mod_pos_bound (2 ^ 62) x ltac:(lia)) as Hr. fold r in Hd.
  set (rho := 2 ^ 62 mod x) in *. assert (0 ≤ r) by (unfold r; apply Z.div_pos; lia).
  assert (r < 2 ^ 32) by (unfold r; apply Z.div_lt_upper_bound; lia). clearbody r rho.
  assert (M = 2 ^ 63 + 2 * rho) as HM by (unfold M; lia). clearbody M. unfold R. clear R.
  pose proof (Z.div_mod (M * r) (2 ^ 31) ltac:(lia)) as Hd1. pose proof (Z.mod_pos_bound (M * r) (2 ^ 31) ltac:(lia)) as Hr1.
  assert (0 ≤ M * r) by nia. assert (0 ≤ M * r / 2 ^ 31) by (apply Z.div_pos; lia). set (R1 := M * r / 2 ^ 31) in *. clearbody R1.
  pose proof (Z.div_mod R1 4 ltac:(lia)) as Hd2. pose proof (Z.mod_pos_bound R1 4 ltac:(lia)) as Hr2.
  assert (0 ≤ R1 / 4) by (apply Z.div_pos; lia). set (R := R1 / 4) in *. clearbody R.
  assert (x * (M * r) = 2 ^ 125 - 2 * (rho * rho)) as Hp.
  { replace (x * (M * r)) with (x * r * M) by ring. rewrite HM. replace (x * r) with (2 ^ 62 - rho) by lia. ring. }
  assert (0 ≤ rho * rho ≤ x * x) by nia. assert (x * x ≤ x * (3 * 2 ^ 30)) by (apply Z.mul_le_mono_nonneg_l; lia).
  assert (x * R1 ≤ 2 ^ 94) by nia. assert (2 ^ 94 - 4 * x ≤ x * R1) by nia.
  assert (R1 < 2 ^ 64) by nia. split_and!; nia.
Qed.

(** A step of 64 bits, with the reciprocal. *)
Lemma newton_64 A T x :
  A = 2 * T → A mod 2 ^ 10 = 0 → 2 ^ 61 ≤ T < 2 ^ 63 → Z.sqrt T - 1 ≤ x ≤ Z.sqrt T + 3 → 1518500249 ≤ Z.sqrt T < 3037000500 →
  let r := 2 ^ 62 / x in let M := 2 ^ 64 - 2 * (x * r) in let R := M * r / 2 ^ 31 / 4 in
  let W := A / 2 ^ 10 * R / 2 ^ 51 in
  let y := x * 2 ^ 31 + W / 2 in
  0 ≤ W < 2 ^ 64 ∧ Z.sqrt (T * 2 ^ 64) - 9 ≤ y ≤ Z.sqrt (T * 2 ^ 64) + 13 ∧ 2 ^ 62 ≤ Z.sqrt (T * 2 ^ 64) < 2 ^ 64 - 2 ^ 60.
Proof.
  intros HA HA10 HT Hx Hsr r M R W y. destruct (recip_64 x ltac:(lia)) as (_ & _ & _ & HR0 & HR). cbv zeta in HR0, HR. fold r in HR0, HR. fold M in HR0, HR. fold R in HR0, HR.
  clearbody R. clear r M. pose proof (Z.div_mod A (2 ^ 10) ltac:(lia)) as HdA. rewrite HA10, Z.add_0_r in HdA. set (A' := A / 2 ^ 10) in *.
  assert (0 ≤ A' * R) by nia. pose proof (Z.div_mod (A' * R) (2 ^ 51) ltac:(lia)) as HdW. pose proof (Z.mod_pos_bound (A' * R) (2 ^ 51) ltac:(lia)) as HrW. fold W in HdW.
  assert (0 ≤ W) by (unfold W; apply Z.div_pos; lia). clearbody W A'. pose proof (Z.div_mod W 2 ltac:(lia)) as HdV. pose proof (Z.mod_pos_bound W 2 ltac:(lia)) as HrV.
  unfold y. clear y. set (V := W / 2) in *. clearbody V.
  assert (2 ^ 62 * V ≤ A * R) as HV1 by lia. assert (A * R < 2 ^ 62 * (V + 1)) as HV2 by lia. clear HdW HrW.
  assert (x * V ≤ A * 2 ^ 30) as HxV.
  { assert (4 * x * (2 ^ 62 * V) ≤ 4 * x * (A * R)) by (apply Z.mul_le_mono_nonneg_l; lia). assert (A * (4 * (x * R)) ≤ A * 2 ^ 94) by (apply Z.mul_le_mono_nonneg_l; lia). lia. }
  assert (A * 2 ^ 30 < x * (V + 9)) as HxV'.
  { assert (4 * x * (A * R) < 4 * x * (2 ^ 62 * (V + 1))) by (apply Z.mul_lt_mono_pos_l; lia).
    assert (A * (2 ^ 94 - 8 * x) ≤ A * (4 * (x * R))) by (apply Z.mul_le_mono_nonneg_l; lia).
    assert (8 * x * A ≤ 8 * x * 2 ^ 64) by (apply Z.mul_le_mono_nonneg_l; lia). lia. }
  destruct (sqrt_bounds T ltac:(lia)) as (Hs0 & Hs1 & Hs2). set (s := Z.sqrt T) in *. clearbody s.
  destruct (sqrt_bounds (T * 2 ^ 64) ltac:(lia)) as (HS0 & HS1 & HS2).
  assert (s * 2 ^ 32 ≤ Z.sqrt (T * 2 ^ 64)) as HS3 by (apply sqrt_below; lia).
  assert (Z.sqrt (T * 2 ^ 64) < (s + 1) * 2 ^ 32) as HS4 by (pose proof (sqrt_above (T * 2 ^ 64) ((s + 1) * 2 ^ 32 - 1)); lia).
  set (S := Z.sqrt (T * 2 ^ 64)) in *. clearbody S. set (X := 2 ^ 32 * x). assert (2 ^ 33 * (x * V) ≤ T * 2 ^ 64) as HNV by lia.
  assert (T * 2 ^ 64 < 2 ^ 33 * (x * (V + 9))) as HNV' by lia. pose proof (Z.square_nonneg (X - S)) as Hsq.
  assert (V < 2 ^ 63) as HVb by nia.
  split; [lia|]. split; [|lia]. split.
  - cut (2 * S < 2 * (x * 2 ^ 31 + V) + 18); [lia|]. apply (Z.mul_lt_mono_pos_r X); [lia|]. unfold X in *. lia.
  - cut (2 * (x * 2 ^ 31 + V) - 2 * S < 28); [lia|]. apply (Z.mul_lt_mono_pos_r X); [lia|].
    assert (- (3 * 2 ^ 32) ≤ X - S ≤ 3 * 2 ^ 32) as Hd by (unfold X; lia).
    assert ((X - S) * (X - S) ≤ (3 * 2 ^ 32) * (3 * 2 ^ 32)) by (clear - Hd; nia). unfold X in *. lia.
Qed.

(** [-(uint64_t)x * r << 1] *)
Lemma two_minus x r :
  0 < x < 2 ^ 32 → 2 ^ 62 - x < x * r ≤ 2 ^ 62 → u64 (Z.shiftl (u64 (u64 (- x) * r)) 1) = 2 ^ 64 - 2 * (x * r).
Proof.
  intros Hx Hr. unfold wrap. rewrite Z.mul_mod_idemp_l by lia.
  assert ((- x * r) mod 2 ^ 64 = 2 ^ 64 - x * r) as -> by (symmetry; apply Z.mod_unique with (q := -1); lia).
  rewrite Z.shiftl_mul_pow2 by lia. symmetry. apply Z.mod_unique with (q := 1); lia.
Qed.

(** The middle of [fp64_sqrt]: from the 32-bit estimate to the 64-bit one. *)
Definition refine_64 (a_mnt x : Z) : Z :=
  let r := 2 ^ 62 / x in
  let '(x0, x1) := mul64x32 (u64 (Z.shiftl (u64 (u64 (- x) * r)) 1)) (u32 r) in
  let '(x0, x1) := lsr128 x0 x1 31 in
  let '(x0, x1) := mul62x62 (Z.shiftr a_mnt 10) (Z.shiftr x0 2) in
  let '(x0, x1) := lsl128 x0 x1 5 in
  let '(x0, x1) := lsr128 x0 x1 56 in
  u64 (u64 (Z.shiftl x 31) + Z.shiftr x0 1).

Lemma refine_64_spec A T x :
  A = 2 * T → A mod 2 ^ 10 = 0 → 2 ^ 61 ≤ T < 2 ^ 63 → Z.sqrt T - 1 ≤ x ≤ Z.sqrt T + 3 → 1518500249 ≤ Z.sqrt T < 3037000500 →
  let y := refine_64 A x in Z.sqrt (T * 2 ^ 64) - 9 ≤ y ≤ Z.sqrt (T * 2 ^ 64) + 13 ∧ 2 ^ 62 ≤ Z.sqrt (T * 2 ^ 64) < 2 ^ 64 - 2 ^ 60.
Proof.
  intros HA HA10 HT Hx Hs. unfold refine_64. destruct (recip_64 x ltac:(lia)) as (Hr & Hxr & HR1 & HR & _).
  destruct (newton_64 A T x HA HA10 HT Hx Hs) as (HW & Hy & HS). cbv zeta in *. set (r := 2 ^ 62 / x) in *.
  rewrite (two_minus x r) by lia. set (M := 2 ^ 64 - 2 * (x * r)) in *. rewrite (wrap_small 32 r) by (unfold in_width; lia).
  destruct (mul64x32_spec M r) as [Hw1 Hv1]; [unfold in_width, M; lia..|]. destruct (mul64x32 M r) as [m0 m1].
  destruct (lsr128_spec m0 m1 31 Hw1 ltac:(lia)) as [Hv2 Hw2]. rewrite Hv1 in Hv2. destruct (lsr128 m0 m1 31) as [p0 p1].
  pose proof (low_word (p0, p1) Hw2 ltac:(rewrite Hv2; lia)) as Hp0. cbn [fst] in Hp0. rewrite Hv2 in Hp0. subst p0.
  rewrite (shiftr_div A), (shiftr_div (_ / _)) by lia. change (2 ^ 2) with 4. set (R := M * r / 2 ^ 31 / 4) in *.
  assert (0 ≤ A / 2 ^ 10 < 2 ^ 54) as HA' by (split; [apply Z.div_pos; lia|apply Z.div_lt_upper_bound; lia]).
  destruct (mul62x62_spec (A / 2 ^ 10) R) as (Hv3 & Hw30 & Hw31); [lia|lia|]. destruct (mul62x62 (A / 2 ^ 10) R) as [q0 q1]. cbn [fst snd] in Hw30, Hw31.
  destruct (lsl128_spec q0 q1 5 ltac:(split; cbn [fst snd]; [done|unfold in_width; lia]) ltac:(lia)) as [Hv4 Hw4]. rewrite Hv3 in Hv4.
  assert (0 ≤ A / 2 ^ 10 * R < 2 ^ 116) as HP by (clear - HA' HR; nia). rewrite Z.mod_small in Hv4 by lia. destruct (lsl128 q0 q1 5) as [u0 u1].
  destruct (lsr128_spec u0 u1 56 Hw4 ltac:(lia)) as [Hv5 Hw5]. rewrite Hv4 in Hv5. change (2 ^ 56) with (2 ^ 51 * 2 ^ 5) in Hv5.
  rewrite Z.div_mul_cancel_r in Hv5 by lia. set (W := A / 2 ^ 10 * R / 2 ^ 51) in *. destruct (lsr128 u0 u1 56) as [w0 w1].
  pose proof (low_word (w0, w1) Hw5 ltac:(rewrite Hv5; lia)) as Hw0. cbn [fst] in Hw0. rewrite Hv5 in Hw0. subst w0.
  rewrite shiftr_div, Z.shiftl_mul_pow2 by lia. change (2 ^ 1) with 2. rewrite (wrap_small 64 (x * 2 ^ 31)) by (unfold in_width; lia).
  rewrite wrap_small by (unfold in_width; lia). done.
Qed.

Lemma cmp128_sign x y : wide x → wide y →
  let c := cmp128 x.1 x.2 y.1 y.2 in (0 <? c) = (val128 y <? val128 x) ∧ nz c = negb (val128 x =? val128 y).
Proof.
  intros Hx Hy. cbv zeta. rewrite cmp128_full by done.
  destruct (Z.compare_spec (val128 x) (val128 y)) as [H|H|H]; (split; [symmetry|]); cbn.
  all: first [apply Z.ltb_lt|apply Z.ltb_ge|rewrite (proj2 (Z.eqb_eq _ _) H)|rewrite (proj2 (Z.eqb_neq _ _)) by lia]; lia || done.
Qed.

Lemma fp64_sqrt_ref a N D mode flags :
  Z.land mode FPLIB_FZ = 0 → (0 < mag F64 a → near_root (mag F64 a * 2 ^ unit_exp F64) N D) →
  fp64_sqrt a mode flags = Ok (sqrt_ref F64 a N D mode flags).
Proof.
  intros Hfz HN. unfold fp64_sqrt, fp64_unpack. rewrite (fp_unpack_spec F64) by (done || apply wf_F64).
  cbv beta iota. fold (unpack_of F64 a). apply (sqrt_ref_intro F64 a N D mode flags (λ flags, _)); [apply wf_F64|]. intros Ha _. specialize (HN Ha). cbn [sgn exp mnt unpack_of].
  destruct (signif_range F64 a wf_F64) as (Hma & _ & Hea). change (2 ^ (mbits F64 + 1)) with (2 ^ 53) in *. unfold mag in *. change (unit_exp F64) with 1074 in *.
  set (ma := signif F64 a) in *. set (ea := expo F64 a) in *. pose proof (pow2_pos (ea - 1) ltac:(lia)). assert (0 < ma) by nia.
  unfold fp64_normalise. destruct (normalise_spec F64 ma ea wf_F64) as (t & Ht & -> & HA); [change (width F64) with 64; lia|].
  change (width F64 - 1) with 63 in HA. change (width F64) with 64 in HA.
  destruct (even_significand 64 ma t ea (Z.odd (ea - t)) ltac:(lia) Ht ltac:(lia) HA) as (Hr & k & Hk & Hm & He & Hkt).
  destruct (if Z.odd (ea - t) then _ else _) as [am ae]. cbn [fst snd] in Hr, Hm, He. change (64 - 2) with 62 in Hr.
  assert (Z.even ae = true) as Heven.
  { rewrite He, Hkt. destruct (Z.odd (ea - t)) eqn:Ho; [|by rewrite <- Z.negb_odd, Ho].
    replace (ea - (t - 1)) with (Z.succ (ea - t)) by lia. by rewrite Z.even_succ. }
  assert (t ≤ 63). { apply Z.nlt_ge. intros Hlt. assert (2 ^ 64 ≤ 2 ^ t) by (apply Z.pow_le_mono_r; lia). nia. }
  assert (am mod 2 ^ 10 = 0 ∧ am ≤ 2 ^ 64 - 2 ^ 11) as [Ham Ham'].
  { assert (10 ≤ k) as Hk10. { apply Z.nlt_ge. intros Hlt. assert (2 ^ k ≤ 2 ^ 9) by (apply Z.pow_le_mono_r; lia). nia. }
    clear - Hma Hm Hr Hk10. replace k with (k - 10 + 10) in Hm by lia. rewrite Z.pow_add_r, Z.mul_assoc in Hm by lia.
    split; [rewrite Hm; by apply Z.mod_mul|]. destruct (decide (k = 10)) as [->|]; [change (2 ^ (10 - 10)) with 1 in Hm; lia|].
    replace (k - 10) with (Z.succ (k - 11)) in Hm by lia. rewrite Z.pow_succ_r in Hm by lia. lia. }
  apply Z.even_spec in Heven as [h Hh]. pose proof (Z.div_mod am (2 ^ 10) ltac:(lia)) as Hd10. rewrite Ham, Z.add_0_r in Hd10.
  set (T := 2 ^ 9 * (am / 2 ^ 10)). assert (am = 2 * T) as HT by (unfold T; lia). clearbody T.
  destruct (estimate_32_spec am T HT ltac:(lia)) as (He0 & Hs0 & He1 & Hs1 & He2 & Hp2 & He3 & Hs).
  cbv zeta in He0, Hs0, He1, Hs1, He2, Hp2. set (a32 := am / 2 ^ 32) in *.
  assert (Z.shiftr am 34 + Z.shiftr am 35 + 5 * 2 ^ 28 = estimate_0 a32) as ->.
  { unfold estimate_0, a32. rewrite !shiftr_div, !Z.div_div by lia. done. }
  rewrite (wrap_small 32 (estimate_0 a32)) by done. rewrite (shiftr_div am 32) by lia. fold a32.
  rewrite !(shiftr_div (estimate_0 a32)) by lia. fold (step_16 a32 (estimate_0 a32)). rewrite (Z.shiftl_mul_pow2 (step_16 _ _)) by lia. fold (estimate_1 a32).
  rewrite (wrap_small 32 (estimate_1 a32)) by done. rewrite !(shiftr_div (estimate_1 a32)) by lia. fold (step_16 a32 (estimate_1 a32)).
  rewrite (Z.shiftl_mul_pow2 (step_16 _ _)) by lia. fold (estimate_2 a32). rewrite (wrap_small 32 (estimate_2 a32)) by done.
  rewrite (shiftr_div (estimate_2 a32)), (shiftr_div (_ / _)) by lia. change (2 ^ 1) with 2.
  change (am / estimate_2 a32 / 2 ^ 2 + estimate_2 a32 / 2) with (estimate_32 am).
  set (x := estimate_32 am) in *. clearbody x. rewrite (wrap_small 32 x) by (unfold in_width; lia). clear He0 Hs0 He1 Hs1 He2 Hp2.
  destruct (refine_64_spec am T x HT Ham ltac:(lia) He3 Hs) as [Hy HS]. cbv zeta in Hy. unfold refine_64 in Hy.
  repeat match type of Hy with context [let '(_, _) := ?p in _] => destruct p as [??] end.
  set (y := u64 (u64 (Z.shiftl x 31) + _)) in *. clearbody y. cbv zeta. rewrite (wrap_small 64 (y - 2 ^ 8)) by (unfold in_width; lia).
  rewrite (shiftr_div (y - 2 ^ 8)) by lia.
  destruct (candidate (am * 2 ^ 45) 9 y) as [HF0 HF];
    [lia|lia|rewrite ?HT; change (2 ^ (2 * 9)) with (2 ^ 18); replace (2 * T * 2 ^ 45 * 2 ^ 18) with (T * 2 ^ 64) by lia; change (2 ^ (9 - 1)) with 256; lia..|].
  change (2 ^ (9 - 1)) with (2 ^ 8) in HF0, HF. set (F := (y - 2 ^ 8) / 2 ^ 9) in *. assert (F < 2 ^ 55) by (apply Z.div_lt_upper_bound; lia).
  destruct (corrected (am * 2 ^ 45) F HF0 HF) as [Hq Hex]. clearbody F.
  rewrite (wrap_small 64 (F + 1)) by (unfold in_width; lia). replace (F + 1 - 1) with F by lia. rewrite (wrap_small 64 F) by (unfold in_width; lia).
  destruct (mul62x62_spec (F + 1) (F + 1)) as (Hv1 & Hw10 & Hw11); [lia|lia|]. destruct (mul62x62 (F + 1) (F + 1)) as [m0 m1]. cbn [fst snd] in Hw10, Hw11.
  destruct (lsl128_spec m0 m1 19 ltac:(split; cbn [fst snd]; [done|unfold in_width; lia]) ltac:(lia)) as [Hv2 Hw2]. rewrite Hv1 in Hv2.
  assert (0 ≤ (F + 1) * (F + 1) < 2 ^ 109) as HFF.
  { assert (F < 25476206690103093) by (apply Z.nle_gt; intros Hge; assert (25476206690103093 * 25476206690103093 ≤ F * F) by (apply Z.mul_le_mono_nonneg; lia); lia).
    split; [apply Z.square_nonneg|lia]. }
  rewrite Z.mod_small in Hv2 by lia. destruct (lsl128 m0 m1 19) as [c0 c1].
  destruct (cmp128_sign (c0, c1) (0, am) Hw2 ltac:(split; unfold in_width; cbn [fst snd]; lia)) as [Hc1 Hc2]. cbn [fst snd] in Hc1, Hc2.
  set (c := cmp128 c0 c1 0 am) in *. clearbody c. rewrite Hv2 in Hc1, Hc2. unfold val128 in Hc1, Hc2. cbn [fst snd] in Hc1, Hc2.
  assert ((0 <? c) = (am * 2 ^ 45 <? (F + 1) * (F + 1))) as Hlt.
  { rewrite Hc1. destruct (Z.ltb_spec (0 + 2 ^ 64 * am) ((F + 1) * (F + 1) * 2 ^ 19)), (Z.ltb_spec (am * 2 ^ 45) ((F + 1) * (F + 1))); done || lia. }
  assert (nz c = negb ((F + 1) * (F + 1) =? am * 2 ^ 45)) as Hne.
  { rewrite Hc2. f_equal. destruct (Z.eqb_spec ((F + 1) * (F + 1) * 2 ^ 19) (0 + 2 ^ 64 * am)), (Z.eqb_spec ((F + 1) * (F + 1)) (am * 2 ^ 45)); done || lia. }
  unfold nzi. rewrite Hlt, Hne, Hex. set (q := if am * 2 ^ 45 <? (F + 1) * (F + 1) then F else F + 1) in *.
  assert (2 ^ 53 ≤ q < 2 ^ 55) as Hqr.
  { rewrite Hq. split; [apply sqrt_below; lia|]. pose proof (sqrt_above (am * 2 ^ 45) (2 ^ 55 - 1)). lia. }
  clearbody q. clear Hc1 Hc2 Hlt Hne Hv1 Hv2 Hw2 Hex HF HFF Hy HS He3 Hs. rewrite shiftr_div by lia. change (2 ^ 1) with 2.
  assert ((ae + 1053) / 2 = h + 526) as -> by (symmetry; apply Z.div_unique with (r := 1); lia).
  destruct (normalise_spec F64 q (h + 526) wf_F64) as (tq & Htq & -> & HQ); [change (width F64) with 64; lia|].
  change (width F64 - 1) with 63 in HQ. change (width F64) with 64 in HQ.
  assert (tq < 11). { apply Z.nle_gt. intros Hge. assert (2 ^ 11 ≤ 2 ^ tq) by (apply Z.pow_le_mono_r; lia). nia. }
  unfold fp64_round. apply (sqrt_round F64 (h + 526 - tq) q tq (am * 2 ^ 45) (h + 514)); try done; try lia;
    change (width F64) with 64; change (mbits F64) with 52; [apply wf_F64|lia..|].
  replace (am * 2 ^ 45 * 2 ^ (2 * (h + 514))) with (ma * 2 ^ (ea - 1) * 2 ^ 1074); [done|].
  rewrite Hm, <- !Z.mul_assoc, <- !Z.pow_add_r by lia. do 2 f_equal. lia.
Qed.

End FplibSqrt.
