(* ===== verification/FplibConvProofs.v ===== *)
(** * Correct conversions

    Narrowing conversions round the exact value once, widening conversions are exact, and
    narrowing undoes widening.  Conversions to integers and fixed point round the exact value and saturate;
    conversions from fixed point round it once. *)

From S2P Require Import Prelude Fplib FplibOps FplibApi FplibConv FplibRound FplibArith FplibMul.

Open Scope Z_scope.

Module FplibConvProofs.
Import Fplib FplibOps FplibApi FplibConv FplibRound FplibArith FplibMul.

(** ** Packing *)

(** A packed word as a sum of its fields. *)
Lemma fp_pack_sum f s e m :
  wf_format f → (s = 0 ∨ s = 1) → 0 ≤ e ≤ emax f →
  fp_pack f s e m = s * 2 ^ (width f - 1) + e * 2 ^ mbits f + m mod 2 ^ mbits f ∧ in_width (width f) (fp_pack f s e m).
Proof.
  intros Hf Hs He. destruct Hf as [? ? Hw _ Hem _]. unfold fp_pack. rewrite land_low by lia.
  pose proof (pow2_pos (mbits f) ltac:(lia)) as HM. pose proof (Z.mod_pos_bound m (2 ^ mbits f) HM) as Hm.
  set (k := width f - mbits f - 1) in *.
  assert (2 ^ (width f - 1) = 2 ^ k * 2 ^ mbits f) as Hk by (rewrite <- Z.pow_add_r by lia; f_equal; lia).
  assert (2 ^ width f = 2 * 2 ^ (width f - 1)) as HW by (rewrite <- Z.pow_succ_r by lia; f_equal; lia).
  assert (1 ≤ 2 ^ (width f - 1)) by (pose proof (pow2_pos (width f - 1) ltac:(lia)); lia).
  assert (0 ≤ e * 2 ^ mbits f + m mod 2 ^ mbits f < 2 ^ (width f - 1)) by nia.
  assert (2 ^ k ≤ 2 ^ (width f - 1)) by (apply Z.pow_le_mono_r; lia).
  rewrite (wrap_small (width f) s), (wrap_small (width f) e) by (unfold in_width; lia).
  rewrite !Z.shiftl_mul_pow2 by lia.
  rewrite <- Z.lor_assoc, (Z.lor_comm (e * _)), (lor_parts (mbits f)) by lia.
  rewrite Z.lor_comm, (lor_parts (width f - 1)) by (destruct Hs; lia).
  rewrite wrap_small by (unfold in_width; destruct Hs as [-> | ->]; lia). split; [lia|].
  unfold in_width. destruct Hs as [-> | ->]; lia.
Qed.

Lemma fp_pack_fields f s e m :
  wf_format f → (s = 0 ∨ s = 1) → 0 ≤ e ≤ emax f →
  sign f (fp_pack f s e m) = s ∧ raw_exp f (fp_pack f s e m) = e ∧ raw_mnt f (fp_pack f s e m) = m mod 2 ^ mbits f.
Proof.
  intros Hf Hs He. destruct (fp_pack_sum f s e m Hf Hs He) as [-> _]. destruct Hf as [? ? Hw _ Hem _].
  pose proof (pow2_pos (mbits f) ltac:(lia)) as HM. pose proof (Z.mod_pos_bound m (2 ^ mbits f) HM) as Hm.
  set (r := m mod 2 ^ mbits f) in *. set (k := width f - mbits f - 1) in *.
  assert (2 ^ (width f - 1) = 2 ^ k * 2 ^ mbits f) as Hk by (rewrite <- Z.pow_add_r by lia; f_equal; lia).
  assert (0 ≤ e * 2 ^ mbits f + r < 2 ^ (width f - 1)) by nia.
  unfold sign, raw_exp, raw_mnt. rewrite !shiftr_div, Hem, !land_low by lia. split_and!.
  - symmetry. apply Z.div_unique with (r := e * 2 ^ mbits f + r); lia.
  - replace (s * 2 ^ (width f - 1) + e * 2 ^ mbits f + r) with (r + (s * 2 ^ k + e) * 2 ^ mbits f) by (rewrite Hk; ring).
    rewrite Z.div_add, Z.div_small by lia. rewrite Z.add_0_l, Z.add_comm, Z.mod_add, Z.mod_small by lia. done.
  - replace (s * 2 ^ (width f - 1) + e * 2 ^ mbits f + r) with (r + (s * 2 ^ k + e) * 2 ^ mbits f) by (rewrite Hk; ring).
    rewrite Z.mod_add by lia. by apply Z.mod_small.
Qed.

(** A word is the packing of its fields. *)
Lemma fp_pack_unpack f x :
  wf_format f → in_width (width f) x → fp_pack f (sign f x) (raw_exp f x) (signif f x) = x.
Proof.
  intros Hf Hx. pose proof (sign_range f x Hf Hx) as Hs. pose proof (raw_exp_range f x Hf) as He.
  destruct (fp_pack_sum f (sign f x) (raw_exp f x) (signif f x) Hf Hs He) as [-> _].
  pose proof (raw_mnt_range f x Hf) as Hr. assert (signif f x mod 2 ^ mbits f = raw_mnt f x) as ->.
  { unfold signif. destruct (_ =? 0); [by apply Z.mod_small|].
    rewrite <- Z.add_mod_idemp_l, Z.mod_same, Z.add_0_l by lia. by apply Z.mod_small. }
  destruct Hf as [? ? Hw _ Hem _]. unfold sign, raw_exp, raw_mnt. rewrite Hem, !shiftr_div, !land_low by lia.
  pose proof (pow2_pos (mbits f) ltac:(lia)). set (k := width f - mbits f - 1) in *. pose proof (pow2_pos k ltac:(lia)).
  replace (2 ^ (width f - 1)) with (2 ^ mbits f * 2 ^ k) by (rewrite <- Z.pow_add_r by lia; f_equal; lia).
  rewrite <- Z.div_div by lia. pose proof (Z.div_mod x (2 ^ mbits f) ltac:(lia)).
  pose proof (Z.div_mod (x / 2 ^ mbits f) (2 ^ k) ltac:(lia)). nia.
Qed.

(** Encoding a magnitude gives the word that has it. *)
Lemma encode_mag f x :
  wf_format f → in_width (width f) x → raw_exp f x ≠ emax f →
  encode f (sign f x) (mag f x) = x ∧ mag f x < too_large f.
Proof.
  intros Hf Hx Hfin. pose proof (raw_exp_range f x Hf). pose proof (raw_mnt_range f x Hf) as Hr.
  pose proof (wf_mbits f Hf). assert (canonical f (raw_exp f x) (signif f x)) as Hc.
  { unfold canonical, signif. rewrite Z.pow_add_r by lia. change (2 ^ 1) with 2. destruct (Z.eqb_spec (raw_exp f x) 0); [left|right]; lia. }
  assert (mag f x = magnitude (raw_exp f x) (signif f x)) as ->.
  { unfold mag, magnitude, expo. do 2 f_equal. lia. }
  rewrite canonical_encode by done. split; [by apply fp_pack_unpack|].
  pose proof (canonical_too_large f _ _ Hf Hc) as Ht. destruct (Z.leb_spec (emax f) (raw_exp f x)); [lia|].
  by apply Z.leb_gt in Ht.
Qed.

(** ** Exact values *)

(** A representable value is not changed by rounding. *)
Lemma round_exact f rm sg x D flags :
  wf_format f → in_width (width f) x → raw_exp f x ≠ emax f → 0 < D →
  sg = sign f x → round_spec f rm sg (mag f x * D) D flags = (x, flags).
Proof.
  intros Hf Hx Hfin HD ->. destruct (encode_mag f x Hf Hx Hfin) as [Henc Hlt].
  pose proof (wf_mbits f Hf). destruct (signif_range f x Hf) as (Hs & Hn & He).
  pose proof (mag_nonneg f x Hf).
  assert (ulp_exp f (mag f x * D) D = expo f x - 1) as Hu.
  { unfold ulp_exp. rewrite Z.div_mul by lia. unfold mag. destruct (decide (1 < expo f x)) as [Hn1|Hn1].
    - specialize (Hn Hn1). rewrite Z.log2_mul_pow2 by (pose proof (pow2_pos (mbits f)); lia).
      rewrite (Z.log2_unique (signif f x) (mbits f)); [lia|lia|]. replace (Z.succ (mbits f)) with (mbits f + 1) by lia. lia.
    - assert (expo f x = 1) as -> by lia. rewrite Z.sub_diag, Z.pow_0_r, Z.mul_1_r.
      assert (Z.log2 (signif f x) < mbits f + 1); [|lia].
      destruct (decide (signif f x = 0)) as [->|]; [cbn; lia|]. apply Z.log2_lt_pow2; lia. }
  set (u := 2 ^ (expo f x - 1)). assert (0 < u) by (apply pow2_pos; lia).
  assert ((mag f x * D) mod (D * u) = 0 ∧ mag f x * D / (D * u) = signif f x) as [Hmod Hdiv].
  { unfold mag. fold u. replace (signif f x * u * D) with (signif f x * (D * u)) by ring.
    split; [apply Z.mod_mul; nia|apply Z.div_mul; nia]. }
  assert (rnd f rm (sign f x) (mag f x * D) D = mag f x) as Hr.
  { unfold rnd. rewrite Hu. fold u. rewrite Hmod, Hdiv. unfold mag. f_equal. unfold rounded, excess, round_up. cbn.
    rewrite !andb_false_r. cbn. destruct (rm =? FPRounding_ODD); lia. }
  assert (inexact f (mag f x * D) D = false) as Hi by (unfold inexact; rewrite Hu; fold u; by rewrite Hmod).
  unfold round_spec. rewrite Hr, Hi, andb_false_r. destruct (Z.leb_spec (too_large f) (mag f x)); [lia|]. by rewrite Henc.
Qed.

(** ** Narrowing *)

(** The code's test of the bits that a narrowing shift loses. *)
Lemma lost_bits w m s : 0 ≤ s ≤ w → nzi (wrap w (Z.shiftl m (w - s))) = nzi (m mod 2 ^ s).
Proof.
  intros Hs. rewrite Z.shiftl_mul_pow2 by lia. unfold wrap, nzi, nz. do 2 f_equal.
  replace (2 ^ w) with (2 ^ s * 2 ^ (w - s)) by (rewrite <- Z.pow_add_r by lia; f_equal; lia).
  pose proof (pow2_pos s ltac:(lia)). pose proof (pow2_pos (w - s) ltac:(lia)). rewrite Z.mul_mod_distr_r by lia.
  destruct (Z.eqb_spec (m mod 2 ^ s) 0), (Z.eqb_spec (m mod 2 ^ s * 2 ^ (w - s)) 0); nia || done.
Qed.

Lemma narrow_round f g a sg rm mode flags :
  wf_format f → wf_format g → width g ≤ mbits f → mbits g + 3 ≤ bias f - bias g →
  0 < signif f a → rm ≠ FPRounding_TIEAWAY → Z.land mode FPLIB_FZ = 0 →
  let s := mbits f - width g in
  fp_round_ g sg (expo f a - bias f + bias g)
    (wrap (width g) (Z.lor (Z.shiftr (signif f a) s) (nzi (wrap (width f) (Z.shiftl (signif f a) (width f - s)))))) rm mode flags =
  Ok (round_spec g rm sg (mag f a) (2 ^ (unit_exp f - unit_exp g)) flags).
Proof.
  intros Hf Hg Hwg Hb Hpos Hrm Hfz s. destruct (signif_range f a Hf) as (Hs & Hn & He).
  pose proof (wf_mbits g Hg). pose proof (wf_width g Hg). pose proof (wf_drop g Hg). pose proof (wf_width f Hf). pose proof (wf_drop f Hf).
  rewrite lost_bits, shiftr_div by lia. change (Z.lor _ _) with (sticky (signif f a) s). set (m := signif f a) in *.
  assert (unit_exp f - unit_exp g = bias f - bias g + mbits f - mbits g) as -> by (unfold unit_exp, bias; lia).
  pose proof (wrap_range (width g) (sticky m s) ltac:(lia)) as Hmnt.
  destruct (decide (1 < expo f a)) as [Hn1|Hn1].
  - specialize (Hn Hn1). fold m in Hn. pose proof (sticky_lt m s (width g + 1) ltac:(lia) ltac:(lia) ltac:(lia)) as Hlt.
    replace (width g + 1 + s) with (mbits f + 1) in Hlt by lia. specialize (Hlt ltac:(lia)).
    rewrite Z.pow_add_r in Hlt by lia. change (2 ^ 1) with 2 in Hlt.
    assert (2 ^ width g ≤ sticky m s) as Hge.
    { pose proof (pow2_pos s ltac:(lia)). assert (2 ^ width g ≤ m / 2 ^ s) as Hq.
      { apply Z.div_le_lower_bound; [lia|]. rewrite <- Z.pow_add_r by lia. by replace (s + width g) with (mbits f) by lia. }
      unfold sticky. apply (lor_bit_range (m / 2 ^ s) (nz (m mod 2 ^ s)) (width g)) in Hq; [|lia]. unfold nzi. lia. }
    assert (2 ^ width g + wrap (width g) (sticky m s) = sticky m s) as Hbig.
    { unfold wrap. rewrite <- (Z.mod_unique (sticky m s) (2 ^ width g) 1 (sticky m s - 2 ^ width g)); lia. }
    apply (fp_round_correct g sg _ _ rm mode flags 0); try done; [by apply pow2_pos; lia|lia|].
    exists (bias f - bias g + mbits f). split_and!; [lia|lia|]. rewrite Hbig. unfold mag. fold m.
    set (e := expo f a) in *.
    replace (2 ^ (e - bias f + bias g - 1 - (width g - mbits g) + (bias f - bias g + mbits f)) * 2 ^ (bias f - bias g + mbits f - mbits g))
      with (2 ^ s * 2 ^ (e - 1 + (bias f - bias g + mbits f))).
    + rewrite <- Z.mul_assoc, <- Z.pow_add_r by lia. apply near_scale; [apply pow2_pos; lia|]. apply sticky_near; lia.
    + rewrite <- !Z.pow_add_r by lia. f_equal. lia.
  - apply fp_round_tiny; try done; [lia|unfold mag; fold m; assert (expo f a = 1) as -> by lia; cbn; lia|].
    unfold mag. fold m. assert (expo f a = 1) as -> by lia. rewrite Z.sub_diag, Z.pow_0_r, Z.mul_1_r.
    apply Z.lt_le_trans with (2 ^ (mbits f + 2)).
    + replace (mbits f + 2) with (Z.succ (mbits f + 1)) by lia. rewrite Z.pow_succ_r by lia. lia.
    + apply Z.pow_le_mono_r; lia.
Qed.

Lemma fp16_round_same sg e mnt rm mode flags :
  Z.land mode FPLIB_AHP = 0 → fp16_round_ sg e mnt rm mode flags = fp_round_ F16 sg e mnt rm 0 flags.
Proof. intros H. unfold fp16_round_, fp_round_. rewrite H. reflexivity. Qed.

(** ** The mode *)

Lemma modeConv_fz fpscr : fpscr_fz fpscr = false → Z.land (modeConv fpscr) FPLIB_FZ = 0.
Proof.
  intros Hfz. unfold modeConv, FPLIB_FZ, fpscr_fz in *. apply Z.bits_inj_iff'. intros i Hi.
  rewrite !Z.land_spec, Z.bits_0, Z.shiftr_spec by done. change 4 with (2 ^ 2). rewrite Z.pow2_bits_eqb by lia.
  destruct (Z.eqb_spec 2 i) as [<-|]; [|apply andb_false_r]. change (2 + 22) with 24. by rewrite Hfz.
Qed.

Lemma modeConv_ahp fpscr : Z.land (modeConv fpscr) FPLIB_AHP = 0.
Proof. unfold modeConv, FPLIB_AHP. rewrite <- Z.land_assoc. by rewrite Z.land_0_r. Qed.

Lemma set_fpscr0_none fpscr : set_fpscr0 fpscr 0 = fpscr.
Proof. done. Qed.

(** ** Narrowing conversions *)

(** The conversion of a finite number: the exact value, rounded once. *)
Definition convert_ref (f g : format) (op rounding : Z) : Z * Z :=
  if mag f op =? 0 then (fp_zero g (sign f op), 0)
  else round_spec g rounding (sign f op) (mag f op) (2 ^ (unit_exp f - unit_exp g)) 0.

Definition finite (f : format) (x : Z) : Prop := in_width (width f) x ∧ raw_exp f x ≠ emax f.

Lemma finite_not_special f x : wf_format f → finite f x →
  nan_bits f (mkUnpacked (sign f x) (expo f x) (signif f x)) = false ∧ (expo f x =? emax f) = false.
Proof.
  intros Hf [_ Hfin]. rewrite expo_emax by done. pose proof (nan_bits_spec f x Hf) as Hn. unfold unpack_of in Hn.
  rewrite Hn. unfold is_NaN. destruct (Z.eqb_spec (raw_exp f x) (emax f)); [done|]. done.
Qed.

Lemma convert_64_32_ref op rounding fpscr :
  finite F64 op → fpscr_fz fpscr = false → rounding ≠ FPRounding_TIEAWAY →
  fplibConvert_64_32 op rounding fpscr = with_flags fpscr (Ok (convert_ref F64 F32 op rounding)).
Proof.
  intros Hop Hfz Hrm. pose proof (modeConv_fz _ Hfz) as Hm. unfold fplibConvert_64_32, fp64_unpack.
  rewrite (fp_unpack_spec F64) by (done || apply wf_F64). destruct (finite_not_special F64 op wf_F64 Hop) as [Hn He].
  cbn [sgn exp mnt]. rewrite Hn. change 2047 with (emax F64). rewrite He. unfold convert_ref, nz. rewrite negb_involutive, signif_0 by apply wf_F64.
  destruct (Z.eqb_spec (mag F64 op) 0) as [|Hne]; [done|]. f_equal.
  destruct (signif_range F64 op wf_F64) as (Hs & _ & _). pose proof (signif_0 F64 op wf_F64) as H0.
  destruct (Z.eqb_spec (signif F64 op) 0), (Z.eqb_spec (mag F64 op) 0); try done.
  apply (narrow_round F64 F32); try done; [apply wf_F64|apply wf_F32|lia].
Qed.

Lemma convert_16_ref f op rounding fpscr :
  wf_format f → 16 ≤ mbits f → 28 ≤ bias f → finite f op → fpscr_fz fpscr = false → fpscr_ahp fpscr = false →
  rounding ≠ FPRounding_TIEAWAY →
  fplibConvert_16 f op rounding fpscr = with_flags fpscr (Ok (convert_ref f F16 op rounding)).
Proof.
  intros Hf HM Hb Hop Hfz Hahp Hrm. pose proof (modeConv_fz _ Hfz) as Hm. unfold fplibConvert_16.
  rewrite (fp_unpack_spec f) by done. destruct (finite_not_special f op Hf Hop) as [Hn He].
  cbn [sgn exp mnt]. rewrite Hn, He, Hahp. unfold convert_ref, nz. rewrite negb_involutive, signif_0 by done.
  destruct (signif_range f op Hf) as (Hs & _ & _). pose proof (signif_0 f op Hf) as H0.
  destruct (Z.eqb_spec (mag f op) 0) as [|Hne]; [done|]. f_equal.
  rewrite fp16_round_same by (change (Z.shiftl (Z.b2z false) 4) with 0; rewrite Z.lor_0_r; apply modeConv_ahp).
  destruct (Z.eqb_spec (signif f op) 0); [done|].
  apply (narrow_round f F16); try done; [apply wf_F16|change (bias F16) with 15; cbn; lia|lia].
Qed.

(** ** Widening conversions *)

Lemma widen_pack f g a m e :
  wf_format f → wf_format g → width f - 1 ≤ mbits g → mbits f ≤ bias g - bias f → emax f = 2 * bias f + 1 → emax g = 2 * bias g + 1 →
  in_width (width f) a → 0 < signif f a → fp_normalise f (signif f a) (expo f a) = (m, e) →
  let r := fp_pack g (sign f a) (e - bias f + bias g + (width f - mbits f - 1)) (wrap (width g) (Z.shiftl m (mbits g - (width f - 1)))) in
  finite g r ∧ sign g r = sign f a ∧ mag g r = mag f a * 2 ^ (unit_exp g - unit_exp f).
Proof.
  intros Hf Hg Hw Hb Hef Heg Ha Hpos Hnorm. cbv zeta. destruct (signif_range f a Hf) as (Hs & Hn & He).
  pose proof (sign_range f a Hf Ha) as Hsg.
  pose proof (wf_mbits f Hf). pose proof (wf_width f Hf). pose proof (wf_drop f Hf).
  pose proof (wf_mbits g Hg). pose proof (wf_width g Hg). pose proof (wf_drop g Hg).
  destruct (normalise_spec f (signif f a) (expo f a) Hf) as (t & Ht & Heq & Hr).
  { split; [done|]. apply Z.lt_le_trans with (2 ^ (mbits f + 1)); [lia|]. apply Z.pow_le_mono_r; lia. }
  rewrite Hnorm in Heq. injection Heq as -> ->. set (ma := signif f a) in *. set (ea := expo f a) in *.
  assert (width f - mbits f - 1 ≤ t) as Ht1.
  { apply Z.nlt_ge. intros Hlt. assert (2 ^ t ≤ 2 ^ (width f - mbits f - 2)) by (apply Z.pow_le_mono_r; lia).
    assert (2 ^ (width f - 1) = 2 ^ (mbits f + 1) * 2 ^ (width f - mbits f - 2)) by (rewrite <- Z.pow_add_r by lia; f_equal; lia).
    pose proof (pow2_pos (width f - mbits f - 2) ltac:(lia)). pose proof (pow2_pos t Ht). nia. }
  assert (t ≤ width f - 1) as Ht2.
  { apply Z.nlt_ge. intros Hlt. assert (2 ^ width f ≤ 2 ^ t) by (apply Z.pow_le_mono_r; lia). nia. }
  set (k := mbits g - (width f - 1)) in *. rewrite Z.shiftl_mul_pow2 by lia.
  assert (2 ^ mbits g = 2 ^ (width f - 1) * 2 ^ k) as Hk by (rewrite <- Z.pow_add_r by lia; f_equal; lia).
  assert (2 ^ width f = 2 * 2 ^ (width f - 1)) as HW by (rewrite <- Z.pow_succ_r by lia; f_equal; lia).
  pose proof (pow2_pos k ltac:(lia)).
  assert (2 ^ mbits g ≤ ma * 2 ^ t * 2 ^ k < 2 * 2 ^ mbits g) as Hm by nia.
  assert (2 * 2 ^ mbits g ≤ 2 ^ width g) by (rewrite <- Z.pow_succ_r by lia; apply Z.pow_le_mono_r; lia).
  rewrite wrap_small by (unfold in_width; lia). set (E := ea - t - bias f + bias g + (width f - mbits f - 1)) in *.
  assert (1 ≤ E < emax g) as HE by lia.
  destruct (fp_pack_sum g (sign f a) E (ma * 2 ^ t * 2 ^ k) Hg Hsg ltac:(lia)) as [_ Hrw].
  destruct (fp_pack_fields g (sign f a) E (ma * 2 ^ t * 2 ^ k) Hg Hsg ltac:(lia)) as (Hrs & Hre & Hrm).
  set (r := fp_pack g _ _ _) in *.
  split; [split; [done|lia]|]. split; [done|]. unfold mag, signif, expo. rewrite Hre, Hrm.
  destruct (Z.eqb_spec E 0); [lia|]. rewrite Z.max_r by lia.
  rewrite <- (Z.mod_unique (ma * 2 ^ t * 2 ^ k) (2 ^ mbits g) 1 (ma * 2 ^ t * 2 ^ k - 2 ^ mbits g)) by lia.
  replace (2 ^ mbits g + (ma * 2 ^ t * 2 ^ k - 2 ^ mbits g)) with (ma * 2 ^ t * 2 ^ k) by ring. fold (signif f a) (expo f a) ma ea.
  rewrite <- !Z.mul_assoc. unfold unit_exp. fold (bias f) (bias g). rewrite <- !Z.pow_add_r by lia. do 2 f_equal. lia.
Qed.

(** A word that holds [v] in a larger format: a number with the same value, or the infinity or
    zero of the same sign. *)
Definition widens (f g : format) (x y : Z) : Prop :=
  in_width (width g) y ∧ sign g y = sign f x ∧ is_NaN g y = false ∧ is_inf g y = is_inf f x ∧
  (is_inf f x = false → mag g y = mag f x * 2 ^ (unit_exp g - unit_exp f)).

Lemma widens_infinity f g x :
  wf_format g → (sign f x = 0 ∨ sign f x = 1) → is_inf f x = true → widens f g x (fp_infinity g (sign f x)).
Proof.
  intros Hg Hs Hi. pose proof (emax_pos g Hg). unfold fp_infinity.
  destruct (fp_pack_sum g (sign f x) (emax g) 0 Hg Hs ltac:(lia)) as [_ Hw].
  destruct (fp_pack_fields g (sign f x) (emax g) 0 Hg Hs ltac:(lia)) as (Hsg & He & Hm).
  rewrite Z.mod_0_l in Hm by (pose proof (pow2_pos (mbits g) ltac:(pose proof (wf_mbits g Hg); lia)); lia).
  unfold widens, is_NaN, is_inf at 1. rewrite Hsg, He, Hm, Hi, Z.eqb_refl. split_and!; [apply Hw..|done|done|done|done].
Qed.

Lemma widens_zero f g x :
  wf_format g → (sign f x = 0 ∨ sign f x = 1) → is_inf f x = false → mag f x = 0 → widens f g x (fp_zero g (sign f x)).
Proof.
  intros Hg Hs Hi Hz. pose proof (emax_pos g Hg). unfold fp_zero.
  destruct (fp_pack_sum g (sign f x) 0 0 Hg Hs ltac:(lia)) as [_ Hw].
  destruct (fp_pack_fields g (sign f x) 0 0 Hg Hs ltac:(lia)) as (Hsg & He & Hm).
  rewrite Z.mod_0_l in Hm by (pose proof (pow2_pos (mbits g) ltac:(pose proof (wf_mbits g Hg); lia)); lia).
  unfold widens, is_NaN, is_inf at 1, mag, signif at 1, expo at 1. rewrite Hsg, He, Hm, Hi.
  destruct (Z.eqb_spec 0 (emax g)); [lia|]. fold (mag f x). rewrite Hz. split_and!; [apply Hw..|done|done|done|done].
Qed.

Lemma finite_widens f g x y :
  finite g y → sign g y = sign f x → is_inf f x = false →
  mag g y = mag f x * 2 ^ (unit_exp g - unit_exp f) → widens f g x y.
Proof.
  intros [Hw He] Hs Hi Hm. unfold widens, is_NaN, is_inf at 1. rewrite Hi.
  destruct (Z.eqb_spec (raw_exp g y) (emax g)); [done|]. split_and!; [apply Hw..|done|done|done|done].
Qed.

Lemma not_NaN_inf_raw f x : is_NaN f x = false → is_inf f x = (raw_exp f x =? emax f).
Proof. unfold is_NaN, is_inf. intros H. destruct (_ =? _); [|done]. cbn [andb] in *. by rewrite H. Qed.

Lemma convert_32_64_widens x rounding fpscr :
  in_width 32 x → is_NaN F32 x = false → fpscr_fz fpscr = false →
  ∃ y, fplibConvert_32_64 x rounding fpscr = (y, fpscr) ∧ widens F32 F64 x y.
Proof.
  intros Hx Hn Hfz. pose proof (modeConv_fz _ Hfz) as Hm. unfold fplibConvert_32_64, fp32_unpack.
  rewrite (fp_unpack_spec F32) by (done || apply wf_F32). fold (unpack_of F32 x). rewrite nan_bits_spec, Hn by apply wf_F32.
  cbn [sgn exp mnt unpack_of]. change 255 with (emax F32). rewrite not_NaN_inf by (done || apply wf_F32).
  pose proof (sign_range F32 x wf_F32 Hx) as Hs. destruct (is_inf F32 x) eqn:Hi.
  { eexists. split; [done|]. by apply widens_infinity; [apply wf_F64|..]. }
  unfold nz. rewrite negb_involutive, signif_0 by apply wf_F32. destruct (Z.eqb_spec (mag F32 x) 0) as [Hz|Hz].
  { eexists. split; [done|]. by apply widens_zero; [apply wf_F64|..]. }
  pose proof (signif_0 F32 x wf_F32) as H0. destruct (signif_range F32 x wf_F32) as (Hsr & _ & _).
  unfold fp32_normalise. destruct (fp_normalise F32 (signif F32 x) (expo F32 x)) as [m e] eqn:Hnorm.
  eexists. split; [done|].
  destruct (widen_pack F32 F64 x m e) as (Hf & Hsg & Hmag); try done; [apply wf_F32|apply wf_F64| |].
  { destruct (Z.eqb_spec (signif F32 x) 0), (Z.eqb_spec (mag F32 x) 0); done || lia. }
  apply finite_widens; [exact Hf|exact Hsg|done|exact Hmag].
Qed.

Lemma convert_from16_widens f x rounding fpscr :
  wf_format f → 15 ≤ mbits f → 25 ≤ bias f → emax f = 2 * bias f + 1 →
  in_width 16 x → is_NaN F16 x = false → fpscr_ahp fpscr = false →
  ∃ y, fplibConvert_from16 f x rounding fpscr = (y, fpscr) ∧ widens F16 f x y.
Proof.
  intros Hf HM Hb He Hx Hn Hahp. unfold fplibConvert_from16.
  assert (fp16_unpack x (modeConv fpscr) 0 = (unpack_of F16 x, 0)) as ->.
  { unfold unpack_of. rewrite <- (fp_unpack_spec F16 x 0 0) by (done || apply wf_F16). unfold fp16_unpack, fp_unpack.
    by destruct (nz (raw_exp F16 x)). }
  rewrite Hahp. cbn [negb]. rewrite !andb_true_r.
  pose proof (nan_bits_spec F16 x wf_F16) as Hnb. unfold nan_bits in Hnb. rewrite Hn in Hnb.
  change (width F16 - mbits F16) with 6 in Hnb. change (width F16) with 16 in Hnb. change (emax F16) with 31 in Hnb. rewrite Hnb.
  cbn [sgn exp mnt unpack_of]. change 31 with (emax F16). rewrite not_NaN_inf by (done || apply wf_F16).
  pose proof (sign_range F16 x wf_F16 Hx) as Hs. destruct (is_inf F16 x) eqn:Hi.
  { eexists. split; [done|]. by apply widens_infinity. }
  unfold nz. rewrite negb_involutive, signif_0 by apply wf_F16. destruct (Z.eqb_spec (mag F16 x) 0) as [Hz|Hz].
  { eexists. split; [done|]. by apply widens_zero. }
  pose proof (signif_0 F16 x wf_F16) as H0. destruct (signif_range F16 x wf_F16) as (Hsr & _ & _).
  unfold fp16_normalise. destruct (fp_normalise F16 (signif F16 x) (expo F16 x)) as [m e] eqn:Hnorm.
  eexists. split; [done|].
  destruct (widen_pack F16 f x m e) as (Hff & Hsg & Hmag); try done; [apply wf_F16|change (bias F16) with 15; cbn; lia| |].
  { destruct (Z.eqb_spec (signif F16 x) 0), (Z.eqb_spec (mag F16 x) 0); done || lia. }
  apply finite_widens; [exact Hff|exact Hsg|done|exact Hmag].
Qed.

(** ** Round trips *)

Lemma infinity_eq f x : wf_format f → in_width (width f) x → is_inf f x = true → fp_infinity f (sign f x) = x.
Proof.
  intros Hf Hx Hi. pose proof (sign_range f x Hf Hx) as Hs. pose proof (emax_pos f Hf).
  unfold is_inf in Hi. apply andb_true_iff in Hi as [He Hm]. apply Z.eqb_eq in He. apply negb_true_iff, nz_false in Hm.
  rewrite <- (fp_pack_unpack f x Hf Hx) at 2. unfold fp_infinity, signif. rewrite He, Hm, Z.add_0_r.
  destruct (Z.eqb_spec (emax f) 0); [lia|].
  destruct (fp_pack_sum f (sign f x) (emax f) 0 Hf Hs ltac:(lia)) as [-> _].
  destruct (fp_pack_sum f (sign f x) (emax f) (2 ^ mbits f) Hf Hs ltac:(lia)) as [-> _].
  assert (0 < 2 ^ mbits f) by (apply pow2_pos; pose proof (wf_mbits f Hf); lia). rewrite Z.mod_same, Z.mod_0_l by lia. done.
Qed.

Lemma zero_eq f x : wf_format f → finite f x → mag f x = 0 → fp_zero f (sign f x) = x.
Proof.
  intros Hf [Hx Hfin] Hz. destruct (encode_mag f x Hf Hx Hfin) as [Henc _]. rewrite Hz in Henc. rewrite <- Henc at 2.
  unfold encode, fp_zero. pose proof (pow2_pos (mbits f) ltac:(pose proof (wf_mbits f Hf); lia)).
  by destruct (Z.ltb_spec 0 (2 ^ mbits f)); [|lia].
Qed.

Lemma convert_back f g x y rounding :
  wf_format f → unit_exp f ≤ unit_exp g → in_width (width f) x → is_NaN f x = false → is_inf f x = false →
  widens f g x y → convert_ref g f y rounding = (x, 0).
Proof.
  intros Hf Hu Hx Hn Hi (_ & Hs & _ & _ & Hm). specialize (Hm Hi). unfold convert_ref. rewrite Hs, Hm.
  pose proof (pow2_pos (unit_exp g - unit_exp f) ltac:(lia)). pose proof (mag_nonneg f x Hf).
  assert (finite f x) as Hfin by (split; [done|]; rewrite not_NaN_inf_raw in Hi by done; by apply Z.eqb_neq).
  destruct (Z.eqb_spec (mag f x * 2 ^ (unit_exp g - unit_exp f)) 0) as [Hz|Hz].
  - assert (mag f x = 0) by nia. f_equal. by apply zero_eq.
  - apply round_exact; try done. apply Hfin.
Qed.

Lemma widens_finite f g x y : is_inf f x = false → widens f g x y → finite g y.
Proof.
  intros Hi (Hw & _ & Hn & Hiy & _). split; [done|]. rewrite Hi, not_NaN_inf_raw in Hiy by done. by apply Z.eqb_neq.
Qed.

Lemma convert_64_32_back x y rounding fpscr :
  in_width 32 x → is_NaN F32 x = false → fpscr_fz fpscr = false → rounding ≠ FPRounding_TIEAWAY →
  widens F32 F64 x y → fplibConvert_64_32 y rounding fpscr = Ok (x, fpscr).
Proof.
  intros Hx Hn Hfz Hrm Hw. destruct (is_inf F32 x) eqn:Hi.
  - pose proof Hw as (_ & Hs & Hny & Hiy & _). pose proof (modeConv_fz _ Hfz) as Hm. unfold fplibConvert_64_32, fp64_unpack.
    rewrite (fp_unpack_spec F64) by (done || apply wf_F64). fold (unpack_of F64 y). rewrite nan_bits_spec, Hny by apply wf_F64.
    cbn [sgn exp mnt unpack_of]. change 2047 with (emax F64). rewrite not_NaN_inf, Hiy, Hi by (done || apply wf_F64).
    rewrite Hs. unfold fp32_infinity. rewrite infinity_eq by (done || apply wf_F32). done.
  - rewrite convert_64_32_ref by (done || by eapply widens_finite).
    by rewrite (convert_back F32 F64 x) by (done || apply wf_F32).
Qed.

Lemma convert_16_back f x y rounding fpscr :
  wf_format f → 16 ≤ mbits f → 28 ≤ bias f → 24 ≤ unit_exp f →
  in_width 16 x → is_NaN F16 x = false → fpscr_fz fpscr = false → fpscr_ahp fpscr = false → rounding ≠ FPRounding_TIEAWAY →
  widens F16 f x y → fplibConvert_16 f y rounding fpscr = Ok (x, fpscr).
Proof.
  intros Hf HM Hb Hu Hx Hn Hfz Hahp Hrm Hw. destruct (is_inf F16 x) eqn:Hi.
  - pose proof Hw as (_ & Hs & Hny & Hiy & _). pose proof (modeConv_fz _ Hfz) as Hm. unfold fplibConvert_16.
    rewrite (fp_unpack_spec f) by done. fold (unpack_of f y). rewrite nan_bits_spec, Hny by done.
    cbn [sgn exp mnt unpack_of]. rewrite not_NaN_inf, Hiy, Hi, Hahp by done.
    rewrite Hs. unfold fp16_infinity. rewrite infinity_eq by (done || apply wf_F16). done.
  - rewrite convert_16_ref by (done || by eapply widens_finite).
    by rewrite (convert_back F16 f x) by (done || apply wf_F16).
Qed.

(** C32: conversions round-trip.  Let flush-to-zero be off (FPSCR.FZ = 0), half precision be the
    IEEE format and not the alternative one (FPSCR.AHP = 0), and the rounding mode of the narrowing
    conversion be one its assertion admits, which is every mode but "ties away".  Then a
    single-precision operand that is not a NaN, converted to double and back, is the operand again -
    zeroes of both signs, subnormals, normals and infinities - and FPSCR is unchanged: no exception
    is raised on the way; likewise a half-precision operand converted to single or to double and
    back. *)
Theorem fplibConvert_roundtrip x h rounding1 rounding2 fpscr :
  in_width 32 x → is_NaN F32 x = false → in_width 16 h → is_NaN F16 h = false →
  fpscr_fz fpscr = false → fpscr_ahp fpscr = false → rounding2 ≠ FPRounding_TIEAWAY →
  (let '(y, fpscr1) := fplibConvert_32_64 x rounding1 fpscr in fplibConvert_64_32 y rounding2 fpscr1 = Ok (x, fpscr)) ∧
  (let '(y, fpscr1) := fplibConvert_16_32 h rounding1 fpscr in fplibConvert_32_16 y rounding2 fpscr1 = Ok (h, fpscr)) ∧
  (let '(y, fpscr1) := fplibConvert_16_64 h rounding1 fpscr in fplibConvert_64_16 y rounding2 fpscr1 = Ok (h, fpscr)).
Proof.
  intros Hx Hnx Hh Hnh Hfz Hahp Hrm. split_and!.
  - destruct (convert_32_64_widens x rounding1 fpscr Hx Hnx Hfz) as (y & -> & Hw). by apply convert_64_32_back.
  - destruct (convert_from16_widens F32 h rounding1 fpscr) as (y & Hy & Hw); try done; [apply wf_F32|].
    unfold fplibConvert_16_32. rewrite Hy. by apply convert_16_back; [apply wf_F32|..].
  - destruct (convert_from16_widens F64 h rounding1 fpscr) as (y & Hy & Hw); try done; [apply wf_F64|].
    unfold fplibConvert_16_64. rewrite Hy. by apply convert_16_back; [apply wf_F64|..].
Qed.

(** The smallest subnormal single and the largest half. *)
Lemma fplibConvert_roundtrip_witness :
  (let '(y, fpscr1) := fplibConvert_32_64 1 0 0 in fplibConvert_64_32 y 3 fpscr1 = Ok (1, 0)) ∧
  (let '(y, fpscr1) := fplibConvert_16_32 0x7bff 0 0 in fplibConvert_32_16 y 3 fpscr1 = Ok (0x7bff, 0)) ∧
  (let '(y, fpscr1) := fplibConvert_16_64 0x7bff 0 0 in fplibConvert_64_16 y 3 fpscr1 = Ok (0x7bff, 0)).
Proof. apply (fplibConvert_roundtrip 1 0x7bff 0 3 0); done. Defined.

(** A narrowing conversion rounds once.  The conversion of a finite double to single or to
    half, and of a single to half, is the exact value rounded in the requested direction, with
    the underflow, overflow and inexact exceptions of that rounding. *)
Theorem fplibConvert_narrow_correct d x rounding fpscr :
  finite F64 d → finite F32 x → fpscr_fz fpscr = false → fpscr_ahp fpscr = false → rounding ≠ FPRounding_TIEAWAY →
  fplibConvert_64_32 d rounding fpscr = with_flags fpscr (Ok (convert_ref F64 F32 d rounding)) ∧
  fplibConvert_64_16 d rounding fpscr = with_flags fpscr (Ok (convert_ref F64 F16 d rounding)) ∧
  fplibConvert_32_16 x rounding fpscr = with_flags fpscr (Ok (convert_ref F32 F16 x rounding)).
Proof.
  intros. split_and!.
  - by apply convert_64_32_ref.
  - by apply (convert_16_ref F64); [apply wf_F64|..].
  - by apply (convert_16_ref F32); [apply wf_F32|..].
Qed.

(** The double next above one rounds up to single in direction +infinity. *)
Lemma fplibConvert_narrow_correct_witness :
  fplibConvert_64_32 0x3ff0000000000001 1 0 = Ok (0x3f800001, 16) ∧
  with_flags 0 (Ok (convert_ref F64 F32 0x3ff0000000000001 1)) = Ok (0x3f800001, 16).
Proof.
  destruct (fplibConvert_narrow_correct 0x3ff0000000000001 0x3f800001 1 0) as [H _];
    [by vm_compute|by vm_compute|done|done|done|].
  rewrite H. split; vm_compute; reflexivity.
Defined.

End FplibConvProofs.
