(* ===== verification/FplibIntProofs.v ===== *)
(** * Correct conversions to and from integers

    Conversions to fixed point and to integral values round the exact value, and saturate when
    the target cannot hold it; conversions from fixed point round the exact value once. *)

From S2P Require Import Prelude Fplib FplibOps FplibApi FplibConv FplibRound FplibArith FplibMul FplibConvProofs.

Open Scope Z_scope.

Module FplibIntProofs.
Import Fplib FplibOps FplibApi FplibConv FplibRound FplibArith FplibMul FplibConvProofs.

(** ** Rounding to an integer *)

Definition int_increment (rounding sgn q err : Z) : bool :=
  if rounding =? FPRounding_TIEEVEN then (err =? 3) || ((err =? 2) && Z.odd q)
  else if rounding =? FPRounding_POSINF then nz err && negb (nz sgn)
  else if rounding =? FPRounding_NEGINF then nz err && nz sgn
  else if rounding =? FPRounding_TIEAWAY then 2 <=? err
  else false.

(** The magnitude [N / D], of sign [sgn], rounded to an integer. *)
Definition int_rounded (rounding sgn N D : Z) : Z :=
  N / D + Z.b2z (int_increment rounding sgn (N / D) (excess (N mod D) D)).

Lemma excess_range r u : 0 ≤ excess r u ≤ 3.
Proof. unfold excess. destruct (r =? 0); [lia|]. destruct (2 * r ?= u); lia. Qed.

Lemma int_rounded_scale rounding sgn N D k : 0 < D → 0 < k → int_rounded rounding sgn (N * k) (D * k) = int_rounded rounding sgn N D.
Proof. intros. unfold int_rounded. rewrite Z.div_mul_cancel_r, Z.mul_mod_distr_r, excess_scale by lia. done. Qed.

(** Equal fractions round alike. *)
Lemma int_rounded_ratio rounding sgn N D N' D' :
  0 < D → 0 < D' → N * D' = N' * D →
  int_rounded rounding sgn N D = int_rounded rounding sgn N' D' ∧ (N mod D =? 0) = (N' mod D' =? 0).
Proof.
  intros HD HD' Heq. split.
  - rewrite <- (int_rounded_scale _ _ N D D') by done. rewrite <- (int_rounded_scale _ _ N' D' D) by done.
    by rewrite Heq, (Z.mul_comm D).
  - assert (∀ x d k, 0 < d → 0 < k → (x mod d =? 0) = ((x * k) mod (d * k) =? 0)) as Hs.
    { intros x d k Hd Hk. rewrite Z.mul_mod_distr_r by lia.
      destruct (Z.eqb_spec (x mod d) 0), (Z.eqb_spec (x mod d * k) 0); nia || done. }
    rewrite (Hs N D D'), (Hs N' D' D) by done. by rewrite Heq, (Z.mul_comm D).
Qed.

Lemma round_int_spec w x err sgn rounding :
  0 ≤ rounding ≤ 4 → 0 ≤ err ≤ 3 → in_width w x → (err ≠ 0 → in_width w (x + 1)) →
  round_int w x err sgn rounding = Ok (x + Z.b2z (int_increment rounding sgn x err)).
Proof.
  intros Hr He Hx Hx1. assert (∀ b : bool, (b = true → err ≠ 0) → wrap w (x + Z.b2z b) = x + Z.b2z b) as Hw.
  { intros [|] Hb; apply wrap_small; cbn [Z.b2z]; [by apply Hx1, Hb|by rewrite Z.add_0_r]. }
  assert (Z.shiftr err 1 = Z.b2z (2 <=? err)) as Hs.
  { rewrite shiftr_div by lia. assert (err = 0 ∨ err = 1 ∨ err = 2 ∨ err = 3) as [E|[E|[E|E]]] by lia; rewrite E; done. }
  unfold round_int, int_increment. assert (rounding = 0 ∨ rounding = 1 ∨ rounding = 2 ∨ rounding = 3 ∨ rounding = 4)
    as [E|[E|[E|[E|E]]]] by lia; rewrite E in *; cbn [Z.eqb Pos.eqb FPRounding_TIEEVEN FPRounding_POSINF FPRounding_NEGINF FPRounding_ZERO FPRounding_TIEAWAY].
  - rewrite Hw; [done|]. intros Hb ->. done.
  - rewrite Hw; [done|]. intros Hb ->. done.
  - rewrite Hw; [done|]. intros Hb ->. done.
  - by rewrite Z.add_0_r.
  - rewrite Hs, Hw; [done|]. intros Hb ->. done.
Qed.

(** ** Fixed point *)

Definition fixed_lo (w : Z) (u : bool) : Z := if u then 0 else - 2 ^ (w - 1).
Definition fixed_hi (w : Z) (u : bool) : Z := if u then 2 ^ w - 1 else 2 ^ (w - 1) - 1.

(** The integer [n] of sign [sgn] in [w] bits: saturated and invalid when it does not fit,
    otherwise inexact when rounding changed it. *)
Definition fixed_ref (w : Z) (u : bool) (sgn n : Z) (exact : bool) (flags : Z) : Z * Z :=
  let v := signed sgn n in
  if (v <? fixed_lo w u) || (fixed_hi w u <? v)
  then (wrap w (if sgn =? 0 then fixed_hi w u else fixed_lo w u), FPLIB_IOC)
  else (wrap w v, if exact then flags else FPLIB_IXC).

Lemma saturated_spec w u sgn : 0 < w → (sgn = 0 ∨ sgn = 1) →
  saturated w u sgn = wrap w (if sgn =? 0 then fixed_hi w u else fixed_lo w u).
Proof.
  intros Hw Hs. assert (2 ^ w = 2 * 2 ^ (w - 1)) as HW by (rewrite <- Z.pow_succ_r by lia; f_equal; lia).
  unfold saturated, fixed_hi, fixed_lo, lnot. rewrite Z.shiftl_mul_pow2 by lia.
  destruct Hs as [-> | ->], u; cbn [negb Z.b2z Z.eqb]; unfold wrap.
  - rewrite (Z.mul_0_l (2 ^ (w - 1))). rewrite <- (Z.mod_add (0 - 1) 1) by lia. f_equal. lia.
  - f_equal. lia.
  - f_equal.
  - rewrite <- (Z.mod_add (- 2 ^ (w - 1)) 1) by lia. f_equal. lia.
Qed.

Lemma excess_0 r u : (excess r u =? 0) = (r =? 0).
Proof. pose proof (excess_nz r u) as H. unfold nz in H. by apply (f_equal negb) in H; rewrite !negb_involutive in H. Qed.

(** The 64-bit conversion of a number below [2^64], with a significand of at most 53 bits. *)
Lemma FPToFixed_64_in sgn e m u rounding flags :
  (sgn = 0 ∨ sgn = 1) → 0 ≤ m < 2 ^ 53 → e ≤ 1086 → 0 ≤ rounding ≤ 4 →
  FPToFixed_64 sgn e m u rounding flags =
  Ok (fixed_ref 64 u sgn (int_rounded rounding sgn (m * 2 ^ 11) (2 ^ (1086 - e))) ((m * 2 ^ 11) mod 2 ^ (1086 - e) =? 0) flags).
Proof.
  intros Hs Hm He Hr. unfold FPToFixed_64. change (1023 + 63) with 1086. change (1086 - 2) with 1084.
  destruct (Z.ltb_spec 1086 e); [lia|]. rewrite Z.shiftl_mul_pow2 by lia. rewrite (wrap_small 64 (m * 2 ^ 11)) by (unfold in_width; lia).
  set (M := m * 2 ^ 11). assert (0 ≤ M < 2 ^ 64) by (unfold M; lia). set (d := 1086 - e). pose proof (pow2_pos d ltac:(lia)).
  unfold lsr64, lsl64. rewrite (lsr_spec 64 M d) by lia.
  assert ((if 1084 <? e then 0 else Z.lor (Z.land (lsr 64 M (1084 - e)) 3) (nzi (Z.land M (u64 (lsl 64 1 (1084 - e) - 1))))) =
    excess (M mod 2 ^ d) (2 ^ d)) as ->.
  { destruct (Z.ltb_spec 1084 e).
    - replace (M mod 2 ^ d) with 0; [done|]. unfold M. replace (m * 2 ^ 11) with (m * 2 ^ (11 - d) * 2 ^ d); [by rewrite Z.mod_mul by lia|].
      rewrite <- Z.mul_assoc, <- Z.pow_add_r by lia. do 2 f_equal. lia.
    - rewrite lsr_spec, lsl_mask by lia. replace (1084 - e) with (d - 2) by lia. apply error_bits; lia. }
  set (err := excess (M mod 2 ^ d) (2 ^ d)). pose proof (excess_range (M mod 2 ^ d) (2 ^ d)) as Herr. fold err in Herr.
  assert (0 ≤ M / 2 ^ d) by (apply Z.div_pos; lia).
  assert (M / 2 ^ d < 2 ^ 64 ∧ (err ≠ 0 → M / 2 ^ d < 2 ^ 62)) as [Hq Hq'].
  { split; [apply Z.div_lt_upper_bound; nia|]. intros Hne. assert (2 ≤ d).
    { assert (M mod 2 ^ d ≠ 0) as Hz by (intros E; apply Hne; unfold err; by rewrite E).
      apply (mod_pow2_zero 11) in Hz; lia. }
    apply Z.div_lt_upper_bound; [lia|]. assert (2 ^ 2 ≤ 2 ^ d) by (apply Z.pow_le_mono_r; lia). lia. }
  rewrite round_int_spec by (unfold in_width; lia). cbn [mbind res_bind]. unfold int_rounded. fold err.
  set (b := int_increment rounding sgn (M / 2 ^ d) err).
  assert (b = true → err ≠ 0) as Hb.
  { intros Hbt E. unfold b, int_increment in Hbt. rewrite E in Hbt. cbn in Hbt. by repeat case_match. }
  assert (0 ≤ M / 2 ^ d + Z.b2z b < 2 ^ 64) as Hn by (destruct b; cbn [Z.b2z]; [specialize (Hq' (Hb eq_refl)); lia|lia]).
  set (n := M / 2 ^ d + Z.b2z b) in *. clearbody n. rewrite saturated_spec by lia. unfold fixed_ref, nz.
  rewrite <- (excess_0 (M mod 2 ^ d) (2 ^ d)). fold err.
  assert ((if negb (err =? 0) then FPLIB_IXC else flags) = if err =? 0 then flags else FPLIB_IXC) as -> by (by destruct (err =? 0)).
  destruct Hs as [-> | ->], u; unfold fixed_lo, fixed_hi, signed, lnot; cbn [Z.eqb negb andb Z.b2z].
  - rewrite (wrap_small 64 n) by done. destruct (Z.ltb_spec n 0), (Z.ltb_spec (2 ^ 64 - 1) n); done || lia.
  - rewrite (wrap_small 64 n) by done. change (u64 (2 ^ 63 - 1)) with (2 ^ 63 - 1). change (64 - 1) with 63. destruct (Z.ltb_spec n (- 2 ^ 63)), (Z.ltb_spec (2 ^ 63 - 1) n); done || lia.
  - destruct (Z.eqb_spec n 0), (Z.ltb_spec (- n) 0), (Z.ltb_spec (2 ^ 64 - 1) (- n)); done || lia.
  - change (u64 (2 ^ 63 - 0)) with (2 ^ 63). change (64 - 1) with 63.
    destruct (Z.ltb_spec (2 ^ 63) n), (Z.ltb_spec (- n) (- 2 ^ 63)), (Z.ltb_spec (2 ^ 63 - 1) (- n)); done || lia.
Qed.

Lemma FPToFixed_64_out sgn e m u rounding flags n exact :
  (sgn = 0 ∨ sgn = 1) → 1086 < e → 2 ^ 64 ≤ n →
  FPToFixed_64 sgn e m u rounding flags = Ok (fixed_ref 64 u sgn n exact flags).
Proof.
  intros Hs He Hn. unfold FPToFixed_64. change (1023 + 63) with 1086. destruct (Z.ltb_spec 1086 e); [|lia].
  rewrite saturated_spec by lia. unfold fixed_ref. destruct Hs as [-> | ->], u; unfold fixed_lo, fixed_hi, signed; cbn [Z.eqb];
    repeat match goal with |- context [?a <? ?b] => destruct (Z.ltb_spec a b) end; done || lia.
Qed.

(** The 32-bit conversion narrows the 64-bit one. *)
Lemma FPToFixed_32_of_64 sgn e m u rounding flags n exact :
  (sgn = 0 ∨ sgn = 1) → 0 ≤ n →
  FPToFixed_64 sgn e m u rounding flags = Ok (fixed_ref 64 u sgn n exact flags) →
  FPToFixed_32 sgn e m u rounding flags = Ok (fixed_ref 32 u sgn n exact flags).
Proof.
  intros Hs Hn H64. unfold FPToFixed_32. rewrite H64. cbn [mbind res_bind]. rewrite saturated_spec by lia.
  assert (∀ v, u32 (u64 v) = u32 v) as Hww.
  { intros v. unfold wrap. apply Z.mod_mod_divide. by exists (2 ^ 32). }
  unfold fixed_ref. destruct Hs as [-> | ->], u; unfold fixed_lo, fixed_hi, signed; cbn [Z.eqb].
  - destruct (Z.ltb_spec n 0); [lia|]. destruct (Z.ltb_spec (2 ^ 64 - 1) n), (Z.ltb_spec (2 ^ 32 - 1) n); cbn [orb]; try lia; [done|..].
    + rewrite (wrap_small 64 n) by (unfold in_width; lia). destruct (Z.leb_spec (2 ^ 32) n); [done|lia].
    + rewrite (wrap_small 64 n) by (unfold in_width; lia). destruct (Z.leb_spec (2 ^ 32) n); [lia|done].
  - change (64 - 1) with 63. change (32 - 1) with 31. destruct (Z.ltb_spec n (- 2 ^ 63)), (Z.ltb_spec n (- 2 ^ 31)); [lia..|].
    destruct (Z.ltb_spec (2 ^ 63 - 1) n), (Z.ltb_spec (2 ^ 31 - 1) n); cbn [orb]; try lia; [done|..];
      rewrite (wrap_small 64 n) by (unfold in_width; lia);
      assert (u64 (- n) = if n =? 0 then 0 else 2 ^ 64 - n) as ->
        by (unfold wrap; destruct (Z.eqb_spec n 0) as [->|]; [done|]; symmetry; apply Z.mod_unique with (q := -1); lia);
      destruct (Z.ltb_spec n (2 ^ 31)); try lia; destruct (Z.eqb_spec n 0); try lia; cbn [orb negb]; try done;
      destruct (Z.leb_spec (2 ^ 64 - n) (2 ^ 31)); done || lia.
  - destruct (Z.ltb_spec (- n) 0), (Z.ltb_spec (2 ^ 64 - 1) (- n)), (Z.ltb_spec (2 ^ 32 - 1) (- n)); cbn [orb]; try lia; [done|].
    assert (n = 0) as -> by lia. done.
  - change (64 - 1) with 63. change (32 - 1) with 31.
    destruct (Z.ltb_spec (2 ^ 63 - 1) (- n)), (Z.ltb_spec (2 ^ 31 - 1) (- n)); try lia. rewrite !orb_false_r.
    destruct (Z.ltb_spec (- n) (- 2 ^ 63)), (Z.ltb_spec (- n) (- 2 ^ 31)); try lia; [done|..];
      assert (u64 (- n) = if n =? 0 then 0 else 2 ^ 64 - n) as Hu
        by (unfold wrap; destruct (Z.eqb_spec n 0) as [->|]; [done|]; symmetry; apply Z.mod_unique with (q := -1); lia);
      destruct (Z.eqb_spec n 0); try lia; try (subst n; done); rewrite Hww, Hu;
      assert (u64 (- (2 ^ 64 - n)) = n) as -> by (unfold wrap; symmetry; apply Z.mod_unique with (q := -1); lia);
      destruct (Z.ltb_spec (2 ^ 64 - n) (2 ^ 31)), (Z.leb_spec n (2 ^ 31)); done || lia.
Qed.

Lemma int_rounded_ge rounding sgn N D : N / D ≤ int_rounded rounding sgn N D.
Proof. unfold int_rounded. destruct (int_increment _ _ _ _); cbn [Z.b2z]; lia. Qed.

(** The operand of the conversion stands for the same number as the packed one. *)
Lemma fixed_operand_value f op fbits e m :
  f = F32 ∨ f = F64 → 0 ≤ fbits ≤ 64 → fixed_operand f (unpack_of f op) fbits = (e, m) →
  0 ≤ m < 2 ^ 53 ∧
  (e ≤ 1086 → mag f op * 2 ^ fbits * 2 ^ (1086 - e) = m * 2 ^ 11 * 2 ^ unit_exp f) ∧
  (1086 < e → 2 ^ 64 ≤ mag f op * 2 ^ fbits / 2 ^ unit_exp f).
Proof.
  intros [-> | ->] Hfb Hop.
  - destruct (signif_range F32 op wf_F32) as (Hs & Hn & He). unfold fixed_operand in Hop. cbn [width F32 Z.eqb Pos.eqb exp mnt unpack_of] in Hop.
    injection Hop as <- <-. change (2 ^ (mbits F32 + 1)) with (2 ^ 24) in Hs. change (2 ^ mbits F32) with (2 ^ 23) in Hn.
    change (unit_exp F32) with 149. rewrite Z.shiftl_mul_pow2 by lia. change (52 - 23) with 29. unfold mag.
    set (x := signif F32 op) in *. set (ea := expo F32 op) in *. split_and!; [lia|lia|..]; intros He'.
    + rewrite <- !Z.mul_assoc, <- !Z.pow_add_r by lia. do 2 f_equal. lia.
    + specialize (Hn ltac:(lia)). apply Z.div_le_lower_bound; [lia|]. rewrite <- Z.mul_assoc, <- (Z.pow_add_r 2 (ea - 1)) by lia.
      apply Z.le_trans with (2 ^ 23 * 2 ^ 190); [done|]. apply Z.mul_le_mono_nonneg; [lia|done|lia|]. apply Z.pow_le_mono_r; lia.
  - destruct (signif_range F64 op wf_F64) as (Hs & Hn & He). unfold fixed_operand in Hop. cbn [width F64 Z.eqb Pos.eqb exp mnt unpack_of] in Hop.
    injection Hop as <- <-. change (2 ^ (mbits F64 + 1)) with (2 ^ 53) in Hs. change (2 ^ mbits F64) with (2 ^ 52) in Hn.
    change (unit_exp F64) with 1074. unfold mag.
    set (x := signif F64 op) in *. set (ea := expo F64 op) in *. split_and!; [lia|lia|..]; intros He'.
    + rewrite <- !Z.mul_assoc, <- !Z.pow_add_r by lia. do 2 f_equal. lia.
    + specialize (Hn ltac:(lia)). apply Z.div_le_lower_bound; [done|]. rewrite <- Z.mul_assoc, <- (Z.pow_add_r 2 (ea - 1)) by lia.
      apply Z.le_trans with (2 ^ 52 * 2 ^ 1086); [by vm_compute|]. apply Z.mul_le_mono_nonneg; [lia|done|lia|]. apply Z.pow_le_mono_r; lia.
Qed.

(** What the conversion of [op] to a fixed-point number of [w] bits, [fbits] of them fractional,
    should return. *)
Definition to_fixed_ref (f : format) (w op fbits : Z) (u : bool) (rounding : Z) : Z * Z :=
  if is_NaN f op then (0, FPLIB_IOC)
  else
    let N := mag f op * 2 ^ fbits in
    let D := 2 ^ unit_exp f in
    fixed_ref w u (sign f op) (int_rounded rounding (sign f op) N D) (N mod D =? 0) 0.

Lemma to_fixed_64 f op fbits u rounding :
  f = F32 ∨ f = F64 → in_width (width f) op → 0 ≤ fbits ≤ 64 → 0 ≤ rounding ≤ 4 → is_NaN f op = false →
  (let '(e, m) := fixed_operand f (unpack_of f op) fbits in FPToFixed_64 (sign f op) e m u rounding 0) =
  Ok (to_fixed_ref f 64 op fbits u rounding).
Proof.
  intros Hf Hop Hfb Hr Hn. unfold to_fixed_ref. rewrite Hn. cbv zeta.
  assert (wf_format f) as Hwf by (destruct Hf as [-> | ->]; [apply wf_F32|apply wf_F64]).
  assert (0 < 2 ^ unit_exp f) by (destruct Hf as [-> | ->]; done).
  pose proof (sign_range f op Hwf Hop) as Hs. destruct (fixed_operand f (unpack_of f op) fbits) as [e m] eqn:Hfo.
  destruct (fixed_operand_value f op fbits e m Hf Hfb Hfo) as (Hm & Hin & Hout).
  destruct (decide (e ≤ 1086)) as [He|He].
  - rewrite FPToFixed_64_in by done. pose proof (pow2_pos (1086 - e) ltac:(lia)).
    destruct (int_rounded_ratio rounding (sign f op) (mag f op * 2 ^ fbits) (2 ^ unit_exp f) (m * 2 ^ 11) (2 ^ (1086 - e))) as [-> ->];
      [done|done|by apply Hin|done].
  - apply FPToFixed_64_out; [done|lia|]. etrans; [apply Hout; lia|apply int_rounded_ge].
Qed.

Lemma to_fixed_32 f op fbits u rounding :
  f = F32 ∨ f = F64 → in_width (width f) op → 0 ≤ fbits ≤ 64 → 0 ≤ rounding ≤ 4 → is_NaN f op = false →
  (let '(e, m) := fixed_operand f (unpack_of f op) fbits in FPToFixed_32 (sign f op) e m u rounding 0) =
  Ok (to_fixed_ref f 32 op fbits u rounding).
Proof.
  intros Hf Hop Hfb Hr Hn. pose proof (to_fixed_64 f op fbits u rounding Hf Hop Hfb Hr Hn) as H64.
  assert (wf_format f) as Hwf by (destruct Hf as [-> | ->]; [apply wf_F32|apply wf_F64]).
  assert (0 < 2 ^ unit_exp f) by (destruct Hf as [-> | ->]; done).
  destruct (fixed_operand f (unpack_of f op) fbits) as [e m]. unfold to_fixed_ref in *. rewrite Hn in *.
  apply FPToFixed_32_of_64; [by apply sign_range| |done]. etrans; [|apply int_rounded_ge].
  apply Z.div_pos; [|done]. pose proof (mag_nonneg f op Hwf). pose proof (pow2_pos fbits ltac:(lia)). nia.
Qed.

(** C26: conversions to fixed point round once and saturate.  For every single- or double-precision
    operand, 0 to 64 fraction bits and each of the five rounding directions, the 32- and 64-bit,
    signed and unsigned conversions return the operand scaled by [2^fbits] and rounded to an
    integer if the target can hold it (inexact when that changed it), the nearest end of the
    target's range with an invalid-operation exception if it cannot (infinities included), and
    zero with an invalid-operation exception for a NaN. *)
Theorem fplibFPToFixed_correct x d fbits u rounding fpscr :
  in_width 32 x → in_width 64 d → 0 ≤ fbits ≤ 64 → 0 ≤ rounding ≤ FPRounding_TIEAWAY → fpscr_fz fpscr = false →
  fplibFPToFixed_32_32 x fbits u rounding fpscr = with_flags fpscr (Ok (to_fixed_ref F32 32 x fbits u rounding)) ∧
  fplibFPToFixed_64_32 d fbits u rounding fpscr = with_flags fpscr (Ok (to_fixed_ref F64 32 d fbits u rounding)) ∧
  fplibFPToFixed_32_64 x fbits u rounding fpscr = with_flags fpscr (Ok (to_fixed_ref F32 64 x fbits u rounding)) ∧
  fplibFPToFixed_64_64 d fbits u rounding fpscr = with_flags fpscr (Ok (to_fixed_ref F64 64 d fbits u rounding)).
Proof.
  intros Hx Hd Hfb Hr Hfz. pose proof (modeConv_fz _ Hfz) as Hm.
  assert (∀ f (F : Z → Z → Z → bool → Z → Z → res (Z * Z)) w op, f = F32 ∨ f = F64 → in_width (width f) op →
    (is_NaN f op = false →
     (let '(e, m) := fixed_operand f (unpack_of f op) fbits in F (sign f op) e m u rounding 0) = Ok (to_fixed_ref f w op fbits u rounding)) →
    fplibFPToFixed f F op fbits u rounding fpscr = with_flags fpscr (Ok (to_fixed_ref f w op fbits u rounding))) as Hgen.
  { intros f F w op Hf Hop HF. assert (wf_format f) as Hwf by (destruct Hf as [-> | ->]; [apply wf_F32|apply wf_F64]).
    unfold fplibFPToFixed. rewrite fp_unpack_spec by done. fold (unpack_of f op). rewrite nan_bits_spec by done.
    destruct (is_NaN f op) eqn:Hn; [unfold to_fixed_ref; by rewrite Hn|]. f_equal. by apply HF. }
  split_and!; apply Hgen; auto; intros; (apply to_fixed_32 || apply to_fixed_64); auto.
Qed.

(** One and a half to a 64-bit integer, ties to even: two, inexact; minus infinity to a signed
    32-bit integer: the smallest one, invalid. *)
Lemma fplibFPToFixed_correct_witness :
  fplibFPToFixed_64_64 0x3ff8000000000000 0 false 0 0 = Ok (2, 16) ∧
  with_flags 0 (Ok (to_fixed_ref F64 64 0x3ff8000000000000 0 false 0)) = Ok (2, 16) ∧
  fplibFPToFixed_32_32 0xff800000 0 false 0 0 = Ok (0x80000000, 1).
Proof.
  destruct (fplibFPToFixed_correct 0xff800000 0x3ff8000000000000 0 false 0 0) as (H1 & _ & _ & H2);
    [by vm_compute|by vm_compute|by vm_compute|by vm_compute|done|].
  rewrite H1, H2. split_and!; vm_compute; reflexivity.
Defined.

(** ** Integral values *)

(** The magnitude of [op], rounded to an integer, as a number of the format again. *)
Definition round_int_ref (f : format) (op rounding : Z) (exact : bool) : Z * Z :=
  let D := 2 ^ unit_exp f in
  (encode f (sign f op) (int_rounded rounding (sign f op) (mag f op) D * D),
   if nz (mag f op mod D) && exact then FPLIB_IXC else 0).

(** The error bits of the code, at a place [d] bits above the last one. *)
Lemma round_int_error w m d :
  0 < m → 4 * m < 2 ^ w → 1 ≤ d → 0 < w →
  (if w <? d then 1
   else Z.lor (Z.land (Z.shiftr (wrap w (Z.shiftl m 1)) (d - 1)) 3) (nzi (wrap w (Z.shiftl (wrap w (Z.shiftl m 2)) (w - d))))) =
  classify m d.
Proof.
  intros Hm Hw Hd Hw0. destruct (Z.ltb_spec w d).
  - unfold classify. assert (2 ^ w ≤ 2 ^ d) by (apply Z.pow_le_mono_r; lia). rewrite Z.mod_small by lia.
    unfold excess. destruct (Z.eqb_spec m 0); [lia|]. by destruct (Z.compare_spec (2 * m) (2 ^ d)); [lia| |lia].
  - rewrite !Z.shiftl_mul_pow2 by lia. rewrite (wrap_small w (m * 2 ^ 1)), (wrap_small w (m * 2 ^ 2)) by (unfold in_width; lia).
    rewrite shiftr_div by lia. rewrite <- (Z.shiftl_mul_pow2 (m * 2 ^ 2)), lost_bits by lia.
    pose proof (pow2_pos (d - 1) ltac:(lia)). assert (2 ^ d = 2 ^ (d - 1) * 2) as H2.
    { rewrite Z.mul_comm, <- Z.pow_succ_r by lia. f_equal. lia. }
    assert (m * 2 ^ 1 / 2 ^ (d - 1) = m * 2 ^ 2 / 2 ^ d) as ->.
    { rewrite H2. replace (m * 2 ^ 2) with (m * 2 ^ 1 * 2) by ring. by rewrite Z.div_mul_cancel_r by lia. }
    pose proof (error_bits (m * 2 ^ 2) (d + 2) ltac:(lia) ltac:(lia)) as He. replace (d + 2 - 2) with d in He by lia.
    rewrite He. unfold classify. rewrite Z.pow_add_r by lia. pose proof (pow2_pos d ltac:(lia)).
    rewrite Z.mul_mod_distr_r by lia. by apply excess_scale.
Qed.

(** A small integer as a number of the format. *)
Lemma pack_int f sg n :
  wf_format f → 1 ≤ bias f → 0 < n < 2 ^ (mbits f + 1) →
  (let '(m, e) := fp_normalise f n (bias f + mbits f) in
   fp_pack f sg (e + (width f - mbits f - 1)) (Z.shiftr m (width f - mbits f - 1))) = encode f sg (n * 2 ^ unit_exp f).
Proof.
  intros Hf Hb Hn. pose proof (wf_mbits f Hf). pose proof (wf_width f Hf). pose proof (wf_drop f Hf).
  destruct (normalise_spec f n (bias f + mbits f) Hf) as (t & Ht & -> & Hr).
  { split; [lia|]. apply Z.lt_le_trans with (2 ^ (mbits f + 1)); [lia|]. apply Z.pow_le_mono_r; lia. }
  set (k := width f - mbits f - 1) in *. assert (k ≤ t) as Hkt.
  { apply Z.nlt_ge. intros Hlt. assert (2 ^ t ≤ 2 ^ (k - 1)) by (apply Z.pow_le_mono_r; lia).
    assert (2 ^ (width f - 1) = 2 ^ (mbits f + 1) * 2 ^ (k - 1)) by (rewrite <- Z.pow_add_r by lia; f_equal; lia).
    pose proof (pow2_pos (k - 1) ltac:(lia)). pose proof (pow2_pos t Ht). nia. }
  assert (t ≤ width f - 1) as Ht2.
  { apply Z.nlt_ge. intros Hlt. assert (2 ^ width f ≤ 2 ^ t) by (apply Z.pow_le_mono_r; lia). nia. }
  pose proof (pow2_pos k ltac:(lia)). rewrite shiftr_div by lia.
  assert (n * 2 ^ t = n * 2 ^ (t - k) * 2 ^ k) as Hs by (rewrite <- Z.mul_assoc, <- Z.pow_add_r by lia; do 2 f_equal; lia).
  rewrite Hs, Z.div_mul by lia. rewrite Hs in Hr.
  assert (2 ^ (width f - 1) = 2 ^ mbits f * 2 ^ k) as HW by (rewrite <- Z.pow_add_r by lia; f_equal; lia).
  assert (2 ^ width f = 2 ^ (mbits f + 1) * 2 ^ k) as HW' by (rewrite <- Z.pow_add_r by lia; f_equal; lia).
  set (E := bias f + mbits f - t + k). rewrite <- (canonical_encode f sg E) by first [done|right; split; [unfold E; lia|nia]].
  f_equal. unfold magnitude. rewrite Z.max_r by (unfold E; lia). rewrite <- Z.mul_assoc, <- Z.pow_add_r by (unfold E; lia).
  f_equal. f_equal. unfold E, unit_exp. fold (bias f). lia.
Qed.

Lemma round_int_finite f op rounding exact :
  wf_format f → emax f = 2 * bias f + 1 → finite f op → 0 < mag f op → 0 ≤ rounding ≤ 4 →
  let w := width f in let int_exp := bias f + mbits f in let m := signif f op in let e := expo f op in
  (if int_exp <=? e then Ok (op, 0)
   else
     let x := if w <=? int_exp - e then 0 else Z.shiftr m (int_exp - e) in
     let err :=
       if e <? int_exp - w then 1
       else Z.lor (Z.land (Z.shiftr (wrap w (Z.shiftl m 1)) (int_exp - 1 - e)) 3)
              (nzi (wrap w (Z.shiftl (wrap w (Z.shiftl m 2)) (e - (int_exp - w))))) in
     x ← round_int w x err (sign f op) rounding;
     let result :=
       if x =? 0 then fp_zero f (sign f op)
       else
         let '(m, e) := fp_normalise f x int_exp in
         fp_pack f (sign f op) (e + (w - mbits f - 1)) (Z.shiftr m (w - mbits f - 1)) in
     Ok (result, if nz err && exact then Z.lor 0 FPLIB_IXC else 0)) =
  Ok (round_int_ref f op rounding exact).
Proof.
  intros Hf Hem Hop Hpos Hr w int_exp m e. destruct (signif_range f op Hf) as (Hs & Hn & He).
  pose proof (wf_mbits f Hf). pose proof (wf_width f Hf). pose proof (wf_drop f Hf). pose proof (emax_pos f Hf).
  assert (0 < 2 ^ unit_exp f) as HD by (apply pow2_pos; unfold unit_exp; fold (bias f); lia). unfold round_int_ref.
  assert (0 < m) as Hm0 by (unfold m; pose proof (signif_0 f op Hf); destruct (Z.eqb_spec (signif f op) 0), (Z.eqb_spec (mag f op) 0); done || lia).
  fold m e in Hs, Hn, He. destruct (Z.leb_spec int_exp e) as [Hle|Hgt].
  - assert (mag f op = m * 2 ^ (e - int_exp) * 2 ^ unit_exp f) as Hmag.
    { unfold mag. fold m e. rewrite <- Z.mul_assoc, <- Z.pow_add_r by (unfold unit_exp; fold (bias f); lia).
      do 2 f_equal. unfold unit_exp, int_exp. fold (bias f). lia. }
    unfold int_rounded. rewrite Hmag. rewrite Z.div_mul, Z.mod_mul by lia.
    replace (int_increment rounding (sign f op) (m * 2 ^ (e - int_exp)) (excess 0 (2 ^ unit_exp f))) with false.
    2: { symmetry. unfold int_increment. cbn. by repeat case_match. }
    cbn [Z.b2z]. rewrite Z.add_0_r, <- Hmag. destruct Hop as [Hop Hfin]. destruct (encode_mag f op Hf Hop Hfin) as [-> _]. done.
  - set (d := int_exp - e). pose proof (pow2_pos d ltac:(lia)).
    assert (2 ^ (mbits f + 1) * 4 ≤ 2 ^ w) as Hw.
    { change 4 with (2 ^ 2). rewrite <- Z.pow_add_r by lia. apply Z.pow_le_mono_r; lia. }
    assert ((if w <=? d then 0 else Z.shiftr m d) = m / 2 ^ d) as ->.
    { destruct (Z.leb_spec w d); [|by apply shiftr_div; lia]. symmetry. apply Z.div_small.
      assert (2 ^ w ≤ 2 ^ d) by (apply Z.pow_le_mono_r; lia). lia. }
    replace (e <? int_exp - w) with (w <? d) by (destruct (Z.ltb_spec w d), (Z.ltb_spec e (int_exp - w)); lia || done).
    replace (int_exp - 1 - e) with (d - 1) by lia. replace (e - (int_exp - w)) with (w - d) by lia.
    cbv zeta. rewrite round_int_error by lia. unfold classify. set (err := excess (m mod 2 ^ d) (2 ^ d)).
    pose proof (excess_range (m mod 2 ^ d) (2 ^ d)) as Herr. fold err in Herr.
    assert (0 ≤ m / 2 ^ d < 2 ^ mbits f) as Hq.
    { split; [apply Z.div_pos; lia|]. apply Z.div_lt_upper_bound; [lia|]. assert (2 ^ 1 ≤ 2 ^ d) by (apply Z.pow_le_mono_r; lia).
      rewrite Z.pow_add_r in Hs by lia. nia. }
    rewrite round_int_spec; [|done|done|unfold in_width; rewrite Z.pow_add_r in Hw by lia; lia..].
    cbn [mbind res_bind].
    assert (mag f op * 2 ^ d = m * 2 ^ unit_exp f) as Hratio.
    { unfold mag. fold m e. rewrite <- Z.mul_assoc, <- Z.pow_add_r by lia. do 2 f_equal. unfold unit_exp. fold (bias f). lia. }
    destruct (int_rounded_ratio rounding (sign f op) (mag f op) (2 ^ unit_exp f) m (2 ^ d) HD ltac:(done) Hratio) as [Hrn Hex].
    unfold nz at 2. rewrite Hrn, Hex. change (m / 2 ^ d + _) with (int_rounded rounding (sign f op) m (2 ^ d)).
    unfold err. rewrite excess_nz. f_equal. f_equal.
    set (n := int_rounded rounding (sign f op) m (2 ^ d)).
    assert (0 ≤ n ≤ 2 ^ mbits f) as Hnr by (unfold n, int_rounded; destruct (int_increment _ _ _ _); cbn [Z.b2z]; lia).
    destruct (Z.eqb_spec n 0) as [->|Hne].
    + unfold encode, fp_zero. destruct (Z.ltb_spec (0 * 2 ^ unit_exp f) (2 ^ mbits f)); [done|pose proof (pow2_pos (mbits f)); lia].
    + apply pack_int; [done|lia|]. rewrite Z.pow_add_r by lia. lia.
Qed.

(** Rounding to an integral value, on every operand. *)
Definition roundint_ref (f : format) (op rounding : Z) (exact : bool) (mode : Z) : Z * Z :=
  if is_NaN f op then fp_process_NaN f op mode 0
  else if is_inf f op then (op, 0)
  else round_int_ref f op rounding exact.

Lemma fplibRoundInt_ref f op rounding exact fpscr :
  f = F32 ∨ f = F64 → in_width (width f) op → 0 ≤ rounding ≤ 4 → fpscr_fz fpscr = false →
  fplibRoundInt f op rounding exact fpscr = with_flags fpscr (Ok (roundint_ref f op rounding exact (modeConv fpscr))).
Proof.
  intros Hff Hop Hr Hfz. assert (wf_format f) as Hf by (destruct Hff as [-> | ->]; [apply wf_F32|apply wf_F64]).
  assert (emax f = 2 * bias f + 1) as Hem by (destruct Hff as [-> | ->]; done).
  unfold fplibRoundInt, roundint_ref. rewrite fp_unpack_spec by (done || by apply modeConv_fz).
  fold (unpack_of f op). rewrite nan_bits_spec by done. destruct (is_NaN f op) eqn:Hn; [done|]. f_equal.
  cbn [sgn exp mnt unpack_of]. rewrite not_NaN_inf by done.
  destruct (is_inf f op) eqn:Hi; [by rewrite infinity_eq|].
  assert (finite f op) as Hfin by (split; [done|]; rewrite not_NaN_inf_raw in Hi by done; by apply Z.eqb_neq).
  unfold nz at 1. rewrite negb_involutive, signif_0 by done. pose proof (mag_nonneg f op Hf).
  destruct (Z.eqb_spec (mag f op) 0) as [Hz|Hz]; [|by apply round_int_finite; try done; lia].
  unfold round_int_ref, int_rounded. rewrite Hz.
  assert (0 < 2 ^ unit_exp f) as HD by (destruct Hff as [-> | ->]; done). rewrite Z.div_0_l, Z.mod_0_l by lia.
  replace (int_increment rounding (sign f op) 0 (excess 0 (2 ^ unit_exp f))) with false.
  2: { symmetry. unfold int_increment. cbn. by repeat case_match. }
  cbn [Z.b2z Z.add nz Z.eqb negb andb]. rewrite Z.mul_0_l. unfold encode, fp_zero.
  assert (0 < 2 ^ mbits f) by (destruct Hff as [-> | ->]; done). by destruct (Z.ltb_spec 0 (2 ^ mbits f)); [|lia].
Qed.

(** Rounding to an integral value is correct.  For every operand and each of the five rounding
    directions, [fplibRoundInt] returns the floating-point number whose magnitude is that of the
    operand rounded to an integer, with the operand's sign (so a negative fraction may give minus
    zero), and raises inexact exactly when the value changed and the caller asked for it;
    infinities are returned unchanged and NaNs processed. *)
Theorem fplibRoundInt_correct x d rounding exact fpscr :
  in_width 32 x → in_width 64 d → 0 ≤ rounding ≤ FPRounding_TIEAWAY → fpscr_fz fpscr = false →
  fplibRoundInt_32 x rounding exact fpscr = with_flags fpscr (Ok (roundint_ref F32 x rounding exact (modeConv fpscr))) ∧
  fplibRoundInt_64 d rounding exact fpscr = with_flags fpscr (Ok (roundint_ref F64 d rounding exact (modeConv fpscr))).
Proof. intros. split; apply fplibRoundInt_ref; auto. Qed.

(** Minus one half, ties to even: minus zero; two and a half, ties away: three. *)
Lemma fplibRoundInt_correct_witness :
  fplibRoundInt_32 0xbf000000 0 true 0 = Ok (0x80000000, 16) ∧
  fplibRoundInt_64 0x4004000000000000 4 false 0 = Ok (0x4008000000000000, 0).
Proof.
  assert (in_width 32 0xbf000000) as Hx by (by vm_compute).
  assert (in_width 64 0x4004000000000000) as Hd by (by vm_compute).
  assert (0 ≤ 0 ≤ FPRounding_TIEAWAY) as Hr0 by (by vm_compute).
  assert (0 ≤ 4 ≤ FPRounding_TIEAWAY) as Hr4 by (by vm_compute).
  destruct (fplibRoundInt_correct 0xbf000000 0x4004000000000000 0 true 0 Hx Hd Hr0 eq_refl) as [H1 _].
  destruct (fplibRoundInt_correct 0xbf000000 0x4004000000000000 4 false 0 Hx Hd Hr4 eq_refl) as [_ H2].
  rewrite H1, H2. split; vm_compute; reflexivity.
Defined.

(** ** From fixed point *)

(** The fixed-point number [a] with [fbits] fraction bits, rounded. *)
Definition from_fixed_ref (f : format) (a fbits : Z) (u : bool) (rounding : Z) : Z * Z :=
  let v := if u then a else if 2 ^ 63 <=? a then a - 2 ^ 64 else a in
  if v =? 0 then (fp_zero f 0, 0)
  else round_spec f rounding (Z.b2z (v <? 0)) (Z.abs v * 2 ^ unit_exp f) (2 ^ fbits) 0.

Lemma fixed_mode_spec rounding fpscr :
  0 ≤ rounding ≤ 3 → fpscr_fz fpscr = false →
  Z.land (fixed_mode rounding fpscr) 3 = rounding ∧ Z.land (fixed_mode rounding fpscr) FPLIB_FZ = 0.
Proof.
  intros Hr Hfz. unfold fixed_mode. rewrite !Z.land_lor_distr_l, <- !Z.land_assoc.
  change (Z.land 12 3) with 0. change (Z.land 12 FPLIB_FZ) with 4. rewrite Z.land_0_r, Z.lor_0_r.
  assert (Z.land (Z.shiftr fpscr 22) 4 = 0) as ->.
  { apply Z.bits_inj_iff'. intros i Hi. rewrite Z.land_spec, Z.bits_0, Z.shiftr_spec by done. change 4 with (2 ^ 2).
    rewrite Z.pow2_bits_eqb by lia. destruct (Z.eqb_spec 2 i) as [<-|]; [|apply andb_false_r]. by rewrite andb_true_r. }
  assert (rounding = 0 ∨ rounding = 1 ∨ rounding = 2 ∨ rounding = 3) as [E|[E|[E|E]]] by lia; rewrite E; done.
Qed.

(** The sign and magnitude the code starts from. *)
Lemma cvtf_operand a (u : bool) :
  in_width 64 a →
  let x_sgn := if u then 0 else Z.b2z (nz (Z.shiftr a 63)) in
  let v := if u then a else if 2 ^ 63 <=? a then a - 2 ^ 64 else a in
  (if nz x_sgn then u64 (- a) else a) = Z.abs v ∧ x_sgn = Z.b2z (v <? 0) ∧ Z.abs v < 2 ^ 64.
Proof.
  intros [Ha Ha']. cbv zeta. destruct u; [destruct (Z.ltb_spec a 0); [lia|]; split_and!; [cbn; lia|done|lia]|].
  rewrite shiftr_div by lia. destruct (Z.leb_spec (2 ^ 63) a).
  - assert (a / 2 ^ 63 = 1) as -> by (symmetry; apply Z.div_unique with (r := a - 2 ^ 63); lia). cbn [nz Z.eqb negb Z.b2z Pos.eqb].
    destruct (Z.ltb_spec (a - 2 ^ 64) 0); [|lia]. split_and!; [|done|lia]. unfold wrap. symmetry. apply Z.mod_unique with (q := -1); lia.
  - rewrite Z.div_small by lia. cbn [nz Z.eqb negb Z.b2z]. destruct (Z.ltb_spec a 0); [lia|]. split_and!; [lia|done|lia].
Qed.

Lemma fp32_cvtf_ref a fbits u rounding fpscr :
  in_width 64 a → 0 ≤ fbits ≤ 64 → 0 ≤ rounding ≤ 3 → fpscr_fz fpscr = false →
  fp32_cvtf a fbits u (fixed_mode rounding fpscr) 0 = Ok (from_fixed_ref F32 a fbits u rounding).
Proof.
  intros Ha Hfb Hr Hfz. destruct (fixed_mode_spec rounding fpscr Hr Hfz) as [Hm3 Hmfz].
  unfold fp32_cvtf, from_fixed_ref. destruct (cvtf_operand a u Ha) as (Hx & Hs & Hlt). cbv zeta in Hx, Hs, Hlt |- *.
  rewrite Hx, Hs. set (v := if u then a else _) in *. clearbody v. unfold nz at 1. rewrite negb_involutive.
  destruct (Z.eqb_spec v 0) as [->|Hne]; [done|]. destruct (Z.eqb_spec (Z.abs v) 0); [lia|].
  change (unit_exp F32) with 149. set (x := Z.abs v) in *.
  assert (x * 2 ^ 149 * 2 ^ 64 = x * (2 ^ (190 - fbits + 0 - 41 + 64) * 2 ^ fbits)) as Heq.
  { rewrite <- Z.mul_assoc, <- !Z.pow_add_r by lia. do 2 f_equal. lia. }
  rewrite <- Hm3. rewrite <- (round32_of64 _ x (190 - fbits) 0 (fixed_mode rounding fpscr) 0 _ _ 64);
    [|done|lia|apply pow2_pos; lia|lia|lia|by left|by left].
  destruct (fp64_normalise x (190 - fbits)) as [x' e']. rewrite Z.add_0_r, Hm3. done.
Qed.

Lemma fp64_cvtf_ref a fbits u rounding fpscr :
  in_width 64 a → 0 ≤ fbits ≤ 64 → 0 ≤ rounding ≤ 3 → fpscr_fz fpscr = false →
  fp64_cvtf a fbits u (fixed_mode rounding fpscr) 0 = Ok (from_fixed_ref F64 a fbits u rounding).
Proof.
  intros Ha Hfb Hr Hfz. destruct (fixed_mode_spec rounding fpscr Hr Hfz) as [Hm3 Hmfz].
  unfold fp64_cvtf, from_fixed_ref. destruct (cvtf_operand a u Ha) as (Hx & Hs & Hlt). cbv zeta in Hx, Hs, Hlt |- *.
  rewrite Hx, Hs. set (v := if u then a else _) in *. clearbody v. unfold nz at 1. rewrite negb_involutive.
  destruct (Z.eqb_spec v 0) as [->|Hne]; [done|]. destruct (Z.eqb_spec (Z.abs v) 0); [lia|].
  change (unit_exp F64) with 1074. set (x := Z.abs v) in *. unfold fp64_normalise.
  destruct (normalise_spec F64 x (1024 + 62 - fbits) wf_F64) as (t & Ht & -> & Hrt); [change (width F64) with 64; lia|].
  change (width F64 - 1) with 63 in Hrt. change (width F64) with 64 in Hrt.
  destruct (wrap_top 64 (x * 2 ^ t) ltac:(lia) Hrt) as [Hbig Hmnt]. unfold fp64_round, fp_round. rewrite Hm3.
  apply (fp_round_correct F64 _ _ _ rounding (fixed_mode rounding fpscr) 0 0); try done;
    [apply wf_F64|apply pow2_pos; lia|change (width F64 - mbits F64) with 12; lia| |unfold FPRounding_TIEAWAY; lia].
  exists (t + 64). change (width F64) with 64. change (mbits F64) with 52. split_and!; [lia|lia|]. left. rewrite Hbig.
  replace (2 * (x * 2 ^ t)) with (x * 2 ^ (t + 1)) by (rewrite Z.pow_add_r by lia; ring).
  rewrite <- !Z.mul_assoc, <- !Z.pow_add_r by lia. do 2 f_equal. lia.
Qed.

(** Conversions from fixed point round once.  For every 64-bit operand, signed or unsigned,
    with 0 to 64 fraction bits and each of the four rounding modes of the FPSCR, the conversion
    to single and to double is the exact value of the operand rounded once, with its exceptions;
    zero converts to plus zero. *)
Theorem fplibFixedToFP_correct a fbits u rounding fpscr :
  in_width 64 a → 0 ≤ fbits ≤ 64 → 0 ≤ rounding ≤ FPRounding_ZERO → fpscr_fz fpscr = false →
  fplibFixedToFP_32 a fbits u rounding fpscr = with_flags fpscr (Ok (from_fixed_ref F32 a fbits u rounding)) ∧
  fplibFixedToFP_64 a fbits u rounding fpscr = with_flags fpscr (Ok (from_fixed_ref F64 a fbits u rounding)).
Proof.
  intros. unfold fplibFixedToFP_32, fplibFixedToFP_64. by rewrite fp32_cvtf_ref, fp64_cvtf_ref.
Qed.

(** Minus one with no fraction bits; [2^64 - 1] unsigned does not fit a double. *)
Lemma fplibFixedToFP_correct_witness :
  fplibFixedToFP_32 0xffffffffffffffff 0 false 0 0 = Ok (0xbf800000, 0) ∧
  fplibFixedToFP_64 0xffffffffffffffff 0 true 0 0 = Ok (0x43f0000000000000, 16).
Proof.
  assert (in_width 64 0xffffffffffffffff) as Ha by (by vm_compute). assert (0 ≤ 0 ≤ 64) as Hf by (by vm_compute).
  assert (0 ≤ 0 ≤ FPRounding_ZERO) as Hr by (by vm_compute).
  destruct (fplibFixedToFP_correct 0xffffffffffffffff 0 false 0 0 Ha Hf Hr eq_refl) as [H1 _].
  destruct (fplibFixedToFP_correct 0xffffffffffffffff 0 true 0 0 Ha Hf Hr eq_refl) as [_ H2].
  rewrite H1, H2. split; vm_compute; reflexivity.
Defined.

End FplibIntProofs.
