(* ===== verification/FplibProofs.v ===== *)
(** * The floating-point library is correct

    What the entry points of [arch/arm/insts/fplib.cc] compute, in all rounding modes, with
    flush-to-zero off: additions, multiplications, fused multiply-adds, divisions and square roots
    are the exact result rounded once, with the exceptions of that rounding; the rounding itself
    is IEEE 754's; comparisons order operands as numbers. *)

From S2P Require Import Prelude Fplib FplibOps FplibApi FplibConv FplibRound FplibArith FplibMul FplibFma FplibDiv FplibSqrt FplibConvProofs.

Open Scope Z_scope.

Module FplibProofs.
Import Fplib FplibOps FplibApi FplibConv FplibRound FplibArith FplibMul FplibFma FplibDiv FplibSqrt FplibConvProofs.

(** ** Rounding *)

(** The unit in the last place of [N / D]: the last bit of the integer part while that has at
    most as many bits as a significand, the last bit of its leading part otherwise. *)
Definition ulp (f : format) (N D : Z) : Z := 2 ^ ulp_exp f N D.

Lemma ulp_bounds f N D :
  wf_format f → 0 ≤ N → 0 < D →
  0 < ulp f N D ∧ (1 < ulp f N D → 2 ^ mbits f * ulp f N D * D ≤ N) ∧ N < 2 ^ (mbits f + 1) * ulp f N D * D.
Proof.
  intros Hf HN HD. pose proof (wf_mbits f Hf). unfold ulp, ulp_exp. set (v := N / D).
  pose proof (Z.div_mod N D ltac:(lia)) as Hd. pose proof (Z.mod_pos_bound N D HD). fold v in Hd.
  assert (0 ≤ v) by (apply Z.div_pos; lia). set (L := Z.log2 v). pose proof (Z.log2_nonneg v). fold L in H2.
  set (k := Z.max 0 (L - mbits f)). pose proof (pow2_pos k ltac:(lia)).
  assert (v + 1 ≤ 2 ^ (mbits f + 1 + k)) as Hub.
  { apply Z.le_trans with (2 ^ (L + 1)); [|apply Z.pow_le_mono_r; lia].
    destruct (decide (v = 0)) as [->|]; [unfold L; cbn; lia|].
    destruct (Z.log2_spec v ltac:(lia)) as [_ Hl]. fold L in Hl. rewrite <- Z.add_1_r in Hl. lia. }
  rewrite <- !Z.pow_add_r by lia. split_and!; [done| |nia].
  intros Hu. assert (0 < k) as Hk by (apply Z.nle_gt; intros Hk; assert (k = 0) as Hk0 by lia; rewrite Hk0 in Hu; cbn in Hu; lia).
  assert (2 ^ (mbits f + k) ≤ v); [|nia]. replace (mbits f + k) with L by lia.
  destruct (decide (v = 0)) as [Hv|]; [unfold k, L in Hk; rewrite Hv in Hk; cbn in Hk; lia|].
  apply Z.log2_spec. lia.
Qed.

(** What the error bits say of the remainder. *)
Lemma excess_cases r u : 0 ≤ r < u →
  (excess r u = 0 ∧ r = 0) ∨ (excess r u = 1 ∧ 0 < 2 * r < u) ∨ (excess r u = 2 ∧ 2 * r = u) ∨ (excess r u = 3 ∧ u < 2 * r).
Proof.
  intros Hr. unfold excess. destruct (Z.eqb_spec r 0); [lia|]. destruct (Z.compare_spec (2 * r) u); lia.
Qed.

(** A multiple of the unit, from the rounded quotient. *)
Lemma rnd_multiple f rm sg N D :
  wf_format f → 0 ≤ N → 0 < D →
  let u := ulp f N D in let q := N / (D * u) in let r := N mod (D * u) in
  let z := rounded rm sg q (excess r (D * u)) in
  rnd f rm sg N D = z * u ∧ (u | z * u) ∧ z * u / u = z ∧
  z * u * D - N = (D * u) * (z - q) - r ∧ 0 ≤ q ∧ 0 ≤ r < D * u.
Proof.
  intros Hf HN HD u q r z. destruct (ulp_bounds f N D Hf HN HD) as (Hu & _ & _). fold u in Hu.
  assert (0 < D * u) by nia. pose proof (Z.div_mod N (D * u) ltac:(lia)) as Hd. fold q r in Hd.
  split_and!; try done; [by exists z|by apply Z.div_mul; lia|rewrite Hd at 1; ring|apply Z.div_pos; lia|apply Z.mod_pos_bound; lia..].
Qed.

(** C20: the rounding decision of the code is IEEE 754's.  From the quotient of the exact value by
    the unit in the last place and its two error bits (the first lost bit, and whether any other
    was lost), the code's increment of the significand gives: in the mode "to nearest, ties to
    even", a multiple of the unit at most half of it away, and the even one in a tie; in a
    directed mode, the nearest multiple on the required side (the sign of the number taken into
    account); towards zero, the truncation; to odd, the truncation with its last bit set when
    anything was lost.  The unit is the one of the format: the value has at most [mbits + 1] bits
    above it, and exactly that many unless it is the unit of the subnormal numbers. *)
Theorem rounding_is_ieee f sg N D :
  wf_format f → 0 ≤ N → 0 < D →
  let u := ulp f N D in
  (1 < u → 2 ^ mbits f * u * D ≤ N) ∧ N < 2 ^ (mbits f + 1) * u * D ∧
  (let y := rnd f FPLIB_RN sg N D in (u | y) ∧ 2 * Z.abs (y * D - N) ≤ u * D ∧ (2 * Z.abs (y * D - N) = u * D → Z.Even (y / u))) ∧
  (let y := rnd f FPLIB_RZ sg N D in (u | y) ∧ y * D ≤ N < y * D + u * D) ∧
  (∀ rm, rm = FPLIB_RP ∨ rm = FPLIB_RM →
   let y := rnd f rm sg N D in
   (u | y) ∧
   if (rm =? FPLIB_RP) && negb (nz sg) || (rm =? FPLIB_RM) && nz sg
   then N ≤ y * D < N + u * D else y * D ≤ N < y * D + u * D) ∧
  (let y := rnd f FPRounding_ODD sg N D in
   (u | y) ∧ (y * D = N ∨ (Z.Odd (y / u) ∧ Z.abs (y * D - N) < u * D))).
Proof.
  intros Hf HN HD u. destruct (ulp_bounds f N D Hf HN HD) as (Hu & Hlo & Hhi). fold u in Hu, Hlo, Hhi.
  split_and!; [done|done|..].
  - destruct (rnd_multiple f FPLIB_RN sg N D Hf HN HD) as (-> & Hdv & Hz & He & Hq & Hr). fold u in Hdv, Hz, He, Hq, Hr |- *.
    cbv zeta. split; [exact Hdv|]. rewrite Hz, He. clear Hdv Hz He.
    set (R := D * u) in *. set (q := N / R) in *. set (r := N mod R) in *. replace (u * D) with R by (unfold R; ring).
    unfold rounded, round_up. cbn [Z.eqb Pos.eqb FPLIB_RN FPLIB_RP FPLIB_RM FPRounding_ODD andb orb]. rewrite orb_false_r.
    destruct (excess_cases r R Hr) as [[-> Hc]|[[-> Hc]|[[-> Hc]|[-> Hc]]]]; cbn [Z.eqb Pos.eqb andb orb Z.b2z].
    + split; lia.
    + split; lia.
    + destruct (Z.odd q) eqn:Ho; cbn [Z.b2z]; (split; [lia|]); intros _.
      * apply Z.odd_spec in Ho as [k ->]. exists (k + 1). ring.
      * rewrite <- Z.negb_even in Ho. apply negb_false_iff, Z.even_spec in Ho as [k ->]. exists k. ring.
    + split; lia.
  - destruct (rnd_multiple f FPLIB_RZ sg N D Hf HN HD) as (-> & Hdv & Hz & He & Hq & Hr). fold u in Hdv, Hz, He, Hq, Hr |- *.
    change (rounded FPLIB_RZ sg (N / (D * u)) (excess (N mod (D * u)) (D * u))) with (N / (D * u) + 0) in *. split; [done|nia].
  - intros rm Hrm. destruct (rnd_multiple f rm sg N D Hf HN HD) as (-> & Hdv & Hz & He & Hq & Hr). fold u in Hdv, Hz, He, Hq, Hr |- *.
    cbv zeta. split; [done|]. set (R := D * u) in *. set (q := N / R) in *. set (r := N mod R) in *. replace (u * D) with R by (unfold R; ring).
    revert He. unfold rounded, round_up.
    destruct Hrm as [-> | ->]; cbn [Z.eqb Pos.eqb FPLIB_RN FPLIB_RP FPLIB_RM FPRounding_ODD andb orb]; destruct (nz sg); cbn [negb andb orb Z.b2z];
      destruct (excess_cases r R Hr) as [[E Hc]|[[E Hc]|[[E Hc]|[E Hc]]]]; rewrite ?E; cbn [nz Z.eqb negb Z.b2z andb]; intros He; lia.
  - destruct (rnd_multiple f FPRounding_ODD sg N D Hf HN HD) as (-> & Hdv & Hz & He & Hq & Hr). fold u in Hdv, Hz, He, Hq, Hr |- *.
    cbv zeta. split; [done|]. rewrite Hz, He. set (R := D * u) in *. set (q := N / R) in *. set (r := N mod R) in *.
    replace (u * D) with R by (unfold R; ring). revert He. unfold rounded. change (FPRounding_ODD =? FPRounding_ODD) with true. cbv iota.
    rewrite excess_nz. unfold nz. destruct (Z.eqb_spec r 0) as [Hr0|Hr0]; cbn [negb]; intros He; [left; lia|right].
    rewrite lor_1 by done. pose proof (Z.div_mod q 2 ltac:(lia)). pose proof (Z.mod_pos_bound q 2 ltac:(lia)).
    split; [by exists (q / 2)|]. nia.
Qed.

(** A third in units of the smallest subnormal, scaled by 100: rounded to nearest. *)
Lemma rounding_is_ieee_witness :
  ulp F32 100 3 = 1 ∧ rnd F32 FPLIB_RN 0 100 3 = 33 ∧ 2 * Z.abs (rnd F32 FPLIB_RN 0 100 3 * 3 - 100) ≤ ulp F32 100 3 * 3.
Proof.
  destruct (rounding_is_ieee F32 0 100 3 wf_F32) as (_ & _ & (_ & H & _) & _); [lia|lia|].
  split; [by vm_compute|]. split; [by vm_compute|exact H].
Defined.

(** ** Arithmetic *)

(** C10: addition and subtraction are correctly rounded.  For all single- and double-precision
    operands, in every rounding mode with flush-to-zero off, [fplibAdd] and [fplibSub] return the
    exact sum or difference rounded once, with the exceptions of that rounding accumulated in the
    FPSCR; infinities of opposite signs are invalid, NaNs are processed, an exact zero has the
    sign IEEE 754 gives it.  In particular the sticky alignment and the renormalisation after
    cancellation lose nothing that matters. *)
Theorem fplibAdd_correct x y a b fpscr :
  in_width 32 x → in_width 32 y → in_width 64 a → in_width 64 b → fpscr_fz fpscr = false →
  let mode := modeConv fpscr in
  fplibAdd_32 x y fpscr = with_flags fpscr (Ok (add_ref F32 x y 0 mode 0)) ∧
  fplibSub_32 x y fpscr = with_flags fpscr (Ok (add_ref F32 x y 1 mode 0)) ∧
  fplibAdd_64 a b fpscr = with_flags fpscr (Ok (add_ref F64 a b 0 mode 0)) ∧
  fplibSub_64 a b fpscr = with_flags fpscr (Ok (add_ref F64 a b 1 mode 0)).
Proof.
  intros Hx Hy Ha Hb Hfz mode. pose proof (modeConv_fz _ Hfz) as Hm.
  unfold fplibAdd_32, fplibSub_32, fplibAdd_64, fplibSub_64, fplibAdd, fplibSub.
  pose proof wf_F32. pose proof wf_F64. rewrite !fp_add_ref by auto. done.
Qed.

(** Cancellation to a subnormal; a tie broken to even. *)
Lemma fplibAdd_correct_witness :
  fplibSub_32 0x00800001 0x00800000 0 = Ok (1, 0) ∧ fplibAdd_64 0x4340000000000000 0x3ff0000000000000 0 = Ok (0x4340000000000000, 16).
Proof.
  assert (in_width 32 0x00800001) as Hx by (by vm_compute). assert (in_width 32 0x00800000) as Hy by (by vm_compute).
  assert (in_width 64 0x4340000000000000) as Ha by (by vm_compute). assert (in_width 64 0x3ff0000000000000) as Hb by (by vm_compute).
  destruct (fplibAdd_correct _ _ _ _ 0 Hx Hy Ha Hb eq_refl) as (_ & H1 & H2 & _).
  rewrite H1, H2. split; vm_compute; reflexivity.
Defined.

(** C28: multiplication is correctly rounded.  For all single- and double-precision operands, in
    every rounding mode with flush-to-zero off, [fplibMul] returns the exact product rounded once
    with its exceptions (zero times infinity is invalid, NaNs are processed).  For doubles this
    includes the 128-bit product built from 31-bit pieces and its normalisation. *)
Theorem fplibMul_correct x y a b fpscr :
  fpscr_fz fpscr = false →
  let mode := modeConv fpscr in
  fplibMul_32 x y fpscr = with_flags fpscr (Ok (mul_ref F32 x y mode 0)) ∧
  fplibMul_64 a b fpscr = with_flags fpscr (Ok (mul_ref F64 a b mode 0)).
Proof.
  intros Hfz mode. pose proof (modeConv_fz _ Hfz) as Hm. unfold fplibMul_32, fplibMul_64, fplibMul.
  cbn [fp_mul F32_arith F64_arith]. by rewrite fp32_mul_ref, fp64_mul_ref.
Qed.

(** Underflow to a subnormal; the square of the double next above one. *)
Lemma fplibMul_correct_witness :
  fplibMul_32 0x00800000 0x3f000000 0 = Ok (0x00400000, 0) ∧
  fplibMul_64 0x3ff0000000000001 0x3ff0000000000001 0 = Ok (0x3ff0000000000002, 16).
Proof.
  destruct (fplibMul_correct 0x00800000 0x3f000000 0x3ff0000000000001 0x3ff0000000000001 0 eq_refl) as [H1 H2].
  rewrite H1, H2. split; vm_compute; reflexivity.
Defined.

(** C7: fused multiply-add is correctly rounded.  For all operands of both precisions, in every
    rounding mode with flush-to-zero off, [fplibMulAdd] returns the exact value of
    [addend + op1 * op2] rounded once - the product is not rounded - with its exceptions; the
    special operands (NaNs, infinities, zero times infinity with or without a quiet NaN addend)
    are those of the reference. *)
Theorem fplibMulAdd_correct z x y c a b fpscr :
  in_width 32 z → in_width 32 x → in_width 32 y → in_width 64 c → in_width 64 a → in_width 64 b → fpscr_fz fpscr = false →
  let mode := modeConv fpscr in
  fplibMulAdd_32 z x y fpscr = with_flags fpscr (Ok (muladd_ref F32 z x y 0 mode 0)) ∧
  fplibMulAdd_64 c a b fpscr = with_flags fpscr (Ok (muladd_ref F64 c a b 0 mode 0)).
Proof.
  intros Hz Hx Hy Hc Ha Hb Hfz mode. pose proof (modeConv_fz _ Hfz) as Hm. unfold fplibMulAdd_32, fplibMulAdd_64, fplibMulAdd.
  cbn [fp_muladd F32_arith F64_arith]. by rewrite fp32_muladd_ref, fp64_muladd_ref.
Qed.

(** [x * x - x^2 rounded] is the rounding error of the product, exactly. *)
Lemma fplibMulAdd_correct_witness :
  fplibMulAdd_64 0xbff0000000000002 0x3ff0000000000001 0x3ff0000000000001 0 = Ok (0x3970000000000000, 0) ∧
  fplibMulAdd_32 0x3f800000 0x7f7fffff 0x7f7fffff 0 = Ok (0x7f800000, 20).
Proof.
  assert (in_width 64 0xbff0000000000002) as Hc by (by vm_compute). assert (in_width 64 0x3ff0000000000001) as Ha by (by vm_compute).
  assert (in_width 32 0x3f800000) as Hz by (by vm_compute). assert (in_width 32 0x7f7fffff) as Hx by (by vm_compute).
  destruct (fplibMulAdd_correct _ _ _ _ _ _ 0 Hz Hx Hx Hc Ha Ha eq_refl) as [H1 H2].
  rewrite H1, H2. split; vm_compute; reflexivity.
Defined.

(** C6: division is correctly rounded.  For all single- and double-precision operands, in every
    rounding mode with flush-to-zero off, [fplibDiv] returns the exact quotient rounded once with
    its exceptions: division by zero gives an infinity and the divide-by-zero exception, zero by
    zero and infinity by infinity are invalid.  For doubles the code never divides by the divisor:
    it takes a 32-bit reciprocal, refines it by one Newton step and corrects the last bit of the
    product; that this is the integer part of the quotient, and that the sticky bit says whether
    it is exact, is part of the theorem. *)
Theorem fplibDiv_correct x y a b fpscr :
  fpscr_fz fpscr = false →
  let mode := modeConv fpscr in
  fplibDiv_32 x y fpscr = with_flags fpscr (Ok (div_ref F32 x y mode 0)) ∧
  fplibDiv_64 a b fpscr = with_flags fpscr (Ok (div_ref F64 a b mode 0)).
Proof.
  intros Hfz mode. pose proof (modeConv_fz _ Hfz) as Hm. unfold fplibDiv_32, fplibDiv_64, fplibDiv.
  cbn [fp_div F32_arith F64_arith]. by rewrite fp32_div_ref, fp64_div_ref.
Qed.

(** One third, in both precisions; one by minus zero. *)
Lemma fplibDiv_correct_witness :
  fplibDiv_32 0x3f800000 0x40400000 0 = Ok (0x3eaaaaab, 16) ∧
  fplibDiv_64 0x3ff0000000000000 0x4008000000000000 0 = Ok (0x3fd5555555555555, 16) ∧
  fplibDiv_32 0x3f800000 0x80000000 0 = Ok (0xff800000, 2).
Proof.
  destruct (fplibDiv_correct 0x3f800000 0x40400000 0x3ff0000000000000 0x4008000000000000 0 eq_refl) as [H1 H2].
  destruct (fplibDiv_correct 0x3f800000 0x80000000 0 0 0 eq_refl) as [H3 _].
  rewrite H1, H2, H3. split_and!; vm_compute; reflexivity.
Defined.

(** C5: the square root is correctly rounded.  For all single- and double-precision operands, in
    every rounding mode with flush-to-zero off, [fplibSqrt] returns the exact root rounded once
    with its exceptions: it is the rounding of every fraction [N / D] that lies between the same
    two multiples of the smallest subnormal as the root, or is the root if that is such a
    multiple.  Negative numbers are invalid, zeros keep their sign, NaNs are processed.  That the
    linear first estimate and the three (four for doubles) Newton steps with their truncations
    end within half a unit of the candidate, and that the last correction and the sticky bit are
    right, is part of the theorem. *)
Theorem fplibSqrt_correct x N D a N' D' fpscr :
  fpscr_fz fpscr = false →
  near_root (mag F32 x * 2 ^ unit_exp F32) N D → near_root (mag F64 a * 2 ^ unit_exp F64) N' D' →
  let mode := modeConv fpscr in
  fplibSqrt_32 x fpscr = with_flags fpscr (Ok (sqrt_ref F32 x N D mode 0)) ∧
  fplibSqrt_64 a fpscr = with_flags fpscr (Ok (sqrt_ref F64 a N' D' mode 0)).
Proof.
  intros Hfz HN HN' mode. pose proof (modeConv_fz _ Hfz) as Hm. unfold fplibSqrt_32, fplibSqrt_64, fplibSqrt.
  cbn [fp_sqrt F32_arith F64_arith]. by rewrite (fp32_sqrt_ref _ N D), (fp64_sqrt_ref _ N' D').
Qed.

(** The root of two is not exact, the root of a quarter is. *)
Lemma fplibSqrt_correct_witness :
  fplibSqrt_32 0x40000000 0 = Ok (0x3fb504f3, 16) ∧ fplibSqrt_64 0x3fd0000000000000 0 = Ok (0x3fe0000000000000, 0).
Proof.
  assert (near_root (mag F32 0x40000000 * 2 ^ unit_exp F32) (2 * Z.sqrt (2 ^ 299) + 1) 2) as H1
    by (by vm_compute).
  assert (near_root (mag F64 0x3fd0000000000000 * 2 ^ unit_exp F64) (2 ^ 1073) 1) as H2 by (by vm_compute).
  destruct (fplibSqrt_correct _ _ _ _ _ _ 0 eq_refl H1 H2) as [E1 E2].
  rewrite E1, E2. split; vm_compute; reflexivity.
Defined.

(** ** Comparison *)

(** A number that orders the operands: the signed magnitude, infinities included. *)
Definition key (f : format) (x : Z) : Z := signed (sign f x) (mag f x).

(** The magnitudes are ordered by exponent, then by significand. *)
Lemma mag_lt_expo f a b : wf_format f → expo f b < expo f a → mag f b < mag f a.
Proof.
  intros Hf Hlt. destruct (signif_range f a Hf) as (Ha & Hna & Hea). destruct (signif_range f b Hf) as (Hb & _ & Heb).
  specialize (Hna ltac:(lia)). pose proof (wf_mbits f Hf). unfold mag.
  pose proof (pow2_pos (expo f b - 1) ltac:(lia)). rewrite Z.pow_add_r in Hb by lia. change (2 ^ 1) with 2 in Hb.
  assert (2 * 2 ^ (expo f b - 1) ≤ 2 ^ (expo f a - 1)) by (rewrite <- Z.pow_succ_r by lia; apply Z.pow_le_mono_r; lia).
  pose proof (pow2_pos (mbits f) ltac:(lia)). nia.
Qed.

Lemma mag_cmp_signif f a b : wf_format f → expo f a = expo f b → (mag f b <? mag f a) = (signif f b <? signif f a).
Proof.
  intros Hf He. unfold mag. rewrite He. destruct (signif_range f b Hf) as (_ & _ & Heb).
  pose proof (pow2_pos (expo f b - 1) ltac:(lia)).
  destruct (Z.ltb_spec (signif f b) (signif f a)), (Z.ltb_spec (signif f b * 2 ^ (expo f b - 1)) (signif f a * 2 ^ (expo f b - 1))); nia || done.
Qed.

(** Operands that are not NaNs are equal as numbers only if they are the same word or both zero. *)
Lemma key_inj f a b :
  wf_format f → in_width (width f) a → in_width (width f) b → is_NaN f a = false → is_NaN f b = false →
  key f a = key f b → a = b ∨ (mag f a = 0 ∧ mag f b = 0).
Proof.
  intros Hf Ha Hb Hna Hnb Hk. pose proof (mag_nonneg f a Hf). pose proof (mag_nonneg f b Hf).
  unfold key, signed in Hk. destruct (decide (mag f a = 0)) as [Hz|Hz]; [right|left].
  { split; [done|]. destruct (sign f a =? 0), (sign f b =? 0); lia. }
  assert (sign f a = sign f b ∧ mag f a = mag f b) as [Hs Hm].
  { destruct (sign_range f a Hf Ha) as [E|E], (sign_range f b Hf Hb) as [E'|E']; rewrite E, E' in *; cbn [Z.eqb] in Hk; lia. }
  assert (expo f a = expo f b) as He.
  { destruct (Z.lt_trichotomy (expo f a) (expo f b)) as [Hlt|[Heq|Hlt]]; [|done|]; apply mag_lt_expo in Hlt; lia || done. }
  assert (signif f a = signif f b) as Hsi.
  { unfold mag in Hm. rewrite He in Hm. destruct (signif_range f b Hf) as (_ & _ & Heb). pose proof (pow2_pos (expo f b - 1) ltac:(lia)). nia. }
  assert (raw_exp f a = raw_exp f b) as Hr.
  { pose proof (raw_exp_range f a Hf). pose proof (raw_exp_range f b Hf). pose proof (raw_mnt_range f a Hf). pose proof (raw_mnt_range f b Hf).
    unfold expo in He. unfold signif in Hsi. destruct (Z.eqb_spec (raw_exp f a) 0), (Z.eqb_spec (raw_exp f b) 0); lia. }
  rewrite <- (fp_pack_unpack f a Hf Ha), <- (fp_pack_unpack f b Hf Hb). by rewrite Hs, Hr, Hsi.
Qed.

(** The code's comparison of different operands of the same sign. *)
Lemma compare_same_sign f a b :
  wf_format f → in_width (width f) a → sign f a = sign f b → expo f a ≠ expo f b ∨ signif f a ≠ signif f b →
  nz (Z.lxor (sign f a) (Z.b2z (if expo f a =? expo f b then signif f b <? signif f a else expo f b <? expo f a))) = (key f b <? key f a) ∧
  key f a ≠ key f b.
Proof.
  intros Hf Ha Hs Hne. unfold key. rewrite <- Hs.
  assert ((if expo f a =? expo f b then signif f b <? signif f a else expo f b <? expo f a) = (mag f b <? mag f a) ∧ mag f a ≠ mag f b) as [-> Hm].
  { destruct (Z.eqb_spec (expo f a) (expo f b)) as [He|He].
    - rewrite mag_cmp_signif by done. split; [done|]. unfold mag. rewrite He. destruct (signif_range f b Hf) as (_ & _ & Heb).
      pose proof (pow2_pos (expo f b - 1) ltac:(lia)). nia.
    - destruct (Z.ltb_spec (expo f b) (expo f a)) as [Hlt|Hge].
      + apply mag_lt_expo in Hlt; [|done]. split; [symmetry; by apply Z.ltb_lt|lia].
      + assert (expo f a < expo f b) as Hlt by lia. apply mag_lt_expo in Hlt; [|done]. split; [symmetry; apply Z.ltb_ge; lia|lia]. }
  unfold signed. destruct (sign_range f a Hf Ha) as [-> | ->]; cbn [Z.eqb];
    destruct (Z.ltb_spec (mag f b) (mag f a)); cbn [Z.b2z]; (split; [|lia]);
    repeat match goal with |- context [?x <? ?y] => destruct (Z.ltb_spec x y) end; done || lia.
Qed.

(** Operands of different signs, not both zero. *)
Lemma compare_signs f a b :
  wf_format f → in_width (width f) a → in_width (width f) b → sign f a ≠ sign f b → ¬ (mag f a = 0 ∧ mag f b = 0) →
  nz (sign f b) = (key f b <? key f a) ∧ nz (sign f a) = (key f a <? key f b) ∧ key f a ≠ key f b.
Proof.
  intros Hf Ha Hb Hs Hz. pose proof (mag_nonneg f a Hf). pose proof (mag_nonneg f b Hf). unfold key, signed.
  destruct (sign_range f a Hf Ha) as [E|E], (sign_range f b Hf Hb) as [E'|E']; rewrite E, E' in *; try done; cbn [Z.eqb];
    repeat match goal with |- context [?x <? ?y] => destruct (Z.ltb_spec x y) end; split_and!; done || lia.
Qed.

Lemma compare_order_spec f (if_equal : bool) a b mode flags :
  wf_format f → in_width (width f) a → in_width (width f) b → Z.land mode FPLIB_FZ = 0 →
  fp_compare_order f if_equal a b mode flags =
  if is_NaN f a || is_NaN f b then (false, Z.lor flags FPLIB_IOC)
  else ((key f b <? key f a) || (if_equal && (key f a =? key f b)), flags).
Proof.
  intros Hf Ha Hb Hfz. unfold fp_compare_order. rewrite !fp_unpack_spec by done. fold (unpack_of f a) (unpack_of f b).
  rewrite !nan_bits_spec by done. destruct (is_NaN f a || is_NaN f b); [done|]. cbn [sgn exp mnt unpack_of].
  unfold nz at 1 2. rewrite !negb_involutive, !signif_0 by done.
  destruct ((mag f a =? 0) && (mag f b =? 0)) eqn:Hz.
  { apply andb_true_iff in Hz as [Hza Hzb]. apply Z.eqb_eq in Hza, Hzb. unfold key, signed. rewrite Hza, Hzb.
    by destruct (sign f a =? 0), (sign f b =? 0), if_equal. }
  assert (¬ (mag f a = 0 ∧ mag f b = 0)) as Hz' by (intros [Hza Hzb]; by rewrite Hza, Hzb in Hz).
  destruct (Z.eqb_spec (sign f a) (sign f b)) as [Hs|Hs]; cbn [negb].
  2: { destruct (compare_signs f a b Hf Ha Hb Hs Hz') as (-> & _ & Hk). apply Z.eqb_neq in Hk.
       by rewrite Hk, andb_false_r, orb_false_r. }
  pose proof (compare_same_sign f a b Hf Ha Hs) as Hcmp.
  destruct (Z.eqb_spec (expo f a) (expo f b)) as [He|He]; cbn [negb].
  - destruct (Z.eqb_spec (signif f a) (signif f b)) as [Hm|Hm]; cbn [negb].
    + assert (key f a = key f b) as -> by (unfold key, mag; by rewrite Hs, He, Hm). by rewrite Z.ltb_irrefl, Z.eqb_refl, andb_true_r.
    + destruct (Hcmp ltac:(by right)) as [-> Hk]. apply Z.eqb_neq in Hk. by rewrite Hk, andb_false_r, orb_false_r.
  - destruct (Hcmp ltac:(by left)) as [-> Hk]. apply Z.eqb_neq in Hk. by rewrite Hk, andb_false_r, orb_false_r.
Qed.

Lemma compare_eq_spec f a b mode flags :
  wf_format f → in_width (width f) a → in_width (width f) b → Z.land mode FPLIB_FZ = 0 →
  fp_compare_eq f a b mode flags =
  if is_NaN f a || is_NaN f b
  then (false, if (is_NaN f a && negb (quiet f a)) || (is_NaN f b && negb (quiet f b)) then Z.lor flags FPLIB_IOC else flags)
  else (key f a =? key f b, flags).
Proof.
  intros Hf Ha Hb Hfz. unfold fp_compare_eq. rewrite !fp_unpack_spec by done. fold (unpack_of f a) (unpack_of f b).
  rewrite !nan_bits_spec by done. unfold quiet. destruct (is_NaN f a || is_NaN f b) eqn:Hn; [done|]. apply orb_false_iff in Hn as [Hna Hnb].
  cbn [sgn exp mnt unpack_of]. unfold nz. rewrite !negb_involutive, !signif_0 by done. f_equal.
  destruct (Z.eqb_spec (key f a) (key f b)) as [Hk|Hk].
  - destruct (key_inj f a b Hf Ha Hb Hna Hnb Hk) as [-> |[-> ->]]; [by rewrite Z.eqb_refl|apply orb_true_r].
  - destruct (Z.eqb_spec a b) as [->|]; [done|]. cbn [orb].
    destruct (Z.eqb_spec (mag f a) 0) as [Hza|], (Z.eqb_spec (mag f b) 0) as [Hzb|]; try done.
    exfalso. apply Hk. unfold key, signed. rewrite Hza, Hzb. by destruct (sign f a =? 0), (sign f b =? 0).
Qed.

(** The condition flags of a comparison. *)
Definition nzcv (f : format) (a b : Z) : Z :=
  if is_NaN f a || is_NaN f b then 3 else match key f a ?= key f b with Eq => 6 | Lt => 8 | Gt => 2 end.

Definition nan_flags (f : format) (a b : Z) (signal : bool) : Z :=
  if (is_NaN f a && negb (quiet f a)) || (is_NaN f b && negb (quiet f b)) || ((is_NaN f a || is_NaN f b) && signal)
  then FPLIB_IOC else 0.

Lemma fplibCompare_spec f a b signal_nans fpscr :
  wf_format f → in_width (width f) a → in_width (width f) b → fpscr_fz fpscr = false →
  fplibCompare f a b signal_nans fpscr = (nzcv f a b, set_fpscr0 fpscr (nan_flags f a b signal_nans)).
Proof.
  intros Hf Ha Hb Hfz. pose proof (modeConv_fz _ Hfz) as Hm. unfold fplibCompare, nzcv, nan_flags.
  rewrite !fp_unpack_spec by done. fold (unpack_of f a) (unpack_of f b). rewrite !nan_bits_spec by done.
  cbn [sgn exp mnt unpack_of]. rewrite !testbit_signif by done.
  destruct (is_NaN f a || is_NaN f b) eqn:Hn; [cbn [andb]; by destruct (_ || _ || signal_nans)|]. apply orb_false_iff in Hn as [Hna Hnb].
  rewrite Hna, Hnb. cbn [andb orb]. unfold nz at 1 2. rewrite !negb_involutive, !signif_0 by done.
  destruct ((a =? b) || ((mag f a =? 0) && (mag f b =? 0))) eqn:Hz.
  { replace (key f a ?= key f b) with Eq; [done|]. symmetry. apply Z.compare_eq_iff. apply orb_true_iff in Hz as [Hz|Hz].
    - apply Z.eqb_eq in Hz. by subst.
    - apply andb_true_iff in Hz as [Hza Hzb]. apply Z.eqb_eq in Hza, Hzb. unfold key, signed. rewrite Hza, Hzb.
      by destruct (sign f a =? 0), (sign f b =? 0). }
  apply orb_false_iff in Hz as [Hab Hz]. apply Z.eqb_neq in Hab.
  assert (¬ (mag f a = 0 ∧ mag f b = 0)) as Hz' by (intros [Hza Hzb]; by rewrite Hza, Hzb in Hz).
  assert (key f a ≠ key f b) as Hk by (intros Hk; destruct (key_inj f a b Hf Ha Hb Hna Hnb Hk); done).
  assert (∀ r, r = (key f a <? key f b) → (if r then 8 else 2) = match key f a ?= key f b with Eq => 6 | Lt => 8 | Gt => 2 end) as Hfin.
  { intros r ->. destruct (Z.compare_spec (key f a) (key f b)), (Z.ltb_spec (key f a) (key f b)); done || lia. }
  destruct (Z.eqb_spec (sign f a) (sign f b)) as [Hs|Hs]; cbn [negb].
  2: { f_equal. apply Hfin. by apply compare_signs. }
  pose proof (compare_same_sign f b a Hf Hb (eq_sym Hs)) as Hcmp.
  destruct (Z.eqb_spec (expo f a) (expo f b)) as [He|He]; cbn [negb]; f_equal; apply Hfin; rewrite Hs.
  - rewrite He, Z.eqb_refl in Hcmp. apply Hcmp. right. intros E. apply Hk. unfold key, mag. by rewrite Hs, He, E.
  - apply Z.eqb_neq in He as He'. rewrite Z.eqb_sym in He'. rewrite He' in Hcmp. apply Hcmp. left. done.
Qed.

(** Comparisons order operands as numbers.  With flush-to-zero off, for both precisions:
    [fplibCompareEQ], [GE] and [GT] are false when an operand is a NaN and otherwise compare the
    signed magnitudes (so plus zero equals minus zero and the infinities are the extremes);
    [fplibCompare] returns the condition flags 6, 8, 2 or 3 for equal, less, greater or
    unordered.  [EQ] and the quiet [fplibCompare] raise invalid operation for signalling NaNs
    only, the others for every NaN. *)
Theorem fplibCompare_correct f a b signal_nans fpscr :
  f = F32 ∨ f = F64 → in_width (width f) a → in_width (width f) b → fpscr_fz fpscr = false →
  let nan := is_NaN f a || is_NaN f b in
  fplibCompareEQ f a b fpscr = (negb nan && (key f a =? key f b), set_fpscr fpscr (nan_flags f a b false)) ∧
  fplibCompareGE f a b fpscr = (negb nan && (key f b <=? key f a), set_fpscr fpscr (nan_flags f a b true)) ∧
  fplibCompareGT f a b fpscr = (negb nan && (key f b <? key f a), set_fpscr fpscr (nan_flags f a b true)) ∧
  fplibCompare f a b signal_nans fpscr = (nzcv f a b, set_fpscr0 fpscr (nan_flags f a b signal_nans)).
Proof.
  intros Hff Ha Hb Hfz nan. assert (wf_format f) as Hf by (destruct Hff as [-> | ->]; [apply wf_F32|apply wf_F64]).
  pose proof (modeConv_fz _ Hfz) as Hm. unfold fplibCompareEQ, fplibCompareGE, fplibCompareGT.
  rewrite compare_eq_spec, !compare_order_spec, fplibCompare_spec by done. unfold nan, nan_flags.
  destruct (is_NaN f a) eqn:Hna, (is_NaN f b) eqn:Hnb; cbn [orb andb negb]; rewrite ?orb_false_r, ?orb_true_r;
    split_and!; try done; try (by destruct (_ || _)); try (by destruct (negb (quiet f a))); try (by destruct (negb (quiet f b))).
  f_equal. destruct (Z.ltb_spec (key f b) (key f a)), (Z.eqb_spec (key f a) (key f b)), (Z.leb_spec (key f b) (key f a)); done || lia.
Qed.

(** Plus and minus zero are equal; minus two is less than one. *)
Lemma fplibCompare_correct_witness :
  fplibCompare F32 0 0x80000000 true 0 = (6, 0) ∧ fplibCompareGE F32 0 0x80000000 0 = (true, 0) ∧
  fplibCompare F64 0xc000000000000000 0x3ff0000000000000 false 0 = (8, 0).
Proof.
  assert (in_width (width F32) 0) as Hx by (by vm_compute). assert (in_width (width F32) 0x80000000) as Hy by (by vm_compute).
  assert (in_width (width F64) 0xc000000000000000) as Ha by (by vm_compute).
  assert (in_width (width F64) 0x3ff0000000000000) as Hb by (by vm_compute).
  destruct (fplibCompare_correct F32 _ _ true 0 (or_introl eq_refl) Hx Hy eq_refl) as (_ & H1 & _ & H2).
  destruct (fplibCompare_correct F64 _ _ false 0 (or_intror eq_refl) Ha Hb eq_refl) as (_ & _ & _ & H3).
  rewrite H1, H2, H3. split_and!; vm_compute; reflexivity.
Defined.

(** ** Minimum and maximum *)

(** A word without its sign, as a number. *)
Lemma word_fields f x :
  wf_format f → in_width (width f) x →
  x = sign f x * 2 ^ (width f - 1) + raw_exp f x * 2 ^ mbits f + raw_mnt f x.
Proof.
  intros Hf Hx. pose proof (raw_mnt_range f x Hf) as Hr.
  rewrite <- (fp_pack_unpack f x Hf Hx) at 1.
  destruct (fp_pack_sum f (sign f x) (raw_exp f x) (signif f x) Hf (sign_range f x Hf Hx) (raw_exp_range f x Hf)) as [-> _].
  f_equal. unfold signif. destruct (_ =? 0); [by apply Z.mod_small|].
  rewrite <- Z.add_mod_idemp_l, Z.mod_same, Z.add_0_l by lia. by apply Z.mod_small.
Qed.

(** Words of the same sign are ordered like their magnitudes. *)
Lemma word_order f a b :
  wf_format f → in_width (width f) a → in_width (width f) b → sign f a = sign f b → (b <? a) = (mag f b <? mag f a).
Proof.
  intros Hf Ha Hb Hs. pose proof (word_fields f a Hf Ha) as Hwa. pose proof (word_fields f b Hf Hb) as Hwb. rewrite <- Hs in Hwb.
  pose proof (raw_mnt_range f a Hf). pose proof (raw_mnt_range f b Hf). pose proof (raw_exp_range f a Hf). pose proof (raw_exp_range f b Hf).
  assert (∀ x y, wf_format f → raw_exp f x < raw_exp f y → mag f x < mag f y) as Hlt.
  { clear - Hf. intros x y _ Hlt. pose proof (raw_exp_range f x Hf). destruct (decide (expo f x < expo f y)); [by apply mag_lt_expo|].
    assert (raw_exp f x = 0 ∧ raw_exp f y = 1) as [Ex Ey] by (unfold expo in *; lia).
    pose proof (raw_mnt_range f x Hf). pose proof (raw_mnt_range f y Hf). unfold mag, signif, expo. rewrite Ex, Ey.
    change (Z.max 1 0) with 1. change (Z.max 1 1) with 1. rewrite Z.sub_diag, Z.pow_0_r. cbn [Z.eqb]. lia. }
  destruct (Z.lt_trichotomy (raw_exp f b) (raw_exp f a)) as [He|[He|He]].
  - apply Hlt in He as Hm; [|done]. assert (b < a) by nia. destruct (Z.ltb_spec b a), (Z.ltb_spec (mag f b) (mag f a)); done || lia.
  - rewrite mag_cmp_signif by (done || unfold expo; by rewrite He). unfold signif. rewrite <- He.
    destruct (raw_exp f b =? 0); repeat match goal with |- context [?x <? ?y] => destruct (Z.ltb_spec x y) end; done || nia.
  - apply Hlt in He as Hm; [|done]. assert (a < b) by nia. destruct (Z.ltb_spec b a), (Z.ltb_spec (mag f b) (mag f a)); done || lia.
Qed.

Lemma repack_unpack f x : wf_format f → in_width (width f) x → fp_repack f (sign f x) (expo f x) (signif f x) = x.
Proof.
  intros Hf Hx. rewrite <- (fp_pack_unpack f x Hf Hx) at 4. unfold fp_repack. f_equal.
  pose proof (raw_mnt_range f x Hf). pose proof (raw_exp_range f x Hf). pose proof (wf_mbits f Hf). rewrite shiftr_div by lia. unfold signif, expo.
  destruct (Z.eqb_spec (raw_exp f x) 0) as [->|]; [by rewrite Z.div_small|].
  assert ((2 ^ mbits f + raw_mnt f x) / 2 ^ mbits f = 1) as -> by (symmetry; apply Z.div_unique with (r := raw_mnt f x); lia). cbn. lia.
Qed.

(** Which operand a maximum or minimum selects. *)
Lemma select_greater f a b :
  wf_format f → in_width (width f) a → in_width (width f) b →
  if nz (if negb (sign f a =? sign f b) then sign f b else Z.lxor (sign f a) (Z.b2z (b <? a)))
  then key f b ≤ key f a else key f a ≤ key f b.
Proof.
  intros Hf Ha Hb. pose proof (mag_nonneg f a Hf). pose proof (mag_nonneg f b Hf).
  destruct (Z.eqb_spec (sign f a) (sign f b)) as [Hs|Hs]; cbn [negb]; unfold key, signed.
  - rewrite (word_order f a b) by done. rewrite <- Hs.
    destruct (sign_range f a Hf Ha) as [-> | ->], (Z.ltb_spec (mag f b) (mag f a)); cbn [Z.eqb Z.b2z];
      match goal with |- context [nz ?t] => let v := eval vm_compute in (nz t) in change (nz t) with v end; cbv iota; lia.
  - destruct (sign_range f a Hf Ha) as [E|E], (sign_range f b Hf Hb) as [E'|E']; rewrite E, E' in *; try done; cbn; lia.
Qed.

Lemma no_NaNs f a b mode : wf_format f → is_NaN f a = false → is_NaN f b = false → fp_process_NaNs f a b mode 0 = (0, 0).
Proof. intros Hf Ha Hb. pose proof (process_NaNs_spec f a b mode 0 Hf) as H. cbv zeta in H. by rewrite Ha, Hb in H. Qed.

Lemma fplibMax_spec f a b fpscr :
  wf_format f → in_width (width f) a → in_width (width f) b → fpscr_fz fpscr = false → is_NaN f a = false → is_NaN f b = false →
  ∃ r, fplibMax f a b fpscr = (r, fpscr) ∧ (r = a ∨ r = b) ∧ key f a ≤ key f r ∧ key f b ≤ key f r.
Proof.
  intros Hf Ha Hb Hfz Hna Hnb. pose proof (modeConv_fz _ Hfz) as Hm. unfold fplibMax. rewrite !fp_unpack_spec by done.
  rewrite no_NaNs by done. change (nz 0) with false. cbn [sgn exp mnt]. rewrite !repack_unpack by done.
  pose proof (select_greater f a b Hf Ha Hb) as Hsel. destruct (nz _); eexists; (split; [done|]); split; auto; lia.
Qed.

Lemma fplibMin_spec f a b fpscr :
  wf_format f → in_width (width f) a → in_width (width f) b → fpscr_fz fpscr = false → is_NaN f a = false → is_NaN f b = false →
  ∃ r, fplibMin f a b fpscr = (r, fpscr) ∧ (r = a ∨ r = b) ∧ key f r ≤ key f a ∧ key f r ≤ key f b.
Proof.
  intros Hf Ha Hb Hfz Hna Hnb. pose proof (modeConv_fz _ Hfz) as Hm. unfold fplibMin. rewrite !fp_unpack_spec by done.
  rewrite no_NaNs by done. change (nz 0) with false. cbn [sgn exp mnt]. rewrite !repack_unpack by done.
  pose proof (select_greater f b a Hf Hb Ha) as Hsel. rewrite Z.eqb_sym in Hsel.
  assert ((if negb (sign f a =? sign f b) then sign f a else Z.lxor (sign f a) (Z.b2z (a <? b))) =
    (if negb (sign f a =? sign f b) then sign f a else Z.lxor (sign f b) (Z.b2z (a <? b)))) as ->
    by (by destruct (Z.eqb_spec (sign f a) (sign f b)) as [->|]).
  destruct (nz _); eexists; (split; [done|]); split; auto; lia.
Qed.

(** The code's test for a quiet NaN. *)
Lemma not_qnan_spec f x :
  wf_format f → in_width (width f) x →
  nz (Z.shiftr (bnot (width f) (wrap (width f) (Z.shiftl x 1))) (mbits f)) = negb (is_NaN f x && quiet f x).
Proof.
  intros Hf Hx. pose proof (word_fields f x Hf Hx) as Hw. pose proof (raw_mnt_range f x Hf). pose proof (raw_exp_range f x Hf).
  pose proof (sign_range f x Hf Hx) as Hs. rewrite <- testbit_raw_mnt by done. unfold is_NaN, in_width in *. destruct Hf as [? ? Hwd _ Hem _].
  set (k := width f - mbits f - 1) in *. set (P := 2 ^ mbits f) in *.
  assert (2 ^ (width f - 1) = 2 ^ k * P) as HP by (unfold P; rewrite <- Z.pow_add_r by lia; f_equal; lia).
  assert (2 ^ width f = 2 * 2 ^ (width f - 1)) as HW by (rewrite <- Z.pow_succ_r by lia; f_equal; lia).
  assert (P = 2 * 2 ^ (mbits f - 1)) as HP' by (unfold P; rewrite <- Z.pow_succ_r by lia; f_equal; lia).
  pose proof (pow2_pos (mbits f - 1) ltac:(lia)). pose proof (pow2_pos k ltac:(lia)).
  set (y := raw_exp f x * P + raw_mnt f x). assert (0 ≤ y < 2 ^ (width f - 1)) by (unfold y; nia).
  assert (wrap (width f) (Z.shiftl x 1) = 2 * y) as ->.
  { rewrite Z.shiftl_mul_pow2 by lia. unfold wrap. symmetry. apply Z.mod_unique with (q := sign f x); [lia|]. unfold y. nia. }
  assert (bnot (width f) (2 * y) = 2 ^ width f - 1 - 2 * y) as ->.
  { unfold bnot, wrap. symmetry. apply Z.mod_unique with (q := -1); [lia|]. pose proof (Z.add_lnot_diag (2 * y)). lia. }
  rewrite shiftr_div by lia. fold P.
  assert (Z.testbit (raw_mnt f x) (mbits f - 1) = (2 ^ (mbits f - 1) <=? raw_mnt f x)) as ->.
  { destruct (Z.leb_spec (2 ^ (mbits f - 1)) (raw_mnt f x)).
    - apply Z.testbit_true; [lia|]. replace (raw_mnt f x / 2 ^ (mbits f - 1)) with 1; [done|].
      apply Z.div_unique with (r := raw_mnt f x - 2 ^ (mbits f - 1)); lia.
    - apply (testbit_out (mbits f - 1)); [split; lia|lia]. }
  unfold nz. f_equal.
  destruct (Z.eqb_spec ((2 ^ width f - 1 - 2 * y) / P) 0) as [Hq|Hq].
  - apply Z.div_small_iff in Hq; [|lia]. assert (raw_exp f x = emax f) as He by (unfold y in *; nia). rewrite He, Z.eqb_refl.
    assert (2 ^ (mbits f - 1) ≤ raw_mnt f x) by (unfold y in *; nia).
    destruct (Z.leb_spec (2 ^ (mbits f - 1)) (raw_mnt f x)); [|lia]. destruct (Z.eqb_spec (raw_mnt f x) 0); [lia|done].
  - destruct (Z.eqb_spec (raw_exp f x) (emax f)) as [He|He]; [|done].
    destruct (Z.leb_spec (2 ^ (mbits f - 1)) (raw_mnt f x)); [|by rewrite andb_false_r].
    exfalso. apply Hq. apply Z.div_small. unfold y. rewrite He, Hem. nia.
Qed.

(** The infinities are numbers, and the extremes. *)
Lemma infinity_facts f s :
  wf_format f → (s = 0 ∨ s = 1) →
  in_width (width f) (fp_infinity f s) ∧ is_NaN f (fp_infinity f s) = false ∧ sign f (fp_infinity f s) = s ∧
  0 < mag f (fp_infinity f s) ∧ ∀ x, is_NaN f x = false → mag f x ≤ mag f (fp_infinity f s).
Proof.
  intros Hf Hs. pose proof (emax_pos f Hf). unfold fp_infinity.
  destruct (fp_pack_sum f s (emax f) 0 Hf Hs ltac:(lia)) as [_ Hw]. destruct (fp_pack_fields f s (emax f) 0 Hf Hs ltac:(lia)) as (Hsg & He & Hm).
  pose proof (pow2_pos (mbits f) ltac:(pose proof (wf_mbits f Hf); lia)). rewrite Z.mod_0_l in Hm by lia.
  set (i := fp_pack f s (emax f) 0) in *. split; [done|]. split; [unfold is_NaN; by rewrite Hm, andb_false_r|]. split; [done|].
  assert (expo f i = emax f) as Hei by (unfold expo; rewrite He; lia). split.
  { unfold mag, signif. rewrite Hei, He, Hm. destruct (Z.eqb_spec (emax f) 0); [lia|]. pose proof (pow2_pos (emax f - 1) ltac:(lia)). nia. }
  intros x Hx. destruct (signif_range f x Hf) as (_ & _ & Hxe).
  destruct (decide (expo f x < emax f)); [apply Z.lt_le_incl, mag_lt_expo; [done|lia]|].
  assert (expo f x = emax f) as Hex by lia. assert (raw_exp f x = emax f) as Hrx by (unfold expo in Hex; lia).
  unfold is_NaN in Hx. rewrite Hrx, Z.eqb_refl in Hx. apply nz_false in Hx. unfold mag, signif. rewrite Hei, Hex, He, Hrx, Hm, Hx. lia.
Qed.

(** Against the infinity of the sign that loses, the other operand is returned. *)
Lemma fplibMax_infinity f x fpscr :
  wf_format f → in_width (width f) x → fpscr_fz fpscr = false → is_NaN f x = false →
  fplibMax f (fp_infinity f 1) x fpscr = (x, fpscr) ∧ fplibMax f x (fp_infinity f 1) fpscr = (x, fpscr).
Proof.
  intros Hf Hx Hfz Hn. destruct (infinity_facts f 1 Hf ltac:(by right)) as (Hiw & Hin & His & Hip & Him).
  specialize (Him x Hn). pose proof (mag_nonneg f x Hf). assert (key f (fp_infinity f 1) ≤ key f x) as Hle.
  { unfold key, signed. rewrite His. cbn [Z.eqb]. destruct (sign f x =? 0); lia. }
  assert (∀ r, (r = fp_infinity f 1 ∨ r = x) → key f x ≤ key f r → r = x) as Huniq.
  { intros r [-> | ->] Hr; [|done]. destruct (key_inj f (fp_infinity f 1) x Hf Hiw Hx Hin Hn ltac:(lia)) as [?|[Hz _]]; [done|]. lia. }
  destruct (fplibMax_spec f (fp_infinity f 1) x fpscr Hf Hiw Hx Hfz Hin Hn) as (r & -> & Hr & _ & Hrk).
  destruct (fplibMax_spec f x (fp_infinity f 1) fpscr Hf Hx Hiw Hfz Hn Hin) as (r' & -> & Hr' & Hrk' & _).
  by rewrite (Huniq r Hr Hrk), (Huniq r' ltac:(tauto) Hrk').
Qed.

Lemma fplibMin_infinity f x fpscr :
  wf_format f → in_width (width f) x → fpscr_fz fpscr = false → is_NaN f x = false →
  fplibMin f (fp_infinity f 0) x fpscr = (x, fpscr) ∧ fplibMin f x (fp_infinity f 0) fpscr = (x, fpscr).
Proof.
  intros Hf Hx Hfz Hn. destruct (infinity_facts f 0 Hf ltac:(by left)) as (Hiw & Hin & His & Hip & Him).
  specialize (Him x Hn). pose proof (mag_nonneg f x Hf). assert (key f x ≤ key f (fp_infinity f 0)) as Hle.
  { unfold key, signed. rewrite His. cbn [Z.eqb]. destruct (sign f x =? 0); lia. }
  assert (∀ r, (r = fp_infinity f 0 ∨ r = x) → key f r ≤ key f x → r = x) as Huniq.
  { intros r [-> | ->] Hr; [|done]. destruct (key_inj f (fp_infinity f 0) x Hf Hiw Hx Hin Hn ltac:(lia)) as [?|[Hz _]]; [done|]. lia. }
  destruct (fplibMin_spec f (fp_infinity f 0) x fpscr Hf Hiw Hx Hfz Hin Hn) as (r & -> & Hr & _ & Hrk).
  destruct (fplibMin_spec f x (fp_infinity f 0) fpscr Hf Hx Hiw Hfz Hn Hin) as (r' & -> & Hr' & Hrk' & _).
  by rewrite (Huniq r Hr Hrk), (Huniq r' ltac:(tauto) Hrk').
Qed.

(** Minimum and maximum.  With flush-to-zero off, for both precisions: of two operands that
    are not NaNs, [fplibMax] returns one that is not less, and [fplibMin] one that is not greater,
    than either, unchanged and without exceptions; [fplibMaxNum] and [fplibMinNum] return the
    other operand, unchanged and without exceptions, when exactly one is a quiet NaN and the other
    a number. *)
Theorem fplibMinMax_correct f a b q fpscr :
  f = F32 ∨ f = F64 → in_width (width f) a → in_width (width f) b → in_width (width f) q → fpscr_fz fpscr = false →
  is_NaN f a = false → is_NaN f b = false → is_NaN f q = true → quiet f q = true →
  (∃ r, fplibMax f a b fpscr = (r, fpscr) ∧ (r = a ∨ r = b) ∧ key f a ≤ key f r ∧ key f b ≤ key f r) ∧
  (∃ r, fplibMin f a b fpscr = (r, fpscr) ∧ (r = a ∨ r = b) ∧ key f r ≤ key f a ∧ key f r ≤ key f b) ∧
  fplibMaxNum f q a fpscr = (a, fpscr) ∧ fplibMaxNum f a q fpscr = (a, fpscr) ∧
  fplibMinNum f q a fpscr = (a, fpscr) ∧ fplibMinNum f a q fpscr = (a, fpscr).
Proof.
  intros Hff Ha Hb Hq Hfz Hna Hnb Hnq Hqq. assert (wf_format f) as Hf by (destruct Hff as [-> | ->]; [apply wf_F32|apply wf_F64]).
  split; [by apply fplibMax_spec|]. split; [by apply fplibMin_spec|].
  destruct (infinity_facts f 0 Hf ltac:(by left)) as (Hiw & Hin & _). destruct (infinity_facts f 1 Hf ltac:(by right)) as (Hiw' & Hin' & _).
  destruct (fplibMax_infinity f a fpscr Hf Ha Hfz Hna) as [Hm1 Hm2]. destruct (fplibMin_infinity f a fpscr Hf Ha Hfz Hna) as [Hm3 Hm4].
  unfold fplibMaxNum, fplibMinNum, fp_minmaxnum. rewrite !not_qnan_spec by done. rewrite Hna, Hnq, Hqq. cbn [andb negb].
  rewrite !not_qnan_spec by done. rewrite Hna, ?Hin, ?Hin'. cbn [andb negb]. done.
Qed.

(** One, two and a quiet NaN. *)
Lemma fplibMinMax_correct_witness :
  fplibMax F32 0x3f800000 0x40000000 0 = (0x40000000, 0) ∧ fplibMaxNum F32 0x7fc00000 0x3f800000 0 = (0x3f800000, 0).
Proof.
  assert (in_width (width F32) 0x3f800000) as Ha by (by vm_compute). assert (in_width (width F32) 0x40000000) as Hb by (by vm_compute).
  assert (in_width (width F32) 0x7fc00000) as Hq by (by vm_compute).
  destruct (fplibMinMax_correct F32 _ _ _ 0 (or_introl eq_refl) Ha Hb Hq eq_refl eq_refl eq_refl eq_refl eq_refl) as (_ & _ & H & _).
  split; [by vm_compute|exact H].
Defined.

End FplibProofs.
